(* ===== verification/_CoqProject ===== *)
-Q . S2P
Prelude.v
Wal.v
Common.v
Auth.v
Utf8.v
Json.v
Metastore.v
Exclusions.v
Control.v
Ingest.v
Worker.v
Dynamic.v
Storage.v
SplitFile.v
BlockCache.v
Placement.v
Cluster.v
Reconcile.v
Replication.v
Order.v
Float64.v
Dates.v
Net.v
Mapping.v
Document.v
QueryDsl.v
Sort.v
Search.v
Bulk.v
Updates.v
BulkApi.v
BulkOrder.v
BulkForward.v
DocApi.v
LogQl.v
Loki.v
LokiMetric.v
LokiApi.v
Inputs.v
SearchApi.v
