(* ===== verification/Prelude.v ===== *)
(** * rSearch: a verification development

    rSearch (src/crates) is a search server with the Elasticsearch API: nodes
    ingest JSON documents into a write-ahead log, workers batch them into
    immutable splits kept in object storage and described by a PostgreSQL
    metastore, searchers open the splits lazily through a block cache, and one
    control plane merges, expires and collects them.  This development models
    that path, from a request to the bytes on disk and back to a page of hits,
    and proves what each part promises to the next.

    ** The parts

    This file: lists of bytes, options, results, UTF-8, fixed-width integers,
    the association lists behind JSON objects, and the tactics and hints the
    other files share.

    *** Writing

    - [Wal]: the write-ahead log (rsearch-ingest/src/wal.rs): the record format,
      append, rotation, group commit, confirmation and collection of segments,
      [Wal::open], and the replay iterator.  A disk maps names to byte strings
      with, per file, how much an fsync made durable.
    - [Ingest]: the front end (pipeline.rs, [IngestPipeline]): the sequence
      clock, routing rules, the stream cache, batches of external documents,
      replay of the log at start.
    - [Worker]: the per-stream worker and its flush (pipeline.rs, the second
      half): build, upload, stage, publish, then confirm.
    - [Mapping], [Document], [Dates]: index mappings and normalizers
      (rsearch-index/src/mapping.rs, normalizer.rs, and the mapping updates of
      rsearch-server/src/search_api.rs), documents into typed fields
      (document.rs), and the date grammar (date.rs).
    - [Bulk], [Updates], [BulkApi], [BulkOrder]: bulk requests
      (rsearch-ingest/src/bulk.rs, rsearch-server/src/bulk_api.rs): the wire
      format, partial updates, a request from its body to its answers, and the
      order of its stamps after recorded deletions.
    - [BulkForward], [DocApi]: the handoff of requests between nodes
      (bulk_forward.rs), and the document routes, delete by query included
      (doc_api.rs).
    - [Inputs]: the network inputs (rsearch-ingest: gelf.rs, syslog.rs,
      inputs.rs): GELF and syslog messages, the framing of their streams, and
      the batches handed to the front end.
    - [SplitFile]: the bundle a split is stored as and the builder's counters
      (split_file.rs, builder.rs).

    *** Storing

    - [Storage]: one node's object root (rsearch-storage/src/fs.rs) as sequences
      of file-system calls, and ranges on the wire (peer.rs, internal_api.rs).
    - [BlockCache]: the two-tier cache and lazy reads of a bundle
      (rsearch-index/src/cache.rs, storage_directory.rs).
    - [Placement], [Cluster], [Replication], [Reconcile]: which node holds what
      (rsearch-metastore/src/locations.rs, nodes.rs), the replicated backend and
      its peer endpoints (replicated.rs, peer.rs, internal_api.rs), repair and
      drain (control.rs), and the hourly sweep of a node (reconcile.rs).
    - [Metastore]: streams, splits and tombstones (metastore.rs, control.rs,
      tombstones.rs of rsearch-metastore), one function per statement.
    - [Control]: merge, compaction, schema upgrade, retention, purge and
      collection (rsearch-server/src/control.rs).

    *** Searching

    - [Exclusions]: deleted versions hidden from a split (exclusions.rs) and the
      cache of tombstones (executor.rs).
    - [Dynamic]: the unmapped paths of a segment (dynamic_paths.rs).
    - [QueryDsl]: queries into the index library's queries, and the time bounds
      that choose splits (rsearch-search/src/query_dsl.rs).
    - [Sort]: field sorts, cursors and the per-split collector (sort.rs), over
      [Order] (comparison functions, bounded heaps, pages of a sorted list),
      [Float64] and [Net].
    - [Search]: the request, the concurrent split tasks, the merge, the page and
      lookups by id (executor.rs).
    - [SearchApi]: the search routes (rsearch-server/src/search_api.rs: search,
      scroll, multi-search, count) and the scroll rows
      (rsearch-metastore/src/scroll.rs).

    *** The Loki routes

    - [Utf8], [LogQl]: text as a sequence of characters, and the LogQL parser
      (rsearch-search/src/logql.rs).
    - [Loki], [LokiMetric], [LokiApi]: the routes
      (rsearch-server/src/loki_api.rs): parameters, times, selectors and log
      queries; counts per series and the points of their steps; the handlers and
      the live tail.

    *** Access

    - [Common]: node roles, index auto-creation, the write quorum, password
      hashes, globs (rsearch-common).
    - [Auth]: sessions, API keys, the middleware and its caches
      (rsearch-server/src/auth.rs, auth_api.rs, rsearch-metastore/src/auth.rs).

    [Json] is the [serde_json::Value] the last four groups exchange.

    ** How they meet

    [BulkApi] resolves a request against [Metastore]'s streams through
    [Ingest]'s cache, checks documents with [Document], appends to [Wal] and
    hands copies to the queues of [Ingest]; [BulkForward] runs it on a server or
    its peer ([Placement]'s registry), and [DocApi] writes its bodies.  [Ingest] owns a [Wal] and hands documents to [Worker]; a worker's flush
    calls [Metastore]'s stage and publish and confirms in the [Wal].  [Control]
    rewrites splits under the exclusions of [Exclusions] and through the same
    tables.  [Storage]'s [Reader] class is what [BlockCache] reads through, and
    [Replication] extends the object root of [Storage] to many nodes, with
    [Placement] for the rows.  [Document] runs under the schema [Mapping]
    builds; [QueryDsl] and [Sort] resolve fields in that schema; [Search]
    composes [Metastore], [Exclusions], [QueryDsl] and [Sort].  [SearchApi]
    takes the search service as an argument, and its theorems hold of the one
    [Search] gives ([SearchApi.stream_service]).  [Inputs] hands its batches to
    what [Ingest] models as a batch of external documents.  The metastore's
    lookups are an interface to [Auth] ([AuthBackend]) that the tables
    implement.

    ** What is shown

    - Durability: an acknowledged record survives a crash until it is confirmed
      ([Wal.acked_record_survives_crash]), a torn or corrupt tail loses only the
      records it touches ([Wal.wal_replay_torn_tail]), a worker loses nothing
      ([Worker.worker_keeps_every_document]), a flush confirms only what it
      published or gave up for a stated reason
      ([Worker.flush_confirms_only_processed]), all of it
      ([Worker.flush_settles_log]), and ends once the outside answers
      ([Worker.flush_finishes]); a batch leaves the log owing what was handed on
      ([Ingest.ingest_external_accounts]).
    - Requests: a bulk write is acknowledged exactly when a worker has a copy
      and the log owes exactly those ([BulkApi.bulk_ack_exact]), whichever
      server ran it ([BulkForward.execute_keeps_word]); nothing is hidden before
      what replaces it is handed over ([BulkApi.bulk_hides_only_replaced]), and
      nothing acknowledged is hidden by an earlier deletion
      ([BulkOrder.bulk_write_above_bounds]); every action is answered once, in
      order; a delete by query counts what it deleted
      ([DocApi.delete_by_query_exact]); a merge reads as its two sides say
      ([Updates.merge_reads]).
    - Replication: a write that answers has its quorum, one that fails leaves
      nothing, reads fall back, repair and drain restore or keep the factor, and
      neither the sweep nor expiry forgets a last copy.
    - Splits: a bundle round trips, a cached read is the slice of the file
      whatever the tiers hold, and completes; the tiers' accounts balance.
    - Life of a split: its states only move forward; a rebuild and a purge change
      nothing a reader sees; a reader's tombstones miss nothing.
    - Mappings and documents: a stored mapping reads back as declared, an update
      keeps what was there, the write check agrees with the conversion, a
      literal denotes its instant.
    - Inputs: a stream's documents are those of its frames, however the bytes
      arrive ([Inputs.read_lines_exact], [Inputs.read_gelf_exact]); every batch
      is handed over once, in order ([Inputs.batcher_hands_all]); every syslog
      line gets a document and a written one reads back
      ([Inputs.parse_syslog_total], [Inputs.parse_syslog_print]).
    - Searching: a page is exactly its slice of all live matching hits in every
      interleaving of the split tasks ([Search.page_exact]); following
      [search_after] lists each once ([Search.search_after_tiles]), and so
      does a scroll ([SearchApi.scroll_reads_all]), which a scoped identity
      frees only in its scope ([SearchApi.clear_scrolls_scoped]); a count is
      exact ([SearchApi.count_exact]); the total
      is sound ([Search.total_sound]); splits left out hold nothing the query
      matches ([Search.pruned_split_has_nothing]); a [bool] means its sections
      ([QueryDsl.bool_reference]); a term query names what was indexed
      ([QueryDsl.term_finds_indexed]); a split's collector gives the first hits
      past the cursor ([Sort.collect_split_exact]).
    - LogQL: every query the parser knows is read back from its text, whatever
      the white space and the strings ([LogQl.parse_print]), and every text gets
      an answer ([LogQl.parse_answers]).
    - Loki: a log query without warnings returns the first lines of all that
      match ([Loki.log_query_exact]); a selector finds the documents its
      matchers allow ([Loki.selector_query_exact]); a point of a filtered metric
      counts the lines of its window ([LokiMetric.metric_points_exact]); a range
      query is answered ([LokiApi.query_range_answers]); a tail tells each line
      it reads once ([LokiApi.tail_emits_once]).
    - Access: with enforcement on, a handler runs only on the open surface or
      for an identity that is vouched for and permitted
      ([Auth.require_authorised]).
    - Where the code does not do what it says, a theorem states what it does:
      [Dates.bad_offset_panics], [QueryDsl.wide_space_panics],
      [QueryDsl.double_bound_prunes_matches], [Sort.absent_substitute_skipped],
      [Search.track_true_is_capped], [Mapping.repeated_path_accepted],
      [Document.long_altered_beyond_2_53] and others beside their definitions.

    ** Modelling

    State is threaded; an error is a value of a [result]; a call that may panic
    says so in its outcomes ([parsed] in [Dates], [Panic] in [Document],
    [Panicked] in [QueryDsl]).  Integers are [Z] with their wrap or saturation
    written where the code has it; strings are bytes, checked for UTF-8 where
    the code slices or decodes; a [BTreeMap] is a list sorted by key, a
    [HashMap] or a table a [gmap], a [BinaryHeap] its entries in order.  Text is
    ordered by bytes.  Placement times are milliseconds, file times seconds; one
    call reads its clock once.

    Concurrency is explicit where it matters: group commit in [Wal] is a step
    relation, the other readers of [BlockCache] an environment between the
    passes of a read, [Storage] a list of file-system calls that can be cut
    anywhere, the tasks of a search a list of their reads and writes of the
    shared counter in any order.  What the network, a disk, the metastore or a
    channel answers is an argument of the call that asks.

    What is not under src/ is a class or a parameter with the laws used of it:
    hashes, the random generator, JSON and number printing and parsing, the
    index library's terms, postings, columns, dictionaries, tokenizers, regex
    compiler and query-string parser, the [regex] crate, form decoding, RFC 3339
    instants, the [lru] crate, the [time] crate's calendar, case and folding
    tables.  Every theorem under such a hypothesis
    has a witness at a concrete instance.

    Fuel: loops over a byte string or a text take its length (each step consumes
    a byte; [LogQl] one more),
    [Wal]'s replay the length of the files, [Dynamic]'s scan the number of keys
    and one, [BlockCache]'s eviction the number of entries and its reads the
    number of passes given, [Reconcile]'s verification the number of rows and
    one (each page removes or passes a row), [Control]'s retention a round per
    batch, [LokiMetric]'s gcd twice the bits of its arguments and a step more,
    its points as many rounds as the bucket check lets through.  In each file a lemma shows that much is enough.

    ** Simplifications

    In [Wal] file-system calls succeed, but for opening a missing segment.
    [Control]'s builder stores a document as given; in [Worker] what the builder
    does with a document is an argument, and a task lost to a runtime shutdown
    is outside the flush theorems.  A key of [Storage] does not name a directory.
    In [Replication] the cluster token is right, routes are a function, and
    pushes still running when a write is acknowledged are returned to the caller
    of the model.  A field's handle in the index library is its name.  Opening a
    split's reader in [Search] is an outcome given with the split; aggregations
    are the library's, only their presence matters, and the stream and reader
    caches are left out.  The search service is an argument of the Loki routes,
    with the cached stream names and label fields and the order in which streams
    answer; the pings, the deadline and the frames of a tail's socket are left
    out; so are the sockets, TLS and connection caps of [Inputs], whose streams
    are the chunks a read returns.  The database's
    [make_interval] is a parameter of [SearchApi].

    ** Not modelled

    HTTP handlers beyond bulk and document writes, searches and scrolls, the
    mapping updates, the peer endpoints, authentication and Loki: index creation
    and deletion, refresh and the administration routes (they decode, call what
    is modelled, and encode); alerting (rows and a webhook); the advisory lock of
    leadership; the S3 backend (calls to a crate); process set-up, metrics and
    TLS; the tokenizer (a third-party Unicode table); the load generator, user interface, scripts and migrations. *)

From Stdlib Require Import ZArith Lia Bool DecimalN DecimalFacts.
From Stdlib Require Import Strings.Byte.
From stdpp Require Import base gmap sets list strings sorting.

Local Open Scope Z_scope.

(** ** Results of fallible code: Rust's [Result<T, E>] *)

Inductive result (E A : Type) : Type :=
| Ok (a : A)
| Err (e : E).
Arguments Ok {E A} a.
Arguments Err {E A} e.

#[export] Instance result_ret {E} : MRet (result E) := fun A a => Ok a.
#[export] Instance result_bind {E} : MBind (result E) := fun A B f r =>
  match r with Ok a => f a | Err e => Err e end.
#[export] Instance result_fmap {E} : FMap (result E) := fun A B f r =>
  match r with Ok a => Ok (f a) | Err e => Err e end.

Definition is_ok {E A} (r : result E A) : bool :=
  match r with Ok _ => true | Err _ => false end.

(** Rust's [Option::ok_or] and [Result::ok]. *)
Definition ok_or {E A} (o : option A) (e : E) : result E A :=
  match o with Some a => Ok a | None => Err e end.
Definition result_ok {E A} (r : result E A) : option A :=
  match r with Ok a => Some a | Err _ => None end.

(** ** Machine integers: [Z] with the width written out *)

Declare Scope rs_scope.
Delimit Scope rs_scope with rs.

Definition U8_MAX : Z := 2 ^ 8 - 1.
Definition U16_MAX : Z := 2 ^ 16 - 1.
Definition U32_MAX : Z := 2 ^ 32 - 1.
Definition U64_MAX : Z := 2 ^ 64 - 1.
Definition I64_MAX : Z := 2 ^ 63 - 1.
Definition I64_MIN : Z := - 2 ^ 63.

Definition wrap_u (w z : Z) : Z := z mod 2 ^ w.
(** Reading the low [w] bits as two's complement: Rust's [as i64]. *)
Definition wrap_s (w z : Z) : Z :=
  let m := z mod 2 ^ w in if (m <? 2 ^ (w - 1))%Z then m else (m - 2 ^ w)%Z.

Definition is_u (w z : Z) : Prop := (0 <= z < 2 ^ w)%Z.
Definition is_i64 (z : Z) : Prop := (I64_MIN <= z <= I64_MAX)%Z.

Definition sat_i64 (z : Z) : Z := Z.max I64_MIN (Z.min I64_MAX z).
Definition sat_u64 (z : Z) : Z := Z.max 0 (Z.min U64_MAX z).
(** Checked arithmetic: [None] where the exact result leaves the type. *)
Definition checked_i64 (z : Z) : option Z :=
  if bool_decide (I64_MIN <= z <= I64_MAX)%Z then Some z else None.
Definition checked_u64 (z : Z) : option Z :=
  if bool_decide (0 <= z <= U64_MAX)%Z then Some z else None.

Lemma wrap_s_id z : is_i64 z -> wrap_s 64 z = z.
Proof.
  unfold is_i64, I64_MIN, I64_MAX, wrap_s. intros H.
  destruct (Z.ltb_spec (z mod 2 ^ 64) (2 ^ (64 - 1))) as [Hlt|Hge];
    destruct (Z.leb_spec 0 z).
  - apply Z.mod_small. lia.
  - assert (z mod 2 ^ 64 = z + 2 ^ 64)%Z by (symmetry; apply Z.mod_unique with (-1)%Z; lia). lia.
  - rewrite Z.mod_small in Hge |- * by lia. lia.
  - assert (z mod 2 ^ 64 = z + 2 ^ 64)%Z by (symmetry; apply Z.mod_unique with (-1)%Z; lia). lia.
Qed.

Lemma wrap_s_wrap_u z : wrap_s 64 (wrap_u 64 z) = wrap_s 64 z.
Proof. unfold wrap_s, wrap_u. by rewrite Z.mod_mod by lia. Qed.

(** ** Bytes, and Rust strings as their UTF-8 bytes *)

Notation bytes := (list byte).

#[export] Instance byte_eq_dec : EqDecision byte := fun a b =>
  match Byte.eqb a b as e return Byte.eqb a b = e -> Decision (a = b) with
  | true => fun H => left (@Byte.byte_dec_bl a b H)
  | false => fun H => right (fun E => Bool.diff_true_false (eq_trans (eq_sym (Byte.byte_dec_lb E)) H))
  end eq_refl.
#[export] Program Instance byte_countable : Countable byte :=
  inj_countable Byte.to_N Byte.of_N Byte.of_to_N.

(** A string literal as the bytes a Rust literal denotes. *)
Definition str (s : string) : bytes := String.list_byte_of_string s.

Definition bz (b : byte) : Z := Z.of_N (Byte.to_N b).
Definition b8 (z : Z) : byte :=
  match Byte.of_N (Z.to_N (z mod 256)) with Some b => b | None => x00 end.

Lemma bz_range b : (0 <= bz b < 256)%Z.
Proof. unfold bz. pose proof (Byte.to_N_bounded b). lia. Qed.

Lemma b8_bz b : b8 (bz b) = b.
Proof.
  unfold b8, bz. rewrite Z.mod_small by (pose proof (Byte.to_N_bounded b); lia).
  by rewrite N2Z.id, Byte.of_to_N.
Qed.

Lemma bz_b8 z : bz (b8 z) = (z mod 256)%Z.
Proof.
  unfold b8, bz. pose proof (Z.mod_pos_bound z 256 ltac:(lia)).
  destruct (Byte.of_N (Z.to_N (z mod 256))) as [b|] eqn:E.
  - apply Byte.to_of_N in E. rewrite E. lia.
  - exfalso. apply Byte.of_N_None_iff in E. lia.
Qed.

Lemma bz_inj a b : bz a = bz b -> a = b.
Proof. intros H. by rewrite <- (b8_bz a), <- (b8_bz b), H. Qed.

Notation blen l := (Z.of_nat (length l)).

(** *** Little-endian integers: [to_le_bytes] and [from_le_bytes] *)

Fixpoint le_bytes (n : nat) (z : Z) : bytes :=
  match n with
  | O => []
  | S k => b8 z :: le_bytes k (z / 256)%Z
  end.

Fixpoint le_num (l : bytes) : Z :=
  match l with
  | [] => 0
  | b :: l => (bz b + 256 * le_num l)%Z
  end.

Lemma le_bytes_length n z : length (le_bytes n z) = n.
Proof. revert z; induction n; intros; simpl; congruence. Qed.

Lemma le_num_bytes n z : le_num (le_bytes n z) = (z mod 256 ^ Z.of_nat n)%Z.
Proof.
  revert z; induction n as [|n IH]; intros z; [by rewrite Z.mod_1_r|].
  cbn [le_bytes le_num]. rewrite IH, bz_b8, Nat2Z.inj_succ, Z.pow_succ_r by lia.
  rewrite (Z.rem_mul_r z 256) by lia. reflexivity.
Qed.

Lemma le_num_range l : (0 <= le_num l < 256 ^ blen l)%Z.
Proof.
  induction l as [|b l IH]; [simpl; lia|]. cbn [le_num length].
  rewrite Nat2Z.inj_succ, Z.pow_succ_r by lia. pose proof (bz_range b). lia.
Qed.

Lemma le_bytes_num l : le_bytes (length l) (le_num l) = l.
Proof.
  induction l as [|b l IH]; [done|]. cbn [length le_num le_bytes]. pose proof (bz_range b). f_equal.
  - rewrite <- (b8_bz b) at 2. unfold b8 at 1 2. do 2 f_equal. f_equal.
    replace (bz b + 256 * le_num l)%Z with (bz b + le_num l * 256)%Z by lia.
    by rewrite Z.mod_add by lia.
  - replace (bz b + 256 * le_num l)%Z with (bz b + le_num l * 256)%Z by lia.
    rewrite Z.div_add, (Z.div_small (bz b)) by lia. by rewrite Z.add_0_l.
Qed.

(** *** [str] operations *)

Fixpoint strip_prefix (p l : bytes) : option bytes :=
  match p, l with
  | [], _ => Some l
  | a :: p, b :: l => if Byte.eqb a b then strip_prefix p l else None
  | _ :: _, [] => None
  end.
Definition starts_with (l p : bytes) : bool := bool_decide (is_Some (strip_prefix p l)).
Definition strip_suffix (s l : bytes) : option bytes :=
  reverse <$> strip_prefix (reverse s) (reverse l).
Definition ends_with (l s : bytes) : bool := bool_decide (is_Some (strip_suffix s l)).

(** [str::find] of a substring: the first byte offset it occurs at. *)
Fixpoint find (p l : bytes) : option nat :=
  if starts_with l p then Some O
  else match l with [] => None | _ :: l => S <$> find p l end.
Definition contains (l p : bytes) : bool := bool_decide (is_Some (find p l)).

(** [str::split_once] and [str::rsplit_once] on a one-byte character. *)
Fixpoint split_once (c : byte) (l : bytes) : option (bytes * bytes) :=
  match l with
  | [] => None
  | b :: l =>
      if Byte.eqb b c then Some ([], l)
      else '(x, y) ← split_once c l; Some (b :: x, y)
  end.
Fixpoint rsplit_once (c : byte) (l : bytes) : option (bytes * bytes) :=
  match l with
  | [] => None
  | b :: l' =>
      match rsplit_once c l' with
      | Some (x, y) => Some (b :: x, y)
      | None => if Byte.eqb b c then Some ([], l') else None
      end
  end.
Lemma split_once_app c l r : forallb (fun b => negb (Byte.eqb b c)) l = true ->
  split_once c (l ++ r) = ('(a, b) ← split_once c r; Some (l ++ a, b)).
Proof.
  induction l as [|b l IH]; simpl; [by destruct (split_once c r) as [[]|]|].
  intros [Hb Hl]%andb_true_iff. apply negb_true_iff in Hb. rewrite Hb, IH by done.
  by destruct (split_once c r) as [[]|].
Qed.
Lemma split_once_parts c l a r : split_once c l = Some (a, r) -> l = a ++ c :: r.
Proof.
  revert a. induction l as [|b l IH]; [done|]. intros a. simpl.
  destruct (Byte.eqb b c) eqn:E; [intros [= <- <-]; by rewrite (Byte.byte_dec_bl _ _ E)|].
  destruct (split_once c l) as [[x y]|] eqn:E2; [|done]. simpl. intros [= <- <-]. by rewrite (IH x eq_refl).
Qed.
Lemma split_once_at c a r : c ∉ a -> split_once c (a ++ c :: r) = Some (a, r).
Proof.
  intros Hn. rewrite split_once_app.
  - simpl. rewrite (Byte.byte_dec_lb eq_refl). simpl. by rewrite app_nil_r.
  - apply forallb_forall. intros b Hb. apply negb_true_iff. destruct (Byte.eqb b c) eqn:E; [|done].
    apply Byte.byte_dec_bl in E as ->. by apply list_elem_of_In in Hb.
Qed.
Lemma rsplit_once_Some c l x y : rsplit_once c l = Some (x, y) -> l = x ++ c :: y.
Proof.
  revert x y. induction l as [|b l IH]; intros x y; simpl; [done|].
  destruct (rsplit_once c l) as [[x' y']|].
  - intros [= <- <-]. by rewrite (IH x' y' eq_refl).
  - destruct (Byte.eqb b c) eqn:E; [|done]. intros [= <- <-]. apply Byte.byte_dec_bl in E. by subst.
Qed.

(** [str::split] on a one-byte character: always at least one piece. *)
Fixpoint split_on (c : byte) (l : bytes) : list bytes :=
  match l with
  | [] => [[]]
  | b :: l =>
      if Byte.eqb b c then [] :: split_on c l
      else match split_on c l with
           | w :: ws => (b :: w) :: ws
           | [] => [[b]]
           end
  end.

(** Width of a leading [char] with the Unicode [White_Space] property, in
    UTF-8 (what [str::trim] strips); 0 when there is none. *)
Definition ws_width (l : bytes) : nat :=
  match l with
  | a :: r =>
      let z := bz a in
      if ((9 <=? z) && (z <=? 13) || (z =? 32))%Z then 1%nat
      else match r with
      | b :: r =>
          let y := bz b in
          if ((z =? 0xC2) && ((y =? 0x85) || (y =? 0xA0)))%Z then 2%nat
          else match r with
          | c :: _ =>
              let x := bz c in
              if ((z =? 0xE1) && (y =? 0x9A) && (x =? 0x80)
                  || (z =? 0xE2) && (y =? 0x80) &&
                     ((0x80 <=? x) && (x <=? 0x8A) || (x =? 0xA8) || (x =? 0xA9) || (x =? 0xAF))
                  || (z =? 0xE2) && (y =? 0x81) && (x =? 0x9F)
                  || (z =? 0xE3) && (y =? 0x80) && (x =? 0x80))%Z then 3%nat
              else O
          | [] => O
          end
      | [] => O
      end
  | [] => O
  end.

Fixpoint trim_start_fuel (fuel : nat) (l : bytes) : bytes :=
  match fuel with
  | O => l
  | S f => match ws_width l with O => l | n => trim_start_fuel f (drop n l) end
  end.
Definition trim_start (l : bytes) : bytes := trim_start_fuel (length l) l.

(** The whitespace [char] a string ends with, if any (1 to 3 bytes). *)
Definition ws_width_end (l : bytes) : nat :=
  let n := length l in
  (if (ws_width (drop (n - 1) l) =? 1) && (1 <=? n) then 1
   else if (ws_width (drop (n - 2) l) =? 2) && (2 <=? n) then 2
   else if (ws_width (drop (n - 3) l) =? 3) && (3 <=? n) then 3
   else 0)%nat.
Fixpoint trim_end_fuel (fuel : nat) (l : bytes) : bytes :=
  match fuel with
  | O => l
  | S f => match ws_width_end l with O => l | n => trim_end_fuel f (take (length l - n)%nat l) end
  end.
Definition trim (l : bytes) : bytes :=
  let l := trim_start l in trim_end_fuel (length l) l.

Definition ascii_lower (b : byte) : byte :=
  if ((65 <=? bz b) && (bz b <=? 90))%Z then b8 (bz b + 32) else b.
Definition to_ascii_lowercase (l : bytes) : bytes := ascii_lower <$> l.
Definition eq_ignore_ascii_case (a b : bytes) : bool :=
  bool_decide (to_ascii_lowercase a = to_ascii_lowercase b).

(** *** UTF-8: the decoding step of [String::from_utf8_lossy]

    [utf8_head l] is the width of the first maximal chunk of a non-empty
    [l] and whether that chunk is one well-formed [char]. *)

Definition in_rng (z lo hi : Z) : bool := (lo <=? z) && (z <=? hi).
Definition is_cont (b : byte) : bool := in_rng (bz b) 0x80 0xBF.

Definition utf8_second_ok (a b : Z) : bool :=
  if (a =? 0xE0) then in_rng b 0xA0 0xBF
  else if (a =? 0xED) then in_rng b 0x80 0x9F
  else if (a =? 0xF0) then in_rng b 0x90 0xBF
  else if (a =? 0xF4) then in_rng b 0x80 0x8F
  else in_rng b 0x80 0xBF.

Definition utf8_width (a : Z) : nat :=
  if in_rng a 0 0x7F then 1%nat else if in_rng a 0xC2 0xDF then 2%nat
  else if in_rng a 0xE0 0xEF then 3%nat else if in_rng a 0xF0 0xF4 then 4%nat else O.

Definition utf8_head (l : bytes) : nat * bool :=
  match l with
  | [] => (O, true)
  | a :: r =>
      match utf8_width (bz a), r with
      | 1%nat, _ => (1%nat, true)
      | O, _ => (1%nat, false)
      | w, b :: r =>
          if utf8_second_ok (bz a) (bz b) then
            match w, r with
            | 2%nat, _ => (2%nat, true)
            | 3%nat, c :: _ => if is_cont c then (3%nat, true) else (2%nat, false)
            | _, c :: d :: _ =>
                if is_cont c then if is_cont d then (4%nat, true) else (3%nat, false) else (2%nat, false)
            | _, [c] => if is_cont c then (3%nat, false) else (2%nat, false)
            | _, [] => (2%nat, false)
            end
          else (1%nat, false)
      | _, [] => (1%nat, false)
      end
  end.

Fixpoint utf8_valid_fuel (fuel : nat) (l : bytes) : bool :=
  match l, fuel with
  | [], _ => true
  | _, O => false
  | _, S f => let '(n, ok) := utf8_head l in ok && utf8_valid_fuel f (drop n l)
  end.
Definition utf8_valid (l : bytes) : bool := utf8_valid_fuel (length l) l.

(** Each ill-formed chunk becomes U+FFFD. *)
Fixpoint utf8_lossy_fuel (fuel : nat) (l : bytes) : bytes :=
  match l, fuel with
  | [], _ => []
  | _, O => []
  | _, S f =>
      let '(n, ok) := utf8_head l in
      (if ok then take n l else [xef; xbf; xbd]) ++ utf8_lossy_fuel f (drop n l)
  end.
Definition utf8_lossy (l : bytes) : bytes := utf8_lossy_fuel (length l) l.

Lemma utf8_lossy_fuel_valid f l : utf8_valid_fuel f l = true -> utf8_lossy_fuel f l = l.
Proof.
  revert l; induction f as [|f IH]; intros [|a r]; try done.
  cbn [utf8_valid_fuel utf8_lossy_fuel]. destruct (utf8_head (a :: r)) as [n ok].
  intros [-> H]%andb_true_iff. by rewrite IH, take_drop.
Qed.

(** A well-formed string is its own lossy decoding. *)
Lemma utf8_lossy_valid l : utf8_valid l = true -> utf8_lossy l = l.
Proof. apply utf8_lossy_fuel_valid. Qed.

(** *** Decimal numerals: [format!("{n}")] and [str::parse] *)

Fixpoint uint_bytes (d : Decimal.uint) : bytes :=
  match d with
  | Decimal.Nil => []
  | Decimal.D0 d => x30 :: uint_bytes d
  | Decimal.D1 d => x31 :: uint_bytes d
  | Decimal.D2 d => x32 :: uint_bytes d
  | Decimal.D3 d => x33 :: uint_bytes d
  | Decimal.D4 d => x34 :: uint_bytes d
  | Decimal.D5 d => x35 :: uint_bytes d
  | Decimal.D6 d => x36 :: uint_bytes d
  | Decimal.D7 d => x37 :: uint_bytes d
  | Decimal.D8 d => x38 :: uint_bytes d
  | Decimal.D9 d => x39 :: uint_bytes d
  end.

Definition digit_cons (b : byte) (d : Decimal.uint) : option Decimal.uint :=
  match b with
  | x30 => Some (Decimal.D0 d) | x31 => Some (Decimal.D1 d) | x32 => Some (Decimal.D2 d)
  | x33 => Some (Decimal.D3 d) | x34 => Some (Decimal.D4 d) | x35 => Some (Decimal.D5 d)
  | x36 => Some (Decimal.D6 d) | x37 => Some (Decimal.D7 d) | x38 => Some (Decimal.D8 d)
  | x39 => Some (Decimal.D9 d) | _ => None
  end.

Fixpoint bytes_uint (l : bytes) : option Decimal.uint :=
  match l with
  | [] => Some Decimal.Nil
  | b :: l => d ← bytes_uint l; digit_cons b d
  end.

(** Decimal text of a non-negative integer. *)
Definition dec (z : Z) : bytes := uint_bytes (N.to_uint (Z.to_N z)).
(** Decimal text of a signed integer ([Display] of [i64]). *)
Definition dec_i (z : Z) : bytes := if (z <? 0)%Z then x2d :: dec (- z) else dec z.
(** [format!("{n:0w}")]: left-padded with zeros to at least [w] digits. *)
Definition dec_pad (w : nat) (z : Z) : bytes :=
  let d := dec z in replicate (w - length d)%nat x30 ++ d.

Definition digits_value (l : bytes) : option Z :=
  match l with
  | [] => None
  | _ => d ← bytes_uint l; Some (Z.of_N (N.of_uint d))
  end.
(** [str::parse::<u64>]: one optional [+], then digits; overflow is an error. *)
Definition parse_u (max : Z) (l : bytes) : option Z :=
  let l := match l with x2b :: (_ :: _) as r => tail l | _ => l end in
  z ← digits_value l; if (z <=? max)%Z then Some z else None.
Definition parse_u64 : bytes -> option Z := parse_u U64_MAX.
(** [str::parse::<i64>]. *)
Definition parse_i64 (l : bytes) : option Z :=
  match l with
  | x2d :: r => z ← digits_value r; checked_i64 (- z)
  | x2b :: r => z ← digits_value r; checked_i64 z
  | _ => z ← digits_value l; checked_i64 z
  end.

Lemma bytes_uint_bytes d : bytes_uint (uint_bytes d) = Some d.
Proof. induction d; simpl; rewrite ?IHd; done. Qed.

Lemma bytes_uint_zeros n d :
  exists d', bytes_uint (replicate n x30 ++ uint_bytes d) = Some d' /\ N.of_uint d' = N.of_uint d.
Proof.
  induction n as [|n (d' & E & H)]; simpl; [exists d; split; [apply bytes_uint_bytes|done]|].
  rewrite E. by exists (Decimal.D0 d').
Qed.

Lemma uint_bytes_nonnil d : d <> Decimal.Nil -> uint_bytes d <> [].
Proof. by destruct d. Qed.

Lemma dec_nonnil z : dec z <> [].
Proof.
  apply uint_bytes_nonnil. unfold N.to_uint. destruct (Z.to_N z) as [|p]; [done|].
  intros E. by pose proof (DecimalPos.Unsigned.to_uint_nonnil p).
Qed.

Lemma digit_cons_plus d : digit_cons x2b d = None.
Proof. done. Qed.

(** A zero-padded [u64] numeral parses back to the number. *)
Lemma parse_dec_pad w z : (0 <= z <= U64_MAX)%Z -> parse_u64 (dec_pad w z) = Some z.
Proof.
  intros Hz. unfold dec_pad, dec. set (n := (w - _)%nat). clearbody n.
  pose proof (dec_nonnil z) as Hn. unfold dec in Hn.
  destruct (bytes_uint_zeros n (N.to_uint (Z.to_N z))) as (d' & E & H).
  rewrite DecimalN.Unsigned.of_to in H.
  unfold parse_u64, parse_u.
  set (l := replicate n x30 ++ _) in *.
  assert (l <> []) as Hl by (unfold l; destruct n; simpl; done).
  assert ((match l with x2b :: (_ :: _) as r => tail l | _ => l end) = l) as ->.
  { destruct l as [|b r]; [done|]. destruct b; try done. exfalso. simpl in E.
    destruct (bytes_uint r); done. }
  unfold digits_value. destruct l; [done|]. rewrite E. simpl. rewrite H, Z2N.id by lia.
  destruct (Z.leb_spec z U64_MAX); [done|lia].
Qed.

(** ** Generic list facts *)

Lemma strip_prefix_Some p l r : strip_prefix p l = Some r <-> l = p ++ r.
Proof.
  revert l; induction p as [|a p IH]; intros l; simpl; [naive_solver|].
  destruct l as [|b l]; [split; done|].
  destruct (Byte.eqb a b) eqn:E.
  - apply Byte.byte_dec_bl in E. subst b. rewrite IH. split; [by intros ->|congruence].
  - split; [done|]. intros [= -> ->]. by rewrite Byte.byte_dec_lb in E by done.
Qed.

Lemma strip_prefix_app p r : strip_prefix p (p ++ r) = Some r.
Proof. by apply strip_prefix_Some. Qed.

Lemma strip_suffix_Some s l r : strip_suffix s l = Some r <-> l = r ++ s.
Proof.
  unfold strip_suffix. split.
  - destruct (strip_prefix (reverse s) (reverse l)) as [x|] eqn:E; [|done].
    apply strip_prefix_Some in E. intros [= <-].
    rewrite <- (reverse_involutive l), E, reverse_app, reverse_involutive. done.
  - intros ->. rewrite reverse_app, strip_prefix_app. simpl. by rewrite reverse_involutive.
Qed.

Lemma starts_with_spec l p : starts_with l p = true <-> exists r, l = p ++ r.
Proof.
  unfold starts_with. rewrite bool_decide_eq_true.
  split; intros [r H]; exists r; by apply strip_prefix_Some.
Qed.

Lemma ends_with_spec l s : ends_with l s = true <-> exists r, l = r ++ s.
Proof.
  unfold ends_with. rewrite bool_decide_eq_true.
  split; intros [r H]; exists r; by apply strip_suffix_Some.
Qed.

Lemma find_Some p l n : find p l = Some n ->
  exists r, l = take n l ++ p ++ r /\ (n <= length l)%nat.
Proof.
  revert n; induction l as [|b l IH]; intros n; simpl.
  - destruct (starts_with [] p) eqn:E; [|done]. intros [= <-].
    apply starts_with_spec in E as [r E]. exists r. split; [done|simpl; lia].
  - destruct (starts_with (b :: l) p) eqn:E.
    + intros [= <-]. apply starts_with_spec in E as [r E]. exists r. simpl. split; [done|lia].
    + destruct (find p l) as [k|]; [|done]. intros [= <-].
      destruct (IH _ eq_refl) as (r & Hr & Hk). exists r. simpl. split; [by f_equal|lia].
Qed.

(** [find] returns the leftmost occurrence. *)
Lemma find_leftmost p a r : exists n, find p (a ++ p ++ r) = Some n /\ (n <= length a)%nat.
Proof.
  induction a as [|b a (n & E & H)].
  - exists O. split; [|simpl; lia]. destruct (p ++ r) as [|c q] eqn:Eq.
    + apply app_nil in Eq as [-> ->]. done.
    + simpl. rewrite <- Eq. assert (starts_with (p ++ r) p = true) as E
        by (apply starts_with_spec; eauto). by rewrite E.
  - simpl. destruct (starts_with _ p); [exists O; split; [done|lia]|].
    rewrite E. exists (S n). split; [done|lia].
Qed.

(** ** Automation *)

Create HintDb rs.
#[export] Hint Resolve bz_range le_num_range dec_nonnil : rs.
#[export] Hint Rewrite le_bytes_length b8_bz bz_b8 le_num_bytes strip_prefix_app : rs.

(** Split a boolean test in the goal or a hypothesis into its Prop cases. *)
Ltac split_test :=
  match goal with
  | |- context [Z.ltb ?a ?b] => destruct (Z.ltb_spec a b)
  | |- context [Z.leb ?a ?b] => destruct (Z.leb_spec a b)
  | |- context [Z.eqb ?a ?b] => destruct (Z.eqb_spec a b)
  | |- context [bool_decide ?P] => destruct (bool_decide_reflect P)
  | H : context [Z.ltb ?a ?b] |- _ => destruct (Z.ltb_spec a b)
  | H : context [Z.leb ?a ?b] |- _ => destruct (Z.leb_spec a b)
  | H : context [Z.eqb ?a ?b] |- _ => destruct (Z.eqb_spec a b)
  | H : context [bool_decide ?P] |- _ => destruct (bool_decide_reflect P)
  end.
Ltac inv_eq H := inversion H; clear H; simplify_eq/=.

(** ** 15-bit lengths with a flag in bit 15 *)

Lemma land_ones15 n : 0 <= n < 2 ^ 15 -> Z.land n (Z.ones 15) = n.
Proof. intros. rewrite Z.land_ones by lia. apply Z.mod_small. lia. Qed.

Lemma flag15_range n f : 0 <= n < 2 ^ 15 -> f = 0 \/ f = 2 ^ 15 -> 0 <= Z.lor n f < 2 ^ 16.
Proof.
  intros Hn Hf. assert (Z.lor n f mod 2 ^ 16 = Z.lor n f) as <-.
  - rewrite <- Z.land_ones, Z.land_lor_distr_l, !Z.land_ones by lia.
    rewrite !Z.mod_small; [done| |]; destruct Hf; lia.
  - apply Z.mod_pos_bound. lia.
Qed.

Lemma flag15_low n f : 0 <= n < 2 ^ 15 -> f = 0 \/ f = 2 ^ 15 ->
  Z.land (Z.lor n f) (Z.lxor (2 ^ 15) (2 ^ 16 - 1)) = n.
Proof.
  intros Hn Hf. change (Z.lxor (2 ^ 15) (2 ^ 16 - 1)) with (Z.ones 15).
  rewrite Z.land_lor_distr_l, land_ones15 by done.
  destruct Hf as [-> | ->]; [by rewrite Z.land_0_l, Z.lor_0_r|].
  change (Z.land (2 ^ 15) (Z.ones 15)) with 0. apply Z.lor_0_r.
Qed.

Lemma land_flag15 n : 0 <= n < 2 ^ 15 -> Z.land n (2 ^ 15) = 0.
Proof.
  intros Hn. rewrite <- (land_ones15 n) at 1 by done. rewrite <- Z.land_assoc.
  change (Z.land (Z.ones 15) (2 ^ 15)) with 0. apply Z.land_0_r.
Qed.

Lemma flag15_high n f : 0 <= n < 2 ^ 15 -> f = 0 \/ f = 2 ^ 15 ->
  Z.land (Z.lor n f) (2 ^ 15) = f.
Proof.
  intros Hn Hf. rewrite Z.land_lor_distr_l, land_flag15 by done.
  by destruct Hf as [-> | ->].
Qed.

(** ** Slicing a concatenation *)

Definition slice (l : bytes) (from to : nat) : bytes := take (to - from) (drop from l).

Lemma slice_app (x y z : bytes) i j :
  i = length x -> j = (length x + length y)%nat -> slice (x ++ y ++ z) i j = y.
Proof.
  intros -> ->. unfold slice. rewrite drop_app_length.
  replace (length x + length y - length x)%nat with (length y) by lia.
  apply take_app_length.
Qed.

Lemma slice_app_l (y z : bytes) j : j = length y -> slice (y ++ z) 0 j = y.
Proof. intros ->. apply (slice_app [] y z); done. Qed.

(** ** The order of byte strings ([Ord] of [String] and [Vec<u8>]) *)

Fixpoint bytes_compare (a b : bytes) : comparison :=
  match a, b with
  | [], [] => Eq
  | [], _ => Lt
  | _, [] => Gt
  | x :: a, y :: b =>
      match Z.compare (bz x) (bz y) with Eq => bytes_compare a b | c => c end
  end.

Definition bytes_lt (a b : bytes) : Prop := bytes_compare a b = Lt.
Definition bytes_le (a b : bytes) : Prop := bytes_compare a b <> Gt.

#[export] Instance bytes_lt_dec : RelDecision bytes_lt := fun a b =>
  decide (bytes_compare a b = Lt).
#[export] Instance bytes_le_dec : RelDecision bytes_le.
Proof. intros a b. unfold bytes_le. destruct (bytes_compare a b); [left|left|right]; naive_solver. Defined.

Lemma bytes_compare_refl a : bytes_compare a a = Eq.
Proof. induction a as [|x a IH]; [done|]. simpl. by rewrite Z.compare_refl. Qed.

Lemma bytes_compare_eq a b : bytes_compare a b = Eq -> a = b.
Proof.
  revert b. induction a as [|x a IH]; intros [|y b]; simpl; try done.
  destruct (Z.compare_spec (bz x) (bz y)) as [E| |]; try done.
  intros H. by rewrite (bz_inj x y E), (IH b H).
Qed.

Lemma bytes_compare_antisym a b : bytes_compare b a = CompOpp (bytes_compare a b).
Proof.
  revert b. induction a as [|x a IH]; intros [|y b]; simpl; try done.
  rewrite (Z.compare_antisym (bz x) (bz y)). destruct (Z.compare (bz x) (bz y)); simpl; auto.
Qed.

Lemma bytes_lt_trans a b c : bytes_lt a b -> bytes_lt b c -> bytes_lt a c.
Proof.
  unfold bytes_lt. revert b c. induction a as [|x a IH]; intros [|y b] [|z c]; simpl; try done.
  destruct (Z.compare_spec (bz x) (bz y)), (Z.compare_spec (bz y) (bz z)), (Z.compare_spec (bz x) (bz z));
    try done; try lia; eauto.
Qed.

Lemma bytes_lt_irrefl a : ~ bytes_lt a a.
Proof. unfold bytes_lt. rewrite bytes_compare_refl. discriminate. Qed.
Lemma bytes_le_lteq a b : bytes_le a b <-> bytes_lt a b \/ a = b.
Proof.
  unfold bytes_le, bytes_lt. split.
  - destruct (bytes_compare a b) eqn:E; [right; by apply bytes_compare_eq|by left|done].
  - intros [->| ->]; [done|]. by rewrite bytes_compare_refl.
Qed.

Lemma bytes_lt_le a b : bytes_lt a b <-> ~ bytes_le b a.
Proof.
  unfold bytes_le, bytes_lt. rewrite (bytes_compare_antisym a b).
  destruct (bytes_compare a b); simpl; naive_solver congruence.
Qed.

#[export] Instance bytes_le_preorder : PreOrder bytes_le.
Proof.
  split.
  - intros a. apply bytes_le_lteq. by right.
  - intros a b c. rewrite !bytes_le_lteq.
    intros [H| ->] [H'| ->]; auto. left. by eapply bytes_lt_trans.
Qed.
#[export] Instance bytes_le_antisymm : AntiSymm eq bytes_le.
Proof.
  intros a b H H'. apply bytes_le_lteq in H as [H|H]; [|done]. by apply bytes_lt_le in H.
Qed.
#[export] Instance bytes_le_total : Total bytes_le.
Proof.
  intros a b. destruct (decide (bytes_le a b)) as [H|H]; [by left|right].
  apply bytes_lt_le in H. apply bytes_le_lteq. by left.
Qed.

Lemma bytes_compare_app p a b : bytes_compare (p ++ a) (p ++ b) = bytes_compare a b.
Proof. induction p as [|x p IH]; [done|]. simpl. by rewrite Z.compare_refl. Qed.

Lemma bytes_le_app p r : bytes_le p (p ++ r).
Proof.
  rewrite <- (app_nil_r p) at 1. unfold bytes_le. rewrite bytes_compare_app. by destruct r.
Qed.

(** Between a prefix and one of its extensions there are only extensions. *)
Lemma bytes_between p r x : bytes_le p x -> bytes_le x (p ++ r) -> exists s, x = p ++ s.
Proof.
  unfold bytes_le. revert x. induction p as [|y p IH]; intros x; [by exists x|].
  destruct x as [|z x]; simpl; [done|].
  rewrite (Z.compare_antisym (bz y) (bz z)).
  destruct (Z.compare_spec (bz y) (bz z)) as [E| |]; simpl; try done.
  intros H H'. destruct (IH x H H') as [s ->]. exists s. by rewrite (bz_inj y z E).
Qed.

(** ** Filters *)

Lemma filter_none {A} (P : A -> Prop) `{!forall x, Decision (P x)} l : Forall (fun x => ~ P x) l -> filter P l = [].
Proof. induction 1; [done|]. by rewrite filter_cons, decide_False. Qed.

Lemma filter_every {A} (P : A -> Prop) `{!forall x, Decision (P x)} l : Forall P l -> filter P l = l.
Proof. induction 1; [done|]. rewrite filter_cons, decide_True by done. by f_equal. Qed.

Lemma filter_sorted {A} (R : relation A) (P : A -> Prop) `{!forall x, Decision (P x)} l :
  StronglySorted R l -> StronglySorted R (filter P l).
Proof.
  induction 1 as [|x l Hl IH Hx]; [constructor|]. rewrite filter_cons.
  destruct (decide (P x)); [|exact IH]. constructor; [exact IH|].
  apply Forall_forall. intros z [_ Hz]%list_elem_of_filter. by eapply (proj1 (Forall_forall _ _)) in Hx.
Qed.
