(* ===== verification/Wal.v ===== *)
(** * The write-ahead log (crates/rsearch-ingest/src/wal.rs)

    Record layout, the append/rotate/confirm/collect operations on the
    segment table and the files, [Wal::open] with its counting pass, and the
    lazy replay iterator.  Files are byte strings under their names; what an
    fsync made durable is a length per file. *)

From Stdlib Require Import ZArith Lia.
From Stdlib Require Import Strings.Byte.
From stdpp Require Import base gmap sets list strings sorting.
From S2P Require Import Prelude.

Local Open Scope Z_scope.

(** ** The checksum crate: operations and documented behaviour *)

Class Crc32 := {
  crc_state : Type;
  crc_new : crc_state;
  crc_update : crc_state -> bytes -> crc_state;
  crc_finalize : crc_state -> Z;
  crc_hash : bytes -> Z;
}.

Class Crc32Laws (C : Crc32) : Prop := {
  crc_range l : is_u 32 (crc_hash l);
  (** Feeding a hasher piecewise is hashing the concatenation. *)
  crc_streaming chunks :
    crc_finalize (foldl crc_update crc_new chunks) = crc_hash (concat chunks);
}.

(** ** Data *)

Record WalPos := { segment : Z }.

Record WalItem := {
  wi_stream : bytes;
  wi_id : bytes;
  wi_seq : Z;
  wi_tombstone : bool;
  wi_doc : bytes;
}.

Record WalRecord := {
  wr_stream : bytes;
  wr_id : bytes;
  wr_seq : Z;
  wr_tombstone : bool;
  wr_doc : bytes;
  wr_pos : WalPos;
}.

Definition V2_FLAG : Z := 0x8000.
Definition TOMBSTONE_FLAG : Z := 0x8000.
(** [!FLAG] at width 16. *)
Definition not_u16 (f : Z) : Z := Z.lxor f U16_MAX.

Record SegmentState := { outstanding : Z; sealed : bool }.

Inductive WalError :=
| InvalidInput   (** stream name or document id too long *)
| Untracked      (** current segment missing from the table *)
| NotFound.      (** a segment file that does not exist *)

(** The directory: file contents as the OS has them, and how many leading
    bytes of each an fsync has made durable. *)
Record Disk := { d_files : gmap bytes bytes; d_synced : gmap bytes nat }.

(** [BufWriter<File>] on the current segment. *)
Record BufWriter := { bw_name : bytes; bw_buf : bytes }.
Definition BUF_CAP : Z := 8192.

Record WalState := {
  disk : Disk;
  writer : BufWriter;
  current_seq : Z;
  current_len : Z;
  segments : gmap Z SegmentState;
  written : Z;
  synced : Z;
}.

Definition segment_path (seq : Z) : bytes := str "wal-" ++ dec_pad 16 seq ++ str ".log".

(** ** Files *)

Definition file_append (name data : bytes) (d : Disk) : Disk :=
  {| d_files := <[name := default [] (d_files d !! name) ++ data]> (d_files d);
     d_synced := d_synced d |}.
(** [OpenOptions::create(true).append(true)]: an existing file is kept. *)
Definition file_create (name : bytes) (d : Disk) : Disk := file_append name [] d.
Definition sync_data (name : bytes) (d : Disk) : Disk :=
  match d_files d !! name with
  | Some c => {| d_files := d_files d; d_synced := <[name := length c]> (d_synced d) |}
  | None => d
  end.
Definition remove_file (name : bytes) (d : Disk) : Disk :=
  {| d_files := delete name (d_files d); d_synced := delete name (d_synced d) |}.

Definition set_io (d : Disk) (w : BufWriter) (st : WalState) : WalState :=
  {| disk := d; writer := w; current_seq := current_seq st; current_len := current_len st;
     segments := segments st; written := written st; synced := synced st |}.
Definition set_disk (f : Disk -> Disk) (st : WalState) : WalState :=
  set_io (f (disk st)) (writer st) st.
Definition set_segments (m : gmap Z SegmentState) (st : WalState) : WalState :=
  {| disk := disk st; writer := writer st; current_seq := current_seq st;
     current_len := current_len st; segments := m; written := written st; synced := synced st |}.

Definition flush (st : WalState) : WalState :=
  let w := writer st in
  set_io (file_append (bw_name w) (bw_buf w) (disk st)) {| bw_name := bw_name w; bw_buf := [] |} st.

(** [BufWriter::write_all]: spill when the data does not fit, write through
    when it is at least a whole buffer. *)
Definition write_all (data : bytes) (st : WalState) : WalState :=
  let st := if (blen data <? BUF_CAP - blen (bw_buf (writer st))) then st
            else if (BUF_CAP - blen (bw_buf (writer st)) <? blen data) then flush st else st in
  let w := writer st in
  if (blen data <? BUF_CAP)
  then set_io (disk st) {| bw_name := bw_name w; bw_buf := bw_buf w ++ data |} st
  else set_io (file_append (bw_name w) data (disk st)) w st.

(** ** Segment table *)

Definition sorted_keys {A} (m : gmap Z A) : list Z := merge_sort Z.le (map_to_list m).*1.

Definition confirmed (s : SegmentState) : bool := sealed s && (outstanding s =? 0).

(** Drops the fully-confirmed sealed segments from the table and returns
    their paths. *)
Definition collect_confirmed (st : WalState) : WalState * list bytes :=
  let victims := filter (fun kv => confirmed kv.2 = true) (segments st) in
  let seqs := sorted_keys victims in
  (set_segments (foldr delete (segments st) seqs) st, segment_path <$> seqs).

(** The first half of [rotate]: flush, seal the current segment, open the
    file of the next one and track it. *)
Definition open_next (st : WalState) : WalState :=
  let st := flush st in
  let old_seq := current_seq st in
  let segs := alter (fun s => {| outstanding := outstanding s; sealed := true |}) old_seq (segments st) in
  let new_seq := wrap_u 64 (old_seq + 1) in
  let name := segment_path new_seq in
  {| disk := file_create name (disk st);
     writer := {| bw_name := name; bw_buf := [] |};
     current_seq := new_seq;
     current_len := 0;
     segments := <[new_seq := {| outstanding := 0; sealed := false |}]> segs;
     written := written st;
     synced := synced st |}.

(** Seals the current segment and opens the next; returns the sealed file
    (to be fsynced by the caller) and the segments to unlink. *)
Definition rotate (st : WalState) : WalState * (bytes * list bytes) :=
  let old_name := bw_name (writer st) in
  let '(st, victims) := collect_confirmed (open_next st) in
  (st, (old_name, victims)).

(** [u64::saturating_sub(1)]. *)
Definition dec_outstanding (s : SegmentState) : SegmentState :=
  {| outstanding := Z.max 0 (outstanding s - 1); sealed := sealed s |}.

Definition confirm (positions : list WalPos) (st : WalState) : WalState :=
  let segs := foldl (fun m p => alter dec_outstanding (segment p) m) (segments st) positions in
  let '(st, victims) := collect_confirmed (set_segments segs st) in
  set_disk (fun d => foldr remove_file d victims) st.

Definition segment_count (st : WalState) : nat := size (segments st).
Definition total_outstanding (st : WalState) : Z :=
  foldr Z.add 0 ((fun k => outstanding (default {| outstanding := 0; sealed := false |} (segments st !! k)))
                 <$> sorted_keys (segments st)).

(** ** Appending *)

Section append.
Context `{Crc32}.
Variable max_segment_bytes : Z.

Definition len_field (it : WalItem) : Z := Z.lor (wrap_u 16 (blen (wi_stream it))) V2_FLAG.
Definition id_len_field (it : WalItem) : Z :=
  Z.lor (wrap_u 16 (blen (wi_id it))) (if wi_tombstone it then TOMBSTONE_FLAG else 0).
Definition payload_len (it : WalItem) : Z :=
  2 + blen (wi_stream it) + 2 + blen (wi_id it) + 8 + blen (wi_doc it).

(** The slices of one record's payload, in the order hashed and written. *)
Definition payload_slices (it : WalItem) : list bytes :=
  [le_bytes 2 (len_field it); wi_stream it; le_bytes 2 (id_len_field it); wi_id it;
   le_bytes 8 (wi_seq it); wi_doc it].

Definition write_record (it : WalItem) (st : WalState) : WalState :=
  let crc := crc_finalize (foldl crc_update crc_new (payload_slices it)) in
  foldl (fun st data => write_all data st) st
    (le_bytes 4 (wrap_u 32 (payload_len it)) :: le_bytes 4 crc :: payload_slices it).

(** One turn of the loop under the writer lock: rotate when the segment is
    full, refuse over-long names, write the record, count it. *)
Definition append_item (it : WalItem) (st : WalState) :
    WalState * result WalError (list bytes * list bytes * WalPos) :=
  let '(st, olds, victims) :=
    if (max_segment_bytes <=? current_len st)
    then let '(st, (old, gc)) := rotate st in (st, [old], gc)
    else (st, [], []) in
  if (V2_FLAG <=? blen (wi_stream it)) || (TOMBSTONE_FLAG <=? blen (wi_id it))
  then (st, Err InvalidInput)
  else
    let st := write_record it st in
    let st := {| disk := disk st; writer := writer st; current_seq := current_seq st;
                 current_len := current_len st + (8 + payload_len it);
                 segments := segments st; written := written st; synced := synced st |} in
    let seq := current_seq st in
    match segments st !! seq with
    | Some s =>
        (set_segments (<[seq := {| outstanding := outstanding s + 1; sealed := sealed s |}]>
           (segments st)) st, Ok (olds, victims, {| segment := seq |}))
    | None => (st, Err Untracked)
    end.

Fixpoint append_items (items : list WalItem) (olds victims : list bytes)
    (positions : list WalPos) (st : WalState) :
    WalState * result WalError (list bytes * list bytes * list WalPos) :=
  match items with
  | [] => (st, Ok (olds, victims, positions))
  | it :: items =>
      match append_item it st with
      | (st, Err e) => (st, Err e)
      | (st, Ok (s, v, p)) =>
          append_items items (olds ++ s) (victims ++ v) (positions ++ [p]) st
      end
  end.

(** What follows the writer lock: fsync the rotated-out files, unlink the
    collected ones, then the group commit. *)
Definition commit (olds victims : list bytes) (fd : bytes) (my_gen : Z) (st : WalState) : WalState :=
  let st := set_disk (fun d => foldl (fun d n => sync_data n d) d olds) st in
  let st := set_disk (fun d => foldr remove_file d victims) st in
  if (synced st <? my_gen) then
    let covered := written st in
    {| disk := sync_data fd (disk st); writer := writer st; current_seq := current_seq st;
       current_len := current_len st; segments := segments st; written := written st;
       synced := Z.max (synced st) covered |}
  else st.

Definition append_batch (items : list WalItem) (st : WalState) :
    WalState * result WalError (list WalPos) :=
  match append_items items [] [] [] st with
  | (st, Err e) => (st, Err e)
  | (st, Ok (olds, victims, positions)) =>
      let st := flush st in
      let st := {| disk := disk st; writer := writer st; current_seq := current_seq st;
                   current_len := current_len st; segments := segments st;
                   written := written st + blen items; synced := synced st |} in
      (commit olds victims (bw_name (writer st)) (written st) st, Ok positions)
  end.
End append.

(** ** Reading a segment back *)

Record RecordLayout := {
  l_stream : nat * nat;
  l_id : option (nat * nat);
  l_seq : Z;
  l_tombstone : bool;
  l_doc_start : nat;
}.

Record SegmentCursor := { c_seq : Z; c_reader : bytes; c_buf : bytes; c_layout : RecordLayout }.

Definition default_layout : RecordLayout :=
  {| l_stream := (O, O); l_id := None; l_seq := 0; l_tombstone := false; l_doc_start := O |}.

Definition cursor_open (d : Disk) (seq : Z) (path : bytes) : result WalError SegmentCursor :=
  match d_files d !! path with
  | Some c => Ok {| c_seq := seq; c_reader := c; c_buf := []; c_layout := default_layout |}
  | None => Err NotFound
  end.

(** The validated layout of a payload; [None] where [advance] gives up. *)
Definition parse_layout (buf : bytes) : option RecordLayout :=
  let lf := le_num (slice buf 0 2) in
  let stream_len := Z.to_nat (Z.land lf (not_u16 V2_FLAG)) in
  if (length buf <? 2 + stream_len)%nat then None
  else if (Z.land lf V2_FLAG =? 0)
  then Some {| l_stream := (2, 2 + stream_len)%nat; l_id := None; l_seq := 0;
               l_tombstone := false; l_doc_start := 2 + stream_len |}
  else
    let at_ := (2 + stream_len)%nat in
    if (length buf <? at_ + 2)%nat then None
    else
      let ilf := le_num (slice buf at_ (at_ + 2)) in
      let id_len := Z.to_nat (Z.land ilf (not_u16 TOMBSTONE_FLAG)) in
      let tombstone := negb (Z.land ilf TOMBSTONE_FLAG =? 0) in
      let at_ := (at_ + 2)%nat in
      if (length buf <? at_ + id_len + 8)%nat then None
      else
        Some {| l_stream := (2, 2 + stream_len)%nat;
                l_id := Some (at_, at_ + id_len)%nat;
                l_seq := wrap_s 64 (le_num (slice buf (at_ + id_len) (at_ + id_len + 8)));
                l_tombstone := tombstone;
                l_doc_start := at_ + id_len + 8 |}.

Section read.
Context `{Crc32}.

(** Reads and validates the next record; [false] at end of file, on a torn
    tail or on corruption (the cursor is not used again then). *)
Definition advance (c : SegmentCursor) : bool * SegmentCursor :=
  let r := c_reader c in
  if (length r <? 8)%nat then (false, c)
  else
    let len := le_num (slice r 0 4) in
    let crc := le_num (slice r 4 8) in
    if (len <? 2) then (false, c)
    else
      let buf := take (Z.to_nat len) (drop 8 r) in
      if negb (blen buf =? len) then (false, c)
      else if negb (crc_hash buf =? crc) then (false, c)
      else
        match parse_layout buf with
        | None => (false, c)
        | Some l => (true, {| c_seq := c_seq c; c_reader := drop (Z.to_nat len) (drop 8 r);
                              c_buf := buf; c_layout := l |})
        end.

(** [uuid] is the id a legacy record is given. *)
Definition record (uuid : bytes) (c : SegmentCursor) : WalRecord :=
  let l := c_layout c in
  {| wr_stream := utf8_lossy (slice (c_buf c) (l_stream l).1 (l_stream l).2);
     wr_id := match l_id l with
              | Some (i0, i1) => utf8_lossy (slice (c_buf c) i0 i1)
              | None => uuid
              end;
     wr_seq := l_seq l;
     wr_tombstone := l_tombstone l;
     wr_doc := drop (l_doc_start l) (c_buf c);
     wr_pos := {| segment := c_seq c |} |}.

(** [while cursor.advance() { count += 1; }] *)
Fixpoint count_records (fuel : nat) (c : SegmentCursor) : nat :=
  match fuel with
  | O => O
  | S f => match advance c with
           | (true, c) => S (count_records f c)
           | (false, _) => O
           end
  end.
Definition segment_records_count (c : SegmentCursor) : nat :=
  count_records (S (length (c_reader c))) c.

Record WalReplay := { r_segments : list (Z * bytes); r_current : option SegmentCursor }.

(** The loop of [next] once the current cursor is exhausted. *)
Fixpoint next_segment (uuid : bytes) (d : Disk) (segs : list (Z * bytes)) :
    option (result WalError WalRecord) * WalReplay :=
  match segs with
  | [] => (None, {| r_segments := []; r_current := None |})
  | (seq, path) :: segs =>
      match cursor_open d seq path with
      | Err e => (Some (Err e), {| r_segments := segs; r_current := None |})
      | Ok c =>
          match advance c with
          | (true, c) => (Some (Ok (record uuid c)), {| r_segments := segs; r_current := Some c |})
          | (false, _) => next_segment uuid d segs
          end
      end
  end.

(** [WalReplay::next]. *)
Definition next (uuid : bytes) (d : Disk) (r : WalReplay) :
    option (result WalError WalRecord) * WalReplay :=
  match r_current r with
  | Some c =>
      match advance c with
      | (true, c) =>
          (Some (Ok (record uuid c)), {| r_segments := r_segments r; r_current := Some c |})
      | (false, _) => next_segment uuid d (r_segments r)
      end
  | None => next_segment uuid d (r_segments r)
  end.

(** The [seqs] of the directory: names [wal-<u64>.log]. *)
Definition segment_seq (name : bytes) : option Z :=
  s ← strip_prefix (str "wal-") name; s ← strip_suffix (str ".log") s; parse_u64 s.
Definition list_seqs (d : Disk) : list Z :=
  merge_sort Z.le (omap segment_seq (map_to_list (d_files d)).*1).

Fixpoint count_segments (d : Disk) (seqs : list Z) (m : gmap Z SegmentState) :
    result WalError (gmap Z SegmentState) :=
  match seqs with
  | [] => Ok m
  | seq :: seqs =>
      match cursor_open d seq (segment_path seq) with
      | Err e => Err e
      | Ok c =>
          count_segments d seqs
            (<[seq := {| outstanding := Z.of_nat (segment_records_count c); sealed := true |}]> m)
      end
  end.

(** [Wal::open]: the handle and the replay iterator. *)
Definition open (d : Disk) : result WalError (WalState * WalReplay) :=
  let seqs := list_seqs d in
  match count_segments d seqs ∅ with
  | Err e => Err e
  | Ok segs =>
      let replay := {| r_segments := (fun s => (s, segment_path s)) <$> seqs; r_current := None |} in
      let cur := match list.last seqs with Some s => wrap_u 64 (s + 1) | None => 0 end in
      let name := segment_path cur in
      Ok ({| disk := file_create name d;
             writer := {| bw_name := name; bw_buf := [] |};
             current_seq := cur;
             current_len := 0;
             segments := <[cur := {| outstanding := 0; sealed := false |}]> segs;
             written := 0;
             synced := 0 |}, replay)
  end.
End read.

(** ** The encoding *)

Section encoding.
Context `{C : Crc32} {L : Crc32Laws C}.

(** A record of the documented format: the lengths fit their fields and the
    strings are Rust strings. *)
Record item_ok (it : WalItem) : Prop := {
  ok_stream : blen (wi_stream it) < 2 ^ 15;
  ok_id : blen (wi_id it) < 2 ^ 15;
  ok_payload : payload_len it < 2 ^ 32;
  ok_seq : is_i64 (wi_seq it);
  ok_stream_utf8 : utf8_valid (wi_stream it) = true;
  ok_id_utf8 : utf8_valid (wi_id it) = true;
}.

Definition payload (it : WalItem) : bytes := concat (payload_slices it).
Definition encode (it : WalItem) : bytes :=
  le_bytes 4 (wrap_u 32 (payload_len it)) ++ le_bytes 4 (crc_hash (payload it)) ++ payload it.
Definition encode_all (items : list WalItem) : bytes := concat (encode <$> items).
Definition record_of (seq : Z) (it : WalItem) : WalRecord :=
  {| wr_stream := wi_stream it; wr_id := wi_id it; wr_seq := wi_seq it;
     wr_tombstone := wi_tombstone it; wr_doc := wi_doc it; wr_pos := {| segment := seq |} |}.

Definition item_layout (it : WalItem) : RecordLayout :=
  let s := length (wi_stream it) in
  let i := length (wi_id it) in
  {| l_stream := (2, 2 + s)%nat; l_id := Some (2 + s + 2, 2 + s + 2 + i)%nat;
     l_seq := wi_seq it; l_tombstone := wi_tombstone it;
     l_doc_start := 2 + s + 2 + i + 8 |}.

Lemma payload_eq it : payload it =
  le_bytes 2 (len_field it) ++ wi_stream it ++ le_bytes 2 (id_len_field it) ++ wi_id it ++
  le_bytes 8 (wi_seq it) ++ wi_doc it.
Proof. unfold payload. simpl. by rewrite app_nil_r. Qed.

Lemma payload_length it : blen (payload it) = payload_len it.
Proof.
  rewrite payload_eq, !length_app, !le_bytes_length. unfold payload_len. lia.
Qed.

Lemma encode_length it : length (encode it) = (8 + length (payload it))%nat.
Proof. unfold encode. rewrite !length_app, !le_bytes_length. lia. Qed.

Lemma len_field_num it : blen (wi_stream it) < 2 ^ 15 ->
  le_num (le_bytes 2 (len_field it)) = Z.lor (blen (wi_stream it)) (2 ^ 15).
Proof.
  intros H. rewrite le_num_bytes. unfold len_field, wrap_u.
  rewrite (Z.mod_small (blen _)) by lia. apply Z.mod_small, flag15_range; [lia|by right].
Qed.

Lemma id_len_field_num it : blen (wi_id it) < 2 ^ 15 ->
  le_num (le_bytes 2 (id_len_field it)) =
    Z.lor (blen (wi_id it)) (if wi_tombstone it then 2 ^ 15 else 0).
Proof.
  intros H. rewrite le_num_bytes. unfold id_len_field, wrap_u.
  rewrite (Z.mod_small (blen _)) by lia. unfold TOMBSTONE_FLAG.
  apply Z.mod_small, flag15_range; [lia|]. destruct (wi_tombstone it); auto.
Qed.

Lemma seq_num it : is_i64 (wi_seq it) -> wrap_s 64 (le_num (le_bytes 8 (wi_seq it))) = wi_seq it.
Proof.
  intros H. rewrite le_num_bytes. change (256 ^ Z.of_nat 8) with (2 ^ 64).
  fold (wrap_u 64 (wi_seq it)). by rewrite wrap_s_wrap_u, wrap_s_id.
Qed.

Lemma parse_layout_payload it : item_ok it -> parse_layout (payload it) = Some (item_layout it).
Proof.
  intros [Hs Hi Hp Hq _ _]. unfold parse_layout. rewrite payload_eq.
  set (s := wi_stream it) in *. set (i := wi_id it) in *.
  rewrite slice_app_l by (by rewrite le_bytes_length).
  rewrite len_field_num by done. fold s. unfold V2_FLAG, TOMBSTONE_FLAG, not_u16, U16_MAX.
  change 0x8000 with (2 ^ 15). rewrite flag15_low, flag15_high by (lia || by right).
  rewrite Nat2Z.id. cbn -[Z.pow le_bytes slice Nat.add Nat.ltb].
  rewrite !length_app, !le_bytes_length.
  repeat match goal with |- context [(?a <? ?b)%nat] =>
    replace (a <? b)%nat with false by (symmetry; apply Nat.ltb_ge; lia) end.
  rewrite (app_assoc (le_bytes 2 (len_field it))).
  rewrite (slice_app (le_bytes 2 (len_field it) ++ s) (le_bytes 2 (id_len_field it)))
    by (rewrite ?length_app, ?le_bytes_length; done).
  rewrite id_len_field_num by done. fold i.
  assert ((if wi_tombstone it then 2 ^ 15 else 0) = 0 \/ (if wi_tombstone it then 2 ^ 15 else 0) = 2 ^ 15)
    by (destruct (wi_tombstone it); auto).
  rewrite flag15_low, flag15_high by (lia || done). rewrite Nat2Z.id.
  repeat match goal with |- context [(?a <? ?b)%nat] =>
    replace (a <? b)%nat with false by (symmetry; apply Nat.ltb_ge; lia) end.
  rewrite !app_assoc. rewrite <- (app_assoc _ (le_bytes 8 _)).
  rewrite slice_app by (rewrite ?length_app, ?le_bytes_length; lia).
  rewrite seq_num by done. unfold item_layout. fold s i. by destruct (wi_tombstone it).
Qed.

Lemma encode_prefix it rest :
  slice (encode it ++ rest) 0 4 = le_bytes 4 (wrap_u 32 (payload_len it)) /\
  slice (encode it ++ rest) 4 8 = le_bytes 4 (crc_hash (payload it)) /\
  drop 8 (encode it ++ rest) = payload it ++ rest.
Proof.
  unfold encode. rewrite <- !app_assoc. split; [|split].
  - by apply slice_app_l.
  - apply slice_app; by rewrite ?le_bytes_length.
  - rewrite app_assoc. apply drop_app_length'. by rewrite length_app, !le_bytes_length.
Qed.

Lemma len_num it : payload_len it < 2 ^ 32 ->
  le_num (le_bytes 4 (wrap_u 32 (payload_len it))) = payload_len it.
Proof.
  intros H. rewrite le_num_bytes. unfold wrap_u. change (256 ^ Z.of_nat 4) with (2 ^ 32).
  rewrite Z.mod_mod by lia. apply Z.mod_small. unfold payload_len in *. lia.
Qed.

Lemma crc_num l : le_num (le_bytes 4 (crc_hash l)) = crc_hash l.
Proof. rewrite le_num_bytes. apply Z.mod_small. exact (crc_range l). Qed.

Lemma payload_len_ge it : 12 <= payload_len it.
Proof. unfold payload_len. lia. Qed.

(** Reading one written record: the cursor accepts it and stands after it. *)
Lemma advance_encode it rest c : item_ok it -> c_reader c = encode it ++ rest ->
  advance c = (true, {| c_seq := c_seq c; c_reader := rest; c_buf := payload it;
                        c_layout := item_layout it |}).
Proof.
  intros Hok Hr. unfold advance. rewrite Hr.
  destruct (encode_prefix it rest) as (H1 & H2 & H3). rewrite H1, H2, H3.
  rewrite len_num, crc_num by apply Hok.
  replace (length (encode it ++ rest) <? 8)%nat with false
    by (symmetry; apply Nat.ltb_ge; rewrite length_app, encode_length; lia).
  pose proof (payload_len_ge it).
  destruct (Z.ltb_spec (payload_len it) 2); [lia|].
  rewrite <- payload_length, Nat2Z.id, take_app_length, drop_app_length.
  rewrite !Z.eqb_refl. simpl. by rewrite parse_layout_payload.
Qed.

Lemma record_encode it uuid seq rest : item_ok it ->
  record uuid {| c_seq := seq; c_reader := rest; c_buf := payload it; c_layout := item_layout it |}
  = record_of seq it.
Proof.
  intros Hok. unfold record, record_of, item_layout. cbn [c_layout c_buf c_seq l_stream l_id l_seq l_tombstone l_doc_start fst snd]. rewrite payload_eq.
  set (s := wi_stream it) in *. set (i := wi_id it) in *. f_equal.
  - rewrite slice_app by (rewrite ?le_bytes_length; lia). apply utf8_lossy_valid, Hok.
  - rewrite !app_assoc. rewrite <- (app_assoc _ (le_bytes 8 _)), <- (app_assoc _ i).
    rewrite slice_app by (rewrite ?length_app, ?le_bytes_length; lia).
    apply utf8_lossy_valid, Hok.
  - rewrite !app_assoc. apply drop_app_length'.
    rewrite !length_app, !le_bytes_length. lia.
Qed.

(** A record cut short is not accepted. *)
Lemma advance_torn it k c : item_ok it -> (k < length (encode it))%nat ->
  c_reader c = take k (encode it) -> (advance c).1 = false.
Proof.
  intros Hok Hk Hr. unfold advance. rewrite Hr.
  rewrite encode_length in Hk. rewrite length_take, encode_length.
  destruct (Nat.ltb_spec (Nat.min k (8 + length (payload it))) 8) as [|H8]; [done|].
  assert (exists k', k = (8 + k')%nat) as [k' ->] by (exists (k - 8)%nat; lia).
  assert (take (8 + k') (encode it) =
    le_bytes 4 (wrap_u 32 (payload_len it)) ++ le_bytes 4 (crc_hash (payload it)) ++ take k' (payload it))
    as ->.
  { unfold encode. rewrite app_assoc, take_app_ge by (rewrite length_app, !le_bytes_length; lia).
    rewrite length_app, !le_bytes_length, <- app_assoc. do 3 f_equal. lia. }
  rewrite slice_app_l by done. rewrite len_num by apply Hok.
  pose proof (payload_len_ge it). destruct (Z.ltb_spec (payload_len it) 2); [lia|].
  rewrite app_assoc, drop_app_length' by (by rewrite length_app, !le_bytes_length).
  rewrite take_take, length_take, <- payload_length.
  destruct (Z.eqb_spec (Z.of_nat (Nat.min (Z.to_nat (blen (payload it)) `min` k') (length (payload it))))
              (blen (payload it))); [lia|done].
Qed.
End encoding.

(** ** Replay *)

Section replay.
Context `{C : Crc32}.

(** Every record a cursor yields until it stops. *)
Fixpoint cursor_records (fuel : nat) (uuid : bytes) (c : SegmentCursor) : list WalRecord :=
  match fuel with
  | O => []
  | S f => match advance c with
           | (true, c) => record uuid c :: cursor_records f uuid c
           | (false, _) => []
           end
  end.
Definition cursor_at (seq : Z) (content : bytes) : SegmentCursor :=
  {| c_seq := seq; c_reader := content; c_buf := []; c_layout := default_layout |}.
Definition segment_records (uuid : bytes) (seq : Z) (content : bytes) : list WalRecord :=
  cursor_records (S (length content)) uuid (cursor_at seq content).

(** [Iterator::collect] over the replay iterator. *)
Fixpoint collect (fuel : nat) (uuid : bytes) (d : Disk) (r : WalReplay) :
    list (result WalError WalRecord) :=
  match fuel with
  | O => []
  | S f => match next uuid d r with
           | (None, _) => []
           | (Some x, r) => x :: collect f uuid d r
           end
  end.

Lemma advance_shrinks c c' : advance c = (true, c') ->
  (length (c_reader c') + 10 <= length (c_reader c))%nat /\ c_seq c' = c_seq c.
Proof.
  unfold advance. destruct (Nat.ltb_spec (length (c_reader c)) 8) as [|H8]; [done|].
  set (len := le_num _). destruct (Z.ltb_spec len 2) as [|H2]; [done|].
  destruct (Z.eqb_spec (blen (take (Z.to_nat len) (drop 8 (c_reader c)))) len) as [Hl|]; [|done].
  destruct (_ =? _); [|done]. destruct (parse_layout _); [|done]. simpl. intros [= <-]. simpl.
  rewrite length_take, length_drop in Hl. rewrite !length_drop. split; [lia|done].
Qed.

Lemma advance_reader c c' : c_reader c = c_reader c' -> c_seq c = c_seq c' ->
  advance c = (true, (advance c').2) \/ (advance c).1 = false /\ (advance c').1 = false.
Proof.
  intros Hr Hs. unfold advance. rewrite Hr, Hs. repeat case_match; simplify_eq/=; auto.
Qed.

Lemma cursor_records_fuel uuid f f' c :
  (length (c_reader c) < f)%nat -> (length (c_reader c) < f')%nat ->
  cursor_records f uuid c = cursor_records f' uuid c.
Proof.
  revert f' c; induction f as [|f IH]; intros [|f'] c Hf Hf'; try lia. simpl.
  destruct (advance c) as [[] c'] eqn:E; [|done].
  apply advance_shrinks in E as [E _]. f_equal. apply IH; lia.
Qed.

(** The counting pass of [open] agrees with the iterator, whatever the
    segment holds. *)
Lemma count_records_spec uuid f c : count_records f c = length (cursor_records f uuid c).
Proof.
  revert c; induction f as [|f IH]; intros c; [done|]. simpl.
  destruct (advance c) as [[] c']; simpl; [by rewrite IH|done].
Qed.
End replay.

#[global] Arguments encode : simpl never.
#[global] Arguments payload : simpl never.

Section replay_encoded.
Context `{C : Crc32} {L : Crc32Laws C}.

Lemma encode_all_cons it items : encode_all (it :: items) = encode it ++ encode_all items.
Proof. done. Qed.
Lemma encode_all_app xs ys : encode_all (xs ++ ys) = encode_all xs ++ encode_all ys.
Proof. unfold encode_all. by rewrite fmap_app, concat_app. Qed.

(** The records wholly inside the first [k] bytes. *)
Fixpoint complete (k : nat) (items : list WalItem) : nat :=
  match items with
  | [] => O
  | it :: items =>
      if (length (encode it) <=? k)%nat then S (complete (k - length (encode it)) items) else O
  end.

Lemma complete_all items k : (length (encode_all items) <= k)%nat -> complete k items = length items.
Proof.
  revert k; induction items as [|it items IH]; intros k Hk; [done|].
  rewrite encode_all_cons, length_app in Hk. cbn [complete length].
  destruct (Nat.leb_spec (length (encode it)) k); [|lia]. by rewrite IH by lia.
Qed.

Lemma complete_take items n k : (n <= length items)%nat ->
  (length (encode_all (take n items)) <= k)%nat -> (n <= complete k items)%nat.
Proof.
  revert n k; induction items as [|it items IH]; intros [|n] k Hn Hk; cbn [length take complete] in *; try lia.
  rewrite encode_all_cons, length_app in Hk.
  destruct (Nat.leb_spec (length (encode it)) k); [|lia].
  specialize (IH n (k - length (encode it))%nat). lia.
Qed.

Lemma cursor_records_torn uuid f seq k items buf lay :
  Forall item_ok items -> (length (take k (encode_all items)) < f)%nat ->
  cursor_records f uuid {| c_seq := seq; c_reader := take k (encode_all items);
                           c_buf := buf; c_layout := lay |}
  = record_of seq <$> take (complete k items) items.
Proof.
  intros Hok. revert f k buf lay; induction Hok as [|it items Hit Hok IH]; intros [|f] k buf lay Hf; try lia.
  - cbn [cursor_records]. unfold encode_all. simpl. unfold advance. simpl.
    by rewrite take_nil.
  - rewrite encode_all_cons in *. cbn [complete].
    destruct (Nat.leb_spec (length (encode it)) k) as [Hk|Hk].
    + rewrite take_app_ge in Hf |- * by lia. cbn [cursor_records].
      erewrite advance_encode; [|done|done]. rewrite record_encode by done.
      cbn [take fmap list_fmap]. f_equal. rewrite length_app in Hf.
      pose proof (encode_length it). apply IH. lia.
    + rewrite take_app_le by lia. cbn [cursor_records].
      pose proof (advance_torn it k {| c_seq := seq; c_reader := take k (encode it);
        c_buf := buf; c_layout := lay |} Hit Hk eq_refl) as E.
      destruct (advance _) as [[] c']; [done|]. done.
Qed.

Lemma segment_records_encoded uuid seq items : Forall item_ok items ->
  segment_records uuid seq (encode_all items) = record_of seq <$> items.
Proof.
  intros Hok. unfold segment_records, cursor_at.
  pose proof (cursor_records_torn uuid (S (length (encode_all items))) seq
    (length (encode_all items)) items [] default_layout Hok) as E.
  rewrite firstn_all in E. rewrite E by lia. rewrite complete_all by lia. by rewrite firstn_all.
Qed.
End replay_encoded.

(** *** The iterator over a whole directory *)

Section replay_directory.
Context `{C : Crc32}.
Variables (uuid : bytes) (d : Disk).

Definition file_holds (s : Z * bytes) (f : bytes) : Prop := d_files d !! s.2 = Some f.
Definition directory_records (segs : list (Z * bytes)) (contents : list bytes) : list WalRecord :=
  concat (zip_with (fun s f => segment_records uuid s.1 f) segs contents).

Lemma collect_open s p segs f n : d_files d !! p = Some f ->
  collect n uuid d {| r_segments := (s, p) :: segs; r_current := None |}
  = collect n uuid d {| r_segments := segs; r_current := Some (cursor_at s f) |}.
Proof.
  intros Hp. destruct n as [|n]; [done|]. cbn [collect]. unfold next.
  cbn [r_current r_segments next_segment].
  unfold cursor_open. rewrite Hp. unfold cursor_at. by destruct (advance _) as [[] ?].
Qed.

Lemma collect_exhausted segs c n : (advance c).1 = false ->
  collect n uuid d {| r_segments := segs; r_current := Some c |}
  = collect n uuid d {| r_segments := segs; r_current := None |}.
Proof.
  intros Hc. destruct n as [|n]; [done|]. cbn [collect]. unfold next. cbn [r_current r_segments].
  by destruct (advance c) as [[] ?].
Qed.

Lemma collect_cursor segs contents F c n : Forall2 file_holds segs contents ->
  (length (c_reader c) < F)%nat ->
  (length (cursor_records F uuid c) + length (directory_records segs contents) < n)%nat ->
  collect n uuid d {| r_segments := segs; r_current := Some c |}
  = Ok <$> (cursor_records F uuid c ++ directory_records segs contents).
Proof.
  intros HF. revert F c n. induction HF as [|[s p] f segs contents Hp HF IH];
    induction F as [|F IHF]; intros c [|n] Hl Hn; try lia;
    cbn [cursor_records] in *; destruct (advance c) as [[] c'] eqn:E.
  1,3: cbn [collect]; unfold next; cbn [r_current r_segments]; rewrite E; cbn [fmap list_fmap app];
    f_equal; apply IHF; [apply advance_shrinks in E as [? _]; lia|cbn [length] in Hn; lia].
  - rewrite collect_exhausted by by rewrite E. done.
  - rewrite collect_exhausted by by rewrite E. rewrite (collect_open _ _ _ _ _ Hp).
    cbn [app]. unfold directory_records. cbn [zip_with concat fst]. fold (directory_records segs contents).
    apply IH; [simpl; lia|].
    unfold directory_records in Hn. cbn [zip_with concat fst length] in Hn.
    fold (directory_records segs contents) in Hn. rewrite length_app in Hn.
    unfold segment_records in Hn. lia.
Qed.

Lemma collect_directory segs contents n : Forall2 file_holds segs contents ->
  (length (directory_records segs contents) < n)%nat ->
  collect n uuid d {| r_segments := segs; r_current := None |} = Ok <$> directory_records segs contents.
Proof.
  intros HF Hn. rewrite <- (collect_exhausted segs (cursor_at 0 []) n) by done.
  apply (collect_cursor segs contents 1 (cursor_at 0 []) n HF); [simpl; lia|done].
Qed.
End replay_directory.

(** ** The segment table and the files *)

Definition path_ok (k : Z) : Prop := 0 <= k <= U64_MAX.

Lemma segment_seq_path k : path_ok k -> segment_seq (segment_path k) = Some k.
Proof.
  intros Hk. unfold segment_seq, segment_path. rewrite strip_prefix_app. cbn [option_bind mbind].
  assert (strip_suffix (str ".log") (dec_pad 16 k ++ str ".log") = Some (dec_pad 16 k)) as ->
    by (by apply strip_suffix_Some).
  cbn [option_bind mbind]. by apply parse_dec_pad.
Qed.

Lemma segment_path_inj a b : path_ok a -> path_ok b -> segment_path a = segment_path b -> a = b.
Proof.
  intros Ha Hb E. apply (f_equal segment_seq) in E.
  rewrite !segment_seq_path in E by done. congruence.
Qed.

(** What a segment holds once the writer is flushed, and the records of it
    not confirmed yet. *)
Definition content (st : WalState) (k : Z) : bytes :=
  default [] (d_files (disk st) !! segment_path k)
  ++ (if decide (k = current_seq st) then bw_buf (writer st) else []).
Definition pending (st : WalState) (k : Z) : Z :=
  match segments st !! k with Some s => outstanding s | None => 0 end.
Definition synced_len (d : Disk) (k : Z) : nat := default O (d_synced d !! segment_path k).
Definition durable (st : WalState) (k : Z) : Prop :=
  synced_len (disk st) k = length (default [] (d_files (disk st) !! segment_path k)).

Record wal_inv (st : WalState) (olds : list bytes) : Prop := {
  inv_name : bw_name (writer st) = segment_path (current_seq st);
  inv_cur : exists s, segments st !! current_seq st = Some s /\ sealed s = false;
  inv_range : path_ok (current_seq st);
  inv_keys k s : segments st !! k = Some s ->
    0 <= k <= current_seq st /\ 0 <= outstanding s /\ (k <> current_seq st -> sealed s = true);
  inv_files k s : segments st !! k = Some s -> is_Some (d_files (disk st) !! segment_path k);
  inv_fresh k : current_seq st < k -> path_ok k ->
    d_files (disk st) !! segment_path k = None /\ d_synced (disk st) !! segment_path k = None;
  inv_durable k s : segments st !! k = Some s -> k <> current_seq st ->
    durable st k \/ segment_path k ∈ olds;
}.

(** Between two calls. *)
Record wal_clean (st : WalState) : Prop := {
  clean_inv : wal_inv st [];
  clean_buf : bw_buf (writer st) = [];
  clean_durable : durable st (current_seq st);
  clean_gen : synced st <= written st;
}.

Definition victims_ok (st : WalState) (victims : list bytes) : Prop :=
  Forall (fun v => exists k, v = segment_path k /\ 0 <= k <= current_seq st /\ segments st !! k = None) victims.

Lemma inv_tracked_path st olds k s : wal_inv st olds -> segments st !! k = Some s -> path_ok k.
Proof. intros I H. apply (inv_keys _ _ I) in H as (? & _). pose proof (inv_range _ _ I). unfold path_ok in *. lia. Qed.

Lemma path_ne st olds k : wal_inv st olds -> path_ok k -> k <> current_seq st ->
  bw_name (writer st) <> segment_path k.
Proof.
  intros I Hk Hne E. rewrite (inv_name _ _ I) in E. apply segment_path_inj in E; [done| |done].
  apply (inv_range _ _ I).
Qed.

(** *** Writing to the current segment *)

Section writing.
Variables (st st' : WalState) (olds : list bytes) (data : bytes) (buf : bytes).
Hypothesis I : wal_inv st olds.
Hypothesis Hst : st' = set_io (file_append (bw_name (writer st)) data (disk st))
                         {| bw_name := bw_name (writer st); bw_buf := buf |} st.

Lemma put_other k : path_ok k -> k <> current_seq st ->
  d_files (disk st') !! segment_path k = d_files (disk st) !! segment_path k.
Proof using I Hst. intros Hk Hne. subst st'. simpl. apply lookup_insert_ne. by eapply path_ne. Qed.

Lemma put_current : d_files (disk st') !! segment_path (current_seq st)
  = Some (default [] (d_files (disk st) !! segment_path (current_seq st)) ++ data).
Proof using I Hst. subst st'. simpl. rewrite (inv_name _ _ I). apply lookup_insert_eq. Qed.

Lemma put_inv : wal_inv st' olds.
Proof using I Hst.
  pose proof put_other as Hother. pose proof put_current as Hcur. subst st'. split; simpl in *.
  - apply I.
  - apply I.
  - apply I.
  - apply (inv_keys _ _ I).
  - intros k s Hs. destruct (decide (k = current_seq st)) as [->|Hne]; [by rewrite Hcur|].
    rewrite Hother; [by eapply inv_files|by eapply inv_tracked_path|done].
  - intros k Hk Hp. rewrite Hother by (done || lia). by apply (inv_fresh _ _ I).
  - intros k s Hs Hne. destruct (inv_durable _ _ I k s Hs Hne) as [Hd|]; [left|by right].
    unfold durable, synced_len in *. simpl in *. rewrite Hother; [done|by eapply inv_tracked_path|done].
Qed.
End writing.

Lemma set_buf_inv st olds buf : wal_inv st olds ->
  wal_inv (set_io (disk st) {| bw_name := bw_name (writer st); bw_buf := buf |} st) olds.
Proof. intros []. split; try done. Qed.

Lemma flush_inv st olds : wal_inv st olds -> wal_inv (flush st) olds.
Proof. intros I. by eapply put_inv. Qed.

Lemma flush_content st olds k : wal_inv st olds -> path_ok k -> content (flush st) k = content st k.
Proof.
  intros I Hk. unfold content. simpl. destruct (decide (k = current_seq st)) as [->|Hne].
  - rewrite (inv_name _ _ I), lookup_insert_eq. simpl. by rewrite app_nil_r.
  - rewrite lookup_insert_ne by by eapply path_ne. done.
Qed.

Lemma flush_same st : current_seq (flush st) = current_seq st /\ segments (flush st) = segments st
  /\ written (flush st) = written st /\ synced (flush st) = synced st /\ bw_buf (writer (flush st)) = [].
Proof. done. Qed.

Definition same_table (st st' : WalState) : Prop :=
  current_seq st' = current_seq st /\ segments st' = segments st
  /\ written st' = written st /\ synced st' = synced st.

Lemma write_all_spec data st olds : wal_inv st olds ->
  wal_inv (write_all data st) olds /\ same_table st (write_all data st) /\
  forall k, path_ok k -> content (write_all data st) k =
    content st k ++ (if decide (k = current_seq st) then data else []).
Proof.
  intros I0. unfold write_all.
  set (st1 := if _ <? _ then st else _).
  assert (wal_inv st1 olds /\ same_table st st1 /\ (forall k, path_ok k -> content st1 k = content st k)
          /\ (BUF_CAP <= blen data -> bw_buf (writer st1) = [])) as (I & (Hc & Hs & Hw & Hy) & Hcont & Hbuf).
  { unfold st1. destruct (Z.ltb_spec (blen data) (BUF_CAP - blen (bw_buf (writer st)))).
    - split_and!; try done. lia.
    - destruct (Z.ltb_spec (BUF_CAP - blen (bw_buf (writer st))) (blen data)).
      + split_and!; try done; [by apply flush_inv|]. intros k Hk. by eapply flush_content.
      + split_and!; try done. intros ?. destruct (bw_buf (writer st)); [done|simpl in *; lia]. }
  clearbody st1. destruct (Z.ltb_spec (blen data) BUF_CAP).
  - split; [by apply set_buf_inv|]. split; [done|]. intros k Hk. rewrite <- Hcont by done.
    unfold content. simpl. rewrite Hc. case_decide; [by rewrite app_assoc|by rewrite !app_nil_r].
  - assert (set_io (file_append (bw_name (writer st1)) data (disk st1)) (writer st1) st1 =
      set_io (file_append (bw_name (writer st1)) data (disk st1))
        {| bw_name := bw_name (writer st1); bw_buf := [] |} st1) as ->
      by (rewrite <- Hbuf by done; by destruct st1 as [? []]).
    split; [by eapply put_inv|]. split; [done|]. intros k Hk. rewrite <- Hcont, <- Hc by done.
    pose proof (put_current st1 _ olds data [] I eq_refl) as Ecur.
    pose proof (put_other st1 _ olds data [] I eq_refl k Hk) as Eoth.
    unfold content. cbn [set_io disk current_seq writer bw_buf] in *. rewrite Hbuf by done.
    case_decide as Hd; [subst k|].
    + rewrite Ecur. cbn [default]. by rewrite !app_nil_r.
    + rewrite Eoth by done. by rewrite !app_nil_r.
Qed.

Lemma write_slices_spec slices st olds : wal_inv st olds ->
  wal_inv (foldl (fun st data => write_all data st) st slices) olds /\
  same_table st (foldl (fun st data => write_all data st) st slices) /\
  forall k, path_ok k -> content (foldl (fun st data => write_all data st) st slices) k =
    content st k ++ (if decide (k = current_seq st) then concat slices else []).
Proof.
  revert st; induction slices as [|x xs IH]; intros st I; simpl.
  - split_and!; try done. intros k _. case_decide; by rewrite app_nil_r.
  - destruct (write_all_spec x st olds I) as (I1 & (H1 & H2 & H3 & H4) & Hc1).
    destruct (IH _ I1) as (I2 & (H5 & H6 & H7 & H8) & Hc2).
    split; [done|]. split; [unfold same_table; split_and!; congruence|].
    intros k Hk. rewrite Hc2, Hc1, H1 by done. case_decide; [by rewrite app_assoc|by rewrite app_nil_r].
Qed.

(** *** Collecting confirmed segments *)

Lemma elem_of_sorted_keys {A} (m : gmap Z A) k : k ∈ sorted_keys m <-> is_Some (m !! k).
Proof.
  unfold sorted_keys. rewrite merge_sort_Permutation, list_elem_of_fmap. split.
  - intros ([k' v] & -> & H%elem_of_map_to_list). by exists v.
  - intros [v H]. exists (k, v). by rewrite elem_of_map_to_list.
Qed.

Lemma foldr_delete_lookup {A} (m : gmap Z A) ks k :
  foldr delete m ks !! k = if decide (k ∈ ks) then None else m !! k.
Proof.
  induction ks as [|k' ks IH]; simpl; [done|].
  rewrite lookup_delete, IH.
  destruct (decide (k' = k)), (decide (k ∈ ks)), (decide (k ∈ k' :: ks)) as [E|E];
    rewrite elem_of_cons in E; naive_solver.
Qed.

Lemma collect_lookup st k :
  segments (collect_confirmed st).1 !! k =
    match segments st !! k with
    | Some s => if confirmed s then None else Some s
    | None => None
    end.
Proof.
  unfold collect_confirmed. simpl. rewrite foldr_delete_lookup.
  destruct (segments st !! k) as [s|] eqn:E.
  - case_decide as H; rewrite elem_of_sorted_keys in H.
    + destruct H as [s' H]. apply map_lookup_filter_Some in H as [H Hc]. simplify_eq/=. by rewrite Hc.
    + destruct (confirmed s) eqn:Hc; [|done]. exfalso. apply H. exists s.
      by apply map_lookup_filter_Some.
  - by case_decide.
Qed.

Lemma collect_pending st k : pending (collect_confirmed st).1 k = pending st k.
Proof.
  unfold pending. rewrite collect_lookup. destruct (segments st !! k) as [s|]; [|done].
  unfold confirmed. destruct (sealed s); simpl; [|done]. by destruct (Z.eqb_spec (outstanding s) 0).
Qed.

Lemma collect_inv st olds : wal_inv st olds ->
  wal_inv (collect_confirmed st).1 olds /\ victims_ok (collect_confirmed st).1 (collect_confirmed st).2.
Proof.
  intros I. pose proof (collect_lookup st) as HL.
  assert (forall k s, segments (collect_confirmed st).1 !! k = Some s -> segments st !! k = Some s) as Hsub.
  { intros k s. rewrite HL. repeat case_match; naive_solver. }
  split.
  - split.
    + apply I.
    + destruct (inv_cur _ _ I) as (s & Hs & Hu). exists s. rewrite HL. simpl. rewrite Hs.
      unfold confirmed. by rewrite Hu.
    + apply I.
    + intros k s Hs%Hsub. by apply (inv_keys _ _ I).
    + intros k s Hs%Hsub. by apply (inv_files _ _ I _ _ Hs).
    + intros k. apply (inv_fresh _ _ I).
    + intros k s Hs%Hsub. by apply (inv_durable _ _ I _ _ Hs).
  - unfold victims_ok. apply Forall_fmap, Forall_forall. intros k Hk. exists k. split; [done|].
    apply elem_of_sorted_keys in Hk as [s Hs]. apply map_lookup_filter_Some in Hs as [Hs Hc].
    split; [apply (inv_keys _ _ I) in Hs as [? _]; done|]. simpl in *. rewrite foldr_delete_lookup.
    rewrite decide_True; [done|]. apply elem_of_sorted_keys. exists s. by apply map_lookup_filter_Some.
Qed.

(** *** Rotation *)

Section opening.
Variables (st : WalState) (olds : list bytes).
Hypothesis I : wal_inv st olds.
Hypothesis Hlt : current_seq st < U64_MAX.
Let new : Z := current_seq st + 1.

Lemma open_next_seq : current_seq (open_next st) = new.
Proof using I Hlt.
  pose proof (inv_range _ _ I) as Hr. unfold path_ok in Hr.
  simpl. apply Z.mod_small. unfold U64_MAX in *. lia.
Qed.

Lemma new_ok : path_ok new.
Proof using I Hlt. pose proof (inv_range _ _ I). unfold path_ok, new in *. lia. Qed.

Lemma open_next_other k : path_ok k -> k <> new ->
  d_files (disk (open_next st)) !! segment_path k = d_files (disk (flush st)) !! segment_path k.
Proof using I Hlt.
  intros Hk Hne. pose proof open_next_seq as E. simpl in E. simpl. rewrite E.
  apply lookup_insert_ne. intros Ep. apply segment_path_inj in Ep; [done|apply new_ok|done].
Qed.

Lemma open_next_new : d_files (disk (flush st)) !! segment_path new = None /\
  d_files (disk (open_next st)) !! segment_path new = Some [].
Proof using I Hlt.
  pose proof open_next_seq as E. simpl in E.
  destruct (inv_fresh _ _ (flush_inv st olds I) new ltac:(simpl; unfold new; lia) new_ok) as [Hf _].
  split; [done|]. simpl in *. rewrite E, lookup_insert_eq, Hf. done.
Qed.

Lemma open_next_lookup k : segments (open_next st) !! k =
  if decide (k = new) then Some {| outstanding := 0; sealed := false |}
  else if decide (k = current_seq st)
  then (fun s => {| outstanding := outstanding s; sealed := true |}) <$> segments st !! k
  else segments st !! k.
Proof using I Hlt.
  pose proof open_next_seq as E. simpl in E. simpl. rewrite E, lookup_insert, lookup_alter.
  repeat case_decide; congruence.
Qed.

Lemma new_untracked : segments st !! new = None.
Proof using I.
  destruct (segments st !! new) as [s|] eqn:E; [|done]. apply (inv_keys _ _ I) in E. unfold new in E. lia.
Qed.

Lemma open_next_was k s : segments (open_next st) !! k = Some s -> k <> new ->
  exists s', segments st !! k = Some s' /\ outstanding s' = outstanding s
             /\ (k <> current_seq st -> s' = s).
Proof using I Hlt.
  rewrite open_next_lookup. intros Hs Hne. rewrite decide_False in Hs by done.
  case_decide; [|by eauto]. destruct (segments st !! k) as [s'|]; simplify_eq/=.
  exists s'. by split_and!.
Qed.

Lemma open_next_inv : wal_inv (open_next st) (olds ++ [bw_name (writer st)]).
Proof using I Hlt.
  pose proof (flush_inv st olds I) as If. pose proof open_next_seq as Eseq. pose proof new_ok as Hn.
  split; rewrite ?Eseq.
  - simpl in *. by rewrite Eseq.
  - eexists. by rewrite open_next_lookup, decide_True.
  - done.
  - intros k s Hs. destruct (decide (k = new)) as [->|Hne].
    + rewrite open_next_lookup, decide_True in Hs by done. simplify_eq/=. unfold path_ok in Hn. split; [lia|done].
    + destruct (open_next_was k s Hs Hne) as (s' & Hs' & Ho & Heq).
      apply (inv_keys _ _ I) in Hs' as (? & ? & Hseal). unfold new. split; [lia|]. split; [lia|]. intros _.
      rewrite open_next_lookup, decide_False in Hs by done.
      case_decide; [by destruct (segments st !! k); simplify_eq/=|]. rewrite <- Heq by done. auto.
  - intros k s Hs. destruct (decide (k = new)) as [->|Hne]; [by rewrite (proj2 open_next_new)|].
    destruct (open_next_was k s Hs Hne) as (s' & Hs' & _).
    rewrite open_next_other; [by eapply (inv_files _ _ If)|by eapply inv_tracked_path|done].
  - intros k Hk Hp. assert (k <> new) by lia. rewrite open_next_other by done.
    apply (inv_fresh _ _ If k); [simpl; unfold new in *; lia|done].
  - intros k s Hs Hne. destruct (open_next_was k s Hs Hne) as (s' & Hs' & _).
    destruct (decide (k = current_seq st)) as [->|Hnc].
    { right. rewrite (inv_name _ _ I). set_solver. }
    destruct (inv_durable _ _ If k s' Hs') as [Hd|]; [done| |right; set_solver].
    left. unfold durable, synced_len in *.
    rewrite open_next_other; [done|by eapply inv_tracked_path|done].
Qed.

Lemma open_next_content k : path_ok k -> content (open_next st) k = content st k.
Proof using I Hlt.
  intros Hk. rewrite <- (flush_content st olds) by done. unfold content at 1. rewrite open_next_seq.
  destruct (decide (k = new)) as [->|Hne].
  - destruct open_next_new as [Ho Hn]. rewrite Hn. unfold content. rewrite Ho. simpl.
    rewrite decide_False; [done|unfold new; lia].
  - rewrite open_next_other by done. unfold content. simpl. by case_decide.
Qed.

Lemma open_next_pending k : pending (open_next st) k = pending st k.
Proof using I Hlt.
  unfold pending. rewrite open_next_lookup. repeat case_decide; subst; [by rewrite new_untracked| |done].
  by destruct (segments st !! current_seq st).
Qed.
End opening.

Lemma victims_ok_mono st st' victims : current_seq st <= current_seq st' ->
  (forall k, 0 <= k <= current_seq st -> segments st !! k = None -> segments st' !! k = None) ->
  victims_ok st victims -> victims_ok st' victims.
Proof.
  intros Hc Hs Hv. eapply Forall_impl; [exact Hv|]. intros v (k & -> & Hk & Hn). exists k.
  split; [done|]. split; [lia|]. by apply Hs.
Qed.

Lemma rotate_spec st olds victims : wal_inv st olds -> victims_ok st victims ->
  current_seq st < U64_MAX ->
  let r := rotate st in
  wal_inv r.1 (olds ++ [r.2.1]) /\ victims_ok r.1 (victims ++ r.2.2)
  /\ current_seq r.1 = current_seq st + 1
  /\ (forall k, path_ok k -> content r.1 k = content st k)
  /\ (forall k, pending r.1 k = pending st k)
  /\ written r.1 = written st /\ synced r.1 = synced st.
Proof.
  intros I Hv Hlt. unfold rotate.
  pose proof (collect_inv _ _ (open_next_inv st olds I Hlt)) as [I2 V2].
  pose proof (collect_lookup (open_next st)) as HL. pose proof (collect_pending (open_next st)) as HP.
  pose proof (open_next_seq st olds I Hlt) as Hseq.
  assert (forall k, path_ok k -> content (collect_confirmed (open_next st)).1 k = content st k) as HC
    by (intros k Hk; by rewrite <- (open_next_content st olds)).
  assert (current_seq (collect_confirmed (open_next st)).1 = current_seq st + 1
    /\ written (collect_confirmed (open_next st)).1 = written st
    /\ synced (collect_confirmed (open_next st)).1 = synced st) as (H1 & H2 & H3) by done.
  destruct (collect_confirmed (open_next st)) as [st2 vs]. cbn [fst snd] in *.
  split_and!; try done.
  - apply Forall_app. split; [|done]. eapply victims_ok_mono; [| |exact Hv]; [lia|].
    intros k Hk Hn. rewrite HL, (open_next_lookup st olds) by done.
    rewrite decide_False by lia. by case_decide; rewrite Hn.
  - intros k. rewrite HP. by eapply open_next_pending.
Qed.

(** *** Appending *)

Section appending.
Context `{C : Crc32} {L : Crc32Laws C}.
Variable max_segment_bytes : Z.

Definition fits (it : WalItem) : Prop := blen (wi_stream it) < 2 ^ 15 /\ blen (wi_id it) < 2 ^ 15.

Lemma fits_guard it : fits it ->
  (V2_FLAG <=? blen (wi_stream it)) || (TOMBSTONE_FLAG <=? blen (wi_id it)) = false.
Proof.
  intros [Hs Hi]. unfold V2_FLAG, TOMBSTONE_FLAG.
  destruct (Z.leb_spec 0x8000 (blen (wi_stream it))); [lia|].
  destruct (Z.leb_spec 0x8000 (blen (wi_id it))); [lia|done].
Qed.

Lemma write_record_slices it :
  concat (le_bytes 4 (wrap_u 32 (payload_len it))
    :: le_bytes 4 (crc_finalize (foldl crc_update crc_new (payload_slices it))) :: payload_slices it)
  = encode it.
Proof using L. by rewrite crc_streaming. Qed.

(** Records of [ps] that landed in segment [k], and their bytes. *)
Definition landed (ps : list WalPos) (k : Z) : Z := blen (filter (fun p => segment p = k) ps).
Fixpoint appended (ps : list WalPos) (items : list WalItem) (k : Z) : bytes :=
  match ps, items with
  | p :: ps, it :: items => (if decide (segment p = k) then encode it else []) ++ appended ps items k
  | _, _ => []
  end.

Lemma appended_snoc ps items p it k : length ps = length items ->
  appended (ps ++ [p]) (items ++ [it]) k =
  appended ps items k ++ (if decide (segment p = k) then encode it else []).
Proof.
  revert items; induction ps as [|q ps IH]; intros [|jt items] H; simplify_eq/=; [by rewrite app_nil_r|].
  by rewrite IH, app_assoc.
Qed.

(** What the loop has done after some items, relative to the start. *)
Record appended_to (st0 st : WalState) (items : list WalItem) (ps : list WalPos)
    (olds victims : list bytes) : Prop := {
  at_inv : wal_inv st olds;
  at_victims : victims_ok st victims;
  at_len : length ps = length items;
  at_content k : path_ok k -> content st k = content st0 k ++ appended ps items k;
  at_pending k : pending st k = pending st0 k + landed ps k;
  at_gen : written st = written st0 /\ synced st = synced st0;
  at_idle : items = [] -> st = st0 /\ olds = [];
  at_segs p : p ∈ ps -> path_ok (segment p);
}.

Lemma append_item_ok it st0 st items ps olds victims :
  appended_to st0 st items ps olds victims -> fits it -> current_seq st < U64_MAX ->
  exists st' s v p, append_item max_segment_bytes it st = (st', Ok (s, v, p)) /\
    appended_to st0 st' (items ++ [it]) (ps ++ [p]) (olds ++ s) (victims ++ v)
    /\ current_seq st' <= current_seq st + 1.
Proof using L.
  intros [I V Hlen Hcont Hpend [Hw Hy] _ Hps] Hfit Hlt. unfold append_item.
  set (r := if max_segment_bytes <=? current_len st then _ else _).
  assert (exists st1 s v, r = (st1, s, v) /\ wal_inv st1 (olds ++ s) /\ victims_ok st1 (victims ++ v)
    /\ current_seq st1 <= current_seq st + 1
    /\ (forall k, path_ok k -> content st1 k = content st k) /\ (forall k, pending st1 k = pending st k)
    /\ written st1 = written st /\ synced st1 = synced st) as (st1 & s & v & -> & I1 & V1 & Hc1 & Hk1 & Hp1 & Hw1 & Hy1).
  { unfold r. destruct (max_segment_bytes <=? current_len st).
    - pose proof (rotate_spec st olds victims I V Hlt) as Hrot.
      destruct (rotate st) as [st1 [old vs]]. simpl in Hrot. destruct Hrot as (?&?&?&?&?&?&?).
      exists st1, [old], vs. split_and!; try done. lia.
    - exists st, [], []. rewrite !app_nil_r. split_and!; try done. lia. }
  rewrite fits_guard by done. unfold write_record.
  pose proof (write_slices_spec (le_bytes 4 (wrap_u 32 (payload_len it))
    :: le_bytes 4 (crc_finalize (foldl crc_update crc_new (payload_slices it))) :: payload_slices it)
    st1 _ I1) as (I2 & (Hs2 & Hg2 & Hw2 & Hy2) & Hc2).
  rewrite write_record_slices in Hc2. set (st2 := foldl _ st1 _) in *. cbn [current_seq segments set_segments].
  destruct (inv_cur _ _ I2) as (sg & Hsg & Hun). rewrite Hsg.
  set (sg' := {| outstanding := outstanding sg + 1; sealed := sealed sg |}).
  do 4 eexists. split; [done|]. split; [|simpl; lia].
  split.
  - split; cbn [writer current_seq segments disk set_segments].
    + apply I2.
    + exists sg'. by rewrite lookup_insert_eq.
    + apply I2.
    + intros k s'. rewrite lookup_insert. case_decide as E; [|by apply (inv_keys _ _ I2)].
      intros [= <-]. subst k. apply (inv_keys _ _ I2) in Hsg as (?&?&?). simpl.
      split; [done|]. split; [lia|done].
    + intros k s'. rewrite lookup_insert. case_decide; [subst; intros _|]; by eapply (inv_files _ _ I2).
    + apply (inv_fresh _ _ I2).
    + intros k s'. rewrite lookup_insert. case_decide; [congruence|]. by apply (inv_durable _ _ I2).
  - eapply victims_ok_mono; [| |exact V1]; simpl; [lia|]. rewrite Hg2, Hs2. intros k Hk Hn.
    rewrite lookup_insert_ne; [done|]. intros <-. rewrite <- Hg2, <- Hs2 in Hn. congruence.
  - rewrite !length_app. simpl. lia.
  - intros k Hk. rewrite appended_snoc by done. cbn [segment].
    transitivity (content st2 k); [done|]. rewrite Hc2, Hk1, Hcont, Hs2, <- app_assoc by done.
    do 2 f_equal. repeat case_decide; congruence.
  - intros k. unfold pending at 1. cbn [segments set_segments]. rewrite lookup_insert. unfold landed.
    rewrite filter_app, length_app, filter_cons, filter_nil. cbn [segment].
    assert (pending st2 k = pending st0 k + landed ps k) as E.
    { unfold pending at 1. rewrite Hg2. fold (pending st1 k). by rewrite Hp1, Hpend. }
    unfold landed in E. case_decide as Ek.
    + subst k. unfold pending at 1 in E. rewrite Hsg in E. simpl. lia.
    + fold (pending st2 k). simpl. lia.
  - split; simpl; congruence.
  - intros [_ E]%app_nil. done.
  - intros p [Hp| ->%list_elem_of_singleton]%elem_of_app; [by apply Hps|]. apply (inv_range _ _ I2).
Qed.

Lemma append_items_ok items st0 done0 ps olds victims st :
  appended_to st0 st done0 ps olds victims -> Forall fits items ->
  current_seq st + blen items <= U64_MAX ->
  exists st' olds' victims' ps',
    append_items max_segment_bytes items olds victims ps st = (st', Ok (olds', victims', ps')) /\
    appended_to st0 st' (done0 ++ items) ps' olds' victims'.
Proof using L.
  revert st done0 ps olds victims; induction items as [|it items IH];
    intros st done0 ps olds victims Hat Hf Hseq.
  - exists st, olds, victims, ps. split; [done|]. by rewrite app_nil_r.
  - apply Forall_cons in Hf as [Hit Hf]. cbn [length] in Hseq.
    destruct (append_item_ok it st0 st done0 ps olds victims Hat Hit) as (st1 & s & v & p & E & Hat1 & Hc1);
      [lia|]. cbn [append_items]. rewrite E.
    destruct (IH st1 _ _ _ _ Hat1 Hf) as (st' & o' & v' & ps' & E' & H'); [lia|].
    exists st', o', v', ps'. split; [done|]. by rewrite <- app_assoc in H'.
Qed.
End appending.

(** *** Committing *)

Lemma sync_fold_lookup names d k : let d' := foldl (fun d n => sync_data n d) d names in
  d_files d' = d_files d /\
  (synced_len d' k = synced_len d k \/ synced_len d' k = length (default [] (d_files d !! segment_path k))) /\
  (segment_path k ∈ names -> synced_len d' k = length (default [] (d_files d !! segment_path k))
    \/ d_files d !! segment_path k = None).
Proof.
  revert d; induction names as [|n names IH]; intros d; simpl; [by split_and!; [|left|set_solver]|].
  destruct (IH (sync_data n d)) as (H1 & H2 & H3).
  assert (d_files (sync_data n d) = d_files d) as Hf by (unfold sync_data; by case_match).
  rewrite Hf in *. rewrite H1. split; [done|].
  assert (synced_len (sync_data n d) k = synced_len d k \/
          synced_len (sync_data n d) k = length (default [] (d_files d !! segment_path k))) as Hs.
  { unfold sync_data. destruct (d_files d !! n) eqn:En; [|by left]. unfold synced_len. simpl.
    rewrite lookup_insert. case_decide; [right; subst; by rewrite En|by left]. }
  split; [destruct H2 as [-> | ->]; [done|by right]|].
  rewrite elem_of_cons. intros [<-|Hin]; [|by auto].
  destruct (d_files d !! segment_path k) as [f|] eqn:En; [left|by right].
  assert (synced_len (sync_data (segment_path k) d) k = length f) as Hsy.
  { unfold sync_data. rewrite En. unfold synced_len. simpl. by rewrite lookup_insert_eq. }
  simpl in *. destruct H2 as [-> | ->]; done.
Qed.

Lemma remove_fold_lookup vs d k : segment_path k ∉ vs ->
  d_files (foldr remove_file d vs) !! segment_path k = d_files d !! segment_path k /\
  d_synced (foldr remove_file d vs) !! segment_path k = d_synced d !! segment_path k.
Proof.
  induction vs as [|v vs IH]; [done|]. rewrite not_elem_of_cons. intros [Hne Hn]. simpl.
  rewrite !lookup_delete_ne by done. auto.
Qed.

Lemma remove_fold_none vs d name : d_files d !! name = None -> d_synced d !! name = None ->
  d_files (foldr remove_file d vs) !! name = None /\ d_synced (foldr remove_file d vs) !! name = None.
Proof.
  intros H1 H2. induction vs as [|v vs [IH1 IH2]]; [done|]. simpl.
  rewrite !lookup_delete. by repeat case_decide.
Qed.

Lemma victims_untracked st victims k s : victims_ok st victims -> path_ok k -> current_seq st <= U64_MAX ->
  segments st !! k = Some s -> segment_path k ∉ victims.
Proof.
  intros Hv Hk Hc Hs Hin. unfold victims_ok in Hv. rewrite Forall_forall in Hv.
  destruct (Hv _ Hin) as (j & E & Hj & Hn).
  apply segment_path_inj in E; [|done|unfold path_ok; lia]. congruence.
Qed.

(** The end of [append_batch]: everything tracked is clean again. *)
Section committing.
Variables (st : WalState) (olds victims : list bytes) (n : Z).
Hypothesis I : wal_inv st olds.
Hypothesis V : victims_ok st victims.
Let d1 : Disk := foldl (fun d nm => sync_data nm d) (disk st) olds.
Let d2 : Disk := foldr remove_file d1 victims.
Let d3 : Disk := if synced st <? n then sync_data (bw_name (writer st)) d2 else d2.

Lemma commit_eq : commit olds victims (bw_name (writer st)) n st =
  {| disk := d3; writer := writer st; current_seq := current_seq st; current_len := current_len st;
     segments := segments st; written := written st;
     synced := if synced st <? n then Z.max (synced st) (written st) else synced st |}.
Proof. unfold commit, set_disk, set_io, d3. simpl. by destruct (synced st <? n). Qed.

Lemma commit_victim k s : segments st !! k = Some s -> segment_path k ∉ victims.
Proof using I V.
  intros Hs. eapply victims_untracked; [done|by eapply inv_tracked_path|apply (inv_range _ _ I)|done].
Qed.

Lemma commit_files : d_files d3 = d_files d2.
Proof. unfold d3, sync_data. by repeat case_match. Qed.

Lemma commit_file k s : segments st !! k = Some s ->
  d_files d2 !! segment_path k = d_files (disk st) !! segment_path k.
Proof using I V.
  intros Hs. unfold d2. rewrite (proj1 (remove_fold_lookup _ _ _ (commit_victim k s Hs))).
  unfold d1. by rewrite (proj1 (sync_fold_lookup olds (disk st) k)).
Qed.

Lemma commit_synced_old k s : segments st !! k = Some s -> durable st k \/ segment_path k ∈ olds ->
  synced_len d2 k = length (default [] (d_files d2 !! segment_path k)).
Proof using I V.
  intros Hs Hd. rewrite (commit_file k s Hs). unfold synced_len, d2.
  rewrite (proj2 (remove_fold_lookup _ _ _ (commit_victim k s Hs))). fold (synced_len d1 k).
  destruct (sync_fold_lookup olds (disk st) k) as (_ & H2 & H3). fold d1 in H2, H3.
  destruct Hd as [Hd|Hin]; [destruct H2 as [-> | ->]; done|].
  destruct (H3 Hin) as [?|Hn]; [done|]. destruct (inv_files _ _ I k s Hs). congruence.
Qed.

Lemma commit_synced k s : segments st !! k = Some s ->
  durable st k \/ segment_path k ∈ olds \/ (synced st < n /\ k = current_seq st) ->
  synced_len d3 k = length (default [] (d_files d3 !! segment_path k)).
Proof using I V.
  intros Hs Hd. rewrite commit_files. unfold d3. destruct (Z.ltb_spec (synced st) n).
  2:{ apply (commit_synced_old k s Hs). destruct Hd as [?|[?|[? _]]]; auto. lia. }
  rewrite (inv_name _ _ I). unfold sync_data.
  destruct (inv_cur _ _ I) as (sc & Hsc & _). destruct (inv_files _ _ I _ _ Hsc) as [fc Hfc].
  rewrite (commit_file _ _ Hsc), Hfc. unfold synced_len. simpl. rewrite lookup_insert. case_decide as E.
  - simpl. apply segment_path_inj in E; [|apply (inv_range _ _ I)|by eapply inv_tracked_path].
    subst k. by rewrite (commit_file _ _ Hsc), Hfc.
  - apply (commit_synced_old k s Hs). destruct Hd as [?|[?|[_ ->]]]; auto. done.
Qed.

Lemma commit_fresh k : current_seq st < k -> path_ok k ->
  d_files d3 !! segment_path k = None /\ d_synced d3 !! segment_path k = None.
Proof using I V.
  intros Hk Hp. destruct (inv_fresh _ _ I k Hk Hp) as [Hn1 Hn2].
  assert (d_files d1 !! segment_path k = None /\ d_synced d1 !! segment_path k = None) as [H1 H2].
  { unfold d1. clear -Hn1 Hn2. generalize dependent (disk st).
    induction olds as [|o os IH]; intros d H1 H2; [done|].
    simpl. apply IH; unfold sync_data; destruct (d_files d !! o) eqn:E; simpl; try done.
    rewrite lookup_insert. case_decide; [congruence|done]. }
  destruct (remove_fold_none victims d1 _ H1 H2) as [H3 H4]. fold d2 in H3, H4.
  rewrite commit_files. split; [done|].
  unfold d3. case_match; [|done]. unfold sync_data. case_match; [|done]. simpl.
  rewrite (inv_name _ _ I), lookup_insert_ne; [done|].
  intros E. apply segment_path_inj in E; [lia|apply (inv_range _ _ I)|done].
Qed.

Lemma commit_clean : bw_buf (writer st) = [] -> synced st <= n <= written st ->
  (synced st < n \/ durable st (current_seq st) /\ olds = []) ->
  let st' := commit olds victims (bw_name (writer st)) n st in
  wal_clean st' /\ current_seq st' = current_seq st /\ (forall k, pending st' k = pending st k)
  /\ (forall k s, segments st !! k = Some s -> content st' k = content st k).
Proof using I V.
  intros Hbuf Hn Hcase. rewrite commit_eq. cbv zeta.
  destruct (inv_cur _ _ I) as (sc & Hsc & Hun).
  split_and!; try done.
  - split; [split| | |]; cbn [disk writer current_seq segments written synced].
    + apply I.
    + by exists sc.
    + apply I.
    + apply (inv_keys _ _ I).
    + intros k s Hs. rewrite commit_files, (commit_file k s Hs). by eapply inv_files.
    + apply commit_fresh.
    + intros k s Hs Hne. left. apply (commit_synced k s Hs).
      destruct (inv_durable _ _ I k s Hs Hne); auto.
    + done.
    + apply (commit_synced _ _ Hsc). destruct Hcase as [?|[? _]]; auto.
    + case_match; lia.
  - intros k s Hs. unfold content. cbn [disk current_seq writer].
    by rewrite commit_files, (commit_file k s Hs).
Qed.
End committing.

(** ** Guarantees *)

Section guarantees.
Context `{C : Crc32} {L : Crc32Laws C}.
Variable max_segment_bytes : Z.

Lemma appended_start st : wal_clean st -> appended_to st st [] [] [] [].
Proof.
  intros [I _ _ _]. split; try done; [by apply Forall_nil_2| | |set_solver].
  - intros k _. simpl. by rewrite app_nil_r.
  - intros k. unfold landed. rewrite filter_nil. simpl. lia.
Qed.

Lemma append_batch_clean items st : wal_clean st -> Forall fits items ->
  current_seq st + blen items <= U64_MAX ->
  exists st' ps, append_batch max_segment_bytes items st = (st', Ok ps) /\
    wal_clean st' /\ length ps = length items /\
    (forall p, p ∈ ps -> path_ok (segment p)) /\
    (forall k, pending st' k = pending st k + landed ps k) /\
    (forall k, is_Some (segments st' !! k) -> content st' k = content st k ++ appended ps items k).
Proof using L.
  intros Hcl Hf Hseq.
  destruct (append_items_ok max_segment_bytes items st [] [] [] [] st (appended_start st Hcl) Hf Hseq)
    as (st1 & olds & victims & ps & E & [I V Hlen Hcont Hpend [Hw Hy] Hidle Hps]).
  unfold append_batch. rewrite E. cbn [app] in *.
  set (st2 := {| disk := disk (flush st1); writer := _; current_seq := _; current_len := _;
                 segments := _; written := _; synced := _ |}).
  pose proof (flush_inv st1 olds I) as If.
  assert (wal_inv st2 olds) as I2 by (by destruct If).
  assert (victims_ok st2 victims) as V2 by exact V.
  assert (written st2 = written st + blen items) as Hw2 by (simpl; lia).
  pose proof (clean_gen _ Hcl).
  destruct (commit_clean st2 olds victims (written st2) I2 V2) as (Hc & Hs & Hp & Hct).
  - done.
  - rewrite Hw2. simpl. lia.
  - destruct items as [|it items]; [right|left; rewrite Hw2; cbn [length synced st2 flush set_io]; lia].
    destruct (Hidle eq_refl) as [-> ->]. split; [|done].
    pose proof (clean_durable _ Hcl) as Hd. pose proof (clean_buf _ Hcl) as Hb.
    pose proof (inv_name _ _ I) as Hnm. unfold durable, synced_len in *. simpl.
    rewrite Hnm, Hb, lookup_insert_eq, app_nil_r. done.
  - exists (commit olds victims (bw_name (writer st2)) (written st2) st2), ps.
    split_and!; try done.
    + intros k. rewrite Hp. exact (Hpend k).
    + intros k [s Hk]. rewrite commit_eq in Hk. cbn [segments] in Hk.
      rewrite (Hct k s Hk). rewrite <- Hcont by (eapply (inv_tracked_path st2); done).
      rewrite <- (flush_content st1 olds) by (done || eapply (inv_tracked_path st2); done). done.
Qed.

(** *** Confirming *)

Lemma dec_fold_lookup (ps : list WalPos) (m : gmap Z SegmentState) k :
  foldl (fun m p => alter dec_outstanding (segment p) m) m ps !! k =
  (fun s => {| outstanding := if bool_decide (landed ps k = 0) then outstanding s
                              else Z.max 0 (outstanding s - landed ps k);
               sealed := sealed s |}) <$> m !! k.
Proof.
  revert m; induction ps as [|p ps IH]; intros m.
  - simpl. destruct (m !! k) as [[]|]; done.
  - cbn [foldl]. rewrite IH, lookup_alter. unfold landed. rewrite filter_cons.
    destruct (decide (segment p = k)) as [Hk|Hk].
    + subst k. destruct (m !! segment p) as [s|]; [|done]. simpl.
      do 2 f_equal. repeat case_bool_decide; lia.
    + done.
Qed.

Lemma confirm_pending st ps k : wal_clean st ->
  pending (confirm ps st) k = Z.max 0 (pending st k - landed ps k).
Proof.
  intros Hcl. unfold confirm.
  set (st1 := set_segments _ st). pose proof (collect_pending st1 k) as HP.
  destruct (collect_confirmed st1) as [st2 vs]. cbn [fst] in HP.
  transitivity (pending st2 k); [done|]. rewrite HP. unfold st1, pending. cbn [segments set_segments].
  rewrite dec_fold_lookup. assert (0 <= landed ps k) by (unfold landed; lia).
  destruct (segments st !! k) as [s|] eqn:E; simpl; [|lia].
  apply (inv_keys _ _ (clean_inv _ Hcl)) in E as (_ & ? & _). case_bool_decide; lia.
Qed.

Lemma confirm_clean st ps : wal_clean st ->
  wal_clean (confirm ps st) /\
  (forall k, is_Some (segments (confirm ps st) !! k) -> content (confirm ps st) k = content st k).
Proof.
  intros Hcl. pose proof (clean_inv _ Hcl) as I. unfold confirm. set (st1 := set_segments _ st).
  assert (forall k s, segments st1 !! k = Some s -> exists s', segments st !! k = Some s' /\ sealed s' = sealed s
    /\ 0 <= outstanding s) as Hwas.
  { intros k s. unfold st1. cbn [segments set_segments]. rewrite dec_fold_lookup.
    destruct (segments st !! k) as [s'|] eqn:E; [|done]. intros [= <-]. exists s'. split_and!; try done.
    apply (inv_keys _ _ I) in E as (_ & ? & _). simpl. case_bool_decide; lia. }
  assert (wal_inv st1 []) as I1.
  { split; try apply I.
    - destruct (inv_cur _ _ I) as (s & Hs & Hu). unfold st1. cbn [segments set_segments current_seq].
      rewrite dec_fold_lookup, Hs. by eexists.
    - intros k s (s' & Hs' & Hse & Ho)%Hwas. rewrite <- Hse. apply (inv_keys _ _ I) in Hs' as (?&?&?). done.
    - intros k s (s' & Hs' & _)%Hwas. by eapply (inv_files _ _ I).
    - intros k s (s' & Hs' & _)%Hwas. by eapply (inv_durable _ _ I). }
  destruct (collect_inv st1 [] I1) as [I2 V2].
  assert (disk (collect_confirmed st1).1 = disk st /\ writer (collect_confirmed st1).1 = writer st
    /\ current_seq (collect_confirmed st1).1 = current_seq st
    /\ written (collect_confirmed st1).1 = written st /\ synced (collect_confirmed st1).1 = synced st)
    as (Hd & Hw & Hc & Hwr & Hsy) by done.
  destruct (collect_confirmed st1) as [st2 vs]. cbn [fst snd] in *.
  destruct (commit_clean st2 [] vs (synced st2) I2 V2) as (Hclean & _ & _ & Hcont).
  - rewrite Hw. apply Hcl.
  - pose proof (clean_gen _ Hcl). lia.
  - right. split; [|done]. unfold durable, synced_len. rewrite Hd, Hc. apply (clean_durable _ Hcl).
  - assert (commit [] vs (bw_name (writer st2)) (synced st2) st2 = set_disk (fun d => foldr remove_file d vs) st2) as E.
    { rewrite commit_eq. rewrite Z.ltb_irrefl. done. }
    rewrite E in *. split; [done|]. intros k [s Hs]. rewrite (Hcont k s Hs).
    unfold content. by rewrite Hd, Hw, Hc.
Qed.
End guarantees.

(** ** Opening *)

Section opening_again.
Context `{C : Crc32}.

Lemma count_segments_spec d seqs m m' : count_segments d seqs m = Ok m' ->
  exists contents, Forall2 (file_holds d) ((fun s => (s, segment_path s)) <$> seqs) contents /\
  forall k, m' !! k = if decide (k ∈ seqs)
    then (fun f => {| outstanding := Z.of_nat (segment_records_count (cursor_at k f)); sealed := true |})
           <$> d_files d !! segment_path k
    else m !! k.
Proof.
  revert m; induction seqs as [|s seqs IH]; intros m; cbn [count_segments].
  - intros [= <-]. exists []. by split; [constructor|].
  - unfold cursor_open. destruct (d_files d !! segment_path s) as [f|] eqn:Ef; [|done].
    intros (contents & HF & Hm)%IH. exists (f :: contents). split; [by constructor|].
    intros k. rewrite Hm. rewrite lookup_insert.
    destruct (decide (k ∈ seqs)), (decide (k ∈ s :: seqs)) as [Hk|Hk], (decide (s = k));
      rewrite elem_of_cons in Hk; subst; try done; try naive_solver; by rewrite Ef.
Qed.

Lemma count_segments_total d seqs m : (forall k, k ∈ seqs -> is_Some (d_files d !! segment_path k)) ->
  exists m', count_segments d seqs m = Ok m'.
Proof.
  revert m; induction seqs as [|s seqs IH]; intros m H; [by eexists|]. cbn [count_segments].
  unfold cursor_open. destruct (H s) as [f ->]; [set_solver|]. apply IH. set_solver.
Qed.

Lemma elem_of_list_seqs d k : k ∈ list_seqs d <->
  exists name, is_Some (d_files d !! name) /\ segment_seq name = Some k.
Proof.
  unfold list_seqs. rewrite merge_sort_Permutation, list_elem_of_omap. split.
  - intros (name & Hin & Hk). apply list_elem_of_fmap in Hin as ([n f] & -> & Hin%elem_of_map_to_list).
    exists n. split; [by eexists|done].
  - intros (name & [f Hf] & Hk). exists name. split; [|done].
    apply list_elem_of_fmap. exists (name, f). by rewrite elem_of_map_to_list.
Qed.

(** The directory names no segment twice. *)
Definition canonical (d : Disk) : Prop := forall name k,
  is_Some (d_files d !! name) -> segment_seq name = Some k -> name = segment_path k.

Lemma open_total d : canonical d -> exists st r, open d = Ok (st, r).
Proof.
  intros Hc. unfold open. destruct (count_segments_total d (list_seqs d) ∅) as [m' ->]; [|by eauto].
  intros k (name & Hs & Hk)%elem_of_list_seqs. by rewrite <- (Hc _ _ Hs Hk).
Qed.

Lemma list_seqs_last d k : k ∈ list_seqs d ->
  exists m, list.last (list_seqs d) = Some m /\ k <= m /\ m ∈ list_seqs d.
Proof.
  intros Hk. destruct (list.last (list_seqs d)) as [m|] eqn:E.
  2:{ apply last_None in E. rewrite E in Hk. set_solver. }
  exists m. split; [done|]. pose proof E as E'. apply last_Some in E' as [l El].
  split; [|rewrite El; set_solver].
  assert (StronglySorted Z.le (list_seqs d)) as HS.
  { apply (StronglySorted_merge_sort Z.le). }
  rewrite El in Hk, HS. apply elem_of_app in Hk as [Hk|Hk%list_elem_of_singleton]; [|lia].
  eapply (StronglySorted_app_1_elem_of Z.le); [exact HS|done|set_solver].
Qed.
End opening_again.

(** ** A crash *)

(** Every file keeps at least what was synced of it; the directory entries
    survive. *)
Definition crash (d d' : Disk) : Prop := forall name f, d_files d !! name = Some f ->
  exists m, (default O (d_synced d !! name) <= m)%nat /\ d_files d' !! name = Some (take m f).

Lemma crash_durable st d' k : wal_clean st -> is_Some (segments st !! k) -> crash (disk st) d' ->
  d_files d' !! segment_path k = Some (content st k).
Proof.
  intros Hcl [s Hs] Hcr. pose proof (clean_inv _ Hcl) as I.
  destruct (inv_files _ _ I k s Hs) as [f Hf]. destruct (Hcr _ _ Hf) as (m & Hm & ->).
  unfold content. rewrite Hf, (clean_buf _ Hcl). cbn [default].
  assert (durable st k) as Hd.
  { destruct (decide (k = current_seq st)) as [->|Hne]; [apply Hcl|].
    destruct (inv_durable _ _ I k s Hs Hne); set_solver. }
  unfold durable, synced_len in Hd. rewrite Hf in Hd. simpl in *.
  rewrite firstn_all2 by lia. by case_decide; rewrite app_nil_r.
Qed.

Section recovery.
Context `{C : Crc32} {L : Crc32Laws C}.
Variable max_segment_bytes : Z.

(** The records landed in [k], as items. *)
Fixpoint landed_items (ps : list WalPos) (items : list WalItem) (k : Z) : list WalItem :=
  match ps, items with
  | p :: ps, it :: items => (if decide (segment p = k) then [it] else []) ++ landed_items ps items k
  | _, _ => []
  end.

Lemma appended_landed ps items k : appended ps items k = encode_all (landed_items ps items k).
Proof.
  revert items; induction ps as [|p ps IH]; intros [|it items]; try done.
  cbn [appended landed_items]. rewrite encode_all_app, <- IH. f_equal. case_decide; [|done].
  unfold encode_all. simpl. by rewrite app_nil_r.
Qed.

Lemma landed_items_ok ps items k : Forall item_ok items -> Forall item_ok (landed_items ps items k).
Proof.
  intros H. revert ps; induction H as [|it items Hit H IH]; intros [|p ps]; try by apply Forall_nil_2.
  cbn [landed_items]. apply Forall_app. split; [|done].
  case_decide; [by apply Forall_singleton|by apply Forall_nil_2].
Qed.

Lemma landed_items_elem ps items i p it : ps !! i = Some p -> items !! i = Some it ->
  it ∈ landed_items ps items (segment p) /\ p ∈ ps.
Proof.
  revert ps items; induction i as [|i IH]; intros [|q ps] [|jt items]; simpl; try done.
  - intros [= ->] [= ->]. rewrite decide_True by done. set_solver.
  - intros Hp Hi. destruct (IH _ _ Hp Hi). set_solver.
Qed.

Lemma landed_pos ps p : p ∈ ps -> 0 < landed ps (segment p).
Proof.
  intros Hp. unfold landed. destruct (filter _ ps) eqn:E; [|simpl; lia].
  assert (p ∈ filter (fun q => segment q = segment p) ps) as H by by apply list_elem_of_filter.
  rewrite E in H. set_solver.
Qed.

Lemma pending_tracked st k : 0 < pending st k -> is_Some (segments st !! k).
Proof. unfold pending. case_match; [by eauto|lia]. Qed.

Lemma pending_nonneg st k : wal_clean st -> 0 <= pending st k.
Proof.
  intros Hcl. unfold pending. destruct (segments st !! k) as [s|] eqn:E; [|lia].
  apply (inv_keys _ _ (clean_inv _ Hcl)) in E. lia.
Qed.

(** Every segment file holds a log of well-formed records. *)
Definition holds_records (st : WalState) (log : Z -> list WalItem) : Prop :=
  forall k, path_ok k -> content st k = encode_all (log k) /\ Forall item_ok (log k).

Lemma item_ok_fits it : item_ok it -> fits it.
Proof. intros []. by split. Qed.

(** Reopening after a crash replays every record of a segment that still
    has something pending. *)
Lemma reopened_replays st d' k its it uuid : wal_clean st -> 0 < pending st k ->
  content st k = encode_all its -> Forall item_ok its -> it ∈ its ->
  crash (disk st) d' -> canonical d' ->
  exists st2 r N, open d' = Ok (st2, r) /\
    forall n, (N < n)%nat -> Ok (record_of k it) ∈ collect n uuid d' r.
Proof using L.
  intros Hcl Hp Hc Hok Hin Hcr Hcan.
  destruct (open_total d' Hcan) as (st2 & r & Eo).
  pose proof (crash_durable st d' k Hcl (pending_tracked st k Hp) Hcr) as Hf.
  assert (path_ok k) as Hk.
  { destruct (pending_tracked st k Hp) as [s Hs]. eapply inv_tracked_path; [apply Hcl|done]. }
  assert (k ∈ list_seqs d') as Hl.
  { apply elem_of_list_seqs. exists (segment_path k). split; [by rewrite Hf|by apply segment_seq_path]. }
  pose proof Eo as Eo'. unfold open in Eo'.
  destruct (count_segments d' (list_seqs d') ∅) as [m|] eqn:Em; [|done]. injection Eo' as _ <-.
  destruct (count_segments_spec _ _ _ _ Em) as (contents & HF & _).
  eexists st2, _, (length (directory_records uuid _ contents)). split; [exact Eo|]. intros n Hn.
  rewrite (collect_directory uuid d' _ contents n HF Hn). apply list_elem_of_fmap_2.
  clear -Hl HF Hf Hc Hok Hin L. unfold directory_records.
  induction (list_seqs d') as [|s seqs IH] in contents, HF, Hl |- *; [set_solver|].
  cbn [fmap list_fmap] in HF. apply Forall2_cons_inv_l in HF as (f & fs & Hs & HF & ->).
  cbn [fmap list_fmap zip_with concat fst]. apply elem_of_app.
  apply elem_of_cons in Hl as [->|Hl]; [left|right; by apply IH].
  unfold file_holds in Hs. cbn [snd] in Hs. rewrite Hf, Hc in Hs. injection Hs as <-.
  rewrite segment_records_encoded by done. by apply list_elem_of_fmap_2.
Qed.
End recovery.

(** ** Concurrent appends: the group commit

    Threads inside [append_batch], at the granularity of its critical
    sections: (1) the block under the writer lock, (2) the fsync of the
    files this batch rotated out, (3) the check of [synced] and, under
    [sync_gate], the snapshot of [written], (4) the fsync of the fd taken in
    (1) and the advance of [synced].  A record is its segment and its index
    in it; a rotation happens before a record when [rot] says the segment
    is full. *)

Inductive Phase :=
| Idle
| Flushed (olds : list Z) (fd my_gen : Z) (recs : list (Z * Z))
| Ready (fd my_gen : Z) (recs : list (Z * Z))
| Gated (fd covered : Z) (recs : list (Z * Z))
| Acked (recs : list (Z * Z)).

Record Group := {
  g_written : Z;
  g_synced : Z;
  g_seg : Z;
  g_flushed : gmap Z Z;   (** records in each segment's file *)
  g_durable : gmap Z Z;   (** how many of them are durable *)
  g_gate : option nat;    (** holder of [sync_gate] *)
  g_threads : gmap nat Phase;
}.

Definition count_at (m : gmap Z Z) (k : Z) : Z := default 0 (m !! k).

(** The loop over a batch under the writer lock. *)
Fixpoint group_write (rots : list bool) (seg : Z) (flushed : gmap Z Z) (olds : list Z)
    (recs : list (Z * Z)) : Z * gmap Z Z * list Z * list (Z * Z) :=
  match rots with
  | [] => (seg, flushed, olds, recs)
  | rot :: rots =>
      let '(seg, olds) := if rot : bool then (seg + 1, olds ++ [seg]) else (seg, olds) in
      let i := count_at flushed seg in
      group_write rots seg (<[seg := i + 1]> flushed) olds (recs ++ [(seg, i)])
  end.

Inductive Event :=
| EWrite (t : nat) (rots : list bool)
| ESyncOlds (t : nat)
| ESkip (t : nat)      (** [synced >= my_gen], before or under the gate *)
| EGate (t : nat)
| EFsync (t : nat).

Definition sync_seg (k : Z) (g : Group) : gmap Z Z := <[k := count_at (g_flushed g) k]> (g_durable g).
Definition set_thread (t : nat) (p : Phase) (g : Group) : Group :=
  {| g_written := g_written g; g_synced := g_synced g; g_seg := g_seg g; g_flushed := g_flushed g;
     g_durable := g_durable g; g_gate := g_gate g; g_threads := <[t := p]> (g_threads g) |}.
Definition set_durable (m : gmap Z Z) (g : Group) : Group :=
  {| g_written := g_written g; g_synced := g_synced g; g_seg := g_seg g; g_flushed := g_flushed g;
     g_durable := m; g_gate := g_gate g; g_threads := g_threads g |}.

Definition group_step (e : Event) (g : Group) : option Group :=
  match e with
  | EWrite t rots =>
      match default Idle (g_threads g !! t) with
      | Idle =>
          let '(seg, flushed, olds, recs) := group_write rots (g_seg g) (g_flushed g) [] [] in
          let w := g_written g + blen rots in
          Some {| g_written := w; g_synced := g_synced g; g_seg := seg; g_flushed := flushed;
                  g_durable := g_durable g; g_gate := g_gate g;
                  g_threads := <[t := Flushed olds seg w recs]> (g_threads g) |}
      | _ => None
      end
  | ESyncOlds t =>
      match default Idle (g_threads g !! t) with
      | Flushed olds fd gen recs =>
          Some (set_thread t (Ready fd gen recs) (foldl (fun g k => set_durable (sync_seg k g) g) g olds))
      | _ => None
      end
  | ESkip t =>
      match default Idle (g_threads g !! t) with
      | Ready fd gen recs => if (gen <=? g_synced g) then Some (set_thread t (Acked recs) g) else None
      | _ => None
      end
  | EGate t =>
      match default Idle (g_threads g !! t), g_gate g with
      | Ready fd gen recs, None =>
          if (g_synced g <? gen) then
            Some {| g_written := g_written g; g_synced := g_synced g; g_seg := g_seg g;
                    g_flushed := g_flushed g; g_durable := g_durable g; g_gate := Some t;
                    g_threads := <[t := Gated fd (g_written g) recs]> (g_threads g) |}
          else None
      | _, _ => None
      end
  | EFsync t =>
      match default Idle (g_threads g !! t) with
      | Gated fd covered recs =>
          Some {| g_written := g_written g; g_synced := Z.max (g_synced g) covered; g_seg := g_seg g;
                  g_flushed := g_flushed g; g_durable := sync_seg fd g; g_gate := None;
                  g_threads := <[t := Acked recs]> (g_threads g) |}
      | _ => None
      end
  end.

Definition group_init : Group :=
  {| g_written := 0; g_synced := 0; g_seg := 0; g_flushed := ∅; g_durable := ∅; g_gate := None;
     g_threads := ∅ |}.

(** Runs allowed to take the events [ok] accepts. *)
Inductive group_reach (ok : Event -> Prop) : Group -> Prop :=
| reach_init : group_reach ok group_init
| reach_step e g g' : group_reach ok g -> ok e -> group_step e g = Some g' -> group_reach ok g'.

Definition rec_durable (g : Group) (r : Z * Z) : Prop := r.2 < count_at (g_durable g) r.1.
Definition acked_durable (g : Group) : Prop := forall t recs,
  g_threads g !! t = Some (Acked recs) -> Forall (rec_durable g) recs.

Definition no_rotation (e : Event) : Prop :=
  match e with EWrite _ rots => Forall (fun r => r = false) rots | _ => True end.

(** What holds while every batch stays in one segment. *)
Definition phase_ok (g : Group) (p : Phase) : Prop :=
  match p with
  | Idle => True
  | Flushed olds fd gen recs =>
      olds = [] /\ fd = 0 /\ gen <= g_written g /\ Forall (fun r => r.1 = 0 /\ r.2 < gen) recs
  | Ready fd gen recs => fd = 0 /\ gen <= g_written g /\ Forall (fun r => r.1 = 0 /\ r.2 < gen) recs
  | Gated fd covered recs => fd = 0 /\ covered <= g_written g /\ Forall (fun r => r.1 = 0 /\ r.2 < covered) recs
  | Acked recs => Forall (fun r => r.1 = 0 /\ r.2 < count_at (g_durable g) 0) recs
  end.

Record group_inv (g : Group) : Prop := {
  gi_seg : g_seg g = 0;
  gi_flushed : count_at (g_flushed g) 0 = g_written g;
  gi_synced : g_synced g <= count_at (g_durable g) 0;
  gi_durable : count_at (g_durable g) 0 <= g_written g;
  gi_phase t p : g_threads g !! t = Some p -> phase_ok g p;
}.

Lemma group_write_plain rots seg flushed recs :
  Forall (fun r => r = false) rots ->
  group_write rots seg flushed [] recs =
    (seg, match rots with [] => flushed | _ => <[seg := count_at flushed seg + blen rots]> flushed end, [],
     recs ++ ((fun i => (seg, count_at flushed seg + Z.of_nat i)) <$> seq 0 (length rots))).
Proof.
  intros Hall. revert flushed recs.
  induction Hall as [|r rots Hr Hall IH]; intros flushed recs; [|subst r].
  - simpl. by rewrite app_nil_r.
  - cbn [group_write]. rewrite IH. unfold count_at. rewrite lookup_insert_eq. cbn [default].
    f_equal; [f_equal; f_equal|].
    + destruct rots; [simpl; f_equal; lia|]. rewrite insert_insert_eq. f_equal. simpl. lia.
    + rewrite <- app_assoc. f_equal. simpl. f_equal; [f_equal; lia|].
      rewrite <- fmap_S_seq, <- list_fmap_compose. apply list_fmap_ext. intros i x _. simpl. f_equal. lia.
Qed.

Lemma phase_ok_mono g g' p : phase_ok g p -> g_written g <= g_written g' ->
  count_at (g_durable g) 0 <= count_at (g_durable g') 0 -> phase_ok g' p.
Proof.
  intros H Hw Hd. destruct p; simpl in *; try done; try (destruct_and!; split_and!; try done; lia).
  eapply Forall_impl; [exact H|]. simpl. intros ? [? ?]. split; [done|lia].
Qed.

Lemma group_inv_thread g g' t p : group_inv g ->
  g_seg g' = 0 -> count_at (g_flushed g') 0 = g_written g' -> g_synced g' <= count_at (g_durable g') 0 ->
  count_at (g_durable g') 0 <= g_written g' ->
  g_written g <= g_written g' -> count_at (g_durable g) 0 <= count_at (g_durable g') 0 ->
  g_threads g' = <[t := p]> (g_threads g) -> phase_ok g' p -> group_inv g'.
Proof.
  intros I Hs Hf Hy Hd Hw Hd' Ht Hp. split; try done.
  intros t' p'. rewrite Ht, lookup_insert. case_decide; [by intros [= <-]|].
  intros Hq%(gi_phase _ I). by eapply phase_ok_mono.
Qed.

Lemma group_step_inv e g g' : group_inv g -> no_rotation e -> group_step e g = Some g' -> group_inv g'.
Proof.
  intros I Hok Hst. pose proof I as [Hseg Hfl Hsy Hdu Hph].
  destruct e as [t rots|t|t|t|t]; simpl in Hst, Hok;
    destruct (g_threads g !! t) as [p|] eqn:Et; simpl in Hst;
    (try (apply Hph in Et as Hp; destruct p; try done; simpl in Hp));
    try done.
  - rewrite group_write_plain, Hseg in Hst by done. injection Hst as <-.
    eapply (group_inv_thread g); try done; simpl; try lia.
    + destruct rots; simpl; [lia|]. unfold count_at at 1. rewrite lookup_insert_eq. simpl. lia.
    + split_and!; [done|done|lia|]. apply Forall_fmap, Forall_forall. intros i Hi.
      apply elem_of_seq in Hi. simpl. split; [done|lia].
  - rewrite group_write_plain, Hseg in Hst by done. injection Hst as <-.
    eapply (group_inv_thread g); try done; simpl; try lia.
    + destruct rots; simpl; [lia|]. unfold count_at at 1. rewrite lookup_insert_eq. simpl. lia.
    + split_and!; [done|done|lia|]. apply Forall_fmap, Forall_forall. intros i Hi.
      apply elem_of_seq in Hi. simpl. split; [done|lia].
  - destruct Hp as (-> & -> & ? & ?). injection Hst as <-. simpl.
    by eapply (group_inv_thread g).
  - destruct Hp as (-> & ? & Hr). destruct (Z.leb_spec my_gen (g_synced g)); [|done]. injection Hst as <-.
    eapply (group_inv_thread g); try done. simpl. eapply Forall_impl; [exact Hr|].
    simpl. intros ? [? ?]. split; [done|lia].
  - destruct Hp as (-> & ? & Hr). destruct (g_gate g); [done|].
    destruct (Z.ltb_spec (g_synced g) my_gen); [|done]. injection Hst as <-.
    eapply (group_inv_thread g); try done. simpl. split_and!; [done|lia|].
    eapply Forall_impl; [exact Hr|]. simpl. intros ? [? ?]. split; [done|lia].
  - destruct Hp as (-> & ? & Hr). injection Hst as <-.
    assert (count_at (sync_seg 0 g) 0 = g_written g) as E.
    { unfold sync_seg, count_at at 1. rewrite lookup_insert_eq. simpl. done. }
    eapply (group_inv_thread g); try done; simpl; rewrite ?E; try lia.
    eapply Forall_impl; [exact Hr|]. simpl. intros ? [? ?]. split; [done|lia].
Qed.

Lemma group_init_inv : group_inv group_init.
Proof. split; try done. Qed.

(** ** Properties *)

Section properties.
Context `{C : Crc32} {L : Crc32Laws C}.
Variable max_segment_bytes : Z.

(** [C36] Replaying a segment file that was cut anywhere (a torn write)
    yields, in order and unchanged, exactly the records that lie wholly
    before the cut -- all of them when nothing was cut -- and the counting
    pass of [Wal::open] counts exactly those. *)
Theorem wal_replay_torn_tail uuid seq k (items : list WalItem) :
  Forall item_ok items ->
  segment_records uuid seq (take k (encode_all items)) = record_of seq <$> take (complete k items) items
  /\ segment_records_count (cursor_at seq (take k (encode_all items))) = complete k items
  /\ (forall n, (n <= length items)%nat -> (length (encode_all (take n items)) <= k)%nat ->
        (n <= complete k items)%nat).
Proof using L.
  intros Hok.
  assert (segment_records uuid seq (take k (encode_all items))
          = record_of seq <$> take (complete k items) items) as E.
  { apply cursor_records_torn; [done|simpl; lia]. }
  split; [done|]. split.
  - unfold segment_records_count. rewrite (count_records_spec uuid).
    change (length (segment_records uuid seq (take k (encode_all items))) = complete k items). rewrite E, length_fmap, length_take.
    assert (complete k items <= length items)%nat; [|lia].
    clear. revert k. induction items as [|it items IH]; intros k; [done|]. cbn [complete].
    case_match; [specialize (IH (k - length (encode it))%nat); cbn [length]; lia|lia].
  - intros n Hn Hk. by apply complete_take.
Qed.

(** A batch of records whose names fit is appended: one position per
    record, each segment it touched extended by exactly its records in
    order, its pending count raised by them, and everything tracked durable
    when the call returns. *)
Theorem append_batch_durable items st :
  wal_clean st -> Forall fits items -> current_seq st + blen items <= U64_MAX ->
  exists st' ps, append_batch max_segment_bytes items st = (st', Ok ps)
    /\ length ps = length items
    /\ (forall k, pending st' k = pending st k + landed ps k)
    /\ (forall k, is_Some (segments st' !! k) ->
          content st' k = content st k ++ appended ps items k /\ durable st' k)
    /\ wal_clean st'.
Proof using L.
  intros Hcl Hf Hseq.
  destruct (append_batch_clean max_segment_bytes items st Hcl Hf Hseq)
    as (st' & ps & E & Hcl' & Hlen & _ & Hp & Hc).
  exists st', ps. split_and!; try done. intros k Hk. split; [by apply Hc|].
  destruct (decide (k = current_seq st')) as [->|Hne]; [apply Hcl'|]. destruct Hk as [s Hs].
  destruct (inv_durable _ _ (clean_inv _ Hcl') k s Hs Hne); [done|set_solver].
Qed.

(** Confirming positions lowers each segment's pending count by the
    positions it names (never below zero), and a segment with records still
    pending keeps its file and every byte of it. *)
Theorem confirm_keeps_pending ps st : wal_clean st ->
  wal_clean (confirm ps st)
  /\ (forall k, pending (confirm ps st) k = Z.max 0 (pending st k - landed ps k))
  /\ (forall k, 0 < pending (confirm ps st) k ->
        is_Some (d_files (disk (confirm ps st)) !! segment_path k)
        /\ content (confirm ps st) k = content st k /\ durable (confirm ps st) k).
Proof.
  intros Hcl. destruct (confirm_clean st ps Hcl) as [Hcl' Hc].
  split_and!; [done|intros k; by apply confirm_pending|]. intros k Hk%pending_tracked.
  split; [|split; [by apply Hc|]]; destruct Hk as [s Hs].
  - by eapply (inv_files _ _ (clean_inv _ Hcl')).
  - destruct (decide (k = current_seq (confirm ps st))) as [->|Hne]; [apply Hcl'|].
    destruct (inv_durable _ _ (clean_inv _ Hcl') k s Hs Hne); [done|set_solver].
Qed.


(** Whatever the directory holds, [Wal::open] succeeds when no name is
    doubled; the replay iterator then yields, segment after segment, every
    record the cursors validate and stops, and each old segment's
    outstanding count is the number of records it yields. *)
Theorem open_balances_replay uuid d : canonical d -> (forall k, k ∈ list_seqs d -> 0 <= k < U64_MAX) ->
  exists st r contents, open d = Ok (st, r)
    /\ Forall2 (file_holds d) ((fun s => (s, segment_path s)) <$> list_seqs d) contents
    /\ (forall n, (length (directory_records uuid ((fun s => (s, segment_path s)) <$> list_seqs d) contents) < n)%nat ->
          collect n uuid d r =
            Ok <$> directory_records uuid ((fun s => (s, segment_path s)) <$> list_seqs d) contents)
    /\ (forall k f, k ∈ list_seqs d -> d_files d !! segment_path k = Some f ->
          pending st k = blen (segment_records uuid k f)).
Proof.
  intros Hcan Hrange. destruct (open_total d Hcan) as (st & r & Eo). pose proof Eo as E. unfold open in E.
  destruct (count_segments d (list_seqs d) ∅) as [m|] eqn:Em; [|done].
  destruct (count_segments_spec _ _ _ _ Em) as (contents & HF & Hm).
  injection E as Est Er. exists st, r, contents. split_and!; try done.
  - intros n Hn. rewrite <- Er. by apply collect_directory.
  - intros k f Hk Hf. rewrite <- Est. unfold pending. cbn [segments].
    destruct (list_seqs_last d k Hk) as (mx & -> & Hle & Hmx).
    rewrite lookup_insert_ne.
    2:{ unfold wrap_u. pose proof (Hrange _ Hmx). rewrite Z.mod_small by (unfold U64_MAX in *; lia). lia. }
    rewrite Hm, decide_True, Hf by done. cbn [fmap option_fmap option_map outstanding].
    unfold segment_records_count. by rewrite (count_records_spec uuid).
Qed.
End properties.

(** While no batch rotates the segment, a thread is acknowledged only
    once all its records are durable, whatever the interleaving of writers,
    gate holders and skippers. *)
Theorem group_commit_durable g : group_reach no_rotation g -> acked_durable g.
Proof.
  intros H. assert (group_inv g) as I.
  { induction H as [|e g g' H IH Hok Hst]; [apply group_init_inv|]. by eapply group_step_inv. }
  intros t recs Ht%(gi_phase _ I). simpl in Ht. eapply Forall_impl; [exact Ht|].
  intros [k i] [? ?]. simpl in *. subst k. done.
Qed.

(** The race: thread 1 rotates and writes between thread 0's write and
    thread 0's snapshot of [written]; thread 0's fsync covers the old file
    only, but advances [synced] past thread 1's generation. *)
Definition race : list Event :=
  [EWrite 0 [false]; EWrite 1 [true]; ESyncOlds 0; EGate 0; EFsync 0; ESyncOlds 1; ESkip 1].

Fixpoint group_run (es : list Event) (g : Group) : option Group :=
  match es with
  | [] => Some g
  | e :: es => g' ← group_step e g; group_run es g'
  end.

Lemma group_run_reach ok es g g' : Forall ok es -> group_reach ok g -> group_run es g = Some g' ->
  group_reach ok g'.
Proof.
  intros Hes. revert g; induction Hes as [|e es He Hes IH]; intros g Hg; simpl; [by intros [= <-]|].
  destruct (group_step e g) as [g1|] eqn:E; [|done]. apply IH. by eapply reach_step.
Qed.

(** With rotation the guarantee fails: a thread can be acknowledged
    while its record has never been fsynced, because the group commit of
    another thread advanced [synced] over it through a descriptor of the
    rotated-out segment. *)
Theorem group_commit_rotation_race :
  exists g, group_reach (fun _ => True) g /\ ~ acked_durable g.
Proof.
  destruct (group_run race group_init) as [g|] eqn:E; [|by vm_compute in E].
  exists g. split; [eapply (group_run_reach _ race); [by apply Forall_true|apply reach_init|exact E]|].
  intros H. specialize (H 1%nat [(1, 0)]). vm_compute in E. injection E as <-.
  specialize (H eq_refl). apply Forall_cons in H as [H _]. vm_compute in H. discriminate.
Qed.

(** ** Concrete instances *)

(** CRC-32 (IEEE 802.3), as the crate computes it. *)
Definition crc_bit (c : Z) : Z :=
  if Z.testbit c 0 then Z.lxor (Z.shiftr c 1) 0xEDB88320 else Z.shiftr c 1.
Definition crc_byte (c : Z) (b : byte) : Z := Nat.iter 8 crc_bit (Z.lxor c (bz b)).
Definition crc_ieee (l : bytes) : Z := wrap_u 32 (Z.lxor (foldl crc_byte U32_MAX l) U32_MAX).

#[export] Instance crc32_ieee : Crc32 :=
  {| crc_state := bytes; crc_new := []; crc_update s l := s ++ l;
     crc_finalize := crc_ieee; crc_hash := crc_ieee |}.
#[export] Instance crc32_ieee_laws : Crc32Laws crc32_ieee.
Proof.
  split.
  - intros l. apply Z.mod_pos_bound. lia.
  - intros chunks. change (crc_ieee (foldl (fun s l => s ++ l) [] chunks) = crc_ieee (concat chunks)).
    f_equal. rewrite <- (app_nil_l (concat chunks)). generalize ([] : bytes).
    induction chunks as [|x xs IH]; intros s; simpl; [by rewrite app_nil_r|].
    by rewrite IH, app_assoc.
Qed.

Definition empty_disk : Disk := {| d_files := ∅; d_synced := ∅ |}.
Definition opened_empty : WalState :=
  match open empty_disk with Ok (st, _) => st | Err _ => set_segments ∅
    {| disk := empty_disk; writer := {| bw_name := []; bw_buf := [] |}; current_seq := 0;
       current_len := 0; segments := ∅; written := 0; synced := 0 |} end.

Lemma opened_empty_eq : opened_empty =
  {| disk := {| d_files := {[ segment_path 0 := [] ]}; d_synced := ∅ |};
     writer := {| bw_name := segment_path 0; bw_buf := [] |};
     current_seq := 0; current_len := 0;
     segments := {[ 0 := {| outstanding := 0; sealed := false |} ]};
     written := 0; synced := 0 |}.
Proof. reflexivity. Qed.

Lemma opened_empty_clean : wal_clean opened_empty.
Proof.
  rewrite opened_empty_eq. split; [split| | |]; cbn [disk writer current_seq segments written synced bw_buf d_files d_synced]; try done.
  - by eexists.
  - intros k s [<- <-]%lookup_singleton_Some. simpl. done.
  - intros k s [<- <-]%lookup_singleton_Some. by rewrite lookup_singleton_eq.
  - intros k Hk Hp. split; [|done]. apply lookup_singleton_ne. intros E.
    apply segment_path_inj in E; [lia|done|done].
  - intros k s [<- <-]%lookup_singleton_Some. done.
Qed.

Lemma opened_empty_records : holds_records opened_empty (fun _ => []).
Proof.
  rewrite opened_empty_eq. intros k Hk. split; [|constructor]. unfold content.
  cbn [disk writer current_seq bw_buf d_files].
  destruct (decide (k = 0)) as [->|Hne]; [by rewrite lookup_singleton_eq|].
  rewrite lookup_singleton_ne; [done|]. intros E. apply segment_path_inj in E; [congruence|done|done].
Qed.

Definition sample_item (n : Z) (tomb : bool) : WalItem :=
  {| wi_stream := str "app"; wi_id := str "id-" ++ dec n; wi_seq := 1000 + n;
     wi_tombstone := tomb; wi_doc := str "{}" |}.
Definition sample_items : list WalItem := [sample_item 0 false; sample_item 1 true; sample_item 2 false].

Lemma sample_items_ok : Forall item_ok sample_items.
Proof. repeat constructor; vm_compute; done. Qed.

Lemma sample_fits : Forall fits sample_items.
Proof. repeat constructor; vm_compute; done. Qed.

Lemma wal_replay_torn_tail_witness :
  segment_records [] 7 (take 70 (encode_all sample_items)) = record_of 7 <$> take 2 sample_items.
Proof.
  destruct (wal_replay_torn_tail [] 7 70 sample_items sample_items_ok) as [E _].
  exact E.
Defined.

Lemma append_batch_durable_witness :
  exists st' ps, append_batch 60 sample_items opened_empty = (st', Ok ps) /\ length ps = 3%nat
    /\ (forall k, pending st' k = pending opened_empty k + landed ps k).
Proof.
  destruct (append_batch_durable 60 sample_items opened_empty opened_empty_clean sample_fits)
    as (st' & ps & E & Hl & Hp & _); [by vm_compute|].
  exists st', ps. split; [exact E|]. split; [exact Hl|exact Hp].
Defined.

Lemma confirm_keeps_pending_witness :
  wal_clean (confirm [{| segment := 0 |}] opened_empty).
Proof. exact (proj1 (confirm_keeps_pending [{| segment := 0 |}] opened_empty opened_empty_clean)). Defined.


Definition sample_disk : Disk :=
  {| d_files := {[ segment_path 3 := encode_all sample_items ]}; d_synced := ∅ |}.

Lemma sample_disk_canonical : canonical sample_disk.
Proof.
  intros name k [f Hf]. unfold sample_disk in Hf. cbn [d_files] in Hf.
  apply lookup_singleton_Some in Hf as [<- _].
  rewrite segment_seq_path by done. congruence.
Qed.

Lemma open_balances_replay_witness :
  exists st r contents, open sample_disk = Ok (st, r)
    /\ Forall2 (file_holds sample_disk) ((fun s => (s, segment_path s)) <$> list_seqs sample_disk) contents.
Proof.
  destruct (open_balances_replay [] sample_disk sample_disk_canonical) as (st & r & cs & E & HF & _).
  - assert (list_seqs sample_disk = [3]) as -> by (vm_compute; reflexivity).
    intros k ->%list_elem_of_singleton. vm_compute; done.
  - exists st, r, cs. split; [exact E|exact HF].
Defined.

Definition calm : list Event :=
  [EWrite 0 [false]; EWrite 1 [false; false]; ESyncOlds 0; EGate 0; EFsync 0; ESyncOlds 1; ESkip 1].

Lemma group_commit_durable_witness :
  exists g, group_run calm group_init = Some g /\ g_threads g !! 1%nat = Some (Acked [(0, 1); (0, 2)])
    /\ acked_durable g.
Proof.
  eexists. split; [vm_compute; reflexivity|]. split; [vm_compute; reflexivity|].
  apply group_commit_durable. eapply (group_run_reach _ calm); [|apply reach_init|vm_compute; reflexivity].
  unfold calm, no_rotation. repeat (apply Forall_cons; split); try exact I; try apply Forall_nil_2; reflexivity.
Defined.
