(* ===== verification/Common.v ===== *)
(** * Shared primitives (crates/rsearch-common)

    Node roles, the [action.auto_create_index] setting and its globs, the
    effective write quorum, base64url and the password hash format; plus the
    stream-scope glob of the server's authorisation, which is specified by
    the same relation. *)

From Stdlib Require Import ZArith Lia.
From Stdlib Require Import Strings.Byte.
From stdpp Require Import base gmap sets list strings sorting.
From S2P Require Import Prelude.

Local Open Scope Z_scope.

(** ** Roles (role.rs) *)

Inductive Role := Ingest | Search | Control.
#[export] Instance role_eq_dec : EqDecision Role.
Proof. solve_decision. Defined.

Definition Role_ALL : list Role := [Ingest; Search; Control].

Definition role_display (r : Role) : bytes :=
  match r with Ingest => str "ingest" | Search => str "search" | Control => str "control" end.

Definition role_from_str (s : bytes) : result bytes Role :=
  let t := to_ascii_lowercase (trim s) in
  if decide (t = str "ingest") then Ok Ingest
  else if decide (t = str "search") then Ok Search
  else if decide (t = str "control") then Ok Control
  else Err (str "unknown role '" ++ t ++ str "' (expected ingest, search, or control)").

(** The loop of [parse_roles]: duplicates dropped, first error wins. *)
Fixpoint collect_roles (parts : list bytes) (roles : list Role) : result bytes (list Role) :=
  match parts with
  | [] => Ok roles
  | p :: parts =>
      match role_from_str p with
      | Err e => Err e
      | Ok r => collect_roles parts (if bool_decide (r ∈ roles) then roles else roles ++ [r])
      end
  end.

Definition parse_roles (s : bytes) : result bytes (list Role) :=
  if eq_ignore_ascii_case (trim s) (str "all") then Ok Role_ALL
  else
    match collect_roles (split_on x2c s) [] with
    | Err e => Err e
    | Ok [] => Err (str "at least one role is required")
    | Ok roles => Ok roles
    end.

(** [roles.join(",")] of the [Display] names. *)
Fixpoint join (sep : bytes) (ws : list bytes) : bytes :=
  match ws with
  | [] => []
  | [w] => w
  | w :: ws => w ++ sep ++ join sep ws
  end.

(** ** Configuration (config.rs) *)

Definition effective_write_quorum (write_quorum replication_factor : Z) : Z :=
  let quorum := if (write_quorum =? 0) then Z.min replication_factor 2 else write_quorum in
  Z.max (Z.min quorum replication_factor) 1.

(** The loop of [glob_matches] over the pieces after the first. *)
Fixpoint glob_pieces (parts : list bytes) (rest : bytes) (last : option bytes) :
    option (bytes * option bytes) :=
  match parts with
  | [] => Some (rest, last)
  | part :: parts =>
      match part with
      | [] => glob_pieces parts rest (Some part)
      | _ =>
          match find part rest with
          | Some at_ => glob_pieces parts (drop (at_ + length part) rest) (Some part)
          | None => None
          end
      end
  end.

Definition is_empty (l : bytes) : bool := match l with [] => true | _ => false end.

Definition glob_matches (pattern name : bytes) : bool :=
  match split_on x2a pattern with
  | [] => bool_decide (pattern = name)
  | first :: parts =>
      if negb (starts_with name first) then false
      else
        match glob_pieces parts (drop (length first) name) None with
        | None => false
        | Some (_, Some []) => true
        | Some (rest, Some part) => is_empty rest || ends_with name part
        | Some (rest, None) => is_empty rest
        end
  end.

Fixpoint first_match (patterns : list bytes) (index : bytes) : bool :=
  match patterns with
  | [] => false
  | p :: patterns =>
      let '(allow, p) :=
        match strip_prefix [x2d] p with
        | Some rest => (false, rest)
        | None => (true, default p (strip_prefix [x2b] p))
        end in
      if glob_matches p index then allow else first_match patterns index
  end.

Definition auto_create_allows (setting index : bytes) : bool :=
  let setting := trim setting in
  if bool_decide (setting = str "true" \/ setting = []) then true
  else if bool_decide (setting = str "false") then false
  else first_match (filter (fun p => p <> []) (trim <$> split_on x2c setting)) index.

(** ** Stream scope (crates/rsearch-server/src/auth.rs) *)

Fixpoint middle_pieces (parts : list bytes) (rest : bytes) : option bytes :=
  match parts with
  | [] => Some rest
  | piece :: parts =>
      match find piece rest with
      | Some at_ => middle_pieces parts (drop (at_ + length piece) rest)
      | None => None
      end
  end.

Definition stream_glob_matches (pattern stream : bytes) : bool :=
  if negb (contains pattern [x2a]) then bool_decide (pattern = stream)
  else
    let parts := split_on x2a pattern in
    let first := default [] (head parts) in
    let last := default [] (list.last parts) in
    if negb (starts_with stream first) then false
    else
      match middle_pieces (take (length parts - 2) (drop 1 parts)) (drop (length first) stream) with
      | None => false
      | Some rest => ends_with rest last && (length last <=? length rest)%nat
      end.

(** ** base64url (crypto.rs) *)

Definition B64_CHARS : bytes :=
  str "ABCDEFGHIJKLMNOPQRSTUVWXYZabcdefghijklmnopqrstuvwxyz0123456789-_".
Definition b64_char (i : Z) : byte := default x00 (B64_CHARS !! Z.to_nat (Z.land i 63)).

Definition b64_chunk (b0 b1 b2 : byte) : Z := bz b0 * 2 ^ 16 + bz b1 * 2 ^ 8 + bz b2.

Fixpoint b64 (data : bytes) : bytes :=
  match data with
  | [] => []
  | [b0] =>
      let n := b64_chunk b0 x00 x00 in
      [b64_char (Z.shiftr n 18); b64_char (Z.shiftr n 12)]
  | [b0; b1] =>
      let n := b64_chunk b0 b1 x00 in
      [b64_char (Z.shiftr n 18); b64_char (Z.shiftr n 12); b64_char (Z.shiftr n 6)]
  | b0 :: b1 :: b2 :: data =>
      let n := b64_chunk b0 b1 b2 in
      b64_char (Z.shiftr n 18) :: b64_char (Z.shiftr n 12) :: b64_char (Z.shiftr n 6) :: b64_char n
        :: b64 data
  end.

Definition position (c : byte) (l : bytes) : option Z :=
  (fun p => Z.of_nat (p.1 : nat)) <$> list_find (fun x => x = c) l.
Definition b64_value (c : byte) : option Z :=
  if decide (c = x2b) then Some 62
  else if decide (c = x2f) then Some 63
  else position c B64_CHARS.

Fixpoint unb64 (s : bytes) : option bytes :=
  match s with
  | [] => Some []
  | [_] => None
  | [c0; c1] =>
      v0 ← b64_value c0; v1 ← b64_value c1;
      let n := Z.lor (Z.shiftl v0 18) (Z.shiftl v1 12) in
      Some [b8 (Z.shiftr n 16)]
  | [c0; c1; c2] =>
      v0 ← b64_value c0; v1 ← b64_value c1; v2 ← b64_value c2;
      let n := Z.lor (Z.lor (Z.shiftl v0 18) (Z.shiftl v1 12)) (Z.shiftl v2 6) in
      Some [b8 (Z.shiftr n 16); b8 (Z.shiftr n 8)]
  | c0 :: c1 :: c2 :: c3 :: s =>
      v0 ← b64_value c0; v1 ← b64_value c1; v2 ← b64_value c2; v3 ← b64_value c3;
      let n := Z.lor (Z.lor (Z.lor (Z.shiftl v0 18) (Z.shiftl v1 12)) (Z.shiftl v2 6)) v3 in
      rest ← unb64 s;
      Some (b8 (Z.shiftr n 16) :: b8 (Z.shiftr n 8) :: b8 n :: rest)
  end.

Fixpoint drop_leading (c : byte) (l : bytes) : bytes :=
  match l with
  | b :: r => if Byte.eqb b c then drop_leading c r else l
  | [] => []
  end.
Definition trim_end_matches (c : byte) (l : bytes) : bytes := reverse (drop_leading c (reverse l)).
Definition b64_decode (s : bytes) : option bytes := unb64 (trim_end_matches x3d s).

(** ** Passwords (crypto.rs): PBKDF2 is the aws-lc-rs module's *)

Class Pbkdf2 := {
  pbkdf2_derive : Z -> bytes -> bytes -> bytes;  (** iterations, salt, password *)
  pbkdf2_verify : Z -> bytes -> bytes -> bytes -> bool;
}.
Class Pbkdf2Laws (P : Pbkdf2) : Prop := {
  pbkdf2_verify_derive iters salt password :
    pbkdf2_verify iters salt password (pbkdf2_derive iters salt password) = true;
}.

Section passwords.
Context `{Pbkdf2}.

Definition PBKDF2_ITERATIONS : Z := 600000.

(** [salt] is what the random generator filled in; its failure is the
    only error. *)
Definition hash_password (rng : option bytes) (password : bytes) : result bytes bytes :=
  match rng with
  | None => Err (str "rng failure")
  | Some salt =>
      let out := pbkdf2_derive PBKDF2_ITERATIONS salt password in
      Ok (str "pbkdf2-sha256$" ++ dec PBKDF2_ITERATIONS ++ str "$" ++ b64 salt ++ str "$" ++ b64 out)
  end.

Definition verify_password (password stored : bytes) : bool :=
  match split_on x24 stored with
  | alg :: iters :: salt :: hash :: _ =>
      if bool_decide (alg = str "pbkdf2-sha256") then
        match parse_u U32_MAX iters with
        | None => false
        | Some iters =>
            if (iters =? 0) then false
            else match unb64 salt, unb64 hash with
                 | Some salt, Some hash => pbkdf2_verify iters salt password hash
                 | _, _ => false
                 end
        end
      else false
  | _ => false
  end.
End passwords.

(** ** Globs: specification *)

(** [*] stands for any run of bytes, everything else for itself. *)
Inductive glob : bytes -> bytes -> Prop :=
| glob_nil : glob [] []
| glob_char c p s : c <> x2a -> glob p s -> glob (c :: p) (c :: s)
| glob_star p g s : glob p s -> glob (x2a :: p) (g ++ s).

(** What the pieces after a [*] require of the rest of the name. *)
Fixpoint after_star (ws : list bytes) (s : bytes) : Prop :=
  match ws with
  | [] => False
  | [w] => exists g, s = g ++ w
  | w :: ws => exists g r, s = g ++ w ++ r /\ after_star ws r
  end.

Definition pieces_match (ws : list bytes) (s : bytes) : Prop :=
  match ws with
  | [] => False
  | [w] => s = w
  | w :: ws => exists r, s = w ++ r /\ after_star ws r
  end.

Lemma split_on_nonnil c l : split_on c l <> [].
Proof. destruct l as [|b l]; simpl; [done|]. case_match; [done|]. by destruct (split_on c l). Qed.

Lemma after_star_grow ws g s : after_star ws s -> after_star ws (g ++ s).
Proof.
  destruct ws as [|w [|w' ws]]; [done| |]; simpl.
  - intros [g' ->]. exists (g ++ g'). by rewrite app_assoc.
  - intros (g' & r & -> & H). exists (g ++ g'), r. by rewrite app_assoc.
Qed.

Lemma after_star_pieces ws s : after_star ws s <-> exists g r, s = g ++ r /\ pieces_match ws r.
Proof.
  destruct ws as [|w [|w' ws]]; simpl.
  - split; [done|]. by intros (? & ? & _ & []).
  - split; [intros [g ->]; eauto|]. intros (g & r & -> & ->). eauto.
  - split.
    + intros (g & r & -> & H). exists g, (w ++ r). eauto.
    + intros (g & ? & -> & r & -> & H). eauto.
Qed.

Lemma glob_pieces_iff p s : glob p s <-> pieces_match (split_on x2a p) s.
Proof.
  revert s; induction p as [|c p IH]; intros s.
  - simpl. split; [inversion 1; done|intros ->; constructor].
  - cbn [split_on]. destruct (Byte.eqb c x2a) eqn:Ec.
    + apply Byte.byte_dec_bl in Ec as ->.
      pose proof (split_on_nonnil x2a p) as Hn. destruct (split_on x2a p) as [|w ws] eqn:Ew; [done|].
      transitivity (after_star (w :: ws) s).
      * rewrite after_star_pieces. setoid_rewrite <- IH. split.
        -- inversion 1; subst; [done|eauto].
        -- intros (g & r & -> & H). by constructor.
      * cbn [pieces_match]. split; [intros H; by exists s|]. by intros (r & -> & H).
    + assert (c <> x2a) as Hc by (intros ->; done).
      pose proof (split_on_nonnil x2a p) as Hn. destruct (split_on x2a p) as [|w ws] eqn:Ew; [done|].
      transitivity (exists s', s = c :: s' /\ glob p s').
      { split; [inversion 1; subst; [by eauto|done]|]. intros (s' & -> & H). by constructor. }
      setoid_rewrite IH. destruct ws as [|w' ws]; cbn [pieces_match].
      * split; [by intros (? & -> & ->)|intros ->; eauto].
      * split; [intros (? & -> & r & -> & H); by exists r|].
        intros (r & -> & H). exists (w ++ r). split; [done|by exists r].
Qed.

(** The leftmost occurrence of a piece loses no match of the others. *)
Lemma after_star_leftmost w w' ws s : after_star (w :: w' :: ws) s <->
  exists n, find w s = Some n /\ after_star (w' :: ws) (drop (n + length w) s).
Proof.
  split.
  - intros (g & r & -> & H). destruct (find_leftmost w g r) as (n & E & Hn). exists n. split; [done|].
    rewrite app_assoc, drop_app_le by (rewrite length_app; lia). by apply after_star_grow.
  - intros (n & E & H). apply find_Some in E as (r & E & Hn). exists (take n s), r. split; [done|].
    assert (drop (n + length w) s = r) as <-; [|done].
    rewrite E at 1. rewrite app_assoc. apply drop_app_length'.
    rewrite length_app, length_take. lia.
Qed.

Lemma middle_pieces_spec ws l s :
  (exists rest, middle_pieces ws s = Some rest /\ exists g, rest = g ++ l) <-> after_star (ws ++ [l]) s.
Proof.
  revert s; induction ws as [|w ws IH]; intros s.
  - simpl. split; [intros (? & [= ->] & H); done|eauto].
  - destruct (ws ++ [l]) as [|w' ws'] eqn:E; [by apply app_nil in E as [_ ?]|].
    cbn [app middle_pieces]. rewrite E, after_star_leftmost. setoid_rewrite <- IH.
    destruct (find w s) as [n|]; naive_solver.
Qed.

Lemma contains_star p : contains p [x2a] = true <-> exists w w' ws, split_on x2a p = w :: w' :: ws.
Proof.
  unfold contains. rewrite bool_decide_eq_true. induction p as [|c p IH].
  - split; [by intros [? ?]|by intros (?&?&?&?)].
  - cbn [find split_on]. destruct (Byte.eqb c x2a) eqn:Ec.
    + apply Byte.byte_dec_bl in Ec as ->. split; [|by eauto]. intros _.
      destruct (split_on x2a p) as [|w ws] eqn:E; [by apply split_on_nonnil in E|eauto].
    + assert (starts_with (c :: p) [x2a] = false) as ->.
      { unfold starts_with. cbn [strip_prefix].
        assert (Byte.eqb x2a c = false) as ->.
        { destruct (Byte.eqb x2a c) eqn:E; [|done]. apply Byte.byte_dec_bl in E as <-. done. }
        by apply bool_decide_false; intros [? ?]. }
      rewrite fmap_is_Some, IH. destruct (split_on x2a p) as [|w [|w' ws]] eqn:E.
      * by apply split_on_nonnil in E.
      * split; intros (?&?&?&?); done.
      * split; intros _; eauto.
Qed.

Lemma stream_glob_star first w ws s :
  (starts_with s first = true /\ exists rest,
     middle_pieces (take (length (first :: w :: ws) - 2) (w :: ws)) (drop (length first) s) = Some rest
     /\ ends_with rest (default [] (list.last (first :: w :: ws))) = true)
  <-> pieces_match (first :: w :: ws) s.
Proof.
  destruct (exists_last (l := w :: ws)) as (mid & l & E); [done|].
  rewrite E. assert (list.last (first :: mid ++ [l]) = Some l) as ->
    by (rewrite app_comm_cons; apply last_snoc).
  replace (take _ _) with mid.
  2:{ cbn [length]. rewrite length_app. cbn [length].
      replace (S (length mid + 1) - 2)%nat with (length mid) by lia. by rewrite take_app_length. }
  cbn [default]. setoid_rewrite ends_with_spec. rewrite starts_with_spec.
  assert (pieces_match (first :: mid ++ [l]) s <-> exists r, s = first ++ r /\ after_star (mid ++ [l]) r) as ->.
  { by destruct mid. }
  setoid_rewrite <- middle_pieces_spec. split.
  - intros [[r ->] H]. rewrite drop_app_length in H. eauto.
  - intros (r & -> & H). rewrite drop_app_length. eauto.
Qed.

Lemma after_star_cons_empty w ws s : after_star ([] :: w :: ws) s <-> after_star (w :: ws) s.
Proof.
  rewrite after_star_leftmost. split.
  - intros (n & E & H). apply find_Some in E as (r & E & _). rewrite Nat.add_0_r in H.
    rewrite <- (take_drop n s). by apply after_star_grow.
  - intros H. exists O. split; [|by rewrite drop_0]. by destruct s.
Qed.

(** The loop of [glob_matches] and its final test, against the rest [s] of a
    name [pre ++ s]. *)
Lemma glob_loop pre ws l0 s : (l0 = None -> ws <> []) ->
  match glob_pieces ws s l0 with
  | None => false
  | Some (_, Some []) => true
  | Some (rest, Some part) => is_empty rest || ends_with (pre ++ s) part
  | Some (rest, None) => is_empty rest
  end = true <->
  match ws with
  | [] => match l0 with Some [] => True | Some p => s = [] \/ exists g, pre ++ s = g ++ p | None => False end
  | _ => after_star ws s
  end.
Proof.
  revert pre l0 s; induction ws as [|w ws IH]; intros pre l0 s Hl.
  - simpl. destruct l0 as [[|b p]|]; [done| |by destruct Hl].
    rewrite orb_true_iff, ends_with_spec. destruct s; simpl; naive_solver.
  - cbn [glob_pieces]. destruct w as [|b w].
    + rewrite (IH pre (Some []) s) by done. destruct ws as [|w' ws]; [simpl; split; [|done]|].
      * intros _. exists s. by rewrite app_nil_r.
      * by rewrite after_star_cons_empty.
    + set (p := b :: w) in *. destruct (find p s) as [n|] eqn:E.
      * pose proof E as (r & Er & Hn)%find_Some.
        assert (drop (n + length p) s = r) as Hd.
        { rewrite Er at 1. rewrite app_assoc. apply drop_app_length'. rewrite length_app, length_take. lia. }
        rewrite Hd. specialize (IH (pre ++ take n s ++ p) (Some p) r).
        rewrite <- !app_assoc in IH. rewrite <- Er in IH. rewrite IH by done.
        destruct ws as [|w' ws].
        -- fold p. cbn [after_star]. unfold p at 1. split.
           ++ intros [->|[g Hg]]; [exists (take n s); by rewrite Er, app_nil_r at 1|].
              assert (length p <= length s)%nat by (rewrite Er, !length_app; lia).
              assert (length pre <= length g)%nat.
              { apply (f_equal length) in Hg. rewrite !length_app in Hg. lia. }
              exists (drop (length pre) g). apply (f_equal (drop (length pre))) in Hg.
              by rewrite drop_app_length, drop_app_le in Hg.
           ++ intros [g Hg]. right. exists (pre ++ g). by rewrite Hg, app_assoc.
        -- rewrite after_star_leftmost. rewrite <- Hd. naive_solver.
      * split; [done|]. intros H. exfalso. destruct ws as [|w' ws].
        -- destruct H as [g ->]. destruct (find_leftmost p g []) as (n & E' & _).
           rewrite app_nil_r in E'. congruence.
        -- apply after_star_leftmost in H as (n & E' & _). congruence.
Qed.

(** ** base64url: decoding undoes encoding *)

Lemma lor_disjoint x y k : 0 <= k -> 0 <= y < 2 ^ k -> Z.lor (x * 2 ^ k) y = x * 2 ^ k + y.
Proof.
  intros Hk Hy. rewrite <- Z.shiftl_mul_pow2 by done.
  assert (Z.land (Z.shiftl x k) y = 0) as Hl.
  { apply Z.bits_inj'. intros n Hn. rewrite Z.land_spec, Z.bits_0.
    destruct (Z.lt_ge_cases n k); [by rewrite Z.shiftl_spec_low|].
    destruct (Z.eq_dec y 0) as [->|]; [by rewrite Z.bits_0, andb_false_r|].
    rewrite (Z.bits_above_log2 y n), andb_false_r; [done|lia|]. apply Z.log2_lt_pow2; [lia|].
    assert (2 ^ k <= 2 ^ n) by (apply Z.pow_le_mono_r; lia). lia. }
  rewrite (Z.add_nocarry_lxor _ _ Hl). by rewrite Z.lxor_lor.
Qed.

Lemma b64_value_char i : 0 <= i < 64 -> b64_value (b64_char i) = Some i.
Proof.
  intros Hi. unfold b64_char. change 63 with (Z.ones 6).
  rewrite Z.land_ones, Z.mod_small by lia.
  assert (forallb (fun n => bool_decide (b64_value (default x00 (B64_CHARS !! n)) = Some (Z.of_nat n)))
            (seq 0 64) = true) as Hall by (vm_compute; reflexivity).
  rewrite forallb_forall in Hall. specialize (Hall (Z.to_nat i)).
  rewrite bool_decide_eq_true in Hall. rewrite Hall; [f_equal; lia|].
  apply in_seq. lia.
Qed.

Lemma b64_char_mod z : b64_char z = b64_char (z mod 64).
Proof.
  unfold b64_char. change 63 with (Z.ones 6). rewrite !Z.land_ones by lia.
  by rewrite Z.mod_mod by lia.
Qed.

Lemma b64_value_digit z : b64_value (b64_char z) = Some (z mod 64).
Proof. rewrite b64_char_mod. apply b64_value_char, Z.mod_pos_bound. lia. Qed.

(** The accumulator of [unb64] puts the sextets back in place. *)
Lemma sextets n : 0 <= n < 2 ^ 24 ->
  let v s := Z.shiftl (Z.shiftr n s mod 64) s in
  Z.lor (v 18) (v 12) = n / 2 ^ 12 * 2 ^ 12 /\
  Z.lor (Z.lor (v 18) (v 12)) (v 6) = n / 2 ^ 6 * 2 ^ 6 /\
  Z.lor (Z.lor (Z.lor (v 18) (v 12)) (v 6)) (n mod 64) = n.
Proof.
  intros Hn v. unfold v. rewrite !Z.shiftl_mul_pow2, !Z.shiftr_div_pow2 by lia.
  assert (Z.lor (n / 2 ^ 18 mod 64 * 2 ^ 18) (n / 2 ^ 12 mod 64 * 2 ^ 12) = n / 2 ^ 12 * 2 ^ 12) as E1.
  { rewrite lor_disjoint by (Z.to_euclidean_division_equations; lia).
    Z.to_euclidean_division_equations; lia. }
  assert (Z.lor (n / 2 ^ 12 * 2 ^ 12) (n / 2 ^ 6 mod 64 * 2 ^ 6) = n / 2 ^ 6 * 2 ^ 6) as E2.
  { rewrite lor_disjoint by (Z.to_euclidean_division_equations; lia).
    Z.to_euclidean_division_equations; lia. }
  rewrite E1, E2. split_and!; [done..|].
  rewrite lor_disjoint by (Z.to_euclidean_division_equations; lia).
  Z.to_euclidean_division_equations; lia.
Qed.

Lemma b64_chunk_range b0 b1 b2 : 0 <= b64_chunk b0 b1 b2 < 2 ^ 24.
Proof. unfold b64_chunk. pose proof (bz_range b0). pose proof (bz_range b1). pose proof (bz_range b2). lia. Qed.

Lemma b8_eq z b : z mod 256 = bz b -> b8 z = b.
Proof. intros H. rewrite <- (b8_bz b), <- H. unfold b8. by rewrite Z.mod_mod by lia. Qed.

Lemma chunk_bytes b0 b1 b2 m : let n := b64_chunk b0 b1 b2 in
  (m = n \/ m = n / 2 ^ 6 * 2 ^ 6 \/ m = n / 2 ^ 12 * 2 ^ 12 -> b8 (Z.shiftr m 16) = b0) /\
  (m = n \/ m = n / 2 ^ 6 * 2 ^ 6 -> b8 (Z.shiftr m 8) = b1) /\
  (m = n -> b8 m = b2).
Proof.
  intros n. unfold n, b64_chunk.
  pose proof (bz_range b0). pose proof (bz_range b1). pose proof (bz_range b2).
  rewrite !Z.shiftr_div_pow2 by lia.
  split_and!; intros Hm; apply b8_eq; repeat destruct Hm as [-> |Hm]; try subst m;
    Z.to_euclidean_division_equations; lia.
Qed.

Lemma list3_ind (P : bytes -> Prop) : P [] -> (forall a, P [a]) -> (forall a b, P [a; b]) ->
  (forall a b c l, P l -> P (a :: b :: c :: l)) -> forall l, P l.
Proof.
  intros H0 H1 H2 H3. fix IH 1. intros [|a [|b [|c l]]]; [done|apply H1|apply H2|]. apply H3, IH.
Qed.

Lemma unb64_b64 l : unb64 (b64 l) = Some l.
Proof.
  induction l as [|a|a b|a b c l IH] using list3_ind; [done| | |]; cbn [b64].
  - destruct (sextets _ (b64_chunk_range a x00 x00)) as (E1 & _). cbv zeta in E1.
    cbn [unb64]. rewrite !b64_value_digit. cbn [mbind option_bind]. rewrite E1.
    do 2 f_equal. apply (chunk_bytes a x00 x00). auto.
  - destruct (sextets _ (b64_chunk_range a b x00)) as (_ & E2 & _). cbv zeta in E2.
    cbn [unb64]. rewrite !b64_value_digit. cbn [mbind option_bind]. rewrite E2.
    pose proof (chunk_bytes a b x00) as Hb. cbv zeta in Hb. repeat f_equal; apply Hb; auto.
  - destruct (sextets _ (b64_chunk_range a b c)) as (_ & _ & E3). cbv zeta in E3.
    cbn [unb64]. rewrite !b64_value_digit. cbn [mbind option_bind]. rewrite E3, IH.
    cbn [mbind option_bind].
    pose proof (chunk_bytes a b c) as Hb. cbv zeta in Hb. repeat f_equal; apply Hb; auto.
Qed.

(** ** Splitting undoes joining *)

Lemma split_on_app_free c w r : c ∉ w -> split_on c (w ++ c :: r) = w :: split_on c r.
Proof.
  induction w as [|b w IH]; simpl; intros Hw.
  - by rewrite (Byte.byte_dec_lb (eq_refl c)).
  - destruct (Byte.eqb b c) eqn:E; [apply Byte.byte_dec_bl in E as ->; set_solver|].
    rewrite IH by set_solver. done.
Qed.

Lemma split_on_free c w : c ∉ w -> split_on c w = [w].
Proof.
  induction w as [|b w IH]; simpl; intros Hw; [done|].
  destruct (Byte.eqb b c) eqn:E; [apply Byte.byte_dec_bl in E as ->; set_solver|].
  by rewrite IH by set_solver.
Qed.

Lemma split_on_join c ws : ws <> [] -> Forall (fun w => c ∉ w) ws -> split_on c (join [c] ws) = ws.
Proof.
  intros Hn Hf. induction Hf as [|w ws Hw Hf IH]; [done|]. destruct ws as [|w' ws].
  - by apply split_on_free.
  - change (join [c] (w :: w' :: ws)) with (w ++ c :: join [c] (w' :: ws)).
    rewrite split_on_app_free by done. by rewrite IH.
Qed.

Lemma collect_roles_sound parts acc rs : NoDup acc -> collect_roles parts acc = Ok rs ->
  NoDup rs /\ (parts <> [] -> rs <> []) /\ (acc <> [] -> rs <> []).
Proof.
  revert acc; induction parts as [|p parts IH]; intros acc Ha; simpl.
  - by intros [= <-].
  - destruct (role_from_str p) as [r|]; [|done]. case_bool_decide as Hr; intros H.
    + destruct (IH _ Ha H) as (? & _ & H2). split_and!; [done| |done]. intros _. apply H2. intros ->. set_solver.
    + destruct (IH (acc ++ [r])) as (? & _ & H2); [|done|].
      { apply NoDup_app. split_and!; [done|set_solver|by apply NoDup_singleton]. }
      split_and!; [done| |]; intros _; apply H2; intros E; by apply app_nil in E as [_ ?].
Qed.

Lemma role_from_str_display r : role_from_str (role_display r) = Ok r.
Proof. by destruct r. Qed.

Lemma collect_roles_display rs acc : NoDup (acc ++ rs) ->
  collect_roles (role_display <$> rs) acc = Ok (acc ++ rs).
Proof.
  revert acc; induction rs as [|r rs IH]; intros acc H; simpl; [by rewrite app_nil_r|].
  rewrite role_from_str_display. apply NoDup_app in H as H'. destruct H' as (_ & H' & _).
  rewrite bool_decide_false by set_solver. rewrite IH; [by rewrite <- app_assoc|].
  by rewrite <- app_assoc.
Qed.

(** ** The claims *)

(** The role list a node is started with: whatever [parse_roles] accepts
    is a non-empty list without duplicates, and every such list is read back
    from its comma-separated display form. *)
Theorem parse_roles_roundtrip :
  (forall s rs, parse_roles s = Ok rs -> rs <> [] /\ NoDup rs) /\
  (forall rs, rs <> [] -> NoDup rs -> parse_roles (join [x2c] (role_display <$> rs)) = Ok rs).
Proof.
  split.
  - intros s rs. unfold parse_roles. case_match.
    + intros [= <-]. split; [done|]. apply (bool_decide_unpack (NoDup Role_ALL)). by vm_compute.
    + destruct (collect_roles _ _) as [l|] eqn:E; [|done]. destruct l as [|r l]; [done|].
      intros [= <-]. apply collect_roles_sound in E as (? & _); [done|constructor].
  - intros rs Hn Hd. unfold parse_roles.
    assert (eq_ignore_ascii_case (trim (join [x2c] (role_display <$> rs))) (str "all") = false) as ->.
    { destruct rs as [|a [|b [|c [|d rs]]]]; [done| | | |].
      - by destruct a. - by destruct a, b. - by destruct a, b, c.
      - exfalso. assert (length (a :: b :: c :: d :: rs) <= length Role_ALL)%nat as H; [|simpl in H; lia].
        apply submseteq_length, NoDup_submseteq; [done|]. intros [] _; set_solver. }
    rewrite split_on_join.
    + rewrite collect_roles_display by done. by destruct rs.
    + by destruct rs.
    + apply Forall_fmap, Forall_true. intros []; by apply (bool_decide_unpack (_ ∉ _)).
Qed.

(** [action.auto_create_index] patterns: [glob_matches], which searches
    every piece leftmost and only then compares the last one with the end of
    the whole name, accepts exactly the names the glob denotes ([*] any run,
    every other byte itself). *)
Theorem glob_matches_spec pattern name : glob_matches pattern name = true <-> glob pattern name.
Proof.
  rewrite glob_pieces_iff. unfold glob_matches.
  pose proof (split_on_nonnil x2a pattern) as Hn.
  destruct (split_on x2a pattern) as [|first parts] eqn:E; [done|]. clear Hn.
  destruct (starts_with name first) eqn:Es; cbn [negb].
  - apply starts_with_spec in Es as [r ->]. rewrite drop_app_length.
    destruct parts as [|w ws].
    + simpl. split; [destruct r; [by rewrite app_nil_r|done]|].
      intros H. destruct r; [done|]. apply (f_equal length) in H. rewrite length_app in H. simpl in H. lia.
    + rewrite (glob_loop first (w :: ws) None r) by done. cbn [pieces_match]. split; [by eauto|].
      by intros (r' & ->%app_inv_head & H).
  - split; [done|]. intros H. exfalso.
    assert (starts_with name first = true); [|congruence]. apply starts_with_spec.
    destruct parts; simpl in H; [subst; exists []; by rewrite app_nil_r|]. destruct H as (r & -> & _); eauto.
Qed.

(** Stream scopes of API keys and users: [stream_glob_matches] is the
    same relation, so a scope entry grants exactly the streams its glob
    denotes. *)
Theorem stream_glob_matches_spec pattern stream :
  stream_glob_matches pattern stream = true <-> glob pattern stream.
Proof.
  rewrite glob_pieces_iff. unfold stream_glob_matches.
  destruct (contains pattern [x2a]) eqn:Ec; cbn [negb].
  - apply contains_star in Ec as (first & w & ws & E). rewrite E, <- stream_glob_star.
    cbn [head default drop]. change (id first) with first.
    destruct (starts_with stream first); cbn [negb]; [|by split; [|intros [? _]]].
    destruct (middle_pieces _ _) as [rest|]; [|by split; [|intros (_ & ? & ? & _)]].
    rewrite andb_true_iff, Nat.leb_le. split.
    + intros [H _]. split; [done|eauto].
    + intros (_ & rest' & [= <-] & H). split; [done|].
      apply ends_with_spec in H as [g ->]. rewrite length_app. lia.
  - rewrite bool_decide_eq_true. destruct (split_on x2a pattern) as [|first parts] eqn:E.
    + by apply split_on_nonnil in E.
    + destruct parts as [|w ws].
      * assert (first = pattern) as <-; [|simpl; naive_solver].
        clear Ec. revert first E; induction pattern as [|b p IH]; intros first E; simpl in E; [congruence|].
        destruct (Byte.eqb b x2a); [by destruct (split_on x2a p) eqn:E2; [apply split_on_nonnil in E2|]|].
        destruct (split_on x2a p) as [|? []] eqn:E2; [by apply split_on_nonnil in E2| |done].
        injection E as <-. f_equal. by apply IH.
      * exfalso. assert (contains pattern [x2a] = true); [|congruence]. apply contains_star; eauto.
Qed.

(** What a pattern list decides: the sign of the first pattern that matches. *)
Definition pattern_sign (p : bytes) : bool * bytes :=
  match strip_prefix [x2d] p with
  | Some rest => (false, rest)
  | None => (true, default p (strip_prefix [x2b] p))
  end.

Lemma first_match_cons q ps index : first_match (q :: ps) index =
  let '(allow, g) := pattern_sign q in if glob_matches g index then allow else first_match ps index.
Proof. reflexivity. Qed.

(** First match wins: the answer is the sign of the earliest pattern that
    matches; no later pattern is consulted. *)
Lemma first_match_spec patterns index : first_match patterns index = true <->
  exists before p after, patterns = before ++ p :: after /\
    Forall (fun q => ~ glob (pattern_sign q).2 index) before /\
    glob (pattern_sign p).2 index /\ (pattern_sign p).1 = true.
Proof.
  induction patterns as [|q patterns IH].
  - split; [done|]. by intros ([|] & ? & ? & ? & _).
  - rewrite first_match_cons. destruct (pattern_sign q) as [allow g] eqn:Eq.
    destruct (glob_matches g index) eqn:Eg.
    + apply glob_matches_spec in Eg. split.
      * intros ->. exists [], q, patterns. by rewrite Eq.
      * intros ([|q' before] & p & after & E & Hb & Hg & Hs); injection E as <- ->.
        -- by rewrite Eq in Hs.
        -- apply Forall_cons in Hb as [Hq _]. by rewrite Eq in Hq.
    + assert (~ glob g index) as Hg by (rewrite <- glob_matches_spec; congruence).
      rewrite IH. split.
      * intros (before & p & after & -> & Hb & H). exists (q :: before), p, after.
        split_and!; [done| |naive_solver..]. constructor; [by rewrite Eq|done].
      * intros ([|q' before] & p & after & E & Hb & H); injection E as <- ->.
        -- rewrite Eq in H. naive_solver.
        -- apply Forall_cons in Hb as [_ Hb]. by exists before, p, after.
Qed.

(** [action.auto_create_index]: [true] or nothing creates every index,
    [false] none; a pattern list decides by the sign of its earliest non-empty
    pattern whose glob ([*] any run of bytes, every other byte itself) denotes
    the index name, and refuses an index no pattern denotes. The glob matcher
    searches pieces leftmost and compares only the last one with the end of the
    whole name; it still accepts exactly the names the glob denotes. *)
Theorem auto_create_spec setting index :
  let s := trim setting in
  let patterns := filter (fun p => p <> []) (trim <$> split_on x2c s) in
  auto_create_allows setting index = true <->
  s = str "true" \/ s = [] \/
  (s <> str "false" /\ exists before p after, patterns = before ++ p :: after /\
     Forall (fun q => ~ glob (pattern_sign q).2 index) before /\
     glob (pattern_sign p).2 index /\ (pattern_sign p).1 = true).
Proof.
  cbv zeta. rewrite <- first_match_spec. unfold auto_create_allows. set (s := trim setting).
  case_bool_decide as H1; [by naive_solver|]. case_bool_decide as H2; [|by naive_solver].
  split; [done|]. naive_solver.
Qed.

(** The write quorum of the replicated store lies between one copy and
    the replication factor (one copy where the factor is 0), is the
    configured value where that is in range, and is at most two when left on
    auto. *)
Theorem write_quorum_bounds wq rf : is_u 64 wq -> is_u 64 rf ->
  let q := effective_write_quorum wq rf in
  1 <= q <= Z.max 1 rf /\ (1 <= wq <= rf -> q = wq) /\ (wq = 0 -> q <= 2).
Proof. unfold is_u, effective_write_quorum. intros Hw Hr. cbv zeta. split_test; lia. Qed.

Lemma write_quorum_bounds_witness :
  let q := effective_write_quorum 0 3 in 1 <= q <= 3 /\ q <= 2.
Proof. destruct (write_quorum_bounds 0 3) as (H1 & H2 & H3); [by unfold is_u..|]. split; [exact H1|by apply H3]. Defined.

(** The encoding uses the alphabet only. *)
Lemma b64_alphabet c l : c ∉ x00 :: B64_CHARS -> Forall (fun b => b <> c) (b64 l).
Proof.
  intros Hc. assert (forall i, b64_char i <> c) as H.
  { intros i E. apply Hc. unfold b64_char in E. destruct (B64_CHARS !! _) as [b|] eqn:El.
    - apply list_elem_of_lookup_2 in El. simpl in E. subst. by right.
    - simpl in E. subst. left. }
  induction l as [|a|a b|a b d l IH] using list3_ind; cbn [b64]; repeat constructor; try apply H. done.
Qed.

(** base64url without padding is lossless: every byte string decodes back
    from its encoding, also through [b64_decode], which strips padding. *)
Theorem b64_roundtrip data : unb64 (b64 data) = Some data /\ b64_decode (b64 data) = Some data.
Proof.
  split; [apply unb64_b64|]. unfold b64_decode, trim_end_matches.
  pose proof (b64_alphabet x3d data) as Hf. specialize (Hf ltac:(by apply (bool_decide_unpack (_ ∉ _)))).
  assert (drop_leading x3d (reverse (b64 data)) = reverse (b64 data)) as ->.
  { apply Forall_reverse in Hf. destruct Hf as [|c l Hc _]; [done|]. simpl.
    destruct (Byte.eqb c x3d) eqn:E; [by apply Byte.byte_dec_bl in E|done]. }
  rewrite reverse_involutive. apply unb64_b64.
Qed.

Lemma b64_no_dollar l : x24 ∉ b64 l.
Proof.
  intros Hin. pose proof (b64_alphabet x24 l) as Hf.
  specialize (Hf ltac:(by apply (bool_decide_unpack (_ ∉ _)))).
  by apply (proj1 (Forall_forall _ _) Hf) in Hin.
Qed.

(** A stored password hash verifies the password it was made from,
    whatever the salt: the format written by [hash_password] is parsed back
    field by field by [verify_password]. *)
Theorem password_roundtrip `{PL : Pbkdf2Laws} rng password stored :
  hash_password rng password = Ok stored -> verify_password password stored = true.
Proof.
  unfold hash_password. destruct rng as [salt|]; [|done]. intros [= <-].
  set (h := pbkdf2_derive _ _ _) in *.
  assert (split_on x24 (str "pbkdf2-sha256$" ++ dec PBKDF2_ITERATIONS ++ str "$" ++ b64 salt ++ str "$" ++ b64 h)
          = [str "pbkdf2-sha256"; str "600000"; b64 salt; b64 h]) as E.
  { change (dec PBKDF2_ITERATIONS) with (str "600000").
    pose proof (split_on_join x24 [str "pbkdf2-sha256"; str "600000"; b64 salt; b64 h]) as E.
    apply E; [done|]. repeat apply Forall_cons_2; try apply Forall_nil_2; try apply b64_no_dollar;
      by apply (bool_decide_unpack (_ ∉ _)). }
  unfold verify_password.
  match goal with |- context [split_on x24 ?s] => replace (split_on x24 s) with [str "pbkdf2-sha256"; str "600000"; b64 salt; b64 h] end.
  rewrite bool_decide_true by done. change (parse_u U32_MAX (str "600000")) with (Some PBKDF2_ITERATIONS).
  cbn [mbind]. rewrite !unb64_b64. apply pbkdf2_verify_derive.
Qed.

(** A concrete key-derivation function satisfying the laws. *)
Definition toy_pbkdf2 : Pbkdf2 := {|
  pbkdf2_derive := fun _ salt password => salt ++ password;
  pbkdf2_verify := fun _ salt password hash => bool_decide (hash = salt ++ password);
|}.
Lemma toy_pbkdf2_laws : Pbkdf2Laws toy_pbkdf2.
Proof. constructor. intros. by apply bool_decide_true. Qed.

Lemma password_roundtrip_witness :
  exists stored, hash_password (H := toy_pbkdf2) (Some (str "0123456789abcdef")) (str "s3cret") = Ok stored
    /\ verify_password (H := toy_pbkdf2) (str "s3cret") stored = true.
Proof.
  eexists. split; [reflexivity|].
  exact (@password_roundtrip toy_pbkdf2 toy_pbkdf2_laws (Some (str "0123456789abcdef")) (str "s3cret") _ eq_refl).
Defined.
