(* ===== verification/Auth.v ===== *)
(** * Authentication and authorisation (crates/rsearch-server/src/auth.rs,
    auth_api.rs; crates/rsearch-metastore/src/auth.rs)

    [AuthDb]: the users, sessions and API-key tables and the statements run on
    them. [AuthBackend]: the three lookups authentication needs of the
    metastore, as an interface the middleware is written against; the tables
    implement it. Then the per-node caches, [classify], [authenticate],
    [require], the refresher and the handlers that change users and keys. Times
    are milliseconds of one clock. *)

From Stdlib Require Import ZArith Lia.
From Stdlib Require Import Strings.Byte.
From stdpp Require Import base gmap sets list strings sorting.
From S2P Require Import Prelude Common.

Local Open Scope Z_scope.

(** ** Tables (metastore/src/auth.rs) *)

Record UserRecord := mkUser {
  user_id : Z; username : bytes; password_hash : bytes; role : bytes; user_streams : list bytes;
}.
Record ApiKeyRecord := mkKey {
  key_id : Z; key_name : bytes; key_hash : bytes; key_actions : list bytes; key_streams : list bytes;
  last_used_at : option Z;
}.
Record AuthDb := mkDb {
  users : gmap Z UserRecord;            (** by primary key *)
  sessions : gmap bytes (Z * Z);        (** token hash -> (user_id, expires_at) *)
  api_keys : gmap Z ApiKeyRecord;
  next_user : Z; next_key : Z;          (** the identity sequences *)
}.
Definition empty_db : AuthDb := mkDb ∅ ∅ ∅ 1 1.

Definition count_users (d : AuthDb) : Z := Z.of_nat (size (users d)).

Definition find_user (d : AuthDb) (name : bytes) : option UserRecord :=
  snd <$> head (filter (fun p : Z * UserRecord => username p.2 = name) (map_to_list (users d))).
Definition get_user (d : AuthDb) (name : bytes) : option UserRecord := find_user d name.

(** [INSERT ... ON CONFLICT (username) DO UPDATE]; the CHECK on the role makes
    any other value an error. The sequence advances on a conflict too. *)
Definition upsert_user (d : AuthDb) (name hash role : bytes) (streams : list bytes) :
    result unit (AuthDb * UserRecord) :=
  if bool_decide (role = str "admin" \/ role = str "user") then
    let u := match find_user d name with
             | Some u => mkUser (user_id u) (username u) hash role streams
             | None => mkUser (next_user d) name hash role streams
             end in
    Ok (mkDb (<[user_id u := u]> (users d)) (sessions d) (api_keys d) (next_user d + 1) (next_key d), u)
  else Err tt.

(** [DELETE FROM users]: the sessions of the user go with it (ON DELETE
    CASCADE). *)
Definition delete_user_row (d : AuthDb) (name : bytes) : AuthDb * bool :=
  match find_user d name with
  | None => (d, false)
  | Some u =>
      (mkDb (delete (user_id u) (users d)) (filter (fun p => p.2.1 <> user_id u) (sessions d))
         (api_keys d) (next_user d) (next_key d), true)
  end.

(** The insert fails on a used token hash or an unknown user; expired
    sessions are swept afterwards. *)
Definition create_session (d : AuthDb) (now : Z) (token_hash : bytes) (uid ttl : Z) : result unit AuthDb :=
  match sessions d !! token_hash, users d !! uid with
  | None, Some _ =>
      Ok (mkDb (users d) (filter (fun p => ~ p.2.2 < now) (<[token_hash := (uid, now + ttl)]> (sessions d)))
            (api_keys d) (next_user d) (next_key d))
  | _, _ => Err tt
  end.

Definition session_user_row (d : AuthDb) (now : Z) (token_hash : bytes) : option UserRecord :=
  '(uid, expires) ← sessions d !! token_hash;
  if (now <? expires) then users d !! uid else None.

Definition find_key (d : AuthDb) (P : ApiKeyRecord -> bool) : option ApiKeyRecord :=
  snd <$> head (filter (fun p : Z * ApiKeyRecord => P p.2) (map_to_list (api_keys d))).

Definition create_api_key_row (d : AuthDb) (name hash : bytes) (actions streams : list bytes) :
    result unit (AuthDb * ApiKeyRecord) :=
  let k := match find_key d (fun k => bool_decide (key_name k = name)) with
           | Some k => mkKey (key_id k) name hash actions streams (last_used_at k)
           | None => mkKey (next_key d) name hash actions streams None
           end in
  match find_key d (fun k' => bool_decide (key_hash k' = hash /\ key_id k' <> key_id k)) with
  | Some _ => Err tt (* key_hash is UNIQUE *)
  | None =>
      Ok (mkDb (users d) (sessions d) (<[key_id k := k]> (api_keys d)) (next_user d) (next_key d + 1), k)
  end.

(** The throttled stamp, then the plain lookup. *)
Definition api_key_by_hash_row (d : AuthDb) (now : Z) (hash : bytes) : AuthDb * option ApiKeyRecord :=
  match find_key d (fun k => bool_decide (key_hash k = hash)) with
  | None => (d, None)
  | Some k =>
      if match last_used_at k with None => true | Some t => (t <? now - 60000) end then
        let k' := mkKey (key_id k) (key_name k) (key_hash k) (key_actions k) (key_streams k) (Some now) in
        (mkDb (users d) (sessions d) (<[key_id k := k']> (api_keys d)) (next_user d) (next_key d), Some k')
      else (d, Some k)
  end.

Definition delete_api_key_row (d : AuthDb) (name : bytes) : AuthDb * bool :=
  match find_key d (fun k => bool_decide (key_name k = name)) with
  | None => (d, false)
  | Some k =>
      (mkDb (users d) (sessions d) (delete (key_id k) (api_keys d)) (next_user d) (next_key d), true)
  end.

(** ** The interface the middleware uses *)

(** One request's view of the metastore: each lookup may fail. *)
Class AuthBackend := {
  session_user : bytes -> result unit (option UserRecord);
  api_key_by_hash : bytes -> result unit (option ApiKeyRecord);
  get_user_by_name : bytes -> result unit (option UserRecord);
}.

Inductive query := QSession | QApiKey | QUser.
(** The tables as a backend; [down] says which queries fail. *)
Definition db_backend (d : AuthDb) (now : Z) (down : query -> bool) : AuthBackend := {|
  session_user h := if down QSession then Err tt else Ok (session_user_row d now h);
  api_key_by_hash h := if down QApiKey then Err tt else Ok (api_key_by_hash_row d now h).2;
  get_user_by_name n := if down QUser then Err tt else Ok (get_user d n);
|}.

(** ** Identities *)

Record Identity := mkIdentity {
  id_name : bytes; is_admin : bool; actions : gset bytes; streams : list bytes;
}.
#[export] Instance identity_eq_dec : EqDecision Identity.
Proof. solve_decision. Defined.

Definition allows_stream (i : Identity) (stream : bytes) : bool :=
  existsb (fun s => stream_glob_matches s stream) (streams i).

Definition user_identity (u : UserRecord) : Identity :=
  let is_admin := bool_decide (role u = str "admin") in
  mkIdentity (username u) is_admin
    (if is_admin then {[str "ingest"; str "search"; str "admin"]} else {[str "ingest"; str "search"]})
    (user_streams u).

Definition key_identity (k : ApiKeyRecord) : Identity :=
  mkIdentity (str "apikey:" ++ key_name k) (existsb (fun a => bool_decide (a = str "admin")) (key_actions k))
    (list_to_set (key_actions k)) (key_streams k).

(** ** The caches *)

Definition TOKEN_CACHE_TTL : Z := 30000.
Definition NEGATIVE_CACHE_TTL : Z := 5000.

Record AuthState := mkAuth {
  enforced : bool;
  cache : gmap bytes (Identity * Z);
  negative : gmap bytes Z;
}.
Definition AuthState_default : AuthState := mkAuth true ∅ ∅.

Definition cache_get (s : AuthState) (now : Z) (hash : bytes) : AuthState * option Identity :=
  match cache s !! hash with
  | Some (identity, at_) =>
      if (now - at_ <? TOKEN_CACHE_TTL) then (s, Some identity)
      else (mkAuth (enforced s) (delete hash (cache s)) (negative s), None)
  | None => (s, None)
  end.

Definition cache_put (s : AuthState) (now : Z) (hash : bytes) (identity : Identity) : AuthState :=
  let c := if (10000 <? size (cache s))%nat then ∅ else cache s in
  mkAuth (enforced s) (<[hash := (identity, now)]> c) (negative s).

Definition negative_get (s : AuthState) (now : Z) (hash : bytes) : AuthState * bool :=
  match negative s !! hash with
  | Some at_ =>
      if (now - at_ <? NEGATIVE_CACHE_TTL) then (s, true)
      else (mkAuth (enforced s) (cache s) (delete hash (negative s)), false)
  | None => (s, false)
  end.

Definition negative_put (s : AuthState) (now : Z) (hash : bytes) : AuthState :=
  let c := if (10000 <? size (negative s))%nat then ∅ else negative s in
  mkAuth (enforced s) (cache s) (<[hash := now]> c).

Definition invalidate (s : AuthState) : AuthState := mkAuth (enforced s) ∅ ∅.

(** One tick of [spawn_refresher]: [Err] leaves enforcement as it is. *)
Definition refresh (s : AuthState) (count : result unit Z) : AuthState :=
  match count with
  | Ok n => mkAuth (negb (n =? 0)) (cache s) (negative s)
  | Err _ => s
  end.

(** ** Classification of a request *)

Inductive Action :=
| Open
| AIngest (stream : option bytes)
| ASearch (stream : option bytes)
| SearchContext
| Admin.

(** One arm of the [match (method, segments)]: [None] methods is [_]; a
    segment pattern is a literal, [index] (bound) or [_]; [rest] is a final
    [..]; [guarded] is [if !index.starts_with('_')]. *)
Inductive seg := Lit (s : bytes) | Index | Any.
Record arm := mkArm {
  methods : option (list bytes); pattern : list seg; rest : bool; guarded : bool;
  act : option bytes -> Action;
}.

(** The bound [index], when the segments match. *)
Fixpoint match_segs (p : list seg) (rest : bool) (segs : list bytes) (index : option bytes) :
    option (option bytes) :=
  match p, segs with
  | [], [] => Some index
  | [], _ :: _ => if rest then Some index else None
  | _ :: _, [] => None
  | Lit s :: p, x :: segs => if bool_decide (s = x) then match_segs p rest segs index else None
  | Index :: p, x :: segs => match_segs p rest segs (Some x)
  | Any :: p, _ :: segs => match_segs p rest segs index
  end.

Definition match_arm (a : arm) (method : bytes) (segs : list bytes) : option Action :=
  if match methods a with None => true | Some ms => bool_decide (method ∈ ms) end then
    index ← match_segs (pattern a) (rest a) segs None;
    if guarded a && starts_with (default [] index) (str "_") then None else Some (act a index)
  else None.

Fixpoint first_arm (arms : list arm) (method : bytes) (segs : list bytes) : Action :=
  match arms with
  | [] => Admin
  | a :: arms => match match_arm a method segs with Some act => act | None => first_arm arms method segs end
  end.

Definition m (s : string) : option (list bytes) := Some [str s].
Definition m2 (s t : string) : option (list bytes) := Some [str s; str t].
Definition m3 (s t u : string) : option (list bytes) := Some [str s; str t; str u].
Definition L (s : string) : seg := Lit (str s).
Definition open_ : option bytes -> Action := fun _ => Open.
Definition global_search : option bytes -> Action := fun _ => ASearch None.
Definition global_ingest : option bytes -> Action := fun _ => AIngest None.

Definition arms : list arm := [
  mkArm None [L ""] false false open_; mkArm None [L "health"] false false open_;
  mkArm None [L "_cluster"; L "health"] false false open_;
  mkArm None [L "ready"] false false open_;
  mkArm (m "POST") [L "_rsearch"; L "login"] false false open_;
  mkArm None [L "loki"; L "api"; L "v1"] true false global_search;
  mkArm (m "POST") [L "_bulk"] false false global_ingest;
  mkArm (m "POST") [Index; L "_bulk"] false false AIngest;
  mkArm (m3 "PUT" "POST" "DELETE") [Index; L "_doc"] true false AIngest;
  mkArm (m2 "PUT" "POST") [Index; L "_create"; Any] false false AIngest;
  mkArm (m "POST") [Index; L "_update"; Any] false false AIngest;
  mkArm (m "POST") [Index; L "_delete_by_query"] false false AIngest;
  mkArm (m2 "GET" "HEAD") [Index; L "_doc"; Any] false false ASearch;
  mkArm (m "GET") [Index; L "_source"; Any] false false ASearch;
  mkArm None [Index; L "_search"] false false ASearch;
  mkArm None [Index; L "_count"] false false ASearch;
  mkArm (m "PUT") [Index; L "_mapping"] false false AIngest;
  mkArm None [L "_refresh"] false false global_ingest;
  mkArm None [Index; L "_refresh"] false false AIngest;
  mkArm (m "POST") [L "_msearch"] false false global_search;
  mkArm None [L "_search"; L "scroll"] true false (fun _ => SearchContext);
  mkArm (m "GET") [Index; L "_mapping"] false false ASearch;
  mkArm (m "GET") [Index; L "_settings"] false false ASearch;
  mkArm (m "GET") [L "_cat"] true false global_search;
  mkArm (m "GET") [L "_rsearch"; L "stats"] false false global_search;
  mkArm (m "GET") [L "metrics"] false false global_search;
  mkArm (m2 "PUT" "DELETE") [Index] false true AIngest;
  mkArm (m2 "GET" "HEAD") [Index] false true ASearch
].

Definition trim_matches (c : byte) (l : bytes) : bytes :=
  reverse (drop_leading c (reverse (drop_leading c l))).
Definition segments (path : bytes) : list bytes := split_on x2f (trim_matches x2f path).
Definition classify (method path : bytes) : Action := first_arm arms method (segments path).

(** ** [authenticate] *)

(** The two headers it reads, already through [HeaderValue::to_str]. *)
Record Headers := mkHeaders { authorization : option bytes; x_api_key : option bytes }.

Section middleware.
Context `{Pbkdf2} (token_digest : bytes -> bytes) (dummy_password_hash : bytes).

Section request.
Context `{AuthBackend} (now : Z).

(** The rest of the loop body for one token once the caches missed: an
    answer, and what to remember about the digest. *)
Inductive TokenAnswer := Found (identity : Identity) | Missed | BackendError.

Definition token_lookup (hash : bytes) : TokenAnswer :=
  match session_user hash with
  | Ok (Some user) => Found (user_identity user)
  | session =>
      match api_key_by_hash hash with
      | Ok (Some key) => Found (key_identity key)
      | api_key =>
          match session, api_key with
          | Ok None, Ok None => Missed
          | _, _ => BackendError
          end
      end
  end.

Definition token_commit (s : AuthState) (hash : bytes) (a : TokenAnswer) : AuthState :=
  match a with
  | Found identity => cache_put s now hash identity
  | Missed => negative_put s now hash
  | BackendError => s
  end.

(** The [for token in ...] loop: an identity, or whether the backend failed. *)
Fixpoint try_tokens (s : AuthState) (tokens : list bytes) (backend_error : bool) :
    AuthState * (Identity + bool) :=
  match tokens with
  | [] => (s, inr backend_error)
  | token :: tokens =>
      let hash := token_digest token in
      match cache_get s now hash with
      | (s, Some identity) => (s, inl identity)
      | (s, None) =>
          match negative_get s now hash with
          | (s, true) => try_tokens s tokens backend_error
          | (s, false) =>
              let a := token_lookup hash in
              let s := token_commit s hash a in
              match a with
              | Found identity => (s, inl identity)
              | Missed => try_tokens s tokens backend_error
              | BackendError => try_tokens s tokens true
              end
          end
      end
  end.

Definition basic_credentials (h : Headers) : option (bytes * bytes) :=
  v ← authorization h; basic ← strip_prefix (str "Basic ") v;
  decoded ← b64_decode (trim basic);
  if utf8_valid decoded then split_once x3a decoded else None.

Definition try_basic (s : AuthState) (username_ password : bytes) (backend_error : bool) :
    AuthState * (Identity + bool) :=
  let basic_hash := token_digest (str "basic" ++ [x00] ++ username_ ++ [x00] ++ password) in
  match cache_get s now basic_hash with
  | (s, Some identity) => (s, inl identity)
  | (s, None) =>
      let '(user, backend_error) :=
        match get_user_by_name username_ with
        | Ok user => (user, backend_error)
        | Err _ => (None, true)
        end in
      let hash := default dummy_password_hash (password_hash <$> user) in
      let ok := verify_password password hash in
      match ok, user with
      | true, Some user =>
          let identity := user_identity user in
          (cache_put s now basic_hash identity, inl identity)
      | _, _ => (s, inr backend_error)
      end
  end.

Definition bearer (h : Headers) : option bytes :=
  v ← authorization h; t ← strip_prefix (str "Bearer ") v; Some (trim t).
Definition presented_tokens (h : Headers) : list bytes :=
  option_list (bearer h) ++ option_list (x_api_key h).

Definition authenticate (s : AuthState) (h : Headers) : AuthState * result unit (option Identity) :=
  match try_tokens s (presented_tokens h) false with
  | (s, inl identity) => (s, Ok (Some identity))
  | (s, inr backend_error) =>
      match (match basic_credentials h with
             | Some (u, p) => try_basic s u p backend_error
             | None => (s, inr backend_error)
             end) with
      | (s, inl identity) => (s, Ok (Some identity))
      | (s, inr backend_error) => (s, if backend_error then Err tt else Ok None)
      end
  end.

(** ** [require] *)

Inductive Outcome :=
| Run (identity : option Identity)  (** [next.run], with the extension attached *)
| Unauthorized | ServiceUnavailable | Forbidden (name : bytes).

Definition allowed (action : Action) (identity : Identity) : bool :=
  match action with
  | Open => true
  | Admin => is_admin identity
  | AIngest stream =>
      bool_decide (str "ingest" ∈ actions identity) &&
      match stream with
      | Some stream => allows_stream identity stream
      | None => existsb (fun s => bool_decide (s = str "*")) (streams identity)
      end
  | ASearch stream =>
      bool_decide (str "search" ∈ actions identity) &&
      match stream with
      | Some stream => allows_stream identity stream
      | None => existsb (fun s => bool_decide (s = str "*")) (streams identity)
      end
  | SearchContext => bool_decide (str "search" ∈ actions identity)
  end.

Definition require (s : AuthState) (method path : bytes) (h : Headers) : AuthState * Outcome :=
  match classify method path with
  | Open => (s, Run None)
  | action =>
      if negb (enforced s) then (s, Run None)
      else match authenticate s h with
           | (s, Ok (Some identity)) =>
               if allowed action identity then (s, Run (Some identity))
               else (s, Forbidden (id_name identity))
           | (s, Ok None) => (s, Unauthorized)
           | (s, Err _) => (s, ServiceUnavailable)
           end
  end.
End request.

(** ** Handlers that change users and keys (auth_api.rs) *)

Record Node := mkNode { auth : AuthState; db : AuthDb }.

Inductive status := S200 | S400 | S401 | S404 | S500.
Definition SESSION_TTL_SECS : Z := 24 * 3600.

(** [count_ok], [write_ok]: whether the statement reaches the database.
    The body's fields are given as extracted ([None]: absent or not a
    string; the streams already filtered to strings). *)
Definition put_user (n : Node) (count_ok write_ok : bool) (rng : option bytes) (name : bytes)
    (password role_ : option bytes) (streams_ : option (list bytes)) : Node * status :=
  match password with
  | None => (n, S400)
  | Some password =>
      if (length password <? 12)%nat then (n, S400)
      else
        let first_user := ((if count_ok then count_users (db n) else 0) =? 0) in
        let role_ := if first_user then str "admin" else default (str "user") role_ in
        if negb (bool_decide (role_ = str "admin" \/ role_ = str "user")) then (n, S400)
        else
          let streams_ := default [str "*"] streams_ in
          match hash_password rng password with
          | Err _ => (n, S500)
          | Ok hash =>
              match (if write_ok then upsert_user (db n) name hash role_ streams_ else Err tt) with
              | Ok (d, _) =>
                  (mkNode (invalidate (mkAuth true (cache (auth n)) (negative (auth n)))) d, S200)
              | Err _ => (n, S500)
              end
          end
  end.

Definition delete_user (n : Node) (write_ok : bool) (name : bytes) : Node * status :=
  if write_ok then
    match delete_user_row (db n) name with
    | (d, true) => (mkNode (invalidate (auth n)) d, S200)
    | (d, false) => (mkNode (auth n) d, S404)
    end
  else (n, S500).

Definition create_api_key (n : Node) (write_ok : bool) (secret : option bytes) (name : option bytes)
    (actions_ : list bytes) (streams_ : option (list bytes)) : Node * status :=
  match name with
  | None => (n, S400)
  | Some name =>
      if bool_decide (actions_ = []) ||
         negb (forallb (fun a => bool_decide (a = str "ingest" \/ a = str "search" \/ a = str "admin")) actions_)
      then (n, S400)
      else
        let streams_ := default [str "*"] streams_ in
        match secret with
        | None => (n, S500)
        | Some secret =>
            match (if write_ok then
                     create_api_key_row (db n) name (token_digest (str "rsk_" ++ secret)) actions_ streams_
                   else Err tt) with
            | Ok (d, _) => (mkNode (auth n) d, S200)
            | Err _ => (n, S500)
            end
        end
  end.

Definition delete_api_key (n : Node) (write_ok : bool) (name : bytes) : Node * status :=
  if write_ok then
    match delete_api_key_row (db n) name with
    | (d, true) => (mkNode (invalidate (auth n)) d, S200)
    | (d, false) => (mkNode (auth n) d, S404)
    end
  else (n, S500).

Definition login (n : Node) (now : Z) (read_ok write_ok : bool) (token : option bytes)
    (username_ password : option bytes) : Node * status :=
  match username_, password with
  | Some username_, Some password =>
      match (if read_ok then get_user (db n) username_ else None) with
      | None => (n, S401)
      | Some user =>
          if negb (verify_password password (password_hash user)) then (n, S401)
          else match token with
               | None => (n, S500)
               | Some token =>
                   match (if write_ok then
                            create_session (db n) now (token_digest token) (user_id user) (SESSION_TTL_SECS * 1000)
                          else Err tt) with
                   | Ok d => (mkNode (auth n) d, S200)
                   | Err _ => (n, S500)
                   end
               end
      end
  | _, _ => (n, S400)
  end.
End middleware.

(** ** Lemmas on the caches *)

Definition cached (s : AuthState) (now : Z) (hash : bytes) (i : Identity) : Prop :=
  exists at_, cache s !! hash = Some (i, at_) /\ now - at_ < TOKEN_CACHE_TTL.
Definition negatively_cached (s : AuthState) (now : Z) (hash : bytes) : Prop :=
  exists at_, negative s !! hash = Some at_ /\ now - at_ < NEGATIVE_CACHE_TTL.

(** Nothing was added to the positive cache. *)
Definition cache_shrinks (s s' : AuthState) : Prop := cache s' ⊆ cache s /\ enforced s' = enforced s.

Lemma cache_shrinks_refl s : cache_shrinks s s.
Proof. done. Qed.
Lemma cache_shrinks_trans s1 s2 s3 : cache_shrinks s1 s2 -> cache_shrinks s2 s3 -> cache_shrinks s1 s3.
Proof. intros [H1 E1] [H2 E2]. split; [by trans (cache s2)|congruence]. Qed.
#[export] Hint Resolve cache_shrinks_refl : rs.

Lemma cached_shrinks s s' now hash i : cache_shrinks s s' -> cached s' now hash i -> cached s now hash i.
Proof. intros [H _] (at_ & E & Ht). exists at_. split; [by eapply lookup_weaken|done]. Qed.

Lemma cache_get_spec s now hash s' o : cache_get s now hash = (s', o) ->
  cache_shrinks s s' /\ negative s' = negative s /\
  (forall i, o = Some i -> s' = s /\ cached s now hash i).
Proof.
  unfold cache_get, cache_shrinks. destruct (cache s !! hash) as [[i at_]|] eqn:E.
  - split_test; intros [= <- <-]; split_and!; try done.
    + intros i' [= <-]. split; [done|]. exists at_. done.
    + by apply delete_subseteq.
  - by intros [= <- <-].
Qed.

Lemma negative_get_spec s now hash s' b : negative_get s now hash = (s', b) ->
  cache_shrinks s s' /\ (b = true -> s' = s /\ negatively_cached s now hash) /\
  negative s' ⊆ negative s.
Proof.
  unfold negative_get, cache_shrinks. destruct (negative s !! hash) as [at_|] eqn:E.
  - split_test; intros [= <- <-]; split_and!; try done.
    + intros _. split; [done|]. by exists at_.
    + by apply delete_subseteq.
  - by intros [= <- <-].
Qed.

(** What one request may do to the negative cache: entries can go, and a new
    one is a digest that definitely missed just now. *)
Definition negative_grows `{AuthBackend} (now : Z) (s s' : AuthState) : Prop :=
  forall hash t, negative s' !! hash = Some t -> negative s !! hash = Some t \/
    (t = now /\ session_user hash = Ok None /\ api_key_by_hash hash = Ok None).

Section request_lemmas.
Context `{Pbkdf2} (token_digest : bytes -> bytes) (dummy : bytes) `{AuthBackend} (now : Z).

Lemma negative_grows_sub s s' : negative s' ⊆ negative s -> negative_grows now s s'.
Proof. intros Hs hash t E. left. by eapply lookup_weaken. Qed.

Lemma negative_grows_trans s1 s2 s3 :
  negative_grows now s1 s2 -> negative_grows now s2 s3 -> negative_grows now s1 s3.
Proof. intros H1 H2 hash t E. destruct (H2 _ _ E) as [E'|]; [by apply H1|by right]. Qed.

Lemma token_lookup_missed hash : token_lookup hash = Missed ->
  session_user hash = Ok None /\ api_key_by_hash hash = Ok None.
Proof.
  unfold token_lookup. destruct (session_user hash) as [[u|]|[]], (api_key_by_hash hash) as [[k|]|[]]; done.
Qed.

Lemma token_lookup_error hash : token_lookup hash = BackendError ->
  session_user hash = Err tt \/ api_key_by_hash hash = Err tt.
Proof.
  unfold token_lookup. destruct (session_user hash) as [[u|]|[]], (api_key_by_hash hash) as [[k|]|[]]; auto; done.
Qed.

Lemma commit_missed s hash : token_lookup hash = Missed ->
  cache_shrinks s (negative_put s now hash) /\ negative_grows now s (negative_put s now hash).
Proof.
  intros Hm%token_lookup_missed. split; [done|]. intros h t. unfold negative_put. cbn [negative].
  rewrite lookup_insert_Some. intros [[<- <-]|[_ E]]; [by right|]. left. by case_match.
Qed.

(** What the loop over the tokens returns. *)
Inductive loop_result (s : AuthState) (tokens : list bytes) : bool -> AuthState -> Identity + bool -> Prop :=
| loop_cached e s' i token : token ∈ tokens -> cached s now (token_digest token) i ->
    cache_shrinks s s' -> negative_grows now s s' -> loop_result s tokens e s' (inl i)
| loop_found e s' i token : token ∈ tokens -> token_lookup (token_digest token) = Found i ->
    negative_grows now s s' -> enforced s' = enforced s -> loop_result s tokens e s' (inl i)
| loop_done e s' e' : cache_shrinks s s' -> negative_grows now s s' ->
    (e' = true -> e = true \/ exists token, token ∈ tokens /\ token_lookup (token_digest token) = BackendError) ->
    (e' = false -> e = false /\ forall token, token ∈ tokens ->
       negatively_cached s now (token_digest token) \/
       (token_lookup (token_digest token) = Missed)) ->
    loop_result s tokens e s' (inr e').

Lemma loop_result_cons s s1 token tokens e e1 s' r :
  cache_shrinks s s1 -> negative_grows now s s1 ->
  (e1 = true -> e = true \/ token_lookup (token_digest token) = BackendError) ->
  (e1 = false -> e = false /\ (negatively_cached s now (token_digest token) \/ token_lookup (token_digest token) = Missed)) ->
  loop_result s1 tokens e1 s' r -> loop_result s (token :: tokens) e s' r.
Proof.
  intros Hc Hn He1 He0 Hl. inversion Hl as [? ? i t Ht Hca Hs Hg|? ? i t Ht Hf Hg Hen|? ? e' Hs Hg Hyes Hno]; subst.
  - eapply (loop_cached _ _ _ _ _ t); [by right|by eapply cached_shrinks|by eapply cache_shrinks_trans|by eapply negative_grows_trans].
  - eapply (loop_found _ _ _ _ _ t); [by right|done|by eapply negative_grows_trans|]. destruct Hc as [_ <-]. done.
  - apply loop_done; [by eapply cache_shrinks_trans|by eapply negative_grows_trans| |].
    + intros E. destruct (Hyes E) as [E'|(t & Ht & Hb)].
      * destruct (He1 E') as [?|?]; [by left|]. right. exists token. split; [by left|done].
      * right. exists t. split; [by right|done].
    + intros E. destruct (Hno E) as [E' Hall]. destruct (He0 E') as [He Htok]. split; [done|].
      intros t [->|Ht]%elem_of_cons; [done|]. destruct (Hall t Ht) as [(at_ & Ea & Hat)|?]; [|by right].
      destruct (Hn _ _ Ea) as [?|(_ & Hm)]; [left; by exists at_|].
      right. unfold token_lookup. by destruct Hm as [-> ->].
Qed.
End request_lemmas.

Section request_theorems.
Context `{Pbkdf2} (token_digest : bytes -> bytes) (dummy : bytes) `{AuthBackend} (now : Z).

Lemma try_tokens_spec tokens s e s' r : try_tokens token_digest now s tokens e = (s', r) ->
  loop_result token_digest now s tokens e s' r.
Proof.
  revert s e s' r; induction tokens as [|token tokens IH]; intros s e s' r; cbn [try_tokens].
  - intros [= <- <-]. apply loop_done; [done|intros ? ? ?; by left|by left|]. intros ->. split; [done|]. set_solver.
  - destruct (cache_get s now (token_digest token)) as [s1 [i|]] eqn:E1; apply cache_get_spec in E1 as (H1 & En1 & Hc).
    { intros [= <- <-]. destruct (Hc i eq_refl) as [-> Hi].
      apply (loop_cached _ _ _ _ _ _ _ token); [by left|done|done|]. intros ? ? ?. by left. }
    destruct (negative_get s1 now (token_digest token)) as [s2 []] eqn:E2; apply negative_get_spec in E2 as (H2 & Hn2 & Hsub).
    { destruct (Hn2 eq_refl) as [-> Hn]. intros Hr%IH.
      eapply loop_result_cons; [exact H1|by apply negative_grows_sub; rewrite En1|by left| |done].
      intros ->. split; [done|]. left. unfold negatively_cached in *. by rewrite <- En1. }
    assert (cache_shrinks s s2) as H12 by by eapply cache_shrinks_trans.
    assert (negative_grows now s s2) as Hg by (apply negative_grows_sub; by rewrite <- En1).
    destruct (token_lookup (token_digest token)) as [i| |] eqn:El; cbn [token_commit].
    + intros [= <- <-]. eapply (loop_found _ _ _ _ _ _ _ token); [by left|done| |].
      * intros h t Ht. apply Hg. done.
      * destruct H12. done.
    + intros Hr%IH. destruct (commit_missed now s2 _ El) as [H3 H4].
      eapply loop_result_cons; [by eapply cache_shrinks_trans|by eapply negative_grows_trans|by left| |done].
      auto.
    + intros Hr%IH. by eapply (loop_result_cons _ _ _ s2 _ _ _ true); [..|right| |].
Qed.

(** What vouches for an identity: a live cache entry of a credential the
    request presents, or the metastore's answer for it. *)
Inductive vouched (s : AuthState) (h : Headers) (i : Identity) : Prop :=
| by_cached_token token : token ∈ presented_tokens h -> cached s now (token_digest token) i -> vouched s h i
| by_session token u : token ∈ presented_tokens h -> session_user (token_digest token) = Ok (Some u) ->
    i = user_identity u -> vouched s h i
| by_api_key token k : token ∈ presented_tokens h -> api_key_by_hash (token_digest token) = Ok (Some k) ->
    i = key_identity k -> vouched s h i
| by_cached_basic u p : basic_credentials h = Some (u, p) ->
    cached s now (token_digest (str "basic" ++ [x00] ++ u ++ [x00] ++ p)) i -> vouched s h i
| by_password u p user : basic_credentials h = Some (u, p) -> get_user_by_name u = Ok (Some user) ->
    verify_password p (password_hash user) = true -> i = user_identity user -> vouched s h i.

Lemma token_lookup_found hash i : token_lookup hash = Found i ->
  (exists u, session_user hash = Ok (Some u) /\ i = user_identity u) \/
  (exists k, api_key_by_hash hash = Ok (Some k) /\ i = key_identity k).
Proof.
  unfold token_lookup. destruct (session_user hash) as [[u|]|[]], (api_key_by_hash hash) as [[k|]|[]]; naive_solver.
Qed.

Lemma loop_result_inl s tokens e s' i : loop_result token_digest now s tokens e s' (inl i) ->
  enforced s' = enforced s /\ negative_grows now s s' /\
  ((exists t, t ∈ tokens /\ cached s now (token_digest t) i) \/
   (exists t, t ∈ tokens /\ token_lookup (token_digest t) = Found i)).
Proof. inversion 1; subst; (split_and!; [by destruct_and?; unfold cache_shrinks in *; naive_solver|done|eauto]). Qed.

(** The Basic branch, after a loop that found no token. *)
Inductive basic_result (s : AuthState) (u p : bytes) (e : bool) (s' : AuthState) : Identity + bool -> Prop :=
| basic_cached i : cached s now (token_digest (str "basic" ++ [x00] ++ u ++ [x00] ++ p)) i ->
    basic_result s u p e s' (inl i)
| basic_verified i user : get_user_by_name u = Ok (Some user) -> verify_password p (password_hash user) = true ->
    i = user_identity user -> basic_result s u p e s' (inl i)
| basic_failed e' : (e' = true -> e = true \/ get_user_by_name u = Err tt) ->
    (e' = false -> e = false /\ exists o, get_user_by_name u = Ok o /\
       forall user, o = Some user -> verify_password p (password_hash user) = false) ->
    basic_result s u p e s' (inr e').

Lemma try_basic_spec s u p e s' r : try_basic token_digest dummy now s u p e = (s', r) ->
  enforced s' = enforced s /\ negative s' = negative s /\ basic_result s u p e s' r.
Proof.
  unfold try_basic. destruct (cache_get _ _ _) as [s1 [i|]] eqn:E1; apply cache_get_spec in E1 as ([Hce He] & En & Hc).
  { intros [= <- <-]. destruct (Hc i eq_refl) as [-> Hi]. split_and!; [done..|]. by apply basic_cached. }
  destruct (get_user_by_name u) as [[user|]|[]] eqn:Eu.
  - change (default dummy (password_hash <$> Some user)) with (password_hash user). cbn zeta iota.
    destruct (verify_password p (password_hash user)) eqn:Ev;
      intros [= <- <-]; (split_and!; [done..|]).
    + by eapply basic_verified.
    + apply basic_failed; [by left|]. intros ->. split; [done|]. exists (Some user). split; [done|]. naive_solver.
  - intros Hr. assert ((s', r) = (s1, inr e)) as [= -> ->].
    { rewrite <- Hr. by destruct (verify_password _ _). }
    split_and!; [done..|]. apply basic_failed; [by left|]. intros ->. split; [done|]. by exists None.
  - intros Hr. assert ((s', r) = (s1, inr true)) as [= -> ->].
    { rewrite <- Hr. by destruct (verify_password _ _). }
    split_and!; [done..|]. apply basic_failed; [by right|done].
Qed.

Lemma authenticate_vouched s h s' i : authenticate token_digest dummy now s h = (s', Ok (Some i)) -> vouched s h i.
Proof.
  unfold authenticate. destruct (try_tokens _ _ _ _ _) as [s1 [i1|e1]] eqn:E1; apply try_tokens_spec in E1.
  - intros [= <- <-]. apply loop_result_inl in E1 as (_ & _ & [(t & Ht & Hc)|(t & Ht & Hf)]).
    + by eapply by_cached_token.
    + apply token_lookup_found in Hf as [(u & Eu & ->)|(k & Ek & ->)]; [by eapply by_session|by eapply by_api_key].
  - destruct (basic_credentials h) as [[u p]|] eqn:Eb; [|by destruct e1].
    destruct (try_basic _ _ _ _ _ _ _) as [s2 [i2|e2]] eqn:E2; [|by destruct e2].
    intros [= <- <-]. apply try_basic_spec in E2 as (_ & _ & Hb).
    inversion E1 as [| |? ? ? Hs _ _ _]; subst.
    inversion Hb as [? Hc|? user Eu Ev Ei|]; subst.
    + eapply by_cached_basic; [done|]. by eapply cached_shrinks.
    + by eapply by_password.
Qed.

Lemma authenticate_negative s h s' r : authenticate token_digest dummy now s h = (s', r) ->
  negative_grows now s s' /\ enforced s' = enforced s.
Proof.
  unfold authenticate. destruct (try_tokens _ _ _ _ _) as [s1 [i1|e1]] eqn:E1; apply try_tokens_spec in E1.
  - intros [= <- <-]. by apply loop_result_inl in E1 as (? & ? & _).
  - inversion E1 as [| |? ? ? [_ He] Hg _ _]; subst.
    destruct (basic_credentials h) as [[u p]|]; [|by intros [= <- <-]].
    destruct (try_basic _ _ _ _ _ _ _) as [s2 r2] eqn:E2. apply try_basic_spec in E2 as (He2 & En2 & _).
    intros Hr. assert (s' = s2) as -> by (by destruct r2; injection Hr).
    split; [|congruence]. intros h' t. rewrite En2. apply Hg.
Qed.

Lemma authenticate_error s h s' : authenticate token_digest dummy now s h = (s', Err tt) ->
  (exists t, t ∈ presented_tokens h /\
     (session_user (token_digest t) = Err tt \/ api_key_by_hash (token_digest t) = Err tt)) \/
  (exists u p, basic_credentials h = Some (u, p) /\ get_user_by_name u = Err tt).
Proof.
  unfold authenticate. destruct (try_tokens _ _ _ _ _) as [s1 [i1|e1]] eqn:E1; apply try_tokens_spec in E1; [done|].
  inversion E1 as [| |? ? ? _ _ Hyes _]; subst.
  assert (e1 = true -> exists t, t ∈ presented_tokens h /\
    (session_user (token_digest t) = Err tt \/ api_key_by_hash (token_digest t) = Err tt)) as Ht.
  { intros E. destruct (Hyes E) as [?|(t & Ht & Hl)]; [done|]. exists t. split; [done|]. by apply token_lookup_error. }
  destruct (basic_credentials h) as [[u p]|] eqn:Eb; [|destruct e1; [by left; apply Ht|done]].
  destruct (try_basic _ _ _ _ _ _ _) as [s2 [i2|e2]] eqn:E2; [done|]. apply try_basic_spec in E2 as (_ & _ & Hb).
  inversion Hb as [| |? Hy _]; subst. destruct e2; [|done]. intros _.
  destruct (Hy eq_refl) as [E|E]; [left; by apply Ht|right; eauto].
Qed.

Lemma authenticate_none s h s' : authenticate token_digest dummy now s h = (s', Ok None) ->
  (forall t, t ∈ presented_tokens h -> negatively_cached s now (token_digest t) \/
     (session_user (token_digest t) = Ok None /\ api_key_by_hash (token_digest t) = Ok None)) /\
  (forall u p, basic_credentials h = Some (u, p) -> exists o, get_user_by_name u = Ok o /\
     forall user, o = Some user -> verify_password p (password_hash user) = false).
Proof.
  unfold authenticate. destruct (try_tokens _ _ _ _ _) as [s1 [i1|e1]] eqn:E1; apply try_tokens_spec in E1; [done|].
  inversion E1 as [| |? ? ? _ _ _ Hno]; subst.
  assert (e1 = false -> forall t, t ∈ presented_tokens h -> negatively_cached s now (token_digest t) \/
     (session_user (token_digest t) = Ok None /\ api_key_by_hash (token_digest t) = Ok None)) as Ht.
  { intros E t Hin. destruct (Hno E) as [_ Hall]. destruct (Hall t Hin); [by left|right; by apply token_lookup_missed]. }
  destruct (basic_credentials h) as [[u p]|] eqn:Eb.
  - destruct (try_basic _ _ _ _ _ _ _) as [s2 [i2|e2]] eqn:E2; [done|]. apply try_basic_spec in E2 as (_ & _ & Hb).
    inversion Hb as [| |? _ Hn]; subst. destruct e2; [done|]. intros _.
    destruct (Hn eq_refl) as (E & o & Eo & Hv). split; [by apply Ht|]. intros ? ? [= <- <-]. eauto.
  - destruct e1; [done|]. intros _. split; [by apply Ht|done].
Qed.
End request_theorems.

(** ** The tables' invariant *)

Record db_wf (d : AuthDb) : Prop := {
  wf_user_key i u : users d !! i = Some u -> user_id u = i /\ i < next_user d;
  wf_role i u : users d !! i = Some u -> role u = str "admin" \/ role u = str "user";
  wf_username i j u v : users d !! i = Some u -> users d !! j = Some v -> username u = username v -> i = j;
  wf_session h uid t : sessions d !! h = Some (uid, t) -> is_Some (users d !! uid);
  wf_key_key i k : api_keys d !! i = Some k -> key_id k = i /\ i < next_key d;
  wf_key_name i j k l : api_keys d !! i = Some k -> api_keys d !! j = Some l -> key_name k = key_name l -> i = j;
  wf_key_hash i j k l : api_keys d !! i = Some k -> api_keys d !! j = Some l -> key_hash k = key_hash l -> i = j;
}.

Lemma find_user_Some d name u : db_wf d -> find_user d name = Some u ->
  users d !! user_id u = Some u /\ username u = name.
Proof.
  unfold find_user. intros Hw H. destruct (filter _ _) as [|[i v] l] eqn:E; [done|]. injection H as <-. simpl.
  assert ((i, v) ∈ filter (fun p : Z * UserRecord => username p.2 = name) (map_to_list (users d))) as Hin
    by (rewrite E; by left).
  apply list_elem_of_filter in Hin as [Hn Hin]. apply elem_of_map_to_list in Hin.
  split; [|done]. by destruct (wf_user_key _ Hw _ _ Hin) as [-> _].
Qed.

Lemma find_user_None d name i u : find_user d name = None -> users d !! i = Some u -> username u <> name.
Proof.
  unfold find_user. intros H Hu Hn. destruct (filter _ _) as [|p l] eqn:E; [|done].
  assert ((i, u) ∈ filter (fun p : Z * UserRecord => username p.2 = name) (map_to_list (users d))) as Hin.
  { apply list_elem_of_filter. split; [done|]. by apply elem_of_map_to_list. }
  rewrite E in Hin. by apply elem_of_nil in Hin.
Qed.

Lemma find_key_Some d P k : db_wf d -> find_key d P = Some k -> api_keys d !! key_id k = Some k /\ P k = true.
Proof.
  unfold find_key. intros Hw H. destruct (filter _ _) as [|[i v] l] eqn:E; [done|]. injection H as <-. simpl.
  assert ((i, v) ∈ filter (fun p : Z * ApiKeyRecord => P p.2) (map_to_list (api_keys d))) as Hin
    by (rewrite E; by left).
  apply list_elem_of_filter in Hin as [Hn Hin]. apply elem_of_map_to_list in Hin.
  split; [|by apply Is_true_true]. by destruct (wf_key_key _ Hw _ _ Hin) as [-> _].
Qed.

Lemma find_key_None d P i k : find_key d P = None -> api_keys d !! i = Some k -> P k = false.
Proof.
  unfold find_key. intros H Hu. destruct (P k) eqn:Hn; [|done]. destruct (filter _ _) as [|p l] eqn:E; [|done].
  assert ((i, k) ∈ filter (fun p : Z * ApiKeyRecord => P p.2) (map_to_list (api_keys d))) as Hin.
  { apply list_elem_of_filter. split; [by apply Is_true_true|]. by apply elem_of_map_to_list. }
  rewrite E in Hin. by apply elem_of_nil in Hin.
Qed.

Lemma empty_db_wf : db_wf empty_db.
Proof. split; simpl; intros *; rewrite ?lookup_empty; done. Qed.

(** Replacing one user row under its own key and name. *)
Lemma upsert_user_wf d name hash r ss d' u : db_wf d -> upsert_user d name hash r ss = Ok (d', u) -> db_wf d'.
Proof.
  intros Hw. unfold upsert_user. case_bool_decide as Hr; [|done].
  set (v := match find_user d name with Some _ => _ | None => _ end).
  assert (username v = name /\ role v = r /\ user_id v < next_user d + 1 /\
    forall i w, users d !! i = Some w -> username w = name -> i = user_id v) as (Hn & Hro & Hlt & Huniq).
  { unfold v. destruct (find_user d name) as [u0|] eqn:E; cbn [username role user_id].
    - apply find_user_Some in E as [E En]; [|done]. destruct (wf_user_key _ Hw _ _ E) as [_ ?].
      split_and!; [done|done|lia|]. intros i w Ei Ew. eapply (wf_username _ Hw); [exact Ei|exact E|congruence].
    - split_and!; [done|done|lia|]. intros i w Ei Ew. by pose proof (find_user_None _ _ _ _ E Ei). }
  clearbody v. intros [= <- _]. split; cbn [users sessions api_keys next_user next_key].
  - intros i w [[<- <-]|[_ Ei]]%lookup_insert_Some; [done|]. destruct (wf_user_key _ Hw _ _ Ei); lia.
  - intros i w [[<- <-]|[_ Ei]]%lookup_insert_Some; [by rewrite Hro|]. by eapply (wf_role _ Hw).
  - intros i j w x [[<- <-]|[Hi Ei]]%lookup_insert_Some [[<- <-]|[Hj Ej]]%lookup_insert_Some Hwx; [done| | |].
    + symmetry. eapply Huniq; [done|congruence].
    + eapply Huniq; [done|congruence].
    + by eapply (wf_username _ Hw).
  - intros h uid t E. apply (wf_session _ Hw) in E. rewrite lookup_insert_is_Some.
    destruct (decide (user_id v = uid)); [by left|by right].
  - apply (wf_key_key _ Hw).
  - apply (wf_key_name _ Hw).
  - apply (wf_key_hash _ Hw).
Qed.

Lemma delete_user_row_wf d name : db_wf d -> db_wf (delete_user_row d name).1.
Proof.
  intros Hw. unfold delete_user_row. destruct (find_user d name) as [u|] eqn:E; [|done].
  split; cbn [users sessions api_keys next_user next_key fst].
  - intros i w [_ Ei]%lookup_delete_Some. by apply (wf_user_key _ Hw).
  - intros i w [_ Ei]%lookup_delete_Some. by eapply (wf_role _ Hw).
  - intros i j w x [_ Ei]%lookup_delete_Some [_ Ej]%lookup_delete_Some. by apply (wf_username _ Hw).
  - intros h uid t [Es Hne]%map_lookup_filter_Some. cbn in Hne. rewrite lookup_delete_ne by done.
    by apply (wf_session _ Hw) in Es.
  - apply (wf_key_key _ Hw).
  - apply (wf_key_name _ Hw).
  - apply (wf_key_hash _ Hw).
Qed.

Lemma create_session_wf d now h uid ttl d' : db_wf d -> create_session d now h uid ttl = Ok d' -> db_wf d'.
Proof.
  intros Hw. unfold create_session. destruct (sessions d !! h) eqn:Eh; [done|].
  destruct (users d !! uid) as [u|] eqn:Eu; [|done]. intros [= <-].
  split; cbn [users sessions api_keys next_user next_key]; try by apply Hw.
  intros h' uid' t [Es _]%map_lookup_filter_Some.
  apply lookup_insert_Some in Es as [[<- [= <- <-]]|[_ Es]]; [done|]. by apply (wf_session _ Hw) in Es.
Qed.

(** Writing one API-key row whose hash no other row has. *)
Lemma write_key_wf d k nk : db_wf d -> next_key d <= nk -> key_id k < nk ->
  (forall i l, api_keys d !! i = Some l -> key_name l = key_name k -> i = key_id k) ->
  (forall i l, api_keys d !! i = Some l -> key_hash l = key_hash k -> i = key_id k) ->
  db_wf (mkDb (users d) (sessions d) (<[key_id k := k]> (api_keys d)) (next_user d) nk).
Proof.
  intros Hw Hn Hlt Hname Hhash. split; cbn [users sessions api_keys next_user next_key]; try by apply Hw.
  - intros i w [[<- <-]|[_ Ei]]%lookup_insert_Some; [done|]. destruct (wf_key_key _ Hw _ _ Ei); lia.
  - intros i j w x [[<- <-]|[Hi Ei]]%lookup_insert_Some [[<- <-]|[Hj Ej]]%lookup_insert_Some Hwx; [done| | |].
    + symmetry. eapply Hname; [done|congruence].
    + eapply Hname; [done|congruence].
    + by eapply (wf_key_name _ Hw).
  - intros i j w x [[<- <-]|[Hi Ei]]%lookup_insert_Some [[<- <-]|[Hj Ej]]%lookup_insert_Some Hwx; [done| | |].
    + symmetry. eapply Hhash; [done|congruence].
    + eapply Hhash; [done|congruence].
    + by eapply (wf_key_hash _ Hw).
Qed.

Lemma create_api_key_row_wf d name hash acts ss d' k :
  db_wf d -> create_api_key_row d name hash acts ss = Ok (d', k) -> db_wf d'.
Proof.
  intros Hw. unfold create_api_key_row. cbv zeta.
  set (v := match find_key d (fun k => bool_decide (key_name k = name)) with Some _ => _ | None => _ end).
  destruct (find_key d (fun k' => bool_decide (key_hash k' = hash /\ _))) eqn:Eh; [done|].
  assert (key_name v = name /\ key_hash v = hash /\ key_id v < next_key d + 1 /\
    forall i w, api_keys d !! i = Some w -> key_name w = name -> i = key_id v) as (Hn & Hha & Hlt & Huniq).
  { unfold v. destruct (find_key d _) as [k0|] eqn:E; cbn [key_name key_hash key_id].
    - apply find_key_Some in E as [E En]; [|done]. apply bool_decide_eq_true in En.
      destruct (wf_key_key _ Hw _ _ E) as [_ ?].
      split_and!; [done|done|lia|]. intros i w Ei Ew. eapply (wf_key_name _ Hw); [exact Ei|exact E|congruence].
    - split_and!; [done|done|lia|]. intros i w Ei Ew. pose proof (find_key_None _ _ _ _ E Ei) as Hf.
      simpl in Hf. by apply bool_decide_eq_false in Hf. }
  clearbody v. intros [= <- _]. apply write_key_wf; [done|lia|done|by rewrite Hn|].
  intros i w Ei Ew. pose proof (find_key_None _ _ _ _ Eh Ei) as Hf. simpl in Hf. apply bool_decide_eq_false in Hf.
  destruct (wf_key_key _ Hw _ _ Ei) as [Eid _]. destruct (decide (key_id w = key_id v)); [congruence|].
  destruct Hf. split; [congruence|done].
Qed.

Lemma api_key_by_hash_row_wf d now hash : db_wf d -> db_wf (api_key_by_hash_row d now hash).1.
Proof.
  intros Hw. unfold api_key_by_hash_row. destruct (find_key d _) as [k|] eqn:E; [|done].
  apply find_key_Some in E as [E _]; [|done]. destruct (wf_key_key _ Hw _ _ E) as [_ ?].
  destruct (match last_used_at k with None => true | Some t => _ end); [|done]. cbn [fst].
  apply (write_key_wf d (mkKey (key_id k) (key_name k) (key_hash k) (key_actions k) (key_streams k) (Some now)));
    [done|lia|done| |]; cbn [key_id key_name key_hash]; intros i l Ei El.
  - by eapply (wf_key_name _ Hw).
  - by eapply (wf_key_hash _ Hw).
Qed.

Lemma delete_api_key_row_wf d name : db_wf d -> db_wf (delete_api_key_row d name).1.
Proof.
  intros Hw. unfold delete_api_key_row. destruct (find_key d _) as [k|] eqn:E; [|done].
  split; cbn [users sessions api_keys next_user next_key fst]; try by apply Hw.
  - intros i w [_ Ei]%lookup_delete_Some. by apply (wf_key_key _ Hw).
  - intros i j w x [_ Ei]%lookup_delete_Some [_ Ej]%lookup_delete_Some. by apply (wf_key_name _ Hw).
  - intros i j w x [_ Ei]%lookup_delete_Some [_ Ej]%lookup_delete_Some. by apply (wf_key_hash _ Hw).
Qed.

(** Stamping [last_used_at] does not change what any key grants. *)
Lemma api_key_stamp_identity d now hash :
  key_identity <$> (api_key_by_hash_row d now hash).2 =
  key_identity <$> find_key d (fun k => bool_decide (key_hash k = hash)).
Proof.
  unfold api_key_by_hash_row. destruct (find_key d _) as [k|]; [|done].
  destruct (match last_used_at k with None => true | Some t => _ end); done.
Qed.

(** ** Lemmas on the classification *)

Lemma first_arm_in as_ method segs a : first_arm as_ method segs = a -> a <> Admin ->
  exists x i, x ∈ as_ /\ match_segs (pattern x) (rest x) segs None = Some i /\ a = act x i /\
    match methods x with None => True | Some ms => method ∈ ms end.
Proof.
  intros H Ha. induction as_ as [|x as_ IH]; simpl in H; [congruence|].
  destruct (match_arm x method segs) as [b|] eqn:E.
  - subst. unfold match_arm in E.
    destruct (match methods x with None => true | Some ms => bool_decide (method ∈ ms) end) eqn:Em; [|done].
    destruct (match_segs (pattern x) (rest x) segs None) as [i|] eqn:Es; [|done]. simpl in E.
    destruct (guarded x && _); [done|]. injection E as <-. exists x, i. split_and!; [by left|done|done|].
    destruct (methods x); [by apply bool_decide_eq_true in Em|done].
  - destruct (IH H) as (y & i & ? & ?). exists y, i. split; [by right|done].
Qed.

(** The arms of the open surface and the others. *)
Definition open_arms : list arm := take 5 arms.
Definition other_arms : list arm := drop 5 arms.

Lemma other_arms_closed x i : x ∈ other_arms -> act x i <> Open.
Proof.
  assert (Forall (fun x => act x i <> Open) other_arms) as H by (repeat constructor; discriminate).
  intros Hx. exact (proj1 (Forall_forall _ _) H x Hx).
Qed.

Definition open_segments (method : bytes) (segs : list bytes) : Prop :=
  segs = [[]] \/ segs = [str "health"] \/ segs = [str "_cluster"; str "health"] \/ segs = [str "ready"] \/
  (method = str "POST" /\ segs = [str "_rsearch"; str "login"]).

Lemma match_lits p segs o : match_segs (map Lit p) false segs None = Some o <-> segs = p /\ o = None.
Proof.
  revert segs; induction p as [|s p IH]; intros [|x segs]; simpl; try naive_solver.
  case_bool_decide as H; [subst; rewrite IH; naive_solver|naive_solver].
Qed.

(** Second path segments that name an operation on an index or an open or
    read-only endpoint. *)
Definition operation_segments : list bytes :=
  [str "_bulk"; str "_doc"; str "_create"; str "_update"; str "_delete_by_query"; str "_source";
   str "_search"; str "_count"; str "_mapping"; str "_refresh"; str "_settings"; str "login"; str "stats"].

(** An arm that cannot match [_rsearch] followed by anything but those. *)
Definition arm_spares (a : arm) : bool :=
  match pattern a with
  | [Index] => negb (rest a)
  | [Lit s] => negb (rest a) || negb (bool_decide (s = str "_rsearch"))
  | Index :: Lit t :: _ => bool_decide (t ∈ operation_segments)
  | Lit s :: Lit t :: _ => negb (bool_decide (s = str "_rsearch")) || bool_decide (t ∈ operation_segments)
  | _ => false
  end.

Lemma arm_spares_ok a x rest_ : arm_spares a = true -> x ∉ operation_segments ->
  match_segs (pattern a) (rest a) (str "_rsearch" :: x :: rest_) None = None.
Proof.
  unfold arm_spares. intros Ha Hx.
  destruct (pattern a) as [|[s| |] [|[t| |] p]]; try done; cbn [match_segs].
  - destruct (rest a); simpl in *; [|by destruct (bool_decide (s = _))].
    apply negb_true_iff in Ha. by rewrite Ha.
  - destruct (bool_decide (s = str "_rsearch")) eqn:Hs; [|done]. simpl in Ha.
    apply bool_decide_eq_true in Ha. rewrite bool_decide_false; [done|]. by intros ->.
  - by destruct (rest a).
  - apply bool_decide_eq_true in Ha. rewrite bool_decide_false; [done|]. by intros ->.
Qed.

Lemma first_arm_spares as_ method x rest_ : Forall (fun a => arm_spares a = true) as_ -> x ∉ operation_segments ->
  first_arm as_ method (str "_rsearch" :: x :: rest_) = Admin.
Proof.
  intros Hf Hx. induction Hf as [|a as_ Ha Hf IH]; [done|]. cbn [first_arm]. unfold match_arm.
  rewrite arm_spares_ok by done. by destruct (match methods a with None => true | Some ms => _ end).
Qed.

(** ** The claims *)

Section claims.
Context `{Pbkdf2} (token_digest : bytes -> bytes) (dummy : bytes).

(** [C18] While enforcement is on, a handler runs only for the open surface,
    or with an identity that is permitted the action the path classifies to
    and that is vouched for: by a cache entry no older than the TTL for a
    credential this request presents, or by the metastore's own answer for
    that credential (a session, an API key, a verified password). *)
Theorem require_authorised `{AuthBackend} now s method path h s' oi :
  enforced s = true -> require token_digest dummy now s method path h = (s', Run oi) ->
  (classify method path = Open /\ oi = None /\ s' = s) \/
  (exists i, oi = Some i /\ allowed (classify method path) i = true /\ vouched token_digest now s h i).
Proof.
  intros He. unfold require. rewrite He. cbn [negb].
  destruct (authenticate token_digest dummy now s h) as [s1 [[i|]|[]]] eqn:Ea.
  - apply authenticate_vouched in Ea.
    destruct (classify method path) eqn:Ec; [by intros [= <- <-]; left| | | |];
      (destruct (allowed _ i) eqn:Eal; intros [= <- <-]; right; eauto).
  - destruct (classify method path); [by intros [= <- <-]; left|done..].
  - destruct (classify method path); [by intros [= <- <-]; left|done..].
Qed.

(** A metastore failure is never reported as bad credentials: a 401 means
    that every token presented definitely missed (now, or within the negative
    TTL) and every password was checked against a row that was really read; a
    503 means some lookup failed; and the negative cache only ever gains a
    digest both lookups definitely missed in this very request. *)
Theorem outage_is_not_401 `{AuthBackend} now s method path h s' out :
  require token_digest dummy now s method path h = (s', out) ->
  negative_grows now s s' /\
  (out = Unauthorized ->
   (forall t, t ∈ presented_tokens h -> negatively_cached s now (token_digest t) \/
      (session_user (token_digest t) = Ok None /\ api_key_by_hash (token_digest t) = Ok None)) /\
   (forall u p, basic_credentials h = Some (u, p) -> exists o, get_user_by_name u = Ok o /\
      forall user, o = Some user -> verify_password p (password_hash user) = false)) /\
  (out = ServiceUnavailable ->
   (exists t, t ∈ presented_tokens h /\
      (session_user (token_digest t) = Err tt \/ api_key_by_hash (token_digest t) = Err tt)) \/
   (exists u p, basic_credentials h = Some (u, p) /\ get_user_by_name u = Err tt)).
Proof.
  unfold require. destruct (authenticate token_digest dummy now s h) as [s1 r] eqn:Ea.
  pose proof (authenticate_negative _ _ _ _ _ _ _ Ea) as [Hn _].
  assert (negative_grows now s s) as Hrefl by (intros ? ? ?; by left).
  intros Hr. assert ((s' = s /\ out = Run None) \/ (s' = s1 /\ out =
     match r with
     | Ok (Some i) => if allowed (classify method path) i then Run (Some i) else Forbidden (id_name i)
     | Ok None => Unauthorized | Err _ => ServiceUnavailable end)) as Hc.
  { destruct (classify method path), (negb (enforced s)), r as [[i|]|]; simpl in *;
      repeat case_match; injection Hr as <- <-; auto. }
  clear Hr. destruct Hc as [[-> ->]|[-> ->]]; [done|]. split; [done|]. split.
  - destruct r as [[i|]|]; [by destruct (allowed _ i)| |done]. intros _. by eapply authenticate_none.
  - destruct r as [[i|]|[]]; [by destruct (allowed _ i)|done|]. intros _. by eapply authenticate_error.
Qed.

(** The surface open without credentials is exactly the handshake, the
    health and readiness probes and the login; every path below
    [_rsearch] other than the login, the stats and the index operations
    needs an administrator, whatever the method. *)
Theorem open_surface method path :
  (classify method path = Open <-> open_segments method (segments path)) /\
  (forall x rest_, segments path = str "_rsearch" :: x :: rest_ -> x ∉ operation_segments ->
     classify method path = Admin).
Proof.
  unfold classify. generalize (segments path) as segs. intros segs. split.
  - split.
    + intros E. pose proof E as E'. apply first_arm_in in E' as (x & i & Hx & Hm & Ha & Hme); [|done].
      change arms with (open_arms ++ other_arms) in Hx. apply elem_of_app in Hx as [Hx|Hx];
        [|by exfalso; apply (other_arms_closed x i Hx)].
      unfold open_segments.
      assert (exists p, pattern x = map Lit p /\ rest x = false) as (p & Hp & Hr).
      { repeat (apply elem_of_cons in Hx as [-> |Hx]); [..|by apply elem_of_nil in Hx];
          [exists [[]]|exists [str "health"]|exists [str "_cluster"; str "health"]|exists [str "ready"]
          |exists [str "_rsearch"; str "login"]]; done. }
      rewrite Hp, Hr in Hm. apply match_lits in Hm as [-> _].
      repeat (apply elem_of_cons in Hx as [-> |Hx]); [..|by apply elem_of_nil in Hx];
        destruct p as [|? [|? [|? p]]]; inv_eq Hp; auto.
      do 4 right. split; [|done]. by apply list_elem_of_singleton in Hme.
    + intros [->|[->|[->|[->|[-> ->]]]]]; try reflexivity.
  - intros x rest_ -> Hx. apply first_arm_spares; [|done].
    repeat apply Forall_cons_2; try apply Forall_nil_2; by vm_compute.
Qed.

(** Enforcement fails closed: starting on, after any sequence of user
    counts it is off exactly when the last count that succeeded was zero. A
    failed count changes nothing. *)
Theorem enforcement_fails_closed counts :
  enforced (foldl refresh AuthState_default counts) = false <->
  exists before after, counts = before ++ Ok 0 :: after /\ Forall (fun c => is_ok c = false) after.
Proof.
  induction counts as [|c counts IH] using rev_ind; simpl.
  - split; [done|]. by intros ([] & ? & ? & _).
  - rewrite foldl_snoc. destruct c as [n|[]]; cbn [refresh enforced].
    + destruct (Z.eqb_spec n 0) as [->|Hn]; cbn [negb].
      * split; [|done]. intros _. exists counts, []. by split; [|apply Forall_nil_2].
      * split; [done|]. intros (before & after & E & Hf). destruct after as [|y after _] using rev_ind.
        -- apply app_inj_tail in E as [_ [=]]. done.
        -- rewrite app_comm_cons, app_assoc in E. apply app_inj_tail in E as [_ <-].
           apply Forall_app in Hf as [_ Hf]. inversion Hf; done.
    + rewrite IH. split.
      * intros (before & after & -> & Hf). exists before, (after ++ [Err tt]).
        split; [by rewrite <- app_assoc|]. apply Forall_app. split; [done|]. by constructor.
      * intros (before & after & E & Hf). destruct after as [|y after _] using rev_ind.
        -- by apply app_inj_tail in E as [_ [=]].
        -- rewrite app_comm_cons, app_assoc in E. apply app_inj_tail in E as [-> _].
           apply Forall_app in Hf as [Hf _]. eauto.
Qed.

(** The changes the handlers make to a node, in any order, with any of their
    statements failing. *)
Inductive handler_step (n : Node) : Node -> Prop :=
| step_put_user c w rng name pw r ss : handler_step n (put_user n c w rng name pw r ss).1
| step_delete_user w name : handler_step n (delete_user n w name).1
| step_create_key w secret name acts ss : handler_step n (create_api_key token_digest n w secret name acts ss).1
| step_delete_key w name : handler_step n (delete_api_key n w name).1
| step_login now r w token u p : handler_step n (login token_digest n now r w token u p).1
| step_stamp now hash : handler_step n (mkNode (auth n) (api_key_by_hash_row (db n) now hash).1).

Lemma handler_step_wf n n' : db_wf (db n) -> handler_step n n' -> db_wf (db n').
Proof.
  intros Hw [c w rng name pw r ss|w name|w secret name acts ss|w name|now r w token u p|now hash].
  - unfold put_user. repeat case_match; simplify_eq/=; try done.
    all: by eapply upsert_user_wf.
  - unfold delete_user. pose proof (delete_user_row_wf (db n) name Hw). by repeat case_match; simplify_eq/=.
  - unfold create_api_key. repeat case_match; simplify_eq/=; try done.
    all: by eapply create_api_key_row_wf.
  - unfold delete_api_key. pose proof (delete_api_key_row_wf (db n) name Hw). by repeat case_match; simplify_eq/=.
  - unfold login. repeat case_match; simplify_eq/=; try done.
    all: by eapply create_session_wf.
  - by apply api_key_by_hash_row_wf.
Qed.

(** The users, sessions and keys tables stay well formed under every
    handler: unique user names, key names and key hashes, valid roles, and no
    session of a user that does not exist. *)
Theorem auth_tables_wf n : rtc handler_step (mkNode AuthState_default empty_db) n -> db_wf (db n).
Proof.
  intros Hr. remember (mkNode AuthState_default empty_db) as n0 eqn:E0.
  assert (db_wf (db n0)) as Hw by (subst; apply empty_db_wf). clear E0.
  induction Hr as [|n0 n1 n2 Hs _ IH]; [done|]. by eapply IH, handler_step_wf.
Qed.

Lemma delete_user_row_gone d name i u : db_wf d -> (delete_user_row d name).2 = true ->
  users (delete_user_row d name).1 !! i = Some u -> username u <> name.
Proof.
  unfold delete_user_row. intros Hw. destruct (find_user d name) as [v|] eqn:E; [|done]. intros _. simpl.
  intros [Hne Eu]%lookup_delete_Some Hn. apply find_user_Some in E as [Ev Hv]; [|done].
  apply Hne. symmetry. eapply (wf_username _ Hw); [exact Eu|exact Ev|congruence].
Qed.

(** Deleting a user takes effect at once on this node, caches
    included: any identity a later request runs with comes from an API key
    or from another user's row, whichever lookups fail. *)
Theorem deleted_user_locked_out n name n' now down method path h s' i :
  db_wf (db n) -> delete_user n true name = (n', S200) ->
  require (H0 := db_backend (db n') now down) token_digest dummy now (auth n') method path h = (s', Run (Some i)) ->
  (exists k, i = key_identity k) \/ (exists u, i = user_identity u /\ username u <> name).
Proof.
  intros Hw. unfold delete_user. pose proof (delete_user_row_gone (db n) name) as Hgone.
  destruct (delete_user_row (db n) name) as [d []]; [|done]. intros [= <-]. cbn [db auth fst snd] in *.
  unfold require. destruct (authenticate _ _ _ _ _) as [s1 [[j|]|]] eqn:Ea.
  2,3: by destruct (classify method path), (negb (enforced (invalidate (auth n)))).
  apply authenticate_vouched in Ea. intros Hr.
  assert (i = j) as -> by (destruct (classify method path), (negb (enforced (invalidate (auth n)))); simpl in Hr; repeat case_match; congruence).
  destruct Ea as [t _ (at_ & E & _)|t u _ E ->|t k _ E ->|u p _ (at_ & E & _)|u p v _ E _ ->];
    cbn [invalidate cache] in *; try by rewrite lookup_empty in E.
  - right. exists u. split; [done|]. unfold session_user, db_backend in E. destruct (down QSession); [done|].
    injection E as E. unfold session_user_row in E. destruct (sessions d !! _) as [[uid ex]|]; [|done]. simpl in E.
    destruct (now <? ex); [|done]. by eapply Hgone.
  - left. by exists k.
  - right. exists v. split; [done|]. unfold get_user_by_name, db_backend in E. destruct (down QUser); [done|].
    injection E as E. unfold get_user in E. clear -E Hw Hgone.
    unfold find_user in E. destruct (filter _ _) as [|[k w] l] eqn:El; [done|]. injection E as ->.
    assert ((k, v) ∈ filter (fun p : Z * UserRecord => username p.2 = u) (map_to_list (users d))) as Hin
      by (rewrite El; by left).
    apply list_elem_of_filter in Hin as [_ Hin]. apply elem_of_map_to_list in Hin. by eapply Hgone.
Qed.

(** A user count that fails is read as zero, so the user being stored
    becomes an administrator whatever role was asked for, although other users
    exist. *)
Theorem put_user_count_outage n rng name pw r ss n' :
  put_user n false true rng name (Some pw) r ss = (n', S200) ->
  exists i u, users (db n') !! i = Some u /\ role u = str "admin".
Proof.
  unfold put_user. destruct (length pw <? 12)%nat; [done|]. change (0 =? 0) with true. cbv iota.
  rewrite bool_decide_true by auto. cbn [negb]. destruct (hash_password rng pw) as [hash|]; [|done].
  unfold upsert_user. rewrite bool_decide_true by auto.
  set (u := match find_user _ _ with Some _ => _ | None => _ end). intros [= <-].
  exists (user_id u), u. simpl. rewrite lookup_insert_eq. split; [done|].
  unfold u. by destruct (find_user (db n) name).
Qed.
End claims.

(** ** Concrete runs *)

Definition no_outage (q : query) : bool := false.
Definition demo_digest (t : bytes) : bytes := t.
Definition n0 : Node := mkNode AuthState_default empty_db.
Definition demo_password : bytes := str "correct horse battery".
Definition demo_salt : bytes := str "0123456789abcdef".
Definition n1 : Node :=
  (put_user (H := toy_pbkdf2) n0 true true (Some demo_salt) (str "alice") (Some demo_password) None None).1.
Definition n2 : Node :=
  (create_api_key demo_digest n1 true (Some (str "one")) (Some (str "shipper")) [str "ingest"] (Some [str "acme-*"])).1.
Definition with_key (k : string) : Headers := mkHeaders (Some (str "Bearer " ++ str k)) None.

Definition is_run (o : Outcome) : bool := match o with Run (Some _) => true | _ => false end.

(** A key scoped to [acme-*] may write there and nowhere else. *)
Definition demo_require (n : Node) (now : Z) (down : query -> bool) (method path k : string) : AuthState * Outcome :=
  require (H := toy_pbkdf2) (H0 := db_backend (db n) now down) demo_digest [] now (auth n) (str method) (str path) (with_key k).

Example scoped_key_allowed :
  match (demo_require n2 0 no_outage "POST" "/acme-logs/_bulk" "rsk_one").2 with
  | Run (Some i) => id_name i | _ => [] end = str "apikey:shipper".
Proof. vm_compute. reflexivity. Qed.
Example scoped_key_refused :
  (demo_require n2 0 no_outage "POST" "/other/_bulk" "rsk_one").2 = Forbidden (str "apikey:shipper").
Proof. vm_compute. reflexivity. Qed.
Example unknown_key : (demo_require n2 0 no_outage "POST" "/acme-x/_bulk" "nope").2 = Unauthorized.
Proof. vm_compute. reflexivity. Qed.
Example outage : (demo_require n2 0 (fun _ => true) "POST" "/acme-x/_bulk" "rsk_one").2 = ServiceUnavailable.
Proof. vm_compute. reflexivity. Qed.

Definition n2' : Node := mkNode (demo_require n2 0 no_outage "POST" "/acme-logs/_bulk" "rsk_one").1 (db n2).
Definition n3 : Node :=
  (create_api_key demo_digest n2' true (Some (str "two")) (Some (str "shipper")) [str "search"] (Some [str "acme-*"])).1.
(** Re-creating an API key under its name replaces the stored hash but
    leaves the caches alone: in this run the replaced secret still writes to
    the stream a second later, although the tables no longer know it (and the
    new key may only search). *)
Theorem replaced_key_still_cached :
  (api_key_by_hash_row (db n3) 1000 (str "rsk_one")).2 = None /\
  is_run (demo_require n3 1000 no_outage "POST" "/acme-logs/_bulk" "rsk_one").2 = true.
Proof. split; by vm_compute. Qed.

Lemma n2_enforced : enforced (auth n2) = true.
Proof. by vm_compute. Qed.
Lemma run_pair (p : AuthState * Outcome) : is_run p.2 = true -> exists i, p = (p.1, Run (Some i)).
Proof. destruct p as [s [[i|]| | |]]; try done. intros _. by exists i. Qed.
Lemma demo_run : exists i, demo_require n2 0 no_outage "POST" "/acme-logs/_bulk" "rsk_one" =
  ((demo_require n2 0 no_outage "POST" "/acme-logs/_bulk" "rsk_one").1, Run (Some i)).
Proof. apply run_pair. by vm_compute. Qed.
Lemma demo_miss : demo_require n2 0 no_outage "POST" "/acme-x/_bulk" "nope" =
  ((demo_require n2 0 no_outage "POST" "/acme-x/_bulk" "nope").1, Unauthorized).
Proof. rewrite <- unknown_key. apply surjective_pairing. Qed.
Lemma demo_classify : classify (str "POST") (str "/acme-logs/_bulk") = AIngest (Some (str "acme-logs")).
Proof. by vm_compute. Qed.

Lemma require_authorised_witness :
  exists i, allowed (AIngest (Some (str "acme-logs"))) i = true /\
    vouched (H := toy_pbkdf2) (H0 := db_backend (db n2) 0 no_outage) demo_digest 0 (auth n2) (with_key "rsk_one") i.
Proof.
  destruct demo_run as [j Hj]. rewrite <- demo_classify.
  destruct (@require_authorised toy_pbkdf2 demo_digest [] (db_backend (db n2) 0 no_outage) 0 (auth n2)
    (str "POST") (str "/acme-logs/_bulk") (with_key "rsk_one") _ _ n2_enforced Hj) as [(E & _)|(i & _ & Ha & Hv)].
  - rewrite demo_classify in E. done.
  - by exists i.
Defined.

Lemma outage_is_not_401_witness :
  negatively_cached (auth n2) 0 (str "nope") \/ session_user_row (db n2) 0 (str "nope") = None.
Proof.
  destruct (@outage_is_not_401 toy_pbkdf2 demo_digest [] (db_backend (db n2) 0 no_outage) 0 (auth n2)
    (str "POST") (str "/acme-x/_bulk") (with_key "nope") _ _ demo_miss) as (_ & H & _).
  destruct (H eq_refl) as [H1 _]. destruct (H1 (str "nope") ltac:(by left)) as [?|[E _]]; [by left|right]. change (Ok (session_user_row (db n2) 0 (str "nope")) = (Ok None : result unit (option UserRecord))) in E. exact (f_equal (fun r : result unit (option UserRecord) => match r with Ok o => o | Err _ => None end) E).
Defined.

Lemma auth_tables_wf_witness : db_wf (db n2).
Proof.
  apply (@auth_tables_wf toy_pbkdf2 demo_digest).
  apply (rtc_l _ n0 n1); [apply (step_put_user (H := toy_pbkdf2) demo_digest n0)|].
  apply (rtc_l _ n1 n2); [apply (step_create_key (H := toy_pbkdf2) demo_digest n1)|].
  apply rtc_refl.
Defined.

Lemma demo_deleted : delete_user n2 true (str "alice") = ((delete_user n2 true (str "alice")).1, S200).
Proof.
  assert ((delete_user n2 true (str "alice")).2 = S200) as <- by by vm_compute. apply surjective_pairing.
Qed.
Definition after_delete : AuthState * Outcome :=
  demo_require (delete_user n2 true (str "alice")).1 0 no_outage "POST" "/acme-logs/_bulk" "rsk_one".
Lemma demo_after : exists i, after_delete = (after_delete.1, Run (Some i)).
Proof. apply run_pair. by vm_compute. Qed.

Lemma deleted_user_locked_out_witness :
  exists s' i, after_delete = (s', Run (Some i)) /\
    ((exists k, i = key_identity k) \/ (exists u, i = user_identity u /\ username u <> str "alice")).
Proof.
  destruct demo_after as [i Ei]. exists after_delete.1, i. split; [exact Ei|].
  exact (@deleted_user_locked_out toy_pbkdf2 demo_digest [] n2 (str "alice") _ 0 no_outage
    _ _ _ _ _ auth_tables_wf_witness demo_deleted Ei).
Defined.

Lemma put_user_count_outage_witness :
  let n' := (put_user (H := toy_pbkdf2) n1 false true (Some demo_salt) (str "bob") (Some demo_password) (Some (str "user")) None).1 in
  count_users (db n1) = 1 /\ exists i u, users (db n') !! i = Some u /\ role u = str "admin".
Proof.
  cbv zeta. split; [by vm_compute|].
  apply (@put_user_count_outage toy_pbkdf2 n1 (Some demo_salt) (str "bob") demo_password (Some (str "user")) None).
  reflexivity.
Defined.
