(* ===== verification/Utf8.v ===== *)
(** * Text as a sequence of scalars

    [str] is valid UTF-8: a list of well-formed scalars.  Slicing, taking one
    [char] and appending keep it so. *)

From Stdlib Require Import ZArith Lia.
From Stdlib Require Import Strings.Byte.
From stdpp Require Import base list strings.
From S2P Require Import Prelude.

Local Open Scope Z_scope.

(** The bytes of one [char]. *)
Definition scalar (c : bytes) : Prop := c <> [] /\ utf8_head c = (length c, true).
Inductive text : bytes -> Prop :=
| text_nil : text []
| text_cons c l : scalar c -> text l -> text (c ++ l).
#[export] Hint Constructors text : utf8.

Lemma utf8_head_width l n : utf8_head l = (n, true) -> (n <= length l)%nat /\ (l <> [] -> (0 < n)%nat).
Proof.
  unfold utf8_head. intros H. repeat case_match; simplify_eq/=; split; try lia; done.
Qed.
Lemma utf8_head_take l n : utf8_head l = (n, true) -> utf8_head (take n l) = (n, true).
Proof.
  intros H. destruct l as [|a l]; [by injection H as <-|]. unfold utf8_head in H.
  destruct (utf8_width (bz a)) as [|[|[|[|[|w]]]]] eqn:Ew; repeat case_match; simplify_eq/=; rewrite ?Ew;
    repeat match goal with E : _ = true |- _ => rewrite E; clear E end; done.
Qed.
Lemma utf8_head_app c l : scalar c -> utf8_head (c ++ l) = (length c, true).
Proof.
  intros [Hne H]. destruct c as [|a [|b [|b1 [|b2 c]]]]; [done|..]; unfold utf8_head in *; cbn [app length] in *;
    repeat (case_match; simplify_eq/=; try done).
Qed.
Lemma scalar_take l n : l <> [] -> utf8_head l = (n, true) -> scalar (take n l).
Proof.
  intros Hne H. pose proof (utf8_head_width _ _ H) as [Hle Hpos]. specialize (Hpos Hne). split.
  - destruct l, n; try done; lia.
  - rewrite (utf8_head_take _ _ H), length_take. f_equal. lia.
Qed.

Lemma text_valid_fuel f l : utf8_valid_fuel f l = true -> text l.
Proof.
  revert l; induction f as [|f IH]; intros [|a r]; try done; [constructor..|]. cbn [utf8_valid_fuel].
  destruct (utf8_head (a :: r)) as [n ok] eqn:E. intros [-> H]%andb_true_iff.
  rewrite <- (take_drop n (a :: r)). constructor; [by apply scalar_take|by apply IH].
Qed.
Lemma text_valid l f : text l -> (length l <= f)%nat -> utf8_valid_fuel f l = true.
Proof.
  intros H. revert f; induction H as [|c l Hc Hl IH]; intros f Hf; [by destruct f|]. pose proof Hc as [Hne _].
  destruct (c ++ l) as [|a r] eqn:E; [by destruct f|]. destruct f as [|f]; [cbn in Hf; lia|]. cbn [utf8_valid_fuel]. rewrite <- E in *.
  rewrite utf8_head_app by done. cbn [andb]. rewrite drop_app_length. apply IH. rewrite length_app in Hf. destruct c; [done|]. cbn in Hf. lia.
Qed.
Lemma utf8_text l : utf8_valid l = true <-> text l.
Proof. split; [apply text_valid_fuel|]. intros H. by apply text_valid. Qed.

Lemma text_app a b : text a -> text b -> text (a ++ b).
Proof. induction 1 as [|c l Hc Hl IH]; [done|]. intros Hb. rewrite <- app_assoc. constructor; auto. Qed.
Lemma text_drop c l : scalar c -> text (c ++ l) -> text l.
Proof.
  intros Hc H. inversion H as [E|c' l' Hc' Hl' E]; [by destruct c; [destruct Hc|]|].
  pose proof (utf8_head_app c l Hc) as E1. rewrite <- E, utf8_head_app in E1 by done. injection E1 as E1.
  assert (c' = c /\ l' = l) as [_ ->]; [|done]. apply app_inj_1; [done|]. by rewrite E.
Qed.

Definition ascii_byte (b : byte) : Prop := bz b <= 0x7F.
Lemma scalar_ascii b : ascii_byte b -> scalar [b].
Proof.
  unfold ascii_byte, scalar, utf8_head, utf8_width, in_rng. intros H. split; [done|]. pose proof (bz_range b).
  by rewrite (proj2 (Z.leb_le 0 (bz b))), (proj2 (Z.leb_le (bz b) 0x7F)) by lia.
Qed.
Lemma scalar_wide c : scalar c -> (exists b, c = [b] /\ ascii_byte b) \/ Forall (fun b => 0x7F < bz b) c.
Proof.
  intros [Hne H]. destruct c as [|a c]; [done|]. unfold utf8_head, utf8_width in H.
  assert (forall b, is_cont b = true -> 0x7F < bz b) as Hcont.
  { unfold is_cont, in_rng. intros b [?%Z.leb_le _]%andb_true_iff. lia. }
  assert (forall b x, utf8_second_ok x (bz b) = true -> 0x7F < bz b) as Hsec.
  { unfold utf8_second_ok, in_rng. intros b x Hb. repeat case_match; apply andb_true_iff in Hb as [?%Z.leb_le _]; lia. }
  destruct (in_rng (bz a) 0 127) eqn:E1.
  { left. injection H as Hl. destruct c; [|done]. exists a. split; [done|]. unfold in_rng in E1. apply andb_true_iff in E1 as [_ ?%Z.leb_le].
    unfold ascii_byte. lia. }
  right. assert (0x7F < bz a).
  { unfold in_rng in E1. apply andb_false_iff in E1. pose proof (bz_range a). destruct E1 as [E1%Z.leb_gt|E1%Z.leb_gt]; lia. }
  repeat case_match; simplify_eq/=; repeat match goal with H : 0%nat = length ?l |- _ => symmetry in H; apply nil_length_inv in H; subst end; repeat constructor; eauto.
Qed.
Lemma text_ascii l : Forall ascii_byte l -> text l.
Proof. induction 1; [constructor|]. by apply (text_cons [x]); [apply scalar_ascii|]. Qed.
Lemma text_ascii_tail b l : ascii_byte b -> text (b :: l) -> text l.
Proof. intros Hb. apply (text_drop [b]). by apply scalar_ascii. Qed.
(** A text that starts with an ASCII byte, and one that does not. *)
Lemma text_head b l : text (b :: l) -> is_cont b = false.
Proof.
  intros H. inversion H as [|c l' [Hne Hc] _ E]. destruct c as [|a c]; [done|]. simplify_eq/=. unfold utf8_head, utf8_width in Hc.
  destruct (is_cont b) eqn:Eb; [|done]. exfalso. unfold is_cont, in_rng in Eb. apply andb_true_iff in Eb as [?%Z.leb_le ?%Z.leb_le].
  assert (in_rng (bz b) 0 127 = false) as E0 by (unfold in_rng; apply andb_false_iff; right; apply Z.leb_gt; lia).
  assert (forall lo hi, 0xBF < lo -> in_rng (bz b) lo hi = false) as E1 by (intros; unfold in_rng; apply andb_false_iff; left; apply Z.leb_gt; lia).
  rewrite E0, !E1 in Hc by lia. done.
Qed.

(** *** Cutting a text *)

Lemma ascii_not_cont b : ascii_byte b -> is_cont b = false.
Proof. unfold ascii_byte, is_cont, in_rng. intros H. apply andb_false_iff. left. apply Z.leb_gt. lia. Qed.
Lemma second_cont a b : utf8_second_ok a (bz b) = true -> is_cont b = true.
Proof.
  unfold utf8_second_ok, is_cont, in_rng. intros H. apply andb_true_iff. rewrite !Z.leb_le.
  repeat case_match; apply andb_true_iff in H as [?%Z.leb_le ?%Z.leb_le]; lia.
Qed.
Lemma scalar_tail h t : scalar (h :: t) -> Forall (fun b => is_cont b = true) t.
Proof.
  intros [_ H]. unfold utf8_head in H. destruct t as [|b t]; [constructor|].
  repeat case_match; simplify_eq/=; repeat match goal with H : 0%nat = length ?l |- _ => symmetry in H; apply nil_length_inv in H; subst end;
    repeat constructor; eauto using second_cont.
Qed.
(** A text may be cut before any byte that starts a [char]. *)
Definition starts_char (l : bytes) : Prop := match l with [] => True | b :: _ => is_cont b = false end.
Lemma text_starts l : text l -> starts_char l.
Proof. destruct l as [|b l]; [done|]. apply text_head. Qed.
Lemma text_cut a b : text (a ++ b) -> starts_char b -> text a /\ text b.
Proof.
  intros H. remember (a ++ b) as l eqn:E. revert a E. induction H as [|c l Hc Hl IH]; intros a E Hb.
  { symmetry in E. apply app_nil in E as [-> ->]. split; constructor. }
  destruct a as [|x a]; [cbn in E; subst b; split; [constructor|by constructor]|].
  symmetry in E. apply app_eq_inv in E as [(k & E1 & E2)|(k & E1 & E2)].
  - rewrite E1. destruct (IH k E2 Hb) as [Hk ?]. split; [by constructor|done].
  - destruct k as [|y k].
    { rewrite app_nil_r in E1. cbn in E2. subst. split; [|done]. rewrite <- (app_nil_r (x :: a)). apply text_cons; [done|constructor]. }
    exfalso. subst. cbn in Hb. apply scalar_tail in Hc. apply Forall_app in Hc as [_ Hc]. apply Forall_cons in Hc as [Hc _]. congruence.
Qed.
Lemma text_cut_ascii a c r : ascii_byte c -> text (a ++ c :: r) -> text a /\ text r.
Proof. intros Hc H. apply text_cut in H as [Ha H]; [|by apply ascii_not_cont]. split; [done|by apply text_ascii_tail in H]. Qed.

(** *** [trim] keeps a text *)

Lemma ws_head l : (0 < ws_width l)%nat -> utf8_head l = (ws_width l, true) /\ starts_char l.
Proof.
  destruct l as [|a l]; [cbn; lia|]. unfold ws_width, utf8_head, starts_char, is_cont. intros H.
  pose proof (bz_range a). unfold utf8_width, utf8_second_ok, in_rng.
  repeat match type of H with context [if ?b then _ else _] => destruct b eqn:?; try lia | context [match ?l with [] => _ | _ :: _ => _ end] => destruct l; try lia end.
  all: repeat match goal with
    | E : (_ || _) = true |- _ => apply orb_true_iff in E as [E|E]
    | E : (_ && _) = true |- _ => apply andb_true_iff in E as [? ?]
    | E : (_ =? _) = true |- _ => apply Z.eqb_eq in E; rewrite ?E in *
    | E : (_ <=? _) = true |- _ => apply Z.leb_le in E end; cbn;
    try (rewrite (proj2 (Z.leb_le 0 _)), (proj2 (Z.leb_le _ 127)) by lia; cbn; rewrite (proj2 (Z.leb_gt 128 _)) by lia; done);
    try done.
  all: split; [|done]; unfold is_cont, in_rng; rewrite !(proj2 (Z.leb_le _ _)) by lia; done.
Qed.
Lemma text_take_head l n : text l -> utf8_head l = (n, true) -> text (drop n l).
Proof.
  intros H. destruct H as [|c l Hc Hl]; [intros [= <-]; constructor|]. rewrite utf8_head_app by done. intros [= <-]. by rewrite drop_app_length.
Qed.
Lemma text_trim_start l : text l -> text (trim_start l).
Proof.
  unfold trim_start. generalize (length l) as f. intros f. revert l. induction f as [|f IH]; intros l H; [done|]. cbn [trim_start_fuel].
  destruct (ws_width l) as [|n] eqn:E; [done|]. apply IH. apply text_take_head; [done|]. rewrite <- E. apply ws_head. lia.
Qed.
Lemma ws_width_end_cut l : (0 < ws_width_end l)%nat -> (0 < ws_width (drop (length l - ws_width_end l) l))%nat.
Proof.
  unfold ws_width_end. intros H. repeat match type of H with context [if ?b then _ else _] => destruct b eqn:? end; try lia;
    repeat match goal with E : (_ && _) = true |- _ => apply andb_true_iff in E as [E%Nat.eqb_eq _] end; lia.
Qed.
Lemma text_trim l : text l -> text (trim l).
Proof.
  intros H. unfold trim. apply text_trim_start in H. revert H. generalize (trim_start l) as m. intros m. generalize (length m) as f. intros f.
  revert m. induction f as [|f IH]; intros m H; [done|]. cbn [trim_end_fuel]. destruct (ws_width_end m) as [|n] eqn:E; [done|]. apply IH.
  rewrite <- (take_drop (length m - S n)%nat m) in H. apply text_cut in H; [by destruct H|]. rewrite <- E. apply ws_head, ws_width_end_cut. lia.
Qed.

(** [from_utf8_lossy] gives a text. *)
Lemma lossy_text l : text (utf8_lossy l).
Proof.
  unfold utf8_lossy. generalize (length l) as f. intros f. revert l. induction f as [|f IH]; intros [|a r]; try constructor. cbn [utf8_lossy_fuel].
  destruct (utf8_head (a :: r)) as [n ok] eqn:E. destruct ok; apply text_cons; [by apply scalar_take|apply IH|by split|apply IH].
Qed.

(** *** Characters [trim] leaves alone *)

Definition graphic (b : byte) : Prop := 0x21 <= bz b <= 0x7E.
Lemma ws_graphic b l : graphic b -> ws_width (b :: l) = 0%nat.
Proof.
  unfold graphic, ws_width. intros H. rewrite (proj2 (Z.leb_gt (bz b) 13)), (proj2 (Z.eqb_neq (bz b) 32)), andb_false_r by lia. cbn [orb].
  destruct l as [|c l]; [done|]. rewrite (proj2 (Z.eqb_neq (bz b) 194)) by lia. cbn [andb]. destruct l as [|d l]; [done|].
  by rewrite (proj2 (Z.eqb_neq (bz b) 225)), (proj2 (Z.eqb_neq (bz b) 226)), (proj2 (Z.eqb_neq (bz b) 227)) by lia.
Qed.
Lemma trim_start_graphic b l : graphic b -> trim_start (b :: l) = b :: l.
Proof. intros H. unfold trim_start. cbn [length trim_start_fuel]. by rewrite ws_graphic. Qed.
Lemma graphic_suffix k l : Forall graphic l -> ws_width (drop k l) = 0%nat.
Proof. intros H. pose proof (Forall_drop _ k _ H) as Hd. destruct (drop k l) as [|b r]; [done|]. apply Forall_cons in Hd as [Hb _]. by apply ws_graphic. Qed.
Lemma trim_graphic l : Forall graphic l -> trim l = l.
Proof.
  intros H. unfold trim. assert (trim_start l = l) as ->.
  { destruct l as [|b l]; [done|]. apply Forall_cons in H as [Hb _]. by apply trim_start_graphic. }
  destruct l as [|b l]; [done|]. cbn [length trim_end_fuel]. assert (ws_width_end (b :: l) = 0%nat) as ->; [|done].
  unfold ws_width_end. by rewrite !graphic_suffix by done.
Qed.
