(* ===== verification/Json.v ===== *)
(** * JSON values as [serde_json::Value] has them

    Without the [preserve_order] feature an object is a [BTreeMap]: its members
    are sorted by key and keys are unique; [obj_insert] keeps that form. A
    float is its 64 IEEE bits: no component computes with one. *)

From Stdlib Require Import ZArith Lia.
From Stdlib Require Import Strings.Byte.
From stdpp Require Import base gmap sets list strings sorting.
From S2P Require Import Prelude.

Local Open Scope Z_scope.

Inductive number := PosInt (n : Z) | NegInt (n : Z) | Float (bits : Z).
#[export] Instance number_eq_dec : EqDecision number.
Proof. solve_decision. Defined.

Inductive json :=
| Null
| Bool (b : bool)
| Number (n : number)
| JString (s : bytes)
| Array (l : list json)
| Object (o : list (bytes * json)).

Fixpoint json_eqb (a b : json) : bool :=
  match a, b with
  | Null, Null => true
  | Bool a, Bool b => Bool.eqb a b
  | Number a, Number b => bool_decide (a = b)
  | JString a, JString b => bool_decide (a = b)
  | Array a, Array b =>
      (fix eqs (a b : list json) :=
         match a, b with
         | [], [] => true
         | x :: a, y :: b => json_eqb x y && eqs a b
         | _, _ => false
         end) a b
  | Object a, Object b =>
      (fix eqs (a b : list (bytes * json)) :=
         match a, b with
         | [], [] => true
         | (k, x) :: a, (l, y) :: b => bool_decide (k = l) && json_eqb x y && eqs a b
         | _, _ => false
         end) a b
  | _, _ => false
  end.

Section json_induction.
Variable P : json -> Prop.
Hypothesis HNull : P Null.
Hypothesis HBool : forall b, P (Bool b).
Hypothesis HNumber : forall n, P (Number n).
Hypothesis HString : forall s, P (JString s).
Hypothesis HArray : forall l, Forall P l -> P (Array l).
Hypothesis HObject : forall o, Forall (fun kv => P kv.2) o -> P (Object o).

Fixpoint json_nested_ind (j : json) : P j :=
  match j with
  | Null => HNull
  | Bool b => HBool b
  | Number n => HNumber n
  | JString s => HString s
  | Array l => HArray l
      ((fix all (l : list json) : Forall P l :=
          match l with
          | [] => Forall_nil_2 _
          | x :: l => Forall_cons_2 _ _ _ (json_nested_ind x) (all l)
          end) l)
  | Object o => HObject o
      ((fix all (o : list (bytes * json)) : Forall (fun kv => P kv.2) o :=
          match o with
          | [] => Forall_nil_2 _
          | kv :: o => Forall_cons_2 _ _ _ (json_nested_ind kv.2) (all o)
          end) o)
  end.
End json_induction.

Lemma json_eqb_spec a b : json_eqb a b = true <-> a = b.
Proof.
  revert b; induction a as [|b1|n|s|l IH|o IH] using json_nested_ind; intros [|b2|n2|s2|l2|o2]; simpl; try done.
  - rewrite Bool.eqb_true_iff. split; congruence.
  - rewrite bool_decide_eq_true. split; congruence.
  - rewrite bool_decide_eq_true. split; congruence.
  - transitivity (l = l2); [|split; congruence].
    revert l2; induction IH as [|x l Hx _ IH]; intros [|y l2]; try done.
    rewrite andb_true_iff, Hx, IH. split; [by intros [-> ->]|by intros [= -> ->]].
  - transitivity (o = o2); [|split; congruence].
    revert o2; induction IH as [|[k x] o Hx _ IH]; intros [|[k2 y] o2]; try done.
    simpl in Hx. rewrite !andb_true_iff, bool_decide_eq_true, Hx, IH.
    split; [by intros [[-> ->] ->]|by intros [= -> -> ->]].
Qed.

#[export] Instance json_eq_dec : EqDecision json := fun a b =>
  match json_eqb a b as e return json_eqb a b = e -> Decision (a = b) with
  | true => fun H => left (proj1 (json_eqb_spec a b) H)
  | false => fun H => right (fun E => Bool.diff_true_false (eq_trans (eq_sym (proj2 (json_eqb_spec a b) E)) H))
  end eq_refl.

(** [Value::get] with a string key, and the accessors. *)
Fixpoint assoc (k : bytes) (o : list (bytes * json)) : option json :=
  match o with
  | [] => None
  | (k', v) :: o => if decide (k = k') then Some v else assoc k o
  end.
Definition get (j : json) (k : bytes) : option json :=
  match j with Object o => assoc k o | _ => None end.
Definition as_str (j : json) : option bytes := match j with JString s => Some s | _ => None end.
Definition as_bool (j : json) : option bool := match j with Bool b => Some b | _ => None end.
Definition as_array (j : json) : option (list json) := match j with Array l => Some l | _ => None end.
Definition as_object (j : json) : option (list (bytes * json)) := match j with Object o => Some o | _ => None end.
Definition is_null (j : json) : bool := match j with Null => true | _ => false end.
Definition as_i64 (j : json) : option Z :=
  match j with
  | Number (PosInt n) => if (n <=? I64_MAX) then Some n else None
  | Number (NegInt n) => Some n
  | _ => None
  end.
Definition as_u64 (j : json) : option Z :=
  match j with Number (PosInt n) => Some n | _ => None end.

(** Byte-wise order of keys: [str]'s [Ord]. *)
Fixpoint bytes_ltb (a b : bytes) : bool :=
  match a, b with
  | [], _ :: _ => true
  | _, [] => false
  | x :: a, y :: b => (bz x <? bz y) || ((bz x =? bz y) && bytes_ltb a b)
  end.

(** [BTreeMap::insert]. *)
Fixpoint obj_insert (k : bytes) (v : json) (o : list (bytes * json)) : list (bytes * json) :=
  match o with
  | [] => [(k, v)]
  | (k', v') :: o' =>
      if decide (k = k') then (k, v) :: o'
      else if bytes_ltb k k' then (k, v) :: o else (k', v') :: obj_insert k v o'
  end.

Lemma assoc_insert k v o : assoc k (obj_insert k v o) = Some v.
Proof.
  induction o as [|[k' v'] o IH]; simpl; [by rewrite decide_True|].
  destruct (decide (k = k')); [simpl; by rewrite decide_True|].
  destruct (bytes_ltb k k'); simpl; [by rewrite decide_True|by rewrite decide_False].
Qed.

Lemma assoc_insert_ne k l v o : k <> l -> assoc k (obj_insert l v o) = assoc k o.
Proof.
  intros Hn. induction o as [|[k' v'] o IH]; simpl; [by rewrite decide_False|].
  destruct (decide (l = k')) as [<-|]; [simpl; by rewrite decide_False by done; rewrite decide_False|].
  destruct (bytes_ltb l k'); simpl; [by rewrite decide_False|].
  by destruct (decide (k = k')).
Qed.
