(* ===== verification/Metastore.v ===== *)
(** * The metastore's streams, splits and tombstones
    (crates/rsearch-metastore: metastore.rs, control.rs, tombstones.rs,
    types.rs)

    The tables are maps, a statement is a function on them, a transaction one
    function. [now] is the database clock in milliseconds. Columns no other
    statement reads ([streams.updated_at]) are left out. Where a query leaves
    the order of ties open the model picks one. *)

From Stdlib Require Import ZArith Lia.
From Stdlib Require Import Strings.Byte.
From stdpp Require Import base gmap sets list strings sorting.
From S2P Require Import Prelude Json.

Local Open Scope Z_scope.

(** ** Rows (types.rs and the migrations) *)

Inductive SplitState := Staged | Published | MarkedForDelete.
#[export] Instance split_state_eq_dec : EqDecision SplitState.
Proof. solve_decision. Defined.

Definition state_as_str (s : SplitState) : bytes :=
  match s with
  | Staged => str "staged" | Published => str "published" | MarkedForDelete => str "marked_for_delete"
  end.
Definition state_from_str (s : bytes) : result bytes SplitState :=
  if decide (s = str "staged") then Ok Staged
  else if decide (s = str "published") then Ok Published
  else if decide (s = str "marked_for_delete") then Ok MarkedForDelete
  else Err (str "unknown split state '" ++ s ++ str "'").

Inductive StreamMode := Log | Document.
#[export] Instance stream_mode_eq_dec : EqDecision StreamMode.
Proof. solve_decision. Defined.
Definition mode_as_str (m : StreamMode) : bytes :=
  match m with Log => str "log" | Document => str "document" end.
Definition mode_parse (s : bytes) : option StreamMode :=
  if decide (s = str "log") then Some Log
  else if decide (s = str "document") then Some Document else None.

Record StreamRecord := mkStream {
  st_id : Z; st_name : bytes; mapping : json; retention_hours : option Z; st_mode : bytes;
  deleted : bool;  (** [deleted_at IS NOT NULL] *)
}.
Definition record_mode (r : StreamRecord) : StreamMode := default Log (mode_parse (st_mode r)).
Definition is_document_mode (r : StreamRecord) : bool := bool_decide (record_mode r = Document).

(** What [stage_split] is given. *)
Record NewSplit := mkNewSplit {
  ns_split_id : bytes; ns_stream_id : Z; ns_storage_key : bytes; ns_doc_count : Z; ns_size_bytes : Z;
  ns_time_start : Z; ns_time_end : Z; ns_footer_len : Z; ns_created_by : option bytes;
  ns_seq_min : option Z; ns_seq_max : option Z; ns_tombstone_seq_applied : Z; ns_schema_version : Z;
  ns_dynamic_fields : option json;
}.
Record SplitRecord := mkSplit {
  sp_id : Z; sp_state : SplitState; sp_new : NewSplit;
  sp_applied : Z;                    (** [tombstone_seq_applied] *)
  sp_fields : option json;           (** [dynamic_fields] *)
  sp_created_at : Z; sp_updated_at : Z;
}.
Definition sp_split_id (s : SplitRecord) : bytes := ns_split_id (sp_new s).
Definition sp_stream (s : SplitRecord) : Z := ns_stream_id (sp_new s).

Record Tombstone := mkTombstone { t_seq : Z; t_before_seq : Z; t_created_at : Z }.

Record Metastore := mkMeta {
  m_streams : gmap Z StreamRecord;          (** by id *)
  m_splits : gmap bytes SplitRecord;        (** by split_id, UNIQUE *)
  m_tombstones : gmap (Z * bytes) Tombstone; (** by (stream_id, doc_id), UNIQUE *)
  m_next_stream : Z; m_next_split : Z; m_next_tombstone : Z;
}.
Definition empty_metastore : Metastore := mkMeta ∅ ∅ ∅ 1 1 1.

Inductive MetastoreError :=
| StreamNotFound (name : bytes)
| StreamModeFixed (name : bytes)
| SplitStateConflict (split_id : bytes)
| Database.

Definition set_streams (f : gmap Z StreamRecord -> gmap Z StreamRecord) (d : Metastore) : Metastore :=
  mkMeta (f (m_streams d)) (m_splits d) (m_tombstones d) (m_next_stream d) (m_next_split d) (m_next_tombstone d).
Definition set_splits (f : gmap bytes SplitRecord -> gmap bytes SplitRecord) (d : Metastore) : Metastore :=
  mkMeta (m_streams d) (f (m_splits d)) (m_tombstones d) (m_next_stream d) (m_next_split d) (m_next_tombstone d).
Definition set_state (st : SplitState) (now : Z) (s : SplitRecord) : SplitRecord :=
  mkSplit (sp_id s) st (sp_new s) (sp_applied s) (sp_fields s) (sp_created_at s) now.

(** [ORDER BY key]. *)
Definition key_le {A} (key : A -> Z) (a b : A) : Prop := key a <= key b.
#[export] Instance key_le_dec {A} (key : A -> Z) : RelDecision (key_le key).
Proof. unfold key_le. intros a b. apply _. Defined.
Definition order_by {A} (key : A -> Z) (l : list A) : list A := merge_sort (key_le key) l.
Definition limit {A} (n : Z) (l : list A) : list A := take (Z.to_nat n) l.
Definition split_rows (d : Metastore) : list SplitRecord := (map_to_list (m_splits d)).*2.

(** ** Streams *)

Definition find_stream (d : Metastore) (name : bytes) : option StreamRecord :=
  snd <$> head (filter (fun p : Z * StreamRecord => st_name p.2 = name) (map_to_list (m_streams d))).

(** [INSERT ... ON CONFLICT (name) DO UPDATE SET updated_at]: the row as it
    is, or a new one; the sequence advances either way. *)
Definition ensure_stream_with_mode (d : Metastore) (name : bytes) (mode : StreamMode) : Metastore * StreamRecord :=
  match find_stream d name with
  | Some r => (mkMeta (m_streams d) (m_splits d) (m_tombstones d) (m_next_stream d + 1) (m_next_split d) (m_next_tombstone d), r)
  | None =>
      let r := mkStream (m_next_stream d) name (Object []) None (mode_as_str mode) false in
      (mkMeta (<[st_id r := r]> (m_streams d)) (m_splits d) (m_tombstones d) (m_next_stream d + 1) (m_next_split d) (m_next_tombstone d), r)
  end.
Definition ensure_stream (d : Metastore) (name : bytes) : Metastore * StreamRecord :=
  ensure_stream_with_mode d name Log.

Definition get_stream (d : Metastore) (name : bytes) : result MetastoreError StreamRecord :=
  match find_stream d name with
  | Some r => if deleted r then Err (StreamNotFound name) else Ok r
  | None => Err (StreamNotFound name)
  end.
Definition get_stream_by_id (d : Metastore) (id : Z) : result MetastoreError StreamRecord :=
  ok_or (m_streams d !! id) (StreamNotFound (str "id=" ++ dec_i id)).

Definition update_by_name (d : Metastore) (name : bytes) (f : StreamRecord -> StreamRecord) : option Metastore :=
  r ← find_stream d name; Some (set_streams (<[st_id r := f r]>) d).

Definition with_mapping (m : json) (r : StreamRecord) : StreamRecord :=
  mkStream (st_id r) (st_name r) m (retention_hours r) (st_mode r) (deleted r).

Definition update_stream_mapping (d : Metastore) (name : bytes) (m : json) : result MetastoreError Metastore :=
  ok_or (update_by_name d name (with_mapping m)) (StreamNotFound name).

(** Compare-and-set. *)
Definition update_stream_mapping_if (d : Metastore) (name : bytes) (expected m : json) : Metastore * bool :=
  match find_stream d name with
  | Some r =>
      if negb (deleted r) && bool_decide (mapping r = expected)
      then (set_streams (<[st_id r := with_mapping m r]>) d, true) else (d, false)
  | None => (d, false)
  end.

Definition holds_splits (d : Metastore) (id : Z) : bool := existsb (fun s => sp_stream s =? id) (split_rows d).

Definition set_stream_mode (d : Metastore) (name : bytes) (mode : StreamMode) : result MetastoreError Metastore :=
  match find_stream d name with
  | Some r =>
      if holds_splits d (st_id r) then
        match get_stream d name with Err e => Err e | Ok _ => Err (StreamModeFixed name) end
      else Ok (set_streams (<[st_id r := mkStream (st_id r) (st_name r) (mapping r) (retention_hours r) (mode_as_str mode) (deleted r)]>) d)
  | None => Err (StreamNotFound name)
  end.

Definition set_stream_retention (d : Metastore) (name : bytes) (hours : option Z) : result MetastoreError Metastore :=
  ok_or (update_by_name d name (fun r => mkStream (st_id r) (st_name r) (mapping r) hours (st_mode r) (deleted r)))
    (StreamNotFound name).

(** Deleting a stream row deletes its splits and tombstones (ON DELETE
    CASCADE). *)
Definition drop_stream (d : Metastore) (id : Z) : Metastore :=
  mkMeta (delete id (m_streams d)) (filter (fun p => sp_stream p.2 <> id) (m_splits d))
    (filter (fun p => p.1.1 <> id) (m_tombstones d)) (m_next_stream d) (m_next_split d) (m_next_tombstone d).
Definition delete_stream (d : Metastore) (name : bytes) : Metastore :=
  match find_stream d name with Some r => drop_stream d (st_id r) | None => d end.

Definition mark_where (P : SplitRecord -> bool) (now : Z) (m : gmap bytes SplitRecord) : gmap bytes SplitRecord :=
  (fun s => if P s && negb (bool_decide (sp_state s = MarkedForDelete)) then set_state MarkedForDelete now s else s) <$> m.

Definition retired_name (id : Z) (name : bytes) : bytes := str ".deleted-" ++ dec_i id ++ str "-" ++ name.

(** One transaction; [None] of the unique name is the rename failing, which
    rolls everything back. *)
Definition retire_stream (d : Metastore) (now : Z) (name : bytes) : result MetastoreError (Metastore * Z) :=
  match find_stream d name with
  | Some r =>
      if deleted r then Err (StreamNotFound name)
      else
        let id := st_id r in
        match find_stream d (retired_name id name) with
        | Some _ => Err Database
        | None =>
            let r' := mkStream id (retired_name id name) (mapping r) (retention_hours r) (st_mode r) true in
            Ok (mkMeta (<[id := r']> (m_streams d)) (mark_where (fun s => sp_stream s =? id) now (m_splits d))
                  (filter (fun p => p.1.1 <> id) (m_tombstones d))
                  (m_next_stream d) (m_next_split d) (m_next_tombstone d), id)
        end
  | None => Err (StreamNotFound name)
  end.

Definition stream_deleted (d : Metastore) (id : Z) : bool :=
  match m_streams d !! id with Some r => deleted r | None => false end.
(** Two statements: mark what landed after the retirement, then drop the
    retired rows no split references. *)
Definition purge_deleted_streams (d : Metastore) (now : Z) : Metastore * Z :=
  let d := set_splits (mark_where (fun s => stream_deleted d (sp_stream s)) now) d in
  let victims := filter (fun r => deleted r = true /\ holds_splits d (st_id r) = false) (map_to_list (m_streams d)).*2 in
  (foldl drop_stream d (st_id <$> victims), Z.of_nat (length victims)).

(** ** Split lifecycle *)

Definition stage_split (d : Metastore) (now : Z) (s : NewSplit) : result MetastoreError Metastore :=
  match m_splits d !! ns_split_id s, m_streams d !! ns_stream_id s with
  | None, Some _ =>
      Ok (mkMeta (m_streams d)
            (<[ns_split_id s := mkSplit (m_next_split d) Staged s (ns_tombstone_seq_applied s) (ns_dynamic_fields s) now now]> (m_splits d))
            (m_tombstones d) (m_next_stream d) (m_next_split d + 1) (m_next_tombstone d))
  | _, _ => Err Database
  end.

Definition set_split_dynamic_fields (d : Metastore) (split_id : bytes) (fields : json) : Metastore :=
  set_splits (alter (fun s => mkSplit (sp_id s) (sp_state s) (sp_new s) (sp_applied s) (Some fields) (sp_created_at s) (sp_updated_at s)) split_id) d.

Definition publish_split (d : Metastore) (now : Z) (split_id : bytes) : result MetastoreError Metastore :=
  match m_splits d !! split_id with
  | Some s =>
      if decide (sp_state s = Staged) then Ok (set_splits (<[split_id := set_state Published now s]>) d)
      else Err (SplitStateConflict split_id)
  | None => Err (SplitStateConflict split_id)
  end.

Definition mark_splits_for_delete (d : Metastore) (now : Z) (ids : list bytes) : Metastore * Z :=
  let P s := bool_decide (sp_split_id s ∈ ids) in
  (set_splits (mark_where P now) d,
   Z.of_nat (length (filter (fun s => P s = true /\ sp_state s <> MarkedForDelete) (split_rows d)))).

Definition delete_split_row (d : Metastore) (split_id : bytes) : Metastore := set_splits (delete split_id) d.

(** The merge's transaction: publish the staged replacement, mark the
    sources, or change nothing. *)
Definition swap_splits (d : Metastore) (now : Z) (old : list bytes) (new : bytes) : result MetastoreError Metastore :=
  match publish_split d now new with
  | Err e => Err e
  | Ok d => Ok (set_splits (fmap (fun s => if bool_decide (sp_split_id s ∈ old) then set_state MarkedForDelete now s else s)) d)
  end.

(** ** Queries *)

Definition splits_for_query (d : Metastore) (stream_id : Z) (start end_ : option Z) (lim : Z) : list SplitRecord :=
  limit lim (order_by (fun s => ns_time_start (sp_new s))
    (filter (fun s => sp_stream s = stream_id /\ sp_state s = Published /\
       default I64_MIN start <= ns_time_end (sp_new s) /\ ns_time_start (sp_new s) <= default I64_MAX end_) (split_rows d))).

Definition splits_in_state (d : Metastore) (state : SplitState) (lim : Z) : list SplitRecord :=
  limit lim (order_by sp_updated_at (filter (fun s => sp_state s = state) (split_rows d))).

Definition get_split (d : Metastore) (split_id : bytes) : option SplitRecord := m_splits d !! split_id.

(** [MAX] of a column with nulls. *)
Definition sql_max (l : list (option Z)) : option Z := foldr (union_with (fun a b => Some (Z.max a b))) None l.
Definition sql_min (l : list (option Z)) : option Z := foldr (union_with (fun a b => Some (Z.min a b))) None l.

Definition live_split (s : SplitRecord) : bool := negb (bool_decide (sp_state s = MarkedForDelete)).
Definition stream_max_seq (d : Metastore) (stream_id : Z) : option Z :=
  sql_max ((fun s => ns_seq_max (sp_new s)) <$> filter (fun s => sp_stream s = stream_id /\ live_split s = true) (split_rows d)).

Definition expired (d : Metastore) (now_millis : Z) (s : SplitRecord) : bool :=
  bool_decide (sp_state s = Published) &&
  match m_streams d !! sp_stream s with
  | Some r =>
      match retention_hours r with
      | Some h => ns_time_end (sp_new s) <? now_millis - h * 3600000
      | None => false
      end
  | None => false
  end.
Definition expired_splits (d : Metastore) (now_millis lim : Z) : list bytes :=
  limit lim (sp_split_id <$> filter (fun s => expired d now_millis s = true) (split_rows d)).

Definition stale_staged_splits (d : Metastore) (now older_than lim : Z) : list SplitRecord :=
  limit lim (order_by sp_created_at (filter (fun s => sp_state s = Staged /\ sp_created_at s < now - older_than) (split_rows d))).

Definition gc_candidates (d : Metastore) (now grace lim : Z) : list SplitRecord :=
  limit lim (order_by sp_updated_at (filter (fun s => sp_state s = MarkedForDelete /\ sp_updated_at s < now - grace) (split_rows d))).

(** Per stream, the oldest small published splits by (time, id). *)
Definition time_id_le (a b : SplitRecord) : Prop :=
  ns_time_start (sp_new a) < ns_time_start (sp_new b) \/
  (ns_time_start (sp_new a) = ns_time_start (sp_new b) /\ sp_id a <= sp_id b).
#[export] Instance time_id_le_dec : RelDecision time_id_le.
Proof. unfold time_id_le. intros a b. solve_decision. Defined.
Definition small_published_splits (d : Metastore) (max_size per_stream : Z) : list SplitRecord :=
  concat ((fun id => limit per_stream (merge_sort time_id_le
      (filter (fun s => sp_stream s = id /\ sp_state s = Published /\ ns_size_bytes (sp_new s) < max_size) (split_rows d))))
    <$> order_by id (map_to_list (m_streams d)).*1).

(** ** Tombstones *)

Record NewTombstone := mkNewTombstone { nt_stream : Z; nt_doc : bytes; nt_before_seq : Z }.

(** [GROUP BY stream_id, doc_id] with [MAX(before_seq)]. *)
Definition group_max (items : list NewTombstone) : gmap (Z * bytes) Z :=
  foldl (fun m t => partial_alter (fun o => Some (match o with Some b => Z.max b (nt_before_seq t) | None => nt_before_seq t end))
                      (nt_stream t, nt_doc t) m) ∅ items.

(** One row of the insert: a new row, or a raised bound under a new [seq]. *)
Definition upsert_one (now : Z) (d : Metastore) (kb : (Z * bytes) * Z) : Metastore :=
  let '(k, b) := kb in
  let n := m_next_tombstone d in
  let bump rows := mkMeta (m_streams d) (m_splits d) rows (m_next_stream d) (m_next_split d) (n + 1) in
  match m_tombstones d !! k with
  | Some t => if (t_before_seq t <? b) then bump (<[k := mkTombstone n b now]> (m_tombstones d)) else bump (m_tombstones d)
  | None => bump (<[k := mkTombstone n b now]> (m_tombstones d))
  end.

(** A reference to a stream that does not exist fails the transaction. *)
Definition upsert_tombstones (d : Metastore) (now : Z) (items : list NewTombstone) : result MetastoreError Metastore :=
  match items with
  | [] => Ok d
  | _ =>
      if forallb (fun t => bool_decide (is_Some (m_streams d !! nt_stream t))) items
      then Ok (foldl (upsert_one now) d (map_to_list (group_max items))) else Err Database
  end.

Definition tombstone_bounds (d : Metastore) (pairs : list (Z * bytes)) : list (Z * bytes * Z) :=
  (fun p => (p.1, t_before_seq p.2)) <$> filter (fun p => p.1 ∈ pairs) (map_to_list (m_tombstones d)).

Record TombstoneRecord := mkTombRec { tr_seq : Z; tr_doc : bytes; tr_before_seq : Z }.
Definition tombstone_rows (d : Metastore) (stream_id : Z) : list TombstoneRecord :=
  (fun p => mkTombRec (t_seq p.2) p.1.2 (t_before_seq p.2)) <$>
    filter (fun p => p.1.1 = stream_id) (map_to_list (m_tombstones d)).
Definition tombstones_since (d : Metastore) (stream_id after_seq lim : Z) : list TombstoneRecord :=
  limit lim (order_by tr_seq (filter (fun t => after_seq < tr_seq t) (tombstone_rows d stream_id))).

Definition splits_needing_compaction (d : Metastore) (stream_id through lim : Z) : list SplitRecord :=
  limit lim (order_by sp_applied
    (order_by (fun s => ns_time_start (sp_new s))
      (filter (fun s => sp_stream s = stream_id /\ sp_state s = Published /\ is_Some (ns_seq_min (sp_new s)) /\ sp_applied s < through)
         (split_rows d)))).

Definition mark_tombstones_applied (d : Metastore) (now : Z) (split_id : bytes) (through : Z) : Metastore :=
  set_splits (alter (fun s => mkSplit (sp_id s) (sp_state s) (sp_new s) (Z.max (sp_applied s) through) (sp_fields s) (sp_created_at s) now) split_id) d.

(** The lowest [tombstone_seq_applied] of a stream's live splits with ids. *)
Definition applied_floor (d : Metastore) (stream_id : Z) : option Z :=
  sql_min ((fun s => Some (sp_applied s)) <$>
    filter (fun s => sp_stream s = stream_id /\ live_split s = true /\ is_Some (ns_seq_min (sp_new s))) (split_rows d)).

Definition purgeable (d : Metastore) (now grace : Z) (p : (Z * bytes) * Tombstone) : bool :=
  (t_created_at p.2 <? now - grace) &&
  match applied_floor d p.1.1 with None => true | Some f => t_seq p.2 <=? f end.
Definition purge_tombstones (d : Metastore) (now grace lim : Z) : Metastore * Z :=
  let victims := limit lim (order_by (fun p => t_created_at p.2)
    (filter (fun p => purgeable d now grace p = true) (map_to_list (m_tombstones d)))) in
  (mkMeta (m_streams d) (m_splits d) (filter (fun p => p.1 ∉ victims.*1) (m_tombstones d))
     (m_next_stream d) (m_next_split d) (m_next_tombstone d), Z.of_nat (length victims)).

(** ** The statements that change the tables *)

Inductive meta_step (d : Metastore) : Metastore -> Prop :=
| s_ensure name mode : meta_step d (ensure_stream_with_mode d name mode).1
| s_mapping name m d' : update_stream_mapping d name m = Ok d' -> meta_step d d'
| s_mapping_if name e m : meta_step d (update_stream_mapping_if d name e m).1
| s_mode name mode d' : set_stream_mode d name mode = Ok d' -> meta_step d d'
| s_retention name h d' : set_stream_retention d name h = Ok d' -> meta_step d d'
| s_delete_stream name : meta_step d (delete_stream d name)
| s_retire now name d' id : retire_stream d now name = Ok (d', id) -> meta_step d d'
| s_purge_streams now : meta_step d (purge_deleted_streams d now).1
| s_stage now s d' : stage_split d now s = Ok d' -> ns_tombstone_seq_applied s < m_next_tombstone d -> meta_step d d'
| s_fields id f : meta_step d (set_split_dynamic_fields d id f)
| s_publish now id d' : publish_split d now id = Ok d' -> meta_step d d'
| s_mark now ids : meta_step d (mark_splits_for_delete d now ids).1
| s_delete_row id : meta_step d (delete_split_row d id)
| s_swap now old new d' : swap_splits d now old new = Ok d' -> meta_step d d'
| s_upsert now items d' : upsert_tombstones d now items = Ok d' -> meta_step d d'
| s_applied now id through : through < m_next_tombstone d -> meta_step d (mark_tombstones_applied d now id through)
| s_purge_tombs now grace lim : meta_step d (purge_tombstones d now grace lim).1.

(** ** The invariant *)

Record meta_wf (d : Metastore) : Prop := {
  wf_stream i r : m_streams d !! i = Some r -> st_id r = i /\ i < m_next_stream d;
  wf_name i j r s : m_streams d !! i = Some r -> m_streams d !! j = Some s -> st_name r = st_name s -> i = j;
  wf_split k s : m_splits d !! k = Some s ->
    sp_split_id s = k /\ is_Some (m_streams d !! sp_stream s) /\ sp_applied s < m_next_tombstone d;
  wf_tomb k t : m_tombstones d !! k = Some t -> is_Some (m_streams d !! k.1) /\ t_seq t < m_next_tombstone d;
  wf_tomb_seq k l t u : m_tombstones d !! k = Some t -> m_tombstones d !! l = Some u -> t_seq t = t_seq u -> k = l;
  wf_next : 1 <= m_next_tombstone d;
}.

Lemma empty_metastore_wf : meta_wf empty_metastore.
Proof. split; simpl; intros *; rewrite ?lookup_empty; done. Qed.

Lemma find_stream_Some d name r : meta_wf d -> find_stream d name = Some r ->
  m_streams d !! st_id r = Some r /\ st_name r = name.
Proof.
  unfold find_stream. intros Hw H. destruct (filter _ _) as [|[i v] l] eqn:E; [done|]. injection H as <-. simpl.
  assert ((i, v) ∈ filter (fun p : Z * StreamRecord => st_name p.2 = name) (map_to_list (m_streams d))) as Hin
    by (rewrite E; by left).
  apply list_elem_of_filter in Hin as [Hn Hin]. apply elem_of_map_to_list in Hin.
  split; [|done]. by destruct (wf_stream _ Hw _ _ Hin) as [-> _].
Qed.

Lemma find_stream_None d name i r : find_stream d name = None -> m_streams d !! i = Some r -> st_name r <> name.
Proof.
  unfold find_stream. intros H Hu Hn. destruct (filter _ _) as [|p l] eqn:E; [|done].
  assert ((i, r) ∈ filter (fun p : Z * StreamRecord => st_name p.2 = name) (map_to_list (m_streams d))) as Hin.
  { apply list_elem_of_filter. split; [done|]. by apply elem_of_map_to_list. }
  rewrite E in Hin. by apply elem_of_nil in Hin.
Qed.

Lemma find_stream_spec d name r : meta_wf d ->
  find_stream d name = Some r <-> m_streams d !! st_id r = Some r /\ st_name r = name.
Proof.
  intros Hw. split; [by apply find_stream_Some|]. intros [E En].
  destruct (find_stream d name) as [r'|] eqn:F.
  - apply find_stream_Some in F as [F Fn]; [|done]. f_equal.
    assert (st_id r' = st_id r) as Hi by (eapply (wf_name _ Hw); [done..|congruence]).
    rewrite Hi in F. congruence.
  - by pose proof (find_stream_None _ _ _ _ F E).
Qed.

(** Changing the splits in place: ids and streams kept, the applied bound
    below the next tombstone. *)
Lemma map_splits_wf d f : meta_wf d ->
  (forall k s', f (m_splits d) !! k = Some s' -> exists s, m_splits d !! k = Some s /\
     sp_new s' = sp_new s /\ sp_applied s' < m_next_tombstone d) ->
  meta_wf (set_splits f d).
Proof.
  intros Hw Hf. split; cbn [m_streams m_splits m_tombstones m_next_stream m_next_tombstone set_splits]; try by apply Hw.
  intros k s' E. destruct (Hf k s' E) as (s & Es & En & Ha). destruct (wf_split _ Hw _ _ Es) as (H1 & H2 & _).
  unfold sp_split_id, sp_stream in *. rewrite En. done.
Qed.
Lemma mark_where_lookup P now m k s' : mark_where P now m !! k = Some s' ->
  exists s, m !! k = Some s /\ s' = (if P s && negb (bool_decide (sp_state s = MarkedForDelete)) then set_state MarkedForDelete now s else s).
Proof. unfold mark_where. intros (s & E & Es)%lookup_fmap_Some. eauto. Qed.

Lemma split_rows_in d s : meta_wf d -> s ∈ split_rows d <-> m_splits d !! sp_split_id s = Some s.
Proof.
  intros Hw. unfold split_rows. rewrite list_elem_of_fmap. split.
  - intros ([k s'] & -> & Hin). apply elem_of_map_to_list in Hin. simpl. by destruct (wf_split _ Hw _ _ Hin) as (-> & _).
  - intros H. exists (sp_split_id s, s). split; [done|]. by apply elem_of_map_to_list.
Qed.

Lemma holds_splits_false d id : meta_wf d -> holds_splits d id = false <->
  forall k s, m_splits d !! k = Some s -> sp_stream s <> id.
Proof.
  intros Hw. unfold holds_splits. split.
  - intros H k s E Hs. assert (existsb (fun s => sp_stream s =? id) (split_rows d) = true); [|congruence].
    apply existsb_exists. exists s. split; [|by apply Z.eqb_eq].
    apply list_elem_of_In, split_rows_in; [done|]. by destruct (wf_split _ Hw _ _ E) as (-> & _).
  - intros H. apply not_true_is_false. intros (s & Hin & Hs)%existsb_exists.
    apply list_elem_of_In, split_rows_in in Hin; [|done]. apply Z.eqb_eq in Hs. by eapply H.
Qed.

Lemma set_stream_row_wf d i r r' : meta_wf d -> m_streams d !! i = Some r -> st_id r' = st_id r ->
  (forall j s, m_streams d !! j = Some s -> st_name s = st_name r' -> j = i) ->
  meta_wf (set_streams (<[i := r']>) d).
Proof.
  intros Hw E Hi Hn. split; cbn [m_streams m_splits m_tombstones m_next_stream m_next_tombstone set_streams]; try by apply Hw.
  - intros j s [[<- <-]|[_ Ej]]%lookup_insert_Some; [|by apply (wf_stream _ Hw)].
    rewrite Hi. by apply (wf_stream _ Hw).
  - intros j k s t [[<- <-]|[Hj Ej]]%lookup_insert_Some [[<- <-]|[Hk Ek]]%lookup_insert_Some Hst; [done| | |].
    + symmetry. by eapply Hn.
    + by eapply Hn.
    + by eapply (wf_name _ Hw).
  - intros k s Es. destruct (wf_split _ Hw _ _ Es) as (? & [x Hx] & ?). split_and!; [done| |done].
    apply lookup_insert_is_Some'. eauto.
  - intros k t Et. destruct (wf_tomb _ Hw _ _ Et) as ([x Hx] & ?). split; [|done].
    apply lookup_insert_is_Some'. eauto.
Qed.

Lemma same_name_wf d r r' : meta_wf d -> m_streams d !! st_id r = Some r -> st_id r' = st_id r ->
  st_name r' = st_name r -> meta_wf (set_streams (<[st_id r := r']>) d).
Proof.
  intros Hw E Hi Hn. eapply set_stream_row_wf; [done..|]. intros j s Ej Es.
  eapply (wf_name _ Hw); [done..|congruence].
Qed.

Lemma update_by_name_wf d name f d' : meta_wf d -> (forall r, st_id (f r) = st_id r /\ st_name (f r) = st_name r) ->
  update_by_name d name f = Some d' -> meta_wf d'.
Proof.
  intros Hw Hf. unfold update_by_name. destruct (find_stream d name) as [r|] eqn:E; [|done]. intros [= <-].
  apply find_stream_Some in E as [E _]; [|done]. by apply same_name_wf; [..|apply Hf|apply Hf].
Qed.

Lemma drop_stream_wf d id : meta_wf d -> meta_wf (drop_stream d id).
Proof.
  intros Hw. unfold drop_stream. split; cbn [m_streams m_splits m_tombstones m_next_stream m_next_tombstone].
  - intros j s [_ Ej]%lookup_delete_Some. by apply (wf_stream _ Hw).
  - intros j k s t [_ Ej]%lookup_delete_Some [_ Ek]%lookup_delete_Some. by apply (wf_name _ Hw).
  - intros k s [Es Hne]%map_lookup_filter_Some. simpl in Hne. destruct (wf_split _ Hw _ _ Es) as (? & ? & ?).
    by rewrite lookup_delete_ne.
  - intros k t [Et Hne]%map_lookup_filter_Some. simpl in Hne. destruct (wf_tomb _ Hw _ _ Et) as (? & ?).
    by rewrite lookup_delete_ne.
  - intros k l t u [Ek _]%map_lookup_filter_Some [El _]%map_lookup_filter_Some. by apply (wf_tomb_seq _ Hw).
  - apply Hw.
Qed.

Lemma drop_streams_wf ids d : meta_wf d -> meta_wf (foldl drop_stream d ids).
Proof. revert d; induction ids as [|i ids IH]; intros d Hw; [done|]. by apply IH, drop_stream_wf. Qed.

Lemma mark_where_wf P now d : meta_wf d -> meta_wf (set_splits (mark_where P now) d).
Proof.
  intros Hw. apply map_splits_wf; [done|]. intros k s' (s & E & ->)%mark_where_lookup. exists s.
  split; [done|]. destruct (wf_split _ Hw _ _ E) as (_ & _ & Ha). by destruct (_ && _).
Qed.

Lemma upsert_one_wf now d kb : meta_wf d -> is_Some (m_streams d !! kb.1.1) -> meta_wf (upsert_one now d kb).
Proof.
  intros Hw Hs. destruct kb as [k b]. unfold upsert_one.
  assert (meta_wf (mkMeta (m_streams d) (m_splits d) (<[k := mkTombstone (m_next_tombstone d) b now]> (m_tombstones d))
    (m_next_stream d) (m_next_split d) (m_next_tombstone d + 1))) as Hins.
  { split; cbn [m_streams m_splits m_tombstones m_next_stream m_next_tombstone].
    - apply (wf_stream _ Hw).
    - apply (wf_name _ Hw).
    - intros j s Es. destruct (wf_split _ Hw _ _ Es) as (? & ? & ?). split_and!; [done..|lia].
    - intros j t [[<- <-]|[_ Et]]%lookup_insert_Some; [split; [done|simpl; lia]|].
      destruct (wf_tomb _ Hw _ _ Et). split; [done|lia].
    - intros j l t u [[<- <-]|[Hj Ej]]%lookup_insert_Some [[<- <-]|[Hl El]]%lookup_insert_Some Htu; [done| | |].
      + destruct (wf_tomb _ Hw _ _ El). simpl in Htu. lia.
      + destruct (wf_tomb _ Hw _ _ Ej). simpl in Htu. lia.
      + by eapply (wf_tomb_seq _ Hw).
    - pose proof (wf_next _ Hw). lia. }
  assert (meta_wf (mkMeta (m_streams d) (m_splits d) (m_tombstones d) (m_next_stream d) (m_next_split d) (m_next_tombstone d + 1))) as Hb.
  { split; cbn [m_streams m_splits m_tombstones m_next_stream m_next_tombstone]; try by apply Hw.
    - intros j s Es. destruct (wf_split _ Hw _ _ Es) as (? & ? & ?). split_and!; [done..|lia].
    - intros j t Et. destruct (wf_tomb _ Hw _ _ Et). split; [done|lia].
    - pose proof (wf_next _ Hw). lia. }
  destruct (m_tombstones d !! k) as [t|]; [|done]. by destruct (t_before_seq t <? b).
Qed.

Lemma upsert_one_streams now d kb : m_streams (upsert_one now d kb) = m_streams d.
Proof. destruct kb as [k b]. unfold upsert_one. by repeat case_match. Qed.

Lemma upsert_fold_wf now kbs d : meta_wf d -> Forall (fun kb => is_Some (m_streams d !! kb.1.1)) kbs ->
  meta_wf (foldl (upsert_one now) d kbs).
Proof.
  revert d; induction kbs as [|kb kbs IH]; intros d Hw Hf; [done|]. apply Forall_cons in Hf as [H1 Hf].
  apply IH; [by apply upsert_one_wf|]. by rewrite upsert_one_streams.
Qed.

(** The keys of [group_max] come from the batch. *)
Lemma group_max_lookup items : forall (m : gmap (Z * bytes) Z) k b,
  foldl (fun m t => partial_alter (fun o => Some (match o with Some b => Z.max b (nt_before_seq t) | None => nt_before_seq t end))
    (nt_stream t, nt_doc t) m) m items !! k = Some b ->
  (exists t, t ∈ items /\ k = (nt_stream t, nt_doc t)) \/ m !! k = Some b.
Proof.
  induction items as [|t items IH]; intros m k b; simpl; [by right|]. intros [(u & ? & ?)|H]%IH.
  - left. exists u. split; [by right|done].
  - destruct (decide (k = (nt_stream t, nt_doc t))) as [->|Hne]; [left; exists t; split; [by left|done]|].
    right. by rewrite lookup_partial_alter_ne in H.
Qed.

Lemma group_max_streams (S : gmap Z StreamRecord) items :
  forallb (fun t => bool_decide (is_Some (S !! nt_stream t))) items = true ->
  Forall (fun kb => is_Some (S !! kb.1.1)) (map_to_list (group_max items)).
Proof.
  intros Hall. apply Forall_forall. intros [k b] Hin%elem_of_map_to_list.
  apply group_max_lookup in Hin as [(t & Ht & ->)|E]; [|by rewrite lookup_empty in E].
  rewrite forallb_forall in Hall. specialize (Hall t). rewrite bool_decide_eq_true in Hall.
  by apply Hall, list_elem_of_In.
Qed.

Lemma drop_streams_lookup ids d k s :
  m_splits (foldl drop_stream d ids) !! k = Some s -> m_splits d !! k = Some s.
Proof.
  revert d; induction ids as [|i ids IH]; intros d; simpl; [done|].
  intros H%IH. cbn [drop_stream m_splits] in H. by apply map_lookup_filter_Some in H as [? _].
Qed.

Lemma swap_splits_inv d now old new d' : swap_splits d now old new = Ok d' ->
  exists s, m_splits d !! new = Some s /\ sp_state s = Staged /\
    d' = set_splits (fun m => (fun s => if bool_decide (sp_split_id s ∈ old) then set_state MarkedForDelete now s else s) <$>
                     <[new := set_state Published now s]> m) d.
Proof.
  unfold swap_splits, publish_split. destruct (m_splits d !! new) as [s|]; [|done].
  destruct (decide (sp_state s = Staged)); [|done]. intros [= <-]. by exists s.
Qed.

Lemma meta_step_wf d d' : meta_wf d -> meta_step d d' -> meta_wf d'.
Proof.
  intros Hw Hs.
  destruct Hs as [name mode|name m d' E|name e m|name mode d' E|name h d' E|name|now name d' id E|now|now s d' E Hs
    |id f|now id d' E|now ids|id|now old new d' E|now items d' E|now id through Ht|now grace lim].
  - unfold ensure_stream_with_mode. destruct (find_stream d name) as [r|] eqn:F; cbn [fst].
    + split; try by apply Hw. intros i s Es. destruct (wf_stream _ Hw _ _ Es). simpl. lia.
    + split; cbn [m_streams m_splits m_tombstones m_next_stream m_next_tombstone st_id]; try by apply Hw.
      * intros i s [[<- <-]|[_ Es]]%lookup_insert_Some; [simpl; lia|]. destruct (wf_stream _ Hw _ _ Es). lia.
      * intros i j s t [[<- <-]|[Hi Ei]]%lookup_insert_Some [[<- <-]|[Hj Ej]]%lookup_insert_Some Hst; [done| | |].
        -- by pose proof (find_stream_None _ _ _ _ F Ej).
        -- by pose proof (find_stream_None _ _ _ _ F Ei).
        -- by eapply (wf_name _ Hw).
      * intros k s Es. destruct (wf_split _ Hw _ _ Es) as (? & [x Hx] & ?). split_and!; [done| |done].
        apply lookup_insert_is_Some'. eauto.
      * intros k t Et. destruct (wf_tomb _ Hw _ _ Et) as ([x Hx] & ?). split; [|done].
        apply lookup_insert_is_Some'. eauto.
  - unfold update_stream_mapping in E. destruct (update_by_name d name _) eqn:U; [|done]. injection E as <-.
    by eapply update_by_name_wf; [done| |exact U].
  - unfold update_stream_mapping_if. destruct (find_stream d name) as [r|] eqn:F; [|done].
    destruct (_ && _); [|done]. cbn [fst]. apply find_stream_Some in F as [F _]; [|done]. by apply same_name_wf.
  - unfold set_stream_mode in E. destruct (find_stream d name) as [r|] eqn:F; [|done].
    destruct (holds_splits d (st_id r)); [by destruct (get_stream d name)|]. injection E as <-.
    apply find_stream_Some in F as [F _]; [|done]. by apply same_name_wf.
  - unfold set_stream_retention in E. destruct (update_by_name d name _) eqn:U; [|done]. injection E as <-.
    by eapply update_by_name_wf; [done| |exact U].
  - unfold delete_stream. destruct (find_stream d name); [by apply drop_stream_wf|done].
  - unfold retire_stream in E. destruct (find_stream d name) as [r|] eqn:F; [|done].
    destruct (deleted r); [done|]. destruct (find_stream d (retired_name _ _)) eqn:G; [done|].
    injection E as <- <-. apply find_stream_Some in F as [F _]; [|done].
    set (r' := mkStream _ _ _ _ _ _).
    assert (meta_wf (set_streams (<[st_id r := r']>) d)) as Hw1.
    { eapply set_stream_row_wf; [done..|]. intros j s Ej Es. by pose proof (find_stream_None _ _ _ _ G Ej). }
    apply (mark_where_wf (fun s => sp_stream s =? st_id r) now) in Hw1.
    split; try by apply Hw1; cbn [m_streams m_splits m_tombstones m_next_stream m_next_tombstone].
    + intros k t [Et _]%map_lookup_filter_Some. by apply (wf_tomb _ Hw1).
    + intros k l t u [Ek _]%map_lookup_filter_Some [El _]%map_lookup_filter_Some. by apply (wf_tomb_seq _ Hw1).
  - unfold purge_deleted_streams. cbn [fst]. by apply drop_streams_wf, mark_where_wf.
  - unfold stage_split in E. destruct (m_splits d !! _) eqn:Es; [done|]. destruct (m_streams d !! _) eqn:Er; [|done].
    injection E as <-. split; cbn [m_streams m_splits m_tombstones m_next_stream m_next_tombstone]; try by apply Hw.
    intros k x [[<- <-]|[_ Ek]]%lookup_insert_Some; [|by apply (wf_split _ Hw)].
    unfold sp_split_id, sp_stream. cbn [sp_new sp_applied]. rewrite Er. done.
  - apply map_splits_wf; [done|]. intros k s'. rewrite lookup_alter_Some.
    intros [(-> & s & Es & ->)|[_ Es]]; (eexists; split; [exact Es|]);
      destruct (wf_split _ Hw _ _ Es) as (_ & _ & ?); done.
  - unfold publish_split in E. destruct (m_splits d !! id) as [s|] eqn:Es; [|done].
    destruct (decide (sp_state s = Staged)); [|done]. injection E as <-. apply map_splits_wf; [done|].
    intros k s' [[<- <-]|[_ Ek]]%lookup_insert_Some; [exists s|exists s']; (split; [done|]);
      [destruct (wf_split _ Hw _ _ Es) as (_ & _ & ?)|destruct (wf_split _ Hw _ _ Ek) as (_ & _ & ?)]; done.
  - by apply mark_where_wf.
  - apply map_splits_wf; [done|]. intros k s' [_ Es]%lookup_delete_Some. exists s'. split; [done|].
    by destruct (wf_split _ Hw _ _ Es) as (_ & _ & ?).
  - apply swap_splits_inv in E as (s & Es & _ & ->). apply map_splits_wf; [done|].
    intros k s' (x & <- & Ex)%lookup_fmap_Some.
    apply lookup_insert_Some in Ex as [[<- <-]|[_ Ex]]; [exists s|exists x]; (split; [done|]);
      [destruct (wf_split _ Hw _ _ Es) as (_ & _ & ?)|destruct (wf_split _ Hw _ _ Ex) as (_ & _ & ?)];
      by case_bool_decide.
  - unfold upsert_tombstones in E. destruct items as [|i0 items]; [by injection E as <-|].
    destruct (forallb _ _) eqn:Hall; [|done]. injection E as <-. apply upsert_fold_wf; [done|].
    by apply group_max_streams.
  - apply map_splits_wf; [done|]. intros k s'. rewrite lookup_alter_Some.
    intros [(-> & s & Es & ->)|[_ Es]]; (eexists; split; [exact Es|]);
      destruct (wf_split _ Hw _ _ Es) as (_ & _ & ?); simpl; split; [done|lia|done|done].
  - unfold purge_tombstones. cbn [fst].
    split; cbn [m_streams m_splits m_tombstones m_next_stream m_next_tombstone]; try by apply Hw.
    + intros k t [Et _]%map_lookup_filter_Some. by apply (wf_tomb _ Hw).
    + intros k l t u [Ek _]%map_lookup_filter_Some [El _]%map_lookup_filter_Some. by apply (wf_tomb_seq _ Hw).
Qed.

Lemma meta_reachable_wf d : rtc meta_step empty_metastore d -> meta_wf d.
Proof.
  intros Hr. remember empty_metastore as d0 eqn:E0. assert (meta_wf d0) as Hw by (subst; apply empty_metastore_wf).
  clear E0. induction Hr as [|d0 d1 d2 Hs _ IH]; [done|]. by eapply IH, meta_step_wf.
Qed.

Definition rank (st : SplitState) : Z := match st with Staged => 0 | Published => 1 | MarkedForDelete => 2 end.

(** What one statement may do to a row that survives it. *)
Lemma meta_step_split d d' k s s' : meta_wf d -> meta_step d d' ->
  m_splits d !! k = Some s -> m_splits d' !! k = Some s' ->
  sp_new s' = sp_new s /\ sp_id s' = sp_id s /\ rank (sp_state s) <= rank (sp_state s').
Proof.
  intros Hw Hs Es Es'.
  assert (forall f, f <$> Some s = Some s' -> sp_new (f s) = sp_new s /\ sp_id (f s) = sp_id s /\ rank (sp_state s) <= rank (sp_state (f s)) ->
    sp_new s' = sp_new s /\ sp_id s' = sp_id s /\ rank (sp_state s) <= rank (sp_state s')) as Hgo
    by (by intros f [= <-]).
  assert (forall P now x, mark_where P now (m_splits d) !! k = Some x ->
    sp_new x = sp_new s /\ sp_id x = sp_id s /\ rank (sp_state s) <= rank (sp_state x)) as Hmark.
  { intros P now x (y & Ey & ->)%mark_where_lookup. rewrite Es in Ey. injection Ey as <-.
    destruct (_ && _); simpl; [|done]. split_and!; [done..|]. by destruct (sp_state s). }
  assert (m_splits d' !! k = m_splits d !! k -> sp_new s' = sp_new s /\ sp_id s' = sp_id s /\ rank (sp_state s) <= rank (sp_state s')) as Hsame.
  { rewrite Es, Es'. by intros [= ->]. }
  destruct Hs as [name mode|name m d' E|name e m|name mode d' E|name h d' E|name|now name d' id E|now|now n d' E Hs
    |id f|now id d' E|now ids|id|now old new d' E|now items d' E|now id through Ht|now grace lim].
  - apply Hsame. unfold ensure_stream_with_mode. by destruct (find_stream d name).
  - unfold update_stream_mapping, update_by_name in E. destruct (find_stream d name); [|done]. injection E as <-. by apply Hsame.
  - apply Hsame. unfold update_stream_mapping_if. destruct (find_stream d name); [|done]. by destruct (_ && _).
  - unfold set_stream_mode in E. destruct (find_stream d name); [|done].
    destruct (holds_splits d _); [by destruct (get_stream d name)|]. injection E as <-. by apply Hsame.
  - unfold set_stream_retention, update_by_name in E. destruct (find_stream d name); [|done]. injection E as <-. by apply Hsame.
  - unfold delete_stream in *. destruct (find_stream d name); [|by apply Hsame].
    cbn [drop_stream m_splits] in Es'. apply map_lookup_filter_Some in Es' as [Es' _].
    rewrite Es in Es'. by injection Es' as <-.
  - unfold retire_stream in E. destruct (find_stream d name); [|done]. destruct (deleted _); [done|].
    destruct (find_stream d (retired_name _ _)); [done|]. injection E as <- _. cbn [m_splits] in Es'. by eapply Hmark.
  - cbn [purge_deleted_streams fst] in Es'. apply drop_streams_lookup in Es'. cbn [set_splits m_splits] in Es'. by eapply Hmark.
  - unfold stage_split in E. destruct (m_splits d !! ns_split_id n) eqn:En; [done|]. destruct (m_streams d !! _); [|done].
    injection E as <-. apply Hsame. cbn [m_splits]. rewrite lookup_insert_ne; [done|]. congruence.
  - cbn [set_split_dynamic_fields set_splits m_splits] in Es'. apply lookup_alter_Some in Es' as [(-> & x & Ex & ->)|[_ Ex]];
      rewrite Es in Ex; injection Ex as <-; done.
  - unfold publish_split in E. destruct (m_splits d !! id) as [x|] eqn:Ex; [|done].
    destruct (decide (sp_state x = Staged)) as [Hst|]; [|done]. injection E as <-. cbn [set_splits m_splits] in Es'.
    apply lookup_insert_Some in Es' as [[<- <-]|[_ Es']]; [|rewrite Es in Es'; by injection Es' as <-].
    rewrite Es in Ex. injection Ex as <-. simpl. by rewrite Hst.
  - cbn [mark_splits_for_delete fst set_splits m_splits] in Es'. by eapply Hmark.
  - cbn [delete_split_row set_splits m_splits] in Es'. apply lookup_delete_Some in Es' as [_ Es'].
    rewrite Es in Es'. by injection Es' as <-.
  - apply swap_splits_inv in E as (x & Ex & Hst & ->). cbn [set_splits m_splits] in Es'.
    apply lookup_fmap_Some in Es' as (y & <- & Ey).
    assert (sp_new y = sp_new s /\ sp_id y = sp_id s /\ rank (sp_state s) <= rank (sp_state y)) as (H1 & H2 & H3).
    { apply lookup_insert_Some in Ey as [[<- <-]|[_ Ey]]; [|rewrite Es in Ey; by injection Ey as <-].
      rewrite Es in Ex. injection Ex as <-. simpl. by rewrite Hst. }
    case_bool_decide; simpl; [|done]. split_and!; [done..|]. by destruct (sp_state s).
  - assert (m_splits d' = m_splits d) as Hm; [|by apply Hsame; rewrite Hm].
    unfold upsert_tombstones in E. destruct items as [|i0 items]; [by injection E as <-|].
    destruct (forallb _ _); [|done]. injection E as <-. generalize (map_to_list (group_max (i0 :: items))). clear.
    intros l. revert d; induction l as [|[k b] l IH]; intros d; simpl; [done|]. rewrite IH.
    unfold upsert_one. by repeat case_match.
  - cbn [mark_tombstones_applied set_splits m_splits] in Es'. apply lookup_alter_Some in Es' as [(-> & x & Ex & ->)|[_ Ex]];
      rewrite Es in Ex; injection Ex as <-; done.
  - by apply Hsame.
Qed.

(** ** Tombstone sequence numbers *)

(** A statement only removes tombstone rows or issues new sequence numbers. *)
Lemma upsert_one_tomb now d kb k t : m_tombstones (upsert_one now d kb) !! k = Some t ->
  m_tombstones d !! k = Some t \/ m_next_tombstone d <= t_seq t.
Proof.
  destruct kb as [k' b]. unfold upsert_one.
  assert (<[k':=mkTombstone (m_next_tombstone d) b now]> (m_tombstones d) !! k = Some t ->
    m_tombstones d !! k = Some t \/ m_next_tombstone d <= t_seq t) as Hi
    by (intros [[<- <-]|[_ E]]%lookup_insert_Some; [right; simpl; lia|by left]).
  destruct (m_tombstones d !! k') as [u|]; [destruct (_ <? b)|]; cbn [m_tombstones]; auto.
Qed.

Lemma upsert_fold_tomb now kbs d k t : m_tombstones (foldl (upsert_one now) d kbs) !! k = Some t ->
  m_tombstones d !! k = Some t \/ m_next_tombstone d <= t_seq t.
Proof.
  revert d; induction kbs as [|kb kbs IH]; intros d; simpl; [by left|]. intros [H|H]%IH.
  - by apply upsert_one_tomb in H.
  - right. etrans; [|exact H]. unfold upsert_one. destruct kb. repeat case_match; simpl; lia.
Qed.

Lemma drop_streams_tomb ids d k t : m_tombstones (foldl drop_stream d ids) !! k = Some t -> m_tombstones d !! k = Some t.
Proof.
  revert d; induction ids as [|i ids IH]; intros d; simpl; [done|].
  intros H%IH. cbn [drop_stream m_tombstones] in H. by apply map_lookup_filter_Some in H as [? _].
Qed.

Lemma meta_step_tomb d d' k t : meta_step d d' -> m_tombstones d' !! k = Some t ->
  m_tombstones d !! k = Some t \/ m_next_tombstone d <= t_seq t.
Proof.
  intros Hs Et.
  destruct Hs as [name mode|name m d' E|name e m|name mode d' E|name h d' E|name|now name d' id E|now|now n d' E Hs
    |id f|now id d' E|now ids|id|now old new d' E|now items d' E|now id through Ht|now grace lim].
  - left. revert Et. unfold ensure_stream_with_mode. by destruct (find_stream d name).
  - left. unfold update_stream_mapping, update_by_name in E. destruct (find_stream d name); [|done]. by injection E as <-.
  - left. revert Et. unfold update_stream_mapping_if. destruct (find_stream d name); [|done]. by destruct (_ && _).
  - left. unfold set_stream_mode in E. destruct (find_stream d name); [|done].
    destruct (holds_splits d _); [by destruct (get_stream d name)|]. by injection E as <-.
  - left. unfold set_stream_retention, update_by_name in E. destruct (find_stream d name); [|done]. by injection E as <-.
  - left. unfold delete_stream in Et. destruct (find_stream d name); [|done].
    cbn [drop_stream m_tombstones] in Et. by apply map_lookup_filter_Some in Et as [? _].
  - left. unfold retire_stream in E. destruct (find_stream d name); [|done]. destruct (deleted _); [done|].
    destruct (find_stream d (retired_name _ _)); [done|]. injection E as <- _. cbn [m_tombstones] in Et.
    by apply map_lookup_filter_Some in Et as [? _].
  - left. cbn [purge_deleted_streams fst] in Et. by apply drop_streams_tomb in Et.
  - left. unfold stage_split in E. destruct (m_splits d !! _); [done|]. destruct (m_streams d !! _); [|done]. by injection E as <-.
  - by left.
  - left. unfold publish_split in E. destruct (m_splits d !! id); [|done]. destruct (decide _); [|done]. by injection E as <-.
  - by left.
  - by left.
  - left. by apply swap_splits_inv in E as (? & _ & _ & ->).
  - unfold upsert_tombstones in E. destruct items as [|i0 items]; [injection E as <-; by left|].
    destruct (forallb _ _); [|done]. injection E as <-. by eapply upsert_fold_tomb.
  - by left.
  - left. cbn [purge_tombstones fst m_tombstones] in Et. by apply map_lookup_filter_Some in Et as [? _].
Qed.

(** ** Pages of tombstones *)

Lemma sorted_take_le {A} (R : relation A) `{!Transitive R} (l : list A) n x y :
  StronglySorted R l -> x ∈ take n l -> y ∈ drop n l -> R x y.
Proof.
  revert n; induction l as [|a l IH]; intros n Hs Hx Hy; [by rewrite take_nil in Hx; apply elem_of_nil in Hx|].
  destruct n as [|n]; [by apply elem_of_nil in Hx|]. apply StronglySorted_inv in Hs as [Hs Hf]. cbn in Hx, Hy.
  apply elem_of_cons in Hx as [->|Hx]; [|by eapply IH].
  apply (proj1 (Forall_forall _ _) Hf). rewrite <- (take_drop n l). apply elem_of_app. by right.
Qed.

#[export] Instance key_le_total {A} (key : A -> Z) : Total (key_le key).
Proof. intros a b. unfold key_le. lia. Qed.
#[export] Instance key_le_trans {A} (key : A -> Z) : Transitive (key_le key).
Proof. intros a b c. unfold key_le. lia. Qed.

Lemma order_by_sorted {A} (key : A -> Z) l : StronglySorted (key_le key) (order_by key l).
Proof. apply StronglySorted_merge_sort; apply _. Qed.
Lemma elem_of_order_by {A} (key : A -> Z) l x : x ∈ order_by key l <-> x ∈ l.
Proof. unfold order_by. by rewrite merge_sort_Permutation. Qed.

Lemma tombstone_rows_in d stream t : t ∈ tombstone_rows d stream <->
  exists u, m_tombstones d !! (stream, tr_doc t) = Some u /\ t = mkTombRec (t_seq u) (tr_doc t) (t_before_seq u).
Proof.
  unfold tombstone_rows. rewrite list_elem_of_fmap. split.
  - intros ([[i doc] u] & -> & Hin). apply list_elem_of_filter in Hin as [Hi Hin]. simpl in Hi. subst.
    apply elem_of_map_to_list in Hin. simpl. eauto.
  - intros (u & E & Et). exists ((stream, tr_doc t), u). split; [done|]. apply list_elem_of_filter.
    split; [done|]. by apply elem_of_map_to_list.
Qed.

(** A page holds every row between its cursor and its last sequence number,
    and every row past the cursor when it is short. *)
Lemma tombstones_since_complete d stream after lim t : meta_wf d ->
  let page := tombstones_since d stream after lim in
  t ∈ tombstone_rows d stream -> after < tr_seq t ->
  ((length page < Z.to_nat lim)%nat \/ exists u, list.last page = Some u /\ tr_seq t <= tr_seq u) -> t ∈ page.
Proof.
  intros Hw page Ht Ha Hc. unfold page, tombstones_since, limit in *.
  set (all := filter (fun t => after < tr_seq t) (tombstone_rows d stream)) in *.
  assert (t ∈ order_by tr_seq all) as Hin by (apply elem_of_order_by, list_elem_of_filter; done).
  rewrite <- (take_drop (Z.to_nat lim)) in Hin. apply elem_of_app in Hin as [Hin|Hin]; [done|].
  destruct Hc as [Hlt|(u & Hu & Hle)].
  - rewrite length_take in Hlt. rewrite drop_ge in Hin by lia. by apply elem_of_nil in Hin.
  - assert (u ∈ take (Z.to_nat lim) (order_by tr_seq all)) as Hu' by by apply last_Some_elem_of.
    pose proof (sorted_take_le _ _ _ _ _ (order_by_sorted tr_seq all) Hu' Hin) as Hr. unfold key_le in Hr.
    assert (u ∈ tombstone_rows d stream) as Hur.
    { assert (u ∈ order_by tr_seq all) as Hx by (rewrite <- (take_drop (Z.to_nat lim)); apply elem_of_app; by left).
      apply elem_of_order_by, list_elem_of_filter in Hx. by destruct Hx. }
    apply tombstone_rows_in in Hur as (x & Ex & Eu). apply tombstone_rows_in in Ht as (y & Ey & Et).
    assert ((stream, tr_doc u) = (stream, tr_doc t)) as Hk.
    { eapply (wf_tomb_seq _ Hw); [done..|]. rewrite Eu in Hle, Hr. rewrite Et in Hle, Hr. simpl in *. lia. }
    injection Hk as Hk. rewrite Hk in Ex, Eu. rewrite Ey in Ex. injection Ex as <-.
    by rewrite Et, <- Eu.
Qed.

Lemma tombstones_since_in d stream after lim t : t ∈ tombstones_since d stream after lim ->
  t ∈ tombstone_rows d stream /\ after < tr_seq t.
Proof.
  unfold tombstones_since, limit. intros Hin.
  assert (t ∈ order_by tr_seq (filter (fun t => after < tr_seq t) (tombstone_rows d stream))) as Hx
    by (rewrite <- (take_drop (Z.to_nat lim)); apply elem_of_app; by left).
  apply elem_of_order_by, list_elem_of_filter in Hx as [? ?]. done.
Qed.

Lemma tombstones_since_sorted d stream after lim : StronglySorted (key_le tr_seq) (tombstones_since d stream after lim).
Proof.
  unfold tombstones_since, limit.
  pose proof (order_by_sorted tr_seq (filter (fun t => after < tr_seq t) (tombstone_rows d stream))) as H.
  revert H. generalize (order_by tr_seq (filter (fun t => after < tr_seq t) (tombstone_rows d stream))) as l.
  generalize (Z.to_nat lim) as n. intros n l; revert n; induction l as [|a l IH]; intros [|n] Hs; simpl; try constructor.
  - apply StronglySorted_inv in Hs as [Hs _]. by apply IH.
  - apply StronglySorted_inv in Hs as [_ Hf]. by apply Forall_take.
Qed.

(** ** The claims *)

(** [C32] Split lifecycle: in every reachable state, whatever statement runs
    next, a split row that survives it keeps its contents (id, stream, key,
    sizes, time and sequence ranges) and only moves forward through staged,
    published, marked for delete; the tables stay well formed (unique stream
    names and tombstone sequence numbers, no row of a missing stream). *)
Theorem split_lifecycle d d' : rtc meta_step empty_metastore d -> meta_step d d' ->
  meta_wf d' /\ forall k s s', m_splits d !! k = Some s -> m_splits d' !! k = Some s' ->
    sp_new s' = sp_new s /\ sp_id s' = sp_id s /\ rank (sp_state s) <= rank (sp_state s').
Proof.
  intros Hr%meta_reachable_wf Hs. split; [by eapply meta_step_wf|]. intros k s s'. by apply meta_step_split.
Qed.

Definition published (d : Metastore) (k : bytes) : Prop :=
  exists s, m_splits d !! k = Some s /\ sp_state s = Published.

(** The merge swap is atomic: it succeeds exactly when the replacement is
    staged, and then the published splits are the old ones less the sources
    plus the replacement; otherwise it is the state conflict and nothing
    changed. *)
Theorem swap_splits_atomic d now old new : meta_wf d -> new ∉ old ->
  match swap_splits d now old new with
  | Ok d' => forall k, published d' k <-> k = new \/ (k ∉ old /\ published d k)
  | Err e => e = SplitStateConflict new /\
      forall s, m_splits d !! new = Some s -> sp_state s <> Staged
  end.
Proof.
  intros Hw Hn. destruct (swap_splits d now old new) as [d'|e] eqn:E.
  - apply swap_splits_inv in E as (s & Es & Hst & ->). intros k. unfold published. cbn [set_splits m_splits]. split.
    + intros (x & (y & <- & Ey)%lookup_fmap_Some & Hx).
      apply lookup_insert_Some in Ey as [[<- <-]|[Hne Ey]]; [by left|right].
      destruct (wf_split _ Hw _ _ Ey) as (Hk & _). rewrite Hk in Hx. case_bool_decide; [done|]. eauto.
    + intros [->|[Hk (x & Ex & Hx)]].
      * eexists. rewrite lookup_fmap, lookup_insert_eq. simpl. split; [done|].
        destruct (wf_split _ Hw _ _ Es) as (Hk & _). unfold sp_split_id in *. cbn [set_state sp_new] in *. rewrite Hk.
        by rewrite bool_decide_false.
      * destruct (wf_split _ Hw _ _ Ex) as (Hid & _). exists x. rewrite lookup_fmap, lookup_insert_ne.
        -- rewrite Ex. simpl. rewrite Hid. by rewrite bool_decide_false.
        -- intros ->. rewrite Es in Ex. injection Ex as <-. congruence.
  - unfold swap_splits, publish_split in E. destruct (m_splits d !! new) as [s|].
    + destruct (decide (sp_state s = Staged)); [done|]. injection E as <-. split; [done|]. by intros ? [= <-].
    + injection E as <-. done.
Qed.

(** Deleting an index: the name is free at once (a lookup misses and a
    create makes a fresh id), no split of the retired id is or can be
    published from the rows that exist, its tombstones are gone; and a split a
    late flush stages under the retired id is marked by the next purge. *)
Theorem retire_stream_spec d now name d' id : meta_wf d -> retire_stream d now name = Ok (d', id) ->
  get_stream d' name = Err (StreamNotFound name) /\
  st_id (ensure_stream d' name).2 <> id /\
  (forall k s now', m_splits d' !! k = Some s -> sp_stream s = id ->
     sp_state s = MarkedForDelete /\ publish_split d' now' k = Err (SplitStateConflict k)) /\
  (forall doc, m_tombstones d' !! (id, doc) = None) /\
  (forall d'' now' k s, meta_wf d'' -> stream_deleted d'' id = true -> sp_stream s = id ->
     m_splits (purge_deleted_streams d'' now').1 !! k = Some s -> sp_state s = MarkedForDelete).
Proof.
  intros Hw E. assert (meta_wf d') as Hw' by (eapply meta_step_wf; [exact Hw|by eapply s_retire]).
  unfold retire_stream in E. destruct (find_stream d name) as [r|] eqn:F; [|done].
  destruct (deleted r) eqn:Hd; [done|]. destruct (find_stream d (retired_name _ _)) eqn:G; [done|].
  pose proof F as [Fr Fn]%find_stream_Some; [|done]. injection E as <- <-. set (r' := mkStream _ _ _ _ _ _) in *.
  set (d' := mkMeta _ _ _ _ _ _) in *.
  assert (find_stream d' name = None) as Hnone.
  { destruct (find_stream d' name) as [x|] eqn:X; [|done]. exfalso. apply find_stream_Some in X as [X Xn]; [|done].
    unfold d' in X. cbn [m_streams] in X. apply lookup_insert_Some in X as [[_ <-]|[Hne X]].
    - revert G. rewrite <- Xn in F. cbn [r' st_name] in F. rewrite F. done.
    - apply Hne. eapply (wf_name _ Hw); [exact Fr|exact X|congruence]. }
  split_and!.
  - unfold get_stream. by rewrite Hnone.
  - unfold ensure_stream, ensure_stream_with_mode. rewrite Hnone. cbn [snd st_id d' m_next_stream].
    destruct (wf_stream _ Hw _ _ Fr). lia.
  - intros k s now' Es Hs. unfold d' in Es. cbn [m_splits] in Es.
    assert (sp_state s = MarkedForDelete) as Hst.
    { apply mark_where_lookup in Es as (x & Ex & ->).
      assert (sp_stream x = st_id r) as Hx by (by destruct (_ && _)).
      rewrite Hx, Z.eqb_refl. simpl. case_bool_decide; done. }
    split; [done|]. unfold publish_split. cbn [d' m_splits]. rewrite Es. by rewrite decide_False by by rewrite Hst.
  - intros doc. cbn [d' m_tombstones]. apply map_lookup_filter_None. right. intros t _ Hne. by apply Hne.
  - intros d'' now' k s Hw'' Hdel Hs Es. cbn [purge_deleted_streams fst] in Es. apply drop_streams_lookup in Es.
    cbn [set_splits m_splits] in Es. apply mark_where_lookup in Es as (x & Ex & ->).
    assert (sp_stream x = st_id r) as Hx by (by destruct (_ && _)). rewrite Hx, Hdel. simpl. by case_bool_decide.
Qed.

(** ** Concrete tables *)

Definition demo_split (id : string) (stream : Z) : NewSplit :=
  mkNewSplit (str id) stream (str "k") 1 1 0 9 0 None (Some 1) (Some 5) 0 1 None.
Definition m0 : Metastore := (ensure_stream_with_mode empty_metastore (str "logs") Document).1.
Definition m1 : Metastore := match stage_split m0 0 (demo_split "a" 1) with Ok d => d | Err _ => m0 end.
Definition m2 : Metastore := match publish_split m1 1 (str "a") with Ok d => d | Err _ => m1 end.
Definition m3 : Metastore := match stage_split m2 2 (demo_split "b" 1) with Ok d => d | Err _ => m2 end.

Lemma m3_reach : rtc meta_step empty_metastore m3.
Proof.
  eapply rtc_l; [exact (s_ensure empty_metastore (str "logs") Document)|].
  eapply rtc_l; [apply (s_stage m0 0 (demo_split "a" 1) m1); [reflexivity|reflexivity]|].
  eapply rtc_l; [apply (s_publish m1 1 (str "a") m2); reflexivity|].
  eapply rtc_l; [apply (s_stage m2 2 (demo_split "b" 1) m3); [reflexivity|reflexivity]|].
  apply rtc_refl.
Qed.

Definition m4 : Metastore := match swap_splits m3 3 [str "a"] (str "b") with Ok d => d | Err _ => m3 end.
Lemma split_lifecycle_witness : meta_wf m4.
Proof. apply (split_lifecycle m3 m4 m3_reach). by eapply (s_swap m3 3 [str "a"] (str "b")). Defined.

Lemma swap_splits_atomic_witness : published m4 (str "b") /\ ~ published m4 (str "a").
Proof.
  pose proof (swap_splits_atomic m3 3 [str "a"] (str "b") (meta_reachable_wf _ m3_reach)
    ltac:(by apply (bool_decide_unpack (_ ∉ _)))) as H.
  change (swap_splits m3 3 [str "a"] (str "b")) with (Ok m4 : result MetastoreError Metastore) in H. cbv beta iota in H.
  split; [by apply H; left|]. intros Ha%H. destruct Ha as [Ha|[Ha _]]; [by vm_compute in Ha|]. apply Ha. by left.
Defined.

Definition m5 : Metastore := match retire_stream m3 4 (str "logs") with Ok (d, _) => d | Err _ => m3 end.
Lemma retire_stream_spec_witness : get_stream m5 (str "logs") = Err (StreamNotFound (str "logs")).
Proof. by apply (retire_stream_spec m3 4 (str "logs") m5 1 (meta_reachable_wf _ m3_reach)). Defined.
