(* ===== verification/Exclusions.v ===== *)
(** * Tombstones applied to splits (crates/rsearch-index/src/exclusions.rs)
    and the per-stream tombstone cache that feeds them
    (crates/rsearch-search/src/executor.rs)

    A split's segments are tantivy's: for each, the documents a term's postings
    list and the first value of the [_seq] column are given by [Segment]. *)

From Stdlib Require Import ZArith Lia.
From Stdlib Require Import Strings.Byte.
From stdpp Require Import base gmap sets list strings sorting.
From S2P Require Import Prelude Json Metastore.

Local Open Scope Z_scope.

(** ** Splits as tantivy serves them *)

Record Segment := mkSegment {
  segment_id : Z;
  postings : bytes -> list Z;   (** documents whose [_id] is the term; [[]]: no such term *)
  first_seq : Z -> option Z;    (** [seq_column.first(doc)] *)
}.
Record SplitView := mkView {
  has_id : bool;                (** [mapped_schema().id.is_some()] *)
  view_seq_min : option Z;      (** [meta.split.seq_min] *)
  segments : list Segment;
}.

(** ** [ExclusionSet] *)

Notation Tombstone := TombstoneRecord.

Record ExclusionSet := mkExcl {
  applied_through : Z;
  per_segment : list (list Z);
  ordinals : gmap Z nat;
  total : Z;
}.

Definition enumerate {A} (l : list A) : list (nat * A) := zip (seq 0 (length l)) l.

Definition excl_empty (segment_ids : list Z) : ExclusionSet :=
  mkExcl 0 (replicate (length segment_ids) []) (list_to_map ((fun p => (p.2, p.1)) <$> enumerate segment_ids)) 0.

Definition for_segment (s : ExclusionSet) (id : Z) : list Z :=
  default [] (ord ← ordinals s !! id; per_segment s !! ord).
Definition excl_len (s : ExclusionSet) : Z := total s.
Definition excl_is_empty (s : ExclusionSet) : bool := total s =? 0.

(** [slice::binary_search(..).is_ok()]: halving an interval of a sorted slice. *)
Fixpoint binary_search (fuel : nat) (l : list Z) (lo hi : nat) (x : Z) : bool :=
  match fuel with
  | O => false
  | S f =>
      if (hi <=? lo)%nat then false
      else
        let mid := (lo + (hi - lo) / 2)%nat in
        let y := default 0 (l !! mid) in
        if y =? x then true
        else if y <? x then binary_search f l (mid + 1) hi x else binary_search f l lo mid x
  end.
Definition contains (s : ExclusionSet) (segment_ord : nat) (doc : Z) : bool :=
  match per_segment s !! segment_ord with
  | Some docs => binary_search (S (length docs)) docs 0 (length docs) doc
  | None => false
  end.

(** [Vec::dedup]. *)
Fixpoint dedup (l : list Z) : list Z :=
  match l with
  | x :: ((y :: _) as r) => if x =? y then dedup r else x :: dedup r
  | _ => l
  end.

Definition merge_docs (existing added : list Z) : list Z :=
  match added with
  | [] => existing
  | _ => dedup (merge_sort Z.le (existing ++ added))
  end.

Definition extended (s : ExclusionSet) (additions : list (list Z)) (through : Z) : ExclusionSet :=
  let per := (fun p => merge_docs p.2 (default [] (additions !! p.1))) <$> enumerate (per_segment s) in
  mkExcl through per (ordinals s) (foldr Z.add 0 ((fun d : list Z => Z.of_nat (length d)) <$> per)).

(** ** [apply_tombstones] and [seed_applied_through] *)

(** [seq_column.first(doc).is_some_and(|seq| seq < before_seq)]. *)
Definition older (seg : Segment) (before : Z) (doc : Z) : bool :=
  match first_seq seg doc with Some s => s <? before | None => false end.

(** What one segment's postings loop collects for the pending tombstones. *)
Definition segment_additions (seq_min : option Z) (pending : list Tombstone) (seg : Segment) : list Z :=
  concat ((fun t =>
    if match seq_min with Some m => tr_before_seq t <=? m | None => false end then []
    else filter (fun doc => older seg (tr_before_seq t) doc = true) (postings seg (tr_doc t))) <$> pending).

(** [partition_point(|t| t.seq <= applied)] of an ascending list. *)
Fixpoint partition_point (applied : Z) (ts : list Tombstone) : nat :=
  match ts with
  | t :: ts => if tr_seq t <=? applied then S (partition_point applied ts) else O
  | [] => O
  end.

Definition apply_tombstones (v : SplitView) (current : ExclusionSet) (ts : list Tombstone) : ExclusionSet :=
  let pending := drop (partition_point (applied_through current) ts) ts in
  match list.last pending with
  | None => current
  | Some lst =>
      if has_id v then extended current (segment_additions (view_seq_min v) pending <$> segments v) (tr_seq lst)
      else extended current [] (tr_seq lst)
  end.

Definition seed_applied_through (s : ExclusionSet) (through : Z) : ExclusionSet :=
  if (applied_through s =? 0) && excl_is_empty s && (0 <? through)
  then mkExcl through (per_segment s) (ordinals s) 0 else s.

(** ** [SortedDocSet] *)

Definition TERMINATED : Z := 2 ^ 31 - 1. (** tantivy's [i32::MAX as u32] *)
Record SortedDocSet := mkDocs { docs : list Z; cursor : nat }.
Definition docset_new (l : list Z) : SortedDocSet := mkDocs l 0.
Definition doc (s : SortedDocSet) : Z := default TERMINATED (docs s !! cursor s).
Definition advance (s : SortedDocSet) : SortedDocSet := mkDocs (docs s) (Nat.min (cursor s + 1) (length (docs s))).
Fixpoint count_less (target : Z) (l : list Z) : nat :=
  match l with
  | d :: l => if d <? target then S (count_less target l) else O
  | [] => O
  end.
Definition seek (s : SortedDocSet) (target : Z) : SortedDocSet :=
  mkDocs (docs s) (cursor s + count_less target (drop (Nat.min (cursor s) (length (docs s))) (docs s)))%nat.
Definition size_hint (s : SortedDocSet) : Z := wrap_u 32 (Z.of_nat (length (docs s) - cursor s)).

(** ** The tombstone cache of the search executor *)

Definition TOMBSTONE_CACHE_TTL : Z := 1000.
Definition TOMBSTONE_PAGE : Z := 10000.
Definition TOMBSTONE_REBUILD_EVERY : Z := 300000.

Record StreamTombstones := mkCached {
  entries : list Tombstone; fetched_at : option Z; rebuilt_at : Z;
}.
Definition fresh (now : Z) (c : StreamTombstones) : bool :=
  match fetched_at c with Some at_ => now - at_ <? TOMBSTONE_CACHE_TTL | None => false end.

(** Where a refresh starts: the cached list and its last [seq], or nothing. *)
Definition refresh_start (now : Z) (cached : option StreamTombstones) : list Tombstone * Z * Z :=
  match cached with
  | Some c =>
      if (TOMBSTONE_REBUILD_EVERY <=? now - rebuilt_at c) then ([], 0, now)
      else (entries c, match list.last (entries c) with Some t => tr_seq t | None => 0 end, rebuilt_at c)
  | None => ([], 0, now)
  end.

(** The page loop: [dbs] is what each round trip finds the tables to be.
    [None]: out of round trips before a short page. *)
Fixpoint read_pages (stream_id : Z) (dbs : list Metastore) (list_ : list Tombstone) (after : Z) :
    option (list Tombstone) :=
  match dbs with
  | [] => None
  | d :: dbs =>
      let page := tombstones_since d stream_id after TOMBSTONE_PAGE in
      let done := (Z.of_nat (length page) <? TOMBSTONE_PAGE) in
      match list.last page with
      | None => Some list_
      | Some lst =>
          let list_ := list_ ++ page in
          if done then Some list_ else read_pages stream_id dbs list_ (tr_seq lst)
      end
  end.

(** The cache as one map; the refresh reads first and installs afterwards. *)
Notation TombstoneCache := (gmap Z StreamTombstones).
Definition install (now : Z) (m : TombstoneCache) (stream_id : Z) (list_ : list Tombstone) (rebuilt : Z) : TombstoneCache :=
  let m := if (10000 <? size m)%nat then ∅ else m in
  <[stream_id := mkCached list_ (Some now) rebuilt]> m.
Definition tombstones_for (m : TombstoneCache) (now now' stream_id : Z) (dbs : list Metastore) :
    option (TombstoneCache * list Tombstone) :=
  match m !! stream_id with
  | Some c =>
      if fresh now c then Some (m, entries c)
      else let '(l, after, rebuilt) := refresh_start now (Some c) in
           l ← read_pages stream_id dbs l after; Some (install now' m stream_id l rebuilt, l)
  | None =>
      let '(l, after, rebuilt) := refresh_start now None in
      l ← read_pages stream_id dbs l after; Some (install now' m stream_id l rebuilt, l)
  end.
Definition invalidate_tombstones (m : TombstoneCache) (stream_id : Z) : TombstoneCache :=
  alter (fun c => mkCached (entries c) None (rebuilt_at c)) stream_id m.

(** ** Specification *)

(** A document hidden by some tombstone of [ts]. *)
Definition hides (seg : Segment) (t : Tombstone) (doc : Z) : Prop :=
  doc ∈ postings seg (tr_doc t) /\ exists s, first_seq seg doc = Some s /\ s < tr_before_seq t.
Definition hidden (v : SplitView) (ts : list Tombstone) (ord : nat) (doc : Z) : Prop :=
  exists seg t, segments v !! ord = Some seg /\ t ∈ ts /\ hides seg t doc.

(** [seq_min] is the lowest [_seq] of the split (split metadata). *)
Definition view_ok (v : SplitView) : Prop := forall m seg doc s, view_seq_min v = Some m ->
  seg ∈ segments v -> first_seq seg doc = Some s -> m <= s.

Notation ascending := (StronglySorted (fun a b : Tombstone => tr_seq a < tr_seq b)).

(** ** Sorted document lists *)

Lemma dedup_in l x : x ∈ dedup l <-> x ∈ l.
Proof.
  induction l as [|a l IH]; [done|]. destruct l as [|b l]; [done|]. cbn [dedup].
  destruct (Z.eqb_spec a b) as [->|]; [rewrite IH|]; set_solver.
Qed.

Lemma dedup_sorted l : StronglySorted Z.le l -> StronglySorted Z.lt (dedup l).
Proof.
  induction l as [|a l IH]; intros Hs; [constructor|]. destruct l as [|b l]; [constructor; constructor|].
  cbn [dedup]. apply StronglySorted_inv in Hs as [Hs Hf]. destruct (Z.eqb_spec a b) as [->|Hne]; [by apply IH|].
  constructor; [by apply IH|]. apply Forall_forall. intros x Hx.
  change (x ∈ dedup (b :: l)) in Hx. rewrite dedup_in in Hx.
  pose proof (proj1 (Forall_forall _ _) Hf b ltac:(by left)).
  apply elem_of_cons in Hx as [->|Hx]; [lia|].
  apply StronglySorted_inv in Hs as [_ Hf']. pose proof (proj1 (Forall_forall _ _) Hf' x Hx). lia.
Qed.

Lemma merge_docs_in a b x : x ∈ merge_docs a b <-> x ∈ a \/ x ∈ b.
Proof.
  destruct b as [|y b]; [simpl; set_solver|]. unfold merge_docs.
  rewrite dedup_in, merge_sort_Permutation. apply elem_of_app.
Qed.

Lemma merge_docs_sorted a b : StronglySorted Z.lt a -> StronglySorted Z.lt (merge_docs a b).
Proof. intros Ha. destruct b; [done|]. apply dedup_sorted, StronglySorted_merge_sort; apply _. Qed.

Lemma lt_sorted_lookup l i j x y : StronglySorted Z.lt l -> (i < j)%nat -> l !! i = Some x -> l !! j = Some y -> x < y.
Proof.
  revert i j; induction l as [|a l IH]; intros i j Hs Hij Hi Hj; [done|].
  apply StronglySorted_inv in Hs as [Hs Hf]. destruct j as [|j]; [lia|]. destruct i as [|i].
  - injection Hi as <-. apply (proj1 (Forall_forall _ _) Hf). by eapply list_elem_of_lookup_2.
  - eapply (IH i j); [done|lia|done|done].
Qed.

(** Halving a strictly sorted slice finds exactly its members. *)
Lemma binary_search_spec fuel l lo hi x : StronglySorted Z.lt l -> (hi <= length l)%nat -> (hi - lo < fuel)%nat ->
  binary_search fuel l lo hi x = true <-> exists i, (lo <= i < hi)%nat /\ l !! i = Some x.
Proof.
  intros Hs. revert lo hi; induction fuel as [|fuel IH]; intros lo hi Hh Hf; [lia|]. cbn [binary_search].
  destruct (Nat.leb_spec hi lo); [split; [done|]; intros (i & ? & _); lia|].
  set (mid := (lo + (hi - lo) / 2)%nat).
  assert (lo <= mid < hi)%nat as Hm by (unfold mid; pose proof (Nat.div_lt (hi - lo) 2); lia).
  destruct (lookup_lt_is_Some_2 l mid) as [y Ey]; [lia|]. rewrite Ey. cbn [default from_option id].
  destruct (Z.eqb_spec y x) as [->|Hne]; [split; [|done]; intros _; by exists mid|].
  destruct (Z.ltb_spec y x) as [Hlt|Hge].
  - rewrite IH by lia. split; intros (i & Hi & Ei); exists i; (split; [|done]); [lia|].
    destruct (decide (mid < i)%nat); [lia|]. destruct (decide (i = mid)) as [->|]; [congruence|].
    pose proof (lt_sorted_lookup l i mid x y Hs ltac:(lia) Ei Ey). lia.
  - rewrite IH by lia. split; intros (i & Hi & Ei); exists i; (split; [|done]); [lia|].
    destruct (decide (i < mid)%nat); [lia|]. destruct (decide (i = mid)) as [->|]; [congruence|].
    pose proof (lt_sorted_lookup l mid i y x Hs ltac:(lia) Ey Ei). lia.
Qed.

(** ** The exclusion set's invariant *)

Record excl_ok (v : SplitView) (s : ExclusionSet) : Prop := {
  ok_length : length (per_segment s) = length (segments v);
  ok_sorted : Forall (StronglySorted Z.lt) (per_segment s);
  ok_total : total s = foldr Z.add 0 ((fun d : list Z => Z.of_nat (length d)) <$> per_segment s);
}.

Lemma contains_spec v s ord doc : excl_ok v s ->
  contains s ord doc = true <-> exists docs, per_segment s !! ord = Some docs /\ doc ∈ docs.
Proof.
  intros Hok. unfold contains. destruct (per_segment s !! ord) as [ds|] eqn:E; [|split; [done|]; by intros (? & ? & _)].
  rewrite binary_search_spec; [|by eapply Forall_lookup_1; [apply Hok|]|done|lia].
  setoid_rewrite list_elem_of_lookup. split.
  - intros (i & _ & Ei). exists ds. split; [done|]. by exists i.
  - intros (? & [= <-] & i & Ei). exists i. split; [|done]. apply lookup_lt_Some in Ei. lia.
Qed.

Lemma zip_seq_lookup {A} (l : list A) n i : zip (seq n (length l)) l !! i = (fun x => ((n + i)%nat, x)) <$> l !! i.
Proof.
  revert n i; induction l as [|x l IH]; intros n [|i]; simpl; try done.
  - by rewrite Nat.add_0_r.
  - rewrite IH. destruct (l !! i); simpl; [|done]. do 2 f_equal. lia.
Qed.
Lemma enumerate_lookup {A} (l : list A) i : enumerate l !! i = (fun x => (i, x)) <$> l !! i.
Proof. apply zip_seq_lookup. Qed.
Lemma enumerate_elem {A} (l : list A) n x : (n, x) ∈ enumerate l <-> l !! n = Some x.
Proof.
  rewrite list_elem_of_lookup. setoid_rewrite enumerate_lookup. split.
  - intros (i & H). destruct (l !! i) eqn:E; [|done]. by injection H as <- <-.
  - intros H. exists n. by rewrite H.
Qed.

Lemma extended_lookup s adds n ord : per_segment (extended s adds n) !! ord =
  (fun d => merge_docs d (default [] (adds !! ord))) <$> per_segment s !! ord.
Proof. unfold extended. cbn [per_segment]. rewrite list_lookup_fmap, enumerate_lookup. by destruct (per_segment s !! ord). Qed.

Lemma extended_ok v s adds n : excl_ok v s -> excl_ok v (extended s adds n).
Proof.
  intros Hok. split; [|apply Forall_lookup; intros i d|done].
  - unfold extended. cbn [per_segment]. unfold enumerate. rewrite length_fmap, length_zip, length_seq.
    rewrite (ok_length _ _ Hok). lia.
  - rewrite extended_lookup. destruct (per_segment s !! i) as [e|] eqn:E; [|done]. intros [= <-].
    apply merge_docs_sorted. by eapply Forall_lookup_1; [apply Hok|].
Qed.

Lemma extended_contains v s adds n ord doc : excl_ok v s ->
  contains (extended s adds n) ord doc = true <->
  contains s ord doc = true \/ ((ord < length (segments v))%nat /\ doc ∈ default [] (adds !! ord)).
Proof.
  intros Hok. rewrite (contains_spec v) by by apply extended_ok. rewrite (contains_spec v) by done.
  rewrite extended_lookup. destruct (per_segment s !! ord) as [e|] eqn:E; simpl.
  - assert (ord < length (segments v))%nat by (rewrite <- (ok_length _ _ Hok); by eapply lookup_lt_Some).
    split.
    + intros (? & [= <-] & Hd). rewrite merge_docs_in in Hd. destruct Hd; [left; by exists e|by right].
    + intros [(? & [= <-] & Hd)|[_ Hd]]; (eexists; split; [done|]); rewrite merge_docs_in; auto.
  - apply lookup_ge_None in E. rewrite (ok_length _ _ Hok) in E. split; [by intros (? & ? & _)|].
    intros [(? & ? & _)|[? _]]; [done|lia].
Qed.

Lemma segment_additions_in v seg ts doc : view_ok v -> seg ∈ segments v ->
  doc ∈ segment_additions (view_seq_min v) ts seg <-> exists t, t ∈ ts /\ hides seg t doc.
Proof.
  intros Hv Hseg. unfold segment_additions. rewrite list_elem_of_In, in_concat.
  setoid_rewrite <- list_elem_of_In. split.
  - intros (l & Hl & Hd). apply list_elem_of_fmap in Hl as (t & -> & Ht). exists t. split; [done|].
    case_match; [by apply elem_of_nil in Hd|]. apply list_elem_of_filter in Hd as [Hs Hd]. split; [done|].
    unfold older in Hs. destruct (first_seq seg doc) as [s|]; [|done]. exists s. split; [done|]. by apply Z.ltb_lt.
  - intros (t & Ht & Hd & s & Es & Hlt). eexists. split; [apply list_elem_of_fmap; by exists t|].
    assert (doc ∈ filter (fun doc => older seg (tr_before_seq t) doc = true) (postings seg (tr_doc t))) as Hin.
    { apply list_elem_of_filter. unfold older. rewrite Es. split; [by apply Z.ltb_lt|done]. }
    destruct (view_seq_min v) as [m|] eqn:Em; [|done].
    pose proof (Hv m seg doc s Em Hseg Es). destruct (Z.leb_spec (tr_before_seq t) m); [lia|done].
Qed.

Lemma partition_point_drop a ts t : ascending ts ->
  t ∈ drop (partition_point a ts) ts <-> t ∈ ts /\ a < tr_seq t.
Proof.
  induction ts as [|u ts IH]; intros Hs; [simpl; set_solver|]. cbn [partition_point].
  apply StronglySorted_inv in Hs as [Hs Hf]. destruct (Z.leb_spec (tr_seq u) a); cbn [drop].
  - rewrite IH by done. split; [intros [? ?]; split; [by right|done]|].
    intros [[->|?]%elem_of_cons ?]; [lia|done].
  - split; [|by intros [? _]]. intros Hin. split; [done|].
    apply elem_of_cons in Hin as [->|Hin]; [lia|]. pose proof (proj1 (Forall_forall _ _) Hf t Hin). simpl in *. lia.
Qed.

Lemma last_drop_lt {A} (l : list A) n : (n < length l)%nat -> list.last (drop n l) = list.last l.
Proof. intros H. rewrite !last_lookup, lookup_drop, length_drop. f_equal. lia. Qed.

(** One application: what was excluded stays, and the tombstones past the
    applied bound add exactly what they hide. *)
Lemma apply_tombstones_step v s ts : view_ok v -> has_id v = true -> excl_ok v s -> ascending ts ->
  excl_ok v (apply_tombstones v s ts) /\
  (forall ord doc, contains (apply_tombstones v s ts) ord doc = true <->
     contains s ord doc = true \/ hidden v (filter (fun t => applied_through s < tr_seq t) ts) ord doc) /\
  applied_through (apply_tombstones v s ts) =
    Z.max (applied_through s) (match list.last ts with Some t => tr_seq t | None => applied_through s end).
Proof.
  intros Hv Hid Hok Hs. unfold apply_tombstones. rewrite Hid.
  set (pending := drop _ ts).
  assert (forall t, t ∈ pending <-> t ∈ filter (fun t => applied_through s < tr_seq t) ts) as Hp.
  { intros t. unfold pending. rewrite partition_point_drop, list_elem_of_filter by done. tauto. }
  destruct (list.last pending) as [lst|] eqn:El.
  - split_and!; [by apply extended_ok| |].
    + intros ord doc. rewrite (extended_contains v) by done. rewrite list_lookup_fmap. unfold hidden. setoid_rewrite <- Hp.
      destruct (segments v !! ord) as [seg|] eqn:Es; simpl.
      * rewrite (segment_additions_in v) by (done || by eapply list_elem_of_lookup_2).
        apply lookup_lt_Some in Es. naive_solver.
      * split; [intros [?|[_ H]]; [by left|by apply elem_of_nil in H]|]. intros [?|(? & ? & ? & _)]; [by left|done].
    + cbn [extended applied_through].
      assert (list.last ts = Some lst) as ->.
      { assert (0 < length pending)%nat as Hl by (destruct pending; [done|simpl; lia]).
        unfold pending in El, Hl. rewrite length_drop in Hl. rewrite <- El, last_drop_lt; [done|lia]. }
      assert (lst ∈ pending) as Hin by by apply last_Some_elem_of.
      apply Hp, list_elem_of_filter in Hin as [? _]. lia.
  - apply last_None in El as Hnil.
    split_and!; [done| |].
    + intros ord doc. split; [by left|]. intros [?|(seg & t & _ & Ht & _)]; [done|].
      apply Hp in Ht. rewrite Hnil in Ht. by apply elem_of_nil in Ht.
    + destruct (list.last ts) as [t|] eqn:Et; [|lia].
      destruct (decide (applied_through s < tr_seq t)); [|lia].
      assert (t ∈ pending) as Hin by (apply Hp, list_elem_of_filter; split; [done|by apply last_Some_elem_of]).
      rewrite Hnil in Hin. by apply elem_of_nil in Hin.
Qed.

Lemma excl_empty_ok v ids : length ids = length (segments v) -> excl_ok v (excl_empty ids).
Proof.
  intros Hl. split; cbn [excl_empty per_segment total].
  - by rewrite length_replicate.
  - apply Forall_replicate. constructor.
  - clear Hl. induction (length ids) as [|n IH]; simpl; [done|]. unfold fmap in IH. by rewrite <- IH.
Qed.

Lemma excl_empty_contains ids ord doc : contains (excl_empty ids) ord doc = false.
Proof.
  unfold contains, excl_empty. cbn [per_segment]. destruct (replicate _ [] !! ord) as [l|] eqn:E; [|done].
  apply lookup_replicate in E as [-> _]. done.
Qed.

(** ** Reading tombstones page by page *)

Definition last_seq (l : list Tombstone) : Z := match list.last l with Some t => tr_seq t | None => 0 end.

(** What a list read so far is good for: it ascends, it was issued, and it
    holds every row the tables still have up to its last number. *)
Record list_ok (d : Metastore) (stream : Z) (l : list Tombstone) : Prop := {
  lo_asc : ascending l;
  lo_issued t : t ∈ l -> 0 < tr_seq t < m_next_tombstone d;
  lo_complete t : t ∈ tombstone_rows d stream -> tr_seq t <= last_seq l -> t ∈ l;
}.

Lemma ascending_last l t : ascending l -> t ∈ l -> tr_seq t <= last_seq l.
Proof.
  induction l as [|a l IH]; intros Hs Ht; [by apply elem_of_nil in Ht|].
  apply StronglySorted_inv in Hs as [Hs Hf]. unfold last_seq. rewrite last_cons.
  apply elem_of_cons in Ht as [->|Ht].
  - destruct (list.last l) as [u|] eqn:E; [|lia]. apply last_Some_elem_of in E.
    pose proof (proj1 (Forall_forall _ _) Hf u E). simpl in *. lia.
  - specialize (IH Hs Ht). unfold last_seq in IH. destruct (list.last l) eqn:E; [done|].
    apply last_None in E as ->. by apply elem_of_nil in Ht.
Qed.

Lemma ascending_app l m : ascending l -> ascending m -> (forall x y, x ∈ l -> y ∈ m -> tr_seq x < tr_seq y) ->
  ascending (l ++ m).
Proof.
  induction l as [|a l IH]; intros Hl Hm Hlt; [done|]. simpl.
  apply StronglySorted_inv in Hl as [Hl Hf]. constructor.
  - apply IH; [done..|]. intros x y ? ?. apply Hlt; [by right|done].
  - apply Forall_app. split; [done|]. apply Forall_forall. intros x Hx. apply Hlt; [by left|done].
Qed.

Lemma last_seq_app l m : m <> [] -> last_seq (l ++ m) = last_seq m.
Proof. intros Hm. unfold last_seq. rewrite last_app. by destruct (list.last m) eqn:E; [|apply last_None in E]. Qed.

Lemma rows_next d stream t : meta_wf d -> t ∈ tombstone_rows d stream -> tr_seq t < m_next_tombstone d.
Proof. intros Hw (u & E & ->)%tombstone_rows_in. by destruct (wf_tomb _ Hw _ _ E). Qed.

Lemma page_ascending d stream after lim : meta_wf d -> ascending (tombstones_since d stream after lim).
Proof.
  intros Hw. assert (NoDup (tombstones_since d stream after lim)) as Hnd.
  { unfold tombstones_since, limit.
    apply (NoDup_app _ (drop (Z.to_nat lim) (order_by tr_seq (filter (fun t => after < tr_seq t) (tombstone_rows d stream))))).
    rewrite take_drop. unfold order_by. rewrite merge_sort_Permutation. apply NoDup_filter. unfold tombstone_rows.
    apply NoDup_fmap_2_strong; [|apply NoDup_filter, NoDup_map_to_list].
    intros [[i x] u] [[j y] v] Hx Hy. apply list_elem_of_filter in Hx as [Hi Hx], Hy as [Hj Hy].
    simpl in *. subst. intros [= H1 -> H2]. f_equal.
    apply elem_of_map_to_list in Hx, Hy. congruence. }
  pose proof (tombstones_since_sorted d stream after lim) as Hs.
  assert (forall t, t ∈ tombstones_since d stream after lim -> t ∈ tombstone_rows d stream) as Hin
    by (intros t Ht; by apply tombstones_since_in in Ht as [? _]).
  revert Hnd Hs Hin. generalize (tombstones_since d stream after lim) as l. clear lim.
  induction l as [|a l IH]; intros Hnd Hs Hin; [constructor|].
  apply NoDup_cons in Hnd as [Ha Hnd]. apply StronglySorted_inv in Hs as [Hs Hf].
  constructor; [apply IH; [done..|]; intros; apply Hin; by right|]. apply Forall_forall. intros x Hx.
  pose proof (proj1 (Forall_forall _ _) Hf x Hx) as Hle. unfold key_le in Hle.
  destruct (decide (tr_seq a = tr_seq x)) as [He|]; [|lia]. exfalso. apply Ha.
  assert (a ∈ tombstone_rows d stream) as (u & Eu & Hu)%tombstone_rows_in by (apply Hin; by left).
  assert (x ∈ tombstone_rows d stream) as (w & Ew & Hw')%tombstone_rows_in by (apply Hin; by right).
  assert ((stream, tr_doc a) = (stream, tr_doc x)) as Hk.
  { eapply (wf_tomb_seq _ Hw); [done..|]. rewrite Hu, Hw' in He. done. }
  injection Hk as Hk. rewrite Hk in Eu, Hu. rewrite Eu in Ew. injection Ew as <-. by rewrite Hu, <- Hw'.
Qed.

(** A page read extends a good list by everything up to its last row; a short
    page makes the list complete. *)
Lemma page_ok d stream l : meta_wf d -> (forall t, t ∈ tombstone_rows d stream -> 0 < tr_seq t) -> list_ok d stream l ->
  let page := tombstones_since d stream (last_seq l) TOMBSTONE_PAGE in
  list_ok d stream (l ++ page) /\
  (Z.of_nat (length page) < TOMBSTONE_PAGE -> forall t, t ∈ tombstone_rows d stream -> t ∈ l ++ page).
Proof.
  intros Hw Hpos Hl page.
  assert (forall x y, x ∈ l -> y ∈ page -> tr_seq x < tr_seq y) as Hlt.
  { intros x y Hx Hy. apply tombstones_since_in in Hy as [_ Hy].
    pose proof (ascending_last l x (lo_asc _ _ _ Hl) Hx). lia. }
  assert (forall t, t ∈ tombstone_rows d stream ->
    ((length page < Z.to_nat TOMBSTONE_PAGE)%nat \/ exists u, list.last page = Some u /\ tr_seq t <= tr_seq u) -> t ∈ l ++ page) as Hc.
  { intros t Ht Hp. apply elem_of_app. destruct (Z.le_gt_cases (tr_seq t) (last_seq l)).
    - left. by apply (lo_complete _ _ _ Hl).
    - right. apply tombstones_since_complete; [done|done|lia|done]. }
  split; [split|].
  - apply ascending_app; [apply Hl|by apply page_ascending|done].
  - intros t [Ht|Ht]%elem_of_app; [by apply (lo_issued _ _ _ Hl)|].
    apply tombstones_since_in in Ht as [Ht _]. split; [by apply Hpos|by eapply rows_next].
  - intros t Ht Hle. destruct (list.last page) as [u|] eqn:E.
    + apply Hc; [done|]. right. exists u. split; [done|].
      rewrite last_seq_app in Hle by (intros E'; by rewrite E' in E). unfold last_seq in Hle. by rewrite E in Hle.
    + apply last_None in E. rewrite E in Hle |- *. rewrite app_nil_r in *. by apply (lo_complete _ _ _ Hl).
  - intros Hshort t Ht. apply Hc; [done|]. left. lia.
Qed.

Lemma meta_step_next d d' : meta_step d d' -> m_next_tombstone d <= m_next_tombstone d'.
Proof.
  assert (forall ids d, m_next_tombstone (foldl drop_stream d ids) = m_next_tombstone d) as Hdrop.
  { induction ids as [|i ids IH]; intros d0; [done|]. simpl. by rewrite IH. }
  assert (forall now kbs d, m_next_tombstone d <= m_next_tombstone (foldl (upsert_one now) d kbs)) as Hup.
  { intros now. induction kbs as [|[k b] kbs IH]; intros d0; simpl; [done|]. etrans; [|apply IH].
    unfold upsert_one. repeat case_match; simpl; lia. }
  intros Hs.
  destruct Hs as [name mode|name m d' E|name e m|name mode d' E|name h d' E|name|now name d' id E|now|now n d' E Hs
    |id f|now id d' E|now ids|id|now old new d' E|now items d' E|now id through Ht|now grace lim]; try done.
  - unfold ensure_stream_with_mode. by destruct (find_stream d name).
  - unfold update_stream_mapping, update_by_name in E. destruct (find_stream d name); [|done]. by injection E as <-.
  - unfold update_stream_mapping_if. destruct (find_stream d name); [|done]. by destruct (_ && _).
  - unfold set_stream_mode in E. destruct (find_stream d name); [|done].
    destruct (holds_splits d _); [by destruct (get_stream d name)|]. by injection E as <-.
  - unfold set_stream_retention, update_by_name in E. destruct (find_stream d name); [|done]. by injection E as <-.
  - unfold delete_stream. by destruct (find_stream d name).
  - unfold retire_stream in E. destruct (find_stream d name); [|done]. destruct (deleted _); [done|].
    destruct (find_stream d (retired_name _ _)); [done|]. by injection E as <- _.
  - cbn [purge_deleted_streams fst]. by rewrite Hdrop.
  - unfold stage_split in E. destruct (m_splits d !! _); [done|]. destruct (m_streams d !! _); [|done]. by injection E as <-.
  - unfold publish_split in E. destruct (m_splits d !! id); [|done]. destruct (decide _); [|done]. by injection E as <-.
  - by apply swap_splits_inv in E as (? & _ & _ & ->).
  - unfold upsert_tombstones in E. destruct items as [|i0 items]; [by injection E as <-|].
    destruct (forallb _ _); [|done]. by injection E as <-.
Qed.

(** Other statements running in between only remove rows or issue newer ones. *)
Lemma list_ok_step d d' stream l : meta_wf d -> list_ok d stream l -> meta_step d d' -> list_ok d' stream l.
Proof.
  intros Hw Hl Hs. pose proof (meta_step_next _ _ Hs). split.
  - apply Hl.
  - intros t Ht. pose proof (lo_issued _ _ _ Hl t Ht). lia.
  - intros t (u & E & Et)%tombstone_rows_in Hle. destruct (meta_step_tomb _ _ _ _ Hs E) as [E'|Hnew].
    + apply (lo_complete _ _ _ Hl); [|done]. apply tombstone_rows_in. eauto.
    + exfalso. rewrite Et in Hle. simpl in Hle. unfold last_seq in Hle.
      destruct (list.last l) as [x|] eqn:El; [|pose proof (wf_next _ Hw); lia].
      apply last_Some_elem_of in El. pose proof (lo_issued _ _ _ Hl x El). lia.
Qed.

Lemma list_ok_steps d d' stream l : meta_wf d -> list_ok d stream l -> rtc meta_step d d' -> list_ok d' stream l.
Proof.
  intros Hw Hl Hr. induction Hr as [|d d1 d2 Hs _ IH]; [done|].
  apply IH; [by eapply meta_step_wf|by eapply list_ok_step].
Qed.

(** Sequence numbers start at one. *)
Definition seqs_positive (d : Metastore) : Prop := forall k t, m_tombstones d !! k = Some t -> 0 < t_seq t.
Lemma reachable_seqs_positive d : rtc meta_step empty_metastore d -> seqs_positive d.
Proof.
  intros Hr. remember empty_metastore as d0 eqn:E0.
  assert (meta_wf d0 /\ seqs_positive d0) as [Hw Hp].
  { subst. split; [apply empty_metastore_wf|]. intros k t. simpl. by rewrite lookup_empty. }
  clear E0. induction Hr as [|d0 d1 d2 Hs _ IH]; [done|]. apply IH; [by eapply meta_step_wf|].
  intros k t E. destruct (meta_step_tomb _ _ _ _ Hs E) as [E'|?]; [by eapply Hp|]. pose proof (wf_next _ Hw). lia.
Qed.

(** The tables a sequence of round trips finds. *)
Fixpoint history (d : Metastore) (dbs : list Metastore) : Prop :=
  match dbs with
  | [] => True
  | d1 :: dbs => rtc meta_step d d1 /\ history d1 dbs
  end.

Lemma read_pages_ok stream dbs d l l' : rtc meta_step empty_metastore d -> history d dbs -> list_ok d stream l ->
  read_pages stream dbs l (last_seq l) = Some l' ->
  exists dn, dn ∈ dbs /\ list_ok dn stream l' /\ forall t, t ∈ tombstone_rows dn stream -> t ∈ l'.
Proof.
  revert d l; induction dbs as [|d1 dbs IH]; intros d l Hr Hh Hl; [done|]. destruct Hh as [H1 Hh]. cbn [read_pages].
  assert (rtc meta_step empty_metastore d1) as Hr1 by by etrans.
  pose proof (meta_reachable_wf _ Hr1) as Hw1. pose proof (reachable_seqs_positive _ Hr1) as Hp1.
  pose proof (list_ok_steps _ _ _ _ (meta_reachable_wf _ Hr) Hl H1) as Hl1.
  destruct (page_ok d1 stream l Hw1) as [Hok Hdone]; [|done|].
  { intros t (u & E & ->)%tombstone_rows_in. by apply Hp1 in E. }
  destruct (list.last (tombstones_since d1 stream (last_seq l) TOMBSTONE_PAGE)) as [lst|] eqn:E.
  - destruct (Z.ltb_spec (Z.of_nat (length (tombstones_since d1 stream (last_seq l) TOMBSTONE_PAGE))) TOMBSTONE_PAGE) as [Hlt|].
    + intros [= <-]. exists d1. split; [by left|]. split; [done|]. by apply Hdone.
    + intros Hrd. assert (tr_seq lst = last_seq (l ++ tombstones_since d1 stream (last_seq l) TOMBSTONE_PAGE)) as Hls.
      { rewrite last_seq_app by (intros E'; by rewrite E' in E). unfold last_seq at 1. by rewrite E. }
      rewrite Hls in Hrd. destruct (IH d1 _ Hr1 Hh Hok Hrd) as (dn & ? & ?). exists dn. split; [by right|done].
  - intros [= <-]. apply last_None in E. rewrite E, app_nil_r in Hok, Hdone. exists d1. split; [by left|].
    split; [done|]. by apply Hdone.
Qed.

Lemma filter_length_lt {A} (P Q : A -> Prop) `{!forall x, Decision (P x), !forall x, Decision (Q x)} (l : list A) x :
  (forall y, Q y -> P y) -> x ∈ l -> P x -> ~ Q x -> (length (filter Q l) < length (filter P l))%nat.
Proof.
  intros HQ Hx HP HnQ. induction l as [|y l IH]; [by apply elem_of_nil in Hx|].
  assert (forall l, length (filter Q l) <= length (filter P l))%nat as Hle.
  { clear -HQ. induction l as [|z l IH]; [done|]. rewrite !filter_cons. repeat case_decide; simpl; try lia. naive_solver. }
  apply elem_of_cons in Hx as [->|Hx].
  - rewrite !filter_cons, decide_False, decide_True by done. specialize (Hle l). simpl. lia.
  - specialize (IH Hx). rewrite !filter_cons. repeat case_decide; simpl; try lia. naive_solver.
Qed.

(** Enough round trips on tables that stay put reach a short page. *)
Lemma read_pages_total d stream n l after :
  (length (filter (fun t => (after < tr_seq t)%Z) (tombstone_rows d stream)) < n)%nat ->
  is_Some (read_pages stream (replicate n d) l after).
Proof.
  revert l after; induction n as [|n IH]; intros l after Hn; [lia|]. cbn [replicate read_pages].
  destruct (list.last (tombstones_since d stream after TOMBSTONE_PAGE)) as [lst|] eqn:E; [|eauto].
  destruct (_ <? _); [eauto|]. apply IH.
  apply last_Some_elem_of, tombstones_since_in in E as [Hin Ha].
  pose proof (filter_length_lt (fun t => after < tr_seq t) (fun t => tr_seq lst < tr_seq t) (tombstone_rows d stream) lst
    ltac:(simpl; lia) Hin Ha ltac:(simpl; lia)). lia.
Qed.

(** ** The claims *)

(** Each list read extends the one before. *)
Fixpoint growing (l : list Tombstone) (calls : list (list Tombstone)) : Prop :=
  match calls with
  | [] => True
  | m :: calls => l `prefix_of` m /\ ascending m /\ growing m calls
  end.

Lemma apply_growing v calls s l : view_ok v -> has_id v = true -> excl_ok v s -> ascending l ->
  applied_through s = last_seq l -> (forall t, t ∈ l -> 0 < tr_seq t) ->
  (forall m t, m ∈ calls -> t ∈ m -> 0 < tr_seq t) ->
  (forall ord doc, contains s ord doc = true <-> hidden v l ord doc) -> growing l calls ->
  let s' := foldl (apply_tombstones v) s calls in
  excl_ok v s' /\ forall ord doc, contains s' ord doc = true <-> hidden v (default l (list.last calls)) ord doc.
Proof.
  intros Hv Hid. revert s l; induction calls as [|m calls IH]; intros s l Hok Hl Ha Hpos Hposc Hc Hg; [done|].
  destruct Hg as ([k ->] & Hm & Hg). cbn [foldl].
  destruct (apply_tombstones_step v s (l ++ k) Hv Hid Hok Hm) as (Hok' & Hc' & Ha').
  assert (forall t, t ∈ k -> last_seq l < tr_seq t) as Hk.
  { intros t Ht. pose proof (Hposc (l ++ k) t ltac:(by left) ltac:(apply elem_of_app; by right)) as Hp.
    unfold last_seq. destruct (list.last l) as [x|] eqn:E; [|lia]. apply last_Some in E as [l0 ->].
    rewrite <- app_assoc in Hm. clear -Hm Ht. induction l0 as [|y l0 IH]; simpl in Hm.
    - apply StronglySorted_inv in Hm as [_ Hf]. apply (proj1 (Forall_forall _ _) Hf). simpl. set_solver.
    - apply StronglySorted_inv in Hm as [Hm _]. by apply IH. }
  rewrite last_cons. destruct (IH (apply_tombstones v s (l ++ k)) (l ++ k)) as [H1 H2]; try done.
  - rewrite Ha', Ha. unfold last_seq. destruct (list.last (l ++ k)) as [x|] eqn:E.
    + destruct (list.last l) as [y|] eqn:El.
      * apply last_Some_elem_of in El. pose proof (ascending_last (l ++ k) y Hm ltac:(apply elem_of_app; by left)) as Hle.
        unfold last_seq in Hle. rewrite E in Hle. lia.
      * apply last_Some_elem_of in E. pose proof (Hposc (l ++ k) x ltac:(by left) E). lia.
    + apply last_None, app_nil in E as [-> ->]. simpl. lia.
  - intros t [?|Ht]%elem_of_app; [by apply Hpos|]. apply (Hposc (l ++ k)); [by left|]. apply elem_of_app. by right.
  - intros m t ? ?. apply (Hposc m); [by right|done].
  - intros ord doc. rewrite Hc', Hc, Ha. unfold hidden. split.
    + intros [(sg & t & ? & ? & ?)|(sg & t & ? & Ht & ?)]; exists sg, t; (split; [done|split; [|done]]).
      * apply elem_of_app. by left.
      * by apply list_elem_of_filter in Ht as [_ ?].
    + intros (sg & t & ? & [Ht|Ht]%elem_of_app & ?); [left|right]; exists sg, t; (split; [done|split; [|done]]); [done|].
      apply list_elem_of_filter. split; [by apply Hk|]. apply elem_of_app. by right.
  - split; [done|]. intros ord doc. rewrite H2. by destruct (list.last calls).
Qed.

(** Applying tombstones incrementally is applying them all: after any
    sequence of calls, each with a longer list, a document of a split is
    excluded exactly when some tombstone of the last list names its [_id] with
    a bound above its [_seq] — however the calls were cut, with every
    tombstone looked up once and the [seq_min] shortcut taken — and [len]
    counts the excluded documents. *)
Theorem apply_tombstones_incremental v ids calls : view_ok v -> has_id v = true ->
  length ids = length (segments v) -> (forall m t, m ∈ calls -> t ∈ m -> 0 < tr_seq t) -> growing [] calls ->
  let s := foldl (apply_tombstones v) (excl_empty ids) calls in
  (forall ord doc, contains s ord doc = true <-> hidden v (default [] (list.last calls)) ord doc) /\
  Forall (StronglySorted Z.lt) (per_segment s) /\
  excl_len s = foldr Z.add 0 ((fun d : list Z => Z.of_nat (length d)) <$> per_segment s).
Proof.
  intros Hv Hid Hl Hpos Hg s.
  destruct (apply_growing v calls (excl_empty ids) []) as [Hok Hc]; try done.
  - by apply excl_empty_ok.
  - constructor.
  - intros t Ht. by apply elem_of_nil in Ht.
  - intros ord doc. rewrite excl_empty_contains. split; [done|]. intros (? & t & _ & Ht & _). by apply elem_of_nil in Ht.
  - split; [done|]. split; apply Hok.
Qed.

(** Seeding is sound: when no tombstone up to the bound hides anything in
    the split (it was built with them applied), starting the bookkeeping at
    that bound skips their lookups and excludes the same documents. *)
Theorem seed_applied_through_sound v ids through ts : view_ok v -> has_id v = true ->
  length ids = length (segments v) -> ascending ts -> (forall t, t ∈ ts -> 0 < tr_seq t) ->
  (forall seg t doc, seg ∈ segments v -> t ∈ ts -> tr_seq t <= through -> ~ hides seg t doc) ->
  forall ord doc,
    contains (apply_tombstones v (seed_applied_through (excl_empty ids) through) ts) ord doc = true <->
    hidden v ts ord doc.
Proof.
  intros Hv Hid Hl Hs Hpos Hno ord doc. set (s := seed_applied_through _ _).
  assert (excl_ok v s /\ contains s ord doc = false /\ (applied_through s = 0 \/ applied_through s = through)) as (Hok & Hc & Ha).
  { unfold s, seed_applied_through. pose proof (excl_empty_ok v ids Hl) as Hok.
    destruct (_ && _) eqn:E; [|by split_and!; [done|apply excl_empty_contains|left]].
    split_and!; [split; try apply Hok|apply (excl_empty_contains ids)|by right]. }
  destruct (apply_tombstones_step v s ts Hv Hid Hok Hs) as (_ & Hc' & _). rewrite Hc', Hc. unfold hidden. split.
  - intros [?|(sg & t & ? & Ht & ?)]; [done|]. apply list_elem_of_filter in Ht as [_ Ht]. eauto.
  - intros (sg & t & Hsg & Ht & Hh). right. exists sg, t. split; [done|]. split; [|done].
    apply list_elem_of_filter. split; [|done]. pose proof (Hpos t Ht).
    destruct Ha as [-> | ->]; [done|]. destruct (Z.lt_ge_cases through (tr_seq t)); [done|].
    exfalso. eapply (Hno sg t doc); [by eapply list_elem_of_lookup_2|done|lia|done].
Qed.


(** The cursor over an exclusion list is a correct document set: advancing
    walks the list in order and then stays at the end marker; seeking never
    moves back and stops at the first remaining document at or past the
    target. *)
Theorem sorted_doc_set_spec l n target : StronglySorted Z.lt l ->
  doc (Nat.iter n advance (docset_new l)) = default TERMINATED (l !! n) /\
  (let s := Nat.iter n advance (docset_new l) in
   (cursor s <= cursor (seek s target))%nat /\
   (forall i d, (cursor s <= i < cursor (seek s target))%nat -> l !! i = Some d -> d < target) /\
   (forall d, l !! cursor (seek s target) = Some d -> target <= d)).
Proof.
  intros Hs.
  assert (forall k, docs (Nat.iter k advance (docset_new l)) = l /\ cursor (Nat.iter k advance (docset_new l)) = Nat.min k (length l)) as Hit.
  { induction k as [|k [H1 H2]]; [done|].
    change (Nat.iter (S k) advance (docset_new l)) with (advance (Nat.iter k advance (docset_new l))).
    generalize dependent (Nat.iter k advance (docset_new l)). intros s H1 H2.
    unfold advance. cbn [docs cursor]. rewrite H1, H2. split; [done|lia]. }
  destruct (Hit n) as [Hd Hc].
  assert (forall r, (forall i d, (i < count_less target r)%nat -> r !! i = Some d -> d < target) /\
    (forall d, r !! count_less target r = Some d -> target <= d)) as Hcount.
  { induction r as [|x r [IH1 IH2]]; simpl; [split; [lia|done]|]. destruct (Z.ltb_spec x target); split.
    - intros [|i] d Hi Hd'; [by injection Hd' as <-|]. eapply IH1; [|done]. lia.
    - done.
    - lia.
    - by intros d [= <-]. }
  split; [|cbv zeta; unfold seek; cbn [cursor docs]; rewrite Hd, Hc].
  - unfold doc. rewrite Hd, Hc. destruct (decide (n < length l)%nat); [by rewrite Nat.min_l by lia|].
    rewrite Nat.min_r by lia. by rewrite !lookup_ge_None_2 by lia.
  - rewrite (Nat.min_l (Nat.min n (length l))) by lia. destruct (Hcount (drop (Nat.min n (length l)) l)) as [H1 H2].
    split_and!; [lia| |].
    + intros i d Hi Ei. apply (H1 (i - Nat.min n (length l))%nat); [lia|]. rewrite lookup_drop. by replace (_ + _)%nat with i by lia.
    + intros d Ei. apply H2. by rewrite lookup_drop.
Qed.

(** ** A lost invalidation *)

Definition w0 : Metastore := (ensure_stream_with_mode empty_metastore (str "docs") Document).1.
Definition w1 : Metastore :=
  match upsert_tombstones w0 5 [mkNewTombstone 1 (str "a") 100] with Ok d => d | Err _ => w0 end.

(** A refresh that read the tables before a delete but finishes after the
    write path's [invalidate_tombstones] installs its list as fresh, so the
    invalidation is lost: here the next search a millisecond later works from
    a list without the tombstone the tables hold. *)
Theorem invalidate_lost_by_refresh :
  exists l, read_pages 1 [w0] [] 0 = Some l /\
    m_tombstones w1 !! (1, str "a") = Some (mkTombstone 1 100 5) /\
    tombstones_for (install 11 (invalidate_tombstones ∅ 1) 1 l 10) 12 12 1 [w1] =
      Some (install 11 (invalidate_tombstones ∅ 1) 1 l 10, []).
Proof. exists []. split_and!; reflexivity. Qed.

(** ** Concrete runs *)

Definition demo_segment : Segment :=
  mkSegment 7 (fun id => if decide (id = str "a") then [2; 5] else [])
    (fun doc => if decide (doc = 2) then Some 10 else Some 30).
Definition demo_view : SplitView := mkView true (Some 10) [demo_segment].
Definition demo_calls : list (list Tombstone) :=
  [[mkTombRec 1 (str "a") 20]; [mkTombRec 1 (str "a") 20; mkTombRec 2 (str "a") 40]].

Lemma demo_view_ok : view_ok demo_view.
Proof.
  intros m seg doc s [= <-] ->%list_elem_of_singleton. simpl. case_decide; intros [= <-]; lia.
Qed.

Lemma apply_tombstones_incremental_witness :
  contains (foldl (apply_tombstones demo_view) (excl_empty [7]) demo_calls) 0 5 = true <->
  hidden demo_view [mkTombRec 1 (str "a") 20; mkTombRec 2 (str "a") 40] 0 5.
Proof.
  apply (apply_tombstones_incremental demo_view [7] demo_calls demo_view_ok eq_refl eq_refl).
  - intros m t Hm Ht. repeat (apply elem_of_cons in Hm as [->|Hm]; [repeat (apply elem_of_cons in Ht as [->|Ht]; [simpl; lia|]); by apply elem_of_nil in Ht|]).
    by apply elem_of_nil in Hm.
  - split; [by apply prefix_nil|]. split; [repeat constructor|].
    split; [by exists [mkTombRec 2 (str "a") 40]|]. split; [repeat constructor|done].
Defined.

Lemma seed_applied_through_sound_witness :
  contains (apply_tombstones demo_view (seed_applied_through (excl_empty [7]) 1) [mkTombRec 1 (str "a") 5]) 0 5 = true <->
  hidden demo_view [mkTombRec 1 (str "a") 5] 0 5.
Proof.
  apply (seed_applied_through_sound demo_view [7] 1 [mkTombRec 1 (str "a") 5] demo_view_ok eq_refl eq_refl).
  - repeat constructor.
  - intros t ->%list_elem_of_singleton. simpl. lia.
  - intros seg t doc ->%list_elem_of_singleton ->%list_elem_of_singleton _ (_ & s & E & Hs). simpl in *.
    case_decide; injection E as <-; lia.
Defined.

Lemma w1_reach : rtc meta_step empty_metastore w1.
Proof.
  eapply rtc_l; [exact (s_ensure empty_metastore (str "docs") Document)|].
  eapply rtc_l; [apply (s_upsert w0 5 [mkNewTombstone 1 (str "a") 100] w1); reflexivity|]. apply rtc_refl.
Qed.
Lemma nil_list_ok d stream : seqs_positive d -> list_ok d stream [].
Proof.
  intros Hp. split; [constructor|intros t Ht; by apply elem_of_nil in Ht|].
  intros t (u & E & ->)%tombstone_rows_in. apply Hp in E. unfold last_seq. simpl. lia.
Qed.


Lemma sorted_doc_set_spec_witness : doc (Nat.iter 1 advance (docset_new [3; 8])) = 8.
Proof. apply (sorted_doc_set_spec [3; 8] 1 0). repeat constructor; lia. Defined.
