(* ===== verification/Control.v ===== *)
(** * The control plane (crates/rsearch-server/src/control.rs)

    Merge selection, the rebuild that merges, compacts and upgrades splits,
    and the retention, orphan, purge and garbage-collection jobs, over the
    tables of [Metastore] and a map of what each split file holds. *)

From Stdlib Require Import ZArith Lia.
From Stdlib Require Import Strings.Byte.
From stdpp Require Import base gmap sets list strings sorting.
From S2P Require Import Prelude Json Metastore Exclusions.

Local Open Scope Z_scope.

(** ** Merge selection *)

Definition MERGE_SKEW_FACTOR : Z := 10.
Definition MERGE_WINDOW_PER_STREAM : Z := 64.
Definition size_of (s : SplitRecord) : Z := ns_size_bytes (sp_new s).
Definition sum_sizes (l : list Z) : Z := foldr Z.add 0 l.

(** [sort_unstable_by_key(Reverse)]. *)
Definition sort_desc (l : list Z) : list Z := reverse (merge_sort Z.le l).

(** The loop over the ranked sizes: how many leading ones dominate what
    follows them; the last one is never tested. *)
Fixpoint dominant_prefix (by_size : list Z) : nat :=
  match by_size with
  | x :: ((_ :: _) as rest) =>
      if sat_i64 (MERGE_SKEW_FACTOR * sum_sizes rest) <? x then S (dominant_prefix rest) else O
  | _ => O
  end.

Definition merge_candidates (group : list SplitRecord) : list SplitRecord :=
  let by_size := sort_desc (size_of <$> group) in
  match dominant_prefix by_size with
  | O => group
  | S n => filter (fun s => size_of s < default 0 (by_size !! n)) group
  end.

Fixpoint merge_take_loop (group : list SplitRecord) (target : Z) (i : nat) (sum : Z) : option nat :=
  match group with
  | [] => None
  | s :: group =>
      let sum := sat_i64 (sum + size_of s) in
      if target <=? sum then Some (i + 1)%nat else merge_take_loop group target (i + 1) sum
  end.
Definition merge_take (group : list SplitRecord) (target_bytes : Z) (max_group : nat) : nat :=
  match merge_take_loop (take max_group group) target_bytes 0 0 with
  | Some n => n
  | None => Nat.min (length group) max_group
  end.

(** [BTreeMap<i64, Vec>]: the groups ascending by stream, each in the order
    its splits arrive. *)
Definition stream_ids (small : list SplitRecord) : list Z :=
  merge_sort Z.le (remove_dups (sp_stream <$> small)).
Definition group_of (small : list SplitRecord) (id : Z) : list SplitRecord :=
  filter (fun s => sp_stream s = id) small.

Definition eligible_group (small : list SplitRecord) (target_bytes : Z) (max_group : nat) (id : Z) :
    option (Z * list SplitRecord) :=
  let group := merge_candidates (group_of small id) in
  let n := merge_take group target_bytes max_group in
  if (2 <=? n)%nat then Some (id, take n group) else None.

(** [position(..).unwrap_or(0)], then [swap_remove]: the picked element. *)
Fixpoint position {A} (P : A -> bool) (l : list A) : option nat :=
  match l with
  | [] => None
  | x :: l => if P x then Some O else S <$> position P l
  end.
Definition select_merge_group (small : list SplitRecord) (target_bytes : Z) (max_group : nat) (after_stream : Z) :
    option (Z * list SplitRecord) :=
  let eligible := omap (eligible_group small target_bytes max_group) (stream_ids small) in
  eligible !! default O (position (fun p => after_stream <? p.1) eligible).

(** ** Rebuilding splits *)

(** A stored document; [d_id] is [None] for splits written before ids. *)
Record Doc := mkDoc { d_id : option bytes; d_seq : Z; d_json : json; d_timestamp : Z }.

Notation Contents := (gmap bytes (list Doc)).
Definition docs_of (c : Contents) (split_id : bytes) : list Doc := default [] (c !! split_id).

(** A split file as its reader serves it: one segment, the documents numbered
    in order, the [_id] term's postings and the [_seq] column. *)
Definition view_of (seq_min : option Z) (docs : list Doc) : SplitView :=
  mkView true seq_min [mkSegment 0
    (fun id => (fun p => Z.of_nat p.1) <$> filter (fun p => d_id p.2 = Some id) (enumerate docs))
    (fun n => d_seq <$> docs !! Z.to_nat n)].

(** [seed_applied_through], [apply_tombstones] and the documents
    [for_each_doc] does not skip; with the number skipped. *)
Definition exclusions_of (s : SplitRecord) (docs : list Doc) (ts : list TombstoneRecord) : ExclusionSet :=
  apply_tombstones (view_of (ns_seq_min (sp_new s)) docs)
    (seed_applied_through (excl_empty [0]) (sp_applied s)) ts.
Definition surviving (s : SplitRecord) (docs : list Doc) (ts : list TombstoneRecord) : list Doc :=
  snd <$> filter (fun p => contains (exclusions_of s docs ts) 0 (Z.of_nat p.1) = false) (enumerate docs).

Section rebuild.
(** [DocIdentity::generated]: the fresh id given to a document without one. *)
Variable generated : Doc -> bytes.

Definition reidentify (d : Doc) : Doc :=
  match d_id d with
  | Some _ => d
  | None => mkDoc (Some (generated d)) 0 (d_json d) (d_timestamp d)
  end.

Definition rebuilt_docs (c : Contents) (sources : list SplitRecord) (ts : list TombstoneRecord) : list Doc :=
  reidentify <$> concat ((fun s => surviving s (docs_of c (sp_split_id s)) ts) <$> sources).

Definition last_applied (ts : list TombstoneRecord) : Z := match list.last ts with Some t => tr_seq t | None => 0 end.

(** What the builder reports of the packaged split. *)
Record Packaged := mkPackaged {
  p_split_id : bytes; p_size_bytes : Z; p_footer_len : Z; p_schema_version : Z; p_dynamic_fields : option json;
}.
Definition min_list (l : list Z) : Z := foldr Z.min I64_MAX l.
Definition max_list (l : list Z) : Z := foldr Z.max I64_MIN l.

(** [up] says which of the three round trips (put, stage, swap or mark) work. *)
Definition rebuild_splits (d : Metastore) (c : Contents) (now : Z) (node stream_name : bytes) (stream_id : Z)
    (sources : list SplitRecord) (ts : list TombstoneRecord) (p : Packaged) (put_ok stage_ok swap_ok : bool) :
    (Metastore * Contents) * result MetastoreError (option bytes) :=
  let docs := rebuilt_docs c sources ts in
  let old_ids := sp_split_id <$> sources in
  match docs with
  | [] =>
      if swap_ok then ((mark_splits_for_delete d now old_ids).1, c, Ok None) else (d, c, Err Database)
  | _ =>
      if negb put_ok then (d, c, Err Database)
      else
        let c := <[p_split_id p := docs]> c in
        let key := str "streams/" ++ stream_name ++ str "/" ++ p_split_id p ++ str ".split" in
        let row := mkNewSplit (p_split_id p) stream_id key (Z.of_nat (length docs)) (p_size_bytes p)
          (min_list (d_timestamp <$> docs)) (max_list (d_timestamp <$> docs)) (p_footer_len p) (Some node)
          (Some (min_list (d_seq <$> docs))) (Some (max_list (d_seq <$> docs))) (last_applied ts)
          (p_schema_version p) (p_dynamic_fields p) in
        match (if stage_ok then stage_split d now row else Err Database) with
        | Err e => (d, c, Err e)
        | Ok d =>
            match (if swap_ok then swap_splits d now old_ids (p_split_id p) else Err Database) with
            | Err e => (d, c, Err e)
            | Ok d => (d, c, Ok (Some (p_split_id p)))
            end
        end
  end.

(** One compaction step: mark up to date when nothing is hidden, else rewrite. *)
Definition compact_split (d : Metastore) (c : Contents) (now : Z) (node stream_name : bytes) (stream_id : Z)
    (s : SplitRecord) (ts : list TombstoneRecord) (applied_through : Z) (p : Packaged) (put_ok stage_ok swap_ok : bool) :
    Metastore * Contents :=
  if excl_len (exclusions_of s (docs_of c (sp_split_id s)) ts) =? 0 then
    (if swap_ok then mark_tombstones_applied d now (sp_split_id s) applied_through else d, c)
  else (rebuild_splits d c now node stream_name stream_id [s] ts p put_ok stage_ok swap_ok).1.
End rebuild.

(** ** The other jobs *)

Definition RETENTION_BATCH : Z := 10000.
Definition BATCH_PURGE : Z := 10000.

(** The batched loop; [None]: out of fuel. *)
Fixpoint retention_loop (fuel : nat) (d : Metastore) (now_millis : Z) : option Metastore :=
  match fuel with
  | O => None
  | S f =>
      let expired := expired_splits d now_millis RETENTION_BATCH in
      match expired with
      | [] => Some d
      | _ =>
          let finished := (Z.of_nat (length expired) <? RETENTION_BATCH) in
          let d := (mark_splits_for_delete d now_millis expired).1 in
          if finished then Some d else retention_loop f d now_millis
      end
  end.

Definition staged_orphan_job (d : Metastore) (now staged_orphan : Z) : Metastore :=
  match stale_staged_splits d now staged_orphan 100 with
  | [] => d
  | stale => (mark_splits_for_delete d now (sp_split_id <$> stale)).1
  end.

Definition tombstone_purge_job (d : Metastore) (now grace : Z) : Metastore := (purge_tombstones d now grace BATCH_PURGE).1.
Definition stream_purge_job (d : Metastore) (now : Z) : Metastore := (purge_deleted_streams d now).1.

(** The object goes first; the row only once the object is gone. A failed
    object delete skips the split, a failed row delete ends the job. *)
Fixpoint gc_loop (storage_ok row_ok : bytes -> bool) (candidates : list SplitRecord) (d : Metastore)
    (objects : gset bytes) : Metastore * gset bytes * result MetastoreError unit :=
  match candidates with
  | [] => (d, objects, Ok tt)
  | s :: candidates =>
      let key := ns_storage_key (sp_new s) in
      if storage_ok key then
        let objects := objects ∖ {[key]} in
        if row_ok (sp_split_id s)
        then gc_loop storage_ok row_ok candidates (delete_split_row d (sp_split_id s)) objects
        else (d, objects, Err Database)
      else gc_loop storage_ok row_ok candidates d objects
  end.
Definition gc_job (d : Metastore) (objects : gset bytes) (now gc_grace : Z) (storage_ok row_ok : bytes -> bool) :
    Metastore * gset bytes * result MetastoreError unit :=
  gc_loop storage_ok row_ok (gc_candidates d now gc_grace 50) d objects.

Definition merge_target_bytes (merge_target_mb merge_min_mb : Z) : Z := Z.shiftl (Z.max merge_target_mb merge_min_mb) 20.

(** One turn of [merge_job]'s loop: which stream, and the cursor after it. *)
Definition merge_turn (d : Metastore) (target_bytes : Z) (max_group : nat) (cursor : Z) : option (Z * list SplitRecord) :=
  select_merge_group (small_published_splits d target_bytes MERGE_WINDOW_PER_STREAM) target_bytes max_group cursor.

(** ** Merge selection: lemmas *)

Definition nonneg (l : list Z) : Prop := Forall (fun x => 0 <= x <= I64_MAX) l.

Lemma sum_sizes_nonneg l : nonneg l -> 0 <= sum_sizes l.
Proof. induction 1; simpl; lia. Qed.
Lemma sum_sizes_app a b : sum_sizes (a ++ b) = sum_sizes a + sum_sizes b.
Proof. induction a; simpl; lia. Qed.
Lemma sum_sizes_in l x : nonneg l -> x ∈ l -> x <= sum_sizes l.
Proof.
  intros Hn Hx. induction Hn as [|y l Hy Hn IH]; [by apply elem_of_nil in Hx|]. simpl.
  pose proof (sum_sizes_nonneg l Hn). apply elem_of_cons in Hx as [->|Hx]; [lia|]. specialize (IH Hx). lia.
Qed.

(** Saturation does not change the test on [i64] sizes. *)
Lemma skew_test rest x : nonneg rest -> 0 <= x <= I64_MAX ->
  (sat_i64 (MERGE_SKEW_FACTOR * sum_sizes rest) <? x) = (MERGE_SKEW_FACTOR * sum_sizes rest <? x).
Proof.
  intros Hn Hx. pose proof (sum_sizes_nonneg rest Hn). unfold sat_i64, MERGE_SKEW_FACTOR, I64_MIN in *.
  destruct (Z.ltb_spec (10 * sum_sizes rest) x); [apply Z.ltb_lt; lia|apply Z.ltb_ge; lia].
Qed.

Lemma dominant_prefix_cons x y l : dominant_prefix (x :: y :: l) =
  if sat_i64 (MERGE_SKEW_FACTOR * sum_sizes (y :: l)) <? x then S (dominant_prefix (y :: l)) else O.
Proof. reflexivity. Qed.

Lemma dominant_prefix_spec l : nonneg l ->
  let n := dominant_prefix l in
  (n <= length l)%nat /\ (l <> [] -> n < length l)%nat /\
  (forall i x, (i < n)%nat -> l !! i = Some x -> MERGE_SKEW_FACTOR * sum_sizes (drop (S i) l) < x) /\
  match drop n l with
  | x :: ((_ :: _) as rest) => x <= MERGE_SKEW_FACTOR * sum_sizes rest
  | _ => True
  end.
Proof.
  induction l as [|x l IH]; intros Hn; [simpl; split_and!; [lia|by intros []|intros; lia|done]|].
  destruct l as [|y l]; [simpl; split_and!; [lia|lia|intros; lia|done]|].
  pose proof Hn as [Hx Hn']%Forall_cons. specialize (IH Hn'). rewrite dominant_prefix_cons, skew_test by done.
  destruct (Z.ltb_spec (MERGE_SKEW_FACTOR * sum_sizes (y :: l)) x).
  - destruct IH as (H1 & H2 & H3 & H4). set (n := dominant_prefix (y :: l)) in *.
    split_and!; [cbn [length] in *; lia|intros _; specialize (H2 ltac:(done)); cbn [length] in *; lia| |done].
    intros [|i] z Hi Ez; [injection Ez as <-; exact H|]. apply (H3 i); [lia|done].
  - split_and!; [cbn; lia|cbn; lia|intros; lia|done].
Qed.

Lemma sort_desc_perm l : sort_desc l ≡ₚ l.
Proof. unfold sort_desc. by rewrite reverse_Permutation, merge_sort_Permutation. Qed.

Lemma sort_desc_sorted l : StronglySorted Z.ge (sort_desc l).
Proof.
  unfold sort_desc. assert (StronglySorted Z.le (merge_sort Z.le l)) as H by (apply StronglySorted_merge_sort; apply _).
  revert H. generalize (merge_sort Z.le l) as m. induction m as [|x m IH]; intros Hs; [constructor|].
  rewrite reverse_cons. apply StronglySorted_inv in Hs as [Hs Hf]. specialize (IH Hs). clear Hs.
  assert (Forall (fun y => y >= x) (reverse m)) as Hf'.
  { apply Forall_reverse. eapply Forall_impl; [exact Hf|]. simpl. lia. }
  revert IH Hf'. generalize (reverse m) as r. induction r as [|y r IH']; intros Hr Hf'; simpl; [repeat constructor|].
  apply StronglySorted_inv in Hr as [Hr Hy]. apply Forall_cons in Hf' as [Hyx Hf'].
  constructor; [by apply IH'|]. apply Forall_app. split; [done|]. by constructor.
Qed.

Lemma sort_desc_nonneg l : nonneg l -> nonneg (sort_desc l).
Proof. unfold nonneg. by rewrite sort_desc_perm. Qed.

Lemma ge_sorted_lookup l i j x y : StronglySorted Z.ge l -> (i <= j)%nat -> l !! i = Some x -> l !! j = Some y -> x >= y.
Proof.
  revert i j; induction l as [|a l IH]; intros i j Hs Hij Hi Hj; [done|].
  apply StronglySorted_inv in Hs as [Hs Hf]. destruct i as [|i].
  - injection Hi as <-. destruct j as [|j]; [injection Hj as <-; lia|].
    apply (proj1 (Forall_forall _ _) Hf). by eapply list_elem_of_lookup_2.
  - destruct j as [|j]; [lia|]. eapply (IH i j); [done|lia|done|done].
Qed.


(** Filtering by the threshold keeps the ranked sizes past the dominant ones. *)
Lemma threshold_filter l n thr : nonneg l -> StronglySorted Z.ge l -> l !! n = Some thr ->
  MERGE_SKEW_FACTOR * sum_sizes (drop (S n) l) < thr -> filter (fun x => x < thr) l = drop (S n) l.
Proof.
  intros Hn Hs Et Hd. rewrite <- (take_drop (S n) l) at 1. rewrite filter_app.
  assert (filter (fun x => x < thr) (take (S n) l) = []) as ->.
  { apply filter_none, Forall_lookup. intros i x [Hi Hlt]%lookup_take_Some.
    pose proof (ge_sorted_lookup l i n x thr Hs ltac:(lia) Hi Et). lia. }
  simpl. apply filter_every. apply Forall_forall. intros x Hx.
  assert (nonneg (drop (S n) l)) as Hn' by by apply Forall_drop.
  pose proof (sum_sizes_in _ x Hn' Hx). pose proof (sum_sizes_nonneg _ Hn').
  pose proof (proj1 (Forall_forall _ _) Hn' x Hx). unfold MERGE_SKEW_FACTOR in Hd. simpl in *. lia.
Qed.

Lemma filter_sizes thr (l : list SplitRecord) : size_of <$> filter (fun s => size_of s < thr) l = filter (fun x => x < thr) (size_of <$> l).
Proof. induction l as [|s l IH]; [done|]. rewrite fmap_cons, !filter_cons. case_decide; [by rewrite fmap_cons, IH|done]. Qed.

Lemma merge_candidates_perm group : nonneg (size_of <$> group) ->
  let by_size := sort_desc (size_of <$> group) in
  size_of <$> merge_candidates group ≡ₚ drop (dominant_prefix by_size) by_size.
Proof.
  intros Hn by_size. unfold merge_candidates. fold by_size.
  assert (nonneg by_size) as Hnb by by apply sort_desc_nonneg.
  destruct (dominant_prefix_spec by_size Hnb) as (Hle & Hlt & Hdom & _).
  destruct (dominant_prefix by_size) as [|n] eqn:E.
  - rewrite drop_0. unfold by_size. by rewrite sort_desc_perm.
  - destruct (lookup_lt_is_Some_2 by_size n) as [thr Et]; [lia|]. rewrite Et. cbn [default from_option id].
    rewrite <- (threshold_filter by_size n thr Hnb (sort_desc_sorted _) Et) by (apply (Hdom n); [lia|done]).
    unfold by_size. rewrite sort_desc_perm. by rewrite <- filter_sizes.
Qed.

Lemma merge_candidates_sublist group : merge_candidates group `sublist_of` group.
Proof. unfold merge_candidates. destruct (dominant_prefix _); [done|]. apply sublist_filter. Qed.

Lemma merge_candidates_in group s : s ∈ merge_candidates group -> s ∈ group.
Proof. unfold merge_candidates. destruct (dominant_prefix _); [done|]. by intros [_ ?]%list_elem_of_filter. Qed.

Lemma merge_take_loop_spec group target i sum n : nonneg (size_of <$> group) -> 0 <= sum -> sum < target <= I64_MAX ->
  merge_take_loop group target i sum = Some n ->
  exists k, n = (i + k)%nat /\ (1 <= k <= length group)%nat /\
    sum + sum_sizes (size_of <$> take (k - 1) group) < target <= sum + sum_sizes (size_of <$> take k group).
Proof.
  revert i sum; induction group as [|s group IH]; intros i sum Hn H0 Ht; [done|]. cbn [merge_take_loop].
  rewrite fmap_cons in Hn. apply Forall_cons in Hn as [Hs Hn].
  destruct (Z.leb_spec target (sat_i64 (sum + size_of s))) as [Hle|Hgt].
  - intros [= <-]. exists 1%nat. split; [done|]. split; [simpl; lia|]. change (sum + 0 < target <= sum + (size_of s + 0)).
    unfold sat_i64, I64_MIN, I64_MAX in *. lia.
  - assert (sat_i64 (sum + size_of s) = sum + size_of s) as E by (unfold sat_i64, I64_MIN, I64_MAX in *; lia).
    rewrite E in *. intros H. apply IH in H as (k & -> & Hk & Hsum); [|done|lia|lia].
    exists (S k). split; [lia|]. split; [simpl; lia|]. destruct k as [|k]; [lia|].
    replace (S (S k) - 1)%nat with (S k) by lia. replace (S k - 1)%nat with k in Hsum by lia.
    change (sum + (size_of s + sum_sizes (size_of <$> take k group)) < target <=
      sum + (size_of s + sum_sizes (size_of <$> take (S k) group))). lia.
Qed.

Lemma merge_take_loop_none group target i sum : nonneg (size_of <$> group) -> 0 <= sum -> sum < target <= I64_MAX ->
  merge_take_loop group target i sum = None -> sum + sum_sizes (size_of <$> group) < target.
Proof.
  revert i sum; induction group as [|s group IH]; intros i sum Hn H0 Ht; [simpl; lia|]. cbn [merge_take_loop].
  rewrite fmap_cons in Hn. apply Forall_cons in Hn as [Hs Hn].
  destruct (Z.leb_spec target (sat_i64 (sum + size_of s))) as [Hle|Hgt]; [done|].
  assert (sat_i64 (sum + size_of s) = sum + size_of s) as E by (unfold sat_i64, I64_MIN, I64_MAX in *; lia).
  rewrite E in *. intros H%IH; [|done|lia|lia].
  change (sum + (size_of s + sum_sizes (size_of <$> group)) < target). lia.
Qed.

Lemma position_first {A} (P : A -> bool) l : match position P l with
  | Some n => exists x, l !! n = Some x /\ P x = true /\ forall i y, (i < n)%nat -> l !! i = Some y -> P y = false
  | None => forall x, x ∈ l -> P x = false
  end.
Proof.
  induction l as [|a l IH]; simpl; [intros x Hx; by apply elem_of_nil in Hx|].
  destruct (P a) eqn:E; [by exists a; split_and!; [..|intros; lia]|].
  destruct (position P l) as [n|]; simpl.
  - destruct IH as (x & Hx & HP & Hf). exists x. split_and!; [done..|]. intros [|i] y Hi Hy; [by injection Hy as <-|].
    apply (Hf i); [lia|done].
  - intros x [->|Hx]%elem_of_cons; [done|by apply IH].
Qed.

Lemma stream_ids_sorted small : StronglySorted Z.lt (stream_ids small).
Proof.
  unfold stream_ids. assert (StronglySorted Z.le (merge_sort Z.le (remove_dups (sp_stream <$> small)))) as Hs
    by (apply StronglySorted_merge_sort; apply _).
  assert (NoDup (merge_sort Z.le (remove_dups (sp_stream <$> small)))) as Hnd
    by (rewrite merge_sort_Permutation; apply NoDup_remove_dups).
  revert Hs Hnd. generalize (merge_sort Z.le (remove_dups (sp_stream <$> small))) as l.
  induction l as [|x l IH]; intros Hs Hnd; [constructor|].
  apply StronglySorted_inv in Hs as [Hs Hf]. apply NoDup_cons in Hnd as [Hx Hnd]. constructor; [by apply IH|].
  apply Forall_forall. intros y Hy. pose proof (proj1 (Forall_forall _ _) Hf y Hy).
  destruct (decide (x = y)) as [->|]; [done|]. simpl in *. lia.
Qed.

Lemma stream_ids_in small id : id ∈ stream_ids small <-> exists s, s ∈ small /\ sp_stream s = id.
Proof.
  unfold stream_ids. rewrite merge_sort_Permutation, elem_of_remove_dups, list_elem_of_fmap. naive_solver.
Qed.

(** Streams picked from an ascending list stay ascending. *)
Lemma eligible_sorted small target mx ids : StronglySorted Z.lt ids ->
  StronglySorted (fun a b : Z * list SplitRecord => a.1 < b.1) (omap (eligible_group small target mx) ids).
Proof.
  induction ids as [|i ids IH]; intros Hs; simpl; [constructor|]. apply StronglySorted_inv in Hs as [Hs Hf].
  destruct (eligible_group small target mx i) as [p|] eqn:E; [|by apply IH]. constructor; [by apply IH|].
  apply Forall_forall. intros q (j & Hj & Eq)%list_elem_of_omap. pose proof (proj1 (Forall_forall _ _) Hf j Hj).
  unfold eligible_group in *. destruct (2 <=? _)%nat; [|done]. injection E as <-.
  destruct (2 <=? merge_take (merge_candidates (group_of small j)) _ _)%nat; [|done]. by injection Eq as <-.
Qed.

Lemma pair_sorted_lookup (l : list (Z * list SplitRecord)) i j x y :
  StronglySorted (fun a b : Z * list SplitRecord => a.1 < b.1) l -> (i < j)%nat ->
  l !! i = Some x -> l !! j = Some y -> x.1 < y.1.
Proof.
  revert i j; induction l as [|a l IH]; intros i j Hs Hij Hi Hj; [done|].
  apply StronglySorted_inv in Hs as [Hs Hf]. destruct j as [|j]; [lia|]. destruct i as [|i].
  - injection Hi as <-. apply (proj1 (Forall_forall _ _) Hf). by eapply list_elem_of_lookup_2.
  - eapply (IH i j); [done|lia|done|done].
Qed.

(** ** Claims: merge selection *)

(** What [merge_candidates] leaves to merge: the group in its time order
    less the dominant splits, whose sizes are exactly the leading ones of the
    ranking; each of them is larger than ten times everything kept together,
    and the largest split kept is not larger than ten times the rest kept
    (unless it is alone). *)
Theorem merge_candidates_spec group : nonneg (size_of <$> group) ->
  let by_size := sort_desc (size_of <$> group) in
  let n := dominant_prefix by_size in
  merge_candidates group `sublist_of` group /\
  size_of <$> merge_candidates group ≡ₚ drop n by_size /\
  (forall x, x ∈ take n by_size -> MERGE_SKEW_FACTOR * sum_sizes (drop n by_size) < x) /\
  match drop n by_size with
  | x :: ((_ :: _) as rest) => x <= MERGE_SKEW_FACTOR * sum_sizes rest
  | _ => True
  end.
Proof.
  intros Hn by_size n. pose proof (sort_desc_nonneg _ Hn) as Hnb. fold by_size in Hnb.
  destruct (dominant_prefix_spec by_size Hnb) as (Hle & _ & Hdom & Hend). fold n in Hle, Hdom, Hend.
  split_and!; [apply merge_candidates_sublist|by apply merge_candidates_perm| |done].
  intros x (i & [Hi Hlt]%lookup_take_Some)%list_elem_of_lookup. specialize (Hdom i x Hlt Hi).
  eapply Z.le_lt_trans; [|exact Hdom]. apply Z.mul_le_mono_nonneg_l; [by unfold MERGE_SKEW_FACTOR|].
  replace (drop n by_size) with (drop (n - S i) (drop (S i) by_size)) by (rewrite drop_drop; f_equal; lia).
  rewrite <- (take_drop (n - S i) (drop (S i) by_size)) at 2. rewrite sum_sizes_app.
  assert (nonneg (take (n - S i) (drop (S i) by_size))) as H by by apply Forall_take, Forall_drop.
  pose proof (sum_sizes_nonneg _ H). lia.
Qed.

(** The selected group: two to [max_group] splits of one stream, the
    oldest of its candidates in time order, taken until they reach the target
    (no shorter run of them does), or the whole run when they cannot. The
    stream is the first eligible one past the cursor, or the first of all when
    there is none: service rotates over the eligible streams. *)
Theorem select_merge_group_spec small target mx cursor id g :
  Forall (fun s => 0 <= size_of s <= I64_MAX) small -> 0 < target <= I64_MAX ->
  select_merge_group small target mx cursor = Some (id, g) ->
  let cands := merge_candidates (group_of small id) in
  g `prefix_of` cands /\ (2 <= length g <= mx)%nat /\ Forall (fun s => sp_stream s = id) g /\
  (forall k, (k < length g)%nat -> sum_sizes (size_of <$> take k g) < target) /\
  (sum_sizes (size_of <$> g) < target -> g = take mx cands) /\
  (forall id', is_Some (eligible_group small target mx id') -> (exists s, s ∈ small /\ sp_stream s = id') ->
     (cursor < id -> ~ (cursor < id' < id)) /\ (id <= cursor -> id <= id' /\ id' <= cursor)).
Proof.
  intros Hn Ht Hsel cands. unfold select_merge_group in Hsel.
  set (el := omap _ _) in Hsel.
  assert (forall p, p ∈ el <-> exists i, i ∈ stream_ids small /\ eligible_group small target mx i = Some p) as Hel
    by (intros p; unfold el; apply list_elem_of_omap).
  assert ((id, g) ∈ el) as (i & Hi & Ei)%Hel by by eapply list_elem_of_lookup_2.
  assert (i = id) as -> by (unfold eligible_group in Ei; case_match; congruence).
  unfold eligible_group in Ei. fold cands in Ei.
  destruct (Nat.leb_spec 2 (merge_take cands target mx)) as [H2|]; [|done]. injection Ei as <-.
  assert (nonneg (size_of <$> cands)) as Hnc.
  { apply Forall_fmap. apply Forall_forall. intros s Hs.
    apply merge_candidates_in in Hs as Hs'.
    apply list_elem_of_filter in Hs' as [_ Hs']. by apply (proj1 (Forall_forall _ _) Hn). }
  assert (merge_take cands target mx <= Nat.min (length cands) mx)%nat as Hmt.
  { unfold merge_take. destruct (merge_take_loop _ _ _ _) as [n|] eqn:E; [|done].
    apply merge_take_loop_spec in E as (k & -> & Hk & _); [|by rewrite fmap_take; apply Forall_take|lia|lia].
    rewrite length_take in Hk. lia. }
  assert (length (take (merge_take cands target mx) cands) = merge_take cands target mx) as Hlen
    by (rewrite length_take; lia).
  assert ((forall k, (k < merge_take cands target mx)%nat -> sum_sizes (size_of <$> take k cands) < target) /\
    (sum_sizes (size_of <$> take (merge_take cands target mx) cands) < target ->
      take (merge_take cands target mx) cands = take mx cands)) as [Hpre Hall].
  { assert (nonneg (size_of <$> take mx cands)) as Hnt by (rewrite fmap_take; by apply Forall_take).
    assert (forall j k, (j <= k)%nat -> sum_sizes (size_of <$> take j cands) <= sum_sizes (size_of <$> take k cands)) as Hmono.
    { intros j k Hjk. rewrite <- (take_drop j (take k cands)), take_take, (Nat.min_l j k), fmap_app, sum_sizes_app by lia.
      assert (nonneg (size_of <$> drop j (take k cands))) as Hd.
      { rewrite fmap_drop, fmap_take. by apply Forall_drop, Forall_take. }
      pose proof (sum_sizes_nonneg _ Hd). lia. }
    unfold merge_take in *. destruct (merge_take_loop (take mx cands) target 0 0) as [n|] eqn:E.
    - apply merge_take_loop_spec in E as (k & -> & Hk & Hs); [|done|lia|lia]. cbn [Nat.add] in *.
      rewrite length_take in Hk. rewrite !take_take, !Nat.min_l in Hs by lia. split.
      + intros j Hj. specialize (Hmono j (k - 1)%nat ltac:(lia)). lia.
      + lia.
    - apply merge_take_loop_none in E; [|done|lia|lia]. split.
      + intros k Hk. specialize (Hmono k mx ltac:(lia)). lia.
      + intros _. destruct (Nat.le_ge_cases (length cands) mx); [|by rewrite Nat.min_r].
        rewrite Nat.min_l by done. by rewrite !take_ge by lia. }
  split_and!.
  - by eexists; rewrite take_drop.
  - by rewrite Hlen.
  - lia.
  - apply Forall_take. apply Forall_forall.
    by intros s [? _]%merge_candidates_in%list_elem_of_filter.
  - intros k Hk. rewrite Hlen in Hk. rewrite take_take, Nat.min_l by lia. by apply Hpre.
  - done.
  - intros id' [p' Ep'] Hs'. assert (p'.1 = id') as Hp' by (unfold eligible_group in Ep'; case_match; by simplify_eq).
    assert (p' ∈ el) as (j & Ej)%list_elem_of_lookup by (apply Hel; exists id'; split; [by apply stream_ids_in|done]).
    pose proof (eligible_sorted small target mx _ (stream_ids_sorted small)) as Hsort. fold el in Hsort.
    pose proof (position_first (fun p : Z * list SplitRecord => cursor <? p.1) el) as Hpos.
    destruct (position _ el) as [n|].
    + destruct Hpos as (x & Ex & Hx & Hf). change (default 0%nat (Some n)) with n in Hsel. rewrite Hsel in Ex. injection Ex as <-.
      apply Z.ltb_lt in Hx. cbn [fst] in Hx. split; [|lia]. intros _ [Hc Hlt].
      destruct (Nat.lt_trichotomy j n) as [Hjn|[->|Hjn]].
      * specialize (Hf j p' Hjn Ej). apply Z.ltb_ge in Hf. lia.
      * rewrite Hsel in Ej. injection Ej as <-. cbn [fst] in Hp'. lia.
      * pose proof (pair_sorted_lookup _ _ _ _ _ Hsort Hjn Hsel Ej). cbn [fst] in *. lia.
    + change (default 0%nat None) with 0%nat in Hsel.
      assert (p'.1 <= cursor) as Hle.
      { specialize (Hpos p' (list_elem_of_lookup_2 _ _ _ Ej)). by apply Z.ltb_ge in Hpos. }
      assert (id <= cursor) as Hle'.
      { specialize (Hpos _ (list_elem_of_lookup_2 _ _ _ Hsel)). by apply Z.ltb_ge in Hpos. }
      split; [lia|]. intros _. split; [|lia]. destruct j as [|j].
      * rewrite Hsel in Ej. injection Ej as <-. cbn [fst] in Hp'. lia.
      * pose proof (pair_sorted_lookup _ 0 (S j) _ _ Hsort ltac:(lia) Hsel Ej). cbn [fst] in *. lia.
Qed.

Definition demo_row (id stream size time : Z) : SplitRecord :=
  mkSplit id Published (mkNewSplit (dec id) stream (dec id) 1 size time time 0 None None None 0 1 None) 0 None 0 0.

(** A split more than ten times the size of everything smaller is not left
    out when a larger split of comparable size outranks it: the exclusion stops
    at the first ranked split that does not dominate. Here 60 stays in the
    group with 100 and 1, although it is sixty times the only smaller one. *)
Theorem dominant_below_the_top_is_kept :
  size_of <$> merge_candidates [demo_row 1 1 1 0; demo_row 2 1 60 1; demo_row 3 1 100 2] = [1; 60; 100] /\
  MERGE_SKEW_FACTOR * sum_sizes [1] < 60.
Proof. split; by vm_compute. Qed.

Definition demo_small : list SplitRecord :=
  [demo_row 1 1 5 0; demo_row 2 1 6 1; demo_row 3 2 7 0; demo_row 4 2 8 1; demo_row 5 2 90 2].
Lemma merge_candidates_spec_witness :
  size_of <$> merge_candidates demo_small ≡ₚ drop (dominant_prefix (sort_desc (size_of <$> demo_small))) (sort_desc (size_of <$> demo_small)).
Proof. apply (merge_candidates_spec demo_small). repeat constructor; by vm_compute. Defined.
Lemma select_merge_group_spec_witness :
  exists g, select_merge_group demo_small 12 8 1 = Some (2, g) /\ (2 <= length g <= 8)%nat.
Proof.
  eexists. split; [vm_compute; reflexivity|].
  apply (select_merge_group_spec demo_small 12 8 1 2); [repeat constructor; by vm_compute|by vm_compute|by vm_compute].
Defined.

(** ** What a search sees *)

Definition hides_doc (applied : Z) (t : TombstoneRecord) (doc : Doc) : bool :=
  (applied <? tr_seq t) && bool_decide (d_id doc = Some (tr_doc t)) && (d_seq doc <? tr_before_seq t).
Definition not_hidden (rows : list TombstoneRecord) (applied : Z) (docs : list Doc) : list Doc :=
  filter (fun doc => existsb (fun t => hides_doc applied t doc) rows = false) docs.

(** The documents a search of the stream sees in one split row: its file's,
    less those hidden by a tombstone past the row's applied bound. *)
Definition row_docs (d : Metastore) (c : Contents) (stream : Z) (s : SplitRecord) : list Doc :=
  if bool_decide (sp_stream s = stream /\ sp_state s = Published)
  then not_hidden (tombstone_rows d stream) (sp_applied s) (docs_of c (sp_split_id s)) else [].
Definition visible (d : Metastore) (c : Contents) (stream : Z) : list Doc :=
  concat (row_docs d c stream <$> split_rows d).
(** A document as a reader knows it (its identity aside). *)
Definition body (doc : Doc) : json * Z := (d_json doc, d_timestamp doc).

(** A split row agrees with its file: the lowest sequence number is recorded,
    and a row without one has no ids. *)
Definition row_ok (c : Contents) (s : SplitRecord) : Prop := forall doc, doc ∈ docs_of c (sp_split_id s) ->
  match ns_seq_min (sp_new s) with Some m => m <= d_seq doc | None => d_id doc = None end.

(** ** Lemmas *)

Lemma filter_enumerate {A} (P : nat -> Prop) (Q : A -> Prop) `{!forall n, Decision (P n)} `{!forall x, Decision (Q x)} (l : list A) :
  (forall i x, l !! i = Some x -> P i <-> Q x) -> snd <$> filter (fun p : nat * A => P p.1) (enumerate l) = filter Q l.
Proof.
  unfold enumerate. cut (forall n, (forall i x, l !! i = Some x -> P (n + i)%nat <-> Q x) ->
    snd <$> filter (fun p : nat * A => P p.1) (zip (seq n (length l)) l) = filter Q l).
  { intros Hcut Hl. by apply (Hcut 0%nat). }
  induction l as [|x l IH]; intros n Hl; [done|]. cbn [length seq zip zip_with]. rewrite !filter_cons.
  pose proof (Hl 0%nat x eq_refl) as Hz. rewrite Nat.add_0_r in Hz. cbn [fst].
  assert (snd <$> filter (fun p : nat * A => P p.1) (zip (seq (S n) (length l)) l) = filter Q l) as E.
  { apply IH. intros i y Hi. specialize (Hl (S i) y Hi). by rewrite Nat.add_succ_r in Hl. }
  destruct (decide (P n)), (decide (Q x)); try tauto. rewrite fmap_cons. by f_equal.
Qed.


(** What the rebuild keeps of a source. *)
Lemma surviving_spec s docs ts : StronglySorted (fun a b => tr_seq a < tr_seq b) ts ->
  (forall t, t ∈ ts -> 0 < tr_seq t) -> 0 <= sp_applied s ->
  (forall m doc, ns_seq_min (sp_new s) = Some m -> doc ∈ docs -> m <= d_seq doc) ->
  surviving s docs ts = not_hidden ts (sp_applied s) docs.
Proof.
  intros Hs Hpos Ha Hmin. unfold surviving, not_hidden.
  pose proof (filter_enumerate (fun i => contains (exclusions_of s docs ts) 0 (Z.of_nat i) = false)
    (fun doc => existsb (fun t => hides_doc (sp_applied s) t doc) ts = false) docs) as Hfe.
  apply Hfe. clear Hfe. intros i doc Hi.
  unfold exclusions_of. set (v := view_of (ns_seq_min (sp_new s)) docs).
  assert (view_ok v) as Hv.
  { intros m seg n q Em ->%list_elem_of_singleton Eq. cbn in Em, Eq.
    destruct (docs !! Z.to_nat n) as [x|] eqn:Ex; [|done]. injection Eq as <-. eapply Hmin; [exact Em|]. by eapply list_elem_of_lookup_2. }
  assert (excl_ok v (seed_applied_through (excl_empty [0]) (sp_applied s)) /\
    contains (seed_applied_through (excl_empty [0]) (sp_applied s)) 0 (Z.of_nat i) = false /\
    applied_through (seed_applied_through (excl_empty [0]) (sp_applied s)) = sp_applied s) as (Hok & Hc & Hap).
  { unfold seed_applied_through. pose proof (excl_empty_ok v [0] eq_refl) as Hok. cbn [applied_through excl_empty].
    destruct (Z.ltb_spec 0 (sp_applied s)); cbn [Z.eqb andb excl_is_empty total excl_empty].
    - split_and!; [split; apply Hok|apply (excl_empty_contains [0])|done].
    - split_and!; [done|apply (excl_empty_contains [0])|cbn; lia]. }
  destruct (apply_tombstones_step v _ ts Hv eq_refl Hok Hs) as (_ & Hc' & _).
  rewrite <- !not_true_iff_false. apply not_iff_compat. rewrite Hc', Hc, Hap, existsb_exists.
  split.
  - intros [?|(seg & t & Eseg & Ht & Hh)]; [done|]. injection Eseg as <-. destruct Hh as (Hp & q & Eq & Hlt).
    apply list_elem_of_filter in Ht as [Hta Ht]. exists t. split; [by apply list_elem_of_In|].
    cbn in Hp, Eq. apply list_elem_of_fmap in Hp as ([j x] & Ej & Hj). apply list_elem_of_filter in Hj as [Hid Hj].
    apply enumerate_elem in Hj. cbn in Ej, Hid. assert (j = i) as -> by lia. rewrite Hi in Hj. injection Hj as <-.
    rewrite Nat2Z.id, Hi in Eq. injection Eq as <-. unfold hides_doc.
    rewrite !andb_true_iff, bool_decide_eq_true, !Z.ltb_lt. done.
  - intros (t & Ht & Hh). right. unfold hides_doc in Hh.
    rewrite !andb_true_iff, bool_decide_eq_true, !Z.ltb_lt in Hh. destruct Hh as [[Hta Hid] Hlt].
    eexists _, t. split; [reflexivity|]. split; [apply list_elem_of_filter; split; [done|by apply list_elem_of_In]|].
    split; cbn.
    + apply list_elem_of_fmap. exists (i, doc). split; [done|]. apply list_elem_of_filter. split; [done|]. by apply enumerate_elem.
    + exists (d_seq doc). by rewrite Nat2Z.id, Hi.
Qed.

(** Keeping the unhidden documents of a source, then hiding by the rows past
    the new bound, is hiding by the rows past the source's own bound. *)
Lemma not_hidden_ext rows rows' a a' docs :
  (forall doc, doc ∈ docs -> (exists t, t ∈ rows /\ hides_doc a t doc = true) <-> (exists t, t ∈ rows' /\ hides_doc a' t doc = true)) ->
  not_hidden rows a docs = not_hidden rows' a' docs.
Proof.
  intros H. unfold not_hidden. induction docs as [|doc docs IH]; [done|]. rewrite !filter_cons.
  assert (existsb (fun t => hides_doc a t doc) rows = existsb (fun t => hides_doc a' t doc) rows') as ->.
  { apply Bool.eq_iff_eq_true. rewrite !existsb_exists. setoid_rewrite <- list_elem_of_In. apply H. by left. }
  rewrite IH; [done|]. intros x Hx. apply H. by right.
Qed.

Lemma not_hidden_in rows a docs doc : doc ∈ not_hidden rows a docs <->
  doc ∈ docs /\ forall t, t ∈ rows -> hides_doc a t doc = false.
Proof.
  unfold not_hidden. rewrite list_elem_of_filter, <- not_true_iff_false, existsb_exists. setoid_rewrite <- list_elem_of_In.
  split; [intros [H ?]; split; [done|]; intros t Ht; apply not_true_is_false; intros E; apply H; eauto|].
  intros [? H]. split; [|done]. intros (t & Ht & E). rewrite H in E; done.
Qed.

(** The bodies of the rebuilt documents that a search sees are those it saw in
    the source. *)
Lemma reidentified_bodies generated rows ts a b docs :
  (forall t, t ∈ ts -> exists t', t' ∈ rows /\ tr_doc t' = tr_doc t /\ tr_seq t <= tr_seq t' /\ tr_before_seq t <= tr_before_seq t') ->
  (forall t, t ∈ rows -> tr_seq t <= Z.max a b -> t ∈ ts) ->
  (forall t, t ∈ ts -> tr_seq t <= b) ->
  (forall doc t, t ∈ rows -> d_id doc = None -> generated doc <> tr_doc t) ->
  body <$> not_hidden rows b (reidentify generated <$> not_hidden ts a docs) = body <$> not_hidden rows a docs.
Proof.
  intros Hts Hrows Hb Hgen. induction docs as [|doc docs IH]; [done|].
  unfold not_hidden at 2 3. rewrite !filter_cons. fold (not_hidden ts a docs). fold (not_hidden rows a docs).
  assert (forall t, t ∈ ts -> hides_doc a t doc = true -> exists t', t' ∈ rows /\ hides_doc a t' doc = true) as H1.
  { intros t Ht Hh. destruct (Hts t Ht) as (t' & ? & Ed & ? & ?). exists t'. split; [done|]. unfold hides_doc in *.
    rewrite !andb_true_iff, bool_decide_eq_true, !Z.ltb_lt in *. rewrite Ed. destruct Hh as [[? ?] ?]. split_and!; [lia|done|lia]. }
  destruct (existsb (fun t => hides_doc a t doc) ts) eqn:E1.
  - apply existsb_exists in E1 as (t & Ht%list_elem_of_In & Hh). destruct (H1 t Ht Hh) as (t' & Ht' & Hh').
    assert (existsb (fun t => hides_doc a t doc) rows = true) as -> by (apply existsb_exists; exists t'; by rewrite <- list_elem_of_In).
    rewrite !decide_False by done. apply IH.
  - rewrite decide_True by done. rewrite fmap_cons. unfold not_hidden at 1. rewrite filter_cons.
    fold (not_hidden rows b (reidentify generated <$> not_hidden ts a docs)).
    assert (existsb (fun t => hides_doc b t (reidentify generated doc)) rows = existsb (fun t => hides_doc a t doc) rows) as ->.
    { apply Bool.eq_iff_eq_true. rewrite !existsb_exists. setoid_rewrite <- list_elem_of_In.
      unfold reidentify. destruct (d_id doc) as [id|] eqn:Eid.
      - split; intros (t & Ht & Hh); exists t; (split; [done|]); unfold hides_doc in Hh |- *;
          rewrite !andb_true_iff, bool_decide_eq_true, !Z.ltb_lt in Hh |- *; destruct Hh as [[Hs Hd] Hlt]; (split_and!; [|done..]).
        + destruct (Z.le_gt_cases (tr_seq t) (Z.max a b)) as [Hle|]; [|lia]. pose proof (Hb t (Hrows t Ht Hle)). lia.
        + destruct (Z.le_gt_cases (tr_seq t) b) as [Hle|]; [|lia]. exfalso.
          assert (existsb (fun t => hides_doc a t doc) ts = true); [|congruence]. apply existsb_exists. exists t.
          split; [apply list_elem_of_In, Hrows; [done|lia]|]. unfold hides_doc.
          rewrite !andb_true_iff, bool_decide_eq_true, !Z.ltb_lt. done.
      - split; intros (t & Ht & Hh); exfalso; unfold hides_doc in Hh; rewrite !andb_true_iff, bool_decide_eq_true in Hh;
          destruct Hh as [[_ Hd] _].
        + cbn [d_id] in Hd. injection Hd as Hd. by eapply Hgen.
        + congruence. }
    case_decide; [rewrite !fmap_cons, IH; f_equal; unfold reidentify; by destruct (d_id doc)|apply IH].
Qed.

Lemma concat_bodies_perm {A} (f g : A -> list Doc) (l : list A) : (forall x, x ∈ l -> body <$> f x = body <$> g x) ->
  body <$> concat (f <$> l) = body <$> concat (g <$> l).
Proof.
  induction l as [|x l IH]; intros H; [done|]. rewrite !fmap_cons. cbn [concat]. rewrite !fmap_app.
  rewrite IH by (intros; apply H; by right). by rewrite H by by left.
Qed.

Lemma concat_perm {A} (f : A -> list Doc) (l k : list A) : l ≡ₚ k -> concat (f <$> l) ≡ₚ concat (f <$> k).
Proof. intros H. induction H; simpl; [done|by f_equiv|by rewrite !(assoc_L (++)), (Permutation_app_comm (f y))|by etrans]. Qed.

(** ** The visible documents as a fold over the split rows *)

Definition vis_of (f : SplitRecord -> list Doc) (m : gmap bytes SplitRecord) : list Doc :=
  concat (f <$> (map_to_list m).*2).

Lemma vis_insert f m k s : m !! k = None -> vis_of f (<[k := s]> m) ≡ₚ f s ++ vis_of f m.
Proof. intros H. unfold vis_of. rewrite map_to_list_insert by done. done. Qed.

Lemma vis_fmap f g m : vis_of f (g <$> m) = vis_of (fun s => f (g s)) m.
Proof.
  unfold vis_of. f_equal. rewrite map_to_list_fmap, <- !list_fmap_compose. apply list_fmap_ext. by intros i [k s].
Qed.

Lemma vis_ext f g m : (forall k s, m !! k = Some s -> body <$> f s = body <$> g s) ->
  body <$> vis_of f m = body <$> vis_of g m.
Proof.
  intros H. apply concat_bodies_perm. intros s ([k s'] & -> & Hin%elem_of_map_to_list)%list_elem_of_fmap. by apply (H k).
Qed.

Lemma vis_split_off f m sources : (forall k s, m !! k = Some s -> sp_split_id s = k) ->
  NoDup (sp_split_id <$> sources) -> (forall s, s ∈ sources -> m !! sp_split_id s = Some s) ->
  vis_of f m ≡ₚ concat (f <$> sources) ++
    vis_of (fun s => if bool_decide (sp_split_id s ∈ sp_split_id <$> sources) then [] else f s) m.
Proof.
  intros Hk Hnd Hs. unfold vis_of. set (rows := (map_to_list m).*2). set (old := sp_split_id <$> sources).
  assert (forall s, s ∈ rows <-> m !! sp_split_id s = Some s) as Hrows.
  { intros s. unfold rows. rewrite list_elem_of_fmap. split.
    - intros ([k x] & -> & Hin%elem_of_map_to_list). simpl. by rewrite (Hk _ _ Hin).
    - intros E. exists (sp_split_id s, s). split; [done|]. by apply elem_of_map_to_list. }
  assert (NoDup rows) as Hndr.
  { unfold rows. apply NoDup_fmap_2_strong; [|apply NoDup_map_to_list].
    intros [k x] [l y] Hx%elem_of_map_to_list Hy%elem_of_map_to_list E. simpl in E. subst y.
    by rewrite <- (Hk _ _ Hx), <- (Hk _ _ Hy). }
  assert (filter (fun s => sp_split_id s ∈ old) rows ≡ₚ sources) as Hp.
  { apply NoDup_Permutation; [by apply NoDup_filter|by eapply NoDup_fmap_1|].
    intros s. rewrite list_elem_of_filter, Hrows. split.
    - intros [Hin E]. apply list_elem_of_fmap in Hin as (s' & E' & Hs'). rewrite E' in E.
      rewrite (Hs s' Hs') in E. by injection E as ->.
    - intros Hin. split; [by apply list_elem_of_fmap_2|by apply Hs]. }
  assert (forall l, concat (f <$> l) ≡ₚ concat (f <$> filter (fun s => sp_split_id s ∈ old) l) ++
    concat ((fun s => if bool_decide (sp_split_id s ∈ old) then [] else f s) <$> l)) as Hl.
  { clear. induction l as [|s l IH]; [done|]. rewrite !fmap_cons, filter_cons. cbn [concat]. rewrite IH.
    destruct (decide (sp_split_id s ∈ old)).
    - rewrite bool_decide_true by done. rewrite fmap_cons. cbn [concat]. by rewrite <- (assoc_L (++)).
    - rewrite bool_decide_false by done. by rewrite !(assoc_L (++)), (Permutation_app_comm (f s)). }
  rewrite (Hl rows). f_equiv. by apply concat_perm.
Qed.

Lemma not_hidden_app rows a l k : not_hidden rows a (l ++ k) = not_hidden rows a l ++ not_hidden rows a k.
Proof. apply filter_app. Qed.

Record tombstones_current (d : Metastore) (stream : Z) (sources : list SplitRecord) (ts : list TombstoneRecord) : Prop := {
  tc_asc : StronglySorted (fun a b => tr_seq a < tr_seq b) ts;
  tc_pos t : t ∈ ts -> 0 < tr_seq t;
  (** since they were read the rows can only have been raised *)
  tc_raised t : t ∈ ts -> exists t', t' ∈ tombstone_rows d stream /\ tr_doc t' = tr_doc t /\
    tr_seq t <= tr_seq t' /\ tr_before_seq t <= tr_before_seq t';
  (** and every row up to the last one read was read *)
  tc_complete t s : t ∈ tombstone_rows d stream -> s ∈ sources ->
    tr_seq t <= Z.max (sp_applied s) (last_applied ts) -> t ∈ ts;
}.

Record sources_ok (d : Metastore) (c : Contents) (stream : Z) (s : SplitRecord) : Prop := {
  so_row : m_splits d !! sp_split_id s = Some s;
  so_published : sp_state s = Published;
  so_stream : sp_stream s = stream;
  so_applied : 0 <= sp_applied s;
  so_file : row_ok c s;
}.

Lemma ts_last ts t : StronglySorted (fun a b : TombstoneRecord => tr_seq a < tr_seq b) ts -> t ∈ ts -> tr_seq t <= last_applied ts.
Proof. apply ascending_last. Qed.

(** The bodies seen in the rebuilt documents. *)
Lemma rebuilt_bodies generated d c stream sources ts :
  (forall s, s ∈ sources -> sources_ok d c stream s) -> tombstones_current d stream sources ts ->
  (forall doc t, t ∈ tombstone_rows d stream -> d_id doc = None -> generated doc <> tr_doc t) ->
  body <$> not_hidden (tombstone_rows d stream) (last_applied ts) (rebuilt_docs generated c sources ts) =
  body <$> concat (row_docs d c stream <$> sources).
Proof.
  intros Hs Ht Hgen. unfold rebuilt_docs.
  assert (forall l, l ⊆ sources -> body <$> not_hidden (tombstone_rows d stream) (last_applied ts)
      (reidentify generated <$> concat ((fun s => surviving s (docs_of c (sp_split_id s)) ts) <$> l)) =
    body <$> concat (row_docs d c stream <$> l)) as H; [|by apply H].
  induction l as [|s l IH]; intros Hl; [done|]. rewrite !fmap_cons. cbn [concat].
  rewrite !fmap_app, not_hidden_app, fmap_app, IH by set_solver. f_equal.
  assert (s ∈ sources) as Hin by set_solver. destruct (Hs s Hin) as [_ Hp Hst Ha Hf].
  unfold row_docs. rewrite bool_decide_true by done.
  rewrite surviving_spec; [|apply Ht|apply Ht|done|].
  - apply reidentified_bodies.
    + apply Ht.
    + intros t Htr Hle. by eapply (tc_complete _ _ _ _ Ht).
    + intros t Htt. by apply ts_last; [apply Ht|].
    + done.
  - intros m doc Em Hd. specialize (Hf doc Hd). by rewrite Em in Hf.
Qed.

Lemma visible_vis d c stream : visible d c stream = vis_of (row_docs d c stream) (m_splits d).
Proof. reflexivity. Qed.

Lemma row_docs_insert d c k docs stream s : sp_split_id s <> k -> row_docs d (<[k := docs]> c) stream s = row_docs d c stream s.
Proof. intros Hn. unfold row_docs, docs_of. by rewrite lookup_insert_ne. Qed.

Lemma row_docs_same_tombs d d' c stream s : m_tombstones d' = m_tombstones d -> row_docs d' c stream s = row_docs d c stream s.
Proof. intros E. unfold row_docs, tombstone_rows. by rewrite E. Qed.

Lemma rebuild_preserves generated d c now node nm stream sources ts p ok1 ok2 ok3 d' c' r :
  meta_wf d -> NoDup (sp_split_id <$> sources) -> (forall s, s ∈ sources -> sources_ok d c stream s) ->
  m_splits d !! p_split_id p = None -> tombstones_current d stream sources ts ->
  (forall doc t, t ∈ tombstone_rows d stream -> d_id doc = None -> generated doc <> tr_doc t) ->
  rebuild_splits generated d c now node nm stream sources ts p ok1 ok2 ok3 = (d', c', r) ->
  forall stream', body <$> visible d' c' stream' ≡ₚ body <$> visible d c stream'.
Proof.
  intros Hw Hnd Hs Hfresh Ht Hgen E stream'. unfold rebuild_splits in E.
  set (old := sp_split_id <$> sources) in *. set (docs := rebuilt_docs generated c sources ts) in *.
  assert (forall k s, m_splits d !! k = Some s -> sp_split_id s = k) as Hid by (intros k s Ek; by apply (wf_split _ Hw)).
  assert (forall k s, m_splits d !! k = Some s -> sp_split_id s <> p_split_id p) as Hne.
  { intros k s Ek En. rewrite (Hid _ _ Ek) in En. congruence. }
  pose proof (rebuilt_bodies generated d c stream sources ts Hs Ht Hgen) as Hb. fold docs in Hb.
  (* what remains once the sources are marked *)
  assert (body <$> concat (row_docs d c stream' <$> sources) =
    if decide (stream' = stream) then body <$> not_hidden (tombstone_rows d stream) (last_applied ts) docs else []) as Hsrc.
  { case_decide as Hd; [by subst|]. clear -Hs Hd. induction sources as [|s l IH]; [done|]. rewrite fmap_cons. cbn [concat].
    rewrite fmap_app, IH by (intros; apply Hs; by right). unfold row_docs at 1.
    rewrite bool_decide_false; [done|]. intros [Hst _]. apply Hd. rewrite <- Hst. apply (Hs s). by left. }
  assert (forall f', (forall k s, m_splits d !! k = Some s -> body <$> f' s =
      body <$> (if bool_decide (sp_split_id s ∈ old) then [] else row_docs d c stream' s)) ->
    body <$> visible d c stream' ≡ₚ (body <$> concat (row_docs d c stream' <$> sources)) ++ (body <$> vis_of f' (m_splits d))) as Hmain.
  { intros f' Hf'. rewrite visible_vis. rewrite (vis_split_off _ _ sources Hid Hnd) by (intros; by apply Hs).
    rewrite fmap_app. f_equiv. by rewrite (vis_ext f' _ _ Hf'). }
  destruct docs as [|doc0 docs0] eqn:Edocs.
  { destruct ok3; injection E as <- <- _; [|done].
    rewrite (Hmain (fun s => row_docs d c stream' (if bool_decide (sp_split_id s ∈ old) && negb (bool_decide (sp_state s = MarkedForDelete)) then set_state MarkedForDelete now s else s))).
    - rewrite Hsrc. replace (if decide (stream' = stream) then _ else []) with (@nil (json * Z)) by by case_decide.
      rewrite visible_vis. cbn [mark_splits_for_delete fst set_splits m_splits]. unfold mark_where. by rewrite vis_fmap.
    - intros k s Ek. case_bool_decide as Ho; [|done]. simpl. case_bool_decide as Hm; unfold row_docs; rewrite bool_decide_false; try done;
        simpl; intros [_ ?]; congruence. }
  rewrite <- Edocs in *. clear Edocs doc0 docs0.
  destruct ok1; simpl in E; [|by injection E as <- <- _].
  set (row := mkNewSplit _ _ _ _ _ _ _ _ _ _ _ _ _ _) in *.
  assert (forall k s, m_splits d !! k = Some s -> row_docs d (<[p_split_id p := docs]> c) stream' s = row_docs d c stream' s) as Hc'
    by (intros k s Ek; apply row_docs_insert; by eapply Hne).
  assert (body <$> vis_of (row_docs d (<[p_split_id p := docs]> c) stream') (m_splits d) = body <$> visible d c stream') as Hsame.
  { rewrite visible_vis. apply vis_ext. intros k s Ek. by rewrite (Hc' k). }
  destruct ok2; [|injection E as <- <- _; rewrite visible_vis; by rewrite Hsame].
  destruct (stage_split d now row) as [d1|e] eqn:Est; [|injection E as <- <- _; rewrite visible_vis; by rewrite Hsame].
  unfold stage_split in Est. change (ns_split_id row) with (p_split_id p) in Est. rewrite Hfresh in Est.
  destruct (m_streams d !! ns_stream_id row) as [sr|]; [|done]. injection Est as <-.
  set (staged := mkSplit _ Staged row _ _ _ _) in *.
  set (d1 := mkMeta (m_streams d) _ _ _ _ _) in *.
  assert (body <$> visible d1 (<[p_split_id p := docs]> c) stream' ≡ₚ body <$> visible d c stream') as Hstaged.
  { rewrite visible_vis. cbn [d1 m_splits]. rewrite vis_insert by done.
    assert (row_docs d1 (<[p_split_id p := docs]> c) stream' staged = []) as ->.
    { unfold row_docs. rewrite bool_decide_false; [done|]. by intros [_ ?]. }
    simpl. rewrite <- Hsame. apply reflexive_eq. by apply vis_ext. }
  destruct ok3; [|by injection E as <- <- _].
  destruct (swap_splits d1 now old (p_split_id p)) as [d2|e] eqn:Esw; injection E as <- <- _; [|done].
  apply swap_splits_inv in Esw as (s & Es & _ & ->). cbn [d1 m_splits] in Es. rewrite lookup_insert_eq in Es. injection Es as <-.
  rewrite (Hmain (fun s => row_docs d (<[p_split_id p := docs]> c) stream' (if bool_decide (sp_split_id s ∈ old) then set_state MarkedForDelete now s else s))).
  - rewrite visible_vis. cbn [set_splits m_splits d1]. rewrite insert_insert_eq, vis_fmap, vis_insert, fmap_app by done.
    f_equiv.
    + apply reflexive_eq. rewrite Hsrc. rewrite bool_decide_false.
      2:{ unfold old. intros (x & Ex & Hx)%list_elem_of_fmap. eapply (Hne (sp_split_id x) x); [by apply Hs|]. rewrite <- Ex. done. }
      unfold row_docs. case_decide as Hd.
      * rewrite bool_decide_true by (split; [by subst|done]). subst stream'. unfold docs_of.
        change (sp_split_id (set_state Published now staged)) with (p_split_id p). rewrite lookup_insert_eq. done.
      * rewrite bool_decide_false; [done|]. intros [Hst _]. apply Hd. by rewrite <- Hst.
    + apply reflexive_eq, vis_ext. intros k s Ek. by apply (f_equal (fmap body)), row_docs_same_tombs.
  - intros k s Ek. case_bool_decide.
    + unfold row_docs. rewrite bool_decide_false; [done|]. by intros [_ ?].
    + by rewrite (Hc' k).
Qed.

(** ** Claims: compaction *)

(** [C16] A rebuild (merge, compaction or schema upgrade) is invisible to
    readers: whatever round trip fails, every stream shows the same documents
    after it as before, as long as the tombstones it worked from were read in
    full and have at most been raised since. Hidden versions are dropped,
    nothing else is, nothing is seen twice while the sources wait for
    collection. *)
Theorem rebuild_preserves_visible generated d c now node nm stream sources ts p ok1 ok2 ok3 d' c' r :
  meta_wf d -> NoDup (sp_split_id <$> sources) -> (forall s, s ∈ sources -> sources_ok d c stream s) ->
  m_splits d !! p_split_id p = None -> tombstones_current d stream sources ts ->
  (forall doc t, t ∈ tombstone_rows d stream -> d_id doc = None -> generated doc <> tr_doc t) ->
  rebuild_splits generated d c now node nm stream sources ts p ok1 ok2 ok3 = (d', c', r) ->
  forall stream', body <$> visible d' c' stream' ≡ₚ body <$> visible d c stream'.
Proof. apply rebuild_preserves. Qed.

(** ** Compaction's other branch, and the purge *)

Lemma sum_zero (l : list (list Z)) : foldr Z.add 0 ((fun x : list Z => Z.of_nat (length x)) <$> l) = 0 ->
  forall x, x ∈ l -> x = [].
Proof.
  assert (forall l : list (list Z), 0 <= foldr Z.add 0 ((fun x : list Z => Z.of_nat (length x)) <$> l)) as Hpos
    by (induction l0; simpl; unfold fmap in *; lia).
  induction l as [|y l IH]; intros H x Hx; [by apply elem_of_nil in Hx|]. rewrite fmap_cons in H. cbn [foldr] in H.
  pose proof (Hpos l). apply elem_of_cons in Hx as [->|Hx]; [|apply IH; [lia|done]]. destruct y; [done|simpl in *; lia].
Qed.

(** An empty exclusion set means nothing is hidden. *)
Lemma nothing_excluded s docs ts : StronglySorted (fun a b => tr_seq a < tr_seq b) ts ->
  (forall t, t ∈ ts -> 0 < tr_seq t) -> 0 <= sp_applied s ->
  (forall m doc, ns_seq_min (sp_new s) = Some m -> doc ∈ docs -> m <= d_seq doc) ->
  excl_len (exclusions_of s docs ts) = 0 -> not_hidden ts (sp_applied s) docs = docs.
Proof.
  intros Hs Hpos Ha Hmin Hlen. rewrite <- surviving_spec by done. unfold surviving.
  assert (excl_ok (view_of (ns_seq_min (sp_new s)) docs) (exclusions_of s docs ts)) as Hok.
  { unfold exclusions_of. apply apply_tombstones_step; [|done| |done].
    - intros m seg n q Em ->%list_elem_of_singleton Eq. cbn in Em, Eq.
      destruct (docs !! Z.to_nat n) as [x|] eqn:Ex; [|done]. injection Eq as <-. eapply Hmin; [exact Em|]. by eapply list_elem_of_lookup_2.
    - unfold seed_applied_through. pose proof (excl_empty_ok (view_of (ns_seq_min (sp_new s)) docs) [0] eq_refl) as Hok.
      destruct (_ && _); [split; apply Hok|done]. }
  unfold excl_len in Hlen. rewrite (ok_total _ _ Hok) in Hlen.
  rewrite (filter_every _ (enumerate docs)).
  - unfold enumerate. generalize 0%nat. clear. induction docs as [|x docs IH]; intros n; [done|]. simpl. f_equal. apply IH.
  - apply Forall_forall. intros [i x] _. apply not_true_is_false. intros Hc.
    apply (contains_spec _ _ _ _ Hok) in Hc as (ds & Eds & Hin).
    rewrite (sum_zero _ Hlen ds) in Hin by by eapply list_elem_of_lookup_2. by apply elem_of_nil in Hin.
Qed.

(** A compaction step changes nothing a reader sees, on both of its
    branches: a split with nothing hidden is only marked up to date, the
    others are rebuilt. *)
Theorem compact_split_preserves_visible generated d c now node nm stream s ts p ok1 ok2 ok3 :
  meta_wf d -> sources_ok d c stream s -> m_splits d !! p_split_id p = None -> tombstones_current d stream [s] ts ->
  (forall doc t, t ∈ tombstone_rows d stream -> d_id doc = None -> generated doc <> tr_doc t) ->
  let '(d', c') := compact_split generated d c now node nm stream s ts (last_applied ts) p ok1 ok2 ok3 in
  forall stream', body <$> visible d' c' stream' ≡ₚ body <$> visible d c stream'.
Proof.
  intros Hw Hs Hfresh Ht Hgen. unfold compact_split.
  destruct (Z.eqb_spec (excl_len (exclusions_of s (docs_of c (sp_split_id s)) ts)) 0) as [Hlen|Hlen].
  - destruct ok3; [|done]. intros stream'. rewrite !visible_vis. cbn [mark_tombstones_applied set_splits m_splits].
    pose proof Hs as [Erow Hpub Hst Ha Hf].
    assert (alter (fun x => mkSplit (sp_id x) (sp_state x) (sp_new x) (Z.max (sp_applied x) (last_applied ts)) (sp_fields x) (sp_created_at x) now)
      (sp_split_id s) (m_splits d) = (fun x => if bool_decide (sp_split_id x = sp_split_id s) then
        mkSplit (sp_id x) (sp_state x) (sp_new x) (Z.max (sp_applied x) (last_applied ts)) (sp_fields x) (sp_created_at x) now else x) <$> m_splits d) as ->.
    { apply map_eq. intros k. rewrite lookup_fmap. destruct (decide (k = sp_split_id s)) as [->|Hne].
      - rewrite lookup_alter_eq, Erow. simpl. by rewrite bool_decide_true.
      - rewrite lookup_alter_ne by done. destruct (m_splits d !! k) as [x|] eqn:Ek; [|done]. simpl.
        destruct (wf_split _ Hw _ _ Ek) as [-> _]. by rewrite bool_decide_false. }
    rewrite vis_fmap. apply reflexive_eq, vis_ext. intros k x Ek. case_bool_decide as Hx; [|by apply (f_equal (fmap body)), row_docs_same_tombs].
    destruct (wf_split _ Hw _ _ Ek) as [Hk _]. assert (x = s) as -> by (rewrite Hx in Hk; subst k; congruence).
    unfold row_docs. change (sp_stream (mkSplit _ _ (sp_new s) _ _ _ _)) with (sp_stream s). cbn [sp_state].
    case_bool_decide as Hd; [|done]. destruct Hd as [Hd _]. rewrite Hst in Hd. subst stream'. f_equal.
    change (sp_split_id (mkSplit _ _ (sp_new s) _ _ _ _)) with (sp_split_id s). cbn [sp_applied].
    change (tombstone_rows (mark_tombstones_applied d now (sp_split_id s) (last_applied ts)) stream) with (tombstone_rows d stream).
    pose proof (nothing_excluded s (docs_of c (sp_split_id s)) ts (tc_asc _ _ _ _ Ht) (tc_pos _ _ _ _ Ht) Ha) as Hnone.
    specialize (Hnone ltac:(intros m doc Em Hd; specialize (Hf doc Hd); by rewrite Em in Hf) Hlen).
    apply not_hidden_ext. intros doc Hdoc. split; intros (t & Htr & Hh).
    + exists t. split; [done|]. unfold hides_doc in *. rewrite !andb_true_iff, !Z.ltb_lt in *. split_and!; naive_solver lia.
    + exists t. split; [done|]. destruct (Z.le_gt_cases (tr_seq t) (Z.max (sp_applied s) (last_applied ts))) as [Hle|].
      * assert (t ∈ ts) as Hts by (eapply (tc_complete _ _ _ _ Ht); [done|by left|done]).
        rewrite <- Hnone in Hdoc. apply not_hidden_in in Hdoc as [_ Hdoc]. rewrite Hdoc in Hh by done. done.
      * unfold hides_doc in *. rewrite !andb_true_iff, !Z.ltb_lt in *. split_and!; naive_solver lia.
  - destruct (rebuild_splits _ _ _ _ _ _ _ _ _ _ _ _ _) as [[d' c'] r] eqn:E. cbn [fst]. intros stream'.
    eapply (rebuild_preserves generated d c now node nm stream [s] ts p ok1 ok2 ok3); [done| | |done|done|done|exact E].
    + by apply NoDup_singleton.
    + by intros x ->%list_elem_of_singleton.
Qed.

(** Purging tombstones brings no deleted document back: every row removed
    was past the grace period and already applied to every live split that
    could hold a version it hides, so no stream shows anything else. *)
Theorem purge_preserves_visible d c now grace lim stream : meta_wf d ->
  (forall k s, m_splits d !! k = Some s -> row_ok c s) ->
  visible (purge_tombstones d now grace lim).1 c stream = visible d c stream.
Proof.
  intros Hw Hok. unfold visible. change (split_rows (purge_tombstones d now grace lim).1) with (split_rows d).
  f_equal. apply list_fmap_ext. intros i s Hi. apply list_elem_of_lookup_2 in Hi. apply split_rows_in in Hi; [|done].
  unfold row_docs. case_bool_decide as Hs; [|done]. destruct Hs as [Hst Hpub]. apply not_hidden_ext. intros doc Hdoc.
  set (d' := (purge_tombstones d now grace lim).1).
  assert (forall t, t ∈ tombstone_rows d' stream -> t ∈ tombstone_rows d stream) as Hsub.
  { intros t (u & E & ->)%tombstone_rows_in. apply tombstone_rows_in. exists u. split; [|done].
    cbn [d' purge_tombstones fst m_tombstones] in E. by apply map_lookup_filter_Some in E as [? _]. }
  split; intros (t & Ht & Hh); exists t; (split; [|done]); [by apply Hsub|].
  apply tombstone_rows_in in Ht as (u & E & Et). apply tombstone_rows_in. exists u. split; [|done].
  cbn [d' purge_tombstones fst m_tombstones]. apply map_lookup_filter_Some. split; [done|]. cbn [fst].
  intros Hv. apply list_elem_of_fmap in Hv as ([k u'] & Ek & Hv). cbn in Ek. subst k.
  assert (((stream, tr_doc t), u') ∈ order_by (fun p => t_created_at p.2)
    (filter (fun p => purgeable d now grace p = true) (map_to_list (m_tombstones d)))) as Hv'.
  { unfold limit in Hv. rewrite <- (take_drop (Z.to_nat lim)). apply elem_of_app. by left. }
  apply elem_of_order_by, list_elem_of_filter in Hv' as [Hp Hv'%elem_of_map_to_list].
  rewrite E in Hv'. injection Hv' as <-. unfold purgeable in Hp. apply andb_true_iff in Hp as [_ Hp]. cbn [fst snd] in Hp.
  unfold hides_doc in Hh. rewrite !andb_true_iff, bool_decide_eq_true, !Z.ltb_lt in Hh. destruct Hh as [[Hseq Hid] _].
  rewrite Et in Hseq. cbn [tr_seq] in Hseq.
  pose proof (Hok _ s Hi doc Hdoc) as Hr. destruct (ns_seq_min (sp_new s)) as [mn|] eqn:Emn; [|congruence].
  (* the split counts towards the floor *)
  assert (exists f, applied_floor d stream = Some f /\ f <= sp_applied s) as (f & Ef & Hle).
  { unfold applied_floor.
    assert (s ∈ filter (fun s => sp_stream s = stream /\ live_split s = true /\ is_Some (ns_seq_min (sp_new s))) (split_rows d)) as Hin.
    { apply list_elem_of_filter. split; [|by apply split_rows_in]. unfold live_split. rewrite Hpub, Emn. done. }
    revert Hin. generalize (filter (fun s => sp_stream s = stream /\ live_split s = true /\ is_Some (ns_seq_min (sp_new s))) (split_rows d)).
    clear. induction l as [|x l IH]; intros Hin; [by apply elem_of_nil in Hin|]. rewrite fmap_cons. unfold sql_min. cbn [foldr].
    apply elem_of_cons in Hin as [<-|Hin].
    - destruct (foldr _ _ _) as [g|]; simpl; eexists; (split; [reflexivity|]); lia.
    - destruct (IH Hin) as (f & Ef & Hle). unfold sql_min in Ef. rewrite Ef. simpl. eexists. split; [reflexivity|]. lia. }
  rewrite Ef in Hp. apply Z.leb_le in Hp. lia.
Qed.

(** ** Retention *)

Lemma expired_mark d now s ids : sp_split_id s ∈ ids ->
  expired (mark_splits_for_delete d now ids).1 now (if bool_decide (sp_split_id s ∈ ids) && negb (bool_decide (sp_state s = MarkedForDelete)) then set_state MarkedForDelete now s else s) = false.
Proof.
  intros H. rewrite bool_decide_true by done. cbn [andb]. unfold expired.
  destruct (decide (sp_state s = MarkedForDelete)) as [Hm|Hm].
  - rewrite (bool_decide_true (sp_state s = MarkedForDelete)) by done. cbn [negb].
    by rewrite (bool_decide_false (sp_state s = Published)) by (rewrite Hm; done).
  - rewrite (bool_decide_false (sp_state s = MarkedForDelete)) by done. done.
Qed.

Definition expired_rows (d : Metastore) (now : Z) : list SplitRecord := filter (fun s => expired d now s = true) (split_rows d).

Lemma mark_rows d now ids : split_rows (mark_splits_for_delete d now ids).1 =
  (fun s => if bool_decide (sp_split_id s ∈ ids) && negb (bool_decide (sp_state s = MarkedForDelete)) then set_state MarkedForDelete now s else s) <$> split_rows d.
Proof.
  unfold split_rows. cbn [mark_splits_for_delete fst set_splits m_splits]. unfold mark_where.
  rewrite map_to_list_fmap, <- !list_fmap_compose. apply list_fmap_ext. by intros i [k s].
Qed.

Lemma expired_rows_mark d now ids : expired_rows (mark_splits_for_delete d now ids).1 now =
  filter (fun s => sp_split_id s ∉ ids) (expired_rows d now).
Proof.
  unfold expired_rows. rewrite mark_rows. generalize (split_rows d). intros l.
  induction l as [|s l IH]; [done|]. rewrite fmap_cons, !filter_cons.
  destruct (decide (sp_split_id s ∈ ids)) as [Hin|Hin].
  - rewrite (expired_mark d now s ids Hin). rewrite decide_False by done. rewrite IH.
    destruct (expired d now s); [|done]. rewrite decide_True by done. rewrite filter_cons, decide_False by (intros ?; done). done.
  - rewrite bool_decide_false by done. cbn [andb].
    change (expired (mark_splits_for_delete d now ids).1 now s) with (expired d now s).
    destruct (expired d now s).
    + rewrite !decide_True by done. rewrite filter_cons, decide_True by done. by rewrite IH.
    + rewrite !decide_False by done. apply IH.
Qed.

Lemma expired_splits_rows d now lim : expired_splits d now lim = take (Z.to_nat lim) (sp_split_id <$> expired_rows d now).
Proof. reflexivity. Qed.

(** Retention finishes and is complete: given one round per expired split
    (a batch marks at least one), the loop ends with no published split past
    its stream's window, and a row that was not expired is untouched. *)
Theorem retention_complete fuel d now : meta_wf d -> (length (expired_rows d now) < fuel)%nat ->
  exists d', retention_loop fuel d now = Some d' /\ expired_rows d' now = [] /\
    forall k s, m_splits d !! k = Some s -> expired d now s = false -> m_splits d' !! k = Some s.
Proof.
  revert d; induction fuel as [|fuel IH]; intros d Hw Hf; [lia|]. cbn [retention_loop].
  rewrite expired_splits_rows. set (ids := take _ _).
  assert (forall k s, m_splits d !! k = Some s -> expired d now s = false ->
    m_splits (mark_splits_for_delete d now ids).1 !! k = Some s) as Hkeep.
  { intros k s Ek Hx. cbn [mark_splits_for_delete fst set_splits m_splits]. unfold mark_where. rewrite lookup_fmap, Ek. simpl.
    rewrite bool_decide_false; [done|]. intros Hin. unfold ids in Hin.
    assert (sp_split_id s ∈ sp_split_id <$> expired_rows d now) as Hin'
      by (rewrite <- (take_drop (Z.to_nat RETENTION_BATCH)); apply elem_of_app; by left).
    apply list_elem_of_fmap in Hin' as (x & Exs & Hx'). apply list_elem_of_filter in Hx' as [Hex Hx'].
    apply split_rows_in in Hx'; [|done]. destruct (wf_split _ Hw _ _ Ek) as [Hk _]. rewrite <- Exs, Hk in Hx'. congruence. }
  destruct ids as [|i0 ids0] eqn:Eids.
  - exists d. split; [done|]. split; [|done]. unfold ids in Eids.
    destruct (expired_rows d now) as [|x l] eqn:E; [done|]. exfalso. rewrite fmap_cons in Eids.
    change (Z.to_nat RETENTION_BATCH) with (S (Z.to_nat 9999)) in Eids. done.
  - rewrite <- Eids in *. clear Eids i0 ids0.
    pose proof (expired_rows_mark d now ids) as Hrows.
    assert (NoDup (sp_split_id <$> expired_rows d now)) as Hnd.
    { unfold expired_rows. apply NoDup_fmap_2_strong.
      - intros x y Hx Hy E. apply list_elem_of_filter in Hx as [_ Hx], Hy as [_ Hy].
        apply split_rows_in in Hx, Hy; [|done..]. congruence.
      - apply NoDup_filter. unfold split_rows. apply NoDup_fmap_2_strong; [|apply NoDup_map_to_list].
        intros [k x] [l y] Hx%elem_of_map_to_list Hy%elem_of_map_to_list E. simpl in E. subst y.
        destruct (wf_split _ Hw _ _ Hx) as [<- _], (wf_split _ Hw _ _ Hy) as [<- _]. done. }
    destruct (Z.ltb_spec (Z.of_nat (length ids)) RETENTION_BATCH) as [Hlt|Hge].
    + eexists. split; [reflexivity|]. split; [|done]. rewrite Hrows. apply filter_none, Forall_forall.
      intros s Hs Hni. apply Hni. unfold ids in *. rewrite length_take in Hlt.
      rewrite take_ge by lia. by apply list_elem_of_fmap_2.
    + assert (meta_wf (mark_splits_for_delete d now ids).1) as Hw' by by apply mark_where_wf.
      destruct (IH (mark_splits_for_delete d now ids).1 Hw') as (d' & E & Hnone & Hk).
      * rewrite Hrows. eapply Nat.lt_le_trans; [|apply Nat.lt_succ_r; exact Hf].
        destruct (expired_rows d now) as [|x l] eqn:Ex; [unfold ids in Hge; rewrite fmap_nil, take_nil in Hge; cbn in Hge; unfold RETENTION_BATCH in Hge; lia|].
        rewrite <- Ex in *. pose proof (filter_length_lt (fun _ => True) (fun s => sp_split_id s ∉ ids) (expired_rows d now) x) as Hl.
        rewrite (filter_every (fun _ => True)) in Hl by by apply Forall_true. apply Hl; [done|rewrite Ex; by left|done|].
        intros Hni. apply Hni. unfold ids. rewrite ?Ex, fmap_cons.
        change (Z.to_nat RETENTION_BATCH) with (S (Z.to_nat 9999)). left.
      * exists d'. split; [done|]. split; [done|]. intros k s Ek Hx. apply Hk; [by apply Hkeep|]. exact Hx.
Qed.

(** ** Garbage collection *)

Definition collectable (d : Metastore) (now grace : Z) (s : SplitRecord) : Prop :=
  m_splits d !! sp_split_id s = Some s /\ sp_state s = MarkedForDelete /\ sp_updated_at s < now - grace.

Lemma gc_candidates_collectable d now grace lim s : meta_wf d -> s ∈ gc_candidates d now grace lim -> collectable d now grace s.
Proof.
  intros Hw Hs. unfold gc_candidates, limit in Hs.
  assert (s ∈ order_by sp_updated_at (filter (fun s => sp_state s = MarkedForDelete /\ sp_updated_at s < now - grace) (split_rows d))) as Hs'
    by (rewrite <- (take_drop (Z.to_nat lim)); apply elem_of_app; by left).
  apply elem_of_order_by, list_elem_of_filter in Hs' as [? Hs']. apply split_rows_in in Hs'; [|done]. by split.
Qed.

(** What is true of the tables and the objects while the job runs: [d0] is the
    state it read its candidates from. *)
Record gc_inv (ok : bytes -> bool) (d0 : Metastore) (now grace : Z) (d : Metastore) (objects : gset bytes) : Prop := {
  gi_rows k s : m_splits d !! k = Some s -> m_splits d0 !! k = Some s;
  gi_object k s : m_splits d !! k = Some s ->
    ns_storage_key (sp_new s) ∈ objects \/ collectable d0 now grace s;
  gi_gone k s : m_splits d0 !! k = Some s -> m_splits d !! k = None ->
    collectable d0 now grace s /\ ok (ns_storage_key (sp_new s)) = true;
}.

Lemma gc_loop_inv ok rok d0 now grace cands d objects :
  (forall k l s t, m_splits d0 !! k = Some s -> m_splits d0 !! l = Some t ->
     ns_storage_key (sp_new s) = ns_storage_key (sp_new t) -> k = l) ->
  (forall s, s ∈ cands -> collectable d0 now grace s) -> gc_inv ok d0 now grace d objects ->
  let r := gc_loop ok rok cands d objects in gc_inv ok d0 now grace r.1.1 r.1.2.
Proof.
  intros Huniq. revert d objects; induction cands as [|s l IH]; intros d objects Hl Hi; [done|]. cbn [gc_loop].
  destruct (Hl s ltac:(by left)) as (Es & Hm & Hu). assert (forall x, x ∈ l -> collectable d0 now grace x) as Hl' by (intros; apply Hl; by right).
  destruct (ok (ns_storage_key (sp_new s))) eqn:Eok; [|by apply IH].
  assert (forall k x, m_splits d !! k = Some x -> ns_storage_key (sp_new x) ∈ objects ∖ {[ns_storage_key (sp_new s)]} \/ collectable d0 now grace x) as Hobj.
  { intros k x Ex. destruct (gi_object _ _ _ _ _ _ Hi k x Ex) as [Hx|]; [|by right].
    destruct (decide (ns_storage_key (sp_new x) = ns_storage_key (sp_new s))) as [E|]; [|left; set_solver].
    right. pose proof (gi_rows _ _ _ _ _ _ Hi k x Ex) as Ex0. pose proof (Huniq _ _ _ _ Ex0 Es E) as ->.
    assert (x = s) as -> by congruence. by split. }
  destruct (rok (sp_split_id s)).
  - apply IH; [done|]. split; cbn [delete_split_row set_splits m_splits].
    + intros k x [_ Ex]%lookup_delete_Some. by apply Hi.
    + intros k x [_ Ex]%lookup_delete_Some. by eapply Hobj.
    + intros k x Ex [<-|Hn]%lookup_delete_None; [|by eapply Hi]. rewrite Es in Ex. injection Ex as <-. by split.
  - split; [apply Hi|exact Hobj|apply Hi].
Qed.

(** Garbage collection is safe, wherever it fails: a row disappears only
    if it was marked for delete, its grace period had passed and its object was
    deleted; and when distinct rows have distinct keys, every other row keeps
    its object (a row whose own delete failed is collected by a later run). *)
Theorem gc_job_safe d objects now grace ok rok : meta_wf d ->
  (forall k l s t, m_splits d !! k = Some s -> m_splits d !! l = Some t ->
     ns_storage_key (sp_new s) = ns_storage_key (sp_new t) -> k = l) ->
  (forall k s, m_splits d !! k = Some s -> ns_storage_key (sp_new s) ∈ objects) ->
  let '(d', objects', _) := gc_job d objects now grace ok rok in
  (forall k s, m_splits d' !! k = Some s -> m_splits d !! k = Some s) /\
  (forall k s, m_splits d' !! k = Some s -> ns_storage_key (sp_new s) ∈ objects' \/
     (sp_state s = MarkedForDelete /\ sp_updated_at s < now - grace)) /\
  (forall k s, m_splits d !! k = Some s -> m_splits d' !! k = None ->
     sp_state s = MarkedForDelete /\ sp_updated_at s < now - grace /\ ok (ns_storage_key (sp_new s)) = true).
Proof.
  intros Hw Huniq Hobj. unfold gc_job.
  assert (gc_inv ok d now grace d objects) as Hi
    by (split; [done|intros k s Ek; left; exact (Hobj k s Ek)|intros; congruence]).
  pose proof (gc_loop_inv ok rok d now grace (gc_candidates d now grace 50) d objects Huniq
    (fun s => gc_candidates_collectable d now grace 50 s Hw) Hi) as [Hr Ho Hg].
  destruct (gc_loop _ _ _ _ _) as [[d' o'] r]. split_and!; [exact Hr| |].
  - intros k s Ek. destruct (Ho k s Ek) as [|(_ & ? & ?)]; [by left|by right].
  - intros k s Ek Hn. destruct (Hg k s Ek Hn) as [(_ & ? & ?) ?]. done.
Qed.

(** ** Concrete tables *)

Definition demo_docs : list Doc :=
  [mkDoc (Some (str "x")) 1 (JString (str "7")) 0; mkDoc (Some (str "y")) 2 (JString (str "8")) 5; mkDoc (Some (str "x")) 4 (JString (str "9")) 9].
Definition demo_contents : Contents := {[str "a" := demo_docs]}.
Definition demo_row_a : SplitRecord := mkSplit 1 Published (demo_split "a" 1) 0 None 0 1.
Definition demo_ts : list TombstoneRecord := [mkTombRec 1 (str "x") 3].
Definition x3 : Metastore :=
  match upsert_tombstones m2 5 [mkNewTombstone 1 (str "x") 3] with Ok d => d | Err _ => m2 end.
Definition demo_packaged : Packaged := mkPackaged (str "b") 1 0 1 None.
Definition fresh_id (d : Doc) : bytes := str "fresh".

Lemma x3_reach : rtc meta_step empty_metastore x3.
Proof.
  eapply rtc_l; [exact (s_ensure empty_metastore (str "logs") Document)|].
  eapply rtc_l; [apply (s_stage m0 0 (demo_split "a" 1) m1); [reflexivity|reflexivity]|].
  eapply rtc_l; [apply (s_publish m1 1 (str "a") m2); reflexivity|].
  eapply rtc_l; [apply (s_upsert m2 5 [mkNewTombstone 1 (str "x") 3] x3); reflexivity|].
  apply rtc_refl.
Qed.
Lemma x3_wf : meta_wf x3.
Proof. exact (meta_reachable_wf _ x3_reach). Qed.
Lemma x3_rows : tombstone_rows x3 1 = demo_ts.
Proof. by vm_compute. Qed.
Lemma demo_row_a_ok : row_ok demo_contents demo_row_a.
Proof.
  intros doc Hd. change (docs_of demo_contents (sp_split_id demo_row_a)) with demo_docs in Hd.
  cbn [demo_row_a sp_new demo_split ns_seq_min]. unfold demo_docs in Hd. set_unfold in Hd.
  destruct Hd as [->|[->|[->|[]]]]; simpl; lia.
Qed.
Lemma x3_splits k s : m_splits x3 !! k = Some s -> s = demo_row_a.
Proof.
  intros E. assert (s ∈ split_rows x3) as Hs
    by (apply split_rows_in; [exact x3_wf|]; by rewrite (proj1 (wf_split _ x3_wf _ _ E))).
  assert (split_rows x3 = [demo_row_a]) as Hr by by vm_compute. rewrite Hr in Hs. by apply list_elem_of_singleton in Hs.
Qed.
Lemma demo_sources_ok s : s ∈ [demo_row_a] -> sources_ok x3 demo_contents 1 s.
Proof. intros ->%list_elem_of_singleton. split; [by vm_compute|done|done|done|exact demo_row_a_ok]. Qed.
Lemma demo_ts_current : tombstones_current x3 1 [demo_row_a] demo_ts.
Proof.
  split.
  - repeat constructor.
  - intros t ->%list_elem_of_singleton. simpl. lia.
  - intros t Ht. exists t. rewrite x3_rows. done.
  - intros t s Ht _ _. by rewrite x3_rows in Ht.
Qed.
Lemma demo_fresh doc t : t ∈ tombstone_rows x3 1 -> d_id doc = None -> fresh_id doc <> tr_doc t.
Proof. rewrite x3_rows. intros ->%list_elem_of_singleton _. done. Qed.

Lemma triple_eta {A B C} (p : A * B * C) : p = (p.1.1, p.1.2, p.2).
Proof. by destruct p as [[? ?] ?]. Qed.

Lemma rebuild_preserves_visible_witness :
  let r := rebuild_splits fresh_id x3 demo_contents 9 (str "n1") (str "logs") 1 [demo_row_a] demo_ts demo_packaged true true true in
  body <$> visible r.1.1 r.1.2 1 ≡ₚ [(JString (str "8"), 5); (JString (str "9"), 9)].
Proof.
  intros r. etransitivity; [apply (rebuild_preserves_visible fresh_id x3 demo_contents 9 (str "n1") (str "logs") 1
    [demo_row_a] demo_ts demo_packaged true true true r.1.1 r.1.2 r.2 x3_wf (NoDup_singleton _) demo_sources_ok
    ltac:(by vm_compute) demo_ts_current demo_fresh (triple_eta r))|by vm_compute].
Defined.

Lemma compact_split_preserves_visible_witness :
  let r := compact_split fresh_id x3 demo_contents 9 (str "n1") (str "logs") 1 demo_row_a demo_ts 1 demo_packaged true true true in
  body <$> visible r.1 r.2 1 ≡ₚ [(JString (str "8"), 5); (JString (str "9"), 9)].
Proof.
  intros r. pose proof (compact_split_preserves_visible fresh_id x3 demo_contents 9 (str "n1") (str "logs") 1 demo_row_a demo_ts
    demo_packaged true true true x3_wf (demo_sources_ok _ ltac:(by left)) ltac:(by vm_compute) demo_ts_current demo_fresh) as H.
  change (last_applied demo_ts) with 1 in H. fold r in H. destruct r as [d' c']. etransitivity; [apply H|by vm_compute].
Defined.

Lemma purge_preserves_visible_witness :
  body <$> visible (purge_tombstones x3 1000 10 5).1 demo_contents 1 = [(JString (str "8"), 5); (JString (str "9"), 9)].
Proof.
  rewrite (purge_preserves_visible x3 demo_contents 1000 10 5 1 x3_wf); [by vm_compute|].
  intros k s E. rewrite (x3_splits k s E). exact demo_row_a_ok.
Defined.

(** A stream with an hour's retention. *)
Definition x4 : Metastore := match set_stream_retention x3 (str "logs") (Some 1) with Ok d => d | Err _ => x3 end.
Lemma x4_wf : meta_wf x4.
Proof. apply (meta_step_wf x3); [exact x3_wf|]. apply (s_retention x3 (str "logs") (Some 1) x4); reflexivity. Qed.
Lemma retention_complete_witness : exists d, retention_loop 2 x4 3600010 = Some d /\ expired_rows d 3600010 = [].
Proof.
  destruct (retention_complete 2 x4 3600010 x4_wf ltac:(vm_compute; lia)) as (d & E & H & _).
  exists d. exact (conj E H).
Defined.

Definition x5 : Metastore := (mark_splits_for_delete x3 7 [str "a"]).1.
Definition demo_marked_row : SplitRecord := mkSplit 1 MarkedForDelete (demo_split "a" 1) 0 None 0 7.
Lemma x5_wf : meta_wf x5.
Proof. apply (meta_step_wf x3); [exact x3_wf|]. apply s_mark. Qed.
Lemma x5_splits k s : m_splits x5 !! k = Some s -> k = str "a" /\ s = demo_marked_row.
Proof.
  intros E. pose proof (proj1 (wf_split _ x5_wf _ _ E)) as Hk. assert (s ∈ split_rows x5) as Hs
    by (apply split_rows_in; [exact x5_wf|]; by rewrite Hk).
  assert (split_rows x5 = [demo_marked_row]) as Hr by by vm_compute. rewrite Hr in Hs.
  apply list_elem_of_singleton in Hs. subst s. split; [rewrite <- Hk; reflexivity|reflexivity].
Qed.
Lemma x5_row : m_splits x5 !! str "a" = Some demo_marked_row.
Proof. by vm_compute. Qed.
Lemma x5_keys k l s t : m_splits x5 !! k = Some s -> m_splits x5 !! l = Some t ->
  ns_storage_key (sp_new s) = ns_storage_key (sp_new t) -> k = l.
Proof. intros [-> _]%x5_splits [-> _]%x5_splits _. reflexivity. Qed.
Lemma x5_objects k s : m_splits x5 !! k = Some s -> ns_storage_key (sp_new s) ∈ ({[str "k"]} : gset bytes).
Proof. intros [_ ->]%x5_splits. apply elem_of_singleton. reflexivity. Qed.
Lemma gc_job_safe_witness :
  let '(d', _, _) := gc_job x5 {[str "k"]} 100 10 (fun _ => true) (fun _ => true) in
  m_splits d' !! str "a" = None /\ sp_state demo_marked_row = MarkedForDelete /\ sp_updated_at demo_marked_row < 100 - 10.
Proof.
  assert (m_splits (gc_job x5 {[str "k"]} 100 10 (fun _ => true) (fun _ => true)).1.1 !! str "a" = None) as Hn by by vm_compute.
  pose proof (gc_job_safe x5 {[str "k"]} 100 10 (fun _ => true) (fun _ => true) x5_wf x5_keys x5_objects) as H.
  revert Hn H. generalize (gc_job x5 {[str "k"]} 100 10 (fun _ => true) (fun _ => true)). intros [[d' o] r] Hn (_ & _ & H).
  split; [exact Hn|]. destruct (H (str "a") demo_marked_row x5_row Hn) as (Hm & Hu & _). exact (conj Hm Hu).
Defined.
