(* ===== verification/Ingest.v ===== *)
(** * The ingest front end (crates/rsearch-ingest/src/pipeline.rs, 22-605)

    The write-sequence clock, document routing, the stream cache, and the two
    ways records reach the workers: a batch of new documents and the replay of
    the log. The workers' side is in [Worker]. The state is threaded; what the
    channels and the metastore answer is given with each call. *)

From Stdlib Require Import ZArith Lia.
From Stdlib Require Import Strings.Byte.
From stdpp Require Import base gmap sets list strings sorting.
From S2P Require Import Prelude Json Metastore Wal.

Local Open Scope Z_scope.

(** ** The write-sequence clock *)

Definition SEQ_SALT_BITS : Z := 10.
Definition SEQ_SALT_MASK : Z := Z.shiftl 1 SEQ_SALT_BITS - 1.
Definition SLOT_MAX : Z := Z.shiftr I64_MAX SEQ_SALT_BITS.

Record SeqClock := mkClock { clock_last : Z; clock_salt : Z }.

(** [hash] is what [DefaultHasher] gives for the node id, a [u64]. *)
Definition clock_new (hash : bytes -> Z) (node_id : bytes) : SeqClock :=
  mkClock 0 (Z.land (wrap_s 64 (hash node_id)) SEQ_SALT_MASK).
Definition observe (c : SeqClock) (seen : Z) : SeqClock := mkClock (Z.max (clock_last c) seen) (clock_salt c).
Definition stamp_after (c : SeqClock) (last : Z) : Z :=
  let slot := sat_i64 (Z.shiftr last SEQ_SALT_BITS + 1) in
  if (SLOT_MAX <? slot) then I64_MAX else Z.lor (Z.shiftl slot SEQ_SALT_BITS) (clock_salt c).
(** [micros] is the wall clock since the epoch, a [u128]. *)
Definition next_stamp (c : SeqClock) (micros : Z) : Z * SeqClock :=
  let now := Z.lor (Z.shiftl (Z.max 0 (Z.min SLOT_MAX (wrap_s 64 micros))) SEQ_SALT_BITS) (clock_salt c) in
  let stamp := Z.max now (stamp_after c (clock_last c)) in
  (stamp, mkClock stamp (clock_salt c)).

(** ** Routing *)

Record RoutingRuleRecord := mkRule {
  rule_id : Z; rule_name : bytes; rule_field : bytes; rule_op : bytes; rule_value : bytes;
  target_stream : bytes; rule_copy : bool;
}.

Section routes.
(** [Value::to_string] of serde_json. *)
Variable to_string : json -> bytes.

Definition rule_matches (rule : RoutingRuleRecord) (doc : json) : bool :=
  match get doc (rule_field rule) with
  | None => false
  | Some v =>
      if bool_decide (rule_op rule = str "exists") then true
      else if bool_decide (rule_op rule = str "eq") then
        match as_str v with
        | Some s => bool_decide (s = rule_value rule)
        | None => bool_decide (to_string v = rule_value rule)
        end
      else if bool_decide (rule_op rule = str "contains") then
        match as_str v with Some s => contains s (rule_value rule) | None => false end
      else false
  end.

Definition route_step (doc : json) (st : bytes * list bytes) (rule : RoutingRuleRecord) : bytes * list bytes :=
  let '(primary, extra) := st in
  if rule_matches rule doc then
    if rule_copy rule then (primary, extra ++ [target_stream rule]) else (target_stream rule, extra)
  else (primary, extra).
Definition push_new (routes : list bytes) (stream : bytes) : list bytes :=
  if bool_decide (stream ∈ routes) then routes else routes ++ [stream].
Definition expand_routes (rules : list RoutingRuleRecord) (default_stream : bytes) (doc : json) : list bytes :=
  let '(primary, extra) := foldl (route_step doc) (default_stream, []) rules in
  foldl push_new [primary] extra.
End routes.

(** ** The pipeline's state *)

Record StreamInfo := mkInfo { info_id : Z; info_mode : StreamMode }.
Definition STREAM_INFO_TTL : Z := 10000.

(** A document handed to a worker. *)
Record WorkItem := mkWork { source : bytes; doc_id : bytes; doc_seq : Z; pos : WalPos; stream_id : Z }.
#[export] Instance wal_pos_eq_dec : EqDecision WalPos.
Proof. solve_decision. Defined.
#[export] Instance work_item_eq_dec : EqDecision WorkItem.
Proof. solve_decision. Defined.

(** What the pipeline does to the world, in order. *)
Inductive Event :=
| Upserted (items : list NewTombstone)
| Sent (stream : bytes) (item : WorkItem)
| Confirmed (positions : list WalPos).

Record Pipeline := mkPipe {
  p_meta : Metastore; p_clock : SeqClock; p_info : gmap bytes (StreamInfo * Z);
  p_workers : gset bytes;   (** the streams that have a worker *)
  p_wal : WalState; p_trace : list Event;
}.

Inductive IngestError :=
| Saturated
| WalFailed (e : WalError)
| MetastoreFailed (e : MetastoreError).

Definition with_meta (d : Metastore) (p : Pipeline) : Pipeline :=
  mkPipe d (p_clock p) (p_info p) (p_workers p) (p_wal p) (p_trace p).
Definition with_clock (c : SeqClock) (p : Pipeline) : Pipeline :=
  mkPipe (p_meta p) c (p_info p) (p_workers p) (p_wal p) (p_trace p).
Definition with_info (m : gmap bytes (StreamInfo * Z)) (p : Pipeline) : Pipeline :=
  mkPipe (p_meta p) (p_clock p) m (p_workers p) (p_wal p) (p_trace p).
Definition with_workers (ws : gset bytes) (p : Pipeline) : Pipeline :=
  mkPipe (p_meta p) (p_clock p) (p_info p) ws (p_wal p) (p_trace p).
Definition with_wal (w : WalState) (p : Pipeline) : Pipeline :=
  mkPipe (p_meta p) (p_clock p) (p_info p) (p_workers p) w (p_trace p).
Definition emit (e : Event) (p : Pipeline) : Pipeline :=
  mkPipe (p_meta p) (p_clock p) (p_info p) (p_workers p) (p_wal p) (p_trace p ++ [e]).
(** [Wal::confirm], noted in the trace. *)
Definition confirm_positions (ps : list WalPos) (p : Pipeline) : Pipeline :=
  emit (Confirmed ps) (with_wal (confirm ps (p_wal p)) p).

(** ** The stream cache *)

Definition cached_info (p : Pipeline) (now : Z) (name : bytes) : option StreamInfo :=
  match p_info p !! name with
  | Some (info, at_) => if (now - at_ <? STREAM_INFO_TTL) then Some info else None
  | None => None
  end.

(** [up1], [up2]: whether the metastore answers the two round trips. *)
Definition stream_info_creating (p : Pipeline) (now : Z) (up1 up2 : bool) (name : bytes) (mode : StreamMode) :
    Pipeline * result IngestError StreamInfo :=
  match cached_info p now name with
  | Some info => (p, Ok info)
  | None =>
      if negb up1 then (p, Err (MetastoreFailed Database))
      else
        let '(d, row) := ensure_stream_with_mode (p_meta p) name mode in
        let p := with_meta d p in
        let info := mkInfo (st_id row) (record_mode row) in
        let keep p :=
          let m := if (10000 <? size (p_info p))%nat then ∅ else p_info p in
          (with_info (<[name := (info, now)]> m) p, Ok info) in
        match info_mode info with
        | Document =>
            if negb up2 then (p, Err (MetastoreFailed Database))
            else keep (match stream_max_seq d (info_id info) with
                       | Some mx => with_clock (observe (p_clock p) mx) p
                       | None => p
                       end)
        | Log => keep p
        end
  end.
Definition stream_info (p : Pipeline) (now : Z) (up1 up2 : bool) (name : bytes) := stream_info_creating p now up1 up2 name Log.

(** [up0]: whether the first [get_stream] is answered. *)
Definition stream_info_if_exists (p : Pipeline) (now : Z) (up0 up1 up2 : bool) (name : bytes) :
    Pipeline * result IngestError (option StreamInfo) :=
  match cached_info p now name with
  | Some info => (p, Ok (Some info))
  | None =>
      if negb up0 then (p, Err (MetastoreFailed Database))
      else
        match get_stream (p_meta p) name with
        | Ok _ => let '(p, r) := stream_info p now up1 up2 name in (p, Some <$> r)
        | Err (StreamNotFound _) => (p, Ok None)
        | Err e => (p, Err (MetastoreFailed e))
        end
  end.

Definition forget_stream (p : Pipeline) (name : bytes) : Pipeline := with_info (delete name (p_info p)) p.

(** ** Handing a document to its worker *)

Definition worker_for (p : Pipeline) (up : bool) (stream : bytes) : Pipeline * result IngestError unit :=
  if bool_decide (stream ∈ p_workers p) then (p, Ok tt)
  else if negb up then (p, Err (MetastoreFailed Database))
  else (with_workers ({[stream]} ∪ p_workers p) (with_meta (ensure_stream (p_meta p) stream).1 p), Ok tt).

(** What the channel answers: [Closed] when the worker idled out between the
    lookup and the send, its map entry already removed. *)
Inductive TrySend := Accepted | Full | Closed.

(** What the world does during one [enqueue]. *)
Record Turn := mkTurn { at_time : Z; info_up1 : bool; info_up2 : bool; worker_up1 : bool; worker_up2 : bool; send1 : TrySend; send2 : TrySend }.

Definition enqueue (p : Pipeline) (t : Turn) (stream src id : bytes) (seq : Z) (at_pos : WalPos) :
    Pipeline * result IngestError unit :=
  let '(p, r) := stream_info p (at_time t) (info_up1 t) (info_up2 t) stream in
  match r with
  | Err e => (p, Err e)
  | Ok info =>
      let '(p, r) := worker_for p (worker_up1 t) stream in
      match r with
      | Err e => (p, Err e)
      | Ok _ =>
          let item := mkWork src id seq at_pos (info_id info) in
          match send1 t with
          | Accepted => (emit (Sent stream item) p, Ok tt)
          | Full => (p, Err Saturated)
          | Closed =>
              let '(p, r) := worker_for (with_workers (p_workers p ∖ {[stream]}) p) (worker_up2 t) stream in
              match r with
              | Err e => (p, Err e)
              | Ok _ =>
                  match send2 t with
                  | Accepted => (emit (Sent stream item) p, Ok tt)
                  | _ => (p, Err Saturated)
                  end
              end
          end
      end
  end.

Section ingest.
Context `{C : Crc32}.
Variables (max_segment_bytes : Z) (to_string : json -> bytes) (rules : list RoutingRuleRecord).

(** One document becomes one log item per route; all share its bytes, its new
    id and its stamp. [uuids] are the random ids, [micros] the wall clock. *)
Definition doc_items (default_stream : bytes) (c : SeqClock) (d : json * bytes * Z) : list WalItem * SeqClock :=
  let '(doc, uuid, micros) := d in
  let '(seq, c) := next_stamp c micros in
  ((fun s => {| wi_stream := s; wi_id := uuid; wi_seq := seq; wi_tombstone := false; wi_doc := to_string doc |})
     <$> expand_routes to_string rules default_stream doc, c).
Fixpoint batch_items (default_stream : bytes) (c : SeqClock) (docs : list (json * bytes * Z)) : list WalItem * SeqClock :=
  match docs with
  | [] => ([], c)
  | d :: docs =>
      let '(items, c) := doc_items default_stream c d in
      let '(rest, c) := batch_items default_stream c docs in
      (items ++ rest, c)
  end.

Fixpoint enqueue_all (p : Pipeline) (work : list (WalItem * WalPos * Turn)) (accepted dropped : Z) : Pipeline * (Z * Z) :=
  match work with
  | [] => (p, (accepted, dropped))
  | (item, ps, t) :: work =>
      match enqueue p t (wi_stream item) (wi_doc item) (wi_id item) (wi_seq item) ps with
      | (p, Ok _) => enqueue_all p work (accepted + 1) dropped
      | (p, Err _) => enqueue_all (confirm_positions [ps] p) work accepted (dropped + 1)
      end
  end.

Definition ingest_external (p : Pipeline) (default_stream : bytes) (docs : list (json * bytes * Z)) (turns : list Turn) :
    Pipeline * result IngestError (Z * Z) :=
  let '(items, c) := batch_items default_stream (p_clock p) docs in
  let p := with_clock c p in
  match items with
  | [] => (p, Ok (0, 0))
  | _ =>
      let '(w, r) := append_batch max_segment_bytes items (p_wal p) in
      let p := with_wal w p in
      match r with
      | Err e => (p, Err (WalFailed e))
      | Ok positions => let '(p, n) := enqueue_all p (zip (zip items positions) turns) 0 0 in (p, Ok n)
      end
  end.
End ingest.

(** ** Replay *)

Section replay.
(** [serde_json::from_slice::<IgnoredAny>] succeeds. *)
Variable is_json : bytes -> bool.

Definition upsert_pending (p : Pipeline) (up : bool) (items : list NewTombstone) (now : Z) : Pipeline * result IngestError unit :=
  if negb up then (p, Err (MetastoreFailed Database))
  else
    match upsert_tombstones (p_meta p) now items with
    | Ok d => (emit (Upserted items) (with_meta d p), Ok tt)
    | Err e => (p, Err (MetastoreFailed e))
    end.

(** What the world does during one record: [upsert_up] answers a full batch,
    [gone] is a worker that closed before the blocking send. *)
Record ReplayTurn := mkReplayTurn {
  rt_now : Z; rt_tomb_up1 : bool; rt_tomb_up2 : bool; rt_upsert_up : bool;
  rt_info_up1 : bool; rt_info_up2 : bool; rt_worker_up : bool; rt_gone : bool;
}.

(** The tombstone half of one record: note it, flush a full thousand. *)
Definition replay_tombstone (p : Pipeline) (pending : list NewTombstone) (r : WalRecord) (t : ReplayTurn) :
    Pipeline * result IngestError (list NewTombstone) :=
  if negb (wr_tombstone r) then (p, Ok pending)
  else
    let '(p, ri) := stream_info p (rt_now t) (rt_tomb_up1 t) (rt_tomb_up2 t) (wr_stream r) in
    match ri with
    | Err e => (p, Err e)
    | Ok info =>
        let pending := pending ++ [mkNewTombstone (info_id info) (wr_id r) (wr_seq r)] in
        let p := with_clock (observe (p_clock p) (wr_seq r)) p in
        if (1000 <=? length pending)%nat then
          let '(p, ru) := upsert_pending p (rt_upsert_up t) pending (rt_now t) in
          match ru with Err e => (p, Err e) | Ok _ => (p, Ok []) end
        else (p, Ok pending)
    end.

(** The document half: valid UTF-8 is kept as it is, the rest made lossy. *)
Definition replay_document (p : Pipeline) (r : WalRecord) (t : ReplayTurn) : Pipeline * result IngestError unit :=
  if negb (is_json (wr_doc r)) then (confirm_positions [wr_pos r] p, Ok tt)
  else
    let src := if utf8_valid (wr_doc r) then wr_doc r else utf8_lossy (wr_doc r) in
    let '(p, ri) := stream_info p (rt_now t) (rt_info_up1 t) (rt_info_up2 t) (wr_stream r) in
    match ri with
    | Err e => (p, Err e)
    | Ok info =>
        let '(p, rw) := worker_for p (rt_worker_up t) (wr_stream r) in
        match rw with
        | Err e => (p, Err e)
        | Ok _ =>
            if rt_gone t then (confirm_positions [wr_pos r] p, Ok tt)
            else (emit (Sent (wr_stream r) (mkWork src (wr_id r) (wr_seq r) (wr_pos r) (info_id info))) p, Ok tt)
        end
    end.

(** [up] and [now] are the last upsert's. *)
Fixpoint replay (p : Pipeline) (pending : list NewTombstone) (count : Z)
    (records : list (result WalError WalRecord * ReplayTurn)) (up : bool) (now : Z) : Pipeline * result IngestError Z :=
  match records with
  | [] =>
      match pending with
      | [] => (p, Ok count)
      | _ => let '(p, ru) := upsert_pending p up pending now in (p, (fun _ => count) <$> ru)
      end
  | (Err e, _) :: _ => (p, Err (WalFailed e))
  | (Ok r, t) :: records =>
      let '(p, rp) := replay_tombstone p pending r t in
      match rp with
      | Err e => (p, Err e)
      | Ok pending =>
          let '(p, rd) := replay_document p r t in
          match rd with Err e => (p, Err e) | Ok _ => replay p pending (count + 1) records up now end
      end
  end.
End replay.

(** ** The clock: lemmas *)

Inductive ClockOp := Observe (seen : Z) | Next (micros : Z).
Fixpoint clock_run (c : SeqClock) (ops : list ClockOp) : list Z * SeqClock :=
  match ops with
  | [] => ([], c)
  | Observe seen :: ops => clock_run (observe c seen) ops
  | Next micros :: ops =>
      let '(s, c) := next_stamp c micros in let '(l, c) := clock_run c ops in (s :: l, c)
  end.

Record clock_ok (c : SeqClock) : Prop := {
  ck_salt : 0 <= clock_salt c < 1024;
  ck_last : 0 <= clock_last c <= I64_MAX;
}.
Definition op_ok (o : ClockOp) : Prop := match o with Observe seen => seen <= I64_MAX | Next _ => True end.

Lemma salted k s : 0 <= s < 1024 -> Z.lor (Z.shiftl k SEQ_SALT_BITS) s = 1024 * k + s.
Proof.
  intros Hs. unfold SEQ_SALT_BITS. set (v := Z.lor _ _).
  assert (v / 1024 = k) as Hd.
  { change 1024 with (2 ^ 10). rewrite <- Z.shiftr_div_pow2 by lia. unfold v.
    rewrite Z.shiftr_lor, Z.shiftr_shiftl_l by lia. change (10 - 10) with 0.
    rewrite Z.shiftl_0_r, (Z.shiftr_div_pow2 s) by lia. change (2 ^ 10) with 1024.
    rewrite (Z.div_small s) by lia. apply Z.lor_0_r. }
  assert (v mod 1024 = s) as Hm.
  { change 1024 with (2 ^ 10). rewrite <- Z.land_ones by lia. unfold v.
    rewrite Z.land_lor_distr_l, !Z.land_ones, Z.shiftl_mul_pow2 by lia.
    change (2 ^ 10) with 1024. rewrite Z.mod_mul, Z.mod_small by lia. apply Z.lor_0_l. }
  rewrite (Z.div_mod v 1024) by lia. by rewrite Hd, Hm.
Qed.

Lemma slot_of l : Z.shiftr l SEQ_SALT_BITS = l / 1024.
Proof. unfold SEQ_SALT_BITS. by rewrite Z.shiftr_div_pow2 by lia. Qed.

Lemma slot_max_value : SLOT_MAX = I64_MAX / 1024.
Proof. apply slot_of. Qed.

(** A stamp carries the salt, or the range is exhausted. *)
Definition carries (salt s : Z) : Prop := s = I64_MAX \/ (0 <= s < I64_MAX + 1 /\ s mod 1024 = salt).

Lemma stamp_after_spec c : clock_ok c ->
  (stamp_after c (clock_last c) = I64_MAX \/ clock_last c < stamp_after c (clock_last c)) /\
  carries (clock_salt c) (stamp_after c (clock_last c)).
Proof.
  intros [Hs Hl]. unfold stamp_after. rewrite slot_of, slot_max_value.
  unfold sat_i64, carries. rewrite salted by done. unfold I64_MIN, I64_MAX in *.
  pose proof (Z.div_mod (clock_last c) 1024 ltac:(lia)) as E. pose proof (Z.mod_pos_bound (clock_last c) 1024 ltac:(lia)).
  rewrite Z.max_r, Z.min_r by lia.
  destruct (Z.ltb_spec ((2 ^ 63 - 1) / 1024) (clock_last c / 1024 + 1)) as [|Hle]; [split; by left|].
  change ((2 ^ 63 - 1) / 1024) with 9007199254740991 in Hle. split; [right; lia|right; split; [lia|]].
  rewrite Z.add_comm, Z.mul_comm, Z.mod_add by lia. by apply Z.mod_small.
Qed.

Lemma next_stamp_spec c micros : clock_ok c ->
  let '(s, c') := next_stamp c micros in
  clock_ok c' /\ clock_salt c' = clock_salt c /\ clock_last c' = s /\
  (s = I64_MAX \/ clock_last c < s) /\ carries (clock_salt c) s.
Proof.
  intros Hok. pose proof (stamp_after_spec c Hok) as [Hafter Hcar]. destruct Hok as [Hs Hl]. unfold next_stamp.
  set (m := Z.max 0 (Z.min SLOT_MAX (wrap_s 64 micros))). rewrite salted by done.
  assert (0 <= m <= 9007199254740991) as Hm by (unfold m; change SLOT_MAX with 9007199254740991; lia).
  assert (0 <= 1024 * m + clock_salt c <= I64_MAX) as Hnow by (unfold I64_MAX; lia).
  assert (0 <= stamp_after c (clock_last c) <= I64_MAX) as Hst by (destruct Hcar as [->|[? _]]; unfold I64_MAX in *; lia).
  cbn [clock_salt clock_last]. split_and!; try done.
  - split; cbn [clock_salt clock_last]; lia.
  - lia.
  - destruct (Z.max_spec (1024 * m + clock_salt c) (stamp_after c (clock_last c))) as [[_ ->]|[_ ->]]; [done|].
    right. split; [lia|]. rewrite Z.add_comm, Z.mul_comm, Z.mod_add by lia. by apply Z.mod_small.
Qed.

Lemma observe_ok c seen : clock_ok c -> seen <= I64_MAX -> clock_ok (observe c seen).
Proof. intros [? ?] ?. split; simpl; lia. Qed.

Lemma clock_run_spec ops c : clock_ok c -> Forall op_ok ops ->
  let '(l, c') := clock_run c ops in
  clock_ok c' /\ clock_salt c' = clock_salt c /\ clock_last c <= clock_last c' /\
  (forall s, s ∈ l -> carries (clock_salt c) s /\ (s = I64_MAX \/ clock_last c < s) /\ s <= clock_last c') /\
  StronglySorted (fun a b => b = I64_MAX \/ a < b) l /\
  (forall seen, Observe seen ∈ ops -> seen <= clock_last c').
Proof.
  revert c; induction ops as [|[seen|micros] ops IH]; intros c Hok Hops; cbn [clock_run].
  - split_and!; try done; [by intros s Hs%elem_of_nil|constructor|by intros s Hs%elem_of_nil].
  - apply Forall_cons in Hops as [Ho Hops]. specialize (IH _ (observe_ok c seen Hok Ho) Hops).
    destruct (clock_run (observe c seen) ops) as [l c']. destruct IH as (? & ? & Hle & Hl & ? & Hobs). cbn [observe clock_last clock_salt] in *.
    split_and!; try done; [lia| |].
    + intros s Hs. destruct (Hl s Hs) as (? & ? & ?). split_and!; [done|lia|done].
    + intros s [[= <-]|Hs]%elem_of_cons; [lia|auto].
  - apply Forall_cons in Hops as [_ Hops]. pose proof (next_stamp_spec c micros Hok) as H. destruct (next_stamp c micros) as [s c1].
    destruct H as (Hok1 & Hsalt & Hlast & Hgt & Hcar). specialize (IH c1 Hok1 Hops).
    destruct (clock_run c1 ops) as [l c']. destruct IH as (? & ? & Hle & Hl & Hsort & Hobs).
    assert (s <= I64_MAX) by (destruct Hok1 as [_ ?]; lia). destruct Hok as [_ Hb].
    split_and!; try done; [congruence|lia| | |].
    + intros x [->|Hx]%elem_of_cons; [split_and!; [done|done|lia]|].
      destruct (Hl x Hx) as (? & ? & ?). rewrite Hsalt in *. split_and!; [done|lia|done].
    + constructor; [done|]. apply Forall_forall. intros x Hx. destruct (Hl x Hx) as (_ & ? & _). lia.
    + intros seen [?|Hs]%elem_of_cons; [done|auto].
Qed.

Lemma clock_new_ok hash node : clock_ok (clock_new hash node).
Proof.
  split; cbn [clock_new clock_salt clock_last]; [|unfold I64_MAX; lia].
  change SEQ_SALT_MASK with (Z.ones 10). rewrite Z.land_ones by lia. change (2 ^ 10) with 1024. apply Z.mod_pos_bound. lia.
Qed.

(** ** Claims: the clock *)

(** On one node stamps are strictly increasing and each orders after
    everything observed before it, whatever the wall clock does; the only
    exception is the top of the range, where they stay. *)
Theorem seq_clock_order hash node pre post micros : Forall op_ok pre -> Forall op_ok post ->
  let '(before, c) := clock_run (clock_new hash node) pre in
  let '(s, c') := next_stamp c micros in
  s = I64_MAX \/
  ((forall x, x ∈ before -> x < s) /\ (forall seen, Observe seen ∈ pre -> seen < s) /\
   (forall x, x ∈ (clock_run c' post).1 -> x = I64_MAX \/ s < x)).
Proof.
  intros Hpre Hpost. pose proof (clock_run_spec pre _ (clock_new_ok hash node) Hpre) as H.
  destruct (clock_run _ pre) as [l c]. destruct H as (Hok & _ & _ & Hl & _ & Hobs).
  pose proof (next_stamp_spec c micros Hok) as H. destruct (next_stamp c micros) as [s c'].
  destruct H as (Hok' & _ & Hlast & [->|Hgt] & _); [by left|]. right.
  pose proof (clock_run_spec post c' Hok' Hpost) as H. destruct (clock_run c' post) as [l' c2]. destruct H as (_ & _ & _ & Hl' & _).
  split_and!.
  - intros x Hx. destruct (Hl x Hx) as (_ & _ & ?). lia.
  - intros seen Hs. specialize (Hobs seen Hs). lia.
  - intros x Hx. destruct (Hl' x Hx) as (_ & ? & _). lia.
Qed.

(** Two nodes whose ids hash to different salts never mint the same
    sequence number, whatever they observe and whatever their clocks say,
    short of the top of the range. *)
Theorem stamps_distinct_across_nodes hash a b ops ops' s :
  Z.land (wrap_s 64 (hash a)) SEQ_SALT_MASK <> Z.land (wrap_s 64 (hash b)) SEQ_SALT_MASK ->
  Forall op_ok ops -> Forall op_ok ops' ->
  s ∈ (clock_run (clock_new hash a) ops).1 -> s <> I64_MAX -> s ∉ (clock_run (clock_new hash b) ops').1.
Proof.
  intros Hne Ha Hb. pose proof (clock_run_spec ops _ (clock_new_ok hash a) Ha) as H.
  pose proof (clock_run_spec ops' _ (clock_new_ok hash b) Hb) as H'.
  destruct (clock_run _ ops) as [l c], (clock_run _ ops') as [l' c']. destruct H as (_ & _ & _ & Hl & _), H' as (_ & _ & _ & Hl' & _).
  intros Hs Hmax Hs'. destruct (Hl s Hs) as ([->|[_ E]] & _); [done|]. destruct (Hl' s Hs') as ([->|[_ E']] & _); [done|].
  cbn [clock_new clock_salt] in *. congruence.
Qed.

(** The comment on [stamp_after] says it is the lowest salted stamp past
    [last]; in the slot of [last] itself a lower one can be free. *)
Lemma stamp_after_not_lowest :
  let c := mkClock (1024 * 7 + 3) 5 in
  stamp_after c (clock_last c) = 1024 * 8 + 5 /\ clock_last c < 1024 * 7 + 5 < stamp_after c (clock_last c).
Proof. by vm_compute. Qed.

(** ** Routing *)

Definition moves (to_string : json -> bytes) (doc : json) (r : RoutingRuleRecord) : bool := rule_matches to_string r doc && negb (rule_copy r).
Definition copies (to_string : json -> bytes) (doc : json) (r : RoutingRuleRecord) : bool := rule_matches to_string r doc && rule_copy r.

Lemma route_fold to_string doc rules primary extra :
  foldl (route_step to_string doc) (primary, extra) rules =
  (default primary (list.last (target_stream <$> filter (fun r => moves to_string doc r = true) rules)),
   extra ++ (target_stream <$> filter (fun r => copies to_string doc r = true) rules)).
Proof.
  revert primary extra; induction rules as [|r rules IH]; intros primary extra; [by rewrite app_nil_r|].
  cbn [foldl]. rewrite !filter_cons. unfold route_step at 2.
  assert (moves to_string doc r = rule_matches to_string r doc && negb (rule_copy r)) as -> by done.
  assert (copies to_string doc r = rule_matches to_string r doc && rule_copy r) as -> by done.
  destruct (rule_matches to_string r doc), (rule_copy r); cbn [negb andb]; rewrite IH; try reflexivity.
  - rewrite decide_False, decide_True by done. by rewrite fmap_cons, <- app_assoc.
  - rewrite decide_True, decide_False by done. f_equal. rewrite fmap_cons. generalize (target_stream <$> filter (fun r => moves to_string doc r = true) rules).
    intros l. destruct l as [|x l _] using rev_ind; [done|]. by rewrite app_comm_cons, !last_snoc.
Qed.

Lemma push_new_fold extra routes : NoDup routes ->
  NoDup (foldl push_new routes extra) /\ head routes = head (foldl push_new routes extra) \/ routes = [] .
Proof.
  intros Hnd. destruct routes as [|x routes]; [by right|]. left. revert routes Hnd.
  induction extra as [|s extra IH]; intros routes Hnd; [done|]. cbn [foldl]. unfold push_new at 2 4.
  case_bool_decide as Hs; [by apply IH|]. apply IH. change (NoDup ((x :: routes) ++ [s])). apply NoDup_app. split; [done|].
  split; [|apply NoDup_singleton]. intros y Hy ->%list_elem_of_singleton. done.
Qed.

Lemma push_new_in extra routes s : s ∈ foldl push_new routes extra <-> s ∈ routes \/ s ∈ extra.
Proof.
  revert routes; induction extra as [|x extra IH]; intros routes; cbn [foldl].
  - rewrite elem_of_nil. tauto.
  - rewrite IH, elem_of_cons. unfold push_new. case_bool_decide.
    + naive_solver.
    + rewrite elem_of_app, list_elem_of_singleton. naive_solver.
Qed.

(** A document goes first to the target of the last [move] rule that
    matches it (or the default stream), then once to every stream a matching
    [copy] rule names, and nowhere else. *)
Theorem expand_routes_spec to_string rules default_stream doc :
  let routes := expand_routes to_string rules default_stream doc in
  let primary := default default_stream (list.last (target_stream <$> filter (fun r => moves to_string doc r = true) rules)) in
  head routes = Some primary /\ NoDup routes /\
  forall s, s ∈ routes <-> s = primary \/
    exists r, r ∈ rules /\ rule_matches to_string r doc = true /\ rule_copy r = true /\ target_stream r = s.
Proof.
  unfold expand_routes. rewrite route_fold. cbn [app]. cbv zeta.
  set (primary := default _ _). set (extra := target_stream <$> _).
  destruct (push_new_fold extra [primary] (NoDup_singleton _)) as [[Hnd Hh]|]; [|done].
  split; [by rewrite <- Hh|]. split; [done|]. intros s. rewrite push_new_in, list_elem_of_singleton. apply or_iff_compat_l.
  unfold extra. rewrite list_elem_of_fmap. unfold copies. split.
  - intros (r & -> & [[? ?]%andb_true_iff ?]%list_elem_of_filter). eauto.
  - intros (r & ? & Hm & Hc & <-). exists r. split; [done|]. apply list_elem_of_filter. rewrite Hm, Hc. done.
Qed.

(** ** The stream cache *)

Lemma sql_max_ge l x : Some x ∈ l -> exists m, sql_max l = Some m /\ x <= m.
Proof.
  induction l as [|y l IH]; intros Hx; [by apply elem_of_nil in Hx|]. unfold sql_max. cbn [foldr].
  apply elem_of_cons in Hx as [<-|Hx].
  - destruct (foldr _ None l) as [m|]; simpl; eexists; (split; [reflexivity|lia]).
  - destruct (IH Hx) as (m & E & ?). unfold sql_max in E. rewrite E. destruct y; simpl; eexists; (split; [reflexivity|lia]).
Qed.

Lemma sql_max_le l b : (forall x, Some x ∈ l -> x <= b) -> forall m, sql_max l = Some m -> m <= b.
Proof.
  induction l as [|y l IH]; intros Hl m Em; [done|]. unfold sql_max in *. cbn [foldr] in Em.
  specialize (IH ltac:(intros x Hx; apply Hl; by right)). destruct y as [y|]; [pose proof (Hl y ltac:(by left))|];
    destruct (foldr _ None l) as [k|]; simpl in Em; try (injection Em as <-); try specialize (IH _ eq_refl); try lia; done.
Qed.

Lemma ensure_stream_row d name mode : meta_wf d ->
  let '(d', r) := ensure_stream_with_mode d name mode in
  meta_wf d' /\ find_stream d' name = Some r /\ m_splits d' = m_splits d /\ m_tombstones d' = m_tombstones d.
Proof.
  intros Hw. pose proof (meta_step_wf _ _ Hw (s_ensure d name mode)) as Hw'. unfold ensure_stream_with_mode in *.
  destruct (find_stream d name) as [r|] eqn:F; cbn [fst] in Hw'; (split_and!; [done| |done|done]).
  - apply find_stream_Some in F as [F En]; [|done]. by apply find_stream_spec.
  - apply find_stream_spec; [done|]. cbn [m_streams st_id st_name]. by rewrite lookup_insert_eq.
Qed.

(** Resolving a document-mode stream on a cache miss orders this node's
    later writes after everything published in it: the id is the one the name
    has now, and the next stamp exceeds every live split's highest sequence
    number, whichever node wrote it. *)
Theorem stream_info_orders_writes p now up1 up2 name mode p' info micros : meta_wf (p_meta p) -> clock_ok (p_clock p) ->
  cached_info p now name = None ->
  (forall s mx, s ∈ split_rows (p_meta p) -> ns_seq_max (sp_new s) = Some mx -> mx <= I64_MAX) ->
  stream_info_creating p now up1 up2 name mode = (p', Ok info) ->
  (exists r, find_stream (p_meta p') name = Some r /\ st_id r = info_id info /\ record_mode r = info_mode info) /\
  cached_info p' now name = Some info /\
  (info_mode info = Document -> forall s mx, s ∈ split_rows (p_meta p') -> sp_stream s = info_id info ->
     live_split s = true -> ns_seq_max (sp_new s) = Some mx ->
     (next_stamp (p_clock p') micros).1 = I64_MAX \/ mx < (next_stamp (p_clock p') micros).1).
Proof.
  intros Hw Hc Hmiss Hmax E. unfold stream_info_creating in E. rewrite Hmiss in E. destruct up1; [|done]. cbn [negb] in E.
  pose proof (ensure_stream_row (p_meta p) name mode Hw) as Hrow.
  destruct (ensure_stream_with_mode (p_meta p) name mode) as [d row]. destruct Hrow as (Hw' & F & Hsp & _).
  cbn [info_mode info_id] in E.
  assert (forall m (i : StreamInfo) (q : Pipeline), p_info q = <[name := (i, now)]> m -> cached_info q now name = Some i) as Hcached.
  { intros m i q Eq. unfold cached_info. rewrite Eq, lookup_insert_eq, Z.sub_diag. reflexivity. }
  destruct (record_mode row) eqn:Em.
  - injection E as <- <-. split; [by exists row|]. split; [by eapply Hcached|]. done.
  - destruct up2; [|done]. cbn [negb] in E.
    assert (forall s mx, s ∈ split_rows d -> sp_stream s = st_id row -> live_split s = true -> ns_seq_max (sp_new s) = Some mx ->
      exists m, stream_max_seq d (st_id row) = Some m /\ mx <= m) as Hge.
    { intros s mx Hs Hst Hlive Emx. apply sql_max_ge, list_elem_of_fmap. exists s. split; [done|]. by apply list_elem_of_filter. }
    assert (forall m, stream_max_seq d (st_id row) = Some m -> m <= I64_MAX) as Hle.
    { intros m. apply sql_max_le. intros x Hx. apply list_elem_of_fmap in Hx as (u & Eu & Hu). apply list_elem_of_filter in Hu as [_ Hu].
      eapply Hmax; [|by symmetry]. unfold split_rows in *. by rewrite Hsp in Hu. }
    destruct (stream_max_seq d (st_id row)) as [m|]; injection E as <- <-;
      (split; [by exists row|]; split; [by eapply Hcached|]); intros _ s mx Hs Hst Hlive Emx;
      cbn [info_id with_info with_clock with_meta p_meta p_clock] in *; destruct (Hge s mx Hs Hst Hlive Emx) as (m' & Em' & Hm'); [|done].
    injection Em' as <-. pose proof (next_stamp_spec _ micros (observe_ok _ m Hc (Hle m eq_refl))) as Hn.
    destruct (next_stamp (observe (p_clock p) m) micros) as [s' c'].
    destruct Hn as (_ & _ & _ & [?|Hlt] & _); [by left|right]. cbn [observe clock_last fst] in *. lia.
Qed.

(** ** What enqueueing does *)

Definition sent_pos (e : Event) : list WalPos := match e with Sent _ it => [pos it] | _ => [] end.
Definition sent_positions (l : list Event) : list WalPos := concat (sent_pos <$> l).
Definition carries_item (stream src id : bytes) (seq : Z) (e : Event) : Prop :=
  exists it, e = Sent stream it /\ source it = src /\ doc_id it = id /\ doc_seq it = seq.

Lemma sent_positions_app a b : sent_positions (a ++ b) = sent_positions a ++ sent_positions b.
Proof. unfold sent_positions. by rewrite fmap_app, concat_app. Qed.

Lemma landed_cons q ps k : landed (q :: ps) k = (if decide (segment q = k) then 1 else 0) + landed ps k.
Proof. unfold landed. rewrite filter_cons. case_decide; cbn [length]; lia. Qed.
Lemma landed_app a b k : landed (a ++ b) k = landed a k + landed b k.
Proof. unfold landed. rewrite filter_app, length_app. lia. Qed.
Lemma landed_nonneg ps k : 0 <= landed ps k.
Proof. unfold landed. lia. Qed.

(** The stream lookups and worker creation leave the log and the trace alone. *)
Definition quiet (p p' : Pipeline) : Prop := p_wal p' = p_wal p /\ p_trace p' = p_trace p.
Lemma quiet_trans p q r : quiet p q -> quiet q r -> quiet p r.
Proof. intros [] []. split; congruence. Qed.

Lemma stream_info_quiet p now up1 up2 name mode : quiet p (stream_info_creating p now up1 up2 name mode).1.
Proof.
  unfold stream_info_creating. destruct (cached_info p now name); [done|]. destruct up1; [|done]. cbn [negb].
  destruct (ensure_stream_with_mode (p_meta p) name mode) as [d row]. cbn [info_mode info_id].
  destruct (record_mode row); [done|]. destruct up2; [|done]. by destruct (stream_max_seq d (st_id row)).
Qed.
Lemma worker_for_quiet p up stream : quiet p (worker_for p up stream).1.
Proof. unfold worker_for. case_bool_decide; [done|]. by destruct up. Qed.

Lemma enqueue_spec p t stream src id seq q :
  match enqueue p t stream src id seq q with
  | (p', Ok _) => p_wal p' = p_wal p /\
      exists it, p_trace p' = p_trace p ++ [Sent stream it] /\ pos it = q /\ carries_item stream src id seq (Sent stream it)
  | (p', Err _) => quiet p p'
  end.
Proof.
  unfold enqueue, stream_info. pose proof (stream_info_quiet p (at_time t) (info_up1 t) (info_up2 t) stream Log) as H1.
  destruct (stream_info_creating _ _ _ _ _ _) as [p1 [info|e]]; cbn [fst] in H1; [|done].
  pose proof (worker_for_quiet p1 (worker_up1 t) stream) as H2. destruct (worker_for p1 _ _) as [p2 [u|e]]; cbn [fst] in H2;
    pose proof (quiet_trans _ _ _ H1 H2) as H; [|done]. destruct (send1 t); [|done|].
  - split; [apply H|]. eexists. split; [cbn [emit p_trace]; f_equal; apply H|]. split; [done|]. by eexists.
  - pose proof (worker_for_quiet (with_workers (p_workers p2 ∖ {[stream]}) p2) (worker_up2 t) stream) as H3.
    destruct (worker_for _ (worker_up2 t) stream) as [p3 [v|e]]; cbn [fst] in H3; pose proof (quiet_trans _ _ _ H H3) as H4; [|done].
    destruct (send2 t); [|done|done].
    split; [apply H4|]. eexists. split; [cbn [emit p_trace]; f_equal; apply H4|]. split; [done|]. by eexists.
Qed.

Lemma enqueue_all_spec work p a d : wal_clean (p_wal p) ->
  (forall k, landed ((fun w => w.1.2) <$> work) k <= pending (p_wal p) k) ->
  let '(p', (a', d')) := enqueue_all p work a d in
  wal_clean (p_wal p') /\ exists new, p_trace p' = p_trace p ++ new /\
    a' = a + blen (sent_positions new) /\ a' + d' = a + d + blen work /\
    (forall k, pending (p_wal p') k = pending (p_wal p) k - landed ((fun w => w.1.2) <$> work) k + landed (sent_positions new) k) /\
    (forall stream it, Sent stream it ∈ new -> exists item ps t, (item, ps, t) ∈ work /\ pos it = ps /\
       carries_item (wi_stream item) (wi_doc item) (wi_id item) (wi_seq item) (Sent stream it)).
Proof.
  revert p a d; induction work as [|[[item ps] t] work IH]; intros p a d Hcl Hp.
  - split; [done|]. exists []. rewrite app_nil_r. split_and!; try done; [simpl; lia|simpl; lia| |by intros ?? ?%elem_of_nil].
    intros k. cbn. lia.
  - cbn [enqueue_all]. pose proof (enqueue_spec p t (wi_stream item) (wi_doc item) (wi_id item) (wi_seq item) ps) as He.
    assert (forall k, landed (ps :: ((fun w => w.1.2) <$> work)) k <= pending (p_wal p) k) as Hp' by exact Hp.
    destruct (enqueue _ _ _ _ _ _ _) as [p1 [u|e]].
    + destruct He as (Ew & it & Et & Epos & Hcar).
      specialize (IH p1 (a + 1) d ltac:(by rewrite Ew)).
      assert (forall k, landed ((fun w => w.1.2) <$> work) k <= pending (p_wal p1) k) as Hp1.
      { intros k. rewrite Ew. specialize (Hp' k). rewrite landed_cons in Hp'. destruct (decide _); lia. }
      specialize (IH Hp1). destruct (enqueue_all p1 work (a + 1) d) as [p' [a' d']].
      destruct IH as (Hcl' & new & Et' & Ea & Ed & Hk & Hin). split; [done|]. exists (Sent (wi_stream item) it :: new).
      split_and!.
      * by rewrite Et', Et, <- app_assoc.
      * change (sent_positions (Sent (wi_stream item) it :: new)) with (pos it :: sent_positions new). cbn [length]. lia.
      * cbn [length]. lia.
      * intros k. rewrite Hk, Ew. change (sent_positions (Sent (wi_stream item) it :: new)) with (pos it :: sent_positions new).
        rewrite fmap_cons, !landed_cons. cbn [fst snd]. rewrite Epos. lia.
      * intros s x [[= -> ->]|Hx]%elem_of_cons.
        -- exists item, ps, t. split; [by left|done].
        -- destruct (Hin s x Hx) as (i & q & t' & ? & ?). exists i, q, t'. split; [by right|done].
    + destruct He as [Ew Et]. specialize (IH (confirm_positions [ps] p1) a (d + 1)).
      assert (forall k, pending (p_wal (confirm_positions [ps] p1)) k = pending (p_wal p) k - landed [ps] k) as Hpend.
      { intros k. cbn [confirm_positions emit with_wal p_wal]. rewrite Ew, confirm_pending by done. specialize (Hp' k).
        rewrite landed_cons in Hp'. rewrite landed_cons. pose proof (landed_nonneg ((fun w => w.1.2) <$> work) k).
        change (landed [] k) with 0. destruct (decide _); lia. }
      assert (wal_clean (p_wal (confirm_positions [ps] p1))) as Hcl1.
      { cbn [confirm_positions emit with_wal p_wal]. rewrite Ew. by apply confirm_clean. }
      specialize (IH Hcl1). assert (forall k, landed ((fun w => w.1.2) <$> work) k <= pending (p_wal (confirm_positions [ps] p1)) k) as Hp1.
      { intros k. rewrite Hpend. specialize (Hp' k). rewrite landed_cons in *. change (landed [] k) with 0. destruct (decide _); lia. }
      specialize (IH Hp1). destruct (enqueue_all (confirm_positions [ps] p1) work a (d + 1)) as [p' [a' d']].
      destruct IH as (Hcl' & new & Et' & Ea & Ed & Hk & Hin). split; [done|]. exists (Confirmed [ps] :: new). split_and!.
      * rewrite Et'. cbn [confirm_positions emit with_wal p_trace]. by rewrite Et, <- app_assoc.
      * exact Ea.
      * cbn [length]. lia.
      * intros k. rewrite Hk, Hpend. change (sent_positions (Confirmed [ps] :: new)) with (sent_positions new).
        rewrite fmap_cons, !landed_cons. cbn [fst snd]. change (landed [] k) with 0. lia.
      * intros s x [?|Hx]%elem_of_cons; [done|]. destruct (Hin s x Hx) as (i & q & t' & ? & ?). exists i, q, t'. split; [by right|done].
Qed.

Section ingest_claims.
Context `{C : Crc32} {L : Crc32Laws C}.

(** [C8] A batch from an input is accounted for to the record: it is either
    in the log and with its worker, or given up and confirmed. After the call
    the log owes, segment by segment, exactly what it owed before plus the
    documents handed to workers, whatever the channels and the metastore
    answered; the two counts add up to the items routed. *)
Theorem ingest_external_accounts max_segment_bytes to_string rules p default_stream docs turns :
  wal_clean (p_wal p) ->
  let items := (batch_items to_string rules default_stream (p_clock p) docs).1 in
  Forall fits items -> current_seq (p_wal p) + blen items <= U64_MAX -> length turns = length items ->
  exists p' a d, ingest_external max_segment_bytes to_string rules p default_stream docs turns = (p', Ok (a, d)) /\
    wal_clean (p_wal p') /\ a + d = blen items /\
    exists new, p_trace p' = p_trace p ++ new /\ a = blen (sent_positions new) /\
      (forall k, pending (p_wal p') k = pending (p_wal p) k + landed (sent_positions new) k) /\
      (forall stream it, Sent stream it ∈ new -> exists item, item ∈ items /\
         carries_item (wi_stream item) (wi_doc item) (wi_id item) (wi_seq item) (Sent stream it)).
Proof using L.
  intros Hcl. unfold ingest_external. destruct (batch_items _ _ _ _ _) as [items c]. cbn [fst]. intros Hf Hseq Ht.
  assert (exists w ps, append_batch max_segment_bytes items (p_wal p) = (w, Ok ps) /\ wal_clean w /\ length ps = length items /\
    forall k, pending w k = pending (p_wal p) k + landed ps k) as (w & ps & E & Hcl' & Hlen & Hpend).
  { destruct (append_batch_clean max_segment_bytes items (p_wal p) Hcl Hf Hseq) as (w & ps & E & ? & ? & _ & ? & _). by exists w, ps. }
  destruct items as [|i0 items0] eqn:Ei.
  { eexists _, 0, 0. split; [reflexivity|]. split; [done|]. split; [done|]. exists []. rewrite app_nil_r.
    split_and!; try done; [intros k; change (landed (sent_positions []) k) with 0; by rewrite Z.add_0_r|by intros ?? ?%elem_of_nil]. }
  rewrite <- Ei in *. clear Ei i0 items0. cbn [with_clock p_wal]. rewrite E.
  set (work := zip (zip items ps) turns). set (p1 := with_wal w _).
  assert ((fun x : WalItem * WalPos * Turn => x.1.2) <$> work = ps) as Eps.
  { unfold work. transitivity ((zip (zip items ps) turns).*1.*2); [by rewrite <- list_fmap_compose|].
    rewrite fst_zip by (rewrite length_zip_with; lia). by rewrite snd_zip by lia. }
  assert (forall k, landed ((fun x : WalItem * WalPos * Turn => x.1.2) <$> work) k <= pending (p_wal p1) k) as Hle.
  { intros k. rewrite Eps. cbn [p1 with_wal p_wal]. rewrite Hpend.
    assert (0 <= pending (p_wal p) k); [|lia]. unfold pending. destruct (segments (p_wal p) !! k) as [s|] eqn:Es; [|done].
    by apply (inv_keys _ _ (clean_inv _ Hcl)) in Es as (_ & ? & _). }
  pose proof (enqueue_all_spec work p1 0 0 Hcl' Hle) as H. destruct (enqueue_all p1 work 0 0) as [p' [a d]].
  destruct H as (Hcl2 & new & Et & Ea & Ed & Hk & Hin). exists p', a, d. split; [done|]. split; [done|]. split.
  - rewrite Ed. unfold work. rewrite !length_zip_with. lia.
  - exists new. split_and!; [exact Et|lia| |].
    + intros k. rewrite Hk, Eps. cbn [p1 with_wal p_wal]. rewrite Hpend. lia.
    + intros s it Hs. destruct (Hin s it Hs) as (item & q & t & Hw & _ & Hc). exists item. split; [|done].
      unfold work in Hw. apply elem_of_zip_l, elem_of_zip_l in Hw. done.
Qed.
End ingest_claims.

(** ** Replay *)

Definition handled (e : Event) : list WalPos :=
  match e with Upserted _ => [] | Sent _ it => [pos it] | Confirmed ps => ps end.
Definition issues (r : WalRecord) (e : Event) : Prop :=
  exists items t, e = Upserted items /\ t ∈ items /\ nt_doc t = wr_id r /\ nt_before_seq t = wr_seq r.

Lemma upsert_pending_spec p up items now :
  match upsert_pending p up items now with
  | (p', Ok _) => p_wal p' = p_wal p /\ p_trace p' = p_trace p ++ [Upserted items]
  | (p', Err _) => quiet p p'
  end.
Proof. unfold upsert_pending. destruct up; [|done]. cbn [negb]. by destruct (upsert_tombstones _ _ _). Qed.

Lemma replay_tombstone_spec p pend r t p' pend' : replay_tombstone p pend r t = (p', Ok pend') ->
  exists new, p_trace p' = p_trace p ++ new /\ concat (handled <$> new) = [] /\ (forall s it, Sent s it ∉ new) /\
    forall x, (exists n, n ∈ pend /\ nt_doc n = wr_id x /\ nt_before_seq n = wr_seq x) \/ (x = r /\ wr_tombstone r = true) ->
      (exists e, e ∈ new /\ issues x e) \/ (exists n, n ∈ pend' /\ nt_doc n = wr_id x /\ nt_before_seq n = wr_seq x).
Proof.
  unfold replay_tombstone. destruct (wr_tombstone r) eqn:Er; cbn [negb].
  2:{ intros [= <- <-]. exists []. rewrite app_nil_r. split_and!; try done; [intros ?? ?%elem_of_nil; done|]. intros x [H|[_ ?]]; [by right|done]. }
  unfold stream_info. pose proof (stream_info_quiet p (rt_now t) (rt_tomb_up1 t) (rt_tomb_up2 t) (wr_stream r) Log) as Hq.
  destruct (stream_info_creating _ _ _ _ _ _) as [p1 [info|e]]; cbn [fst] in Hq; [|done]. set (n := mkNewTombstone _ _ _).
  assert (forall x, (exists n0, n0 ∈ pend /\ nt_doc n0 = wr_id x /\ nt_before_seq n0 = wr_seq x) \/ (x = r /\ true = true) ->
    exists m, m ∈ pend ++ [n] /\ nt_doc m = wr_id x /\ nt_before_seq m = wr_seq x) as Hin.
  { intros x [(m & ? & ?)|[-> _]]; [exists m|exists n]; (split; [apply elem_of_app; set_solver|done]). }
  destruct (1000 <=? length (pend ++ [n]))%nat.
  - pose proof (upsert_pending_spec (with_clock (observe (p_clock p1) (wr_seq r)) p1) (rt_upsert_up t) (pend ++ [n]) (rt_now t)) as Hu.
    destruct (upsert_pending _ _ _ _) as [p2 [u|e]]; [|done]. intros [= <- <-]. destruct Hu as [_ Hu].
    exists [Upserted (pend ++ [n])]. split_and!; [rewrite Hu; cbn; f_equal; apply Hq|done|intros ?? ?%list_elem_of_singleton; done|].
    intros x Hx. left. destruct (Hin x Hx) as (m & ? & ? & ?). exists (Upserted (pend ++ [n])). split; [by left|]. by exists (pend ++ [n]), m.
  - intros [= <- <-]. exists []. rewrite app_nil_r. split_and!; [apply Hq|done|intros ?? ?%elem_of_nil; done|].
    intros x Hx. right. by apply Hin.
Qed.

Lemma replay_document_spec is_json p r t p' : replay_document is_json p r t = (p', Ok tt) ->
  exists e, p_trace p' = p_trace p ++ [e] /\ handled e = [wr_pos r] /\
    (is_json (wr_doc r) = true -> rt_gone t = false -> carries_item (wr_stream r) (utf8_lossy (wr_doc r)) (wr_id r) (wr_seq r) e).
Proof.
  unfold replay_document. destruct (is_json (wr_doc r)); cbn [negb].
  2:{ intros [= <-]. by exists (Confirmed [wr_pos r]). }
  unfold stream_info. pose proof (stream_info_quiet p (rt_now t) (rt_info_up1 t) (rt_info_up2 t) (wr_stream r) Log) as H1.
  destruct (stream_info_creating _ _ _ _ _ _) as [p1 [info|e]]; cbn [fst] in H1; [|done].
  pose proof (worker_for_quiet p1 (rt_worker_up t) (wr_stream r)) as H2. destruct (worker_for p1 _ _) as [p2 [u|e]]; cbn [fst] in H2; [|done].
  pose proof (quiet_trans _ _ _ H1 H2) as [Hw Ht]. destruct (rt_gone t); intros [= <-].
  - exists (Confirmed [wr_pos r]). split_and!; [cbn; by rewrite Ht|done|done].
  - eexists. split; [cbn; by rewrite Ht|]. split; [done|]. intros _ _. eexists. split; [done|]. split_and!; try done.
    cbn [source]. destruct (utf8_valid (wr_doc r)) eqn:Eu; [by rewrite utf8_lossy_valid|done].
Qed.

Lemma replay_spec is_json records p pend count up now p' n :
  replay is_json p pend count records up now = (p', Ok n) ->
  exists rs, fst <$> records = Ok <$> rs /\ n = count + blen rs /\
  exists new, p_trace p' = p_trace p ++ new /\ concat (handled <$> new) = wr_pos <$> rs /\
    (forall x, (exists m, m ∈ pend /\ nt_doc m = wr_id x /\ nt_before_seq m = wr_seq x) \/ (x ∈ rs /\ wr_tombstone x = true) ->
       exists e, e ∈ new /\ issues x e) /\
    (forall r t, (Ok r, t) ∈ records -> is_json (wr_doc r) = true -> rt_gone t = false ->
       exists e, e ∈ new /\ carries_item (wr_stream r) (utf8_lossy (wr_doc r)) (wr_id r) (wr_seq r) e).
Proof.
  revert p pend count; induction records as [|[[r|e] t] records IH]; intros p pend count; cbn [replay]; [| |done].
  - intros E. exists []. split; [done|]. destruct pend as [|m0 pend0] eqn:Ep.
    + injection E as <- <-. split; [simpl; lia|]. exists []. rewrite app_nil_r. split_and!; try done.
      * intros x [(m & Hm%elem_of_nil & _)|[Hx%elem_of_nil _]]; done.
      * intros r t Hx%elem_of_nil; done.
    + rewrite <- Ep in *. pose proof (upsert_pending_spec p up pend now) as Hu. destruct (upsert_pending p up pend now) as [p1 [u|e]]; [|done].
      injection E as <- <-. split; [simpl; lia|]. exists [Upserted pend]. destruct Hu as [_ Hu]. split_and!; try done.
      * intros x [(m & Hm & ? & ?)|[Hx%elem_of_nil _]]; [|done]. exists (Upserted pend). split; [by left|]. by exists pend, m.
      * intros r t Hx%elem_of_nil; done.
  - destruct (replay_tombstone p pend r t) as [p1 [pend1|e]] eqn:E1; [|done].
    destruct (replay_document is_json p1 r t) as [p2 [[]|e]] eqn:E2; [|done]. intros E.
    apply replay_tombstone_spec in E1 as (n1 & T1 & H1 & _ & I1). apply replay_document_spec in E2 as (e2 & T2 & H2 & I2).
    apply IH in E as (rs & Ers & En & n3 & T3 & H3 & I3 & S3). exists (r :: rs). split; [cbn; by rewrite Ers|].
    split; [cbn [length]; lia|]. exists (n1 ++ e2 :: n3). split_and!.
    + by rewrite T3, T2, T1, <- !app_assoc.
    + rewrite fmap_app, concat_app, H1, fmap_cons. cbn [concat]. by rewrite H2, H3.
    + intros x Hx. assert ((exists e, e ∈ n1 /\ issues x e) \/ (exists m, m ∈ pend1 /\ nt_doc m = wr_id x /\ nt_before_seq m = wr_seq x) \/
        (x ∈ rs /\ wr_tombstone x = true)) as [(e & ? & ?)|Hx'].
      { destruct Hx as [Hx|[[->|Hx]%elem_of_cons Ht]]; [|destruct (I1 r) as [?|?]; auto|auto].
        destruct (I1 x (or_introl Hx)) as [?|?]; auto. }
      * exists e. split; [apply elem_of_app; by left|done].
      * destruct (I3 x Hx') as (e & ? & ?). exists e. split; [apply elem_of_app; right; by right|done].
    + intros r' t' [[= -> ->]|Hr]%elem_of_cons Hj Hg.
      * exists e2. split; [apply elem_of_app; right; by left|by apply I2].
      * destruct (S3 r' t' Hr Hj Hg) as (e & ? & ?). exists e. split; [apply elem_of_app; right; by right|done].
Qed.

(** A replay that succeeds accounts for every record in order: each is
    handed to its worker or, if corrupt or its worker is gone, confirmed, and
    every record flagged as a replacement has had its tombstone issued. *)
Theorem replay_accounts is_json p records up now p' n : replay is_json p [] 0 records up now = (p', Ok n) ->
  exists rs, fst <$> records = Ok <$> rs /\ n = blen rs /\
  exists new, p_trace p' = p_trace p ++ new /\ concat (handled <$> new) = wr_pos <$> rs /\
    (forall r, r ∈ rs -> wr_tombstone r = true -> exists e, e ∈ new /\ issues r e) /\
    (forall r t, (Ok r, t) ∈ records -> is_json (wr_doc r) = true -> rt_gone t = false ->
       exists e, e ∈ new /\ carries_item (wr_stream r) (utf8_lossy (wr_doc r)) (wr_id r) (wr_seq r) e).
Proof.
  intros (rs & Ers & En & new & Et & Hh & Hi & Hs)%replay_spec. exists rs. split; [done|]. split; [done|]. exists new.
  split_and!; [done|done| |done]. intros r Hr Ht. apply Hi. by right.
Qed.

Definition all_up (t : ReplayTurn) : Prop :=
  rt_tomb_up1 t = true /\ rt_tomb_up2 t = true /\ rt_info_up1 t = true /\ rt_info_up2 t = true /\ rt_worker_up t = true.

Lemma stream_info_up p now name mode : exists info, (stream_info_creating p now true true name mode).2 = Ok info.
Proof.
  unfold stream_info_creating. destruct (cached_info p now name) as [i|]; [by exists i|]. cbn [negb].
  destruct (ensure_stream_with_mode (p_meta p) name mode) as [d row]. cbn [info_mode info_id].
  destruct (record_mode row); eexists; reflexivity.
Qed.

(** A replayed replacement goes to its worker before its tombstone is
    issued, not after: the batch of tombstones is written at a thousand or at
    the end. If that write fails (or the process stops first), the document is
    in the worker's hands, free to be published and its record confirmed, and
    the tombstone is not. *)
Theorem replay_document_before_tombstone is_json p r t up now : wr_tombstone r = true ->
  is_json (wr_doc r) = true -> rt_gone t = false -> all_up t ->
  let '(p', res) := replay is_json p [] 0 [(Ok r, t)] up now in
  exists it rest, p_trace p' = p_trace p ++ Sent (wr_stream r) it :: rest /\ doc_id it = wr_id r /\ doc_seq it = wr_seq r /\
    (rest = [] \/ exists items, rest = [Upserted items]) /\
    (up = false -> rest = [] /\ exists e, res = Err e).
Proof.
  intros Hr Hj Hg (U1 & U2 & U3 & U4 & U5). cbn [replay]. unfold replay_tombstone. rewrite Hr, U1, U2. cbn [negb]. unfold stream_info.
  pose proof (stream_info_quiet p (rt_now t) true true (wr_stream r) Log) as Q1.
  pose proof (stream_info_up p (rt_now t) (wr_stream r) Log) as (info & E1).
  destruct (stream_info_creating p _ _ _ _ _) as [p1 res1]. cbn [fst snd] in *. subst res1. cbn [app length]. cbn [Nat.leb].
  set (n := mkNewTombstone _ _ _). unfold replay_document. rewrite Hj, U3, U4, U5, Hg. cbn [negb]. unfold stream_info.
  set (p2 := with_clock _ p1).
  pose proof (stream_info_quiet p2 (rt_now t) true true (wr_stream r) Log) as Q2.
  pose proof (stream_info_up p2 (rt_now t) (wr_stream r) Log) as (info2 & E2).
  destruct (stream_info_creating p2 _ _ _ _ _) as [p3 res2]. cbn [fst snd] in *. subst res2.
  pose proof (worker_for_quiet p3 true (wr_stream r)) as Q3.
  assert ((worker_for p3 true (wr_stream r)).2 = Ok tt) as E3 by (unfold worker_for; by case_bool_decide).
  destruct (worker_for p3 true (wr_stream r)) as [p4 res3]. cbn [fst snd] in *. subst res3.
  set (it := mkWork _ _ _ _ _). pose proof (upsert_pending_spec (emit (Sent (wr_stream r) it) p4) up [n] now) as Hu.
  assert (p_trace p4 = p_trace p) as Et.
  { destruct Q1 as [_ T1], Q2 as [_ T2], Q3 as [_ T3]. rewrite T3, T2. exact T1. }
  unfold upsert_pending in *. destruct up; cbn [negb] in *.
  - destruct (upsert_tombstones _ _ _) as [d|e]; cbn [fmap result_fmap].
    + destruct Hu as [_ Hu]. exists it, [Upserted [n]]. split_and!; try done; [by rewrite Hu; cbn [emit p_trace]; rewrite Et, <- app_assoc|right; by exists [n]].
    + exists it, []. split_and!; try done; [by cbn [emit p_trace]; rewrite Et|by left].
  - exists it, []. split_and!; try done; [by cbn [emit p_trace]; rewrite Et|by left|]. intros _. split; [done|]. by eexists.
Qed.

(** ** Concrete runs *)

Definition demo_hash (b : bytes) : Z := blen b.
Definition demo_pipe : Pipeline := mkPipe empty_metastore (clock_new demo_hash (str "n1")) ∅ ∅ opened_empty [].
Definition demo_text (j : json) : bytes := match j with JString s => str "{" ++ s ++ str "}" | _ => str "null" end.
Definition demo_turn (a : TrySend) : Turn := mkTurn 0 true true true true a Full.

Lemma seq_clock_order_witness :
  let c := (clock_run (clock_new demo_hash (str "n1")) [Next 5; Observe 90000; Next 5]).2 in
  (next_stamp c 5).1 = I64_MAX \/ 90000 < (next_stamp c 5).1.
Proof.
  pose proof (seq_clock_order demo_hash (str "n1") [Next 5; Observe 90000; Next 5] [] 5
    ltac:(repeat constructor; done) ltac:(constructor)) as H.
  destruct (clock_run (clock_new demo_hash (str "n1")) [Next 5; Observe 90000; Next 5]) as [l c]. cbn [snd].
  destruct (next_stamp c 5) as [s c']. destruct H as [?|(_ & H & _)]; [by left|right]. apply H. set_solver.
Defined.

Lemma stamps_distinct_across_nodes_witness : 1024 * 9 + 2 ∉ (clock_run (clock_new demo_hash (str "n22")) [Next 9]).1.
Proof.
  apply (stamps_distinct_across_nodes demo_hash (str "n1") (str "n22") [Next 9] [Next 9]); [by vm_compute|repeat constructor..| |by vm_compute].
  change (clock_run (clock_new demo_hash (str "n1")) [Next 9]).1 with [1024 * 9 + 2]. by left.
Defined.

Lemma stream_info_orders_writes_witness : exists info, stream_info_creating demo_pipe 0 true true (str "docs") Document =
  ((stream_info_creating demo_pipe 0 true true (str "docs") Document).1, Ok info) /\ info_mode info = Document /\
  cached_info (stream_info_creating demo_pipe 0 true true (str "docs") Document).1 0 (str "docs") = Some info.
Proof.
  exists (mkInfo 1 Document). split; [reflexivity|]. split; [reflexivity|].
  apply (stream_info_orders_writes demo_pipe 0 true true (str "docs") Document _ (mkInfo 1 Document) 0
    empty_metastore_wf (clock_new_ok demo_hash (str "n1")) eq_refl); [|reflexivity].
  intros s mx Hs. by apply elem_of_nil in Hs.
Defined.

Definition demo_batch : list (json * bytes * Z) := [(JString (str "a"), str "id-1", 7); (JString (str "b"), str "id-2", 8)].
Lemma ingest_external_accounts_witness :
  exists p' a d, ingest_external 100 demo_text [] demo_pipe (str "logs") demo_batch [demo_turn Accepted; demo_turn Full] = (p', Ok (a, d)) /\
    a + d = 2 /\ forall k, pending (p_wal p') k = pending opened_empty k + landed (sent_positions (p_trace p')) k.
Proof.
  destruct (ingest_external_accounts 100 demo_text [] demo_pipe (str "logs") demo_batch [demo_turn Accepted; demo_turn Full]
    opened_empty_clean) as (p' & a & d & E & _ & Hn & new & Et & _ & Hk & _); [repeat constructor; by vm_compute|by vm_compute|reflexivity|].
  exists p', a, d. split; [exact E|]. split; [exact Hn|]. rewrite Et. exact Hk.
Defined.

Definition demo_record : WalRecord :=
  {| wr_stream := str "docs"; wr_id := str "x"; wr_seq := 900; wr_tombstone := true; wr_doc := str "{}"; wr_pos := {| segment := 0 |} |}.
Definition demo_replay_turn : ReplayTurn := mkReplayTurn 0 true true true true true true false.
Definition demo_replayed : Pipeline := (replay (fun _ => true) demo_pipe [] 0 [(Ok demo_record, demo_replay_turn)] true 0).1.
Lemma replay_accounts_witness :
  exists new, p_trace demo_replayed = new /\ concat (handled <$> new) = [wr_pos demo_record] /\ exists e, e ∈ new /\ issues demo_record e.
Proof.
  destruct (replay_accounts (fun _ => true) demo_pipe [(Ok demo_record, demo_replay_turn)] true 0 demo_replayed 1 eq_refl)
    as (rs & Ers & _ & new & Et & Hh & Hi & _).
  destruct rs as [|r [|? ?]]; [discriminate Ers| |discriminate Ers]. injection Ers as <-.
  exists new. split; [exact Et|]. split; [exact Hh|]. apply (Hi demo_record); [by left|reflexivity].
Defined.

Lemma replay_document_before_tombstone_witness :
  exists it, p_trace (replay (fun _ => true) demo_pipe [] 0 [(Ok demo_record, demo_replay_turn)] false 0).1 = [Sent (str "docs") it] /\ doc_id it = str "x".
Proof.
  pose proof (replay_document_before_tombstone (fun _ => true) demo_pipe demo_record demo_replay_turn false 0 eq_refl eq_refl eq_refl
    ltac:(by unfold all_up)) as H.
  destruct (replay _ _ _ _ _ _ _) as [p' res]. destruct H as (it & rest & Et & Ei & _ & _ & Hf). destruct (Hf eq_refl) as [-> _].
  exists it. split; [exact Et|exact Ei].
Defined.
