(* ===== verification/Worker.v ===== *)
(** * The stream worker (crates/rsearch-ingest/src/pipeline.rs, 606-1063)

    One worker per stream buffers documents, cuts a batch by count, age or
    request, and flushes it: build, upload, stage, publish, then confirm the
    log. What the builder, the storage, the metastore and the other nodes do
    during an attempt is an [Attempt]; a flush consumes as many as it needs and
    is [None] while it is still retrying. *)

From Stdlib Require Import ZArith Lia.
From Stdlib Require Import Strings.Byte.
From stdpp Require Import base gmap sets list strings sorting.
From S2P Require Import Prelude Json Metastore Wal Ingest.

Local Open Scope Z_scope.

Definition WORKER_IDLE_EXIT_SECS : Z := 600.

(** The stream the worker is bound to; its schema is built from the mapping. *)
Record WorkerStream := mkTarget { w_name : bytes; w_id : Z; w_document_mode : bool; w_mapping : json }.

(** What a worker does, in order. *)
Inductive WorkerEvent :=
| FDeleted                                             (** the index is gone *)
| FStale (id : Z)                                      (** items not of the bound row [id] dropped *)
| FSkipped (items : list WorkItem)                     (** not indexable *)
| FPublished (split_id : bytes) (id : Z) (items : list WorkItem)
| FConfirmed (positions : list WalPos)
| WFlushed (batch : list WorkItem)                     (** a batch is handed to [flush] *)
| WAnswered (waiter : nat)
| WRetired.

(** The state workers share with the rest of the node and the cluster. *)
Record Shared := mkShared {
  s_meta : Metastore; s_wal : WalState; s_info : gmap bytes (StreamInfo * Z);
  s_contents : gmap bytes (list WorkItem);    (** uploaded split files *)
  s_log : list WorkerEvent;
}.
Definition set_meta (d : Metastore) (sh : Shared) : Shared := mkShared d (s_wal sh) (s_info sh) (s_contents sh) (s_log sh).
Definition forget (name : bytes) (sh : Shared) : Shared :=
  mkShared (s_meta sh) (s_wal sh) (delete name (s_info sh)) (s_contents sh) (s_log sh).
Definition upload (split_id : bytes) (items : list WorkItem) (sh : Shared) : Shared :=
  mkShared (s_meta sh) (s_wal sh) (s_info sh) (<[split_id := items]> (s_contents sh)) (s_log sh).
Definition note (e : WorkerEvent) (sh : Shared) : Shared :=
  mkShared (s_meta sh) (s_wal sh) (s_info sh) (s_contents sh) (s_log sh ++ [e]).
Definition settle (ps : list WalPos) (sh : Shared) : Shared :=
  note (FConfirmed ps) (mkShared (s_meta sh) (confirm ps (s_wal sh)) (s_info sh) (s_contents sh) (s_log sh)).

(** ** One attempt *)

Inductive Resolved := Live | Deleted | Unknown.

Definition resolve_target (lookup : result MetastoreError StreamRecord) (t : WorkerStream) (sh : Shared) :
    Resolved * WorkerStream * Shared :=
  match lookup with
  | Ok row =>
      let rebound := negb (st_id row =? w_id t) in
      let t' := if rebound then mkTarget (w_name t) (st_id row) (is_document_mode row) (w_mapping t) else t in
      let sh := if rebound then forget (w_name t) sh else sh in
      let t' := if bool_decide (mapping row = w_mapping t') then t'
                else mkTarget (w_name t') (w_id t') (w_document_mode t') (mapping row) in
      (Live, t', sh)
  | Err (StreamNotFound _) => (Deleted, t, sh)
  | Err _ => (Unknown, t, sh)
  end.

(** What [SplitBuilder::add_document] does with a document, and what the
    packaged split says of itself. *)
Inductive AddOutcome := Added | Invalid | Panicked | Backend.
Record Built := mkBuilt {
  b_split_id : bytes; b_size_bytes : Z; b_time_start : Z; b_time_end : Z; b_footer_len : Z;
  b_seq_min : option Z; b_seq_max : option Z; b_schema_version : Z; b_dynamic_fields : option json;
}.
Inductive Task := Ran | TaskFailed | TaskAborted.

Record Attempt := mkAttempt {
  a_now : Z;
  a_before : Metastore -> Metastore;      (** other writers, before the lookup *)
  a_lookup_up : bool;
  a_task : Task;                          (** the blocking task: failed covers a panic outside one document *)
  a_added : WorkItem -> AddOutcome;
  a_finish : option Built;
  a_put_ok : bool; a_stage_ok : bool;
  a_between : Metastore -> Metastore;     (** other writers, between stage and publish *)
  a_publish_ok : bool;
}.

Inductive FlushResult :=
| FlushOk (split : option (bytes * Z))
| FlushErr (returned : list WorkItem).

Section flush.
(** [serde_json::from_str] succeeds; the node's id. *)
Variables (parses : bytes -> bool) (node_id : bytes).

(** The build loop: the documents added and those skipped; [None]: a backend
    error fails the batch. *)
Fixpoint build_loop (added : WorkItem -> AddOutcome) (batch : list WorkItem) : option (list WorkItem * list WorkItem) :=
  match batch with
  | [] => Some ([], [])
  | it :: batch =>
      if negb (parses (source it)) then '(ok, bad) ← build_loop added batch; Some (ok, it :: bad)
      else
        match added it with
        | Added => '(ok, bad) ← build_loop added batch; Some (it :: ok, bad)
        | Invalid | Panicked => '(ok, bad) ← build_loop added batch; Some (ok, it :: bad)
        | Backend => None
        end
  end.

Definition new_split (stream : bytes) (id : Z) (n : Z) (b : Built) : NewSplit :=
  mkNewSplit (b_split_id b) id (str "streams/" ++ stream ++ str "/" ++ b_split_id b ++ str ".split") n
    (b_size_bytes b) (b_time_start b) (b_time_end b) (b_footer_len b) (Some node_id) (b_seq_min b) (b_seq_max b) 0
    (b_schema_version b) (b_dynamic_fields b).

Definition flush_inner (a : Attempt) (stream : bytes) (id : Z) (batch : list WorkItem) (sh : Shared) : FlushResult * Shared :=
  match a_task a with
  | TaskAborted => (FlushErr [], sh)
  | TaskFailed => (FlushErr batch, sh)
  | Ran =>
      match build_loop (a_added a) batch with
      | None => (FlushErr batch, sh)
      | Some ([], bad) => (FlushOk None, note (FSkipped bad) sh)
      | Some (ok, bad) =>
          match a_finish a with
          | None => (FlushErr batch, sh)
          | Some b =>
              if negb (a_put_ok a) then (FlushErr batch, sh)
              else
                let sh := upload (b_split_id b) ok sh in
                match (if a_stage_ok a then stage_split (s_meta sh) (a_now a) (new_split stream id (blen ok) b) else Err Database) with
                | Err _ => (FlushErr batch, sh)
                | Ok d =>
                    let sh := set_meta (a_between a d) sh in
                    match (if a_publish_ok a then publish_split (s_meta sh) (a_now a) (b_split_id b) else Err Database) with
                    | Err _ => (FlushErr batch, sh)
                    | Ok d =>
                        (FlushOk (Some (b_split_id b, blen ok)),
                         note (FPublished (b_split_id b) id ok) (note (FSkipped bad) (set_meta d sh)))
                    end
                end
          end
      end
  end.

(** ** The retry loop *)

Fixpoint flush_loop (attempts : list Attempt) (t : WorkerStream) (positions : list WalPos) (batch : list WorkItem) (sh : Shared) :
    option (WorkerStream * Shared) :=
  match attempts with
  | [] => None
  | a :: attempts =>
      let sh := set_meta (a_before a (s_meta sh)) sh in
      let lookup := if a_lookup_up a then get_stream (s_meta sh) (w_name t) else Err Database in
      let '(res, t, sh) := resolve_target lookup t sh in
      match res with
      | Deleted => Some (t, forget (w_name t) (settle positions (note FDeleted sh)))
      | _ =>
          let stale := filter (fun it => stream_id it <> w_id t) batch in
          let live := filter (fun it => stream_id it = w_id t) batch in
          let sh := match stale with [] => sh | _ => settle (pos <$> stale) (note (FStale (w_id t)) sh) end in
          match stale, live with
          | _ :: _, [] => Some (t, sh)
          | _, _ =>
              let '(r, sh) := flush_inner a (w_name t) (w_id t) live sh in
              match r with
              | FlushOk _ => Some (t, settle (pos <$> live) sh)
              | FlushErr returned => flush_loop attempts t positions returned sh
              end
          end
      end
  end.

Definition flush (attempts : list Attempt) (t : WorkerStream) (buffer : list WorkItem) (sh : Shared) : option (WorkerStream * Shared) :=
  flush_loop attempts t (pos <$> buffer) buffer (note (WFlushed buffer) sh).

(** ** The worker's loop *)

Record PipelineConfig := mkConfig { max_batch_docs : Z; max_batch_secs : Z; document_max_batch_secs : Z }.
Definition max_docs (cfg : PipelineConfig) : Z := Z.max (max_batch_docs cfg) 1.
(** In milliseconds. *)
Definition batch_age (cfg : PipelineConfig) (document_mode : bool) : Z :=
  Z.max (if document_mode then document_max_batch_secs cfg else max_batch_secs cfg) 1 * 1000.
Definition idle_exit : Z := WORKER_IDLE_EXIT_SECS * 1000.

Inductive WorkerMsg := MDoc (item : WorkItem) | MFlush (waiter : nat).

Record Worker := mkWorker { buffer : list WorkItem; waiters : list nat; deadline : Z; target : WorkerStream; running : bool }.
Definition worker_init (now : Z) (t : WorkerStream) : Worker := mkWorker [] [] (now + idle_exit) t true.

Definition answer (ws : list nat) (sh : Shared) : Shared := foldl (fun sh x => note (WAnswered x) sh) sh ws.

(** What wakes the loop; [after] is the time when its flush is done, [queued]
    what a retiring worker drains from the closed queue (nothing otherwise). *)
Inductive Wake :=
| Recv (now : Z) (msg : WorkerMsg) (attempts : list Attempt) (after : Z)
| ChannelClosed (attempts : list Attempt)
| Timeout (now : Z) (queued : list WorkerMsg) (attempts : list Attempt) (after : Z).

Definition queue_docs (q : list WorkerMsg) : list WorkItem := omap (fun m => match m with MDoc it => Some it | MFlush _ => None end) q.
Definition queue_waiters (q : list WorkerMsg) : list nat := omap (fun m => match m with MDoc _ => None | MFlush x => Some x end) q.

Definition flush_now (w : Worker) (attempts : list Attempt) (after : Z) (sh : Shared) : option (Worker * Shared) :=
  '(t, sh) ← flush attempts (target w) (buffer w) sh;
  Some (mkWorker [] [] (after + idle_exit) t true, answer (waiters w) sh).

(** One turn of the loop; [None]: the event cannot happen, or its flush is
    still retrying. *)
Definition worker_step (cfg : PipelineConfig) (w : Worker) (e : Wake) (sh : Shared) : option (Worker * Shared) :=
  if negb (running w) then None
  else
    match e with
    | Recv now (MDoc it) attempts after =>
        let dl := match buffer w with [] => now + batch_age cfg (w_document_mode (target w)) | _ => deadline w end in
        let w := mkWorker (buffer w ++ [it]) (waiters w) dl (target w) true in
        if (max_docs cfg <=? blen (buffer w)) then flush_now w attempts after sh else Some (w, sh)
    | Recv now (MFlush x) attempts after =>
        match buffer w with
        | [] => Some (w, note (WAnswered x) sh)
        | _ => flush_now (mkWorker (buffer w) (waiters w ++ [x]) (deadline w) (target w) true) attempts after sh
        end
    | ChannelClosed attempts =>
        match buffer w with
        | [] => Some (mkWorker [] (waiters w) (deadline w) (target w) false, sh)
        | _ => '(t, sh) ← flush attempts (target w) (buffer w) sh;
               Some (mkWorker [] (waiters w) (deadline w) t false, sh)
        end
    | Timeout now queued attempts after =>
        if (now <? deadline w) then None
        else
          match buffer w with
          | [] =>
              let docs := queue_docs queued in
              let ws := waiters w ++ queue_waiters queued in
              '(t, sh) ← match docs with [] => Some (target w, sh) | _ => flush attempts (target w) docs sh end;
              Some (mkWorker [] [] (deadline w) t false, note WRetired (answer ws sh))
          | _ => match queued with [] => flush_now w attempts after sh | _ => None end
          end
    end.

Fixpoint worker_run (cfg : PipelineConfig) (w : Worker) (es : list Wake) (sh : Shared) : option (Worker * Shared) :=
  match es with
  | [] => Some (w, sh)
  | e :: es => '(w, sh) ← worker_step cfg w e sh; worker_run cfg w es sh
  end.
End flush.

(** ** Reading the log *)

Definition confirmed_of (e : WorkerEvent) : list WalPos := match e with FConfirmed ps => ps | _ => [] end.
Definition confirmed_in (l : list WorkerEvent) : list WalPos := concat (confirmed_of <$> l).
Definition flushed_of (e : WorkerEvent) : list WorkItem := match e with WFlushed b => b | _ => [] end.
Definition flushed_in (l : list WorkerEvent) : list WorkItem := concat (flushed_of <$> l).

(** A reason, noted in the log, to confirm a document's record. *)
Definition justified (l : list WorkerEvent) (it : WorkItem) : Prop :=
  FDeleted ∈ l \/ (exists id, FStale id ∈ l /\ id <> stream_id it) \/
  (exists split_id items, FPublished split_id (stream_id it) items ∈ l /\ it ∈ items) \/
  (exists items, FSkipped items ∈ l /\ it ∈ items).

Definition confirms_ok (buf : list WorkItem) (l : list WorkerEvent) : Prop := forall l1 ps l2, l = l1 ++ FConfirmed ps :: l2 ->
  forall q, q ∈ ps -> exists it, it ∈ buf /\ pos it = q /\ justified l1 it.

Lemma confirmed_in_app a b : confirmed_in (a ++ b) = confirmed_in a ++ confirmed_in b.
Proof. unfold confirmed_in. by rewrite fmap_app, concat_app. Qed.
Lemma flushed_in_app a b : flushed_in (a ++ b) = flushed_in a ++ flushed_in b.
Proof. unfold flushed_in. by rewrite fmap_app, concat_app. Qed.

Lemma justified_app l k it : justified l it -> justified (l ++ k) it.
Proof. unfold justified. setoid_rewrite elem_of_app. naive_solver. Qed.

Lemma confirms_ok_nil buf : confirms_ok buf [].
Proof. intros [|? ?] ps l2 E; discriminate E. Qed.

Lemma confirms_ok_snoc buf l e : confirms_ok buf l ->
  (forall q, q ∈ confirmed_of e -> exists it, it ∈ buf /\ pos it = q /\ justified l it) -> confirms_ok buf (l ++ [e]).
Proof.
  intros H He l1 ps l2 E q Hq. destruct l2 as [|x l2 _] using rev_ind.
  - apply app_inj_tail in E as [-> ->]. by apply He.
  - rewrite app_comm_cons, app_assoc in E. apply app_inj_tail in E as [-> _]. by eapply H.
Qed.

Lemma confirms_ok_quiet buf l e : confirms_ok buf l -> confirmed_of e = [] -> confirms_ok buf (l ++ [e]).
Proof. intros H E. apply confirms_ok_snoc; [done|]. rewrite E. by intros q Hq%elem_of_nil. Qed.

(** ** One attempt *)

Lemma build_loop_spec parses added batch ok bad : build_loop parses added batch = Some (ok, bad) ->
  (forall it, it ∈ batch -> it ∈ ok \/ it ∈ bad) /\ (forall it, it ∈ ok -> it ∈ batch).
Proof.
  revert ok bad; induction batch as [|it batch IH]; intros ok bad; cbn [build_loop].
  - intros [= <- <-]. split; [intros x Hx; by left|done].
  - destruct (build_loop parses added batch) as [[o b]|]; [|destruct (parses (source it)); [destruct (added it)|]; discriminate].
    destruct (IH o b eq_refl) as [H1 H2].
    destruct (parses (source it)); cbn [negb mbind option_bind]; [destruct (added it)|]; intros [= <- <-];
      (split; [intros x [->|Hx]%elem_of_cons; [set_solver|destruct (H1 x Hx); set_solver]|set_solver]).
Qed.

(** Nobody else stages under this attempt's fresh split id. *)
Definition unique_id (a : Attempt) : Prop := forall b d s, a_finish a = Some b ->
  m_splits (a_between a d) !! b_split_id b = Some s -> exists s0, m_splits d !! b_split_id b = Some s0 /\ sp_new s = sp_new s0.

(** A split of exactly these documents, published for the stream [id]. *)
Definition split_of (sh : Shared) (split_id : bytes) (id : Z) (items : list WorkItem) : Prop :=
  s_contents sh !! split_id = Some items /\ exists s, m_splits (s_meta sh) !! split_id = Some s /\ sp_state s = Published /\
    (sp_stream s = id /\ ns_doc_count (sp_new s) = blen items).

Lemma flush_inner_spec parses node a stream id batch sh :
  let '(r, sh') := flush_inner parses node a stream id batch sh in
  s_wal sh' = s_wal sh /\
  match r with
  | FlushErr returned => s_log sh' = s_log sh /\ (returned = batch \/ (a_task a = TaskAborted /\ returned = []))
  | FlushOk o => exists ok bad, (forall it, it ∈ batch -> it ∈ ok \/ it ∈ bad) /\ (forall it, it ∈ ok -> it ∈ batch) /\
      match o with
      | None => ok = [] /\ s_log sh' = s_log sh ++ [FSkipped bad]
      | Some (sid, n) => n = blen ok /\ s_log sh' = s_log sh ++ [FSkipped bad; FPublished sid id ok] /\
          (unique_id a -> split_of sh' sid id ok)
      end
  end.
Proof.
  unfold flush_inner. destruct (a_task a); [|split; [done|]; split; [done|by left]|split; [done|]; split; [done|by right]].
  assert (forall sh', s_wal sh' = s_wal sh -> s_log sh' = s_log sh -> s_wal sh' = s_wal sh /\ s_log sh' = s_log sh /\
    (batch = batch \/ (Ran = TaskAborted /\ batch = []))) as Herr by (intros; split_and!; [done|done|by left]).
  destruct (build_loop parses (a_added a) batch) as [[ok bad]|] eqn:Eb; [|by apply Herr].
  apply build_loop_spec in Eb as [H1 H2]. destruct ok as [|x ok'] eqn:Eok.
  { split; [done|]. exists [], bad. split_and!; done. }
  rewrite <- Eok in *. destruct (a_finish a) as [b|] eqn:Ef; [|by apply Herr].
  destruct (a_put_ok a); [|by apply Herr]. cbn [negb].
  destruct (if a_stage_ok a then _ else _) as [d|e] eqn:Est; [|by apply Herr].
  destruct (if a_publish_ok a then _ else _) as [d2|e] eqn:Ep; [|by apply Herr].
  destruct (a_stage_ok a), (a_publish_ok a); try discriminate. split; [done|].
  exists ok, bad. split_and!; [done|done|done|by cbn; rewrite <- app_assoc|]. intros Hu.
  split; [cbn; by rewrite lookup_insert_eq|].
  unfold publish_split in Ep. cbn [s_meta set_meta] in Ep.
  destruct (m_splits (a_between a d) !! b_split_id b) as [s|] eqn:Es; [|done].
  destruct (decide (sp_state s = Staged)); [|done]. injection Ep as <-.
  destruct (Hu b d s Ef Es) as (s0 & Es0 & En). unfold stage_split in Est. cbn [new_split ns_split_id ns_stream_id] in Est.
  destruct (m_splits (s_meta (upload (b_split_id b) ok sh)) !! b_split_id b); [done|].
  destruct (m_streams _ !! id); [|done]. injection Est as <-. cbn [m_splits] in Es0. rewrite lookup_insert_eq in Es0. injection Es0 as <-.
  exists (set_state Published (a_now a) s). cbn [note set_meta s_meta set_splits m_splits]. rewrite lookup_insert_eq.
  split; [done|]. split; [done|]. unfold sp_stream. cbn [set_state sp_new]. rewrite En. done.
Qed.

(** ** The retry loop *)

Lemma resolve_target_spec lookup t sh :
  let '(res, t', sh') := resolve_target lookup t sh in
  s_wal sh' = s_wal sh /\ s_log sh' = s_log sh /\ s_meta sh' = s_meta sh /\ s_contents sh' = s_contents sh /\ w_name t' = w_name t /\
  (forall row, lookup = Ok row -> res = Live /\ w_id t' = st_id row) /\ ((forall row, lookup <> Ok row) -> t' = t).
Proof.
  unfold resolve_target. destruct lookup as [row|e]; [|destruct e; by split_and!].
  destruct (Z.eqb_spec (st_id row) (w_id t)) as [E|E]; cbn [negb]; case_bool_decide; split_and!; try done; naive_solver.
Qed.

(** The accumulated facts: [buf] is the whole batch, [acc] the log so far,
    [batch] what is still unconfirmed. *)
Record flush_inv (buf : list WorkItem) (w0 : WalState) (acc : list WorkerEvent) (batch : list WorkItem) (w : WalState) : Prop := {
  fi_ok : confirms_ok buf acc;
  fi_sub : batch ⊆ buf;
  fi_conf : confirmed_in acc ++ (pos <$> batch) ≡ₚ pos <$> buf;
  fi_stale : (forall id, FStale id ∉ acc) -> confirmed_in acc = [];
  fi_live : FDeleted ∉ acc;
  fi_pub : forall sid id items, FPublished sid id items ∉ acc;
  fi_wal : wal_clean w0 -> wal_clean w /\ forall k, 0 <= pending w k /\ pending w k = Z.max 0 (pending w0 k - landed (confirmed_in acc) k);
}.

(** How a flush ended. *)
Record flush_done (buf : list WorkItem) (w0 : WalState) (acc : list WorkerEvent) (sh : Shared) : Prop := {
  fd_ok : confirms_ok buf acc;
  fd_conf : FDeleted ∉ acc \/ (forall id, FStale id ∉ acc) -> confirmed_in acc ≡ₚ pos <$> buf;
  fd_all : pos <$> buf ⊆ confirmed_in acc;
  fd_pub : forall sid id items, FPublished sid id items ∈ acc ->
    split_of sh sid id items /\ forall it, it ∈ items -> it ∈ buf /\ stream_id it = id;
  fd_wal : wal_clean w0 -> wal_clean (s_wal sh) /\ forall k, pending (s_wal sh) k = Z.max 0 (pending w0 k - landed (confirmed_in acc) k);
}.

Lemma owed_nonneg w k : wal_clean w -> 0 <= pending w k.
Proof.
  intros Hcl. unfold pending. destruct (segments w !! k) as [s|] eqn:Es; [|done].
  by apply (inv_keys _ _ (clean_inv _ Hcl)) in Es as (_ & ? & _).
Qed.

Lemma settle_wal w0 w acc ps : (wal_clean w0 -> wal_clean w /\ forall k, 0 <= pending w k /\ pending w k = Z.max 0 (pending w0 k - landed (confirmed_in acc) k)) ->
  wal_clean w0 -> wal_clean (confirm ps w) /\
  forall k, 0 <= pending (confirm ps w) k /\ pending (confirm ps w) k = Z.max 0 (pending w0 k - landed (confirmed_in acc ++ ps) k).
Proof.
  intros H Hcl0. destruct (H Hcl0) as [Hcl Hk]. split; [by apply confirm_clean|]. intros k.
  split; [apply owed_nonneg; by apply confirm_clean|]. rewrite confirm_pending, landed_app by done.
  destruct (Hk k) as [_ ->]. pose proof (landed_nonneg ps k). lia.
Qed.

Lemma confirmed_in_snoc l e : confirmed_in (l ++ [e]) = confirmed_in l ++ confirmed_of e.
Proof. rewrite confirmed_in_app. unfold confirmed_in at 2. cbn. by rewrite app_nil_r. Qed.

Lemma filter_split {A} (P : A -> Prop) `{!forall x, Decision (P x)} (l : list A) :
  l ≡ₚ filter (fun x => ~ P x) l ++ filter P l.
Proof.
  induction l as [|x l IH]; [done|]. rewrite !filter_cons. destruct (decide (P x)).
  - rewrite decide_False by tauto. rewrite <- Permutation_middle. by rewrite <- IH.
  - rewrite decide_True by done. cbn [app]. by rewrite <- IH.
Qed.

(** Dropping the items of another row keeps the accounts. *)
Lemma drop_stale buf w0 acc batch id sh base : s_log sh = base ++ acc -> flush_inv buf w0 acc batch (s_wal sh) ->
  let stale := filter (fun it => stream_id it <> id) batch in
  let live := filter (fun it => stream_id it = id) batch in
  let sh' := match stale with [] => sh | _ => settle (pos <$> stale) (note (FStale id) sh) end in
  exists acc', s_log sh' = base ++ acc' /\ flush_inv buf w0 acc' live (s_wal sh').
Proof.
  intros El I stale live. assert (batch ≡ₚ stale ++ live) as Hsplit by apply (filter_split (fun it => stream_id it = id) batch).
  assert (live ⊆ buf) as Hlive by (intros x Hx; apply (fi_sub _ _ _ _ _ I); by apply list_elem_of_filter in Hx as [_ ?]).
  destruct stale as [|x0 stale0] eqn:Es; cbv zeta.
  - exists acc. split; [done|]. destruct I. split; try done. by rewrite <- Hsplit.
  - rewrite <- Es in *. assert (forall x, x ∈ stale -> x ∈ buf /\ stream_id x <> id) as Hst.
    { intros x Hx. rewrite Es in Hx. fold stale in Es. rewrite <- Es in Hx.
      apply list_elem_of_filter in Hx as [? ?]. split; [by apply (fi_sub _ _ _ _ _ I)|done]. }
    exists (acc ++ [FStale id; FConfirmed (pos <$> stale)]).
    assert (acc ++ [FStale id; FConfirmed (pos <$> stale)] = (acc ++ [FStale id]) ++ [FConfirmed (pos <$> stale)]) as Eacc by by rewrite <- app_assoc.
    assert (confirmed_in (acc ++ [FStale id; FConfirmed (pos <$> stale)]) = confirmed_in acc ++ (pos <$> stale)) as Ec.
    { rewrite Eacc, !confirmed_in_snoc. cbn [confirmed_of]. by rewrite app_nil_r. }
    split; [cbn [settle note s_log]; by rewrite El, <- !app_assoc|]. split.
    + rewrite Eacc. apply confirms_ok_snoc; [apply confirms_ok_quiet; [apply I|done]|]. cbn [confirmed_of].
      intros q (x & -> & Hx)%list_elem_of_fmap. destruct (Hst x Hx) as [Hb Hn]. exists x. split_and!; [done|done|].
      right. left. exists id. split; [apply elem_of_app; right; by left|done].
    + done.
    + rewrite Ec, <- app_assoc, <- fmap_app, <- Hsplit. apply I.
    + intros H. exfalso. apply (H id), elem_of_app. right. by left.
    + rewrite elem_of_app. intros [H|H]; [by apply (fi_live _ _ _ _ _ I)|]. set_solver.
    + intros sid i items. rewrite elem_of_app. intros [H|H]; [by eapply (fi_pub _ _ _ _ _ I)|]. set_solver.
    + rewrite Ec. cbn [settle note s_wal]. apply settle_wal. apply I.
Qed.

Lemma inv_done buf w0 acc sh : flush_inv buf w0 acc [] (s_wal sh) -> flush_done buf w0 acc sh.
Proof.
  intros [Hok Hsub Hc Hs Hl Hp Hw]. rewrite app_nil_r in Hc. split; [done|done| | |].
  - intros q. by rewrite Hc.
  - intros sid id items H. by apply Hp in H.
  - intros Hcl. destruct (Hw Hcl) as [? Hk]. split; [done|]. intros k. apply Hk.
Qed.

(** An attempt that goes through. *)
Lemma attempt_done buf w0 acc live sh base parses node a stream id sh' o : s_log sh = base ++ acc ->
  flush_inv buf w0 acc live (s_wal sh) -> (forall it, it ∈ live -> stream_id it = id) -> unique_id a ->
  flush_inner parses node a stream id live sh = (FlushOk o, sh') ->
  exists acc', s_log (settle (pos <$> live) sh') = base ++ acc' /\ flush_done buf w0 acc' (settle (pos <$> live) sh').
Proof.
  intros El [Hok Hsub Hc Hs Hl Hp Hw] Hid Hu E. pose proof (flush_inner_spec parses node a stream id live sh) as H. rewrite E in H.
  destruct H as (Ew & okd & bad & H1 & H2 & H3).
  assert (exists new, s_log sh' = base ++ (acc ++ new) /\ confirmed_in new = [] /\ FDeleted ∉ new /\ (forall i, FStale i ∉ new) /\
    confirms_ok buf (acc ++ new) /\ (forall it, it ∈ live -> justified (acc ++ new) it) /\
    (forall sid i items, FPublished sid i items ∈ new -> i = id /\ items = okd /\ split_of sh' sid i items)) as (new & El' & Ec & Hd & Hst & Hok' & Hj & Hpub).
  { destruct o as [[sid n]|].
    - destruct H3 as (_ & Elog & Hsp). exists [FSkipped bad; FPublished sid id okd]. split_and!; [by rewrite Elog, El, <- app_assoc|done|set_solver|set_solver| | |].
      + change [FSkipped bad; FPublished sid id okd] with ([FSkipped bad] ++ [FPublished sid id okd]). rewrite app_assoc.
        by repeat (apply confirms_ok_quiet; [|done]).
      + intros it Hit. destruct (H1 it Hit) as [Hin|Hin].
        * right. right. left. exists sid, okd. rewrite (Hid it Hit). split; [set_solver|done].
        * right. right. right. exists bad. split; [set_solver|done].
      + intros s i items [[=]|[[= -> -> ->]|[]%elem_of_nil]%elem_of_cons]%elem_of_cons. split_and!; [done|done|by apply Hsp].
    - destruct H3 as (-> & Elog). exists [FSkipped bad]. split_and!; [by rewrite Elog, El, <- app_assoc|done|set_solver|set_solver|by apply confirms_ok_quiet| |set_solver].
      intros it Hit. destruct (H1 it Hit) as [Hin|Hin]; [by apply elem_of_nil in Hin|]. right. right. right. exists bad. split; [set_solver|done]. }
  exists ((acc ++ new) ++ [FConfirmed (pos <$> live)]). split; [cbn [settle note s_log]; by rewrite El', <- app_assoc|].
  assert (confirmed_in ((acc ++ new) ++ [FConfirmed (pos <$> live)]) = confirmed_in acc ++ (pos <$> live)) as Ecc.
  { rewrite confirmed_in_snoc, confirmed_in_app, Ec, app_nil_r. done. }
  split.
  - apply confirms_ok_snoc; [done|]. cbn [confirmed_of]. intros q (it & -> & Hit)%list_elem_of_fmap. exists it. split_and!; [by apply Hsub|done|by apply Hj].
  - intros _. by rewrite Ecc.
  - rewrite Ecc. intros q. by rewrite Hc.
  - intros sid i items Hin. rewrite !elem_of_app in Hin. destruct Hin as [[Hin|Hin]|Hin]; [by apply Hp in Hin| |set_solver].
    destruct (Hpub sid i items Hin) as (-> & -> & Hsp). split; [exact Hsp|]. intros it Hit. split; [by apply Hsub, H2|by apply Hid, H2].
  - intros Hcl. rewrite Ecc. cbn [settle note s_wal]. rewrite Ew. destruct (settle_wal w0 (s_wal sh) acc (pos <$> live) Hw Hcl) as [Hcl' Hk].
    split; [done|]. intros k. apply Hk.
Qed.

Lemma flush_loop_spec parses node buf w0 base attempts : forall t batch sh acc t' sh',
  Forall (fun a => a_task a <> TaskAborted /\ unique_id a) attempts ->
  s_log sh = base ++ acc -> flush_inv buf w0 acc batch (s_wal sh) ->
  flush_loop parses node attempts t (pos <$> buf) batch sh = Some (t', sh') ->
  exists acc', s_log sh' = base ++ acc' /\ flush_done buf w0 acc' sh'.
Proof.
  induction attempts as [|a attempts IH]; intros t batch sh acc t' sh' Ha El I E; [done|]. cbn [flush_loop] in E.
  apply Forall_cons in Ha as [[Hab Hu] Ha]. set (sh1 := set_meta _ sh) in E.
  pose proof (resolve_target_spec (if a_lookup_up a then get_stream (s_meta sh1) (w_name t) else Err Database) t sh1) as Hr.
  destruct (resolve_target _ t sh1) as [[res t1] sh2]. destruct Hr as (Ew & El2 & _ & _ & _ & _).
  assert (s_log sh2 = base ++ acc) as El3 by (by rewrite El2). rewrite <- Ew in I || change (s_wal sh) with (s_wal sh1) in I; rewrite <- Ew in I. clear El El2 Ew.
  assert (res = Deleted \/ res <> Deleted) as [->|Hres] by (destruct res; [by right|by left|by right]).
  - injection E as <- <-. exists ((acc ++ [FDeleted]) ++ [FConfirmed (pos <$> buf)]).
    split; [cbn; by rewrite El3, <- !app_assoc|]. destruct I as [Hok Hsub Hc Hs Hl Hp Hw].
    assert (confirmed_in ((acc ++ [FDeleted]) ++ [FConfirmed (pos <$> buf)]) = confirmed_in acc ++ (pos <$> buf)) as Ec.
    { rewrite !confirmed_in_snoc. cbn [confirmed_of]. by rewrite app_nil_r. }
    split.
    + apply confirms_ok_snoc; [by apply confirms_ok_quiet|]. cbn [confirmed_of]. intros q (it & -> & Hit)%list_elem_of_fmap.
      exists it. split_and!; [done|done|]. left. set_solver.
    + intros [H|H]; [set_solver|]. rewrite Ec, Hs; [done|]. intros id Hid. apply (H id). set_solver.
    + rewrite Ec. set_solver.
    + intros sid id items H. exfalso. rewrite !elem_of_app in H. destruct H as [[H|H]|H]; [by eapply Hp|set_solver|set_solver].
    + intros Hcl. rewrite Ec. cbn [forget settle note s_wal]. destruct (settle_wal _ _ _ (pos <$> buf) Hw Hcl) as [? Hk]. split; [done|]. intros k; apply Hk.
  - pose proof (drop_stale buf w0 acc batch (w_id t1) sh2 base El3 I) as (acc1 & El4 & I1). cbv zeta in El4, I1.
    set (stale := filter (fun it => stream_id it <> w_id t1) batch) in *. set (live := filter (fun it => stream_id it = w_id t1) batch) in *.
    set (sh3 := match stale with [] => sh2 | _ => _ end) in *.
    assert (match stale, live with
      | _ :: _, [] => Some (t1, sh3)
      | _, _ => let '(r, sh) := flush_inner parses node a (w_name t1) (w_id t1) live sh3 in
                match r with FlushOk _ => Some (t1, settle (pos <$> live) sh)
                | FlushErr returned => flush_loop parses node attempts t1 (pos <$> buf) returned sh end
      end = Some (t', sh')) as E' by (destruct res; [exact E|done|exact E]). clear E.
    assert (forall it, it ∈ live -> stream_id it = w_id t1) as Hid by (intros it Hit; by apply list_elem_of_filter in Hit as [? _]).
    assert ((let '(r, sh) := flush_inner parses node a (w_name t1) (w_id t1) live sh3 in
                match r with FlushOk _ => Some (t1, settle (pos <$> live) sh)
                | FlushErr returned => flush_loop parses node attempts t1 (pos <$> buf) returned sh end) = Some (t', sh') ->
      exists acc', s_log sh' = base ++ acc' /\ flush_done buf w0 acc' sh') as Hgo.
    { pose proof (flush_inner_spec parses node a (w_name t1) (w_id t1) live sh3) as Hi.
      destruct (flush_inner parses node a (w_name t1) (w_id t1) live sh3) as [r sh4] eqn:Ei. destruct r as [o|ret].
      - intros [= <- <-]. by eapply attempt_done.
      - intros E. destruct Hi as (Ew4 & El5 & [->|[? _]]); [|done]. eapply (IH t1 live sh4 acc1); [done|by rewrite El5|by rewrite Ew4|exact E]. }
    destruct stale as [|x0 st0]; [exact (Hgo E')|]. destruct live as [|y0 lv0] eqn:Elive; [|exact (Hgo E')].
    injection E' as <- <-. exists acc1. split; [done|]. by apply inv_done.
Qed.

Lemma flush_start buf w : flush_inv buf w [] buf w.
Proof.
  split; [apply confirms_ok_nil|done|done|done|by intros ?%elem_of_nil|by intros ??? ?%elem_of_nil|].
  intros Hcl. split; [done|]. intros k. pose proof (owed_nonneg w k Hcl). change (landed (confirmed_in []) k) with 0. lia.
Qed.

Lemma flush_spec parses node attempts t buf sh t' sh' :
  Forall (fun a => a_task a <> TaskAborted /\ unique_id a) attempts ->
  flush parses node attempts t buf sh = Some (t', sh') ->
  exists new, s_log sh' = s_log sh ++ WFlushed buf :: new /\ flush_done buf (s_wal sh) new sh'.
Proof.
  intros Ha E. unfold flush in E.
  destruct (flush_loop_spec parses node buf (s_wal sh) (s_log sh ++ [WFlushed buf]) attempts t buf (note (WFlushed buf) sh) [] t' sh' Ha)
    as (new & El & Hd); [cbn; by rewrite app_nil_r|apply flush_start|done|].
  exists new. split; [|done]. by rewrite El, <- app_assoc.
Qed.

(** ** Claims: the flush *)


(** [C33] A flush that returns settles its batch with the log: every document's
    position is confirmed, and, unless the index was first found re-created and
    then found deleted, exactly once: each segment owes exactly its share of
    the batch less. *)
Theorem flush_settles_log parses node attempts t buf sh t' sh' :
  Forall (fun a => a_task a <> TaskAborted /\ unique_id a) attempts -> wal_clean (s_wal sh) ->
  (forall k, landed (pos <$> buf) k <= pending (s_wal sh) k) ->
  flush parses node attempts t buf sh = Some (t', sh') ->
  exists new, s_log sh' = s_log sh ++ WFlushed buf :: new /\ wal_clean (s_wal sh') /\
    (forall it, it ∈ buf -> pos it ∈ confirmed_in new) /\
    (FDeleted ∉ new \/ (forall id, FStale id ∉ new) ->
       forall k, pending (s_wal sh') k = pending (s_wal sh) k - landed (pos <$> buf) k).
Proof.
  intros Ha Hcl Hle E. destruct (flush_spec parses node attempts t buf sh t' sh' Ha E) as (new & El & [_ Hc Hall _ Hw]).
  destruct (Hw Hcl) as [Hcl' Hk]. exists new. split_and!; [done|done| |].
  - intros it Hit. apply Hall. by apply list_elem_of_fmap_2.
  - intros Hone k. rewrite Hk. specialize (Hc Hone). specialize (Hle k).
    assert (landed (confirmed_in new) k = landed (pos <$> buf) k) as ->; [|lia].
    unfold landed. by rewrite Hc.
Qed.

(** What makes an attempt go through. *)
Record good (a : Attempt) (b : Built) : Prop := {
  g_lookup : a_lookup_up a = true;
  g_task : a_task a = Ran;
  g_added it : a_added a it <> Backend;
  g_finish : a_finish a = Some b;
  g_up : a_put_ok a = true /\ a_stage_ok a = true /\ a_publish_ok a = true;
  g_world d : meta_wf (a_before a d) /\ m_splits (a_before a d) !! b_split_id b = None;
  g_between d : m_splits (a_between a d) !! b_split_id b = m_splits d !! b_split_id b;
}.

Lemma build_loop_total parses added batch : (forall it, added it <> Backend) -> is_Some (build_loop parses added batch).
Proof.
  intros H. induction batch as [|it batch [[o b] E]]; cbn [build_loop]; [by eexists|]. rewrite E.
  specialize (H it). destruct (parses (source it)); cbn [negb]; [destruct (added it)|]; try done; by eexists.
Qed.

Lemma good_flush_inner parses node a b t stream batch sh : good a b ->
  s_meta sh = a_before a t -> is_Some (m_streams (s_meta sh) !! stream) -> forall name,
  exists o sh', flush_inner parses node a name stream batch sh = (FlushOk o, sh').
Proof.
  intros [Hl Ht Hadd Hf (Hput & Hst & Hpub) Hw Hb] Em [row Hrow] name. unfold flush_inner. rewrite Ht, Hf, Hput, Hst, Hpub. cbn [negb].
  destruct (build_loop_total parses (a_added a) batch Hadd) as [[ok bad] ->].
  destruct ok as [|x ok]; [by eexists _, _|]. unfold stage_split at 1. cbn [upload s_meta new_split ns_split_id ns_stream_id].
  rewrite Em in *. destruct (Hw t) as [_ ->]. rewrite Hrow. unfold publish_split at 1. cbn [set_meta s_meta].
  rewrite Hb. cbn [m_splits]. rewrite lookup_insert_eq. cbn [sp_state]. rewrite decide_True by done. by eexists _, _.
Qed.

(** A flush terminates: it stops no later than the first attempt in which
    every round trip works, whatever the attempts before it did. *)
Theorem flush_finishes parses node before a b rest t buf sh : good a b ->
  is_Some (flush parses node (before ++ a :: rest) t buf sh).
Proof.
  intros Hg. unfold flush. generalize (note (WFlushed buf) sh) as sh0. generalize buf at 2 as batch. generalize (pos <$> buf) as ps. revert t.
  induction before as [|a0 before IH]; intros t ps batch sh0; cbn [app flush_loop].
  - pose proof (g_lookup a b Hg) as Hl. rewrite Hl. set (sh1 := set_meta _ sh0).
    pose proof (resolve_target_spec (get_stream (s_meta sh1) (w_name t)) t sh1) as Hr.
    destruct (resolve_target _ t sh1) as [[res t1] sh2] eqn:Er. destruct Hr as (_ & _ & Em & _ & _ & Hlive & _).
    destruct (get_stream (s_meta sh1) (w_name t)) as [row|e] eqn:Eg.
    + destruct (Hlive row eq_refl) as [-> Hid]. set (stale := filter _ batch). set (live := filter _ batch).
      set (sh3 := match stale with [] => sh2 | _ => _ end).
      assert (s_meta sh3 = a_before a (s_meta sh0)) as Em3 by (unfold sh3; by destruct stale).
      assert (is_Some (m_streams (s_meta sh3) !! w_id t1)) as Hrow.
      { rewrite Em3, Hid. unfold get_stream in Eg. destruct (find_stream (s_meta sh1) (w_name t)) as [r|] eqn:F; [|done].
        destruct (deleted r); [done|]. injection Eg as ->. apply find_stream_Some in F as [F _]; [|apply (g_world a b Hg)]. by eexists. }
      destruct (good_flush_inner parses node a b (s_meta sh0) (w_id t1) live sh3 Hg Em3 Hrow (w_name t1)) as (o & sh4 & E4).
      destruct stale, live; try (by eexists); rewrite E4; by eexists.
    + unfold get_stream in Eg. destruct (find_stream (s_meta sh1) (w_name t)) as [r|].
      * destruct (deleted r); [|done]. injection Eg as <-. cbn in Er. injection Er as <- <- <-. by eexists.
      * injection Eg as <-. cbn in Er. injection Er as <- <- <-. by eexists.
  - destruct (resolve_target _ t _) as [[res t1] sh2].
    set (stale := filter _ batch). set (live := filter _ batch). set (sh3 := match stale with [] => sh2 | _ => _ end).
    assert (is_Some (let '(r, sh) := flush_inner parses node a0 (w_name t1) (w_id t1) live sh3 in
      match r with FlushOk _ => Some (t1, settle (pos <$> live) sh)
      | FlushErr returned => flush_loop parses node (before ++ a :: rest) t1 ps returned sh end)) as Hgo.
    { destruct (flush_inner _ _ _ _ _ _ _) as [[o|ret] sh4]; [by eexists|apply IH]. }
    destruct res; [|by eexists|]; (destruct stale; [exact Hgo|]); (destruct live; [by eexists|exact Hgo]).
Qed.

(** A metastore outage loses acknowledged writes: when the lookup before a
    flush fails, the worker keeps its old binding and still drops the documents
    of every other row, so those accepted for the row the name has now are
    confirmed and never published. *)
Theorem unknown_binding_drops_live_writes parses node a rest t buf sh row : a_lookup_up a = false ->
  find_stream (a_before a (s_meta sh)) (w_name t) = Some row -> deleted row = false ->
  st_id row <> w_id t -> buf <> [] -> (forall it, it ∈ buf -> stream_id it = st_id row) ->
  exists sh', flush parses node (a :: rest) t buf sh = Some (t, sh') /\
    s_log sh' = s_log sh ++ [WFlushed buf; FStale (w_id t); FConfirmed (pos <$> buf)] /\
    s_wal sh' = confirm (pos <$> buf) (s_wal sh) /\ s_contents sh' = s_contents sh.
Proof.
  intros Hl _ _ Hne Hb Hid. unfold flush. cbn [flush_loop]. rewrite Hl. cbn [resolve_target].
  assert (filter (fun it => stream_id it <> w_id t) buf = buf) as ->.
  { apply filter_every. apply Forall_forall. intros it Hit. rewrite (Hid it Hit). done. }
  assert (filter (fun it => stream_id it = w_id t) buf = []) as ->.
  { apply filter_none. apply Forall_forall. intros it Hit. rewrite (Hid it Hit). done. }
  destruct buf as [|x buf]; [done|]. eexists. split; [reflexivity|]. split; [cbn; by rewrite <- !app_assoc|]. done.
Qed.

(** ** Concrete runs of the flush *)

(** The stream "app" as row 1; deleted and re-created as row 2; deleted again. *)
Definition d_one : Metastore := (ensure_stream empty_metastore (str "app")).1.
Definition retired (d : Metastore) : Metastore := match retire_stream d 5 (str "app") with Ok (d', _) => d' | Err _ => d end.
Definition d_two : Metastore := (ensure_stream (retired d_one) (str "app")).1.
Definition d_gone : Metastore := retired d_two.
Definition demo_target : WorkerStream := mkTarget (str "app") 1 false (Object []).

(** The log after three records and, their segment full, a fourth. *)
Definition three_wal : WalState := (append_batch 60 sample_items opened_empty).1.
Definition demo_wal : WalState := (append_batch 60 [sample_item 3 false] three_wal).1.
Lemma append_clean items st : wal_clean st -> Forall fits items -> current_seq st + blen items <= U64_MAX ->
  wal_clean (append_batch 60 items st).1.
Proof.
  intros Hcl Hf Hs. destruct (append_batch_clean 60 items st Hcl Hf Hs) as (st' & ps & -> & ? & _). done.
Qed.
Lemma demo_wal_clean : wal_clean demo_wal.
Proof.
  apply append_clean; [|repeat constructor; by vm_compute|by vm_compute].
  apply append_clean; [exact opened_empty_clean|exact sample_fits|by vm_compute].
Qed.
Definition demo_buffer : list WorkItem :=
  [mkWork (str "{}") (str "id-0") 1000 {| segment := 0 |} 1; mkWork (str "{}") (str "id-1") 1001 {| segment := 0 |} 2].
Definition demo_built : Built := mkBuilt (str "s1") 10 0 9 4 (Some 1000) (Some 1001) 1 None.
Definition demo_attempt (world : Metastore) (lookup publish : bool) : Attempt :=
  mkAttempt 7 (fun _ => world) lookup Ran (fun _ => Added) (Some demo_built) true true (fun d => d) publish.
Definition demo_shared : Shared := mkShared d_one demo_wal ∅ ∅ [].

Lemma demo_attempt_ok world lookup publish :
  a_task (demo_attempt world lookup publish) <> TaskAborted /\ unique_id (demo_attempt world lookup publish).
Proof. split; [done|]. intros b d s _ E. by exists s. Qed.

(** The second attempt's confirmation, on top of the first's. *)
Definition twice : option (WorkerStream * Shared) :=
  flush (fun _ => true) (str "n1") [demo_attempt d_two true false; demo_attempt d_gone true true] demo_target demo_buffer demo_shared.
Definition twice_wal : WalState := match twice with Some (_, sh) => s_wal sh | None => demo_wal end.

(** The log can lose another stream's record: when an attempt finds the
    index re-created and fails, and a later one finds it deleted, the dropped
    items are confirmed a second time. Here the sealed segment owes three
    records, two of them this batch's; after the flush it owes none and its
    file, with the third, is unlinked. *)
Theorem flush_confirms_twice :
  wal_clean demo_wal /\ is_Some twice /\
  landed (pos <$> demo_buffer) 0 = 2 /\ pending demo_wal 0 = 3 /\ pending twice_wal 0 = 0 /\
  is_Some (d_files (disk demo_wal) !! segment_path 0) /\ d_files (disk twice_wal) !! segment_path 0 = None.
Proof.
  split; [exact demo_wal_clean|]. split; [apply (is_Some_alt twice); by vm_compute|].
  split; [by vm_compute|]. split; [by vm_compute|]. split; [by vm_compute|].
  split; [apply (is_Some_alt (d_files (disk demo_wal) !! segment_path 0)); by vm_compute|by vm_compute].
Qed.

Definition demo_publish : list Attempt := [demo_attempt d_two false true; demo_attempt d_two true false; demo_attempt d_two true true].
Definition two_target : WorkerStream := mkTarget (str "app") 2 false (Object []).
Definition two_buffer : list WorkItem :=
  [mkWork (str "{}") (str "id-0") 1000 {| segment := 0 |} 2; mkWork (str "{}") (str "id-1") 1001 {| segment := 0 |} 2].
Definition two_run : option (WorkerStream * Shared) := flush (fun _ => true) (str "n1") demo_publish two_target two_buffer demo_shared.
Lemma demo_publish_ok : Forall (fun a => a_task a <> TaskAborted /\ unique_id a) demo_publish.
Proof. unfold demo_publish. repeat (apply Forall_cons; split; [apply demo_attempt_ok|]). constructor. Qed.
Definition two_shared : Shared := match two_run with Some (_, sh) => sh | None => demo_shared end.
Lemma two_run_eq : exists t, two_run = Some (t, two_shared).
Proof.
  assert (bool_decide (is_Some two_run) = true) as H by (vm_compute; reflexivity). unfold two_shared.
  destruct two_run as [[t sh]|]; [by exists t|discriminate H].
Qed.
Lemma two_log : s_log two_shared = [WFlushed two_buffer; FSkipped []; FPublished (str "s1") 2 two_buffer; FConfirmed (pos <$> two_buffer)].
Proof. by vm_compute. Qed.


Lemma two_no_delete : FDeleted ∉ [FSkipped []; FPublished (str "s1") 2 two_buffer; FConfirmed (pos <$> two_buffer)].
Proof. intros H. repeat (apply elem_of_cons in H as [H|H]; [discriminate|]). by apply elem_of_nil in H. Qed.
Lemma two_balance k : landed (pos <$> two_buffer) k <= pending demo_wal k.
Proof.
  destruct (decide (k = 0)) as [->|Hk]; [by vm_compute|].
  unfold landed. rewrite filter_none; [apply owed_nonneg, demo_wal_clean|].
  repeat constructor; cbn; congruence.
Qed.
Lemma flush_settles_log_witness : pending demo_wal 0 = 3 /\ pending (s_wal two_shared) 0 = 1.
Proof.
  destruct two_run_eq as (t & E).
  destruct (flush_settles_log (fun _ => true) (str "n1") demo_publish two_target two_buffer demo_shared t two_shared demo_publish_ok demo_wal_clean two_balance E) as (new & El & _ & _ & H).
  rewrite two_log in El. injection El as <-. split; [by vm_compute|]. rewrite H; [by vm_compute|left; exact two_no_delete].
Defined.

Lemma retired_wf d : meta_wf d -> meta_wf (retired d).
Proof.
  intros Hw. unfold retired. destruct (retire_stream d 5 (str "app")) as [[d' id]|e] eqn:E; [|done].
  eapply meta_step_wf; [exact Hw|]. eapply s_retire. exact E.
Qed.
Lemma d_two_wf : meta_wf d_two.
Proof.
  apply (meta_step_wf (retired d_one)); [|apply s_ensure]. apply retired_wf.
  apply (meta_step_wf empty_metastore); [exact empty_metastore_wf|apply s_ensure].
Qed.
Lemma flush_finishes_witness : is_Some (flush (fun _ => true) (str "n1") ([demo_attempt d_one false false] ++ demo_attempt d_two true true :: []) demo_target demo_buffer demo_shared).
Proof.
  apply (flush_finishes _ _ _ _ demo_built). split; try done. intros d. split; [exact d_two_wf|]. by vm_compute.
Defined.

Definition two_row : StreamRecord := mkStream 2 (str "app") (Object []) None (str "log") false.
Lemma two_row_found : find_stream d_two (str "app") = Some two_row.
Proof. by vm_compute. Qed.
Lemma two_items it : it ∈ two_buffer -> stream_id it = st_id two_row.
Proof. intros [->|[->|Hit%elem_of_nil]%elem_of_cons]%elem_of_cons; done. Qed.
Lemma unknown_binding_drops_live_writes_witness :
  exists sh', flush (fun _ => true) (str "n1") [demo_attempt d_two false true] demo_target two_buffer demo_shared = Some (demo_target, sh') /\
    s_contents sh' = ∅.
Proof.
  destruct (unknown_binding_drops_live_writes (fun _ => true) (str "n1") (demo_attempt d_two false true) [] demo_target two_buffer demo_shared
    two_row eq_refl two_row_found eq_refl ltac:(discriminate) ltac:(discriminate) two_items) as (sh' & E & _ & _ & Hc).
  exists sh'. split; [exact E|exact Hc].
Defined.

(** ** The loop *)

Definition wake_msgs (e : Wake) : list WorkerMsg :=
  match e with Recv _ m _ _ => [m] | ChannelClosed _ => [] | Timeout _ q _ _ => q end.
Definition received (es : list Wake) : list WorkerMsg := concat (wake_msgs <$> es).
Definition of_flush (e : WorkerEvent) : Prop :=
  match e with WFlushed _ | WAnswered _ | WRetired => False | _ => True end.

Lemma received_snoc es e : received (es ++ [e]) = received es ++ wake_msgs e.
Proof. unfold received. rewrite fmap_app, concat_app. cbn. by rewrite app_nil_r. Qed.
Lemma queue_docs_app a b : queue_docs (a ++ b) = queue_docs a ++ queue_docs b.
Proof. apply omap_app. Qed.

Lemma of_flush_flushed new : Forall of_flush new -> flushed_in new = [].
Proof. induction 1 as [|e new He _ IH]; [done|]. change (flushed_in (e :: new)) with (flushed_of e ++ flushed_in new). rewrite IH. by destruct e. Qed.

Lemma flush_loop_log parses node attempts : forall t ps batch sh t' sh',
  flush_loop parses node attempts t ps batch sh = Some (t', sh') ->
  exists new, s_log sh' = s_log sh ++ new /\ Forall of_flush new.
Proof.
  induction attempts as [|a attempts IH]; intros t ps batch sh t' sh' E; [done|]. cbn [flush_loop] in E.
  set (sh1 := set_meta _ sh) in E.
  pose proof (resolve_target_spec (if a_lookup_up a then get_stream (s_meta sh1) (w_name t) else Err Database) t sh1) as Hr.
  destruct (resolve_target _ t sh1) as [[res t1] sh2]. destruct Hr as (_ & El & _).
  change (s_log sh1) with (s_log sh) in El. set (stale := filter (fun it => stream_id it <> _) batch) in E.
  set (live := filter (fun it => stream_id it = _) batch) in E. set (sh3 := match stale with [] => sh2 | _ => _ end) in E.
  assert (exists new, s_log sh3 = s_log sh ++ new /\ Forall of_flush new) as (n3 & El3 & Hn3).
  { unfold sh3. destruct stale; [exists []; by rewrite app_nil_r|]. exists [FStale (w_id t1); FConfirmed (pos <$> w :: stale)].
    split; [cbn; by rewrite El, <- app_assoc|by repeat constructor]. }
  assert ((let '(r, sh) := flush_inner parses node a (w_name t1) (w_id t1) live sh3 in
      match r with FlushOk _ => Some (t1, settle (pos <$> live) sh)
      | FlushErr returned => flush_loop parses node attempts t1 ps returned sh end) = Some (t', sh') ->
    exists new, s_log sh' = s_log sh ++ new /\ Forall of_flush new) as Hgo.
  { pose proof (flush_inner_spec parses node a (w_name t1) (w_id t1) live sh3) as Hi.
    destruct (flush_inner _ _ _ _ _ _ _) as [[o|ret] sh4]; destruct Hi as (_ & Hi).
    - intros [= <- <-]. assert (exists n4, s_log sh4 = s_log sh3 ++ n4 /\ Forall of_flush n4) as (n4 & El4 & Hn4).
      { destruct Hi as (ok & bad & _ & _ & Hi). destruct o as [[sid n]|]; [destruct Hi as (_ & -> & _)|destruct Hi as (_ & ->)];
          eexists; (split; [reflexivity|by repeat constructor]). }
      exists (n3 ++ n4 ++ [FConfirmed (pos <$> live)]). split; [cbn; by rewrite El4, El3, !app_assoc|].
      rewrite !Forall_app. by repeat constructor.
    - intros (n5 & El5 & Hn5)%IH. destruct Hi as (El4 & _). exists (n3 ++ n5). split; [by rewrite El5, El4, El3, app_assoc|].
      by apply Forall_app. }
  destruct res.
  - destruct stale; [exact (Hgo E)|]. destruct live; [|exact (Hgo E)]. injection E as <- <-. by exists n3.
  - injection E as <- <-. exists [FDeleted; FConfirmed ps]. split; [cbn; by rewrite El, <- app_assoc|by repeat constructor].
  - destruct stale; [exact (Hgo E)|]. destruct live; [|exact (Hgo E)]. injection E as <- <-. by exists n3.
Qed.

Lemma flush_log parses node attempts t buf sh t' sh' : flush parses node attempts t buf sh = Some (t', sh') ->
  exists new, s_log sh' = s_log sh ++ WFlushed buf :: new /\ Forall of_flush new.
Proof.
  intros (new & El & H)%flush_loop_log. exists new. split; [|done]. by rewrite El; cbn; rewrite <- app_assoc.
Qed.

Lemma answer_log ws sh : s_log (answer ws sh) = s_log sh ++ (WAnswered <$> ws).
Proof.
  unfold answer. revert sh; induction ws as [|x ws IH]; intros sh; [by rewrite app_nil_r|]. cbn [foldl]. rewrite IH. cbn. by rewrite <- app_assoc.
Qed.

(** Every request to flush so far is answered, at a point where all documents
    received before it have been flushed. *)
Definition answered_in_turn (msgs : list WorkerMsg) (new : list WorkerEvent) : Prop :=
  forall m1 x m2, msgs = m1 ++ MFlush x :: m2 ->
    exists l1 l2, new = l1 ++ WAnswered x :: l2 /\ queue_docs m1 `prefix_of` flushed_in l1.

(** The deadline of a non-empty buffer is its oldest document's. *)
Definition aged (cfg : PipelineConfig) (es : list Wake) (w : Worker) : Prop := forall x rest, buffer w = x :: rest ->
  exists pre now attempts after post, es = pre ++ Recv now (MDoc x) attempts after :: post /\
    queue_docs (received post) = rest /\ deadline w = now + batch_age cfg (w_document_mode (target w)).

Record worker_inv (cfg : PipelineConfig) (es : list Wake) (new : list WorkerEvent) (w : Worker) : Prop := {
  wi_docs : flushed_in new ++ buffer w = queue_docs (received es);
  wi_bound : blen (buffer w) < max_docs cfg;
  wi_waiters : waiters w = [];
  wi_stopped : running w = false -> buffer w = [];
  wi_answered : answered_in_turn (received es) new;
  wi_aged : aged cfg es w;
}.

Lemma answered_extend msgs new extra more : answered_in_turn msgs new ->
  (forall m1 x m2, more = m1 ++ MFlush x :: m2 ->
     exists l1 l2, extra = l1 ++ WAnswered x :: l2 /\ queue_docs (msgs ++ m1) `prefix_of` flushed_in (new ++ l1)) ->
  answered_in_turn (msgs ++ more) (new ++ extra).
Proof.
  intros H Hm m1 x m2 E. apply app_eq_inv in E as [(k & -> & E)|(k & -> & E)].
  - destruct k as [|y k].
    + cbn in E. destruct (Hm [] x m2 (eq_sym E)) as (l1 & l2 & -> & Hp). exists (new ++ l1), l2. split; [by rewrite <- app_assoc|].
      rewrite !app_nil_r in Hp. exact Hp.
    + injection E as <- ->. destruct (H m1 x k eq_refl) as (l1 & l2 & -> & Hp). exists l1, (l2 ++ extra). split; [by rewrite <- app_assoc|done].
  - destruct (Hm k x m2 E) as (l1 & l2 & -> & Hp). exists (new ++ l1), l2. by rewrite <- app_assoc.
Qed.

Lemma answered_quiet msgs new extra more : answered_in_turn msgs new -> queue_waiters more = [] -> answered_in_turn (msgs ++ more) (new ++ extra).
Proof.
  intros H Hq. apply answered_extend; [done|]. intros m1 x m2 ->. unfold queue_waiters in Hq. rewrite omap_app in Hq.
  apply app_eq_nil in Hq as [_ Hq]. discriminate Hq.
Qed.

Lemma queue_docs_waiters_split q m1 x m2 : q = m1 ++ MFlush x :: m2 ->
  exists w1 w2, queue_waiters q = w1 ++ x :: w2 /\ queue_docs m1 `prefix_of` queue_docs q.
Proof.
  intros ->. exists (queue_waiters m1), (queue_waiters m2). split; [unfold queue_waiters; by rewrite omap_app|].
  rewrite queue_docs_app. by apply prefix_app_r.
Qed.

(** A flush of the whole buffer, then the waiters' answers. *)
Lemma flush_now_inv parses node cfg es new w attempts after sh w' sh' base e more :
  (waiters w = [] /\ queue_waiters more = [] \/ exists x, waiters w = [x] /\ more = [MFlush x]) ->
  wake_msgs e = more -> flushed_in new ++ buffer w = queue_docs (received es ++ more) ->
  answered_in_turn (received es) new ->
  s_log sh = base ++ new -> flush_now parses node w attempts after sh = Some (w', sh') ->
  exists new', s_log sh' = base ++ new' /\ worker_inv cfg (es ++ [e]) new' w'.
Proof.
  intros Hmore He Hdocs Hans El E. unfold flush_now in E.
  destruct (flush parses node attempts (target w) (buffer w) sh) as [[t sh1]|] eqn:Ef; [|done]. injection E as <- <-.
  apply flush_log in Ef as (nf & Ef & Hnf). pose proof (of_flush_flushed nf Hnf) as Hff.
  exists (new ++ WFlushed (buffer w) :: nf ++ (WAnswered <$> waiters w)).
  split; [rewrite answer_log, Ef, El; by rewrite <- !app_assoc|].
  assert (flushed_in (new ++ WFlushed (buffer w) :: nf) = queue_docs (received es ++ more)) as Hall.
  { rewrite flushed_in_app. change (flushed_in (WFlushed (buffer w) :: nf)) with (buffer w ++ flushed_in nf). by rewrite Hff, app_nil_r. }
  assert (forall l, flushed_in (WAnswered <$> l) = []) as Hw by (induction l as [|y l IH]; [done|exact IH]).
  split; cbn [buffer waiters running]; try done.
  - rewrite app_nil_r, received_snoc, He, app_comm_cons, app_assoc, flushed_in_app, Hw, app_nil_r. exact Hall.
  - change (blen (@nil WorkItem)) with 0. unfold max_docs. lia.
  - rewrite received_snoc, He. destruct Hmore as [[Hn Hq]|(x & Hx & ->)]; [by apply answered_quiet|].
    apply answered_extend; [done|]. rewrite Hx. intros m1 y m2 Em.
    assert (m1 = [] /\ y = x) as [-> ->] by (destruct m1 as [|z m1]; [by injection Em as -> _|injection Em as _ Em; by destruct m1]).
    exists (WFlushed (buffer w) :: nf), []. split; [done|]. rewrite Hall, app_nil_r, queue_docs_app. by apply prefix_app_r.
Qed.

Lemma worker_step_inv parses node cfg es new w e sh w' sh' base : worker_inv cfg es new w -> s_log sh = base ++ new ->
  worker_step parses node cfg w e sh = Some (w', sh') ->
  exists new', s_log sh' = base ++ new' /\ worker_inv cfg (es ++ [e]) new' w'.
Proof.
  intros [Hdocs Hb Hwait Hstop Hans Haged] El E. unfold worker_step in E. destruct (running w) eqn:Erun; [|done]. cbn [negb] in E.
  destruct e as [now [it|x] attempts after|attempts|now q attempts after].
  - set (dl := match buffer w with [] => _ | _ => _ end) in E.
    assert (flushed_in new ++ buffer w ++ [it] = queue_docs (received es ++ [MDoc it])) as Hd.
    { rewrite queue_docs_app, <- Hdocs, <- app_assoc. done. }
    destruct (Z.leb_spec (max_docs cfg) (blen (buffer w ++ [it]))) as [Hfull|Hroom]; cbn [buffer] in E.
    + destruct (Z.leb_spec (max_docs cfg) (blen (buffer w ++ [it]))) as [_|]; [|lia].
      refine (flush_now_inv parses node cfg es new (mkWorker (buffer w ++ [it]) (waiters w) dl (target w) true) attempts after sh w' sh' base (Recv now (MDoc it) attempts after) [MDoc it] _ eq_refl Hd Hans El E).
      left. split; [exact Hwait|reflexivity].
    + destruct (Z.leb_spec (max_docs cfg) (blen (buffer w ++ [it]))) as [|_]; [lia|]. injection E as <- <-.
      exists new. split; [done|]. split; cbn [buffer waiters running]; try done.
      * by rewrite received_snoc.
      * rewrite received_snoc. rewrite <- (app_nil_r new). by apply answered_quiet.
      * intros y rest Ey. cbn [deadline target buffer] in *. unfold dl. destruct (buffer w) as [|z l] eqn:Eb.
        -- injection Ey as -> <-. exists es, now, attempts, after, []. done.
        -- injection Ey as -> <-. destruct (Haged y l Eb) as (pre & n0 & at0 & af0 & post & -> & Hpost & Hdl).
           exists pre, n0, at0, af0, (post ++ [Recv now (MDoc it) attempts after]). split; [by rewrite <- app_assoc|].
           split; [|exact Hdl]. by rewrite received_snoc, queue_docs_app, Hpost.
  - destruct (buffer w) as [|y l] eqn:Eb.
    + injection E as <- <-. exists (new ++ [WAnswered x]). split; [cbn; by rewrite El, <- app_assoc|].
      rewrite app_nil_r in Hdocs. split; try done.
      * rewrite received_snoc, queue_docs_app, <- Hdocs, flushed_in_app, Eb.
        change (flushed_in [WAnswered x]) with (@nil WorkItem). by rewrite !app_nil_r.
      * by rewrite Eb.
      * rewrite received_snoc. apply answered_extend; [done|]. intros m1 z m2 Em.
        assert (m1 = [] /\ z = x) as [-> ->] by (destruct m1 as [|u m1]; [by injection Em as -> _|injection Em as _ Em; by destruct m1]).
        exists [], []. split; [done|]. rewrite !app_nil_r. by rewrite Hdocs.
      * intros z rest Ez. rewrite Eb in Ez. done.
    + refine (flush_now_inv parses node cfg es new (mkWorker (y :: l) (waiters w ++ [x]) (deadline w) (target w) true) attempts after sh w' sh' base (Recv now (MFlush x) attempts after) [MFlush x] _ eq_refl _ Hans El E).
      * right. exists x. cbn [waiters]. by rewrite Hwait.
      * cbn [buffer]. rewrite queue_docs_app, Hdocs. by rewrite app_nil_r.
  - assert (forall b, flushed_in new ++ b = queue_docs (received es) -> received (es ++ [ChannelClosed attempts]) = received es) as Hrec
      by (intros; rewrite received_snoc; by rewrite app_nil_r).
    specialize (Hrec _ Hdocs). destruct (buffer w) as [|y l] eqn:Eb.
    + injection E as <- <-. exists new. split; [done|]. split; cbn [buffer waiters]; rewrite ?Hrec; done.
    + destruct (flush parses node attempts (target w) (y :: l) sh) as [[t sh1]|] eqn:Ef; [|done]. injection E as <- <-.
      apply flush_log in Ef as (nf & Ef & Hnf). exists (new ++ WFlushed (y :: l) :: nf). split; [by rewrite Ef, El, <- app_assoc|].
      split; cbn [buffer waiters]; rewrite ?Hrec; try done.
      * rewrite app_nil_r, flushed_in_app, <- Hdocs. change (flushed_in (WFlushed (y :: l) :: nf)) with ((y :: l) ++ flushed_in nf).
        by rewrite (of_flush_flushed nf Hnf), app_nil_r.
      * change (blen (@nil WorkItem)) with 0. unfold max_docs. lia.
      * rewrite <- (app_nil_r (received es)). by apply answered_quiet.
  - destruct (now <? deadline w); [done|]. destruct (buffer w) as [|y l] eqn:Eb.
    + rewrite app_nil_r in Hdocs. rewrite Hwait in E. cbn [app] in E.
      assert (exists t sh1 nf, s_log sh1 = s_log sh ++ nf /\ flushed_in nf = queue_docs q /\
        Some (mkWorker [] [] (deadline w) t false, note WRetired (answer (queue_waiters q) sh1)) = Some (w', sh')) as (t & sh1 & nf & Ef & Hnf & E1).
      { destruct (queue_docs q) as [|z ds] eqn:Eq.
        - cbn in E. exists (target w), sh, []. split_and!; [by rewrite app_nil_r|done|exact E].
        - destruct (flush parses node attempts (target w) (z :: ds) sh) as [[t sh1]|] eqn:Ef; [|done]. cbn in E.
          apply flush_log in Ef as (nf & Ef & Hnf). exists t, sh1, (WFlushed (z :: ds) :: nf). split_and!; [exact Ef| |exact E].
          change (flushed_in (WFlushed (z :: ds) :: nf)) with ((z :: ds) ++ flushed_in nf). by rewrite (of_flush_flushed nf Hnf), app_nil_r. }
      injection E1 as <- <-. exists (new ++ nf ++ (WAnswered <$> queue_waiters q) ++ [WRetired]).
      assert (forall l, flushed_in (WAnswered <$> l) = []) as Hw by (induction l as [|u l IH]; [done|exact IH]).
      split; [cbn; rewrite answer_log, Ef, El; by rewrite <- !app_assoc|]. split; cbn [buffer waiters running]; try done.
      * rewrite received_snoc, queue_docs_app, <- Hdocs, !flushed_in_app, Hnf, Hw. by rewrite !app_nil_r.
      * rewrite received_snoc. apply answered_extend; [done|]. intros m1 x m2 Em. cbn [wake_msgs] in Em.
        destruct (queue_docs_waiters_split q m1 x m2 Em) as (w1 & w2 & Ew & Hp).
        exists (nf ++ (WAnswered <$> w1)), ((WAnswered <$> w2) ++ [WRetired]). split.
        -- rewrite Ew, fmap_app, fmap_cons. by rewrite <- !app_assoc.
        -- rewrite queue_docs_app, !flushed_in_app, Hnf, Hw, app_nil_r, Hdocs. by apply prefix_app.
    + destruct q; [|done].
      refine (flush_now_inv parses node cfg es new w attempts after sh w' sh' base (Timeout now [] attempts after) [] _ eq_refl _ Hans El E).
      * left. split; [exact Hwait|reflexivity].
      * by rewrite Eb, app_nil_r.
Qed.

Lemma worker_run_inv parses node cfg : forall es es0 new w sh w' sh' base, worker_inv cfg es0 new w -> s_log sh = base ++ new ->
  worker_run parses node cfg w es sh = Some (w', sh') ->
  exists new', s_log sh' = base ++ new' /\ worker_inv cfg (es0 ++ es) new' w'.
Proof.
  induction es as [|e es IH]; intros es0 new w sh w' sh' base I El E; cbn [worker_run] in E.
  - injection E as <- <-. exists new. by rewrite app_nil_r.
  - destruct (worker_step parses node cfg w e sh) as [[w1 sh1]|] eqn:Es; [|done]. cbn in E.
    destruct (worker_step_inv _ _ _ _ _ _ _ _ _ _ _ I El Es) as (new1 & El1 & I1).
    destruct (IH _ _ _ _ _ _ _ I1 El1 E) as (new' & El' & I'). exists new'. by rewrite <- app_assoc in I'.
Qed.

Lemma worker_init_inv cfg now t : worker_inv cfg [] [] (worker_init now t).
Proof.
  split; try done.
  - cbn. unfold max_docs. lia.
  - intros m1 x m2 E. by destruct m1.
Qed.

(** ** Claims: the worker *)

(** [C38] A worker loses no document and holds few: at every point of every run
    the batches it has handed to [flush], then its buffer, are exactly the
    documents received, in order; the buffer is below the batch limit, empty
    once the worker has stopped, and due no later than its oldest document's
    arrival plus the batch age. *)
Theorem worker_keeps_every_document parses node cfg now t es sh w' sh' :
  worker_run parses node cfg (worker_init now t) es sh = Some (w', sh') ->
  exists new, s_log sh' = s_log sh ++ new /\
    flushed_in new ++ buffer w' = queue_docs (received es) /\
    blen (buffer w') < max_docs cfg /\ (running w' = false -> buffer w' = []) /\ aged cfg es w'.
Proof.
  intros E. destruct (worker_run_inv parses node cfg es [] [] _ sh w' sh' (s_log sh) (worker_init_inv cfg now t)
    (eq_sym (app_nil_r _)) E) as (new & El & [Hd Hb _ Hs _ Ha]). by exists new.
Qed.

(** A refresh request is answered only after every document the worker
    received before it has been flushed, and every request is answered, also
    those drained by a worker that retires. *)
Theorem refresh_waits_for_earlier_documents parses node cfg now t es sh w' sh' m1 x m2 :
  worker_run parses node cfg (worker_init now t) es sh = Some (w', sh') ->
  received es = m1 ++ MFlush x :: m2 ->
  exists l1 l2, s_log sh' = s_log sh ++ l1 ++ WAnswered x :: l2 /\ queue_docs m1 `prefix_of` flushed_in l1.
Proof.
  intros E Er. destruct (worker_run_inv parses node cfg es [] [] _ sh w' sh' (s_log sh) (worker_init_inv cfg now t)
    (eq_sym (app_nil_r _)) E) as (new & El & [_ _ _ _ Ha _]). destruct (Ha m1 x m2 Er) as (l1 & l2 & -> & Hp). by exists l1, l2.
Qed.

Definition demo_cfg : PipelineConfig := mkConfig 3 5 1.
Definition demo_wakes : list Wake :=
  [Recv 1 (MDoc (mkWork (str "{}") (str "id-0") 1000 {| segment := 0 |} 2)) [] 1;
   Recv 2 (MDoc (mkWork (str "{}") (str "id-1") 1001 {| segment := 0 |} 2)) [] 2;
   Recv 3 (MFlush 9) demo_publish 4;
   Timeout 700000 [MDoc (mkWork (str "{}") (str "id-2") 1002 {| segment := 0 |} 2)] [demo_attempt d_gone true true] 700001].
Definition demo_worker_run : option (Worker * Shared) :=
  worker_run (fun _ => true) (str "n1") demo_cfg (worker_init 0 two_target) demo_wakes demo_shared.
Definition demo_end : Worker * Shared := default (worker_init 0 two_target, demo_shared) demo_worker_run.
Lemma demo_end_eq : demo_worker_run = Some (demo_end.1, demo_end.2).
Proof.
  assert (bool_decide (is_Some demo_worker_run) = true) as H by (vm_compute; reflexivity). unfold demo_end.
  destruct demo_worker_run as [[w sh]|]; [reflexivity|discriminate H].
Qed.

Lemma worker_keeps_every_document_witness : exists new, s_log demo_end.2 = new /\ length (flushed_in new) = 3%nat.
Proof.
  destruct (worker_keeps_every_document (fun _ => true) (str "n1") demo_cfg 0 two_target demo_wakes demo_shared demo_end.1 demo_end.2 demo_end_eq)
    as (new & El & Hd & _ & Hs & _).
  exists new. split; [exact El|]. rewrite Hs, app_nil_r in Hd; [by rewrite Hd|by vm_compute].
Defined.
Lemma demo_received : received demo_wakes = (MDoc <$> two_buffer) ++ MFlush 9 :: [MDoc (mkWork (str "{}") (str "id-2") 1002 {| segment := 0 |} 2)].
Proof. reflexivity. Qed.
Lemma refresh_waits_for_earlier_documents_witness :
  exists l1 l2, s_log demo_end.2 = l1 ++ WAnswered 9 :: l2 /\ two_buffer `prefix_of` flushed_in l1.
Proof.
  destruct (refresh_waits_for_earlier_documents (fun _ => true) (str "n1") demo_cfg 0 two_target demo_wakes demo_shared demo_end.1 demo_end.2
    (MDoc <$> two_buffer) 9 [MDoc (mkWork (str "{}") (str "id-2") 1002 {| segment := 0 |} 2)] demo_end_eq demo_received) as (l1 & l2 & El & Hp).
  exists l1, l2. split; [exact El|exact Hp].
Defined.
