(* ===== verification/Dynamic.v ===== *)
(** * Unmapped paths of a segment (crates/rsearch-index/src/dynamic_paths.rs)

    The skip-scan of the [_dynamic] term dictionary: one seek per path and
    type probe.  The dictionary itself is the index library's; what the scan
    relies on (a strictly sorted stream of keys, a seek to the keys from a
    bound on) is the class [TermDictLaws]. *)

From Stdlib Require Import ZArith Lia.
From Stdlib Require Import Strings.Byte.
From stdpp Require Import base gmap sets list strings sorting.
From S2P Require Import Prelude.

Local Open Scope Z_scope.

(** ** The index library's side *)

(** [tantivy::schema::Type]: the value types a JSON term can have. *)
Inductive TermType := TStr | TU64 | TI64 | TF64 | TBool | TDate.

Class TermDict (E D : Type) := {
  to_code : TermType -> byte;
  dict_stream : D -> result E (list bytes);
  dict_range_ge : D -> bytes -> result E (list bytes);
}.

(** A dictionary that can be read: its keys are strictly sorted, and a seek
    gives the keys from the bound on. *)
Record dict_reads {E D} `{TermDict E D} (d : D) (keys : list bytes) : Prop := {
  dr_sorted : StronglySorted bytes_lt keys;
  dr_stream : dict_stream d = Ok keys;
  dr_range b : dict_range_ge d b = Ok (filter (fun k => bytes_le b k) keys);
}.

(** ** Definitions *)

Definition JSON_PATH_SEGMENT_SEP : byte := x01.
Definition JSON_END_OF_PATH : byte := x00.

Inductive DynamicType := DString | DLong | DDouble | DBoolean | DDate.
#[export] Instance DynamicType_eq_dec : EqDecision DynamicType.
Proof. solve_decision. Defined.
#[export] Instance DynamicType_countable : Countable DynamicType.
Proof.
  refine (inj_countable'
    (fun t => match t with DString => 0 | DLong => 1 | DDouble => 2 | DBoolean => 3 | DDate => 4 end)%nat
    (fun n => match n with 0 => DString | 1 => DLong | 2 => DDouble | 3 => DBoolean | _ => DDate end)%nat _).
  by intros [].
Defined.

Definition codes (t : DynamicType) : list TermType :=
  match t with
  | DString => [TStr]
  | DLong => [TI64; TU64]
  | DDouble => [TF64]
  | DBoolean => [TBool]
  | DDate => [TDate]
  end.

Definition ALL : list DynamicType := [DString; DLong; DDouble; DBoolean; DDate].

Notation DynamicFields := (gmap bytes (gset DynamicType)).

(** [String::replace('.', "\\.")] of one segment. *)
Definition escape_dots (l : bytes) : bytes :=
  l ≫= fun b => if decide (b = x2e) then [x5c; x2e] else [b].

(** [<[String]>::join(sep)]. *)
Fixpoint join (sep : bytes) (ls : list bytes) : bytes :=
  match ls with
  | [] => []
  | [l] => l
  | l :: ls => l ++ sep ++ join sep ls
  end.

Definition decode_path (l : bytes) : bytes :=
  join [x2e] ((fun s => escape_dots (utf8_lossy s)) <$> split_on JSON_PATH_SEGMENT_SEP l).

Fixpoint position (b : byte) (l : bytes) : option nat :=
  match l with
  | [] => None
  | x :: l => if decide (x = b) then Some 0%nat else S <$> position b l
  end.

Inductive ScanError (E : Type) := DictError (e : E) | MalformedKey (key : bytes).
Arguments DictError {E} _.
Arguments MalformedKey {E} _.

Definition dict_err {E A} (r : result E A) : result (ScanError E) A :=
  match r with Ok a => Ok a | Err e => Err (DictError e) end.

Section scan.
Context {E D : Type} `{TermDict E D}.

(** [paths.entry(path).or_default().insert(ty)]. *)
Definition entry_insert (paths : DynamicFields) (path : bytes) (ty : DynamicType) : DynamicFields :=
  <[path := {[ty]} ∪ default ∅ (paths !! path)]> paths.

(** One code of one type: seek to [path 0 code], does a key start with it? *)
Definition probe_code (d : D) (path : bytes) (code : TermType) : result (ScanError E) bool :=
  let probe := path ++ [JSON_END_OF_PATH; to_code code] in
  ks ← dict_err (dict_range_ge d probe);
  Ok (match ks with k :: _ => starts_with k probe | [] => false end).

(** The inner [for code in ty.codes()] with its [break] at the first hit. *)
Fixpoint probe_type (d : D) (path : bytes) (ty : DynamicType) (cs : list TermType)
    (paths : DynamicFields) : result (ScanError E) DynamicFields :=
  match cs with
  | [] => Ok paths
  | c :: cs =>
      hit ← probe_code d path c;
      if hit : bool then Ok (entry_insert paths (decode_path path) ty)
      else probe_type d path ty cs paths
  end.

Fixpoint probe_types (d : D) (path : bytes) (tys : list DynamicType)
    (paths : DynamicFields) : result (ScanError E) DynamicFields :=
  match tys with
  | [] => Ok paths
  | ty :: tys => paths ← probe_type d path ty (codes ty) paths; probe_types d path tys paths
  end.

(** The [loop] over the paths of one segment; [None] when the fuel is spent. *)
Fixpoint scan_segment (fuel : nat) (d : D) (bound : option bytes)
    (paths : DynamicFields) : option (result (ScanError E) DynamicFields) :=
  match fuel with
  | O => None
  | S fuel =>
      match dict_err (match bound with None => dict_stream d | Some b => dict_range_ge d b end) with
      | Err e => Some (Err e)
      | Ok [] => Some (Ok paths)
      | Ok (key :: _) =>
          match position JSON_END_OF_PATH key with
          | None => Some (Err (MalformedKey key))
          | Some end_ =>
              let path := take end_ key in
              match probe_types d path ALL paths with
              | Err e => Some (Err e)
              | Ok paths => scan_segment fuel d (Some (path ++ [JSON_PATH_SEGMENT_SEP])) paths
              end
          end
      end
  end.

(** [dynamic_field_types]: the segments in turn, one map. *)
Fixpoint dynamic_field_types (fuel : nat) (segments : list D)
    (paths : DynamicFields) : option (result (ScanError E) DynamicFields) :=
  match segments with
  | [] => Some (Ok paths)
  | d :: segments =>
      match scan_segment fuel d None paths with
      | Some (Ok paths) => dynamic_field_types fuel segments paths
      | r => r
      end
  end.

End scan.

(** [string_paths]: the map's keys in order, those holding a string. *)
Definition string_paths (fields : DynamicFields) : list bytes :=
  merge_sort bytes_le (filter (fun p => DString ∈ default ∅ (fields !! p)) (elements (dom fields))).

(** [dynamic_string_paths]. *)
Definition dynamic_string_paths {E D} `{TermDict E D} (fuel : nat) (segs : list D)
    : option (result (ScanError E) (list bytes)) :=
  r ← dynamic_field_types fuel segs ∅;
  Some (match r with Ok m => Ok (string_paths m) | Err e => Err e end).

(** *** The reference: walk every term *)

(** [key] is a term of [path] with a value of dynamic type [ty]. *)
Definition term_of {E D} `{TermDict E D} (path : bytes) (ty : DynamicType) (key : bytes) : Prop :=
  exists c v, c ∈ codes ty /\ key = path ++ JSON_END_OF_PATH :: to_code c :: v.

Definition seen_type {E D} `{TermDict E D} (keys : list bytes) (path : bytes) (ty : DynamicType) : Prop :=
  exists key, key ∈ keys /\ term_of path ty key.

(** ** Lemmas: keys and paths *)

Lemma position_Some b l n : position b l = Some n ->
  l = take n l ++ b :: drop (S n) l /\ b ∉ take n l.
Proof.
  revert n. induction l as [|x l IH]; intros n; simpl; [done|]. case_decide as Hx.
  - intros [= <-]. subst. split; [done|]. apply not_elem_of_nil.
  - destruct (position b l) as [m|]; simpl; [|done]. intros [= <-]. destruct (IH m eq_refl) as [E Hn].
    simpl. split; [by f_equal|]. rewrite elem_of_cons. naive_solver.
Qed.

Lemma position_app b p v : b ∉ p -> position b (p ++ b :: v) = Some (length p).
Proof.
  induction p as [|x p IH]; simpl; intros Hn.
  - by rewrite decide_True.
  - rewrite not_elem_of_cons in Hn. rewrite decide_False by naive_solver. rewrite IH; naive_solver.
Qed.

(** The path of a well-formed key. *)
Definition path_of (k : bytes) : bytes :=
  match position JSON_END_OF_PATH k with Some n => take n k | None => k end.
Definition key_wf (k : bytes) : Prop := is_Some (position JSON_END_OF_PATH k).

Lemma key_wf_split k : key_wf k ->
  exists v, k = path_of k ++ JSON_END_OF_PATH :: v /\ JSON_END_OF_PATH ∉ path_of k.
Proof.
  intros [n E]. unfold path_of. rewrite E. apply position_Some in E as [E Hn]. by eexists.
Qed.

Lemma path_of_app p v : JSON_END_OF_PATH ∉ p -> path_of (p ++ JSON_END_OF_PATH :: v) = p.
Proof. intros Hn. unfold path_of. rewrite position_app by done. by rewrite take_app_length. Qed.

Lemma key_below_bound p v : bytes_lt (p ++ JSON_END_OF_PATH :: v) (p ++ [JSON_PATH_SEGMENT_SEP]).
Proof. unfold bytes_lt. by rewrite bytes_compare_app. Qed.

(** What lies between a key of a path and the next bound is a key of that path. *)
Lemma same_path p v x : JSON_END_OF_PATH ∉ p ->
  bytes_le (p ++ JSON_END_OF_PATH :: v) x -> ~ bytes_le (p ++ [JSON_PATH_SEGMENT_SEP]) x ->
  key_wf x /\ path_of x = p.
Proof.
  intros Hp Hlo Hhi. apply bytes_lt_le in Hhi.
  destruct (bytes_between p [JSON_PATH_SEGMENT_SEP] x) as [s ->].
  - etrans; [apply bytes_le_app|exact Hlo].
  - apply bytes_le_lteq. by left.
  - unfold bytes_le, bytes_lt in *. rewrite bytes_compare_app in Hlo, Hhi.
    destruct s as [|y s]; [by destruct Hlo|].
    assert (y = JSON_END_OF_PATH) as ->.
    { apply bz_inj. cbn [bytes_compare] in Hhi. change (bz JSON_END_OF_PATH) with 0.
      pose proof (bz_range y) as Hy. change (bz JSON_PATH_SEGMENT_SEP) with 1 in Hhi.
      destruct (Z.compare_spec (bz y) 1); [destruct s; discriminate Hhi|lia|discriminate Hhi]. }
    split; [|by apply path_of_app]. unfold key_wf. rewrite position_app by done. by eexists.
Qed.

Section seek.
Context (keys : list bytes) (Hs : StronglySorted bytes_lt keys).

Lemma seek_least b k ks : filter (fun k => bytes_le b k) keys = k :: ks ->
  k ∈ keys /\ bytes_le b k /\ (forall x, x ∈ keys -> bytes_le b x -> bytes_le k x).
Proof.
  intros E. assert (k ∈ filter (fun k => bytes_le b k) keys) as Hk by (rewrite E; left).
  apply list_elem_of_filter in Hk as [Hb Hk]. split; [done|]. split; [done|]. intros x Hx Hbx.
  assert (x ∈ k :: ks) as Hin by (rewrite <- E; by apply list_elem_of_filter).
  assert (StronglySorted bytes_lt (filter (fun k => bytes_le b k) keys)) as Hs'
    by (by apply filter_sorted).
  rewrite E in Hs'. apply StronglySorted_inv in Hs' as [_ Hs'].
  apply elem_of_cons in Hin as [->|Hin]; [done|]. apply bytes_le_lteq. left.
  by eapply (proj1 (Forall_forall _ _)) in Hs'.
Qed.

(** A seek to a prefix finds an extension of it exactly when there is one. *)
Lemma seek_prefix p :
  match filter (fun k => bytes_le p k) keys with k :: _ => starts_with k p | [] => false end = true
  <-> exists v, p ++ v ∈ keys.
Proof.
  destruct (filter (fun k => bytes_le p k) keys) as [|k ks] eqn:E.
  - split; [done|]. intros [v Hv].
    assert (p ++ v ∈ filter (fun k => bytes_le p k) keys) as Hin
      by (apply list_elem_of_filter; split; [apply bytes_le_app|done]).
    rewrite E in Hin. by apply not_elem_of_nil in Hin.
  - destruct (seek_least p k ks E) as (Hk & Hpk & Hleast). rewrite starts_with_spec. split.
    + intros [v ->]. by exists v.
    + intros [v Hv]. apply (bytes_between p v); [done|]. apply Hleast; [done|]. apply bytes_le_app.
Qed.

(** The keys still ahead of a bound shrink with every path. *)
Lemma seek_shrinks b k ks p v : filter (fun k => bytes_le b k) keys = k :: ks ->
  k = p ++ JSON_END_OF_PATH :: v ->
  (length (filter (fun k => bytes_le (p ++ [JSON_PATH_SEGMENT_SEP]) k) keys) <= length ks)%nat.
Proof.
  intros E ->. set (nb := p ++ [JSON_PATH_SEGMENT_SEP]).
  assert (filter (fun k => bytes_le nb k) keys = filter (fun k => bytes_le nb k) (filter (fun k => bytes_le b k) keys)) as ->.
  { destruct (seek_least _ _ _ E) as (_ & Hb & _). rewrite list_filter_filter.
    apply list_filter_iff. intros x. split; [|tauto]. intros Hx. split; [done|].
    etrans; [exact Hb|]. etrans; [|exact Hx]. apply bytes_le_lteq. left. apply key_below_bound. }
  rewrite E, filter_cons_False; [apply length_filter|].
  apply bytes_lt_le, key_below_bound.
Qed.

End seek.

(** ** Lemmas: the probes *)

Section probes.
Context {Fault D : Type} `{TermDict Fault D} (d : D) (keys : list bytes) (Hd : dict_reads d keys).

Lemma probe_code_spec path c :
  exists b : bool, probe_code d path c = Ok b /\
    (b = true <-> exists v, path ++ JSON_END_OF_PATH :: to_code c :: v ∈ keys).
Proof.
  unfold probe_code. rewrite (dr_range _ _ Hd). simpl. eexists. split; [reflexivity|].
  rewrite (seek_prefix keys (dr_sorted _ _ Hd)). by setoid_rewrite <- (assoc_L (++)).
Qed.

Lemma elem_of_entry_insert paths path ty s t :
  t ∈ default ∅ (entry_insert paths path ty !! s) <->
  t ∈ default ∅ (paths !! s) \/ (s = path /\ t = ty).
Proof.
  unfold entry_insert. destruct (decide (s = path)) as [->|Hne].
  - rewrite lookup_insert_eq. simpl. set_solver.
  - rewrite lookup_insert_ne by done. naive_solver.
Qed.

Definition no_empty (m : DynamicFields) : Prop := map_Forall (fun _ ts => ts <> ∅) m.

Lemma no_empty_insert paths path ty : no_empty paths -> no_empty (entry_insert paths path ty).
Proof. intros Hp. apply map_Forall_insert_2; [set_solver|done]. Qed.

Lemma probe_type_spec path ty cs paths : no_empty paths ->
  exists paths', probe_type d path ty cs paths = Ok paths' /\ no_empty paths' /\
    forall s t, t ∈ default ∅ (paths' !! s) <->
      t ∈ default ∅ (paths !! s) \/
      (s = decode_path path /\ t = ty /\
       exists c v, c ∈ cs /\ path ++ JSON_END_OF_PATH :: to_code c :: v ∈ keys).
Proof.
  intros Hne. induction cs as [|c cs IH]; simpl.
  - exists paths. split; [done|]. split; [done|]. intros s t. set_solver.
  - destruct (probe_code_spec path c) as ([|] & -> & Hb); simpl.
    + eexists. split; [reflexivity|]. split; [by apply no_empty_insert|].
      intros s t. rewrite elem_of_entry_insert. destruct (proj1 Hb eq_refl) as [v Hv]. split.
      * intros [?|[-> ->]]; [by left|right]. split; [done|]. split; [done|]. exists c, v. split; [left|done].
      * intros [?|(-> & -> & _)]; [by left|by right].
    + destruct IH as (paths' & -> & Hne' & Hp). exists paths'. split; [done|]. split; [done|]. intros s t. rewrite Hp.
      apply or_iff_compat_l. split.
      * intros (-> & -> & c' & v & Hc & Hv). split; [done|]. split; [done|]. exists c', v. split; [by right|done].
      * intros (-> & -> & c' & v & Hc & Hv). split; [done|]. split; [done|]. exists c', v. split; [|done].
        apply elem_of_cons in Hc as [->|Hc]; [|done]. exfalso. assert (false = true); [|done]. apply Hb. by exists v.
Qed.

Lemma probe_types_spec path tys paths : no_empty paths ->
  exists paths', probe_types d path tys paths = Ok paths' /\ no_empty paths' /\
    forall s t, t ∈ default ∅ (paths' !! s) <->
      t ∈ default ∅ (paths !! s) \/ (s = decode_path path /\ t ∈ tys /\ seen_type keys path t).
Proof.
  revert paths. induction tys as [|ty tys IH]; intros paths Hne; simpl.
  - exists paths. split; [done|]. split; [done|]. set_solver.
  - destruct (probe_type_spec path ty (codes ty) paths Hne) as (p1 & -> & Hne1 & H1). simpl.
    destruct (IH p1 Hne1) as (p2 & -> & Hne2 & H2). exists p2. split; [done|]. split; [done|]. intros s t.
    rewrite H2, H1, elem_of_cons. unfold seen_type, term_of. split.
    + intros [[?|(-> & -> & c & v & Hc & Hv)]|(-> & Ht & Hs)]; [by left| |by right; eauto].
      right. split; [done|]. split; [by left|]. eauto 10.
    + intros [?|(-> & [->|Ht] & k & Hk & c & v & Hc & ->)]; [by left; left| |].
      * left. right. eauto 10.
      * right. eauto 10.
Qed.

Lemma in_ALL t : t ∈ ALL.
Proof. destruct t; unfold ALL; set_solver. Qed.

(** ** The scan of one segment *)

(** The keys ahead of a bound. *)
Definition ahead (bound : option bytes) : list bytes :=
  match bound with None => keys | Some b => filter (fun k => bytes_le b k) keys end.

Lemma ahead_stream bound :
  dict_err (match bound with None => dict_stream d | Some b => dict_range_ge d b end) = Ok (ahead bound).
Proof. destruct bound; simpl; [by rewrite (dr_range _ _ Hd)|by rewrite (dr_stream _ _ Hd)]. Qed.

Lemma ahead_filter bound : exists b, ahead bound = filter (fun k => bytes_le b k) keys.
Proof.
  destruct bound as [b|]; [by exists b|]. exists []. simpl. symmetry. apply filter_every.
  apply Forall_forall. intros x _. apply (bytes_le_app [] x).
Qed.

Lemma ahead_next bound k ks : ahead bound = k :: ks -> key_wf k ->
  let next := Some (path_of k ++ [JSON_PATH_SEGMENT_SEP]) in
  (length (ahead next) <= length ks)%nat /\
  (forall x, x ∈ ahead next -> x ∈ ahead bound) /\
  (forall x, x ∈ ahead bound -> x ∈ ahead next \/ (key_wf x /\ path_of x = path_of k)).
Proof.
  intros E Hk. destruct (ahead_filter bound) as [b Eb]. rewrite Eb in *.
  destruct (key_wf_split k Hk) as (v & Ek & Hn).
  destruct (seek_least keys (dr_sorted _ _ Hd) _ _ _ E) as (Hin & Hb & Hleast). simpl. split; [|split].
  - by eapply seek_shrinks; [apply (dr_sorted _ _ Hd)| |].
  - intros x [Hx Hxk]%list_elem_of_filter. apply list_elem_of_filter. split; [|done].
    etrans; [exact Hb|]. etrans; [|exact Hx]. rewrite Ek at 1. apply bytes_le_lteq. left. apply key_below_bound.
  - intros x [Hx Hxk]%list_elem_of_filter.
    destruct (decide (bytes_le (path_of k ++ [JSON_PATH_SEGMENT_SEP]) x)) as [Hge|Hlt].
    + left. by apply list_elem_of_filter.
    + right. apply (same_path _ v); [done| |done]. rewrite <- Ek. by apply Hleast.
Qed.

Lemma scan_segment_spec fuel bound paths : no_empty paths ->
  (length (ahead bound) < fuel)%nat ->
  match scan_segment fuel d bound paths with
  | Some (Ok m) => Forall key_wf (ahead bound) /\ no_empty m /\
      forall s t, t ∈ default ∅ (m !! s) <->
        t ∈ default ∅ (paths !! s) \/
        exists k, k ∈ ahead bound /\ s = decode_path (path_of k) /\ seen_type keys (path_of k) t
  | Some (Err (MalformedKey k)) => k ∈ ahead bound /\ ~ key_wf k
  | _ => False
  end.
Proof.
  revert bound paths. induction fuel as [|fuel IH]; intros bound paths Hne Hf; [lia|]. cbn [scan_segment].
  rewrite ahead_stream. destruct (ahead bound) as [|k ks] eqn:E.
  { split; [constructor|]. split; [done|]. set_solver. }
  destruct (position JSON_END_OF_PATH k) as [n|] eqn:En.
  2:{ split; [left|]. unfold key_wf. rewrite En. by intros [? ?]. }
  assert (key_wf k) as Hk by (by exists n).
  assert (take n k = path_of k) as -> by (unfold path_of; by rewrite En).
  destruct (ahead_next bound k ks E Hk) as (Hlen & Hsub & Hcov). rewrite E in *.
  destruct (probe_types_spec (path_of k) ALL paths Hne) as (p1 & -> & Hne1 & H1).
  assert (length ks < fuel)%nat as Hlt by (simpl in Hf; lia).
  specialize (IH _ p1 Hne1 (Nat.le_lt_trans _ _ _ Hlen Hlt)).
  destruct (scan_segment fuel d _ p1) as [[m|[e|k']]|] eqn:Er; try done.
  2:{ destruct IH as [Hin Hw]. split; [by apply Hsub|done]. }
  destruct IH as (Hw & Hnem & Hm). split; [|split; [done|]].
  - apply Forall_forall. intros x Hx. destruct (Hcov x Hx) as [Ha|[? ?]]; [|done].
    by eapply (proj1 (Forall_forall _ _)) in Hw.
  - intros s t. rewrite Hm, H1. split.
    + intros [[?|(-> & _ & Hs)]|(x & Hx & -> & Hs)]; [by left| |].
      * right. exists k. split; [left|done].
      * right. exists x. split; [by apply Hsub|done].
    + intros [?|(x & Hx & -> & Hs)]; [by left; left|].
      destruct (Hcov x Hx) as [Ha|[_ Ep]]; [right; by exists x|].
      left. right. rewrite <- Ep. split; [done|]. split; [apply in_ALL|done].
Qed.

End probes.

(** ** Properties *)

Section segments.
Context {Fault D : Type} `{TermDict Fault D}.

(** What the walk of every term of every segment sees at a reported path. *)
Definition walked (kss : list (list bytes)) (s : bytes) (t : DynamicType) : Prop :=
  exists ks path, ks ∈ kss /\ JSON_END_OF_PATH ∉ path /\ s = decode_path path /\ seen_type ks path t.

Lemma seen_path_of ks path t : JSON_END_OF_PATH ∉ path -> seen_type ks path t ->
  exists k, k ∈ ks /\ path_of k = path.
Proof. intros Hp (k & Hk & c & v & _ & ->). eexists. split; [exact Hk|]. by apply path_of_app. Qed.

Lemma segments_spec fuel segs kss paths : no_empty paths ->
  Forall2 dict_reads segs kss -> Forall (fun ks => (length ks < fuel)%nat) kss ->
  match dynamic_field_types fuel segs paths with
  | Some (Ok m) => Forall (Forall key_wf) kss /\ no_empty m /\
      forall s t, t ∈ default ∅ (m !! s) <-> t ∈ default ∅ (paths !! s) \/ walked kss s t
  | Some (Err (MalformedKey k)) => exists ks, ks ∈ kss /\ k ∈ ks /\ ~ key_wf k
  | _ => False
  end.
Proof.
  intros Hne Hr. revert paths Hne. induction Hr as [|d ks segs kss Hd Hr IH]; intros paths Hne Hf; simpl.
  { split; [constructor|]. split; [done|]. intros s t. unfold walked. set_solver. }
  apply Forall_cons in Hf as [Hf0 Hf].
  pose proof (scan_segment_spec d ks Hd fuel None paths Hne Hf0) as Hseg.
  destruct (scan_segment fuel d None paths) as [[m|[e|k]]|]; try done.
  2:{ destruct Hseg as [? ?]. exists ks. split; [left|done]. }
  destruct Hseg as (Hw & Hnem & Hm). specialize (IH m Hnem Hf).
  destruct (dynamic_field_types fuel segs m) as [[m'|[e|k]]|]; try done.
  2:{ destruct IH as (ks' & ? & ?). exists ks'. split; [by right|done]. }
  destruct IH as (Hws & Hnem' & Hm'). split; [by constructor|]. split; [done|]. intros s t. rewrite Hm', Hm. split.
  - intros [[?|(k & Hk & -> & Hs)]|(ks' & p & ? & ? & ? & ?)]; [by left| |].
    + right. exists ks, (path_of k). split; [left|]. simpl in Hk. eapply (proj1 (Forall_forall _ _)) in Hk as Hkw; [|exact Hw].
      destruct (key_wf_split k Hkw) as (v & _ & ?). done.
    + right. exists ks', p. split; [by right|done].
  - intros [?|(ks' & p & Hin & Hp & -> & Hs)]; [by left; left|].
    apply elem_of_cons in Hin as [->|Hin].
    + left. right. destruct (seen_path_of ks p t Hp Hs) as (k & Hk & <-). by exists k.
    + right. by exists ks', p.
Qed.

(** [C35] The skip-scan is the full walk: on readable dictionaries, with fuel
    beyond the number of keys of each, [dynamic_field_types] always returns.
    It fails only on a term key without an end-of-path byte; otherwise a type
    is reported under a path exactly when some term of some segment has that
    path and a value of that type, and no path is reported without a type. *)
Theorem skip_scan_is_full_walk fuel segs kss :
  Forall2 dict_reads segs kss -> Forall (fun ks => (length ks < fuel)%nat) kss ->
  match dynamic_field_types fuel segs ∅ with
  | Some (Ok m) => Forall (Forall key_wf) kss /\
      (forall s t, t ∈ default ∅ (m !! s) <-> walked kss s t) /\
      (forall s, is_Some (m !! s) <-> exists t, walked kss s t)
  | Some (Err (MalformedKey k)) => exists ks, ks ∈ kss /\ k ∈ ks /\ ~ key_wf k
  | _ => False
  end.
Proof.
  intros Hr Hf. pose proof (segments_spec fuel segs kss ∅ (map_Forall_empty _) Hr Hf) as Hsp.
  destruct (dynamic_field_types fuel segs ∅) as [[m|]|]; try done.
  destruct Hsp as (Hw & Hne & Hm). split; [done|].
  assert (forall s t, t ∈ default ∅ (m !! s) <-> walked kss s t) as Hm'.
  { intros s t. rewrite Hm, lookup_empty. simpl. set_solver. }
  split; [exact Hm'|]. intros s. split.
  - intros [ts E]. destruct (set_choose_L ts (Hne s ts E)) as [t Ht]. exists t. apply Hm'. by rewrite E.
  - intros [t Ht%Hm']. destruct (m !! s); [done|]. simpl in Ht. set_solver.
Qed.

Lemma elem_of_string_paths (m : DynamicFields) p :
  p ∈ string_paths m <-> DString ∈ default ∅ (m !! p).
Proof.
  unfold string_paths. rewrite merge_sort_Permutation, list_elem_of_filter, elem_of_elements, elem_of_dom.
  split; [tauto|]. intros Hp. split; [done|]. destruct (m !! p); [done|]. simpl in Hp. set_solver.
Qed.

Lemma string_paths_sorted (m : DynamicFields) : StronglySorted bytes_lt (string_paths m).
Proof.
  unfold string_paths. set (l := filter _ _).
  assert (NoDup (merge_sort bytes_le l)) as Hnd.
  { rewrite merge_sort_Permutation. apply NoDup_filter, NoDup_elements. }
  assert (StronglySorted bytes_le (merge_sort bytes_le l)) as Hs by (apply StronglySorted_merge_sort; apply _).
  revert Hnd Hs. generalize (merge_sort bytes_le l) as k. induction k as [|x k IH]; intros Hnd Hs; [constructor|].
  apply NoDup_cons in Hnd as [Hx Hnd]. apply StronglySorted_inv in Hs as [Hs Hle].
  constructor; [by apply IH|]. rewrite Forall_forall in Hle |- *. intros y Hy.
  destruct (proj1 (bytes_le_lteq x y) (Hle y Hy)) as [?|<-]; [done|]. done.
Qed.

(** The paths a bare query string fans out to are strictly sorted, without
    repetition, and are exactly those under which some segment holds a string
    term. *)
Theorem string_paths_exact fuel segs kss ps :
  Forall2 dict_reads segs kss -> Forall (fun ks => (length ks < fuel)%nat) kss ->
  dynamic_string_paths fuel segs = Some (Ok ps) ->
  StronglySorted bytes_lt ps /\ forall p, p ∈ ps <-> walked kss p DString.
Proof.
  intros Hr Hf E. unfold dynamic_string_paths in E.
  pose proof (segments_spec fuel segs kss ∅ (map_Forall_empty _) Hr Hf) as Hsp.
  destruct (dynamic_field_types fuel segs ∅) as [[m|]|]; simplify_eq/=.
  split; [apply string_paths_sorted|]. intros p. destruct Hsp as (_ & _ & Hm).
  rewrite elem_of_string_paths, Hm, lookup_empty. simpl. set_solver.
Qed.

End segments.

(** ** Concrete inputs *)

(** Dictionaries as sorted lists of keys, and type codes of their own. *)
#[local] Instance list_dict : TermDict unit (list bytes) := {
  to_code t := match t with TStr => b8 115 | TU64 => b8 117 | TI64 => b8 105 | TF64 => b8 102 | TBool => b8 98 | TDate => b8 100 end;
  dict_stream d := Ok d;
  dict_range_ge d b := Ok (filter (fun k => bytes_le b k) d);
}.

Definition demo_keys : list bytes :=
  [ str "count" ++ [x00] ++ str "i7";
    str "ctx" ++ [x01] ++ str "job" ++ [x00] ++ str "sclean";
    str "level" ++ [x00] ++ str "i3";
    str "level" ++ [x00] ++ str "sinfo";
    str "level" ++ [x00] ++ str "swarn";
    str "log.level" ++ [x00] ++ str "swarn" ].

Lemma demo_keys_read : dict_reads demo_keys demo_keys.
Proof.
  split; [|reflexivity|reflexivity]. unfold demo_keys.
  repeat (apply SSorted_cons; [|repeat (apply List.Forall_cons; [vm_compute; reflexivity|]); apply List.Forall_nil]).
  apply SSorted_nil.
Qed.

Example demo_scan :
  dynamic_string_paths 7 [demo_keys] = Some (Ok [str "ctx.job"; str "level"; str "log\.level"]).
Proof. vm_compute. reflexivity. Qed.

Definition reports (r : option (result (ScanError unit) DynamicFields)) (p : bytes) (ts : gset DynamicType) : bool :=
  match r with Some (Ok m) => bool_decide (m !! p = Some ts) | _ => false end.

Example demo_reports : reports (dynamic_field_types 7 [demo_keys] ∅) (str "level") {[DString; DLong]} = true.
Proof. vm_compute. reflexivity. Qed.

Lemma skip_scan_is_full_walk_witness :
  reports (dynamic_field_types 7 [demo_keys] ∅) (str "level") {[DString; DLong]} = true /\
  walked [demo_keys] (str "level") DLong.
Proof.
  split; [exact demo_reports|]. pose proof demo_reports as Hr.
  pose proof (skip_scan_is_full_walk 7 [demo_keys] [demo_keys]
    ltac:(repeat constructor; apply demo_keys_read) ltac:(repeat constructor)) as Hsp.
  revert Hsp Hr. generalize (dynamic_field_types 7 [demo_keys] ∅) as r. intros [[m|e]|]; [|discriminate 2..].
  intros (_ & Hm & _) Hr. apply bool_decide_eq_true in Hr. apply Hm. rewrite Hr. simpl. set_solver.
Defined.

Lemma string_paths_exact_witness :
  exists ps, dynamic_string_paths 7 [demo_keys] = Some (Ok ps) /\
    (forall p, p ∈ ps <-> walked [demo_keys] p DString).
Proof.
  exists [str "ctx.job"; str "level"; str "log\.level"]. split; [apply demo_scan|].
  apply (string_paths_exact 7 [demo_keys] [demo_keys]);
    [repeat constructor; apply demo_keys_read|repeat constructor|apply demo_scan].
Defined.

(** A backslash is not escaped: the nested path [a\ / b] and the key [a.b] are
    reported under one name. *)
Example decode_path_ambiguous :
  decode_path (str "a\" ++ [JSON_PATH_SEGMENT_SEP] ++ str "b") = decode_path (str "a.b").
Proof. vm_compute. reflexivity. Qed.
