(* ===== verification/Storage.v ===== *)
(** * Object storage of one node (crates/rsearch-storage/src/{fs,peer}.rs,
    the peer endpoints' range parsing of crates/rsearch-server/src/internal_api.rs)

    [FsStorage]: objects are files under a root; a write publishes a temp file
    by rename.  A write is a list of file-system steps, so that what a reader
    or a crash sees in the middle of one can be stated.  [Reader] is what the
    split reader needs of any backend. *)

From Stdlib Require Import ZArith Lia.
From Stdlib Require Import Strings.Byte.
From stdpp Require Import base gmap sets list strings sorting.
From S2P Require Import Prelude.

Local Open Scope Z_scope.

(** ** Data *)

Inductive StorageError :=
| NotFound (key : bytes)
| InvalidKey (key : bytes)
| IoError (key : bytes)
| Backend (key : bytes).

Notation StorageResult := (result StorageError).

Record FsFile := { ff_data : bytes; ff_mtime : Z }.

(** The object root: its regular files by path relative to the root, and the
    paths whose existing target resolves outside it (a planted symbolic link).
    Keys do not name directories. *)
Record FsState := mkFs { fs_files : gmap bytes FsFile; fs_escapes : gset bytes }.

Definition with_files (f : gmap bytes FsFile -> gmap bytes FsFile) (st : FsState) : FsState :=
  mkFs (f (fs_files st)) (fs_escapes st).

Definition object (st : FsState) (key : bytes) : option bytes := ff_data <$> fs_files st !! key.

(** ** Keys and paths *)

Definition slash : byte := x2f.

Definition bad_part (part : bytes) : bool :=
  bool_decide (part = []) || bool_decide (part = str ".") || bool_decide (part = str "..") ||
  contains part (str "\").

Definition key_ok (key : bytes) : bool :=
  negb (bool_decide (key = []) || starts_with key [slash] ||
        existsb bad_part (split_on slash key)).

(** [FsStorage::resolve]: the path is the key, under the root. *)
Definition resolve (st : FsState) (key : bytes) : StorageResult bytes :=
  if negb (key_ok key) then Err (InvalidKey key)
  else if bool_decide (key ∈ dom (fs_files st)) && bool_decide (key ∈ fs_escapes st)
  then Err (InvalidKey key)
  else Ok key.

(** [Path::file_stem] of a file name. *)
Definition file_stem (name : bytes) : bytes :=
  match rsplit_once x2e name with
  | Some ([], _) | None => name
  | Some (stem, _) => stem
  end.

(** [Path::with_extension] of a path with a file name. *)
Definition with_extension (path ext : bytes) : bytes :=
  match rsplit_once slash path with
  | Some (dir, name) => dir ++ slash :: file_stem name ++ x2e :: ext
  | None => file_stem path ++ x2e :: ext
  end.

(** [unique_tmp]; [put_stream] has its own counter and prefix. *)
Definition unique_tmp (path : bytes) (pid seq : Z) : bytes :=
  with_extension path (str "tmp-" ++ dec pid ++ str "-" ++ dec seq).
Definition recv_tmp (path : bytes) (pid seq : Z) : bytes :=
  with_extension path (str "tmp-recv-" ++ dec pid ++ str "-" ++ dec seq).

(** ** Writing *)

(** The file-system calls a write makes.  [FsCreate] truncates; [FsLink]
    puts a whole file at the temp path. *)
Inductive FsCall :=
| FsCreate (tmp : bytes)
| FsWrite (tmp chunk : bytes)
| FsLink (tmp data : bytes) (mtime : Z)
| FsSync (tmp : bytes)
| FsRename (tmp path : bytes).

Definition fs_call (now : Z) (c : FsCall) (m : gmap bytes FsFile) : gmap bytes FsFile :=
  match c with
  | FsCreate tmp => <[tmp := {| ff_data := []; ff_mtime := now |}]> m
  | FsWrite tmp chunk =>
      match m !! tmp with
      | Some f => <[tmp := {| ff_data := ff_data f ++ chunk; ff_mtime := now |}]> m
      | None => m
      end
  | FsLink tmp data mtime => <[tmp := {| ff_data := data; ff_mtime := mtime |}]> m
  | FsSync _ => m
  | FsRename tmp path =>
      match m !! tmp with Some f => <[path := f]> (delete tmp m) | None => m end
  end.

Definition fs_calls (now : Z) (cs : list FsCall) (m : gmap bytes FsFile) : gmap bytes FsFile :=
  foldl (fun m c => fs_call now c m) m cs.

(** How a write goes: every call succeeds; the call at an index fails; only
    the parent directory's fsync after the rename fails. *)
Inductive WriteIo := WriteOk | WriteFailsAt (n : nat) | ParentSyncFails.
#[export] Instance WriteIo_eq_dec : EqDecision WriteIo.
Proof. solve_decision. Defined.

(** The calls run until one fails; on failure the temp file is removed. *)
Definition publish (key path tmp : bytes) (cs : list FsCall) (io : WriteIo) (now : Z) (st : FsState)
    : StorageResult unit * FsState :=
  match io with
  | WriteOk => (Ok tt, with_files (fs_calls now cs) st)
  | ParentSyncFails => (Err (IoError key), with_files (fs_calls now cs) st)
  | WriteFailsAt n => (Err (IoError key), with_files (fun m => delete tmp (fs_calls now (take n cs) m)) st)
  end.

(** [write_atomic] ([put]): the data may reach the file in several writes. *)
Definition write_atomic_calls (tmp path : bytes) (chunks : list bytes) : list FsCall :=
  FsCreate tmp :: (FsWrite tmp <$> chunks) ++ [FsSync tmp; FsRename tmp path].

Definition write_atomic (key : bytes) (chunks : list bytes) (pid seq : Z) (io : WriteIo) (now : Z)
    (st : FsState) : StorageResult unit * FsState :=
  match resolve st key with
  | Err e => (Err e, st)
  | Ok path =>
      let tmp := unique_tmp path pid seq in
      publish key path tmp (write_atomic_calls tmp path chunks) io now st
  end.

(** [put_file]: hard link (or copy) of the staging file, fsync, rename.  A
    link keeps the staging file's modification time, a copy has a new one. *)
Definition put_file_calls (tmp path data : bytes) (mtime : Z) : list FsCall :=
  [FsLink tmp data mtime; FsSync tmp; FsRename tmp path].

Definition put_file (key data : bytes) (mtime pid seq : Z) (io : WriteIo) (now : Z)
    (st : FsState) : StorageResult unit * FsState :=
  match resolve st key with
  | Err e => (Err e, st)
  | Ok path =>
      let tmp := unique_tmp path pid seq in
      publish key path tmp (put_file_calls tmp path data mtime) io now st
  end.

(** [put_stream] with [write_stream_to]: chunks of a transfer, the last of
    which may be the transfer's failure ([None]).  The rename is outside the
    cleaned-up part: when it fails the temp file stays. *)
Fixpoint stream_chunks (chunks : list (option bytes)) : list bytes * bool :=
  match chunks with
  | [] => ([], true)
  | None :: _ => ([], false)
  | Some c :: chunks => let '(cs, whole) := stream_chunks chunks in (c :: cs, whole)
  end.

Definition put_stream (key : bytes) (chunks : list (option bytes)) (pid seq : Z) (io : WriteIo) (now : Z)
    (st : FsState) : StorageResult Z * FsState :=
  match resolve st key with
  | Err e => (Err e, st)
  | Ok path =>
      let tmp := recv_tmp path pid seq in
      let '(cs, whole) := stream_chunks chunks in
      let received := FsCreate tmp :: (FsWrite tmp <$> cs) in
      if whole then
        let calls := received ++ [FsSync tmp; FsRename tmp path] in
        match io with
        | WriteFailsAt n =>
            if decide (n = length calls - 1)%nat
            then (Err (IoError key), with_files (fs_calls now (take n calls)) st)
            else (Err (IoError key), with_files (fun m => delete tmp (fs_calls now (take n calls) m)) st)
        | WriteOk => (Ok (blen (concat cs)), with_files (fs_calls now calls) st)
        | ParentSyncFails => (Err (IoError key), with_files (fs_calls now calls) st)
        end
      else (Err (Backend key), with_files (fun m => delete tmp (fs_calls now received m)) st)
  end.

(** The states a concurrent reader, or a restart after a crash, can find. *)
Definition visited (now : Z) (cs : list FsCall) (m : gmap bytes FsFile) : list (gmap bytes FsFile) :=
  (fun n => fs_calls now (take n cs) m) <$> seq 0 (S (length cs)).

(** ** Reading.  [faulty] says that the file system answers with an error
    other than "not found". *)

Definition lookup_file (st : FsState) (key : bytes) (faulty : bool) : StorageResult FsFile :=
  path ← resolve st key;
  if faulty : bool then Err (IoError key)
  else match fs_files st !! path with Some f => Ok f | None => Err (NotFound key) end.

Definition get (st : FsState) (key : bytes) (faulty : bool) : StorageResult bytes :=
  f ← lookup_file st key faulty; Ok (ff_data f).

(** [get_range]: the range is clamped to the file before allocating. *)
Definition clamp (size from to : Z) : Z * Z :=
  let start := Z.min from size in (start, Z.max 0 (Z.min to size - start)).

Definition get_range (st : FsState) (key : bytes) (from to : Z) (faulty : bool) : StorageResult bytes :=
  f ← lookup_file st key faulty;
  let '(start, len) := clamp (blen (ff_data f)) from to in
  Ok (slice (ff_data f) (Z.to_nat start) (Z.to_nat (start + len))).

Definition size (st : FsState) (key : bytes) (faulty : bool) : StorageResult Z :=
  f ← lookup_file st key faulty; Ok (blen (ff_data f)).

Definition modified (st : FsState) (key : bytes) (faulty : bool) : StorageResult Z :=
  f ← lookup_file st key faulty; Ok (ff_mtime f).

(** The trait's default [exists]. *)
Definition exists_ (st : FsState) (key : bytes) (faulty : bool) : StorageResult bool :=
  match size st key faulty with
  | Ok _ => Ok true
  | Err (NotFound _) => Ok false
  | Err e => Err e
  end.

(** [delete]: a missing object is not an error. *)
Definition delete_object (key : bytes) (faulty : bool) (st : FsState) : StorageResult unit * FsState :=
  match resolve st key with
  | Err e => (Err e, st)
  | Ok path =>
      if faulty then (Err (IoError key), st)
      else (Ok tt, with_files (delete path) st)
  end.

Definition hidden_name (key : bytes) : bool := contains key (str ".tmp-").

(** [list]: the files under the directory the prefix implies, with the prefix,
    temp names left out, sorted. *)
Definition listed (prefix key : bytes) : bool :=
  (match rsplit_once slash prefix with
   | Some (dir, _) => starts_with key (dir ++ [slash])
   | None => true
   end) && starts_with key prefix && negb (hidden_name key).

Definition list_keys (st : FsState) (prefix : bytes) : list bytes :=
  merge_sort bytes_le (filter (fun k => listed prefix k = true) (elements (dom (fs_files st)))).

(** [sweep_temp_files]: temp files older than an hour. *)
Definition MIN_LEFTOVER_AGE : Z := 3600.
Definition file_name (path : bytes) : bytes :=
  match rsplit_once slash path with Some (_, name) => name | None => path end.
Definition leftover (now : Z) (path : bytes) (f : FsFile) : bool :=
  contains (file_name path) (str ".tmp-") && (MIN_LEFTOVER_AGE <? now - ff_mtime f).
Definition sweep_temp_files (now : Z) (st : FsState) : FsState :=
  with_files (filter (fun kf => leftover now kf.1 kf.2 = false)) st.

(** ** The peer endpoints' ranges *)

(** [PeerClient::get_range]: HTTP ranges are inclusive. *)
Definition range_header (from to : Z) : bytes :=
  str "bytes=" ++ dec from ++ str "-" ++ dec (Z.max 0 (to - 1)).

(** [parse_range] of the peer endpoint. *)
Definition parse_range (value : bytes) : option (Z * Z) :=
  rest ← strip_prefix (str "bytes=") value;
  '(s, e) ← split_once x2d rest;
  start ← parse_u64 s;
  end_ ← parse_u64 e;
  end_exclusive ← checked_u64 (end_ + 1);
  if (start <? end_exclusive) then Some (start, end_exclusive) else None.

(** [get_object] of the endpoint, as the client's [get_range] sees it: no
    (usable) range answers the whole object. *)
Definition peer_get_range (st : FsState) (key : bytes) (from to : Z) (faulty : bool) : StorageResult bytes :=
  match parse_range (range_header from to) with
  | Some (s, e) => get_range st key s e faulty
  | None => get st key faulty
  end.

(** ** What a reader of one object relies on *)

Record Reader := { rd_size : StorageResult Z; rd_get_range : Z -> Z -> StorageResult bytes }.

Definition obj_slice (obj : bytes) (from to : Z) : bytes :=
  slice obj (Z.to_nat from) (Z.to_nat to).

(** Answers, when there are any, are about [obj]: its size, and of a non-empty
    range the bytes that exist. *)
Record reads (rd : Reader) (obj : bytes) : Prop := {
  reads_size n : rd_size rd = Ok n -> n = blen obj;
  reads_range from to d : 0 <= from < to -> rd_get_range rd from to = Ok d -> d = obj_slice obj from to;
}.

Definition fs_reader (st : FsState) (key : bytes) (faulty : bool) : Reader :=
  {| rd_size := size st key faulty; rd_get_range from to := get_range st key from to faulty |}.

(** ** Lemmas: names *)

Lemma contains_app a p b : contains (a ++ p ++ b) p = true.
Proof.
  unfold contains. apply bool_decide_eq_true. destruct (find_leftmost p a b) as (n & -> & _). by eexists.
Qed.

Lemma with_extension_hidden path ext : hidden_name (with_extension path (str "tmp-" ++ ext)) = true.
Proof.
  unfold hidden_name, with_extension. destruct (rsplit_once slash path) as [[dir name]|].
  - replace (dir ++ slash :: file_stem name ++ x2e :: str "tmp-" ++ ext)
      with ((dir ++ slash :: file_stem name) ++ str ".tmp-" ++ ext) by (by rewrite <- app_assoc).
    apply contains_app.
  - apply (contains_app _ (str ".tmp-")).
Qed.

Lemma unique_tmp_hidden path pid seq : hidden_name (unique_tmp path pid seq) = true.
Proof. apply with_extension_hidden. Qed.
Lemma recv_tmp_hidden path pid seq : hidden_name (recv_tmp path pid seq) = true.
Proof. unfold recv_tmp. apply (with_extension_hidden path (str "recv-" ++ _)). Qed.


Lemma find_app_some p a l n : find p l = Some n -> is_Some (find p (a ++ l)).
Proof.
  intros Hf. induction a as [|x a IH]; simpl; [by eexists|].
  destruct (starts_with _ _); [by eexists|]. destruct IH as [m ->]. by eexists.
Qed.

Lemma contains_file_name key : contains (file_name key) (str ".tmp-") = true -> hidden_name key = true.
Proof.
  unfold file_name, hidden_name, contains. rewrite !bool_decide_eq_true.
  destruct (rsplit_once slash key) as [[dir name]|] eqn:E; [|done]. intros [n Hn].
  apply rsplit_once_Some in E as ->.
  change (dir ++ slash :: name) with (dir ++ [slash] ++ name). rewrite app_assoc. by eapply find_app_some.
Qed.

(** ** Lemmas: the calls of a write *)

(** Calls that touch nothing but the temp file. *)
Definition staging (tmp : bytes) (c : FsCall) : Prop :=
  match c with
  | FsCreate t | FsWrite t _ | FsLink t _ _ | FsSync t => t = tmp
  | FsRename _ _ => False
  end.

Lemma staging_frame tmp now cs m k : Forall (staging tmp) cs -> k <> tmp ->
  fs_calls now cs m !! k = m !! k.
Proof.
  intros Hcs Hk. revert m. induction Hcs as [|c cs Hc _ IH]; intros m; [done|]. simpl. rewrite IH.
  destruct c; simpl in *; subst; try done.
  - by rewrite lookup_insert_ne.
  - destruct (m !! tmp); [by rewrite lookup_insert_ne|done].
  - by rewrite lookup_insert_ne.
Qed.

Lemma fs_calls_app now a b m : fs_calls now (a ++ b) m = fs_calls now b (fs_calls now a m).
Proof. apply foldl_app. Qed.

Lemma fs_writes now tmp chunks m f : m !! tmp = Some f ->
  exists f', fs_calls now (FsWrite tmp <$> chunks) m !! tmp = Some f' /\ ff_data f' = ff_data f ++ concat chunks.
Proof.
  revert m f. induction chunks as [|c chunks IH]; intros m f Hf; simpl.
  - exists f. by rewrite app_nil_r.
  - rewrite Hf. destruct (IH (<[tmp := {| ff_data := ff_data f ++ c; ff_mtime := now |}]> m)
      {| ff_data := ff_data f ++ c; ff_mtime := now |}) as (f' & E & Hd); [by rewrite lookup_insert_eq|].
    exists f'. split; [exact E|]. rewrite Hd. simpl. by rewrite <- app_assoc.
Qed.

(** A write: staging calls, an fsync, the rename. *)
Section write.
Context (tmp path data : bytes) (pre : list FsCall) (now : Z) (m : gmap bytes FsFile).
Hypothesis Hpre : Forall (staging tmp) pre.
Hypothesis Hne : tmp <> path.
Hypothesis Hdata : exists f, fs_calls now pre m !! tmp = Some f /\ ff_data f = data.

Lemma write_done k : k <> tmp ->
  fs_calls now (pre ++ [FsRename tmp path]) m !! k =
  if decide (k = path) then fs_calls now pre m !! tmp else m !! k.
Proof.
  intros Hk. rewrite fs_calls_app. simpl. destruct Hdata as (f & -> & _). case_decide as Hp.
  - subst. by rewrite lookup_insert_eq.
  - rewrite lookup_insert_ne, lookup_delete_ne by done. by apply (staging_frame tmp).
Qed.

Lemma write_done_tmp : fs_calls now (pre ++ [FsRename tmp path]) m !! tmp = None.
Proof.
  rewrite fs_calls_app. simpl. destruct Hdata as (f & -> & _).
  by rewrite lookup_insert_ne, lookup_delete_eq by done.
Qed.

Lemma write_visited m' k : m' ∈ visited now (pre ++ [FsRename tmp path]) m -> k <> tmp ->
  m' !! k = m !! k \/ (k = path /\ ff_data <$> m' !! k = Some data).
Proof.
  intros [n [-> Hn]]%list_elem_of_fmap Hk. apply elem_of_seq in Hn.
  destruct (decide (n <= length pre)%nat) as [Hle|Hgt].
  - left. rewrite take_app_le by done. apply (staging_frame tmp); [by apply Forall_take|done].
  - rewrite take_ge by (rewrite length_app; simpl; lia). rewrite write_done by done.
    case_decide; [right|by left]. split; [done|]. destruct Hdata as (f & -> & <-). done.
Qed.

Lemma write_partial n k : (n <= length pre)%nat -> k <> tmp ->
  fs_calls now (take n (pre ++ [FsRename tmp path])) m !! k = m !! k.
Proof.
  intros Hn Hk. rewrite take_app_le by done. apply (staging_frame tmp); [by apply Forall_take|done].
Qed.
End write.

Definition atomic_pre (tmp : bytes) (chunks : list bytes) : list FsCall :=
  FsCreate tmp :: (FsWrite tmp <$> chunks) ++ [FsSync tmp].

Lemma write_atomic_calls_eq tmp path chunks :
  write_atomic_calls tmp path chunks = atomic_pre tmp chunks ++ [FsRename tmp path].
Proof. unfold write_atomic_calls, atomic_pre. simpl. by rewrite <- app_assoc. Qed.

Lemma atomic_pre_staging tmp chunks : Forall (staging tmp) (atomic_pre tmp chunks).
Proof.
  constructor; [done|]. apply Forall_app. split; [|by repeat constructor].
  apply Forall_fmap, Forall_forall. done.
Qed.

Lemma atomic_pre_data tmp chunks now m :
  exists f, fs_calls now (atomic_pre tmp chunks) m !! tmp = Some f /\ ff_data f = concat chunks.
Proof.
  unfold atomic_pre. simpl. rewrite fs_calls_app. simpl.
  destruct (fs_writes now tmp chunks (<[tmp := {| ff_data := []; ff_mtime := now |}]> m) {| ff_data := []; ff_mtime := now |})
    as (f & E & Hd); [by rewrite lookup_insert_eq|]. by exists f.
Qed.

(** ** Lemmas: reading *)

Lemma resolve_ok st key path : resolve st key = Ok path -> path = key.
Proof. unfold resolve. repeat case_match; naive_solver. Qed.

Lemma lookup_file_ok st key faulty f : lookup_file st key faulty = Ok f -> fs_files st !! key = Some f.
Proof.
  unfold lookup_file. destruct (resolve st key) as [p|] eqn:E; simpl; [|done].
  apply resolve_ok in E as ->. destruct faulty; [done|]. by destruct (fs_files st !! key); intros [= <-].
Qed.

Lemma clamp_slice (l : bytes) from to : 0 <= from <= to ->
  slice l (Z.to_nat (clamp (blen l) from to).1)
    (Z.to_nat ((clamp (blen l) from to).1 + (clamp (blen l) from to).2)) = obj_slice l from to.
Proof.
  intros H. unfold clamp, obj_slice, slice. simpl. destruct (Z.le_gt_cases from (blen l)).
  - replace (Z.min from (blen l)) with from by lia. destruct (Z.le_gt_cases to (blen l)).
    + do 2 f_equal; lia.
    + rewrite !take_ge; [done|rewrite length_drop; lia..].
  - rewrite !drop_ge by lia. by rewrite !take_nil.
Qed.

Lemma get_range_file st key from to faulty : 0 <= from <= to ->
  get_range st key from to faulty =
  f ← lookup_file st key faulty; Ok (obj_slice (ff_data f) from to).
Proof.
  intros H. unfold get_range. destruct (lookup_file st key faulty) as [f|]; [|done]. simpl.
  f_equal. exact (clamp_slice (ff_data f) from to H).
Qed.

Lemma get_range_ok st key from to faulty d : 0 <= from <= to ->
  get_range st key from to faulty = Ok d ->
  exists obj, object st key = Some obj /\ d = obj_slice obj from to.
Proof.
  intros H. rewrite get_range_file by done. destruct (lookup_file st key faulty) as [f|] eqn:E; simpl; [|done].
  apply lookup_file_ok in E. intros [= <-]. exists (ff_data f). unfold object. by rewrite E.
Qed.

Lemma fs_reader_reads st key faulty obj : object st key = Some obj -> reads (fs_reader st key faulty) obj.
Proof.
  intros Ho. split; simpl.
  - intros n. unfold size. destruct (lookup_file st key faulty) as [f|] eqn:E; simpl; [|done].
    apply lookup_file_ok in E. unfold object in Ho. rewrite E in Ho. simpl in Ho. by intros [= <-]; simplify_eq.
  - intros from to d H E. apply get_range_ok in E as (o & Ho' & ->); [|lia]. by simplify_eq.
Qed.

(** ** Lemmas: ranges on the wire *)

Lemma dec_no_dash z : x2d ∉ dec z.
Proof.
  unfold dec. generalize (N.to_uint (Z.to_N z)) as d. induction d; simpl; rewrite ?elem_of_cons; try naive_solver.
  apply not_elem_of_nil.
Qed.

Lemma parse_u64_dec z : 0 <= z <= U64_MAX -> parse_u64 (dec z) = Some z.
Proof. intros H. rewrite <- (parse_dec_pad 0 z H). done. Qed.

Lemma parse_range_header from to : 0 <= from <= U64_MAX -> 0 <= to <= U64_MAX ->
  parse_range (range_header from to) =
  if from <? Z.max 0 (to - 1) + 1 then Some (from, Z.max 0 (to - 1) + 1) else None.
Proof.
  intros Hf Ht. unfold parse_range, range_header. rewrite strip_prefix_app. simpl.
  rewrite split_once_at by apply dec_no_dash. simpl.
  rewrite !parse_u64_dec by (unfold U64_MAX in *; lia). simpl.
  unfold checked_u64. rewrite bool_decide_true by (unfold U64_MAX in *; lia). done.
Qed.

(** ** Properties *)

(** The failing call of a write is one of its calls. *)
Definition io_within (io : WriteIo) (cs : list FsCall) : Prop :=
  match io with WriteFailsAt n => (n < length cs)%nat | _ => True end.

Lemma publish_spec key tmp data pre io now st :
  Forall (staging tmp) pre -> tmp <> key ->
  (exists f, fs_calls now pre (fs_files st) !! tmp = Some f /\ ff_data f = data) ->
  io_within io (pre ++ [FsRename tmp key]) ->
  let '(r, st') := publish key key tmp (pre ++ [FsRename tmp key]) io now st in
  fs_escapes st' = fs_escapes st /\ fs_files st' !! tmp = None /\
  (forall k, k <> tmp -> k <> key -> fs_files st' !! k = fs_files st !! k) /\
  match r with
  | Ok _ => object st' key = Some data
  | Err _ => if decide (io = ParentSyncFails) then object st' key = Some data
             else fs_files st' !! key = fs_files st !! key
  end.
Proof.
  intros Hpre Hne Hd Hio. unfold publish.
  assert (forall m', m' = fs_calls now (pre ++ [FsRename tmp key]) (fs_files st) -> ff_data <$> m' !! key = Some data) as Hnew.
  { intros m' ->. rewrite (write_done tmp key data) by done. rewrite decide_True by done.
    destruct Hd as (f & -> & <-). done. }
  destruct io as [|n|]; simpl; (split; [done|]); unfold object; simpl.
  - split; [by eapply write_done_tmp|]. split; [|by apply Hnew].
    intros k Hk Hkk. rewrite (write_done tmp key data) by done. by rewrite decide_False.
  - simpl in Hio. rewrite length_app in Hio. simpl in Hio. split; [by rewrite lookup_delete_eq|].
    split; intros; rewrite lookup_delete_ne by congruence; apply write_partial; auto; lia.
  - split; [by eapply write_done_tmp|]. split; [|by apply Hnew].
    intros k Hk Hkk. rewrite (write_done tmp key data) by done. by rewrite decide_False.
Qed.

Lemma visible_ne k tmp : hidden_name k = false -> hidden_name tmp = true -> k <> tmp.
Proof. intros H H' ->. by rewrite H in H'. Qed.

(** What any write leaves: other objects as they were, and at the key the data
    or (a failing write) what was there before. *)
Definition io_clean (io : WriteIo) (calls : nat) : Prop :=
  match io with WriteOk => True | WriteFailsAt n => (n < calls)%nat | ParentSyncFails => False end.

Record wrote (key data : bytes) (io : WriteIo) (calls : nat) (ok : bool) (st st' : FsState) : Prop := {
  wr_escapes : fs_escapes st' = fs_escapes st;
  wr_other k : hidden_name k = false -> k <> key -> object st' k = object st k;
  wr_ok : ok = true -> object st' key = Some data;
  wr_err : ok = false -> object st' key = object st key \/ (object st' key = Some data /\ ~ io_clean io calls);
}.

Lemma wrote_nothing key data io calls st : wrote key data io calls false st st.
Proof. split; auto; discriminate. Qed.

Section wrote.
Context (key tmp data : bytes) (pre : list FsCall) (now : Z) (st : FsState).
Hypothesis Hpre : Forall (staging tmp) pre.
Hypothesis Hdata : exists f, fs_calls now pre (fs_files st) !! tmp = Some f /\ ff_data f = data.
Hypothesis Hkey : hidden_name key = false.
Hypothesis Htmp : hidden_name tmp = true.

Let calls := pre ++ [FsRename tmp key].

Lemma wrote_all (io : WriteIo) (n : nat) (ok : bool) : (ok = false -> ~ io_clean io n) -> wrote key data io n ok st (with_files (fs_calls now calls) st).
Proof.
  intros Hok. pose proof (visible_ne key tmp Hkey Htmp) as Hne.
  assert (object (with_files (fs_calls now calls) st) key = Some data) as Hk.
  { unfold object. simpl. unfold calls. rewrite (write_done tmp key data) by done. rewrite decide_True by done.
    destruct Hdata as (f & -> & <-). done. }
  split; auto.
  intros k Hv Hn. unfold object. simpl. unfold calls.
  rewrite (write_done tmp key data) by eauto using visible_ne. by rewrite decide_False.
Qed.

Lemma wrote_part (io : WriteIo) (n m : nat) (ok : bool) (g : gmap bytes FsFile -> gmap bytes FsFile) : ok = false ->
  (forall x k, k <> tmp -> g x !! k = x !! k) -> (m <= length pre)%nat ->
  wrote key data io n ok st (with_files (fun x => g (fs_calls now (take m calls) x)) st).
Proof.
  intros -> Hg Hm. assert (forall k, hidden_name k = false ->
    object (with_files (fun x => g (fs_calls now (take m calls) x)) st) k = object st k) as Hk.
  { intros k Hv. pose proof (visible_ne k tmp Hv Htmp). unfold object. simpl. rewrite Hg by done.
    unfold calls. by rewrite write_partial. }
  split; auto. discriminate.
Qed.

Lemma wrote_calls (io : WriteIo) (r : StorageResult unit) (st' : FsState) :
  publish key key tmp calls io now st = (r, st') -> wrote key data io (length calls) (is_ok r) st st'.
Proof.
  unfold publish. destruct io as [|n|]; intros [= <- <-]; simpl.
  - by apply wrote_all.
  - destruct (decide (n <= length pre)%nat) as [Hn|Hn].
    + apply (wrote_part _ _ _ _ (delete tmp)); [done| |done]. intros x k Hk. by rewrite lookup_delete_ne.
    + assert (take n calls = calls) as -> by (apply take_ge; unfold calls; rewrite length_app; simpl; lia).
      pose proof (wrote_all (WriteFailsAt n) (length calls) false) as Hw.
      assert (~ io_clean (WriteFailsAt n) (length calls)) as Hc by (unfold calls; rewrite length_app; simpl; lia).
      destruct (Hw (fun _ => Hc)) as [He Ho Hk Hr]. split; simpl in *; auto; try done.
      * intros k Hv Hn'. rewrite <- Ho by done. unfold object. simpl. rewrite lookup_delete_ne; [done|].
        pose proof (visible_ne k tmp Hv Htmp). congruence.
      * intros _. right. split; [|exact Hc]. unfold object. simpl. rewrite lookup_delete_ne.
        -- unfold calls. rewrite (write_done tmp key data); auto using visible_ne. rewrite decide_True by done.
           destruct Hdata as (f & -> & <-). done.
        -- pose proof (visible_ne key tmp Hkey Htmp). congruence.
  - apply wrote_all. simpl. tauto.
Qed.
End wrote.

Lemma write_atomic_wrote key chunks pid seq io now st r st' : hidden_name key = false ->
  write_atomic key chunks pid seq io now st = (r, st') ->
  wrote key (concat chunks) io (length (write_atomic_calls [] [] chunks)) (is_ok r) st st'.
Proof.
  intros Hk. unfold write_atomic. destruct (resolve st key) as [path|e] eqn:Er; [|intros [= <- <-]; apply wrote_nothing].
  apply resolve_ok in Er. subst path. rewrite write_atomic_calls_eq. intros E.
  replace (length _) with (length (atomic_pre (unique_tmp key pid seq) chunks ++ [FsRename (unique_tmp key pid seq) key])).
  - apply (wrote_calls key (unique_tmp key pid seq) (concat chunks) (atomic_pre (unique_tmp key pid seq) chunks) now);
      auto using atomic_pre_staging, atomic_pre_data, unique_tmp_hidden.
  - unfold write_atomic_calls, atomic_pre. simpl. rewrite !length_app, !length_fmap. simpl. lia.
Qed.

Lemma put_file_wrote key data mtime pid seq io now st r st' : hidden_name key = false ->
  put_file key data mtime pid seq io now st = (r, st') -> wrote key data io 3 (is_ok r) st st'.
Proof.
  intros Hk. unfold put_file. destruct (resolve st key) as [path|e] eqn:Er; [|intros [= <- <-]; apply wrote_nothing].
  apply resolve_ok in Er. subst path. set (tmp := unique_tmp key pid seq). intros E.
  apply (wrote_calls key tmp data [FsLink tmp data mtime; FsSync tmp] now); auto.
  - repeat constructor.
  - exists {| ff_data := data; ff_mtime := mtime |}. simpl. by rewrite lookup_insert_eq.
  - apply unique_tmp_hidden.
Qed.

Lemma put_stream_wrote key body pid seq io now st r st' : hidden_name key = false ->
  put_stream key body pid seq io now st = (r, st') ->
  wrote key (concat (stream_chunks body).1) io (3 + length (stream_chunks body).1) (is_ok r) st st' /\
  (forall n, r = Ok n -> (stream_chunks body).2 = true /\ n = blen (concat (stream_chunks body).1)).
Proof.
  intros Hk. unfold put_stream. destruct (resolve st key) as [path|e] eqn:Er; [|intros [= <- <-]; split; [apply wrote_nothing|done]].
  apply resolve_ok in Er. subst path. destruct (stream_chunks body) as [cs whole]. simpl fst. simpl snd.
  set (tmp := recv_tmp key pid seq). set (pre := atomic_pre tmp cs).
  pose proof (atomic_pre_staging tmp cs) as Hp. pose proof (atomic_pre_data tmp cs now (fs_files st)) as Hd.
  pose proof (recv_tmp_hidden key pid seq) as Ht. fold tmp in Ht.
  assert (FsCreate tmp :: (FsWrite tmp <$> cs) = take (S (length cs)) (pre ++ [FsRename tmp key])) as Et.
  { unfold pre, atomic_pre. simpl. rewrite <- app_assoc. f_equal.
    rewrite <- (length_fmap (FsWrite tmp) cs). symmetry. apply take_app_length. }
  assert ((FsCreate tmp :: (FsWrite tmp <$> cs)) ++ [FsSync tmp; FsRename tmp key] = pre ++ [FsRename tmp key]) as ->.
  { unfold pre, atomic_pre. simpl. by rewrite <- app_assoc. }
  assert (length pre = S (S (length cs))) as El.
  { unfold pre, atomic_pre. simpl. rewrite length_app, length_fmap. simpl. lia. }
  assert (length (pre ++ [FsRename tmp key]) = 3 + length cs)%nat as Ec by (rewrite length_app, El; simpl; lia).
  fold pre in Hp, Hd. clearbody pre. destruct whole.
  - destruct io as [|n|].
    + intros [= <- <-]. split; [|by intros n [= <-]]. by apply (wrote_all key tmp (concat cs) pre now st).
    + rewrite Ec. case_decide as Hn; intros [= <- <-]; (split; [|done]); simpl is_ok.
      * apply (wrote_part key tmp _ pre now st Hp Hk Ht _ _ _ _ id); [done|done|lia].
      * destruct (wrote_calls key tmp (concat cs) pre now st Hp Hd Hk Ht (WriteFailsAt n) _ _ eq_refl) as [? ? ? ?].
        rewrite Ec in *. by split.
    + intros [= <- <-]. split; [|done]. apply (wrote_all key tmp (concat cs) pre now st); auto.
  - intros [= <- <-]. split; [|done].
    assert (wrote key (concat cs) io (3 + length cs) false st
      (with_files (fun x => delete tmp (fs_calls now (take (S (length cs)) (pre ++ [FsRename tmp key])) x)) st)) as Hw.
    { apply (wrote_part key tmp _ pre now st Hp Hk Ht _ _ _ _ (delete tmp)); [done| |lia].
      intros x k Hx. by rewrite lookup_delete_ne. }
    rewrite <- Et in Hw. exact Hw.
Qed.


(** A non-empty range asked of a peer over HTTP is the range asked for: the
    inclusive header the client builds parses back at the endpoint to the same
    range, so the peer answers what its own store would. *)
Theorem peer_range_agrees st key from to faulty :
  0 <= from < to -> to <= U64_MAX ->
  parse_range (range_header from to) = Some (from, to) /\
  peer_get_range st key from to faulty = get_range st key from to faulty.
Proof.
  intros H Ht. assert (parse_range (range_header from to) = Some (from, to)) as E.
  { rewrite parse_range_header by lia. destruct (Z.ltb_spec from (Z.max 0 (to - 1) + 1)); [|lia].
    f_equal. f_equal. lia. }
  split; [exact E|]. unfold peer_get_range. by rewrite E.
Qed.

(** An empty range is not: the local store answers no bytes, and a peer
    holding the same object answers all of it (its first byte, for the empty
    range at zero). *)
Theorem peer_empty_range st key obj n :
  resolve st key = Ok key -> object st key = Some obj -> 0 < n <= U64_MAX ->
  get_range st key n n false = Ok [] /\ peer_get_range st key n n false = Ok obj /\
  peer_get_range st key 0 0 false = Ok (take 1 obj).
Proof.
  intros Hr Ho Hn. unfold peer_get_range.
  rewrite (parse_range_header n n), (parse_range_header 0 0) by (unfold U64_MAX in *; lia).
  destruct (Z.ltb_spec n (Z.max 0 (n - 1) + 1)); [lia|]. simpl.
  unfold object in Ho. destruct (fs_files st !! key) as [f|] eqn:Ef; simplify_eq/=.
  rewrite !get_range_file by lia. unfold get, lookup_file. rewrite Hr. simpl. rewrite Ef. simpl.
  unfold obj_slice, slice. rewrite Nat.sub_diag. done.
Qed.

(** *** Witnesses *)

Definition demo_st : FsState :=
  mkFs {[str "splits/a.split" := {| ff_data := str "old"; ff_mtime := 5 |}]} ∅.


Lemma peer_range_agrees_witness :
  parse_range (range_header 3 8) = Some (3, 8) /\
  peer_get_range demo_st (str "splits/a.split") 1 3 false = Ok (str "ld").
Proof.
  split.
  - apply (peer_range_agrees demo_st (str "splits/a.split") 3 8 false); unfold U64_MAX; lia.
  - destruct (peer_range_agrees demo_st (str "splits/a.split") 1 3 false) as [_ ->]; [lia|unfold U64_MAX; lia|].
    vm_compute. reflexivity.
Defined.

Lemma peer_empty_range_witness :
  get_range demo_st (str "splits/a.split") 2 2 false = Ok [] /\
  peer_get_range demo_st (str "splits/a.split") 2 2 false = Ok (str "old").
Proof.
  destruct (peer_empty_range demo_st (str "splits/a.split") (str "old") 2) as (H & H' & _);
    [vm_compute; reflexivity|vm_compute; reflexivity|unfold U64_MAX; lia|].
  split; [exact H|exact H'].
Defined.
