(* ===== verification/SplitFile.v ===== *)
(** * The split bundle (crates/rsearch-index/src/split_file.rs; the footer
    part of [SplitReader::open_with], reader.rs; [SplitBuilder::finish],
    builder.rs)

    The files of a sealed index concatenated, a JSON footer with their spans,
    its length and a magic number.  JSON encoding of the footer is the
    serialization library's: a parameter, of which the round trip is used. *)

From Stdlib Require Import ZArith Lia.
From Stdlib Require Import Strings.Byte.
From stdpp Require Import base gmap sets list strings sorting.
From S2P Require Import Prelude Json Dynamic Storage.

Local Open Scope Z_scope.
#[local] Opaque le_bytes.

(** ** Data *)

Definition SPLIT_MAGIC : bytes := str "RSPLIT01".
Definition FOOTER_TAIL_LEN : Z := 16.

Record FileSpan := { offset : Z; len : Z }.

Record SplitMeta := {
  split_id : bytes;
  stream : bytes;
  doc_count : Z;
  time_start_millis : Z;
  time_end_millis : Z;
  mapping : json;
  schema_version : Z;
  seq_min : option Z;
  seq_max : option Z;
  dynamic_fields : option DynamicFields;
}.

Record BundleMeta := { files : gmap bytes FileSpan; split : SplitMeta }.

Inductive IndexError :=
| InvalidMapping (what : bytes)
| MapperParsing (reason : bytes)
| IllegalArgument (reason : bytes)
| MalformedField (field ty reason preview : bytes)
| InvalidDocument (what : bytes)
| TantivyError
| IndexIo.

Notation IndexResult := (result IndexError).

(** [serde_json::to_vec] and [from_slice] on [BundleMeta]. *)
Class MetaCodec := {
  to_vec : BundleMeta -> result unit bytes;
  from_slice : bytes -> result unit BundleMeta;
}.

Class MetaCodecLaws (C : MetaCodec) : Prop := {
  from_to m l : to_vec m = Ok l -> from_slice l = Ok m;
  (** A struct serializes to an object, in a [Vec] of at most [isize::MAX] bytes. *)
  to_vec_len m l : to_vec m = Ok l -> 0 < blen l < 2 ^ 63;
}.

(** ** Writing a bundle *)

(** One entry of the index directory: its (raw) name, whether it is a regular
    file, and what the successive reads of it return — a failed open or read
    is [None]. *)
Record DirEntry := { de_name : bytes; de_is_file : bool; de_reads : option (list bytes) }.

Definition lock_suffix : bytes := str ".lock".

Definition bundle_names (dir : list DirEntry) : list bytes :=
  merge_sort bytes_le
    (filter (fun n => ends_with n lock_suffix = false)
      ((fun e => utf8_lossy (de_name e)) <$> filter (fun e => de_is_file e = true) dir)).

(** [File::open(index_dir.join(name))]. *)
Definition open_entry (dir : list DirEntry) (name : bytes) : option DirEntry :=
  list_find (fun e => de_name e = name) dir ≫= fun ie => Some ie.2.

(** The read loop: until a read returns no bytes. *)
Fixpoint copy_file (reads : list bytes) (out : bytes) (written : Z) : bytes * Z :=
  match reads with
  | [] | [] :: _ => (out, written)
  | chunk :: reads => copy_file reads (out ++ chunk) (written + blen chunk)
  end.

(** The loop over the names; what was written stays written on an error. *)
Fixpoint bundle_files (dir : list DirEntry) (names : list bytes) (files : gmap bytes FileSpan)
    (off : Z) (out : bytes) : IndexResult (gmap bytes FileSpan) * bytes :=
  match names with
  | [] => (Ok files, out)
  | name :: names =>
      match open_entry dir name ≫= de_reads with
      | None => (Err IndexIo, out)
      | Some reads =>
          let '(out, written) := copy_file reads out 0 in
          bundle_files dir names (<[name := {| offset := off; len := written |}]> files) (off + written) out
      end
  end.

Section bundle.
Context `{MetaCodec}.

Definition write_bundle (dir : list DirEntry) (out : bytes) (meta : SplitMeta)
    : IndexResult BundleMeta * bytes :=
  match bundle_files dir (bundle_names dir) ∅ 0 out with
  | (Err e, out) => (Err e, out)
  | (Ok files, out) =>
      let bundle := {| files := files; split := meta |} in
      match to_vec bundle with
      | Err _ => (Err (InvalidDocument (str "serializing split meta")), out)
      | Ok meta_json => (Ok bundle, out ++ meta_json ++ le_bytes 8 (blen meta_json) ++ SPLIT_MAGIC)
      end
  end.

(** ** Reading the footer *)

Definition parse_footer_tail (tail : bytes) : IndexResult Z :=
  if negb (blen tail =? FOOTER_TAIL_LEN) then Err (InvalidDocument (str "footer tail must be 16 bytes"))
  else if negb (bool_decide (slice tail 8 16 = SPLIT_MAGIC)) then Err (InvalidDocument (str "not a split file (bad magic)"))
  else Ok (le_num (slice tail 0 8)).

Definition parse_meta (meta_json : bytes) : IndexResult BundleMeta :=
  match from_slice meta_json with
  | Ok m => Ok m
  | Err _ => Err (InvalidDocument (str "parsing split meta"))
  end.

Definition storage_err {A} (what : bytes) (r : StorageResult A) : IndexResult A :=
  match r with Ok a => Ok a | Err _ => Err (InvalidDocument what) end.

(** [open_with] up to [parse_meta].  The three storage calls are answered by
    [rds]: what the backend says may change between them. *)
Definition open_footer (rd1 rd2 rd3 : Reader) : IndexResult BundleMeta :=
  size ← storage_err (str "stat split") (rd_size rd1);
  if size <? FOOTER_TAIL_LEN then Err (InvalidDocument (str "split too small"))
  else
    tail ← storage_err (str "read split tail") (rd_get_range rd2 (size - FOOTER_TAIL_LEN) size);
    meta_len ← parse_footer_tail tail;
    if size - FOOTER_TAIL_LEN <? meta_len then Err (InvalidDocument (str "footer length exceeds object size"))
    else
      let meta_start := size - FOOTER_TAIL_LEN - meta_len in
      meta_bytes ← storage_err (str "read split meta") (rd_get_range rd3 meta_start (meta_start + meta_len));
      parse_meta meta_bytes.

End bundle.

(** ** Building a split *)

Record DocIdentity := { di_id : bytes; di_seq : Z }.

(** What the index library and the document converter do: parameters.  A
    converted document, an index writer, the files a commit seals and the
    [_dynamic] dictionaries of its segments. *)
Class Indexer (Schema TDoc Writer Dict : Type) := {
  convert_with_source : Schema -> json -> option bytes -> DocIdentity -> Z -> IndexResult (TDoc * Z);
  writer_new : Schema -> Writer;
  writer_add : Writer -> TDoc -> IndexResult Writer;
  writer_commit : Writer -> IndexResult (list DirEntry * list Dict);
  schema_mapping : Schema -> json;
  schema_layout : Schema -> Z;
  schema_has_seq : Schema -> bool;
}.

Record SplitBuilder (Schema Writer : Type) := mkBuilder {
  b_split_id : bytes;
  b_stream : bytes;
  b_schema : Schema;
  b_writer : Writer;
  b_doc_count : Z;
  b_min_ts : Z;
  b_max_ts : Z;
  b_min_seq : Z;
  b_max_seq : Z;
}.
Arguments mkBuilder {_ _}.
Arguments b_split_id {_ _}.
Arguments b_stream {_ _}.
Arguments b_schema {_ _}.
Arguments b_writer {_ _}.
Arguments b_doc_count {_ _}.
Arguments b_min_ts {_ _}.
Arguments b_max_ts {_ _}.
Arguments b_min_seq {_ _}.
Arguments b_max_seq {_ _}.

Record PackagedSplit := {
  ps_meta : SplitMeta;
  ps_file : bytes;
  ps_size_bytes : Z;
  ps_footer_len : Z;
}.

Section builder.
Context `{MetaCodec} {Fault Schema TDoc Writer Dict : Type}
  `{TermDict Fault Dict} `{Indexer Schema TDoc Writer Dict}.

Definition builder_new (split_id stream : bytes) (schema : Schema) : SplitBuilder Schema Writer :=
  mkBuilder split_id stream schema (writer_new schema) 0 I64_MAX I64_MIN I64_MAX I64_MIN.

Definition add_document (b : SplitBuilder Schema Writer) (doc : json) (source : option bytes)
    (identity : DocIdentity) (fallback : Z) : IndexResult (SplitBuilder Schema Writer) :=
  '(converted, millis) ← convert_with_source (b_schema b) doc source identity fallback;
  w ← writer_add (b_writer b) converted;
  Ok (mkBuilder (b_split_id b) (b_stream b) (b_schema b) w (b_doc_count b + 1)
        (Z.min (b_min_ts b) millis) (Z.max (b_max_ts b) millis)
        (Z.min (b_min_seq b) (di_seq identity)) (Z.max (b_max_seq b) (di_seq identity))).

(** [finish]: the fuel is that of the [_dynamic] skip-scan. *)
Definition finish (fuel : nat) (b : SplitBuilder Schema Writer) : option (IndexResult PackagedSplit) :=
  if b_doc_count b =? 0 then Some (Err (InvalidDocument (str "refusing to build an empty split")))
  else
    match writer_commit (b_writer b) with
    | Err e => Some (Err e)
    | Ok (dir, segments) =>
        match dynamic_field_types fuel segments ∅ with
        | None => None
        | Some (Err _) => Some (Err TantivyError)
        | Some (Ok fields) =>
            let has_seq := schema_has_seq (b_schema b) in
            let meta := {|
              split_id := b_split_id b; stream := b_stream b; doc_count := b_doc_count b;
              time_start_millis := b_min_ts b; time_end_millis := b_max_ts b;
              mapping := schema_mapping (b_schema b); schema_version := schema_layout (b_schema b);
              seq_min := if has_seq then Some (b_min_seq b) else None;
              seq_max := if has_seq then Some (b_max_seq b) else None;
              dynamic_fields := Some fields |} in
            match write_bundle dir [] meta with
            | (Err e, _) => Some (Err e)
            | (Ok bundle, file) =>
                Some (Ok {| ps_meta := meta; ps_file := file; ps_size_bytes := blen file;
                            ps_footer_len := match to_vec bundle with Ok v => blen v | Err _ => 0 end |})
            end
        end
    end.

End builder.

(** ** Lemmas: the files of a bundle *)

(** What the read loop takes from a file: the reads up to the first empty one. *)
Fixpoint read_all (reads : list bytes) : bytes :=
  match reads with [] | [] :: _ => [] | chunk :: reads => chunk ++ read_all reads end.

Lemma copy_file_spec reads out w :
  copy_file reads out w = (out ++ read_all reads, w + blen (read_all reads)).
Proof.
  revert out w. induction reads as [|[|b c] reads IH]; intros out w; simpl; rewrite ?app_nil_r, ?Z.add_0_r; [done|done|].
  rewrite IH. rewrite <- app_assoc. f_equal. rewrite !length_app. simpl. lia.
Qed.

Definition entry_bytes (dir : list DirEntry) (name : bytes) : option bytes :=
  read_all <$> (open_entry dir name ≫= de_reads).

(** Where a span says its file is. *)
Definition span_bytes (obj : bytes) (s : FileSpan) : bytes := obj_slice obj (offset s) (offset s + len s).

Definition span_holds (obj : bytes) (s : FileSpan) (data : bytes) : Prop :=
  0 <= offset s /\ len s = blen data /\ offset s + len s <= blen obj /\ span_bytes obj s = data.

Lemma span_holds_app obj rest s data : span_holds obj s data -> span_holds (obj ++ rest) s data.
Proof.
  intros (H0 & Hl & Hb & Hs). split; [done|]. split; [done|]. split; [rewrite length_app; lia|].
  rewrite <- Hs. unfold span_bytes, obj_slice, slice.
  rewrite drop_app_le by lia. rewrite take_app_le by (rewrite length_drop; lia). done.
Qed.

Lemma span_holds_end out data : span_holds (out ++ data) {| offset := blen out; len := blen data |} data.
Proof.
  split; [simpl; lia|]. split; [done|]. split; [simpl; rewrite length_app; lia|].
  unfold span_bytes, obj_slice. simpl. rewrite <- (app_nil_r (out ++ data)), <- app_assoc.
  apply slice_app; lia.
Qed.

Lemma bundle_files_spec dir names fs off out fs' out' :
  off = blen out -> bundle_files dir names fs off out = (Ok fs', out') ->
  (exists rest, out' = out ++ rest) /\
  (forall n, n ∉ names -> fs' !! n = fs !! n) /\
  (forall n, n ∈ names -> exists s data, fs' !! n = Some s /\ entry_bytes dir n = Some data /\ span_holds out' s data).
Proof.
  revert fs off out. induction names as [|name names IH]; intros fs off out Hoff; simpl.
  - intros [= <- <-]. split; [exists []; by rewrite app_nil_r|]. split; [done|]. set_solver.
  - destruct (open_entry dir name ≫= de_reads) as [rds|] eqn:Eo; [|done].
    rewrite copy_file_spec. intros E. apply IH in E as ((rest & ->) & Hout & Hin); [|rewrite length_app; lia].
    split; [exists (read_all rds ++ rest); by rewrite <- app_assoc|]. split.
    + intros n Hn. rewrite not_elem_of_cons in Hn. rewrite Hout, lookup_insert_ne; naive_solver.
    + intros n Hn. destruct (decide (n ∈ names)) as [Hl|Hl]; [by apply Hin|].
      apply elem_of_cons in Hn as [->|Hn]; [|done]. rewrite Hout by done.
      eexists _, (read_all rds). rewrite lookup_insert_eq. split; [done|].
      split; [unfold entry_bytes; by rewrite Eo|]. rewrite Hoff. apply span_holds_app, span_holds_end.
Qed.

Section codec.
Context `{HC : MetaCodecLaws}.

Lemma write_bundle_ok dir out meta bundle obj : write_bundle dir out meta = (Ok bundle, obj) ->
  exists fs data meta_json, bundle = {| files := fs; split := meta |} /\
    bundle_files dir (bundle_names dir) ∅ 0 out = (Ok fs, data) /\ to_vec bundle = Ok meta_json /\
    obj = data ++ meta_json ++ le_bytes 8 (blen meta_json) ++ SPLIT_MAGIC.
Proof.
  unfold write_bundle. destruct (bundle_files _ _ _ _ _) as [[fs|] data]; [|done].
  destruct (to_vec _) as [mj|] eqn:Et; [|done]. intros [= <- <-]. by exists fs, data, mj.
Qed.

(** ** Lemmas: the footer *)

Lemma le8_len n : length (le_bytes 8 n) = 8%nat.
Proof. apply le_bytes_length. Qed.

Lemma obj_slice_app (x y z : bytes) i j : i = blen x -> j = blen x + blen y -> obj_slice (x ++ y ++ z) i j = y.
Proof. intros -> ->. unfold obj_slice. apply slice_app; lia. Qed.

Lemma parse_footer_tail_le n : is_u 64 n -> parse_footer_tail (le_bytes 8 n ++ SPLIT_MAGIC) = Ok n.
Proof.
  intros Hn. unfold parse_footer_tail. rewrite length_app, le8_len. change (negb (_ =? _)) with false. cbn [negb].
  assert (slice (le_bytes 8 n ++ SPLIT_MAGIC) 8 16 = SPLIT_MAGIC) as ->.
  { rewrite <- (app_nil_r SPLIT_MAGIC) at 1. apply slice_app; rewrite le8_len; done. }
  rewrite bool_decide_true by done. cbn [negb].
  rewrite slice_app_l by (by rewrite le8_len). rewrite le_num_bytes. f_equal.
  unfold is_u in Hn. apply Z.mod_small. change (256 ^ Z.of_nat 8) with (2 ^ 64). lia.
Qed.

Lemma parse_footer_tail_inv tail n : parse_footer_tail tail = Ok n ->
  tail = le_bytes 8 n ++ SPLIT_MAGIC /\ is_u 64 n.
Proof.
  unfold parse_footer_tail. destruct (Z.eqb_spec (blen tail) FOOTER_TAIL_LEN) as [El|]; [|done]. cbn [negb].
  case_bool_decide as Em; [|done]. cbn [negb]. intros [= <-].
  assert (length tail = 16%nat) as El' by (unfold FOOTER_TAIL_LEN in El; lia).
  assert (length (slice tail 0 8) = 8%nat) as Es by (unfold slice; rewrite length_take, drop_0; lia).
  split.
  - rewrite <- Es at 1. rewrite le_bytes_num, <- Em. unfold slice. simpl.
    rewrite (take_ge (drop 8 tail)) by (rewrite length_drop; lia). by rewrite take_drop.
  - pose proof (le_num_range (slice tail 0 8)) as Hr. rewrite Es in Hr. exact Hr.
Qed.

(** A backend that answers every call inside the object. *)
Definition answers (rd : Reader) (obj : bytes) : Prop :=
  is_ok (rd_size rd) = true /\
  forall from to, 0 <= from < to -> to <= blen obj -> is_ok (rd_get_range rd from to) = true.

Lemma answers_size rd obj : reads rd obj -> answers rd obj -> rd_size rd = Ok (blen obj).
Proof. intros Hr [Ha _]. destruct (rd_size rd) as [n|] eqn:E; [|done]. by rewrite (reads_size _ _ Hr n E). Qed.

Lemma answers_range rd obj from to : reads rd obj -> answers rd obj -> 0 <= from < to -> to <= blen obj ->
  rd_get_range rd from to = Ok (obj_slice obj from to).
Proof.
  intros Hr [_ Ha] H Ht. specialize (Ha from to H Ht).
  destruct (rd_get_range rd from to) as [d|] eqn:E; [|done]. by rewrite (reads_range _ _ Hr from to d H E).
Qed.

Lemma open_footer_written data meta_json b rd1 rd2 rd3 :
  let obj := data ++ meta_json ++ le_bytes 8 (blen meta_json) ++ SPLIT_MAGIC in
  0 < blen meta_json < 2 ^ 63 -> from_slice meta_json = Ok b ->
  reads rd1 obj -> reads rd2 obj -> reads rd3 obj ->
  answers rd1 obj -> answers rd2 obj -> answers rd3 obj ->
  open_footer rd1 rd2 rd3 = Ok b.
Proof.
  intros obj Hlen Hb R1 R2 R3 A1 A2 A3. unfold open_footer.
  assert (blen obj = blen data + blen meta_json + 16) as Eo
    by (unfold obj; rewrite !length_app, le8_len; simpl; lia).
  rewrite (answers_size rd1 obj) by done. simpl. unfold FOOTER_TAIL_LEN in *.
  destruct (Z.ltb_spec (blen obj) 16); [lia|].
  rewrite (answers_range rd2 obj) by (done || lia). simpl.
  assert (obj_slice obj (blen obj - 16) (blen obj) = le_bytes 8 (blen meta_json) ++ SPLIT_MAGIC) as ->.
  { unfold obj. rewrite app_assoc. rewrite <- (app_nil_r (le_bytes _ _ ++ _)) at 1.
    apply obj_slice_app; fold obj; rewrite !length_app, ?le8_len; unfold obj in Eo; rewrite !length_app, ?le8_len in *; simpl in *; lia. }
  rewrite parse_footer_tail_le by (unfold is_u; lia). simpl.
  destruct (Z.ltb_spec (blen obj - 16) (blen meta_json)); [lia|].
  rewrite (answers_range rd3 obj) by (done || lia). simpl.
  assert (obj_slice obj (blen obj - 16 - blen meta_json) (blen obj - 16 - blen meta_json + blen meta_json) = meta_json) as ->
    by (apply obj_slice_app; lia).
  unfold parse_meta. by rewrite Hb.
Qed.

(** ** Properties of the bundle *)

(** [C31] A bundle reads back: when [write_bundle] succeeds, a reader that finds
    the object in any backend that answers opens the very footer that was
    written (the split's metadata included), every regular file of the index
    directory that is not a writer lock has a span, nothing else has, and the
    bytes of the object at a file's span are the bytes of that file. *)
Theorem bundle_roundtrip dir meta bundle obj rd1 rd2 rd3 :
  write_bundle dir [] meta = (Ok bundle, obj) ->
  reads rd1 obj -> reads rd2 obj -> reads rd3 obj ->
  answers rd1 obj -> answers rd2 obj -> answers rd3 obj ->
  open_footer rd1 rd2 rd3 = Ok bundle /\ split bundle = meta /\
  (forall n, is_Some (files bundle !! n) <->
     exists e, e ∈ dir /\ de_is_file e = true /\ n = utf8_lossy (de_name e) /\ ends_with n lock_suffix = false) /\
  (forall n s, files bundle !! n = Some s ->
     exists data, entry_bytes dir n = Some data /\ span_holds obj s data).
Proof.
  intros Hw R1 R2 R3 A1 A2 A3. destruct (write_bundle_ok _ _ _ _ _ Hw) as (fs & data & mj & -> & Ef & Ej & ->).
  split; [|split; [done|]].
  { apply (open_footer_written data mj); eauto using to_vec_len, from_to. }
  destruct (bundle_files_spec _ _ _ _ [] _ _ eq_refl Ef) as (_ & Hout & Hin). simpl.
  assert (forall n, n ∈ bundle_names dir <-> exists e, e ∈ dir /\ de_is_file e = true /\
    n = utf8_lossy (de_name e) /\ ends_with n lock_suffix = false) as Hnames.
  { intros n. unfold bundle_names. rewrite merge_sort_Permutation, list_elem_of_filter, list_elem_of_fmap.
    setoid_rewrite list_elem_of_filter. naive_solver. }
  split.
  - intros n. rewrite <- Hnames. split.
    + intros [s Hs]. destruct (decide (n ∈ bundle_names dir)) as [|Hn]; [done|]. by rewrite Hout, lookup_empty in Hs.
    + intros Hn. destruct (Hin n Hn) as (s & ? & -> & _). done.
  - intros n s Hs. destruct (decide (n ∈ bundle_names dir)) as [Hn|Hn]; [|by rewrite Hout, lookup_empty in Hs].
    destruct (Hin n Hn) as (s' & d & Hs' & Hd & Hh). simplify_eq. exists d. split; [done|]. by apply span_holds_app.
Qed.

(** Whatever the object holds, opening it never reads outside it, and what
    opens is a bundle: the object ends in a metadata section that parses, its
    length and the magic number.  A truncated or foreign object, or a length
    that would reach before the object's start, is an error. *)
Theorem open_accepts_only_bundles rd1 rd2 rd3 obj b :
  reads rd1 obj -> reads rd2 obj -> reads rd3 obj ->
  open_footer rd1 rd2 rd3 = Ok b ->
  exists pre n, 0 <= n /\ blen pre = blen obj - 16 - n /\ 0 <= blen pre /\
    ((n = 0 /\ obj = pre ++ le_bytes 8 n ++ SPLIT_MAGIC) \/
     exists meta_json, n = blen meta_json /\ from_slice meta_json = Ok b /\
       obj = pre ++ meta_json ++ le_bytes 8 n ++ SPLIT_MAGIC).
Proof.
  intros R1 R2 R3. unfold open_footer.
  destruct (rd_size rd1) as [sz|] eqn:E1; simpl; [|done].
  apply (reads_size _ _ R1) in E1 as ->. unfold FOOTER_TAIL_LEN.
  destruct (Z.ltb_spec (blen obj) 16); [done|].
  destruct (rd_get_range rd2 _ _) as [tail|] eqn:E2; simpl; [|done].
  apply (reads_range _ _ R2) in E2; [|lia].
  destruct (parse_footer_tail tail) as [n|] eqn:E3; simpl; [|done].
  apply parse_footer_tail_inv in E3 as [Et Hn]. unfold is_u in Hn.
  destruct (Z.ltb_spec (blen obj - 16) n); [done|].
  destruct (rd_get_range rd3 _ _) as [mj|] eqn:E4; simpl; [|done].
  unfold parse_meta. destruct (from_slice mj) as [m|] eqn:Em; [|done]. intros [= ->].
  set (k := Z.to_nat (blen obj - 16 - n)).
  assert (drop (length obj - 16) obj = le_bytes 8 n ++ SPLIT_MAGIC) as Hend.
  { rewrite <- Et, E2. unfold obj_slice, slice. rewrite take_ge by (rewrite length_drop; lia).
    f_equal. lia. }
  exists (take k obj), n. split; [lia|]. split; [rewrite length_take; unfold k; lia|]. split; [lia|].
  destruct (decide (n = 0)) as [->|Hn0].
  - left. split; [done|]. assert (k = length obj - 16)%nat as -> by (unfold k; lia).
    transitivity (take (length obj - 16) obj ++ drop (length obj - 16) obj); [by rewrite take_drop|].
    by rewrite Hend.
  - right. apply (reads_range _ _ R3) in E4; [|lia].
    exists mj. assert (blen mj = n) as El.
    { rewrite E4. unfold obj_slice, slice. rewrite length_take, length_drop. lia. }
    split; [done|]. split; [done|]. rewrite <- Hend, E4. unfold obj_slice, slice. fold k.
    replace (Z.to_nat (blen obj - 16 - n + n) - k)%nat with (length obj - 16 - k)%nat by (unfold k; lia).
    rewrite <- (take_drop k obj) at 1. f_equal.
    rewrite <- (take_drop (length obj - 16 - k) (drop k obj)) at 1. f_equal. rewrite drop_drop. f_equal. unfold k. lia.
Qed.

End codec.

(** ** Properties of the builder *)

Section building.
Context `{MetaCodec} {Fault Schema TDoc Writer Dict : Type}
  `{TermDict Fault Dict} `{Indexer Schema TDoc Writer Dict}.

Record AddCall := { a_doc : json; a_source : option bytes; a_identity : DocIdentity; a_fallback : Z }.

(** A document the builder refuses leaves it as it was. *)
Definition add_or_keep (b : SplitBuilder Schema Writer) (a : AddCall) : SplitBuilder Schema Writer :=
  match add_document b (a_doc a) (a_source a) (a_identity a) (a_fallback a) with
  | Ok b' => b'
  | Err _ => b
  end.

(** The timestamps and stamps of the documents accepted along the calls. *)
Fixpoint accepted (b : SplitBuilder Schema Writer) (calls : list AddCall) : list (Z * Z) :=
  match calls with
  | [] => []
  | a :: calls =>
      match convert_with_source (b_schema b) (a_doc a) (a_source a) (a_identity a) (a_fallback a) with
      | Ok (d, millis) =>
          match writer_add (b_writer b) d with
          | Ok _ => [(millis, di_seq (a_identity a))]
          | Err _ => []
          end
      | Err _ => []
      end ++ accepted (add_or_keep b a) calls
  end.

Definition low (start : Z) (l : list Z) : Z := foldl Z.min start l.
Definition high (start : Z) (l : list Z) : Z := foldl Z.max start l.

Lemma builder_fold b calls :
  let b' := foldl add_or_keep b calls in
  let acc := accepted b calls in
  b_split_id b' = b_split_id b /\ b_stream b' = b_stream b /\ b_schema b' = b_schema b /\
  b_doc_count b' = b_doc_count b + Z.of_nat (length acc) /\
  b_min_ts b' = low (b_min_ts b) acc.*1 /\ b_max_ts b' = high (b_max_ts b) acc.*1 /\
  b_min_seq b' = low (b_min_seq b) acc.*2 /\ b_max_seq b' = high (b_max_seq b) acc.*2.
Proof.
  revert b. induction calls as [|a calls IH]; intros b; simpl.
  - rewrite Z.add_0_r. done.
  - specialize (IH (add_or_keep b a)). simpl in IH. destruct IH as (-> & -> & -> & -> & -> & -> & -> & ->).
    unfold add_or_keep, add_document.
    destruct (convert_with_source _ _ _ _ _) as [[d m]|]; simpl; [|done].
    destruct (writer_add (b_writer b) d) as [w|]; simpl; [|done].
    repeat (split; [done|]). split; [lia|]. done.
Qed.

Lemma low_le start l : low start l <= start /\ Forall (fun x => low start l <= x) l.
Proof.
  revert start. induction l as [|x l IH]; intros s; simpl; [split; [lia|constructor]|].
  destruct (IH (Z.min s x)) as [Ha Hb]. unfold low in *. split; [lia|]. constructor; [lia|done].
Qed.
Lemma low_in start l : low start l = start \/ low start l ∈ l.
Proof.
  revert start. induction l as [|x l IH]; intros s; simpl; [by left|].
  destruct (IH (Z.min s x)) as [E|E]; unfold low in *; simpl; [|right; by right].
  rewrite E. destruct (Z.min_spec s x) as [[_ ->]|[_ ->]]; [by left|right; left].
Qed.
Lemma high_le start l : start <= high start l /\ Forall (fun x => x <= high start l) l.
Proof.
  revert start. induction l as [|x l IH]; intros s; simpl; [split; [lia|constructor]|].
  destruct (IH (Z.max s x)) as [Ha Hb]. unfold high in *. split; [lia|]. constructor; [lia|done].
Qed.
Lemma high_in start l : high start l = start \/ high start l ∈ l.
Proof.
  revert start. induction l as [|x l IH]; intros s; simpl; [by left|].
  destruct (IH (Z.max s x)) as [E|E]; unfold high in *; simpl; [|right; by right].
  rewrite E. destruct (Z.max_spec s x) as [[_ ->]|[_ ->]]; [right; left|by left].
Qed.

(** The smallest and the largest of a non-empty list of [i64]s. *)
Definition exact_range (l : list Z) (lo hi : Z) : Prop :=
  lo ∈ l /\ hi ∈ l /\ Forall (fun x => lo <= x <= hi) l.

Lemma exact_range_i64 l : l <> [] -> Forall is_i64 l -> exact_range l (low I64_MAX l) (high I64_MIN l).
Proof.
  intros Hne Hr. destruct l as [|x l]; [done|]. set (k := x :: l) in *.
  pose proof (low_le I64_MAX k) as [_ Hlo]. pose proof (high_le I64_MIN k) as [_ Hhi].
  assert (forall P, Forall P k -> P x) as Hx by (intros P HP; unfold k in HP; by apply Forall_cons in HP as [? _]).
  split; [|split].
  - destruct (low_in I64_MAX k) as [E|]; [|done].
    assert (x = I64_MAX) as -> by (pose proof (Hx _ Hlo); pose proof (Hx _ Hr) as [_ ?]; simpl in *; lia).
    rewrite E. unfold k. left.
  - destruct (high_in I64_MIN k) as [E|]; [|done].
    assert (x = I64_MIN) as -> by (pose proof (Hx _ Hhi); pose proof (Hx _ Hr) as [? _]; simpl in *; lia).
    rewrite E. unfold k. left.
  - apply Forall_forall. intros y Hy. rewrite Forall_forall in Hlo, Hhi. auto.
Qed.

(** A finished split says what it holds: over any sequence of adds, some of
    them refused, its document count is the number of documents accepted, its
    time range and (on a schema with stamps) its stamp range are exactly the
    smallest and largest of theirs — a refused document widens neither — and a
    builder that accepted nothing is refused. *)
Theorem split_meta_exact fuel split_id stream schema calls r :
  let b0 := builder_new split_id stream schema in
  let acc := accepted b0 calls in
  Forall (fun p => is_i64 p.1 /\ is_i64 p.2) acc ->
  finish fuel (foldl add_or_keep b0 calls) = Some r ->
  match r with
  | Err e => acc = [] -> e = InvalidDocument (str "refusing to build an empty split")
  | Ok p => acc <> [] /\ doc_count (ps_meta p) = Z.of_nat (length acc) /\
      exact_range acc.*1 (time_start_millis (ps_meta p)) (time_end_millis (ps_meta p)) /\
      (if schema_has_seq schema
       then exists lo hi, seq_min (ps_meta p) = Some lo /\ seq_max (ps_meta p) = Some hi /\ exact_range acc.*2 lo hi
       else seq_min (ps_meta p) = None /\ seq_max (ps_meta p) = None) /\
      ps_size_bytes p = blen (ps_file p)
  end.
Proof.
  intros b0 acc Hr. unfold finish.
  destruct (builder_fold b0 calls) as (_ & _ & Es & Ec & Emt & EMt & Ems & EMs).
  set (b := foldl add_or_keep b0 calls) in *. fold acc in Ec, Emt, EMt, Ems, EMs. simpl in Ec, Emt, EMt, Ems, EMs, Es.
  destruct (Z.eqb_spec (b_doc_count b) 0) as [E0|E0].
  { intros [= <-]. done. }
  assert (acc <> []) as Hne by (intros E; rewrite E in Ec; simpl in Ec; lia).
  destruct (writer_commit (b_writer b)) as [[dir segs]|e]; [|by intros [= <-]].
  destruct (dynamic_field_types fuel segs ∅) as [[fields|]|]; [|by intros [= <-]|done].
  destruct (write_bundle _ _ _) as [[bundle|] file]; [|by intros [= <-]].
  intros [= <-]. simpl. rewrite Es. split; [done|]. split; [lia|]. rewrite Emt, EMt.
  assert (Forall is_i64 acc.*1 /\ Forall is_i64 acc.*2) as [Hi1 Hi2].
  { split; apply Forall_fmap; eapply Forall_impl; try exact Hr; simpl; tauto. }
  split; [apply exact_range_i64; [by destruct acc|done]|]. split; [|done].
  destruct (schema_has_seq schema); [|done].
  eexists _, _. split; [done|]. split; [done|]. rewrite Ems, EMs. apply exact_range_i64; [by destruct acc|done].
Qed.

End building.

(** ** Concrete inputs *)

#[export] Instance FileSpan_eq_dec : EqDecision FileSpan.
Proof. solve_decision. Defined.
#[export] Instance SplitMeta_eq_dec : EqDecision SplitMeta.
Proof. solve_decision. Defined.
#[export] Instance BundleMeta_eq_dec : EqDecision BundleMeta.
Proof. solve_decision. Defined.

Definition demo_meta (fields : option DynamicFields) (lo hi : Z) : SplitMeta := {|
  split_id := str "s1"; stream := str "logs"; doc_count := 2; time_start_millis := lo; time_end_millis := hi;
  mapping := Object []; schema_version := 3; seq_min := Some 4; seq_max := Some 9; dynamic_fields := fields |}.

Definition demo_dir : list DirEntry := [
  {| de_name := str "seg.store"; de_is_file := true; de_reads := Some [str "ab"; str "c"; []] |};
  {| de_name := str "sub"; de_is_file := false; de_reads := None |};
  {| de_name := str "writer.lock"; de_is_file := true; de_reads := Some [[]] |};
  {| de_name := str "meta.json"; de_is_file := true; de_reads := Some [str "{}"] |} ].

Definition demo_bundle (m : SplitMeta) : BundleMeta := {|
  files := <[str "seg.store" := {| offset := 2; len := 3 |}]> {[str "meta.json" := {| offset := 0; len := 2 |}]};
  split := m |}.

(** A codec that knows the footers [demo_bundle m] of one [m]. *)
Definition one_codec (m : SplitMeta) : MetaCodec := {|
  to_vec b := if decide (b = demo_bundle m) then Ok (str "{demo}") else Err tt;
  from_slice l := if decide (l = str "{demo}") then Ok (demo_bundle m) else Err tt |}.

Lemma one_codec_laws m : MetaCodecLaws (one_codec m).
Proof.
  split; intros b l; simpl; case_decide; try done; intros [= <-].
  - by subst.
  - change (blen (str "{demo}")) with 6. lia.
Qed.

Definition list_reader (obj : bytes) : Reader :=
  {| rd_size := Ok (blen obj); rd_get_range from to := Ok (obj_slice obj from to) |}.

Lemma list_reader_reads obj : reads (list_reader obj) obj.
Proof. split; simpl; congruence. Qed.
Lemma list_reader_answers obj : answers (list_reader obj) obj.
Proof. done. Qed.

Definition demo_obj : bytes := str "{}abc{demo}" ++ le_bytes 8 6 ++ SPLIT_MAGIC.

Definition wrote (r : IndexResult BundleMeta * bytes) (b : BundleMeta) (obj : bytes) : bool :=
  match r with (Ok b', obj') => bool_decide (b' = b) && bool_decide (obj' = obj) | _ => false end.

Example demo_wrote :
  wrote (@write_bundle (one_codec (demo_meta None 0 0)) demo_dir [] (demo_meta None 0 0))
    (demo_bundle (demo_meta None 0 0)) demo_obj = true.
Proof. vm_compute. reflexivity. Qed.

Lemma demo_written :
  @write_bundle (one_codec (demo_meta None 0 0)) demo_dir [] (demo_meta None 0 0)
  = (Ok (demo_bundle (demo_meta None 0 0)), demo_obj).
Proof.
  pose proof demo_wrote as Hw. revert Hw. generalize (@write_bundle (one_codec (demo_meta None 0 0)) demo_dir [] (demo_meta None 0 0)).
  intros [[b|e] o]; [|discriminate]. unfold wrote. rewrite andb_true_iff, !bool_decide_eq_true. by intros [-> ->].
Qed.

Definition opened (r : IndexResult BundleMeta) (b : BundleMeta) : bool :=
  match r with Ok b' => bool_decide (b' = b) | Err _ => false end.

Lemma opened_ok r b : opened r b = true -> r = Ok b.
Proof. destruct r; [|done]. unfold opened. rewrite bool_decide_eq_true. by intros ->. Qed.

Lemma bundle_roundtrip_witness :
  @open_footer (one_codec (demo_meta None 0 0)) (list_reader demo_obj) (list_reader demo_obj) (list_reader demo_obj)
    = Ok (demo_bundle (demo_meta None 0 0)) /\
  span_holds demo_obj {| offset := 2; len := 3 |} (str "abc").
Proof.
  destruct (@bundle_roundtrip (one_codec (demo_meta None 0 0)) (one_codec_laws _) demo_dir (demo_meta None 0 0)
    (demo_bundle (demo_meta None 0 0)) demo_obj (list_reader demo_obj) (list_reader demo_obj) (list_reader demo_obj)
    demo_written (list_reader_reads _) (list_reader_reads _) (list_reader_reads _)
    (list_reader_answers _) (list_reader_answers _) (list_reader_answers _)) as (Ho & _ & _ & Hs).
  split; [exact Ho|].
  destruct (Hs (str "seg.store") {| offset := 2; len := 3 |} ltac:(vm_compute; reflexivity)) as (d & Ed & Hd).
  assert (d = str "abc") as -> by (vm_compute in Ed; injection Ed as <-; reflexivity).
  exact Hd.
Defined.

Example demo_opened :
  opened (@open_footer (one_codec (demo_meta None 0 0)) (list_reader demo_obj) (list_reader demo_obj) (list_reader demo_obj))
    (demo_bundle (demo_meta None 0 0)) = true.
Proof. vm_compute. reflexivity. Qed.

Lemma open_accepts_only_bundles_witness :
  exists (pre : bytes) n, 0 <= n /\ blen pre = blen demo_obj - 16 - n.
Proof.
  destruct (@open_accepts_only_bundles (one_codec (demo_meta None 0 0))
    (list_reader demo_obj) (list_reader demo_obj) (list_reader demo_obj) demo_obj (demo_bundle (demo_meta None 0 0))
    (list_reader_reads _) (list_reader_reads _) (list_reader_reads _)
    (opened_ok _ _ demo_opened))
    as (pre & n & Hn & Hp & _).
  exists pre, n. split; [exact Hn|exact Hp].
Defined.

(** An index library that keeps the text of string documents, seals them into
    [demo_dir] and has no unmapped terms; numbers are refused. *)
Definition demo_indexer : Indexer bool bytes (list bytes) (list bytes) := {|
  convert_with_source _ doc _ _ fallback :=
    match doc with
    | JString s => Ok (s, fallback)
    | _ => Err (InvalidDocument (str "not text"))
    end;
  writer_new _ := [];
  writer_add w d := Ok (w ++ [d]);
  writer_commit _ := Ok (demo_dir, []);
  schema_mapping _ := Object [];
  schema_layout _ := 3;
  schema_has_seq s := s |}.

Definition demo_calls : list AddCall :=
  [ {| a_doc := JString (str "a"); a_source := None; a_identity := {| di_id := str "1"; di_seq := 9 |}; a_fallback := 70 |};
    {| a_doc := Null; a_source := None; a_identity := {| di_id := str "2"; di_seq := 99 |}; a_fallback := 5 |};
    {| a_doc := JString (str "b"); a_source := None; a_identity := {| di_id := str "3"; di_seq := 4 |}; a_fallback := 60 |} ].

Definition demo_finish : option (IndexResult PackagedSplit) :=
  @finish (one_codec (demo_meta (Some ∅) 60 70)) unit bool bytes (list bytes) (list bytes) list_dict demo_indexer 1
    (foldl (@add_or_keep bool bytes (list bytes) (list bytes) demo_indexer)
       (@builder_new bool bytes (list bytes) (list bytes) demo_indexer (str "s1") (str "logs") true) demo_calls).

Example demo_accepted :
  @accepted bool bytes (list bytes) (list bytes) demo_indexer
    (@builder_new bool bytes (list bytes) (list bytes) demo_indexer (str "s1") (str "logs") true) demo_calls = [(70, 9); (60, 4)].
Proof. vm_compute. reflexivity. Qed.

Example demo_finished :
  match demo_finish with Some (Ok p) => bool_decide (ps_meta p = demo_meta (Some ∅) 60 70) | _ => false end = true.
Proof. vm_compute. reflexivity. Qed.

Lemma split_meta_exact_witness :
  match demo_finish with
  | Some (Ok p) => doc_count (ps_meta p) = 2 /\ exact_range [70; 60] (time_start_millis (ps_meta p)) (time_end_millis (ps_meta p))
  | _ => False
  end.
Proof.
  pose proof demo_finished as Hf.
  pose proof (@split_meta_exact (one_codec (demo_meta (Some ∅) 60 70)) unit bool bytes (list bytes) (list bytes)
    list_dict demo_indexer 1 (str "s1") (str "logs") true demo_calls) as Hs.
  cbv zeta in Hs. rewrite demo_accepted in Hs. fold demo_finish in Hs.
  revert Hf Hs. generalize demo_finish as r. intros [[p|e]|] Hf Hs; [|discriminate Hf..].
  specialize (Hs (Ok p) ltac:(repeat constructor; unfold is_i64, I64_MIN, I64_MAX; simpl; lia) eq_refl).
  simpl in Hs. destruct Hs as (_ & Hc & Hr & _). split; [exact Hc|exact Hr].
Defined.
