(* ===== verification/BlockCache.v ===== *)
(** * Block cache and split reads (crates/rsearch-index/src/cache.rs,
    storage_directory.rs)

    The two-tier block cache with its eviction, the in-flight claims that make
    concurrent readers of a block fetch it once, and the directory that serves
    a read of any byte range of a bundled file from blocks.  [others] stands
    for what other threads do to the cache while a reader is outside its
    locks.  The memory tier's LRU map is the [lru] crate's: a class with its
    documented behaviour; the key hash only picks a shard and is arbitrary. *)

From Stdlib Require Import ZArith Lia.
From Stdlib Require Import Strings.Byte.
From stdpp Require Import base gmap sets list strings sorting.
From S2P Require Import Prelude Json Dynamic Storage SplitFile.

Local Open Scope Z_scope.

(** ** Keys, counters, tiers *)

Definition DEFAULT_BLOCK_SIZE : Z := Z.shiftl 256 10.
Definition MEMORY_SHARDS : Z := 16.

Notation FileKey := bytes.
Notation BlockKey := (bytes * Z)%type.

Definition file_key (split_id file_name : bytes) : FileKey := split_id ++ str "/" ++ file_name.

Definition block_relative_path (k : BlockKey) : bytes := k.1 ++ str ".b" ++ dec k.2.

Record CacheStats := mkStats {
  memory_hits : Z;
  disk_hits : Z;
  fetched_blocks : Z;
  fetched_bytes : Z;
  fetch_requests : Z;
  fetch_waits : Z;
  disk_evictions : Z;
  memory_evictions : Z;
}.
Definition no_stats : CacheStats := mkStats 0 0 0 0 0 0 0 0.

Record DiskState := mkDisk {
  entries : gmap BlockKey (Z * Z);   (** block -> (size, last access tick) *)
  by_tick : gmap Z BlockKey;         (** last access tick -> block *)
  total_bytes : Z;
  tick : Z;
}.
Definition empty_disk : DiskState := mkDisk ∅ ∅ 0 0.

(** The tier with the regular files under its root, by relative path. *)
Record DiskTier := mkTier {
  max_bytes : Z;
  dstate : DiskState;
  dfiles : gmap bytes bytes;
  tmp_counter : Z;
}.

(** [lru::LruCache<BlockKey, OwnedBytes>]. *)
Class LruCache (L : Type) := {
  lru_unbounded : L;
  lru_get : L -> BlockKey -> option bytes * L;
  lru_put : L -> BlockKey -> bytes -> option bytes * L;
  lru_pop : L -> option (BlockKey * bytes) * L;
  lru_len : L -> nat;
}.

(** Its contents, most recently used first. *)
Class LruLaws (L : Type) `{LruCache L} := {
  lru_list : L -> list (BlockKey * bytes);
  lru_nodup l : NoDup (lru_list l).*1;
  lru_len_spec l : lru_len l = length (lru_list l);
  lru_list_unbounded : lru_list lru_unbounded = [];
  lru_get_spec l k :
    match (lru_get l k).1 with
    | Some v => (k, v) ∈ lru_list l /\
        lru_list (lru_get l k).2 = (k, v) :: filter (fun e => e.1 <> k) (lru_list l)
    | None => k ∉ (lru_list l).*1 /\ lru_list (lru_get l k).2 = lru_list l
    end;
  lru_put_spec l k v :
    lru_list (lru_put l k v).2 = (k, v) :: filter (fun e => e.1 <> k) (lru_list l) /\
    match (lru_put l k v).1 with
    | Some old => (k, old) ∈ lru_list l
    | None => k ∉ (lru_list l).*1
    end;
  lru_pop_spec l :
    match (lru_pop l).1 with
    | Some e => lru_list l = lru_list (lru_pop l).2 ++ [e]
    | None => lru_list l = [] /\ lru_list (lru_pop l).2 = []
    end;
}.

Record MemoryShard (L : Type) := mkShard { shard_blocks : L; shard_bytes : Z }.
Arguments mkShard {_}.
Arguments shard_blocks {_}.
Arguments shard_bytes {_}.

Record SplitCache (L : Type) := mkCache {
  block_size : Z;
  disk : option DiskTier;
  memory : list (MemoryShard L);
  memory_shard_bytes : Z;
  inflight : gset BlockKey;
  stats : CacheStats;
}.
Arguments mkCache {_}.
Arguments block_size {_}.
Arguments disk {_}.
Arguments memory {_}.
Arguments memory_shard_bytes {_}.
Arguments inflight {_}.
Arguments stats {_}.

(** ** The disk tier *)

(** The first key of the [BTreeMap]. *)
Definition first_tick (m : gmap Z BlockKey) : option Z := head (merge_sort Z.le (elements (dom m))).

Definition disk_touch (s : DiskState) (k : BlockKey) : bool * DiskState :=
  let t := tick s + 1 in
  match entries s !! k with
  | None => (false, mkDisk (entries s) (by_tick s) (total_bytes s) t)
  | Some (size, old) =>
      (true, mkDisk (<[k := (size, t)]> (entries s)) (<[t := k]> (delete old (by_tick s))) (total_bytes s) t)
  end.

Definition disk_forget (d : DiskTier) (k : BlockKey) : DiskTier :=
  let s := dstate d in
  let s' :=
    match entries s !! k with
    | Some (size, t) => mkDisk (delete k (entries s)) (delete t (by_tick s)) (total_bytes s - size) (tick s)
    | None => s
    end in
  mkTier (max_bytes d) s' (delete (block_relative_path k) (dfiles d)) (tmp_counter d).

(** The eviction loop; [None] is a panic of one of its two [unwrap]s or an
    underflow of the total. *)
Fixpoint evict (fuel : nat) (k : BlockKey) (max : Z) (s : DiskState) (victims : list BlockKey)
    : option (DiskState * list BlockKey) :=
  match fuel with
  | O => Some (s, victims)
  | S fuel =>
      if total_bytes s <=? max then Some (s, victims)
      else
        match first_tick (by_tick s) with
        | None => Some (s, victims)
        | Some vt =>
            victim ← by_tick s !! vt;
            let bt := delete vt (by_tick s) in
            if decide (victim = k)
            then Some (mkDisk (entries s) (<[vt := victim]> bt) (total_bytes s) (tick s), victims)
            else
              '(vsize, _) ← entries s !! victim;
              if total_bytes s <? vsize then None
              else evict fuel k max (mkDisk (delete victim (entries s)) bt (total_bytes s - vsize) (tick s)) (victims ++ [victim])
        end
  end.

(** The locked part of [insert]. *)
Definition disk_account (s : DiskState) (k : BlockKey) (size max : Z) : option (DiskState * list BlockKey) :=
  let t := tick s + 1 in
  let s1 :=
    match entries s !! k with
    | Some (old_size, old_tick) =>
        mkDisk (<[k := (size, t)]> (entries s)) (delete old_tick (by_tick s)) (total_bytes s - old_size) t
    | None => mkDisk (<[k := (size, t)]> (entries s)) (by_tick s) (total_bytes s) t
    end in
  let s2 := mkDisk (entries s1) (<[t := k]> (by_tick s1)) (total_bytes s1 + size) (tick s1) in
  evict (S (base.size (by_tick s2))) k max s2 [].

(** [DiskTier::insert]; [io_ok] is false when creating the directory, writing
    the temp file or renaming it fails. *)
Definition disk_insert (d : DiskTier) (k : BlockKey) (data : bytes) (io_ok : bool) (st : CacheStats)
    : option (bool * DiskTier * CacheStats) :=
  let tmp := tmp_counter d + 1 in
  if negb io_ok then Some (false, mkTier (max_bytes d) (dstate d) (dfiles d) tmp, st)
  else
    '(s, victims) ← disk_account (dstate d) k (blen data) (max_bytes d);
    let files := foldl (fun m v => delete (block_relative_path v) m)
                   (<[block_relative_path k := data]> (dfiles d)) victims in
    Some (true, mkTier (max_bytes d) s files tmp,
      mkStats (memory_hits st) (disk_hits st) (fetched_blocks st) (fetched_bytes st) (fetch_requests st)
        (fetch_waits st) (disk_evictions st + Z.of_nat (length victims)) (memory_evictions st)).

(** [rebuild_from_disk]: the files found under the split directories, in the
    order the system lists them. *)
Record FoundFile := { found_split : bytes; found_name : bytes; found_data : bytes }.

Fixpoint rfind_block (l : bytes) : option (bytes * bytes) :=
  match l with
  | [] => None
  | b :: l' =>
      match rfind_block l' with
      | Some (x, y) => Some (b :: x, y)
      | None => if starts_with l (str ".b") then Some ([], drop 2 l) else None
      end
  end.

Definition parse_block_name (name : bytes) : option (bytes * Z) :=
  if contains name (str ".tmp-cache") then None
  else '(file, index) ← rfind_block name; i ← parse_u64 index; Some (file, i).

Definition rebuild_one (acc : DiskState * gmap bytes bytes) (f : FoundFile) : DiskState * gmap bytes bytes :=
  let '(s, files) := acc in
  match parse_block_name (found_name f) with
  | None => (s, files)
  | Some (file_name, index) =>
      let k := (file_key (found_split f) file_name, index) in
      let t := tick s + 1 in
      let size := blen (found_data f) in
      (mkDisk (<[k := (size, t)]> (entries s)) (<[t := k]> (by_tick s)) (total_bytes s + size) t,
       <[file_key (found_split f) (found_name f) := found_data f]> files)
  end.

Definition rebuild_from_disk (found : list FoundFile) : DiskState * gmap bytes bytes :=
  foldl rebuild_one (empty_disk, ∅) found.

(** ** The cache *)

Section cache.
Context {L : Type} `{LruCache L} (hash : BlockKey -> Z).

Definition shard_of (k : BlockKey) : nat := Z.to_nat (hash k mod MEMORY_SHARDS).

Definition build (d : option DiskTier) (memory_bytes block_size : Z) : SplitCache L :=
  mkCache block_size d (replicate (Z.to_nat MEMORY_SHARDS) (mkShard lru_unbounded 0))
    (memory_bytes / MEMORY_SHARDS) ∅ no_stats.

Definition with_disk (d : option DiskTier) (c : SplitCache L) : SplitCache L :=
  mkCache (block_size c) d (memory c) (memory_shard_bytes c) (inflight c) (stats c).
Definition with_shard (i : nat) (sh : MemoryShard L) (c : SplitCache L) : SplitCache L :=
  mkCache (block_size c) (disk c) (<[i := sh]> (memory c)) (memory_shard_bytes c) (inflight c) (stats c).
Definition with_inflight (f : gset BlockKey) (c : SplitCache L) : SplitCache L :=
  mkCache (block_size c) (disk c) (memory c) (memory_shard_bytes c) f (stats c).
Definition with_stats (f : CacheStats -> CacheStats) (c : SplitCache L) : SplitCache L :=
  mkCache (block_size c) (disk c) (memory c) (memory_shard_bytes c) (inflight c) (f (stats c)).

Definition add_memory_hits (n : Z) (s : CacheStats) : CacheStats :=
  mkStats (memory_hits s + n) (disk_hits s) (fetched_blocks s) (fetched_bytes s) (fetch_requests s) (fetch_waits s)
    (disk_evictions s) (memory_evictions s).
Definition add_disk_hits (n : Z) (s : CacheStats) : CacheStats :=
  mkStats (memory_hits s) (disk_hits s + n) (fetched_blocks s) (fetched_bytes s) (fetch_requests s) (fetch_waits s)
    (disk_evictions s) (memory_evictions s).
Definition add_fetch_waits (n : Z) (s : CacheStats) : CacheStats :=
  mkStats (memory_hits s) (disk_hits s) (fetched_blocks s) (fetched_bytes s) (fetch_requests s) (fetch_waits s + n)
    (disk_evictions s) (memory_evictions s).
Definition add_memory_evictions (n : Z) (s : CacheStats) : CacheStats :=
  mkStats (memory_hits s) (disk_hits s) (fetched_blocks s) (fetched_bytes s) (fetch_requests s) (fetch_waits s)
    (disk_evictions s) (memory_evictions s + n).
Definition add_fetch (blocks byte_count : Z) (s : CacheStats) : CacheStats :=
  mkStats (memory_hits s) (disk_hits s) (fetched_blocks s + blocks) (fetched_bytes s + byte_count)
    (fetch_requests s + 1) (fetch_waits s) (disk_evictions s) (memory_evictions s).

(** The [while] of [insert_memory]; every turn pops an entry, or ends it. *)
Fixpoint shrink (fuel : nat) (budget : Z) (sh : MemoryShard L) (evicted : Z) : MemoryShard L * Z :=
  match fuel with
  | O => (sh, evicted)
  | S fuel =>
      if shard_bytes sh <=? budget then (sh, evicted)
      else
        match lru_pop (shard_blocks sh) with
        | (None, _) => (sh, evicted)
        | (Some e, l) => shrink fuel budget (mkShard l (shard_bytes sh - blen e.2)) (evicted + 1)
        end
  end.

(** [insert_memory]. *)
Definition insert_memory (c : SplitCache L) (k : BlockKey) (data : bytes) : SplitCache L :=
  let size := blen data in
  if memory_shard_bytes c <? size then c
  else
    let i := shard_of k in
    match memory c !! i with
    | None => c
    | Some sh =>
        let '(old, l) := lru_put (shard_blocks sh) k data in
        let b := (match old with Some o => shard_bytes sh - blen o | None => shard_bytes sh end) + size in
        let '(sh', evicted) := shrink (S (lru_len l)) (memory_shard_bytes c) (mkShard l b) 0 in
        with_stats (add_memory_evictions evicted) (with_shard i sh' c)
    end.

(** [get_block]; [during] is what other threads do between the touch and the
    file read. *)
Definition get_block (during : SplitCache L -> SplitCache L) (c : SplitCache L) (k : BlockKey) (expected_len : Z)
    : option bytes * SplitCache L :=
  let i := shard_of k in
  let '(hit, c1) :=
    match memory c !! i with
    | Some sh => let '(v, l) := lru_get (shard_blocks sh) k in (v, with_shard i (mkShard l (shard_bytes sh)) c)
    | None => (None, c)
    end in
  match hit with
  | Some v => (Some v, with_stats (add_memory_hits 1) c1)
  | None =>
      match disk c1 with
      | None => (None, c1)
      | Some d =>
          let '(held, s) := disk_touch (dstate d) k in
          let c2 := with_disk (Some (mkTier (max_bytes d) s (dfiles d) (tmp_counter d))) c1 in
          if negb held then (None, c2)
          else
            let c3 := during c2 in
            match disk c3 with
            | None => (None, c3)
            | Some d3 =>
                match dfiles d3 !! block_relative_path k with
                | Some data =>
                    if blen data =? expected_len
                    then (Some data, insert_memory (with_stats (add_disk_hits 1) c3) k data)
                    else (None, with_disk (Some (disk_forget d3 k)) c3)
                | None => (None, with_disk (Some (disk_forget d3 k)) c3)
                end
            end
      end
  end.

(** [put_block]: a failed disk write is not an error; [None] is a panic. *)
Definition put_block (c : SplitCache L) (k : BlockKey) (data : bytes) (io_ok : bool) : option (SplitCache L) :=
  c' ← match disk c with
       | None => Some c
       | Some d =>
           '(_, d', st) ← disk_insert d k data io_ok (stats c);
           Some (with_stats (fun _ => st) (with_disk (Some d') c))
       end;
  Some (insert_memory c' k data).

(** [claim]: what the caller must fetch, what another reader is fetching. *)
Fixpoint claim_loop (file : FileKey) (indices : list Z) (fl : gset BlockKey) (mine theirs : list Z)
    : gset BlockKey * list Z * list Z :=
  match indices with
  | [] => (fl, mine, theirs)
  | i :: indices =>
      if decide ((file, i) ∈ fl) then claim_loop file indices fl mine (theirs ++ [i])
      else claim_loop file indices ({[(file, i)]} ∪ fl) (mine ++ [i]) theirs
  end.
Definition claim (c : SplitCache L) (file : FileKey) (indices : list Z) : SplitCache L * list Z * list Z :=
  let '(fl, mine, theirs) := claim_loop file indices (inflight c) [] [] in (with_inflight fl c, mine, theirs).

(** [Drop for Claim]. *)
Definition drop_claim (c : SplitCache L) (file : FileKey) (mine : list Z) : SplitCache L :=
  match mine with
  | [] => c
  | _ => with_inflight (foldl (fun fl i => fl ∖ {[(file, i)]}) (inflight c) mine) c
  end.

(** What [wait_for] waits for. *)
Definition waiting (c : SplitCache L) (file : FileKey) (indices : list Z) : bool :=
  existsb (fun i => bool_decide ((file, i) ∈ inflight c)) indices.

Definition record_fetch (blocks byte_count : Z) (c : SplitCache L) : SplitCache L :=
  with_stats (add_fetch blocks byte_count) c.

(** ** The directory *)

Definition FETCH_CHUNK_BYTES : Z := Z.shiftl 8 20.
Definition NO_READ : Z := U64_MAX.

(** [LazyFileHandle]. *)
Record Handle := mkHandle { h_file : FileKey; h_span : FileSpan; h_last : Z }.

Definition continues_sequential_read (h : Handle) (first : Z) : bool :=
  negb (h_last h =? NO_READ) && ((first =? h_last h) || (first =? h_last h + 1)).

Definition block_len (flen bs index : Z) : Z := Z.min (flen - index * bs) bs.

Definition div_ceil (a b : Z) : Z := if a mod b =? 0 then a / b else a / b + 1.

(** Contiguous runs of the (sorted) indices, as half-open ranges. *)
Definition push_index (runs : list (Z * Z)) (index : Z) : list (Z * Z) :=
  match list.last runs with
  | Some (s, e) => if e =? index then removelast runs ++ [(s, e + 1)] else runs ++ [(index, index + 1)]
  | None => [(index, index + 1)]
  end.

Definition extend_last (runs : list (Z * Z)) (readahead total_blocks : Z) : list (Z * Z) :=
  match list.last runs with
  | Some (s, e) => removelast runs ++ [(s, Z.min (e + readahead) total_blocks)]
  | None => runs
  end.

(** [(start..end).step_by(n)], each step a chunk cut at the end. *)
Fixpoint cut (fuel : nat) (start end_ n : Z) : list (Z * Z) :=
  match fuel with
  | O => []
  | S fuel => if start <? end_ then (start, Z.min (start + n) end_) :: cut fuel (start + n) end_ n else []
  end.

Definition fetch_chunks (indices : list Z) (readahead flen bs : Z) : list (Z * Z) :=
  let total_blocks := div_ceil flen bs in
  let chunk_blocks := Z.max (FETCH_CHUNK_BYTES / bs) 1 in
  let runs := extend_last (foldl push_index [] indices) readahead total_blocks in
  runs ≫= fun r => cut (Z.to_nat (r.2 - r.1)) r.1 r.2 chunk_blocks.

Inductive ReadError := InvalidInput | StorageFailed (e : StorageError) | UnexpectedEof.

(** One ranged request. *)
Definition fetch_chunk (rd : Reader) (h : Handle) (bs : Z) (chunk : Z * Z) : result ReadError (Z * bytes) :=
  let from := chunk.1 * bs in
  let to := Z.min (chunk.2 * bs) (len (h_span h)) in
  match rd_get_range rd (offset (h_span h) + from) (offset (h_span h) + to) with
  | Err e => Err (StorageFailed e)
  | Ok data => if blen data =? to - from then Ok (chunk.1, data) else Err UnexpectedEof
  end.

(** The requests run concurrently; their results are taken in order, the first
    error wins. *)
Fixpoint fetch_all (rd : Reader) (h : Handle) (bs : Z) (chunks : list (Z * Z)) : result ReadError (list (Z * bytes)) :=
  match chunks with
  | [] => Ok []
  | ch :: chunks => d ← fetch_chunk rd h bs ch; ds ← fetch_all rd h bs chunks; Ok (d :: ds)
  end.

(** [slice::chunks]. *)
Fixpoint pieces (fuel : nat) (n : nat) (l : bytes) : list bytes :=
  match fuel, l with
  | S fuel, _ :: _ => take n l :: pieces fuel n (drop n l)
  | _, _ => []
  end.

(** Storing one response block by block; [io] says which disk writes succeed. *)
Fixpoint store_pieces (io : BlockKey -> bool) (file : FileKey) (index : Z) (ps : list bytes) (c : SplitCache L)
    : option (list (Z * bytes) * SplitCache L) :=
  match ps with
  | [] => Some ([], c)
  | p :: ps =>
      c ← put_block c (file, index) p (io (file, index));
      '(out, c) ← store_pieces io file (index + 1) ps c;
      Some ((index, p) :: out, c)
  end.

Fixpoint store_all (io : BlockKey -> bool) (file : FileKey) (fetched : list (Z * bytes)) (c : SplitCache L)
    : option (list (Z * bytes) * SplitCache L) :=
  match fetched with
  | [] => Some ([], c)
  | (first, data) :: fetched =>
      let ps := pieces (length data) (Z.to_nat (block_size c)) data in
      '(out, c) ← store_pieces io file first ps c;
      '(rest, c) ← store_all io file fetched (record_fetch (Z.of_nat (length ps)) (blen data) c);
      Some (out ++ rest, c)
  end.

Definition fetch (io : BlockKey -> bool) (rd : Reader) (c : SplitCache L) (h : Handle) (indices : list Z) (readahead : Z)
    : option (result ReadError (list (Z * bytes)) * SplitCache L) :=
  match fetch_all rd h (block_size c) (fetch_chunks indices readahead (len (h_span h)) (block_size c)) with
  | Err e => Some (Err e, c)
  | Ok fetched => '(out, c) ← store_all io (h_file h) fetched c; Some (Ok out, c)
  end.

(** Filling the free slots from the cache; the missing indices. *)
Fixpoint probe (during : SplitCache L -> SplitCache L) (h : Handle) (index : Z) (blocks : list (option bytes)) (c : SplitCache L)
    : list (option bytes) * list Z * SplitCache L :=
  match blocks with
  | [] => ([], [], c)
  | Some b :: blocks =>
      let '(bs, missing, c) := probe during h (index + 1) blocks c in (Some b :: bs, missing, c)
  | None :: blocks =>
      let '(v, c) := get_block during c (h_file h, index) (block_len (len (h_span h)) (block_size c) index) in
      let '(bs, missing, c) := probe during h (index + 1) blocks c in
      (v :: bs, match v with None => index :: missing | Some _ => missing end, c)
  end.

Definition fill (first last : Z) (fetched : list (Z * bytes)) (blocks : list (option bytes)) : list (option bytes) :=
  foldl (fun bl f => if (first <=? f.1) && (f.1 <=? last) then <[Z.to_nat (f.1 - first) := Some f.2]> bl else bl)
    blocks fetched.

Inductive ReadOutcome :=
| StillWaiting                 (** fuel spent: blocks kept being in flight elsewhere *)
| Panicked
| Failed (e : ReadError)
| Got (blocks : list (option bytes)).

(** What the rest of the system does around one pass of a read: other threads
    at the cache, the storage's answers, the outcomes of disk writes. *)
Record PassEnv := {
  pe_during : SplitCache L -> SplitCache L;
  pe_reader : Reader;
  pe_io : BlockKey -> bool;
  pe_others : SplitCache L -> SplitCache L;
}.

(** The loop of [read]. *)
Fixpoint read_loop (envs : list PassEnv) (h : Handle) (first last readahead : Z) (blocks : list (option bytes))
    (c : SplitCache L) : ReadOutcome * SplitCache L :=
  match envs with
  | [] => (StillWaiting, c)
  | env :: envs =>
      let '(blocks, missing, c) := probe (pe_during env) h first blocks c in
      match missing with
      | [] => (Got blocks, c)
      | _ =>
          let '(c, mine, theirs) := claim c (h_file h) missing in
          match (match mine with
                 | [] => Some (Ok [], c)
                 | _ => fetch (pe_io env) (pe_reader env) c h mine readahead
                 end) with
          | None => (Panicked, drop_claim c (h_file h) mine)
          | Some (Err e, c) => (Failed e, drop_claim c (h_file h) mine)
          | Some (Ok fetched, c) =>
              let blocks := fill first last fetched blocks in
              let c := drop_claim c (h_file h) mine in
              let c := match theirs with [] => c | _ => with_stats (add_fetch_waits 1) c end in
              read_loop envs h first last readahead blocks (pe_others env c)
          end
      end
  end.

(** [&l[from..to]]: out of range is a panic. *)
Definition slice_checked (l : bytes) (from to : Z) : option bytes :=
  if (from <=? to) && (to <=? blen l) then Some (obj_slice l from to) else None.

(** Cutting the answer out of the blocks of a multi-block read. *)
Fixpoint assemble (first bs from to : Z) (blocks : list bytes) : option bytes :=
  match blocks with
  | [] => Some []
  | b :: blocks =>
      let start := first * bs in
      p ← slice_checked b (Z.max 0 (from - start)) (Z.min (to - start) (blen b));
      rest ← assemble (first + 1) bs from to blocks;
      Some (p ++ rest)
  end.

Inductive ReadResult := Waits | Panics | ReadErr (e : ReadError) | ReadOk (data : bytes).

(** The answer of a read, of one block a slice of it. *)
Definition answer (first bs from to : Z) (blocks : list (option bytes)) : ReadResult :=
  match mapM id blocks with
  | None => Panics
  | Some [only] =>
      let s := from - first * bs in
      match slice_checked only s (s + (to - from)) with Some d => ReadOk d | None => Panics end
  | Some bl => match assemble first bs from to bl with Some d => ReadOk d | None => Panics end
  end.

(** [DirectoryInner::read]; the handle remembers the last block it read. *)
Definition read (envs : list PassEnv) (readahead_blocks : Z) (h : Handle) (from to : Z) (c : SplitCache L)
    : ReadResult * Handle * SplitCache L :=
  let flen := len (h_span h) in
  if (to <? from) || (flen <? to) then (ReadErr InvalidInput, h, c)
  else if from =? to then (ReadOk [], h, c)
  else
    let bs := block_size c in
    let first := from / bs in
    let last := (to - 1) / bs in
    let readahead := if (0 <? readahead_blocks) && continues_sequential_read h first then readahead_blocks else 0 in
    match read_loop envs h first last readahead (replicate (Z.to_nat (last - first + 1)) None) c with
    | (StillWaiting, c) => (Waits, h, c)
    | (Panicked, c) => (Panics, h, c)
    | (Failed e, c) => (ReadErr e, h, c)
    | (Got blocks, c) =>
        let h := mkHandle (h_file h) (h_span h) last in
        (answer first bs from to blocks, h, c)
    end.

End cache.

(** [StorageDirectory::handle]. *)
Definition open_handle (b : BundleMeta) (name : bytes) : option Handle :=
  span ← files b !! name;
  Some (mkHandle (file_key (split_id (split b)) name) span NO_READ).

(** ** Lemmas: the disk tier's two maps *)

Definition sizes_total (m : gmap BlockKey (Z * Z)) : Z := map_fold (fun _ v acc => v.1 + acc) 0 m.

Lemma sizes_total_insert m k v : m !! k = None -> sizes_total (<[k := v]> m) = v.1 + sizes_total m.
Proof. intros Hk. unfold sizes_total. rewrite map_fold_insert_L; [done| |done]. intros. lia. Qed.

Lemma sizes_total_delete m k v : m !! k = Some v -> sizes_total (delete k m) = sizes_total m - v.1.
Proof.
  intros Hk. rewrite <- (insert_delete_id m k v Hk) at 2.
  rewrite sizes_total_insert by apply lookup_delete_eq. lia.
Qed.

Lemma sizes_total_replace m k v w : m !! k = Some v -> sizes_total (<[k := w]> m) = sizes_total m - v.1 + w.1.
Proof.
  intros Hk. rewrite <- insert_delete_eq. rewrite sizes_total_insert by apply lookup_delete_eq.
  rewrite (sizes_total_delete m k v Hk). lia.
Qed.

Lemma sizes_total_nonneg m : map_Forall (fun _ v => 0 <= v.1) m -> 0 <= sizes_total m.
Proof.
  induction m as [|k v m Hk IH] using map_ind; intros Hm; [done|].
  rewrite sizes_total_insert by done. apply map_Forall_insert in Hm as [Hv Hm]; [|done]. specialize (IH Hm). lia.
Qed.

(** The recency map mirrors the entries, the total is theirs, every tick is
    past. *)
Record disk_inv (s : DiskState) : Prop := {
  di_mirror t k : by_tick s !! t = Some k <-> exists size, entries s !! k = Some (size, t);
  di_total : total_bytes s = sizes_total (entries s);
  di_ticks t k : by_tick s !! t = Some k -> t <= tick s;
  di_sizes k v : entries s !! k = Some v -> 0 <= v.1;
}.

Lemma empty_disk_inv : disk_inv empty_disk.
Proof. split; simpl; intros; try done. rewrite lookup_empty. split; [done|]. intros [? H]. by rewrite lookup_empty in H. Qed.

Lemma di_nonneg s : disk_inv s -> 0 <= total_bytes s.
Proof. intros Hi. rewrite (di_total s Hi). apply sizes_total_nonneg. intros k v. apply (di_sizes s Hi). Qed.

Lemma di_fresh s t : disk_inv s -> tick s < t -> by_tick s !! t = None.
Proof. intros Hi Ht. destruct (by_tick s !! t) as [k|] eqn:E; [|done]. apply (di_ticks s Hi) in E. lia. Qed.

Lemma di_unique s k size t size' t' : entries s !! k = Some (size, t) -> entries s !! k = Some (size', t') -> t = t' /\ size = size'.
Proof. naive_solver. Qed.

(** Removing an entry from both maps. *)
Lemma disk_inv_drop s k size t : disk_inv s -> entries s !! k = Some (size, t) ->
  disk_inv (mkDisk (delete k (entries s)) (delete t (by_tick s)) (total_bytes s - size) (tick s)).
Proof.
  intros Hi Ek. assert (by_tick s !! t = Some k) as Et by (apply (di_mirror s Hi); eauto). split; simpl.
  - intros t' k'. destruct (decide (t' = t)) as [->|Hne].
    + rewrite lookup_delete_eq. split; [done|]. intros [sz [Hk Hsz]%lookup_delete_Some].
      assert (by_tick s !! t = Some k') by (apply (di_mirror s Hi); eauto). congruence.
    + rewrite lookup_delete_ne by done. rewrite (di_mirror s Hi). split.
      * intros [sz Hsz]. exists sz. rewrite lookup_delete_ne; [done|]. intros <-. naive_solver.
      * intros [sz [Hk Hsz]%lookup_delete_Some]. eauto.
  - by rewrite (sizes_total_delete _ _ _ Ek), (di_total s Hi).
  - intros t' k' [_ E]%lookup_delete_Some. by apply (di_ticks s Hi) in E.
  - intros k' v [_ E]%lookup_delete_Some. by apply (di_sizes s Hi) in E.
Qed.

(** Adding an entry with a fresh tick. *)
Lemma disk_inv_add s k size t : disk_inv s -> entries s !! k = None -> 0 <= size -> tick s < t ->
  disk_inv (mkDisk (<[k := (size, t)]> (entries s)) (<[t := k]> (by_tick s)) (total_bytes s + size) t).
Proof.
  intros Hi Ek Hs Ht. pose proof (di_fresh s t Hi Ht) as Hft. split; simpl.
  - intros t' k'. destruct (decide (t' = t)) as [->|Hne], (decide (k' = k)) as [->|Hk];
      rewrite ?lookup_insert_eq, ?lookup_insert_ne by done.
    + split; [eauto|done].
    + split; [congruence|]. rewrite <- (di_mirror s Hi), Hft. done.
    + rewrite (di_mirror s Hi), Ek. naive_solver.
    + apply (di_mirror s Hi).
  - rewrite sizes_total_insert by done. rewrite (di_total s Hi). simpl. lia.
  - intros t' k'. destruct (decide (t' = t)) as [->|Hne]; [rewrite lookup_insert_eq; lia|].
    rewrite lookup_insert_ne by done. intros E. apply (di_ticks s Hi) in E. lia.
  - intros k' v. destruct (decide (k' = k)) as [->|Hk]; [rewrite lookup_insert_eq; by intros [= <-]|].
    rewrite lookup_insert_ne by done. apply (di_sizes s Hi).
Qed.

(** One step of bookkeeping: [k] gets a size and a fresh tick. *)
Lemma disk_inv_set s k size t : disk_inv s -> 0 <= size -> tick s < t ->
  disk_inv (match entries s !! k with
            | Some (old_size, old) =>
                mkDisk (<[k := (size, t)]> (entries s)) (<[t := k]> (delete old (by_tick s))) (total_bytes s - old_size + size) t
            | None => mkDisk (<[k := (size, t)]> (entries s)) (<[t := k]> (by_tick s)) (total_bytes s + size) t
            end).
Proof.
  intros Hi Hs Ht. destruct (entries s !! k) as [[os old]|] eqn:Ek; [|by apply disk_inv_add].
  pose proof (disk_inv_add (mkDisk (delete k (entries s)) (delete old (by_tick s)) (total_bytes s - os) (tick s)) k size t
    (disk_inv_drop s k os old Hi Ek) (lookup_delete_eq _ _) Hs Ht) as Ha.
  simpl in Ha. by rewrite insert_delete_eq in Ha.
Qed.

Lemma disk_touch_inv s k : disk_inv s -> disk_inv (disk_touch s k).2.
Proof.
  intros Hi. unfold disk_touch. destruct (entries s !! k) as [[sz old]|] eqn:Ek; simpl.
  - pose proof (disk_inv_set s k sz (tick s + 1) Hi (di_sizes s Hi _ _ Ek) ltac:(lia)) as Hs. rewrite Ek in Hs.
    by replace (total_bytes s - sz + sz) with (total_bytes s) in Hs by lia.
  - split; simpl; try apply Hi. intros t k' E. apply (di_ticks s Hi) in E. lia.
Qed.

Lemma disk_forget_inv d k : disk_inv (dstate d) -> disk_inv (dstate (disk_forget d k)).
Proof.
  intros Hi. unfold disk_forget. simpl. destruct (entries (dstate d) !! k) as [[sz t]|] eqn:Ek; [|done].
  by apply disk_inv_drop.
Qed.

Lemma first_tick_spec m t : first_tick m = Some t ->
  is_Some (m !! t) /\ forall t' k, m !! t' = Some k -> t <= t'.
Proof.
  unfold first_tick. intros E.
  assert (StronglySorted Z.le (merge_sort Z.le (elements (dom m)))) as Hs by (apply StronglySorted_merge_sort; apply _).
  assert (forall x, x ∈ merge_sort Z.le (elements (dom m)) <-> is_Some (m !! x)) as Hin.
  { intros x. rewrite merge_sort_Permutation, elem_of_elements. apply elem_of_dom. }
  destruct (merge_sort Z.le (elements (dom m))) as [|x l]; simplify_eq/=. split; [apply Hin; left|].
  intros t' k Hk. assert (t' ∈ t :: l) as Ht by (apply Hin; eauto).
  apply elem_of_cons in Ht as [->|Ht]; [lia|]. apply StronglySorted_inv in Hs as [_ Hs]. by eapply (proj1 (Forall_forall _ _)) in Hs.
Qed.

Lemma first_tick_None m : first_tick m = None -> m = ∅.
Proof.
  unfold first_tick. intros E. apply head_None in E.
  assert (elements (dom m) = []) as E' by (apply Permutation_nil_r; by rewrite <- (merge_sort_Permutation Z.le), E).
  apply elements_empty_inv in E'. apply leibniz_equiv in E'. by apply dom_empty_inv_L.
Qed.

(** What an eviction leaves: [vs] are gone, everything else stays. *)
Record evicted (k : BlockKey) (max : Z) (s s' : DiskState) (vs : list BlockKey) : Prop := {
  ev_inv : disk_inv s';
  ev_tick : tick s' = tick s;
  ev_entries k' v : entries s' !! k' = Some v <-> entries s !! k' = Some v /\ k' ∉ vs;
  ev_budget : total_bytes s' <= max \/ forall k' v, entries s' !! k' = Some v -> k' = k;
  ev_spared : k ∉ vs;
  ev_held v : v ∈ vs -> is_Some (entries s !! v);
  ev_nodup : NoDup vs;
  ev_lru v k' sv tv sk tk : v ∈ vs -> k' ∉ vs ->
    entries s !! v = Some (sv, tv) -> entries s !! k' = Some (sk, tk) -> tv < tk;
}.

Lemma evicted_none k max s :
  disk_inv s -> total_bytes s <= max \/ (forall k' v, entries s !! k' = Some v -> k' = k) -> evicted k max s s [].
Proof.
  intros Hi Hb. split; try done.
  - set_solver.
  - apply not_elem_of_nil.
  - intros v Hv. by apply not_elem_of_nil in Hv.
  - constructor.
  - intros v k' sv tv sk tk Hv. by apply not_elem_of_nil in Hv.
Qed.

Lemma evict_spec fuel k max s victims size :
  disk_inv s -> entries s !! k = Some (size, tick s) -> (base.size (by_tick s) < fuel)%nat ->
  exists s' vs, evict fuel k max s victims = Some (s', victims ++ vs) /\ evicted k max s s' vs.
Proof.
  revert s victims. induction fuel as [|fuel IH]; intros s victims Hi Hk Hf; [lia|]. simpl.
  destruct (Z.leb_spec (total_bytes s) max) as [Hle|Hgt].
  { exists s, []. rewrite app_nil_r. split; [done|]. apply evicted_none; [done|by left]. }
  destruct (first_tick (by_tick s)) as [vt|] eqn:Et.
  2:{ apply first_tick_None in Et. assert (by_tick s !! tick s = Some k) as Hb by (apply (di_mirror s Hi); eauto).
      by rewrite Et, lookup_empty in Hb. }
  apply first_tick_spec in Et as [[victim Hv] Hleast]. rewrite Hv. simpl.
  assert (by_tick s !! tick s = Some k) as Hb by (apply (di_mirror s Hi); eauto).
  destruct (decide (victim = k)) as [->|Hne].
  - assert (vt = tick s) as ->.
    { apply (di_mirror s Hi) in Hv as [sz Hsz]. naive_solver. }
    rewrite insert_delete_eq, insert_id by done. exists s, []. rewrite app_nil_r.
    split; [by destruct s|]. apply evicted_none; [done|right]. intros k' [sz t'] Hk'.
    assert (by_tick s !! t' = Some k') as Hb' by (apply (di_mirror s Hi); eauto).
    assert (t' = tick s) as -> by (pose proof (Hleast _ _ Hb'); pose proof (di_ticks s Hi _ _ Hb'); lia). congruence.
  - pose proof (proj1 (di_mirror s Hi _ _) Hv) as [vs_ Hvs]. rewrite Hvs. simpl.
    assert (0 <= total_bytes s - vs_) as Hnn.
    { rewrite (di_total s Hi). pose proof (sizes_total_delete _ _ _ Hvs) as Hd. simpl in Hd.
      assert (0 <= sizes_total (delete victim (entries s))); [|lia].
      apply sizes_total_nonneg. intros k' v [_ E]%lookup_delete_Some. by apply (di_sizes s Hi) in E. }
    destruct (Z.ltb_spec (total_bytes s) vs_); [lia|].
    pose proof (disk_inv_drop s victim vs_ vt Hi Hvs) as Hi'.
    destruct (IH _ (victims ++ [victim]) Hi') as (s' & vs & -> & He); simpl.
    { by rewrite lookup_delete_ne. }
    { rewrite map_size_delete, Hv. simpl. pose proof (map_size_ne_0_lookup_2 (by_tick s) vt ltac:(eauto)). lia. }
    exists s', (victim :: vs). rewrite <- app_assoc. split; [done|].
    assert (forall k' v, entries s' !! k' = Some v <-> entries s !! k' = Some v /\ k' ∉ victim :: vs) as Hent.
    { intros k' v. rewrite (ev_entries _ _ _ _ _ He), not_elem_of_cons. simpl. rewrite lookup_delete_Some. naive_solver. }
    split.
    + apply He. + apply (ev_tick _ _ _ _ _ He). + exact Hent. + apply (ev_budget _ _ _ _ _ He).
    + rewrite not_elem_of_cons. split; [done|apply He].
    + intros v [->|Hin]%elem_of_cons; [eauto|]. destruct (ev_held _ _ _ _ _ He v Hin) as [x Hx]. simpl in Hx. apply lookup_delete_Some in Hx as [_ Hx]. eauto.
    + constructor; [|apply He]. intros Hin. destruct (ev_held _ _ _ _ _ He victim Hin) as [x Hx]. simpl in Hx. by rewrite lookup_delete_eq in Hx.
    + intros v k' sv tv sk tk [->|Hin]%elem_of_cons [Hk1 Hk2]%not_elem_of_cons Ev Ek'.
      * assert (tv = vt) as -> by naive_solver.
        assert (by_tick s !! tk = Some k') as Hb' by (apply (di_mirror s Hi); eauto).
        pose proof (Hleast _ _ Hb'). assert (vt <> tk) by congruence. lia.
      * destruct (decide (v = victim)) as [->|Hvne].
        { destruct (ev_held _ _ _ _ _ He victim Hin) as [x Hx]. simpl in Hx. by rewrite lookup_delete_eq in Hx. }
        eapply (ev_lru _ _ _ _ _ He v k'); eauto; simpl; by rewrite lookup_delete_ne.
Qed.

(** The bookkeeping of an insert: it never panics. *)
Lemma disk_account_spec s k size max : disk_inv s -> 0 <= size ->
  let s2 := match entries s !! k with
            | Some (old_size, old) =>
                mkDisk (<[k := (size, tick s + 1)]> (entries s)) (<[tick s + 1 := k]> (delete old (by_tick s)))
                  (total_bytes s - old_size + size) (tick s + 1)
            | None => mkDisk (<[k := (size, tick s + 1)]> (entries s)) (<[tick s + 1 := k]> (by_tick s))
                        (total_bytes s + size) (tick s + 1)
            end in
  exists s' vs, disk_account s k size max = Some (s', vs) /\ evicted k max s2 s' vs /\
    entries s2 = <[k := (size, tick s + 1)]> (entries s) /\ entries s' !! k = Some (size, tick s + 1).
Proof.
  intros Hi Hs s2. pose proof (disk_inv_set s k size (tick s + 1) Hi Hs ltac:(lia)) as Hi2. fold s2 in Hi2.
  assert (disk_account s k size max = evict (S (base.size (by_tick s2))) k max s2 []) as ->.
  { unfold disk_account, s2. by destruct (entries s !! k) as [[os old]|]. }
  assert (entries s2 = <[k := (size, tick s + 1)]> (entries s)) as Ee
    by (unfold s2; by destruct (entries s !! k) as [[os old]|]).
  assert (tick s2 = tick s + 1) as Et by (unfold s2; by destruct (entries s !! k) as [[os old]|]).
  destruct (evict_spec (S (base.size (by_tick s2))) k max s2 [] size Hi2) as (s' & vs & Ev & He);
    [by rewrite Ee, Et, lookup_insert_eq|lia|].
  exists s', vs. split; [done|]. split; [done|]. split; [done|].
  apply (ev_entries _ _ _ _ _ He). split; [by rewrite Ee, lookup_insert_eq|apply (ev_spared _ _ _ _ _ He)].
Qed.

(** ** Lemmas: slices *)

Lemma obj_slice_len l a b : 0 <= a <= b -> b <= blen l -> blen (obj_slice l a b) = b - a.
Proof. intros H Hb. unfold obj_slice, slice. rewrite length_take, length_drop. lia. Qed.

Lemma obj_slice_cat l a b c : 0 <= a <= b -> b <= c -> obj_slice l a b ++ obj_slice l b c = obj_slice l a c.
Proof.
  intros H Hc. unfold obj_slice, slice.
  assert (take (Z.to_nat c - Z.to_nat a) (drop (Z.to_nat a) l) =
          take ((Z.to_nat b - Z.to_nat a) + (Z.to_nat c - Z.to_nat b)) (drop (Z.to_nat a) l)) as -> by (f_equal; lia).
  rewrite <- (take_drop (Z.to_nat b - Z.to_nat a) (take (_ + _) _)).
  rewrite take_take, skipn_firstn_comm, drop_drop.
  replace ((Z.to_nat b - Z.to_nat a) `min` ((Z.to_nat b - Z.to_nat a) + (Z.to_nat c - Z.to_nat b)))%nat
    with (Z.to_nat b - Z.to_nat a)%nat by lia.
  f_equal. f_equal; [lia|]. f_equal. lia.
Qed.

Lemma obj_slice_slice l a b c d : 0 <= a -> 0 <= c <= d -> d <= b - a ->
  obj_slice (obj_slice l a b) c d = obj_slice l (a + c) (a + d).
Proof.
  intros Ha Hc Hd. unfold obj_slice, slice. rewrite skipn_firstn_comm, drop_drop, take_take.
  f_equal; [lia|]. f_equal. lia.
Qed.

Lemma obj_slice_nil l a : obj_slice l a a = [].
Proof. unfold obj_slice, slice. by rewrite Nat.sub_diag. Qed.

Lemma obj_slice_whole l : obj_slice l 0 (blen l) = l.
Proof. unfold obj_slice, slice. simpl. rewrite Nat2Z.id, drop_0, Nat.sub_0_r. by apply take_ge. Qed.

(** ** Lemmas: chunks *)

Definition in_ranges (rs : list (Z * Z)) (x : Z) : Prop := exists r, r ∈ rs /\ r.1 <= x < r.2.
Definition good_ranges (lo hi : Z) (rs : list (Z * Z)) : Prop := Forall (fun r => lo <= r.1 < r.2 /\ r.2 <= hi) rs.

Lemma last_split {A} (l : list A) x : list.last l = Some x -> l = removelast l ++ [x].
Proof.
  intros E. destruct (exists_last (l := l)) as (l' & y & ->); [by destruct l|].
  rewrite last_snoc in E. injection E as ->. by rewrite removelast_last.
Qed.

Lemma in_ranges_app a b x : in_ranges (a ++ b) x <-> in_ranges a x \/ in_ranges b x.
Proof. unfold in_ranges. setoid_rewrite elem_of_app. naive_solver. Qed.
Lemma in_ranges_one s e x : in_ranges [(s, e)] x <-> s <= x < e.
Proof. unfold in_ranges. setoid_rewrite list_elem_of_singleton. naive_solver. Qed.
Lemma in_ranges_nil x : ~ in_ranges [] x.
Proof. intros (r & Hr & _). by apply not_elem_of_nil in Hr. Qed.

Lemma push_index_spec runs i lo hi : good_ranges lo hi runs -> lo <= i < hi ->
  good_ranges lo hi (push_index runs i) /\ forall x, in_ranges (push_index runs i) x <-> in_ranges runs x \/ x = i.
Proof.
  intros Hg Hi. unfold push_index. destruct (list.last runs) as [[s e]|] eqn:El.
  - apply last_split in El. set (r := removelast runs) in *. rewrite El in Hg |- *.
    apply Forall_app in Hg as [Hg Hl]. apply Forall_cons in Hl as [Hl _]. simpl in Hl.
    destruct (Z.eqb_spec e i) as [->|Hne].
    + split; [apply Forall_app; split; [done|]; apply Forall_singleton; simpl; lia|].
      intros x. rewrite !in_ranges_app, !in_ranges_one. intuition lia.
    + split; [apply Forall_app; split; [apply Forall_app; split; [done|apply Forall_singleton; simpl; lia]|apply Forall_singleton; simpl; lia]|].
      intros x. rewrite !in_ranges_app, !in_ranges_one. intuition lia.
  - apply last_None in El as ->. split; [apply Forall_singleton; simpl; lia|].
    intros x. rewrite in_ranges_one. pose proof (in_ranges_nil x). intuition lia.
Qed.

Lemma runs_spec indices runs lo hi : good_ranges lo hi runs -> Forall (fun i => lo <= i < hi) indices ->
  good_ranges lo hi (foldl push_index runs indices) /\
  forall x, in_ranges (foldl push_index runs indices) x <-> in_ranges runs x \/ x ∈ indices.
Proof.
  revert runs. induction indices as [|i indices IH]; intros runs Hg Hi; simpl.
  - split; [done|]. intros x. set_solver.
  - apply Forall_cons in Hi as [Hi His]. destruct (push_index_spec runs i lo hi Hg Hi) as [Hg' Hx].
    destruct (IH _ Hg' His) as [Hg'' Hx'']. split; [done|]. intros x. rewrite Hx'', Hx, elem_of_cons. tauto.
Qed.

Lemma extend_last_spec runs ra hi lo : good_ranges lo hi runs -> 0 <= ra ->
  good_ranges lo hi (extend_last runs ra hi) /\ forall x, in_ranges runs x -> in_ranges (extend_last runs ra hi) x.
Proof.
  intros Hg Hra. unfold extend_last. destruct (list.last runs) as [[s e]|] eqn:El; [|done].
  apply last_split in El. set (r := removelast runs) in *. rewrite El in Hg |- *.
  apply Forall_app in Hg as [Hg Hl]. apply Forall_cons in Hl as [Hl _]. simpl in Hl. split.
  - apply Forall_app. split; [done|]. apply Forall_singleton. simpl. lia.
  - intros x. rewrite !in_ranges_app, !in_ranges_one. intuition lia.
Qed.

Lemma cut_spec fuel s e n : 1 <= n -> e - s <= Z.of_nat fuel ->
  Forall (fun c => s <= c.1 < c.2 /\ c.2 <= e /\ c.2 - c.1 <= n) (cut fuel s e n) /\
  forall x, in_ranges (cut fuel s e n) x <-> s <= x < e.
Proof.
  intros Hn. revert s. induction fuel as [|fuel IH]; intros s Hf; simpl.
  { split; [constructor|]. intros x. pose proof (in_ranges_nil x). intuition lia. }
  destruct (Z.ltb_spec s e) as [Hlt|Hge].
  2:{ split; [constructor|]. intros x. pose proof (in_ranges_nil x). intuition lia. }
  destruct (IH (s + n) ltac:(lia)) as [Hc Hx]. split.
  - constructor; [simpl; lia|]. eapply Forall_impl; [exact Hc|]. simpl. intros [a b]. simpl. lia.
  - intros x. change ((s, Z.min (s + n) e) :: cut fuel (s + n) e n) with ([(s, Z.min (s + n) e)] ++ cut fuel (s + n) e n).
    rewrite in_ranges_app, in_ranges_one, Hx. intuition lia.
Qed.

Definition total_blocks (flen bs : Z) : Z := div_ceil flen bs.

Lemma total_blocks_spec flen bs : 0 < bs -> 0 <= flen ->
  0 <= total_blocks flen bs /\ flen <= total_blocks flen bs * bs /\ forall i, i < total_blocks flen bs <-> i * bs < flen.
Proof.
  intros Hb Hf. unfold total_blocks, div_ceil. pose proof (Z.div_mod flen bs ltac:(lia)) as Hd.
  pose proof (Z.mod_pos_bound flen bs Hb) as Hm. pose proof (Z.div_pos flen bs Hf Hb).
  destruct (Z.eqb_spec (flen mod bs) 0); (split; [lia|]; split; [nia|]; intros i; split; nia).
Qed.

Lemma chunks_spec indices ra flen bs : 0 < bs -> 0 <= flen -> 0 <= ra ->
  Forall (fun i => 0 <= i < total_blocks flen bs) indices ->
  let chunks := fetch_chunks indices ra flen bs in
  Forall (fun c => 0 <= c.1 < c.2 /\ c.2 <= total_blocks flen bs /\ c.2 - c.1 <= Z.max (FETCH_CHUNK_BYTES / bs) 1) chunks /\
  (forall i, i ∈ indices -> in_ranges chunks i).
Proof.
  intros Hb Hf Hra Hi. cbv zeta. unfold fetch_chunks. fold (total_blocks flen bs).
  destruct (runs_spec indices [] 0 (total_blocks flen bs) ltac:(constructor) Hi) as [Hg Hx].
  destruct (extend_last_spec _ ra _ _ Hg Hra) as [Hg' Hx'].
  set (runs := extend_last _ _ _) in *. set (n := Z.max _ _). split.
  - apply Forall_bind. eapply Forall_impl; [exact Hg'|]. intros [s e]; simpl. intros [H1 H2].
    destruct (cut_spec (Z.to_nat (e - s)) s e n ltac:(lia) ltac:(lia)) as [Hc _].
    eapply Forall_impl; [exact Hc|]. intros [a b]; simpl. lia.
  - intros i Hin. assert (in_ranges runs i) as (r & Hr & Hri) by (apply Hx', Hx; by right).
    destruct (cut_spec (Z.to_nat (r.2 - r.1)) r.1 r.2 n ltac:(lia) ltac:(lia)) as [_ Hc].
    destruct (proj2 (Hc i) Hri) as (c & Hc1 & Hc2). exists c. split; [|done].
    apply list_elem_of_bind. eauto.
Qed.

(** ** Lemmas: block paths *)

Lemma rfind_block_none l : x2e ∉ l -> rfind_block l = None.
Proof.
  induction l as [|b l IH]; [done|]. rewrite not_elem_of_cons. intros [Hb Hl]. cbn [rfind_block]. rewrite IH by done.
  assert (starts_with (b :: l) (str ".b") = false) as ->; [|done].
  apply not_true_is_false. rewrite starts_with_spec. intros [r E]. simpl in E. congruence.
Qed.

Lemma rfind_block_app x y : x2e ∉ y -> rfind_block (x ++ str ".b" ++ y) = Some (x, y).
Proof.
  intros Hy. change (str ".b" ++ y) with (x2e :: x62 :: y). induction x as [|b x IH].
  - cbn [app rfind_block]. rewrite (rfind_block_none y) by done.
    assert (starts_with (x62 :: y) (str ".b") = false) as ->.
    { apply not_true_is_false. rewrite starts_with_spec. intros [r E]. done. }
    assert (starts_with (x2e :: x62 :: y) (str ".b") = true) as ->; [|done].
    apply starts_with_spec. by exists y.
  - cbn [app rfind_block]. by rewrite IH.
Qed.

Lemma dec_no_dot z : x2e ∉ dec z.
Proof.
  unfold dec. generalize (N.to_uint (Z.to_N z)) as d. induction d; simpl; rewrite ?elem_of_cons; try naive_solver.
  apply not_elem_of_nil.
Qed.

Lemma dec_inj a b : 0 <= a -> 0 <= b -> dec a = dec b -> a = b.
Proof.
  intros Ha Hb E. unfold dec in E. apply (f_equal bytes_uint) in E. rewrite !bytes_uint_bytes in E.
  injection E as E. apply (f_equal N.of_uint) in E. rewrite !DecimalN.Unsigned.of_to in E. lia.
Qed.

Lemma block_path_inj f i g j : 0 <= i -> 0 <= j ->
  block_relative_path (f, i) = block_relative_path (g, j) -> f = g /\ i = j.
Proof.
  intros Hi Hj E. unfold block_relative_path in E. simpl fst in E. simpl snd in E.
  apply (f_equal rfind_block) in E. rewrite !rfind_block_app in E by apply dec_no_dot.
  injection E as -> E. split; [done|]. by apply dec_inj.
Qed.

(** A block file's name parses back to its block. *)
Lemma parse_block_name_dec name i : 0 <= i <= U64_MAX ->
  contains (name ++ str ".b" ++ dec i) (str ".tmp-cache") = false ->
  parse_block_name (name ++ str ".b" ++ dec i) = Some (name, i).
Proof.
  intros Hi Hc. unfold parse_block_name. rewrite Hc. rewrite rfind_block_app by apply dec_no_dot. simpl.
  by rewrite parse_u64_dec.
Qed.

(** ** Lemmas: the memory tier *)

Definition bytes_held (es : list (BlockKey * bytes)) : Z := foldr (fun e acc => blen e.2 + acc) 0 es.

Lemma bytes_held_app a b : bytes_held (a ++ b) = bytes_held a + bytes_held b.
Proof. unfold bytes_held. induction a as [|x a IH]; simpl; lia. Qed.
Lemma bytes_held_nonneg es : 0 <= bytes_held es.
Proof. unfold bytes_held. induction es; simpl; lia. Qed.

Lemma bytes_held_remove es k v : NoDup es.*1 -> (k, v) ∈ es ->
  bytes_held (filter (fun e => e.1 <> k) es) = bytes_held es - blen v.
Proof.
  induction es as [|[k' v'] es IH]; simpl; [intros _ Hn; by apply not_elem_of_nil in Hn|].
  intros [Hn Hd]%NoDup_cons Hin. rewrite filter_cons. simpl. destruct (decide (k' <> k)) as [Hne|He]; simpl.
  - apply elem_of_cons in Hin as [Hin|Hin]; [congruence|]. rewrite IH by done. lia.
  - assert (k' = k) as -> by (destruct (decide (k' = k)); tauto).
    apply elem_of_cons in Hin as [[= ->]|Hin]; [|exfalso; apply Hn; apply list_elem_of_fmap; by exists (k, v)].
    rewrite filter_every; [lia|]. apply Forall_forall. intros [k'' v''] Hx Hk. simpl in Hk. subst.
    apply Hn, list_elem_of_fmap. by exists (k, v'').
Qed.

Lemma remove_absent es k : k ∉ es.*1 -> filter (fun e : BlockKey * bytes => e.1 <> k) es = es.
Proof. intros Hn. apply filter_every, Forall_forall. intros e He Hk. apply Hn, list_elem_of_fmap. exists e. by subst. Qed.

Section tiers.
Context {L : Type} `{LruLaws L} (hash : BlockKey -> Z).

(** What the pops of the [while] leave: the most recent entries that fit. *)
Lemma shrink_spec fuel budget sh n : 0 <= budget ->
  shard_bytes sh = bytes_held (lru_list (shard_blocks sh)) ->
  (length (lru_list (shard_blocks sh)) < fuel)%nat ->
  let sh' := (shrink fuel budget sh n).1 in
  shard_bytes sh' = bytes_held (lru_list (shard_blocks sh')) /\ shard_bytes sh' <= budget /\
  exists popped, lru_list (shard_blocks sh) = lru_list (shard_blocks sh') ++ popped /\
    (popped = [] \/ budget < bytes_held (lru_list (shard_blocks sh') ++ take 1 popped)).
Proof.
  intros Hb. revert sh n. induction fuel as [|fuel IH]; intros sh n Hs Hf; [lia|]. cbn [shrink].
  destruct (Z.leb_spec (shard_bytes sh) budget) as [Hle|Hgt].
  { simpl. split; [done|]. split; [done|]. exists []. rewrite app_nil_r. split; [done|by left]. }
  pose proof (lru_pop_spec (shard_blocks sh)) as Hp. destruct (lru_pop (shard_blocks sh)) as [[e|] l]; simpl in *.
  2:{ exfalso. destruct Hp as [Hp _]. rewrite Hp in Hs. simpl in Hs. lia. }
  assert (shard_bytes sh - blen e.2 = bytes_held (lru_list l)) as Hs'
    by (rewrite Hs, Hp, bytes_held_app; simpl; lia).
  assert (length (lru_list l) < fuel)%nat as Hf' by (rewrite Hp, length_app in Hf; simpl in Hf; lia).
  destruct (IH (mkShard l (shard_bytes sh - blen e.2)) (n + 1) Hs' Hf') as (H1 & H2 & popped & H3 & H4). simpl in *.
  split; [done|]. split; [done|]. exists (popped ++ [e]). rewrite Hp, H3. split; [by rewrite app_assoc|]. right.
  destruct H4 as [->|H4].
  - rewrite app_nil_r in H3. simpl. rewrite <- H3, <- Hp, <- Hs. lia.
  - destruct popped as [|p popped]; [|exact H4]. simpl in *. rewrite app_nil_r in *. lia.
Qed.

Lemma shrink_sub fuel budget sh n e :
  e ∈ lru_list (shard_blocks (shrink fuel budget sh n).1) -> e ∈ lru_list (shard_blocks sh).
Proof.
  revert sh n. induction fuel as [|fuel IH]; intros sh n; [done|]. cbn [shrink].
  destruct (shard_bytes sh <=? budget); [done|].
  pose proof (lru_pop_spec (shard_blocks sh)) as Hp. destruct (lru_pop (shard_blocks sh)) as [[x|] l]; simpl in *; [|done].
  intros Hin%IH. rewrite Hp. simpl in Hin. apply elem_of_app. by left.
Qed.

(** ** Lemmas: what the cache holds of one file *)

Section content.
Context (content : bytes) (fk : FileKey) (bs : Z).

Definition block_at (i : Z) : bytes := obj_slice content (i * bs) (i * bs + block_len (blen content) bs i).

(** Every cached block of the file that can be served is the file's block. *)
Record holds (c : SplitCache L) : Prop := {
  ho_bs : block_size c = bs;
  ho_mem n sh k v : memory c !! n = Some sh -> (k, v) ∈ lru_list (shard_blocks sh) ->
    k.1 = fk -> 0 <= k.2 -> v = block_at k.2;
  ho_disk d i data : disk c = Some d -> 0 <= i -> dfiles d !! block_relative_path (fk, i) = Some data ->
    blen data = block_len (blen content) bs i -> data = block_at i;
  ho_inv d : disk c = Some d -> disk_inv (dstate d);
}.

Lemma holds_memory c c' : holds c -> block_size c' = block_size c -> disk c' = disk c -> memory c' = memory c -> holds c'.
Proof. intros [H1 H2 H3 H4] E1 E2 E3. split; rewrite ?E1, ?E2, ?E3; auto. Qed.

Lemma holds_stats f c : holds c -> holds (with_stats f c).
Proof. intros Hc. by eapply holds_memory. Qed.
Lemma holds_inflight f c : holds c -> holds (with_inflight f c).
Proof. intros Hc. by eapply holds_memory. Qed.

Lemma holds_shard c n sh' : holds c ->
  (forall k v, (k, v) ∈ lru_list (shard_blocks sh') -> k.1 = fk -> 0 <= k.2 -> v = block_at k.2) ->
  holds (with_shard n sh' c).
Proof.
  intros [H1 H2 H3 H4] Hs. split; simpl; try done. intros m sh k v Hm Hin.
  destruct (decide (m = n)) as [->|Hne]; [|rewrite list_lookup_insert_ne in Hm by done; eauto].
  destruct (memory c !! n) as [old|] eqn:Eo.
  - rewrite list_lookup_insert_eq in Hm by by eapply lookup_lt_Some. simplify_eq. eauto.
  - rewrite list_insert_ge in Hm by by apply lookup_ge_None. congruence.
Qed.

Lemma holds_insert_memory c k data : holds c -> (k.1 = fk -> 0 <= k.2 -> data = block_at k.2) ->
  holds (insert_memory hash c k data).
Proof.
  intros Hc Hd. unfold insert_memory. destruct (_ <? _); [done|].
  destruct (memory c !! shard_of hash k) as [sh|] eqn:Esh; [|done].
  pose proof (lru_put_spec (shard_blocks sh) k data) as [Hp _].
  destruct (lru_put (shard_blocks sh) k data) as [old l]. simpl in Hp.
  destruct (shrink _ _ _ _) as [sh' ev] eqn:Es. apply holds_stats, holds_shard; [done|].
  intros k' v Hin. assert ((k', v) ∈ lru_list l) as Hl.
  { eapply (shrink_sub _ _ (mkShard l _)). rewrite Es. exact Hin. }
  rewrite Hp in Hl. apply elem_of_cons in Hl as [[= -> ->]|Hl]; [done|].
  apply list_elem_of_filter in Hl as [_ Hl]. eapply (ho_mem c Hc); eauto.
Qed.

(** A disk tier whose files are some of another's. *)
Lemma holds_disk c d d' : holds c -> disk c = Some d -> disk_inv (dstate d') ->
  (forall p data, dfiles d' !! p = Some data -> dfiles d !! p = Some data) -> holds (with_disk (Some d') c).
Proof.
  intros [H1 H2 H3 H4] Hd Hi Hsub. split; simpl; try done.
  - intros d0 i data [= <-] Hi0 Hl. eauto.
  - by intros d0 [= <-].
Qed.

Lemma get_block_spec during c i :
  holds c -> 0 <= i -> (forall c', holds c' -> holds (during c')) ->
  holds (get_block hash during c (fk, i) (block_len (blen content) bs i)).2 /\
  forall v, (get_block hash during c (fk, i) (block_len (blen content) bs i)).1 = Some v -> v = block_at i.
Proof.
  intros Hc Hi Hdur. unfold get_block. set (k := (fk, i)).
  assert (exists hit c1, match memory c !! shard_of hash k with
      | Some sh => let '(v, l) := lru_get (shard_blocks sh) k in
                   (v, with_shard (shard_of hash k) (mkShard l (shard_bytes sh)) c)
      | None => (None, c)
      end = (hit, c1) /\ holds c1 /\ forall v, hit = Some v -> v = block_at i) as (hit & c1 & -> & Hc1 & Hhit).
  { destruct (memory c !! shard_of hash k) as [sh|] eqn:Esh; [|by exists None, c].
    pose proof (lru_get_spec (shard_blocks sh) k) as Hg. destruct (lru_get (shard_blocks sh) k) as [v l]. simpl in Hg.
    eexists v, _. split; [done|].
    assert (forall k' v', (k', v') ∈ lru_list l -> (k', v') ∈ lru_list (shard_blocks sh)) as Hsub.
    { destruct v as [v|]; destruct Hg as [Hv ->]; [|done]. intros k' v' [[= -> ->]|Hin]%elem_of_cons; [done|].
      by apply list_elem_of_filter in Hin as [_ ?]. }
    split.
    - apply holds_shard; [done|]. intros k' v' Hin. simpl in Hin. eapply (ho_mem c Hc); eauto.
    - intros v' ->. destruct Hg as [Hv _]. by eapply (ho_mem c Hc _ _ k v' Esh). }
  destruct hit as [v|]; [simpl; split; [by apply holds_stats|auto]|]. clear Hhit Hc c.
  destruct (disk c1) as [d|] eqn:Ed; [|done].
  pose proof (disk_touch_inv (dstate d) k (ho_inv c1 Hc1 d Ed)) as Ht.
  destruct (disk_touch (dstate d) k) as [held s]. simpl in Ht.
  assert (holds (with_disk (Some (mkTier (max_bytes d) s (dfiles d) (tmp_counter d))) c1)) as Hc2
    by (by eapply holds_disk).
  destruct held; simpl; [|done].
  apply Hdur in Hc2. set (c3 := during _) in *. clearbody c3.
  destruct (disk c3) as [d3|] eqn:Ed3; [|done].
  assert (holds (with_disk (Some (disk_forget d3 k)) c3)) as Hf.
  { apply (holds_disk c3 d3); [done|done|apply disk_forget_inv, (ho_inv c3 Hc2 d3 Ed3)|].
    simpl. intros p data [_ Hp]%lookup_delete_Some. done. }
  destruct (dfiles d3 !! block_relative_path k) as [data|] eqn:Ef; [|done].
  destruct (Z.eqb_spec (blen data) (block_len (blen content) bs i)) as [El|]; [|done]. simpl.
  assert (data = block_at i) as -> by (by eapply (ho_disk c3 Hc2)).
  split; [|naive_solver]. apply holds_insert_memory; [by apply holds_stats|done].
Qed.

Lemma put_block_spec c i data io : holds c -> 0 <= i -> data = block_at i ->
  exists c', put_block hash c (fk, i) data io = Some c' /\ holds c'.
Proof.
  intros Hc Hi ->. unfold put_block. destruct (disk c) as [d|] eqn:Ed; simpl.
  2:{ eexists. split; [done|]. by apply holds_insert_memory. }
  unfold disk_insert. destruct io; simpl.
  - destruct (disk_account_spec (dstate d) (fk, i) (blen (block_at i)) (max_bytes d) (ho_inv c Hc d Ed) ltac:(lia))
      as (s' & vs & -> & He & _). simpl. eexists. split; [done|].
    apply holds_insert_memory; [|done]. apply holds_stats.
    destruct Hc as [H1 H2 H3 H4]. split; simpl; [done|done| |].
    + intros d0 j dat [= <-] Hj. simpl.
      assert (forall m vs, (foldl (fun m v => delete (block_relative_path v) m) m vs : gmap bytes bytes) !! block_relative_path (fk, j) = Some dat ->
        m !! block_relative_path (fk, j) = Some dat) as Hdel.
      { clear. intros m vs. revert m. induction vs as [|v vs IH]; intros m; [done|]. simpl. intros Hm%IH.
        by apply lookup_delete_Some in Hm as [_ ?]. }
      intros Hl%Hdel. apply lookup_insert_Some in Hl as [[Ep <-]|[_ Hl]]; [|by eapply H3].
      apply block_path_inj in Ep as [_ ->]; [|done..]. done.
    + intros d0 [= <-]. apply (ev_inv _ _ _ _ _ He).
  - eexists. split; [done|]. apply holds_insert_memory; [|done]. apply holds_stats.
    by eapply (holds_disk c d); [| |apply (ho_inv c Hc d Ed)|].
Qed.

(** ** Lemmas: fetching *)

Context (Hbs : 0 < bs).

Lemma block_len_pos i : 0 <= i < total_blocks (blen content) bs -> 0 < block_len (blen content) bs i <= bs.
Proof.
  intros Hi. destruct (total_blocks_spec (blen content) bs Hbs ltac:(lia)) as (_ & _ & Ht).
  pose proof (proj1 (Ht i) ltac:(lia)). unfold block_len. lia.
Qed.

Lemma blen_block_at i : 0 <= i < total_blocks (blen content) bs -> blen (block_at i) = block_len (blen content) bs i.
Proof.
  intros Hi. pose proof (block_len_pos i Hi). unfold block_at. rewrite obj_slice_len; [lia|nia|unfold block_len; lia].
Qed.

Lemma obj_slice_empty l a b : b <= a -> obj_slice l a b = [].
Proof. intros Hba. unfold obj_slice, slice. by replace (Z.to_nat b - Z.to_nat a)%nat with 0%nat by lia. Qed.

Lemma pieces_nil fuel n : pieces fuel n [] = [].
Proof. by destruct fuel. Qed.

(** A response cut every [bs] bytes is the blocks of its range. *)
Lemma pieces_blocks n fuel s : 0 <= s -> s + Z.of_nat n <= total_blocks (blen content) bs ->
  let data := obj_slice content (s * bs) (Z.min ((s + Z.of_nat n) * bs) (blen content)) in
  (length data <= fuel)%nat ->
  pieces fuel (Z.to_nat bs) data = block_at <$> seqZ s (Z.of_nat n).
Proof.
  revert fuel s. induction n as [|n IH]; intros fuel s Hs Ht data Hf.
  { unfold data. rewrite obj_slice_empty by nia. apply pieces_nil. }
  destruct (total_blocks_spec (blen content) bs Hbs ltac:(lia)) as (_ & Hcov & Hin).
  pose proof (proj1 (Hin s) ltac:(lia)) as Hlt.
  rewrite seqZ_cons by lia. replace (Z.pred (Z.of_nat (S n))) with (Z.of_nat n) by lia.
  set (e := Z.min ((s + Z.of_nat (S n)) * bs) (blen content)) in *.
  assert (blen data = e - s * bs) as Hl by (apply obj_slice_len; unfold e; nia).
  assert (s * bs + block_len (blen content) bs s <= e) as Hse by (unfold e, block_len; nia).
  assert (0 < block_len (blen content) bs s) as Hp by (apply block_len_pos; lia).
  destruct fuel as [|fuel]; [lia|]. destruct data as [|x data'] eqn:Ed; [simpl in Hl; lia|].
  rewrite <- Ed in *. clear Ed x data'. subst data. set (data := obj_slice content (s * bs) e) in *.
  assert (pieces (S fuel) (Z.to_nat bs) data = take (Z.to_nat bs) data :: pieces fuel (Z.to_nat bs) (drop (Z.to_nat bs) data)) as ->.
  { destruct data; [simpl in Hl; lia|done]. }
  simpl. f_equal.
  - assert (take (Z.to_nat bs) data = obj_slice data 0 (block_len (blen content) bs s)) as ->.
    { unfold obj_slice at 1, slice. rewrite drop_0. simpl. rewrite Nat.sub_0_r.
      destruct (decide (block_len (blen content) bs s = bs)) as [->|Hne]; [done|].
      rewrite !take_ge; [done|..]; unfold block_len, e in *; nia. }
    unfold data. rewrite obj_slice_slice by lia. by rewrite Z.add_0_r.
  - assert (drop (Z.to_nat bs) data = obj_slice content (Z.succ s * bs) (Z.min ((Z.succ s + Z.of_nat n) * bs) (blen content))) as ->.
    { replace ((Z.succ s + Z.of_nat n) * bs) with ((s + Z.of_nat (S n)) * bs) by lia. fold e.
      unfold data, obj_slice, slice. rewrite skipn_firstn_comm, drop_drop. f_equal; [lia|]. f_equal. nia. }
    apply IH; [lia|lia|]. replace ((Z.succ s + Z.of_nat n) * bs) with ((s + Z.of_nat (S n)) * bs) by lia. fold e.
    destruct (Z.le_gt_cases (Z.succ s * bs) e).
    + assert (blen (obj_slice content (Z.succ s * bs) e) = e - Z.succ s * bs) by (apply obj_slice_len; unfold e in *; nia). nia.
    + rewrite obj_slice_empty by lia. simpl. lia.
Qed.

Lemma store_pieces_spec io n s c : holds c -> 0 <= s ->
  exists c', store_pieces hash io fk s (block_at <$> seqZ s (Z.of_nat n)) c
    = Some ((fun i => (i, block_at i)) <$> seqZ s (Z.of_nat n), c') /\ holds c'.
Proof.
  revert s c. induction n as [|n IH]; intros s c Hc Hs; [by exists c|].
  rewrite seqZ_cons by lia. replace (Z.pred (Z.of_nat (S n))) with (Z.of_nat n) by lia.
  rewrite !fmap_cons. cbn [store_pieces].
  destruct (put_block_spec c s (block_at s) (io (fk, s)) Hc Hs eq_refl) as (c1 & -> & Hc1). simpl.
  destruct (IH (Z.succ s) c1 Hc1 ltac:(lia)) as (c2 & E & Hc2).
  change (s + 1) with (Z.succ s). rewrite E. by exists c2.
Qed.

(** The response to one chunk's request. *)
Definition response (ch : Z * Z) : Z * bytes :=
  (ch.1, obj_slice content (ch.1 * bs) (Z.min (ch.2 * bs) (blen content))).

Definition chunk_ok (ch : Z * Z) : Prop := 0 <= ch.1 < ch.2 /\ ch.2 <= total_blocks (blen content) bs.

Lemma store_all_spec io chunks c : Forall chunk_ok chunks -> holds c ->
  exists out c', store_all hash io fk (response <$> chunks) c = Some (out, c') /\ holds c' /\
    forall i b, (i, b) ∈ out <-> in_ranges chunks i /\ b = block_at i.
Proof.
  intros Hch. revert c. induction Hch as [|[s e] chunks [Hse He] _ IH]; intros c Hc.
  { exists [], c. split; [done|]. split; [done|]. intros i b. pose proof (in_ranges_nil i). set_solver. }
  simpl in Hse, He. rewrite fmap_cons. unfold response at 1. cbn [store_all fst snd]. rewrite (ho_bs c Hc).
  set (n := Z.to_nat (e - s)). set (data := obj_slice _ _ _).
  assert (pieces (length data) (Z.to_nat bs) data = block_at <$> seqZ s (Z.of_nat n)) as ->.
  { unfold data. replace e with (s + Z.of_nat n) by lia. apply pieces_blocks; [lia|lia|done]. }
  destruct (store_pieces_spec io n s c Hc ltac:(lia)) as (c1 & -> & Hc1). simpl.
  match goal with |- context [record_fetch ?a ?b c1] => destruct (IH (record_fetch a b c1) (holds_stats _ _ Hc1)) as (out & c2 & -> & Hc2 & Ho) end.
  simpl. eexists _, c2. split; [done|]. split; [done|]. intros i b. rewrite elem_of_app, Ho, list_elem_of_fmap.
  change ((s, e) :: chunks) with ([(s, e)] ++ chunks). rewrite in_ranges_app, in_ranges_one.
  setoid_rewrite elem_of_seqZ. split.
  - intros [(x & [= -> ->] & Hx)|[? ->]]; [|tauto]. split; [left; lia|done].
  - intros [[Hx|Hx] ->]; [left; exists i; split; [done|lia]|by right].
Qed.

Context (h : Handle) (obj : bytes).
Hypothesis Hfile : h_file h = fk.
Hypothesis Hoff : 0 <= offset (h_span h).
Hypothesis Hlen : len (h_span h) = blen content.
Hypothesis Hspan : offset (h_span h) + blen content <= blen obj.
Hypothesis Hcontent : span_bytes obj (h_span h) = content.

Lemma obj_content a b : 0 <= a <= b -> b <= blen content ->
  obj_slice obj (offset (h_span h) + a) (offset (h_span h) + b) = obj_slice content a b.
Proof.
  intros Ha Hb. rewrite <- Hcontent. unfold span_bytes. rewrite obj_slice_slice by lia. done.
Qed.

Lemma fetch_chunk_spec rd ch : reads rd obj -> chunk_ok ch ->
  match fetch_chunk rd h bs ch with Ok r => r = response ch | Err _ => True end /\
  (answers rd obj -> fetch_chunk rd h bs ch = Ok (response ch)).
Proof.
  intros Hr [Hse He]. destruct ch as [s e]. simpl in *. unfold fetch_chunk, response. simpl. rewrite Hlen.
  destruct (total_blocks_spec (blen content) bs Hbs ltac:(lia)) as (_ & _ & Hin).
  pose proof (proj1 (Hin s) ltac:(lia)) as Hlt.
  set (from := s * bs). set (to := Z.min (e * bs) (blen content)).
  assert (0 <= from < to) as Hft by (unfold from, to; nia).
  assert (to <= blen content) as Htc by (unfold to; lia).
  split.
  - destruct (rd_get_range rd _ _) as [d|] eqn:E; [|done].
    apply (reads_range _ _ Hr) in E; [|lia]. destruct (_ =? _); [|done].
    by rewrite E, obj_content by lia.
  - intros Ha. rewrite (answers_range rd obj) by (done || lia). rewrite obj_content by lia.
    rewrite obj_slice_len by lia. by rewrite Z.eqb_refl.
Qed.

Lemma fetch_all_spec rd chunks : reads rd obj -> Forall chunk_ok chunks ->
  match fetch_all rd h bs chunks with Ok rs => rs = response <$> chunks | Err _ => True end /\
  (answers rd obj -> fetch_all rd h bs chunks = Ok (response <$> chunks)).
Proof.
  intros Hr. induction 1 as [|ch chunks Hch _ [IH1 IH2]]; simpl; [done|].
  destruct (fetch_chunk_spec rd ch Hr Hch) as [Hr1 Hr2]. split.
  - destruct (fetch_chunk rd h bs ch); simpl; [|done]. subst. destruct (fetch_all _ _ _ _); simpl; [|done]. by subst.
  - intros Ha. rewrite (Hr2 Ha). simpl. by rewrite (IH2 Ha).
Qed.

Lemma fetch_spec io rd c indices ra : holds c -> reads rd obj -> 0 <= ra ->
  Forall (fun i => 0 <= i < total_blocks (blen content) bs) indices ->
  match fetch hash io rd c h indices ra with
  | None => False
  | Some (Err _, c') => holds c' /\ ~ answers rd obj
  | Some (Ok out, c') => holds c' /\ (forall i b, (i, b) ∈ out -> b = block_at i) /\
      forall i, i ∈ indices -> (i, block_at i) ∈ out
  end.
Proof.
  intros Hc Hr Hra Hi. unfold fetch. rewrite (ho_bs c Hc), Hlen, Hfile.
  destruct (chunks_spec indices ra (blen content) bs Hbs ltac:(lia) Hra Hi) as [Hg Hcov].
  set (chunks := fetch_chunks _ _ _ _) in *.
  assert (Forall chunk_ok chunks) as Hok by (eapply Forall_impl; [exact Hg|]; simpl; unfold chunk_ok; tauto).
  destruct (fetch_all_spec rd chunks Hr Hok) as [Hf1 Hf2].
  destruct (fetch_all rd h bs chunks) as [rs|e].
  - subst. destruct (store_all_spec io chunks c Hok Hc) as (out & c' & -> & Hc' & Ho). simpl.
    split; [done|]. split; [intros i b; rewrite Ho; tauto|]. intros i Hin. apply Ho. split; [by apply Hcov|done].
  - split; [done|]. intros Ha. by specialize (Hf2 Ha).
Qed.

(** ** Lemmas: claims *)

Lemma claim_loop_spec file indices fl mine theirs :
  let '(fl', mine', theirs') := claim_loop file indices fl mine theirs in
  (forall i, i ∈ mine' <-> i ∈ mine \/ (i ∈ indices /\ (file, i) ∉ fl)) /\
  (forall k, k ∈ fl' <-> k ∈ fl \/ (k.1 = file /\ k.2 ∈ indices)) /\
  (forall i, i ∈ theirs' -> i ∈ theirs \/ i ∈ indices) /\
  (NoDup indices -> (forall i, i ∈ indices -> (file, i) ∉ fl) -> theirs' = theirs).
Proof.
  revert fl mine theirs. induction indices as [|i indices IH]; intros fl mine theirs; cbn [claim_loop].
  { split; [set_solver|]. split; [set_solver|]. split; [set_solver|done]. }
  destruct (decide ((file, i) ∈ fl)) as [Hin|Hout].
  - specialize (IH fl mine (theirs ++ [i])). destruct (claim_loop _ _ _ _ _) as [[fl' mine'] theirs'].
    destruct IH as (H1 & H2 & H3 & H4). split; [|split; [|split]].
    + intros j. rewrite H1, elem_of_cons. naive_solver.
    + intros [f j]. rewrite H2, elem_of_cons. simpl. naive_solver.
    + intros j Hj. apply H3 in Hj. rewrite elem_of_app, list_elem_of_singleton in Hj. rewrite elem_of_cons. tauto.
    + intros _ Hno. exfalso. eapply Hno; [left|done].
  - specialize (IH ({[(file, i)]} ∪ fl) (mine ++ [i]) theirs). destruct (claim_loop _ _ _ _ _) as [[fl' mine'] theirs'].
    destruct IH as (H1 & H2 & H3 & H4). split; [|split; [|split]].
    + intros j. rewrite H1, elem_of_app, list_elem_of_singleton, elem_of_cons, elem_of_union, elem_of_singleton. split.
      * intros [[?| ->]|[? ?]]; [by left|right; split; [by left|done]|right; split; [by right|tauto]].
      * intros [?|[[->|?] ?]]; [by left; left|by left; right|].
        destruct (decide (j = i)) as [->|]; [by left; right|right; split; [done|]]. intros [[= ?]|?]; tauto.
    + intros [f j]. rewrite H2, elem_of_union, elem_of_singleton, elem_of_cons. simpl. naive_solver.
    + intros j Hj. apply H3 in Hj. rewrite elem_of_cons. tauto.
    + intros [Hni Hd]%NoDup_cons Hno. apply H4; [done|]. intros j Hj Hfl. apply elem_of_union in Hfl as [Hfl|Hfl].
      * apply elem_of_singleton in Hfl. naive_solver.
      * eapply Hno; [right; exact Hj|done].
Qed.

(** ** Lemmas: the passes of a read *)

Definition good_blocks (first : Z) (blocks : list (option bytes)) : Prop :=
  forall j b, blocks !! j = Some (Some b) -> b = block_at (first + Z.of_nat j).

Lemma good_blocks_cons first v blocks : good_blocks first (v :: blocks) <->
  (forall b, v = Some b -> b = block_at first) /\ good_blocks (first + 1) blocks.
Proof.
  split.
  - intros Hg. split; [intros b ->; by rewrite (Hg 0%nat b), Z.add_0_r|].
    intros j b Hj. rewrite (Hg (S j) b Hj). f_equal. lia.
  - intros [Hv Hg] [|j] b Hj; simpl in Hj; [rewrite Z.add_0_r; naive_solver|].
    rewrite (Hg j b Hj). f_equal. lia.
Qed.

Lemma probe_spec during index blocks c : 0 <= index ->
  (forall c', holds c' -> holds (during c')) -> holds c -> good_blocks index blocks ->
  let '(blocks', missing, c') := probe hash during h index blocks c in
  length blocks' = length blocks /\ good_blocks index blocks' /\ holds c' /\ NoDup missing /\
  (forall i, i ∈ missing <-> index <= i < index + Z.of_nat (length blocks) /\ blocks' !! Z.to_nat (i - index) = Some None) /\
  (missing = [] -> Forall is_Some blocks') /\ (Forall is_Some blocks -> missing = [] /\ blocks' = blocks).
Proof.
  intros Hi Hdur. revert index c Hi. induction blocks as [|v blocks IH]; intros index c Hi Hc Hg; cbn [probe].
  { split; [done|]. split; [done|]. split; [done|]. split; [constructor|]. split; [|split; [constructor|done]].
    intros i. split; [intros Hn; by apply not_elem_of_nil in Hn|]. simpl. lia. }
  apply good_blocks_cons in Hg as [Hv Hg].
  assert (forall bs' (missing : list Z) v' i, length bs' = length blocks ->
    (forall i, i ∈ missing <-> index + 1 <= i < index + 1 + Z.of_nat (length blocks) /\ bs' !! Z.to_nat (i - (index + 1)) = Some None) ->
    (i ∈ missing \/ (v' = None /\ i = index) <->
     index <= i < index + Z.of_nat (length (v :: blocks)) /\ (v' :: bs' : list (option bytes)) !! Z.to_nat (i - index) = Some None)) as Hmiss.
  { intros bs' missing v' i Hl Hm. rewrite Hm. cbn [length]. destruct (decide (i = index)) as [->|Hne].
    - rewrite Z.sub_diag. simpl. split; [intros [[? _]|[-> _]]; [lia|split; [lia|done]]|].
      intros [_ [= ->]]. by right.
    - destruct (Z.le_gt_cases i index); [split; [intros [[? _]|[_ ?]]; lia|intros [? _]; lia]|].
      replace (Z.to_nat (i - index)) with (S (Z.to_nat (i - (index + 1)))) by lia. simpl. split.
      + intros [[? ?]|[_ ?]]; [|lia]. split; [lia|done].
      + intros [? ?]. left. split; [lia|done]. }
  destruct v as [b|].
  - specialize (IH (index + 1) c ltac:(lia) Hc Hg). destruct (probe hash during h (index + 1) blocks c) as [[bs' missing] c'].
    destruct IH as (H1 & H2 & H3 & H4 & H5 & H6 & H7).
    split; [simpl; lia|]. split; [by apply good_blocks_cons|]. split; [done|]. split; [done|]. split; [|split].
    + intros i. rewrite <- (Hmiss bs' missing (Some b) i H1 H5). naive_solver.
    + intros E. constructor; [by eexists|auto].
    + intros [_ Hall]%Forall_cons. destruct (H7 Hall) as [-> ->]. done.
  - rewrite Hfile, Hlen, (ho_bs c Hc).
    destruct (get_block_spec during c index Hc Hi Hdur) as [Hc1 Hv1].
    destruct (get_block hash during c (fk, index) (block_len (blen content) bs index)) as [v c1]. simpl in Hc1, Hv1.
    specialize (IH (index + 1) c1 ltac:(lia) Hc1 Hg). destruct (probe hash during h (index + 1) blocks c1) as [[bs' missing] c'].
    destruct IH as (H1 & H2 & H3 & H4 & H5 & H6 & H7).
    assert (index ∉ missing) as Hnm by (rewrite H5; lia).
    split; [simpl; lia|]. split; [by apply good_blocks_cons|]. split; [done|].
    split; [destruct v; [done|by constructor]|]. split; [|split].
    + intros i. rewrite <- (Hmiss bs' missing v i H1 H5). destruct v as [v|].
      * naive_solver.
      * rewrite elem_of_cons. naive_solver.
    + intros E. destruct v as [v|]; [|done]. constructor; [by eexists|auto].
    + intros [[? ?] _]%Forall_cons. done.
Qed.

Lemma fill_spec first last fetched blocks :
  length blocks = Z.to_nat (last - first + 1) -> good_blocks first blocks ->
  (forall i b, (i, b) ∈ fetched -> b = block_at i) ->
  let blocks' := fill first last fetched blocks in
  length blocks' = length blocks /\ good_blocks first blocks' /\
  (forall j, is_Some (blocks !! j ≫= id) -> is_Some (blocks' !! j ≫= id)) /\
  forall i, first <= i <= last -> (i, block_at i) ∈ fetched -> is_Some (blocks' !! Z.to_nat (i - first) ≫= id).
Proof.
  revert blocks. induction fetched as [|[i b] fetched IH]; intros blocks Hl Hg Hf; cbn [fill foldl].
  { split; [done|]. split; [done|]. split; [done|]. intros i _ Hn. by apply not_elem_of_nil in Hn. }
  assert (b = block_at i) as -> by (apply Hf; left).
  assert (forall i b, (i, b) ∈ fetched -> b = block_at i) as Hf' by (intros; apply Hf; by right).
  simpl. destruct (Z.leb_spec first i) as [Hfi|Hfi], (Z.leb_spec i last) as [Hil|Hil]; simpl.
  2-4: destruct (IH blocks Hl Hg Hf') as (H1 & H2 & H3 & H4); split; [done|]; split; [done|]; split; [done|];
    intros j Hj [[= ->]|Hin]%elem_of_cons; [lia|by apply H4].
  set (n := Z.to_nat (i - first)). assert (n < length blocks)%nat as Hn by lia.
  destruct (IH (<[n := Some (block_at i)]> blocks)) as (H1 & H2 & H3 & H4); [by rewrite length_insert| |done|].
  { intros j b Hj. destruct (decide (j = n)) as [->|Hne].
    - rewrite list_lookup_insert_eq in Hj by done. injection Hj as <-. f_equal. lia.
    - rewrite list_lookup_insert_ne in Hj by done. by apply Hg. }
  rewrite length_insert in H1. split; [done|]. split; [done|].
  assert (is_Some (<[n := Some (block_at i)]> blocks !! n ≫= id)) as Hnew by (rewrite list_lookup_insert_eq by done; by eexists).
  split.
  - intros j Hj. apply H3. destruct (decide (j = n)) as [->|Hne]; [done|by rewrite list_lookup_insert_ne].
  - intros j Hj [[= ->]|Hin]%elem_of_cons; [by apply H3|by apply H4].
Qed.

(** What a pass may assume of the rest of the system: other threads leave right
    blocks right, the storage answers about the object. *)
Definition env_ok (e : PassEnv (L := L)) : Prop :=
  (forall c, holds c -> holds (pe_during e c)) /\ (forall c, holds c -> holds (pe_others e c)) /\ reads (pe_reader e) obj.

Lemma holds_claim c indices : holds c -> holds (claim c fk indices).1.1.
Proof. intros Hc. unfold claim. destruct (claim_loop _ _ _ _ _) as [[fl m] t]. by apply holds_inflight. Qed.

Lemma holds_drop_claim c mine : holds c -> holds (drop_claim c fk mine).
Proof. intros Hc. unfold drop_claim. destruct mine; [done|by apply holds_inflight]. Qed.

Lemma read_loop_spec envs first last ra blocks c :
  0 <= ra -> 0 <= first -> last < total_blocks (blen content) bs -> length blocks = Z.to_nat (last - first + 1) ->
  Forall env_ok envs -> holds c -> good_blocks first blocks ->
  let '(r, c') := read_loop hash envs h first last ra blocks c in
  holds c' /\
  match r with
  | StillWaiting => True
  | Panicked => False
  | Failed _ => Exists (fun e => ~ answers (pe_reader e) obj) envs
  | Got bl => length bl = Z.to_nat (last - first + 1) /\ good_blocks first bl /\ Forall is_Some bl
  end.
Proof.
  intros Hra Hfi Hla Hl He. revert blocks c Hl. induction He as [|env envs [He1 [He2 He3]] _ IH]; intros blocks c Hl Hc Hg; cbn [read_loop].
  { done. }
  pose proof (probe_spec (pe_during env) first blocks c Hfi He1 Hc Hg) as Hp.
  destruct (probe hash (pe_during env) h first blocks c) as [[bl missing] c1].
  destruct Hp as (Hl1 & Hg1 & Hc1 & Hnd & Hm & Hdone & _).
  destruct missing as [|m0 ms] eqn:Em; [split; [done|]; split; [lia|auto]|]. rewrite <- Em in *. clear m0 ms Em Hdone.
  assert (Forall (fun i => 0 <= i < total_blocks (blen content) bs) missing) as Hrange.
  { apply Forall_forall. intros i Hin. apply Hm in Hin as [Hin _]. lia. }
  rewrite Hfile. pose proof (holds_claim c1 missing Hc1) as Hc2. pose proof (claim_loop_spec fk missing (inflight c1) [] []) as Hcl.
  unfold claim in *. destruct (claim_loop fk missing (inflight c1) [] []) as [[fl mine] theirs]. simpl in Hc2.
  destruct Hcl as (Hmine & _).
  assert (Forall (fun i => 0 <= i < total_blocks (blen content) bs) mine) as Hrm.
  { apply Forall_forall. intros i Hin. apply Hmine in Hin as [Hin|[Hin _]]; [by apply not_elem_of_nil in Hin|].
    by eapply (proj1 (Forall_forall _ _)) in Hrange. }
  set (c2 := with_inflight fl c1) in *.
  assert (match (match mine with [] => Some (Ok [], c2) | _ => fetch hash (pe_io env) (pe_reader env) c2 h mine ra end) with
    | None => False
    | Some (Err _, c') => holds c' /\ ~ answers (pe_reader env) obj
    | Some (Ok out, c') => holds c' /\ (forall i b, (i, b) ∈ out -> b = block_at i)
    end) as Hfetch.
  { destruct mine as [|m1 ms]; [split; [done|]; intros i b Hn; by apply not_elem_of_nil in Hn|].
    pose proof (fetch_spec (pe_io env) (pe_reader env) c2 (m1 :: ms) ra Hc2 He3 Hra Hrm) as Hf.
    destruct (fetch hash _ _ c2 h (m1 :: ms) ra) as [[[out|e] c']|]; tauto. }
  destruct (match mine with [] => Some (Ok [], c2) | _ => fetch hash (pe_io env) (pe_reader env) c2 h mine ra end) as [[[out|e] c3]|]; [|split; [by apply holds_drop_claim, Hfetch|by left; apply Hfetch]|done].
  - destruct Hfetch as [Hc3 Hout].
    destruct (fill_spec first last out bl ltac:(lia) Hg1 Hout) as (Hl2 & Hg2 & _).
    pose proof (IH (fill first last out bl) (pe_others env (match theirs with [] => drop_claim c3 fk mine | _ => with_stats (add_fetch_waits 1) (drop_claim c3 fk mine) end)) ltac:(lia)) as IH'.
    specialize (IH' ltac:(apply He2; destruct theirs; [by apply holds_drop_claim|by apply holds_stats, holds_drop_claim]) Hg2).
    destruct (read_loop _ _ _ _ _ _ _ _) as [r c']. destruct IH' as [Hc' Hr]. split; [done|].
    destruct r; try done. by right.
Qed.

(** ** Lemmas: a read alone completes *)

(** Nobody is fetching a block of the file. *)
Definition unclaimed (c : SplitCache L) : Prop := forall i, (fk, i) ∉ inflight c.

Lemma insert_memory_inflight c k data : inflight (insert_memory hash c k data) = inflight c.
Proof. unfold insert_memory. repeat case_match; done. Qed.

#[local] Ltac disk_part during Hd :=
  destruct (disk _) as [d|]; [|done]; destruct (disk_touch _ _) as [[|] s]; [|done]; simpl;
  match goal with |- context [during ?c2] => assert (unclaimed (during c2)) by (by apply Hd) end;
  destruct (disk (during _)) as [d3|]; [|done]; destruct (dfiles d3 !! _); [|done]; case_match; [|done];
  unfold unclaimed; simpl; rewrite insert_memory_inflight;
  match goal with H : unclaimed (during _) |- _ => exact H end.

Lemma get_block_unclaimed during c k n : (forall c, unclaimed c -> unclaimed (during c)) -> unclaimed c ->
  unclaimed (get_block hash during c k n).2.
Proof.
  intros Hd Hc. unfold get_block.
  assert (forall i sh, unclaimed (with_shard i sh c)) as Hsh by done.
  destruct (memory c !! shard_of hash k) as [sh|].
  - destruct (lru_get (shard_blocks sh) k) as [[v|] l]; [done|]. disk_part during Hd.
  - disk_part during Hd.
Qed.

Lemma probe_unclaimed during index blocks c : (forall c, unclaimed c -> unclaimed (during c)) -> unclaimed c ->
  unclaimed (probe hash during h index blocks c).2.
Proof.
  intros Hd. revert index c. induction blocks as [|[b|] blocks IH]; intros index c Hc; cbn [probe]; [done| |].
  - specialize (IH (index + 1) c Hc). by destruct (probe _ _ _ _ _ _) as [[? ?] ?].
  - pose proof (get_block_unclaimed during c (h_file h, index) (block_len (len (h_span h)) (block_size c) index) Hd Hc) as Hc1.
    destruct (get_block _ _ _ _ _) as [v c1]. specialize (IH (index + 1) c1 Hc1). by destruct (probe _ _ _ _ _ _) as [[? ?] ?].
Qed.

Lemma read_loop_completes e1 e2 envs first last ra blocks c :
  0 <= ra -> 0 <= first -> last < total_blocks (blen content) bs -> length blocks = Z.to_nat (last - first + 1) ->
  env_ok e1 -> env_ok e2 -> holds c -> good_blocks first blocks ->
  unclaimed c -> (forall c, unclaimed c -> unclaimed (pe_during e1 c)) -> answers (pe_reader e1) obj ->
  exists bl, (read_loop hash (e1 :: e2 :: envs) h first last ra blocks c).1 = Got bl.
Proof.
  intros Hra Hfi Hla Hl [He1 [He1' He1'']] [He2 _] Hc Hg Hu Hud Ha. cbn [read_loop].
  pose proof (probe_spec (pe_during e1) first blocks c Hfi He1 Hc Hg) as Hp.
  pose proof (probe_unclaimed (pe_during e1) first blocks c Hud Hu) as Hu1.
  destruct (probe hash (pe_during e1) h first blocks c) as [[bl missing] c1].
  destruct Hp as (Hl1 & Hg1 & Hc1 & Hnd & Hm & _ & _). simpl in Hu1.
  destruct missing as [|m0 ms] eqn:Em; [by eexists|]. rewrite <- Em in *.
  assert (missing <> []) as Hne by (by rewrite Em). clear m0 ms Em.
  assert (Forall (fun i => 0 <= i < total_blocks (blen content) bs) missing) as Hrange.
  { apply Forall_forall. intros i Hin. apply Hm in Hin as [Hin _]. lia. }
  rewrite Hfile. pose proof (holds_claim c1 missing Hc1) as Hc2. pose proof (claim_loop_spec fk missing (inflight c1) [] []) as Hcl.
  unfold claim in *. destruct (claim_loop fk missing (inflight c1) [] []) as [[fl mine] theirs]. simpl in Hc2.
  destruct Hcl as (Hmine & _ & _ & Hth). rewrite (Hth Hnd) in * by (intros; apply Hu1).
  assert (forall i, i ∈ mine <-> i ∈ missing) as Hmm.
  { intros i. rewrite Hmine. pose proof (Hu1 i). set_solver. }
  destruct mine as [|m1 ms] eqn:Emine.
  { destruct missing as [|x l]; [done|]. exfalso. apply (not_elem_of_nil x), Hmm. left. }
  rewrite <- Emine in *. clear m1 ms Emine.
  assert (Forall (fun i => 0 <= i < total_blocks (blen content) bs) mine) as Hrm.
  { apply Forall_forall. intros i Hin%Hmm. by eapply (proj1 (Forall_forall _ _)) in Hrange. }
  set (c2 := with_inflight fl c1) in *.
  pose proof (fetch_spec (pe_io e1) (pe_reader e1) c2 mine ra Hc2 He1'' Hra Hrm) as Hf.
  destruct (fetch hash _ _ c2 h mine ra) as [[[out|e] c3]|]; [|tauto|done].
  destruct Hf as (Hc3 & Hout & Hall).
  destruct (fill_spec first last out bl ltac:(lia) Hg1 Hout) as (Hl2 & Hg2 & Hkeep & Hnew).
  assert (Forall is_Some (fill first last out bl)) as Hfull.
  { apply Forall_lookup. intros j v Hj.
    assert (is_Some (fill first last out bl !! j ≫= id)) as Hs; [|rewrite Hj in Hs; exact Hs].
    assert (j < length bl)%nat as Hjl by (rewrite <- Hl2; by eapply lookup_lt_Some).
    destruct (bl !! j) as [[b|]|] eqn:Ej; [apply Hkeep; rewrite Ej; by eexists| |by apply lookup_ge_None in Ej; lia].
    assert (first + Z.of_nat j ∈ missing) as Hin.
    { apply Hm. split; [lia|]. by replace (Z.to_nat (first + Z.of_nat j - first)) with j by lia. }
    pose proof (Hnew (first + Z.of_nat j) ltac:(lia) (Hall _ (proj2 (Hmm _) Hin))) as Hs.
    by replace (Z.to_nat (first + Z.of_nat j - first)) with j in Hs by lia. }
  set (c4 := pe_others e1 _). assert (holds c4) as Hc4 by (by apply He1', holds_drop_claim).
  pose proof (probe_spec (pe_during e2) first _ c4 Hfi He2 Hc4 Hg2) as Hp2.
  destruct (probe hash (pe_during e2) h first _ c4) as [[bl2 missing2] c5].
  destruct Hp2 as (_ & _ & _ & _ & _ & _ & Hquiet). destruct (Hquiet Hfull) as [-> ->]. by eexists.
Qed.

(** ** Lemmas: cutting the answer out of the blocks *)

Lemma slice_checked_ok l a b : 0 <= a <= b -> b <= blen l -> slice_checked l a b = Some (obj_slice l a b).
Proof. intros Ha Hb. unfold slice_checked. destruct (Z.leb_spec a b), (Z.leb_spec b (blen l)); simpl; [done|lia..]. Qed.

Lemma block_slice i a b : 0 <= i < total_blocks (blen content) bs -> 0 <= a <= b -> b <= blen (block_at i) ->
  obj_slice (block_at i) a b = obj_slice content (i * bs + a) (i * bs + b).
Proof.
  intros Hi Ha Hb. rewrite blen_block_at in Hb by done. unfold block_at. rewrite obj_slice_slice by nia. done.
Qed.

Lemma assemble_spec n first from to : 0 <= first -> 0 <= from < to -> to <= blen content ->
  from < (first + 1) * bs -> (first + Z.of_nat n) * bs < to -> to <= (first + Z.of_nat n + 1) * bs ->
  assemble first bs from to (block_at <$> seqZ first (Z.of_nat (S n))) = Some (obj_slice content (Z.max from (first * bs)) to).
Proof.
  intros Hfst Hft Hto. destruct (total_blocks_spec (blen content) bs Hbs ltac:(lia)) as (_ & _ & Hin).
  revert first Hfst. induction n as [|n IH]; intros first Hfst Hfrom Hlo Hhi.
  all: rewrite seqZ_cons by lia; rewrite fmap_cons; cbn [assemble].
  all: assert (0 <= first < total_blocks (blen content) bs) as Hb by (split; [lia|]; apply Hin; nia).
  all: pose proof (blen_block_at first Hb) as Hbl; unfold block_len in Hbl.
  - rewrite slice_checked_ok by lia. simpl. rewrite app_nil_r, block_slice by (done || lia). do 2 f_equal; lia.
  - replace (Z.pred (Z.of_nat (S (S n)))) with (Z.of_nat (S n)) by lia.
    rewrite slice_checked_ok by nia. simpl. rewrite block_slice by (done || nia).
    change (first + 1) with (Z.succ first).
    match goal with |- context [assemble (Z.succ first) bs from to ?l] =>
      change l with (block_at <$> seqZ (Z.succ first) (Z.of_nat (S n))) end.
    rewrite IH by nia. simpl. f_equal.
    replace (first * bs + Z.max 0 (from - first * bs)) with (Z.max from (first * bs)) by lia.
    replace (first * bs + Z.min (to - first * bs) (blen (block_at first))) with (Z.succ first * bs) by nia.
    replace (Z.max from (Z.succ first * bs)) with (Z.succ first * bs) by nia.
    apply obj_slice_cat; nia.
Qed.

Lemma good_blocks_all n first bl : length bl = n -> good_blocks first bl -> Forall is_Some bl ->
  bl = Some <$> (block_at <$> seqZ first (Z.of_nat n)).
Proof.
  intros Hl Hg Hs. apply list_eq. intros j. rewrite !list_lookup_fmap.
  destruct (decide (j < n)%nat) as [Hj|Hj].
  - rewrite lookup_seqZ_lt by lia. simpl. destruct (lookup_lt_is_Some_2 bl j ltac:(lia)) as [v Hv]. rewrite Hv.
    destruct (proj1 (Forall_lookup _ _) Hs j v Hv) as [b ->]. by rewrite (Hg j b Hv).
  - rewrite lookup_seqZ_ge by lia. simpl. apply lookup_ge_None. lia.
Qed.

Lemma mapM_id_Some {A} (l : list A) : mapM id (Some <$> l) = Some l.
Proof. apply mapM_Some, Forall2_fmap_l, Forall_Forall2_diag, Forall_true. done. Qed.

(** The blocks of a non-empty range. *)
Lemma range_blocks from to : 0 <= from < to -> to <= blen content ->
  0 <= from / bs /\ (to - 1) / bs < total_blocks (blen content) bs /\ from / bs <= (to - 1) / bs /\
  from < (from / bs + 1) * bs /\ from / bs * bs <= from /\
  (to - 1) / bs * bs < to /\ to <= ((to - 1) / bs + 1) * bs.
Proof.
  intros Hft Hto. destruct (total_blocks_spec (blen content) bs Hbs ltac:(lia)) as (_ & _ & Hin).
  pose proof (Z.div_mod from bs ltac:(lia)). pose proof (Z.mod_pos_bound from bs Hbs).
  pose proof (Z.div_mod (to - 1) bs ltac:(lia)). pose proof (Z.mod_pos_bound (to - 1) bs Hbs).
  split; [apply Z.div_pos; lia|]. split; [apply Hin; nia|]. split; [apply Z.div_le_mono; lia|]. nia.
Qed.

Lemma answer_spec from to bl : 0 <= from < to -> to <= blen content ->
  length bl = Z.to_nat ((to - 1) / bs - from / bs + 1) -> good_blocks (from / bs) bl -> Forall is_Some bl ->
  answer (from / bs) bs from to bl = ReadOk (obj_slice content from to).
Proof.
  intros Hft Hto Hl Hg Hs. destruct (range_blocks from to Hft Hto) as (Hf0 & Hlt & Hfl & Hb1 & Hb1' & Hb2 & Hb3).
  set (first := from / bs) in *. set (last := (to - 1) / bs) in *.
  unfold answer. rewrite (good_blocks_all _ _ _ Hl Hg Hs), mapM_id_Some.
  set (n := Z.to_nat (last - first)). replace (Z.of_nat (Z.to_nat (last - first + 1))) with (Z.of_nat (S n)) by lia.
  pose proof (assemble_spec n first from to ltac:(lia) ltac:(lia) ltac:(lia) Hb1 ltac:(nia) ltac:(nia)) as Ha.
  replace (Z.max from (first * bs)) with from in Ha by lia.
  destruct n as [|n'] eqn:En.
  - assert (block_at <$> seqZ first (Z.of_nat 1) = [block_at first]) as -> by (rewrite seqZ_cons by lia; reflexivity).
    assert (last = first) as Ell by lia. rewrite Ell in *.
    pose proof (blen_block_at first ltac:(lia)) as Hbl. unfold block_len in Hbl.
    rewrite slice_checked_ok by nia. rewrite block_slice by nia. do 2 f_equal; lia.
  - rewrite seqZ_cons in * by lia. rewrite seqZ_cons in * by lia. rewrite !fmap_cons in *. by rewrite Ha.
Qed.

Lemma read_spec envs ra from to c : 0 <= ra -> 0 <= from -> Forall env_ok envs -> holds c ->
  let '(r, _, c') := read hash envs ra h from to c in
  holds c' /\
  match r with
  | ReadOk d => from <= to <= blen content /\ d = obj_slice content from to
  | ReadErr e => (e = InvalidInput /\ ~ (from <= to <= blen content)) \/ Exists (fun e => ~ answers (pe_reader e) obj) envs
  | Panics => False
  | Waits => True
  end.
Proof.
  intros Hra Hfrom He Hc. unfold read. rewrite Hlen.
  destruct (Z.ltb_spec to from); [split; [done|]; left; split; [done|lia]|].
  destruct (Z.ltb_spec (blen content) to); [split; [done|]; left; split; [done|lia]|]. simpl.
  destruct (Z.eqb_spec from to) as [->|Hne]; [split; [done|]; split; [lia|by rewrite obj_slice_nil]|].
  rewrite (ho_bs c Hc). destruct (range_blocks from to ltac:(lia) ltac:(lia)) as (Hf0 & Hlt & Hfl & Hb1 & Hb1' & Hb2 & Hb3).
  set (first := from / bs) in *. set (last := (to - 1) / bs) in *. set (ra' := if _ && _ then ra else 0).
  pose proof (read_loop_spec envs first last ra' (replicate (Z.to_nat (last - first + 1)) None) c) as Hr.
  specialize (Hr ltac:(unfold ra'; destruct (_ && _); lia) Hf0 Hlt ltac:(by rewrite length_replicate) He Hc).
  specialize (Hr ltac:(intros j b [Hj _]%lookup_replicate; discriminate Hj)).
  destruct (read_loop _ _ _ _ _ _ _ _) as [r c']. destruct Hr as [Hc' Hr].
  destruct r as [| |e|bl]; [done|done|split; [done|by right]|]. destruct Hr as (Hl & Hg & Hs).
  unfold first, last in *; rewrite (answer_spec from to bl) by (done || lia). split; [done|]. split; [lia|done].
Qed.

Lemma read_alone e1 e2 envs ra from to c : 0 <= ra -> 0 <= from <= to -> to <= blen content ->
  Forall env_ok (e1 :: e2 :: envs) -> holds c -> unclaimed c ->
  (forall c, unclaimed c -> unclaimed (pe_during e1 c)) -> answers (pe_reader e1) obj ->
  (read hash (e1 :: e2 :: envs) ra h from to c).1.1 = ReadOk (obj_slice content from to).
Proof.
  intros Hra Hft Hto He Hc Hu Hud Ha.
  pose proof (read_spec (e1 :: e2 :: envs) ra from to c Hra ltac:(lia) He Hc) as Hspec.
  assert (forall r h' c', read hash (e1 :: e2 :: envs) ra h from to c = (r, h', c') -> exists d, r = ReadOk d) as Hok.
  { clear Hspec. intros r h' c'. unfold read. rewrite Hlen.
    destruct (Z.ltb_spec to from); [lia|]. destruct (Z.ltb_spec (blen content) to); [lia|]. cbn [orb].
    destruct (Z.eqb_spec from to); [intros [= <- _ _]; by eexists|].
    rewrite (ho_bs c Hc). destruct (range_blocks from to ltac:(lia) ltac:(lia)) as (Hf0 & Hlt & _).
    set (first := from / bs) in *. set (last := (to - 1) / bs) in *. set (ra' := if _ && _ then ra else 0) in *.
    pose proof (Forall_inv He) as He1. pose proof (Forall_inv (Forall_inv_tail He)) as He2.
    destruct (read_loop_completes e1 e2 envs first last ra' (replicate (Z.to_nat (last - first + 1)) None) c
      ltac:(unfold ra'; destruct (_ && _); lia) Hf0 Hlt ltac:(by rewrite length_replicate) He1 He2 Hc
      ltac:(intros j b [Hj _]%lookup_replicate; discriminate Hj) Hu Hud Ha) as [bl Hbl].
    destruct (read_loop _ _ _ _ _ _ _ _) as [r0 c0] eqn:Er. cbn [fst] in Hbl. subst r0.
    pose proof (read_loop_spec (e1 :: e2 :: envs) first last ra' (replicate (Z.to_nat (last - first + 1)) None) c
      ltac:(unfold ra'; destruct (_ && _); lia) Hf0 Hlt ltac:(by rewrite length_replicate) He Hc
      ltac:(intros j b [Hj _]%lookup_replicate; discriminate Hj)) as Hr.
    rewrite Er in Hr. destruct Hr as (_ & Hl & Hg & Hs).
    unfold first, last in *; rewrite (answer_spec from to bl) by (done || lia). intros [= <- _ _]. by eexists. }
  destruct (read hash (e1 :: e2 :: envs) ra h from to c) as [[r h'] c'].
  destruct (Hok r h' c' eq_refl) as [d ->]. simpl. f_equal. apply Hspec.
Qed.

End content.
End tiers.

(** ** Properties *)

(** *** Reads *)

Section reads.
Context {L : Type} `{LruLaws L} (hash : BlockKey -> Z).

(** [C15] A read through the cache is a slice of the file: whatever blocks the two
    tiers hold (as long as those of the file are right), whatever other readers
    do meanwhile, with or without read-ahead, across block and request
    boundaries, the bytes answered are exactly the range asked for; a range
    outside the file is refused, any other error is the storage's, nothing
    panics, and the cache is left with right blocks. *)
Theorem read_exact content obj bs envs ra h from to c :
  0 < bs -> 0 <= ra -> 0 <= from ->
  span_holds obj (h_span h) content ->
  Forall (env_ok content (h_file h) bs obj) envs -> holds content (h_file h) bs c ->
  let '(r, _, c') := read hash envs ra h from to c in
  holds content (h_file h) bs c' /\
  match r with
  | ReadOk d => from <= to <= blen content /\ d = obj_slice content from to
  | ReadErr e => (e = InvalidInput /\ ~ (from <= to <= blen content)) \/
                 Exists (fun env => ~ answers (pe_reader env) obj) envs
  | Panics => False
  | Waits => True
  end.
Proof.
  intros Hbs Hra Hf (Hs1 & Hs2 & Hs3 & Hs4) He Hc.
  apply (read_spec hash content (h_file h) bs Hbs h obj); auto; lia.
Qed.

(** A read that meets no other reader's claim completes: when no block of the
    file is being fetched and the storage answers, the read returns the range in
    at most two passes over its blocks — what it did not find it fetches itself,
    once. *)
Theorem read_completes content obj bs e1 e2 envs ra h from to c :
  0 < bs -> 0 <= ra -> 0 <= from <= to -> to <= blen content ->
  span_holds obj (h_span h) content ->
  Forall (env_ok content (h_file h) bs obj) (e1 :: e2 :: envs) -> holds content (h_file h) bs c ->
  unclaimed (h_file h) c -> (forall c, unclaimed (h_file h) c -> unclaimed (h_file h) (pe_during e1 c)) ->
  answers (pe_reader e1) obj ->
  (read hash (e1 :: e2 :: envs) ra h from to c).1.1 = ReadOk (obj_slice content from to).
Proof.
  intros Hbs Hra Hft Hto (Hs1 & Hs2 & Hs3 & Hs4) He Hc Hu Hud Ha.
  apply (read_alone hash content (h_file h) bs Hbs h obj); auto; lia.
Qed.

(** *** The memory tier *)

(** Every shard's counter is its blocks' bytes, within its budget. *)
Definition shards_ok (c : SplitCache L) : Prop :=
  forall n sh, memory c !! n = Some sh ->
    shard_bytes sh = bytes_held (lru_list (shard_blocks sh)) /\ shard_bytes sh <= memory_shard_bytes c.

Definition memory_bytes (c : SplitCache L) : Z := foldr (fun sh acc => shard_bytes sh + acc) 0 (memory c).

Lemma memory_bytes_le c : shards_ok c -> memory_bytes c <= Z.of_nat (length (memory c)) * memory_shard_bytes c.
Proof.
  unfold shards_ok, memory_bytes. generalize (memory_shard_bytes c) as b. induction (memory c) as [|sh l IH]; intros b Hok; simpl; [lia|].
  pose proof (Hok 0%nat sh eq_refl) as [_ Hs]. specialize (IH b (fun n sh' Hn => Hok (S n) sh' Hn)). lia.
Qed.

Lemma insert_memory_spec c k data sh : shards_ok c -> memory c !! shard_of hash k = Some sh ->
  blen data <= memory_shard_bytes c ->
  let c' := insert_memory hash c k data in
  shards_ok c' /\ exists sh' popped, memory c' !! shard_of hash k = Some sh' /\
    (forall n, n <> shard_of hash k -> memory c' !! n = memory c !! n) /\
    (k, data) :: filter (fun e => e.1 <> k) (lru_list (shard_blocks sh)) = lru_list (shard_blocks sh') ++ popped /\
    (k, data) ∈ lru_list (shard_blocks sh') /\
    (popped = [] \/ memory_shard_bytes c < bytes_held (lru_list (shard_blocks sh') ++ take 1 popped)).
Proof.
  intros Hok Esh Hd. unfold insert_memory. destruct (Z.ltb_spec (memory_shard_bytes c) (blen data)) as [?|Hfit]; [lia|]. rewrite Esh.
  pose proof (lru_put_spec (shard_blocks sh) k data) as [Hp Ho]. destruct (lru_put (shard_blocks sh) k data) as [old l]. simpl in Hp, Ho.
  destruct (Hok _ _ Esh) as [Hs Hle]. set (b := _ + blen data).
  assert (b = bytes_held (lru_list l)) as Hb.
  { rewrite Hp. unfold b. simpl. destruct old as [old|].
    - rewrite (bytes_held_remove (lru_list (shard_blocks sh)) k old) by (apply lru_nodup || done). lia.
    - rewrite remove_absent by done. lia. }
  pose proof (shrink_spec (S (lru_len l)) (memory_shard_bytes c) (mkShard l b) 0 ltac:(lia) Hb ltac:(simpl; rewrite lru_len_spec; lia)) as Hsh.
  destruct (shrink _ _ _ _) as [sh' ev]. simpl in Hsh. destruct Hsh as (Ha & Hb' & popped & Hc & Hd').
  assert (shard_of hash k < length (memory c))%nat as Hlt by (by eapply lookup_lt_Some).
  split.
  - intros n shn. simpl. destruct (decide (n = shard_of hash k)) as [->|Hne].
    + rewrite list_lookup_insert_eq by done. intros [= <-]. done.
    + rewrite list_lookup_insert_ne by done. apply Hok.
  - exists sh', popped. simpl. rewrite list_lookup_insert_eq by done. split; [done|].
    split; [intros n Hn; by rewrite list_lookup_insert_ne|]. split; [by rewrite <- Hp|]. split; [|done].
    assert (lru_list (shard_blocks sh') <> []) as Hne.
    { intros E. rewrite E in Hc, Hd'. simpl in Hc. rewrite <- Hc, Hp in Hd'. destruct Hd' as [?|Hd']; [done|]. simpl in Hd'. lia. }
    rewrite Hp in Hc. destruct (lru_list (shard_blocks sh')) as [|x xs]; [done|]. injection Hc as <- _. left.
Qed.

(** The memory tier stays in its budget: inserting a block keeps every
    shard's counter equal to the bytes it holds and within the shard's share, so
    all shards together within the configured budget; a block that fits the
    share is held afterwards, and what its shard dropped for it are its least
    recently used blocks, no more of them than needed. *)
Theorem memory_tier_budget c k data total :
  shards_ok c -> length (memory c) = Z.to_nat MEMORY_SHARDS -> 0 <= total ->
  memory_shard_bytes c = total / MEMORY_SHARDS ->
  let c' := insert_memory hash c k data in
  shards_ok c' /\ memory_bytes c' <= total /\
  (blen data <= memory_shard_bytes c -> exists sh sh' popped,
     memory c !! shard_of hash k = Some sh /\ memory c' !! shard_of hash k = Some sh' /\
     (k, data) :: filter (fun e => e.1 <> k) (lru_list (shard_blocks sh)) = lru_list (shard_blocks sh') ++ popped /\
     (k, data) ∈ lru_list (shard_blocks sh') /\
     (popped = [] \/ memory_shard_bytes c < bytes_held (lru_list (shard_blocks sh') ++ take 1 popped))).
Proof.
  intros Hok Hl Ht Hb c'.
  assert (is_Some (memory c !! shard_of hash k)) as [sh Esh].
  { apply lookup_lt_is_Some_2. rewrite Hl. unfold shard_of, MEMORY_SHARDS. pose proof (Z.mod_pos_bound (hash k) 16 ltac:(lia)). lia. }
  assert (length (memory c') = length (memory c) /\ memory_shard_bytes c' = memory_shard_bytes c) as [El Eb].
  { unfold c', insert_memory. repeat case_match; simpl; rewrite ?length_insert; done. }
  assert (shards_ok c') as Hok'.
  { destruct (Z.le_gt_cases (blen data) (memory_shard_bytes c)); [by apply (insert_memory_spec c k data sh)|].
    unfold c', insert_memory. destruct (Z.ltb_spec (memory_shard_bytes c) (blen data)); [done|lia]. }
  split; [done|]. split.
  - etrans; [by apply memory_bytes_le|]. rewrite El, Eb, Hl, Hb. unfold MEMORY_SHARDS.
    pose proof (Z.mul_div_le total 16 ltac:(lia)). simpl. lia.
  - intros Hd. destruct (insert_memory_spec c k data sh Hok Esh Hd) as (_ & sh' & popped & Ha & _ & Hb' & Hc' & Hd').
    by exists sh, sh', popped.
Qed.

End reads.

(** *** Claims *)

Section claims.
Context {L : Type}.

(** Readers claim blocks and drop their claims; everything else leaves the
    in-flight set alone.  The live claims, as (file, blocks), are the readers'. *)
Inductive claim_step : SplitCache L * list (FileKey * list Z) -> SplitCache L * list (FileKey * list Z) -> Prop :=
| cs_claim c live file indices c' mine theirs :
    claim c file indices = (c', mine, theirs) -> claim_step (c, live) (c', (file, mine) :: live)
| cs_drop c l1 file mine l2 :
    claim_step (c, l1 ++ (file, mine) :: l2) (drop_claim c file mine, l1 ++ l2)
| cs_other c c' live :
    inflight c' = inflight c -> claim_step (c, live) (c', live).

Definition claimed_keys (live : list (FileKey * list Z)) : list BlockKey :=
  live ≫= fun cl => (fun i => (cl.1, i)) <$> cl.2.

Definition claims_inv (s : SplitCache L * list (FileKey * list Z)) : Prop :=
  NoDup (claimed_keys s.2) /\ forall k, k ∈ inflight s.1 <-> k ∈ claimed_keys s.2.

Lemma claim_fresh file indices fl mine theirs :
  exists fresh, (claim_loop file indices fl mine theirs).1.2 = mine ++ fresh /\ NoDup fresh /\
    (forall i, i ∈ fresh -> (file, i) ∉ fl) /\
    forall k, k ∈ (claim_loop file indices fl mine theirs).1.1 <-> k ∈ fl \/ (k.1 = file /\ k.2 ∈ fresh).
Proof.
  revert fl mine theirs. induction indices as [|i indices IH]; intros fl mine theirs; cbn [claim_loop].
  { exists []. rewrite app_nil_r. split; [done|]. split; [constructor|]. split; [set_solver|]. simpl. set_solver. }
  destruct (decide ((file, i) ∈ fl)) as [Hin|Hout]; [apply IH|].
  destruct (IH ({[(file, i)]} ∪ fl) (mine ++ [i]) theirs) as (fresh & Ha & Hb & Hc & Hd).
  exists (i :: fresh). rewrite Ha, <- app_assoc. split; [done|]. split; [constructor; [|done]|split].
  - intros Hi. apply (Hc i Hi). set_solver.
  - intros j [->|Hj]%elem_of_cons; [done|]. intros Hfl. apply (Hc j Hj). set_solver.
  - intros [f j]. rewrite Hd, elem_of_union, elem_of_singleton, elem_of_cons. simpl. naive_solver.
Qed.

Lemma claimed_keys_app a b : claimed_keys (a ++ b) = claimed_keys a ++ claimed_keys b.
Proof. apply bind_app. Qed.
Lemma claimed_keys_cons file mine live :
  claimed_keys ((file, mine) :: live) = ((fun i => (file, i)) <$> mine) ++ claimed_keys live.
Proof. done. Qed.

Lemma elem_of_keys (file : FileKey) (mine : list Z) (k : BlockKey) : k ∈ ((fun i => (file, i)) <$> mine) <-> k.1 = file /\ k.2 ∈ mine.
Proof. rewrite list_elem_of_fmap. destruct k. naive_solver. Qed.

Lemma drop_claim_inflight (c : SplitCache L) file mine k :
  k ∈ inflight (drop_claim c file mine) <-> k ∈ inflight c /\ ~ (k.1 = file /\ k.2 ∈ mine).
Proof.
  assert (forall fl : gset BlockKey, k ∈ foldl (fun fl i => fl ∖ {[(file, i)]}) fl mine <-> k ∈ fl /\ ~ (k.1 = file /\ k.2 ∈ mine)) as Hf.
  { induction mine as [|i mine IH]; intros fl; cbn [foldl]; [set_solver|].
    rewrite IH, elem_of_difference, elem_of_singleton, elem_of_cons. destruct k. simpl. naive_solver. }
  unfold drop_claim. destruct mine as [|i mine]; [set_solver|]. apply (Hf (inflight c)).
Qed.

Lemma claim_step_inv s s' : claim_step s s' -> claims_inv s -> claims_inv s'.
Proof.
  intros Hstep [Hnd Hin]. destruct Hstep as [c live file indices c' mine theirs E|c l1 file mine l2|c c' live E]; cbn [fst snd] in *.
  - unfold claim in E. destruct (claim_fresh file indices (inflight c) [] []) as (fresh & Ha & Hb & Hc & Hd).
    destruct (claim_loop _ _ _ _ _) as [[fl mine'] theirs']. cbn [fst snd] in *. simplify_eq.
    unfold claims_inv. cbn [fst snd inflight with_inflight] in *. split.
    + rewrite claimed_keys_cons. apply NoDup_app. split; [apply NoDup_fmap; [apply _|done]|]. split; [|done].
      intros k Hk Hl. apply elem_of_keys in Hk as [E Hk]. destruct k as [f i]. simpl in *. subst.
      apply (Hc i Hk). by apply Hin.
    + intros k. rewrite Hd, claimed_keys_cons, elem_of_app, elem_of_keys, Hin. tauto.
  - setoid_rewrite claimed_keys_app in Hin. rewrite claimed_keys_app in Hnd. rewrite claimed_keys_cons in Hnd. setoid_rewrite claimed_keys_cons in Hin.
    unfold claims_inv. cbn [fst snd]. split.
    + rewrite claimed_keys_app. apply NoDup_app in Hnd as (N1 & Nd & N2). apply NoDup_app in N2 as (_ & Nd' & N2).
      apply NoDup_app. split; [done|]. split; [|done]. intros k Hk Hk2. apply (Nd k Hk). apply elem_of_app. by right.
    + intros k. rewrite drop_claim_inflight, Hin, claimed_keys_app, !elem_of_app, elem_of_keys.
      apply NoDup_app in Hnd as (_ & Nd & N2). apply NoDup_app in N2 as (_ & Nd' & _).
      specialize (Nd k). specialize (Nd' k). rewrite elem_of_app, elem_of_keys in Nd. rewrite elem_of_keys in Nd'. tauto.
  - split; [done|]. intros k. simpl. by rewrite E.
Qed.

(** A block is fetched by one reader at a time: in every state readers can
    reach, no block is in two live claims (or twice in one), a reader is told to
    wait exactly for blocks some live claim holds, and once those claims are
    dropped — on success, error or panic alike — it no longer waits. *)
Theorem claims_exclusive c0 s file indices :
  inflight c0 = ∅ -> rtc claim_step (c0, []) s ->
  NoDup (claimed_keys s.2) /\
  (waiting s.1 file indices = true <-> exists i, i ∈ indices /\ (file, i) ∈ claimed_keys s.2) /\
  (s.2 = [] -> waiting s.1 file indices = false).
Proof.
  intros Hc0 Hr. assert (claims_inv s) as [Hnd Hin].
  { assert (claims_inv (c0, [])) as Hi0 by (split; [constructor|]; simpl; rewrite Hc0; set_solver).
    revert Hi0. induction Hr as [s|s1 s2 s3 Hs _ IH]; [done|]. intros Hi. apply IH. by eapply claim_step_inv. }
  assert (waiting s.1 file indices = true <-> exists i, i ∈ indices /\ (file, i) ∈ claimed_keys s.2) as Hw.
  { unfold waiting. rewrite existsb_exists. setoid_rewrite bool_decide_eq_true. setoid_rewrite Hin.
    by setoid_rewrite <- list_elem_of_In. }
  split; [done|]. split; [done|]. intros E. apply not_true_is_false. rewrite Hw, E. intros (i & _ & Hn).
  by apply not_elem_of_nil in Hn.
Qed.

End claims.

(** *** The disk tier *)

Inductive DiskOp :=
| OTouch (k : BlockKey)
| OForget (k : BlockKey)
| OInsert (k : BlockKey) (data : bytes) (io_ok : bool).

Definition op_key (o : DiskOp) : BlockKey := match o with OTouch k | OForget k | OInsert k _ _ => k end.

Definition disk_op (o : DiskOp) (d : DiskTier) : option DiskTier :=
  match o with
  | OTouch k => Some (mkTier (max_bytes d) (disk_touch (dstate d) k).2 (dfiles d) (tmp_counter d))
  | OForget k => Some (disk_forget d k)
  | OInsert k data io_ok => '(_, d, _) ← disk_insert d k data io_ok no_stats; Some d
  end.

Definition disk_run (ops : list DiskOp) (d : DiskTier) : option DiskTier :=
  foldl (fun d o => d ≫= disk_op o) (Some d) ops.

(** Every entry has its file, of its size, and every block file an entry. *)
Definition files_match (d : DiskTier) : Prop :=
  forall k, 0 <= k.2 -> ((fun x => blen x) <$> dfiles d !! block_relative_path k) = fst <$> entries (dstate d) !! k.

(** Within the budget, or nothing left to evict but one block. *)
Definition in_budget (d : DiskTier) : Prop :=
  total_bytes (dstate d) <= max_bytes d \/
  forall k k', is_Some (entries (dstate d) !! k) -> is_Some (entries (dstate d) !! k') -> k = k'.

Record tier_ok (d : DiskTier) : Prop := {
  to_inv : disk_inv (dstate d);
  to_files : files_match d;
  to_budget : in_budget d;
  to_keys k v : entries (dstate d) !! k = Some v -> 0 <= k.2;
}.

Lemma path_eq k k' : 0 <= k.2 -> 0 <= k'.2 -> block_relative_path k = block_relative_path k' -> k = k'.
Proof. destruct k, k'. simpl. intros ? ? E. apply block_path_inj in E as [-> ->]; done. Qed.

Lemma touch_entries s k k' : fst <$> entries (disk_touch s k).2 !! k' = fst <$> entries s !! k'.
Proof.
  unfold disk_touch. destruct (entries s !! k) as [[sz t]|] eqn:E; [|done]. simpl.
  destruct (decide (k' = k)) as [->|Hne]; [by rewrite lookup_insert_eq, E|by rewrite lookup_insert_ne].
Qed.

Lemma touch_some s k k' : is_Some (entries (disk_touch s k).2 !! k') <-> is_Some (entries s !! k').
Proof.
  pose proof (touch_entries s k k') as E.
  destruct (entries (disk_touch s k).2 !! k'), (entries s !! k'); simplify_eq/=; split; intros [? ?]; eauto; done.
Qed.

Lemma touch_total s k : total_bytes (disk_touch s k).2 = total_bytes s.
Proof. unfold disk_touch. by destruct (entries s !! k) as [[sz t]|]. Qed.

Lemma tier_touch d k : tier_ok d -> tier_ok (mkTier (max_bytes d) (disk_touch (dstate d) k).2 (dfiles d) (tmp_counter d)).
Proof.
  intros [H1 H2 H3 H4]. split; simpl.
  - by apply disk_touch_inv.
  - intros k' Hk'. simpl. rewrite touch_entries. by apply H2.
  - unfold in_budget. simpl. rewrite touch_total. setoid_rewrite touch_some. exact H3.
  - intros k' v Hv. assert (is_Some (entries (dstate d) !! k')) as [v' Hv'] by (apply (touch_some _ k); eauto). eauto.
Qed.

Lemma forget_entries d k k' : 
  entries (dstate (disk_forget d k)) !! k' = if decide (k' = k) then None else entries (dstate d) !! k'.
Proof.
  unfold disk_forget. simpl. destruct (entries (dstate d) !! k) as [[sz t]|] eqn:E; simpl; case_decide; subst.
  - apply lookup_delete_eq. - by apply lookup_delete_ne. - done. - done.
Qed.

Lemma tier_forget d k : 0 <= k.2 -> tier_ok d -> tier_ok (disk_forget d k).
Proof.
  intros Hk [H1 H2 H3 H4]. split.
  - by apply disk_forget_inv.
  - intros k' Hk'. rewrite forget_entries. simpl. case_decide as E; [subst; by rewrite lookup_delete_eq|].
    rewrite lookup_delete_ne; [by apply H2|]. intros Ep. apply E. symmetry. by apply path_eq.
  - unfold in_budget in *. setoid_rewrite forget_entries. destruct H3 as [Hb|Hb].
    + left. unfold disk_forget. simpl. destruct (entries (dstate d) !! k) as [[sz t]|] eqn:E; [|done]. simpl.
      pose proof (di_sizes _ H1 _ _ E). simpl in *. lia.
    + right. intros k1 k2. repeat case_decide; intros [? ?] [? ?]; try done. eauto.
  - intros k' v. rewrite forget_entries. case_decide; [done|]. eauto.
Qed.

(** What inserting a block does to a tier in order. *)
Lemma tier_insert d k data st : 0 <= k.2 -> tier_ok d ->
  exists d' (vs : list BlockKey) st', disk_insert d k data true st = Some (true, d', st') /\ tier_ok d' /\ max_bytes d' = max_bytes d /\
    dfiles d' !! block_relative_path k = Some data /\
    fst <$> entries (dstate d') !! k = Some (blen data) /\
    (forall k', k' <> k -> entries (dstate d') !! k' = if decide (k' ∈ vs) then None else entries (dstate d) !! k') /\
    (forall v, v ∈ vs -> v <> k /\ is_Some (entries (dstate d) !! v)) /\
    (forall v k' sv tv sk tk, v ∈ vs -> k' ∉ vs -> k' <> k ->
       entries (dstate d) !! v = Some (sv, tv) -> entries (dstate d) !! k' = Some (sk, tk) -> tv < tk).
Proof.
  intros Hk [H1 H2 H3 H4]. unfold disk_insert. simpl.
  destruct (disk_account_spec (dstate d) k (blen data) (max_bytes d) H1 ltac:(lia)) as (s' & vs & -> & He & Ee & Ek). simpl.
  match type of He with evicted _ _ ?x _ _ => set (s2 := x) in * end.
  assert (forall v, v ∈ vs -> v <> k /\ is_Some (entries (dstate d) !! v)) as Hvs.
  { intros v Hv. assert (v <> k) as Hne by (intros ->; by apply (ev_spared _ _ _ _ _ He)). split; [done|].
    pose proof (ev_held _ _ _ _ _ He v Hv) as Hh. by rewrite Ee, lookup_insert_ne in Hh. }
  assert (forall k', k' <> k -> entries s' !! k' = if decide (k' ∈ vs) then None else entries (dstate d) !! k') as Hent.
  { intros k' Hne. apply option_eq. intros v. rewrite (ev_entries _ _ _ _ _ He), Ee, lookup_insert_ne by done.
    case_decide; naive_solver. }
  assert (forall m p, (foldl (fun m v => delete (block_relative_path v) m) m vs : gmap bytes bytes) !! p =
    if decide (p ∈ block_relative_path <$> vs) then None else m !! p) as Hdel.
  { clear. induction vs as [|v vs IH]; intros m p; [done|]. simpl. rewrite IH. 
    repeat case_decide; try done; try (rewrite elem_of_cons in *; tauto).
    - rewrite elem_of_cons in *. assert (p = block_relative_path v) as -> by tauto. apply lookup_delete_eq.
    - apply lookup_delete_ne. intros <-. rewrite elem_of_cons in *. tauto. }
  assert (forall k', 0 <= k'.2 -> (block_relative_path k' ∈ block_relative_path <$> vs <-> k' ∈ vs)) as Hpath.
  { intros k' Hk'. rewrite list_elem_of_fmap. split; [|eauto]. intros (v & Ev & Hv).
    destruct (Hvs v Hv) as [_ [x Hx]]. apply path_eq in Ev; [by subst|done|by eapply H4]. }
  eexists _, vs, _. split; [done|]. split; [split|]; simpl.
  - apply (ev_inv _ _ _ _ _ He).
  - intros k' Hk'. simpl. rewrite Hdel. destruct (decide (k' = k)) as [->|Hne].
    + rewrite decide_False by (rewrite Hpath by done; apply (ev_spared _ _ _ _ _ He)).
      by rewrite lookup_insert_eq, Ek.
    + rewrite Hent by done. destruct (decide (k' ∈ vs)) as [Hin|Hni].
      * by rewrite decide_True by (by apply Hpath).
      * rewrite decide_False by (by rewrite Hpath). rewrite lookup_insert_ne; [by apply H2|].
        intros Ep. apply Hne. symmetry. by apply path_eq.
  - unfold in_budget. simpl. destruct (ev_budget _ _ _ _ _ He) as [Hb|Hb]; [by left|right].
    intros k1 k2 [? Hk1] [? Hk2]. by rewrite (Hb _ _ Hk1), (Hb _ _ Hk2).
  - intros k' v Hv. destruct (decide (k' = k)) as [->|Hne]; [done|]. rewrite Hent in Hv by done. case_decide; [done|eauto].
  - split; [done|]. split; [|split; [by rewrite Ek|split; [done|split; [done|]]]].
    + rewrite Hdel, decide_False by (rewrite Hpath by done; apply (ev_spared _ _ _ _ _ He)). apply lookup_insert_eq.
    + intros v k' sv tv sk tk Hv Hk' Hne Ev Ek'. destruct (Hvs v Hv) as [Hvk _].
      eapply (ev_lru _ _ _ _ _ He v k'); eauto; rewrite Ee, lookup_insert_ne; done.
Qed.

Lemma tier_ok_empty max : tier_ok (mkTier max empty_disk ∅ 0).
Proof.
  split; simpl.
  - apply empty_disk_inv.
  - intros k _. done.
  - right. simpl. intros k k' [? Hk]. by rewrite lookup_empty in Hk.
  - intros k v Hk. by rewrite lookup_empty in Hk.
Qed.

Lemma disk_run_ok ops d0 : Forall (fun o => 0 <= (op_key o).2) ops -> tier_ok d0 ->
  exists d, disk_run ops d0 = Some d /\ max_bytes d = max_bytes d0 /\ tier_ok d.
Proof.
  intros Hops. revert d0. induction Hops as [|o ops Ho _ IH]; intros d0 Hd0; [by exists d0|].
  assert (exists d1, disk_op o d0 = Some d1 /\ max_bytes d1 = max_bytes d0 /\ tier_ok d1) as (d1 & E & Em & Hd1).
  { destruct o as [k|k|k data [|]]; simpl in *.
    - eexists. split; [done|]. split; [done|]. by apply tier_touch.
    - eexists. split; [done|]. split; [done|]. by apply tier_forget.
    - destruct (tier_insert d0 k data no_stats Ho Hd0) as (d' & vs & st' & -> & Hd' & Em & _). simpl. by exists d'.
    - unfold disk_insert. simpl. eexists. split; [done|]. split; [done|]. destruct Hd0. by split. }
  unfold disk_run. simpl. rewrite E. destruct (IH d1 Hd1) as (d & Er & Em' & Hd). exists d.
  split; [exact Er|]. split; [congruence|done].
Qed.

(** The disk tier's books always balance: over any sequence of lookups,
    drops and inserts (disk writes failing or not) nothing panics; the recency
    map mirrors the entries, one tick each; the total is the sum of the sizes;
    each entry has its file, of its size, and no block file is unaccounted for;
    and the total is within the budget unless a single block is larger than it. *)
Theorem disk_tier_balanced ops max : Forall (fun o => 0 <= (op_key o).2) ops ->
  exists d, disk_run ops (mkTier max empty_disk ∅ 0) = Some d /\ max_bytes d = max /\
    (forall t k, by_tick (dstate d) !! t = Some k <-> exists size, entries (dstate d) !! k = Some (size, t)) /\
    total_bytes (dstate d) = sizes_total (entries (dstate d)) /\ files_match d /\
    (total_bytes (dstate d) <= max \/
     forall k k', is_Some (entries (dstate d) !! k) -> is_Some (entries (dstate d) !! k') -> k = k').
Proof.
  intros Hops. destruct (disk_run_ok ops _ Hops (tier_ok_empty max)) as (d & E & Em & [Hi Hf Hb _]).
  simpl in Em. exists d. split; [done|]. split; [done|].
  split; [apply Hi|]. split; [apply Hi|]. split; [done|]. unfold in_budget in Hb. by rewrite Em in Hb.
Qed.

(** An insert keeps the new block and evicts in order of disuse: the block
    written is on disk and accounted, every block dropped for it was touched
    before every block kept, and no other block changes. *)
Theorem disk_insert_evicts_oldest d k data st : 0 <= k.2 -> tier_ok d ->
  exists d' (vs : list BlockKey) st', disk_insert d k data true st = Some (true, d', st') /\ tier_ok d' /\
    dfiles d' !! block_relative_path k = Some data /\
    fst <$> entries (dstate d') !! k = Some (blen data) /\
    (forall k', k' <> k -> entries (dstate d') !! k' = if decide (k' ∈ vs) then None else entries (dstate d) !! k') /\
    (forall v k' sv tv sk tk, v ∈ vs -> k' ∉ vs -> k' <> k ->
       entries (dstate d) !! v = Some (sv, tv) -> entries (dstate d) !! k' = Some (sk, tk) -> tv < tk).
Proof.
  intros Hk Hd. destruct (tier_insert d k data st Hk Hd) as (d' & vs & st' & H1 & H2 & _ & H3 & H4 & H5 & _ & H6).
  by exists d', vs, st'.
Qed.

(** The requests of a fetch cover what is missing and nothing outside the
    file: every missing block lies in some request, every request is a non-empty
    range of the file's blocks, read-ahead included, and none asks for more than
    one block or the request limit, whichever is larger. *)
Theorem fetch_requests_cover indices readahead flen bs :
  0 < bs -> 0 <= flen -> 0 <= readahead ->
  Forall (fun i => 0 <= i /\ i * bs < flen) indices ->
  Forall (fun c => 0 <= c.1 < c.2 /\ c.1 * bs < flen /\ (c.2 - 1) * bs < flen /\
                   (c.2 - c.1) * bs <= Z.max FETCH_CHUNK_BYTES bs) (fetch_chunks indices readahead flen bs) /\
  (forall i, i ∈ indices -> in_ranges (fetch_chunks indices readahead flen bs) i).
Proof.
  intros Hb Hf Hra Hi. destruct (total_blocks_spec flen bs Hb Hf) as (_ & _ & Hin).
  destruct (chunks_spec indices readahead flen bs Hb Hf Hra) as [Hc Hcov].
  { eapply Forall_impl; [exact Hi|]. intros i [H0 H1]. split; [done|by apply Hin]. }
  split; [|done]. eapply Forall_impl; [exact Hc|]. intros [s e]; simpl. intros ([H0 H1] & H2 & H3).
  split; [lia|]. split; [apply Hin; lia|]. split; [apply Hin; lia|].
  assert (FETCH_CHUNK_BYTES / bs * bs <= FETCH_CHUNK_BYTES) by (rewrite Z.mul_comm; apply Z.mul_div_le; lia).
  destruct (Z.max_spec (FETCH_CHUNK_BYTES / bs) 1) as [[? E]|[? E]]; rewrite E in H3; nia.
Qed.

(** ** Concrete inputs *)

(** An LRU map as its list, most recent first. *)
Definition lru_model : Type := { l : list (BlockKey * bytes) | NoDup l.*1 }.

Definition assoc (k : BlockKey) (l : list (BlockKey * bytes)) : option bytes :=
  snd <$> head (filter (fun e => e.1 = k) l).

Lemma without_nodup k (l : list (BlockKey * bytes)) : NoDup l.*1 -> NoDup (filter (fun e => e.1 <> k) l).*1.
Proof.
  induction l as [|e l IH]; [constructor|]. rewrite fmap_cons, NoDup_cons. intros [Hn Hd]. rewrite filter_cons.
  case_decide; [|by apply IH]. rewrite fmap_cons, NoDup_cons. split; [|by apply IH].
  intros (e' & Ee & [_ He]%list_elem_of_filter)%list_elem_of_fmap. apply Hn, list_elem_of_fmap. eauto.
Qed.

Lemma front_nodup k v l : NoDup l.*1 -> NoDup ((k, v) :: filter (fun e : BlockKey * bytes => e.1 <> k) l).*1.
Proof.
  intros Hd. rewrite fmap_cons, NoDup_cons. split; [|by apply without_nodup].
  intros (e & Ee & [Hne _]%list_elem_of_filter)%list_elem_of_fmap. by subst.
Qed.

Lemma init_nodup (l : list (BlockKey * bytes)) : NoDup l.*1 -> NoDup (removelast l).*1.
Proof.
  destruct l as [|x l] using rev_ind; [done|]. rewrite removelast_last, fmap_app, NoDup_app. tauto.
Qed.

#[local] Instance lru_model_ops : LruCache lru_model := {
  lru_unbounded := exist _ [] (NoDup_nil_2 (A := BlockKey));
  lru_get l k :=
    match assoc k (`l) with
    | Some v => (Some v, exist _ ((k, v) :: filter (fun e => e.1 <> k) (`l)) (front_nodup k v (`l) (proj2_sig l)))
    | None => (None, l)
    end;
  lru_put l k v := (assoc k (`l), exist _ ((k, v) :: filter (fun e => e.1 <> k) (`l)) (front_nodup k v (`l) (proj2_sig l)));
  lru_pop l := (list.last (`l), exist _ (removelast (`l)) (init_nodup (`l) (proj2_sig l)));
  lru_len l := length (`l);
}.

Lemma assoc_spec k l : match assoc k l with Some v => (k, v) ∈ l | None => k ∉ l.*1 end.
Proof.
  unfold assoc. destruct (filter (fun e => e.1 = k) l) as [|[k' v] r] eqn:E; simpl.
  - intros ([k' v] & -> & Hin)%list_elem_of_fmap. assert ((k', v) ∈ filter (fun e => e.1 = k') l) as Hf
      by (by apply list_elem_of_filter). simpl in E. rewrite E in Hf. by apply not_elem_of_nil in Hf.
  - assert ((k', v) ∈ filter (fun e => e.1 = k) l) as Hf by (rewrite E; left).
    apply list_elem_of_filter in Hf as [Hk Hf]. simpl in Hk. by subst.
Qed.

#[local] Program Instance lru_model_laws : LruLaws lru_model := { lru_list l := `l }.
Next Obligation. intros l. apply (proj2_sig l). Qed.
Next Obligation. done. Qed.
Next Obligation. done. Qed.
Next Obligation.
  intros l k. simpl. pose proof (assoc_spec k (`l)) as Ha. by destruct (assoc k (`l)).
Qed.
Next Obligation. intros l k v. split; [done|]. apply assoc_spec. Qed.
Next Obligation.
  intros [l Hl]. simpl. destruct (list.last l) as [e|] eqn:E; [by apply last_split|].
  by apply last_None in E as ->.
Qed.

Definition demo_hash (k : BlockKey) : Z := k.2.
Definition demo_text : bytes := str "abcdefghij".
Definition demo_object : bytes := str "##abcdefghij{}".
Definition demo_handle : Handle := mkHandle (file_key (str "s1") (str "seg.store")) {| offset := 2; len := 10 |} NO_READ.
Definition demo_cache : SplitCache lru_model := build (Some (mkTier 6 empty_disk ∅ 0)) 64 4.
Definition demo_env : PassEnv (L := lru_model) :=
  {| pe_during := id; pe_reader := list_reader demo_object; pe_io := fun _ => true; pe_others := id |}.

Lemma demo_span : span_holds demo_object (h_span demo_handle) demo_text.
Proof. split; [simpl; lia|]. split; [reflexivity|]. split; [simpl; lia|]. vm_compute. reflexivity. Qed.

Lemma demo_env_ok : env_ok demo_text (h_file demo_handle) 4 demo_object demo_env.
Proof. split; [done|]. split; [done|]. apply list_reader_reads. Qed.

Lemma demo_envs_ok : Forall (env_ok demo_text (h_file demo_handle) 4 demo_object) [demo_env; demo_env].
Proof. exact (Forall_cons_2 _ _ _ demo_env_ok (Forall_cons_2 _ _ _ demo_env_ok (Forall_nil_2 _))). Qed.

Lemma build_shard d total bs n (sh : MemoryShard lru_model) :
  memory (build d total bs) !! n = Some sh -> sh = mkShard lru_unbounded 0.
Proof. intros Hn. by apply lookup_replicate in Hn as [-> _]. Qed.

Lemma demo_holds : holds demo_text (h_file demo_handle) 4 demo_cache.
Proof.
  split; [done| | |].
  - intros n sh k v ->%build_shard Hin. by apply not_elem_of_nil in Hin.
  - intros d i data [= <-] _ Hl. simpl in Hl. by rewrite lookup_empty in Hl.
  - intros d [= <-]. apply empty_disk_inv.
Qed.

Example demo_read : (read demo_hash [demo_env; demo_env] 0 demo_handle 3 9 demo_cache).1.1 = ReadOk (str "defghi").
Proof. vm_compute. reflexivity. Qed.

Lemma read_exact_witness :
  (read demo_hash [demo_env; demo_env] 0 demo_handle 3 9 demo_cache).1.1 = ReadOk (str "defghi") /\
  holds demo_text (h_file demo_handle) 4 (read demo_hash [demo_env; demo_env] 0 demo_handle 3 9 demo_cache).2.
Proof.
  split; [exact demo_read|].
  pose proof (read_exact demo_hash demo_text demo_object 4 [demo_env; demo_env] 0 demo_handle 3 9 demo_cache
    eq_refl ltac:(lia) ltac:(lia) demo_span
    demo_envs_ok demo_holds) as Hr.
  revert Hr. generalize (read demo_hash [demo_env; demo_env] 0 demo_handle 3 9 demo_cache) as w.
  intros [[r h'] c'] [Hc _]. exact Hc.
Defined.

Lemma read_completes_witness :
  (read demo_hash [demo_env; demo_env] 2 demo_handle 3 9 demo_cache).1.1 = ReadOk (obj_slice demo_text 3 9).
Proof.
  apply (read_completes demo_hash demo_text demo_object 4 demo_env demo_env [] 2 demo_handle 3 9 demo_cache);
    [lia|lia|lia|simpl; lia|exact demo_span| |exact demo_holds|intros i; apply not_elem_of_empty|done|apply list_reader_answers].
  exact demo_envs_ok.
Defined.

Lemma memory_tier_budget_witness :
  memory_bytes (insert_memory demo_hash demo_cache (str "f", 3) (str "abcd")) <= 64.
Proof.
  apply (memory_tier_budget demo_hash demo_cache (str "f", 3) (str "abcd") 64); [|reflexivity|lia|reflexivity].
  intros n sh ->%build_shard. split; [reflexivity|]. change (0 <= 4). lia.
Defined.

Definition demo_claimed : SplitCache lru_model * list Z * list Z := claim demo_cache (str "f") [0; 1].

Lemma claims_exclusive_witness :
  waiting demo_claimed.1.1 (str "f") [1; 2] = true.
Proof.
  apply (proj1 (proj2 (claims_exclusive demo_cache (demo_claimed.1.1, [(str "f", [0; 1])]) (str "f") [1; 2]
    eq_refl (rtc_once _ _ (cs_claim demo_cache [] (str "f") [0; 1] demo_claimed.1.1 [0; 1] [] eq_refl))))).
  exists 1. split; [left|]. right. left.
Defined.

Definition demo_ops : list DiskOp :=
  [OInsert (str "f", 0) (str "abcd") true; OInsert (str "f", 1) (str "efgh") false; OInsert (str "f", 1) (str "efgh") true;
   OTouch (str "f", 0); OInsert (str "g", 0) (str "xy") true; OForget (str "g", 9)].

Lemma disk_tier_balanced_witness :
  exists d, disk_run demo_ops (mkTier 9 empty_disk ∅ 0) = Some d /\ total_bytes (dstate d) = sizes_total (entries (dstate d)).
Proof.
  destruct (disk_tier_balanced demo_ops 9 ltac:(repeat constructor; simpl; lia)) as (d & E & _ & _ & Ht & _).
  exists d. split; [exact E|exact Ht].
Defined.

Definition demo_tier_ops : list DiskOp :=
  [OInsert (str "f", 0) (str "abcd") true; OInsert (str "f", 1) (str "efgh") true; OTouch (str "f", 0)].
Definition demo_tier : DiskTier := default (mkTier 9 empty_disk ∅ 0) (disk_run demo_tier_ops (mkTier 9 empty_disk ∅ 0)).

Lemma demo_tier_ok : tier_ok demo_tier.
Proof.
  destruct (disk_run_ok demo_tier_ops _ ltac:(repeat constructor; simpl; lia) (tier_ok_empty 9)) as (d & E & _ & Hd).
  unfold demo_tier. by rewrite E.
Qed.

(** The third block of four bytes does not fit nine: the block touched last stays. *)
Lemma disk_insert_evicts_oldest_witness :
  match disk_insert demo_tier (str "g", 0) (str "wxyz") true no_stats with
  | Some (_, d', _) => bool_decide (is_Some (entries (dstate d') !! (str "f", 0))) &&
      negb (bool_decide (is_Some (entries (dstate d') !! (str "f", 1)))) = true /\ tier_ok d'
  | None => False
  end.
Proof.
  destruct (disk_insert_evicts_oldest demo_tier (str "g", 0) (str "wxyz") no_stats ltac:(simpl; lia) demo_tier_ok)
    as (d' & vs & st' & E & Hd & _).
  assert (match disk_insert demo_tier (str "g", 0) (str "wxyz") true no_stats with
    | Some (_, d', _) => bool_decide (is_Some (entries (dstate d') !! (str "f", 0))) &&
        negb (bool_decide (is_Some (entries (dstate d') !! (str "f", 1))))
    | None => false end = true) as Hb by (vm_compute; reflexivity).
  rewrite E in Hb |- *. split; [exact Hb|exact Hd].
Defined.

Lemma fetch_requests_cover_witness :
  in_ranges (fetch_chunks [0; 1; 5] 2 4000 256) 5 /\ fetch_chunks [0; 1; 5] 2 4000 256 = [(0, 2); (5, 8)].
Proof.
  split; [|vm_compute; reflexivity].
  apply (proj2 (fetch_requests_cover [0; 1; 5] 2 4000 256 ltac:(lia) ltac:(lia) ltac:(lia)
    ltac:(repeat constructor; lia))). right. right. left.
Defined.
