(* ===== verification/Placement.v ===== *)
(** * Placement tables (crates/rsearch-metastore: locations.rs, nodes.rs;
    crates/rsearch-server/src/placement.rs)

    [object_locations] (which node holds which object) and [nodes], with the
    statements run on them.  Times are milliseconds of the database clock;
    text is ordered by its bytes.  Rows of [splits] come from [Metastore]. *)

From Stdlib Require Import ZArith Lia.
From Stdlib Require Import Strings.Byte.
From stdpp Require Import base gmap sets list strings sorting.
From S2P Require Import Prelude Json Metastore.

Local Open Scope Z_scope.

(** ** Rows *)

Record Location := mkLoc { loc_size : Z; loc_created : Z }.

(** A row of [nodes]; the id is the key. *)
Record NodeRow := mkNode {
  nd_roles : list bytes;
  nd_address : option bytes;
  nd_heartbeat : Z;
  nd_draining : bool;
  nd_draining_since : option Z;
}.

(** [NodeRecord], as the queries return it. *)
Record NodeRecord := mkRec {
  id : bytes; roles : list bytes; address : option bytes;
  heartbeat_age : Z; draining : bool; draining_since : option Z;
}.

Record UnderReplicatedKey := { ur_storage_key : bytes; ur_live_holders : Z }.

Record ClusterDb := mkClusterDb {
  locations : gmap (bytes * bytes) Location;    (** by (storage_key, node_id) *)
  nodes : gmap bytes NodeRow;
  held_bytes : option (gmap bytes Z * Z);       (** the client's cached totals and their time *)
  meta : Metastore;
}.

Definition with_locations (f : gmap (bytes * bytes) Location -> gmap (bytes * bytes) Location) (d : ClusterDb) : ClusterDb :=
  mkClusterDb (f (locations d)) (nodes d) (held_bytes d) (meta d).
Definition with_nodes (f : gmap bytes NodeRow -> gmap bytes NodeRow) (d : ClusterDb) : ClusterDb :=
  mkClusterDb (locations d) (f (nodes d)) (held_bytes d) (meta d).

Definition to_record (now : Z) (i : bytes) (n : NodeRow) : NodeRecord :=
  mkRec i (nd_roles n) (nd_address n) (now - nd_heartbeat n) (nd_draining n) ((fun t => now - t) <$> nd_draining_since n).

(** ** Order *)

(** [ORDER BY] of two keys. *)
Definition by_bytes {A} (f : A -> bytes) (a b : A) : Prop := bytes_le (f a) (f b).
#[export] Instance by_bytes_dec {A} (f : A -> bytes) : RelDecision (by_bytes f).
Proof. unfold by_bytes. intros a b. apply _. Defined.

Definition sort_keys (l : list bytes) : list bytes := merge_sort bytes_le l.

(** ** Copies (locations.rs) *)

(** The upsert keeps [created_at]. *)
Definition upsert_location (key node : bytes) (size now : Z) (m : gmap (bytes * bytes) Location) : gmap (bytes * bytes) Location :=
  <[(key, node) := mkLoc size (match m !! (key, node) with Some l => loc_created l | None => now end)]> m.

Definition record_object_location (key node : bytes) (size now : Z) (d : ClusterDb) : ClusterDb :=
  with_locations (upsert_location key node size now) d.

(** [EXISTS (SELECT 1 FROM object_locations WHERE storage_key = key)]. *)
Definition holders (d : ClusterDb) (key : bytes) : list bytes :=
  snd <$> filter (fun k : bytes * bytes => k.1 = key) (elements (dom (locations d))).
Definition located (d : ClusterDb) (key : bytes) : bool := bool_decide (holders d key <> []).

(** [None] when the object is unknown, [Some true] when a row was inserted,
    [Some false] when one was refreshed. *)
Definition record_object_location_if_known (key node : bytes) (size now : Z) (d : ClusterDb) : option bool * ClusterDb :=
  if located d key
  then (Some (bool_decide (locations d !! (key, node) = None)), record_object_location key node size now d)
  else (None, d).

Definition other_holders_exist (d : ClusterDb) (key node : bytes) : bool :=
  bool_decide (Exists (fun n => n <> node) (holders d key)).

Definition split_row (d : ClusterDb) (key : bytes) : bool :=
  bool_decide (Exists (fun s => ns_storage_key (sp_new s) = key) (split_rows (meta d))).
Definition object_known (d : ClusterDb) (key : bytes) : bool := located d key || split_row d key.

(** Every key that has a row, once. *)
Definition located_keys (d : ClusterDb) : list bytes := elements (set_map fst (dom (locations d)) : gset bytes).
Definition newest (d : ClusterDb) (key : bytes) : Z :=
  foldr (fun p acc => if decide (p.1.1 = key) then Z.max (loc_created p.2) acc else acc) I64_MIN (map_to_list (locations d)).

Definition stray_object_keys (d : ClusterDb) (now min_age lim : Z) : list bytes :=
  limit lim (sort_keys (filter (fun key => split_row d key = false /\ newest d key < now - min_age) (located_keys d))).

Definition remove_object_location (key node : bytes) (d : ClusterDb) : ClusterDb :=
  with_locations (delete (key, node)) d.
Definition remove_object_locations (key : bytes) (d : ClusterDb) : ClusterDb :=
  with_locations (filter (fun p => p.1.1 <> key)) d.

Definition live (now stale_after : Z) (n : NodeRow) : Prop := now - stale_after < nd_heartbeat n.
#[export] Instance live_dec now s n : Decision (live now s n).
Proof. unfold live. apply _. Defined.

(** The rows of [nodes] in id order. *)
Definition node_list (d : ClusterDb) : list (bytes * NodeRow) := merge_sort (by_bytes fst) (map_to_list (nodes d)).

Definition live_holders_of (d : ClusterDb) (key : bytes) (now stale_after : Z) : list NodeRecord :=
  (fun p => to_record now p.1 p.2) <$>
  filter (fun p => is_Some (locations d !! (key, p.1)) /\ live now stale_after p.2) (node_list d).

Definition locations_on_node (d : ClusterDb) (node : bytes) (lim : Z) : list bytes :=
  limit lim ((fun p => p.1.1) <$> order_by (fun p => loc_created p.2)
    (filter (fun p => p.1.2 = node) (map_to_list (locations d)))).

(** Keyset pagination: keys after [after], in order. *)
Definition stale_locations_on_node (d : ClusterDb) (node : bytes) (now min_age : Z) (after : bytes) (lim : Z) : list bytes :=
  limit lim (sort_keys ((fun p => p.1.1) <$>
    filter (fun p => p.1.2 = node /\ bytes_lt after p.1.1 /\ loc_created p.2 < now - min_age) (map_to_list (locations d)))).

(** The totals are recomputed when the cached ones are older than 5 s. *)
Definition HELD_BYTES_TTL : Z := 5000.
Definition held_by (d : ClusterDb) (node : bytes) : Z :=
  foldr (fun p acc => if decide (p.1.2 = node) then loc_size p.2 + acc else acc) 0 (map_to_list (locations d)).
Definition sum_held (d : ClusterDb) : gmap bytes Z :=
  foldr (fun k m => <[k.2 := held_by d k.2]> m) ∅ (elements (dom (locations d))).
Definition node_held_bytes (now : Z) (d : ClusterDb) : gmap bytes Z * ClusterDb :=
  match held_bytes d with
  | Some (m, at_) => if now - at_ <? HELD_BYTES_TTL then (m, d)
      else let m := sum_held d in (m, mkClusterDb (locations d) (nodes d) (Some (m, now)) (meta d))
  | None => let m := sum_held d in (m, mkClusterDb (locations d) (nodes d) (Some (m, now)) (meta d))
  end.

(** Draining nodes last, then the fewest bytes, then the id. *)
Definition rank (held : gmap bytes Z) (r : NodeRecord) : bool * Z * bytes :=
  (draining r, default 0 (held !! id r), id r).
Definition rank_le (held : gmap bytes Z) (a b : NodeRecord) : Prop :=
  let '(da, ba, ia) := rank held a in
  let '(db, bb, ib) := rank held b in
  (da = false /\ db = true) \/ (da = db /\ (ba < bb \/ (ba = bb /\ bytes_le ia ib))).
#[export] Instance rank_le_dec held : RelDecision (rank_le held).
Proof. unfold rank_le. intros a b. simpl. apply _. Defined.

Definition candidates (d : ClusterDb) (now stale_after : Z) (exclude : list bytes) (include_draining : bool) : list NodeRecord :=
  (fun p => to_record now p.1 p.2) <$>
  filter (fun p => live now stale_after p.2 /\ p.1 ∉ exclude /\ (nd_draining p.2 = false \/ include_draining = true))
    (map_to_list (nodes d)).

Definition replication_targets (now stale_after : Z) (exclude : list bytes) (lim : Z) (include_draining : bool) (d : ClusterDb)
    : list NodeRecord * ClusterDb :=
  let '(held, d') := node_held_bytes now d in
  (limit (Z.max 0 lim) (merge_sort (rank_le held) (candidates d now stale_after exclude include_draining)), d').

(** [MAX(size_bytes)]; no row, no answer. *)
Definition object_size (d : ClusterDb) (key : bytes) : option Z :=
  foldr (fun p acc => if decide (p.1.1 = key)
           then Some (match acc with Some s => Z.max (loc_size p.2) s | None => loc_size p.2 end) else acc)
    None (map_to_list (locations d)).

(** SQL's [LIKE] with [\] as the escape character. *)
Fixpoint like (fuel : nat) (pat text : bytes) : bool :=
  match fuel with
  | O => false
  | S fuel =>
      match pat with
      | [] => bool_decide (text = [])
      | c :: pat' =>
          if decide (c = x25) then   (* % *)
            like fuel pat' text || match text with [] => false | _ :: text' => like fuel pat text' end
          else if decide (c = x5f) then   (* _ *)
            match text with [] => false | _ :: text' => like fuel pat' text' end
          else if decide (c = x5c) then   (* \ *)
            match pat', text with
            | e :: pat'', t :: text' => bool_decide (e = t) && like fuel pat'' text'
            | _, _ => false
            end
          else match text with [] => false | t :: text' => bool_decide (c = t) && like fuel pat' text' end
      end
  end.
(** Each step drops a byte of the pattern or of the text. *)
Definition sql_like (text pat : bytes) : bool := like (S (length pat + length text)) pat text.

(** [str::replace] of one byte by two. *)
Definition replace1 (c : byte) (by_ : bytes) (l : bytes) : bytes := l ≫= fun b => if decide (b = c) then by_ else [b].
Definition prefix_pattern (prefix : bytes) : bytes :=
  replace1 x5f [x5c; x5f] (replace1 x25 [x5c; x25] (replace1 x5c [x5c; x5c] prefix)) ++ [x25].
Definition object_keys_with_prefix (d : ClusterDb) (prefix : bytes) : list bytes :=
  sort_keys (filter (fun key => sql_like key (prefix_pattern prefix) = true) (located_keys d)).

(** The rows of a key whose node is registered and live. *)
Definition live_count (d : ClusterDb) (now stale_after : Z) (key : bytes) : Z :=
  Z.of_nat (length (filter (fun p => is_Some (locations d !! (key, p.1)) /\ live now stale_after p.2) (map_to_list (nodes d)))).

(** [ORDER BY live_holders ASC, storage_key]. *)
Definition endangered_le (a b : UnderReplicatedKey) : Prop :=
  ur_live_holders a < ur_live_holders b \/
  (ur_live_holders a = ur_live_holders b /\ bytes_le (ur_storage_key a) (ur_storage_key b)).
#[export] Instance endangered_le_dec : RelDecision endangered_le.
Proof. unfold endangered_le. intros a b. apply _. Defined.

Definition under_replicated_keys (d : ClusterDb) (factor now stale_after min_age lim : Z) : list UnderReplicatedKey :=
  limit lim (merge_sort endangered_le
    ((fun key => {| ur_storage_key := key; ur_live_holders := live_count d now stale_after key |}) <$>
     filter (fun key => live_count d now stale_after key < factor /\ newest d key < now - min_age) (located_keys d))).

(** ** Nodes (nodes.rs) *)

(** The upsert keeps the draining flag and answers it. *)
Definition heartbeat (node : bytes) (rs : list bytes) (addr : option bytes) (now : Z) (d : ClusterDb) : bool * ClusterDb :=
  let row :=
    match nodes d !! node with
    | Some n => mkNode rs addr now (nd_draining n) (nd_draining_since n)
    | None => mkNode rs addr now false None
    end in
  (nd_draining row, with_nodes (<[node := row]>) d).

Definition set_node_draining (node : bytes) (drain : bool) (now : Z) (d : ClusterDb) : bool * ClusterDb :=
  match nodes d !! node with
  | None => (false, d)
  | Some n =>
      let since := if negb drain then None else if nd_draining n then nd_draining_since n else Some now in
      (true, with_nodes (<[node := mkNode (nd_roles n) (nd_address n) (nd_heartbeat n) drain since]>) d)
  end.

Definition list_nodes (d : ClusterDb) (now : Z) : list NodeRecord := (fun p => to_record now p.1 p.2) <$> node_list d.
Definition live_nodes (d : ClusterDb) (now stale_after : Z) : list NodeRecord :=
  (fun p => to_record now p.1 p.2) <$> filter (fun p => live now stale_after p.2) (node_list d).

(** Expired nodes go; of their rows only those whose object has another copy
    on a registered node that did not expire. *)
Definition expired (now expire_after : Z) (n : NodeRow) : Prop := nd_heartbeat n < now - expire_after.
#[export] Instance expired_dec now e n : Decision (expired now e n).
Proof. unfold expired. apply _. Defined.
Definition has_survivor (d : ClusterDb) (ids : gset bytes) (registered : gset bytes) (key : bytes) : bool :=
  bool_decide (Exists (fun n => n ∉ ids /\ n ∈ registered) (holders d key)).
Definition expire_dead_nodes (expire_after now : Z) (d : ClusterDb) : Z * ClusterDb :=
  let ids : gset bytes := dom (filter (fun p => expired now expire_after p.2) (nodes d)) in
  let left := filter (fun p => ~ expired now expire_after p.2) (nodes d) in
  let locs := filter (fun p => ~ (p.1.2 ∈ ids /\ has_survivor d ids (dom left) p.1.1 = true)) (locations d) in
  (Z.of_nat (size ids), mkClusterDb locs left (held_bytes d) (meta d)).

(** ** The storage backend's view (placement.rs) *)

Definition LIVE_AFTER : Z := 30000.

Record PeerNode := mkPeer { pn_id : bytes; pn_address : option bytes }.
Definition to_peer (r : NodeRecord) : PeerNode := mkPeer (id r) (address r).

Definition live_holders (d : ClusterDb) (key : bytes) (now : Z) : list PeerNode :=
  to_peer <$> live_holders_of d key now LIVE_AFTER.
Definition write_targets (exclude : list bytes) (count : nat) (now : Z) (d : ClusterDb) : list PeerNode * ClusterDb :=
  let '(rs, d') := replication_targets now LIVE_AFTER exclude (Z.of_nat count) false d in (to_peer <$> rs, d').

(** ** Lemmas: rows *)

Lemma elem_of_holders d key n : n ∈ holders d key <-> is_Some (locations d !! (key, n)).
Proof.
  unfold holders. rewrite list_elem_of_fmap. split.
  - intros ([k n'] & -> & Hin). apply list_elem_of_filter in Hin as [Hk Hin]. simpl in *. subst k.
    by apply elem_of_elements, elem_of_dom in Hin.
  - intros Hs. exists (key, n). split; [done|]. apply list_elem_of_filter. split; [done|].
    by apply elem_of_elements, elem_of_dom.
Qed.

Lemma located_spec d key : located d key = true <-> exists n, is_Some (locations d !! (key, n)).
Proof.
  unfold located. rewrite bool_decide_eq_true. split.
  - intros Hne. destruct (holders d key) as [|n l] eqn:E; [done|]. exists n. apply elem_of_holders. rewrite E. left.
  - intros [n Hn] E. apply elem_of_holders in Hn. rewrite E in Hn. inversion Hn.
Qed.

Lemma elem_of_located_keys d key : key ∈ located_keys d <-> located d key = true.
Proof.
  unfold located_keys. rewrite elem_of_elements, elem_of_map, located_spec. split.
  - intros ([k n] & -> & Hin). exists n. by apply elem_of_dom in Hin.
  - intros [n Hn]. exists (key, n). split; [done|]. by apply elem_of_dom.
Qed.

Lemma lookup_upsert key node size now m k :
  upsert_location key node size now m !! k =
  if decide (k = (key, node)) then Some (mkLoc size (match m !! (key, node) with Some l => loc_created l | None => now end))
  else m !! k.
Proof.
  unfold upsert_location. destruct (decide (k = (key, node))) as [->|Hne]; [apply lookup_insert_eq|].
  apply lookup_insert_ne. congruence.
Qed.

Lemma lookup_removed_all d key k :
  locations (remove_object_locations key d) !! k = if decide (k.1 = key) then None else locations d !! k.
Proof.
  unfold remove_object_locations. simpl. destruct (decide (k.1 = key)) as [E|E].
  - apply map_lookup_filter_None. right. intros x _ Hx. apply Hx. exact E.
  - destruct (locations d !! k) as [x|] eqn:Ek.
    + apply map_lookup_filter_Some. done.
    + apply map_lookup_filter_None. by left.
Qed.

Lemma has_survivor_spec d ids reg key : has_survivor d ids reg key = true <->
  exists n, is_Some (locations d !! (key, n)) /\ n ∉ ids /\ n ∈ reg.
Proof.
  unfold has_survivor. rewrite bool_decide_eq_true, Exists_exists. setoid_rewrite elem_of_holders. naive_solver.
Qed.

Lemma elem_of_sort_keys x l : x ∈ sort_keys l <-> x ∈ l.
Proof. unfold sort_keys. by rewrite merge_sort_Permutation. Qed.

Lemma sort_keys_sorted l : StronglySorted bytes_le (sort_keys l).
Proof. apply StronglySorted_merge_sort; apply _. Qed.

Lemma sort_keys_strict l : NoDup l -> StronglySorted bytes_lt (sort_keys l).
Proof.
  intros Hnd. assert (NoDup (sort_keys l)) as Hn by (unfold sort_keys; by rewrite merge_sort_Permutation).
  pose proof (sort_keys_sorted l) as Hs. induction Hs as [|x xs Hs IH Hx]; [constructor|].
  apply NoDup_cons in Hn as [Hni Hn]. constructor; [by apply IH|].
  apply Forall_forall. intros y Hy. rewrite Forall_forall in Hx.
  destruct (proj1 (bytes_le_lteq x y) (Hx y Hy)) as [|<-]; [done|]. contradiction.
Qed.

(** ** Lemmas: targets *)

Lemma elem_of_limit {A} (x : A) n l : x ∈ limit n l -> x ∈ l.
Proof. unfold limit. intros H. rewrite <- (take_drop (Z.to_nat n) l). apply elem_of_app. by left. Qed.

Lemma candidates_ids d now s ex b : NoDup (id <$> candidates d now s ex b).
Proof.
  unfold candidates. rewrite <- list_fmap_compose.
  replace (id ∘ (fun p => to_record now p.1 p.2)) with (fst : bytes * NodeRow -> bytes) by done.
  apply (sublist_NoDup _ (map_to_list (nodes d)).*1); [apply NoDup_fst_map_to_list|]. apply fmap_sublist, sublist_filter.
Qed.

Lemma elem_of_candidates d now s ex b r : r ∈ candidates d now s ex b <->
  exists n, nodes d !! id r = Some n /\ r = to_record now (id r) n /\ live now s n /\ id r ∉ ex /\
    (nd_draining n = false \/ b = true).
Proof.
  unfold candidates. rewrite list_elem_of_fmap. split.
  - intros ([i n] & -> & Hin). apply list_elem_of_filter in Hin as [(Hl & He & Hd) Hin].
    apply elem_of_map_to_list in Hin. exists n. done.
  - intros (n & Hn & Hr & Hl & He & Hd). exists (id r, n). split; [done|].
    apply list_elem_of_filter. split; [done|]. by apply elem_of_map_to_list.
Qed.

Lemma held_frame now d : let d' := (node_held_bytes now d).2 in
  locations d' = locations d /\ nodes d' = nodes d /\ meta d' = meta d.
Proof. unfold node_held_bytes. destruct (held_bytes d) as [[m t]|]; [destruct (_ <? _)|]; done. Qed.

(** What a caller relies on of [replication_targets]. *)
Record targets_ok (d : ClusterDb) (now s : Z) (ex : list bytes) (lim : Z) (b : bool) (rs : list NodeRecord) : Prop := {
  to_nodup : NoDup (id <$> rs);
  to_cand r : r ∈ rs -> r ∈ candidates d now s ex b;
  to_len : Z.of_nat (length rs) = Z.min (Z.max 0 lim) (Z.of_nat (length (candidates d now s ex b)));
}.

Lemma replication_targets_ok d now s ex lim b :
  let '(rs, d') := replication_targets now s ex lim b d in
  targets_ok d now s ex lim b rs /\ locations d' = locations d /\ nodes d' = nodes d /\ meta d' = meta d.
Proof.
  unfold replication_targets. pose proof (held_frame now d) as Hf. destruct (node_held_bytes now d) as [held d'].
  split; [|exact Hf]. set (srt := merge_sort _ _).
  assert (srt ≡ₚ candidates d now s ex b) as Hp by apply merge_sort_Permutation. split.
  - unfold limit. rewrite fmap_take. eapply sublist_NoDup; [|apply sublist_take].
    rewrite Hp. apply candidates_ids.
  - intros r Hr. apply elem_of_limit in Hr. by rewrite Hp in Hr.
  - unfold limit. rewrite length_take, (Permutation_length Hp). lia.
Qed.

(** *** The order of the targets *)

#[export] Instance rank_le_total held : Total (rank_le held).
Proof.
  intros a b. unfold rank_le, rank. destruct (draining a), (draining b); auto;
  (destruct (Z.lt_trichotomy (default 0 (held !! id a)) (default 0 (held !! id b))) as [?|[?|?]];
   [left; right; split; [done|by left] | | right; right; split; [done|by left]];
   destruct (total bytes_le (id a) (id b)); [left|right]; right; split; auto).
Qed.
#[export] Instance rank_le_trans held : Transitive (rank_le held).
Proof.
  intros a b c. unfold rank_le, rank. intros [[? ?]|[? [?|[? ?]]]] [[? ?]|[? [?|[? ?]]]];
  try (left; split; congruence); right; (split; [congruence|]);
  try (left; lia); right; split; try lia. etrans; eassumption.
Qed.

Lemma sorted_take {A} (R : relation A) n l x y : StronglySorted R l -> x ∈ take n l -> y ∈ drop n l -> R x y.
Proof.
  revert l. induction n as [|n IH]; intros l Hs Hx Hy; [inversion Hx|].
  destruct l as [|a l]; [inversion Hx|]. simpl in *. inversion Hs as [|? ? Hs' Ha]; subst.
  apply elem_of_cons in Hx as [->|Hx]; [|by apply (IH l)].
  rewrite Forall_forall in Ha. apply Ha. rewrite <- (take_drop n l). apply elem_of_app. by right.
Qed.

(** ** Lemmas: [LIKE] *)

Definition escape1 (b : byte) : bytes :=
  if decide (b = x5c) then [x5c; x5c] else if decide (b = x25) then [x5c; x25]
  else if decide (b = x5f) then [x5c; x5f] else [b].

Lemma replace1_app c by_ a b : replace1 c by_ (a ++ b) = replace1 c by_ a ++ replace1 c by_ b.
Proof. unfold replace1. apply bind_app. Qed.

Lemma prefix_pattern_eq p : prefix_pattern p = (p ≫= escape1) ++ [x25].
Proof.
  unfold prefix_pattern. f_equal. induction p as [|b p IH]; [done|].
  change (b :: p) with ([b] ++ p) at 1. rewrite !replace1_app, IH. rewrite bind_cons. f_equal.
  by destruct b.
Qed.

Lemma like_rest fuel text : (length text < fuel)%nat -> like (S fuel) [x25] text = true.
Proof.
  revert fuel. induction text as [|b text IH]; intros fuel Hf; (destruct fuel; [simpl in *; lia|]).
  - reflexivity.
  - change (like (S fuel) [] (b :: text) || like (S fuel) [x25] text = true).
    rewrite IH; [apply orb_true_r|]. simpl in Hf. lia.
Qed.

Lemma like_escaped b pat text fuel :
  like (S fuel) (escape1 b ++ pat) text =
  match text with [] => false | t :: text' => bool_decide (b = t) && like fuel pat text' end.
Proof. unfold escape1. destruct text, b; reflexivity. Qed.

Lemma like_prefix p text fuel : (length p + length text < fuel)%nat ->
  like (S fuel) ((p ≫= escape1) ++ [x25]) text = starts_with text p.
Proof.
  revert text fuel. induction p as [|b p IH]; intros text fuel Hf.
  - simpl app. rewrite like_rest by (simpl in Hf; lia). symmetry. apply starts_with_spec. by exists text.
  - rewrite bind_cons, <- app_assoc, like_escaped. destruct text as [|t text].
    + symmetry. apply not_true_is_false. intros [r Hr]%starts_with_spec. discriminate.
    + destruct fuel as [|fuel]; [simpl in Hf; lia|]. rewrite IH by (simpl in Hf; lia).
      apply eq_true_iff_eq. rewrite andb_true_iff, bool_decide_eq_true, !starts_with_spec.
      split; [intros [-> [r ->]]; by exists r|]. intros [r [= -> ->]]. split; [done|by exists r].
Qed.

Lemma escape1_len b : (1 <= length (escape1 b))%nat.
Proof. unfold escape1. repeat case_decide; simpl; lia. Qed.

Lemma escaped_len p : (length p <= length (p ≫= escape1))%nat.
Proof.
  induction p as [|b p IH]; [done|]. rewrite bind_cons, length_app. pose proof (escape1_len b). simpl. lia.
Qed.

(** More fuel changes nothing once there is enough. *)
Lemma sql_like_prefix text p : sql_like text (prefix_pattern p) = starts_with text p.
Proof.
  unfold sql_like. rewrite prefix_pattern_eq. apply like_prefix. rewrite length_app.
  pose proof (escaped_len p). simpl. lia.
Qed.

(** ** Properties *)

(** Expiring dead nodes never forgets an object: every key that had a row
    still has one, a row that is removed was an expired node's and its object
    has another row, of a registered node that has not expired; the registry
    keeps exactly the nodes that have not expired. *)
Theorem expire_keeps_last_copy expire_after now d :
  let d' := (expire_dead_nodes expire_after now d).2 in
  (forall key, located d key = true -> located d' key = true) /\
  (forall key n, is_Some (locations d !! (key, n)) ->
     locations d' !! (key, n) = locations d !! (key, n) \/
     ((exists r, nodes d !! n = Some r /\ expired now expire_after r) /\
      exists m, is_Some (locations d' !! (key, m)) /\ is_Some (nodes d' !! m))) /\
  (forall n r, nodes d' !! n = Some r <-> nodes d !! n = Some r /\ ~ expired now expire_after r).
Proof.
  intros d'. set (ids := dom (filter (fun p : bytes * NodeRow => expired now expire_after p.2) (nodes d))).
  assert (forall n, n ∈ ids <-> exists r, nodes d !! n = Some r /\ expired now expire_after r) as Hids.
  { intros n. unfold ids. rewrite elem_of_dom. split.
    - intros [r Hr]. apply map_lookup_filter_Some in Hr. by exists r.
    - intros (r & H1 & H2). exists r. by apply map_lookup_filter_Some. }
  assert (forall n r, nodes d' !! n = Some r <-> nodes d !! n = Some r /\ ~ expired now expire_after r) as Hn.
  { intros n r. apply map_lookup_filter_Some. }
  assert (forall key n, is_Some (locations d !! (key, n)) -> locations d' !! (key, n) = locations d !! (key, n) \/
    (n ∈ ids /\ has_survivor d ids (dom (nodes d')) key = true)) as Hrow.
  { intros key n [l Hl]. rewrite Hl. destruct (decide (n ∈ ids /\ has_survivor d ids (dom (nodes d')) key = true)) as [|Hno]; [by right|].
    left. apply map_lookup_filter_Some. split; [done|]. simpl. exact Hno. }
  assert (forall key m, is_Some (locations d !! (key, m)) -> m ∉ ids -> is_Some (locations d' !! (key, m))) as Hkeep.
  { intros key m Hs Hm. destruct (Hrow key m Hs) as [->|[? _]]; [done|contradiction]. }
  split; [|split; [|exact Hn]].
  - intros key [n Hs]%located_spec. apply located_spec. destruct (Hrow key n Hs) as [Heq|[_ Hsv]].
    + exists n. by rewrite Heq.
    + apply has_survivor_spec in Hsv as (m & Hm & Hni & _). exists m. by apply Hkeep.
  - intros key n Hs. destruct (Hrow key n Hs) as [|[Hin Hsv]]; [by left|]. right. split; [by apply Hids|].
    apply has_survivor_spec in Hsv as (m & Hm & Hni & Hreg). exists m. split; [by apply Hkeep|]. by apply elem_of_dom in Hreg.
Qed.

(** Listing by prefix is exact: whatever the prefix holds ([%], [_] and [\]
    included) the pattern matches the keys that start with it and no others,
    and the answer lists them once, in order. *)
Theorem prefix_listing_exact d prefix :
  StronglySorted bytes_lt (object_keys_with_prefix d prefix) /\
  (forall key, key ∈ object_keys_with_prefix d prefix <-> located d key = true /\ starts_with key prefix = true).
Proof.
  split.
  - apply sort_keys_strict, NoDup_filter. unfold located_keys. apply NoDup_elements.
  - intros key. unfold object_keys_with_prefix. rewrite elem_of_sort_keys, list_elem_of_filter, elem_of_located_keys, sql_like_prefix. tauto.
Qed.

(** The targets of new copies are live registered nodes not excluded (nor
    draining, unless that is allowed), each once, as many as asked for when
    there are as many, and every node passed over ranks no better. *)
Theorem replication_targets_spec d now stale exclude lim b :
  let '(rs, d') := replication_targets now stale exclude lim b d in
  targets_ok d now stale exclude lim b rs /\
  (forall r c, r ∈ rs -> c ∈ candidates d now stale exclude b -> c ∉ rs ->
     rank_le (node_held_bytes now d).1 r c).
Proof.
  pose proof (replication_targets_ok d now stale exclude lim b) as Hok. unfold replication_targets in *.
  destruct (node_held_bytes now d) as [held d']. destruct Hok as [Hok _]. split; [exact Hok|].
  intros r c Hr Hc Hni. set (srt := merge_sort (rank_le held) (candidates d now stale exclude b)) in *.
  apply (sorted_take _ (Z.to_nat (Z.max 0 lim)) srt); [apply StronglySorted_merge_sort; apply _|exact Hr|].
  assert (c ∈ srt) as Hcs by (unfold srt; by rewrite merge_sort_Permutation).
  rewrite <- (take_drop (Z.to_nat (Z.max 0 lim)) srt) in Hcs. apply elem_of_app in Hcs as [|]; [contradiction|done].
Qed.
