(* ===== verification/Cluster.v ===== *)
(** * The cluster: placement tables and one object root per node

    The state the replicated storage backend works on ([Replication]) and the
    reconcile sweep corrects ([Reconcile]), and what it means for an operation
    to change no more than the copies and rows of one key. *)

From Stdlib Require Import ZArith Lia.
From Stdlib Require Import Strings.Byte.
From stdpp Require Import base gmap sets list strings sorting.
From S2P Require Import Prelude Json Metastore Storage Placement.

Local Open Scope Z_scope.

(** ** State *)

Record Cluster := mkCluster { db : ClusterDb; roots : gmap bytes FsState }.

Definition empty_fs : FsState := mkFs ∅ ∅.
Definition root (cl : Cluster) (n : bytes) : FsState := default empty_fs (roots cl !! n).
Definition set_root (n : bytes) (st : FsState) (cl : Cluster) : Cluster := mkCluster (db cl) (<[n := st]> (roots cl)).
Definition with_db (f : ClusterDb -> ClusterDb) (cl : Cluster) : Cluster := mkCluster (f (db cl)) (roots cl).

(** ** Lemmas: what an operation on one key can change *)

Definition copy (cl : Cluster) (n key : bytes) : option bytes := object (root cl n) key.
Definition row (cl : Cluster) (key n : bytes) : option Location := locations (db cl) !! (key, n).

Lemma root_set n st cl m : root (set_root n st cl) m = if decide (m = n) then st else root cl m.
Proof.
  unfold root, set_root. simpl. case_decide as E; [subst; by rewrite lookup_insert_eq|].
  by rewrite lookup_insert_ne.
Qed.

(** Everything but the copies and rows of [key] on the nodes of [P]. *)
Record frame (key : bytes) (P : bytes -> Prop) (cl cl' : Cluster) : Prop := {
  fr_nodes : nodes (db cl') = nodes (db cl);
  fr_meta : meta (db cl') = meta (db cl);
  fr_escapes n : fs_escapes (root cl' n) = fs_escapes (root cl n);
  fr_copy n k : hidden_name k = false -> ~ (k = key /\ P n) -> copy cl' n k = copy cl n k;
  fr_row n k : ~ (k = key /\ P n) -> row cl' k n = row cl k n;
}.

Lemma frame_refl key P cl : frame key P cl cl.
Proof. done. Qed.

Lemma frame_trans key P cl1 cl2 cl3 : frame key P cl1 cl2 -> frame key P cl2 cl3 -> frame key P cl1 cl3.
Proof.
  intros [a1 a2 a3 a4 a5] [b1 b2 b3 b4 b5]. split; intros.
  - congruence.
  - congruence.
  - by rewrite b3.
  - by rewrite b4, a4.
  - by rewrite b5, a5.
Qed.

Lemma frame_mono key (P Q : bytes -> Prop) cl cl' : (forall n, P n -> Q n) -> frame key P cl cl' -> frame key Q cl cl'.
Proof. intros HPQ [a1 a2 a3 a4 a5]. split; auto; intros; [apply a4|apply a5]; naive_solver. Qed.

Lemma frame_root key n st cl : fs_escapes st = fs_escapes (root cl n) ->
  (forall k, hidden_name k = false -> k <> key -> object st k = copy cl n k) ->
  frame key (eq n) cl (set_root n st cl).
Proof.
  intros He Hk. split; try done.
  - intros m. rewrite root_set. case_decide; by subst.
  - intros m k Hv Hne. unfold copy at 1. rewrite root_set. case_decide as E; [subst|done].
    apply Hk; [done|]. intros ->. by apply Hne.
Qed.

Lemma frame_db key P f cl : (forall d, nodes (f d) = nodes d) -> (forall d, meta (f d) = meta d) ->
  (forall d n k, ~ (k = key /\ P n) -> locations (f d) !! (k, n) = locations d !! (k, n)) ->
  frame key P cl (with_db f cl).
Proof. intros H1 H2 H3. split; try done; intros; apply H1 || apply H2 || by apply H3. Qed.

Lemma frame_record key n size now cl : frame key (eq n) cl (with_db (record_object_location key n size now) cl).
Proof.
  apply frame_db; try done. intros d m k Hne. simpl. rewrite lookup_upsert. case_decide; [|done]. naive_solver.
Qed.

Lemma frame_remove key n cl : frame key (eq n) cl (with_db (remove_object_location key n) cl).
Proof.
  apply frame_db; try done. intros d m k Hne. simpl. rewrite lookup_delete_ne; [done|]. naive_solver.
Qed.

Lemma frame_remove_all key cl : frame key (fun _ => True) cl (with_db (remove_object_locations key) cl).
Proof.
  apply frame_db; try done. intros d m k Hne. rewrite lookup_removed_all. case_decide; [|done]. naive_solver.
Qed.

(** The key is a good one, and no link under it leads out of a root. *)
Definition plain (key : bytes) (cl : Cluster) : Prop :=
  key_ok key = true /\ forall n, key ∉ fs_escapes (root cl n).

Lemma plain_resolve key cl n : plain key cl -> resolve (root cl n) key = Ok key.
Proof.
  intros [Hk He]. unfold resolve. rewrite Hk. simpl. rewrite (bool_decide_false (key ∈ fs_escapes _)) by done.
  by rewrite andb_false_r.
Qed.

Lemma plain_frame key k P cl cl' : frame k P cl cl' -> plain key cl -> plain key cl'.
Proof. intros Hf [Hk He]. split; [done|]. intros n. by rewrite (fr_escapes _ _ _ _ Hf). Qed.

Lemma delete_object_spec key fault st r st' : delete_object key fault st = (r, st') ->
  fs_escapes st' = fs_escapes st /\ (forall k, k <> key -> object st' k = object st k) /\
  (r = Ok tt -> object st' key = None) /\ (is_ok r = false -> st' = st) /\
  (fault = false -> resolve st key = Ok key -> r = Ok tt).
Proof.
  unfold delete_object. destruct (resolve st key) as [p|e] eqn:E.
  - apply resolve_ok in E. subst p. destruct fault; intros [= <- <-]; simpl; [done|].
    split; [done|]. split; [|split; [|done]].
    + intros k Hne. unfold object. simpl. by rewrite lookup_delete_ne.
    + intros _. unfold object. simpl. by rewrite lookup_delete_eq.
  - intros [= <- <-]. simpl. repeat split; done.
Qed.

Lemma wrote_frame self key data io n ok st cl : wrote key data io n ok (root cl self) st ->
  frame key (eq self) cl (set_root self st cl).
Proof.
  intros Hw. apply frame_root; [apply (wr_escapes _ _ _ _ _ _ _ Hw)|]. intros k Hv Hne. by apply (wr_other _ _ _ _ _ _ _ Hw).
Qed.

(** ** A cluster for the witnesses *)

(** A node [n] is served at [@n]. *)
Definition demo_row (n : bytes) : NodeRow := mkNode [] (Some (x40 :: n)) 100000 (bool_decide (n = str "n0")) None.
Definition demo_nodes (ns : list bytes) : gmap bytes NodeRow := list_to_map ((fun n => (n, demo_row n)) <$> ns).
Definition demo_key : bytes := str "streams/a/x.split".
Definition demo_data : bytes := str "data".
(** The nodes [ns], of which [hs] hold the object. *)
Definition demo_cluster (ns hs : list bytes) : Cluster :=
  mkCluster (mkClusterDb (list_to_map ((fun n => ((demo_key, n), mkLoc 4 0)) <$> hs)) (demo_nodes ns) None empty_metastore)
    (list_to_map ((fun n => (n, mkFs {[demo_key := {| ff_data := demo_data; ff_mtime := 0 |}]} ∅)) <$> hs)).
Lemma demo_nodes_lookup ns n r : demo_nodes ns !! n = Some r -> r = demo_row n.
Proof. intros H%elem_of_list_to_map_2. apply list_elem_of_fmap in H as (m & [= -> ->] & _). done. Qed.

Lemma demo_root ns hs n : root (demo_cluster ns hs) n = empty_fs \/
  root (demo_cluster ns hs) n = mkFs {[demo_key := {| ff_data := demo_data; ff_mtime := 0 |}]} ∅.
Proof.
  unfold root. simpl. destruct (list_to_map _ !! n) as [st|] eqn:E; [right|by left].
  apply elem_of_list_to_map_2, list_elem_of_fmap in E as (m & [= -> ->] & _). done.
Qed.

Lemma demo_copy ns hs n d : copy (demo_cluster ns hs) n demo_key = Some d -> d = demo_data.
Proof.
  unfold copy, object. destruct (demo_root ns hs n) as [-> | ->]; simpl; [by rewrite lookup_empty|].
  rewrite lookup_singleton_eq. by intros [= <-].
Qed.

Lemma demo_backed ns hs n : is_Some (row (demo_cluster ns hs) demo_key n) -> copy (demo_cluster ns hs) n demo_key = Some demo_data.
Proof.
  intros [l Hl]. unfold row in Hl. simpl in Hl. apply elem_of_list_to_map_2, list_elem_of_fmap in Hl as (m & [= -> ->] & Hm).
  destruct (roots (demo_cluster ns hs) !! m) as [st|] eqn:E.
  - unfold copy, object, root. rewrite E. simpl.
    apply elem_of_list_to_map_2, list_elem_of_fmap in E as (m' & [= -> ->] & _). simpl. by rewrite lookup_singleton_eq.
  - exfalso. apply not_elem_of_list_to_map in E. apply E. rewrite <- list_fmap_compose. apply list_elem_of_fmap. by exists m.
Qed.

Lemma demo_plain ns hs : plain demo_key (demo_cluster ns hs).
Proof. split; [vm_compute; reflexivity|]. intros n. destruct (demo_root ns hs n) as [-> | ->]; set_solver. Qed.

Definition n1 : bytes := str "n1".
Definition n2 : bytes := str "n2".
Definition n3 : bytes := str "n3".
