(* ===== verification/Reconcile.v ===== *)
(** * The reconcile sweep (crates/rsearch-server/src/reconcile.rs)

    What one node does hourly: it walks its object root against the placement
    tables, then its placement rows against the root.  What fails meanwhile is
    given per key, and per page of rows. *)

From Stdlib Require Import ZArith Lia.
From Stdlib Require Import Strings.Byte.
From stdpp Require Import base gmap sets list strings sorting.
From S2P Require Import Prelude Json Metastore Storage Placement Cluster.

Local Open Scope Z_scope.

Definition ORPHAN_MIN_AGE : Z := 3600.
Definition VERIFY_MIN_ROW_AGE : Z := 3600000.
Definition VERIFY_BATCH : Z := 1000.

(** What fails while one key is looked at. *)
Record KeyEnv := mkKey {
  ke_size : bool; ke_record : bool; ke_known : bool; ke_restore : bool; ke_modified : bool; ke_delete : bool;
}.

(** The counters of a pass. *)
Record Swept := mkSwept { announced : Z; swept : Z }.

(** A file without placement rows: restore the row when a split needs it,
    delete it when nothing does and it is old; whether it was deleted. *)
Definition sweep_orphan (node key : bytes) (sz : Z) (ke : KeyEnv) (fs_now now : Z) (cl : Cluster) : bool * Cluster :=
  if ke_known ke then
    if object_known (db cl) key then
      (false, if ke_restore ke then with_db (record_object_location key node sz now) cl else cl)
    else
      match modified (root cl node) key (ke_modified ke) with
      | Err _ => (false, cl)
      | Ok t =>
          if Z.max 0 (fs_now - t) <? ORPHAN_MIN_AGE then (false, cl)
          else
            match delete_object key (ke_delete ke) (root cl node) with
            | (Ok _, st) => (true, set_root node st cl)
            | (Err _, st) => (false, set_root node st cl)
            end
      end
  else (false, cl).

Definition reconcile_key (node : bytes) (env : bytes -> KeyEnv) (fs_now now : Z) (acc : Swept * Cluster) (key : bytes) : Swept * Cluster :=
  let '(n, cl) := acc in
  let ke := env key in
  match Storage.size (root cl node) key (ke_size ke) with
  | Err _ => (n, cl)
  | Ok sz =>
      if ke_record ke then
        let '(known, d) := record_object_location_if_known key node sz now (db cl) in
        match known with
        | Some true => (mkSwept (announced n + 1) (swept n), mkCluster d (roots cl))
        | Some false => (n, mkCluster d (roots cl))
        | None =>
            let '(gone, cl') := sweep_orphan node key sz ke fs_now now (mkCluster d (roots cl)) in
            (if gone then mkSwept (announced n) (swept n + 1) else n, cl')
        end
      else (n, cl)
  end.

(** [None] when the root cannot be listed; else the files seen, the counters
    and the state. *)
Definition reconcile (node : bytes) (list_fault : bool) (env : bytes -> KeyEnv) (fs_now now : Z) (cl : Cluster)
    : option (Z * Swept * Cluster) :=
  if list_fault then None
  else
    let keys := list_keys (root cl node) [] in
    let '(n, cl') := foldl (reconcile_key node env fs_now now) (mkSwept 0 0, cl) keys in
    Some (Z.of_nat (length keys), n, cl').

(** The other direction: rows of this node whose file is gone. *)
Record RowEnv := mkRow { ro_exists : bool; ro_others : bool; ro_remove : bool }.
Record Verified := mkVerified { removed : Z; last_copies : Z; kept_sole : Z; check_errors : Z }.

Definition verify_key (node : bytes) (files_on_disk : Z) (env : bytes -> RowEnv) (acc : Verified * Cluster) (key : bytes) : Verified * Cluster :=
  let '(v, cl) := acc in
  let re := env key in
  match exists_ (root cl node) key (ro_exists re) with
  | Ok true => (v, cl)
  | Ok false =>
      let sole := negb (if ro_others re then other_holders_exist (db cl) key node else true) in
      if sole && (files_on_disk =? 0)
      then (mkVerified (removed v) (last_copies v) (kept_sole v + 1) (check_errors v), cl)
      else if ro_remove re
      then (mkVerified (removed v + 1) (last_copies v + (if sole then 1 else 0)) (kept_sole v) (check_errors v),
            with_db (remove_object_location key node) cl)
      else (v, cl)
  | Err _ => (mkVerified (removed v) (last_copies v) (kept_sole v) (check_errors v + 1), cl)
  end.

(** Pages by key; [pages] says whether each page's query is answered.  [None]
    when the fuel is used up. *)
Fixpoint verify_loop (fuel : nat) (batch : Z) (node : bytes) (files_on_disk now : Z) (env : bytes -> RowEnv) (pages : nat -> bool)
    (after : bytes) (acc : Verified * Cluster) : option (Verified * Cluster) :=
  match fuel with
  | O => None
  | S fuel =>
      if pages fuel then
        let keys := stale_locations_on_node (db acc.2) node now VERIFY_MIN_ROW_AGE after batch in
        match list.last keys with
        | None => Some acc
        | Some after =>
            let acc := foldl (verify_key node files_on_disk env) acc keys in
            if Z.of_nat (length keys) <? batch then Some acc
            else verify_loop fuel batch node files_on_disk now env pages after acc
        end
      else Some acc
  end.

Definition verify_placements (fuel : nat) (node : bytes) (files_on_disk now : Z) (env : bytes -> RowEnv) (pages : nat -> bool) (cl : Cluster)
    : option (Verified * Cluster) :=
  verify_loop fuel VERIFY_BATCH node files_on_disk now env pages [] (mkVerified 0 0 0 0, cl).


(** ** Lemmas: one node looks at its keys one after the other *)

Definition file (cl : Cluster) (n key : bytes) : option FsFile := fs_files (root cl n) !! key.

(** Nothing but this node's file and row of [key]. *)
Record at_key (node key : bytes) (cl cl' : Cluster) : Prop := {
  ak_nodes : nodes (db cl') = nodes (db cl);
  ak_meta : meta (db cl') = meta (db cl);
  ak_escapes n : fs_escapes (root cl' n) = fs_escapes (root cl n);
  ak_file n k : ~ (n = node /\ k = key) -> file cl' n k = file cl n k;
  ak_row n k : ~ (n = node /\ k = key) -> row cl' k n = row cl k n;
}.

Lemma at_key_refl node key cl : at_key node key cl cl.
Proof. done. Qed.

Lemma at_key_trans node key cl1 cl2 cl3 : at_key node key cl1 cl2 -> at_key node key cl2 cl3 -> at_key node key cl1 cl3.
Proof.
  intros [a1 a2 a3 a4 a5] [b1 b2 b3 b4 b5]. split; intros.
  - congruence.
  - congruence.
  - by rewrite b3.
  - by rewrite b4, a4.
  - by rewrite b5, a5.
Qed.

(** All there is to know of a key. *)
Record agree (key : bytes) (cl cl' : Cluster) : Prop := {
  ag_file n : file cl' n key = file cl n key;
  ag_row n : row cl' key n = row cl key n;
  ag_meta : meta (db cl') = meta (db cl);
  ag_escapes n : fs_escapes (root cl' n) = fs_escapes (root cl n);
}.

Lemma agree_refl key cl : agree key cl cl.
Proof. done. Qed.

Lemma agree_trans key cl1 cl2 cl3 : agree key cl1 cl2 -> agree key cl2 cl3 -> agree key cl1 cl3.
Proof. intros [] []. split; intros; congruence. Qed.

Lemma at_key_agree node k key cl cl' : at_key node k cl cl' -> key <> k -> agree key cl cl'.
Proof. intros [] Hne. split; intros; auto; [apply ak_file0|apply ak_row0]; naive_solver. Qed.

Lemma agree_holders key cl cl' n : agree key cl cl' -> n ∈ holders (db cl') key <-> n ∈ holders (db cl) key.
Proof. intros Ha. rewrite !elem_of_holders. pose proof (ag_row _ _ _ Ha n) as E. unfold row in E. by rewrite E. Qed.

Lemma agree_located key cl cl' : agree key cl cl' -> located (db cl') key = located (db cl) key.
Proof.
  intros Ha. apply eq_true_iff_eq. rewrite !located_spec. setoid_rewrite <- elem_of_holders.
  split; intros [n Hn]; exists n; by apply (agree_holders _ _ _ n Ha).
Qed.

Lemma agree_known key cl cl' : agree key cl cl' -> object_known (db cl') key = object_known (db cl) key.
Proof. intros Ha. unfold object_known, split_row. by rewrite (agree_located _ _ _ Ha), (ag_meta _ _ _ Ha). Qed.

Lemma agree_others key node cl cl' : agree key cl cl' -> other_holders_exist (db cl') key node = other_holders_exist (db cl) key node.
Proof.
  intros Ha. unfold other_holders_exist. apply bool_decide_ext. rewrite !Exists_exists.
  split; intros (n & Hn & Hne); exists n; split; try done; by apply (agree_holders _ _ _ n Ha).
Qed.

Lemma agree_lookup key cl cl' n fault : agree key cl cl' ->
  lookup_file (root cl' n) key fault = lookup_file (root cl n) key fault.
Proof.
  intros Ha. pose proof (ag_file _ _ _ Ha n) as Hf. unfold file in Hf.
  assert (resolve (root cl' n) key = resolve (root cl n) key) as Hr.
  { unfold resolve. rewrite (ag_escapes _ _ _ Ha n). destruct (negb _); [done|].
    assert (bool_decide (key ∈ dom (fs_files (root cl' n))) = bool_decide (key ∈ dom (fs_files (root cl n)))) as ->; [|done].
    apply bool_decide_ext. by rewrite !elem_of_dom, Hf. }
  unfold lookup_file. rewrite Hr. destruct (resolve (root cl n) key) as [p|] eqn:Ep; [|reflexivity]. simpl.
  rewrite (resolve_ok _ _ _ Ep), Hf. done.
Qed.

Section fold.
Context {B : Type} (node : bytes) (step : B * Cluster -> bytes -> B * Cluster).
Hypothesis Hstep : forall acc k, at_key node k acc.2 (step acc k).2.

Lemma fold_other keys acc key : key ∉ keys -> agree key acc.2 (foldl step acc keys).2.
Proof.
  revert acc. induction keys as [|k keys IH]; intros acc Hni; [apply agree_refl|]. simpl.
  apply not_elem_of_cons in Hni as [Hne Hni]. eapply agree_trans; [|by apply IH]. by eapply at_key_agree.
Qed.

Lemma fold_at keys acc key : NoDup keys -> key ∈ keys ->
  exists acc1, agree key acc.2 acc1.2 /\ agree key (step acc1 key).2 (foldl step acc keys).2.
Proof.
  revert acc. induction keys as [|k keys IH]; intros acc Hnd Hin; [inversion Hin|]. simpl.
  apply NoDup_cons in Hnd as [Hni Hnd]. apply elem_of_cons in Hin as [->|Hin].
  - exists acc. split; [apply agree_refl|]. by apply fold_other.
  - destruct (IH (step acc k) Hnd Hin) as (acc1 & H1 & H2). exists acc1. split; [|exact H2].
    eapply agree_trans; [|exact H1]. eapply at_key_agree; [apply Hstep|]. intros ->. contradiction.
Qed.

Lemma fold_node keys acc n : n <> node ->
  (forall k, file (foldl step acc keys).2 n k = file acc.2 n k) /\ (forall k, row (foldl step acc keys).2 k n = row acc.2 k n).
Proof.
  intros Hne. revert acc. induction keys as [|k keys IH]; intros acc; [done|]. simpl.
  destruct (IH (step acc k)) as [H1 H2]. split; intros k'.
  - rewrite H1. apply (ak_file _ _ _ _ (Hstep acc k)). tauto.
  - rewrite H2. apply (ak_row _ _ _ _ (Hstep acc k)). tauto.
Qed.
End fold.

Lemma file_set n st cl m k : file (set_root n st cl) m k = if decide (m = n) then fs_files st !! k else file cl m k.
Proof. unfold file. rewrite root_set. by case_decide. Qed.

Lemma delete_at_key node key st r cl : delete_object key r (root cl node) = (Ok tt, st) ->
  at_key node key cl (set_root node st cl) /\ file (set_root node st cl) node key = None.
Proof.
  unfold delete_object. destruct (resolve _ key) as [p|] eqn:Er; [|done]. apply resolve_ok in Er. subst p.
  destruct r; [done|]. intros [= <-]. split.
  - split; try done.
    + intros m. rewrite root_set. case_decide; by subst.
    + intros m k Hne. rewrite file_set. case_decide; [|done]. simpl. rewrite lookup_delete_ne; [by subst|]. naive_solver.
  - rewrite file_set, decide_True by done. simpl. apply lookup_delete_eq.
Qed.

Lemma record_at_key node key sz now cl :
  at_key node key cl (with_db (record_object_location key node sz now) cl) /\
  exists l, row (with_db (record_object_location key node sz now) cl) key node = Some l /\ loc_size l = sz.
Proof.
  split.
  - split; try done. intros m k Hne. unfold row. simpl. rewrite lookup_upsert. case_decide; [naive_solver|done].
  - unfold row. simpl. rewrite lookup_upsert, decide_True by done. by eexists.
Qed.

(** ** Lemmas: the reconcile sweep *)

(** An orphan: nothing knows the object and its file is old. *)
Definition orphan (d : ClusterDb) (fs_now : Z) (key : bytes) (f : FsFile) : Prop :=
  object_known d key = false /\ ORPHAN_MIN_AGE <= fs_now - ff_mtime f.

(** What one key's turn does to it. *)
Record key_done (node key : bytes) (fs_now : Z) (cl cl' : Cluster) : Prop := {
  kd_at : at_key node key cl cl';
  kd_file : file cl' node key = file cl node key \/
    (file cl' node key = None /\ exists f, file cl node key = Some f /\ orphan (db cl) fs_now key f);
  kd_row : row cl' key node = row cl key node \/
    (exists f l, file cl' node key = Some f /\ row cl' key node = Some l /\ loc_size l = blen (ff_data f));
}.

(** Every call of a key's turn works. *)
Definition key_calm (ke : KeyEnv) : Prop :=
  ke_size ke = false /\ ke_record ke = true /\ ke_known ke = true /\ ke_restore ke = true /\
  ke_modified ke = false /\ ke_delete ke = false.

Lemma size_file cl n key fault sz : Storage.size (root cl n) key fault = Ok sz ->
  exists f, file cl n key = Some f /\ sz = blen (ff_data f) /\ resolve (root cl n) key = Ok key.
Proof.
  unfold Storage.size. destruct (lookup_file _ key fault) as [f|] eqn:E; simpl; [|done]. intros [= <-].
  exists f. split; [by eapply lookup_file_ok|]. split; [done|]. unfold lookup_file in E.
  destruct (resolve _ key) as [p|] eqn:Er; [|done]. by rewrite (resolve_ok _ _ _ Er).
Qed.

Lemma plain_lookup cl n key f : plain key cl -> file cl n key = Some f -> lookup_file (root cl n) key false = Ok f.
Proof. intros Hp Hf. unfold lookup_file. rewrite (plain_resolve _ _ _ Hp). simpl. unfold file in Hf. by rewrite Hf. Qed.

Lemma sweep_orphan_spec node key ke fs_now now cl gone cl' f : file cl node key = Some f ->
  sweep_orphan node key (blen (ff_data f)) ke fs_now now cl = (gone, cl') ->
  key_done node key fs_now cl cl' /\ (gone = true <-> file cl' node key = None) /\
  (key_calm ke -> plain key cl ->
     (object_known (db cl) key = true -> exists l, row cl' key node = Some l /\ loc_size l = blen (ff_data f)) /\
     (orphan (db cl) fs_now key f -> gone = true)).
Proof.
  intros Hf. unfold sweep_orphan.
  assert (forall b, b = false -> (b = true <-> file cl node key = None)) as Hb by (intros b ->; rewrite Hf; done).
  assert (key_done node key fs_now cl cl) as Hid by (split; auto using at_key_refl).
  destruct (ke_known ke) eqn:Ek; [|intros [= <- <-]; split; [done|]; split; [by apply Hb|]; intros (_ & _ & ? & _); congruence].
  destruct (object_known (db cl) key) eqn:Eo.
  - destruct (ke_restore ke) eqn:Er; intros [= <- <-]; (split; [|split; [by apply Hb|]]).
    + destruct (record_at_key node key (blen (ff_data f)) now cl) as [Ha (l & Hl & Hs)].
      split; [exact Ha|by left|]. right. by exists f, l.
    + intros _ _. destruct (record_at_key node key (blen (ff_data f)) now cl) as [_ Hl]. split; [by intros _|].
      intros [? _]. congruence.
    + done.
    + intros (_ & _ & _ & ? & _). congruence.
  - unfold modified. destruct (lookup_file _ key _) as [f'|] eqn:El; simpl.
    2: { intros [= <- <-]. split; [done|]. split; [by apply Hb|]. intros (_ & _ & _ & _ & Hm & _) Hp. rewrite Hm, (plain_lookup _ _ _ _ Hp Hf) in El. done. }
    apply lookup_file_ok in El. unfold file in Hf. rewrite Hf in El. simplify_eq.
    destruct (Z.ltb_spec (Z.max 0 (fs_now - ff_mtime f')) ORPHAN_MIN_AGE) as [Hy|Hy].
    { intros [= <- <-]. split; [done|]. split; [by apply Hb|]. intros _ _. split; [done|]. intros [_ ?]. unfold ORPHAN_MIN_AGE in *. lia. }
    destruct (delete_object key (ke_delete ke) (root cl node)) as [r st] eqn:Ed. destruct r as [[]|].
    + intros [= <- <-]. destruct (delete_at_key _ _ _ _ _ Ed) as [Ha Hn]. split; [|split; [done|]].
      * split; [exact Ha| |by left]. right. split; [done|]. exists f'. split; [done|]. split; [done|]. unfold ORPHAN_MIN_AGE in *. lia.
      * intros _ _. split; [done|]. done.
    + destruct (delete_object_spec _ _ _ _ _ Ed) as (_ & _ & _ & Hs & Hok). rewrite (Hs eq_refl) in *. intros [= <- <-].
      assert (file (set_root node (root cl node) cl) node key = file cl node key) as Hff by (rewrite file_set; by rewrite decide_True).
      assert (at_key node key cl (set_root node (root cl node) cl)) as Ha.
      { split; try done; [intros m; rewrite root_set; case_decide; by subst|]. intros m k _. rewrite file_set. case_decide; by subst. }
      split; [split; [exact Ha|by left|by left]|]. split; [rewrite Hff; unfold file; by rewrite Hf|].
      intros (_ & _ & _ & _ & _ & Hd) Hp. specialize (Hok Hd (plain_resolve _ _ _ Hp)). done.
Qed.

Lemma reconcile_key_spec node env fs_now now n cl key :
  let acc := reconcile_key node env fs_now now (n, cl) key in
  key_done node key fs_now cl acc.2 /\
  (forall f, file cl node key = Some f -> key_calm (env key) -> plain key cl ->
     (object_known (db cl) key = true -> exists l, row acc.2 key node = Some l /\ loc_size l = blen (ff_data f)) /\
     (orphan (db cl) fs_now key f -> file acc.2 node key = None)).
Proof.
  unfold reconcile_key. assert (key_done node key fs_now cl cl) as Hid by (split; auto using at_key_refl).
  destruct (Storage.size (root cl node) key (ke_size (env key))) as [sz|e] eqn:Es.
  2: { split; [done|]. intros f Hf (Hz & _) Hp. unfold Storage.size in Es. by rewrite Hz, (plain_lookup _ _ _ _ Hp Hf) in Es. }
  destruct (size_file _ _ _ _ _ Es) as (f0 & Hf0 & -> & _).
  destruct (ke_record (env key)) eqn:Er; [|split; [done|]; intros f _ (_ & ? & _); congruence].
  unfold record_object_location_if_known. destruct (located (db cl) key) eqn:El; simpl.
  - assert (key_done node key fs_now cl (with_db (record_object_location key node (blen (ff_data f0)) now) cl)) as Hkd.
    { destruct (record_at_key node key (blen (ff_data f0)) now cl) as [Ha (l & Hl & Hsz)].
      split; [exact Ha|by left|]. right. by exists f0, l. }
    assert (forall f, file cl node key = Some f -> key_calm (env key) -> plain key cl ->
      let cl' := with_db (record_object_location key node (blen (ff_data f0)) now) cl in
      (object_known (db cl) key = true -> exists l, row cl' key node = Some l /\ loc_size l = blen (ff_data f)) /\
      (orphan (db cl) fs_now key f -> file cl' node key = None)) as Hcalm.
    { intros f Hf _ _ cl'. assert (f = f0) as -> by congruence. split.
      - intros _. apply record_at_key.
      - intros [Hk _]. unfold object_known in Hk. by rewrite El in Hk. }
    by destruct (bool_decide _).
  - destruct (sweep_orphan _ _ _ _ _ _ _) as [gone cl'] eqn:Eo.
    replace (mkCluster (db cl) (roots cl)) with cl in Eo by (by destruct cl).
    destruct (sweep_orphan_spec _ _ _ _ _ _ _ _ _ Hf0 Eo) as (Hkd & Hg & Hc). simpl. split; [exact Hkd|].
    intros f Hf Hcalm Hp. assert (f = f0) as -> by congruence. destruct (Hc Hcalm Hp) as [H1 H2]. split; [exact H1|].
    intros Ho. by apply Hg, H2.
Qed.

Lemma elem_of_list_keys st key : key ∈ list_keys st [] <-> is_Some (fs_files st !! key) /\ hidden_name key = false.
Proof.
  unfold list_keys. rewrite merge_sort_Permutation, list_elem_of_filter, elem_of_elements, elem_of_dom.
  assert (listed [] key = negb (hidden_name key)) as ->.
  { assert (starts_with key [] = true) as Hs by (apply starts_with_spec; by exists key). unfold listed. rewrite Hs. done. }
  rewrite negb_true_iff. tauto.
Qed.

Lemma list_keys_nodup st : NoDup (list_keys st []).
Proof. unfold list_keys. rewrite merge_sort_Permutation. apply NoDup_filter, NoDup_elements. Qed.

Lemma key_done_agree node key fs_now c0 c1 c2 c3 : agree key c0 c1 -> key_done node key fs_now c1 c2 -> agree key c2 c3 ->
  (file c3 node key = file c0 node key \/
   (file c3 node key = None /\ exists f, file c0 node key = Some f /\ orphan (db c0) fs_now key f)) /\
  (row c3 key node = row c0 key node \/
   (exists f l, file c3 node key = Some f /\ row c3 key node = Some l /\ loc_size l = blen (ff_data f))).
Proof.
  intros A1 [_ Hf Hr] A2.
  rewrite (ag_file _ _ _ A2), (ag_row _ _ _ A2), <- (ag_file _ _ _ A1 node), <- (ag_row _ _ _ A1 node).
  split; [|exact Hr]. destruct Hf as [Hf|(Hn & f & Hf & Hk & Hage)]; [by left|]. right. split; [done|]. exists f.
  split; [done|]. split; [|done]. by rewrite <- (agree_known _ _ _ A1).
Qed.

(** ** Properties: reconciliation *)

(** [C17] The sweep loses nothing the cluster knows: whatever calls fail, it
    changes only this node's files and rows; a file it deletes belongs to an
    object with no row on any node and no split, and is an hour old; it removes
    no row, and a row it writes has its file, with its size. When every call
    works it restores the row of every known object whose file is here and
    deletes every orphan. *)
Theorem reconcile_keeps_known node env fs_now now cl files_on_disk n cl' :
  reconcile node false env fs_now now cl = Some (files_on_disk, n, cl') ->
  (forall m k, m <> node -> file cl' m k = file cl m k /\ row cl' k m = row cl k m) /\
  (forall key, file cl' node key = file cl node key \/
     (file cl' node key = None /\ exists f, file cl node key = Some f /\ orphan (db cl) fs_now key f)) /\
  (forall key, row cl' key node = row cl key node \/
     (exists f l, file cl' node key = Some f /\ row cl' key node = Some l /\ loc_size l = blen (ff_data f))) /\
  ((forall key, key_calm (env key)) -> forall key f, hidden_name key = false -> plain key cl -> file cl node key = Some f ->
     (object_known (db cl) key = true ->
        file cl' node key = Some f /\ exists l, row cl' key node = Some l /\ loc_size l = blen (ff_data f)) /\
     (orphan (db cl) fs_now key f -> file cl' node key = None)).
Proof.
  unfold reconcile. set (keys := list_keys (root cl node) []). set (step := reconcile_key node env fs_now now).
  destruct (foldl step (mkSwept 0 0, cl) keys) as [n0 cl0] eqn:E. intros [= <- <- <-].
  assert (forall acc k, at_key node k acc.2 (step acc k).2) as Hstep.
  { intros [m c] k. apply (kd_at _ _ _ _ _ (proj1 (reconcile_key_spec node env fs_now now m c k))). }
  assert (cl0 = (foldl step (mkSwept 0 0, cl) keys).2) as Ecl by (by rewrite E).
  pose proof (list_keys_nodup (root cl node)) as Hnd. fold keys in Hnd.
  assert (forall key, key ∈ keys -> exists m c, agree key cl c /\ agree key (step (m, c) key).2 cl0) as Hat.
  { intros key Hin. destruct (fold_at node step Hstep keys (mkSwept 0 0, cl) key Hnd Hin) as ([m c] & H1 & H2).
    rewrite <- Ecl in H2. by exists m, c. }
  assert (forall key, (file cl0 node key = file cl node key \/
      (file cl0 node key = None /\ exists f, file cl node key = Some f /\ orphan (db cl) fs_now key f)) /\
    (row cl0 key node = row cl key node \/
      (exists f l, file cl0 node key = Some f /\ row cl0 key node = Some l /\ loc_size l = blen (ff_data f)))) as Hall.
  { intros key. destruct (decide (key ∈ keys)) as [Hin|Hni].
    - destruct (Hat key Hin) as (m & c & A1 & A2).
      exact (key_done_agree _ _ _ _ _ _ _ A1 (proj1 (reconcile_key_spec node env fs_now now m c key)) A2).
    - pose proof (fold_other node step Hstep keys (mkSwept 0 0, cl) key Hni) as A. rewrite <- Ecl in A.
      rewrite (ag_file _ _ _ A), (ag_row _ _ _ A). split; by left. }
  split; [|split; [|split]].
  - intros m k Hne. destruct (fold_node node step Hstep keys (mkSwept 0 0, cl) m Hne) as [H1 H2]. rewrite <- Ecl in H1, H2.
    split; [apply H1|apply H2].
  - intros key. apply Hall.
  - intros key. apply Hall.
  - intros Hcalm key f Hv Hp Hf. assert (key ∈ keys) as Hin by (apply elem_of_list_keys; by unfold file in Hf; rewrite Hf).
    destruct (Hat key Hin) as (m & c & A1 & A2).
    destruct (proj2 (reconcile_key_spec node env fs_now now m c key) f) as [H1 H2].
    + by rewrite (ag_file _ _ _ A1).
    + apply Hcalm.
    + destruct Hp as [Hk He]. split; [done|]. intros m'. rewrite (ag_escapes _ _ _ A1). apply He.
    + unfold orphan in H2. rewrite (agree_known _ _ _ A1) in H1, H2. rewrite (ag_row _ _ _ A2), (ag_file _ _ _ A2).
      split; [|exact H2]. intros Hk. split; [|by apply H1].
      destruct (proj1 (Hall key)) as [Hs|(_ & f' & _ & Hko & _)]; [|congruence]. rewrite (ag_file _ _ _ A2) in Hs. by rewrite Hs.
Qed.

(** ** Lemmas: the verify pass *)

(** The row is a lie the pass may remove. *)
Definition phantom (node : bytes) (files_on_disk : Z) (env : bytes -> RowEnv) (cl : Cluster) (key : bytes) : Prop :=
  exists_ (root cl node) key (ro_exists (env key)) = Ok false /\ ro_remove (env key) = true /\
  ~ (ro_others (env key) = true /\ other_holders_exist (db cl) key node = false /\ files_on_disk = 0).

Definition old_row (now : Z) (cl : Cluster) (key node : bytes) : Prop :=
  exists l, row cl key node = Some l /\ loc_created l < now - VERIFY_MIN_ROW_AGE.

Lemma agree_phantom node files env cl cl' key : agree key cl cl' -> phantom node files env cl' key <-> phantom node files env cl key.
Proof.
  intros Ha. unfold phantom, exists_, Storage.size. by rewrite (agree_lookup _ _ _ node _ Ha), (agree_others _ node _ _ Ha).
Qed.

Lemma exists_false_file cl n key fault : exists_ (root cl n) key fault = Ok false -> file cl n key = None.
Proof.
  unfold exists_, Storage.size, lookup_file. destruct (resolve (root cl n) key) as [p|e] eqn:E.
  - simpl. destruct fault; [done|]. rewrite (resolve_ok _ _ _ E). unfold file. by destruct (fs_files _ !! _).
  - simpl. unfold resolve in E. destruct (negb _); [by simplify_eq|]. destruct (_ && _); by simplify_eq.
Qed.

Lemma verify_key_spec node files env v cl key :
  let acc := verify_key node files env (v, cl) key in
  at_key node key cl acc.2 /\ (forall n k, file acc.2 n k = file cl n k) /\
  (row acc.2 key node = row cl key node \/ (row acc.2 key node = None /\ phantom node files env cl key)) /\
  (phantom node files env cl key -> row acc.2 key node = None).
Proof.
  assert (at_key node key cl (with_db (remove_object_location key node) cl)) as Ha.
  { split; try done. intros n k Hne. unfold row. simpl. rewrite lookup_delete_ne; [done|]. naive_solver. }
  assert (row (with_db (remove_object_location key node) cl) key node = None) as Hr by (unfold row; simpl; apply lookup_delete_eq).
  assert (at_key node key cl cl) as Hi by apply at_key_refl.
  unfold verify_key, phantom. destruct (exists_ _ _ _) as [[]|e]; simpl; [naive_solver| |naive_solver].
  destruct (ro_others (env key)), (other_holders_exist (db cl) key node), (Z.eqb_spec files 0), (ro_remove (env key));
  simpl; (split; [done|]; split; [done|]); naive_solver.
Qed.

Definition stale_keys (d : ClusterDb) (node : bytes) (now : Z) (after : bytes) : list bytes :=
  sort_keys ((fun p => p.1.1) <$>
    filter (fun p => p.1.2 = node /\ bytes_lt after p.1.1 /\ loc_created p.2 < now - VERIFY_MIN_ROW_AGE) (map_to_list (locations d))).

Lemma elem_of_stale cl node now after key : key ∈ stale_keys (db cl) node now after <-> bytes_lt after key /\ old_row now cl key node.
Proof.
  unfold stale_keys. rewrite elem_of_sort_keys, list_elem_of_fmap. split.
  - intros ([[k n] l] & -> & ((Hn & Hlt & Ho) & Hin)%list_elem_of_filter). simpl in *. subst n.
    split; [done|]. exists l. split; [|done]. by apply elem_of_map_to_list in Hin.
  - intros (Hlt & l & Hl & Ho). exists ((key, node), l). split; [done|]. apply list_elem_of_filter.
    split; [done|]. by apply elem_of_map_to_list.
Qed.

Lemma stale_keys_nodup d node now after : NoDup ((fun p : bytes * bytes * Location => p.1.1) <$>
    filter (fun p => p.1.2 = node /\ bytes_lt after p.1.1 /\ loc_created p.2 < now - VERIFY_MIN_ROW_AGE) (map_to_list (locations d))).
Proof.
  apply NoDup_fmap_2_strong; [|apply NoDup_filter, NoDup_map_to_list].
  intros [[k n] l] [[k' n'] l'] ((Hn & _) & H1)%list_elem_of_filter ((Hn' & _) & H2)%list_elem_of_filter E. simpl in *. subst.
  apply elem_of_map_to_list in H1, H2. congruence.
Qed.

Lemma stale_keys_sorted d node now after : StronglySorted bytes_lt (stale_keys d node now after).
Proof. apply sort_keys_strict, stale_keys_nodup. Qed.

Lemma last_elem {A} (l : list A) x : list.last l = Some x -> x ∈ l.
Proof. intros H. apply last_Some in H as [l' ->]. apply elem_of_app. right. by left. Qed.

Lemma sorted_last {A} (R : relation A) (l : list A) x y : StronglySorted R l -> list.last l = Some x -> y ∈ l -> y = x \/ R y x.
Proof.
  intros Hs (l' & ->)%last_Some Hy. apply elem_of_app in Hy as [Hy|Hy]; [|left; by apply list_elem_of_singleton in Hy].
  right. apply (sorted_take R (length l') (l' ++ [x])); [done|by rewrite take_app_length|]. rewrite drop_app_length. by left.
Qed.

Lemma sorted_take_sorted {A} (R : relation A) n (l : list A) : StronglySorted R l -> StronglySorted R (take n l).
Proof.
  intros Hs. revert n. induction Hs as [|x l Hs IH Hx]; intros n; [rewrite take_nil; constructor|].
  destruct n; simpl; [constructor|]. constructor; [apply IH|by apply Forall_take].
Qed.

(** What the rest of the pass does, from a key on. *)
Record verified (node : bytes) (files now : Z) (env : bytes -> RowEnv) (after : bytes) (cl cl' : Cluster) : Prop := {
  vf_file n k : file cl' n k = file cl n k;
  vf_row key n : row cl' key n = row cl key n \/
    (row cl' key n = None /\ n = node /\ bytes_lt after key /\ old_row now cl key node /\ phantom node files env cl key);
}.
Definition verified_all (node : bytes) (files now : Z) (env : bytes -> RowEnv) (after : bytes) (cl cl' : Cluster) : Prop :=
  forall key, bytes_lt after key -> old_row now cl key node -> phantom node files env cl key -> row cl' key node = None.

Lemma page_spec node files now env v cl after batch :
  let keys := limit batch (stale_keys (db cl) node now after) in
  let acc := foldl (verify_key node files env) (v, cl) keys in
  (forall n k, file acc.2 n k = file cl n k) /\
  (forall key n, row acc.2 key n = row cl key n \/ (row acc.2 key n = None /\ n = node /\ key ∈ keys /\ phantom node files env cl key)) /\
  (forall key, key ∈ keys -> phantom node files env cl key -> row acc.2 key node = None) /\
  (forall key, key ∉ keys -> agree key cl acc.2).
Proof.
  intros keys acc. pose proof (fun a k => proj1 (verify_key_spec node files env a.1 a.2 k)) as Hs0.
  assert (forall a k, at_key node k a.2 (verify_key node files env a k).2) as Hstep by (intros [v0 c] k; apply (Hs0 (v0, c))).
  assert (NoDup keys) as Hnd.
  { eapply sublist_NoDup; [|apply sublist_take]. unfold stale_keys, sort_keys. rewrite merge_sort_Permutation. apply stale_keys_nodup. }
  assert (forall key, key ∈ keys -> exists v1 c, agree key cl c /\ agree key (verify_key node files env (v1, c) key).2 acc.2) as Hat.
  { intros key Hin. destruct (fold_at node _ Hstep keys (v, cl) key Hnd Hin) as ([v1 c] & H1 & H2). by exists v1, c. }
  assert (forall key, key ∉ keys -> agree key cl acc.2) as Hout by (intros key Hk; by apply (fold_other node _ Hstep keys (v, cl))).
  split; [|split; [|split; [|done]]].
  - intros n k. destruct (decide (k ∈ keys)) as [Hin|Hni]; [|apply (ag_file _ _ _ (Hout k Hni))].
    destruct (Hat k Hin) as (v1 & c & A1 & A2). destruct (verify_key_spec node files env v1 c k) as (_ & Hf & _).
    by rewrite (ag_file _ _ _ A2), Hf, (ag_file _ _ _ A1).
  - intros key n. destruct (decide (key ∈ keys)) as [Hin|Hni]; [|left; apply (ag_row _ _ _ (Hout key Hni))].
    destruct (Hat key Hin) as (v1 & c & A1 & A2). destruct (verify_key_spec node files env v1 c key) as (Ha & _ & Hr & _).
    rewrite (ag_row _ _ _ A2), <- (ag_row _ _ _ A1 n). destruct (decide (n = node)) as [->|Hne].
    + destruct Hr as [?|[? Hp]]; [by left|]. right. do 3 (split; [done|]). by apply (agree_phantom _ _ _ _ _ _ A1).
    + left. apply (ak_row _ _ _ _ Ha). tauto.
  - intros key Hin Hp. destruct (Hat key Hin) as (v1 & c & A1 & A2).
    destruct (verify_key_spec node files env v1 c key) as (_ & _ & _ & Hr). rewrite (ag_row _ _ _ A2). apply Hr.
    by apply (agree_phantom _ _ _ _ _ _ A1).
Qed.

(** The keys after a full page, once the page is done. *)
Lemma next_page node files now env v cl after batch last :
  let keys := limit batch (stale_keys (db cl) node now after) in
  let acc := foldl (verify_key node files env) (v, cl) keys in
  list.last keys = Some last ->
  (forall key, bytes_lt last key -> agree key cl acc.2) /\
  bytes_lt after last /\
  (length (stale_keys (db acc.2) node now last) < length (stale_keys (db cl) node now after))%nat /\
  (forall key, key ∈ keys \/ bytes_lt last key \/ ~ (bytes_lt after key /\ old_row now cl key node)).
Proof.
  intros keys acc Hlast. pose proof (stale_keys_sorted (db cl) node now after) as Hs.
  assert (StronglySorted bytes_lt keys) as Hsk by (by apply sorted_take_sorted).
  assert (forall key, key ∈ keys -> key ∈ stale_keys (db cl) node now after) as Hsub by (intros key; apply elem_of_limit).
  destruct (page_spec node files now env v cl after batch) as (_ & _ & _ & Hout). fold keys in Hout. fold acc in Hout.
  pose proof (last_elem _ _ Hlast) as Hl. pose proof (Hsub _ Hl) as Hls.
  pose proof (proj1 (elem_of_stale _ _ _ _ _) Hls) as [Hal Hol].
  assert (forall key, bytes_lt last key -> key ∉ keys) as Hnot.
  { intros key Hlt Hin. destruct (sorted_last _ _ _ _ Hsk Hlast Hin) as [->|Hlt'].
    - by apply bytes_lt_irrefl in Hlt.
    - apply (bytes_lt_irrefl key). by eapply bytes_lt_trans. }
  split; [intros key Hlt; by apply Hout, Hnot|]. split; [done|]. split.
  - assert (last :: stale_keys (db acc.2) node now last ⊆+ stale_keys (db cl) node now after) as Hle.
    { apply NoDup_submseteq.
      - apply NoDup_cons. split; [intros [Hx _]%elem_of_stale; by apply bytes_lt_irrefl in Hx|].
        unfold stale_keys, sort_keys. rewrite merge_sort_Permutation. apply stale_keys_nodup.
      - intros key [->|Hin]%elem_of_cons; [done|]. apply elem_of_stale in Hin as [Hlt (l & Hr & Ho)].
        apply elem_of_stale. split; [by eapply bytes_lt_trans|]. exists l. split; [|done].
        by rewrite <- (ag_row _ _ _ (Hout key (Hnot key Hlt))). }
    apply submseteq_length in Hle. simpl in Hle. lia.
  - intros key. destruct (decide (key ∈ keys)) as [|Hni]; [by left|]. right.
    destruct (decide (key ∈ stale_keys (db cl) node now after)) as [Hin|Hno]; [left|right; by rewrite <- elem_of_stale].
    eapply (sorted_take bytes_lt (Z.to_nat batch)); [exact Hs|exact Hl|].
    rewrite <- (take_drop (Z.to_nat batch) (stale_keys _ _ _ _)) in Hin. apply elem_of_app in Hin as [|]; [contradiction|done].
Qed.

Lemma verify_loop_spec fuel batch node files now env pages after v cl : 0 < batch ->
  (length (stale_keys (db cl) node now after) < fuel)%nat ->
  exists v' cl', verify_loop fuel batch node files now env pages after (v, cl) = Some (v', cl') /\
    verified node files now env after cl cl' /\
    ((forall i, pages i = true) -> verified_all node files now env after cl cl').
Proof.
  intros Hb. revert after v cl. induction fuel as [|fuel IH]; intros after v cl Hf; [lia|]. simpl.
  assert (verified node files now env after cl cl) as Hid by (split; [done|by left]).
  destruct (pages fuel) eqn:Ep; [|exists v, cl; split; [done|]; split; [done|]; intros Ha; congruence].
  change (stale_locations_on_node (db cl) node now VERIFY_MIN_ROW_AGE after batch) with (limit batch (stale_keys (db cl) node now after)).
  destruct (list.last (limit batch (stale_keys (db cl) node now after))) as [last|] eqn:El.
  2: { exists v, cl. split; [done|]. split; [done|]. intros _ key Hlt Ho _. exfalso. apply last_None in El.
    assert (key ∈ stale_keys (db cl) node now after) as Hin by (by apply elem_of_stale).
    destruct (stale_keys (db cl) node now after) as [|x l]; [inversion Hin|]. unfold limit in El.
    destruct (Z.to_nat batch) eqn:Ez; [lia|done]. }
  pose proof (page_spec node files now env v cl after batch) as (Hpf & Hpr & Hpp & Hpo).
  pose proof (next_page node files now env v cl after batch last El) as (Hag & Hlt & Hlen & Hcov).
  set (keys := limit batch (stale_keys (db cl) node now after)) in *.
  destruct (foldl (verify_key node files env) (v, cl) keys) as [v1 cl1] eqn:Eacc. simpl in Hpf, Hpr, Hpp, Hpo, Hag, Hlen.
  assert (forall key, key ∈ keys -> bytes_lt after key /\ old_row now cl key node) as Hkeys by (intros key Hin; by apply elem_of_stale, (elem_of_limit _ batch)).
  assert (verified node files now env after cl cl1) as Hv1.
  { split; [exact Hpf|]. intros key n. destruct (Hpr key n) as [|(H1 & H2 & H3 & H4)]; [by left|]. right.
    destruct (Hkeys key H3). done. }
  destruct (Z.ltb_spec (Z.of_nat (length keys)) batch) as [Hsh|Hfull].
  - exists v1, cl1. split; [done|]. split; [done|]. intros _ key Hk Ho Hp. apply Hpp; [|done].
    assert (keys = stale_keys (db cl) node now after) as ->; [|by apply elem_of_stale].
    unfold keys, limit in *. rewrite length_take in Hsh. apply take_ge. lia.
  - destruct (IH last v1 cl1 ltac:(lia)) as (v' & cl' & -> & Hv2 & Hall). exists v', cl'. split; [done|].
    assert (forall key, key ∈ keys -> ~ bytes_lt last key) as Hle.
    { intros key Hin Hx. destruct (Hag key Hx) as [_ Hr _ _]. 
      pose proof (sorted_last _ _ _ _ (sorted_take_sorted _ (Z.to_nat batch) _ (stale_keys_sorted (db cl) node now after)) El Hin) as [->|Hy];
      eapply bytes_lt_irrefl; [exact Hx|by eapply bytes_lt_trans]. }
    split.
    + split; [intros n k; by rewrite (vf_file _ _ _ _ _ _ _ Hv2), Hpf|]. intros key n.
      destruct (vf_row _ _ _ _ _ _ _ Hv2 key n) as [->|(H1 & -> & H3 & H4 & H5)]; [apply (vf_row _ _ _ _ _ _ _ Hv1)|].
      right. split; [done|]. split; [done|]. split; [by eapply bytes_lt_trans|].
      destruct H4 as (l & Hl & Ho). rewrite (ag_row _ _ _ (Hag key H3)) in Hl. split; [by exists l|].
      by apply (agree_phantom _ _ _ _ _ _ (Hag key H3)).
    + intros Hpg key Hk Ho Hp. destruct (Hcov key) as [Hin|[Hgt|Hno]]; [| |tauto].
      * destruct (vf_row _ _ _ _ _ _ _ Hv2 key node) as [->|(? & _)]; [by apply Hpp|done].
      * apply (Hall Hpg); [done| |by apply (agree_phantom _ _ _ _ _ _ (Hag key Hgt))].
        destruct Ho as (l & Hl & Ho). exists l. by rewrite (ag_row _ _ _ (Hag key Hgt)).
Qed.

Lemma stale_keys_size d node now after : (length (stale_keys d node now after) <= base.size (locations d))%nat.
Proof.
  unfold stale_keys, sort_keys. rewrite merge_sort_Permutation, length_fmap.
  rewrite <- length_map_to_list. apply length_filter.
Qed.

(** The verify pass ends and removes lies only: whatever calls fail it
    terminates, touches no file, and removes a row only if it is this node's, an
    hour old, its file is missing from this disk and (the row being the
    object's last, the whole root empty) the volume is not likely unmounted; when
    every page is answered it removes all of those, page by page. *)
Theorem verify_removes_phantoms fuel node files_on_disk now env pages cl :
  (base.size (locations (db cl)) < fuel)%nat ->
  exists v cl', verify_placements fuel node files_on_disk now env pages cl = Some (v, cl') /\
    (forall n k, file cl' n k = file cl n k) /\
    (forall key n, row cl' key n = row cl key n \/
       (row cl' key n = None /\ n = node /\ old_row now cl key node /\ phantom node files_on_disk env cl key /\ file cl node key = None)) /\
    ((forall i, pages i = true) -> forall key, key <> [] -> old_row now cl key node ->
       phantom node files_on_disk env cl key -> row cl' key node = None).
Proof.
  intros Hf. unfold verify_placements. pose proof (stale_keys_size (db cl) node now []) as Hs.
  destruct (verify_loop_spec fuel VERIFY_BATCH node files_on_disk now env pages [] (mkVerified 0 0 0 0) cl) as (v & cl' & E & Hv & Ha);
    [done|lia|]. exists v, cl'. split; [exact E|]. split; [apply (vf_file _ _ _ _ _ _ _ Hv)|]. split.
  - intros key n. destruct (vf_row _ _ _ _ _ _ _ Hv key n) as [|(H1 & H2 & _ & H4 & H5)]; [by left|right].
    do 4 (split; [done|]). eapply exists_false_file. apply H5.
  - intros Hp key Hne. apply (Ha Hp). by destruct key.
Qed.

(** ** Witnesses *)

Definition demo_keys (key : bytes) : KeyEnv := mkKey false true true true false false.

(** A file no row and no split names, two hours old: swept. *)
Definition demo_orphan : Cluster := mkCluster (db (demo_cluster [n1] [])) (roots (demo_cluster [n1] [n1])).

Lemma reconcile_keeps_known_witness :
  exists files n cl', reconcile n1 false demo_keys 7200 110000 demo_orphan = Some (files, n, cl') /\ file cl' n1 demo_key = None.
Proof.
  destruct (reconcile n1 false demo_keys 7200 110000 demo_orphan) as [[[files n] cl']|] eqn:E.
  - exists files, n, cl'. split; [done|].
    destruct (reconcile_keeps_known n1 demo_keys 7200 110000 demo_orphan files n cl' E) as (_ & _ & _ & H).
    refine (proj2 (H _ demo_key {| ff_data := demo_data; ff_mtime := 0 |} eq_refl _ _) _).
    + intros key. repeat split.
    + apply (demo_plain [n1] [n1]).
    + reflexivity.
    + split; [vm_compute; reflexivity|]. unfold ORPHAN_MIN_AGE. simpl. lia.
  - exfalso. unfold reconcile in E. destruct (foldl _ _ _). discriminate.
Defined.

(** A row whose file is gone, other holders known: removed. *)
Definition demo_phantom : Cluster := mkCluster (db (demo_cluster [n1; n2] [n1; n2])) (roots (demo_cluster [n1; n2] [n2])).

Lemma verify_removes_phantoms_witness :
  exists v cl', verify_placements 3 n1 0 4000000 (fun _ => mkRow false true true) (fun _ => true) demo_phantom = Some (v, cl') /\
    row cl' demo_key n1 = None.
Proof.
  destruct (verify_removes_phantoms 3 n1 0 4000000 (fun _ => mkRow false true true) (fun _ => true) demo_phantom) as (v & cl' & E & _ & _ & H).
  - vm_compute. lia.
  - exists v, cl'. split; [exact E|]. apply H; [done|done| |].
    + exists (mkLoc 4 0). split; [reflexivity|]. unfold VERIFY_MIN_ROW_AGE. simpl. lia.
    + split; [vm_compute; reflexivity|]. split; [done|]. intros (_ & H2 & _). revert H2. vm_compute. discriminate.
Defined.
