(* ===== verification/Replication.v ===== *)
(** * The replicated storage backend (crates/rsearch-storage: replicated.rs and
    the peer client, peer.rs; crates/rsearch-server: the peer endpoints of
    internal_api.rs, and the repair and drain jobs of control.rs)

    An operation is what one node does, calls to peers included; what
    the network, the disks and the metastore do during it is given with the
    call.  [route] says which node serves at an address. *)

From Stdlib Require Import ZArith Lia.
From Stdlib Require Import Strings.Byte.
From stdpp Require Import base gmap sets list strings sorting.
From S2P Require Import Prelude Json Metastore Storage Placement Cluster.

Local Open Scope Z_scope.

(** ** What happens around an operation *)

(** On one node, during one request: how the write goes, the temp name's
    parts, whether the disk answers, whether the metastore answers; the node's
    clock (seconds) and the database's (milliseconds). *)
Record HandlerEnv := mkHandler {
  he_io : WriteIo; he_pid : Z; he_seq : Z; he_disk_fault : bool; he_db : bool; he_fs_now : Z; he_now : Z;
}.

(** One request to a peer: whether it arrives, whether its answer comes back in
    time, and the chunks a body arrives in ([None]: the transfer breaks). *)
Record NetEnv := mkNet {
  ne_reaches : bool; ne_answers : bool; ne_body : bytes -> list (option bytes); ne_handler : HandlerEnv;
}.

Section cluster.
Context (route : bytes -> option bytes).

(** ** The peer endpoints (internal_api.rs); the cluster token is the right one *)

Inductive Status := S200 | S400 | S404 | S409 | S500.
#[local] Instance Status_eq_dec : EqDecision Status.
Proof. solve_decision. Defined.

Definition storage_error (e : StorageError) : Status :=
  match e with NotFound _ => S404 | InvalidKey _ => S400 | _ => S500 end.

Definition put_object (node key : bytes) (body : list (option bytes)) (e : HandlerEnv) (cl : Cluster) : Status * Cluster :=
  let '(r, st) := put_stream key body (he_pid e) (he_seq e) (he_io e) (he_fs_now e) (root cl node) in
  let cl1 := set_root node st cl in
  match r with
  | Err err => (storage_error err, cl1)
  | Ok size => if he_db e then (S200, with_db (record_object_location key node size (he_now e)) cl1) else (S500, cl1)
  end.

Definition delete_copy (node key : bytes) (e : HandlerEnv) (cl : Cluster) : Status * Cluster :=
  let '(r, st) := delete_object key (he_disk_fault e) (root cl node) in
  let cl1 := set_root node st cl in
  match r with
  | Err err => (storage_error err, cl1)
  | Ok _ => if he_db e then (S200, with_db (remove_object_location key node) cl1) else (S500, cl1)
  end.

(** ** The peer client (peer.rs) *)

(** [send]: 404 is "not found", any other refusal a backend error. *)
Definition send_status (key : bytes) (s : Status) : StorageResult unit :=
  match s with S200 => Ok tt | S404 => Err (NotFound key) | _ => Err (Backend key) end.

Definition call (address key : bytes) (ne : NetEnv) (h : bytes -> Cluster -> Status * Cluster) (cl : Cluster)
    : StorageResult unit * Cluster :=
  match route address with
  | Some n =>
      if ne_reaches ne then
        let '(s, cl') := h n cl in
        ((if ne_answers ne then send_status key s else Err (Backend key)), cl')
      else (Err (Backend key), cl)
  | None => (Err (Backend key), cl)
  end.

Definition push_bytes (address key data : bytes) (ne : NetEnv) (cl : Cluster) : StorageResult unit * Cluster :=
  call address key ne (fun n => put_object n key (ne_body ne data) (ne_handler ne)) cl.

(** [delete]: a copy that is not there is not an error. *)
Definition peer_delete (address key : bytes) (ne : NetEnv) (cl : Cluster) : StorageResult unit * Cluster :=
  let '(r, cl') := call address key ne (fun n => delete_copy n key (ne_handler ne)) cl in
  (match r with Err (NotFound _) => Ok tt | r => r end, cl').

(** [get]: the endpoint's answer to a request without a range. *)
Definition peer_get (address key : bytes) (ne : NetEnv) (cl : Cluster) : StorageResult bytes :=
  match route address with
  | Some n =>
      if ne_reaches ne && ne_answers ne then
        match Storage.get (root cl n) key (he_disk_fault (ne_handler ne)) with
        | Ok d => Ok d
        | Err err => match send_status key (storage_error err) with Err e => Err e | Ok _ => Err (Backend key) end
        end
      else Err (Backend key)
  | None => Err (Backend key)
  end.

(** [download_to]: the body is streamed into the local root. *)
Definition download_to (node source key : bytes) (ne : NetEnv) (e : HandlerEnv) (cl : Cluster) : StorageResult Z * Cluster :=
  match peer_get source key ne cl with
  | Err err => (Err err, cl)
  | Ok data =>
      let '(r, st) := put_stream key (ne_body ne data) (he_pid e) (he_seq e) (he_io e) (he_fs_now e) (root cl node) in
      (r, set_root node st cl)
  end.

(** ** [replicate]: the endpoint and the client's call *)

Record ReplEnv := mkRepl { re_net : NetEnv; re_list : bool; re_pull : NetEnv }.

Definition replicate (node key source : bytes) (re : ReplEnv) (cl : Cluster) : Status * Cluster :=
  let e := ne_handler (re_net re) in
  if negb (re_list re) then (S500, cl)
  else if negb (bool_decide (Exists (fun r => address r = Some source) (list_nodes (db cl) (he_now e)))) then (S400, cl)
  else
    match download_to node source key (re_pull re) e cl with
    | (Err err, cl1) => (storage_error err, cl1)
    | (Ok size, cl1) =>
        if negb (he_db e) then (S500, cl1)
        else
          let '(known, d) := record_object_location_if_known key node size (he_now e) (db cl1) in
          match known with
          | Some _ => (S200, mkCluster d (roots cl1))
          | None =>
              let '(_, st) := delete_object key (he_disk_fault e) (root cl1 node) in
              (S409, set_root node st cl1)
          end
    end.

Definition peer_replicate (address key source : bytes) (re : ReplEnv) (cl : Cluster) : StorageResult unit * Cluster :=
  call address key (re_net re) (fun n => replicate n key source re) cl.

(** ** [ReplicatedStorage] *)

Record Backend_ := mkBackend { node_id : bytes; replication_factor : nat; write_quorum : nat }.

(** What a push reads from: bytes, or the copy in the local root. *)
Inductive PushSource := SrcBytes (data : bytes) | SrcFile.

Definition source_data (self key : bytes) (src : PushSource) (cl : Cluster) : option bytes :=
  match src with SrcBytes data => Some data | SrcFile => object (root cl self) key end.

Definition push (self key : bytes) (src : PushSource) (address : bytes) (ne : NetEnv) (cl : Cluster) : bool * Cluster :=
  match source_data self key src cl with
  | None => (false, cl)
  | Some data => let '(r, cl') := push_bytes address key data ne cl in (is_ok r, cl')
  end.

(** The targets that have an address. *)
Definition reachable (ts : list PeerNode) : list (bytes * bytes) :=
  omap (fun t => (fun a => (pn_id t, a)) <$> pn_address t) ts.

(** Pushes resolve in the order of [pending] until the quorum holds; the rest
    is still running when the loop ends. *)
Fixpoint push_until (self key : bytes) (src : PushSource) (nets : bytes -> NetEnv) (quorum : nat)
    (pending : list (bytes * bytes)) (copies : nat) (pushed : list (bytes * bytes)) (cl : Cluster)
    : nat * list (bytes * bytes) * list (bytes * bytes) * Cluster :=
  if (copies <? quorum)%nat then
    match pending with
    | [] => (copies, pushed, [], cl)
    | (n, a) :: pending =>
        let '(ok, cl) := push self key src a (nets n) cl in
        if ok then push_until self key src nets quorum pending (S copies) (pushed ++ [(n, a)]) cl
        else push_until self key src nets quorum pending copies pushed cl
    end
  else (copies, pushed, pending, cl).

Fixpoint rollback (key : bytes) (nets : bytes -> NetEnv) (pushed : list (bytes * bytes)) (cl : Cluster) : Cluster :=
  match pushed with
  | [] => cl
  | (n, a) :: pushed => rollback key nets pushed (peer_delete a key (nets n) cl).2
  end.

Record FanEnv := mkFan {
  fe_targets : bool;                                      (** the target query is answered *)
  fe_order : list (bytes * bytes) -> list (bytes * bytes); (** the order pushes resolve in *)
  fe_push : bytes -> NetEnv;
  fe_local : bool;                                        (** the local rollback's disk fault *)
  fe_delete : bytes -> NetEnv;
  fe_remove : bool;                                       (** the rows' removal is answered *)
  fe_now : Z;
}.

Definition quorum_of (b : Backend_) : nat := Nat.max 1 (Nat.min (write_quorum b) (replication_factor b)).

(** [fan_out]: the result, the state, and the pushes still running. *)
Definition fan_out (b : Backend_) (key : bytes) (src : PushSource) (e : FanEnv) (cl : Cluster)
    : StorageResult unit * Cluster * list (bytes * bytes) :=
  let needed := (replication_factor b - 1)%nat in
  let quorum := quorum_of b in
  let go ts cl :=
    let '(copies, pushed, rest, cl1) :=
      push_until (node_id b) key src (fe_push e) quorum (fe_order e (reachable ts)) 1 [] cl in
    if (quorum <=? copies)%nat then (Ok tt, cl1, rest)
    else
      let '(_, st) := delete_object key (fe_local e) (root cl1 (node_id b)) in
      let cl2 := rollback key (fe_delete e) pushed (set_root (node_id b) st cl1) in
      let cl3 := if fe_remove e then with_db (remove_object_locations key) cl2 else cl2 in
      (Err (Backend key), cl3, []) in
  if (needed =? 0)%nat then go [] cl
  else if fe_targets e then
    let '(ts, d) := write_targets [node_id b] needed (fe_now e) (db cl) in go ts (mkCluster d (roots cl))
  else (Err (Backend []), cl, []).

(** What the write of one object adds: the local write, its row. *)
Record PutEnv := mkPut { pu_local : HandlerEnv; pu_fan : FanEnv }.

(** The common tail of [put] and [put_file]. *)
Definition record_and_fan_out (b : Backend_) (key : bytes) (size : Z) (src : PushSource) (e : PutEnv) (cl : Cluster)
    : StorageResult unit * Cluster * list (bytes * bytes) :=
  if he_db (pu_local e) then
    fan_out b key src (pu_fan e) (with_db (record_object_location key (node_id b) size (he_now (pu_local e))) cl)
  else
    let '(_, st) := delete_object key (he_disk_fault (pu_local e)) (root cl (node_id b)) in
    (Err (Backend key), set_root (node_id b) st cl, []).

Definition put (b : Backend_) (key : bytes) (chunks : list bytes) (e : PutEnv) (cl : Cluster)
    : StorageResult unit * Cluster * list (bytes * bytes) :=
  let h := pu_local e in
  let '(r, st) := write_atomic key chunks (he_pid h) (he_seq h) (he_io h) (he_fs_now h) (root cl (node_id b)) in
  let cl1 := set_root (node_id b) st cl in
  match r with
  | Err err => (Err err, cl1, [])
  | Ok _ => record_and_fan_out b key (blen (concat chunks)) (SrcBytes (concat chunks)) e cl1
  end.

(** [put_file]: the size is read back from the local root. *)
Definition put_file (b : Backend_) (key data : bytes) (mtime : Z) (size_fault : bool) (e : PutEnv) (cl : Cluster)
    : StorageResult unit * Cluster * list (bytes * bytes) :=
  let h := pu_local e in
  let '(r, st) := Storage.put_file key data mtime (he_pid h) (he_seq h) (he_io h) (he_fs_now h) (root cl (node_id b)) in
  let cl1 := set_root (node_id b) st cl in
  match r with
  | Err err => (Err err, cl1, [])
  | Ok _ =>
      match Storage.size (root cl1 (node_id b)) key size_fault with
      | Err err => (Err err, cl1, [])
      | Ok size => record_and_fan_out b key size SrcFile e cl1
      end
  end.

(** *** Reads: the local copy, or the first holder that answers *)

Definition remote_holders (b : Backend_) (key : bytes) (now : Z) (cl : Cluster) : list PeerNode :=
  filter (fun p => pn_id p <> node_id b) (live_holders (db cl) key now).

Fixpoint from_holders {A} (ask : bytes -> bytes -> StorageResult A) (hs : list PeerNode) (last : StorageError) : StorageResult A :=
  match hs with
  | [] => Err last
  | h :: hs =>
      match pn_address h with
      | None => from_holders ask hs last
      | Some a => match ask (pn_id h) a with Ok d => Ok d | Err e => from_holders ask hs e end
      end
  end.

Definition read_through {A} (b : Backend_) (key : bytes) (local : StorageResult A) (holders_db : bool) (now : Z)
    (ask : bytes -> bytes -> StorageResult A) (cl : Cluster) : StorageResult A :=
  match local with
  | Err (NotFound _) =>
      if holders_db then from_holders ask (remote_holders b key now cl) (NotFound key) else Err (Backend key)
  | r => r
  end.

Definition get (b : Backend_) (key : bytes) (fault holders_db : bool) (now : Z) (nets : bytes -> NetEnv) (cl : Cluster)
    : StorageResult bytes :=
  read_through b key (Storage.get (root cl (node_id b)) key fault) holders_db now
    (fun n a => peer_get a key (nets n) cl) cl.

(** A range of a peer's copy: the header and its parsing are [Storage]'s. *)
Definition peer_range (address key : bytes) (from to : Z) (ne : NetEnv) (cl : Cluster) : StorageResult bytes :=
  match route address with
  | Some n =>
      if ne_reaches ne && ne_answers ne then
        match peer_get_range (root cl n) key from to (he_disk_fault (ne_handler ne)) with
        | Ok d => Ok d
        | Err err => match send_status key (storage_error err) with Err e => Err e | Ok _ => Err (Backend key) end
        end
      else Err (Backend key)
  | None => Err (Backend key)
  end.

Definition get_range (b : Backend_) (key : bytes) (from to : Z) (fault holders_db : bool) (now : Z) (nets : bytes -> NetEnv)
    (cl : Cluster) : StorageResult bytes :=
  read_through b key (Storage.get_range (root cl (node_id b)) key from to fault) holders_db now
    (fun n a => peer_range a key from to (nets n) cl) cl.

Definition size (b : Backend_) (key : bytes) (fault size_db : bool) (cl : Cluster) : StorageResult Z :=
  match Storage.size (root cl (node_id b)) key fault with
  | Err (NotFound _) =>
      if size_db then match object_size (db cl) key with Some n => Ok (wrap_u 64 n) | None => Err (NotFound key) end
      else Err (Backend key)
  | r => r
  end.

(** *** [delete] and [list] *)

Fixpoint delete_on (key : bytes) (nets : bytes -> NetEnv) (hs : list PeerNode) (cl : Cluster) : Cluster :=
  match hs with
  | [] => cl
  | h :: hs =>
      match pn_address h with
      | None => delete_on key nets hs cl
      | Some a => delete_on key nets hs (peer_delete a key (nets (pn_id h)) cl).2
      end
  end.

Definition delete (b : Backend_) (key : bytes) (holders_db fault remove_db : bool) (now : Z) (nets : bytes -> NetEnv) (cl : Cluster)
    : StorageResult unit * Cluster :=
  if holders_db then
    let cl1 := delete_on key nets (remote_holders b key now cl) cl in
    let '(r, st) := delete_object key fault (root cl1 (node_id b)) in
    let cl2 := set_root (node_id b) st cl1 in
    match r with
    | Err e => (Err e, cl2)
    | Ok _ => if remove_db then (Ok tt, with_db (remove_object_locations key) cl2) else (Err (Backend key), cl2)
    end
  else (Err (Backend key), cl).

Definition list_ (cl : Cluster) (prefix : bytes) : list bytes := object_keys_with_prefix (db cl) prefix.

(** ** Repair and drain (control.rs), on the leader *)

(** Copies are pulled one target after the other; how many succeeded. *)
Fixpoint copy_to (key source : bytes) (repl : bytes -> ReplEnv) (ts : list NodeRecord) (cl : Cluster) : nat * Cluster :=
  match ts with
  | [] => (0%nat, cl)
  | t :: ts =>
      match address t with
      | None => copy_to key source repl ts cl
      | Some a =>
          let '(r, cl) := peer_replicate a key source (repl (id t)) cl in
          let '(n, cl) := copy_to key source repl ts cl in
          ((if is_ok r then S n else n), cl)
      end
  end.

Definition first_address (hs : list NodeRecord) : option bytes := head (omap address hs).

(** The leader's queries, in order: whether each is answered. *)
Record LeadEnv := mkLead {
  le_holders : bool; le_targets : bool; le_fallback : bool; le_now : Z; le_repl : bytes -> ReplEnv;
  le_delete : NetEnv; le_remove : bool;
}.

Definition repair_one (factor : nat) (key : bytes) (e : LeadEnv) (cl : Cluster) : result unit unit * Cluster :=
  if negb (le_holders e) then (Err tt, cl)
  else
    let hs := live_holders_of (db cl) key (le_now e) LIVE_AFTER in
    match first_address hs with
    | None => (Ok tt, cl)
    | Some source =>
        let missing := (factor - length hs)%nat in
        if (missing =? 0)%nat then (Ok tt, cl)
        else if negb (le_targets e) then (Err tt, cl)
        else
          let exclude := id <$> hs in
          let '(ts, d) := replication_targets (le_now e) LIVE_AFTER exclude (Z.of_nat missing) false (db cl) in
          let cl1 := mkCluster d (roots cl) in
          if (length ts <? missing)%nat then
            if negb (le_fallback e) then (Err tt, cl1)
            else
              let '(more, d) := replication_targets (le_now e) LIVE_AFTER (exclude ++ (id <$> ts))
                                  (Z.of_nat (missing - length ts)) true (db cl1) in
              (Ok tt, (copy_to key source (le_repl e) (ts ++ more) (mkCluster d (roots cl1))).2)
          else (Ok tt, (copy_to key source (le_repl e) ts cl1).2)
    end.

Definition drain_one (node : NodeRecord) (factor : nat) (key : bytes) (e : LeadEnv) (cl : Cluster) : result unit bool * Cluster :=
  if negb (le_holders e) then (Err tt, cl)
  else
    let hs := live_holders_of (db cl) key (le_now e) LIVE_AFTER in
    match first_address hs with
    | None => (Ok false, cl)
    | Some source =>
        let safe := length (filter (fun h => draining h = false) hs) in
        let finish (safe : nat) (cl : Cluster) :=
          if (factor <=? safe)%nat then
            let '(deleted, cl1) :=
              match address node with
              | Some a => let '(r, cl1) := peer_delete a key (le_delete e) cl in (is_ok r, cl1)
              | None => (false, cl)
              end in
            if deleted : bool then (Ok true, cl1)
            else if le_remove e then (Ok true, with_db (remove_object_location key (id node)) cl1)
            else (Err tt, cl1)
          else (Ok false, cl) in
        if (safe <? factor)%nat then
          if negb (le_targets e) then (Err tt, cl)
          else
            let '(ts, d) := replication_targets (le_now e) LIVE_AFTER (id <$> hs) (Z.of_nat (factor - safe)) false (db cl) in
            let '(moved, cl1) := copy_to key source (le_repl e) ts (mkCluster d (roots cl)) in
            finish (safe + moved)%nat cl1
        else finish safe cl
    end.

(** *** The jobs *)

Definition REPAIR_FULL_SCAN : Z := 300.
Definition DRAIN_BATCHES_PER_TICK : nat := 10.

(** [RepairScanState]; times in whole seconds of the leader's clock. *)
Record RepairScan := mkScan { last_live : gset bytes; last_scan : option Z; last_found_work : bool }.

(** The nodes a tick sees alive. *)
Definition live_set (stale now : Z) (cl : Cluster) : gset bytes :=
  list_to_set (id <$> filter (fun n => heartbeat_age n < stale) (list_nodes (db cl) now)).

(** What a tick of the repair job meets: its two queries, and each key's turn. *)
Record RepairEnv := mkRepair { rp_nodes : bool; rp_under : bool; rp_clock : Z; rp_now : Z; rp_key : bytes -> LeadEnv }.

(** One tick: the result, the scan state, the cluster.  Keys are repaired
    concurrently; a key's turn touches its own copies and rows only, so the
    model takes them in order. *)
Definition repair_job (factor : nat) (stale : Z) (e : RepairEnv) (scan : RepairScan) (cl : Cluster)
    : result unit unit * RepairScan * Cluster :=
  if negb (rp_nodes e) then (Err tt, scan, cl)
  else
    let live := live_set stale (rp_now e) cl in
    let deadline_due :=
      match last_scan scan with Some at_ => REPAIR_FULL_SCAN <=? rp_clock e - at_ | None => true end in
    if bool_decide (live = last_live scan) && negb (last_found_work scan) && negb deadline_due then (Ok tt, scan, cl)
    else
      let scan1 := mkScan live (Some (rp_clock e)) (last_found_work scan) in
      if negb (rp_under e) then (Err tt, scan1, cl)
      else
        let under := under_replicated_keys (db cl) (Z.of_nat factor) (rp_now e) stale stale 20 in
        let scan2 := mkScan live (Some (rp_clock e)) (negb (bool_decide (under = []))) in
        (Ok tt, scan2,
         foldl (fun cl u => (repair_one factor (ur_storage_key u) (rp_key e (ur_storage_key u)) cl).2) cl under).

(** The batches of one draining node: a batch with a stuck key is the last. *)
Fixpoint drain_batches (n : nat) (node : NodeRecord) (factor : nat) (list_db : nat -> bool) (env : bytes -> LeadEnv) (cl : Cluster)
    : result unit unit * Cluster :=
  match n with
  | O => (Ok tt, cl)
  | S n =>
      if list_db n then
        let keys := locations_on_node (db cl) (id node) 50 in
        if bool_decide (keys = []) then (Ok tt, cl)
        else
          let '(moved, cl) :=
            foldl (fun '(ok, cl) key =>
              let '(r, cl) := drain_one node factor key (env key) cl in
              (ok && match r with Ok b => b | Err _ => false end, cl)) (true, cl) keys in
          if moved : bool then drain_batches n node factor list_db env cl else (Ok tt, cl)
      else (Err tt, cl)
  end.

Fixpoint drain_nodes (ns : list NodeRecord) (factor : nat) (list_db : bytes -> nat -> bool) (env : bytes -> bytes -> LeadEnv) (cl : Cluster)
    : result unit unit * Cluster :=
  match ns with
  | [] => (Ok tt, cl)
  | n :: ns =>
      match drain_batches DRAIN_BATCHES_PER_TICK n factor (list_db (id n)) (env (id n)) cl with
      | (Err e, cl) => (Err e, cl)
      | (Ok _, cl) => drain_nodes ns factor list_db env cl
      end
  end.

Definition drain_job (factor : nat) (nodes_db : bool) (now : Z) (list_db : bytes -> nat -> bool) (env : bytes -> bytes -> LeadEnv) (cl : Cluster)
    : result unit unit * Cluster :=
  if nodes_db then drain_nodes (filter (fun n => draining n = true) (list_nodes (db cl) now)) factor list_db env cl
  else (Err tt, cl).

(** Objects with rows and no split: deleted through the backend; the number
    deleted. *)
Definition stray_object_job (b : Backend_) (stray_db : bool) (now staged_orphan : Z)
    (del : bytes -> bool * bool * bool) (nets : bytes -> NetEnv) (cl : Cluster) : result unit Z * Cluster :=
  if stray_db then
    let '(n, cl) :=
      foldl (fun '(n, cl) key =>
        let '(holders_db, fault, remove_db) := del key in
        match delete b key holders_db fault remove_db now nets cl with
        | (Ok _, cl) => (n + 1, cl)
        | (Err _, cl) => (n, cl)
        end) (0, cl) (stray_object_keys (db cl) now staged_orphan 50) in
    (Ok n, cl)
  else (Err tt, cl).

(** ** Lemmas: the endpoints *)

(** A node holds [data] under [key], durably and on record. *)
Record holds (key data : bytes) (cl : Cluster) (n : bytes) : Prop := {
  ho_copy : copy cl n key = Some data;
  ho_row : exists l, row cl key n = Some l /\ loc_size l = blen data;
}.

Lemma holds_frame key P data cl cl' n : hidden_name key = false -> frame key P cl cl' -> ~ P n ->
  holds key data cl n -> holds key data cl' n.
Proof.
  intros Hk Hf Hn [Hc Hr]. split.
  - rewrite (fr_copy _ _ _ _ Hf); [done|done|naive_solver].
  - rewrite (fr_row _ _ _ _ Hf); [done|naive_solver].
Qed.

Definition unchanged (key : bytes) (cl cl' : Cluster) (n : bytes) : Prop :=
  copy cl' n key = copy cl n key /\ row cl' key n = row cl key n.

Lemma put_object_spec node key body e cl s cl' : hidden_name key = false ->
  put_object node key body e cl = (s, cl') ->
  frame key (eq node) cl cl' /\
  (s = S200 -> (stream_chunks body).2 = true /\ holds key (concat (stream_chunks body).1) cl' node) /\
  (s <> S200 -> he_db e = true -> io_clean (he_io e) (3 + length (stream_chunks body).1) -> unchanged key cl cl' node).
Proof.
  intros Hk. unfold put_object. destruct (put_stream _ _ _ _ _ _ _) as [r st] eqn:E.
  pose proof E as [Hw Hn]%put_stream_wrote; [|done].
  assert (frame key (eq node) cl (set_root node st cl)) as Hf.
  { apply frame_root; [apply (wr_escapes _ _ _ _ _ _ _ Hw)|]. intros k Hv Hne. by apply (wr_other _ _ _ _ _ _ _ Hw). }
  destruct r as [n|err].
  - destruct (Hn n eq_refl) as [Hwh ->]. destruct (he_db e) eqn:Ed.
    + intros [= <- <-]. split; [eapply frame_trans; [exact Hf|apply frame_record]|]. split; [|done]. intros _. split; [done|].
      split.
      * unfold copy. simpl. change (root (with_db _ ?c) node) with (root c node). rewrite root_set, decide_True by done.
        by apply (wr_ok _ _ _ _ _ _ _ Hw).
      * unfold row. simpl. rewrite lookup_upsert, decide_True by done. eexists. split; [done|]. done.
    + intros [= <- <-]. split; [done|]. split; [discriminate|congruence].
  - intros [= <- <-]. split; [done|]. split; [by destruct err|]. intros _ _ Hc.
    split; [|done]. unfold copy. rewrite root_set, decide_True by done.
    destruct (wr_err _ _ _ _ _ _ _ Hw eq_refl) as [|[_ Hnc]]; [done|contradiction].
Qed.

Lemma delete_copy_spec node key e cl s cl' : delete_copy node key e cl = (s, cl') ->
  frame key (eq node) cl cl' /\
  (copy cl' node key = copy cl node key \/ copy cl' node key = None) /\
  (row cl' key node = row cl key node \/ row cl' key node = None) /\
  (s = S200 -> copy cl' node key = None /\ row cl' key node = None) /\
  (he_disk_fault e = false -> he_db e = true -> resolve (root cl node) key = Ok key -> s = S200).
Proof.
  unfold delete_copy. destruct (delete_object _ _ _) as [r st] eqn:E.
  destruct (delete_object_spec _ _ _ _ _ E) as (He & Ho & Hg & Hs & Hok).
  assert (frame key (eq node) cl (set_root node st cl)) as Hf by (apply frame_root; auto).
  assert (copy (set_root node st cl) node key = object st key) as Hc.
  { unfold copy. by rewrite root_set, decide_True. }
  destruct r as [[]|err].
  - assert (object st key = None) as Hn by (by apply Hg).
    destruct (he_db e) eqn:Ed; intros [= <- <-].
    + assert (row (with_db (remove_object_location key node) (set_root node st cl)) key node = None) as Hr.
      { unfold row. simpl. apply lookup_delete_eq. }
      split; [eapply frame_trans; [exact Hf|apply frame_remove]|].
      change (copy (with_db ?f ?c) node key) with (copy c node key). rewrite Hc, Hn, Hr. auto.
    + split; [done|]. rewrite Hc, Hn. split; [auto|]. split; [by left|]. done.
  - rewrite (Hs eq_refl) in *. intros [= <- <-]. split; [done|]. rewrite Hc. split; [by left|]. split; [by left|].
    split; [by destruct err|]. intros Hfa _ Hr. by specialize (Hok Hfa Hr).
Qed.

(** ** Lemmas: pushes *)

(** A body that arrives whole is the one sent. *)
Definition whole_body (ne : NetEnv) : Prop :=
  forall data, (stream_chunks (ne_body ne data)).2 = true -> concat (stream_chunks (ne_body ne data)).1 = data.

(** A push that fails left nothing: it never arrived, or it was refused and
    the refusal came back. *)
Definition settled (ne : NetEnv) : Prop :=
  ne_reaches ne = false \/
  (ne_answers ne = true /\ he_db (ne_handler ne) = true /\
   forall data, io_clean (he_io (ne_handler ne)) (3 + length (stream_chunks (ne_body ne data)).1)).

(** A deletion that is carried out, whether or not its answer comes back. *)
Definition obeyed (ne : NetEnv) : Prop :=
  ne_reaches ne = true /\ he_disk_fault (ne_handler ne) = false /\ he_db (ne_handler ne) = true.

Lemma call_spec a key ne h n cl r cl' : route a = Some n -> call a key ne h cl = (r, cl') ->
  (ne_reaches ne = false /\ r = Err (Backend key) /\ cl' = cl) \/
  (ne_reaches ne = true /\ cl' = (h n cl).2 /\
   r = if ne_answers ne then send_status key (h n cl).1 else Err (Backend key)).
Proof.
  intros Hr. unfold call. rewrite Hr. destruct (ne_reaches ne).
  - destruct (h n cl) as [s cl1]. intros [= <- <-]. right. done.
  - intros [= <- <-]. by left.
Qed.

Lemma send_status_ok key s : is_ok (send_status key s) = bool_decide (s = S200).
Proof. by destruct s. Qed.

Lemma push_spec self key src a n ne data cl ok cl' : hidden_name key = false -> route a = Some n ->
  source_data self key src cl = Some data -> whole_body ne ->
  push self key src a ne cl = (ok, cl') ->
  frame key (eq n) cl cl' /\ (ok = true -> holds key data cl' n) /\ (ok = false -> settled ne -> unchanged key cl cl' n).
Proof.
  intros Hk Hr Hs Hw. unfold push. rewrite Hs. unfold push_bytes. destruct (call _ _ _ _ _) as [r cl1] eqn:E. intros [= <- <-].
  apply (call_spec _ _ _ _ n) in E; [|done]. destruct E as [(He & -> & ->)|(He & -> & ->)].
  - split; [apply frame_refl|]. split; [done|]. intros _ _. by split.
  - destruct (put_object n key (ne_body ne data) (ne_handler ne) cl) as [s cl2] eqn:Ep. simpl.
    destruct (put_object_spec _ _ _ _ _ _ _ Hk Ep) as (Hf & Hok & Hno). split; [done|]. split.
    + destruct (ne_answers ne); [|done]. rewrite send_status_ok, bool_decide_eq_true. intros Hs2.
      destruct (Hok Hs2) as [Hwh Hh]. by rewrite (Hw data Hwh) in Hh.
    + intros Hb [|(Ha & Hd & Hc)]; [congruence|]. apply Hno; [|done|apply Hc]. rewrite Ha, send_status_ok in Hb.
      by apply bool_decide_eq_false in Hb.
Qed.

Lemma source_frame self key P src cl cl' : hidden_name key = false -> frame key P cl cl' -> ~ P self ->
  source_data self key src cl' = source_data self key src cl.
Proof. intros Hk Hf Hn. destruct src; [done|]. simpl. apply (fr_copy _ _ _ _ Hf); [done|]. naive_solver. Qed.

Definition in_nodes (ps : list (bytes * bytes)) (n : bytes) : Prop := n ∈ ps.*1.

(** What the pushes resolved so far did. *)
Record pushes_done (key data : bytes) (quorum : nat) (pending pushed pushed' rest : list (bytes * bytes))
    (copies copies' : nat) (nets : bytes -> NetEnv) (cl cl' : Cluster) : Prop := {
  pd_frame : frame key (in_nodes pending) cl cl';
  pd_pushed : exists new, pushed' = pushed ++ new /\ new `sublist_of` pending /\ copies' = (copies + length new)%nat /\
    (forall n a, (n, a) ∈ new -> holds key data cl' n) /\
    ((copies' < quorum)%nat -> forall n a, (n, a) ∈ pending -> (n, a) ∉ new -> settled (nets n) -> unchanged key cl cl' n);
  pd_rest : (copies' < quorum)%nat -> rest = [];
}.

Lemma unchanged_before key m n cl cl1 cl2 : hidden_name key = false -> frame key (eq m) cl cl1 -> n <> m ->
  unchanged key cl1 cl2 n -> unchanged key cl cl2 n.
Proof.
  intros Hk Hf Hn [H1 H2]. split; [rewrite H1; apply (fr_copy _ _ _ _ Hf); [done|]|rewrite H2; apply (fr_row _ _ _ _ Hf)];
  intros [_ <-]; done.
Qed.
Lemma unchanged_after key P n cl cl1 cl2 : hidden_name key = false -> frame key P cl1 cl2 -> ~ P n ->
  unchanged key cl cl1 n -> unchanged key cl cl2 n.
Proof.
  intros Hk Hf Hn [H1 H2]. split; [rewrite <- H1; apply (fr_copy _ _ _ _ Hf); [done|]|rewrite <- H2; apply (fr_row _ _ _ _ Hf)];
  intros [_ ?]; done.
Qed.

Lemma push_until_spec self key src data nets quorum pending copies pushed cl copies' pushed' rest cl' :
  hidden_name key = false -> source_data self key src cl = Some data ->
  NoDup pending.*1 -> self ∉ pending.*1 ->
  (forall n a, (n, a) ∈ pending -> route a = Some n /\ whole_body (nets n)) ->
  push_until self key src nets quorum pending copies pushed cl = (copies', pushed', rest, cl') ->
  pushes_done key data quorum pending pushed pushed' rest copies copies' nets cl cl'.
Proof.
  intros Hk. revert copies pushed cl. induction pending as [|[n a] pending IH]; intros copies pushed cl Hs Hnd Hself Hp; simpl.
  - destruct (copies <? quorum)%nat; intros [= <- <- <- <-]; (split; [apply frame_refl| |done]);
    exists []; rewrite app_nil_r; (split; [done|]; split; [constructor|]; split; [simpl; lia|]; split; [intros ? ? Hin|intros ? ? ? Hin]; inversion Hin).
  - destruct (Nat.ltb_spec copies quorum) as [Hlt|Hge].
    2: { intros [= <- <- <- <-]. split; [apply frame_refl| |lia]. exists []. rewrite app_nil_r.
      split; [done|]. split; [apply sublist_nil_l|]. split; [simpl; lia|]. split; [intros ? ? H; inversion H|]. lia. }
    destruct (push self key src a (nets n) cl) as [ok cl1] eqn:E.
    destruct (Hp n a ltac:(apply elem_of_cons; by left)) as [Hra Hwb].
    destruct (push_spec _ _ _ _ n _ data _ _ _ Hk Hra Hs Hwb E) as (Hf1 & Hok & Hno).
    simpl in Hnd, Hself. apply NoDup_cons in Hnd as [Hni Hnd]. apply not_elem_of_cons in Hself as [Hsn Hself].
    assert (source_data self key src cl1 = Some data) as Hs1.
    { rewrite (source_frame _ _ _ _ _ _ Hk Hf1); [done|congruence]. }
    assert (forall m, eq n m -> in_nodes ((n, a) :: pending) m) as Hhd by (intros ? <-; left).
    assert (forall m, in_nodes pending m -> in_nodes ((n, a) :: pending) m) as Htl by (intros; by right).
    assert (forall n' a', (n', a') ∈ pending -> n' ∈ pending.*1) as Hin.
    { intros n' a' Hna. apply list_elem_of_fmap. by exists (n', a'). }
    assert (forall n' a', (n', a') ∈ pending -> n' <> n) as Hdiff by (intros n' a' Hna ->; by apply Hin in Hna).
    destruct ok.
    + intros Hgo. destruct (IH _ _ _ Hs1 Hnd Hself ltac:(intros; apply Hp, elem_of_cons; by right) Hgo) as [Hf2 (new & -> & Hsub & -> & Hh & Hu) Hrest].
      split; [exact (frame_trans _ _ _ _ _ (frame_mono _ _ _ _ _ Hhd Hf1) (frame_mono _ _ _ _ _ Htl Hf2))| |done].
      exists ((n, a) :: new). split; [by rewrite <- app_assoc|]. split; [by constructor|]. split; [simpl; lia|]. split.
      * intros n' a' [[= -> ->]|Hin']%elem_of_cons; [|by eapply Hh].
        apply (holds_frame _ (in_nodes pending) _ cl1); auto.
      * intros Hq n' a' [[= -> ->]|Hin']%elem_of_cons Hnn Hset; [exfalso; apply Hnn; left|].
        assert ((n', a') ∉ new) as Hnn' by (intros ?; apply Hnn; by right).
        apply (unchanged_before _ n _ _ cl1); eauto.
    + intros Hgo. destruct (IH _ _ _ Hs1 Hnd Hself ltac:(intros; apply Hp, elem_of_cons; by right) Hgo) as [Hf2 (new & -> & Hsub & -> & Hh & Hu) Hrest].
      split; [exact (frame_trans _ _ _ _ _ (frame_mono _ _ _ _ _ Hhd Hf1) (frame_mono _ _ _ _ _ Htl Hf2))| |done].
      exists new. split; [done|]. split; [by constructor|]. split; [done|]. split; [done|].
      intros Hq n' a' [[= -> ->]|Hin']%elem_of_cons Hnn Hset.
      * apply (unchanged_after _ (in_nodes pending) _ _ cl1); auto.
      * apply (unchanged_before _ n _ _ cl1); eauto.
Qed.

(** ** Lemmas: deletions *)

Lemma delete_copy_status node key e cl s cl' : delete_copy node key e cl = (s, cl') -> s <> S404 /\ s <> S409.
Proof.
  unfold delete_copy, delete_object. destruct (resolve (root cl node) key) as [p|err] eqn:E.
  - destruct (he_disk_fault e); [intros [= <- <-]; done|]. destruct (he_db e); intros [= <- <-]; done.
  - intros [= <- <-]. unfold resolve in E. destruct (negb _); [simplify_eq; done|]. destruct (_ && _); simplify_eq; done.
Qed.

Definition gone (key : bytes) (cl : Cluster) (n : bytes) : Prop := copy cl n key = None /\ row cl key n = None.

Lemma peer_delete_spec a key ne n cl r cl' : route a = Some n -> peer_delete a key ne cl = (r, cl') ->
  frame key (eq n) cl cl' /\ (is_ok r = true -> gone key cl' n) /\ (obeyed ne -> plain key cl -> gone key cl' n) /\
  (row cl' key n = row cl key n \/ row cl' key n = None).
Proof.
  intros Hr. unfold peer_delete. destruct (call _ _ _ _ _) as [r1 cl1] eqn:E. intros [= <- <-].
  apply (call_spec _ _ _ _ n) in E; [|done]. destruct E as [(He & -> & ->)|(He & -> & ->)].
  - split; [apply frame_refl|]. split; [done|]. split; [intros [? _]; congruence|by left].
  - destruct (delete_copy n key (ne_handler ne) cl) as [s cl2] eqn:Ed. simpl.
    destruct (delete_copy_spec _ _ _ _ _ _ Ed) as (Hf & _ & Hrow & Hs & Hob).
    destruct (delete_copy_status _ _ _ _ _ _ Ed) as [H4 H9].
    split; [done|]. split; [|split; [|done]].
    + intros Ho. apply Hs. destruct (ne_answers ne); [|done]. by destruct s.
    + intros (_ & Hfa & Hdb) Hp. by apply Hs, Hob, plain_resolve.
Qed.

Lemma gone_frame key P cl cl' n : hidden_name key = false -> frame key P cl cl' -> ~ P n ->
  gone key cl n -> gone key cl' n.
Proof.
  intros Hk Hf Hn [Hc Hr]. split; [rewrite (fr_copy _ _ _ _ Hf)|rewrite (fr_row _ _ _ _ Hf)]; auto; tauto.
Qed.

Lemma rollback_spec key nets pushed cl : hidden_name key = false -> plain key cl -> NoDup pushed.*1 ->
  (forall n a, (n, a) ∈ pushed -> route a = Some n /\ obeyed (nets n)) ->
  frame key (in_nodes pushed) cl (rollback key nets pushed cl) /\
  (forall n, in_nodes pushed n -> gone key (rollback key nets pushed cl) n).
Proof.
  intros Hk. revert cl. induction pushed as [|[n a] pushed IH]; intros cl Hpl Hnd Hp; simpl.
  - split; [apply frame_refl|]. intros n Hn. inversion Hn.
  - destruct (Hp n a ltac:(apply elem_of_cons; by left)) as [Hr Ho].
    destruct (peer_delete a key (nets n) cl) as [r cl1] eqn:E. simpl. simpl in Hnd. apply NoDup_cons in Hnd as [Hni Hnd].
    destruct (peer_delete_spec _ _ _ _ _ _ _ Hr E) as (Hf1 & _ & Hg & _).
    destruct (IH cl1 ltac:(by eapply plain_frame) Hnd ltac:(intros; apply Hp, elem_of_cons; by right)) as [Hf2 Hgs].
    split.
    + eapply frame_trans; eapply frame_mono; try eassumption; [intros ? <-; left|intros; by right].
    + intros m [->|Hm]%elem_of_cons; [|by apply Hgs]. eapply gone_frame; [done|exact Hf2|exact Hni|by apply Hg].
Qed.

(** ** Lemmas: the fan-out *)

(** A node is served at the address it registered. *)
Definition addresses_true (cl : Cluster) : Prop :=
  forall n r a, nodes (db cl) !! n = Some r -> nd_address r = Some a -> route a = Some n.

(** Pushes resolve in some order, and bodies are not altered on the way. *)
Definition transport (e : FanEnv) : Prop :=
  (forall l, fe_order e l ≡ₚ l) /\ forall n, whole_body (fe_push e n).

Lemma elem_of_reachable ts n a : (n, a) ∈ reachable ts <-> exists t, t ∈ ts /\ pn_id t = n /\ pn_address t = Some a.
Proof.
  unfold reachable. rewrite list_elem_of_omap. split.
  - intros (t & Ht & He). destruct (pn_address t) as [a'|] eqn:Ea; simplify_eq/=. by exists t.
  - intros (t & Ht & <- & Ha). exists t. by rewrite Ha.
Qed.

Lemma reachable_nodup ts : NoDup (pn_id <$> ts) -> NoDup (reachable ts).*1.
Proof.
  induction ts as [|t ts IH]; intros Hnd; [constructor|]. simpl in Hnd. apply NoDup_cons in Hnd as [Hni Hnd].
  unfold reachable. simpl. destruct (pn_address t) as [a|]; simpl; [|by apply IH].
  apply NoDup_cons. split; [|by apply IH]. intros ([n a'] & Hn & Hin)%list_elem_of_fmap. simpl in Hn. subst n.
  apply elem_of_reachable in Hin as (t' & Ht' & He & _). apply Hni. apply list_elem_of_fmap. by exists t'.
Qed.

(** The targets a write asks for. *)
Lemma write_targets_spec self count now d ts d' : write_targets [self] count now d = (ts, d') ->
  NoDup (pn_id <$> ts) /\ self ∉ pn_id <$> ts /\
  (forall t, t ∈ ts -> exists r, nodes d !! pn_id t = Some r /\ pn_address t = nd_address r) /\
  locations d' = locations d /\ nodes d' = nodes d /\ meta d' = meta d.
Proof.
  unfold write_targets. pose proof (replication_targets_ok d now LIVE_AFTER [self] (Z.of_nat count) false) as Hok.
  destruct (replication_targets _ _ _ _ _ _) as [rs d1]. destruct Hok as [[Hnd Hc _] Hd]. intros [= <- <-].
  rewrite <- list_fmap_compose. split; [exact Hnd|]. split; [|split; [|exact Hd]].
  - intros (r & -> & Hr)%list_elem_of_fmap. apply Hc, elem_of_candidates in Hr as (n & _ & _ & _ & Hex & _).
    apply Hex. simpl. left.
  - intros t (r & -> & Hr)%list_elem_of_fmap. apply Hc, elem_of_candidates in Hr as (n & Hn & -> & _). by exists n.
Qed.

(** The part of [fan_out] that follows the choice of targets. *)
Definition spread (b : Backend_) (key : bytes) (src : PushSource) (e : FanEnv) (ts : list PeerNode) (cl : Cluster)
    : StorageResult unit * Cluster * list (bytes * bytes) :=
  let '(copies, pushed, rest, cl1) :=
    push_until (node_id b) key src (fe_push e) (quorum_of b) (fe_order e (reachable ts)) 1 [] cl in
  if (quorum_of b <=? copies)%nat then (Ok tt, cl1, rest)
  else
    let '(_, st) := delete_object key (fe_local e) (root cl1 (node_id b)) in
    let cl2 := rollback key (fe_delete e) pushed (set_root (node_id b) st cl1) in
    (Err (Backend key), if fe_remove e then with_db (remove_object_locations key) cl2 else cl2, []).

Lemma fan_out_cases b key src e cl : fe_targets e = true \/ (replication_factor b <= 1)%nat ->
  exists ts cl1, fan_out b key src e cl = spread b key src e ts cl1 /\ frame key (fun _ => False) cl cl1 /\
    NoDup (pn_id <$> ts) /\ node_id b ∉ pn_id <$> ts /\
    (forall t, t ∈ ts -> exists r, nodes (db cl) !! pn_id t = Some r /\ pn_address t = nd_address r).
Proof.
  intros Ht. unfold fan_out. destruct (Nat.eqb_spec (replication_factor b - 1) 0) as [E|E].
  - exists [], cl. split; [done|]. split; [apply frame_refl|]. split; [constructor|]. split; [apply not_elem_of_nil|].
    intros t H. inversion H.
  - destruct Ht as [->|?]; [|lia]. destruct (write_targets _ _ _ _) as [ts d] eqn:Ew.
    destruct (write_targets_spec _ _ _ _ _ _ Ew) as (H1 & H2 & H3 & Hl & Hn & Hm).
    exists ts, (mkCluster d (roots cl)). split; [done|]. split; [|done].
    split; try done. intros n k _. unfold row. simpl. by rewrite Hl.
Qed.

(** The pushes of a fan-out, whatever their order. *)
Lemma spread_pushes b key src e ts data cl copies pushed rest cl1 :
  hidden_name key = false -> transport e -> source_data (node_id b) key src cl = Some data ->
  NoDup (pn_id <$> ts) -> node_id b ∉ pn_id <$> ts ->
  (forall n a, (n, a) ∈ reachable ts -> route a = Some n) ->
  push_until (node_id b) key src (fe_push e) (quorum_of b) (fe_order e (reachable ts)) 1 [] cl = (copies, pushed, rest, cl1) ->
  pushes_done key data (quorum_of b) (fe_order e (reachable ts)) [] pushed rest 1 copies (fe_push e) cl cl1 /\
  NoDup pushed.*1 /\ node_id b ∉ (fe_order e (reachable ts)).*1 /\
  (forall n a, (n, a) ∈ fe_order e (reachable ts) -> route a = Some n).
Proof.
  intros Hk [Hord Hwb] Hs Hnd Hself Hroute E.
  assert (forall n a, (n, a) ∈ fe_order e (reachable ts) -> route a = Some n) as Hr.
  { intros n a Hin. rewrite Hord in Hin. by apply Hroute. }
  assert (NoDup (fe_order e (reachable ts)).*1) as Hnd' by (rewrite Hord; by apply reachable_nodup).
  assert (node_id b ∉ (fe_order e (reachable ts)).*1) as Hself'.
  { rewrite Hord. intros ([n a] & Hn & (t & Ht & Hp & _)%elem_of_reachable)%list_elem_of_fmap. simpl in Hn. subst n.
    apply Hself. apply list_elem_of_fmap. by exists t. }
  pose proof (push_until_spec _ _ _ _ _ _ _ _ _ _ _ _ _ _ Hk Hs Hnd' Hself' ltac:(intros; split; auto) E) as Hpd.
  split; [exact Hpd|]. split; [|by split].
  destruct (pd_pushed _ _ _ _ _ _ _ _ _ _ _ _ Hpd) as (new & -> & Hsub & _). simpl.
  eapply sublist_NoDup; [exact Hnd'|]. by apply fmap_sublist.
Qed.

(** What a write that answers Ok guarantees. *)
Definition on_quorum (b : Backend_) (key data : bytes) (cl : Cluster) : Prop :=
  exists ns, NoDup ns /\ node_id b ∈ ns /\ (quorum_of b <= length ns)%nat /\ Forall (holds key data cl) ns.

Lemma spread_ok b key src e ts data cl cl' rest :
  hidden_name key = false -> transport e -> source_data (node_id b) key src cl = Some data ->
  NoDup (pn_id <$> ts) -> node_id b ∉ pn_id <$> ts -> (forall n a, (n, a) ∈ reachable ts -> route a = Some n) ->
  holds key data cl (node_id b) -> spread b key src e ts cl = (Ok tt, cl', rest) -> on_quorum b key data cl'.
Proof.
  intros Hk Ht Hs Hnd Hself Hroute Hh. unfold spread. destruct (push_until _ _ _ _ _ _ _ _ _) as [[[copies pushed] rest1] cl1] eqn:E.
  destruct (spread_pushes _ _ _ _ _ _ _ _ _ _ _ Hk Ht Hs Hnd Hself Hroute E) as (Hpd & Hndp & Hni & _).
  destruct (Nat.leb_spec (quorum_of b) copies) as [Hq|Hq]; [|by destruct (delete_object _ _ _)]. intros [= <- <-].
  destruct (pd_pushed _ _ _ _ _ _ _ _ _ _ _ _ Hpd) as (new & Hnew & Hsub & Hc & Hholds & _). simpl in Hnew. subst new.
  exists (node_id b :: pushed.*1). split.
  - apply NoDup_cons. split; [|done]. intros Hin. apply Hni.
    eapply elem_of_sublist; [exact Hin|]. by apply fmap_sublist.
  - split; [by left|]. split; [simpl; rewrite length_fmap; lia|]. constructor.
    + eapply holds_frame; [done|exact (pd_frame _ _ _ _ _ _ _ _ _ _ _ _ Hpd)|exact Hni|done].
    + apply Forall_forall. intros n ([n' a] & -> & Hin)%list_elem_of_fmap. by eapply Hholds.
Qed.

(** What a failed write must leave of its key: nothing. *)
Lemma spread_failed b key src e ts data cl err cl' rest :
  hidden_name key = false -> transport e -> source_data (node_id b) key src cl = Some data ->
  NoDup (pn_id <$> ts) -> node_id b ∉ pn_id <$> ts -> (forall n a, (n, a) ∈ reachable ts -> route a = Some n) ->
  plain key cl -> (forall n, settled (fe_push e n)) -> (forall n, obeyed (fe_delete e n)) ->
  fe_local e = false -> fe_remove e = true ->
  (forall n, n <> node_id b -> copy cl n key = None) ->
  spread b key src e ts cl = (Err err, cl', rest) ->
  (forall n, gone key cl' n) /\ frame key (fun _ => True) cl cl' /\ rest = [].
Proof.
  intros Hk Ht Hs Hnd Hself Hroute Hpl Hset Hob Hlo Hrm Hfresh. unfold spread. rewrite Hrm, Hlo.
  destruct (push_until _ _ _ _ _ _ _ _ _) as [[[copies pushed] rest1] cl1] eqn:E.
  destruct (spread_pushes _ _ _ _ _ _ _ _ _ _ _ Hk Ht Hs Hnd Hself Hroute E) as (Hpd & Hndp & Hni & Hr).
  destruct (Nat.leb_spec (quorum_of b) copies) as [Hq|Hq]; [done|].
  destruct (pd_pushed _ _ _ _ _ _ _ _ _ _ _ _ Hpd) as (new & Hnew & Hsub & Hc & _ & Hun). simpl in Hnew. subst new.
  pose proof (pd_frame _ _ _ _ _ _ _ _ _ _ _ _ Hpd) as Hf1. pose proof (plain_frame _ _ _ _ _ Hf1 Hpl) as Hpl1.
  destruct (delete_object key false (root cl1 (node_id b))) as [r st] eqn:Ed.
  destruct (delete_object_spec _ _ _ _ _ Ed) as (He & Ho & Hg & _ & Hok).
  pose proof (Hok eq_refl (plain_resolve _ _ _ Hpl1)) as ->.
  assert (frame key (eq (node_id b)) cl1 (set_root (node_id b) st cl1)) as Hf2 by (apply frame_root; auto).
  set (cl2 := set_root (node_id b) st cl1) in *.
  destruct (rollback_spec key (fe_delete e) pushed cl2 Hk (plain_frame _ _ _ _ _ Hf2 Hpl1) Hndp) as [Hf3 Hgs].
  { intros n a Hin. split; [|done]. by eapply Hr, elem_of_sublist. }
  set (cl3 := rollback _ _ _ _) in *. intros [= <- <- <-]. split; [|split; [|done]].
  - intros n. split; [|unfold row, with_db; simpl db; rewrite lookup_removed_all; by rewrite decide_True].
    change (copy (with_db ?f ?c) n key) with (copy c n key).
    destruct (decide (n ∈ pushed.*1)) as [Hin|Hnin]; [by apply Hgs|].
    rewrite (fr_copy _ _ _ _ Hf3) by (done || intros [_ ?]; done).
    destruct (decide (n = node_id b)) as [->|Hnb].
    + unfold copy, cl2. rewrite root_set, decide_True by done. by apply Hg.
    + rewrite (fr_copy _ _ _ _ Hf2) by (done || intros [_ ?]; congruence).
      destruct (decide (n ∈ (fe_order e (reachable ts)).*1)) as [Hp|Hnp].
      * apply list_elem_of_fmap in Hp as ([n' a] & -> & Hp).
        simpl in *. destruct (Hun Hq n' a Hp) as [-> _]; [|done|by apply Hfresh].
        intros Hx. apply Hnin. apply list_elem_of_fmap. by exists (n', a).
      * rewrite (fr_copy _ _ _ _ Hf1) by (done || intros [_ ?]; done). by apply Hfresh.
  - eapply frame_trans; [|apply frame_remove_all]. eapply frame_trans; [|eapply frame_mono; [done|exact Hf3]].
    eapply frame_trans; eapply frame_mono; try eassumption; done.
Qed.

(** The local copy and its row are there before the fan-out. *)
Lemma local_done self key data io n st sz now cl : hidden_name key = false ->
  wrote key data io n true (root cl self) st -> sz = blen data ->
  let cl0 := with_db (record_object_location key self sz now) (set_root self st cl) in
  frame key (eq self) cl cl0 /\ holds key data cl0 self.
Proof.
  intros Hk Hw -> cl0. split.
  - eapply frame_trans; [|apply frame_record]. apply frame_root; [apply (wr_escapes _ _ _ _ _ _ _ Hw)|].
    intros k Hv Hne. by apply (wr_other _ _ _ _ _ _ _ Hw).
  - split.
    + unfold copy. change (root cl0 self) with (root (set_root self st cl) self). rewrite root_set, decide_True by done.
      by apply (wr_ok _ _ _ _ _ _ _ Hw).
    + unfold row, cl0. simpl. rewrite lookup_upsert, decide_True by done. eexists. split; done.
Qed.

(** A local write whose row could not be recorded is taken back. *)
Lemma local_undone self key data io n ok st st' cl : plain key cl -> hidden_name key = false ->
  wrote key data io n ok (root cl self) st -> delete_object key false st = (Ok tt, st') ->
  frame key (eq self) cl (set_root self st' (set_root self st cl)) /\ copy (set_root self st' (set_root self st cl)) self key = None.
Proof.
  intros Hpl Hk Hw Hd. destruct (delete_object_spec _ _ _ _ _ Hd) as (He & Ho & Hg & _). split.
  - eapply frame_trans; [|apply frame_root]; [apply frame_root| |].
    + apply (wr_escapes _ _ _ _ _ _ _ Hw).
    + intros k Hv Hne. by apply (wr_other _ _ _ _ _ _ _ Hw).
    + by rewrite root_set, decide_True.
    + intros k Hv Hne. unfold copy. rewrite root_set, decide_True by done. by apply Ho.
  - unfold copy. rewrite root_set, decide_True by done. by apply Hg.
Qed.

Lemma plain_delete key cl self st : plain key cl -> fs_escapes st = fs_escapes (root cl self) ->
  exists st', delete_object key false st = (Ok tt, st').
Proof.
  intros [Hko He] Hes. unfold delete_object, resolve. rewrite Hko. simpl.
  rewrite (bool_decide_false (key ∈ fs_escapes st)) by (rewrite Hes; apply He). rewrite andb_false_r. by eexists.
Qed.

Lemma fan_out_targets b key src e cl : fan_out b key src e cl = (Err (Backend []), cl, []) \/
  fe_targets e = true \/ (replication_factor b <= 1)%nat.
Proof.
  unfold fan_out. destruct (Nat.eqb_spec (replication_factor b - 1) 0); [right; right; lia|].
  destruct (fe_targets e); auto.
Qed.

(** A fan-out from a state where the local copy is in place. *)
Lemma fan_out_ok b key src e data cl cl' rest : hidden_name key = false -> transport e -> addresses_true cl ->
  source_data (node_id b) key src cl = Some data -> holds key data cl (node_id b) ->
  fan_out b key src e cl = (Ok tt, cl', rest) -> on_quorum b key data cl'.
Proof.
  intros Hk Ht Ha Hs Hh E. destruct (fan_out_targets b key src e cl) as [Hx|Hx]; [congruence|].
  destruct (fan_out_cases b key src e cl Hx) as (ts & cl1 & E' & Hf & Hnd & Hself & Hts). rewrite E' in E.
  eapply (spread_ok b key src e ts data cl1 cl' rest); try eassumption.
  - rewrite (source_frame _ _ _ _ _ _ Hk Hf); tauto.
  - intros n a (t & Hin & <- & Hp)%elem_of_reachable. destruct (Hts t Hin) as (r & Hr & Hra). eapply Ha; [exact Hr|congruence].
  - eapply holds_frame; eauto.
Qed.

Lemma put_local b key chunks e cl : hidden_name key = false ->
  (exists err st, put b key chunks e cl = (Err err, set_root (node_id b) st cl, []) /\
     wrote key (concat chunks) (he_io (pu_local e)) (length (write_atomic_calls [] [] chunks)) false (root cl (node_id b)) st) \/
  (exists st, wrote key (concat chunks) (he_io (pu_local e)) (length (write_atomic_calls [] [] chunks)) true (root cl (node_id b)) st /\
     put b key chunks e cl =
       record_and_fan_out b key (blen (concat chunks)) (SrcBytes (concat chunks)) e (set_root (node_id b) st cl)).
Proof.
  intros Hk. unfold put. destruct (write_atomic _ _ _ _ _ _ _) as [r st] eqn:E.
  pose proof (write_atomic_wrote _ _ _ _ _ _ _ _ _ Hk E) as Hw. destruct r as [[]|err]; simpl in Hw.
  - right. by exists st.
  - left. by exists err, st.
Qed.

Lemma put_file_local b key data mtime fault e cl : hidden_name key = false ->
  (exists err cl', put_file b key data mtime fault e cl = (Err err, cl', [])) \/
  (exists st, wrote key data (he_io (pu_local e)) 3 true (root cl (node_id b)) st /\
     put_file b key data mtime fault e cl = record_and_fan_out b key (blen data) SrcFile e (set_root (node_id b) st cl)).
Proof.
  intros Hk. unfold put_file. destruct (Storage.put_file _ _ _ _ _ _ _ _) as [r st] eqn:E.
  pose proof (put_file_wrote _ _ _ _ _ _ _ _ _ _ Hk E) as Hw. destruct r as [[]|err]; simpl in Hw; [|left; by eexists _, _].
  rewrite root_set, decide_True by done. unfold Storage.size.
  destruct (lookup_file st key fault) as [f|err] eqn:El; simpl; [|left; by eexists _, _].
  right. exists st. split; [done|]. apply lookup_file_ok in El. pose proof (wr_ok _ _ _ _ _ _ _ Hw eq_refl) as Ho.
  unfold object in Ho. rewrite El in Ho. by simplify_eq/=.
Qed.

(** ** Properties: writes *)

(** [C2] A write that answers Ok is on a quorum: whatever order the pushes
    resolve in and whichever of them fail, at least the write quorum of distinct
    nodes, this one among them, hold the object byte for byte and have a row of
    its size; this holds of [put] and of [put_file]. *)
Theorem put_reaches_quorum b key e cl cl' rest :
  hidden_name key = false -> addresses_true cl -> transport (pu_fan e) ->
  (forall chunks, put b key chunks e cl = (Ok tt, cl', rest) -> on_quorum b key (concat chunks) cl') /\
  (forall data mtime fault, put_file b key data mtime fault e cl = (Ok tt, cl', rest) -> on_quorum b key data cl').
Proof.
  intros Hk Ha Ht.
  assert (forall data src io n st, wrote key data io n true (root cl (node_id b)) st ->
    (src = SrcBytes data \/ src = SrcFile) ->
    record_and_fan_out b key (blen data) src e (set_root (node_id b) st cl) = (Ok tt, cl', rest) -> on_quorum b key data cl') as Hgo.
  { intros data src io n st Hw Hsrc. unfold record_and_fan_out.
    destruct (he_db (pu_local e)); [|by destruct (delete_object _ _ _)]. intros E.
    destruct (local_done _ _ _ _ _ _ _ (he_now (pu_local e)) _ Hk Hw eq_refl) as [Hf Hh].
    eapply (fan_out_ok b key src (pu_fan e) data _ cl' rest Hk Ht); [| |exact Hh|exact E].
    - intros m r a Hr. rewrite (fr_nodes _ _ _ _ Hf) in Hr. by apply Ha.
    - destruct Hsrc as [->| ->]; [done|apply Hh]. }
  split.
  - intros chunks E. destruct (put_local b key chunks e cl Hk) as [(? & ? & E' & _)|(st & Hw & E')]; rewrite E' in E; [done|].
    exact (Hgo _ _ _ _ _ Hw (or_introl eq_refl) E).
  - intros data mtime fault E. destruct (put_file_local b key data mtime fault e cl Hk) as [(? & ? & E')|(st & Hw & E')]; rewrite E' in E; [done|].
    exact (Hgo _ _ _ _ _ Hw (or_intror eq_refl) E).
Qed.

(** A write short of its quorum leaves nothing: when the targets were found,
    a push that did not succeed left nothing on its target, and the deletions of
    the rollback are carried out, a failed [put] of a fresh key leaves no copy
    and no row of it on any node, and every other object where it was. *)
Theorem failed_put_leaves_nothing b key chunks e cl err cl' rest :
  hidden_name key = false -> plain key cl -> addresses_true cl -> transport (pu_fan e) ->
  fe_targets (pu_fan e) = true \/ (replication_factor b <= 1)%nat ->
  (forall n, settled (fe_push (pu_fan e) n)) -> (forall n, obeyed (fe_delete (pu_fan e) n)) ->
  fe_local (pu_fan e) = false -> fe_remove (pu_fan e) = true ->
  he_disk_fault (pu_local e) = false ->
  io_clean (he_io (pu_local e)) (length (write_atomic_calls [] [] chunks)) ->
  (forall n, gone key cl n) ->
  put b key chunks e cl = (Err err, cl', rest) ->
  (forall n, gone key cl' n) /\ frame key (fun _ => True) cl cl' /\ rest = [].
Proof.
  intros Hk Hpl Ha Ht Htg Hset Hob Hlo Hrm Hfa Hio Hfresh E.
  destruct (put_local b key chunks e cl Hk) as [(err' & st & E' & Hw)|(st & Hw & E')]; rewrite E' in E.
  - simplify_eq. assert (object st key = None) as Ho.
    { destruct (wr_err _ _ _ _ _ _ _ Hw eq_refl) as [->|[_ Hn]]; [apply Hfresh|contradiction]. }
    pose proof (wrote_frame _ _ _ _ _ _ _ _ Hw) as Hf. split; [|split; [|done]].
    + intros n. split; [|apply Hfresh]. unfold copy. rewrite root_set. case_decide; [done|apply Hfresh].
    + eapply frame_mono; [|exact Hf]. done.
  - destruct (local_done _ _ _ _ _ _ _ (he_now (pu_local e)) _ Hk Hw eq_refl) as [Hf Hh].
    unfold record_and_fan_out in E. destruct (he_db (pu_local e)).
    + set (cl0 := with_db _ _) in *. destruct (fan_out_cases b key (SrcBytes (concat chunks)) (pu_fan e) cl0 Htg) as (ts & cl1 & E1 & Hf1 & Hnd & Hself & Hts).
      rewrite E1 in E.
      destruct (spread_failed b key (SrcBytes (concat chunks)) (pu_fan e) ts (concat chunks) cl1 err cl' rest) as (Hg & Hf2 & Hr); auto.
      * intros n a (t & Hin & <- & Hp)%elem_of_reachable. destruct (Hts t Hin) as (r & Hr & Hra).
        rewrite (fr_nodes _ _ _ _ Hf) in Hr. eapply Ha; [exact Hr|congruence].
      * eapply plain_frame; [exact Hf1|]. by eapply plain_frame.
      * intros n Hn. rewrite (fr_copy _ _ _ _ Hf1) by (done || tauto). rewrite (fr_copy _ _ _ _ Hf) by (done || intros [_ ?]; congruence).
        apply Hfresh.
      * split; [exact Hg|]. split; [|done]. eapply frame_trans; [|exact Hf2].
        eapply frame_trans; eapply frame_mono; try eassumption; done.
    + rewrite Hfa, root_set, decide_True in E by done.
      destruct (plain_delete key cl (node_id b) st Hpl (wr_escapes _ _ _ _ _ _ _ Hw)) as [st' Ed]. rewrite Ed in E. simplify_eq.
      destruct (local_undone _ _ _ _ _ _ _ _ _ Hpl Hk Hw Ed) as [Hf' Hc].
      split; [|split; [|done]]; [|eapply frame_mono; [|exact Hf']; done].
      intros n. split; [|apply Hfresh]. destruct (decide (n = node_id b)) as [->|Hne]; [exact Hc|].
      rewrite (fr_copy _ _ _ _ Hf') by (done || intros [_ ?]; congruence). apply Hfresh.
Qed.

(** A metastore that fails the target query is not rolled back: the write
    answers an error and its copy and row stay on this node, so a retry and the
    readers find an object no caller was told is stored. *)
Theorem target_outage_leaves_copy b key chunks e cl cl' r rest :
  hidden_name key = false -> (1 < replication_factor b)%nat -> fe_targets (pu_fan e) = false ->
  he_io (pu_local e) = WriteOk -> he_db (pu_local e) = true -> resolve (root cl (node_id b)) key = Ok key ->
  put b key chunks e cl = (r, cl', rest) ->
  r = Err (Backend []) /\ holds key (concat chunks) cl' (node_id b).
Proof.
  intros Hk Hfac Hfe Hio Hdb Hr. unfold put. rewrite Hio.
  destruct (write_atomic key chunks _ _ WriteOk _ _) as [r' st] eqn:Ew.
  pose proof (write_atomic_wrote _ _ _ _ _ _ _ _ _ Hk Ew) as Hw.
  unfold write_atomic in Ew. rewrite Hr in Ew. simpl in Ew. injection Ew as <- _.
  unfold record_and_fan_out, fan_out. rewrite Hdb, Hfe. destruct (Nat.eqb_spec (replication_factor b - 1) 0); [lia|].
  intros [= <- <- <-]. split; [done|]. by apply (local_done _ _ _ _ _ _ _ (he_now (pu_local e)) _ Hk Hw eq_refl).
Qed.

(** ** Lemmas: reads *)

Lemma from_holders_ok {A} (ask : bytes -> bytes -> StorageResult A) hs last d : from_holders ask hs last = Ok d ->
  exists h a, h ∈ hs /\ pn_address h = Some a /\ ask (pn_id h) a = Ok d.
Proof.
  revert last. induction hs as [|h hs IH]; intros last; simpl; [done|].
  destruct (pn_address h) as [a|] eqn:Ea.
  - destruct (ask (pn_id h) a) as [d'|e] eqn:Ed.
    + intros [= ->]. exists h, a. split; [left|]. by split.
    + intros (h' & a' & Hin & Had & Hok)%IH. exists h', a'. split; [by right|]. by split.
  - intros (h' & a' & Hin & Had & Hok)%IH. exists h', a'. split; [by right|]. by split.
Qed.

Lemma from_holders_some {A} (ask : bytes -> bytes -> StorageResult A) hs last h a d :
  h ∈ hs -> pn_address h = Some a -> ask (pn_id h) a = Ok d -> is_ok (from_holders ask hs last) = true.
Proof.
  intros Hin Ha Hd. revert last. induction hs as [|h' hs IH]; intros last; [inversion Hin|]. simpl.
  apply elem_of_cons in Hin as [<-|Hin].
  - by rewrite Ha, Hd.
  - destruct (pn_address h') as [a'|]; [|by apply IH]. destruct (ask (pn_id h') a') as [d'|e]; [idtac|by apply IH]. reflexivity.
Qed.

Lemma storage_get_spec st key fault d : Storage.get st key fault = Ok d -> object st key = Some d.
Proof.
  unfold Storage.get. destruct (lookup_file st key fault) as [f|] eqn:E; simpl; [|done]. intros [= <-].
  apply lookup_file_ok in E. unfold object. by rewrite E.
Qed.

Lemma storage_get_ok key cl n d : plain key cl -> copy cl n key = Some d -> Storage.get (root cl n) key false = Ok d.
Proof.
  intros Hp Hc. unfold Storage.get, lookup_file. rewrite (plain_resolve _ _ _ Hp). simpl.
  unfold copy, object in Hc. destruct (fs_files (root cl n) !! key) as [f|]; simplify_eq/=. done.
Qed.

Lemma storage_get_miss key cl n : plain key cl -> copy cl n key = None -> Storage.get (root cl n) key false = Err (NotFound key).
Proof.
  intros Hp Hc. unfold Storage.get, lookup_file. rewrite (plain_resolve _ _ _ Hp). simpl.
  unfold copy, object in Hc. by destruct (fs_files (root cl n) !! key).
Qed.

Lemma peer_get_copy a key ne cl d : peer_get a key ne cl = Ok d -> exists n, route a = Some n /\ copy cl n key = Some d.
Proof.
  unfold peer_get. destruct (route a) as [n|]; [|done]. destruct (_ && _); [|done].
  destruct (Storage.get _ _ _) as [d'|e] eqn:E.
  - intros [= ->]. exists n. split; [done|]. by eapply storage_get_spec.
  - by destruct (send_status _ _).
Qed.

(** A node that can serve a read: live, on record, reachable, its disk works. *)
Record serves (key : bytes) (now : Z) (nets : bytes -> NetEnv) (cl : Cluster) (n : bytes) : Prop := {
  sv_node : exists r a, nodes (db cl) !! n = Some r /\ live now LIVE_AFTER r /\ nd_address r = Some a /\ route a = Some n;
  sv_row : is_Some (row cl key n);
  sv_net : ne_reaches (nets n) = true /\ ne_answers (nets n) = true /\ he_disk_fault (ne_handler (nets n)) = false;
}.

Lemma elem_of_live_holders d key now s r : r ∈ live_holders_of d key now s <->
  exists n, nodes d !! id r = Some n /\ r = to_record now (id r) n /\ is_Some (locations d !! (key, id r)) /\ live now s n.
Proof.
  unfold live_holders_of, node_list. rewrite list_elem_of_fmap. split.
  - intros ([i n] & -> & Hin). apply list_elem_of_filter in Hin as [[Hl Hv] Hin].
    rewrite merge_sort_Permutation, elem_of_map_to_list in Hin. by exists n.
  - intros (n & Hn & Hr & Hl & Hv). exists (id r, n). split; [done|]. apply list_elem_of_filter. split; [done|].
    by rewrite merge_sort_Permutation, elem_of_map_to_list.
Qed.

Lemma serves_holder b key now nets cl n : serves key now nets cl n -> n <> node_id b ->
  exists h a, h ∈ remote_holders b key now cl /\ pn_id h = n /\ pn_address h = Some a /\ route a = Some n.
Proof.
  intros [(r & a & Hn & Hl & Ha & Hr) Hrow _] Hne. exists (mkPeer n (Some a)), a.
  split; [|done]. unfold remote_holders, live_holders. apply list_elem_of_filter. split; [done|].
  apply list_elem_of_fmap. exists (to_record now n r). split; [unfold to_peer; simpl; by rewrite Ha|].
  apply elem_of_live_holders. simpl. by exists r.
Qed.

(** ** Properties: reads and deletion *)

(** A read is served by any copy: when the copies of an object agree, what
    [get] answers is that object, and it does answer when the local disk works
    and the copy is here or on some live node on record that can be reached,
    whichever other holders fail. *)
Theorem get_from_any_copy b key holders_db fault now nets cl data :
  (forall n d, copy cl n key = Some d -> d = data) ->
  (forall d, get b key fault holders_db now nets cl = Ok d -> d = data) /\
  (fault = false -> holders_db = true -> plain key cl ->
   (exists n, copy cl n key = Some data /\ (n = node_id b \/ serves key now nets cl n)) ->
   get b key fault holders_db now nets cl = Ok data).
Proof.
  intros Hall. assert (forall d, get b key fault holders_db now nets cl = Ok d -> d = data) as Hsafe.
  { intros d. unfold get, read_through. destruct (Storage.get _ _ _) as [d'|e] eqn:E.
    - intros [= ->]. by eapply Hall, storage_get_spec.
    - destruct e; try done. destruct holders_db; [|done]. intros (h & a & _ & _ & Hg)%from_holders_ok.
      destruct (peer_get_copy _ _ _ _ _ Hg) as (n & _ & Hc). by eapply Hall. }
  split; [exact Hsafe|]. intros -> -> Hp (n & Hc & Hn).
  assert (is_ok (get b key false true now nets cl) = true) as Hok.
  { unfold get, read_through. destruct (copy cl (node_id b) key) as [d|] eqn:El.
    - by rewrite (storage_get_ok _ _ _ _ Hp El).
    - rewrite (storage_get_miss _ _ _ Hp El). destruct Hn as [->|Hs]; [congruence|].
      destruct (decide (n = node_id b)) as [->|Hne]; [congruence|].
      destruct (serves_holder b _ _ _ _ _ Hs Hne) as (h & a & Hin & Hid & Ha & Hr).
      eapply from_holders_some; [exact Hin|exact Ha|]. destruct Hs as [_ _ (H1 & H2 & H3)].
      unfold peer_get. rewrite Hr, Hid, H1, H2, H3. simpl. rewrite (storage_get_ok _ _ _ _ Hp Hc). done. }
  destruct (get _ _ _ _ _ _ _) as [d|] eqn:E; [|done]. by rewrite (Hsafe d eq_refl).
Qed.

Lemma delete_on_spec key nets hs cl : hidden_name key = false -> plain key cl ->
  (forall h a, h ∈ hs -> pn_address h = Some a -> route a = Some (pn_id h)) ->
  frame key (fun n => n ∈ pn_id <$> hs) cl (delete_on key nets hs cl) /\
  (forall n, copy cl n key = None -> copy (delete_on key nets hs cl) n key = None) /\
  (forall h a, h ∈ hs -> pn_address h = Some a -> obeyed (nets (pn_id h)) -> copy (delete_on key nets hs cl) (pn_id h) key = None).
Proof.
  intros Hk. revert cl. induction hs as [|h hs IH]; intros cl Hp Hr; simpl.
  - split; [apply frame_refl|]. split; [done|]. intros h a Hin. inversion Hin.
  - destruct (pn_address h) as [a|] eqn:Ea.
    + destruct (peer_delete a key (nets (pn_id h)) cl) as [r cl1] eqn:E. simpl.
      destruct (peer_delete_spec _ _ _ _ _ _ _ (Hr h a ltac:(left) Ea) E) as (Hf & _ & Hg & _).
      assert (forall n, copy cl n key = None -> copy cl1 n key = None) as Hkeep.
      { intros n Hn. unfold peer_delete in E. destruct (call _ _ _ _ _) as [r1 c1] eqn:Ec. injection E as _ <-.
        apply (call_spec _ _ _ _ (pn_id h)) in Ec; [|apply Hr; [left|done]].
        destruct Ec as [(_ & _ & ->)|(_ & -> & _)]; [done|].
        destruct (delete_copy (pn_id h) key (ne_handler (nets (pn_id h))) cl) as [s c2] eqn:Ed. simpl.
        destruct (delete_copy_spec _ _ _ _ _ _ Ed) as (Hf2 & Hc2 & _).
        destruct (decide (n = pn_id h)) as [->|Hne]; [destruct Hc2; congruence|].
        rewrite (fr_copy _ _ _ _ Hf2); [done|done|]. intros [_ ?]. congruence. }
      destruct (IH cl1 ltac:(by eapply plain_frame) ltac:(intros; apply Hr; [by right|done])) as (Hf2 & Hn2 & Hg2).
      split; [|split].
      * eapply frame_trans; eapply frame_mono; try eassumption; [intros ? <-; left|intros; by right].
      * intros n Hn. by apply Hn2, Hkeep.
      * intros h' a' [->|Hin]%elem_of_cons Ha' Hob; [|by eapply Hg2]. by apply Hn2, Hg.
    + destruct (IH cl Hp ltac:(intros; apply Hr; [by right|done])) as (Hf2 & Hn2 & Hg2). split; [|split; [done|]].
      * eapply frame_mono; [|exact Hf2]. intros; by right.
      * intros h' a' [->|Hin]%elem_of_cons Ha' Hob; [congruence|]. by eapply Hg2.
Qed.

(** A deletion that answers Ok removes the object: no row of it is left, nor
    a copy on this node or on any live holder that carried the request out; a
    copy can survive only where the request did not arrive or failed, and there
    it is off the record, so no read finds it. *)
Theorem delete_leaves_no_row b key holders_db fault remove_db now nets cl cl' :
  hidden_name key = false -> plain key cl -> addresses_true cl ->
  delete b key holders_db fault remove_db now nets cl = (Ok tt, cl') ->
  (forall n, row cl' key n = None) /\ copy cl' (node_id b) key = None /\
  (forall n r a, nodes (db cl) !! n = Some r -> nd_address r = Some a -> live now LIVE_AFTER r ->
     is_Some (row cl key n) -> obeyed (nets n) -> copy cl' n key = None) /\
  frame key (fun _ => True) cl cl'.
Proof.
  intros Hk Hp Ha. unfold delete. destruct holders_db; [|done].
  set (hs := remote_holders b key now cl). set (cl1 := delete_on key nets hs cl).
  assert (forall h a, h ∈ hs -> pn_address h = Some a -> route a = Some (pn_id h)) as Hr.
  { intros h a [_ (r & -> & Hin)%list_elem_of_fmap]%list_elem_of_filter Had.
    apply elem_of_live_holders in Hin as (n & Hn & Hrn & _). eapply Ha; [exact Hn|]. by rewrite Hrn in Had. }
  destruct (delete_on_spec key nets hs cl Hk Hp Hr) as (Hf & Hn & Hg). fold cl1 in Hf, Hn, Hg.
  destruct (delete_object key fault (root cl1 (node_id b))) as [r st] eqn:Ed.
  destruct (delete_object_spec _ _ _ _ _ Ed) as (He & Ho & Hgo & _). destruct r as [[]|]; [|done].
  destruct remove_db; [|done]. intros [= <-].
  assert (frame key (eq (node_id b)) cl1 (set_root (node_id b) st cl1)) as Hf2 by (apply frame_root; auto).
  assert (forall n, copy cl1 n key = None -> copy (set_root (node_id b) st cl1) n key = None) as Hkeep.
  { intros n Hc. unfold copy. rewrite root_set. case_decide; [by apply Hgo|done]. }
  split; [intros n; unfold row, with_db; simpl db; rewrite lookup_removed_all; by rewrite decide_True|].
  change (copy (with_db ?f ?c)) with (copy c). split; [unfold copy; rewrite root_set, decide_True by done; by apply Hgo|].
  assert (frame key (fun _ => True) cl (set_root (node_id b) st cl1)) as Hf3.
  { eapply frame_trans; eapply frame_mono; try eassumption; done. }
  split; [|eapply frame_trans; [exact Hf3|apply frame_remove_all]].
  intros n r a Hnr Har Hl Hrow Hob. destruct (decide (n = node_id b)) as [->|Hne].
  { unfold copy. rewrite root_set, decide_True by done. by apply Hgo. }
  apply Hkeep. apply (Hg (mkPeer n (Some a)) a); [|done|done]. unfold hs, remote_holders, live_holders.
  apply list_elem_of_filter. split; [done|]. apply list_elem_of_fmap. exists (to_record now n r).
  split; [unfold to_peer; simpl; by rewrite Har|]. apply elem_of_live_holders. simpl. by exists r.
Qed.
(** ** Lemmas: copying from a holder *)

Lemma peer_get_none a key ne n cl d : route a = Some n -> peer_get a key ne cl = Ok d -> copy cl n key = Some d.
Proof. intros Hr Hg. destruct (peer_get_copy _ _ _ _ _ Hg) as (n' & Hn' & Hc). congruence. Qed.

Lemma replicate_spec node key source src re cl s cl' : hidden_name key = false -> route source = Some src ->
  whole_body (re_pull re) -> replicate node key source re cl = (s, cl') ->
  frame key (eq node) cl cl' /\ (is_Some (row cl key node) -> is_Some (row cl' key node)) /\
  (s = S200 -> is_Some (row cl' key node) /\ exists d, copy cl src key = Some d /\ copy cl' node key = Some d).
Proof.
  intros Hk Hr Hw. unfold replicate. destruct (re_list re); simpl; [|intros [= <- <-]; split; [apply frame_refl|done]].
  destruct (bool_decide _); simpl; [|intros [= <- <-]; split; [apply frame_refl|done]].
  unfold download_to. destruct (peer_get source key (re_pull re) cl) as [d|err] eqn:Eg.
  2: { intros [= <- <-]. split; [apply frame_refl|]. split; [done|]. by destruct err. }
  apply (peer_get_none _ _ _ _ _ _ Hr) in Eg.
  destruct (put_stream _ _ _ _ _ _ _) as [r st] eqn:Ep. pose proof (put_stream_wrote _ _ _ _ _ _ _ _ _ Hk Ep) as [Hwr Hn].
  pose proof (wrote_frame _ _ _ _ _ _ _ _ Hwr) as Hf. set (cl1 := set_root node st cl) in *.
  destruct r as [sz|err]; [|intros [= <- <-]; split; [done|]; split; [done|]; by destruct err].
  destruct (Hn sz eq_refl) as [Hwh ->]. destruct (he_db _); cbn [negb]; [|intros [= <- <-]; split; [done|]; split; [done|done]].
  unfold record_object_location_if_known. destruct (located (db cl1) key) eqn:El.
  - cbv beta iota zeta. intros [= <- <-]. set (sz := blen _).
    change (mkCluster _ _) with (with_db (record_object_location key node sz (he_now (ne_handler (re_net re)))) cl1).
    assert (is_Some (row (with_db (record_object_location key node sz (he_now (ne_handler (re_net re)))) cl1) key node)) as Hrow.
    { unfold row. simpl. rewrite lookup_upsert, decide_True by done. by eexists. }
    split; [eapply frame_trans; [exact Hf|apply frame_record]|]. split; [by intros _|]. intros _. split; [exact Hrow|].
    exists d. split; [done|]. change (copy cl1 node key = Some d). unfold copy, cl1. rewrite root_set, decide_True by done.
    rewrite (wr_ok _ _ _ _ _ _ _ Hwr eq_refl). by rewrite (Hw d Hwh).
  - cbv beta iota zeta. destruct (delete_object key _ (root _ node)) as [r' st'] eqn:Ed. intros [= <- <-].
    destruct (delete_object_spec _ _ _ _ _ Ed) as (He & Ho & _).
    split; [|split; [done|done]]. eapply frame_trans; [exact Hf|].
    change (frame key (eq node) cl1 (set_root node st' cl1)). apply frame_root; [exact He|]. intros k _ Hne. by apply Ho.
Qed.

Lemma peer_replicate_spec a node key source src re cl r cl' : hidden_name key = false -> route a = Some node -> route source = Some src ->
  whole_body (re_pull re) -> peer_replicate a key source re cl = (r, cl') ->
  frame key (eq node) cl cl' /\ (is_Some (row cl key node) -> is_Some (row cl' key node)) /\
  (is_ok r = true -> is_Some (row cl' key node) /\ exists d, copy cl src key = Some d /\ copy cl' node key = Some d).
Proof.
  intros Hk Ha Hr Hw E. apply (call_spec _ _ _ _ node) in E; [|done]. destruct E as [(_ & -> & ->)|(_ & -> & ->)].
  - split; [apply frame_refl|]. done.
  - destruct (replicate node key source re cl) as [s cl2] eqn:Es. simpl.
    destruct (replicate_spec _ _ _ _ _ _ _ _ Hk Hr Hw Es) as (Hf & Hm & Ho). split; [done|]. split; [done|].
    destruct (ne_answers _); [|done]. rewrite send_status_ok, bool_decide_eq_true. exact Ho.
Qed.

(** What a sequence of pulls did: the targets that have the copy now. *)
Record copied (key : bytes) (src : bytes) (ts : list NodeRecord) (n : nat) (cl cl' : Cluster) : Prop := {
  cp_frame : frame key (fun m => m ∈ id <$> ts) cl cl';
  cp_rows m : is_Some (row cl key m) -> is_Some (row cl' key m);
  cp_done : exists done_, done_ `sublist_of` ts /\ length done_ = n /\
    forall t, t ∈ done_ -> is_Some (row cl' key (id t)) /\ exists d, copy cl src key = Some d /\ copy cl' (id t) key = Some d;
}.

Lemma copy_to_spec key source src repl ts cl n cl' : hidden_name key = false -> route source = Some src ->
  (forall m, whole_body (re_pull (repl m))) -> NoDup (id <$> ts) -> src ∉ id <$> ts ->
  (forall t a, t ∈ ts -> address t = Some a -> route a = Some (id t)) ->
  copy_to key source repl ts cl = (n, cl') -> copied key src ts n cl cl'.
Proof.
  intros Hk Hr Hw. revert cl n cl'. induction ts as [|t ts IH]; intros cl n cl' Hnd Hsrc Ha; simpl.
  - intros [= <- <-]. split; [apply frame_refl|done|]. exists []. split; [constructor|]. split; [done|]. intros t Ht. inversion Ht.
  - simpl in Hnd, Hsrc. apply NoDup_cons in Hnd as [Hni Hnd]. apply not_elem_of_cons in Hsrc as [Hst Hsrc].
    assert (forall m, m ∈ id <$> ts -> m ∈ id <$> t :: ts) as Htl by (intros; by right).
    destruct (address t) as [a|] eqn:Ea.
    2: { intros E. destruct (IH _ _ _ Hnd Hsrc ltac:(intros; apply Ha; [by right|done]) E) as [Hf Hm (dn & Hs & Hl & Hd)].
      split; [eapply frame_mono; [exact Htl|exact Hf]|done|]. exists dn. split; [by constructor|done]. }
    destruct (peer_replicate a key source (repl (id t)) cl) as [r cl1] eqn:Ep.
    destruct (copy_to key source repl ts cl1) as [n1 cl2] eqn:Ec. intros [= <- <-].
    destruct (peer_replicate_spec _ (id t) _ _ src _ _ _ _ Hk (Ha t a ltac:(left) Ea) Hr (Hw _) Ep) as (Hf1 & Hm1 & Ho1).
    destruct (IH _ _ _ Hnd Hsrc ltac:(intros; apply Ha; [by right|done]) Ec) as [Hf2 Hm2 (dn & Hs & Hl & Hd)].
    assert (copy cl1 src key = copy cl src key) as Hsc by (apply (fr_copy _ _ _ _ Hf1); [done|intros [_ ?]; congruence]).
    split.
    + eapply frame_trans; [|eapply frame_mono; [exact Htl|exact Hf2]]. eapply frame_mono; [|exact Hf1]. intros ? <-. left.
    + intros m Hm. apply Hm2. destruct (decide (m = id t)) as [->|Hne]; [by apply Hm1|].
      rewrite (fr_row _ _ _ _ Hf1); [done|]. intros [_ ?]; congruence.
    + destruct (is_ok r) eqn:Eo.
      * exists (t :: dn). split; [by constructor|]. split; [simpl; by rewrite Hl|]. intros t' [->|Ht']%elem_of_cons.
        -- destruct (Ho1 eq_refl) as [Hrw (d & Hd1 & Hd2)]. split; [by apply Hm2|]. exists d. split; [done|].
           rewrite (fr_copy _ _ _ _ Hf2); [done|done|tauto].
        -- rewrite <- Hsc. by apply Hd.
      * exists dn. split; [by constructor|]. split; [done|]. intros t' Ht'. rewrite <- Hsc. by apply Hd.
Qed.

(** *** The holders of a key, and the targets of its new copies *)

Lemma live_holders_nodup d key now s : NoDup (id <$> live_holders_of d key now s).
Proof.
  unfold live_holders_of. rewrite <- list_fmap_compose.
  change (id ∘ (fun p => to_record now p.1 p.2)) with (fst : bytes * NodeRow -> bytes).
  eapply sublist_NoDup; [|apply fmap_sublist, sublist_filter].
  assert (node_list d ≡ₚ map_to_list (nodes d)) as -> by apply merge_sort_Permutation. apply NoDup_fst_map_to_list.
Qed.

Lemma live_holder_row cl key now h : h ∈ live_holders_of (db cl) key now LIVE_AFTER ->
  is_Some (row cl key (id h)) /\ exists r, nodes (db cl) !! id h = Some r /\ address h = nd_address r /\
    draining h = nd_draining r /\ live now LIVE_AFTER r.
Proof. intros (n & Hn & Hr & Hl & Hv)%elem_of_live_holders. split; [done|]. exists n. by rewrite Hr. Qed.

Lemma first_address_spec hs a : first_address hs = Some a -> exists h, h ∈ hs /\ address h = Some a.
Proof.
  unfold first_address. intros H. apply head_Some_elem_of in H. apply list_elem_of_omap in H. exact H.
Qed.

Lemma target_node cl now ex lim b rs t : targets_ok (db cl) now LIVE_AFTER ex lim b rs -> t ∈ rs ->
  id t ∉ ex /\ exists r, nodes (db cl) !! id t = Some r /\ address t = nd_address r /\
    live now LIVE_AFTER r /\ (nd_draining r = false \/ b = true).
Proof.
  intros Hok Ht. apply (to_cand _ _ _ _ _ _ _ Hok), elem_of_candidates in Ht as (n & Hn & Hr & Hl & He & Hd).
  split; [done|]. exists n. by rewrite Hr.
Qed.

(** A key's source: some live holder, other than any target. *)
Lemma source_holder cl key now source : addresses_true cl ->
  first_address (live_holders_of (db cl) key now LIVE_AFTER) = Some source ->
  exists src, route source = Some src /\ src ∈ id <$> live_holders_of (db cl) key now LIVE_AFTER /\ is_Some (row cl key src).
Proof.
  intros Ha (h & Hh & Had)%first_address_spec. destruct (live_holder_row _ _ _ _ Hh) as (Hr & r & Hn & Hadr & _).
  exists (id h). split; [eapply Ha; [exact Hn|congruence]|]. split; [|done]. apply list_elem_of_fmap. by exists h.
Qed.

Lemma copy_targets key source src repl now ex lim b ts cl d n cl' : hidden_name key = false -> addresses_true cl ->
  route source = Some src -> src ∈ ex -> (forall m, whole_body (re_pull (repl m))) ->
  replication_targets now LIVE_AFTER ex lim b (db cl) = (ts, d) ->
  copy_to key source repl ts (mkCluster d (roots cl)) = (n, cl') ->
  targets_ok (db cl) now LIVE_AFTER ex lim b ts /\ copied key src ts n cl cl'.
Proof.
  intros Hk Ha Hr Hsrc Hw Et Ec. pose proof (replication_targets_ok (db cl) now LIVE_AFTER ex lim b) as Hok.
  rewrite Et in Hok. destruct Hok as (Hok & Hl & Hn & Hm). split; [exact Hok|].
  destruct (copy_to_spec key source src repl ts (mkCluster d (roots cl)) n cl') as [Hf Hrw Hd]; auto.
  - apply (to_nodup _ _ _ _ _ _ _ Hok).
  - intros (t & -> & Ht)%list_elem_of_fmap. by destruct (target_node _ _ _ _ _ _ _ Hok Ht).
  - intros t a Ht Hta. destruct (target_node _ _ _ _ _ _ _ Hok Ht) as (_ & r & Hnr & Hra & _). eapply Ha; [exact Hnr|congruence].
  - split; [|intros m Hsm; apply Hrw; unfold row; simpl; by rewrite Hl|exact Hd].
    destruct Hf as [f1 f2 f3 f4 f5]. split; [rewrite f1; exact Hn|rewrite f2; exact Hm|done|done|].
    intros m k Hne. rewrite f5 by done. unfold row. simpl. by rewrite Hl.
Qed.

(** Nodes that stay and hold the object, on record. *)
Definition keeps (key : bytes) (now : Z) (cl : Cluster) (n : bytes) : Prop :=
  is_Some (row cl key n) /\ exists r, nodes (db cl) !! n = Some r /\ nd_draining r = false /\ live now LIVE_AFTER r.

Lemma keeps_frame key P now cl cl' n : frame key P cl cl' -> (is_Some (row cl key n) -> is_Some (row cl' key n)) ->
  keeps key now cl n -> keeps key now cl' n.
Proof. intros Hf Hr [H1 H2]. split; [by apply Hr|]. by rewrite (fr_nodes _ _ _ _ Hf). Qed.

(** The end of a drain: the node's copy goes, on record at least. *)
Lemma drain_finish node key e cl ok cl' : hidden_name key = false ->
  (forall a, address node = Some a -> route a = Some (id node)) ->
  (let '(deleted, cl1) :=
     match address node with
     | Some a => let '(r, cl1) := peer_delete a key (le_delete e) cl in (is_ok r, cl1)
     | None => (false, cl)
     end in
   if deleted : bool then (Ok true, cl1)
   else if le_remove e then (Ok true, with_db (remove_object_location key (id node)) cl1) else (Err tt, cl1)) = (Ok (E := unit) ok, cl') ->
  ok = true /\ frame key (eq (id node)) cl cl' /\ row cl' key (id node) = None.
Proof.
  intros Hk Ha.
  assert (forall c, frame key (eq (id node)) cl c -> (if le_remove e then (Ok true, with_db (remove_object_location key (id node)) c) else (Err tt, c)) = (Ok (E := unit) ok, cl') ->
    ok = true /\ frame key (eq (id node)) cl cl' /\ row cl' key (id node) = None) as Hrm.
  { intros c Hf. destruct (le_remove e); [|done]. intros [= <- <-]. split; [done|].
    split; [eapply frame_trans; [exact Hf|apply frame_remove]|]. unfold row. simpl. apply lookup_delete_eq. }
  destruct (address node) as [a|]; [|by apply Hrm, frame_refl].
  destruct (peer_delete a key (le_delete e) cl) as [r cl1] eqn:Ed.
  destruct (peer_delete_spec _ _ _ _ _ _ _ (Ha a eq_refl) Ed) as (Hf & Hg & _).
  destruct (is_ok r); [|by apply Hrm]. intros [= <- <-]. split; [done|]. split; [done|]. by apply Hg.
Qed.

(** Enough nodes keep the object, and the drained one does not hold it. *)
Definition drained (node key : bytes) (factor : nat) (now : Z) (cl cl' : Cluster) : Prop :=
  exists ns, NoDup ns /\ (factor <= length ns)%nat /\ node ∉ ns /\ Forall (keeps key now cl') ns /\ row cl' key node = None /\
    (forall data, (forall n, is_Some (row cl key n) -> copy cl n key = Some data) -> Forall (fun n => copy cl' n key = Some data) ns).

Lemma drain_end node r key factor now cl c cl' ns : hidden_name key = false ->
  nodes (db cl) !! node = Some r -> nd_draining r = true -> nodes (db c) = nodes (db cl) ->
  frame key (eq node) c cl' -> row cl' key node = None -> NoDup ns -> (factor <= length ns)%nat -> Forall (keeps key now c) ns ->
  (forall data, (forall n, is_Some (row cl key n) -> copy cl n key = Some data) -> Forall (fun n => copy c n key = Some data) ns) ->
  drained node key factor now cl cl'.
Proof.
  intros Hk Hn Hdr Hnn Hf Hrn Hnd Hlen Hkp Hcp. assert (node ∉ ns) as Hni.
  { intros Hin. rewrite Forall_forall in Hkp. destruct (Hkp _ Hin) as [_ (rr & H1 & H2 & _)]. rewrite Hnn in H1. congruence. }
  exists ns. do 3 (split; [done|]). split; [|split; [done|]].
  - rewrite Forall_forall in Hkp. apply Forall_forall. intros n Hin. eapply keeps_frame; [exact Hf| |by apply Hkp].
    rewrite (fr_row _ _ _ _ Hf); [done|]. intros [_ <-]. contradiction.
  - intros data Hall. specialize (Hcp data Hall). apply Forall_forall. intros n Hin. rewrite Forall_forall in Hcp.
    rewrite (fr_copy _ _ _ _ Hf); [by apply Hcp|done|]. intros [_ <-]. contradiction.
Qed.

(** The holders that stay, and those that just got a copy. *)
Lemma staying_holders cl key now : let hs := filter (fun h => draining h = false) (live_holders_of (db cl) key now LIVE_AFTER) in
  NoDup (id <$> hs) /\ (forall n, n ∈ id <$> hs -> keeps key now cl n) /\
  (forall n, n ∈ id <$> hs -> n ∈ id <$> live_holders_of (db cl) key now LIVE_AFTER).
Proof.
  intros hs. assert (hs `sublist_of` live_holders_of (db cl) key now LIVE_AFTER) as Hs by apply sublist_filter.
  split; [eapply sublist_NoDup; [apply live_holders_nodup|by apply fmap_sublist]|]. split.
  - intros n (h & -> & [Hd Hh]%list_elem_of_filter)%list_elem_of_fmap.
    destruct (live_holder_row _ _ _ _ Hh) as (Hr & r & H1 & _ & H3 & H4). split; [done|]. exists r. by rewrite <- H3.
  - intros n Hin. eapply elem_of_sublist; [exact Hin|by apply fmap_sublist].
Qed.

Lemma moved_holders cl cl1 key src now ts n (hs : list NodeRecord) lim : hidden_name key = false ->
  targets_ok (db cl) now LIVE_AFTER (id <$> live_holders_of (db cl) key now LIVE_AFTER) lim false ts ->
  copied key src ts n cl cl1 -> src ∈ id <$> live_holders_of (db cl) key now LIVE_AFTER -> is_Some (row cl key src) ->
  hs = filter (fun h => draining h = false) (live_holders_of (db cl) key now LIVE_AFTER) ->
  exists ns, NoDup ns /\ length ns = (length hs + n)%nat /\ Forall (keeps key now cl1) ns /\
    (forall data, (forall m, is_Some (row cl key m) -> copy cl m key = Some data) -> Forall (fun m => copy cl1 m key = Some data) ns).
Proof.
  intros Hk Hok [Hf Hm (dn & Hs & Hl & Hd)] Hsrc Hrow ->.
  destruct (staying_holders cl key now) as (Hnd & Hkeep & Hin0). set (hs := filter _ _) in *.
  assert (forall t, t ∈ dn -> t ∈ ts) as Hsub by (intros t Ht; by eapply elem_of_sublist).
  assert (forall m, m ∈ id <$> hs -> m ∉ id <$> ts) as Hdisj.
  { intros m Hin (t & -> & Ht)%list_elem_of_fmap. destruct (target_node _ _ _ _ _ _ _ Hok Ht) as [Hex _]. by apply Hex, Hin0. }
  exists ((id <$> hs) ++ (id <$> dn)). split; [|split; [|split]].
  - apply NoDup_app. split; [done|]. split.
    + intros m Hin (t & -> & Ht)%list_elem_of_fmap. apply (Hdisj _ Hin). apply list_elem_of_fmap. exists t. auto.
    + eapply sublist_NoDup; [apply (to_nodup _ _ _ _ _ _ _ Hok)|]. by apply fmap_sublist.
  - rewrite length_app, !length_fmap. lia.
  - apply Forall_app. split; apply Forall_forall; intros m Hin.
    + eapply keeps_frame; [exact Hf|apply Hm|by apply Hkeep].
    + apply list_elem_of_fmap in Hin as (t & -> & Ht). split; [by apply Hd|].
      destruct (target_node _ _ _ _ _ _ _ Hok (Hsub t Ht)) as (_ & r & H1 & _ & H3 & [H4|H4]); [|done].
      exists r. by rewrite (fr_nodes _ _ _ _ Hf).
  - intros data Hall. apply Forall_app. split; apply Forall_forall; intros m Hin.
    + rewrite (fr_copy _ _ _ _ Hf); [apply Hall, Hkeep, Hin|done|]. intros [_ ?]. by apply (Hdisj m).
    + apply list_elem_of_fmap in Hin as (t & -> & Ht). destruct (Hd t Ht) as [_ (d & H1 & ->)]. by rewrite <- (Hall src Hrow).
Qed.

(** ** Properties: drain and repair *)

(** [C19] Draining never lowers an object below its factor: when [drain_one]
    answers true for a draining node, at least the replication factor of other
    registered, live, non-draining nodes are on record for the object and the
    drained node is not; and where every row had its copy before, each of those
    nodes has the copy. *)
Theorem drain_keeps_factor node r factor key e cl cl' :
  hidden_name key = false -> addresses_true cl -> (forall m, whole_body (re_pull (le_repl e m))) ->
  nodes (db cl) !! id node = Some r -> address node = nd_address r -> nd_draining r = true ->
  drain_one node factor key e cl = (Ok true, cl') ->
  drained (id node) key factor (le_now e) cl cl'.
Proof.
  intros Hk Ha Hw Hn Had Hdr. unfold drain_one. destruct (le_holders e); simpl; [|done].
  destruct (first_address (live_holders_of _ _ _ _)) as [source|] eqn:Es; [|done].
  destruct (source_holder cl key (le_now e) source Ha Es) as (src & Hr & Hsrc & Hrow).
  assert (forall a, address node = Some a -> route a = Some (id node)) as Haddr by (intros a Hna; eapply Ha; [exact Hn|congruence]).
  destruct (staying_holders cl key (le_now e)) as (Hnd & Hkeep & _).
  set (hs := filter _ (live_holders_of (db cl) key (le_now e) LIVE_AFTER)) in *.
  destruct (Nat.ltb_spec (length hs) factor) as [Hlt|Hge].
  - destruct (le_targets e); simpl; [|done]. destruct (replication_targets _ _ _ _ _ _) as [ts d] eqn:Et.
    destruct (copy_to _ _ _ _ _) as [moved cl1] eqn:Ec.
    destruct (copy_targets _ _ _ _ _ _ _ _ _ _ _ _ _ Hk Ha Hr Hsrc Hw Et Ec) as (Hok & Hcp).
    destruct (Nat.leb_spec factor (length hs + moved)) as [Hfac|]; [|done].
    intros (_ & Hf2 & Hrn)%drain_finish; [|done|done].
    destruct (moved_holders _ _ _ _ _ _ _ hs _ Hk Hok Hcp Hsrc Hrow eq_refl) as (ns & H1 & H2 & H3 & H4).
    eapply (drain_end _ r _ _ _ cl cl1 cl' ns); try done; [apply (cp_frame _ _ _ _ _ _ Hcp)|lia].
  - destruct (Nat.leb_spec factor (length hs)) as [Hfac|]; [|lia].
    intros (_ & Hf2 & Hrn)%drain_finish; [|done|done].
    eapply (drain_end _ r _ _ _ cl cl cl' (id <$> hs)); try done.
    + by rewrite length_fmap.
    + by apply Forall_forall.
    + intros data Hall. apply Forall_forall. intros m Hin. by apply Hall, Hkeep.
Qed.

(** A pull that works end to end. *)
Record repl_works (re : ReplEnv) : Prop := {
  rw_net : ne_reaches (re_net re) = true /\ ne_answers (re_net re) = true /\ re_list re = true;
  rw_node : he_io (ne_handler (re_net re)) = WriteOk /\ he_db (ne_handler (re_net re)) = true;
  rw_pull : ne_reaches (re_pull re) = true /\ ne_answers (re_pull re) = true /\ he_disk_fault (ne_handler (re_pull re)) = false;
  rw_body data : (stream_chunks (ne_body (re_pull re) data)).2 = true /\ concat (stream_chunks (ne_body (re_pull re) data)).1 = data;
}.

(** Some node a pull of the key can read from, registered at [source]. *)
Record readable_at (key source src data : bytes) (cl : Cluster) : Prop := {
  ra_plain : plain key cl;
  ra_route : route source = Some src;
  ra_node : exists m r, nodes (db cl) !! m = Some r /\ nd_address r = Some source;
  ra_row : is_Some (row cl key src);
  ra_copy : copy cl src key = Some data;
}.

Lemma readable_frame key source src data P cl cl' : hidden_name key = false -> frame key P cl cl' -> ~ P src ->
  readable_at key source src data cl -> readable_at key source src data cl'.
Proof.
  intros Hk Hf Hn [H1 H2 H3 H4 H5]. split; [by eapply plain_frame|done| | |].
  - by rewrite (fr_nodes _ _ _ _ Hf).
  - rewrite (fr_row _ _ _ _ Hf); [done|tauto].
  - rewrite (fr_copy _ _ _ _ Hf); [done|done|tauto].
Qed.

Lemma peer_replicate_works a n key source src data re cl : hidden_name key = false -> route a = Some n ->
  readable_at key source src data cl -> repl_works re -> is_ok (peer_replicate a key source re cl).1 = true.
Proof.
  intros Hk Ha [Hp Hr (m & r & Hm & Hadr) Hrow Hc] [(N1 & N2 & N3) [H1 H2] (P1 & P2 & P3) Hb].
  unfold peer_replicate, call. rewrite Ha, N1. unfold replicate. rewrite N3. cbn [negb].
  rewrite bool_decide_true.
  2: { apply Exists_exists. exists (to_record (he_now (ne_handler (re_net re))) m r). split; [|done].
    unfold list_nodes, node_list. apply list_elem_of_fmap. exists (m, r). split; [done|].
    by rewrite merge_sort_Permutation, elem_of_map_to_list. }
  cbn [negb]. unfold download_to, peer_get. rewrite Hr, P1, P2, P3. cbn [andb]. rewrite (storage_get_ok _ _ _ _ Hp Hc).
  destruct (Hb data) as [Hb1 Hb2].
  destruct (put_stream _ _ _ _ _ _ _) as [rs st] eqn:Ep.
  assert (is_ok rs = true) as Hok.
  { unfold put_stream in Ep. rewrite (plain_resolve _ _ _ Hp), H1 in Ep.
    destruct (stream_chunks _) as [cs whole]. simpl in Hb1. subst whole. by simplify_eq/=. }
  destruct rs as [sz|]; [|done]. rewrite H2. cbn [negb]. unfold record_object_location_if_known.
  assert (located (db (set_root n st cl)) key = true) as -> by (apply located_spec; by exists src).
  cbv beta iota zeta. rewrite N2. done.
Qed.

Lemma copy_to_works key source src data repl ts cl : hidden_name key = false -> readable_at key source src data cl ->
  (forall m, repl_works (repl m)) -> NoDup (id <$> ts) -> src ∉ id <$> ts ->
  (forall t, t ∈ ts -> exists a, address t = Some a /\ route a = Some (id t)) ->
  (copy_to key source repl ts cl).1 = length ts.
Proof.
  intros Hk Hra Hw. revert cl Hra. induction ts as [|t ts IH]; intros cl Hra Hnd Hsrc Ha; [done|]. simpl.
  simpl in Hnd, Hsrc. apply NoDup_cons in Hnd as [Hni Hnd]. apply not_elem_of_cons in Hsrc as [Hst Hsrc].
  destruct (Ha t ltac:(left)) as (a & -> & Hr).
  pose proof (peer_replicate_works a (id t) key source src data (repl (id t)) cl Hk Hr Hra (Hw _)) as Hok.
  destruct (peer_replicate a key source (repl (id t)) cl) as [r cl1] eqn:Ep. simpl in Hok.
  destruct (peer_replicate_spec _ (id t) _ _ src _ _ _ _ Hk Hr (ra_route _ _ _ _ _ Hra)
    (fun d _ => proj2 (rw_body _ (Hw (id t)) d)) Ep) as (Hf & _).
  specialize (IH cl1 ltac:(eapply readable_frame; [done|exact Hf|congruence|done]) Hnd Hsrc ltac:(intros; apply Ha; by right)).
  destruct (copy_to key source repl ts cl1) as [n cl2]. simpl in IH. subst n. by rewrite Hok.
Qed.

(** *** Counting live holders *)

Lemma live_count_ge d now s key ns : NoDup ns ->
  (forall n, n ∈ ns -> is_Some (locations d !! (key, n)) /\ exists r, nodes d !! n = Some r /\ live now s r) ->
  Z.of_nat (length ns) <= live_count d now s key.
Proof.
  intros Hnd Hns. unfold live_count. apply Nat2Z.inj_le.
  rewrite <- (length_fmap fst (filter _ (map_to_list (nodes d)))). apply submseteq_length, NoDup_submseteq; [done|].
  intros n Hn. destruct (Hns n Hn) as (Hl & r & Hr & Hv). apply list_elem_of_fmap. exists (n, r). split; [done|].
  apply list_elem_of_filter. split; [done|]. by apply elem_of_map_to_list.
Qed.

(** When targets run short every live node not excluded is one of them. *)
Lemma targets_all d now s ex lim b ts : targets_ok d now s ex lim b ts -> Z.of_nat (length ts) < Z.max 0 lim ->
  forall r, r ∈ candidates d now s ex b -> r ∈ ts.
Proof.
  intros Hok Hlt r Hr. assert (length ts = length (candidates d now s ex b)) as Hlen by (pose proof (to_len _ _ _ _ _ _ _ Hok); lia).
  assert (NoDup ts) as Hnt by (eapply NoDup_fmap_1; apply (to_nodup _ _ _ _ _ _ _ Hok)).
  assert (ts ⊆+ candidates d now s ex b) as Hsub by (apply NoDup_submseteq; [done|]; intros x Hx; by apply (to_cand _ _ _ _ _ _ _ Hok)).
  assert (ts ≡ₚ candidates d now s ex b) as Hp by (apply submseteq_length_Permutation; [done|lia]).
  by rewrite Hp.
Qed.

Definition live_ids (d : ClusterDb) (now : Z) : list bytes := id <$> live_nodes d now LIVE_AFTER.

Lemma elem_of_live_ids d now n : n ∈ live_ids d now <-> exists r, nodes d !! n = Some r /\ live now LIVE_AFTER r.
Proof.
  unfold live_ids, live_nodes, node_list. rewrite <- list_fmap_compose, list_elem_of_fmap. split.
  - intros ([i r] & -> & [Hl Hin]%list_elem_of_filter). rewrite merge_sort_Permutation, elem_of_map_to_list in Hin. by exists r.
  - intros (r & Hr & Hl). exists (n, r). split; [done|]. apply list_elem_of_filter. split; [done|].
    by rewrite merge_sort_Permutation, elem_of_map_to_list.
Qed.

Lemma live_ids_nodup d now : NoDup (live_ids d now).
Proof.
  unfold live_ids, live_nodes. rewrite <- list_fmap_compose.
  change (id ∘ (fun p => to_record now p.1 p.2)) with (fst : bytes * NodeRow -> bytes).
  eapply sublist_NoDup; [|apply fmap_sublist, sublist_filter].
  assert (node_list d ≡ₚ map_to_list (nodes d)) as -> by apply merge_sort_Permutation. apply NoDup_fst_map_to_list.
Qed.

(** Holders, first targets and fallback targets: disjoint, and enough. *)
Lemma enough_targets d d1 key now factor ts more :
  let hs := live_holders_of d key now LIVE_AFTER in
  nodes d1 = nodes d -> (length hs < factor)%nat ->
  targets_ok d now LIVE_AFTER (id <$> hs) (Z.of_nat (factor - length hs)) false ts ->
  (if decide (length ts < factor - length hs)%nat
   then targets_ok d1 now LIVE_AFTER ((id <$> hs) ++ (id <$> ts)) (Z.of_nat (factor - length hs - length ts)) true more
   else more = []) ->
  NoDup ((id <$> hs) ++ (id <$> (ts ++ more))) /\
  (Nat.min factor (length (live_ids d now)) <= length hs + length (ts ++ more))%nat.
Proof.
  intros hs Hn Hlt Hok Hmore. pose proof (live_holders_nodup d key now LIVE_AFTER) as Hnh. fold hs in Hnh.
  assert (forall t, t ∈ ts -> id t ∉ id <$> hs) as Hdt.
  { intros t Ht. apply (to_cand _ _ _ _ _ _ _ Hok), elem_of_candidates in Ht as (n & _ & _ & _ & He & _). done. }
  assert (forall t, t ∈ more -> id t ∉ (id <$> hs) ++ (id <$> ts)) as Hdm.
  { intros t Ht. case_decide; [|subst; inversion Ht].
    apply (to_cand _ _ _ _ _ _ _ Hmore), elem_of_candidates in Ht as (n & _ & _ & _ & He & _). done. }
  assert (NoDup (id <$> more)) as Hnm by (case_decide; [apply (to_nodup _ _ _ _ _ _ _ Hmore)|subst; constructor]).
  split.
  - rewrite fmap_app, app_assoc. apply NoDup_app. split; [|split; [|done]].
    + apply NoDup_app. split; [done|]. split; [|apply (to_nodup _ _ _ _ _ _ _ Hok)].
      intros n Hin (t & -> & Ht)%list_elem_of_fmap. by apply (Hdt t).
    + intros n Hin (t & -> & Ht)%list_elem_of_fmap. by apply (Hdm t).
  - rewrite length_app. case_decide as Hd; [|lia].
    destruct (decide (Z.of_nat (length more) < Z.max 0 (Z.of_nat (factor - length hs - length ts)))) as [Hs|Hs]; [|lia].
    pose proof (targets_all _ _ _ _ _ _ _ Hmore Hs) as Hall.
    assert (live_ids d now ⊆+ (id <$> hs) ++ (id <$> ts) ++ (id <$> more)) as Hsub.
    { apply NoDup_submseteq; [apply live_ids_nodup|]. intros n (r & Hr & Hv)%elem_of_live_ids.
      rewrite app_assoc, elem_of_app. destruct (decide (n ∈ (id <$> hs) ++ (id <$> ts))) as [|Hni]; [by left|right].
      apply list_elem_of_fmap. exists (to_record now n r). split; [done|]. apply Hall, elem_of_candidates. simpl.
      exists r. rewrite Hn. repeat split; auto. }
    apply submseteq_length in Hsub. rewrite !length_app, !length_fmap in Hsub. lia.
Qed.

Lemma repair_done key source src data now repl ts cl cl1 : hidden_name key = false ->
  addresses_true cl -> (forall n r, nodes (db cl) !! n = Some r -> live now LIVE_AFTER r -> is_Some (nd_address r)) ->
  let hs := live_holders_of (db cl) key now LIVE_AFTER in
  (forall n, repl_works (repl n)) -> readable_at key source src data cl -> src ∈ id <$> hs ->
  (forall n, is_Some (row cl key n) -> copy cl n key = Some data) ->
  roots cl1 = roots cl -> locations (db cl1) = locations (db cl) -> nodes (db cl1) = nodes (db cl) -> meta (db cl1) = meta (db cl) ->
  NoDup ((id <$> hs) ++ (id <$> ts)) ->
  (forall t, t ∈ ts -> exists r, nodes (db cl) !! id t = Some r /\ address t = nd_address r /\ live now LIVE_AFTER r) ->
  let cl' := (copy_to key source repl ts cl1).2 in
  Z.of_nat (length hs + length ts) <= live_count (db cl') now LIVE_AFTER key /\
  (forall n, is_Some (row cl' key n) -> copy cl' n key = Some data) /\ frame key (fun n => n ∈ id <$> ts) cl cl'.
Proof.
  intros Hk Ha Hadr hs Hw Hra Hsrc Hall Hro Hlo Hno Hme Hnd Hts cl'.
  apply NoDup_app in Hnd as (Hnh & Hdisj & Hnt).
  assert (frame key (fun _ => False) cl cl1) as Hf0.
  { split; try done; unfold root, copy, row; intros; try by rewrite Hro. - unfold root. by rewrite Hro. - by rewrite Hlo. }
  assert (readable_at key source src data cl1) as Hra1 by (eapply readable_frame; [done|exact Hf0|tauto|done]).
  assert (forall t, t ∈ ts -> exists a, address t = Some a /\ route a = Some (id t)) as Hta.
  { intros t Ht. destruct (Hts t Ht) as (r & Hr & He & Hl). destruct (Hadr _ _ Hr Hl) as [a Hra']. exists a.
    split; [congruence|]. by eapply Ha. }
  assert (src ∉ id <$> ts) as Hsn by (by apply Hdisj).
  pose proof (copy_to_works key source src data repl ts cl1 Hk Hra1 Hw Hnt Hsn Hta) as Hlen.
  destruct (copy_to key source repl ts cl1) as [n cl2] eqn:Ec. simpl in Hlen, cl'. subst n cl'.
  destruct (copy_to_spec _ _ src _ _ _ _ _ Hk (ra_route _ _ _ _ _ Hra) (fun m d _ => proj2 (rw_body _ (Hw m) d)) Hnt Hsn
    (fun t a Ht Hta' => ltac:(destruct (Hta t Ht) as (a' & H1 & H2); congruence)) Ec) as [Hf Hm (dn & Hs & Hl & Hd)].
  assert (dn ≡ₚ ts) as Hp by (apply submseteq_length_Permutation; [by apply sublist_submseteq|lia]).
  assert (frame key (fun n => n ∈ id <$> ts) cl cl2) as Hf1.
  { eapply frame_trans; [|exact Hf]. eapply frame_mono; [|exact Hf0]. done. }
  assert (forall n, is_Some (row cl key n) -> is_Some (row cl2 key n)) as Hm1 by (intros n Hn; apply Hm; unfold row in *; by rewrite Hlo).
  assert (forall t, t ∈ ts -> is_Some (row cl2 key (id t)) /\ copy cl2 (id t) key = Some data) as Hd1.
  { intros t Ht. rewrite <- Hp in Ht. destruct (Hd t Ht) as [H1 (d & H2 & ->)]. split; [done|].
    by rewrite (ra_copy _ _ _ _ _ Hra1) in H2. }
  split; [|split; [|exact Hf1]].
  - replace (length hs + length ts)%nat with (length ((id <$> hs) ++ (id <$> ts))) by (by rewrite length_app, !length_fmap).
    apply live_count_ge; [by apply NoDup_app|]. intros n [Hin|Hin]%elem_of_app; apply list_elem_of_fmap in Hin as (t & -> & Ht).
    + destruct (live_holder_row _ _ _ _ Ht) as (Hr & r & H1 & _ & _ & H4). split; [by apply Hm1|]. exists r.
      by rewrite (fr_nodes _ _ _ _ Hf1).
    + destruct (Hts t Ht) as (r & H1 & _ & H3). split; [by apply Hd1|]. exists r. by rewrite (fr_nodes _ _ _ _ Hf1).
  - intros n Hn. destruct (decide (n ∈ id <$> ts)) as [Hin|Hni].
    + apply list_elem_of_fmap in Hin as (t & -> & Ht). by apply Hd1.
    + rewrite (fr_copy _ _ _ _ Hf1); [|done|tauto]. apply Hall. by rewrite (fr_row _ _ _ _ Hf1) in Hn by tauto.
Qed.

(** [C39] A repair that works restores the factor: when some live node holds the
    object, every row has its copy, live nodes have addresses and the pulls
    succeed, [repair_one] leaves as many live holders as the replication factor
    (or as there are live nodes, if fewer, draining ones as a last resort), and
    every row, the new ones included, has its copy. *)
Theorem repair_restores_factor factor key e cl data :
  hidden_name key = false -> plain key cl -> addresses_true cl ->
  le_holders e = true -> le_targets e = true -> le_fallback e = true -> (forall n, repl_works (le_repl e n)) ->
  (forall n r, nodes (db cl) !! n = Some r -> live (le_now e) LIVE_AFTER r -> is_Some (nd_address r)) ->
  (forall n, is_Some (row cl key n) -> copy cl n key = Some data) ->
  live_holders_of (db cl) key (le_now e) LIVE_AFTER <> [] ->
  exists cl', repair_one factor key e cl = (Ok tt, cl') /\
    Z.of_nat (Nat.min factor (length (live_ids (db cl) (le_now e)))) <= live_count (db cl') (le_now e) LIVE_AFTER key /\
    (forall n, is_Some (row cl' key n) -> copy cl' n key = Some data).
Proof.
  intros Hk Hp Ha Hh Ht Hfb Hw Hadr Hall Hne. unfold repair_one. rewrite Hh, Ht, Hfb. cbn [negb].
  set (now := le_now e) in *. set (hs := live_holders_of (db cl) key now LIVE_AFTER) in *.
  assert (is_Some (first_address hs)) as [source Es].
  { destruct hs as [|h hs'] eqn:E; [done|]. destruct (live_holder_row cl key now h) as (_ & r & H1 & H2 & _ & H4).
    { fold hs. rewrite E. left. }
    destruct (Hadr _ _ H1 H4) as [a Hna]. unfold first_address. simpl. rewrite H2, Hna. by eexists. }
  rewrite Es. destruct (source_holder cl key now source Ha Es) as (src & Hr & Hsrc & Hrow). fold hs in Hsrc.
  assert (readable_at key source src data cl) as Hra.
  { split; auto. apply first_address_spec in Es as (h & Hin & Hsa). destruct (live_holder_row _ _ _ _ Hin) as (_ & r & H1 & H2 & _).
    exists (id h), r. split; [done|congruence]. }
  assert (forall n, n ∈ id <$> hs -> is_Some (row cl key n) /\ exists r, nodes (db cl) !! n = Some r /\ live now LIVE_AFTER r) as Hhs.
  { intros n (h & -> & Hin)%list_elem_of_fmap. destruct (live_holder_row _ _ _ _ Hin) as (H1 & r & H2 & _ & _ & H4). split; [done|]. by exists r. }
  destruct (Nat.eqb_spec (factor - length hs) 0) as [E0|Hmiss].
  { exists cl. split; [done|]. split; [|done]. etrans; [|apply (live_count_ge _ _ _ _ (id <$> hs)); [apply live_holders_nodup|exact Hhs]].
    rewrite length_fmap. lia. }
  assert (length hs < factor)%nat as Hlt by lia.
  pose proof (replication_targets_ok (db cl) now LIVE_AFTER (id <$> hs) (Z.of_nat (factor - length hs)) false) as Hok.
  destruct (replication_targets now LIVE_AFTER (id <$> hs) (Z.of_nat (factor - length hs)) false (db cl)) as [ts d] eqn:Et.
  destruct Hok as (Hok & Hl & Hn & Hm).
  assert (forall t, t ∈ ts -> exists r, nodes (db cl) !! id t = Some r /\ address t = nd_address r /\ live now LIVE_AFTER r) as Hts.
  { intros t Hin. destruct (target_node _ _ _ _ _ _ _ Hok Hin) as (_ & r & H1 & H2 & H3 & _). by exists r. }
  destruct (Nat.ltb_spec (length ts) (factor - length hs)) as [Hs|Hs].
  - simpl db. pose proof (replication_targets_ok d now LIVE_AFTER ((id <$> hs) ++ (id <$> ts)) (Z.of_nat (factor - length hs - length ts)) true) as Hok2.
    destruct (replication_targets now LIVE_AFTER ((id <$> hs) ++ (id <$> ts)) _ true d) as [more d2] eqn:Et2.
    destruct Hok2 as (Hok2 & Hl2 & Hn2 & Hm2).
    destruct (enough_targets (db cl) d key now factor ts more Hn Hlt Hok) as [Hnd Hen]; [by rewrite decide_True|].
    destruct (repair_done key source src data now (le_repl e) (ts ++ more) cl (mkCluster d2 (roots cl)) Hk Ha Hadr Hw Hra Hsrc Hall eq_refl)
      as (H1 & H2 & _); simpl; try congruence.
    + intros t [Hin|Hin]%elem_of_app; [by apply Hts|].
      apply (to_cand _ _ _ _ _ _ _ Hok2), elem_of_candidates in Hin as (r & Hr1 & Hr2 & Hr3 & _). exists r. rewrite <- Hn. split; [exact Hr1|]. split; [by rewrite Hr2|exact Hr3].
    + eexists. split; [reflexivity|]. fold hs in H1, Hen. split; [eapply Z.le_trans; [|exact H1]; lia|exact H2].
  - destruct (enough_targets (db cl) d key now factor ts [] Hn Hlt Hok) as [Hnd Hen]; [fold hs; rewrite decide_False by lia; done|].
    rewrite app_nil_r in Hnd, Hen.
    destruct (repair_done key source src data now (le_repl e) ts cl (mkCluster d (roots cl)) Hk Ha Hadr Hw Hra Hsrc Hall eq_refl)
      as (H1 & H2 & _); simpl; try congruence; [exact Hts|].
    eexists. split; [reflexivity|]. fold hs in H1, Hen. split; [eapply Z.le_trans; [|exact H1]; lia|exact H2].
Qed.

(** A repair scan whose query fails is not retried: the job records the
    node set and the time before it asks for the keys, so when a node died and
    that one query failed, every tick of the next five minutes that sees the
    same nodes answers Ok without looking. *)
Theorem failed_scan_is_not_retried factor stale e scan cl :
  rp_nodes e = true -> rp_under e = false -> last_found_work scan = false ->
  live_set stale (rp_now e) cl <> last_live scan ->
  exists scan', repair_job factor stale e scan cl = (Err tt, scan', cl) /\
    forall e' cl', rp_nodes e' = true -> rp_clock e <= rp_clock e' < rp_clock e + REPAIR_FULL_SCAN ->
      live_set stale (rp_now e') cl' = live_set stale (rp_now e) cl ->
      repair_job factor stale e' scan' cl' = (Ok tt, scan', cl').
Proof.
  intros Hn Hu Hw Hl. unfold repair_job at 1. rewrite Hn, Hu, (bool_decide_false _ Hl). simpl. eexists. split; [done|].
  intros e' cl' Hn' Hc Hl'. unfold repair_job. rewrite Hn'. simpl. rewrite bool_decide_true by done. rewrite Hw.
  destruct (Z.leb_spec REPAIR_FULL_SCAN (rp_clock e' - rp_clock e)); [lia|]. done.
Qed.

End cluster.

(** ** Witnesses *)

Lemma outcome_eta {A B C} (p : A * B * C) a : p.1.1 = a -> p = (a, p.1.2, p.2).
Proof. by destruct p as [[? ?] ?]; intros <-. Qed.
Lemma pair_eta {A B} (p : A * B) a : p.1 = a -> p = (a, p.2).
Proof. by destruct p; intros <-. Qed.

Definition demo_route (a : bytes) : option bytes := match a with x40 :: n => Some n | _ => None end.
Definition demo_handler : HandlerEnv := mkHandler WriteOk 1 2 false true 50 110000.
Definition demo_net : NetEnv := mkNet true true (fun d => [Some d]) demo_handler.
Definition demo_fan (targets : bool) : FanEnv := mkFan targets (fun l => l) (fun _ => demo_net) false (fun _ => demo_net) true 110000.
Definition demo_put (targets : bool) : PutEnv := mkPut demo_handler (demo_fan targets).
Definition demo_backend (quorum : nat) : Backend_ := mkBackend (str "n1") 3 quorum.
Definition demo_lead : LeadEnv := mkLead true true true 110000 (fun _ => mkRepl demo_net true demo_net) demo_net true.

Lemma demo_addresses ns hs : addresses_true demo_route (demo_cluster ns hs).
Proof. intros n r a Hn. simpl in Hn. apply demo_nodes_lookup in Hn. subst r. by intros [= <-]. Qed.

Lemma demo_transport t : transport (demo_fan t).
Proof. split; [done|]. intros n d _. simpl. by rewrite app_nil_r. Qed.

Lemma put_reaches_quorum_witness :
  let p := put demo_route (demo_backend 2) demo_key [demo_data] (demo_put true) (demo_cluster [n1; n2; n3] []) in
  on_quorum (demo_backend 2) demo_key demo_data p.1.2.
Proof.
  intros p. assert (p.1.1 = Ok tt) as E by (vm_compute; reflexivity).
  apply (proj1 (put_reaches_quorum demo_route (demo_backend 2) demo_key (demo_put true) (demo_cluster [n1; n2; n3] []) p.1.2 p.2
    eq_refl (demo_addresses _ _) (demo_transport _)) [demo_data]). exact (outcome_eta p (Ok tt) E).
Defined.

Lemma failed_put_leaves_nothing_witness :
  let p := put demo_route (demo_backend 3) demo_key [demo_data] (demo_put true) (demo_cluster [n1; n2] []) in
  p.1.1 = Err (Backend demo_key) /\ forall n, gone demo_key p.1.2 n.
Proof.
  intros p. assert (p.1.1 = Err (Backend demo_key)) as E by (vm_compute; reflexivity). split; [exact E|].
  apply (failed_put_leaves_nothing demo_route (demo_backend 3) demo_key [demo_data] (demo_put true) (demo_cluster [n1; n2] [])
    (Backend demo_key) p.1.2 p.2 eq_refl (demo_plain _ _) (demo_addresses _ _) (demo_transport _)).
  - by left.
  - intros n. right. split; [reflexivity|]. split; [reflexivity|]. intros d. exact I.
  - intros n. split; [reflexivity|]. split; reflexivity.
  - reflexivity.
  - reflexivity.
  - reflexivity.
  - exact I.
  - intros n. split; reflexivity.
  - exact (outcome_eta p _ E).
Defined.

Lemma target_outage_leaves_copy_witness :
  let p := put demo_route (demo_backend 2) demo_key [demo_data] (demo_put false) (demo_cluster [n1; n2; n3] []) in
  p.1.1 = Err (Backend []) /\ holds demo_key demo_data p.1.2 n1.
Proof.
  intros p. apply (target_outage_leaves_copy demo_route (demo_backend 2) demo_key [demo_data] (demo_put false) (demo_cluster [n1; n2; n3] [])
    p.1.2 p.1.1 p.2 eq_refl ltac:(simpl; lia) eq_refl eq_refl eq_refl).
  - apply plain_resolve, demo_plain.
  - by apply outcome_eta.
Defined.

Lemma get_from_any_copy_witness :
  get demo_route (demo_backend 2) demo_key false true 110000 (fun _ => demo_net) (demo_cluster [n1; n2; n3] [n3]) = Ok demo_data.
Proof.
  apply (proj2 (get_from_any_copy demo_route (demo_backend 2) demo_key true false 110000 (fun _ => demo_net) (demo_cluster [n1; n2; n3] [n3]) demo_data
    (demo_copy _ _)) eq_refl eq_refl (demo_plain _ _)).
  exists n3. split; [apply demo_backed; by eexists|]. right. split; [|by eexists|done].
  exists (demo_row n3), (x40 :: n3). split; [reflexivity|]. split; [unfold live, LIVE_AFTER; simpl; lia|]. done.
Defined.

Lemma delete_leaves_no_row_witness :
  let p := delete demo_route (demo_backend 2) demo_key true false true 110000 (fun _ => demo_net) (demo_cluster [n1; n2; n3] [n1; n3]) in
  p.1 = Ok tt /\ (forall n, row p.2 demo_key n = None) /\ copy p.2 n3 demo_key = None.
Proof.
  intros p. assert (p.1 = Ok tt) as E by (vm_compute; reflexivity). split; [exact E|].
  destruct (delete_leaves_no_row demo_route (demo_backend 2) demo_key true false true 110000 (fun _ => demo_net)
    (demo_cluster [n1; n2; n3] [n1; n3]) p.2 eq_refl (demo_plain _ _) (demo_addresses _ _) (pair_eta p _ E)) as (H1 & _ & H3 & _).
  clearbody p. split; [exact H1|]. apply (H3 n3 (demo_row n3) (x40 :: n3)); [reflexivity|reflexivity|reflexivity| |].
  - exists (mkLoc 4 0). reflexivity.
  - split; [reflexivity|]. split; reflexivity.
Defined.

Lemma drain_keeps_factor_witness :
  let cl := demo_cluster [str "n0"; n1; n2] [str "n0"] in
  let node := to_record 110000 (str "n0") (demo_row (str "n0")) in
  let p := drain_one demo_route node 2 demo_key demo_lead cl in
  p.1 = Ok true /\ drained (str "n0") demo_key 2 110000 cl p.2.
Proof.
  intros cl node p. assert (p.1 = Ok true) as E by (vm_compute; reflexivity). split; [exact E|].
  apply (drain_keeps_factor demo_route node (demo_row (str "n0")) 2 demo_key demo_lead cl p.2 eq_refl (demo_addresses _ _));
    [|reflexivity|done|done|exact (pair_eta p _ E)].
  intros m d _. simpl. by rewrite app_nil_r.
Defined.

Lemma repair_restores_factor_witness :
  exists cl', repair_one demo_route 2 demo_key demo_lead (demo_cluster [n1; n2; n3] [n2]) = (Ok tt, cl') /\
    2 <= live_count (db cl') 110000 LIVE_AFTER demo_key.
Proof.
  destruct (repair_restores_factor demo_route 2 demo_key demo_lead (demo_cluster [n1; n2; n3] [n2]) demo_data eq_refl (demo_plain _ _)
    (demo_addresses _ _) eq_refl eq_refl eq_refl) as (cl' & E & Hc & _).
  - intros n. split; [done|done|done|]. intros d. simpl. by rewrite app_nil_r.
  - intros n r Hn _. apply demo_nodes_lookup in Hn. subst r. by eexists.
  - apply demo_backed.
  - intros H. apply (f_equal length) in H. vm_compute in H. discriminate.
  - exists cl'. split; [exact E|]. revert Hc. assert (length (live_ids (db (demo_cluster [n1; n2; n3] [n2])) 110000) = 3%nat) as Hl by (vm_compute; reflexivity).
    simpl le_now. rewrite Hl. simpl. lia.
Defined.

Lemma failed_scan_is_not_retried_witness :
  let cl := demo_cluster [n1; n2] [n2] in
  let e ok clock := mkRepair true ok clock 110000 (fun _ => demo_lead) in
  exists scan', repair_job demo_route 2 30000 (e false 1000) (mkScan {[n3]} (Some 900) false) cl = (Err tt, scan', cl) /\
    repair_job demo_route 2 30000 (e true 1299) scan' cl = (Ok tt, scan', cl).
Proof.
  intros cl e. assert (live_set 30000 110000 cl <> {[n3]}) as Hl.
  { intros H. assert (n3 ∈ live_set 30000 110000 cl) as Hin by (rewrite H; set_solver). clear H. revert Hin.
    assert (bool_decide (n3 ∈ live_set 30000 110000 cl) = false) as Hb by (vm_compute; reflexivity).
    by apply bool_decide_eq_false in Hb. }
  destruct (failed_scan_is_not_retried demo_route 2 30000 (e false 1000) (mkScan {[n3]} (Some 900) false) cl eq_refl eq_refl eq_refl Hl)
    as (scan' & E & H). exists scan'. split; [exact E|]. apply H; [reflexivity| |reflexivity]. unfold REPAIR_FULL_SCAN. simpl. lia.
Defined.
