(* ===== verification/Order.v ===== *)
(** * Comparison functions, sorted pages and bounded heaps

    Rust orders search hits by functions to [Ordering], composed with [then],
    [reverse] and by comparing projections.  [good_cmp P c] says that [c] is a
    total preorder on the values satisfying [P]; the combinators keep it.  Then
    the facts a top-k search needs: what the first [n] of a sorted list are, how
    they are found from the first [n] of parts, by a bounded heap, and page by
    page past a cursor. *)

From Stdlib Require Import ZArith Lia.
From stdpp Require Import base list sorting.
From S2P Require Import Prelude.

Local Open Scope Z_scope.

(** ** [std::cmp::Ordering] *)

(** [Ordering::then], [Ordering::reverse]. *)
Definition then_cmp (a b : comparison) : comparison := match a with Eq => b | _ => a end.
Definition reverse_if (b : bool) (a : comparison) : comparison := if b then CompOpp a else a.

Lemma then_cmp_assoc a b c : then_cmp (then_cmp a b) c = then_cmp a (then_cmp b c).
Proof. by destruct a. Qed.

Record good_cmp {A} (P : A -> Prop) (c : A -> A -> comparison) : Prop := {
  cmp_sym x y : P x -> P y -> c y x = CompOpp (c x y);
  cmp_trans x y z : P x -> P y -> P z -> c x y <> Gt -> c y z <> Gt -> c x z <> Gt;
}.
Arguments cmp_sym {A P c}.
Arguments cmp_trans {A P c}.

Section good.
Context {A B : Type}.
Implicit Types c d : A -> A -> comparison.

Lemma good_refl P c x : good_cmp P c -> P x -> c x x = Eq.
Proof. intros G H. pose proof (cmp_sym G x x H H) as E. by destruct (c x x). Qed.

Lemma good_eq_l P c x y z : good_cmp P c -> P x -> P y -> P z -> c x y = Eq -> c x z = c y z.
Proof.
  intros G Hx Hy Hz E.
  assert (c y x = Eq) as E' by (rewrite (cmp_sym G x y) by done; by rewrite E).
  pose proof (cmp_trans G x y z Hx Hy Hz ltac:(by rewrite E)) as H1.
  pose proof (cmp_trans G y x z Hy Hx Hz ltac:(by rewrite E')) as H2.
  pose proof (cmp_trans G z x y Hz Hx Hy) as H3. pose proof (cmp_trans G z y x Hz Hy Hx) as H4.
  rewrite (cmp_sym G x z), (cmp_sym G y z) in H3 by done. rewrite (cmp_sym G x z), (cmp_sym G y z) in H4 by done.
  rewrite E in H3. rewrite E' in H4.
  destruct (c x z), (c y z); naive_solver.
Qed.

Lemma good_weaken (P Q : A -> Prop) c : (forall x, Q x -> P x) -> good_cmp P c -> good_cmp Q c.
Proof. intros H G. split; [intros x y ??; apply (cmp_sym G); auto|intros x y z ???; apply (cmp_trans G x y z); auto]. Qed.

Lemma good_ext P c d : (forall x y, P x -> P y -> c x y = d x y) -> good_cmp P c -> good_cmp P d.
Proof.
  intros E G. split.
  - intros x y Hx Hy. rewrite <- !E by done. by apply (cmp_sym G).
  - intros x y z Hx Hy Hz. rewrite <- !E by done. by apply (cmp_trans G).
Qed.

(** Comparing projections, in the other direction, one key after another. *)
Lemma good_on (P : B -> Prop) (c : B -> B -> comparison) (f : A -> B) :
  good_cmp P c -> good_cmp (fun x => P (f x)) (fun x y => c (f x) (f y)).
Proof. intros G. split; intros; [by apply (cmp_sym G)|by eapply (cmp_trans G (f x) (f y))]. Qed.

Lemma good_reverse P c : good_cmp P c -> good_cmp P (fun x y => CompOpp (c x y)).
Proof.
  intros G. split.
  - intros x y Hx Hy. by rewrite (cmp_sym G x y).
  - intros x y z Hx Hy Hz. rewrite <- (cmp_sym G x y), <- (cmp_sym G y z), <- (cmp_sym G x z) by done.
    intros H1 H2. by apply (cmp_trans G z y x).
Qed.
Lemma good_reverse_if P c b : good_cmp P c -> good_cmp P (fun x y => reverse_if b (c x y)).
Proof. destruct b; [apply good_reverse|done]. Qed.

Lemma good_then P c d : good_cmp P c -> good_cmp P d -> good_cmp P (fun x y => then_cmp (c x y) (d x y)).
Proof.
  intros G D. split.
  - intros x y Hx Hy. rewrite (cmp_sym G x y), (cmp_sym D x y) by done. by destruct (c x y).
  - intros x y z Hx Hy Hz H1 H2. destruct (c x y) eqn:E1; simpl in H1; [| |done].
    + rewrite (good_eq_l P c x y z) by done. destruct (c y z); simpl in *; [by apply (cmp_trans D x y z)|done|done].
    + destruct (c x z) eqn:E3; simpl; [|done|].
      * exfalso. assert (c z x = Eq) as E4 by (rewrite (cmp_sym G x z) by done; by rewrite E3).
        assert (c z y = Lt) as E5 by (rewrite (good_eq_l P c z x y) by done; done).
        rewrite (cmp_sym G z y) in H2 by done. by rewrite E5 in H2.
      * exfalso. apply (cmp_trans G x y z Hx Hy Hz); [by rewrite E1| |done]. by destruct (c y z).
Qed.

Lemma good_constant P : good_cmp P (fun _ _ : A => Eq).
Proof. by split. Qed.
End good.

Lemma good_Z (P : Z -> Prop) : good_cmp P Z.compare.
Proof.
  split; [intros x y _ _; apply Z.compare_antisym|].
  intros x y z _ _ _. change (x ?= z <> Gt) with (x <= z). change (x ?= y <> Gt) with (x <= y).
  change (y ?= z <> Gt) with (y <= z). lia.
Qed.
Lemma good_bytes (P : bytes -> Prop) : good_cmp P bytes_compare.
Proof. split; [intros x y _ _; apply bytes_compare_antisym|]. intros x y z _ _ _. apply (transitivity (R := bytes_le)). Qed.

Definition bool_cmp (a b : bool) : comparison := Z.compare (Z.b2z a) (Z.b2z b).
Lemma good_bool P : good_cmp P bool_cmp.
Proof. apply (good_weaken (fun _ => True)); [done|]. apply (good_on (fun _ => True) Z.compare Z.b2z), good_Z. Qed.

Lemma elem_of_concat {A} (x : A) (ls : list (list A)) : x ∈ concat ls <-> exists l, x ∈ l /\ l ∈ ls.
Proof.
  induction ls as [|l ls IH]; simpl; [split; [by intros ?%elem_of_nil|by intros (? & ? & ?%elem_of_nil)]|].
  rewrite elem_of_app, IH. setoid_rewrite elem_of_cons. naive_solver.
Qed.

Lemma filter_fmap {A B} (f : A -> B) (P : B -> Prop) `{!forall x, Decision (P x)} (l : list A) :
  filter P (f <$> l) = f <$> filter (fun x => P (f x)) l.
Proof.
  induction l as [|x l IH]; [done|]. cbn [fmap list_fmap]. change (list_fmap A B f l) with (f <$> l).
  rewrite !filter_cons, IH. by destruct (decide (P (f x))).
Qed.

(** ** Sorting by a comparison *)

Section sorted.
Context {A : Type} (c : A -> A -> comparison).

Definition cmp_le (x y : A) : Prop := c x y <> Gt.
#[export] Instance cmp_le_dec : RelDecision cmp_le.
Proof. intros x y. unfold cmp_le. destruct (c x y); [left|left|right]; naive_solver. Defined.

(** [sort_by]: a stable sort. *)
Fixpoint insert_by (x : A) (l : list A) : list A :=
  match l with
  | [] => [x]
  | y :: r => if decide (cmp_le x y) then x :: l else y :: insert_by x r
  end.
Definition sort_by (l : list A) : list A := foldr insert_by [] l.
(** The first [n] in order. *)
Definition top (n : nat) (l : list A) : list A := take n (sort_by l).

Context (P : A -> Prop) (G : good_cmp P c).

(** No two entries of a list compare equal. *)
Definition strict (l : list A) : Prop := forall x y, x ∈ l -> y ∈ l -> c x y = Eq -> x = y.

Lemma insert_by_perm x l : insert_by x l ≡ₚ x :: l.
Proof.
  induction l as [|y l IH]; [done|]. simpl. case_decide; [done|]. rewrite IH. apply perm_swap.
Qed.
Lemma sort_by_perm l : sort_by l ≡ₚ l.
Proof. induction l as [|x l IH]; [done|]. simpl. by rewrite insert_by_perm, IH. Qed.
Lemma elem_of_sort_by x l : x ∈ sort_by l <-> x ∈ l.
Proof. by rewrite sort_by_perm. Qed.
Lemma length_sort_by l : length (sort_by l) = length l.
Proof. by rewrite sort_by_perm. Qed.
Lemma Forall_sort_by (Q : A -> Prop) l : Forall Q l -> Forall Q (sort_by l).
Proof. by rewrite sort_by_perm. Qed.

Lemma strict_sub l l' : (forall x, x ∈ l' -> x ∈ l) -> strict l -> strict l'.
Proof. intros H S x y Hx Hy. by apply S; apply H. Qed.
Lemma strict_perm l l' : l ≡ₚ l' -> strict l -> strict l'.
Proof. intros H. apply strict_sub. intros x. by rewrite H. Qed.
Lemma strict_filter (Q : A -> Prop) `{!forall x, Decision (Q x)} l : strict l -> strict (filter Q l).
Proof. apply strict_sub. intros x. by rewrite list_elem_of_filter; intros []. Qed.

Lemma not_le x y : P x -> P y -> ~ cmp_le x y -> c y x = Lt.
Proof. intros Hx Hy. unfold cmp_le. rewrite (cmp_sym G x y) by done. destruct (c x y); naive_solver. Qed.

Lemma insert_by_sorted x l : P x -> Forall P l -> StronglySorted cmp_le l -> StronglySorted cmp_le (insert_by x l).
Proof.
  intros Hx Hl S. induction S as [|y l S IH F]; simpl; [by repeat constructor|].
  apply Forall_cons in Hl as [Hy Hl]. case_decide as Hle.
  - constructor; [by constructor|]. constructor; [done|].
    rewrite Forall_forall in F |- *. rewrite Forall_forall in Hl. intros z Hz. apply (cmp_trans G x y z); auto. by apply F.
  - constructor; [by apply IH|]. rewrite insert_by_perm. constructor; [|done].
    unfold cmp_le. by rewrite (not_le x y).
Qed.
Lemma sort_by_sorted l : Forall P l -> StronglySorted cmp_le (sort_by l).
Proof.
  induction 1 as [|x l Hx Hl IH]; [constructor|]. apply insert_by_sorted; [done| |done]. by apply Forall_sort_by.
Qed.

(** A sorted permutation of a strict list is its sort. *)
Lemma sort_by_unique l s : Forall P l -> strict l -> s ≡ₚ l -> StronglySorted cmp_le s -> s = sort_by l.
Proof.
  intros Hl Hs Hp S. assert (s ≡ₚ sort_by l) as Hp2 by (by rewrite sort_by_perm).
  apply (StronglySorted_unique_strong cmp_le s (sort_by l)); [|exact S|apply sort_by_sorted; exact Hl|exact Hp2].
  intros x y Hx Hy H1 H2. rewrite Hp in Hx. rewrite sort_by_perm in Hy.
  rewrite Forall_forall in Hl. unfold cmp_le in *. rewrite (cmp_sym G x y) in H2 by auto.
  apply (Hs x y Hx Hy). by destruct (c x y).
Qed.

(** Sorting a part: filtering commutes with it. *)
Lemma sort_by_filter (Q : A -> Prop) `{!forall x, Decision (Q x)} l :
  Forall P l -> strict l -> sort_by (filter Q l) = filter Q (sort_by l).
Proof.
  intros Hl Hs. symmetry. apply sort_by_unique.
  - apply Forall_forall. intros x [_ Hx]%list_elem_of_filter. rewrite Forall_forall in Hl. auto.
  - by apply strict_filter.
  - by rewrite sort_by_perm.
  - by apply filter_sorted, sort_by_sorted.
Qed.

(** ** The first [n] *)

Lemma top_length n l : length (top n l) = (n `min` length l)%nat.
Proof. unfold top. by rewrite length_take, length_sort_by. Qed.
Lemma top_subseteq n l x : x ∈ top n l -> x ∈ l.
Proof. intros H. apply (elem_of_sort_by x l). by eapply subseteq_take. Qed.
Lemma top_all n l : (length l <= n)%nat -> top n l = sort_by l.
Proof. intros H. apply take_ge. by rewrite length_sort_by. Qed.
Lemma Forall_top n l : Forall P l -> Forall P (top n l).
Proof. intros H. by apply Forall_take, Forall_sort_by. Qed.
Lemma top_sorted n l : Forall P l -> StronglySorted cmp_le (top n l).
Proof.
  intros Hl. unfold top. pose proof (sort_by_sorted l Hl) as S. rewrite <- (take_drop n (sort_by l)) in S.
  by apply StronglySorted_app_1_l in S.
Qed.

(** What is left out is not before what is kept. *)
Lemma sorted_app_le l1 l2 : StronglySorted cmp_le (l1 ++ l2) -> forall x y, x ∈ l1 -> y ∈ l2 -> cmp_le x y.
Proof. intros S x y. by apply StronglySorted_app_1_elem_of. Qed.

(** Characterisation: sorted, of the right length, nothing before it left out. *)
Lemma top_unique n l p rest : Forall P l -> strict l -> p ++ rest ≡ₚ l -> StronglySorted cmp_le p ->
  (forall x y, x ∈ p -> y ∈ rest -> cmp_le x y) -> length p = (n `min` length l)%nat -> p = top n l.
Proof.
  intros Hl Hs Hp S Hle Hn. unfold top.
  assert (Forall P rest /\ Forall P p) as [Hr Hpp] by (rewrite <- Hp in Hl; apply Forall_app in Hl; tauto).
  assert (p ++ sort_by rest = sort_by l) as <-.
  { apply sort_by_unique; [done..| |].
    - by rewrite sort_by_perm.
    - apply StronglySorted_app_2; [|done|by apply sort_by_sorted].
      intros x y Hx Hy. apply Hle; [done|]. by apply elem_of_sort_by. }
  destruct (decide (n <= length l)%nat).
  - rewrite take_app_le, take_ge by lia. done.
  - assert (length rest = 0)%nat as ->%nil_length_inv.
    { apply Permutation_length in Hp. rewrite length_app in Hp. lia. }
    simpl. rewrite app_nil_r, take_ge by lia. done.
Qed.

(** Insertion only looks at the entries it passes: the first [n] after it are
    found from the first [n] before. *)
Lemma insert_by_take n x s : take n (insert_by x (take n s)) = take n (insert_by x s).
Proof.
  revert n. induction s as [|y s IH]; intros [|n]; simpl; try done.
  case_decide; cbn [take]; [|by rewrite IH].
  f_equal. destruct n; [done|]. cbn [take]. by rewrite take_take, Nat.min_l by lia.
Qed.
Lemma insert_all_take n l s : take n (foldr insert_by (take n s) l) = take n (foldr insert_by s l).
Proof.
  induction l as [|x l IH]; simpl; [by rewrite take_take, Nat.min_id|].
  by rewrite <- insert_by_take, IH, insert_by_take.
Qed.

Lemma insert_by_head x l : Forall (cmp_le x) l -> insert_by x l = x :: l.
Proof. destruct 1; [done|]. simpl. by rewrite decide_True. Qed.
Lemma sort_by_id l : StronglySorted cmp_le l -> sort_by l = l.
Proof. induction 1 as [|x l S IH F]; [done|]. simpl. by rewrite IH, insert_by_head. Qed.
Lemma sort_by_eq l l' : Forall P l -> strict l -> l ≡ₚ l' -> sort_by l = sort_by l'.
Proof.
  intros Hl Hs Hp. symmetry. apply sort_by_unique; [done..| |].
  - by rewrite sort_by_perm, Hp.
  - apply sort_by_sorted. by rewrite <- Hp.
Qed.
Lemma top_perm n l l' : Forall P l -> strict l -> l ≡ₚ l' -> top n l = top n l'.
Proof. intros. unfold top. by rewrite (sort_by_eq l l'). Qed.

(** ** The first [n], from the first [n] of parts *)

Lemma top_app_r n l1 l2 : Forall P l2 -> top n (l1 ++ top n l2) = top n (l1 ++ l2).
Proof.
  intros Hl. unfold top at 1 3. unfold sort_by. rewrite !foldr_app. fold sort_by.
  change (foldr insert_by [] (top n l2)) with (sort_by (top n l2)).
  rewrite sort_by_id by (by apply top_sorted). apply insert_all_take.
Qed.
Lemma top_app_l n l1 l2 : Forall P (l1 ++ l2) -> strict (l1 ++ l2) -> top n (top n l1 ++ l2) = top n (l1 ++ l2).
Proof.
  intros Hl Hs. pose proof Hl as [Hl1 Hl2]%Forall_app.
  assert (forall x, x ∈ top n l1 ++ l2 -> x ∈ l1 ++ l2) as Hsub.
  { intros x. rewrite !elem_of_app. intros [Hx|Hx]; [left; by apply (top_subseteq n)|by right]. }
  rewrite (top_perm n _ (l2 ++ top n l1)), top_app_r; [|done| | |apply Permutation_app_comm].
  - apply top_perm; [rewrite Forall_app; tauto| |apply Permutation_app_comm].
    by apply (strict_perm (l1 ++ l2)); [apply Permutation_app_comm|].
  - apply Forall_forall. intros x Hx. rewrite Forall_forall in Hl. auto.
  - by apply (strict_sub (l1 ++ l2)).
Qed.

Lemma top_concat n ls : Forall P (concat ls) -> strict (concat ls) -> top n (concat (top n <$> ls)) = top n (concat ls).
Proof.
  induction ls as [|l ls IH]; [done|]. cbn [concat fmap list_fmap]. intros Hl Hs. pose proof Hl as [Hl1 Hl2]%Forall_app.
  assert (forall x, x ∈ concat (top n <$> ls) -> x ∈ concat ls) as Hsub.
  { intros x. rewrite !elem_of_concat. intros (t & Hx & (m & -> & Hm)%list_elem_of_fmap).
    exists m. split; [by apply (top_subseteq n)|done]. }
  assert (forall x, x ∈ l ++ concat (top n <$> ls) -> x ∈ l ++ concat ls) as Hsub2.
  { intros x. rewrite !elem_of_app. naive_solver. }
  rewrite top_app_l.
  - rewrite <- top_app_r, IH, top_app_r; [done|done|done| |].
    + apply (strict_sub (l ++ concat ls)); [|done]. intros x Hx. apply elem_of_app. by right.
    + apply Forall_forall. intros x Hx. rewrite Forall_forall in Hl2. auto.
  - apply Forall_forall. intros x Hx. rewrite Forall_forall in Hl. auto.
  - by apply (strict_sub (l ++ concat ls)).
Qed.

(** ** A bounded heap: [push] while there is room, else replace the greatest
    when the new entry is before it *)

Definition heap_push (n : nat) (h : list A) (x : A) : list A :=
  if (length h <? n)%nat then insert_by x h
  else match list.last h with
       | Some t => match c x t with Lt => insert_by x (take (length h - 1) h) | _ => h end
       | None => h
       end.

Lemma insert_by_snoc x l t : cmp_le x t -> insert_by x (l ++ [t]) = insert_by x l ++ [t].
Proof.
  intros Hx. induction l as [|y l IH]; simpl; [by rewrite decide_True|]. case_decide; [done|]. by rewrite IH.
Qed.
Lemma length_insert_by x l : length (insert_by x l) = S (length l).
Proof. by rewrite insert_by_perm. Qed.

Lemma insert_by_last x l : Forall (fun y => c x y = Gt) l -> insert_by x l = l ++ [x].
Proof.
  induction 1 as [|y l Hy F IH]; [done|]. simpl. rewrite decide_False by (intros H; by apply H). by rewrite IH.
Qed.

Lemma heap_push_take n h x : P x -> Forall P h -> StronglySorted cmp_le h -> strict (x :: h) -> x ∉ h ->
  (length h <= n)%nat -> (0 < n)%nat -> heap_push n h x = take n (insert_by x h).
Proof.
  intros Hx Hh S Hs Hn Hl H0. unfold heap_push. destruct (Nat.ltb_spec (length h) n) as [|Hge].
  { symmetry. apply take_ge. rewrite length_insert_by. lia. }
  assert (length h = n) as E by lia. destruct h as [|t h _] using rev_ind; [simpl in E; lia|].
  assert (forall y, y ∈ h ++ [t] -> c x y <> Eq) as Hne.
  { intros y Hy Ec. apply Hn. by rewrite (Hs x y (list_elem_of_here _ _) (list_elem_of_further _ _ _ Hy) Ec). }
  assert (t ∈ h ++ [t]) as Kt by (apply elem_of_app; right; by left).
  rewrite last_snoc. rewrite length_app in E |- *. simpl in E |- *.
  destruct (c x t) eqn:Ec; [by apply Hne in Ec| |].
  - rewrite insert_by_snoc by (unfold cmp_le; by rewrite Ec).
    replace (length h + 1 - 1)%nat with (length h) by lia. rewrite take_app_length.
    rewrite take_app_le by (rewrite length_insert_by; lia). by rewrite take_ge by (rewrite length_insert_by; lia).
  - rewrite insert_by_last.
    + rewrite take_app_le by (rewrite length_app; simpl; lia). by rewrite take_ge by (rewrite length_app; simpl; lia).
    + apply Forall_forall. intros y Hy. rewrite Forall_forall in Hh. pose proof (Hne y Hy) as Hxy.
      assert (cmp_le y t) as Hyt.
      { apply elem_of_app in Hy as [Hy| ->%list_elem_of_singleton]; [apply (sorted_app_le _ _ S); [done|by left]|].
        unfold cmp_le. by rewrite (good_refl P) by auto. }
      pose proof (cmp_trans G y t x (Hh y Hy) (Hh t Kt) Hx Hyt) as Htr.
      rewrite (cmp_sym G x t), (cmp_sym G x y), Ec in Htr by auto.
      destruct (c x y); [done| |done]. by exfalso; apply Htr.
Qed.

(** The heap after a scan holds the first [n] in order. *)
Lemma heap_scan n l : Forall P l -> strict l -> NoDup l -> (0 < n)%nat -> foldl (heap_push n) [] l = top n l.
Proof.
  intros Hl Hs Hd Hn. induction l as [|x l IH] using rev_ind; [by destruct n|].
  apply Forall_app in Hl as [Hl [Hx _]%Forall_cons]. apply NoDup_app in Hd as (Hd & Hx' & _).
  assert (x ∉ l) as Hnx by (intros Hx2; apply (Hx' x Hx2), list_elem_of_here).
  assert (strict l) as Hs1 by (apply (strict_sub (l ++ [x])); [intros y Hy; apply elem_of_app; by left|done]).
  rewrite foldl_snoc, IH by done. rewrite heap_push_take; [|done|by apply Forall_top|by apply top_sorted| | | |done].
  - unfold top at 1. rewrite insert_by_take. change (insert_by x (sort_by l)) with (sort_by (x :: l)).
    rewrite (sort_by_eq (x :: l) (l ++ [x])); [done|by constructor| |apply Permutation_cons_append].
    apply (strict_perm (l ++ [x])); [symmetry; apply Permutation_cons_append|done].
  - apply (strict_sub (l ++ [x])); [|done]. intros y [->|Hy%top_subseteq]%elem_of_cons; apply elem_of_app; [right; by left|by left].
  - by intros Hy%top_subseteq.
  - rewrite top_length. lia.
Qed.

(** ** Pages past a cursor *)

Definition past (x y : A) : Prop := c x y = Lt.
#[export] Instance past_dec : RelDecision past.
Proof. intros x y. unfold past. destruct (c x y); [right|left|right]; naive_solver. Defined.

(** What is strictly past an entry is what follows it in order. *)
Lemma past_drop l s1 x s2 : Forall P l -> strict l -> NoDup l -> sort_by l = s1 ++ x :: s2 ->
  sort_by (filter (past x) l) = s2.
Proof.
  intros Hl Hs Hd E. rewrite sort_by_filter by done. rewrite E.
  pose proof (sort_by_sorted l Hl) as S. rewrite E in S.
  assert (NoDup (s1 ++ x :: s2)) as Hd' by (rewrite <- E; by rewrite sort_by_perm).
  assert (forall y, y ∈ s1 ++ x :: s2 -> y ∈ l) as Hin by (intros y; rewrite <- E; apply elem_of_sort_by).
  assert (x ∈ s1 ++ x :: s2) as Kx by (apply elem_of_app; right; by left).
  rewrite Forall_forall in Hl. rewrite filter_app, filter_cons, decide_False.
  - rewrite (filter_none _ s1), (filter_every _ s2); [done| |].
    + apply Forall_forall. intros y Hy. assert (y ∈ s1 ++ x :: s2) as Ky by (apply elem_of_app; right; by right).
      assert (cmp_le x y) as Hle.
      { apply StronglySorted_app_1_r, StronglySorted_inv in S as [_ F]. rewrite Forall_forall in F. by apply F. }
      unfold past. unfold cmp_le in Hle. destruct (c x y) eqn:Ec; [|done|done].
      exfalso. apply Hs in Ec; [|auto..]. subst y. apply NoDup_app in Hd' as (_ & _ & [Hn _]%NoDup_cons). done.
    + apply Forall_forall. intros y Hy. assert (cmp_le y x) as Hle by (apply (sorted_app_le _ _ S); [done|by left]).
      assert (y ∈ s1 ++ x :: s2) as Ky by (apply elem_of_app; by left).
      unfold past. intros Ec. unfold cmp_le in Hle. rewrite (cmp_sym G x y), Ec in Hle by auto. done.
  - unfold past. rewrite (good_refl P) by auto. done.
Qed.

(** Pages of [n], each past the last entry of the one before, in [k] requests. *)
Fixpoint pages (k n : nat) (from : option A) (l : list A) : list (list A) :=
  match k with
  | O => []
  | S k =>
      let p := top n (match from with Some x => filter (past x) l | None => l end) in
      match list.last p with
      | Some x => p :: pages k n (Some x) l
      | None => []
      end
  end.

Lemma pages_tile k n l s1 from : Forall P l -> strict l -> NoDup l -> (0 < n)%nat ->
  (match from with Some x => exists s2, sort_by l = s1 ++ x :: s2 | None => s1 = [] end) ->
  concat (pages k n from l) = take (k * n) (drop (length s1 + (if from then 1 else 0)) (sort_by l)).
Proof.
  intros Hl Hs Hd Hn. revert s1 from. induction k as [|k IH]; [done|]. intros s1 from Hf. cbn [pages].
  set (part := match from with Some x => filter (past x) l | None => l end).
  set (d := drop _ (sort_by l)).
  assert (sort_by part = d) as E.
  { unfold part, d. destruct from as [x|]; [|by rewrite Hf].
    destruct Hf as [s2 E]. rewrite (past_drop l s1 x s2) by done. rewrite E, drop_app_ge by lia.
    by replace (length s1 + 1 - length s1)%nat with 1%nat by lia. }
  unfold top. rewrite E. set (m := (length s1 + (if from then 1 else 0))%nat) in *.
  destruct (list.last (take n d)) as [x|] eqn:El.
  - apply last_Some in El as [p El]. assert (length p + 1 = n `min` length d)%nat as Hp.
    { apply (f_equal length) in El. rewrite length_take, length_app in El. simpl in El. lia. }
    assert (m < length (sort_by l))%nat as Hm by (unfold d in Hp; rewrite length_drop in Hp; lia).
    assert (sort_by l = take m (sort_by l) ++ p ++ x :: drop n d) as Es.
    { rewrite <- (take_drop m (sort_by l)) at 1. f_equal. fold d. rewrite <- (take_drop n d) at 1. by rewrite El, <- app_assoc. }
    cbn [concat]. rewrite (IH (take m (sort_by l) ++ p) (Some x)).
    + rewrite length_app, length_take, Nat.min_l by lia. replace (m + length p + 1)%nat with (m + (n `min` length d))%nat by lia.
      rewrite <- drop_drop. fold d. replace (drop (n `min` length d) d) with (drop n d); [apply take_take_drop|].
      destruct (Nat.min_spec n (length d)) as [[? ->]|[? ->]]; [done|]. by rewrite !drop_ge by lia.
    + exists (drop n d). by rewrite Es at 1; rewrite <- app_assoc.
  - apply last_None in El. cbn [concat]. clearbody d. destruct d; [symmetry; apply take_nil|]. destruct n; [lia|done].
Qed.

(** All pages together are the whole, once each and in order. *)
Lemma pages_cover k n l : Forall P l -> strict l -> NoDup l -> (0 < n)%nat -> (length l <= k * n)%nat ->
  concat (pages k n None l) = sort_by l.
Proof.
  intros Hl Hs Hd Hn Hk. rewrite (pages_tile k n l [] None) by done. simpl.
  rewrite drop_0. apply take_ge. by rewrite length_sort_by.
Qed.
End sorted.

(** ** Sorting through a projection that keeps the comparison *)

Section through.
Context {A B : Type} (c : A -> A -> comparison) (d : B -> B -> comparison) (f : A -> B).
Hypothesis Hf : forall x y, d (f x) (f y) = c x y.

Lemma insert_by_fmap x l : insert_by d (f x) (f <$> l) = f <$> insert_by c x l.
Proof.
  induction l as [|y l IH]; [done|]. cbn [fmap list_fmap insert_by]. change (list_fmap A B f l) with (f <$> l).
  assert (cmp_le d (f x) (f y) <-> cmp_le c x y) as E by (unfold cmp_le; by rewrite Hf).
  destruct (decide (cmp_le c x y)) as [H|H].
  - rewrite decide_True by (by apply E). done.
  - rewrite decide_False by (by rewrite E). by rewrite IH.
Qed.
Lemma sort_by_fmap l : sort_by d (f <$> l) = f <$> sort_by c l.
Proof. induction l as [|x l IH]; [done|]. change (insert_by d (f x) (sort_by d (f <$> l)) = f <$> insert_by c x (sort_by c l)). by rewrite IH, insert_by_fmap. Qed.
Lemma top_fmap n l : top d n (f <$> l) = f <$> top c n l.
Proof. unfold top. by rewrite sort_by_fmap, fmap_take. Qed.
Lemma heap_push_fmap n h x : heap_push d n (f <$> h) (f x) = f <$> heap_push c n h x.
Proof.
  unfold heap_push. rewrite length_fmap, fmap_last. destruct (_ <? _)%nat; [apply insert_by_fmap|].
  destruct (list.last h) as [t|]; [|done]. simpl. rewrite Hf. destruct (c x t); [done| |done].
  by rewrite <- insert_by_fmap, fmap_take.
Qed.
Lemma heap_scan_fmap n l h : foldl (heap_push d n) (f <$> h) (f <$> l) = f <$> foldl (heap_push c n) h l.
Proof. revert h. induction l as [|x l IH]; intros h; [done|]. change (foldl (heap_push d n) (heap_push d n (f <$> h) (f x)) (f <$> l) = f <$> foldl (heap_push c n) (heap_push c n h x) l).
  by rewrite heap_push_fmap, IH. Qed.
End through.

(** The same where the comparisons agree on the entries only. *)
Section through_on.
Context {A B : Type} (P : A -> Prop) (c : A -> A -> comparison) (d : B -> B -> comparison) (f : A -> B).
Hypothesis Hf : forall x y, P x -> P y -> d (f x) (f y) = c x y.

Lemma insert_by_fmap_on x l : P x -> Forall P l -> insert_by d (f x) (f <$> l) = f <$> insert_by c x l.
Proof.
  intros Hx. induction 1 as [|y l Hy _ IH]; [done|]. cbn [fmap list_fmap insert_by]. change (list_fmap A B f l) with (f <$> l).
  assert (cmp_le d (f x) (f y) <-> cmp_le c x y) as E by (unfold cmp_le; by rewrite Hf).
  destruct (decide (cmp_le c x y)) as [H|H].
  - rewrite decide_True by (by apply E). done.
  - rewrite decide_False by (by rewrite E). by rewrite IH.
Qed.
Lemma top_fmap_on n l : Forall P l -> top d n (f <$> l) = f <$> top c n l.
Proof.
  intros H. unfold top. rewrite fmap_take. f_equal. clear n.
  induction H as [|x l Hx Hl IH]; [done|]. change (insert_by d (f x) (sort_by d (f <$> l)) = f <$> insert_by c x (sort_by c l)).
  rewrite IH. apply insert_by_fmap_on; [done|]. by apply Forall_sort_by.
Qed.
End through_on.
