(* ===== verification/Float64.v ===== *)
(** * Rust's [f64], by its IEEE 754 bits

    What the sort and date code does with floats: comparison by
    [f64::total_cmp], conversion from integers ([as f64], rounding to nearest,
    ties to even), multiplication by a constant, truncation ([as i64]) and the
    test for a whole number.  A float is its 64 bits as an integer. *)

From Stdlib Require Import ZArith Lia.
From Stdlib Require Import Strings.Byte.
From stdpp Require Import base gmap sets list strings sorting.
From S2P Require Import Prelude Json.

Local Open Scope Z_scope.

Definition INF_BITS : Z := 0x7FF * 2 ^ 52.
Definition f64_negative (b : Z) : bool := 2 ^ 63 <=? b.
(** The bits without the sign. *)
Definition f64_abs (b : Z) : Z := b mod 2 ^ 63.
Definition is_finite (b : Z) : bool := f64_abs b <? INF_BITS.
Definition is_nan (b : Z) : bool := INF_BITS <? f64_abs b.

(** [(m, e)] with [|f| = m * 2^e], for a finite [f]. *)
Definition f64_decode (b : Z) : Z * Z :=
  let a := f64_abs b in
  let e := a / 2 ^ 52 in
  if e =? 0 then (a, -1074) else (a mod 2 ^ 52 + 2 ^ 52, e - 1075).

(** Division of [m >= 0] by [2^s], to nearest, ties to even. *)
Definition div_even (m s : Z) : Z :=
  let d := 2 ^ s in
  let q := m / d in
  let r := m mod d in
  if 2 * r <? d then q else if d <? 2 * r then q + 1 else if Z.even q then q else q + 1.

(** The bits of [m * 2^e] rounded, [m >= 0]. *)
Definition f64_round (m e : Z) : Z :=
  if m =? 0 then 0
  else
    let q := Z.max (Z.log2 m + e - 52) (-1074) in
    let r := if q <=? e then m * 2 ^ (e - q) else div_even m (q - e) in
    Z.min ((q + 1074) * 2 ^ 52 + r) INF_BITS.

Definition with_sign (neg : bool) (a : Z) : Z := if neg then a + 2 ^ 63 else a.

(** [n as f64]. *)
Definition f64_of_Z (n : Z) : Z := with_sign (n <? 0) (f64_round (Z.abs n) 0).

(** [f * k] for a positive integer [k] that is exact as a float. *)
Definition f64_mul_pos (b k : Z) : Z :=
  if is_finite b then let '(m, e) := f64_decode b in with_sign (f64_negative b) (f64_round (m * k) e) else b.

(** A finite float as a multiple of [2^-1074], and the nearest float to one. *)
Definition f64_units (b : Z) : Z :=
  let '(m, e) := f64_decode b in let v := m * 2 ^ (e + 1074) in if f64_negative b then - v else v.
Definition f64_of_units (v : Z) : Z := with_sign (v <? 0) (f64_round (Z.abs v) (-1074)).
Definition NAN_BITS : Z := INF_BITS + 2 ^ 51.
(** [a + b]. *)
Definition f64_add (a b : Z) : Z :=
  if is_nan a || is_nan b then NAN_BITS
  else if is_finite a && is_finite b then
    let v := f64_units a + f64_units b in
    if (v =? 0) && f64_negative a && f64_negative b then with_sign true 0 else f64_of_units v
  else if is_finite a then b
  else if is_finite b then a
  else if a =? b then a else NAN_BITS.
(** [a / b] for a positive finite [b]: the quotient with more bits than a float
    has, and one that says whether it is exact. *)
Definition f64_div_pos (a b : Z) : Z :=
  if is_finite a then
    let n := Z.abs (f64_units a) * 2 ^ 2200 in
    let d := f64_units b in
    with_sign (f64_negative a) (f64_round (2 * (n / d) + Z.b2z (negb (n mod d =? 0))) (-2201))
  else a.
(** [a > 0.0]. *)
Definition f64_pos (a : Z) : bool := (0 <? a) && (a <=? INF_BITS).

(** The integer part, towards zero. *)
Definition f64_trunc (b : Z) : Z :=
  let '(m, e) := f64_decode b in
  let n := if 0 <=? e then m * 2 ^ e else m / 2 ^ (- e) in
  if f64_negative b then - n else n.

(** [f as i64]: saturating, zero for NaN. *)
Definition f64_as_i64 (b : Z) : Z :=
  if is_nan b then 0
  else if is_finite b then sat_i64 (f64_trunc b)
  else if f64_negative b then I64_MIN else I64_MAX.

(** [f.fract() == 0.0]. *)
Definition is_whole (b : Z) : bool :=
  is_finite b && (let '(m, e) := f64_decode b in (0 <=? e) || (m mod 2 ^ (- e) =? 0)).

(** [f.abs() <= 2^53], [f.abs() < n]: for bounds exact as floats the bits
    without the sign are ordered as the magnitudes are. *)
Definition abs_le (b n : Z) : bool := f64_abs b <=? f64_of_Z n.
Definition abs_lt (b n : Z) : bool := f64_abs b <? f64_of_Z n.

(** [==] on [f64]. *)
Definition f64_eqb (a b : Z) : bool :=
  negb (is_nan a) && negb (is_nan b) && ((a =? b) || ((f64_abs a =? 0) && (f64_abs b =? 0))).

(** [f64::total_cmp] compares the bits read as an [i64], the lower 63 of them
    inverted when the sign bit is set. *)
Definition total_key (b : Z) : Z :=
  let l := wrap_s 64 b in Z.lxor l (Z.shiftr (wrap_u 64 (Z.shiftr l 63)) 1).

(** [Value::as_f64] of a number. *)
Definition number_f64 (n : number) : Z :=
  match n with PosInt z | NegInt z => f64_of_Z z | Float b => b end.
Definition as_f64 (j : json) : option Z :=
  match j with Number n => Some (number_f64 n) | _ => None end.
(** [json!(f)]: a float that is not finite becomes [null]. *)
Definition json_f64 (b : Z) : json := if is_finite b then Number (Float b) else Null.
(** [json!(n)] of an [i64]. *)
Definition json_i64 (n : Z) : json := Number (if n <? 0 then NegInt n else PosInt n).

(** What is not under [src/]: [json_to_string] is [serde_json]'s printer;
    [parse_f64], [f64::from_str], the standard library's decimal parser. *)
Class TextCodec := {
  json_to_string : json -> bytes;
  parse_f64 : bytes -> option Z;
}.

Example f64_one : f64_of_Z 1 = 0x3FF0000000000000. Proof. reflexivity. Qed.
Example f64_minus_two : f64_of_Z (-2) = 0xC000000000000000. Proof. reflexivity. Qed.
Example f64_tie_even : (f64_of_Z (2 ^ 53 + 1), f64_of_Z (2 ^ 53 + 3)) = (f64_of_Z (2 ^ 53), f64_of_Z (2 ^ 53 + 4)).
Proof. reflexivity. Qed.
Example f64_half_trunc : f64_as_i64 0x3FE0000000000000 = 0 /\ is_whole 0x3FE0000000000000 = false.
Proof. done. Qed.
Example f64_mul : f64_as_i64 (f64_mul_pos 0x3FF8000000000000 1000) = 1500. Proof. reflexivity. Qed.

(** ** [total_cmp] is a total order of the bit patterns *)

Lemma lxor_ones n x : 0 <= n -> 0 <= x < 2 ^ n -> Z.lxor x (Z.ones n) = Z.ones n - x.
Proof.
  intros Hn Hx. destruct (decide (x = 0)) as [->|Hz]; [rewrite Z.lxor_0_l; lia|].
  assert (Z.ldiff x (Z.ones n) = 0) as E.
  { apply Z.ldiff_ones_r_low; [lia|]. apply Z.log2_lt_pow2; lia. }
  rewrite Z.sub_nocarry_ldiff by done. apply Z.bits_inj'. intros i Hi.
  rewrite Z.lxor_spec, Z.ldiff_spec.
  destruct (Z.lt_ge_cases i n).
  - rewrite Z.ones_spec_low by lia. by destruct (Z.testbit x i).
  - rewrite Z.ones_spec_high by lia. rewrite Z.bits_above_log2; [done|lia|].
    apply Z.log2_lt_pow2; [lia|]. apply Z.lt_le_trans with (2 ^ n); [lia|]. by apply Z.pow_le_mono_r.
Qed.

Lemma total_key_eq b : is_u 64 b -> total_key b = if b <? 2 ^ 63 then b else 2 ^ 63 - 1 - b.
Proof.
  unfold is_u, total_key, wrap_s. intros Hb. rewrite (Z.mod_small b) by lia.
  change (2 ^ (64 - 1)) with (2 ^ 63). destruct (Z.ltb_spec b (2 ^ 63)) as [H|H].
  - rewrite (Z.shiftr_div_pow2 b), Z.div_small by lia. change (Z.shiftr (wrap_u 64 0) 1) with 0. apply Z.lxor_0_r.
  - rewrite (Z.shiftr_div_pow2 (b - 2 ^ 64)) by lia.
    replace ((b - 2 ^ 64) / 2 ^ 63) with (-1) by (apply Z.div_unique with (b - 2 ^ 63); lia).
    change (Z.shiftr (wrap_u 64 (-1)) 1) with (Z.ones 63).
    rewrite <- (Z.lnot_involutive (b - 2 ^ 64)), <- Z.lnot_lxor_l.
    assert (Z.lnot (b - 2 ^ 64) = 2 ^ 64 - 1 - b) as -> by (unfold Z.lnot; lia). rewrite lxor_ones by lia.
    change (Z.ones 63) with (2 ^ 63 - 1). unfold Z.lnot. lia.
Qed.

Lemma total_key_inj a b : is_u 64 a -> is_u 64 b -> total_key a = total_key b -> a = b.
Proof.
  intros Ha Hb. rewrite !total_key_eq by done. unfold is_u in *. repeat split_test; lia.
Qed.

(** ** Integers up to 2^53 survive the conversion *)

Lemma f64_round_exact n : 0 < n <= 2 ^ 53 ->
  exists m e, f64_decode (f64_round n 0) = (m, e) /\ f64_round n 0 < INF_BITS /\
    ((0 <= e /\ n = m * 2 ^ e) \/ (e < 0 /\ m = n * 2 ^ (- e))).
Proof.
  intros Hn. unfold f64_round. destruct (Z.eqb_spec n 0); [lia|].
  set (l := Z.log2 n). assert (0 <= l <= 53) as Hl.
  { split; [apply Z.log2_nonneg|]. change 53 with (Z.log2 (2 ^ 53)). apply Z.log2_le_mono. lia. }
  assert (2 ^ l <= n < 2 ^ (l + 1)) as Hb by (apply Z.log2_spec; lia).
  rewrite Z.max_l by lia. rewrite Z.add_0_r.
  destruct (Z.leb_spec (l - 52) 0) as [Hq|Hq].
  - assert (2 ^ 52 <= n * 2 ^ (0 - (l - 52)) < 2 ^ 53) as Hr.
    { replace (0 - (l - 52)) with (52 - l) by lia. split.
      - replace (2 ^ 52) with (2 ^ l * 2 ^ (52 - l)) by (rewrite <- Z.pow_add_r by lia; f_equal; lia).
        apply Z.mul_le_mono_nonneg_r; [lia|]. lia.
      - replace (2 ^ 53) with (2 ^ (l + 1) * 2 ^ (52 - l)) by (rewrite <- Z.pow_add_r by lia; f_equal; lia).
        apply Z.mul_lt_mono_pos_r; [lia|]. lia. }
    set (r := n * 2 ^ (0 - (l - 52))) in *.
    assert ((l - 52 + 1074) * 2 ^ 52 + r < INF_BITS) as Hi by (unfold INF_BITS; lia).
    rewrite Z.min_l by lia. exists r, (l - 52). split; [|split; [done|]].
    + unfold f64_decode, f64_abs. rewrite Z.mod_small by (unfold INF_BITS in *; lia).
      replace ((l - 52 + 1074) * 2 ^ 52 + r) with ((r - 2 ^ 52) + (l + 1023) * 2 ^ 52) by lia.
      rewrite Z.div_add, Z.mod_add by lia. rewrite (Z.div_small (r - 2 ^ 52)), (Z.mod_small (r - 2 ^ 52)) by lia.
      destruct (Z.eqb_spec (0 + (l + 1023)) 0); [lia|]. f_equal; lia.
    + destruct (decide (l = 52)) as [->|]; [left|right].
      * split; [lia|]. unfold r. simpl. lia.
      * split; [lia|]. unfold r. done.
  - assert (l = 53) as E by lia. assert (n = 2 ^ 53) as -> by (rewrite E in Hb; lia).
    exists (2 ^ 52), 1. split; [reflexivity|]. split; [reflexivity|]. left. split; [lia|reflexivity].
Qed.

Lemma f64_round_le n : 0 <= n <= 2 ^ 53 -> 0 <= f64_round n 0 <= f64_of_Z (2 ^ 53).
Proof.
  intros Hn. change (f64_of_Z (2 ^ 53)) with (1076 * 2 ^ 52). destruct (decide (n = 2 ^ 53)) as [->|Hm]; [by vm_compute|].
  unfold f64_round. destruct (Z.eqb_spec n 0); [lia|].
  set (l := Z.log2 n). assert (2 ^ l <= n < 2 ^ (l + 1)) as Hb by (apply Z.log2_spec; lia).
  assert (0 <= l <= 52) as Hl.
  { split; [apply Z.log2_nonneg|]. assert (l < 53); [|lia]. apply Z.log2_lt_pow2; lia. }
  rewrite Z.max_l by lia. rewrite Z.add_0_r. destruct (Z.leb_spec (l - 52) 0); [|lia].
  replace (0 - (l - 52)) with (52 - l) by lia. assert (0 < 2 ^ (52 - l)) by (apply Z.pow_pos_nonneg; lia).
  assert (n * 2 ^ (52 - l) < 2 ^ (l + 1) * 2 ^ (52 - l)) as Hr by (apply Z.mul_lt_mono_pos_r; lia).
  rewrite <- Z.pow_add_r in Hr by lia. replace (l + 1 + (52 - l)) with 53 in Hr by lia.
  unfold INF_BITS. split; [apply Z.min_glb; nia|]. apply Z.le_trans with ((l - 52 + 1074) * 2 ^ 52 + n * 2 ^ (52 - l)); [lia|nia].
Qed.

Lemma f64_abs_sign neg a : 0 <= a < 2 ^ 63 -> f64_abs (with_sign neg a) = a /\ f64_negative (with_sign neg a) = neg.
Proof.
  intros Ha. unfold f64_abs, f64_negative, with_sign. destruct neg.
  - rewrite <- (Z.mul_1_l (2 ^ 63)) at 1. rewrite Z.mod_add, Z.mod_small by lia. split; [done|]. apply Z.leb_le. lia.
  - rewrite Z.mod_small by lia. split; [done|]. apply Z.leb_gt. lia.
Qed.

(** The value an echoed integer has after a JSON round trip as a float. *)
Lemma f64_of_Z_exact n : Z.abs n <= 2 ^ 53 ->
  is_finite (f64_of_Z n) = true /\ is_whole (f64_of_Z n) = true /\ f64_as_i64 (f64_of_Z n) = n.
Proof.
  intros Hn. destruct (decide (n = 0)) as [->|Hz]; [by vm_compute|].
  destruct (f64_round_exact (Z.abs n)) as (m & e & Hd & Hf & Hv); [lia|].
  unfold f64_of_Z. set (a := f64_round (Z.abs n) 0) in *.
  assert (0 <= a) as Ha.
  { unfold a, f64_round. destruct (Z.eqb_spec (Z.abs n) 0); [lia|]. unfold INF_BITS. apply Z.min_glb; [|lia].
    assert (0 <= 2 ^ (0 - Z.max (Z.log2 (Z.abs n) + 0 - 52) (-1074))) by (apply Z.pow_nonneg; lia).
    assert (0 <= div_even (Z.abs n) (Z.max (Z.log2 (Z.abs n) + 0 - 52) (-1074) - 0)).
    { unfold div_even. assert (0 <= Z.abs n / 2 ^ (Z.max (Z.log2 (Z.abs n) + 0 - 52) (-1074) - 0)).
      { destruct (Z.leb_spec 0 (Z.max (Z.log2 (Z.abs n) + 0 - 52) (-1074) - 0)) as [|Hs].
        - apply Z.div_pos; lia.
        - rewrite Z.pow_neg_r by lia. by rewrite Zdiv_0_r. }
      repeat split_test; [lia..|]. destruct (Z.even _); lia. }
    destruct (Z.leb_spec (Z.max (Z.log2 (Z.abs n) + 0 - 52) (-1074)) 0); nia. }
  destruct (f64_abs_sign (n <? 0) a) as [Ea En]; [unfold INF_BITS in Hf; lia|].
  assert (f64_decode (with_sign (n <? 0) a) = (m, e)) as Hd'.
  { revert Hd. unfold f64_decode. rewrite Ea. unfold f64_abs. rewrite Z.mod_small by (unfold INF_BITS in Hf; lia). done. }
  assert (is_finite (with_sign (n <? 0) a) = true) as Hfin by (unfold is_finite; rewrite Ea; apply Z.ltb_lt; lia).
  split; [done|]. split.
  - unfold is_whole. rewrite Hfin, Hd'. simpl. destruct Hv as [[He _]|[He ->]].
    + apply orb_true_iff. left. apply Z.leb_le. lia.
    + apply orb_true_iff. right. apply Z.eqb_eq. apply Z.mod_mul.
      assert (0 < 2 ^ (- e)) by (apply Z.pow_pos_nonneg; lia). lia.
  - unfold f64_as_i64, is_nan. rewrite Hfin, Ea. destruct (Z.ltb_spec INF_BITS a); [lia|].
    unfold f64_trunc. rewrite Hd', En.
    assert ((if 0 <=? e then m * 2 ^ e else m / 2 ^ (- e)) = Z.abs n) as ->.
    { destruct Hv as [[He Hm]|[He ->]]; destruct (Z.leb_spec 0 e); try lia. apply Z.div_mul.
      assert (0 < 2 ^ (- e)) by (apply Z.pow_pos_nonneg; lia). lia. }
    destruct (Z.ltb_spec n 0); unfold sat_i64, I64_MIN, I64_MAX; lia.
Qed.

(** ** Sums of counts are exact *)

Lemma div_even_scale m s k : 0 <= s -> 0 <= k -> div_even (m * 2 ^ k) (s + k) = div_even m s.
Proof.
  intros Hs Hk. unfold div_even. assert (0 < 2 ^ k) by (apply Z.pow_pos_nonneg; lia). assert (0 < 2 ^ s) by (apply Z.pow_pos_nonneg; lia).
  rewrite Z.pow_add_r by lia. rewrite Z.div_mul_cancel_r, Z.mul_mod_distr_r by lia.
  set (r := m mod 2 ^ s). set (q := m / 2 ^ s).
  repeat split_test; try done; nia.
Qed.
Lemma div_even_whole x s : 0 <= s -> div_even (x * 2 ^ s) s = x.
Proof.
  intros Hs. unfold div_even. assert (0 < 2 ^ s) by (apply Z.pow_pos_nonneg; lia). rewrite Z.div_mul, Z.mod_mul by lia.
  split_test; lia.
Qed.
Lemma f64_round_scale m e k : 0 < m -> 0 <= k -> f64_round (m * 2 ^ k) (e - k) = f64_round m e.
Proof.
  intros Hm Hk. assert (0 < 2 ^ k) by (apply Z.pow_pos_nonneg; lia). unfold f64_round.
  rewrite (proj2 (Z.eqb_neq m 0)), (proj2 (Z.eqb_neq (m * 2 ^ k) 0)) by nia. rewrite Z.log2_mul_pow2 by lia.
  replace (k + Z.log2 m + (e - k) - 52) with (Z.log2 m + e - 52) by lia. set (q := Z.max _ _). do 2 f_equal.
  destruct (Z.leb_spec q (e - k)).
  - rewrite (proj2 (Z.leb_le q e)) by lia. rewrite <- Z.mul_assoc, <- Z.pow_add_r by lia. do 2 f_equal. lia.
  - destruct (Z.leb_spec q e).
    + replace (m * 2 ^ k) with (m * 2 ^ (e - q) * 2 ^ (q - (e - k))); [apply div_even_whole; lia|].
      rewrite <- Z.mul_assoc, <- Z.pow_add_r by lia. do 2 f_equal. lia.
    + replace (q - (e - k)) with (q - e + k) by lia. apply div_even_scale; lia.
Qed.
Lemma f64_of_Z_units n : 0 <= n <= 2 ^ 53 -> f64_units (f64_of_Z n) = n * 2 ^ 1074.
Proof.
  intros Hn. destruct (decide (n = 0)) as [->|Hz]; [reflexivity|]. destruct (f64_round_exact n) as (m & e & Hd & Hf & Hv); [lia|].
  pose proof (f64_round_le n Hn) as [H0 _]. unfold f64_units, f64_of_Z. rewrite (proj2 (Z.ltb_ge n 0)), Z.abs_eq by lia. cbn [with_sign].
  rewrite Hd. unfold f64_negative. rewrite (proj2 (Z.leb_gt (2 ^ 63) _)) by (unfold INF_BITS in Hf; lia). destruct Hv as [[He ->]|[He ->]].
  - rewrite <- Z.mul_assoc, <- Z.pow_add_r by lia. reflexivity.
  - assert (-1074 <= e) as Hlow.
    { unfold f64_decode in Hd. revert Hd. destruct (Z.eqb_spec (f64_abs (f64_round n 0) / 2 ^ 52) 0); intros [= Hm <-]; [lia|].
      assert (0 <= f64_abs (f64_round n 0) / 2 ^ 52) by (apply Z.div_pos; [|lia]; unfold f64_abs; apply Z.mod_pos_bound; lia). lia. }
    rewrite <- Z.mul_assoc, <- Z.pow_add_r by lia. do 2 f_equal. lia.
Qed.
Lemma f64_of_units_Z n : 0 <= n -> f64_of_units (n * 2 ^ 1074) = f64_of_Z n.
Proof.
  intros Hn. unfold f64_of_units, f64_of_Z. assert (0 < 2 ^ 1074) by (apply Z.pow_pos_nonneg; lia).
  rewrite (proj2 (Z.ltb_ge n 0)), (proj2 (Z.ltb_ge (n * 2 ^ 1074) 0)), !Z.abs_eq by nia. cbn [with_sign].
  destruct (decide (n = 0)) as [->|]; [reflexivity|]. change (-1074) with (0 - 1074). apply f64_round_scale; lia.
Qed.
Lemma f64_of_Z_bits n : 0 <= n <= 2 ^ 53 ->
  is_nan (f64_of_Z n) = false /\ is_finite (f64_of_Z n) = true /\ f64_negative (f64_of_Z n) = false /\ f64_pos (f64_of_Z n) = (0 <? n).
Proof.
  intros Hn. destruct (f64_of_Z_exact n) as (Hf & _ & Ht); [lia|]. pose proof (f64_round_le n Hn) as Hb.
  assert (f64_of_Z n = f64_round n 0) as E. { unfold f64_of_Z. by rewrite (proj2 (Z.ltb_ge n 0)), Z.abs_eq by lia. }
  change (f64_of_Z (2 ^ 53)) with (1076 * 2 ^ 52) in Hb. rewrite <- E in Hb. unfold is_nan, f64_negative, f64_pos. unfold f64_abs. rewrite Z.mod_small by lia.
  split_and!; [apply Z.ltb_ge; unfold INF_BITS; lia|done|apply Z.leb_gt; lia|].
  rewrite (proj2 (Z.leb_le (f64_of_Z n) INF_BITS)) by (unfold INF_BITS; lia). rewrite andb_true_r.
  destruct (decide (n = 0)) as [->|]; [reflexivity|]. rewrite (proj2 (Z.ltb_lt 0 n)) by lia. apply Z.ltb_lt.
  destruct (decide (f64_of_Z n = 0)) as [Ez|]; [|lia]. rewrite Ez in Ht. change (f64_as_i64 0) with 0 in Ht. lia.
Qed.
Lemma f64_add_exact a b : 0 <= a -> 0 <= b -> a + b <= 2 ^ 53 -> f64_add (f64_of_Z a) (f64_of_Z b) = f64_of_Z (a + b).
Proof.
  intros Ha Hb Hs. destruct (f64_of_Z_bits a) as (Na & Fa & Sa & _); [lia|]. destruct (f64_of_Z_bits b) as (Nb & Fb & Sb & _); [lia|].
  unfold f64_add. rewrite Na, Nb, Fa, Fb, Sa. cbn [orb andb]. rewrite andb_false_r. cbn [andb].
  rewrite !f64_of_Z_units, <- Z.mul_add_distr_r by lia. apply f64_of_units_Z. lia.
Qed.
