(* ===== verification/Dates.v ===== *)
(** * Date literals (crates/rsearch-index/src/date.rs; [epoch_to_millis] and
    [parse_timestamp] of document.rs; [parse_time_millis] of
    crates/rsearch-search/src/query_dsl.rs)

    The [strict_date_optional_time||epoch_millis] grammar.  The calendar is the
    [time] crate's: the class [TimeCrate].  A string slice off a character
    boundary panics, so a parse has three outcomes. *)

From Stdlib Require Import ZArith Lia.
From Stdlib Require Import Strings.Byte.
From stdpp Require Import base gmap sets list strings sorting.
From S2P Require Import Prelude Json Float64.

Local Open Scope Z_scope.

(** ** What the parser uses of the [time] crate *)

Class TimeCrate := {
  Date : Type;
  Time : Type;
  UtcOffset : Type;
  from_calendar_date : Z -> Z -> Z -> option Date;
  from_hms_nano : Z -> Z -> Z -> Z -> option Time;
  MIDNIGHT : Time;
  from_hms : Z -> Z -> Z -> option UtcOffset;
  UTC : UtcOffset;
  (** [PrimitiveDateTime::new(d, t).assume_offset(o).unix_timestamp_nanos()] *)
  unix_timestamp_nanos : Date -> Time -> UtcOffset -> Z;
}.

(** What its documentation says of them: dates count days, a time the
    nanoseconds since midnight, an offset the seconds east of UTC. *)
Class TimeLaws (T : TimeCrate) := {
  epoch_day : Date -> Z;
  day_nanos : Time -> Z;
  offset_seconds : UtcOffset -> Z;
  stamp_value d t o :
    unix_timestamp_nanos d t o = epoch_day d * 86400000000000 + day_nanos t - offset_seconds o * 1000000000;
  hms_nano_in h m s n : 0 <= h < 24 -> 0 <= m < 60 -> 0 <= s < 60 -> 0 <= n < 1000000000 ->
    exists t, from_hms_nano h m s n = Some t /\ day_nanos t = ((h * 60 + m) * 60 + s) * 1000000000 + n;
  midnight_nanos : day_nanos MIDNIGHT = 0;
  hms_in h m : 0 <= h < 24 -> 0 <= m < 60 ->
    exists o, from_hms h m 0 = Some o /\ offset_seconds o = (h * 60 + m) * 60;
  hms_in_west h m : 0 <= h < 24 -> 0 <= m < 60 ->
    exists o, from_hms (- h) (- m) 0 = Some o /\ offset_seconds o = - ((h * 60 + m) * 60);
  utc_seconds : offset_seconds UTC = 0;
}.

(** ** Outcomes of a parse *)

Inductive parsed (A : Type) := Got (a : A) | Refused | Panics.
Arguments Got {A} a.
Arguments Refused {A}.
Arguments Panics {A}.

#[export] Instance parsed_ret : MRet parsed := fun A a => Got a.
#[export] Instance parsed_bind : MBind parsed := fun A B f p =>
  match p with Got a => f a | Refused => Refused | Panics => Panics end.
#[export] Instance parsed_fmap : FMap parsed := fun A B f p =>
  match p with Got a => Got (f a) | Refused => Refused | Panics => Panics end.

(** [?] on an [Option]. *)
Definition opt {A} (o : option A) : parsed A := match o with Some a => Got a | None => Refused end.

(** ** [document.rs]: epoch numbers *)

Definition MAX_SAFE_MILLIS : Z := I64_MAX / 1000000.
Definition clamp_millis (z : Z) : Z := Z.max (- MAX_SAFE_MILLIS) (Z.min MAX_SAFE_MILLIS z).

Definition epoch_to_millis (value : Z) : Z :=
  let a := Z.abs value in
  clamp_millis
    (if a <=? 99999999999 then sat_i64 (value * 1000)
     else if a <=? 99999999999999 then value
     else if a <=? 99999999999999999 then Z.quot value 1000
     else Z.quot value 1000000).

(** ** [date.rs] *)

Definition is_ascii_digit (b : byte) : bool := in_rng (bz b) 48 57.

(** The first position of a byte of a set. *)
Fixpoint split_at_any (chars l : bytes) : bytes * bytes :=
  match l with
  | [] => ([], [])
  | b :: r => if existsb (Byte.eqb b) chars then ([], l) else let '(x, y) := split_at_any chars r in (b :: x, y)
  end.

Definition digits (n : nat) (value : bytes) : option Z :=
  if ((length value =? n)%nat && forallb is_ascii_digit value) then parse_u U32_MAX value else None.

(** [str::is_char_boundary], for a slice [..i] or [i..] not to panic. *)
Definition is_char_boundary (l : bytes) (i : nat) : bool :=
  (i =? 0)%nat || (i =? length l)%nat ||
  match l !! i with Some b => negb (is_cont b) | None => false end.
Definition split_at (i : nat) (l : bytes) : parsed (bytes * bytes) :=
  if is_char_boundary l i then Got (take i l, drop i l) else Panics.

Section parser.
Context `{T : TimeCrate}.

Definition offset_millis (nanos : Z) : Z := clamp_millis (Z.quot nanos 1000000).
Definition millis_from (d : Date) (t : Time) (o : UtcOffset) : Z := offset_millis (unix_timestamp_nanos d t o).

Definition parse_offset (value : bytes) : parsed UtcOffset :=
  if decide (value = [] \/ value = str "Z") then Got UTC
  else
    '(sign, rest) ← split_at 1 value;
    s ← (if decide (sign = str "+") then Got 1 else if decide (sign = str "-") then Got (-1) else Refused);
    '(hours, minutes) ←
      match split_once x3a rest with
      | Some (h, m) => hh ← opt (digits 2 h); mm ← opt (digits 2 m); Got (hh, mm)
      | None =>
          match length rest with
          | 2%nat => hh ← opt (digits 2 rest); Got (hh, 0)
          | 4%nat =>
              '(h, m) ← split_at 2 rest;
              hh ← opt (digits 2 h); mm ← opt (digits 2 m); Got (hh, mm)
          | _ => Refused
          end
      end;
    opt (from_hms (s * hours) (s * minutes) 0).

Definition parse_time (value : bytes) : parsed Time :=
  let '(clock, fraction) :=
    match split_once x2e value with Some (c, f) => (c, Some f) | None => (value, None) end in
  match split_on x3a clock with
  | h :: m :: rest =>
      hour ← opt (digits 2 h);
      minute ← opt (digits 2 m);
      second ← match rest, fraction with
               | s :: _, _ => opt (digits 2 s)
               | [], Some _ => Refused
               | [], None => Got 0
               end;
      if decide (length rest <= 1)%nat then
        nanos ← match fraction with
                | Some f =>
                    if decide (f = []) then Refused
                    else if (9 <? length f)%nat || negb (forallb is_ascii_digit f) then Refused
                    else opt (parse_u U32_MAX (f ++ replicate (9 - length f) x30))
                | None => Got 0
                end;
        opt (from_hms_nano hour minute second nanos)
      else Refused
  | _ => Refused
  end.

Definition parse_date (value : bytes) : parsed Date :=
  match split_on x2d value with
  | y :: rest =>
      year ← opt (digits 4 y);
      month ← match rest with
              | m :: _ => n ← opt (digits 2 m); if (1 <=? n) && (n <=? 12) then Got n else Refused
              | [] => Got 1
              end;
      day ← match tail rest with d :: _ => opt (digits 2 d) | [] => Got 1 end;
      if decide (length rest <= 2)%nat then opt (from_calendar_date year month day) else Refused
  | [] => Refused
  end.

Definition parse_iso (value : bytes) : parsed Z :=
  let '(date_part, rest) := match split_once x54 value with Some p => p | None => (value, []) end in
  date ← parse_date date_part;
  if decide (rest = []) then Got (millis_from date MIDNIGHT UTC)
  else
    let '(time_part, offset_part) := split_at_any (str "Z+-") rest in
    time ← parse_time time_part;
    offset ← parse_offset offset_part;
    Got (millis_from date time offset).

Definition parse_date_string (value : bytes) : parsed Z :=
  if decide (value = []) then Refused
  else match parse_iso value with
       | Got millis => Got millis
       | Panics => Panics
       | Refused =>
           let ds := match value with x2d :: r => r | _ => value end in
           if negb (bool_decide (ds = [])) && forallb is_ascii_digit ds
           then epoch_to_millis <$> opt (parse_i64 value)
           else Refused
       end.

(** ** The callers: [document.rs] on the write path, [query_dsl.rs] for bounds *)

Definition parse_timestamp (value : json) : parsed Z :=
  match value with
  | JString s => parse_date_string s
  | Number n =>
      match as_i64 (Number n) with
      | Some i => Got (epoch_to_millis i)
      | None =>
          let f := number_f64 n in
          if negb (is_finite f) then Refused
          else if abs_lt f 100000000000 then Got (clamp_millis (f64_as_i64 (f64_mul_pos f 1000)))
          else Got (epoch_to_millis (f64_as_i64 f))
      end
  | _ => Refused
  end.

(** [extract_timestamp]; the converter stamps a document without one with the
    fallback of its batch ([document.rs:145]). *)
Definition extract_timestamp (doc : json) : parsed Z :=
  match get doc (str "@timestamp") with
  | Some value => parse_timestamp value
  | None => match get doc (str "timestamp") with Some value => parse_timestamp value | None => Refused end
  end.
Definition effective_timestamp (doc : json) (fallback : Z) : parsed Z :=
  match extract_timestamp doc with Refused => Got fallback | p => p end.

(** [now]: the clock in epoch milliseconds. *)
Definition parse_time_millis (now : Z) (value : json) : parsed Z :=
  match value with
  | JString s => if decide (s = str "now") then Got now else parse_date_string s
  | Number n =>
      match as_i64 (Number n) with
      | Some i => Got (epoch_to_millis i)
      | None =>
          let f := number_f64 n in
          if is_finite f then Got (f64_as_i64 (f64_mul_pos f 1000)) else Refused
      end
  | _ => Refused
  end.
End parser.

(** ** Fixed-width numerals *)

Definition seqZ_to (n : nat) : list Z := Z.of_nat <$> seq 0 n.
Lemma elem_of_seqZ_to n z : z ∈ seqZ_to n <-> 0 <= z < Z.of_nat n.
Proof.
  unfold seqZ_to. rewrite list_elem_of_fmap. setoid_rewrite elem_of_seq. split.
  - intros (k & -> & ?). lia.
  - intros H. exists (Z.to_nat z). lia.
Qed.

Lemma all_below (f : Z -> bool) n : forallb f (seqZ_to n) = true -> forall z, 0 <= z < Z.of_nat n -> f z = true.
Proof. rewrite forallb_forall. intros H z Hz. apply H, list_elem_of_In, elem_of_seqZ_to, Hz. Qed.

Lemma digits_2 z : 0 <= z < 100 -> digits 2 (dec_pad 2 z) = Some z.
Proof.
  intros H. apply (bool_decide_eq_true_1 (digits 2 (dec_pad 2 z) = Some z)).
  revert z H. apply (all_below _ 100). vm_compute. reflexivity.
Qed.
Lemma digits_4 z : 0 <= z < 10000 -> digits 4 (dec_pad 4 z) = Some z.
Proof.
  intros H. apply (bool_decide_eq_true_1 (digits 4 (dec_pad 4 z) = Some z)).
  revert z H. apply (all_below _ 10000). vm_compute. reflexivity.
Qed.

Lemma millis_digits z : 0 <= z < 1000 ->
  length (dec_pad 3 z) = 3%nat /\ parse_u U32_MAX (dec_pad 3 z ++ replicate 6 x30) = Some (z * 1000000).
Proof.
  intros H. apply (bool_decide_eq_true_1 (length (dec_pad 3 z) = 3%nat /\ parse_u U32_MAX (dec_pad 3 z ++ replicate 6 x30) = Some (z * 1000000))).
  revert z H. apply (all_below _ 1000). vm_compute. reflexivity.
Qed.

Lemma digits_digit n l z : digits n l = Some z -> forallb is_ascii_digit l = true /\ length l = n.
Proof.
  unfold digits. destruct (Nat.eqb_spec (length l) n); [|done]. destruct (forallb _ l); [done|]. done.
Qed.

Lemma uint_bytes_digits d : forallb is_ascii_digit (uint_bytes d) = true.
Proof. induction d; simpl; [done|by rewrite IHd..]. Qed.
Lemma dec_pad_digits w z : forallb is_ascii_digit (dec_pad w z) = true.
Proof.
  unfold dec_pad, dec. rewrite forallb_app, uint_bytes_digits, andb_true_r.
  induction (w - _)%nat; [done|]. by cbn [replicate forallb].
Qed.

(** A separator does not occur among digits. *)
Definition separator (c : byte) : Prop := is_ascii_digit c = false.
Lemma digit_ne c b : separator c -> is_ascii_digit b = true -> Byte.eqb b c = false.
Proof. intros Hc Hb. apply not_true_iff_false. intros E%Byte.byte_dec_bl. subst. unfold separator in Hc. congruence. Qed.

Lemma split_once_digits c l r : separator c -> forallb is_ascii_digit l = true -> split_once c (l ++ c :: r) = Some (l, r).
Proof.
  intros Hc. induction l as [|b l IH]; simpl.
  - intros _. by rewrite (Byte.byte_dec_lb eq_refl).
  - intros [Hb Hl]%andb_true_iff. by rewrite (digit_ne c b), IH.
Qed.
Lemma split_once_none c l : separator c -> forallb is_ascii_digit l = true -> split_once c l = None.
Proof.
  intros Hc. induction l as [|b l IH]; [done|]. simpl. intros [Hb Hl]%andb_true_iff. by rewrite (digit_ne c b), IH.
Qed.
Lemma split_once_skip c l x y r : Byte.eqb x c = false -> split_once c r = Some (l, y) -> split_once c (x :: r) = Some (x :: l, y).
Proof. simpl. by intros -> ->. Qed.
Lemma split_on_digits c l r : separator c -> forallb is_ascii_digit l = true -> split_on c (l ++ c :: r) = l :: split_on c r.
Proof.
  intros Hc. induction l as [|b l IH]; simpl.
  - intros _. by rewrite (Byte.byte_dec_lb eq_refl).
  - intros [Hb Hl]%andb_true_iff. by rewrite (digit_ne c b), IH.
Qed.
Lemma split_on_last c l : separator c -> forallb is_ascii_digit l = true -> split_on c l = [l].
Proof.
  intros Hc. induction l as [|b l IH]; [done|]. simpl. intros [Hb Hl]%andb_true_iff. by rewrite (digit_ne c b), IH.
Qed.
Lemma split_at_any_none chars l x r : forallb (fun b => negb (existsb (Byte.eqb b) chars)) l = true ->
  existsb (Byte.eqb x) chars = true -> split_at_any chars (l ++ x :: r) = (l, x :: r).
Proof.
  intros Hl Hx. induction l as [|b l IH]; simpl; [by rewrite Hx|].
  simpl in Hl. apply andb_true_iff in Hl as [Hb Hl]. apply negb_true_iff in Hb. by rewrite Hb, IH.
Qed.

(** ** The literals documents carry *)

Lemma dec_pad_avoids (p : byte -> bool) w z : (forall b, is_ascii_digit b = true -> p b = true) -> forallb p (dec_pad w z) = true.
Proof.
  intros Hp. pose proof (dec_pad_digits w z) as Hd. rewrite forallb_forall in Hd |- *. intros b Hb. by apply Hp, Hd.
Qed.

(** A text of digits and separators avoids other separators. *)
Ltac avoid_digits :=
  repeat (rewrite forallb_app || cbn [forallb]);
  rewrite !dec_pad_avoids by (intros [] Hb; (reflexivity || discriminate Hb)); reflexivity.

Section literals.
Context `{T : TimeCrate} `{TL : !TimeLaws T}.

(** [yyyy-MM-ddTHH:mm:ss.SSS±HH:mm]. *)
Definition iso_date (y mo d : Z) : bytes := dec_pad 4 y ++ x2d :: dec_pad 2 mo ++ x2d :: dec_pad 2 d.
Definition iso_time (h mi s ms : Z) : bytes :=
  (dec_pad 2 h ++ x3a :: dec_pad 2 mi ++ x3a :: dec_pad 2 s) ++ x2e :: dec_pad 3 ms.
Definition iso_offset (west : bool) (oh om : Z) : bytes :=
  (if west then x2d else x2b) :: dec_pad 2 oh ++ x3a :: dec_pad 2 om.
Definition iso_literal (y mo d h mi s ms : Z) (west : bool) (oh om : Z) : bytes :=
  iso_date y mo d ++ x54 :: iso_time h mi s ms ++ iso_offset west oh om.

Lemma parse_iso_date y mo d D : 0 <= y < 10000 -> 1 <= mo <= 12 -> 0 <= d < 100 ->
  from_calendar_date y mo d = Some D -> parse_date (iso_date y mo d) = Got D.
Proof.
  intros Hy Hm Hd E. unfold parse_date, iso_date.
  rewrite !split_on_digits, split_on_last by (done || apply dec_pad_digits).
  rewrite digits_4 by lia. cbn [opt mbind parsed_bind tail]. rewrite !digits_2 by lia. cbn [opt mbind parsed_bind].
  assert ((1 <=? mo) && (mo <=? 12) = true) as -> by (apply andb_true_iff; split; apply Z.leb_le; lia).
  cbn [opt mbind parsed_bind]. rewrite decide_True by (simpl; lia). by rewrite E.
Qed.

Lemma colon_separator : separator x3a. Proof. done. Qed.

Lemma parse_iso_time h mi s ms : 0 <= h < 24 -> 0 <= mi < 60 -> 0 <= s < 60 -> 0 <= ms < 1000 ->
  exists t, parse_time (iso_time h mi s ms) = Got t /\ day_nanos t = ((h * 60 + mi) * 60 + s) * 1000000000 + ms * 1000000.
Proof.
  intros Hh Hmi Hs Hms. destruct (hms_nano_in h mi s (ms * 1000000)) as (t & E & V); [lia..|].
  exists t. split; [|done]. unfold parse_time, iso_time. rewrite split_once_app.
  - cbn [split_once]. rewrite (Byte.byte_dec_lb eq_refl). cbn [mbind option_bind]. rewrite app_nil_r.
    rewrite !split_on_digits, split_on_last by (done || apply dec_pad_digits).
    rewrite !digits_2 by lia. cbn [opt mbind parsed_bind]. rewrite decide_True by (simpl; lia).
    destruct (millis_digits ms) as [Hl Hp]; [lia|].
    rewrite decide_False by (by intros E0; rewrite E0 in Hl). rewrite Hl, dec_pad_digits. cbn [Nat.ltb Nat.leb orb negb Nat.sub].
    rewrite Hp. cbn [opt mbind parsed_bind]. by rewrite E.
  - avoid_digits.
Qed.

Lemma parse_iso_offset west oh om : 0 <= oh < 24 -> 0 <= om < 60 ->
  exists o, parse_offset (iso_offset west oh om) = Got o /\
    offset_seconds o = (if west then -1 else 1) * ((oh * 60 + om) * 60).
Proof.
  intros Hh Hm. unfold parse_offset, iso_offset.
  rewrite decide_False by (intros [?|E]; [done|]; apply (f_equal length) in E; simpl in E;
    rewrite length_app in E; simpl in E; lia).
  set (r := dec_pad 2 oh ++ _ :: dec_pad 2 om).
  assert (split_at 1 ((if west then x2d else x2b) :: r) = Got ([if west then x2d else x2b], r)) as ->.
  { unfold split_at, is_char_boundary. unfold r.
    assert (exists b l, dec_pad 2 oh = b :: l) as (b & l & E).
    { destruct (digits_digit 2 (dec_pad 2 oh) oh) as [_ Hl]; [apply digits_2; lia|]. destruct (dec_pad 2 oh); [done|eauto]. }
    pose proof (dec_pad_digits 2 oh) as Hd. rewrite E in Hd |- *. simpl in Hd. apply andb_true_iff in Hd as [Hb _].
    simpl. replace (is_cont b) with false; [done|]. symmetry. unfold is_cont, is_ascii_digit, in_rng in *.
    apply andb_true_iff in Hb as [? ?%Z.leb_le]. apply andb_false_iff. left. apply Z.leb_gt. lia. }
  cbn [mbind parsed_bind]. unfold r.
  destruct west; cbn [mbind parsed_bind]; rewrite split_once_digits by (done || apply dec_pad_digits);
    rewrite !digits_2 by lia; cbn [opt mbind parsed_bind].
  - rewrite decide_False by done. rewrite decide_True by done. cbn [mbind parsed_bind].
    destruct (hms_in_west oh om Hh Hm) as (o & E & V). exists o.
    replace (-1 * oh) with (- oh) by lia. replace (-1 * om) with (- om) by lia. rewrite E. split; [done|]. lia.
  - rewrite decide_True by done. cbn [mbind parsed_bind].
    destruct (hms_in oh om Hh Hm) as (o & E & V). exists o. rewrite !Z.mul_1_l, E. split; [done|]. lia.
Qed.

(** A full ISO literal denotes the instant its fields spell: the civil day
    and time of day, less the offset, to the millisecond, clamped to what the
    index can hold. *)
Theorem iso_literal_exact y mo d h mi s ms west oh om D :
  0 <= y < 10000 -> 1 <= mo <= 12 -> 0 <= d < 100 -> from_calendar_date y mo d = Some D ->
  0 <= h < 24 -> 0 <= mi < 60 -> 0 <= s < 60 -> 0 <= ms < 1000 -> 0 <= oh < 24 -> 0 <= om < 60 ->
  parse_date_string (iso_literal y mo d h mi s ms west oh om) =
    Got (clamp_millis (epoch_day D * 86400000 + ((h * 60 + mi) * 60 + s) * 1000 + ms
                       - (if west then -1 else 1) * (oh * 60 + om) * 60000)).
Proof.
  intros Hy Hmo Hd HD Hh Hmi Hs Hms Hoh Hom. set (off := (if west then -1 else 1) * (oh * 60 + om)).
  destruct (parse_iso_time h mi s ms) as (t & Et & Vt); [lia..|].
  destruct (parse_iso_offset west oh om) as (o & Eo & Vo); [lia..|].
  assert (parse_iso (iso_literal y mo d h mi s ms west oh om) = Got (millis_from D t o)) as E.
  { unfold parse_iso, iso_literal. rewrite split_once_app.
    - cbn [split_once]. rewrite (Byte.byte_dec_lb eq_refl). cbn [mbind option_bind].
      rewrite app_nil_r, (parse_iso_date _ _ _ D) by done. cbn [mbind parsed_bind].
      rewrite decide_False by (unfold iso_offset; intros E; apply (f_equal length) in E; rewrite length_app in E; simpl in E; lia).
      unfold iso_offset at 1. rewrite split_at_any_none; [|unfold iso_time; avoid_digits|by destruct west].
      rewrite Et. cbn [mbind parsed_bind]. fold (iso_offset west oh om). by rewrite Eo.
    - unfold iso_date. avoid_digits. }
  unfold parse_date_string. rewrite decide_False.
  - rewrite E. f_equal. unfold millis_from, offset_millis. rewrite stamp_value, Vt, Vo. f_equal.
    rewrite <- (Z.quot_mul (_ + ms - _) 1000000) by lia. f_equal. unfold off. lia.
  - unfold iso_literal. intros E0. apply (f_equal length) in E0. rewrite length_app in E0. simpl in E0. lia.
Qed.
End literals.

(** ** Bounds and panics *)

Section outcomes.
Context `{T : TimeCrate}.

Lemma clamp_range z : - MAX_SAFE_MILLIS <= clamp_millis z <= MAX_SAFE_MILLIS.
Proof. unfold clamp_millis. assert (0 <= MAX_SAFE_MILLIS) by (by vm_compute). lia. Qed.
Hint Resolve clamp_range : core.

Definition in_safe_range (p : parsed Z) : Prop :=
  match p with Got z => - MAX_SAFE_MILLIS <= z <= MAX_SAFE_MILLIS | _ => True end.

Lemma parsed_bind_safe {A} (p : parsed A) (k : A -> parsed Z) : (forall a, in_safe_range (k a)) -> in_safe_range (p ≫= k).
Proof. by destruct p; simpl. Qed.

Lemma parse_date_string_safe value : in_safe_range (parse_date_string value).
Proof.
  assert (in_safe_range (parse_iso value)) as Hi.
  { unfold parse_iso. destruct (match split_once _ _ with Some p => p | None => _ end) as [dp rest].
    apply parsed_bind_safe. intros d. destruct (decide (rest = [])); [apply clamp_range|].
    destruct (split_at_any _ _) as [tp op]. apply parsed_bind_safe. intros t. apply parsed_bind_safe. intros o. apply clamp_range. }
  unfold parse_date_string. destruct (decide (value = [])); [done|].
  destruct (parse_iso value); [done| |done].
  destruct (_ && _); [|done]. destruct (parse_i64 value); simpl; [|done]. apply clamp_range.
Qed.

(** Whatever a document's timestamp is, the value indexed stays in the
    range the index's nanoseconds can hold. *)
Theorem parse_timestamp_safe value : in_safe_range (parse_timestamp value).
Proof.
  destruct value as [| |n|s| |]; try done; [|apply parse_date_string_safe].
  unfold parse_timestamp. destruct (as_i64 (Number n)) as [i|]; [apply clamp_range|].
  destruct (negb (is_finite (number_f64 n))); [done|]. destruct (abs_lt _ _); apply clamp_range.
Qed.

(** A range bound is not clamped and reads a float as seconds whatever its
    size: a float of milliseconds bounds another instant than the one a
    document with the same number has. *)
Lemma float_bound_differs now :
  let f := Number (Float (f64_of_Z 1753300000000)) in
  parse_timestamp f = Got 1753300000000 /\ parse_time_millis now f = Got 1753300000000000.
Proof. split; vm_compute; reflexivity. Qed.

(** *** Slices *)

Definition ascii (l : bytes) : Prop := Forall (fun b => bz b < 128) l.

Lemma ascii_boundary l i : ascii l -> (i <= length l)%nat -> is_char_boundary l i = true.
Proof.
  intros Ha Hi. unfold is_char_boundary. destruct (Nat.eqb_spec i 0); [done|]. destruct (Nat.eqb_spec i (length l)); [done|].
  simpl. destruct (lookup_lt_is_Some_2 l i) as [b E]; [lia|]. rewrite E.
  pose proof (proj1 (Forall_lookup _ _) Ha _ _ E) as Hb. simpl in Hb.
  apply negb_true_iff. unfold is_cont, in_rng. apply andb_false_iff. left. apply Z.leb_gt. lia.
Qed.

Lemma bind_no_panic {A B} (p : parsed A) (k : A -> parsed B) :
  p <> Panics -> (forall a, p = Got a -> k a <> Panics) -> p ≫= k <> Panics.
Proof. destruct p; simpl; [|done..]. intros _ H. by apply H. Qed.
Lemma opt_no_panic {A} (o : option A) : opt o <> Panics.
Proof. by destruct o. Qed.

Ltac no_panic :=
  repeat first
    [ discriminate
    | apply opt_no_panic
    | apply bind_no_panic; [|intros ?a ?H]
    | progress case_decide
    | match goal with |- context [match ?x with _ => _ end] => destruct x end ].

Lemma split_at_ascii l i : ascii l -> (i <= length l)%nat -> split_at i l = Got (take i l, drop i l).
Proof. intros Ha Hi. unfold split_at. by rewrite ascii_boundary. Qed.

Lemma parse_offset_ascii value : ascii value -> parse_offset value <> Panics.
Proof.
  intros Ha. unfold parse_offset. destruct (decide _) as [|Hn]; [done|].
  rewrite split_at_ascii; [|done|destruct value; simpl; [naive_solver|lia]]. cbn [mbind parsed_bind].
  apply bind_no_panic; [no_panic|]. intros s _. apply bind_no_panic; [|intros [hh mm] _; apply opt_no_panic].
  destruct (split_once _ _) as [[h m]|]; [no_panic|].
  destruct (length (drop 1 value)) as [|[|[|[|[|]]]]] eqn:E; try (no_panic; fail).
  rewrite split_at_ascii; [|by apply Forall_drop|lia]. cbn [mbind parsed_bind]. no_panic.
Qed.

Lemma split_at_any_app chars l : (split_at_any chars l).1 ++ (split_at_any chars l).2 = l.
Proof.
  induction l as [|b l IH]; [done|]. simpl. destruct (existsb _ _); [done|].
  destruct (split_at_any chars l). simpl in *. by rewrite IH.
Qed.

(** A literal of ASCII characters is read or refused, never a panic. *)
Lemma ascii_never_panics value : ascii value -> parse_date_string value <> Panics.
Proof.
  intros Ha. assert (parse_iso value <> Panics) as Hi.
  { unfold parse_iso. destruct (split_once x54 value) as [[dp rest]|] eqn:E.
    - apply split_once_parts in E. subst value. apply Forall_app in Ha as [_ Ha]. apply Forall_cons in Ha as [_ Ha].
      apply bind_no_panic; [unfold parse_date; no_panic|]. intros d _. case_decide; [done|].
      destruct (split_at_any _ _) as [tp op] eqn:E. apply bind_no_panic; [unfold parse_time; no_panic|]. intros t _.
      apply bind_no_panic; [|done]. apply parse_offset_ascii.
      pose proof (split_at_any_app (str "Z+-") rest) as E'. rewrite E in E'. simpl in E'. subst rest.
      by apply Forall_app in Ha as [_ Ha].
    - apply bind_no_panic; [unfold parse_date; no_panic|]. intros d _. by rewrite decide_True. }
  unfold parse_date_string. case_decide; [done|]. destruct (parse_iso value); [done| |done].
  no_panic.
Qed.
End outcomes.

(** ** A calendar, for the examples *)

(** Days since 1970-01-01 of a proleptic Gregorian date. *)
Definition leap (y : Z) : bool := (y mod 4 =? 0) && negb ((y mod 100 =? 0) && negb (y mod 400 =? 0)).
Definition month_days (y m : Z) : Z :=
  if m =? 2 then (if leap y then 29 else 28)
  else if (m =? 4) || (m =? 6) || (m =? 9) || (m =? 11) then 30 else 31.
Definition civil_day (y m d : Z) : Z :=
  let y := if m <=? 2 then y - 1 else y in
  let era := y / 400 in
  let yoe := y mod 400 in
  let doy := (153 * (if m <=? 2 then m + 9 else m - 3) + 2) / 5 + d - 1 in
  era * 146097 + yoe * 365 + yoe / 4 - yoe / 100 + doy - 719468.

Definition gregorian : TimeCrate := {|
  Date := Z; Time := Z; UtcOffset := Z;
  from_calendar_date y m d :=
    if (1 <=? m) && (m <=? 12) && (1 <=? d) && (d <=? month_days y m) then Some (civil_day y m d) else None;
  from_hms_nano h m s n :=
    if in_rng h 0 23 && in_rng m 0 59 && in_rng s 0 59 && in_rng n 0 999999999
    then Some (((h * 60 + m) * 60 + s) * 1000000000 + n) else None;
  MIDNIGHT := 0;
  from_hms h m s :=
    if in_rng h (-25) 25 && in_rng m (-59) 59 && in_rng s (-59) 59 then Some ((h * 60 + m) * 60 + s) else None;
  UTC := 0;
  unix_timestamp_nanos d t o := d * 86400000000000 + t - o * 1000000000;
|}.

Ltac in_ranges := unfold in_rng; repeat (rewrite andb_true_iff || split); apply Z.leb_le; lia.

#[export] Instance gregorian_laws : TimeLaws gregorian.
Proof.
  refine {| epoch_day := fun d : @Date gregorian => d : Z; day_nanos := fun t : @Time gregorian => t : Z;
            offset_seconds := fun o : @UtcOffset gregorian => o : Z |}; try done.
  - intros h m s n Hh Hm Hs Hn. simpl. eexists. split; [|reflexivity].
    assert (in_rng h 0 23 && in_rng m 0 59 && in_rng s 0 59 && in_rng n 0 999999999 = true) as -> by in_ranges. done.
  - intros h m Hh Hm. simpl. eexists. split; [|reflexivity].
    assert (in_rng h (-25) 25 && in_rng m (-59) 59 && in_rng 0 (-59) 59 = true) as -> by in_ranges. by rewrite Z.add_0_r.
  - intros h m Hh Hm. simpl. eexists. split; [|reflexivity].
    assert (in_rng (- h) (-25) 25 && in_rng (- m) (-59) 59 && in_rng 0 (-59) 59 = true) as -> by in_ranges. f_equal. lia.
Defined.

Example date_only : parse_date_string (T := gregorian) (str "2026-09-16") = parse_date_string (T := gregorian) (str "2026-09-16T00:00:00.000Z").
Proof. vm_compute. reflexivity. Qed.
Example date_stamp : parse_date_string (T := gregorian) (str "2026-09-16T17:04:35.562Z") = Got 1789578275562.
Proof. vm_compute. reflexivity. Qed.
Example date_refused : parse_date_string (T := gregorian) (str "2026-09-16 00:00:00") = Refused.
Proof. vm_compute. reflexivity. Qed.

Lemma iso_literal_exact_witness :
  parse_date_string (T := gregorian) (iso_literal 2026 9 16 1 0 0 562 false 1 0) = Got 1789516800562.
Proof.
  rewrite (iso_literal_exact (T := gregorian) 2026 9 16 1 0 0 562 false 1 0 (civil_day 2026 9 16)) by (lia || reflexivity).
  reflexivity.
Defined.

(** An offset of four bytes that are not four characters: a slice of it falls
    inside a character. *)
Definition bad_offset : bytes := str "2026-09-16T00:00:00+1" ++ [xc3; xa9] ++ str "1".

(** The write path reads a document's timestamp with a parser that can
    panic: a literal of ASCII characters never makes it, an offset with a
    two-byte character does, and then the document is not stamped with the
    fallback that every other unreadable timestamp gets. *)
Theorem bad_offset_panics (fallback : Z) :
  (forall value, ascii value -> parse_date_string (T := gregorian) value <> Panics) /\
  utf8_valid bad_offset = true /\
  effective_timestamp (T := gregorian) (Object [(str "@timestamp", JString bad_offset)]) fallback = Panics /\
  effective_timestamp (T := gregorian) (Object [(str "@timestamp", JString (str "2026-09-16T00:00:00+1x1"))]) fallback = Got fallback.
Proof. split; [apply ascii_never_panics|]. repeat split; vm_compute; reflexivity. Qed.
