(* ===== verification/Net.v ===== *)
(** * IP addresses as text (Rust's [std::net])

    [Display] and [FromStr] of [IpAddr], which the [ip] sort key is reported
    and parsed with (crates/rsearch-search/src/sort.rs).  An address is its 128
    bits, IPv4 ones mapped into IPv6. *)

From Stdlib Require Import ZArith Lia.
From Stdlib Require Import Strings.Byte.
From stdpp Require Import base gmap sets list strings sorting.
From S2P Require Import Prelude.

Local Open Scope Z_scope.

(** ** [Display] *)

Definition hex_digit (d : Z) : byte := if d <? 10 then b8 (48 + d) else b8 (87 + d).
(** [{:x}] of a [u16]. *)
Definition hex16 (g : Z) : bytes :=
  if g <? 0x10 then [hex_digit g]
  else if g <? 0x100 then [hex_digit (g / 0x10); hex_digit (g mod 0x10)]
  else if g <? 0x1000 then [hex_digit (g / 0x100); hex_digit (g / 0x10 mod 0x10); hex_digit (g mod 0x10)]
  else [hex_digit (g / 0x1000); hex_digit (g / 0x100 mod 0x10); hex_digit (g / 0x10 mod 0x10); hex_digit (g mod 0x10)].

Definition from_segments (l : list Z) : Z := foldl (fun acc g => acc * 2 ^ 16 + g) 0 l.
Definition segments (ip : Z) : list Z := (fun i => ip / 2 ^ (16 * (7 - Z.of_nat i)) mod 2 ^ 16) <$> seq 0 8.

Definition to_ipv6_mapped (v4 : Z) : Z := 0xFFFF * 2 ^ 32 + v4.
Definition to_ipv4_mapped (ip : Z) : option Z := if ip / 2 ^ 32 =? 0xFFFF then Some (ip mod 2 ^ 32) else None.

Fixpoint join (c : byte) (l : list bytes) : bytes :=
  match l with
  | [] => []
  | [x] => x
  | x :: l => x ++ c :: join c l
  end.

Definition ipv4_text (v4 : Z) : bytes :=
  join x2e ((fun i => dec (v4 / 2 ^ (8 * (3 - Z.of_nat i)) mod 2 ^ 8)) <$> seq 0 4).

(** The first longest run of zero segments: (start, length). *)
Fixpoint zero_span (i : nat) (l : list Z) (longest current : nat * nat) : nat * nat :=
  match l with
  | [] => longest
  | g :: l =>
      if g =? 0 then
        let current := (if (current.2 =? 0)%nat then (i, 1) else (current.1, S current.2))%nat in
        zero_span (S i) l (if (longest.2 <? current.2)%nat then current else longest) current
      else zero_span (S i) l longest (0, 0)%nat
  end.

Definition groups_text (l : list Z) : bytes := join x3a (hex16 <$> l).
Definition ipv6_text (ip : Z) : bytes :=
  let segs := segments ip in
  let '(start, len) := zero_span 0 segs (0, 0)%nat (0, 0)%nat in
  if (1 <? len)%nat
  then groups_text (take start segs) ++ str "::" ++ groups_text (drop (start + len) segs)
  else groups_text segs.

(** ** [FromStr]: a parser reads from the front of the text *)

Definition reads (A : Type) : Type := bytes -> option (A * bytes).

Definition to_digit (radix : Z) (b : byte) : option Z :=
  let z := bz b in
  let d := if in_rng z 48 57 then z - 48 else if in_rng z 97 122 then z - 87 else if in_rng z 65 90 then z - 55 else 99 in
  if d <? radix then Some d else None.

Fixpoint read_digits (radix : Z) (l : bytes) : list Z * bytes :=
  match l with
  | b :: r =>
      match to_digit radix b with
      | Some d => let '(ds, rest) := read_digits radix r in (d :: ds, rest)
      | None => ([], l)
      end
  | [] => ([], [])
  end.

Definition read_number (radix : Z) (max_digits : nat) (allow_zero_prefix : bool) (bound : Z) : reads Z := fun l =>
  let '(ds, rest) := read_digits radix l in
  if (max_digits <? length ds)%nat || (length ds =? 0)%nat then None
  else if negb allow_zero_prefix && bool_decide (head ds = Some 0) && (1 <? length ds)%nat then None
  else
    let n := foldl (fun acc d => acc * radix + d) 0 ds in
    if n <=? bound then Some (n, rest) else None.

Definition read_given_char (c : byte) : reads unit := fun l =>
  match l with b :: r => if Byte.eqb b c then Some (tt, r) else None | [] => None end.
Definition read_separator {A} (c : byte) (index : nat) (inner : reads A) : reads A := fun l =>
  if (index =? 0)%nat then inner l else '(_, l) ← read_given_char c l; inner l.

Definition read_octet : reads Z := read_number 10 3 false U8_MAX.
Definition read_ipv4_addr : reads Z := fun l =>
  '(a, l) ← read_separator x2e 0 read_octet l;
  '(b, l) ← read_separator x2e 1 read_octet l;
  '(c, l) ← read_separator x2e 2 read_octet l;
  '(d, l) ← read_separator x2e 3 read_octet l;
  Some (((a * 256 + b) * 256 + c) * 256 + d, l).

(** [read_groups]: the groups read, whether they end in an IPv4 part, the rest. *)
Fixpoint read_groups (left : nat) (i : nat) (l : bytes) : list Z * bool * bytes :=
  match left with
  | O => ([], false, l)
  | S left' =>
      match (if (1 <? left)%nat then read_separator x3a i read_ipv4_addr l else None) with
      | Some (v4, rest) => ([v4 / 2 ^ 16; v4 mod 2 ^ 16], true, rest)
      | None =>
          match read_separator x3a i (read_number 16 4 true U16_MAX) l with
          | Some (g, rest) => let '(gs, v4, rest) := read_groups left' (S i) rest in (g :: gs, v4, rest)
          | None => ([], false, l)
          end
      end
  end.

Definition read_ipv6_addr : reads Z := fun l =>
  let '(head, head_ipv4, rest) := read_groups 8 0 l in
  if (length head =? 8)%nat then Some (from_segments head, rest)
  else if head_ipv4 then None
  else
    '(_, rest) ← read_given_char x3a rest;
    '(_, rest) ← read_given_char x3a rest;
    let '(tail, _, rest) := read_groups (7 - length head) 0 rest in
    Some (from_segments (head ++ replicate (8 - length head - length tail) 0 ++ tail), rest).

Inductive IpAddr := V4 (v4 : Z) | V6 (ip : Z).
Definition parse_ip (l : bytes) : option IpAddr :=
  match (match read_ipv4_addr l with
         | Some (v4, rest) => Some (V4 v4, rest)
         | None => '(ip, rest) ← read_ipv6_addr l; Some (V6 ip, rest)
         end) with
  | Some (ip, []) => Some ip
  | _ => None
  end.

(** The mapped form, and the text of an address ([format_ip] in sort.rs). *)
Definition mapped (ip : IpAddr) : Z := match ip with V4 v4 => to_ipv6_mapped v4 | V6 ip => ip end.
Definition format_ip (ip : Z) : bytes :=
  match to_ipv4_mapped ip with Some v4 => ipv4_text v4 | None => ipv6_text ip end.

Example format_v4 : format_ip (to_ipv6_mapped 0x0A000002) = str "10.0.0.2". Proof. reflexivity. Qed.
Example format_v6 : format_ip 0x20010db8000000000000000000000001 = str "2001:db8::1". Proof. reflexivity. Qed.
Example format_any : format_ip 0 = str "::". Proof. reflexivity. Qed.
Example format_one_zero : format_ip 0x00010002000300000005000600070008 = str "1:2:3:0:5:6:7:8". Proof. reflexivity. Qed.
Example parse_v6 : parse_ip (str "2001:DB8::0001") = Some (V6 0x20010db8000000000000000000000001). Proof. reflexivity. Qed.
Example parse_mixed : parse_ip (str "::ffff:10.0.0.2") = Some (V6 (to_ipv6_mapped 0x0A000002)). Proof. reflexivity. Qed.
Example parse_bad : (parse_ip (str "1.2.3"), parse_ip (str "01.2.3.4"), parse_ip (str "1:2:3:4:5:6:7:8:9"), parse_ip (str ":1"))
                    = (None, None, None, None). Proof. reflexivity. Qed.

(** ** An address is read back from its text *)

Definition stops (radix : Z) (r : bytes) : Prop := match r with b :: _ => to_digit radix b = None | [] => True end.

Lemma read_digits_app radix l r : (read_digits radix l).2 = [] -> stops radix r ->
  read_digits radix (l ++ r) = ((read_digits radix l).1, r).
Proof.
  intros Hl Hr. induction l as [|b l IH]; simpl in *.
  - destruct r as [|b r]; [done|]. simpl in *. by rewrite Hr.
  - destruct (to_digit radix b); [|done]. destruct (read_digits radix l) as [ds rest]. simpl in *. by rewrite IH.
Qed.

Lemma read_number_app radix n z m l r v : read_number radix n z m l = Some (v, []) -> stops radix r ->
  read_number radix n z m (l ++ r) = Some (v, r).
Proof.
  unfold read_number. intros H Hr. destruct (read_digits radix l) as [ds rest] eqn:E.
  assert (rest = []) as ->.
  { destruct (_ || _); [done|]. destruct (_ && _ && _); [done|]. destruct (_ <=? m); [|done]. congruence. }
  rewrite read_digits_app by (done || by rewrite E). rewrite E. simpl.
  destruct (_ || _); [done|]. destruct (_ && _ && _); [done|]. destruct (_ <=? m); [|done]. congruence.
Qed.

Lemma read_digits_rest radix l b : b ∈ (read_digits radix l).2 -> b ∈ l.
Proof.
  induction l as [|x l IH]; [done|]. simpl. destruct (to_digit radix x); [|done].
  destruct (read_digits radix l). simpl in *. rewrite elem_of_cons. auto.
Qed.
Lemma read_number_rest radix n z m l v r b : read_number radix n z m l = Some (v, r) -> b ∈ r -> b ∈ l.
Proof.
  unfold read_number. pose proof (read_digits_rest radix l b) as H. destruct (read_digits radix l) as [ds rest].
  destruct (_ || _); [done|]. destruct (_ && _ && _); [done|]. destruct (_ <=? m); [|done]. intros [= _ <-]. auto.
Qed.

Lemma read_ipv4_dotless l : x2e ∉ l -> read_ipv4_addr l = None.
Proof.
  intros Hn. unfold read_ipv4_addr. change (read_separator x2e 0 read_octet l) with (read_octet l).
  destruct (read_octet l) as [[a r]|] eqn:E; [|done]. cbn [mbind option_bind].
  change (read_separator x2e 1 read_octet r) with (read_given_char x2e r ≫= fun '(_, l) => read_octet l).
  destruct r as [|b r]; [done|]. unfold read_given_char at 1. destruct (Byte.eqb b x2e) eqn:Eb; [|done].
  apply Byte.byte_dec_bl in Eb. subst b. exfalso. apply Hn. by eapply read_number_rest; [exact E|apply list_elem_of_here].
Qed.

(** [f] on [n] integers from [z] on. *)
Fixpoint all_from (f : Z -> bool) (n : nat) (z : Z) : bool :=
  match n with O => true | S n => f z && all_from f n (z + 1) end.
Lemma all_upto (f : Z -> bool) n : all_from f (Z.to_nat n) 0 = true -> forall z, 0 <= z < n -> f z = true.
Proof.
  assert (forall k a, all_from f k a = true -> forall z, a <= z < a + Z.of_nat k -> f z = true) as H.
  { induction k as [|k IH]; intros a; [lia|]. cbn [all_from]. intros [Ha Hk]%andb_true_iff z Hz.
    destruct (decide (z = a)) as [->|]; [done|]. apply (IH (a + 1)); [done|lia]. }
  intros Hn z Hz. apply (H _ 0 Hn). lia.
Qed.

Lemma octet_read z : 0 <= z < 256 -> read_octet (dec z) = Some (z, []).
Proof.
  intros H. apply (bool_decide_eq_true_1 (read_octet (dec z) = Some (z, []))). revert z H.
  apply (all_upto (fun z => bool_decide (read_octet (dec z) = Some (z, [])))). vm_compute. reflexivity.
Qed.
(** A group is read back from its hexadecimal text. *)
Lemma hex_digit_read d : 0 <= d < 16 -> to_digit 16 (hex_digit d) = Some d /\ hex_digit d <> x2e.
Proof.
  intros H. assert (bool_decide (to_digit 16 (hex_digit d) = Some d /\ hex_digit d <> x2e) = true) as E.
  { revert d H. apply all_upto. vm_compute. reflexivity. }
  by apply bool_decide_eq_true in E.
Qed.
Lemma hex_digits_read ds : Forall (fun d => 0 <= d < 16) ds -> read_digits 16 (hex_digit <$> ds) = (ds, []).
Proof.
  induction 1 as [|d ds Hd _ IH]; [done|]. cbn [fmap list_fmap read_digits].
  destruct (hex_digit_read d Hd) as [-> _]. change (list_fmap Z byte hex_digit ds) with (hex_digit <$> ds). by rewrite IH.
Qed.

Definition hex_parts (g : Z) : list Z :=
  if g <? 0x10 then [g] else if g <? 0x100 then [g / 0x10; g mod 0x10]
  else if g <? 0x1000 then [g / 0x100; g / 0x10 mod 0x10; g mod 0x10]
  else [g / 0x1000; g / 0x100 mod 0x10; g / 0x10 mod 0x10; g mod 0x10].
Lemma hex16_parts g : hex16 g = hex_digit <$> hex_parts g.
Proof. unfold hex16, hex_parts. by repeat destruct (_ <? _). Qed.
Lemma hex_parts_ok g : 0 <= g < 2 ^ 16 ->
  Forall (fun d => 0 <= d < 16) (hex_parts g) /\ foldl (fun acc d => acc * 16 + d) 0 (hex_parts g) = g /\
  (1 <= length (hex_parts g) <= 4)%nat.
Proof.
  intros H. unfold hex_parts. repeat split_test; cbn [foldl length]; (split; [repeat constructor|split; [|lia]]);
    Z.to_euclidean_division_equations; lia.
Qed.
Lemma group_read z : 0 <= z < 2 ^ 16 -> read_number 16 4 true U16_MAX (hex16 z) = Some (z, []) /\ x2e ∉ hex16 z.
Proof.
  intros H. destruct (hex_parts_ok z H) as (Hd & Hv & Hl). rewrite hex16_parts. split.
  - unfold read_number. rewrite hex_digits_read by done. cbn [negb andb].
    destruct (Nat.ltb_spec 4 (length (hex_parts z))); [lia|]. destruct (Nat.eqb_spec (length (hex_parts z)) 0); [lia|].
    cbn [orb]. rewrite Hv. destruct (Z.leb_spec z U16_MAX) as [|Hgt]; [done|]. unfold U16_MAX in Hgt. lia.
  - intros (d & E & Hin)%list_elem_of_fmap. rewrite Forall_forall in Hd. by destruct (hex_digit_read d (Hd d Hin)).
Qed.

(** *** Groups *)

(** The groups with the separators the parser expects from index [i] on. *)
Fixpoint sep_text (i : nat) (gs : list Z) : bytes :=
  match gs with
  | [] => []
  | g :: gs => (if (i =? 0)%nat then [] else [x3a]) ++ hex16 g ++ sep_text (S i) gs
  end.

Lemma sep_text_later i j gs : i <> O -> j <> O -> sep_text i gs = sep_text j gs.
Proof.
  revert i j. induction gs as [|g gs IH]; intros i j Hi Hj; [done|]. simpl.
  rewrite (proj2 (Nat.eqb_neq i 0)), (proj2 (Nat.eqb_neq j 0)) by done. by rewrite (IH (S i) (S j)).
Qed.
Lemma groups_text_sep gs : groups_text gs = sep_text 0 gs.
Proof.
  unfold groups_text. induction gs as [|g gs IH]; [done|]. destruct gs as [|g' gs]; [simpl; by rewrite app_nil_r|].
  cbn [fmap list_fmap join sep_text Nat.eqb app] in IH |- *.
  change (list_fmap Z bytes hex16 gs) with (hex16 <$> gs) in IH |- *. rewrite IH.
  f_equal. simpl. f_equal. f_equal. by apply sep_text_later.
Qed.

Definition group_list (gs : list Z) : Prop := Forall (fun g => 0 <= g < 2 ^ 16) gs.
Lemma sep_text_dotless i gs : group_list gs -> x2e ∉ sep_text i gs.
Proof.
  intros H. revert i. induction H as [|g gs Hg _ IH]; intros i; [apply not_elem_of_nil|]. cbn [sep_text].
  destruct (group_read g Hg) as [_ Hd]. rewrite !not_elem_of_app. split; [|done].
  destruct (i =? 0)%nat; [apply not_elem_of_nil|]. by intros ?%list_elem_of_singleton.
Qed.

(** The rest of the text at which a list of groups ends. *)
Definition ends_groups (r : bytes) : Prop :=
  stops 16 r /\ x2e ∉ r /\ forall i, read_separator x3a i (read_number 16 4 true U16_MAX) r = None.
Lemma ends_groups_nil : ends_groups [].
Proof. split; [done|]. split; [apply not_elem_of_nil|]. by intros [|i]. Qed.
Lemma ends_groups_gap gs : group_list gs -> ends_groups (str "::" ++ sep_text 0 gs).
Proof.
  intros H. split; [done|]. split; [|by intros [|i]]. rewrite not_elem_of_app. split; [|by apply sep_text_dotless].
  change (str "::") with [x3a; x3a]. set_solver.
Qed.

Lemma sep_text_stops i gs r : i <> O -> stops 16 r -> stops 16 (sep_text i gs ++ r).
Proof. intros Hi Hr. destruct gs as [|g gs]; [done|]. simpl. by rewrite (proj2 (Nat.eqb_neq i 0)). Qed.

Lemma read_sep_ipv4_dotless i l : x2e ∉ l -> read_separator x3a i read_ipv4_addr l = None.
Proof.
  intros H. unfold read_separator. destruct (i =? 0)%nat; [by apply read_ipv4_dotless|].
  destruct l as [|b l]; [done|]. unfold read_given_char. destruct (Byte.eqb b x3a); [|done]. simpl.
  apply read_ipv4_dotless. by intros H'; apply H, list_elem_of_further.
Qed.

Lemma read_groups_text n i gs r : group_list gs -> ends_groups r -> (length gs <= n)%nat ->
  read_groups n i (sep_text i gs ++ r) = (gs, false, r).
Proof.
  intros Hg (Hr & Hd & Hend). revert n i. induction Hg as [|g gs Hg Hgs IH]; intros n i Hn.
  - destruct n as [|n]; [done|]. cbn [read_groups sep_text app]. rewrite read_sep_ipv4_dotless, Hend by done.
    by destruct (1 <? S n)%nat.
  - destruct n as [|n]; [simpl in Hn; lia|]. cbn [read_groups]. rewrite read_sep_ipv4_dotless.
    2:{ rewrite not_elem_of_app. split; [|done]. by apply sep_text_dotless; constructor. }
    destruct (group_read g Hg) as [Hrd _].
    assert (read_separator x3a i (read_number 16 4 true U16_MAX) (sep_text i (g :: gs) ++ r) = Some (g, sep_text (S i) gs ++ r)) as ->.
    { cbn [sep_text]. unfold read_separator. destruct (Nat.eqb_spec i 0) as [->|Hi].
      - cbn [app]. rewrite <- app_assoc. apply read_number_app; [done|]. by apply sep_text_stops.
      - simpl. rewrite <- app_assoc. apply read_number_app; [done|]. by apply sep_text_stops. }
    rewrite IH by (simpl in Hn; lia). by destruct (1 <? S n)%nat.
Qed.

(** *** The elided zeros *)

Definition zeros_at (l : list Z) (s : nat * nat) : Prop :=
  (s.1 + s.2 <= length l)%nat /\ take s.2 (drop s.1 l) = replicate s.2 0.

Lemma zeros_at_snoc l s : zeros_at l s -> (s.1 + s.2 = length l)%nat -> zeros_at (l ++ [0]) (s.1, S s.2).
Proof.
  destruct s as [s n]. intros [Hl Hz] E. cbn [fst snd] in *. split; cbn [fst snd]; [rewrite length_app; simpl; lia|].
  rewrite drop_app_le by lia. rewrite take_ge in Hz by (rewrite length_drop; lia).
  rewrite take_ge by (rewrite length_app, length_drop; simpl; lia). rewrite Hz. symmetry. apply replicate_S_end.
Qed.
Lemma zeros_at_app l r s : zeros_at l s -> zeros_at (l ++ r) s.
Proof.
  intros [Hl Hz]. split; [rewrite length_app; lia|]. rewrite drop_app_le by lia.
  rewrite take_app_le by (rewrite length_drop; lia). done.
Qed.

Lemma zero_span_ok done l longest current :
  zeros_at done longest -> zeros_at done current -> (current.2 = O \/ current.1 + current.2 = length done)%nat ->
  zeros_at (done ++ l) (zero_span (length done) l longest current).
Proof.
  revert done longest current. induction l as [|g l IH]; intros dn longest current Hl Hc He; [by rewrite app_nil_r|].
  cbn [zero_span]. replace (dn ++ g :: l) with ((dn ++ [g]) ++ l) by (by rewrite <- app_assoc).
  replace (S (length dn)) with (length (dn ++ [g])) by (rewrite length_app; simpl; lia).
  destruct (Z.eqb_spec g 0) as [->|Hg].
  - set (cur := if (current.2 =? 0)%nat then _ else _).
    assert (zeros_at (dn ++ [0]) cur /\ (cur.1 + cur.2 = length (dn ++ [0%Z]))%nat) as [Hcur Ecur].
    { unfold cur. destruct (Nat.eqb_spec current.2 0) as [E|E].
      - split; [|cbn [fst snd]; rewrite length_app; simpl; lia]. split; cbn [fst snd]; [rewrite length_app; simpl; lia|].
        by rewrite drop_app_length.
      - destruct He as [He|He]; [lia|]. split; [by apply zeros_at_snoc|]. cbn [fst snd]. rewrite length_app. simpl. lia. }
    apply IH; [|done|by right]. destruct (_ <? _)%nat; [done|by apply zeros_at_app].
  - apply IH; [by apply zeros_at_app| |by left]. split; cbn [fst snd]; [lia|done].
Qed.

(** ** IPv6 *)

Lemma segments_length ip : length (segments ip) = 8%nat.
Proof. done. Qed.
Lemma segments_groups ip : group_list (segments ip).
Proof. repeat constructor; apply Z.mod_pos_bound; lia. Qed.
Lemma from_segments_segments ip : 0 <= ip < 2 ^ 128 -> from_segments (segments ip) = ip.
Proof.
  intros H. unfold segments, from_segments. cbn [fmap list_fmap seq foldl].
  change (16 * (7 - Z.of_nat 0)) with 112. change (16 * (7 - Z.of_nat 1)) with 96. change (16 * (7 - Z.of_nat 2)) with 80.
  change (16 * (7 - Z.of_nat 3)) with 64. change (16 * (7 - Z.of_nat 4)) with 48. change (16 * (7 - Z.of_nat 5)) with 32.
  change (16 * (7 - Z.of_nat 6)) with 16. change (16 * (7 - Z.of_nat 7)) with 0.
  assert (forall k j, 0 <= k -> j = k + 16 -> ip / 2 ^ j * 2 ^ 16 + ip / 2 ^ k mod 2 ^ 16 = ip / 2 ^ k) as Hs.
  { intros k j Hk ->. rewrite Z.pow_add_r, <- Z.div_div by lia. pose proof (Z.div_mod (ip / 2 ^ k) (2 ^ 16)). lia. }
  rewrite (Z.mod_small (ip / 2 ^ 112)), Z.add_0_l.
  - rewrite (Hs 96 112), (Hs 80 96), (Hs 64 80), (Hs 48 64), (Hs 32 48), (Hs 16 32), (Hs 0 16) by lia. apply Z.div_1_r.
  - split; [apply Z.div_pos; lia|]. apply Z.div_lt_upper_bound; lia.
Qed.

Lemma ipv6_text_dotless ip : x2e ∉ ipv6_text ip.
Proof.
  unfold ipv6_text. destruct (zero_span _ _ _ _) as [s n]. pose proof (segments_groups ip) as Hg.
  destruct (1 <? n)%nat; rewrite !groups_text_sep; [|by apply sep_text_dotless].
  rewrite !not_elem_of_app. split; [by apply sep_text_dotless, Forall_take|].
  split; [change (str "::") with [x3a; x3a]; set_solver|by apply sep_text_dotless, Forall_drop].
Qed.

Lemma read_colon r : read_given_char x3a (x3a :: r) = Some (tt, r).
Proof. done. Qed.

Lemma read_ipv6_text ip : 0 <= ip < 2 ^ 128 -> read_ipv6_addr (ipv6_text ip) = Some (ip, []).
Proof.
  intros H. unfold ipv6_text. pose proof (segments_groups ip) as Hg. pose proof (segments_length ip) as H8.
  pose proof (zero_span_ok [] (segments ip) (0, 0)%nat (0, 0)%nat) as Hz. cbn [length app] in Hz.
  destruct (zero_span 0 (segments ip) (0, 0)%nat (0, 0)%nat) as [s n].
  destruct Hz as [Hl Hz]; [by split|by split|by left|]. cbn [fst snd] in Hl, Hz.
  rewrite <- (from_segments_segments ip H) at 4. unfold read_ipv6_addr. set (l := segments ip) in *. clearbody l.
  destruct (Nat.ltb_spec 1 n) as [Hn|Hn]; rewrite !groups_text_sep.
  - rewrite read_groups_text; [|by apply Forall_take|by apply ends_groups_gap, Forall_drop|rewrite length_take; lia].
    rewrite length_take, Nat.min_l by lia. destruct (Nat.eqb_spec s 8); [lia|].
    change (str "::" ++ sep_text 0 (drop (s + n) l)) with (x3a :: x3a :: sep_text 0 (drop (s + n) l)).
    do 2 (rewrite read_colon; cbn [mbind option_bind]).
    rewrite <- (app_nil_r (sep_text 0 (drop (s + n) l))).
    rewrite read_groups_text; [|by apply Forall_drop|apply ends_groups_nil|rewrite length_drop; lia].
    rewrite length_drop. do 3 f_equal. rewrite H8. replace (8 - s - (8 - (s + n)))%nat with n by lia.
    rewrite <- Hz. rewrite <- (take_drop s l) at 4. f_equal. rewrite <- drop_drop. apply take_drop.
  - rewrite <- (app_nil_r (sep_text 0 l)).
    rewrite read_groups_text; [|done|apply ends_groups_nil|lia]. by rewrite H8.
Qed.

(** ** IPv4 *)

Lemma read_ipv4_text v4 : 0 <= v4 < 2 ^ 32 -> read_ipv4_addr (ipv4_text v4) = Some (v4, []).
Proof.
  intros H. unfold ipv4_text. cbn [seq fmap list_fmap join].
  change (8 * (3 - Z.of_nat 0)) with 24. change (8 * (3 - Z.of_nat 1)) with 16.
  change (8 * (3 - Z.of_nat 2)) with 8. change (8 * (3 - Z.of_nat 3)) with 0.
  assert (forall k, 0 <= v4 / 2 ^ k mod 2 ^ 8 < 256) as Ho by (intros k; apply Z.mod_pos_bound; lia).
  unfold read_ipv4_addr.
  assert (forall i k r, stops 10 r -> read_separator x2e i read_octet ((if (i =? 0)%nat then [] else [x2e]) ++ dec (v4 / 2 ^ k mod 2 ^ 8) ++ r)
    = Some (v4 / 2 ^ k mod 2 ^ 8, r)) as Hr.
  { intros i k r Hr. unfold read_separator.
    assert (read_octet (dec (v4 / 2 ^ k mod 2 ^ 8) ++ r) = Some (v4 / 2 ^ k mod 2 ^ 8, r)) as E
      by (apply read_number_app; [by apply octet_read|done]).
    destruct (i =? 0)%nat; [exact E|]. simpl. exact E. }
  pose proof (Hr 0%nat 24) as H0. pose proof (Hr 1%nat 16) as H1. pose proof (Hr 2%nat 8) as H2.
  pose proof (Hr 3%nat 0 [] I) as H3. cbn [Nat.eqb app] in H0, H1, H2, H3. rewrite app_nil_r in H3.
  rewrite H0 by done. cbn [mbind option_bind]. rewrite H1 by done. cbn [mbind option_bind].
  rewrite H2 by done. cbn [mbind option_bind]. rewrite H3. cbn [mbind option_bind]. do 2 f_equal.
  rewrite (Z.mod_small (v4 / 2 ^ 24)) by (split; [apply Z.div_pos; lia|apply Z.div_lt_upper_bound; lia]).
  assert (forall k j, 0 <= k -> j = k + 8 -> v4 / 2 ^ j * 256 + v4 / 2 ^ k mod 2 ^ 8 = v4 / 2 ^ k) as Hs.
  { intros k j Hk ->. rewrite Z.pow_add_r, <- Z.div_div by lia. pose proof (Z.div_mod (v4 / 2 ^ k) (2 ^ 8)). lia. }
  rewrite (Hs 16 24), (Hs 8 16), (Hs 0 8) by lia. apply Z.div_1_r.
Qed.

(** What a hit reports for an address is read back as that address. *)
Lemma parse_format_ip ip : 0 <= ip < 2 ^ 128 -> mapped <$> parse_ip (format_ip ip) = Some ip.
Proof.
  intros H. unfold format_ip, to_ipv4_mapped, parse_ip. destruct (Z.eqb_spec (ip / 2 ^ 32) 0xFFFF) as [E|E].
  - rewrite read_ipv4_text by (apply Z.mod_pos_bound; lia). simpl. f_equal. unfold to_ipv6_mapped.
    pose proof (Z.div_mod ip (2 ^ 32)). lia.
  - rewrite (read_ipv4_dotless (ipv6_text ip)) by apply ipv6_text_dotless. rewrite read_ipv6_text by done. done.
Qed.
