(* ===== verification/Mapping.v ===== *)
(** * Index mappings (crates/rsearch-index/src/mapping.rs, normalizer.rs) and
    their update over HTTP (put_mapping, put_index of
    crates/rsearch-server/src/search_api.rs)

    The declared fields of an index with their parameters and multi-fields, the
    parser of a [PUT] body, the form it is stored in, and the schema a split is
    built with.  A [BTreeMap] is a list sorted by key.  A field's handle in the
    index library is its name; [schema_names] are the names handed to the
    library's schema builder, in order. *)

From Stdlib Require Import ZArith Lia.
From Stdlib Require Import Strings.Byte.
From stdpp Require Import base gmap sets list strings sorting.
From S2P Require Import Prelude Order Json Float64.

Local Open Scope Z_scope.

Definition SOURCE_FIELD : bytes := str "_source".
Definition TIMESTAMP_FIELD : bytes := str "_timestamp".
Definition DYNAMIC_FIELD : bytes := str "_dynamic".
Definition ID_FIELD : bytes := str "_id".
Definition SEQ_FIELD : bytes := str "_seq".
Definition DYNAMIC_RAW_FIELD : bytes := str "_dynamic_raw".
Definition KEYWORD_IGNORE_ABOVE : nat := 256.
Definition NORMALIZERS_KEY : bytes := str "_normalizers".
Definition CURRENT_SCHEMA_VERSION : Z := 2.

(** ** [BTreeMap] as a sorted list *)

Fixpoint bt_insert {A} (k : bytes) (v : A) (o : list (bytes * A)) : list (bytes * A) :=
  match o with
  | [] => [(k, v)]
  | (k', v') :: o' =>
      if decide (k = k') then (k, v) :: o'
      else if bytes_ltb k k' then (k, v) :: o else (k', v') :: bt_insert k v o'
  end.
Fixpoint bt_get {A} (k : bytes) (o : list (bytes * A)) : option A :=
  match o with
  | [] => None
  | (k', v) :: o => if decide (k = k') then Some v else bt_get k o
  end.
(** [collect()] into a map. *)
Definition bt_collect {A} (l : list (bytes * A)) : list (bytes * A) := foldl (fun o kv => bt_insert kv.1 kv.2 o) [] l.
Definition obj_collect (l : list (bytes * json)) : json := Object (foldl (fun o kv => obj_insert kv.1 kv.2 o) [] l).

(** ** Field types *)

Inductive FieldType := FKeyword | FText | FLong | FDouble | FBoolean | FDate | FIp.
#[export] Instance FieldType_eq_dec : EqDecision FieldType.
Proof. solve_decision. Defined.

Definition field_type_parse (s : bytes) : option FieldType :=
  if decide (s = str "keyword") then Some FKeyword
  else if decide (s ∈ [str "long"; str "integer"; str "short"; str "byte"]) then Some FLong
  else if decide (s ∈ [str "double"; str "float"; str "half_float"]) then Some FDouble
  else if decide (s = str "text") then Some FText
  else if decide (s = str "boolean") then Some FBoolean
  else if decide (s = str "date") then Some FDate
  else if decide (s = str "ip") then Some FIp
  else None.
Definition field_type_str (t : FieldType) : bytes :=
  str match t with
      | FKeyword => "keyword" | FText => "text" | FLong => "long" | FDouble => "double"
      | FBoolean => "boolean" | FDate => "date" | FIp => "ip"
      end.
Definition takes_ignore_malformed (t : FieldType) : bool :=
  match t with FLong | FDouble | FDate | FIp => true | _ => false end.

(** ** Normalizers *)

Inductive NormalizerFilter := Lowercase | Uppercase | AsciiFolding | Trim.
#[export] Instance NormalizerFilter_eq_dec : EqDecision NormalizerFilter.
Proof. solve_decision. Defined.

Definition filter_parse (name : bytes) : option NormalizerFilter :=
  if decide (name = str "lowercase") then Some Lowercase
  else if decide (name = str "uppercase") then Some Uppercase
  else if decide (name = str "asciifolding") then Some AsciiFolding
  else if decide (name = str "trim") then Some Trim
  else None.
Definition filter_str (f : NormalizerFilter) : bytes :=
  str match f with Lowercase => "lowercase" | Uppercase => "uppercase" | AsciiFolding => "asciifolding" | Trim => "trim" end.

Notation Normalizer := (list NormalizerFilter).

(** The case tables of Unicode and the index library's folding filter. *)
Class TextTables := {
  has_uppercase : bytes -> bool;
  has_lowercase : bytes -> bool;
  to_lowercase : bytes -> bytes;
  to_uppercase : bytes -> bytes;
  ascii_fold : bytes -> bytes;
}.
Definition is_ascii (l : bytes) : bool := forallb (fun b => bz b <? 128) l.

Definition filter_apply `{TextTables} (f : NormalizerFilter) (value : bytes) : bytes :=
  match f with
  | Lowercase => if has_uppercase value then to_lowercase value else value
  | Uppercase => if has_lowercase value then to_uppercase value else value
  | Trim => trim value
  | AsciiFolding => if is_ascii value then value else ascii_fold value
  end.
Definition normalizer_apply `{TextTables} (n : Normalizer) (value : bytes) : bytes :=
  foldl (fun acc f => filter_apply f acc) value n.
Definition normalizer_to_json (n : Normalizer) : json :=
  obj_collect [(str "type", JString (str "custom")); (str "filter", Array (JString ∘ filter_str <$> n))].

(** ** Errors: what the client is told, by its cause *)

Inductive Reason :=
| ExpectedMap (path : bytes) | NoType (path : bytes) (top_level : bool) | FieldsNotObject (path : bytes)
| EmptyFieldName (path : bytes) | UnknownParameter (key path ty : bytes) | NotString (key path : bytes)
| NotInteger (key path : bytes) | NotBoolean (key path : bytes) | NotObject (key path : bytes)
| OnlyDefault (key path ty : bytes) (dflt : json) | NormalizerNotFound (name path : bytes)
| UnsupportedType (ty : bytes) | StoredNormalizers | PropertiesNotObject | Reserved (name : bytes)
| NormalizersNotObject | NormalizerNotObject (name : bytes) | NormalizerType (ty name : bytes)
| CharFilters (name : bytes) | FilterNotArray (name : bytes) | FilterNotString (name : bytes) | BadFilter (name f : bytes).
Inductive IndexError := InvalidMapping (r : Reason) | MapperParsing (r : Reason) | IllegalArgument (r : Reason).
Notation IndexResult := (result IndexError).

(** ** Declared fields *)

Inductive FieldDef := mkDef {
  fd_ty : FieldType;
  declared : bytes;
  fd_normalizer : option bytes;
  fd_ignore_above : option Z;
  fd_ignore_malformed : bool;
  fd_meta : option json;
  fd_fields : list (bytes * FieldDef);
}.
Definition new_def (t : FieldType) (d : bytes) : FieldDef := mkDef t d None None false None [].
Definition set_normalizer (n : bytes) (f : FieldDef) : FieldDef :=
  mkDef (fd_ty f) (declared f) (Some n) (fd_ignore_above f) (fd_ignore_malformed f) (fd_meta f) (fd_fields f).
Definition set_ignore_above (n : Z) (f : FieldDef) : FieldDef :=
  mkDef (fd_ty f) (declared f) (fd_normalizer f) (Some n) (fd_ignore_malformed f) (fd_meta f) (fd_fields f).
Definition set_ignore_malformed (b : bool) (f : FieldDef) : FieldDef :=
  mkDef (fd_ty f) (declared f) (fd_normalizer f) (fd_ignore_above f) b (fd_meta f) (fd_fields f).
Definition set_meta (m : json) (f : FieldDef) : FieldDef :=
  mkDef (fd_ty f) (declared f) (fd_normalizer f) (fd_ignore_above f) (fd_ignore_malformed f) (Some m) (fd_fields f).
Definition set_fields (l : list (bytes * FieldDef)) (f : FieldDef) : FieldDef :=
  mkDef (fd_ty f) (declared f) (fd_normalizer f) (fd_ignore_above f) (fd_ignore_malformed f) (fd_meta f) l.

(** The value at which a parameter that is not implemented changes nothing. *)
Definition inert_default (t : FieldType) (key : bytes) : option json :=
  let text := bool_decide (t = FText) in
  let eqk (s : string) := bool_decide (key = str s) in
  if eqk "index" || eqk "enabled" then Some (Bool true)
  else if eqk "doc_values" then Some (Bool (negb text))
  else if eqk "store" then Some (Bool false)
  else if eqk "norms" then Some (Bool text)
  else if eqk "boost" then Some (Number (Float (f64_of_Z 1)))
  else if eqk "similarity" then Some (JString (str "BM25"))
  else if eqk "copy_to" || eqk "null_value" then Some Null
  else if eqk "coerce" && bool_decide (t = FLong \/ t = FDouble) then Some (Bool true)
  else if eqk "index_options" then Some (JString (str (if text then "positions" else "docs")))
  else if eqk "eager_global_ordinals" && bool_decide (t = FKeyword) then Some (Bool false)
  else if eqk "split_queries_on_whitespace" && bool_decide (t = FKeyword) then Some (Bool false)
  else if eqk "fielddata" && text then Some (Bool false)
  else if eqk "term_vector" && text then Some (JString (str "no"))
  else if eqk "position_increment_gap" && text then Some (Number (PosInt 100))
  else if (eqk "analyzer" || eqk "search_analyzer" || eqk "search_quote_analyzer") && text then Some (JString (str "standard"))
  else if eqk "format" && bool_decide (t = FDate) then Some (JString (str "strict_date_optional_time||epoch_millis"))
  else None.

Definition is_default (value dflt : json) : bool :=
  if is_null value || match value with Array [] => true | _ => false end then true
  else match value, dflt with
  | Number a, Number b => f64_eqb (number_f64 a) (number_f64 b)
  | _, _ => json_eqb value dflt
  end.

Definition is_object (v : json) : bool := match v with Object _ => true | _ => false end.

(** One parameter other than [type] and [fields]. *)
Definition set_param (parsed : FieldType) (path ty key : bytes) (value : json) (f : FieldDef) : IndexResult FieldDef :=
  if decide (key = str "normalizer") then
    if negb (bool_decide (parsed = FKeyword)) then Err (MapperParsing (UnknownParameter key path ty))
    else n ← ok_or (as_str value) (MapperParsing (NotString key path)); Ok (set_normalizer n f)
  else if decide (key = str "ignore_above") then
    if negb (bool_decide (parsed = FKeyword)) then Err (MapperParsing (UnknownParameter key path ty))
    else n ← ok_or (as_u64 value) (MapperParsing (NotInteger key path)); Ok (set_ignore_above n f)
  else if decide (key = str "ignore_malformed") then
    if negb (takes_ignore_malformed parsed) then Err (MapperParsing (UnknownParameter key path ty))
    else b ← ok_or (as_bool value) (MapperParsing (NotBoolean key path)); Ok (set_ignore_malformed b f)
  else if decide (key = str "meta") then
    if negb (is_object value) then Err (MapperParsing (NotObject key path)) else Ok (set_meta value f)
  else match inert_default parsed key with
  | Some dflt => if is_default value dflt then Ok f else Err (MapperParsing (OnlyDefault key path ty dflt))
  | None => Err (MapperParsing (UnknownParameter key path ty))
  end.

Definition dotted (path name : bytes) : bytes := path ++ str "." ++ name.

Section members.
Variable read : bytes -> json -> IndexResult FieldDef.

Fixpoint read_subs (path : bytes) (subs : list (bytes * json)) (acc : list (bytes * FieldDef)) : IndexResult (list (bytes * FieldDef)) :=
  match subs with
  | [] => Ok acc
  | (sub_name, sub_def) :: subs =>
      if decide (sub_name = []) then Err (MapperParsing (EmptyFieldName path))
      else d ← read (dotted path sub_name) sub_def; read_subs path subs (bt_insert sub_name d acc)
  end.

(** The members of a declaration, in key order. *)
Fixpoint read_members (parsed : FieldType) (path ty : bytes) (obj : list (bytes * json)) (f : FieldDef) : IndexResult FieldDef :=
  match obj with
  | [] => Ok f
  | (key, value) :: obj =>
      f ← (if decide (key = str "type") then Ok f
           else if decide (key = str "fields") then
             match value with
             | Object subs => l ← read_subs path subs (fd_fields f); Ok (set_fields l f)
             | _ => Err (MapperParsing (FieldsNotObject path))
             end
           else set_param parsed path ty key value f);
      read_members parsed path ty obj f
  end.
End members.

(** [FieldDef::from_json]. *)
Fixpoint def_from_json (top_level : bool) (path : bytes) (def : json) : IndexResult FieldDef :=
  match def with
  | Object obj =>
      match s ← assoc (str "type") obj; as_str s with
      | None => Err (MapperParsing (NoType path top_level))
      | Some ty =>
          match field_type_parse ty with
          | None => Err (InvalidMapping (UnsupportedType ty))
          | Some parsed => read_members (def_from_json false) parsed path ty obj (new_def parsed ty)
          end
      end
  | _ => Err (MapperParsing (ExpectedMap path))
  end.

(** [FieldDef::to_json]. *)
Fixpoint def_to_json (f : FieldDef) : json :=
  let put (k : string) (v : json) o := obj_insert (str k) v o in
  let out := [(str "type", JString (declared f))] in
  let out := match fd_normalizer f with Some n => put "normalizer" (JString n) out | None => out end in
  let out := match fd_ignore_above f with Some n => put "ignore_above" (Number (PosInt n)) out | None => out end in
  let out := if fd_ignore_malformed f then put "ignore_malformed" (Bool true) out else out in
  let out := match fd_meta f with Some m => put "meta" m out | None => out end in
  let subs := map (fun nd => (nd.1, def_to_json nd.2)) (fd_fields f) in
  let out := match subs with [] => out | _ => put "fields" (obj_collect subs) out end in
  Object out.

(** ** [IndexMapping] *)

Record IndexMapping := mkMapping {
  properties : list (bytes * FieldDef);
  normalizers : list (bytes * Normalizer);
}.

Fixpoint parse_filters (name : bytes) (l : list json) : IndexResult Normalizer :=
  match l with
  | [] => Ok []
  | f :: l =>
      fname ← ok_or (as_str f) (IllegalArgument (FilterNotString name));
      parsed ← ok_or (filter_parse fname) (IllegalArgument (BadFilter name fname));
      fs ← parse_filters name l;
      Ok (parsed :: fs)
  end.
Definition parse_normalizer (name : bytes) (def : json) : IndexResult Normalizer :=
  match def with
  | Object obj =>
      match s ← assoc (str "type") obj; as_str s with
      | Some ty => if decide (ty <> str "custom") then Err (IllegalArgument (NormalizerType ty name)) else Ok tt
      | None => Ok tt
      end;;
      match assoc (str "char_filter") obj with
      | Some (Array []) | None => Ok tt
      | Some _ => Err (IllegalArgument (CharFilters name))
      end;;
      match assoc (str "filter") obj with
      | Some (Array l) => parse_filters name l
      | Some _ => Err (IllegalArgument (FilterNotArray name))
      | None => Ok []
      end
  | _ => Err (IllegalArgument (NormalizerNotObject name))
  end.

Fixpoint parse_normalizers (l : list (bytes * json)) (acc : list (bytes * Normalizer)) : IndexResult (list (bytes * Normalizer)) :=
  match l with
  | [] => Ok acc
  | (name, def) :: l => n ← parse_normalizer name def; parse_normalizers l (bt_insert name n acc)
  end.

Fixpoint check_refs (ns : list (bytes * Normalizer)) (path : bytes) (d : FieldDef) : IndexResult unit :=
  match fd_normalizer d with
  | Some name => if decide (bt_get name ns = None) then Err (MapperParsing (NormalizerNotFound name path)) else Ok tt
  | None => Ok tt
  end;;
  (fix each (l : list (bytes * FieldDef)) : IndexResult unit :=
     match l with
     | [] => Ok tt
     | (n, s) :: l => check_refs ns (dotted path n) s;; each l
     end) (fd_fields d).
Fixpoint check_all (ns : list (bytes * Normalizer)) (l : list (bytes * FieldDef)) : IndexResult unit :=
  match l with
  | [] => Ok tt
  | (n, d) :: l => check_refs ns n d;; check_all ns l
  end.
Definition check_normalizer_references (m : IndexMapping) : IndexResult unit := check_all (normalizers m) (properties m).

Definition starts_underscore (name : bytes) : bool := match name with x5f :: _ => true | _ => false end.
Fixpoint parse_properties (l : list (bytes * json)) (acc : list (bytes * FieldDef)) : IndexResult (list (bytes * FieldDef)) :=
  match l with
  | [] => Ok acc
  | (name, def) :: l =>
      if starts_underscore name then Err (InvalidMapping (Reserved name))
      else d ← def_from_json true name def; parse_properties l (bt_insert name d acc)
  end.
Definition parse_mapping (mapping : json) (ns : list (bytes * Normalizer)) : IndexResult IndexMapping :=
  match get mapping (str "properties") with
  | None => Ok (mkMapping [] ns)
  | Some (Object props) =>
      ps ← parse_properties props [];
      let m := mkMapping ps ns in
      check_normalizer_references m;; Ok m
  | Some _ => Err (InvalidMapping PropertiesNotObject)
  end.

Definition mapping_from_json (mapping : json) : IndexResult IndexMapping :=
  ns ← match get mapping NORMALIZERS_KEY with
       | Some (Object stored) => parse_normalizers stored []
       | Some _ => Err (InvalidMapping StoredNormalizers)
       | None => Ok []
       end;
  parse_mapping mapping ns.

Definition pointer (j : json) (path : list bytes) : option json := foldl (fun o k => v ← o; get v k) (Some j) path.
Definition from_request (mappings : json) (settings : option json) : IndexResult IndexMapping :=
  let at_ path := s ← settings; pointer s (str <$> path) in
  let declared := match at_ ["analysis"; "normalizer"] with Some d => Some d | None => at_ ["index"; "analysis"; "normalizer"] end in
  ns ← match declared with
       | Some (Object l) => parse_normalizers l []
       | Some _ => Err (IllegalArgument NormalizersNotObject)
       | None => Ok []
       end;
  parse_mapping mappings ns.
Definition from_mapping_update (mappings : json) (existing : IndexMapping) : IndexResult IndexMapping :=
  parse_mapping mappings (normalizers existing).

Definition normalizers_json (ns : list (bytes * Normalizer)) : json := obj_collect (prod_map id normalizer_to_json <$> ns).
Definition mapping_to_json (m : IndexMapping) : json :=
  let props := obj_collect (prod_map id def_to_json <$> properties m) in
  let out := [(str "properties", props)] in
  Object (match normalizers m with [] => out | ns => obj_insert NORMALIZERS_KEY (normalizers_json ns) out end).
Definition analysis_json (m : IndexMapping) : option json :=
  match normalizers m with [] => None | ns => Some (Object [(str "normalizer", normalizers_json ns)]) end.

(** [paths]: every property and, below it, its multi-fields. *)
Fixpoint walk_paths (path : bytes) (d : FieldDef) : list (bytes * FieldDef) :=
  (path, d) :: (fix each (l : list (bytes * FieldDef)) : list (bytes * FieldDef) :=
                  match l with [] => [] | (n, s) :: l => walk_paths (dotted path n) s ++ each l end) (fd_fields d).
Definition paths (m : IndexMapping) : list (bytes * FieldDef) := concat ((fun nd => walk_paths nd.1 nd.2) <$> properties m).

(** ** [MappedSchema] *)

Record MappedField := mkField {
  mf_ty : FieldType;
  mf_normalizer : option Normalizer;
  mf_ignore_above : option Z;
  mf_ignore_malformed : bool;
}.
Record MappedSchema := mkSchema {
  fields : gmap bytes MappedField;
  mapping : IndexMapping;
  has_id : bool;
  has_seq : bool;
  has_dynamic_raw : bool;
  schema_version : Z;
  schema_names : list bytes;
}.

Definition mapped_field (m : IndexMapping) (d : FieldDef) : MappedField :=
  mkField (fd_ty d) (n ← fd_normalizer d; bt_get n (normalizers m)) (fd_ignore_above d) (fd_ignore_malformed d).
Definition mapped_fields (m : IndexMapping) : gmap bytes MappedField :=
  foldl (fun acc pd => <[pd.1 := mapped_field m pd.2]> acc) ∅ (paths m).
Definition build_versioned (m : IndexMapping) (version : Z) : MappedSchema :=
  let v1 := 1 <=? version in
  let v2 := 2 <=? version in
  mkSchema (mapped_fields m) m v1 v1 v2 version
    ([SOURCE_FIELD; TIMESTAMP_FIELD; DYNAMIC_FIELD] ++ (paths m).*1
     ++ (if v1 then [ID_FIELD; SEQ_FIELD] else []) ++ (if v2 then [DYNAMIC_RAW_FIELD] else [])).
Definition build (m : IndexMapping) : MappedSchema := build_versioned m CURRENT_SCHEMA_VERSION.

Definition text_tokenizer (s : MappedSchema) : bytes := str (if 2 <=? schema_version s then "standard" else "default").

Definition normalize `{TextTables} (n : option Normalizer) (value : bytes) : bytes :=
  match n with Some n => normalizer_apply n value | None => value end.

(** ** [PUT /{index}] and [PUT /{index}/_mapping] *)

(** The mapping [put_index] stores for a body's [mappings] and [settings]. *)
Definition put_index_mapping (mappings : json) (settings : option json) : IndexResult json :=
  mapping_to_json <$> from_request mappings settings.

(** The body of [put_mapping]: what it stores over the mapping it read. *)
Inductive PutError := Rejected (e : IndexError) | TypeChange (name : bytes) (current to_ : FieldType).
Definition default_mapping : IndexMapping := mkMapping [] [].
Definition existing_mapping (stored : json) : IndexMapping :=
  match mapping_from_json stored with Ok m => m | Err _ => default_mapping end.
(** [def_to_json] of search_api.rs: the declaration out of a mapping of one field. *)
Definition def_json_via (d : FieldDef) : json :=
  default Null (p ← get (mapping_to_json (mkMapping [(str "f", d)] [])) (str "properties"); get p (str "f")).
Fixpoint merge_properties (existing : list (bytes * FieldDef)) (sent : list (bytes * json)) (incoming : list (bytes * FieldDef))
    (merged : list (bytes * json)) : result PutError (list (bytes * json)) :=
  match incoming with
  | [] => Ok merged
  | (name, def) :: incoming =>
      merged ← match bt_get name existing with
               | Some current => if decide (fd_ty current <> fd_ty def) then Err (TypeChange name (fd_ty current) (fd_ty def)) else Ok merged
               | None => Ok (if bool_decide (is_Some (assoc name sent)) then obj_insert name (def_json_via def) merged else merged)
               end;
      merge_properties existing sent incoming merged
  end.
Definition members_of (j : json) (k : bytes) : list (bytes * json) := default [] (v ← get j k; as_object v).
Definition put_mapping (stored body : json) : result PutError json :=
  let existing := existing_mapping stored in
  incoming ← match from_mapping_update body existing with Ok m => Ok m | Err e => Err (Rejected e) end;
  merged ← merge_properties (properties existing) (members_of body (str "properties")) (properties incoming)
             (members_of stored (str "properties"));
  let top := match stored with Object o => o | _ => [] end in
  Ok (Object (obj_insert (str "properties") (Object merged) top)).

(** ** Sorted association lists *)

Lemma bytes_ltb_lt a b : bytes_ltb a b = true <-> bytes_lt a b.
Proof.
  unfold bytes_lt. revert b. induction a as [|x a IH]; intros [|y b]; simpl; try done.
  rewrite orb_true_iff, andb_true_iff, IH, Z.ltb_lt, Z.eqb_eq.
  destruct (Z.compare_spec (bz x) (bz y)); split; try done; try lia; naive_solver lia.
Qed.

Definition keys_sorted {A} (l : list (bytes * A)) : Prop := StronglySorted bytes_lt l.*1.

Section sorted_lists.
Context {A : Type}.
Implicit Types l o : list (bytes * A).

Lemma bt_insert_elem k v o x : x ∈ (bt_insert k v o).*1 -> x = k \/ x ∈ o.*1.
Proof.
  induction o as [|[k' v'] o IH]; simpl; [set_solver|]. case_decide; simpl; [set_solver|].
  destruct (bytes_ltb k k'); simpl; [set_solver|]. set_solver.
Qed.
Lemma bt_insert_sorted k v o : keys_sorted o -> keys_sorted (bt_insert k v o).
Proof.
  unfold keys_sorted. induction o as [|[k' v'] o IH]; simpl; intros S; [repeat constructor|].
  apply StronglySorted_inv in S as [S F]. case_decide as E.
  - subst. by constructor.
  - destruct (bytes_ltb k k') eqn:El; simpl.
    + apply bytes_ltb_lt in El. constructor; [by constructor|]. constructor; [done|].
      eapply Forall_impl; [exact F|]. intros x. by apply bytes_lt_trans.
    + constructor; [by apply IH|]. apply Forall_forall. intros x [->|Hx]%bt_insert_elem; [|by rewrite Forall_forall in F; apply F].
      destruct (decide (bytes_lt k k')) as [H|H]; [apply bytes_ltb_lt in H; congruence|].
      unfold bytes_lt in *. rewrite bytes_compare_antisym. destruct (bytes_compare k k') eqn:Ec; [|done|done].
      by apply bytes_compare_eq in Ec.
Qed.
Lemma bt_insert_last k v o : Forall (fun x => bytes_lt x k) o.*1 -> bt_insert k v o = o ++ [(k, v)].
Proof.
  induction o as [|[k' v'] o IH]; simpl; [done|]. intros [Hk H]%Forall_cons. rewrite decide_False.
  2:{ intros ->. by apply bytes_lt_irrefl in Hk. }
  destruct (bytes_ltb k k') eqn:E; [|by rewrite IH].
  apply bytes_ltb_lt in E. exfalso. apply (bytes_lt_irrefl k). by apply bytes_lt_trans with k'.
Qed.
Lemma bt_get_insert k j v o : bt_get k (bt_insert j v o) = if decide (k = j) then Some v else bt_get k o.
Proof.
  induction o as [|[k' v'] o IH]; [done|]. simpl. destruct (decide (j = k')) as [->|Hn]; simpl.
  - by destruct (decide (k = k')).
  - destruct (bytes_ltb j k'); simpl; [done|]. rewrite IH. destruct (decide (k = k')), (decide (k = j)); by subst.
Qed.
Lemma bt_get_elem k v o : bt_get k o = Some v -> (k, v) ∈ o.
Proof. induction o as [|[k' v'] o IH]; [done|]. simpl. case_decide; [intros [= <-]; subst; by left|]. intros Hk. right. by apply IH. Qed.
Lemma bt_get_None k o : bt_get k o = None <-> k ∉ o.*1.
Proof. induction o as [|[k' v'] o IH]; simpl; [set_solver|]. case_decide; set_solver. Qed.

Lemma snoc_sorted o kv : keys_sorted (o ++ [kv]) -> keys_sorted o /\ Forall (fun x => bytes_lt x kv.1) o.*1.
Proof.
  unfold keys_sorted. rewrite fmap_app. simpl. intros S. split; [by eapply StronglySorted_app_1_l|].
  apply Forall_forall. intros x Hx. eapply StronglySorted_app_1_elem_of; [exact S|done|by left].
Qed.
Lemma app_sorted o kv l : keys_sorted (o ++ kv :: l) -> Forall (fun x => bytes_lt x kv.1) o.*1.
Proof.
  intros S. apply (snoc_sorted o kv). change (kv :: l) with ([kv] ++ l) in S. unfold keys_sorted in *.
  rewrite app_assoc, fmap_app in S. by eapply StronglySorted_app_1_l.
Qed.
(** Collecting what is sorted keeps it. *)
Lemma bt_collect_from l o : keys_sorted (o ++ l) -> foldl (fun o kv => bt_insert kv.1 kv.2 o) o l = o ++ l.
Proof.
  revert o. induction l as [|kv l IH]; intros o S; [by rewrite app_nil_r|]. cbn [foldl].
  rewrite bt_insert_last by by eapply app_sorted. rewrite <- surjective_pairing, IH; rewrite <- app_assoc; done.
Qed.
Lemma bt_collect_id l : keys_sorted l -> bt_collect l = l.
Proof. intros S. by apply (bt_collect_from l []). Qed.
End sorted_lists.

Lemma obj_insert_bt k v o : obj_insert k v o = bt_insert k v o.
Proof. induction o as [|[k' v'] o IH]; [done|]. simpl. by rewrite IH. Qed.
Lemma assoc_bt k o : assoc k o = bt_get k o.
Proof. induction o as [|[k' v'] o IH]; [done|]. simpl. by rewrite IH. Qed.
Lemma obj_collect_id l : keys_sorted l -> obj_collect l = Object l.
Proof.
  intros S. unfold obj_collect. f_equal. rewrite <- (bt_collect_id l S) at 2. unfold bt_collect.
  generalize (@nil (bytes * json)). clear S. induction l as [|kv l IH]; intros o; [done|]. cbn [foldl]. by rewrite obj_insert_bt, IH.
Qed.
Lemma keys_sorted_map {A B} (f : A -> B) (l : list (bytes * A)) : keys_sorted l -> keys_sorted (prod_map id f <$> l).
Proof. unfold keys_sorted. rewrite <- list_fmap_compose. done. Qed.

(** ** Induction on declarations *)

Section def_induction.
Variable P : FieldDef -> Prop.
Hypothesis Hdef : forall f, Forall (fun nd => P nd.2) (fd_fields f) -> P f.
Fixpoint def_nested_ind (f : FieldDef) : P f :=
  match f with
  | mkDef t d n i b m l => Hdef (mkDef t d n i b m l)
      ((fix all (l : list (bytes * FieldDef)) : Forall (fun nd => P nd.2) l :=
          match l with
          | [] => Forall_nil_2 _
          | nd :: l => Forall_cons_2 _ _ _ (def_nested_ind nd.2) (all l)
          end) l)
  end.
End def_induction.

(** ** Declarations the parser yields *)

Inductive def_ok : FieldDef -> Prop :=
| def_ok_intro f :
    field_type_parse (declared f) = Some (fd_ty f) ->
    (fd_normalizer f <> None \/ fd_ignore_above f <> None -> fd_ty f = FKeyword) ->
    (fd_ignore_malformed f = true -> takes_ignore_malformed (fd_ty f) = true) ->
    (forall m, fd_meta f = Some m -> is_object m = true) ->
    keys_sorted (fd_fields f) -> Forall (fun nd => nd.1 <> [] /\ def_ok nd.2) (fd_fields f) ->
    def_ok f.

(** The same of a declaration being read, whose type is settled. *)
Record params_ok (t : FieldType) (d : bytes) (f : FieldDef) : Prop := {
  po_ty : fd_ty f = t;
  po_declared : declared f = d;
  po_keyword : fd_normalizer f <> None \/ fd_ignore_above f <> None -> t = FKeyword;
  po_malformed : fd_ignore_malformed f = true -> takes_ignore_malformed t = true;
  po_meta : forall m, fd_meta f = Some m -> is_object m = true;
  po_sorted : keys_sorted (fd_fields f);
  po_fields : Forall (fun nd => nd.1 <> [] /\ def_ok nd.2) (fd_fields f);
}.

Lemma set_param_ok t d path ty key value f f' : params_ok t d f -> set_param t path ty key value f = Ok f' -> params_ok t d f'.
Proof.
  intros [H1 H2 H3 H4 H5 H6 H7]. unfold set_param.
  destruct (decide (key = str "normalizer")); [|destruct (decide (key = str "ignore_above")); [|
    destruct (decide (key = str "ignore_malformed")); [|destruct (decide (key = str "meta"))]]].
  - case_bool_decide; [|done]. cbn [negb]. destruct (as_str value); [|done]. cbn [ok_or mbind result_bind]. intros [= <-]. by split.
  - case_bool_decide; [|done]. cbn [negb]. destruct (as_u64 value); [|done]. cbn [ok_or mbind result_bind]. intros [= <-]. by split.
  - destruct (takes_ignore_malformed t) eqn:E; [|done]. cbn [negb]. destruct (as_bool value); [|done]. cbn [ok_or mbind result_bind]. intros [= <-]. by split.
  - destruct (is_object value) eqn:E; [|done]. cbn [negb]. intros [= <-]. split; try done. by intros m [= <-].
  - destruct (inert_default t key) as [j|]; [|done]. destruct (is_default value j); [|done]. by intros [= <-].
Qed.

Lemma Forall_bt_insert {A} (P : bytes * A -> Prop) k v o : P (k, v) -> Forall P o -> Forall P (bt_insert k v o).
Proof.
  intros Hk. induction 1 as [|[k' v'] o Hx Ho IH]; simpl; [by constructor|].
  case_decide; [by constructor|]. destruct (bytes_ltb k k'); by repeat constructor.
Qed.

Lemma read_subs_ok (read : bytes -> json -> IndexResult FieldDef) path subs acc l :
  Forall (fun nd => forall p d, read p nd.2 = Ok d -> def_ok d) subs ->
  keys_sorted acc -> Forall (fun nd => nd.1 <> [] /\ def_ok nd.2) acc ->
  read_subs read path subs acc = Ok l -> keys_sorted l /\ Forall (fun nd => nd.1 <> [] /\ def_ok nd.2) l.
Proof.
  intros H. revert acc. induction H as [|[n j] subs Hj _ IH]; intros acc Hs Ha; simpl; [by intros [= <-]|].
  case_decide; [done|]. destruct (read (dotted path n) j) as [d|] eqn:E; [|done]. simpl. apply IH.
  - by apply bt_insert_sorted.
  - apply Forall_bt_insert; [|done]. split; [done|]. by eapply Hj.
Qed.

Lemma read_members_ok read t path ty obj f f' : params_ok t ty f ->
  Forall (fun kv => forall subs, kv.2 = Object subs -> Forall (fun nd => forall p d, read p nd.2 = Ok d -> def_ok d) subs) obj ->
  read_members read t path ty obj f = Ok f' -> params_ok t ty f'.
Proof.
  intros Hf H. revert f Hf. induction H as [|[key value] obj Hv _ IH]; intros f Hf; simpl; [by intros [= <-]|].
  repeat case_decide.
  - cbn [mbind result_bind]. by apply IH.
  - destruct value as [| | | | |subs]; try done. destruct (read_subs _ _ _ _) as [l|] eqn:E; [|done]. cbn [mbind result_bind].
    apply IH. destruct Hf as [H1 H2 H3 H4 H5 H6 H7]. apply read_subs_ok in E; [|by apply (Hv subs)|done..].
    split; try done; apply E.
  - destruct (set_param t path ty key value f) as [f1|] eqn:E; [|done]. cbn [mbind result_bind]. apply IH. by eapply set_param_ok.
Qed.

Lemma def_from_json_ok j : forall top path d, def_from_json top path j = Ok d -> def_ok d.
Proof.
  assert ((forall top path d, def_from_json top path j = Ok d -> def_ok d) /\
    (forall subs, j = Object subs -> Forall (fun nd => forall p d, def_from_json false p nd.2 = Ok d -> def_ok d) subs)) as [H _]; [|exact H].
  induction j as [| | | | |o IH] using json_nested_ind; try (split; [done|]; done).
  split.
  - intros top path d. cbn [def_from_json]. destruct (assoc (str "type") o ≫= as_str) as [ty|]; [|done].
    destruct (field_type_parse ty) as [t|] eqn:Et; [|done]. intros E.
    apply read_members_ok in E as [H1 H2 H3 H4 H5 H6 H7].
    + subst. constructor; done.
    + split; simpl; try done; try constructor; naive_solver.
    + eapply Forall_impl; [exact IH|]. intros kv [_ H] subs Es. by apply H.
  - intros subs [= <-]. eapply Forall_impl; [exact IH|]. intros nd [H _] p d. apply H.
Qed.

(** ** What is stored reads back *)

Definition opt_member (k : string) (o : option json) : list (bytes * json) :=
  match o with Some v => [(str k, v)] | None => [] end.

(** The members of a rendered declaration, in key order. *)
Lemma def_to_json_members f : keys_sorted (fd_fields f) -> def_to_json f = Object
  (opt_member "fields" (match fd_fields f with [] => None | l => Some (Object (prod_map id def_to_json <$> l)) end)
   ++ opt_member "ignore_above" (Number ∘ PosInt <$> fd_ignore_above f)
   ++ opt_member "ignore_malformed" (if fd_ignore_malformed f then Some (Bool true) else None)
   ++ opt_member "meta" (fd_meta f)
   ++ opt_member "normalizer" (JString <$> fd_normalizer f)
   ++ [(str "type", JString (declared f))]).
Proof.
  destruct f as [t d n i b m l]. intros S. cbn [fd_fields fd_ignore_above fd_ignore_malformed fd_meta fd_normalizer declared def_to_json] in *.
  assert (map (fun nd => (nd.1, def_to_json nd.2)) l = prod_map id def_to_json <$> l) as -> by done.
  rewrite obj_collect_id by by apply keys_sorted_map.
  destruct n, i, b, m, l; reflexivity.
Qed.

Lemma read_members_app read t path ty l1 l2 f :
  read_members read t path ty (l1 ++ l2) f = (f1 ← read_members read t path ty l1 f; read_members read t path ty l2 f1).
Proof.
  revert f. induction l1 as [|[k v] l1 IH]; intros f; [done|]. cbn [app read_members].
  destruct (if decide (k = str "type") then _ else _) as [f1|]; [|done]. cbn [mbind result_bind]. apply IH.
Qed.

Lemma read_subs_id (read : bytes -> json -> IndexResult FieldDef) path l acc :
  Forall (fun nd => nd.1 <> [] /\ forall p, read p (def_to_json nd.2) = Ok nd.2) l -> keys_sorted (acc ++ l) ->
  read_subs read path (prod_map id def_to_json <$> l) acc = Ok (acc ++ l).
Proof.
  intros H. revert acc. induction H as [|[n d] l [Hn Hd] _ IH]; intros acc S; [by rewrite app_nil_r|].
  cbn [fmap list_fmap prod_map fst snd read_subs]. simpl in Hn, Hd. rewrite decide_False by done. rewrite Hd. cbn [mbind result_bind].
  rewrite bt_insert_last by by eapply (app_sorted acc (n, d)).
  change (list_fmap _ _ (prod_map id def_to_json) l) with (prod_map id def_to_json <$> l). rewrite IH; by rewrite <- app_assoc.
Qed.

(** A declaration's rendering reads back as the declaration. *)
Lemma def_roundtrip d : def_ok d -> forall top path, def_from_json top path (def_to_json d) = Ok d.
Proof.
  induction d as [f IH] using def_nested_ind. intros Hok top path. inversion Hok as [? Ht Hk Hm Hme S F]; subst.
  rewrite def_to_json_members by done. cbn [def_from_json].
  assert (forall l, assoc (str "type") l = None -> assoc (str "type") (l ++ [(str "type", JString (declared f))]) = Some (JString (declared f))) as Ha.
  { intros l. induction l as [|[k v] l IHl]; [done|]. simpl. by case_decide. }
  rewrite !app_assoc, Ha; [cbn [mbind option_bind as_str]|by destruct (fd_fields f), (fd_ignore_above f), (fd_ignore_malformed f), (fd_meta f), (fd_normalizer f)].
  rewrite Ht, <- !app_assoc, read_members_app.
  assert (read_members (def_from_json false) (fd_ty f) path (declared f)
    (opt_member "fields" (match fd_fields f with [] => None | l => Some (Object (prod_map id def_to_json <$> l)) end))
    (new_def (fd_ty f) (declared f)) = Ok (set_fields (fd_fields f) (new_def (fd_ty f) (declared f)))) as ->.
  { destruct (fd_fields f) as [|nd l] eqn:E; [done|]. cbn [opt_member read_members]. rewrite decide_False, decide_True by done.
    cbn [fd_fields new_def]. rewrite (read_subs_id (def_from_json false) path (nd :: l) []); [done| |done].
    rewrite Forall_forall in F |- *. rewrite Forall_forall in IH. intros x Hx. destruct (F x Hx) as [Hn Hd].
    split; [done|]. intros p. by apply IH. }
  cbn [mbind result_bind]. rewrite read_members_app. destruct f as [t d n i b m l]. cbn [fd_ty declared fd_normalizer fd_ignore_above fd_ignore_malformed fd_meta fd_fields] in *.
  unfold new_def, set_fields. cbn [fd_ty declared fd_normalizer fd_ignore_above fd_ignore_malformed fd_meta fd_fields].
  assert (forall f, read_members (def_from_json false) t path d (opt_member "ignore_above" (Number ∘ PosInt <$> i)) f =
    Ok (match i with Some z => set_ignore_above z f | None => f end)) as ->.
  { intros f. destruct i; [|done]. rewrite (Hk ltac:(by right)). reflexivity. }
  cbn [mbind result_bind]. rewrite ?read_members_app.
  assert (forall f, read_members (def_from_json false) t path d (opt_member "ignore_malformed" (if b then Some (Bool true) else None)) f =
    Ok (if b then set_ignore_malformed true f else f)) as ->.
  { intros f. destruct b; [|done]. specialize (Hm eq_refl). by destruct t. }
  cbn [mbind result_bind]. rewrite ?read_members_app.
  assert (forall f, read_members (def_from_json false) t path d (opt_member "meta" m) f =
    Ok (match m with Some j => set_meta j f | None => f end)) as ->.
  { intros f. destruct m as [j|]; [|done]. specialize (Hme j eq_refl). by destruct j. }
  cbn [mbind result_bind]. rewrite ?read_members_app.
  assert (forall f, read_members (def_from_json false) t path d (opt_member "normalizer" (JString <$> n)) f =
    Ok (match n with Some s => set_normalizer s f | None => f end)) as ->.
  { intros f. destruct n; [|done]. rewrite (Hk ltac:(by left)). reflexivity. }
  by destruct n, i, b, m.
Qed.

Lemma filter_parse_str f : filter_parse (filter_str f) = Some f.
Proof. by destruct f. Qed.
Lemma parse_filters_id name n : parse_filters name (JString ∘ filter_str <$> n) = Ok n.
Proof.
  induction n as [|f n IH]; [done|]. cbn [fmap list_fmap compose parse_filters as_str ok_or mbind result_bind].
  rewrite filter_parse_str. cbn [ok_or mbind result_bind]. change (list_fmap _ _ (JString ∘ filter_str) n) with (JString ∘ filter_str <$> n).
  by rewrite IH.
Qed.
Lemma normalizer_roundtrip name n : parse_normalizer name (normalizer_to_json n) = Ok n.
Proof.
  replace (normalizer_to_json n) with (Object [(str "filter", Array (JString ∘ filter_str <$> n)); (str "type", JString (str "custom"))]) by done.
  exact (parse_filters_id name n).
Qed.
Lemma parse_normalizers_id l acc : keys_sorted (acc ++ l) -> parse_normalizers (prod_map id normalizer_to_json <$> l) acc = Ok (acc ++ l).
Proof.
  revert acc. induction l as [|[k n] l IH]; intros acc S; [by rewrite app_nil_r|].
  cbn [fmap list_fmap prod_map fst snd parse_normalizers]. rewrite normalizer_roundtrip. cbn [mbind result_bind].
  rewrite bt_insert_last by by eapply (app_sorted acc (k, n)).
  change (list_fmap _ _ (prod_map id normalizer_to_json) l) with (prod_map id normalizer_to_json <$> l). rewrite IH; by rewrite <- app_assoc.
Qed.
Lemma parse_normalizers_sorted l acc ns : keys_sorted acc -> parse_normalizers l acc = Ok ns -> keys_sorted ns.
Proof.
  revert acc. induction l as [|[k d] l IH]; intros acc S; simpl; [by intros [= <-]|].
  destruct (parse_normalizer k d); [|done]. cbn [mbind result_bind]. apply IH. by apply bt_insert_sorted.
Qed.

(** Mappings the parser yields. *)
Record mapping_ok (m : IndexMapping) : Prop := {
  ok_sorted : keys_sorted (properties m);
  ok_defs : Forall (fun nd => starts_underscore nd.1 = false /\ def_ok nd.2) (properties m);
  ok_normalizers : keys_sorted (normalizers m);
  ok_refs : check_normalizer_references m = Ok tt;
}.

Lemma parse_properties_ok l acc ps : keys_sorted acc -> Forall (fun nd => starts_underscore nd.1 = false /\ def_ok nd.2) acc ->
  parse_properties l acc = Ok ps -> keys_sorted ps /\ Forall (fun nd => starts_underscore nd.1 = false /\ def_ok nd.2) ps.
Proof.
  revert acc. induction l as [|[n j] l IH]; intros acc S F; simpl; [by intros [= <-]|].
  destruct (starts_underscore n) eqn:E; [done|]. destruct (def_from_json true n j) as [d|] eqn:Ed; [|done]. cbn [mbind result_bind].
  apply IH; [by apply bt_insert_sorted|]. apply Forall_bt_insert; [|done]. split; [done|]. by eapply def_from_json_ok.
Qed.

Lemma parse_mapping_ok j ns m : keys_sorted ns -> parse_mapping j ns = Ok m -> mapping_ok m /\ normalizers m = ns.
Proof.
  intros S. unfold parse_mapping. destruct (get j (str "properties")) as [p|]; [|intros [= <-]; split; [by repeat constructor|done]].
  destruct p as [| | | | |props]; try done. destruct (parse_properties props []) as [ps|] eqn:E; [|done]. cbn [mbind result_bind].
  destruct (check_normalizer_references (mkMapping ps ns)) as [[]|] eqn:Ec; [|done]. cbn [mbind result_bind]. intros [= <-].
  apply parse_properties_ok in E as [H1 H2]; [|constructor|constructor]. by repeat split.
Qed.

Lemma parse_properties_id l acc : Forall (fun nd => starts_underscore nd.1 = false /\ def_ok nd.2) l -> keys_sorted (acc ++ l) ->
  parse_properties (prod_map id def_to_json <$> l) acc = Ok (acc ++ l).
Proof.
  intros H. revert acc. induction H as [|[n d] l [Hn Hd] _ IH]; intros acc S; [by rewrite app_nil_r|].
  cbn [fmap list_fmap prod_map fst snd parse_properties id]. cbn [fst snd] in Hn, Hd. rewrite Hn, def_roundtrip by done. cbn [mbind result_bind].
  rewrite bt_insert_last by by eapply (app_sorted acc (n, d)).
  change (list_fmap _ _ (prod_map id def_to_json) l) with (prod_map id def_to_json <$> l). rewrite IH; by rewrite <- app_assoc.
Qed.

Lemma mapping_roundtrip m : mapping_ok m -> mapping_from_json (mapping_to_json m) = Ok m.
Proof.
  intros [H1 H2 H3 H4]. destruct m as [ps ns]. cbn [properties normalizers] in *.
  assert (mapping_to_json (mkMapping ps ns) =
    Object (match ns with [] => [] | _ => [(NORMALIZERS_KEY, Object (prod_map id normalizer_to_json <$> ns))] end
            ++ [(str "properties", Object (prod_map id def_to_json <$> ps))])) as ->.
  { unfold mapping_to_json. cbn [properties normalizers]. rewrite obj_collect_id by by apply keys_sorted_map.
    destruct ns as [|n ns]; [done|]. unfold normalizers_json. by rewrite obj_collect_id by by apply keys_sorted_map. }
  unfold mapping_from_json. set (P := Object (prod_map id def_to_json <$> ps)).
  assert (match get (Object (match ns with [] => [] | _ => [(NORMALIZERS_KEY, Object (prod_map id normalizer_to_json <$> ns))] end
    ++ [(str "properties", P)])) NORMALIZERS_KEY with
    | Some (Object stored) => parse_normalizers stored [] | Some _ => Err (InvalidMapping StoredNormalizers) | None => Ok [] end = Ok ns) as ->.
  { destruct ns as [|n ns]; [done|]. cbn [get app assoc]. rewrite decide_True by done. by apply (parse_normalizers_id (n :: ns) []). }
  cbn [mbind result_bind]. unfold parse_mapping.
  assert (get (Object (match ns with [] => [] | _ => [(NORMALIZERS_KEY, Object (prod_map id normalizer_to_json <$> ns))] end
    ++ [(str "properties", P)])) (str "properties") = Some P) as -> by by destruct ns.
  unfold P. rewrite (parse_properties_id ps []) by done. cbn [app mbind result_bind]. by rewrite H4.
Qed.

(** What [PUT /{index}] stores is the mapping that was accepted: every
    reader of the stored form (search, ingest, compaction, split readers), which
    falls back to an empty mapping when it does not parse, gets the accepted one. *)
Theorem stored_mapping_roundtrip mappings settings stored :
  put_index_mapping mappings settings = Ok stored ->
  exists m, from_request mappings settings = Ok m /\ mapping_from_json stored = Ok m.
Proof.
  unfold put_index_mapping. destruct (from_request mappings settings) as [m|] eqn:E; [|done]. intros [= <-]. exists m.
  split; [done|]. apply mapping_roundtrip. revert E. unfold from_request.
  set (d := match _ with Some d => Some d | None => _ end). clearbody d.
  assert (forall r ns, keys_sorted ns -> parse_mapping mappings ns = Ok r -> mapping_ok r) as H by (intros r ns S E; by eapply parse_mapping_ok).
  destruct d as [[| | | | |l]|]; cbn [mbind result_bind]; try done; [|apply H; constructor].
  destruct (parse_normalizers l []) as [ns|] eqn:En; [|done]. cbn [mbind result_bind]. apply H.
  by eapply parse_normalizers_sorted; [|exact En]; constructor.
Qed.

(** ** [PUT /{index}/_mapping] *)

(** Stored members and the declarations they read as. *)
Definition reads_as (kv : bytes * json) (nd : bytes * FieldDef) : Prop :=
  kv.1 = nd.1 /\ starts_underscore kv.1 = false /\ def_from_json true kv.1 kv.2 = Ok nd.2.

Lemma parse_properties_rel l : forall acc ps, StronglySorted bytes_lt (acc.*1 ++ l.*1) ->
  parse_properties l acc = Ok ps <-> exists ps', ps = acc ++ ps' /\ Forall2 reads_as l ps'.
Proof.
  induction l as [|[n j] l IH]; intros acc ps S; cbn [parse_properties].
  - split; [intros [= <-]; exists []; by rewrite app_nil_r|]. intros (ps' & -> & ->%Forall2_nil_inv_l). by rewrite app_nil_r.
  - assert (Forall (fun x => bytes_lt x n) acc.*1) as Ha.
    { apply Forall_forall. intros x Hx. eapply StronglySorted_app_1_elem_of; [exact S|done|by left]. }
    destruct (starts_underscore n) eqn:Eu.
    { split; [done|]. intros (ps' & _ & H). inversion H as [|? nd ? ? (_ & H' & _)]; subst. simpl in H'. congruence. }
    destruct (def_from_json true n j) as [d|] eqn:Ed; cbn [mbind result_bind].
    2:{ split; [done|]. intros (ps' & _ & H). inversion H as [|? nd ? ? (_ & _ & H')]; subst. simpl in H'. congruence. }
    rewrite bt_insert_last, IH by (done || (rewrite fmap_app, <- app_assoc; done)). split.
    + intros (ps' & -> & H). exists ((n, d) :: ps'). rewrite <- app_assoc. split; [done|]. by constructor.
    + intros (ps' & -> & H). inversion H as [|? [n' d'] ? l' (H1 & _ & H2) Hl]; subst. simpl in *. subst. exists l'.
      rewrite <- app_assoc. assert (d' = d) as -> by congruence. done.
Qed.

Lemma reads_as_keys l ps : Forall2 reads_as l ps -> l.*1 = ps.*1.
Proof. induction 1 as [|? ? ? ? (H & _) _ IH]; [done|]. by rewrite !fmap_cons, H, IH. Qed.

Lemma reads_as_insert k v d l ps : starts_underscore k = false -> def_from_json true k v = Ok d ->
  Forall2 reads_as l ps -> Forall2 reads_as (bt_insert k v l) (bt_insert k d ps).
Proof.
  intros Hk Hd. induction 1 as [|[a x] [b y] l ps (H1 & H2 & H3) H IH]; simpl in *; [by repeat constructor|]. subst b.
  destruct (decide (k = a)) as [->|]; [by repeat constructor|]. destruct (bytes_ltb k a); repeat constructor; done.
Qed.

Lemma sorted_get {A} (l : list (bytes * A)) n d : keys_sorted l -> (n, d) ∈ l -> bt_get n l = Some d.
Proof.
  unfold keys_sorted. induction l as [|[k v] l IH]; [by intros _ ?%elem_of_nil|]. simpl.
  intros [S F]%StronglySorted_inv [[= -> ->]|Hin]%elem_of_cons; [by rewrite decide_True|].
  rewrite decide_False; [by apply IH|]. intros ->. rewrite Forall_forall in F.
  apply (bytes_lt_irrefl k), F. apply list_elem_of_fmap. by exists (k, d).
Qed.

Lemma check_all_Forall ns l : check_all ns l = Ok tt <-> Forall (fun nd => check_refs ns nd.1 nd.2 = Ok tt) l.
Proof.
  induction l as [|[n d] l IH]; simpl; [split; [constructor|done]|]. rewrite Forall_cons, <- IH. simpl.
  destruct (check_refs ns n d) as [[]|]; simpl; naive_solver.
Qed.

Lemma merge_properties_spec existing sent incoming : forall merged acc out,
  Forall2 reads_as merged acc -> keys_sorted merged -> keys_sorted incoming ->
  Forall (fun nd => starts_underscore nd.1 = false /\ def_ok nd.2 /\ is_Some (assoc nd.1 sent)) incoming ->
  merge_properties existing sent incoming merged = Ok out ->
  exists ps, Forall2 reads_as out ps /\ keys_sorted out /\
    forall n, bt_get n ps = (match bt_get n existing, bt_get n incoming with None, Some d => Some d | _, _ => bt_get n acc end).
Proof.
  induction incoming as [|[k d] incoming IH]; intros merged acc out R Sm Si F; cbn [merge_properties].
  - intros [= <-]. exists acc. split_and!; [done..|]. intros n. simpl. by destruct (bt_get n existing).
  - apply Forall_cons in F as [(Hu & Hd & Hs) F]. simpl in Hu, Hd, Hs. unfold keys_sorted in Si. simpl in Si.
    apply StronglySorted_inv in Si as [Si Fk].
    assert (bt_get k incoming = None) as Hk.
    { apply bt_get_None. intros Hin. rewrite Forall_forall in Fk. by apply Fk, bytes_lt_irrefl in Hin. }
    destruct (bt_get k existing) as [cur|] eqn:Ek.
    + destruct (decide _) as [|Hty]; [done|]. cbn [mbind result_bind]. intros E.
      destruct (IH merged acc out R Sm Si F E) as (ps & H1 & H2 & H3). exists ps. split_and!; [done..|].
      intros n. rewrite H3. cbn [bt_get]. destruct (decide (n = k)) as [->|]; [|done]. by rewrite Ek.
    + cbn [mbind result_bind]. rewrite bool_decide_eq_true_2 by done. intros E. rewrite obj_insert_bt in E.
      assert (def_json_via d = def_to_json d) as Ej by done. rewrite Ej in E.
      apply (IH _ (bt_insert k d acc)) in E as (ps & H1 & H2 & H3); [|apply reads_as_insert; [done|by apply def_roundtrip|done]|by apply bt_insert_sorted|done..].
      exists ps. split_and!; [done..|]. intros n. rewrite H3, bt_get_insert. cbn [bt_get].
      destruct (decide (n = k)) as [->|]; [by rewrite Ek, Hk|done].
Qed.

Lemma parse_properties_sent l acc ps : parse_properties l acc = Ok ps -> forall n, n ∈ ps.*1 -> n ∈ acc.*1 \/ is_Some (assoc n l).
Proof.
  revert acc. induction l as [|[k j] l IH]; intros acc; cbn [parse_properties]; [intros [= <-]; by left|].
  destruct (starts_underscore k); [done|]. destruct (def_from_json true k j) as [d|]; [|done]. cbn [mbind result_bind].
  intros E x Hx. apply (IH _ E) in Hx as [[->|Hx]%bt_insert_elem|Hx]; simpl; [right|by left|right].
  - by rewrite decide_True.
  - by destruct (decide (x = k)).
Qed.

(** [PUT /{index}/_mapping] adds fields and changes none: what it stores
    parses, to the fields there were as they were declared, the request's new
    fields as it declared them, and the index's normalizers. *)
Theorem put_mapping_merges stored body stored' m :
  mapping_from_json stored = Ok m -> keys_sorted (members_of stored (str "properties")) ->
  put_mapping stored body = Ok stored' ->
  exists incoming m', from_mapping_update body m = Ok incoming /\ mapping_from_json stored' = Ok m' /\
    normalizers m' = normalizers m /\
    forall name, bt_get name (properties m') =
      (match bt_get name (properties m) with Some d => Some d | None => bt_get name (properties incoming) end).
Proof.
  intros Hm Ss. unfold put_mapping, existing_mapping. rewrite Hm.
  destruct (from_mapping_update body m) as [inc|] eqn:Ei; [|done]. cbn [mbind result_bind].
  destruct (merge_properties _ _ _ _) as [out|] eqn:Em; [|done]. cbn [mbind result_bind]. intros [= <-].
  unfold mapping_from_json in Hm.
  assert (exists ns, match get stored NORMALIZERS_KEY with
    | Some (Object l) => parse_normalizers l [] | Some _ => Err (InvalidMapping StoredNormalizers) | None => Ok [] end = Ok ns
    /\ parse_mapping stored ns = Ok m /\ keys_sorted ns) as (ns & En & Hp & Sn).
  { destruct (get stored NORMALIZERS_KEY) as [[| | | | |l]|]; try done; cbn [mbind result_bind] in Hm.
    - destruct (parse_normalizers l []) as [ns|] eqn:E; [|done]. exists ns. split_and!; [done..|].
      by eapply parse_normalizers_sorted; [|exact E]; constructor.
    - exists []. split_and!; [done..|constructor]. }
  pose proof (parse_mapping_ok _ _ _ Sn Hp) as [[H1 H2 H3 H4] Hns].
  assert (Forall2 reads_as (members_of stored (str "properties")) (properties m)) as R.
  { unfold parse_mapping in Hp. unfold members_of in *. destruct (get stored (str "properties")) as [p|]; [|injection Hp as <-; constructor].
    destruct p as [| | | | |props]; try done. cbn in Ss |- *. destruct (parse_properties props []) as [ps|] eqn:E; [|done]. cbn [mbind result_bind] in Hp.
    destruct (check_normalizer_references _) as [[]|]; [|done]. injection Hp as <-.
    apply (parse_properties_rel props []) in E as (ps' & -> & H); done. }
  unfold from_mapping_update in Ei. pose proof (parse_mapping_ok _ _ _ H3 Ei) as [[I1 I2 I3 I4] Hni].
  assert (forall n, n ∈ (properties inc).*1 -> is_Some (assoc n (members_of body (str "properties")))) as Hsent.
  { unfold parse_mapping in Ei. unfold members_of. destruct (get body (str "properties")) as [p|]; [|injection Ei as <-; by intros n ?%elem_of_nil].
    destruct p as [| | | | |props]; try done. cbn. destruct (parse_properties props []) as [ps|] eqn:E; [|done]. cbn [mbind result_bind] in Ei.
    destruct (check_normalizer_references _) as [[]|]; [|done]. injection Ei as <-. cbn [properties]. intros n Hn.
    by destruct (parse_properties_sent _ _ _ E n Hn) as [?%elem_of_nil|]. }
  apply (merge_properties_spec _ _ _ _ (properties m)) in Em as (ps & P1 & P2 & P3); [|done..|].
  2:{ apply Forall_forall. intros nd Hnd. rewrite Forall_forall in I2. destruct (I2 nd Hnd) as [Hu Hd]. split_and!; [done..|].
      apply Hsent. apply list_elem_of_fmap. by exists nd. }
  assert (keys_sorted ps) as Sps by (unfold keys_sorted in *; by rewrite <- (reads_as_keys out ps)).
  exists inc, (mkMapping ps ns). split_and!; [done| | |].
  - set (top := match stored with Object o => o | _ => [] end).
    assert (forall k, get stored k = assoc k top) as Ht by (by destruct stored).
    unfold mapping_from_json. cbn [get]. rewrite assoc_insert_ne by done. rewrite <- Ht, En. cbn [mbind result_bind].
    unfold parse_mapping. cbn [get]. rewrite assoc_insert.
    rewrite (proj2 (parse_properties_rel out [] ps P2)); [|by exists ps]. cbn [mbind result_bind].
    assert (check_normalizer_references (mkMapping ps ns) = Ok tt) as ->; [|done].
    apply check_all_Forall. cbn [normalizers properties]. apply Forall_forall. intros [n d] Hnd. apply sorted_get in Hnd; [|done].
    rewrite P3 in Hnd. unfold check_normalizer_references in H4, I4. rewrite check_all_Forall, Forall_forall in H4, I4.
    rewrite Hni, Hns in I4. rewrite Hns in H4.
    destruct (bt_get n (properties m)) as [d0|] eqn:E1; [apply H4; apply bt_get_elem; congruence|].
    destruct (bt_get n (properties inc)) as [d1|] eqn:E2; [apply I4; apply bt_get_elem; congruence|congruence].
  - by rewrite Hns.
  - intros n. cbn [properties]. rewrite P3. destruct (bt_get n (properties m)) as [d|]; [done|].
    by destruct (bt_get n (properties inc)).
Qed.

(** ** The names of a schema *)

Definition dotless (n : bytes) : Prop := x2e ∉ n.
(** No multi-field of the declaration has a dot in its name. *)
Inductive dotless_def : FieldDef -> Prop :=
| dotless_def_intro f : Forall (fun nd => dotless nd.1 /\ dotless_def nd.2) (fd_fields f) -> dotless_def f.

(** A path, or one below it. *)
Definition dot_tail (t : bytes) : Prop := match t with [] => True | b :: _ => b = x2e end.
Definition under (p x : bytes) : Prop := exists t, x = p ++ t /\ dot_tail t.

Lemma dotless_prefix a b s t : dotless a -> dotless b -> dot_tail s -> dot_tail t -> a ++ s = b ++ t -> a = b.
Proof.
  unfold dotless. revert b. induction a as [|x a IH]; intros [|y b] Ha Hb Hs Ht E; simpl in E; try done.
  - subst s. simpl in Hs. subst y. exfalso. apply Hb. by left.
  - subst t. simpl in Ht. subst x. exfalso. apply Ha. by left.
  - injection E as -> E. f_equal. apply IH; [set_solver..|done|done|done].
Qed.
Lemma under_inj n n' x : dotless n -> dotless n' -> under n x -> under n' x -> n = n'.
Proof. intros Hn Hn' (s & -> & Hs) (t & E & Ht). by apply (dotless_prefix n n' s t). Qed.
Lemma under_dotted p n x : under (dotted p n) x -> exists y, x = p ++ str "." ++ y /\ under n y.
Proof. intros (t & -> & Ht). exists (n ++ t). unfold dotted. rewrite <- !app_assoc. split; [done|]. by exists t. Qed.
Lemma dotted_under p n x : under (dotted p n) x -> under p x /\ x <> p.
Proof.
  intros (y & -> & _)%under_dotted. split; [by eexists|]. intros E. apply (f_equal length) in E. rewrite length_app in E. simpl in E. lia.
Qed.

Lemma walk_each path l : (fix each (l : list (bytes * FieldDef)) : list (bytes * FieldDef) :=
  match l with [] => [] | (n, s) :: l => walk_paths (dotted path n) s ++ each l end) l = concat ((fun nd => walk_paths (dotted path nd.1) nd.2) <$> l).
Proof. induction l as [|[n s] l IH]; [done|]. simpl. by rewrite IH. Qed.
Lemma walk_paths_eq path d : walk_paths path d = (path, d) :: concat ((fun nd => walk_paths (dotted path nd.1) nd.2) <$> fd_fields d).
Proof. destruct d. simpl. by rewrite walk_each. Qed.

Lemma walk_paths_under d : forall path x, x ∈ (walk_paths path d).*1 -> under path x.
Proof.
  induction d as [f IH] using def_nested_ind. intros path x. rewrite walk_paths_eq. simpl.
  intros [->|Hx]%elem_of_cons; [exists []; by rewrite app_nil_r|].
  apply list_elem_of_fmap in Hx as (xd & -> & Hx). apply elem_of_concat in Hx as (l & Hx & Hl). apply list_elem_of_fmap in Hl as (nd & -> & Hnd).
  rewrite Forall_forall in IH. apply (dotted_under path nd.1). apply (IH nd Hnd). apply list_elem_of_fmap. by exists xd.
Qed.

(** Names of distinct, dotless siblings do not meet. *)
Lemma NoDup_siblings (f : bytes -> bytes) l :
  (forall n n' x, dotless n -> dotless n' -> under (f n) x -> under (f n') x -> n = n') ->
  NoDup l.*1 -> Forall (fun nd => dotless nd.1 /\ NoDup (walk_paths (f nd.1) nd.2).*1) l ->
  NoDup (concat ((fun nd => walk_paths (f nd.1) nd.2) <$> l)).*1.
Proof.
  intros Hf. induction l as [|[n d] l IH]; [constructor|]. simpl. intros [Hn Hl]%NoDup_cons [[Hd Hw] H]%Forall_cons.
  rewrite fmap_app. apply NoDup_app. split_and!; [done| |by apply IH].
  intros x Hx%walk_paths_under Hy. apply list_elem_of_fmap in Hy as (xd & -> & Hy). apply elem_of_concat in Hy as (w & Hy & Hw'). apply list_elem_of_fmap in Hw' as (nd & -> & Hnd).
  rewrite Forall_forall in H. destruct (H nd Hnd) as [Hnd' _]. apply Hn. simpl in *.
  rewrite (Hf n nd.1 xd.1); [apply list_elem_of_fmap; by exists nd|done|done|done|].
  apply (walk_paths_under nd.2). apply list_elem_of_fmap. by exists xd.
Qed.

Lemma sorted_NoDup (l : list bytes) : StronglySorted bytes_lt l -> NoDup l.
Proof.
  induction 1 as [|x l S IH F]; constructor; [|done]. intros Hx. rewrite Forall_forall in F. by apply F, bytes_lt_irrefl in Hx.
Qed.

Lemma walk_paths_NoDup d : def_ok d -> dotless_def d -> forall path, NoDup (walk_paths path d).*1.
Proof.
  induction d as [f IH] using def_nested_ind. intros Hok Hd path. inversion Hok as [? _ _ _ _ S F]; subst. inversion Hd as [? D]; subst.
  rewrite walk_paths_eq, fmap_cons. constructor.
  - intros Hx. apply list_elem_of_fmap in Hx as (xd & E & Hx). apply elem_of_concat in Hx as (l & Hx & Hl). apply list_elem_of_fmap in Hl as (nd & -> & Hnd).
    assert (under (dotted path nd.1) xd.1) as Hu by (apply (walk_paths_under nd.2); apply list_elem_of_fmap; by exists xd).
    apply dotted_under in Hu as [_ Hu]. by rewrite <- E in Hu.
  - apply (NoDup_siblings (dotted path)).
    + intros n n' x Hn Hn' (y & -> & Hy)%under_dotted (y' & E & Hy')%under_dotted. apply app_inv_head, app_inv_head in E. subst y'.
      by apply (under_inj n n' y).
    + by apply sorted_NoDup.
    + apply Forall_forall. intros nd Hnd. rewrite Forall_forall in IH, F, D. destruct (D nd Hnd) as [? ?], (F nd Hnd) as [_ ?].
      split; [done|]. by apply IH.
Qed.

(** Every name a mapping declares is handed to the schema builder once, and
    none is a reserved one, when no name has a dot of its own. *)
Lemma schema_names_distinct m : mapping_ok m ->
  Forall (fun nd => dotless nd.1 /\ dotless_def nd.2) (properties m) -> NoDup (schema_names (build m)).
Proof.
  intros [H1 H2 _ _] D. rewrite Forall_forall in H2, D.
  assert (NoDup (paths m).*1) as Hp.
  { unfold paths. apply (NoDup_siblings id); [intros n n' x; apply under_inj|by apply sorted_NoDup|].
    apply Forall_forall. intros nd Hnd. destruct (D nd Hnd), (H2 nd Hnd). split; [done|]. by apply walk_paths_NoDup. }
  assert (forall x, x ∈ (paths m).*1 -> starts_underscore x = false) as Hu.
  { intros x Hx. apply list_elem_of_fmap in Hx as (xd & -> & Hx). unfold paths in Hx. apply elem_of_concat in Hx as (l & Hx & Hl). apply list_elem_of_fmap in Hl as (nd & -> & Hnd).
    destruct (H2 nd Hnd) as [Hs _]. assert (under nd.1 xd.1) as (t & -> & Ht).
    { apply (walk_paths_under nd.2), list_elem_of_fmap. by exists xd. }
    destruct (nd.1) as [|b r]; [|exact Hs]. simpl. destruct t as [|b t]; [done|]. simpl in Ht. by subst b. }
  assert (forall x, starts_underscore x = true -> x ∉ (paths m).*1) as Hr by (intros x Hx Hin; apply Hu in Hin; congruence).
  unfold schema_names, build, build_versioned.
  set (A := [SOURCE_FIELD; TIMESTAMP_FIELD; DYNAMIC_FIELD]). set (B := _ ++ (if 2 <=? CURRENT_SCHEMA_VERSION then _ else _)).
  assert (A ++ (paths m).*1 ++ B ≡ₚ (paths m).*1 ++ (A ++ B)) as -> by (rewrite !app_assoc; f_equiv; apply Permutation_app_comm).
  apply NoDup_app. split_and!; [done| |].
  - intros x Hx Hin. apply Hu in Hx. assert (Forall (fun y => starts_underscore y = true) (A ++ B)) as F by repeat constructor.
    rewrite Forall_forall in F. apply F in Hin. congruence.
  - apply (bool_decide_eq_true_1 (NoDup (A ++ B))). vm_compute. reflexivity.
Qed.

(** A multi-field may have the path of another property: the request is
    accepted and stored, and the schema built from it at every flush, search
    and compaction hands the builder one name twice. *)
Theorem repeated_path_accepted :
  let keyword := Object [(str "type", JString (str "keyword"))] in
  let title := Object [(str "fields", Object [(str "raw", keyword)]); (str "type", JString (str "text"))] in
  let mappings := Object [(str "properties", Object [(str "title", title); (str "title.raw", keyword)])] in
  exists m, from_request mappings None = Ok m /\ mapping_from_json (mapping_to_json m) = Ok m /\
    schema_names (build m) =
      [SOURCE_FIELD; TIMESTAMP_FIELD; DYNAMIC_FIELD; str "title"; str "title.raw"; str "title.raw"; ID_FIELD; SEQ_FIELD; DYNAMIC_RAW_FIELD].
Proof. eexists. repeat split; vm_compute; reflexivity. Qed.

(** ** Concrete requests *)

Definition demo_mappings : json := Object [(str "properties", Object
  [(str "age", Object [(str "coerce", Bool true); (str "ignore_malformed", Bool true); (str "type", JString (str "integer"))]);
   (str "title", Object [(str "fields", Object [(str "raw", Object [(str "ignore_above", Number (PosInt 64));
       (str "normalizer", JString (str "fold")); (str "type", JString (str "keyword"))])]);
     (str "meta", Object [(str "unit", JString (str "s"))]); (str "type", JString (str "text"))])])].
Definition demo_settings : json := Object [(str "analysis", Object [(str "normalizer", Object [(str "fold",
  Object [(str "filter", Array [JString (str "trim"); JString (str "lowercase")])])])])].
Definition demo_stored : json := match put_index_mapping demo_mappings (Some demo_settings) with Ok j => j | Err _ => Null end.

Lemma stored_mapping_roundtrip_witness :
  put_index_mapping demo_mappings (Some demo_settings) = Ok demo_stored /\
    exists m, from_request demo_mappings (Some demo_settings) = Ok m /\ mapping_from_json demo_stored = Ok m.
Proof.
  assert (put_index_mapping demo_mappings (Some demo_settings) = Ok demo_stored) as E by (vm_compute; reflexivity).
  split; [exact E|]. exact (stored_mapping_roundtrip demo_mappings (Some demo_settings) demo_stored E).
Defined.

Definition demo_mapping : IndexMapping := existing_mapping demo_stored.
Definition demo_update : json := Object [(str "properties", Object
  [(str "age", Object [(str "type", JString (str "long"))]);
   (str "host", Object [(str "normalizer", JString (str "fold")); (str "type", JString (str "keyword"))])])].
Definition demo_updated : json := match put_mapping demo_stored demo_update with Ok j => j | Err _ => Null end.

Lemma put_mapping_merges_witness :
  mapping_from_json demo_stored = Ok demo_mapping /\ put_mapping demo_stored demo_update = Ok demo_updated /\
    exists incoming m', from_mapping_update demo_update demo_mapping = Ok incoming /\ mapping_from_json demo_updated = Ok m' /\
    normalizers m' = normalizers demo_mapping /\
    forall name, bt_get name (properties m') =
      (match bt_get name (properties demo_mapping) with Some d => Some d | None => bt_get name (properties incoming) end).
Proof.
  assert (mapping_from_json demo_stored = Ok demo_mapping) as E1 by (vm_compute; reflexivity).
  assert (put_mapping demo_stored demo_update = Ok demo_updated) as E2 by (vm_compute; reflexivity).
  split; [exact E1|]. split; [exact E2|]. apply (put_mapping_merges demo_stored demo_update demo_updated demo_mapping E1); [|exact E2].
  unfold keys_sorted. replace (members_of demo_stored (str "properties")).*1 with [str "age"; str "title"] by (vm_compute; reflexivity).
  repeat constructor.
Defined.
