(* ===== verification/Document.v ===== *)
(** * Documents into typed fields (crates/rsearch-index/src/document.rs)

    The conversion of a JSON document under a mapping: its mapped fields parsed
    by type, the others into the dynamic field and its [.keyword] view, and the
    check a document-mode write is put through first.  A document of the index
    library is the list of its (field, value) pairs. *)

From Stdlib Require Import ZArith Lia.
From Stdlib Require Import Strings.Byte.
From stdpp Require Import base gmap sets list strings sorting.
From S2P Require Import Prelude Order Json Float64 Dates Net Mapping.

Local Open Scope Z_scope.

(** ** Values *)

(** A date is its milliseconds; an address its 128 bits. *)
Inductive Indexed := IStr (s : bytes) | II64 (n : Z) | IF64 (bits : Z) | IBool (b : bool) | IDate (millis : Z) | IIp (ip : Z).
#[export] Instance Indexed_eq_dec : EqDecision Indexed.
Proof. solve_decision. Defined.

(** Why a value is refused. *)
Inductive Malformed :=
| TextOnObject | OutOfRange (n : number) | OutOfRangeOfLong (f : Z) | ForInput (s : bytes) | NotNumeric (value : json)
| NotBool (s : bytes) | NotBooleanType (value : json) | EmptyDate | BadDate (value : json) | BadIp (s : bytes) | NotIp (value : json).
(** [Panic]: reading a date literal panics (date.rs). *)
Inductive Fault := Bad (why : Malformed) | Panic.

Section convert.
Context `{T : TimeCrate} `{C : TextCodec} `{X : TextTables}.

Definition parse_number (value : json) : result Fault (option Z) :=
  match value with
  | Number n =>
      let f := number_f64 n in
      if is_finite f then Ok (Some f) else Err (Bad (OutOfRange n))
  | JString s =>
      if decide (s = []) then Ok None
      else match parse_f64 s with
           | Some f => if is_finite f then Ok (Some f) else Err (Bad (ForInput s))
           | None => Err (Bad (ForInput s))
           end
  | other => Err (Bad (NotNumeric other))
  end.

Definition parse_for (mapped : MappedField) (value : json) : result Fault (option Indexed) :=
  if is_null value then Ok None
  else match mf_ty mapped with
  | FKeyword | FText =>
      match value with
      | JString s => Ok (Some (IStr s))
      | Number _ | Bool _ => Ok (Some (IStr (json_to_string value)))
      | _ => Err (Bad TextOnObject)
      end
  | FLong =>
      match parse_number value with
      | Ok (Some f) =>
          if negb (is_whole f) || abs_lt f I64_MAX then Ok (Some (II64 (f64_as_i64 f)))
          else Err (Bad (OutOfRangeOfLong f))
      | Ok None => Ok None
      | Err e => Err e
      end
  | FDouble => match parse_number value with Ok n => Ok (IF64 <$> n) | Err e => Err e end
  | FBoolean =>
      match value with
      | Bool b => Ok (Some (IBool b))
      | JString s =>
          if decide (s = []) then Ok None
          else if decide (s = str "true") then Ok (Some (IBool true))
          else if decide (s = str "false") then Ok (Some (IBool false))
          else Err (Bad (NotBool s))
      | _ => Err (Bad (NotBooleanType value))
      end
  | FDate =>
      match parse_timestamp value with
      | Got date => Ok (Some (IDate date))
      | Refused => Err (Bad (if decide (value = JString []) then EmptyDate else BadDate value))
      | Panics => Err Panic
      end
  | FIp =>
      match value with
      | JString s => match parse_ip s with Some ip => Ok (Some (IIp (Net.mapped ip))) | None => Err (Bad (BadIp s)) end
      | _ => Err (Bad (NotIp value))
      end
  end.

(** ** Building the document *)

Inductive OutValue := OVal (v : Indexed) | OObject (o : list (bytes * json)).
Notation Doc := (list (bytes * OutValue)).

(** [chars().count()]. *)
Definition char_count (s : bytes) : Z := Z.of_nat (length (filter (fun b => is_cont b = false) s)).

Definition add_parsed (out : Doc) (path : bytes) (mapped : MappedField) (parsed : Indexed) : Doc :=
  match parsed with
  | IStr text =>
      if match mf_ignore_above mapped with Some limit => limit <? char_count text | None => false end then out
      else out ++ [(path, OVal (IStr (normalize (mf_normalizer mapped) text)))]
  | v => out ++ [(path, OVal v)]
  end.

Definition flatten (value : json) : list json := match value with Array items => items | other => [other] end.

(** The values of one field: what is added, and how many were dropped. *)
Fixpoint index_items (path : bytes) (mapped : MappedField) (items : list json) (out : Doc) (dropped : Z) : result Fault (Doc * Z) :=
  match items with
  | [] => Ok (out, dropped)
  | item :: items =>
      match parse_for mapped item with
      | Ok (Some p) => index_items path mapped items (add_parsed out path mapped p) dropped
      | Ok None => index_items path mapped items out dropped
      | Err Panic => Err Panic
      | Err (Bad _) => index_items path mapped items out (if mf_ignore_malformed mapped then dropped else dropped + 1)
      end
  end.

Fixpoint index_mapped (s : MappedSchema) (path : bytes) (d : FieldDef) (value : json) (out : Doc) (dropped : Z) : result Fault (Doc * Z) :=
  '(out, dropped) ← match fields s !! path with
                    | Some mapped => index_items path mapped (flatten value) out dropped
                    | None => Ok (out, dropped)
                    end;
  (fix each (subs : list (bytes * FieldDef)) (out : Doc) (dropped : Z) : result Fault (Doc * Z) :=
     match subs with
     | [] => Ok (out, dropped)
     | (name, sub) :: subs =>
         '(out, dropped) ← index_mapped s (dotted path name) sub value out dropped;
         each subs out dropped
     end) (fd_fields d) out dropped.

(** [keyword_projection] and [keyword_value]: the string leaves short enough. *)
Fixpoint keyword_value (value : json) : option json :=
  match value with
  | JString s => if char_count s <=? Z.of_nat KEYWORD_IGNORE_ABOVE then Some value else None
  | Object map =>
      match omap (fun kv => v ← keyword_value kv.2; Some (kv.1, v)) map with
      | [] => None
      | projected => Some (Object projected)
      end
  | Array items =>
      match omap keyword_value items with [] => None | kept => Some (Array kept) end
  | _ => None
  end.
Definition keyword_projection (obj : list (bytes * json)) : option (list (bytes * json)) :=
  match keyword_value (Object obj) with Some (Object p) => Some p | _ => None end.

Record DocIdentity := mkIdentity { di_id : bytes; di_seq : Z }.

Inductive IndexError := InvalidDocument | Panicked.

(** The members of the document: mapped ones indexed, the others collected. *)
Fixpoint index_members (s : MappedSchema) (obj : list (bytes * json)) (out : Doc) (dropped : Z) (dynamic : list (bytes * json))
    : result Fault (Doc * Z * list (bytes * json)) :=
  match obj with
  | [] => Ok (out, dropped, dynamic)
  | (key, value) :: obj =>
      match bt_get key (properties (mapping s)) with
      | Some d => '(out, dropped) ← index_mapped s key d value out dropped; index_members s obj out dropped dynamic
      | None => index_members s obj out dropped (obj_insert key value dynamic)
      end
  end.

(** [convert_with_source]: the document, its timestamp, and what the counter of
    dropped values gains. *)
Definition convert_with_source (s : MappedSchema) (doc : json) (source : option bytes) (identity : DocIdentity) (fallback : Z)
    : result IndexError (Doc * Z * Z) :=
  match effective_timestamp doc fallback with
  | Got timestamp =>
      match doc with
      | Object obj =>
          let out := [(TIMESTAMP_FIELD, OVal (IDate timestamp))] in
          let out := if has_id s && has_seq s
                     then out ++ [(ID_FIELD, OVal (IStr (di_id identity))); (SEQ_FIELD, OVal (II64 (di_seq identity)))] else out in
          let out := out ++ [(SOURCE_FIELD, OVal (IStr (default (json_to_string doc) source)))] in
          match index_members s obj out 0 [] with
          | Ok (out, dropped, dynamic) =>
              let out :=
                match dynamic with
                | [] => out
                | _ =>
                    (if has_dynamic_raw s
                     then match keyword_projection dynamic with Some raw => out ++ [(DYNAMIC_RAW_FIELD, OObject raw)] | None => out end
                     else out) ++ [(DYNAMIC_FIELD, OObject dynamic)]
                end in
              Ok (out, timestamp, dropped)
          | Err _ => Err Panicked
          end
      | _ => Err InvalidDocument
      end
  | _ => Err Panicked
  end.

(** ** The check of a document-mode write *)

Inductive Refusal := MalformedField (path : bytes) (ty : FieldType) (why : Malformed) (item : json) | NotAnObject | Panicking.

Fixpoint validate_items (path : bytes) (mapped : MappedField) (items : list json) : result Refusal unit :=
  match items with
  | [] => Ok tt
  | item :: items =>
      match parse_for mapped item with
      | Ok _ => validate_items path mapped items
      | Err (Bad why) => Err (MalformedField path (mf_ty mapped) why item)
      | Err Panic => Err Panicking
      end
  end.
Fixpoint validate_mapped (s : MappedSchema) (path : bytes) (d : FieldDef) (value : json) : result Refusal unit :=
  match fields s !! path with
  | Some mapped => if mf_ignore_malformed mapped then Ok tt else validate_items path mapped (flatten value)
  | None => Ok tt
  end;;
  (fix each (subs : list (bytes * FieldDef)) : result Refusal unit :=
     match subs with
     | [] => Ok tt
     | (name, sub) :: subs => validate_mapped s (dotted path name) sub value;; each subs
     end) (fd_fields d).
Fixpoint validate_members (s : MappedSchema) (obj : list (bytes * json)) : result Refusal unit :=
  match obj with
  | [] => Ok tt
  | (key, value) :: obj =>
      match bt_get key (properties (mapping s)) with Some d => validate_mapped s key d value | None => Ok tt end;;
      validate_members s obj
  end.
Definition validate_document (s : MappedSchema) (doc : json) : result Refusal unit :=
  match properties (mapping s) with
  | [] => Ok tt
  | _ => match doc with Object obj => validate_members s obj | _ => Err NotAnObject end
  end.
End convert.

(** ** The write check and the conversion agree *)

(** Nothing more was dropped exactly when the check passes. *)
Definition agrees (before after : Z) (check : result Refusal unit) : Prop :=
  before <= after /\ (after = before <-> check = Ok tt).
Lemma agrees_seq a b c v1 v2 : agrees a b v1 -> agrees b c v2 -> agrees a c (v1;; v2).
Proof.
  intros [H1 E1] [H2 E2]. split; [lia|]. destruct v1 as [[]|e]; cbn [mbind result_bind].
  - rewrite <- E2. assert (b = a) as -> by (by apply E1). done.
  - split; [|done]. intros ->. assert (b = a) as Eb by lia. by apply E1 in Eb.
Qed.
Lemma agrees_ok a : agrees a a (Ok tt).
Proof. by split. Qed.

Section agree.
Context `{T : TimeCrate} `{C : TextCodec} `{X : TextTables}.

Lemma index_items_agrees path mapped items : forall out dropped out' dropped',
  index_items path mapped items out dropped = Ok (out', dropped') ->
  agrees dropped dropped' (if mf_ignore_malformed mapped then Ok tt else validate_items path mapped items).
Proof.
  induction items as [|item items IH]; intros out dropped out' dropped'; cbn [index_items validate_items].
  - intros [= <- <-]. destruct (mf_ignore_malformed mapped); apply agrees_ok.
  - destruct (parse_for mapped item) as [[p|]|[why|]]; [apply IH|apply IH| |done].
    intros H. apply IH in H as [H1 H2]. destruct (mf_ignore_malformed mapped); [done|]. split; [lia|]. split; [lia|done].
Qed.

Lemma index_mapped_agrees s value d : forall path out dropped out' dropped',
  index_mapped s path d value out dropped = Ok (out', dropped') -> agrees dropped dropped' (validate_mapped s path d value).
Proof.
  induction d as [f IH] using def_nested_ind. intros path out dropped out' dropped'.
  destruct f as [t dc n i b m subs]. cbn [index_mapped validate_mapped fd_fields] in *.
  set (first := match fields s !! path with Some mapped => index_items _ _ _ _ _ | None => _ end).
  destruct first as [[out1 dropped1]|e] eqn:E; [|done]. cbn [mbind result_bind]. intros H.
  apply (agrees_seq _ dropped1).
  - subst first. destruct (fields s !! path) as [mapped|].
    + by apply index_items_agrees in E.
    + injection E as <- <-. apply agrees_ok.
  - clear E first. revert out1 dropped1 H. induction IH as [|[name sub] subs Hs _ IHs]; intros out1 dropped1.
    + intros [= <- <-]. apply agrees_ok.
    + destruct (index_mapped s (dotted path name) sub value out1 dropped1) as [[out2 dropped2]|] eqn:E; [|done].
      cbn [mbind result_bind]. intros H. eapply agrees_seq; [by eapply Hs|by eapply IHs].
Qed.

Lemma index_members_agrees s obj : forall out dropped dynamic out' dropped' dynamic',
  index_members s obj out dropped dynamic = Ok (out', dropped', dynamic') -> agrees dropped dropped' (validate_members s obj).
Proof.
  induction obj as [|[key value] obj IH]; intros out dropped dynamic out' dropped' dynamic'; cbn [index_members validate_members].
  - intros [= <- <- <-]. apply agrees_ok.
  - destruct (bt_get key (properties (mapping s))) as [d|].
    + destruct (index_mapped s key d value out dropped) as [[out1 dropped1]|] eqn:E; [|done]. cbn [mbind result_bind]. intros H.
      eapply agrees_seq; [by eapply index_mapped_agrees|by eapply IH].
    + cbn [mbind result_bind]. apply IH.
Qed.

(** The check a document-mode write is put through before it is logged
    passes exactly for the documents whose conversion, at the flush, drops no
    value of a mapped field. *)
Theorem validate_iff_nothing_dropped s obj source identity fallback out ts dropped :
  convert_with_source s (Object obj) source identity fallback = Ok (out, ts, dropped) ->
  validate_document s (Object obj) = Ok tt <-> dropped = 0.
Proof.
  unfold convert_with_source. destruct (effective_timestamp (Object obj) fallback) as [t| |]; [|done..]. cbn zeta.
  destruct (index_members s obj _ 0 []) as [[[o d] dyn]|] eqn:E; [|done]. intros [= _ _ <-].
  apply index_members_agrees in E as [_ E]. rewrite E. unfold validate_document.
  destruct (properties (mapping s)) as [|p l] eqn:Ep; [|done]. split; [|done]. intros _. clear E.
  induction obj as [|[k v] obj IH]; [done|]. cbn [validate_members]. by rewrite Ep.
Qed.
End agree.

(** ** Long values *)

Definition long_field : MappedField := mkField FLong None None false.

Section long.
Context `{T : TimeCrate} `{C : TextCodec} `{X : TextTables}.

(** Up to 2^53 a long is indexed as it is. *)
Lemma long_exact n : Z.abs n <= 2 ^ 53 -> parse_for long_field (json_i64 n) = Ok (Some (II64 n)).
Proof.
  intros Hn. destruct (f64_of_Z_exact n Hn) as (Hf & Hw & Hv).
  assert (number_f64 (if n <? 0 then NegInt n else PosInt n) = f64_of_Z n) as E by by destruct (n <? 0).
  unfold parse_for, json_i64. cbn [is_null mf_ty long_field parse_number]. rewrite E, Hf, Hv.
  assert (abs_lt (f64_of_Z n) I64_MAX = true) as ->; [|by rewrite orb_true_r].
  pose proof (f64_round_le (Z.abs n) ltac:(lia)) as Hr. unfold abs_lt, f64_of_Z at 1. apply Z.ltb_lt.
  assert (f64_of_Z (2 ^ 53) < f64_of_Z I64_MAX < 2 ^ 63) by done.
  destruct (f64_abs_sign (n <? 0) (f64_round (Z.abs n) 0)) as [-> _]; lia.
Qed.

(** Beyond it a long is not: it is read through a float, so an integer is
    indexed as a neighbour, and the largest ones are refused as out of range of
    long, though [FieldType::Long] is a 64-bit integer (mapping.rs:60). *)
Theorem long_altered_beyond_2_53 :
  parse_for long_field (json_i64 (2 ^ 53 + 1)) = Ok (Some (II64 (2 ^ 53))) /\
  parse_for long_field (json_i64 I64_MAX) = Err (Bad (OutOfRangeOfLong (f64_of_Z (2 ^ 63)))) /\
  parse_for long_field (json_i64 I64_MIN) = Err (Bad (OutOfRangeOfLong (f64_of_Z (- 2 ^ 63)))).
Proof. repeat split. Qed.
End long.

(** ** The [.keyword] view *)

(** The strings of a value, each with the path of keys that leads to it; the
    position in an array is not part of a path. *)
Fixpoint leaves (value : json) : list (list bytes * bytes) :=
  match value with
  | JString s => [([], s)]
  | Object o => concat (map (fun kv => prod_map (cons kv.1) id <$> leaves kv.2) o)
  | Array items => concat (map leaves items)
  | _ => []
  end.
Definition short (leaf : list bytes * bytes) : Prop := char_count leaf.2 <= Z.of_nat KEYWORD_IGNORE_ABOVE.
#[export] Instance short_dec leaf : Decision (short leaf).
Proof. unfold short. apply _. Defined.
Definition leaves_of (v : option json) : list (list bytes * bytes) := match v with Some v => leaves v | None => [] end.

Lemma filter_concat_map {A B} (P : B -> Prop) `{!forall x, Decision (P x)} (f : A -> list B) (g : A -> option A) l :
  Forall (fun x => match g x with Some y => f y | None => [] end = filter P (f x)) l ->
  concat (map f (omap g l)) = filter P (concat (map f l)).
Proof.
  induction 1 as [|x l Hx _ IH]; [done|]. cbn [map concat omap list_omap]. rewrite filter_app, <- Hx, <- IH.
  by destruct (g x).
Qed.

Lemma keyword_leaves value : leaves_of (keyword_value value) = filter short (leaves value).
Proof.
  induction value as [| | |s|items IH|o IH] using json_nested_ind; try done.
  - cbn [keyword_value leaves]. rewrite filter_cons, filter_nil. destruct (decide (short ([], s))) as [Hs|Hs]; unfold short in Hs; cbn [snd] in Hs.
    + by rewrite (proj2 (Z.leb_le _ _)) by done.
    + by rewrite (proj2 (Z.leb_gt _ _)) by lia.
  - cbn [keyword_value leaves]. rewrite <- (filter_concat_map short leaves keyword_value) by (eapply Forall_impl; [exact IH|done]).
    change (list_omap json json keyword_value items) with (omap keyword_value items). by destruct (omap keyword_value items).
  - cbn [keyword_value leaves].
    rewrite <- (filter_concat_map short (fun kv : bytes * json => prod_map (cons kv.1) id <$> leaves kv.2)
      (fun kv => v ← keyword_value kv.2; Some (kv.1, v))).
    + set (p := omap _ o). by destruct p.
    + eapply Forall_impl; [exact IH|]. intros [k v] H. cbn [fst snd] in *. unfold leaves_of in H.
      assert (forall l : list (list bytes * bytes), filter short (prod_map (cons k) id <$> l) = prod_map (cons k) id <$> filter short l) as ->.
      { intros l. induction l as [|[p s] l IHl]; [done|]. rewrite fmap_cons, !filter_cons, IHl. cbn [prod_map fst snd id].
        destruct (decide (short (p, s))) as [H1|H1], (decide (short (k :: p, s))) as [H2|H2]; by unfold short in *. }
      rewrite <- H. by destruct (keyword_value v).
Qed.

(** The [.keyword] view of the unmapped members holds exactly their string
    leaves of at most 256 characters, at the paths they have in the dynamic
    field, and is absent when there is none. *)
Theorem keyword_view_exact (obj : list (bytes * json)) :
  match keyword_projection obj with Some raw => leaves (Object raw) | None => [] end = filter short (leaves (Object obj)) /\
  (keyword_projection obj = None <-> filter short (leaves (Object obj)) = []).
Proof.
  rewrite <- keyword_leaves. unfold keyword_projection. cbn [keyword_value]. set (p := omap _ obj).
  assert (Forall (fun kv => leaves kv.2 <> []) p) as Hp.
  { apply Forall_forall. intros kv Hkv. apply list_elem_of_omap in Hkv as ([k v] & _ & E). cbn [snd fst] in E.
    destruct (keyword_value v) as [w|] eqn:Ew; [|done]. injection E as <-. simpl. clear -Ew.
    revert w Ew. induction v as [| | |s|items IH|o IH] using json_nested_ind; intros w; cbn [keyword_value]; try done.
    - destruct (_ <=? _); [|done]. by intros [= <-].
    - destruct (omap keyword_value items) as [|x l] eqn:E; [done|]. intros [= <-].
      assert (x ∈ omap keyword_value items) as Hx by (rewrite E; by left). apply list_elem_of_omap in Hx as (y & Hy & Ey).
      rewrite Forall_forall in IH. cbn [leaves map concat]. intros [H _]%app_eq_nil. by apply (IH y Hy x).
    - set (q := omap _ o). destruct q as [|x l] eqn:E; [done|]. intros [= <-].
      assert (x ∈ q) as Hx by (rewrite E; by left). apply list_elem_of_omap in Hx as ([k y] & Hy & Ey). cbn [fst snd] in Ey.
      destruct (keyword_value y) as [z|] eqn:Ez; [|done]. injection Ey as <-.
      rewrite Forall_forall in IH. cbn [leaves map concat fst snd]. intros [H _]%app_eq_nil. apply fmap_nil_inv in H.
      by apply (IH (k, y) Hy z). }
  clearbody p. destruct p as [|[k v] p]; [done|]. split; [done|]. split; [done|]. cbn [leaves_of leaves map concat fst snd].
  intros [H _]%app_eq_nil. apply fmap_nil_inv in H. apply Forall_cons in Hp as [Hp _]. by destruct Hp.
Qed.

(** ** A concrete document *)

Definition plain_codec : TextCodec := {| json_to_string := fun _ => str "?"; parse_f64 := fun s => f64_of_Z <$> parse_i64 s |}.
Definition plain_tables : TextTables :=
  {| has_uppercase := fun _ => false; has_lowercase := fun _ => false; to_lowercase := id; to_uppercase := id; ascii_fold := id |}.
Definition demo_schema : MappedSchema := build demo_mapping.
Definition demo_doc : list (bytes * json) :=
  [(str "@timestamp", JString (str "2026-09-16T00:00:00Z")); (str "age", Array [JString (str "41"); JString (str "old")]);
   (str "host", JString (str "db-1")); (str "title", Object [])].
Definition demo_identity : DocIdentity := mkIdentity (str "d1") 7.

Lemma validate_iff_nothing_dropped_witness :
  let _ := gregorian in let _ := plain_codec in let _ := plain_tables in
  exists out ts, convert_with_source demo_schema (Object demo_doc) None demo_identity 0 = Ok (out, ts, 2) /\
    (validate_document demo_schema (Object demo_doc) = Ok tt <-> 2 = 0).
Proof.
  intros T C X. subst T C X.
  set (r := @convert_with_source gregorian plain_codec plain_tables demo_schema (Object demo_doc) None demo_identity 0).
  assert (r = match r with Ok (o, t, _) => Ok (o, t, 2) | Err e => Err e end) as E by (vm_compute; reflexivity).
  destruct r as [[[o t] n]|] eqn:Er; [|by exfalso; vm_compute in Er].
  exists o, t. split; [exact E|]. exact (@validate_iff_nothing_dropped gregorian plain_codec plain_tables demo_schema demo_doc None demo_identity 0 o t 2 (eq_trans Er E)).
Defined.
