(* ===== verification/QueryDsl.v ===== *)
(** * The query DSL (crates/rsearch-search/src/query_dsl.rs)

    The translation of a JSON query into the index library's queries, and the
    time bounds read off a query to choose the splits it is run on.  A field's
    handle is its name; [Query] and [Term] hold what the code hands to the
    library's constructors.  Tokenizers, the regex compiler, the term encoding
    of a JSON path and the query-string parser are the library's. *)

From Stdlib Require Import ZArith Lia.
From Stdlib Require Import Strings.Byte.
From stdpp Require Import base gmap sets list strings sorting.
From S2P Require Import Prelude Order Json Float64 Dates Net Mapping Document.

Local Open Scope Z_scope.

Definition TIMESTAMP_ALIASES : list bytes := [str "@timestamp"; str "timestamp"; str "_timestamp"].
Definition is_alias (name : bytes) : bool := bool_decide (name ∈ TIMESTAMP_ALIASES).
Definition KEYWORD_PATH_SUFFIX : bytes := str ".keyword".
Definition MAX_IDS_VALUES : nat := 10000.

(** ** The library's queries *)

Inductive JsonValue := JI64 (n : Z) | JF64 (bits : Z) | JBool (b : bool) | JStr (s : bytes).
Inductive Term := TValue (field : bytes) (v : Indexed) | TJson (field path : bytes) (v : JsonValue).
Inductive Bound := Unbounded | Included (t : Term) | Excluded (t : Term).
Inductive Occur := Must | Should | MustNot.
#[export] Instance Occur_eq_dec : EqDecision Occur.
Proof. solve_decision. Defined.

Inductive Query :=
| AllQuery
| EmptyQuery
| TermQuery (t : Term)
| BooleanQuery (clauses : list (Occur * Query))
| RangeQuery (lower upper : Bound)
| RegexQuery (pattern field : bytes)
| FuzzyPrefix (t : Term)                       (** [new_prefix(term, 0, false)] *)
| ExistsQuery (field : bytes)
| PhraseQuery (terms : list Term)
| ParsedQuery (fields : list bytes) (conjunction : bool) (boosts : list (bytes * Z)) (text : bytes).

(** ** Refusals *)

Inductive Why :=
| QueryNotObject | EmptyQueryObject | ManyKeys (n : nat) | Unsupported (kind : bytes) | BodyNotObject (kind : bytes)
| ExpectedInteger | ExpectedNumeric | ExpectedBoolean | ExpectedDate | ExpectedIp | InvalidIp (s : bytes) | InvalidTimestamp
| BadCaseFlag (kind : bytes) | NoCaseInsensitive (name : bytes) (t : FieldType) | IdsValues | TooManyIds | TermsCase
| NeedsField (kind : bytes) | TermsNotArray | BoundsNotObject | InvalidBound | RangeOperator (op : bytes) | ManyFields (kind : bytes)
| NotText (kind : bytes) | NotStringField (kind name : bytes) | BadPattern (kind : bytes) | PathNotUtf8 (path : bytes)
| ExistsField | QueryStringText | FieldsNotArray (v : json) | NoSearchableField | NoMessage.
Inductive QueryError := BadRequest (why : Why) | MissingTokenizer | Panicked | PathsFailed.
Notation QueryResult := (result QueryError).
Definition bad {A} (why : Why) : QueryResult A := Err (BadRequest why).

Definition or_bad {A} (o : option A) (why : Why) : QueryResult A := ok_or o (BadRequest why).
Definition parsed_or_bad {A} (p : parsed A) (why : Why) : QueryResult A :=
  match p with Got a => Ok a | Refused => bad why | Panics => Err Panicked end.

Fixpoint collect {A} (l : list (QueryResult A)) : QueryResult (list A) :=
  match l with
  | [] => Ok []
  | r :: l => a ← r; rest ← collect l; Ok (a :: rest)
  end.

(** ** Where a queried field lands *)

Inductive Resolved := RTimestamp | RTyped (field : bytes) (t : FieldType) | RDynamic (path : bytes) | RDynamicKeyword (raw : bool) (path : bytes).

Definition resolve (s : MappedSchema) (name : bytes) : Resolved :=
  if is_alias name then RTimestamp
  else match fields s !! name with
  | Some mapped => RTyped name (mf_ty mapped)
  | None =>
      if bool_decide (name = ID_FIELD) && has_id s then RTyped ID_FIELD FKeyword
      else if bool_decide (name = SEQ_FIELD) && has_seq s then RTyped SEQ_FIELD FLong
      else match strip_suffix KEYWORD_PATH_SUFFIX name with
      | Some base => if decide (base = []) then RDynamic name else RDynamicKeyword (has_dynamic_raw s) base
      | None => RDynamic name
      end
  end.
Definition field_normalizer (s : MappedSchema) (name : bytes) : option Normalizer := m ← fields s !! name; mf_normalizer m.

(** ** Time literals and pruning bounds *)

(** [start], [end]: the bounds so far. *)
Notation Bounds := (option Z * option Z)%type.
Definition raise_start (ms : Z) (b : Bounds) : Bounds := (Some (match b.1 with Some s => Z.max s ms | None => ms end), b.2).
Definition lower_end (ms : Z) (b : Bounds) : Bounds := (b.1, Some (match b.2 with Some e => Z.min e ms | None => ms end)).

Section bounds.
Context `{T : TimeCrate} (now : Z).

(** One member of the bounds of a [range] on the timestamp; [None]: the literal
    panics. *)
Definition scan_op (op : bytes) (value : json) (b : Bounds) : option Bounds :=
  match parse_time_millis now value with
  | Panics => None
  | Refused => Some b
  | Got ms =>
      Some (if decide (op = str "gte" \/ op = str "gt") then raise_start ms b
            else if decide (op = str "lte" \/ op = str "lt") then lower_end ms b else b)
  end.
Fixpoint scan_ops (ops : list (bytes * json)) (b : Bounds) : option Bounds :=
  match ops with
  | [] => Some b
  | (op, value) :: ops => b ← scan_op op value b; scan_ops ops b
  end.
Fixpoint scan_range (range : list (bytes * json)) (b : Bounds) : option Bounds :=
  match range with
  | [] => Some b
  | (field, bounds) :: range =>
      b ← match bounds with Object ops => if is_alias field then scan_ops ops b else Some b | _ => Some b end;
      scan_range range b
  end.

(** Scans one after another. *)
Fixpoint in_turn (l : list (Bounds -> option Bounds)) (b : Bounds) : option Bounds :=
  match l with
  | [] => Some b
  | f :: l => b ← f b; in_turn l b
  end.
Fixpoint bt_find {A} (k : bytes) (l : list (bytes * A)) : option A :=
  match l with
  | [] => None
  | (k', v) :: l => if decide (k = k') then Some v else bt_find k l
  end.
(** The scans of the listed sections, in order. *)
Definition sections (names : list string) (l : list (bytes * (Bounds -> option Bounds))) : list (Bounds -> option Bounds) :=
  omap (fun n => bt_find (str n) l) names.

Fixpoint scan_time_bounds (node : json) : Bounds -> option Bounds := fun b =>
  match node with
  | Object map_ =>
      b ← match assoc (str "range") map_ with Some (Object range) => scan_range range b | _ => Some b end;
      match bt_find (str "bool") (map (fun kv => (kv.1, match kv.2 with
                Object body => Some (map (fun kv => (kv.1, scan_time_bounds kv.2)) body) | _ => None end)) map_) with
      | Some (Some body) => in_turn (sections ["must"; "filter"] body) b
      | _ => in_turn (map (fun kv => scan_time_bounds kv.2) map_) b
      end
  | Array items => in_turn (map scan_time_bounds items) b
  | _ => Some b
  end.
Definition extract_time_bounds (query : json) : option Bounds := scan_time_bounds query (None, None).
End bounds.

(** ** Terms *)

(** The index library's side: its printers and parsers of [TextCodec], and *)
Class IndexCrate := {
  tokenize : bytes -> bytes -> option (list bytes);   (** the tokens of a text under a registered tokenizer *)
  json_path_prefix : bytes -> bytes -> bytes;         (** [serialized_value_bytes] of an empty string under a path *)
  regex_ok : bytes -> bool;                           (** [RegexQuery::from_pattern] accepts the pattern *)
  parse_f32 : bytes -> option Z;                      (** [f32::from_str], as bits *)
}.

Section translate.
Context `{T : TimeCrate} `{C : TextCodec} `{X : TextTables} `{I : IndexCrate} (now : Z).

(** [value.as_str().map(..).unwrap_or_else(|| value.to_string())]. *)
Definition text_of (value : json) : bytes := match value with JString s => s | _ => json_to_string value end.

Definition or_str {A} (o : option A) (value : json) (parse : bytes -> option A) : option A :=
  match o with Some a => Some a | None => s ← as_str value; parse s end.
Definition parse_bool (s : bytes) : option bool :=
  if decide (s = str "true") then Some true else if decide (s = str "false") then Some false else None.

Definition typed_term (field : bytes) (t : FieldType) (n : option Normalizer) (value : json) : QueryResult Term :=
  match t with
  | FKeyword | FText => Ok (TValue field (IStr (normalize n (text_of value))))
  | FLong => i ← or_bad (or_str (as_i64 value) value parse_i64) ExpectedInteger; Ok (TValue field (II64 i))
  | FDouble => f ← or_bad (or_str (as_f64 value) value parse_f64) ExpectedNumeric; Ok (TValue field (IF64 f))
  | FBoolean => b ← or_bad (or_str (as_bool value) value parse_bool) ExpectedBoolean; Ok (TValue field (IBool b))
  | FDate => ms ← parsed_or_bad (parse_time_millis now value) ExpectedDate; Ok (TValue field (IDate ms))
  | FIp =>
      s ← or_bad (as_str value) ExpectedIp;
      ip ← or_bad (parse_ip s) (InvalidIp s);
      Ok (TValue field (IIp (Net.mapped ip)))
  end.

Definition dynamic_term (path : bytes) (value : json) : Term :=
  TJson DYNAMIC_FIELD path
    match value with
    | Number n => match as_i64 value with Some i => JI64 i | None => JF64 (number_f64 n) end
    | Bool b => JBool b
    | other => JStr (text_of other)
    end.
Definition raw_term (path : bytes) (value : json) : Term := TJson DYNAMIC_RAW_FIELD path (JStr (text_of value)).

Definition term_query_for (s : MappedSchema) (name : bytes) (value : json) : QueryResult Query :=
  match resolve s name with
  | RTimestamp => ms ← parsed_or_bad (parse_time_millis now value) InvalidTimestamp; Ok (TermQuery (TValue TIMESTAMP_FIELD (IDate ms)))
  | RTyped field t => t ← typed_term field t (field_normalizer s name) value; Ok (TermQuery t)
  | RDynamic path => Ok (TermQuery (dynamic_term path value))
  | RDynamicKeyword true path => Ok (TermQuery (raw_term path value))
  | RDynamicKeyword false _ => Ok EmptyQuery
  end.

(** ** Patterns *)

Definition is_meta (b : byte) : bool := bool_decide (b ∈ str ".^$*+?()[]{}|\").
Definition push_regex_literal (c : byte) : bytes := if is_meta c then [x5c; c] else [c].
Definition regex_literal_str (s : bytes) : bytes := concat (push_regex_literal <$> s).
Definition dynamic_path_prefix (field path : bytes) : QueryResult bytes :=
  let prefix := json_path_prefix field path in
  if utf8_valid prefix then Ok (regex_literal_str prefix) else bad (PathNotUtf8 path).
Definition wildcard_regex_body (value : bytes) : bytes :=
  concat ((fun c => if decide (c = x2a) then str ".*" else if decide (c = x3f) then str "." else push_regex_literal c) <$> value).

(** The field a pattern runs on and the literal prefix its keys have; [None]: a
    split without the exact-value view. *)
Definition pattern_field (s : MappedSchema) (name : bytes) (refuse : FieldType -> Why) : QueryResult (option (bytes * bytes)) :=
  match resolve s name with
  | RTyped field t => if decide (t = FKeyword \/ t = FText) then Ok (Some (field, [])) else bad (refuse t)
  | RTimestamp => bad (refuse FDate)
  | RDynamic path => p ← dynamic_path_prefix DYNAMIC_FIELD path; Ok (Some (DYNAMIC_FIELD, p))
  | RDynamicKeyword true path => p ← dynamic_path_prefix DYNAMIC_RAW_FIELD path; Ok (Some (DYNAMIC_RAW_FIELD, p))
  | RDynamicKeyword false _ => Ok None
  end.
Definition regex_query (kind pattern field : bytes) : QueryResult Query :=
  if regex_ok pattern then Ok (RegexQuery pattern field) else bad (BadPattern kind).
Definition ci (s : bytes) : bytes := str "(?i:" ++ s ++ str ")".

Definition case_insensitive_flag (spec : json) (kind : bytes) : QueryResult bool :=
  match get spec (str "case_insensitive") with
  | None => Ok false
  | Some (Bool flag) => Ok flag
  | Some _ => bad (BadCaseFlag kind)
  end.

Definition case_insensitive_term (s : MappedSchema) (name : bytes) (value : json) : QueryResult Query :=
  target ← pattern_field s name (NoCaseInsensitive name);
  match target with
  | Some (field, prefix) =>
      regex_query (str "term")
        (str "(?s)" ++ prefix ++ ci (regex_literal_str (normalize (field_normalizer s name) (text_of value)))) field
  | None => Ok EmptyQuery
  end.

(** The single (field, spec) of a body, [boost] aside. *)
Definition single_field (body : json) (kind : bytes) : QueryResult (bytes * json) :=
  match body with
  | Object obj =>
      match filter (fun kv => kv.1 <> str "boost") obj with
      | [first] => Ok first
      | [] => bad (NeedsField kind)
      | _ => bad (ManyFields kind)
      end
  | _ => bad (BodyNotObject kind)
  end.

(** ** Leaf queries *)

Definition or_spec (o : option json) (spec : json) : json := default spec o.

Definition translate_term (s : MappedSchema) (body : json) : QueryResult Query :=
  '(name, spec) ← single_field body (str "term");
  let value := or_spec (get spec (str "value")) spec in
  flag ← case_insensitive_flag spec (str "term");
  if flag : bool then case_insensitive_term s name value else term_query_for s name value.

Definition should_each (s : MappedSchema) (name : bytes) (values : list json) : QueryResult Query :=
  qs ← collect (term_query_for s name <$> values);
  Ok (BooleanQuery (pair Should <$> qs)).
Definition translate_ids (s : MappedSchema) (body : json) : QueryResult Query :=
  match get body (str "values") with
  | Some (Array values) => if (MAX_IDS_VALUES <? length values)%nat then bad TooManyIds else should_each s ID_FIELD values
  | _ => bad IdsValues
  end.
Definition translate_terms (s : MappedSchema) (body : json) : QueryResult Query :=
  match body with
  | Object obj =>
      if decide (is_Some (assoc (str "case_insensitive") obj)) then bad TermsCase
      else match filter (fun kv => kv.1 <> str "boost") obj with
      | (name, values) :: _ => match values with Array vs => should_each s name vs | _ => bad TermsNotArray end
      | [] => bad (NeedsField (str "terms"))
      end
  | _ => bad (BodyNotObject (str "terms"))
  end.

Definition make_term (s : MappedSchema) (name : bytes) (value : json) : QueryResult Term :=
  match resolve s name with
  | RTimestamp => ms ← parsed_or_bad (parse_time_millis now value) InvalidBound; Ok (TValue TIMESTAMP_FIELD (IDate ms))
  | RTyped field t => typed_term field t (field_normalizer s name) value
  | RDynamic path => Ok (dynamic_term path value)
  | RDynamicKeyword true path => Ok (raw_term path value)
  | RDynamicKeyword false _ => bad NoMessage
  end.
Fixpoint range_bounds (make : json -> QueryResult Term) (ops : list (bytes * json)) (lower upper : Bound) : QueryResult Query :=
  match ops with
  | [] => Ok (RangeQuery lower upper)
  | (op, value) :: ops =>
      if decide (op = str "gte") then t ← make value; range_bounds make ops (Included t) upper
      else if decide (op = str "gt") then t ← make value; range_bounds make ops (Excluded t) upper
      else if decide (op = str "lte") then t ← make value; range_bounds make ops lower (Included t)
      else if decide (op = str "lt") then t ← make value; range_bounds make ops lower (Excluded t)
      else if decide (op ∈ [str "boost"; str "format"; str "time_zone"]) then range_bounds make ops lower upper
      else bad (RangeOperator op)
  end.
Definition translate_range (s : MappedSchema) (body : json) : QueryResult Query :=
  match body with
  | Object ((name, bounds) :: _) =>
      match bounds with
      | Object ops =>
          match resolve s name with
          | RDynamicKeyword false _ => Ok EmptyQuery
          | _ => range_bounds (make_term s name) ops Unbounded Unbounded
          end
      | _ => bad BoundsNotObject
      end
  | Object [] => bad (NeedsField (str "range"))
  | _ => bad (BodyNotObject (str "range"))
  end.

Definition first_of {A} (a b : option A) : option A := match a with Some x => Some x | None => b end.

Definition translate_prefix (s : MappedSchema) (body : json) : QueryResult Query :=
  '(name, spec) ← single_field body (str "prefix");
  case_insensitive ← case_insensitive_flag spec (str "prefix");
  let value := or_spec (first_of (get spec (str "value")) (get spec (str "prefix"))) spec in
  text ← or_bad (as_str value) (NotText (str "prefix"));
  let text := normalize (field_normalizer s name) text in
  let refuse _ := NotStringField (str "prefix") name in
  if case_insensitive : bool then
    target ← pattern_field s name refuse;
    match target with
    | Some (field, prefix) => regex_query (str "prefix") (str "(?s)" ++ prefix ++ ci (regex_literal_str text) ++ str ".*") field
    | None => Ok EmptyQuery
    end
  else match resolve s name with
  | RTyped field t => if decide (t = FKeyword \/ t = FText) then Ok (FuzzyPrefix (TValue field (IStr text))) else bad (refuse t)
  | RTimestamp => bad (refuse FDate)
  | RDynamic path => Ok (FuzzyPrefix (TJson DYNAMIC_FIELD path (JStr text)))
  | RDynamicKeyword true path => Ok (FuzzyPrefix (TJson DYNAMIC_RAW_FIELD path (JStr text)))
  | RDynamicKeyword false _ => Ok EmptyQuery
  end.

Definition translate_wildcard (s : MappedSchema) (body : json) : QueryResult Query :=
  '(name, spec) ← single_field body (str "wildcard");
  case_insensitive ← case_insensitive_flag spec (str "wildcard");
  let value := or_spec (first_of (get spec (str "value")) (get spec (str "wildcard"))) spec in
  text ← or_bad (as_str value) (NotText (str "wildcard"));
  let text := normalize (field_normalizer s name) text in
  target ← pattern_field s name (fun _ => NotStringField (str "wildcard") name);
  match target with
  | Some (field, prefix) =>
      let body := wildcard_regex_body text in
      regex_query (str "wildcard") (str "(?s)" ++ prefix ++ (if case_insensitive : bool then ci body else body)) field
  | None => Ok EmptyQuery
  end.

Definition translate_exists (s : MappedSchema) (body : json) : QueryResult Query :=
  name ← or_bad (v ← get body (str "field"); as_str v) ExistsField;
  Ok match resolve s name with
     | RTimestamp => ExistsQuery TIMESTAMP_FIELD
     | RTyped _ _ => ExistsQuery name
     | RDynamic path => ExistsQuery (dotted DYNAMIC_FIELD path)
     | RDynamicKeyword true path => ExistsQuery (dotted DYNAMIC_RAW_FIELD path)
     | RDynamicKeyword false _ => EmptyQuery
     end.

Definition translate_match (s : MappedSchema) (body : json) (phrase : bool) : QueryResult Query :=
  match body with
  | Object ((name, spec) :: _) =>
      let value := or_spec (get spec (str "query")) spec in
      let text := text_of value in
      let operator_and := match v ← get spec (str "operator"); as_str v with Some op => eq_ignore_ascii_case op (str "and") | None => false end in
      match resolve s name with
      | RTyped field FText =>
          tokens ← ok_or (tokenize (text_tokenizer s) text) MissingTokenizer;
          let terms := (fun t => TValue field (IStr t)) <$> tokens in
          Ok match terms with
             | [] => BooleanQuery []
             | [t] => if phrase then TermQuery t else BooleanQuery [(if operator_and then Must else Should, TermQuery t)]
             | _ => if phrase then PhraseQuery terms
                    else BooleanQuery ((fun t => (if operator_and then Must else Should, TermQuery t)) <$> terms)
             end
      | RDynamic path =>
          tokens ← ok_or (tokenize (text_tokenizer s) text) MissingTokenizer;
          let terms := (fun t => TJson DYNAMIC_FIELD path (JStr t)) <$> tokens in
          Ok match terms with
             | [] => BooleanQuery []
             | _ =>
                 if phrase && (1 <? length tokens)%nat then PhraseQuery terms
                 else BooleanQuery ((fun t => (if operator_and || (phrase && (length tokens =? 1)%nat) then Must else Should, TermQuery t)) <$> terms)
             end
      | _ => term_query_for s name value
      end
  | Object [] => bad (NeedsField (str "match"))
  | _ => bad (BodyNotObject (str "match"))
  end.

(** ** Query strings *)

(** The last position of a separator in a field position: whitespace or one of
    [(+-!:] and the double quote; scanned by characters. *)
Definition syntax_sep (b : byte) : bool := bool_decide (b ∈ [x28; x2b; x2d; x21; x3a; x22]).
Fixpoint rfind_sep (fuel i : nat) (l : bytes) (last : option nat) : option nat :=
  match fuel, l with
  | S fuel, b :: _ =>
      let w := Nat.max (utf8_head l).1 1 in
      rfind_sep fuel (i + w) (drop w l) (if (0 <? ws_width l)%nat || syntax_sep b then Some i else last)
  | _, _ => last
  end.

(** [rewrite_keyword_paths]; [None]: a slice off a character boundary. *)
Fixpoint rewrite_paths (s : MappedSchema) (fuel : nat) (rest : bytes) : option bytes :=
  match fuel with
  | O => Some rest
  | S fuel =>
      match find KEYWORD_PATH_SUFFIX rest with
      | None => Some rest
      | Some pos =>
          let after := drop (pos + length KEYWORD_PATH_SUFFIX) rest in
          let before := take pos rest in
          let start := match rfind_sep (length before) 0 before None with Some i => S i | None => O end in
          if negb (is_char_boundary before start) then None
          else
            let name := drop start before in
            let is_field_position :=
              match after with x3a :: _ => negb (bool_decide (name = [])) && match resolve s name with RDynamic _ => true | _ => false end | _ => false end in
            let out := if is_field_position then take start before ++ dotted DYNAMIC_RAW_FIELD name
                       else take (pos + length KEYWORD_PATH_SUFFIX) rest in
            tl ← rewrite_paths s fuel after;
            Some (out ++ tl)
      end
  end.
Definition rewrite_keyword_paths (s : MappedSchema) (text : bytes) : option bytes :=
  if has_dynamic_raw s then rewrite_paths s (length text) text else Some text.

Definition ONE_F32 : Z := 0x3F800000.
Fixpoint strip_carets (l : bytes) : bytes :=
  match l with
  | [] => []
  | b :: r => match strip_carets r with [] => if Byte.eqb b x5e then [] else [b] | r' => b :: r' end
  end.

(** The mapped text fields, by name. *)
Definition text_fields (s : MappedSchema) : list bytes :=
  sort_by bytes_compare (omap (fun nf => if decide (mf_ty nf.2 = FText) then Some nf.1 else None) (map_to_list (fields s))).

Record Targets := mkTargets {
  default_fields : list bytes; boosts : list (bytes * Z);
  dynamic_paths : list (bytes * Z); raw_paths : list (bytes * Z); legacy_keyword_only : bool;
}.
Definition add_target (s : MappedSchema) (t : Targets) (spec : bytes) : Targets :=
  let '(name, boost) := match rsplit_once x5e spec with Some (n, b) => (n, default ONE_F32 (parse_f32 b)) | None => (spec, ONE_F32) end in
  match resolve s name with
  | RTyped field ft =>
      if decide (ft = FText \/ ft = FKeyword)
      then mkTargets (default_fields t ++ [field]) (if boost =? ONE_F32 then boosts t else boosts t ++ [(field, boost)])
             (dynamic_paths t) (raw_paths t) (legacy_keyword_only t)
      else t
  | RTimestamp => t
  | RDynamic path => mkTargets (default_fields t) (boosts t) (dynamic_paths t ++ [(path, boost)]) (raw_paths t) (legacy_keyword_only t)
  | RDynamicKeyword true path => mkTargets (default_fields t) (boosts t) (dynamic_paths t) (raw_paths t ++ [(path, boost)]) (legacy_keyword_only t)
  | RDynamicKeyword false _ => mkTargets (default_fields t) (boosts t) (dynamic_paths t) (raw_paths t) true
  end.

Definition requested_fields (body : json) : QueryResult (list bytes) :=
  match get body (str "fields"), get body (str "default_field") with
  | Some (Array items), _ => Ok (omap as_str items)
  | _, Some (JString name) => Ok [name]
  | Some other, _ => bad (FieldsNotArray other)
  | _, _ => Ok []
  end.

Definition wrap_text (field path text : bytes) : bytes := dotted field path ++ str ":(" ++ text ++ str ")".
Definition path_clause (conjunction : bool) (field text : bytes) (pb : bytes * Z) : Occur * Query :=
  (Should, ParsedQuery [field] conjunction (if pb.2 =? ONE_F32 then [] else [(field, pb.2)]) (wrap_text field pb.1 text)).

(** [all_dynamic_paths]: the split's string-valued paths, when asked. *)
Definition translate_query_string (s : MappedSchema) (body : json) (all_dynamic_paths : QueryResult (list bytes)) : QueryResult Query :=
  query_text ← or_bad (v ← get body (str "query"); as_str v) QueryStringText;
  text ← ok_or (rewrite_keyword_paths s query_text) Panicked;
  let conjunction := match v ← get body (str "default_operator"); as_str v with Some op => eq_ignore_ascii_case op (str "and") | None => false end in
  requested ← requested_fields body;
  let all := bool_decide (requested = []) || existsb (fun f => bool_decide (strip_carets f = str "*")) requested in
  targets ← (if all then
               paths ← all_dynamic_paths;
               Ok (mkTargets (text_fields s ++ [DYNAMIC_FIELD]) [] ((fun p => (p, ONE_F32)) <$> paths) [] false)
             else Ok (foldl (add_target s) (mkTargets [] [] [] [] false) requested));
  if bool_decide (default_fields targets = []) && bool_decide (dynamic_paths targets = []) && bool_decide (raw_paths targets = []) then
    if legacy_keyword_only targets then Ok EmptyQuery else bad NoSearchableField
  else
    let clauses :=
      (match default_fields targets with [] => [] | fs => [(Should, ParsedQuery fs conjunction (boosts targets) text)] end)
      ++ (path_clause conjunction DYNAMIC_FIELD text <$> dynamic_paths targets)
      ++ (if has_dynamic_raw s then path_clause conjunction DYNAMIC_RAW_FIELD text <$> raw_paths targets else []) in
    Ok match clauses with [] => EmptyQuery | [(_, q)] => q | _ => BooleanQuery clauses end.

(** ** [translate_query] *)

Definition translate_leaf (s : MappedSchema) (paths : QueryResult (list bytes)) (kind : bytes) (body : json) : QueryResult Query :=
  if decide (kind = str "match_all") then Ok AllQuery
  else if decide (kind = str "term") then translate_term s body
  else if decide (kind = str "terms") then translate_terms s body
  else if decide (kind = str "ids") then translate_ids s body
  else if decide (kind = str "range") then translate_range s body
  else if decide (kind = str "prefix") then translate_prefix s body
  else if decide (kind = str "wildcard") then translate_wildcard s body
  else if decide (kind = str "exists") then translate_exists s body
  else if decide (kind = str "match") then translate_match s body false
  else if decide (kind = str "match_phrase") then translate_match s body true
  else if decide (kind = str "query_string" \/ kind = str "simple_query_string") then translate_query_string s body paths
  else bad (Unsupported kind).

(** The clauses of the four sections of a [bool], in the order they are read. *)
Definition section_clauses (secs : list (bytes * list (QueryResult Query))) (name : string) (occur : Occur) : QueryResult (list (Occur * Query)) :=
  match bt_find (str name) secs with
  | Some items => match collect items with Ok qs => Ok (pair occur <$> qs) | Err e => Err e end
  | None => Ok []
  end.
Definition bool_clauses (secs : list (bytes * list (QueryResult Query))) : QueryResult (list (Occur * Query)) :=
  must ← section_clauses secs "must" Must;
  filt ← section_clauses secs "filter" Must;
  should ← section_clauses secs "should" Should;
  must_not ← section_clauses secs "must_not" MustNot;
  Ok (must ++ filt ++ should ++ must_not).
Definition bool_query (clauses : list (Occur * Query)) : Query :=
  match clauses with
  | [] => AllQuery
  | _ => BooleanQuery (if forallb (fun c => bool_decide (c.1 = MustNot)) clauses then clauses ++ [(Must, AllQuery)] else clauses)
  end.

Fixpoint translate_query (s : MappedSchema) (paths : QueryResult (list bytes)) (query : json) : QueryResult Query :=
  match query with
  | Object [] => bad EmptyQueryObject
  | Object [(kind, body)] =>
      if decide (kind = str "bool") then
        match body with
        | Object obj =>
            clauses ← bool_clauses (map (fun kv => (kv.1,
              match kv.2 with Array items => map (translate_query s paths) items | _ => [translate_query s paths kv.2] end)) obj);
            Ok (bool_query clauses)
        | _ => bad (BodyNotObject kind)
        end
      else translate_leaf s paths kind body
  | Object (_ :: _ :: _ as obj) => bad (ManyKeys (length obj))
  | _ => bad QueryNotObject
  end.
End translate.

(** ** Aggregation requests and their results *)

Definition rewritten_field (s : MappedSchema) (name : bytes) : bytes :=
  match resolve s name with
  | RTimestamp => TIMESTAMP_FIELD
  | RTyped _ _ => name
  | RDynamic path => dotted DYNAMIC_FIELD path
  | RDynamicKeyword _ path => dotted DYNAMIC_RAW_FIELD path
  end.
Definition has_key (k : bytes) (o : list (bytes * json)) : bool := bool_decide (is_Some (assoc k o)).
Definition display_only (k : bytes) : bool := bool_decide (k = str "format") || bool_decide (k = str "time_zone").

Fixpoint rewrite_agg_fields (s : MappedSchema) (aggs : json) : json :=
  match aggs with
  | Object map_ =>
      let is_param_block := has_key (str "field") map_ in
      Object (foldl (fun out kv => obj_insert kv.1 kv.2 out) []
        (omap (fun kvr : bytes * (json * json) =>
           let '(k, (v, r)) := kvr in
           if is_param_block && display_only k then None
           else match (if decide (k = str "field") then as_str v else None) with
                | Some name => Some (k, JString (rewritten_field s name))
                | None =>
                    if bool_decide (k = str "interval") && match v with JString _ => true | _ => false end
                    then Some (str "fixed_interval", v) else Some (k, r)
                end)
         (map (fun kv => (kv.1, (kv.2, rewrite_agg_fields s kv.2))) map_)))
  | Array items => Array (map (rewrite_agg_fields s) items)
  | other => other
  end.

Definition float_as_exact_i64 (value : json) : option Z :=
  match value with
  | Number (Float f) => if is_whole f && abs_le f 9007199254740992 then Some (f64_as_i64 f) else None
  | _ => None
  end.
(** [get_mut] of a member, updated. *)
Definition update_member (k : bytes) (f : json -> json) (j : json) : json :=
  match j with Object o => Object ((fun kv => if decide (kv.1 = k) then (kv.1, f kv.2) else kv) <$> o) | _ => j end.
Definition exact_key (key : json) : json := match float_as_exact_i64 key with Some millis => json_i64 millis | None => key end.

Fixpoint fix_date_histogram_keys (aggs_request : json) (response : json) : json :=
  match aggs_request with
  | Object requests =>
      foldl (fun resp (step : json -> json) => step resp) response
        (map (fun req => match req.2 with
           | Object spec =>
               let sub := first_of (bt_find (str "aggs") (map (fun kv => (kv.1, fix_date_histogram_keys kv.2)) spec))
                                   (bt_find (str "aggregations") (map (fun kv => (kv.1, fix_date_histogram_keys kv.2)) spec)) in
               let bucket_step (bucket : json) :=
                 let bucket := if has_key (str "date_histogram") spec then update_member (str "key") exact_key bucket else bucket in
                 match sub with Some f => f bucket | None => bucket end in
               update_member req.1 (fun result =>
                 match get result (str "buckets") with
                 | Some (Array items) => update_member (str "buckets") (fun _ => Array (bucket_step <$> items)) result
                 | Some (Object o) => update_member (str "buckets") (fun _ => Object ((fun kv => (kv.1, bucket_step kv.2)) <$> o)) result
                 | _ => match sub with Some f => f result | None => result end
                 end)
           | _ => id
           end) requests)
  | _ => response
  end.

(** ** Bounds are met, whatever the order they are found in *)

Definition sat (t : Z) (b : Bounds) : Prop :=
  match b.1 with Some s => s <= t | None => True end /\ match b.2 with Some e => t <= e | None => True end.
Definition meet (b c : Bounds) : Bounds :=
  (union_with (fun x y => Some (Z.max x y)) b.1 c.1, union_with (fun x y => Some (Z.min x y)) b.2 c.2).

Lemma sat_meet t b c : sat t (meet b c) <-> sat t b /\ sat t c.
Proof.
  unfold sat, meet. destruct b as [[x|] [y|]], c as [[z|] [w|]]; cbn; lia.
Qed.
Lemma meet_nil_r b : meet b (None, None) = b.
Proof. by destruct b as [[x|] [y|]]. Qed.
Lemma meet_assoc a b c : meet (meet a b) c = meet a (meet b c).
Proof.
  unfold meet. destruct a as [[] []], b as [[] []], c as [[] []]; cbn; rewrite ?Z.max_assoc, ?Z.min_assoc; done.
Qed.

(** A scan meets the bounds it is given with its own, or panics. *)
Definition meets (f : Bounds -> option Bounds) : Prop :=
  (forall b, f b = None) \/ exists c, forall b, f b = Some (meet b c).
Definition quiet_scan (f : Bounds -> option Bounds) : bool := bool_decide (f (None, None) = Some (None, None)).

Lemma meets_id : meets Some.
Proof. right. exists (None, None). intros b. by rewrite meet_nil_r. Qed.
Lemma meets_bind f g : meets f -> meets g -> meets (fun b => f b ≫= g).
Proof.
  intros [Hf|[c Hf]] Hg; [left; intros b; by rewrite Hf|]. destruct Hg as [Hg|[d Hg]].
  - left. intros b. rewrite Hf. apply Hg.
  - right. exists (meet c d). intros b. rewrite Hf. cbn. by rewrite Hg, meet_assoc.
Qed.
Lemma meets_in_turn l : Forall meets l -> meets (in_turn l).
Proof. induction 1 as [|f l Hf _ IH]; [apply meets_id|]. by apply (meets_bind f (in_turn l)). Qed.
Lemma quiet_meets f b : meets f -> quiet_scan f = true -> f b = Some b.
Proof.
  unfold quiet_scan. rewrite bool_decide_eq_true. intros [H|[c H]]; rewrite H; [done|]. intros E. rewrite H.
  assert (c = (None, None)) as ->; [|by rewrite meet_nil_r]. by destruct c as [[x|] [y|]].
Qed.
Lemma meets_sat f t b b' : meets f -> f b = Some b' -> sat t b' <-> sat t b /\ forall c, f (None, None) = Some c -> sat t c.
Proof.
  intros [H|[c H]]; rewrite H; [done|]. intros [= <-]. rewrite sat_meet, H.
  assert (meet (None, None) c = c) as -> by (by destruct c as [[x|] [y|]]). naive_solver.
Qed.

Section scans.
Context `{T : TimeCrate} (now : Z).

Lemma raise_start_meet ms b : raise_start ms b = meet b (Some ms, None).
Proof. by destruct b as [[x|] [y|]]. Qed.
Lemma lower_end_meet ms b : lower_end ms b = meet b (None, Some ms).
Proof. by destruct b as [[x|] [y|]]. Qed.

Lemma meets_scan_op op v : meets (scan_op now op v).
Proof.
  unfold scan_op. destruct (parse_time_millis now v) as [ms| |]; [|apply meets_id|by left].
  destruct (decide (op = str "gte" \/ op = str "gt")); [right; eexists; intros b; by rewrite raise_start_meet|].
  destruct (decide (op = str "lte" \/ op = str "lt")); [right; eexists; intros b; by rewrite lower_end_meet|apply meets_id].
Qed.
Lemma meets_scan_ops ops : meets (scan_ops now ops).
Proof. induction ops as [|[op v] ops IH]; [apply meets_id|]. apply (meets_bind (scan_op now op v)); [apply meets_scan_op|done]. Qed.
Lemma meets_scan_range range : meets (scan_range now range).
Proof.
  induction range as [|[f bounds] range IH]; [apply meets_id|]. cbn [scan_range].
  apply (meets_bind (fun b => match bounds with Object ops => if is_alias f then scan_ops now ops b else Some b | _ => Some b end)); [|done].
  destruct bounds; try apply meets_id. destruct (is_alias f); [apply meets_scan_ops|apply meets_id].
Qed.

Lemma bt_find_elem {A} k (l : list (bytes * A)) v : bt_find k l = Some v -> (k, v) ∈ l.
Proof. induction l as [|[k' w] l IH]; [done|]. simpl. case_decide as E; [intros [= ->]; subst; by left|]. intros Hk. right. by apply IH. Qed.

Lemma meets_scan node : meets (scan_time_bounds now node).
Proof.
  assert (meets (scan_time_bounds now node) /\
    forall o, node = Object o -> Forall (fun kv => meets (scan_time_bounds now kv.2)) o) as [H _]; [|exact H].
  induction node as [| | | |items IH|o IH] using json_nested_ind; try (split; [apply meets_id|done]).
  - split; [|done]. apply meets_in_turn. apply Forall_fmap. eapply Forall_impl; [exact IH|]. by intros j [H _].
  - assert (Forall (fun kv => meets (scan_time_bounds now kv.2)) o) as Ho by (eapply Forall_impl; [exact IH|]; by intros j [H _]).
    split; [|by intros ? [= <-]]. cbn [scan_time_bounds].
    apply (meets_bind (fun b => match assoc (str "range") o with Some (Object range) => scan_range now range b | _ => Some b end)).
    { destruct (assoc (str "range") o) as [[]|]; try apply meets_id. apply meets_scan_range. }
    destruct (bt_find (str "bool") _) as [[body|]|] eqn:E; [|apply meets_in_turn, Forall_fmap, Ho..].
    apply bt_find_elem in E. apply list_elem_of_fmap in E as ([k v] & [= <- Ev] & Hkv). cbn [snd] in Ev.
    destruct v as [| | | | |obj]; try done. injection Ev as ->. apply meets_in_turn.
    rewrite Forall_forall in IH. destruct (IH _ Hkv) as [_ Hb]. specialize (Hb obj eq_refl).
    apply Forall_forall. intros f Hf. unfold sections in Hf. apply list_elem_of_omap in Hf as (n & _ & Hn).
    apply bt_find_elem, list_elem_of_fmap in Hn as (kv & [= _ ->] & Hkv'). rewrite Forall_forall in Hb. by apply Hb.
Qed.
End scans.

(** ** What pruning relies on of the library *)

(** [D]: a split's documents.  A conjunction's clauses all match; a range on the
    timestamp bounds it. *)
Definition lower_ok (b : Bound) (t : Z) : Prop :=
  match b with
  | Included (TValue f (IDate ms)) => f = TIMESTAMP_FIELD -> ms <= t
  | Excluded (TValue f (IDate ms)) => f = TIMESTAMP_FIELD -> ms < t
  | _ => True
  end.
Definition upper_ok (b : Bound) (t : Z) : Prop :=
  match b with
  | Included (TValue f (IDate ms)) => f = TIMESTAMP_FIELD -> t <= ms
  | Excluded (TValue f (IDate ms)) => f = TIMESTAMP_FIELD -> t < ms
  | _ => True
  end.
Class MatchLaws {D : Type} (matches : Query -> D -> bool) (timestamp : D -> Z) := {
  must_matches cl d q : matches (BooleanQuery cl) d = true -> (Must, q) ∈ cl -> matches q d = true;
  range_matches lo hi d : matches (RangeQuery lo hi) d = true -> lower_ok lo (timestamp d) /\ upper_ok hi (timestamp d);
}.

(** ** Requests whose bounds can be trusted *)

Definition is_lower (op : bytes) : bool := bool_decide (op = str "gte" \/ op = str "gt").
Definition is_upper (op : bytes) : bool := bool_decide (op = str "lte" \/ op = str "lt").
Definition count_ops (p : bytes -> bool) (ops : list (bytes * json)) : nat := length (filter (fun ov => p ov.1 = true) ops).
Definition one_sided (ops : list (bytes * json)) : bool := (count_ops is_lower ops <=? 1)%nat && (count_ops is_upper ops <=? 1)%nat.

Section prunable.
Context `{T : TimeCrate} (now : Z).

(** One lower and one upper bound at most in a [range] on the timestamp, and no
    bounds inside leaf queries that do not mean them. *)
Fixpoint prunable (q : json) : bool :=
  match q with
  | Object [(kind, body)] =>
      if decide (kind = str "bool") then
        match body with
        | Object obj => forallb (fun kv =>
            if decide (kv.1 = str "must" \/ kv.1 = str "filter")
            then match kv.2 with Array items => forallb prunable items | _ => prunable kv.2 end else true) obj
        | _ => true
        end
      else if decide (kind = str "range") then
        match body with
        | Object [(field, Object ops)] =>
            if is_alias field then one_sided ops && quiet_scan (scan_time_bounds now body) else quiet_scan (scan_time_bounds now q)
        | _ => quiet_scan (scan_time_bounds now q)
        end
      else quiet_scan (scan_time_bounds now q)
  | _ => true
  end.
End prunable.

(** ** Pruning is sound *)

Section prune.
Context `{T : TimeCrate} `{C : TextCodec} `{X : TextTables} `{I : IndexCrate} (now : Z).
Context {D : Type} (matches : Query -> D -> bool) (timestamp : D -> Z) `{L : !MatchLaws matches timestamp}.
Context (s : MappedSchema) (paths : QueryResult (list bytes)).

Definition op_sat (t : Z) (ov : bytes * json) : Prop :=
  match parse_time_millis now ov.2 with
  | Got ms => (is_lower ov.1 = true -> ms <= t) /\ (is_upper ov.1 = true -> t <= ms)
  | _ => True
  end.

Lemma scan_ops_sat t ops : forall b b', Forall (op_sat t) ops -> sat t b -> scan_ops now ops b = Some b' -> sat t b'.
Proof.
  induction ops as [|[op v] ops IH]; intros b b' H Hb; [by intros [= <-]|]. apply Forall_cons in H as [H1 H].
  cbn [scan_ops]. destruct (scan_op now op v b) as [b1|] eqn:E; [|done]. cbn [mbind option_bind]. apply IH; [done|].
  unfold scan_op in E. unfold op_sat in H1. cbn [fst snd] in H1. destruct (parse_time_millis now v) as [ms| |]; [|by injection E as <-|done].
  destruct H1 as [Hl Hu]. injection E as <-. unfold is_lower, is_upper in *.
  destruct (decide (op = str "gte" \/ op = str "gt")) as [Ho|Ho].
  - rewrite raise_start_meet, sat_meet. split; [done|]. split; [|done]. apply Hl. by apply bool_decide_eq_true_2.
  - destruct (decide (op = str "lte" \/ op = str "lt")) as [Ho'|Ho']; [|done].
    rewrite lower_end_meet, sat_meet. split; [done|]. split; [done|]. apply Hu. by apply bool_decide_eq_true_2.
Qed.

Lemma make_alias name value t : is_alias name = true -> make_term now s name value = Ok t ->
  exists ms, parse_time_millis now value = Got ms /\ t = TValue TIMESTAMP_FIELD (IDate ms).
Proof.
  intros Ha. unfold make_term, resolve. rewrite Ha. destruct (parse_time_millis now value) as [ms| |]; [|done..].
  intros [= <-]. by exists ms.
Qed.

Lemma count_cons p ov ops : count_ops p (ov :: ops) = if p ov.1 then S (count_ops p ops) else count_ops p ops.
Proof. unfold count_ops. rewrite filter_cons. by destruct (p ov.1). Qed.

Lemma range_bounds_spec name ops : is_alias name = true -> forall lo hi Q,
  range_bounds (make_term now s name) ops lo hi = Ok Q ->
  exists lo' hi', Q = RangeQuery lo' hi' /\
    (count_ops is_lower ops = O -> lo' = lo) /\ (count_ops is_upper ops = O -> hi' = hi) /\
    forall t, (count_ops is_lower ops <= 1)%nat -> (count_ops is_upper ops <= 1)%nat ->
      lower_ok lo' t -> upper_ok hi' t -> Forall (op_sat t) ops.
Proof.
  intros Ha. induction ops as [|[op value] ops IH]; intros lo hi Q; cbn [range_bounds].
  { intros [= <-]. exists lo, hi. split_and!; [done..|]. intros. constructor. }
  rewrite !count_cons. cbn [fst].
  assert (forall (mk : Term -> Bound) low, (low = true -> is_lower op = true /\ is_upper op = false) -> (low = false -> is_lower op = false /\ is_upper op = true) ->
    (forall ms t, low = true -> lower_ok (mk (TValue TIMESTAMP_FIELD (IDate ms))) t -> ms <= t) ->
    (forall ms t, low = false -> upper_ok (mk (TValue TIMESTAMP_FIELD (IDate ms))) t -> t <= ms) ->
    (t ← make_term now s name value; range_bounds (make_term now s name) ops (if low then mk t else lo) (if low then hi else mk t)) = Ok Q ->
    exists lo' hi', Q = RangeQuery lo' hi' /\
      ((if is_lower op then S (count_ops is_lower ops) else count_ops is_lower ops) = O -> lo' = lo) /\
      ((if is_upper op then S (count_ops is_upper ops) else count_ops is_upper ops) = O -> hi' = hi) /\
      forall t, ((if is_lower op then S (count_ops is_lower ops) else count_ops is_lower ops) <= 1)%nat ->
        ((if is_upper op then S (count_ops is_upper ops) else count_ops is_upper ops) <= 1)%nat ->
        lower_ok lo' t -> upper_ok hi' t -> Forall (op_sat t) ((op, value) :: ops)) as step.
  { intros mk low Hlow Hup Hl Hu. destruct (make_term now s name value) as [tm|] eqn:Et; [|done]. cbn [mbind result_bind].
    apply make_alias in Et as (ms & Ems & ->); [|done]. intros E. apply IH in E as (lo' & hi' & -> & H1 & H2 & H3).
    exists lo', hi'. destruct low.
    - destruct (Hlow eq_refl) as [-> ->]. split_and!; [done..|]. intros t Hc1 Hc2 Hlo Hhi. constructor; [|apply H3; [lia|done..]].
      unfold op_sat. cbn [fst snd]. rewrite Ems. rewrite H1 in Hlo by lia. destruct (Hlow eq_refl) as [_ ->]. split; [|done]. intros _. by apply (Hl ms t).
    - destruct (Hup eq_refl) as [-> ->]. split_and!; [done..|]. intros t Hc1 Hc2 Hlo Hhi. constructor; [|apply H3; [done|lia|done..]].
      unfold op_sat. cbn [fst snd]. rewrite Ems. rewrite H2 in Hhi by lia. destruct (Hup eq_refl) as [-> _]. split; [done|]. intros _. by apply (Hu ms t). }
  destruct (decide (op = str "gte")) as [->|N1].
  { apply (step Included true); [done..| |done]. intros ms t _ H. by apply H. }
  destruct (decide (op = str "gt")) as [->|N2].
  { apply (step Excluded true); [done..| |done]. intros ms t _ H. apply Z.lt_le_incl. by apply H. }
  destruct (decide (op = str "lte")) as [->|N3].
  { apply (step Included false); [done..|]. intros ms t _ H. by apply H. }
  destruct (decide (op = str "lt")) as [->|N4].
  { apply (step Excluded false); [done..|]. intros ms t _ H. apply Z.lt_le_incl. by apply H. }
  destruct (decide (op ∈ _)) as [Hin|]; [|done]. intros E. apply IH in E as (lo' & hi' & -> & H1 & H2 & H3).
  assert (is_lower op = false) as -> by (apply bool_decide_eq_false_2; naive_solver).
  assert (is_upper op = false) as -> by (apply bool_decide_eq_false_2; naive_solver).
  exists lo', hi'. split_and!; [done..|]. intros t Hc1 Hc2 Hlo Hhi. constructor; [|by apply H3].
  unfold op_sat. cbn [fst snd]. destruct (parse_time_millis now value); [|done..].
  unfold is_lower, is_upper. rewrite !bool_decide_eq_false_2 by naive_solver. by split.
Qed.

(** A request whose translation matches [d] bounds [d]'s timestamp as scanned. *)
Definition bounds_hold (d : D) (q : json) : Prop := forall Q b b',
  prunable now q = true -> translate_query now s paths q = Ok Q -> matches Q d = true ->
  sat (timestamp d) b -> scan_time_bounds now q b = Some b' -> sat (timestamp d) b'.

Lemma quiet_holds d q : quiet_scan (scan_time_bounds now q) = true -> bounds_hold d q.
Proof. intros Hq Q b b' _ _ _ Hb E. rewrite quiet_meets in E; [by injection E as <-|apply meets_scan|done]. Qed.

Lemma collect_elem {A} (l : list (QueryResult A)) qs r : collect l = Ok qs -> r ∈ l -> exists q, r = Ok q /\ q ∈ qs.
Proof.
  revert qs. induction l as [|x l IH]; intros qs; [by intros _ ?%elem_of_nil|]. cbn [collect].
  destruct x as [a|]; [|done]. cbn [mbind result_bind]. destruct (collect l) as [rest|]; [|done]. cbn [mbind result_bind].
  intros [= <-] [->|Hr]%elem_of_cons; [exists a; split; [done|by left]|]. destruct (IH rest eq_refl Hr) as (q & -> & Hq). exists q. split; [done|by right].
Qed.

Lemma in_turn_sat t l b b' : Forall (fun f => forall c c', sat t c -> f c = Some c' -> sat t c') l -> sat t b -> in_turn l b = Some b' -> sat t b'.
Proof.
  intros H. revert b. induction H as [|f l Hf _ IH]; intros b Hb; [by intros [= <-]|]. cbn [in_turn].
  destruct (f b) as [b1|] eqn:E; [|done]. cbn [mbind option_bind]. apply IH. by eapply Hf.
Qed.

(** The clauses of a section, one per item, all of its [Occur]. *)
Definition items_of (v : json) : list json := match v with Array items => items | _ => [v] end.
Definition translated (obj : list (bytes * json)) : list (bytes * list (QueryResult Query)) :=
  map (fun kv => (kv.1, match kv.2 with Array items => map (translate_query now s paths) items | _ => [translate_query now s paths kv.2] end)) obj.
Lemma bt_find_translated k obj : bt_find k (translated obj) = (fun v => translate_query now s paths <$> items_of v) <$> assoc k obj.
Proof.
  induction obj as [|[k' v] obj IH]; [done|]. cbn [translated map bt_find assoc fst snd]. case_decide; [|exact IH].
  by destruct v.
Qed.

Lemma section_elem obj name occur qs v item : section_clauses (translated obj) name occur = Ok qs -> assoc (str name) obj = Some v ->
  item ∈ items_of v -> exists q, translate_query now s paths item = Ok q /\ (occur, q) ∈ qs.
Proof.
  unfold section_clauses. rewrite bt_find_translated. intros H E Hi. rewrite E in H. cbn [fmap option_fmap option_map] in H.
  destruct (collect _) as [l|] eqn:Ec; [|done]. injection H as <-.
  destruct (collect_elem _ _ (translate_query now s paths item) Ec) as (q & Hq & Hin); [apply list_elem_of_fmap; by exists item|].
  exists q. split; [done|]. apply list_elem_of_fmap. by exists q.
Qed.

Lemma bool_must cl d q : matches (bool_query cl) d = true -> (Must, q) ∈ cl -> matches q d = true.
Proof.
  unfold bool_query. destruct cl as [|c cl]; [by intros _ ?%elem_of_nil|]. intros H Hq. eapply must_matches; [exact H|].
  destruct (forallb _ _); [|done]. apply elem_of_app. by left.
Qed.
End prune.

Section prune_sound.
Context `{T : TimeCrate} `{C : TextCodec} `{X : TextTables} `{I : IndexCrate} (now : Z).
Context {D : Type} (matches : Query -> D -> bool) (timestamp : D -> Z) `{L : !MatchLaws matches timestamp}.
Context (s : MappedSchema) (paths : QueryResult (list bytes)).
Notation holds := (bounds_hold now matches timestamp s paths).

Lemma bt_find_map {A} (f : json -> A) k obj : bt_find k (map (fun kv => (kv.1, f kv.2)) obj) = f <$> assoc k obj.
Proof. induction obj as [|[k' v] obj IH]; [done|]. simpl. by case_decide. Qed.

Lemma assoc_elem k obj v : assoc k obj = Some v -> (k, v) ∈ obj.
Proof. rewrite assoc_bt. apply bt_get_elem. Qed.

(** A section of a conjunction: every item's translation is a clause. *)
Lemma section_holds d obj name qs cl b b' v :
  matches (bool_query cl) d = true -> (forall q, q ∈ qs -> q ∈ cl) ->
  section_clauses (translated now s paths obj) name Must = Ok qs -> assoc (str name) obj = Some v ->
  Forall (fun item => holds d item /\ prunable now item = true) (items_of v) ->
  sat (timestamp d) b -> scan_time_bounds now v b = Some b' -> sat (timestamp d) b'.
Proof.
  intros Hm Hq Hs Hv Hi Hb E.
  assert (forall item, item ∈ items_of v -> forall c c', sat (timestamp d) c -> scan_time_bounds now item c = Some c' -> sat (timestamp d) c') as H.
  { intros item Hin c c' Hc Ec. rewrite Forall_forall in Hi. destruct (Hi item Hin) as [Hh Hp].
    destruct (section_elem now s paths obj name Must qs v item Hs Hv Hin) as (q & Et & Hin').
    apply (Hh q c c' Hp Et); [|done..]. eapply bool_must; [exact L|exact Hm|by apply Hq]. }
  destruct v as [| | | |items|]; try (by eapply H; [left|..]).
  cbn [scan_time_bounds] in E. eapply in_turn_sat; [|exact Hb|exact E]. apply Forall_fmap, Forall_forall. intros item Hin c c'. exact (H item Hin c c').
Qed.

Lemma bool_holds d kind obj : kind = str "bool" ->
  Forall (fun kv => holds d kv.2 /\ forall items, kv.2 = Array items -> Forall (holds d) items) obj ->
  holds d (Object [(kind, Object obj)]).
Proof.
  intros -> IH Q b b' Hp Ht Hm Hb E. cbn [prunable] in Hp. rewrite decide_True in Hp by done.
  assert ((clauses ← bool_clauses (translated now s paths obj); Ok (bool_query clauses)) = Ok Q) as Ht' by exact Ht. clear Ht. rename Ht' into Ht.
  unfold bool_clauses in Ht. set (secs := translated now s paths obj) in Ht.
  destruct (section_clauses secs "must" Must) as [must|] eqn:Em; [|done].
  destruct (section_clauses secs "filter" Must) as [filt|] eqn:Ef; [|done].
  destruct (section_clauses secs "should" Should) as [should|] eqn:Es; [|done].
  destruct (section_clauses secs "must_not" MustNot) as [must_not|] eqn:En; [|done]. injection Ht as <-.
  cbn [scan_time_bounds map fst snd assoc bt_find] in E. rewrite (decide_False (P := str "range" = str "bool")), decide_True in E by (done || discriminate).
  cbn [mbind option_bind] in E. eapply in_turn_sat; [|exact Hb|exact E]. clear E Hb b b'.
  apply Forall_forall. intros f Hf c c' Hc E. unfold sections in Hf. apply list_elem_of_omap in Hf as (n & Hn & Hf).
  rewrite bt_find_map in Hf. destruct (assoc (str n) obj) as [v|] eqn:Ev; [|done]. injection Hf as <-.
  pose proof (assoc_elem _ _ _ Ev) as Hin. rewrite Forall_forall in IH. destruct (IH _ Hin) as [H1 H2]. cbn [snd] in H1, H2.
  rewrite forallb_forall in Hp. specialize (Hp (str n, v) (proj1 (list_elem_of_In _ _) Hin)). cbn [fst snd] in Hp.
  assert (n = "must" \/ n = "filter") as Hnn by (apply elem_of_cons in Hn as [->|Hn%list_elem_of_singleton]; auto).
  rewrite decide_True in Hp by (destruct Hnn as [-> | ->]; auto).
  assert (Forall (fun item => holds d item /\ prunable now item = true) (items_of v)) as Hi.
  { destruct v as [| | | | |]; try (apply Forall_singleton; split; [exact H1|exact Hp]). cbn [items_of]. rewrite forallb_forall in Hp. apply Forall_forall. intros item Hit. split.
    - specialize (H2 _ eq_refl). rewrite Forall_forall in H2. by apply H2.
    - apply Hp. by apply list_elem_of_In. }
  destruct Hnn as [-> | ->].
  - eapply section_holds; [exact Hm| |exact Em|exact Ev|exact Hi|exact Hc|exact E]. intros q Hq. apply elem_of_app. by left.
  - eapply section_holds; [exact Hm| |exact Ef|exact Ev|exact Hi|exact Hc|exact E]. intros q Hq. rewrite !elem_of_app. tauto.
Qed.

Lemma range_holds d kind field ops : kind = str "range" -> is_alias field = true -> one_sided ops = true ->
  quiet_scan (scan_time_bounds now (Object [(field, Object ops)])) = true -> holds d (Object [(kind, Object [(field, Object ops)])]).
Proof.
  intros -> Ha Hs Hq Q b b' _ Ht Hm Hb E.
  assert (translate_range now s (Object [(field, Object ops)]) = Ok Q) as Ht' by exact Ht. clear Ht.
  unfold translate_range in Ht'. assert (resolve s field = RTimestamp) as Er by (unfold resolve; by rewrite Ha). rewrite Er in Ht'.
  apply range_bounds_spec in Ht' as (lo & hi & -> & _ & _ & H); [|done].
  apply range_matches in Hm as [Hlo Hhi]. unfold one_sided in Hs. apply andb_true_iff in Hs as [Hs1%Nat.leb_le Hs2%Nat.leb_le].
  specialize (H _ Hs1 Hs2 Hlo Hhi).
  set (B := Object [(field, Object ops)]) in *. cbn [scan_time_bounds map fst snd assoc bt_find] in E.
  rewrite (decide_True (P := str "range" = str "range")), (decide_False (P := str "bool" = str "range")) in E by (done || discriminate).
  change (scan_range now [(field, Object ops)] b ≫= in_turn [scan_time_bounds now B] = Some b') in E. cbn [scan_range] in E. rewrite Ha in E.
  destruct (scan_ops now ops b) as [b1|] eqn:E1; [|done]. cbn [mbind option_bind in_turn] in E.
  assert (sat (timestamp d) b1) as Hb1 by (eapply scan_ops_sat; [exact H|exact Hb|exact E1]).
  rewrite quiet_meets in E; [by injection E as <-|apply meets_scan|done].
Qed.

Lemma all_hold d q : holds d q.
Proof.
  assert (holds d q /\ (forall items, q = Array items -> Forall (holds d) items) /\
    (forall obj, q = Object obj -> Forall (fun kv => holds d kv.2 /\ forall items, kv.2 = Array items -> Forall (holds d) items) obj)) as [H _]; [|exact H].
  induction q as [| | | |items IH|o IH] using json_nested_ind; try (split; [by intros Q ? ? _ ?|done]).
  - split; [by intros Q ? ? _ ?|]. split; [|done]. intros ? [= <-]. eapply Forall_impl; [exact IH|]. by intros j (H & _).
  - split; [|split; [done|]].
    2:{ intros ? [= <-]. eapply Forall_impl; [exact IH|]. intros j (H1 & H2 & _). by split. }
    destruct o as [|[kind body] [|kv o]]; [by intros Q ? ? _ ?| |by intros Q ? ? _ ?].
    apply Forall_cons in IH as [(_ & _ & H3) _]. cbn [snd] in H3.
    destruct (decide (kind = str "bool")) as [Hk|Hk].
    { destruct body as [| | | | |obj]; try (intros Q ? ? _ Ht; subst kind; discriminate Ht).
      apply bool_holds; [done|]. by apply H3. }
    intros Q b b' Hp. pose proof Hp as Hp'. cbn [prunable] in Hp. rewrite decide_False in Hp by done. revert Q b b' Hp'.
    change (holds d (Object [(kind, body)])).
    destruct (decide (kind = str "range")) as [Hr|Hr]; [|by apply quiet_holds].
    destruct body as [| | | | |[|[field bounds] [|f2 obj]]]; try (by apply quiet_holds).
    2:{ destruct bounds; by apply quiet_holds. }
    destruct bounds as [| | | | |ops]; try (by apply quiet_holds).
    destruct (is_alias field) eqn:Ea; [|by apply quiet_holds]. apply andb_true_iff in Hp as [Hs Hq]. by apply range_holds.
Qed.

(** Choosing the splits by the bounds read off a query loses no document:
    one that the translated query matches lies within the bounds, if each
    [range] on the timestamp has one lower and one upper bound at most. *)
Theorem pruning_sound query Q start end_ d :
  prunable now query = true -> translate_query now s paths query = Ok Q ->
  extract_time_bounds now query = Some (start, end_) -> matches Q d = true ->
  (forall ms, start = Some ms -> ms <= timestamp d) /\ (forall ms, end_ = Some ms -> timestamp d <= ms).
Proof.
  intros Hp Ht He Hm. destruct (all_hold d query Q (None, None) (start, end_) Hp Ht Hm) as [H1 H2]; [done|done|].
  cbn [fst snd] in H1, H2. split; intros ms ->; done.
Qed.
End prune_sound.

(** A literal the translation reads apart from the scan: the last of two lower
    bounds holds for the query, the highest of them for the choice of splits. *)
Definition two_lower_bounds : json :=
  Object [(str "range", Object [(str "@timestamp", Object [(str "gt", Number (PosInt 100)); (str "gte", Number (PosInt 50))])])].

Section literals.
Context `{T : TimeCrate} `{C : TextCodec} `{X : TextTables} `{I : IndexCrate} (now : Z).

(** With two lower bounds in a [range] the query keeps the last one and
    the splits are chosen by the highest, so the splits with the documents in
    between are not searched. *)
Theorem double_bound_prunes_matches s paths :
  translate_query now s paths two_lower_bounds = Ok (RangeQuery (Included (TValue TIMESTAMP_FIELD (IDate 50000))) Unbounded) /\
  extract_time_bounds now two_lower_bounds = Some (Some 100000, None).
Proof. split; vm_compute; reflexivity. Qed.

(** A no-break space before a field path, in a query string. *)
Definition nbsp_text : bytes := [xc2; xa0] ++ str "host.keyword:db1".

(** A query string whose [.keyword] path follows a white space of more
    than one byte makes the rewrite slice inside that character: the search
    panics instead of running the query. *)
Theorem wide_space_panics m paths :
  utf8_valid nbsp_text = true /\
  translate_query now (build m) paths (Object [(str "query_string", Object [(str "query", JString nbsp_text)])]) = Err Panicked /\
  rewrite_keyword_paths (build (mkMapping [] [])) (str " host.keyword:db1") = Some (str " _dynamic_raw.host:db1").
Proof.
  split; [reflexivity|]. split; [|vm_compute; reflexivity].
  assert (rewrite_keyword_paths (build m) nbsp_text = None) as E.
  { unfold rewrite_keyword_paths. change (has_dynamic_raw (build m)) with true. vm_compute. reflexivity. }
  change (translate_query_string (build m) (Object [(str "query", JString nbsp_text)]) paths = Err Panicked).
  unfold translate_query_string. change (get _ (str "query")) with (Some (JString nbsp_text)). cbn [as_str or_bad ok_or mbind option_bind result_bind].
  by rewrite E.
Qed.
End literals.

(** ** The meaning of a [bool] *)

(** What the index library's conjunctions and disjunctions match: every [Must],
    no [MustNot], and one [Should] when there is no [Must]. *)
Class BoolLaws {D : Type} (matches : Query -> D -> bool) := {
  all_matches d : matches AllQuery d = true;
  bool_matches cl d : matches (BooleanQuery cl) d =
    forallb (fun c => match c.1 with Must => matches c.2 d | MustNot => negb (matches c.2 d) | Should => true end) cl
    && existsb (fun c => match c.1 with Must => true | Should => matches c.2 d | MustNot => false end) cl;
}.

(** The items of a section. *)
Definition section (obj : list (bytes * json)) (name : string) : list json :=
  match assoc (str name) obj with Some v => items_of v | None => [] end.

Section bool.
Context `{T : TimeCrate} `{C : TextCodec} `{X : TextTables} `{I : IndexCrate} (now : Z).
Context {D : Type} (matches : Query -> D -> bool) `{L : !BoolLaws matches}.
Context (s : MappedSchema) (paths : QueryResult (list bytes)).

(** An item matches a document. *)
Definition item_matches (d : D) (q : json) : bool :=
  match translate_query now s paths q with Ok Q => matches Q d | Err _ => false end.
(** The reference: a document matches every item of [must] and [filter], none
    of [must_not], and one of [should] when it is alone. *)
Definition reference_bool (obj : list (bytes * json)) (d : D) : bool :=
  let must := section obj "must" ++ section obj "filter" in
  let should := section obj "should" in
  forallb (item_matches d) must && forallb (fun q => negb (item_matches d q)) (section obj "must_not")
  && (negb (bool_decide (must = [])) || bool_decide (should = []) || existsb (item_matches d) should).

Lemma collect_matches d items qs : collect (translate_query now s paths <$> items) = Ok qs ->
  length qs = length items /\ (fun q => matches q d) <$> qs = item_matches d <$> items.
Proof.
  revert qs. induction items as [|q items IH]; intros qs; [by intros [= <-]|]. cbn [fmap list_fmap collect].
  unfold item_matches at 1. destruct (translate_query now s paths q) as [Q|]; [|done]. cbn [mbind result_bind].
  destruct (collect _) as [rest|]; [|done]. cbn [mbind result_bind]. intros [= <-]. destruct (IH rest eq_refl) as [IH1 IH2].
  split; [cbn; by rewrite IH1|]. cbn [fmap list_fmap]. by f_equal.
Qed.
Lemma section_matches d obj name occur cl : section_clauses (translated now s paths obj) name occur = Ok cl ->
  exists qs, cl = pair occur <$> qs /\ length qs = length (section obj name) /\ (fun q => matches q d) <$> qs = item_matches d <$> section obj name.
Proof.
  unfold section_clauses, section. rewrite bt_find_translated. destruct (assoc (str name) obj) as [v|]; cbn [fmap option_fmap option_map].
  - destruct (collect _) as [qs|] eqn:E; [|done]. intros [= <-]. exists qs. split; [done|]. by apply collect_matches.
  - intros [= <-]. by exists [].
Qed.

Lemma forallb_fmap {A B} (f : A -> B) p l : forallb p (f <$> l) = forallb (fun x => p (f x)) l.
Proof. induction l as [|x l IH]; [done|]. cbn. by rewrite IH. Qed.
Lemma existsb_fmap {A B} (f : A -> B) p l : existsb p (f <$> l) = existsb (fun x => p (f x)) l.
Proof. induction l as [|x l IH]; [done|]. cbn. by rewrite IH. Qed.
Lemma forallb_true {A} (l : list A) : forallb (fun _ => true) l = true.
Proof. by induction l. Qed.
Lemma existsb_const {A} b (l : list A) : existsb (fun _ => b) l = b && negb (length l =? 0)%nat.
Proof. destruct b; [by destruct l|by induction l]. Qed.
Lemma forallb_const_false {A} (l : list A) : forallb (fun _ => false) l = (length l =? 0)%nat.
Proof. by destruct l. Qed.
Lemma nil_length {A} (l : list A) : bool_decide (l = []) = (length l =? 0)%nat.
Proof. by destruct l. Qed.

(** A list with the same answers. *)
Lemma forallb_answers {A B} (f : A -> bool) (g : B -> bool) h l k : f <$> l = g <$> k -> forallb (fun x => h (f x)) l = forallb (fun x => h (g x)) k.
Proof.
  revert k. induction l as [|x l IH]; intros [|y k]; try done. cbn. intros [= E1 E2]. by rewrite E1, (IH k E2).
Qed.
Lemma existsb_answers {A B} (f : A -> bool) (g : B -> bool) l k : f <$> l = g <$> k -> existsb f l = existsb g k.
Proof. revert k. induction l as [|x l IH]; intros [|y k]; try done. cbn. intros [= E1 E2]. by rewrite E1, (IH k E2). Qed.

(** [C30] A translated [bool] matches what its sections say, items in arrays or
    alone: all of [must] and [filter], none of [must_not], one of [should] when
    there is neither; without any item it matches every document. *)
Theorem bool_reference obj Q d :
  translate_query now s paths (Object [(str "bool", Object obj)]) = Ok Q -> matches Q d = reference_bool obj d.
Proof.
  intros Ht. assert ((clauses ← bool_clauses (translated now s paths obj); Ok (bool_query clauses)) = Ok Q) as Ht' by exact Ht. clear Ht.
  unfold bool_clauses in Ht'. set (secs := translated now s paths obj) in Ht'.
  destruct (section_clauses secs "must" Must) as [must|] eqn:Em; [|done].
  destruct (section_clauses secs "filter" Must) as [filt|] eqn:Ef; [|done].
  destruct (section_clauses secs "should" Should) as [should|] eqn:Es; [|done].
  destruct (section_clauses secs "must_not" MustNot) as [must_not|] eqn:En; [|done]. injection Ht' as <-.
  apply (section_matches d) in Em as (qm & -> & Lm & Am). apply (section_matches d) in Ef as (qf & -> & Lf & Af).
  apply (section_matches d) in Es as (qs & -> & Ls & As). apply (section_matches d) in En as (qn & -> & Ln & An).
  set (cl := _ ++ _). transitivity (matches (BooleanQuery (if forallb (fun c => bool_decide (c.1 = MustNot)) cl then cl ++ [(Must, AllQuery)] else cl)) d).
  { unfold bool_query. destruct cl; [|done]. rewrite bool_matches. cbn. by rewrite all_matches. }
  unfold reference_bool. rewrite !nil_length, length_app, <- Lm, <- Lf, <- Ls, forallb_app.
  rewrite <- (forallb_answers _ _ id _ _ Am : forallb (fun q => matches q d) qm = forallb (item_matches d) _), <- (forallb_answers _ _ id _ _ Af : forallb (fun q => matches q d) qf = forallb (item_matches d) _), <- (forallb_answers _ _ negb _ _ An), <- (existsb_answers _ _ _ _ As).
  assert (forallb (fun c : Occur * Query => bool_decide (c.1 = MustNot)) cl = (length qm =? 0)%nat && (length qf =? 0)%nat && (length qs =? 0)%nat) as ->.
  { unfold cl. rewrite !forallb_app, !forallb_fmap. cbn [fst]. rewrite !forallb_const_false, forallb_true, andb_true_r. apply andb_assoc. }
  assert (forall cl', matches (BooleanQuery (cl ++ cl')) d = (forallb (fun q => matches q d) qm && forallb (fun q => matches q d) qf
      && forallb (fun q => negb (matches q d)) qn && forallb (fun c => match c.1 with Must => matches c.2 d | MustNot => negb (matches c.2 d) | Should => true end) cl')
    && (negb (length qm =? 0)%nat || negb (length qf =? 0)%nat || existsb (fun q => matches q d) qs
        || existsb (fun c => match c.1 with Must => true | Should => matches c.2 d | MustNot => false end) cl')) as H.
  { intros cl'. rewrite bool_matches. unfold cl. rewrite !forallb_app, !existsb_app, !forallb_fmap, !existsb_fmap. cbn [fst snd].
    rewrite !forallb_true, !existsb_const. cbn [andb orb]. rewrite !andb_assoc, !orb_assoc, !orb_false_r. done. }
  clearbody cl.
  destruct (length qm =? 0)%nat eqn:E1, (length qf =? 0)%nat eqn:E2, (length qs =? 0)%nat eqn:E3; cbn [andb];
    (rewrite H || (rewrite <- (app_nil_r cl), H)); cbn [forallb existsb fst snd]; rewrite ?all_matches, ?orb_true_r, ?orb_false_r, ?andb_true_r.
  all: apply Nat.eqb_eq in E1 || apply Nat.eqb_neq in E1; apply Nat.eqb_eq in E2 || apply Nat.eqb_neq in E2.
  all: try (assert (length qm + length qf =? 0 = true)%nat as -> by (apply Nat.eqb_eq; lia)).
  all: try (assert (length qm + length qf =? 0 = false)%nat as -> by (apply Nat.eqb_neq; lia)).
  all: cbn [negb orb andb]; rewrite ?andb_true_r, ?orb_true_r; try done.
Qed.
End bool.

(** ** What a document's own values find *)

(** The literals a term query and a document read alike: no text, which a term
    query does not tokenize; integers a float holds; strings for dates, or
    integers. *)
Definition literal (t : FieldType) (v : json) : Prop :=
  match t with
  | FText => False
  | FLong => exists n, v = json_i64 n /\ Z.abs n <= 2 ^ 53
  | FDate => match v with JString _ => True | _ => is_Some (as_i64 v) end
  | _ => True
  end.

Section found.
Context `{T : TimeCrate} `{C : TextCodec} `{X : TextTables} `{I : IndexCrate} (now : Z).

Lemma now_is_no_date : parse_date_string (str "now") <> Panics /\ forall ms, parse_date_string (str "now") <> Got ms.
Proof. split; [|intros ms]; intros H; vm_compute in H; done. Qed.

(** A mapped field's literal is indexed as the term it is queried by. *)
Lemma typed_term_indexed s path mapped v p out : fields s !! path = Some mapped -> is_alias path = false -> literal (mf_ty mapped) v ->
  parse_for mapped v = Ok (Some p) -> add_parsed out path mapped p <> out ->
  exists x, term_query_for now s path v = Ok (TermQuery (TValue path x)) /\ add_parsed out path mapped p = out ++ [(path, OVal x)].
Proof.
  intros Hf Ha Hl Hp Hadd. unfold term_query_for, resolve, field_normalizer. rewrite Ha, Hf. cbn [mbind option_bind].
  destruct mapped as [ty norm ia im]. cbn [mf_ty mf_normalizer] in *.
  assert (forall q, p = IStr q -> add_parsed out path (mkField ty norm ia im) p = out ++ [(path, OVal (IStr (normalize norm q)))]) as Hs.
  { intros q ->. unfold add_parsed in Hadd |- *. cbn [mf_ignore_above mf_normalizer] in *.
    destruct (match ia with Some _ => _ | None => _ end); [done|]. done. }
  unfold parse_for in Hp. destruct v as [|b|n|t|l|o]; [done|..]; cbn [is_null mf_ty] in Hp; unfold typed_term; destruct ty; try done.
  - injection Hp as <-. eexists. split; [reflexivity|]. by apply Hs.
  - injection Hp as <-. eexists. split; [reflexivity|done].
  - injection Hp as <-. eexists. split; [reflexivity|]. by apply Hs.
  - destruct Hl as (m & Em & Hm). destruct (f64_of_Z_exact m Hm) as (Hfin & Hw & Hv).
    assert (number_f64 n = f64_of_Z m) as En by (unfold json_i64 in Em; injection Em as ->; by destruct (m <? 0)).
    assert (as_i64 (Number n) = Some m) as Ei.
    { rewrite Em. unfold json_i64. destruct (Z.ltb_spec m 0); cbn [as_i64]; [done|].
      assert (m <=? I64_MAX = true) as -> by (apply Z.leb_le; unfold I64_MAX; lia). done. }
    rewrite Ei. cbn [or_str or_bad ok_or mbind result_bind]. cbn [parse_number] in Hp. rewrite En, Hfin, Hv in Hp.
    destruct (negb _ || _); [|done]. injection Hp as <-. by eexists.
  - cbn [parse_number] in Hp. destruct (is_finite (number_f64 n)); [|done]. injection Hp as <-. by eexists.
  - destruct (parse_timestamp (Number n)) as [ms| |] eqn:E; [|done..]. injection Hp as <-.
    cbn [literal] in Hl. destruct Hl as [i Hi]. unfold parse_timestamp in E. rewrite Hi in E. injection E as <-.
    cbn [parse_time_millis]. rewrite Hi. by eexists.
  - injection Hp as <-. eexists. split; [reflexivity|]. by apply Hs.
  - by destruct Hl as (m & [=] & _).
  - cbn [parse_number] in Hp. destruct (decide (t = [])); [done|]. destruct (parse_f64 t) as [f|] eqn:E; [|done].
    destruct (is_finite f); [|done]. injection Hp as <-. unfold or_str. cbn [as_f64 as_str mbind option_bind]. rewrite E. by eexists.
  - destruct (decide (t = [])); [done|]. unfold or_str, parse_bool. cbn [as_bool as_str mbind option_bind].
    destruct (decide (t = str "true")); [injection Hp as <-; by eexists|].
    destruct (decide (t = str "false")); [injection Hp as <-; by eexists|done].
  - cbn [parse_timestamp] in Hp. destruct (parse_date_string t) as [ms| |] eqn:E; [|done..]. injection Hp as <-.
    cbn [parse_time_millis]. destruct (decide (t = str "now")) as [->|]; [by destruct now_is_no_date as [_ H]; apply H in E|].
    rewrite E. by eexists.
  - cbn [as_str or_bad ok_or mbind result_bind]. destruct (parse_ip t) as [ip|]; [|done]. injection Hp as <-. by eexists.
Qed.

(** What a conversion adds, it keeps. *)
Lemma add_parsed_mono out path mapped p : out ⊆ add_parsed out path mapped p.
Proof. unfold add_parsed. destruct p; try set_solver. destruct (match mf_ignore_above mapped with Some _ => _ | None => _ end); set_solver. Qed.
Lemma index_items_mono path mapped items : forall out dropped out' dropped',
  index_items path mapped items out dropped = Ok (out', dropped') -> out ⊆ out'.
Proof.
  induction items as [|item items IH]; intros out dropped out' dropped'; cbn [index_items]; [by intros [= <- _]|].
  destruct (parse_for mapped item) as [[p|]|[]]; [|apply IH..|done]. intros H%IH. etrans; [apply add_parsed_mono|exact H].
Qed.
Lemma index_mapped_mono s value d : forall path out dropped out' dropped',
  index_mapped s path d value out dropped = Ok (out', dropped') -> out ⊆ out'.
Proof.
  induction d as [f IH] using def_nested_ind. intros path out dropped out' dropped'. destruct f as [t dc n i b m subs].
  cbn [index_mapped fd_fields] in *. set (first := match fields s !! path with Some mapped => index_items _ _ _ _ _ | None => _ end).
  destruct first as [[out1 dropped1]|e] eqn:E; [|done]. cbn [mbind result_bind]. intros H.
  assert (out ⊆ out1) as H1 by (subst first; destruct (fields s !! path); [by eapply index_items_mono|by injection E as <- _]).
  etrans; [exact H1|]. clear E first H1 out dropped. revert out1 dropped1 H.
  induction IH as [|[name sub] subs Hs _ IHs]; intros out1 dropped1; [by intros [= <- _]|].
  destruct (index_mapped s (dotted path name) sub value out1 dropped1) as [[out2 dropped2]|] eqn:E; [|done].
  cbn [mbind result_bind]. intros H. etrans; [by eapply Hs|by eapply IHs].
Qed.
Lemma index_members_mono s obj : forall out dropped dynamic out' dropped' dynamic',
  index_members s obj out dropped dynamic = Ok (out', dropped', dynamic') -> out ⊆ out'.
Proof.
  induction obj as [|[key value] obj IH]; intros out dropped dynamic out' dropped' dynamic'; cbn [index_members]; [by intros [= <- _ _]|].
  destruct (bt_get key _) as [d|]; [|apply IH]. destruct (index_mapped s key d value out dropped) as [[out1 dropped1]|] eqn:E; [|done].
  cbn [mbind result_bind]. intros H%IH. etrans; [by eapply index_mapped_mono|exact H].
Qed.

Lemma index_items_adds path mapped item p x items : forall out dropped out' dropped',
  item ∈ items -> parse_for mapped item = Ok (Some p) -> (forall out, add_parsed out path mapped p = out ++ [(path, OVal x)]) ->
  index_items path mapped items out dropped = Ok (out', dropped') -> (path, OVal x) ∈ out'.
Proof.
  intros out dropped out' dropped' Hin Hp Hx. revert out dropped. induction items as [|i items IH]; intros out dropped; [by apply elem_of_nil in Hin|].
  apply elem_of_cons in Hin as [<-|Hin]; cbn [index_items].
  - rewrite Hp, Hx. intros H%index_items_mono. set_solver.
  - destruct (parse_for mapped i) as [[q|]|[]]; [|by apply IH..|done]. by apply IH.
Qed.
Lemma index_members_adds s path d mapped item p x obj value : forall out dropped dynamic out' dropped' dynamic',
  (path, value) ∈ obj -> bt_get path (properties (mapping s)) = Some d -> fields s !! path = Some mapped ->
  item ∈ flatten value -> parse_for mapped item = Ok (Some p) -> (forall out, add_parsed out path mapped p = out ++ [(path, OVal x)]) ->
  index_members s obj out dropped dynamic = Ok (out', dropped', dynamic') -> (path, OVal x) ∈ out'.
Proof.
  intros out dropped dynamic out' dropped' dynamic' Hv Hd Hf Hi Hp Hx. revert out dropped dynamic.
  induction obj as [|[key v] obj IH]; intros out dropped dynamic; [by apply elem_of_nil in Hv|].
  apply elem_of_cons in Hv as [[= <- <-]|Hv]; cbn [index_members].
  - rewrite Hd. destruct (index_mapped s path d value out dropped) as [[out1 dropped1]|] eqn:E; [|done]. cbn [mbind result_bind].
    intros H%index_members_mono. apply H. clear H IH. destruct d as [t dc n i b m subs]. cbn [index_mapped fd_fields] in E. rewrite Hf in E.
    destruct (index_items path mapped (flatten value) out dropped) as [[out2 dropped2]|] eqn:E2; [|done]. cbn [mbind result_bind] in E.
    assert ((path, OVal x) ∈ out2) as H2 by (by eapply index_items_adds). clear E2 Hd. revert out2 dropped2 H2 E.
    induction subs as [|[name sub] subs IH]; intros out2 dropped2 H2; [by intros [= <- _]|].
    destruct (index_mapped s (dotted path name) sub value out2 dropped2) as [[out3 dropped3]|] eqn:E3; [|done]. cbn [mbind result_bind].
    apply IH. by eapply index_mapped_mono.
  - destruct (bt_get key _) as [d'|]; [|by apply IH]. destruct (index_mapped s key d' v out dropped) as [[out1 dropped1]|]; [|done].
    cbn [mbind result_bind]. by apply IH.
Qed.


(** Beyond 2^53 a long is not found by its own value: the document is indexed
    under a neighbour, the query asks for the value. *)
Lemma long_term_misses field : parse_for long_field (json_i64 (2 ^ 53 + 1)) = Ok (Some (II64 (2 ^ 53))) /\
  typed_term now field FLong None (json_i64 (2 ^ 53 + 1)) = Ok (TValue field (II64 (2 ^ 53 + 1))).
Proof. split; vm_compute; reflexivity. Qed.
End found.

(** ** Aggregations *)

(** A bucket's key, which the index library gives as a float, is reported as
    the integer it is. *)
Lemma date_key_exact n : Z.abs n <= 2 ^ 53 -> exact_key (Number (Float (f64_of_Z n))) = json_i64 n.
Proof.
  intros Hn. destruct (f64_of_Z_exact n Hn) as (Hf & Hw & Hv). unfold exact_key, float_as_exact_i64. rewrite Hw, Hv.
  assert (abs_le (f64_of_Z n) 9007199254740992 = true) as ->; [|done].
  pose proof (f64_round_le (Z.abs n) ltac:(lia)) as Hr. assert (f64_of_Z (2 ^ 53) < 2 ^ 63) by done.
  unfold abs_le, f64_of_Z at 1. destruct (f64_abs_sign (n <? 0) (f64_round (Z.abs n) 0)) as [-> _]; [lia|].
  apply Z.leb_le. change 9007199254740992 with (2 ^ 53). lia.
Qed.

(** The buckets of a date histogram without sub-aggregations get integer keys
    and nothing else of its result changes. *)
Lemma date_histogram_fixed name params items rest :
  fix_date_histogram_keys (Object [(name, Object [(str "date_histogram", params)])])
    (Object [(name, Object ((str "buckets", Array items) :: rest))]) =
  Object [(name, update_member (str "buckets") (fun _ => Array (update_member (str "key") exact_key <$> items))
                   (Object ((str "buckets", Array items) :: rest)))].
Proof.
  cbn [fix_date_histogram_keys map foldl fst snd bt_find]. rewrite !decide_False by discriminate.
  cbn [first_of update_member fmap list_fmap fst snd]. rewrite decide_True by done.
  assert (has_key (str "date_histogram") [(str "date_histogram", params)] = true) as -> by reflexivity. done.
Qed.

(** An aggregation may itself be called [field]: its siblings then lose what
    the parameters of an aggregation lose. *)
Lemma agg_named_format_dropped s v :
  rewrite_agg_fields s (Object [(str "field", Object []); (str "format", v)]) = Object [(str "field", Object [])].
Proof. reflexivity. Qed.

(** ** A concrete split *)

Definition plain_index : IndexCrate :=
  {| tokenize := fun _ _ => Some []; json_path_prefix := fun f p => f ++ p; regex_ok := fun _ => true; parse_f32 := fun _ => None |}.

(** Documents that are their timestamp. *)
Definition in_lower (b : Bound) (t : Z) : bool :=
  match b with Included (TValue f (IDate ms)) => ms <=? t | Excluded (TValue f (IDate ms)) => ms <? t | Unbounded => true | _ => false end.
Definition in_upper (b : Bound) (t : Z) : bool :=
  match b with Included (TValue f (IDate ms)) => t <=? ms | Excluded (TValue f (IDate ms)) => t <? ms | Unbounded => true | _ => false end.
Fixpoint on_time (q : Query) (t : Z) : bool :=
  match q with
  | AllQuery => true
  | RangeQuery lower upper => in_lower lower t && in_upper upper t
  | BooleanQuery cl =>
      forallb (fun c => match c.1 with Must => on_time c.2 t | MustNot => negb (on_time c.2 t) | Should => true end) cl
      && existsb (fun c => match c.1 with Must => true | Should => on_time c.2 t | MustNot => false end) cl
  | _ => false
  end.
#[export] Instance on_time_bool : BoolLaws on_time.
Proof. by split. Qed.
#[export] Instance on_time_laws : MatchLaws on_time id.
Proof.
  split.
  - intros cl d q H Hq. cbn [on_time] in H. apply andb_true_iff in H as [H _]. rewrite forallb_forall in H.
    apply (H (Must, q)). by apply list_elem_of_In.
  - intros lo hi d [H1 H2]%andb_true_iff. unfold id. split.
    + destruct lo as [|[f []|]|[f []|]]; try done; intros _; [by apply Z.leb_le|by apply Z.ltb_lt].
    + destruct hi as [|[f []|]|[f []|]]; try done; intros _; [by apply Z.leb_le|by apply Z.ltb_lt].
Qed.

Definition demo_range : json :=
  Object [(str "range", Object [(str "@timestamp", Object [(str "gte", JString (str "2026-09-16T00:00:00Z")); (str "lt", JString (str "now"))])])].
Definition demo_bool : list (bytes * json) :=
  [(str "filter", Array [demo_range]); (str "must_not", Object [(str "match_all", Object [])]);
   (str "should", Array [Object [(str "match_all", Object [])]])].
Definition demo_query : json := Object [(str "bool", Object [(str "filter", demo_range)])].
Definition demo_now : Z := 1789600000000.

Lemma pruning_sound_witness :
  let q := @translate_query gregorian plain_codec plain_tables plain_index demo_now demo_schema (Ok []) demo_query in
  exists Q, q = Ok Q /\ on_time Q 1789570000000 = true /\
    (forall ms, Some 1789516800000 = Some ms -> ms <= 1789570000000) /\ (forall ms, Some demo_now = Some ms -> 1789570000000 <= ms).
Proof.
  intros q. set (Q := match q with Ok Q => Q | Err _ => AllQuery end).
  assert (q = Ok Q) as E by (vm_compute; reflexivity). assert (on_time Q 1789570000000 = true) as Em by (vm_compute; reflexivity).
  exists Q. split; [exact E|]. split; [exact Em|].
  apply (@pruning_sound gregorian plain_codec plain_tables plain_index demo_now Z on_time id _ demo_schema (Ok []) demo_query Q (Some 1789516800000) (Some demo_now) 1789570000000);
    [vm_compute; reflexivity|exact E|vm_compute; reflexivity|exact Em].
Defined.

Lemma bool_reference_witness :
  let q := @translate_query gregorian plain_codec plain_tables plain_index demo_now demo_schema (Ok []) (Object [(str "bool", Object demo_bool)]) in
  exists Q, q = Ok Q /\ on_time Q 1789570000000 = false.
Proof.
  intros q. set (Q := match q with Ok Q => Q | Err _ => AllQuery end). assert (q = Ok Q) as E by (vm_compute; reflexivity).
  exists Q. split; [exact E|].
  rewrite (@bool_reference gregorian plain_codec plain_tables plain_index demo_now Z on_time _ demo_schema (Ok []) demo_bool Q 1789570000000 E).
  vm_compute. reflexivity.
Defined.

Definition aged_doc : list (bytes * json) := [(str "age", Array [json_i64 41; JString (str "old")])].
