(* ===== verification/Sort.v ===== *)
(** * Field sorting and [search_after] (crates/rsearch-search/src/sort.rs)

    The [sort] clauses of a request, their resolution against a stream's
    mapping, cursors, the comparison of hits, and the collector that keeps the
    first hits of a split: per segment a bounded heap over cheap keys (term
    ordinals for strings), then materialized values for the merges.  The
    index's columns and term dictionaries are the library's: [Segment] gives
    their contents, [StrColumnLaws] what is used of a dictionary. *)

From Stdlib Require Import ZArith Lia.
From Stdlib Require Import Strings.Byte.
From stdpp Require Import base gmap sets list strings sorting.
From S2P Require Import Prelude Order Json Float64 Dates Net Mapping.

Local Open Scope Z_scope.

Definition TIMESTAMP_ALIASES : list bytes := [str "@timestamp"; str "timestamp"; str "_timestamp"].

(** ** Requested clauses *)

Inductive SortType := Keyword | Long | Double | Boolean | Date | Ip.
#[export] Instance SortType_eq_dec : EqDecision SortType.
Proof. solve_decision. Defined.

Definition parse_unmapped (name : bytes) : option SortType :=
  if decide (name = str "keyword") then Some Keyword
  else if decide (name ∈ [str "long"; str "integer"; str "short"; str "byte"]) then Some Long
  else if decide (name ∈ [str "double"; str "float"; str "half_float"]) then Some Double
  else if decide (name = str "boolean") then Some Boolean
  else if decide (name = str "date") then Some Date
  else if decide (name = str "ip") then Some Ip
  else None.

Inductive SortMode := Min | Max.

Record SortField := mkSortField {
  field : bytes;
  desc : bool;
  missing : option json;
  unmapped_type : option bytes;
  mode : option SortMode;
}.
Definition set_desc (b : bool) (f : SortField) : SortField :=
  mkSortField (field f) b (missing f) (unmapped_type f) (mode f).
Definition set_missing (v : json) (f : SortField) : SortField :=
  mkSortField (field f) (desc f) (Some v) (unmapped_type f) (mode f).
Definition set_unmapped (s : bytes) (f : SortField) : SortField :=
  mkSortField (field f) (desc f) (missing f) (Some s) (mode f).
Definition set_mode (m : SortMode) (f : SortField) : SortField :=
  mkSortField (field f) (desc f) (missing f) (unmapped_type f) (Some m).

(** Why a request is refused (a 400, with the clause at fault), or that
    reading one of its values panics. *)
Inductive Stop :=
| ManyFields (n : nat)
| OrderNotString (name : bytes)
| BadOrder (name order : bytes)
| BadMode (name other : bytes)
| BadOption (name other : bytes)
| BadSpec (name : bytes) (spec : json)
| BadEntry (entry : json)
| TextField (name : bytes)
| BadUnmapped (name unmapped : bytes)
| NoMapping (name : bytes)
| BadMissing (name : bytes) (value : json) (ty : SortType)
| CursorLength (given want : nat)
| BadCursorValue (name : bytes) (value : json) (ty : SortType)
| BadTiebreak (what : bytes)
| Panicked.
Notation SearchResult := (result Stop).

Definition is_timestamp (f : SortField) : bool := bool_decide (field f ∈ TIMESTAMP_ALIASES).

Definition parse_order (name order : bytes) : SearchResult bool :=
  let o := to_ascii_lowercase order in
  if decide (o = str "asc") then Ok false
  else if decide (o = str "desc") then Ok true
  else Err (BadOrder name o).

Definition named (name : bytes) : option SortField :=
  if decide (name = str "_score" \/ name = str "_doc") then None
  else Some (mkSortField name false None None None).

(** The options of one clause, in key order. *)
Fixpoint parse_options (name : bytes) (opts : list (bytes * json)) (f : SortField) : SearchResult SortField :=
  match opts with
  | [] => Ok f
  | (key, value) :: opts =>
      f ← (if decide (key = str "order") then
             match as_str value with
             | Some order => d ← parse_order name order; Ok (set_desc d f)
             | None => Err (OrderNotString name)
             end
           else if decide (key = str "missing") then Ok (set_missing value f)
           else if decide (key = str "unmapped_type") then Ok (set_unmapped (default [] (as_str value)) f)
           else if decide (key = str "mode") then
             let m := default [] (as_str value) in
             if decide (m = str "min") then Ok (set_mode Min f)
             else if decide (m = str "max") then Ok (set_mode Max f)
             else Err (BadMode name m)
           else Err (BadOption name key));
      parse_options name opts f
  end.

(** [SortField::parse]. *)
Definition parse_field (entry : json) : SearchResult (option SortField) :=
  match entry with
  | JString name => Ok (named name)
  | Object o =>
      if (1 <? length o)%nat then Err (ManyFields (length o))
      else match o with
      | (name, spec) :: _ =>
          match named name with
          | None => Ok None
          | Some f =>
              match spec with
              | JString order => d ← parse_order name order; Ok (Some (set_desc d f))
              | Object opts => f ← parse_options name opts f; Ok (Some f)
              | other => Err (BadSpec name other)
              end
          end
      | [] => Ok None
      end
  | other => Err (BadEntry other)
  end.

Inductive SortSpec := Timestamp (d : bool) | Fields (fs : list SortField).

Fixpoint parse_fields (entries : list json) : SearchResult (list SortField) :=
  match entries with
  | [] => Ok []
  | e :: es => f ← parse_field e; fs ← parse_fields es; Ok (match f with Some f => f :: fs | None => fs end)
  end.

(** [SortSpec::parse]. *)
Definition parse_sort (sort : option json) : SearchResult SortSpec :=
  match sort with
  | None => Ok (Timestamp true)
  | Some sort =>
      let entries := match sort with Array items => items | single => [single] end in
      fs ← parse_fields entries;
      if forallb (fun f => is_timestamp f && bool_decide (missing f = None)) fs
      then Ok (Timestamp (default true (desc <$> list.last fs)))
      else Ok (Fields fs)
  end.

(** ** Resolved clauses and values *)

Inductive SortTarget :=
| TTimestamp | TSeq | TMapped (name : bytes) | TDynamicKeyword (path : bytes) | TDynamicPath (path : bytes) | TUnmapped.

Inductive SortValue :=
| Missing | Str (s : bytes) | I64 (n : Z) | F64 (bits : Z) | VBool (b : bool) | VIp (ip : Z).
#[export] Instance SortValue_eq_dec : EqDecision SortValue.
Proof. solve_decision. Defined.

Record ResolvedSort := mkResolved {
  rs_field : bytes;
  target : SortTarget;
  ty : SortType;
  rs_desc : bool;
  use_max : bool;
  null_is_max : bool;
  substitute : option SortValue;
}.

(** Direction and missing placement. *)
Record FieldOrder := mkOrder { fo_desc : bool; fo_null_is_max : bool }.
Definition order (r : ResolvedSort) : FieldOrder := mkOrder (rs_desc r) (null_is_max r).

Definition rank (v : SortValue) : Z :=
  match v with Missing => 0 | VBool _ => 1 | I64 _ | F64 _ => 2 | Str _ => 3 | VIp _ => 4 end.
Definition total_cmp (a b : Z) : comparison := Z.compare (total_key a) (total_key b).

Definition cmp_natural (null_max : bool) (a b : SortValue) : comparison :=
  match a, b with
  | Missing, Missing => Eq
  | Missing, _ => if null_max then Gt else Lt
  | _, Missing => if null_max then Lt else Gt
  | Str a, Str b => bytes_compare a b
  | I64 a, I64 b => Z.compare a b
  | F64 a, F64 b => total_cmp a b
  | I64 a, F64 b => total_cmp (f64_of_Z a) b
  | F64 a, I64 b => total_cmp a (f64_of_Z b)
  | VBool a, VBool b => bool_cmp a b
  | VIp a, VIp b => Z.compare a b
  | a, b => Z.compare (rank a) (rank b)
  end.

(** OpenSearch's sentinels stand for a missing value. *)
Definition to_json (v : SortValue) (t : SortType) (null_max : bool) : json :=
  match v with
  | Missing =>
      match t with
      | Keyword | Ip => Null
      | Long | Date => json_i64 (if null_max then I64_MAX else I64_MIN)
      | Double => JString (str (if null_max then "Infinity" else "-Infinity"))
      | Boolean => json_i64 (if null_max then 2 ^ 31 - 1 else - 2 ^ 31)
      end
  | Str s => JString s
  | I64 n => json_i64 n
  | F64 f => json_f64 f
  | VBool b => json_i64 (if b then 1 else 0)
  | VIp ip => JString (format_ip ip)
  end.

(** A hit's place in the result: values, timestamp, [_seq]. *)
Definition HitKey : Type := list SortValue * Z * Z.

Fixpoint cmp_values (orders : list FieldOrder) (a b : list SortValue) : comparison :=
  match orders with
  | [] => Eq
  | o :: orders =>
      then_cmp (reverse_if (fo_desc o) (cmp_natural (fo_null_is_max o) (default Missing (head a)) (default Missing (head b))))
               (cmp_values orders (tail a) (tail b))
  end.
Definition cmp_hits (orders : list FieldOrder) (a b : HitKey) : comparison :=
  then_cmp (cmp_values orders a.1.1 b.1.1) (then_cmp (Z.compare b.1.2 a.1.2) (Z.compare b.2 a.2)).

(** ** Resolution and cursors *)

(** Of an [Option] that may have panicked on the way: [stop] when there is none. *)
Definition or_stop {A} (p : parsed A) (stop : Stop) : SearchResult A :=
  match p with Got a => Ok a | Refused => Err stop | Panics => Err Panicked end.
Definition or_else {A} (o : option A) (p : parsed A) : parsed A := match o with Some a => Got a | None => p end.

Definition MAX_EXACT : Z := 9007199254740992.
(** An integer, or a whole float up to 2^53. *)
Definition whole (v : json) : option Z :=
  match as_i64 v with
  | Some n => Some n
  | None => f ← as_f64 v; if is_whole f && abs_le f MAX_EXACT then Some (f64_as_i64 f) else None
  end.
Definition str_i64 (v : json) : option Z := s ← as_str v; parse_i64 s.
Definition sentinel (n : Z) : SortValue := if (n =? I64_MAX) || (n =? I64_MIN) then Missing else I64 n.

Section resolve.
Context `{T : TimeCrate} `{C : TextCodec}.

Definition parse_sort_value (now : Z) (value : json) (t : SortType) : parsed SortValue :=
  if is_null value then Got Missing
  else match t with
  | Keyword => Got (match value with JString s => Str s | other => Str (json_to_string other) end)
  | Long => n ← or_else (whole value) (opt (str_i64 value)); Got (sentinel n)
  | Date => n ← or_else (whole value) (or_else (str_i64 value) (parse_time_millis now value)); Got (sentinel n)
  | Double =>
      match value with
      | Number n => Got (F64 (number_f64 n))
      | JString s =>
          if decide (s = str "Infinity" \/ s = str "-Infinity") then Got Missing
          else f ← opt (parse_f64 s); Got (F64 f)
      | _ => Refused
      end
  | Boolean =>
      match value with
      | Bool b => Got (VBool b)
      | Number n =>
          i ← opt (as_i64 (Number n));
          if i =? 0 then Got (VBool false)
          else if i =? 1 then Got (VBool true)
          else if (i =? 2 ^ 31 - 1) || (i =? - 2 ^ 31) then Got Missing
          else Refused
      | JString s => if decide (s = str "true") then Got (VBool true)
                     else if decide (s = str "false") then Got (VBool false) else Refused
      | _ => Refused
      end
  | Ip => s ← opt (as_str value); ip ← opt (parse_ip s); Got (VIp (mapped ip))
  end.

Definition mapped_type (name : bytes) (t : FieldType) : SearchResult SortType :=
  match t with
  | FKeyword => Ok Keyword | FLong => Ok Long | FDouble => Ok Double | FBoolean => Ok Boolean
  | FDate => Ok Date | FIp => Ok Ip | FText => Err (TextField name)
  end.

(** Where a clause's values are and what they are compared as. *)
Definition resolve_target (schema : MappedSchema) (dynamic : gmap bytes (list bytes)) (f : SortField)
    : SearchResult (SortTarget * SortType) :=
  let name := field f in
  let has (types : list bytes) (t : string) := bool_decide (str t ∈ types) in
  if is_timestamp f then Ok (TTimestamp, Date)
  else if decide (name = SEQ_FIELD) then Ok (TSeq, Long)
  else match fields schema !! name with
  | Some m => t ← mapped_type name (mf_ty m); Ok (TMapped name, t)
  | None =>
      match base ← strip_suffix (str ".keyword") name;
            types ← dynamic !! base;
            if bool_decide (base <> []) && bool_decide (fields schema !! base = None) && has types "string"
            then Some base else None with
      | Some base => Ok (TDynamicKeyword base, Keyword)
      | None =>
          match dynamic !! name with
          | Some types =>
              if has types "string" then Err (TextField name)
              else Ok (TDynamicPath name,
                       if has types "double" then Double
                       else if has types "long" then Long
                       else if has types "boolean" then Boolean
                       else Date)
          | None =>
              match unmapped_type f with
              | Some u => match parse_unmapped u with Some t => Ok (TUnmapped, t) | None => Err (BadUnmapped name u) end
              | None => Err (NoMapping name)
              end
          end
      end
  end.

Definition resolve_missing (now : Z) (f : SortField) (t : SortType) : SearchResult (bool * option SortValue) :=
  match missing f with
  | None => Ok (negb (desc f), None)
  | Some v =>
      if decide (v = JString (str "_last")) then Ok (negb (desc f), None)
      else if decide (v = JString (str "_first")) then Ok (desc f, None)
      else s ← or_stop (parse_sort_value now v t) (BadMissing (field f) v t); Ok (negb (desc f), Some s)
  end.

Definition resolve_one (now : Z) (schema : MappedSchema) (dynamic : gmap bytes (list bytes)) (f : SortField)
    : SearchResult ResolvedSort :=
  '(tg, t) ← resolve_target schema dynamic f;
  '(nm, sub) ← resolve_missing now f t;
  Ok (mkResolved (field f) tg t (desc f) (match mode f with Some Max => true | Some Min => false | None => desc f end) nm sub).

Fixpoint resolve_sort (now : Z) (schema : MappedSchema) (dynamic : gmap bytes (list bytes)) (fs : list SortField)
    : SearchResult (list ResolvedSort) :=
  match fs with
  | [] => Ok []
  | f :: fs => r ← resolve_one now schema dynamic f; rs ← resolve_sort now schema dynamic fs; Ok (r :: rs)
  end.

(** *** [FieldCursor] *)

Record FieldCursor := mkCursor { values : list SortValue; timestamp_millis : option Z; cursor_seq : option Z }.

Fixpoint parse_values (now : Z) (vs : list json) (rs : list ResolvedSort) : SearchResult (list SortValue) :=
  match vs, rs with
  | v :: vs, r :: rs =>
      p ← or_stop (parse_sort_value now v (ty r)) (BadCursorValue (rs_field r) v (ty r));
      ps ← parse_values now vs rs;
      Ok (p :: ps)
  | _, _ => Ok []
  end.

Definition tiebreak (now : Z) (v : json) (what : bytes) : SearchResult Z :=
  match parse_sort_value now v Long with
  | Got (I64 n) => Ok n
  | Got Missing => Ok (-1)
  | Panics => Err Panicked
  | _ => Err (BadTiebreak what)
  end.

(** [Option::map(..).transpose()?]. *)
Definition transpose {A B} (o : option A) (k : A -> SearchResult B) : SearchResult (option B) :=
  match o with Some a => b ← k a; Ok (Some b) | None => Ok None end.

Definition parse_cursor (now : Z) (vs : list json) (rs : list ResolvedSort) : SearchResult FieldCursor :=
  let n := length rs in
  if (length vs <? n)%nat || (n + 2 <? length vs)%nat then Err (CursorLength (length vs) n)
  else
    ps ← parse_values now vs rs;
    ts ← transpose (vs !! n) (fun v => tiebreak now v (str "timestamp tiebreak"));
    seq ← transpose (vs !! (n + 1)%nat) (fun v => tiebreak now v (str "_seq tiebreak"));
    Ok (mkCursor ps (clamp_millis <$> ts) seq).

Record FieldSortPlan := mkPlan { plan_fields : list ResolvedSort; cursor : option FieldCursor }.
Definition orders (p : FieldSortPlan) : list FieldOrder := order <$> plan_fields p.

(** [hit_sort_json]: what a hit reports, and the next page's cursor is read from. *)
Fixpoint values_json (rs : list ResolvedSort) (vs : list SortValue) : list json :=
  match rs with
  | [] => []
  | r :: rs => to_json (default Missing (head vs)) (ty r) (null_is_max r) :: values_json rs (tail vs)
  end.
Definition hit_sort_json (p : FieldSortPlan) (vs : list SortValue) (ts seq : Z) : list json :=
  values_json (plan_fields p) vs ++ [json_i64 ts; json_i64 seq].
End resolve.

(** ** Segments *)

(** [TermOrdHit]: a term's ordinal, or the ordinal of the next term. *)
Inductive TermOrdHit := Exact (o : Z) | Next (o : Z).

(** A string column: its dictionary, and each document's term ordinals. *)
Record StrColumn := mkStrColumn {
  term_ord_or_next : bytes -> option TermOrdHit;
  ord_to_str : Z -> option bytes;
  term_ords : Z -> list Z;
}.

(** A column gives each document's values. *)
Notation Column A := (Z -> list A).

Inductive NumericalType := NumI64 | NumF64.
Inductive DynamicColumn := DynI64 (c : Column Z) | DynF64 (c : Column Z) | DynOther.
(** A handle of a dynamic path: numeric or not; opened, it can be coerced. *)
Record DynHandle := mkHandle {
  numerical : bool;
  open_handle : option (NumericalType -> option DynamicColumn);
}.

(** The fast fields of one segment.  Opening a column can fail ([Err]) or find
    none; a date column's values are its milliseconds. *)
Record Segment := mkSegment {
  ff_str : bytes -> result unit (option StrColumn);
  ff_i64 : bytes -> result unit (option (Column Z));
  ff_f64 : bytes -> result unit (option (Column Z));
  ff_bool : bytes -> result unit (option (Column bool));
  ff_date : bytes -> result unit (option (Column Z));
  ff_ip : bytes -> result unit (option (Column Z));
  ff_dynamic : bytes -> list DynHandle;
}.

(** ** Keys of one segment *)

Inductive SegKey := KMissing | KOrd (o : Z) | KI64 (n : Z) | KF64 (bits : Z) | KBool (b : bool) | KIp (ip : Z).

Definition kind (k : SegKey) : Z :=
  match k with KMissing => 0 | KBool _ => 1 | KI64 _ | KF64 _ => 2 | KOrd _ => 3 | KIp _ => 4 end.
Definition cmp_keys (null_max : bool) (a b : SegKey) : comparison :=
  match a, b with
  | KMissing, KMissing => Eq
  | KMissing, _ => if null_max then Gt else Lt
  | _, KMissing => if null_max then Lt else Gt
  | KOrd a, KOrd b => Z.compare a b
  | KI64 a, KI64 b => Z.compare a b
  | KF64 a, KF64 b => total_cmp a b
  | KI64 a, KF64 b => total_cmp (f64_of_Z a) b
  | KF64 a, KI64 b => total_cmp a (f64_of_Z b)
  | KBool a, KBool b => bool_cmp a b
  | KIp a, KIp b => Z.compare a b
  | a, b => Z.compare (kind a) (kind b)
  end.
(** The derived [PartialEq]. *)
Definition key_eqb (a b : SegKey) : bool :=
  match a, b with
  | KMissing, KMissing => true
  | KOrd a, KOrd b | KI64 a, KI64 b | KIp a, KIp b => a =? b
  | KF64 a, KF64 b => f64_eqb a b
  | KBool a, KBool b => Bool.eqb a b
  | _, _ => false
  end.

Inductive SegAccessor :=
| ANone | AStr (c : StrColumn) | AI64 (c : Column Z) | AF64 (c : Column Z) | ABool (c : Column bool)
| ADate (c : Column Z) | AIp (c : Column Z).

(** [Iterator::max_by] keeps the later of equal elements, [min_by] the earlier. *)
Definition pick {A} (use_max : bool) (cmp : A -> A -> comparison) (l : list A) : option A :=
  match l with
  | [] => None
  | x :: l =>
      Some (foldl (fun acc y =>
        match cmp acc y with
        | Gt => if use_max then acc else y
        | Eq => if use_max then y else acc
        | Lt => if use_max then y else acc
        end) x l)
  end.

Definition acc_key (a : SegAccessor) (doc : Z) (m : bool) : SegKey :=
  default KMissing
    match a with
    | ANone => None
    | AStr c => (fun o => KOrd (o * 2 + 1)) <$> pick m Z.compare (term_ords c doc)
    | AI64 c | ADate c => KI64 <$> pick m Z.compare (c doc)
    | AF64 c => KF64 <$> pick m total_cmp (c doc)
    | ABool c => KBool <$> pick m bool_cmp (c doc)
    | AIp c => KIp <$> pick m Z.compare (c doc)
    end.

(** A value's place among a segment's keys: an absent string falls between the
    keys of its neighbours. *)
Definition key_for (a : SegAccessor) (v : SortValue) : SegKey :=
  match v with
  | Missing => KMissing
  | Str s =>
      match a with
      | AStr c =>
          match term_ord_or_next c s with
          | Some (Exact o) => KOrd (o * 2 + 1)
          | Some (Next o) => KOrd (sat_u64 (o * 2))
          | None => KOrd 0
          end
      | _ => KOrd 0
      end
  | I64 n => KI64 n
  | F64 f => KF64 f
  | VBool b => KBool b
  | VIp ip => KIp ip
  end.

Definition materialize (a : SegAccessor) (k : SegKey) : SortValue :=
  match k with
  | KMissing => Missing
  | KOrd o => match a with AStr c => match ord_to_str c (o / 2) with Some s => Str s | None => Missing end | _ => Missing end
  | KI64 n => I64 n
  | KF64 f => F64 f
  | KBool b => VBool b
  | KIp ip => VIp ip
  end.

(** [.ok().flatten().map(..).unwrap_or(None)]. *)
Definition opened {A} (r : result unit (option A)) (k : A -> SegAccessor) : SegAccessor :=
  match r with Ok (Some c) => k c | _ => ANone end.
Definition typed (s : Segment) (name : bytes) (t : SortType) : SegAccessor :=
  match t with
  | Keyword => opened (ff_str s name) AStr
  | Long => opened (ff_i64 s name) AI64
  | Double => opened (ff_f64 s name) AF64
  | Boolean => opened (ff_bool s name) ABool
  | Date => opened (ff_date s name) ADate
  | Ip => opened (ff_ip s name) AIp
  end.
Definition dynamic_numeric (s : Segment) (path : bytes) (t : SortType) : SegAccessor :=
  let name := DYNAMIC_FIELD ++ str "." ++ path in
  match t with
  | Boolean => typed s name Boolean
  | Long | Double | Date =>
      match head (filter (fun h => numerical h = true) (ff_dynamic s name)) with
      | Some h =>
          match open_handle h with
          | Some coerce_numerical =>
              match coerce_numerical (if decide (t = Double) then NumF64 else NumI64) with
              | Some (DynI64 c) => AI64 c
              | Some (DynF64 c) => AF64 c
              | _ => ANone
              end
          | None => ANone
          end
      | None => ANone
      end
  | _ => ANone
  end.
Definition open_accessor (s : Segment) (schema : MappedSchema) (r : ResolvedSort) : SegAccessor :=
  match target r with
  | TTimestamp => typed s TIMESTAMP_FIELD Date
  | TSeq => typed s SEQ_FIELD Long
  | TMapped name =>
      if decide (is_Some (fields schema !! name)) then typed s name (ty r)
      else if decide (ty r = Keyword) then typed s (DYNAMIC_RAW_FIELD ++ str "." ++ name) (ty r)
      else dynamic_numeric s name (ty r)
  | TDynamicKeyword path => typed s (DYNAMIC_RAW_FIELD ++ str "." ++ path) Keyword
  | TDynamicPath path => dynamic_numeric s path (ty r)
  | TUnmapped => ANone
  end.

(** ** The collector of one segment *)

Record Ranked := mkRanked { keys : list SegKey; rk_ts : Z; rk_seq : Z; rk_doc : Z }.

Fixpoint cmp_key_lists (os : list FieldOrder) (a b : list SegKey) : comparison :=
  match os with
  | [] => Eq
  | o :: os =>
      then_cmp (reverse_if (fo_desc o) (cmp_keys (fo_null_is_max o) (default KMissing (head a)) (default KMissing (head b))))
               (cmp_key_lists os (tail a) (tail b))
  end.
Definition cmp_ranked (os : list FieldOrder) (a b : Ranked) : comparison :=
  then_cmp (cmp_key_lists os (keys a) (keys b))
    (then_cmp (Z.compare (rk_ts b) (rk_ts a)) (then_cmp (Z.compare (rk_seq b) (rk_seq a)) (Z.compare (rk_doc a) (rk_doc b)))).

(** [FieldSortSegmentCollector], but for the heap. *)
Record SegCollector := mkCollector {
  accessors : list SegAccessor;
  sc_plan : FieldSortPlan;
  sc_cursor : option (list SegKey * option Z * option Z);
  substitutes : list (option SegKey);
  sc_ts : option (Column Z);
  sc_seq : option (Column Z);
}.

Definition for_segment (plan : FieldSortPlan) (schema : MappedSchema) (s : Segment) : result unit SegCollector :=
  let accs := open_accessor s schema <$> plan_fields plan in
  let subs := zip_with (fun a r => key_for a <$> substitute r) accs (plan_fields plan) in
  let cur := (fun c => (zip_with key_for accs (values c), timestamp_millis c, cursor_seq c)) <$> cursor plan in
  ts ← ff_date s TIMESTAMP_FIELD;
  seq ← ff_i64 s SEQ_FIELD;
  Ok (mkCollector accs plan cur subs ts seq).

Fixpoint keys_for (accs : list SegAccessor) (rs : list ResolvedSort) (subs : list (option SegKey)) (doc : Z) : list SegKey :=
  match accs, rs, subs with
  | a :: accs, r :: rs, sub :: subs =>
      (match acc_key a doc (use_max r), sub with KMissing, Some k => k | k, _ => k end) :: keys_for accs rs subs doc
  | _, _, _ => []
  end.

(** The first value of a column that may be absent. *)
Definition first_of (c : option (Column Z)) (doc d : Z) : Z :=
  match c with Some c => default d (head (c doc)) | None => d end.

Definition ranked (sc : SegCollector) (doc : Z) : Ranked :=
  mkRanked (keys_for (accessors sc) (plan_fields (sc_plan sc)) (substitutes sc) doc)
    (first_of (sc_ts sc) doc 0) (first_of (sc_seq sc) doc (-1)) doc.

Definition after_cursor (sc : SegCollector) (r : Ranked) : bool :=
  match sc_cursor sc with
  | None => true
  | Some (ks, ts, seq) =>
      match cmp_key_lists (orders (sc_plan sc)) (keys r) ks with
      | Lt => false
      | Gt => true
      | Eq =>
          match ts with
          | None => false
          | Some cts =>
              match Z.compare cts (rk_ts r) with
              | Lt => false
              | Gt => true
              | Eq => match seq with Some cseq => rk_seq r <? cseq | None => false end
              end
          end
      end
  end.

(** The heap as its elements in order; [heap_push] is its bounded insertion. *)
Definition collect (sc : SegCollector) (limit : nat) (heap : list Ranked) (doc : Z) : list Ranked :=
  let r := ranked sc doc in
  if negb (after_cursor sc r) then heap else heap_push (cmp_ranked (orders (sc_plan sc))) limit heap r.

Record SortedHit := mkHit { hit_values : list SortValue; hit_ts : Z; hit_seq : Z; hit_doc : Z * Z }.

Fixpoint harvest_values (ks : list SegKey) (accs : list SegAccessor) (rs : list ResolvedSort) (subs : list (option SegKey))
    : list SortValue :=
  match ks, accs, rs, subs with
  | k :: ks, a :: accs, r :: rs, sub :: subs =>
      (if match sub with Some s => key_eqb s k | None => false end
       then default Missing (substitute r) else materialize a k)
      :: harvest_values ks accs rs subs
  | _, _, _, _ => []
  end.
Definition harvest (sc : SegCollector) (ord : Z) (heap : list Ranked) : list SortedHit :=
  (fun r => mkHit (harvest_values (keys r) (accessors sc) (plan_fields (sc_plan sc)) (substitutes sc))
                  (rk_ts r) (rk_seq r) (ord, rk_doc r)) <$> heap.

Definition hit_key (h : SortedHit) : HitKey := (hit_values h, hit_ts h, hit_seq h).
Definition cmp_address (a b : Z * Z) : comparison := then_cmp (Z.compare a.1 b.1) (Z.compare a.2 b.2).
Definition cmp_sorted (os : list FieldOrder) (a b : SortedHit) : comparison :=
  then_cmp (cmp_hits os (hit_key a) (hit_key b)) (cmp_address (hit_doc a) (hit_doc b)).

Definition merge_fruits (plan : FieldSortPlan) (limit : nat) (fruits : list (list SortedHit)) : list SortedHit :=
  take limit (sort_by (cmp_sorted (orders plan)) (concat fruits)).

(** The search of a split: its segments in order, each with the documents the
    query matches in it. *)
Fixpoint search_segments (plan : FieldSortPlan) (schema : MappedSchema) (limit : nat) (ord : Z) (segs : list (Segment * list Z))
    : result unit (list (list SortedHit)) :=
  match segs with
  | [] => Ok []
  | (s, docs) :: segs =>
      sc ← for_segment plan schema s;
      fruits ← search_segments plan schema limit (ord + 1) segs;
      Ok (harvest sc ord (foldl (collect sc limit) [] docs) :: fruits)
  end.
Definition collect_split (plan : FieldSortPlan) (schema : MappedSchema) (limit : nat) (segs : list (Segment * list Z))
    : result unit (list SortedHit) :=
  let limit := Nat.max limit 1 in
  fruits ← search_segments plan schema limit 0 segs;
  Ok (merge_fruits plan limit fruits).

(** ** Values of one type are totally preordered *)

Definition val_ok (t : SortType) (v : SortValue) : Prop :=
  match v with
  | Missing => True
  | Str _ => t = Keyword
  | I64 _ => t = Long \/ t = Date
  | F64 _ => t = Double
  | VBool _ => t = Boolean
  | VIp _ => t = Ip
  end.

(** A missing value before or after all others. *)
Definition cmp_opt {A} (null_max : bool) (c : A -> A -> comparison) (a b : option A) : comparison :=
  match a, b with
  | None, None => Eq
  | None, Some _ => if null_max then Gt else Lt
  | Some _, None => if null_max then Lt else Gt
  | Some a, Some b => c a b
  end.
Lemma good_opt {A} nm (c : A -> A -> comparison) : good_cmp (fun _ => True) c -> good_cmp (fun _ => True) (cmp_opt nm c).
Proof.
  intros G. split.
  - intros [x|] [y|] _ _; simpl; [by apply (cmp_sym G)|by destruct nm..|done].
  - intros [x|] [y|] [z|] _ _ _; simpl; try (by destruct nm); try done. by apply (cmp_trans G).
Qed.

Definition str_of (v : SortValue) : option bytes := match v with Str s => Some s | _ => None end.
Definition num_of (v : SortValue) : option Z :=
  match v with
  | I64 n => Some n
  | F64 b => Some (total_key b)
  | VBool b => Some (Z.b2z b)
  | VIp ip => Some ip
  | _ => None
  end.

Lemma cmp_natural_str nm a b : val_ok Keyword a -> val_ok Keyword b -> cmp_natural nm a b = cmp_opt nm bytes_compare (str_of a) (str_of b).
Proof. destruct a, b; simpl; naive_solver. Qed.
Lemma cmp_natural_num t nm a b : t <> Keyword -> val_ok t a -> val_ok t b -> cmp_natural nm a b = cmp_opt nm Z.compare (num_of a) (num_of b).
Proof. destruct a, b; simpl; naive_solver. Qed.

Lemma cmp_natural_good t nm : good_cmp (val_ok t) (cmp_natural nm).
Proof.
  destruct (decide (t = Keyword)) as [->|Ht].
  - apply (good_ext _ (fun a b => cmp_opt nm bytes_compare (str_of a) (str_of b))); [intros; by rewrite cmp_natural_str|].
    apply (good_weaken (fun _ => True)); [done|]. apply (good_on (fun _ => True)), good_opt, good_bytes.
  - apply (good_ext _ (fun a b => cmp_opt nm Z.compare (num_of a) (num_of b))); [intros; by rewrite (cmp_natural_num t)|].
    apply (good_weaken (fun _ => True)); [done|]. apply (good_on (fun _ => True)), good_opt, good_Z.
Qed.

(** Across types the comparison is no order: two integers apart from 2^53 on
    are both equal to the float between them. *)
Lemma cmp_natural_mixed :
  let f := F64 (f64_of_Z (2 ^ 53)) in
  cmp_natural true (I64 (2 ^ 53)) f = Eq /\ cmp_natural true f (I64 (2 ^ 53 + 1)) = Eq /\
  cmp_natural true (I64 (2 ^ 53)) (I64 (2 ^ 53 + 1)) = Lt.
Proof. repeat split; vm_compute; reflexivity. Qed.

(** Keys of a plan: one value per field, each of the field's type. *)
Definition values_ok (rs : list ResolvedSort) (vs : list SortValue) : Prop := Forall2 (fun r v => val_ok (ty r) v) rs vs.

Lemma values_ok_inv r rs vs : values_ok (r :: rs) vs -> exists v vs', vs = v :: vs' /\ val_ok (ty r) v /\ values_ok rs vs'.
Proof. intros (v & vs' & Hv & Hvs & ->)%Forall2_cons_inv_l. by exists v, vs'. Qed.

Lemma cmp_values_good rs : good_cmp (values_ok rs) (cmp_values (order <$> rs)).
Proof.
  induction rs as [|r rs IH]; [apply good_constant|]. cbn [fmap list_fmap cmp_values].
  apply (good_then (values_ok (r :: rs))
    (fun a b => reverse_if (fo_desc (order r)) (cmp_natural (fo_null_is_max (order r)) (default Missing (head a)) (default Missing (head b))))
    (fun a b => cmp_values (order <$> rs) (tail a) (tail b))).
  - apply good_reverse_if, (good_weaken (fun a => val_ok (ty r) (default Missing (head a)))).
    { by intros a (v & vs & -> & Hv & _)%values_ok_inv. }
    apply (good_on (val_ok (ty r)) _ (fun a => default Missing (head a))), cmp_natural_good.
  - apply (good_weaken (fun a => values_ok rs (tail a))); [by intros a (v & vs & -> & _ & Hv)%values_ok_inv|].
    apply (good_on (values_ok rs) (cmp_values (order <$> rs)) tail), IH.
Qed.

Definition key_ok (rs : list ResolvedSort) (k : HitKey) : Prop := values_ok rs k.1.1.
Lemma good_flip_Z {A} (P : A -> Prop) (f : A -> Z) : good_cmp P (fun a b => Z.compare (f b) (f a)).
Proof.
  apply (good_ext _ (fun a b => CompOpp (Z.compare (f a) (f b)))); [intros; by rewrite <- Z.compare_antisym|].
  apply good_reverse, (good_weaken (fun _ => True)); [done|]. apply (good_on (fun _ => True)), good_Z.
Qed.
Lemma good_on_Z {A} (P : A -> Prop) (f : A -> Z) : good_cmp P (fun a b => Z.compare (f a) (f b)).
Proof. apply (good_weaken (fun _ => True)); [done|]. apply (good_on (fun _ => True)), good_Z. Qed.

(** Hits of a well-typed plan are totally preordered by [cmp_hits]. *)
Lemma cmp_hits_good rs : good_cmp (key_ok rs) (cmp_hits (order <$> rs)).
Proof.
  unfold cmp_hits. apply good_then; [|apply good_then; apply good_flip_Z].
  apply (good_on (values_ok rs) (cmp_values (order <$> rs)) (fun k : HitKey => k.1.1)), cmp_values_good.
Qed.
Lemma cmp_sorted_good rs : good_cmp (fun h => key_ok rs (hit_key h)) (cmp_sorted (order <$> rs)).
Proof.
  unfold cmp_sorted. apply good_then.
  - apply (good_on (key_ok rs) (cmp_hits (order <$> rs)) hit_key), cmp_hits_good.
  - unfold cmp_address. apply good_then; apply good_on_Z.
Qed.

(** ** What the parsers give is well typed *)

Section typing.
Context `{T : TimeCrate} `{C : TextCodec}.

Lemma sentinel_ok t n : t = Long \/ t = Date -> val_ok t (sentinel n).
Proof. unfold sentinel. by destruct (_ || _). Qed.

Lemma parse_sort_value_ok now v t x : parse_sort_value now v t = Got x -> val_ok t x.
Proof.
  unfold parse_sort_value. destruct (is_null v); [by intros [= <-]|]. destruct t.
  - intros [= <-]. by destruct v.
  - destruct (or_else _ _) as [n| |]; [|done..]. simpl. intros [= <-]. apply sentinel_ok. by left.
  - destruct v; try done; [by intros [= <-]|]. case_decide; [by intros [= <-]|].
    destruct (parse_f64 s); [|done]. by intros [= <-].
  - destruct v as [|b|n|s| |]; try done.
    + by intros [= <-].
    + destruct (as_i64 _) as [i|]; [|done]. simpl. repeat (case_match; [by intros [= <-]|]). done.
    + repeat (case_decide; [by intros [= <-]|]). done.
  - destruct (or_else _ _) as [n| |]; [|done..]. simpl. intros [= <-]. apply sentinel_ok. by right.
  - destruct (as_str v) as [s|]; [|done]. simpl. destruct (parse_ip s); [|done]. by intros [= <-].
Qed.

Lemma parse_values_ok now vs rs ps : parse_values now vs rs = Ok ps -> (length rs <= length vs)%nat -> values_ok rs ps.
Proof.
  revert vs ps. induction rs as [|r rs IH]; intros [|v vs] ps; simpl; try (intros [= <-]; intros; constructor).
  - intros; lia.
  - destruct (parse_sort_value now v (ty r)) as [p| |] eqn:E; [|done..]. simpl.
    destruct (parse_values now vs rs) as [ps'|] eqn:Ep; [|done]. simpl. intros [= <-] Hl.
    constructor; [by eapply parse_sort_value_ok|]. apply (IH vs); [done|lia].
Qed.

(** A cursor that was accepted has one value of its type per clause. *)
Lemma parse_cursor_ok now vs rs c : parse_cursor now vs rs = Ok c -> values_ok rs (values c).
Proof.
  unfold parse_cursor. destruct (Nat.ltb_spec (length vs) (length rs)) as [|Hl]; [done|]. destruct (_ <? _)%nat; [done|].
  cbn [orb]. destruct (parse_values now vs rs) as [ps|] eqn:E; [|done]. cbn [mbind result_bind].
  destruct (transpose (vs !! length rs) _); [|done]. cbn [mbind result_bind].
  destruct (transpose _ _); [|done]. intros [= <-].
  by apply (parse_values_ok now vs).
Qed.

Definition substitute_ok (r : ResolvedSort) : Prop := match substitute r with Some v => val_ok (ty r) v | None => True end.

Lemma resolve_sort_ok now schema dynamic fs rs : resolve_sort now schema dynamic fs = Ok rs -> Forall substitute_ok rs.
Proof.
  revert rs. induction fs as [|f fs IH]; intros rs; simpl; [by intros [= <-]|].
  destruct (resolve_one now schema dynamic f) as [r|] eqn:E; [|done]. simpl.
  destruct (resolve_sort now schema dynamic fs) as [rs'|]; [|done]. simpl. intros [= <-]. constructor; [|by apply IH].
  unfold resolve_one in E. destruct (resolve_target _ _ _) as [[tg t]|]; [|done]. cbn [mbind result_bind] in E.
  destruct (resolve_missing now f t) as [[nm sub]|] eqn:Em; [|done]. injection E as <-. unfold substitute_ok. simpl.
  unfold resolve_missing in Em. destruct (missing f) as [v|]; [|by injection Em as _ <-].
  repeat (case_decide; [by injection Em as _ <-|]).
  destruct (parse_sort_value now v t) as [s| |] eqn:Es; [|done..]. injection Em as _ <-. by eapply parse_sort_value_ok.
Qed.
End typing.

(** ** Dictionaries and columns *)

(** A string column's dictionary holds its terms in order; a lookup finds a
    term, or the first term after an absent one; documents refer to terms. *)
Record dict_ok (c : StrColumn) (terms : list bytes) : Prop := {
  dict_sorted : StronglySorted bytes_lt terms;
  dict_small : Z.of_nat (length terms) < 2 ^ 62;
  dict_str o : ord_to_str c o = (if 0 <=? o then terms !! Z.to_nat o else None);
  dict_found s : exists h, term_ord_or_next c s = Some h;
  dict_exact s o : term_ord_or_next c s = Some (Exact o) -> 0 <= o /\ terms !! Z.to_nat o = Some s;
  dict_next s o : term_ord_or_next c s = Some (Next o) -> s ∉ terms /\
    forall i t, terms !! i = Some t -> (Z.of_nat i < o <-> bytes_lt t s);
  dict_ords doc o : o ∈ term_ords c doc -> 0 <= o < Z.of_nat (length terms);
}.

Definition acc_ok (a : SegAccessor) (t : SortType) : Prop :=
  match a with
  | ANone => True
  | AStr c => t = Keyword /\ exists terms, dict_ok c terms
  | AI64 _ => t = Long \/ t = Date
  | AF64 _ => t = Double
  | ABool _ => t = Boolean
  | ADate _ => t = Date
  | AIp _ => t = Ip
  end.

(** A value the segment's columns can hold. *)
Definition present (a : SegAccessor) (v : SortValue) : Prop :=
  match v with
  | Str s => match a with AStr c => exists o, term_ord_or_next c s = Some (Exact o) | _ => False end
  | _ => True
  end.

Lemma strictly_sorted_inj (l : list bytes) i j x y : StronglySorted bytes_lt l -> l !! i = Some x -> l !! j = Some y ->
  bytes_compare x y = Nat.compare i j.
Proof.
  intros S. revert i j. induction S as [|z l S IH F]; intros i j; [done|]. rewrite Forall_forall in F.
  destruct i as [|i], j as [|j]; simpl; intros Hi Hj.
  - injection Hi as ->. injection Hj as ->. apply bytes_compare_refl.
  - injection Hi as ->. apply F. by eapply list_elem_of_lookup_2.
  - injection Hj as ->. rewrite bytes_compare_antisym. apply list_elem_of_lookup_2, F in Hi. unfold bytes_lt in Hi. by rewrite Hi.
  - by apply IH.
Qed.

Lemma term_exact c terms o t : dict_ok c terms -> 0 <= o -> terms !! Z.to_nat o = Some t -> term_ord_or_next c t = Some (Exact o).
Proof.
  intros D Ho Ht. destruct (dict_found _ _ D t) as [[o'|o'] E]; rewrite E.
  - apply (dict_exact _ _ D) in E as [Ho' Ht']. pose proof (strictly_sorted_inj _ _ _ _ _ (dict_sorted _ _ D) Ht Ht') as Hc.
    rewrite bytes_compare_refl in Hc. symmetry in Hc. apply Nat.compare_eq in Hc. do 2 f_equal. lia.
  - apply (dict_next _ _ D) in E as [Hn _]. exfalso. apply list_elem_of_lookup_2 in Ht. by apply Hn.
Qed.

Lemma double_cmp i j : Z.compare (i * 2 + 1) (j * 2 + 1) = Z.compare i j.
Proof. destruct (Z.compare_spec i j); destruct (Z.compare_spec (i * 2 + 1) (j * 2 + 1)); lia || done. Qed.

(** Keys of strings are ordered as the strings are, when one is a term. *)
Lemma str_keys c terms s t o : dict_ok c terms -> term_ord_or_next c s = Some (Exact o) ->
  exists k, key_for (AStr c) (Str t) = KOrd k /\ Z.compare (o * 2 + 1) k = bytes_compare s t.
Proof.
  intros D E. destruct (dict_exact _ _ D _ _ E) as [Ho Hs]. simpl. destruct (dict_found _ _ D t) as [[o'|o'] E']; rewrite E'.
  - eexists. split; [done|]. destruct (dict_exact _ _ D _ _ E') as [Ho' Ht]. rewrite double_cmp.
    rewrite (strictly_sorted_inj _ _ _ _ _ (dict_sorted _ _ D) Hs Ht). rewrite <- Nat2Z.inj_compare. f_equal; lia.
  - eexists. split; [done|]. destruct (dict_next _ _ D _ _ E') as [Hn Hc]. specialize (Hc _ _ Hs).
    pose proof (dict_small _ _ D) as Hsm. pose proof (lookup_lt_Some _ _ _ Hs) as Hl.
    assert (sat_u64 (o' * 2) = Z.max 0 (Z.min U64_MAX (o' * 2))) as -> by done.
    assert (2 ^ 63 < U64_MAX) by done.
    destruct (decide (Z.of_nat (Z.to_nat o) < o')) as [Hlt|Hge].
    + assert (bytes_compare s t = Lt) as -> by (by apply Hc). apply Z.compare_lt_iff. lia.
    + assert (~ bytes_lt s t) as Hnl by (by rewrite <- Hc). transitivity Gt; [apply Z.compare_gt_iff; lia|].
      unfold bytes_lt in Hnl. destruct (bytes_compare s t) eqn:Eq; [|done|done].
      apply bytes_compare_eq in Eq. subst t. exfalso. apply list_elem_of_lookup_2 in Hs. by apply Hn.
Qed.

Lemma key_for_cmp a t nm v w : acc_ok a t -> val_ok t v -> val_ok t w -> v = w \/ present a v \/ present a w ->
  cmp_keys nm (key_for a v) (key_for a w) = cmp_natural nm v w.
Proof.
  intros Ha Hv Hw Hp. destruct (decide (t = Keyword)) as [->|Ht].
  - assert (forall s, exists k, key_for a (Str s) = KOrd k) as Hk.
    { intros s. destruct a as [|c| | | | |]; try (by eexists). simpl. destruct (term_ord_or_next c s) as [[|]|]; by eexists. }
    destruct v as [|s| | | |], w as [|s'| | | |]; try (simpl in *; naive_solver);
      [destruct (Hk s') as [k E]; rewrite E; done|destruct (Hk s) as [k E]; rewrite E; done|].
    destruct Hp as [[= ->]|[Hp|Hp]].
    + destruct (Hk s') as [k E]. rewrite E. simpl. by rewrite Z.compare_refl, bytes_compare_refl.
    + destruct a as [|c| | | | |]; try done. destruct Hp as [o E], Ha as [_ [terms D]].
      destruct (str_keys c terms s s' o D E) as (k & E2 & Hc). rewrite E2. simpl. by rewrite E.
    + destruct a as [|c| | | | |]; try done. destruct Hp as [o E], Ha as [_ [terms D]].
      destruct (str_keys c terms s' s o D E) as (k & E2 & Hc). rewrite E2. simpl. rewrite E.
      rewrite (Z.compare_antisym (o * 2 + 1) k), Hc. symmetry. apply bytes_compare_antisym.
  - destruct v, w; simpl in *; naive_solver.
Qed.

(** ** What a document sorts by, and its key *)

Definition or_missing (v d : SortValue) : SortValue := match v with Missing => d | _ => v end.
Lemma or_missing_id v d : v <> Missing -> or_missing v d = v.
Proof. by destruct v. Qed.

Definition doc_value (a : SegAccessor) (r : ResolvedSort) (doc : Z) : SortValue :=
  or_missing (materialize a (acc_key a doc (use_max r))) (default Missing (substitute r)).
Definition doc_values (accs : list SegAccessor) (rs : list ResolvedSort) (doc : Z) : list SortValue :=
  zip_with (fun a r => doc_value a r doc) accs rs.

(** The column is of the clause's type, and so is the substitute.  A zero
    substitute is left out: [==] does not tell its two signs apart. *)
Definition field_ok (a : SegAccessor) (r : ResolvedSort) : Prop :=
  acc_ok a (ty r) /\
  match substitute r with
  | Some v => val_ok (ty r) v /\ match v with F64 b => f64_abs b <> 0 | _ => True end
  | None => True
  end.

Lemma pick_elem {A} m (cmp : A -> A -> comparison) l x : pick m cmp l = Some x -> x ∈ l.
Proof.
  destruct l as [|y l]; [done|]. simpl. intros [= <-].
  assert (forall acc, foldl (fun acc y => match cmp acc y with Gt => if m then acc else y | Eq => if m then y else acc | Lt => if m then y else acc end) acc l ∈ acc :: l) as H.
  { induction l as [|z l IH]; intros acc; simpl; [by left|].
    set (acc' := match cmp acc z with Gt => _ | _ => _ end). specialize (IH acc').
    assert (acc' = acc \/ acc' = z) as [E|E] by (unfold acc'; destruct (cmp acc z), m; auto); rewrite E in IH |- *; set_solver. }
  apply H.
Qed.

(** A document's own key is the key of its value. *)
Lemma acc_key_value a t m doc : acc_ok a t ->
  let v := materialize a (acc_key a doc m) in
  acc_key a doc m = key_for a v /\ present a v /\ val_ok t v.
Proof.
  intros Ha. unfold acc_key. destruct a as [|c|c|c|c|c|c]; cbn zeta; [done|..];
    match goal with |- context [pick ?m ?f ?l] => destruct (pick m f l) as [x|] eqn:E end;
    try (by repeat split); try (repeat split; simpl in *; naive_solver).
  destruct Ha as [-> [terms D]]. apply pick_elem in E. destruct (dict_ords _ _ D _ _ E) as [H0 Hl].
  simpl. rewrite Z.div_add_l by lia. change (1 / 2) with 0. rewrite Z.add_0_r, (dict_str _ _ D).
  destruct (Z.leb_spec 0 x); [|lia]. destruct (lookup_lt_is_Some_2 terms (Z.to_nat x)) as [s Hs]; [lia|]. rewrite Hs.
  pose proof (term_exact c terms x s D H0 Hs) as Ex. cbn [key_for]. rewrite Ex. split; [done|]. split; [by exists x|done].
Qed.

Lemma key_for_missing a v : key_for a v = KMissing -> v = Missing.
Proof. destruct v; try done. simpl. destruct a; try done. by destruct (term_ord_or_next c s) as [[]|]. Qed.

Lemma doc_value_ok a r doc : field_ok a r -> val_ok (ty r) (doc_value a r doc).
Proof.
  intros [Ha Hs]. destruct (acc_key_value a (ty r) (use_max r) doc Ha) as (_ & _ & Hv). unfold doc_value.
  destruct (materialize _ _); try exact Hv. destruct (substitute r); [by destruct Hs|done].
Qed.
Lemma doc_value_present a r doc : field_ok a r -> present a (doc_value a r doc) \/ Some (doc_value a r doc) = substitute r.
Proof.
  intros [Ha Hs]. destruct (acc_key_value a (ty r) (use_max r) doc Ha) as (_ & Hp & _). unfold doc_value.
  destruct (materialize _ _); try (by left). destruct (substitute r); [by right|by left].
Qed.

(** The collector's key of a document is that of its value ... *)
Lemma field_key a r doc : field_ok a r ->
  (match acc_key a doc (use_max r), key_for a <$> substitute r with KMissing, Some k => k | k, _ => k end)
  = key_for a (doc_value a r doc).
Proof.
  intros [Ha Hs]. destruct (acc_key_value a (ty r) (use_max r) doc Ha) as (Hk & _ & _). unfold doc_value.
  destruct (materialize a _) eqn:Ev; rewrite Hk;
    try (destruct (key_for a _) eqn:Ek; try done; apply key_for_missing in Ek; done).
  simpl. by destruct (substitute r).
Qed.

Lemma key_for_str a s : exists o, key_for a (Str s) = KOrd o.
Proof. simpl. destruct a; try by eexists. destruct (term_ord_or_next c s) as [[]|]; by eexists. Qed.

(** ... and is harvested as that value. *)
Lemma key_for_inj a t v w : acc_ok a t -> val_ok t v -> val_ok t w -> present a w ->
  (match v with F64 b => f64_abs b <> 0 | _ => True end) -> key_eqb (key_for a v) (key_for a w) = true -> v = w.
Proof.
  intros Ha Hv Hw Hp Hz He. destruct v as [|s|n|b|b|ip].
  - destruct (key_for a w) eqn:E; try done. by apply key_for_missing in E.
  - destruct (key_for_str a s) as [k Ek]. rewrite Ek in He. destruct w as [|s'| | | |]; try done.
    destruct a as [|c| | | | |]; try done. destruct Hp as [o Eo], Ha as [_ [terms D]].
    destruct (str_keys c terms s' s o D Eo) as (k' & Ek' & Hc). rewrite Ek' in Ek. injection Ek as ->.
    cbn [key_for] in He. rewrite Eo in He. apply Z.eqb_eq in He. subst k. rewrite Z.compare_refl in Hc.
    symmetry in Hc. by apply bytes_compare_eq in Hc as ->.
  - destruct w as [|s'| | | |]; try done; [destruct (key_for_str a s') as [k Ek]; by rewrite Ek in He|].
    apply Z.eqb_eq in He. by subst.
  - destruct w as [|s'| | | |]; try done; [destruct (key_for_str a s') as [k Ek]; by rewrite Ek in He|].
    simpl in He. unfold f64_eqb in He. apply andb_true_iff in He as [_ He]. apply orb_true_iff in He as [He|He].
    + apply Z.eqb_eq in He. by subst.
    + apply andb_true_iff in He as [He _]. by apply Z.eqb_eq in He.
  - destruct w as [|s'| | | |]; try done; [destruct (key_for_str a s') as [k Ek]; by rewrite Ek in He|].
    apply Bool.eqb_prop in He. by subst.
  - destruct w as [|s'| | | |]; try done; [destruct (key_for_str a s') as [k Ek]; by rewrite Ek in He|].
    apply Z.eqb_eq in He. by subst.
Qed.

Lemma key_eqb_refl k : key_eqb k k = false -> exists b, k = KF64 b.
Proof. destruct k; simpl; try (by rewrite ?Z.eqb_refl, ?Bool.eqb_reflx); eauto. Qed.

Lemma field_value a r doc : field_ok a r ->
  let k := key_for a (doc_value a r doc) in
  (if match key_for a <$> substitute r with Some s => key_eqb s k | None => false end
   then default Missing (substitute r) else materialize a k) = doc_value a r doc.
Proof.
  intros [Ha Hs]. destruct (acc_key_value a (ty r) (use_max r) doc Ha) as (Hk & Hp & Hv). cbn zeta. unfold doc_value in *.
  set (v := materialize a (acc_key a doc (use_max r))) in *.
  assert (materialize a (key_for a v) = v) as Hm by (by rewrite <- Hk).
  assert (forall s, substitute r = Some s -> key_eqb (key_for a s) (key_for a v) = true -> s = v) as Hi.
  { intros s E. rewrite E in Hs. destruct Hs as [Hs1 Hs2]. by apply (key_for_inj a (ty r)). }
  destruct (decide (v = Missing)) as [E|E].
  - rewrite E in *. cbn [or_missing]. destruct (substitute r) as [s|] eqn:Es; [|done]. simpl.
    destruct (key_eqb (key_for a s) (key_for a s)) eqn:Eq; [done|]. apply key_eqb_refl in Eq as [b Eb]. rewrite Eb. simpl.
    destruct s; try done; simpl in Eb; [|by injection Eb as ->]. destruct (key_for_str a s) as [o Eo]. simpl in Eo. congruence.
  - rewrite !or_missing_id by done.
    destruct (substitute r) as [s|] eqn:Es; [|done]. cbn [fmap option_fmap option_map].
    destruct (key_eqb (key_for a s) (key_for a v)) eqn:Eq; [|done]. simpl. by apply Hi.
Qed.

(** ** Whole keys *)

Definition collector_fields (accs : list SegAccessor) (rs : list ResolvedSort) : list (option SegKey) :=
  zip_with (fun a r => key_for a <$> substitute r) accs rs.

Lemma keys_for_values accs rs doc : Forall2 field_ok accs rs ->
  keys_for accs rs (collector_fields accs rs) doc = zip_with key_for accs (doc_values accs rs doc).
Proof.
  induction 1 as [|a r accs rs H _ IH]; [done|]. unfold collector_fields, doc_values in *. cbn [zip_with keys_for].
  by rewrite IH, field_key.
Qed.
Lemma harvest_doc_values accs rs doc : Forall2 field_ok accs rs ->
  harvest_values (zip_with key_for accs (doc_values accs rs doc)) accs rs (collector_fields accs rs) = doc_values accs rs doc.
Proof.
  induction 1 as [|a r accs rs H _ IH]; [done|]. unfold collector_fields, doc_values in *. cbn [zip_with harvest_values].
  by rewrite IH, field_value.
Qed.
Lemma doc_values_ok accs rs doc : Forall2 field_ok accs rs -> values_ok rs (doc_values accs rs doc).
Proof. induction 1; [constructor|]. constructor; [by apply doc_value_ok|done]. Qed.

(** Values whose keys order as they do: a term of the segment, or the same. *)
Inductive comparable : list SegAccessor -> list SortValue -> list SortValue -> Prop :=
| comparable_nil : comparable [] [] []
| comparable_cons a v w accs vs ws : v = w \/ present a v \/ present a w -> comparable accs vs ws ->
    comparable (a :: accs) (v :: vs) (w :: ws).

Lemma cmp_keys_values accs rs vs ws : Forall2 field_ok accs rs -> values_ok rs vs -> values_ok rs ws -> comparable accs vs ws ->
  cmp_key_lists (order <$> rs) (zip_with key_for accs vs) (zip_with key_for accs ws) = cmp_values (order <$> rs) vs ws.
Proof.
  intros H. revert vs ws. induction H as [|a r accs rs [Ha _] _ IH]; intros vs ws; [done|].
  intros (v & vs' & -> & Hv & Hvs)%values_ok_inv (w & ws' & -> & Hw & Hws)%values_ok_inv Hc.
  inversion Hc as [|? ? ? ? ? ? Hp Hc']; subst. cbn [fmap list_fmap zip_with cmp_key_lists cmp_values head tail default].
  change (list_fmap ResolvedSort FieldOrder order rs) with (order <$> rs). rewrite IH by done.
  simpl. by rewrite (key_for_cmp a (ty r)).
Qed.

Lemma docs_comparable accs rs d1 d2 : Forall2 field_ok accs rs ->
  comparable accs (doc_values accs rs d1) (doc_values accs rs d2).
Proof.
  induction 1 as [|a r accs rs H _ IH]; [constructor|]. constructor; [|done].
  destruct (doc_value_present a r d1 H) as [|E1]; [tauto|]. destruct (doc_value_present a r d2 H) as [|E2]; [tauto|].
  left. congruence.
Qed.

(** With a cursor, a string may not be substituted for a missing value: two
    strings the segment lacks can have one key. *)
Definition calm (r : ResolvedSort) : Prop := match substitute r with Some (Str _) => False | _ => True end.
Lemma cursor_comparable accs rs doc vs : Forall2 field_ok accs rs -> Forall calm rs -> length vs = length rs ->
  comparable accs (doc_values accs rs doc) vs.
Proof.
  intros H. revert vs. induction H as [|a r accs rs H _ IH]; intros vs Hc Hl; [destruct vs; [constructor|done]|].
  destruct vs as [|v vs]; [done|]. apply Forall_cons in Hc as [Hr Hc]. constructor; [|apply IH; [done|by injection Hl]].
  right; left. destruct (doc_value_present a r doc H) as [|E]; [done|]. unfold calm in Hr. rewrite <- E in Hr.
  by destruct (doc_value a r doc).
Qed.

(** ** The hits of a split, and what its search returns *)

(** A document's hit. *)
Definition doc_hit (accs : list SegAccessor) (rs : list ResolvedSort) (ts seq : option (Column Z)) (ord doc : Z) : SortedHit :=
  mkHit (doc_values accs rs doc) (first_of ts doc 0) (first_of seq doc (-1)) (ord, doc).

(** Strictly past the cursor, by value. *)
Definition past_cursor (plan : FieldSortPlan) (k : HitKey) : bool :=
  match cursor plan with
  | None => true
  | Some c =>
      match cmp_values (orders plan) k.1.1 (values c) with
      | Lt => false
      | Gt => true
      | Eq =>
          match timestamp_millis c with
          | None => false
          | Some ts =>
              match Z.compare ts k.1.2 with
              | Lt => false
              | Gt => true
              | Eq => match cursor_seq c with Some s => k.2 <? s | None => false end
              end
          end
      end
  end.

Definition result_col {A} (r : result unit (option A)) : option A := match r with Ok c => c | Err _ => None end.
Definition segment_hits (plan : FieldSortPlan) (schema : MappedSchema) (ord : Z) (s : Segment) (docs : list Z) : list SortedHit :=
  doc_hit (open_accessor s schema <$> plan_fields plan) (plan_fields plan)
    (result_col (ff_date s TIMESTAMP_FIELD)) (result_col (ff_i64 s SEQ_FIELD)) ord <$> docs.
Fixpoint split_hits (plan : FieldSortPlan) (schema : MappedSchema) (ord : Z) (segs : list (Segment * list Z)) : list SortedHit :=
  match segs with
  | [] => []
  | (s, docs) :: segs => segment_hits plan schema ord s docs ++ split_hits plan schema (ord + 1) segs
  end.

(** A segment whose columns are of the plan's types and open. *)
Definition segment_ok (plan : FieldSortPlan) (schema : MappedSchema) (p : Segment * list Z) : Prop :=
  Forall2 field_ok (open_accessor p.1 schema <$> plan_fields plan) (plan_fields plan) /\
  is_ok (ff_date p.1 TIMESTAMP_FIELD) = true /\ is_ok (ff_i64 p.1 SEQ_FIELD) = true /\ NoDup p.2.
Definition plan_ok (plan : FieldSortPlan) : Prop :=
  match cursor plan with
  | Some c => values_ok (plan_fields plan) (values c) /\ Forall calm (plan_fields plan)
  | None => True
  end.

Section segment.
Context (plan : FieldSortPlan) (schema : MappedSchema) (s : Segment) (sc : SegCollector) (ord : Z).
Let rs := plan_fields plan.
Let accs := open_accessor s schema <$> rs.
Context (Hsc : for_segment plan schema s = Ok sc) (Hf : Forall2 field_ok accs rs) (Hp : plan_ok plan).
Let h := doc_hit accs rs (result_col (ff_date s TIMESTAMP_FIELD)) (result_col (ff_i64 s SEQ_FIELD)) ord.

Lemma collector_eq : sc = mkCollector accs plan
  ((fun c => (zip_with key_for accs (values c), timestamp_millis c, cursor_seq c)) <$> cursor plan)
  (collector_fields accs rs) (result_col (ff_date s TIMESTAMP_FIELD)) (result_col (ff_i64 s SEQ_FIELD)).
Proof.
  clear - Hsc. unfold for_segment in Hsc. destruct (ff_date s TIMESTAMP_FIELD) as [c1|]; [|done]. cbn [mbind result_bind] in Hsc.
  destruct (ff_i64 s SEQ_FIELD) as [c2|]; [|done]. by injection Hsc as <-.
Qed.

Lemma ranked_doc doc : ranked sc doc = mkRanked (zip_with key_for accs (hit_values (h doc))) (hit_ts (h doc)) (hit_seq (h doc)) doc.
Proof. rewrite collector_eq. unfold ranked. cbn -[keys_for]. by rewrite keys_for_values. Qed.

Lemma cmp_ranked_docs d1 d2 : cmp_ranked (orders plan) (ranked sc d1) (ranked sc d2) = cmp_sorted (orders plan) (h d1) (h d2).
Proof.
  rewrite !ranked_doc. unfold cmp_ranked, cmp_sorted, cmp_hits, cmp_address. cbn -[cmp_key_lists cmp_values]. fold accs rs.
  change (orders plan) with (order <$> rs).
  rewrite (cmp_keys_values accs rs) by (done || by apply doc_values_ok || by apply docs_comparable).
  by rewrite Z.compare_refl, !then_cmp_assoc.
Qed.

Lemma after_cursor_doc doc : after_cursor sc (ranked sc doc) = past_cursor plan (hit_key (h doc)).
Proof.
  rewrite ranked_doc. rewrite collector_eq. unfold after_cursor, past_cursor. cbn -[cmp_key_lists cmp_values].
  unfold plan_ok in Hp. destruct (cursor plan) as [c|]; [|done]. destruct Hp as [Hv Hc]. simpl.
  change (orders plan) with (order <$> rs).
  rewrite (cmp_keys_values accs rs) by (done || by apply doc_values_ok || (apply cursor_comparable; [done..|symmetry; by eapply Forall2_length])).
  done.
Qed.

Lemma harvest_docs ds : harvest sc ord (ranked sc <$> ds) = h <$> ds.
Proof.
  unfold harvest. rewrite <- list_fmap_compose. apply list_fmap_ext. intros i doc _. unfold compose. rewrite ranked_doc.
  rewrite collector_eq. simpl. unfold h, doc_hit. f_equal. by apply harvest_doc_values.
Qed.

Lemma collect_scan limit heap ds :
  foldl (collect sc limit) heap ds =
  foldl (heap_push (cmp_ranked (orders plan)) limit) heap (ranked sc <$> filter (fun d => past_cursor plan (hit_key (h d)) = true) ds).
Proof.
  revert heap. induction ds as [|d ds IH]; intros heap; [done|]. cbn [foldl]. rewrite IH. unfold collect at 1.
  rewrite after_cursor_doc, filter_cons. destruct (past_cursor plan (hit_key (h d))); simpl; [|done].
  by rewrite collector_eq.
Qed.

Definition cmp_docs (d1 d2 : Z) : comparison := cmp_sorted (orders plan) (h d1) (h d2).
Lemma cmp_docs_good : good_cmp (fun _ => True) cmp_docs.
Proof.
  apply (good_weaken (fun d => key_ok rs (hit_key (h d)))).
  - intros d _. by apply doc_values_ok.
  - apply (good_on (fun x => key_ok rs (hit_key x)) (cmp_sorted (orders plan)) h), cmp_sorted_good.
Qed.
Lemma cmp_address_eq a b : cmp_address a b = Eq -> a = b.
Proof.
  destruct a, b. unfold cmp_address. simpl. destruct (Z.compare_spec z z1) as [->| |]; simpl; try done.
  intros E%Z.compare_eq. by subst.
Qed.
Lemma cmp_sorted_eq os a b : cmp_sorted os a b = Eq -> hit_doc a = hit_doc b.
Proof. unfold cmp_sorted. destruct (cmp_hits _ _ _); try done. apply cmp_address_eq. Qed.

(** One segment's harvest: the first hits past the cursor, in order. *)
Lemma harvest_segment limit ds : (0 < limit)%nat -> NoDup ds ->
  harvest sc ord (foldl (collect sc limit) [] ds) =
  top (cmp_sorted (orders plan)) limit (filter (fun x => past_cursor plan (hit_key x) = true) (h <$> ds)).
Proof.
  intros Hl Hd. rewrite collect_scan. set (D := filter _ ds).
  change (@nil Ranked) with (ranked sc <$> @nil Z).
  rewrite (heap_scan_fmap cmp_docs (cmp_ranked (orders plan)) (ranked sc) cmp_ranked_docs), harvest_docs.
  rewrite (heap_scan cmp_docs (fun _ => True) cmp_docs_good limit D); [| |intros x y _ _ E|by apply NoDup_filter|done].
  - rewrite filter_fmap. fold D. symmetry. apply top_fmap. done.
  - by apply Forall_true.
  - apply cmp_sorted_eq in E. simpl in E. congruence.
Qed.
End segment.

(** ** A split *)

Lemma split_hits_ord plan schema segs : forall ord x, x ∈ split_hits plan schema ord segs -> ord <= (hit_doc x).1.
Proof.
  induction segs as [|[s ds] segs IH]; intros ord x; [by intros ?%elem_of_nil|]. simpl.
  intros [(d & -> & _)%list_elem_of_fmap|Hx%IH]%elem_of_app; simpl; lia.
Qed.
Lemma split_hits_ok plan schema segs : Forall (segment_ok plan schema) segs -> forall ord,
  Forall (fun x => key_ok (plan_fields plan) (hit_key x)) (split_hits plan schema ord segs).
Proof.
  induction 1 as [|[s ds] segs [Hf _] _ IH]; intros ord; [constructor|]. simpl. apply Forall_app. split; [|by apply IH].
  apply Forall_forall. intros x (d & -> & _)%list_elem_of_fmap. by apply doc_values_ok.
Qed.
(** A hit is determined by its address. *)
Lemma split_hits_inj plan schema segs : forall ord x y, x ∈ split_hits plan schema ord segs -> y ∈ split_hits plan schema ord segs ->
  hit_doc x = hit_doc y -> x = y.
Proof.
  induction segs as [|[s ds] segs IH]; intros ord x y; [by intros ?%elem_of_nil|]. simpl. rewrite !elem_of_app.
  intros [(d & -> & _)%list_elem_of_fmap|Hx] [(d' & -> & _)%list_elem_of_fmap|Hy] E; simpl in E.
  - by injection E as ->.
  - apply split_hits_ord in Hy. rewrite <- E in Hy. simpl in Hy. lia.
  - apply split_hits_ord in Hx. rewrite E in Hx. simpl in Hx. lia.
  - by apply (IH (ord + 1)).
Qed.

Lemma search_segments_spec plan schema limit segs : plan_ok plan -> (0 < limit)%nat -> Forall (segment_ok plan schema) segs ->
  forall ord, exists parts,
    search_segments plan schema limit ord segs = Ok (top (cmp_sorted (orders plan)) limit <$> parts) /\
    concat parts = filter (fun x => past_cursor plan (hit_key x) = true) (split_hits plan schema ord segs).
Proof.
  intros Hp Hl. induction 1 as [|[s ds] segs (Hf & Hd & Hs & Hn) _ IH]; intros ord; [by exists []|].
  destruct (IH (ord + 1)) as (parts & E & Hc). cbn [search_segments].
  destruct (for_segment plan schema s) as [sc|e] eqn:Esc.
  2:{ unfold for_segment in Esc. simpl in *. destruct (ff_date s TIMESTAMP_FIELD); [|done]. by destruct (ff_i64 s SEQ_FIELD). }
  cbn [mbind result_bind]. rewrite E. cbn [mbind result_bind].
  exists (filter (fun x => past_cursor plan (hit_key x) = true) (segment_hits plan schema ord s ds) :: parts). split.
  - cbn [fmap list_fmap]. by rewrite (harvest_segment plan schema s sc ord Esc Hf Hp limit ds Hl Hn).
  - cbn [concat split_hits]. by rewrite filter_app, Hc.
Qed.

Lemma collect_split_top plan schema limit segs :
  plan_ok plan -> Forall (segment_ok plan schema) segs ->
  collect_split plan schema limit segs =
    Ok (top (cmp_sorted (orders plan)) (Nat.max limit 1)
          (filter (fun x => past_cursor plan (hit_key x) = true) (split_hits plan schema 0 segs))).
Proof.
  intros Hp Hs. unfold collect_split.
  destruct (search_segments_spec plan schema (Nat.max limit 1) segs Hp ltac:(lia) Hs 0) as (parts & -> & Hc).
  cbn [mbind result_bind]. f_equal. unfold merge_fruits. fold (top (cmp_sorted (orders plan)) (Nat.max limit 1)). rewrite <- Hc.
  apply (top_concat _ (fun x => key_ok (plan_fields plan) (hit_key x)) (cmp_sorted_good _)); rewrite Hc.
  - apply Forall_forall. intros x [_ Hx]%list_elem_of_filter. pose proof (split_hits_ok plan schema segs Hs 0) as Ho.
    rewrite Forall_forall in Ho. by apply Ho.
  - apply strict_filter. intros x y Hx Hy E. apply cmp_sorted_eq in E. by apply (split_hits_inj plan schema segs 0).
Qed.

(** The search of a split under a field sort returns exactly the first
    hits past the cursor in result order: per-segment ordinals, the bounded
    heap and the merge of the segments lose, repeat and misplace nothing. *)
Theorem collect_split_exact plan schema limit segs :
  plan_ok plan -> Forall (segment_ok plan schema) segs ->
  collect_split plan schema limit segs =
    Ok (top (cmp_sorted (orders plan)) (Nat.max limit 1)
          (filter (fun x => past_cursor plan (hit_key x) = true) (split_hits plan schema 0 segs))).
Proof. apply collect_split_top. Qed.

(** ** Cursors read from a hit resume at it *)

(** Values a hit reports and reads back: the extreme integers are the
    sentinels of a missing value, and a float that is not finite has no JSON. *)
Definition reportable (v : SortValue) : Prop :=
  match v with
  | I64 n => I64_MIN < n < I64_MAX
  | F64 b => is_finite b = true
  | VIp ip => 0 <= ip < 2 ^ 128
  | _ => True
  end.

Lemma as_i64_json n : is_i64 n -> as_i64 (json_i64 n) = Some n.
Proof.
  unfold is_i64, json_i64. intros Hn. destruct (Z.ltb_spec n 0); [done|]. simpl. destruct (Z.leb_spec n I64_MAX); [done|lia].
Qed.

Section echo.
Context `{T : TimeCrate} `{C : TextCodec}.

Lemma parse_json_i64 now n t : is_i64 n -> t = Long \/ t = Date -> parse_sort_value now (json_i64 n) t = Got (sentinel n).
Proof.
  intros Hn Ht. unfold parse_sort_value. replace (is_null (json_i64 n)) with false by done. unfold whole.
  rewrite as_i64_json by done. by destruct Ht as [-> | ->].
Qed.
Lemma sentinel_id n : I64_MIN < n < I64_MAX -> sentinel n = I64 n.
Proof. intros. unfold sentinel. destruct (Z.eqb_spec n I64_MAX), (Z.eqb_spec n I64_MIN); lia || done. Qed.

Lemma value_echo now v t nm : val_ok t v -> reportable v -> parse_sort_value now (to_json v t nm) t = Got v.
Proof.
  destruct v as [|s|n|b|b|ip]; cbn [val_ok reportable to_json].
  - intros _ _. destruct t; try done; try (by destruct nm); rewrite parse_json_i64 by (by destruct nm || tauto); by destruct nm.
  - by intros -> _.
  - intros Ht Hn. rewrite parse_json_i64 by (done || (unfold is_i64; lia)). by rewrite sentinel_id.
  - intros -> Hb. unfold json_f64. by rewrite Hb.
  - intros -> _. by destruct b.
  - intros -> Hip. unfold parse_sort_value. cbn [is_null as_str opt mbind parsed_bind].
    pose proof (parse_format_ip ip Hip) as E. destruct (parse_ip (format_ip ip)) as [a|]; [|done].
    cbn [fmap option_fmap option_map] in E. injection E as E. cbn [opt mbind parsed_bind]. by rewrite E.
Qed.

Lemma values_echo now rs vs tl : values_ok rs vs -> Forall reportable vs -> parse_values now (values_json rs vs ++ tl) rs = Ok vs.
Proof.
  intros H Hr. induction H as [|r v rs vs Hv _ IH]; [by destruct tl|]. apply Forall_cons in Hr as [Hr Hrs].
  cbn [values_json head tail app parse_values]. simpl default. rewrite value_echo by done. cbn [or_stop mbind result_bind].
  by rewrite IH.
Qed.
Lemma length_values_json rs vs : length (values_json rs vs) = length rs.
Proof. revert vs. induction rs; intros; simpl; congruence. Qed.

Lemma tiebreak_echo now n what : I64_MIN < n < I64_MAX -> tiebreak now (json_i64 n) what = Ok n.
Proof. intros Hn. unfold tiebreak. rewrite parse_json_i64 by (unfold is_i64; lia || tauto). by rewrite sentinel_id. Qed.

(** A hit's [sort] array is accepted as a cursor and names the hit's position. *)
Lemma cursor_echo now p vs ts seq :
  values_ok (plan_fields p) vs -> Forall reportable vs -> - MAX_SAFE_MILLIS <= ts <= MAX_SAFE_MILLIS -> I64_MIN < seq < I64_MAX ->
  parse_cursor now (hit_sort_json p vs ts seq) (plan_fields p) = Ok (mkCursor vs (Some ts) (Some seq)).
Proof.
  intros Hv Hr Ht Hs. unfold parse_cursor, hit_sort_json. set (rs := plan_fields p) in *. set (V := values_json rs vs).
  assert (length V = length rs) as HV by apply length_values_json.
  rewrite length_app, HV. simpl length. rewrite (proj2 (Nat.ltb_ge _ _)), (proj2 (Nat.ltb_ge _ _)) by lia. cbn [orb].
  assert (parse_values now (V ++ [json_i64 ts; json_i64 seq]) rs = Ok vs) as -> by by apply values_echo. cbn [mbind result_bind].
  rewrite !lookup_app_r by lia. rewrite HV. replace (length rs - length rs)%nat with 0%nat by lia.
  replace (length rs + 1 - length rs)%nat with 1%nat by lia. cbn [lookup list_lookup transpose].
  assert (0 < MAX_SAFE_MILLIS < I64_MAX) by done. unfold I64_MIN, I64_MAX in *.
  rewrite !tiebreak_echo by (unfold I64_MIN, I64_MAX; lia). cbn [mbind result_bind fmap option_fmap option_map].
  do 3 f_equal. unfold clamp_millis. lia.
Qed.
End echo.

(** Past a cursor with its tiebreak is after it in result order. *)
Lemma past_cursor_after rs vs ts seq k : values_ok rs vs -> key_ok rs k ->
  past_cursor (mkPlan rs (Some (mkCursor vs (Some ts) (Some seq)))) k = true <-> cmp_hits (order <$> rs) (vs, ts, seq) k = Lt.
Proof.
  intros Hv Hk. unfold past_cursor, cmp_hits. cbn [cursor values timestamp_millis cursor_seq fst snd].
  change (orders (mkPlan rs (Some (mkCursor vs (Some ts) (Some seq))))) with (order <$> rs).
  rewrite (cmp_sym (cmp_values_good rs) vs k.1.1) by done.
  destruct (cmp_values (order <$> rs) vs k.1.1); cbn [CompOpp then_cmp]; [|by split..].
  rewrite (Z.compare_antisym k.1.2 ts). destruct (Z.compare_spec k.1.2 ts); cbn [CompOpp then_cmp].
  - rewrite Z.ltb_lt. symmetry. apply Z.compare_lt_iff.
  - by split.
  - by split.
Qed.

(** ** A concrete dictionary and segment *)

Fixpoint find_term (i : Z) (terms : list bytes) (s : bytes) : TermOrdHit :=
  match terms with
  | [] => Next i
  | t :: terms => match bytes_compare s t with Eq => Exact i | Lt => Next i | Gt => find_term (i + 1) terms s end
  end.
Definition linear_dict (terms : list bytes) (ords : Z -> list Z) : StrColumn :=
  mkStrColumn (fun s => Some (find_term 0 terms s)) (fun o => if 0 <=? o then terms !! Z.to_nat o else None) ords.

Lemma find_term_exact terms s : forall i o, find_term i terms s = Exact o -> i <= o /\ terms !! Z.to_nat (o - i) = Some s.
Proof.
  induction terms as [|t terms IH]; intros i o; [done|]. cbn [find_term]. destruct (bytes_compare s t) eqn:E; [|done|].
  - intros [= <-]. apply bytes_compare_eq in E as ->. rewrite Z.sub_diag. by split.
  - intros [Ho Ht]%IH. split; [lia|]. replace (Z.to_nat (o - i)) with (S (Z.to_nat (o - (i + 1)))) by lia. done.
Qed.

Lemma find_term_next terms s : StronglySorted bytes_lt terms -> forall i o, find_term i terms s = Next o ->
  s ∉ terms /\ i <= o /\ forall k t, terms !! k = Some t -> (i + Z.of_nat k < o <-> bytes_lt t s).
Proof.
  induction 1 as [|t terms St IH F]; intros i o; cbn [find_term].
  - intros [= <-]. split; [by intros ?%elem_of_nil|]. split; [lia|done].
  - destruct (bytes_compare s t) eqn:E; [done| |].
    + intros [= <-]. split; [|split; [lia|]].
      * intros [->|Hs]%elem_of_cons; [by rewrite bytes_compare_refl in E|]. rewrite Forall_forall in F. apply F in Hs.
        unfold bytes_lt in Hs. rewrite bytes_compare_antisym, E in Hs. done.
      * intros k u Hu. split; [lia|]. intros Hus. exfalso. destruct k as [|k]; [injection Hu as ->|].
        -- unfold bytes_lt in Hus. rewrite bytes_compare_antisym, E in Hus. done.
        -- simpl in Hu. apply list_elem_of_lookup_2 in Hu. rewrite Forall_forall in F. apply F in Hu.
           assert (bytes_lt s t) as Hst by done. pose proof (bytes_lt_trans _ _ _ Hst (bytes_lt_trans _ _ _ Hu Hus)) as Hc.
           unfold bytes_lt in Hc. by rewrite bytes_compare_refl in Hc.
    + intros (Hn & Ho & Hk)%IH. split; [|split; [lia|]].
      * intros [->|Hs]%elem_of_cons; [by rewrite bytes_compare_refl in E|done].
      * intros [|k] u Hu; [injection Hu as ->|].
        -- split; [|lia]. intros _. unfold bytes_lt. by rewrite bytes_compare_antisym, E.
        -- rewrite <- (Hk k u) by done. lia.
Qed.

Lemma linear_dict_ok terms ords : StronglySorted bytes_lt terms -> Z.of_nat (length terms) < 2 ^ 62 ->
  (forall doc o, o ∈ ords doc -> 0 <= o < Z.of_nat (length terms)) -> dict_ok (linear_dict terms ords) terms.
Proof.
  intros St Hl Ho. split; simpl; try done.
  - intros s. by eexists.
  - intros s o [= E]. apply find_term_exact in E. by rewrite Z.sub_0_r in E.
  - intros s o [= E]. destruct (find_term_next terms s St _ _ E) as (Hn & _ & Hk). by split.
Qed.

(** A segment with one string column: per document, its term. *)
Definition demo_segment (terms : list bytes) (ords : Z -> list Z) : Segment :=
  mkSegment (fun name => if decide (name = str "name") then Ok (Some (linear_dict terms ords)) else Ok None)
    (fun _ => Ok None) (fun _ => Ok None) (fun _ => Ok None)
    (fun name => if decide (name = TIMESTAMP_FIELD) then Ok (Some (fun doc => [doc])) else Ok None)
    (fun _ => Ok None) (fun _ => []).
Definition demo_schema : MappedSchema := build (mkMapping [(str "name", new_def FKeyword (str "keyword"))] []).
Definition by_name (sub : option SortValue) : ResolvedSort :=
  mkResolved (str "name") (TMapped (str "name")) Keyword false false true sub.

Definition demo_ords (doc : Z) : list Z := if doc =? 0 then [2] else if doc =? 1 then [0] else if doc =? 2 then [1; 0] else [].
Definition demo_segments : list (Segment * list Z) :=
  [(demo_segment [str "a"; str "k"; str "z"] demo_ords, [0; 1; 2; 3]);
   (demo_segment [str "b"; str "z"] (fun doc => if doc =? 0 then [0] else [1]), [0; 1])].
Definition demo_plan : FieldSortPlan := mkPlan [by_name None] (Some (mkCursor [Str (str "a")] (Some 1) (Some (-1)))).

(** Past ("a", 1): the "b" and the two "z" there are, then the one without. *)
Lemma collect_split_exact_witness :
  Forall (segment_ok demo_plan demo_schema) demo_segments /\
  collect_split demo_plan demo_schema 3 demo_segments =
    Ok [mkHit [Str (str "b")] 0 (-1) (1, 0); mkHit [Str (str "z")] 1 (-1) (1, 1); mkHit [Str (str "z")] 0 (-1) (0, 0)].
Proof.
  assert (Forall (segment_ok demo_plan demo_schema) demo_segments) as Hs.
  { assert (forall terms ords, StronglySorted bytes_lt terms -> Z.of_nat (length terms) < 2 ^ 62 ->
      (forall doc o, o ∈ ords doc -> 0 <= o < Z.of_nat (length terms)) -> acc_ok (AStr (linear_dict terms ords)) Keyword) as Ha.
    { intros terms ords St Hl Ho. split; [done|]. exists terms. by apply linear_dict_ok. }
    repeat constructor; try (simpl; apply Ha); try (by repeat constructor); try (by intros ?%elem_of_nil); try set_solver by lia.
    - intros doc o. unfold demo_ords. repeat destruct (_ =? _); set_solver by lia.
    - intros doc o. destruct (_ =? _); set_solver by lia. }
  split; [done|].
  rewrite (collect_split_exact demo_plan demo_schema 3 demo_segments); [vm_compute; reflexivity| |done].
  split; [by repeat constructor|by repeat constructor].
Defined.

(** A document of a segment that holds neither its substitute value nor
    the cursor's string compares equal to the cursor, whatever the strings: the
    page past "la" omits a document sorted as "m" ([key_for] maps both to the
    place between "k" and "z"), though "m" is past "la" in the global order. *)
Theorem absent_substitute_skipped :
  let cursor := mkCursor [Str (str "la")] (Some 0) (Some 0) in
  let plan := mkPlan [by_name (Some (Str (str "m")))] (Some cursor) in
  let segs := [(demo_segment [str "k"; str "z"] (fun _ => []), [5])] in
  split_hits plan demo_schema 0 segs = [mkHit [Str (str "m")] 5 (-1) (0, 5)] /\
  past_cursor plan ([Str (str "m")], 5, -1) = true /\
  collect_split plan demo_schema 10 segs = Ok [].
Proof. repeat split; vm_compute; reflexivity. Qed.

(** The largest integer is reported as the sentinel of a missing value: the
    cursor of one hit with it is past every other hit with it. *)
Lemma extreme_long_skipped `{T : TimeCrate} `{C : TextCodec} now :
  let r := mkResolved (str "n") TUnmapped Long false false true None in
  let v := I64 I64_MAX in
  parse_cursor now (hit_sort_json (mkPlan [r] None) [v] 0 2) [r] = Ok (mkCursor [Missing] (Some 0) (Some 2)) /\
  cmp_hits [order r] ([v], 0, 2) ([v], 0, 1) = Lt /\
  past_cursor (mkPlan [r] (Some (mkCursor [Missing] (Some 0) (Some 2)))) ([v], 0, 1) = false.
Proof. repeat split. Qed.

(** Several clauses on the timestamp: the last one's direction is used, though
    clauses order hits first to last. *)
Lemma last_timestamp_clause_wins :
  parse_sort (Some (Array [Object [(str "@timestamp", JString (str "asc"))]; Object [(str "timestamp", JString (str "desc"))]])) = Ok (Timestamp true).
Proof. reflexivity. Qed.
