(* ===== verification/Search.v ===== *)
(** * The search of a stream (crates/rsearch-search/src/executor.rs)

    [SearchRequest::parse], the pages of a search over the published splits of
    a stream: what each split contributes, the global merge, the hit count, and
    the [search_after] cursors that resume it.  A reader translates the query with
    its own schema ([QueryDsl]); which documents match the translation, and the
    top-k collector for the timestamp order, are the index library's.  Aggregations are left to the index library: only whether some
    were asked for matters here. *)

From Stdlib Require Import ZArith Lia.
From Stdlib Require Import Strings.Byte.
From stdpp Require Import base gmap sets list strings sorting.
From S2P Require Import Prelude Order Json Float64 Dates Net Metastore Exclusions Mapping Document QueryDsl Sort.

Local Open Scope Z_scope.

Definition MAX_RESULT_WINDOW : Z := 10000.
Definition MAX_QUERY_SPLITS : Z := 10000.
Definition DEFAULT_TRACK_TOTAL_HITS : Z := 10000.

Inductive Refusal :=
| WindowTooLarge | EmptySearchAfter | AfterTimestamp | AfterSeq | AfterShape | FromWithAfter
| TooManySplits | InvalidAggregations | Unsortable (s : Stop) | BadQuery (why : Why).
Inductive SearchError :=
| BadRequest (why : Refusal) | IndexError | MetastoreError | TantivyError | Internal.
Notation SearchResult := (result SearchError).

(** ** The request *)

Record SearchAfter := mkAfter { sa_ts : Z; sa_seq : option Z }.

Record SearchRequest := mkRequest {
  rq_query : json;
  from : Z;
  size : Z;
  rq_sort : SortSpec;
  rq_aggs : option json;
  include_source : bool;
  track_total_hits : option Z;
  search_after : option SearchAfter;
  search_after_values : option (list json);
}.

Definition u64_or (j : option json) (d : Z) : Z := default d (v ← j; as_u64 v).

(** Three readings of an integer: JSON integer, whole float, numeric string. *)
Definition after_i64 (v : json) : option Z :=
  match whole v with Some n => Some n | None => str_i64 v end.

Definition parse_after (vals : list json) : SearchResult SearchAfter :=
  match vals with
  | v0 :: rest =>
      ts ← ok_or (after_i64 v0) (BadRequest AfterTimestamp);
      seq ← match rest with
            | v1 :: _ => s ← ok_or (after_i64 v1) (BadRequest AfterSeq); Ok (Some s)
            | [] => Ok None
            end;
      Ok (mkAfter (clamp_millis ts) seq)
  | [] => Err (BadRequest AfterShape)
  end.

Definition parse_track (v : option json) : option Z :=
  match v with
  | Some (Bool true) | None => Some DEFAULT_TRACK_TOTAL_HITS
  | Some (Bool false) => Some 0
  | Some (Number n) => as_u64 (Number n)
  | _ => Some DEFAULT_TRACK_TOTAL_HITS
  end.

(** [SearchRequest::parse]. *)
Definition parse_request (body : json) : SearchResult SearchRequest :=
  let query := default (Object [(str "match_all", Object [])]) (get body (str "query")) in
  let frm := u64_or (get body (str "from")) 0 in
  let sz := u64_or (get body (str "size")) 10 in
  if (MAX_RESULT_WINDOW <? sz) || (MAX_RESULT_WINDOW <? frm) || (MAX_RESULT_WINDOW <? frm + sz)
  then Err (BadRequest WindowTooLarge)
  else
    let track := parse_track (get body (str "track_total_hits")) in
    sort ← match parse_sort (get body (str "sort")) with Ok s => Ok s | Err e => Err (BadRequest (Unsortable e)) end;
    let field_sort := match sort with Fields _ => true | _ => false end in
    '(after, values) ←
      match get body (str "search_after") with
      | None | Some Null => Ok (None, None)
      | Some (Array vals) =>
          if field_sort then
            if decide (vals = []) then Err (BadRequest EmptySearchAfter) else Ok (None, Some vals)
          else if (1 <=? length vals)%nat && (length vals <=? 2)%nat then
            a ← parse_after vals; Ok (Some a, None)
          else Err (BadRequest AfterShape)
      | Some _ => Err (BadRequest AfterShape)
      end;
    if (bool_decide (is_Some after) || bool_decide (is_Some values)) && negb (frm =? 0)
    then Err (BadRequest FromWithAfter)
    else
      let aggs := match get body (str "aggs") with Some a => Some a | None => get body (str "aggregations") end in
      let source := match get body (str "_source") with Some (Bool false) => false | _ => true end in
      Ok (mkRequest query frm sz sort aggs source track after values).

(** ** One split *)

(** An open split: the schema it was built with, its segments, its string-valued
    dynamic paths, the documents (per segment, ascending) a translated query
    matches, and its tombstoned versions so far. *)
Record Reader := mkReader {
  rd_schema : MappedSchema;
  rd_segments : list Segment;
  rd_paths : QueryResult (list bytes);
  rd_match : Query -> SearchResult (list (list Z));
  rd_view : SplitView;
  rd_excluded : ExclusionSet;
}.

Inductive SortPlan :=
| ByTimestamp (d : bool) (after : option SearchAfter)
| ByFields (plan : FieldSortPlan).

Record SplitHit := mkSplitHit {
  sh_ts : Z;
  sh_seq : option Z;
  split_idx : Z;
  sh_doc : Z * Z;
  sh_values : option (list SortValue);
}.

(** A document's values in the two reserved columns. *)
Definition ts_values (s : Segment) (doc : Z) : list Z :=
  match result_col (ff_date s TIMESTAMP_FIELD) with Some c => c doc | None => [] end.
Definition seq_values (s : Segment) (doc : Z) : list Z :=
  match result_col (ff_i64 s SEQ_FIELD) with Some c => c doc | None => [] end.
(** [RangeQuery]: a value of the column in the range. *)
Definition in_range (p : Z -> bool) (vs : list Z) : bool := existsb p vs.

(** [cursor_clause]: the documents strictly past the cursor. *)
Definition cursor_clause (schema : MappedSchema) (c : SearchAfter) (sort_desc : bool) (s : Segment) (doc : Z) : bool :=
  let ts := ts_values s doc in
  let past_ts := in_range (fun t => if sort_desc then t <? sa_ts c else sa_ts c <? t) ts in
  match sa_seq c with
  | None => past_ts
  | Some cseq =>
      if has_seq schema then
        let past_seq := in_range (fun q => if sort_desc then q <? cseq else cseq <? q) (seq_values s doc) in
        let at_ts := in_range (fun t => t =? sa_ts c) ts in
        past_ts || (at_ts && past_seq)
      else if sort_desc && (0 <=? cseq) then in_range (fun t => t <=? sa_ts c) ts
      else past_ts
  end.

(** [i64::saturating_neg]. *)
Definition saturating_neg (n : Z) : Z := sat_i64 (- n).

(** [top_sort_key_collector]: greatest key first, ties by ascending address. *)
Definition top_key (sort_desc : bool) (s : Segment) (doc : Z) : Z * Z :=
  let ts := default 0 (head (ts_values s doc)) in
  let seq := default (-1) (head (seq_values s doc)) in
  if sort_desc then (ts, seq) else (saturating_neg ts, saturating_neg seq).
Definition cmp_top (a b : (Z * Z) * (Z * Z)) : comparison :=
  then_cmp (Z.compare b.1.1 a.1.1) (then_cmp (Z.compare b.1.2 a.1.2) (cmp_address a.2 b.2)).

(** [make_hits]. *)
Definition make_hit (sort_desc : bool) (idx : Z) (t : (Z * Z) * (Z * Z)) : SplitHit :=
  let '((ts, seq), doc) := t in
  let '(ts, seq) := if sort_desc then (ts, seq) else (saturating_neg ts, saturating_neg seq) in
  mkSplitHit ts (if 0 <=? seq then Some seq else None) idx doc None.

Fixpoint top_keys (sort_desc : bool) (keep : Segment -> Z -> bool) (ord : Z) (segs : list (Segment * list Z)) : list ((Z * Z) * (Z * Z)) :=
  match segs with
  | [] => []
  | (s, docs) :: segs =>
      ((fun d => (top_key sort_desc s d, (ord, d))) <$> filter (fun d => keep s d = true) docs)
      ++ top_keys sort_desc keep (ord + 1) segs
  end.

(** The query's matches less the tombstoned versions. *)
Definition excluded_docs (set : option ExclusionSet) (matches : list (list Z)) : list (list Z) :=
  match set with
  | None => matches
  | Some set => (fun p => filter (fun d => Exclusions.contains set p.1 d = false) p.2) <$> enumerate matches
  end.

(** [page_search]. *)
Definition page_search (rd : Reader) (plan : SortPlan) (fetch_limit idx : Z) (outside : bool) (base : list (list Z))
    : SearchResult (list SplitHit) :=
  if outside then Ok []
  else
    let segs := zip (rd_segments rd) base in
    match plan with
    | ByFields p =>
        match collect_split p (rd_schema rd) (Z.to_nat fetch_limit) segs with
        | Ok hits => Ok ((fun h => mkSplitHit (hit_ts h) (if 0 <=? hit_seq h then Some (hit_seq h) else None) idx
                                     (hit_doc h) (Some (hit_values h))) <$> hits)
        | Err _ => Err TantivyError
        end
    | ByTimestamp d after =>
        let keep s doc := match after with Some c => cursor_clause (rd_schema rd) c d s doc | None => true end in
        Ok (make_hit d idx <$> top cmp_top (Nat.max (Z.to_nat fetch_limit) 1) (top_keys d keep 0 segs))
    end.

Record SplitOutcome := mkOutcome { count : Z; is_lower_bound : bool; oc_hits : list SplitHit }.

Definition count_docs (docs : list (list Z)) : Z := Z.of_nat (length (concat docs)).

Section split.
Context `{T : TimeCrate} `{C : TextCodec} `{X : TextTables} `{I : IndexCrate} (now : Z).

Definition reader_matches (rd : Reader) (query : json) : SearchResult (list (list Z)) :=
  match translate_query now (rd_schema rd) (rd_paths rd) query with
  | Ok q => rd_match rd q
  | Err (QueryDsl.BadRequest why) => Err (BadRequest (BadQuery why))
  | Err PathsFailed => Err IndexError
  | Err _ => Err Internal
  end.

Definition search_one_split (rd : Reader) (query : json) (has_aggs : bool) (fetch_limit : Z) (plan : SortPlan)
    (outside skip_count : bool) (idx doc_count : Z) (fully_covered : bool) (set : option ExclusionSet) : SearchResult SplitOutcome :=
  matches ← reader_matches rd query;
  let base := excluded_docs set matches in
  let doc_count := match set with Some set => Z.max 0 (doc_count - excl_len set) | None => doc_count end in
  if fully_covered && negb has_aggs then
    hits ← page_search rd plan fetch_limit idx outside base;
    Ok (mkOutcome doc_count false hits)
  else if has_aggs then
    hits ← page_search rd plan fetch_limit idx outside base;
    Ok (mkOutcome (count_docs base) false hits)
  else if skip_count then
    hits ← page_search rd plan fetch_limit idx outside base;
    Ok (mkOutcome (Z.of_nat (length hits)) true hits)
  else
    hits ← page_search rd plan fetch_limit idx outside base;
    Ok (mkOutcome (count_docs base) false hits).
End split.

(** ** The search of a stream *)

Definition opt_all {A} (p : A -> bool) (o : option A) : bool := match o with Some a => p a | None => true end.

Definition match_all_query (query : json) : bool :=
  match query with Object ((k, _) :: _) => bool_decide (k = str "match_all") | _ => false end.
Definition is_covered (query : json) (b : Bounds) (s : SplitRecord) : bool :=
  match_all_query query && opt_all (fun t => t <=? ns_time_start (sp_new s)) b.1 && opt_all (fun e => ns_time_end (sp_new s) <=? e) b.2.
Definition outside_cursor (plan : SortPlan) (s : SplitRecord) : bool :=
  match plan with
  | ByTimestamp true (Some c) => sa_ts c <? ns_time_start (sp_new s)
  | ByTimestamp false (Some c) => ns_time_end (sp_new s) <? sa_ts c
  | _ => false
  end.

(** What all the splits of one search share. *)
Record Job := mkJob {
  jb_query : json;
  jb_bounds : Bounds;
  jb_aggs : bool;
  jb_limit : Z;
  jb_plan : SortPlan;
  jb_track : option Z;
  jb_tombstones : option (list Tombstone);
}.

(** The splits searched, each with what opening its reader gives. *)
Notation Splits := (list (SplitRecord * SearchResult Reader)).

(** The tombstones a split's documents can be hidden by, applied to its reader;
    [None] when nothing is hidden. *)
Definition exclusions (jb : Job) (s : SplitRecord) (rd : Reader) : option ExclusionSet :=
  match jb_tombstones jb with
  | Some l =>
      if bool_decide (is_Some (ns_seq_min (sp_new s))) then
        let set := apply_tombstones (rd_view rd) (rd_excluded rd) l in
        if excl_is_empty set then None else Some set
      else None
  | None => None
  end.

Definition skip_counting (track : option Z) (counted : Z) : bool :=
  match track with Some cap => cap <=? counted | None => false end.

Section search.
Context `{T : TimeCrate} `{C : TextCodec} `{X : TextTables} `{I : IndexCrate} (now : Z).

(** The task of one split, after it has read the counter. *)
Definition split_task (jb : Job) (idx : nat) (sl : SplitRecord * SearchResult Reader) (skip : bool) : SearchResult SplitOutcome :=
  let outside := outside_cursor (jb_plan jb) sl.1 in
  if outside && skip && negb (jb_aggs jb) then Ok (mkOutcome 0 true [])
  else
    rd ← sl.2;
    search_one_split now rd (jb_query jb) (jb_aggs jb) (jb_limit jb) (jb_plan jb) outside skip (Z.of_nat idx)
      (ns_doc_count (sp_new sl.1)) (is_covered (jb_query jb) (jb_bounds jb) sl.1) (exclusions jb sl.1 rd).

(** The tasks run concurrently: each reads the counter of matches when it
    starts and adds its count when it is done. *)
Inductive event := Load (i : nat) | Add (i : nat).
#[export] Instance event_eq_dec : EqDecision event.
Proof. solve_decision. Defined.
Record Run := mkRun { counted : Z; outcomes : gmap nat (SearchResult SplitOutcome) }.
Definition step (jb : Job) (splits : Splits) (r : Run) (e : event) : Run :=
  match e with
  | Load i =>
      match splits !! i with
      | Some sl => mkRun (counted r) (<[i := split_task jb i sl (skip_counting (jb_track jb) (counted r))]> (outcomes r))
      | None => r
      end
  | Add i => match outcomes r !! i with Some (Ok o) => mkRun (counted r + count o) (outcomes r) | _ => r end
  end.
Definition run (jb : Job) (splits : Splits) (evs : list event) : Run := foldl (step jb splits) (mkRun 0 ∅) evs.

(** The outcomes in split order, or the first error. *)
Fixpoint gather (outs : list (option (SearchResult SplitOutcome))) : SearchResult (list SplitOutcome) :=
  match outs with
  | [] => Ok []
  | o :: outs => a ← default (Err Internal) o; rest ← gather outs; Ok (a :: rest)
  end.
Definition search_splits (jb : Job) (splits : Splits) (evs : list event) : SearchResult (list SplitOutcome) :=
  let r := run jb splits evs in
  gather ((fun i => outcomes r !! i) <$> seq 0 (length splits)).

(** *** Merging *)

Definition merge_key (h : SplitHit) : HitKey := (default [] (sh_values h), sh_ts h, default (-1) (sh_seq h)).
Definition cmp_primary (plan : SortPlan) (a b : HitKey) : comparison :=
  match plan with
  | ByFields p => cmp_hits (orders p) a b
  | ByTimestamp true _ => then_cmp (Z.compare b.1.2 a.1.2) (Z.compare b.2 a.2)
  | ByTimestamp false _ => then_cmp (Z.compare a.1.2 b.1.2) (Z.compare a.2 b.2)
  end.
Definition cmp_merge (plan : SortPlan) (a b : SplitHit) : comparison :=
  then_cmp (cmp_primary plan (merge_key a) (merge_key b))
    (then_cmp (Z.compare (split_idx a) (split_idx b)) (cmp_address (sh_doc a) (sh_doc b))).

Record Page := mkPage { pg_total : Z; pg_lower_bound : bool; pg_hits : list SplitHit }.
Definition merge (plan : SortPlan) (frm sz : Z) (outs : list SplitOutcome) : Page :=
  mkPage (foldr Z.add 0 (count <$> outs)) (existsb is_lower_bound outs)
    (take (Z.to_nat sz) (drop (Z.to_nat frm) (sort_by (cmp_merge plan) (concat (oc_hits <$> outs))))).

(** *** The page's documents *)

(** A stored document: its [_id], [_seq] and source. *)
Notation Stored := (option bytes * option Z * option bytes)%type.

(** The positions of each split's hits, and the documents put back at their
    positions in the order the splits are read. *)
Definition group (page : list SplitHit) (idx : Z) : list nat :=
  (filter (fun ph => split_idx ph.2 = idx) (enumerate page)).*1.
Definition fetch_docs (stored : SplitHit -> Stored) (page : list SplitHit) (groups : list (list nat)) : list Stored :=
  foldl (fun docs pos => match page !! pos with Some h => <[pos := stored h]> docs | None => docs end)
    (replicate (length page) (None, None, None)) (concat groups).

Definition hit_address (split_id : bytes) (doc : Z * Z) : bytes := split_id ++ str ":" ++ dec doc.1 ++ str ":" ++ dec doc.2.
Definition sort_json (plan : SortPlan) (h : SplitHit) (seq : Z) : list json :=
  match plan with
  | ByFields p => hit_sort_json p (default [] (sh_values h)) (sh_ts h) seq
  | ByTimestamp _ _ => [json_i64 (sh_ts h); json_i64 seq]
  end.
(** [serde_json::from_str] of a source. *)
Definition hit_envelope (from_str : bytes -> option json) (split_id stream : bytes) (plan : SortPlan) (include_source : bool) (h : SplitHit) (d : Stored) : json :=
  let '(id, seq, source) := d in
  let base := [(str "_id", JString (default (hit_address split_id (sh_doc h)) id)); (str "_index", JString stream);
               (str "_score", Null); (str "sort", Array (sort_json plan h (default (-1) seq)))] in
  let with_version := match seq with Some s => obj_insert (str "_version") (json_i64 s) base | None => base end in
  Object (if include_source then obj_insert (str "_source") (default Null (s ← source; from_str s)) with_version else with_version).

(** *** [search] *)

(** What a search is run against: the stream's record and schema, the tables it
    reads, and the outcomes of the work outside. *)
Record Env := mkEnv {
  ev_stream : StreamRecord;
  ev_schema : MappedSchema;
  ev_db : Metastore;
  ev_dynamic : SearchResult (gmap bytes (list bytes));     (** the inventory of dynamic fields *)
  ev_tombstones : SearchResult (list Tombstone);
  ev_open : SplitRecord -> SearchResult Reader;
  ev_aggs_ok : json -> bool;                               (** the library accepts the aggregations *)
  ev_events : list event;
}.

Definition needs_inventory (schema : MappedSchema) (fs : list SortField) : bool :=
  existsb (fun f => negb (is_timestamp f) && negb (bool_decide (field f = SEQ_FIELD)) && negb (bool_decide (is_Some (fields schema !! field f)))) fs.
Definition or_unsortable {A} (r : result Stop A) : SearchResult A :=
  match r with Ok a => Ok a | Err Sort.Panicked => Err Internal | Err e => Err (BadRequest (Unsortable e)) end.
Definition make_plan (ev : Env) (rq : SearchRequest) : SearchResult SortPlan :=
  match rq_sort rq with
  | Timestamp d => Ok (ByTimestamp d (search_after rq))
  | Fields fs =>
      inventory ← if needs_inventory (ev_schema ev) fs then ev_dynamic ev else Ok ∅;
      resolved ← or_unsortable (resolve_sort now (ev_schema ev) inventory fs);
      cur ← match search_after_values rq with
            | Some vs => c ← or_unsortable (parse_cursor now vs resolved); Ok (Some c)
            | None => Ok None
            end;
      Ok (ByFields (mkPlan resolved cur))
  end.

Definition search_job (ev : Env) (rq : SearchRequest) : SearchResult (Job * Splits) :=
  b ← ok_or (extract_time_bounds now (rq_query rq)) Internal;
  let splits := splits_for_query (ev_db ev) (st_id (ev_stream ev)) b.1 b.2 (MAX_QUERY_SPLITS + 1) in
  if MAX_QUERY_SPLITS <? Z.of_nat (length splits) then Err (BadRequest TooManySplits)
  else
    let aggs := rewrite_agg_fields (ev_schema ev) <$> rq_aggs rq in
    if negb (opt_all (ev_aggs_ok ev) aggs) then Err (BadRequest InvalidAggregations)
    else
      tombstones ← if is_document_mode (ev_stream ev)
                   then l ← ev_tombstones ev; Ok (if decide (l = []) then None else Some l) else Ok None;
      plan ← make_plan ev rq;
      Ok (mkJob (rq_query rq) b (bool_decide (is_Some aggs)) (from rq + size rq) plan (track_total_hits rq) tombstones,
          (fun s => (s, ev_open ev s)) <$> splits).

Definition search (ev : Env) (rq : SearchRequest) : SearchResult (SortPlan * Page) :=
  '(jb, splits) ← search_job ev rq;
  outs ← search_splits jb splits (ev_events ev);
  Ok (jb_plan jb, merge (jb_plan jb) (from rq) (size rq) outs).

(** *** [get_documents] *)

(** The hits of a response. *)
Definition response_hits (from_str : bytes -> option json) (split_id : Z -> bytes) (stored : SplitHit -> Stored) (stream : bytes) (include_source : bool)
    (r : SortPlan * Page) : list json :=
  (fun h => hit_envelope from_str (split_id (split_idx h)) stream r.1 include_source h (stored h)) <$> pg_hits r.2.

Definition CHUNK : nat := 1000.
Definition ids_request (ids : list bytes) : SearchRequest :=
  mkRequest (Object [(str "ids", Object [(str "values", Array (JString <$> ids))])]) 0 MAX_RESULT_WINDOW (Timestamp true) None true (Some 0) None None.

(** A document found: its version and source. *)
Notation Found := (gmap bytes (Z * json)).
Definition version_of (hit : json) : Z := default 0 (v ← get hit (str "_version"); as_i64 v).
Definition keep_newest (out : Found) (hit : json) : Found :=
  match (v ← get hit (str "_id"); as_str v) with
  | None => out
  | Some id =>
      if match out !! id with None => true | Some cur => cur.1 <? version_of hit end
      then <[id := (version_of hit, default Null (get hit (str "_source")))]> out else out
  end.

(** [evs]: the interleaving of each chunk's tasks. *)
Fixpoint get_chunks (hits : SortPlan * Page -> list json) (ev : Env) (evs : list (list event)) (ids : list bytes) (out : Found) : SearchResult Found :=
  match ids, evs with
  | [], _ => Ok out
  | _, [] => Err Internal
  | _, e :: evs =>
      r ← search (mkEnv (ev_stream ev) (ev_schema ev) (ev_db ev) (ev_dynamic ev) (ev_tombstones ev) (ev_open ev) (ev_aggs_ok ev) e) (ids_request (take CHUNK ids));
      get_chunks hits ev evs (drop CHUNK ids) (foldl keep_newest out (hits r))
  end.
End search.

(** ** One split's page *)

Definition doc_ts (s : Segment) (d : Z) : Z := default 0 (head (ts_values s d)).
Definition doc_seq (s : Segment) (d : Z) : Z := default (-1) (head (seq_values s d)).

(** A document has one timestamp, and one [_seq] in a split that carries them. *)
Definition tidy_doc (schema : MappedSchema) (s : Segment) (d : Z) : Prop :=
  (exists t, ts_values s d = [t] /\ I64_MIN < t <= I64_MAX) /\
  (if has_seq schema then exists q, seq_values s d = [q] /\ 0 <= q <= I64_MAX else seq_values s d = []).
(** A cursor a page reported: a [_seq], or the [-1] of a document without. *)
Definition sent_cursor (c : SearchAfter) : Prop := match sa_seq c with Some q => -1 <= q | None => True end.

(** Strictly past a cursor in (timestamp, [_seq]) order. *)
Definition past_after (sort_desc : bool) (c : SearchAfter) (ts seq : Z) : bool :=
  let past_ts := if sort_desc then ts <? sa_ts c else sa_ts c <? ts in
  match sa_seq c with
  | None => past_ts
  | Some q => past_ts || ((ts =? sa_ts c) && (if sort_desc then seq <? q else q <? seq))
  end.

Lemma doc_seq_range schema s d : tidy_doc schema s d -> -1 <= doc_seq s d <= I64_MAX.
Proof.
  intros [_ H]. unfold doc_seq. destruct (has_seq schema).
  - destruct H as (q & E & Hq). rewrite E. cbn. lia.
  - rewrite H. cbn. unfold I64_MAX. lia.
Qed.
Lemma doc_ts_range schema s d : tidy_doc schema s d -> I64_MIN < doc_ts s d <= I64_MAX.
Proof. intros [(t & E & ?) _]. unfold doc_ts. by rewrite E. Qed.

(** The clause keeps exactly the documents past the cursor, a document without
    [_seq] counting as [-1]. *)
Lemma cursor_clause_spec schema c dir s d : tidy_doc schema s d -> sent_cursor c ->
  cursor_clause schema c dir s d = past_after dir c (doc_ts s d) (doc_seq s d).
Proof.
  intros [(t & Et & _) Hq] Hc. unfold cursor_clause, past_after, doc_ts, doc_seq. rewrite Et. cbn [in_range existsb head hd_error default from_option id].
  unfold sent_cursor in Hc. destruct (sa_seq c) as [q|]; [|by rewrite orb_false_r].
  destruct (has_seq schema).
  - destruct Hq as (v & -> & _). cbn [in_range existsb head hd_error default from_option id]. rewrite !orb_false_r. done.
  - rewrite Hq. cbn [in_range existsb head hd_error default from_option id]. destruct dir; cbn [andb].
    + destruct (Z.leb_spec 0 q); cbn [existsb]; rewrite !orb_false_r.
      * assert (-1 <? q = true) as -> by (apply Z.ltb_lt; lia). rewrite andb_true_r.
        destruct (Z.leb_spec t (sa_ts c)), (Z.ltb_spec t (sa_ts c)), (Z.eqb_spec t (sa_ts c)); simpl; lia.
      * assert (-1 <? q = false) as -> by (apply Z.ltb_ge; lia). by rewrite andb_false_r, orb_false_r.
    + rewrite orb_false_r. assert (q <? -1 = false) as -> by (apply Z.ltb_ge; lia). by rewrite andb_false_r, orb_false_r.
Qed.

(** The hits of a split's documents, in document order. *)
Definition ts_hit (idx ord : Z) (s : Segment) (d : Z) : SplitHit :=
  mkSplitHit (doc_ts s d) (if 0 <=? doc_seq s d then Some (doc_seq s d) else None) idx (ord, d) None.
Fixpoint ts_hits (idx ord : Z) (segs : list (Segment * list Z)) : list SplitHit :=
  match segs with
  | [] => []
  | (s, docs) :: segs => (ts_hit idx ord s <$> docs) ++ ts_hits idx (ord + 1) segs
  end.
Definition field_hit (idx : Z) (h : SortedHit) : SplitHit :=
  mkSplitHit (hit_ts h) (if 0 <=? hit_seq h then Some (hit_seq h) else None) idx (hit_doc h) (Some (hit_values h)).

(** What a split may contribute to the page: its hits past the cursor. *)
Definition hit_past (dir : bool) (after : option SearchAfter) (h : SplitHit) : bool :=
  match after with Some c => past_after dir c (sh_ts h) (default (-1) (sh_seq h)) | None => true end.
Definition split_candidates (plan : SortPlan) (rd : Reader) (idx : Z) (base : list (list Z)) : list SplitHit :=
  let segs := zip (rd_segments rd) base in
  match plan with
  | ByTimestamp dir after => filter (fun h => hit_past dir after h = true) (ts_hits idx 0 segs)
  | ByFields p => field_hit idx <$> filter (fun x => past_cursor p (hit_key x) = true) (split_hits p (rd_schema rd) 0 segs)
  end.

(** A reader whose columns are what the plan reads. *)
Definition reader_ok (plan : SortPlan) (rd : Reader) (base : list (list Z)) : Prop :=
  let segs := zip (rd_segments rd) base in
  match plan with
  | ByTimestamp _ after => (match after with Some c => sent_cursor c | None => True end) /\
      Forall (fun p : Segment * list Z => Forall (tidy_doc (rd_schema rd) p.1) p.2) segs
  | ByFields p => plan_ok p /\ Forall (segment_ok p (rd_schema rd)) segs /\
      Forall (fun x => -1 <= hit_seq x) (split_hits p (rd_schema rd) 0 segs)
  end.

Lemma some_nonneg q : -1 <= q -> default (-1) (if 0 <=? q then Some q else None) = q.
Proof. intros H. destruct (Z.leb_spec 0 q); simpl; lia. Qed.

Lemma saturating_neg_twice t : I64_MIN < t <= I64_MAX -> saturating_neg (saturating_neg t) = t.
Proof. unfold saturating_neg, sat_i64, I64_MIN, I64_MAX. lia. Qed.
Lemma saturating_neg_compare a b : I64_MIN < a <= I64_MAX -> I64_MIN < b <= I64_MAX ->
  Z.compare (saturating_neg b) (saturating_neg a) = Z.compare a b.
Proof.
  intros Ha Hb. unfold saturating_neg. assert (sat_i64 (- a) = - a /\ sat_i64 (- b) = - b) as [-> ->] by (unfold sat_i64, I64_MIN, I64_MAX in *; lia).
  rewrite Z.compare_opp. done.
Qed.

(** The collector's key of a hit. *)
Definition hit_top (dir : bool) (h : SplitHit) : (Z * Z) * (Z * Z) :=
  (if dir then (sh_ts h, default (-1) (sh_seq h)) else (saturating_neg (sh_ts h), saturating_neg (default (-1) (sh_seq h))), sh_doc h).
(** The hits a tidy split gives. *)
Definition plain_hit (idx : Z) (h : SplitHit) : Prop :=
  I64_MIN < sh_ts h <= I64_MAX /\ (forall q, sh_seq h = Some q -> 0 <= q <= I64_MAX) /\ split_idx h = idx /\ sh_values h = None.

Lemma plain_seq idx h : plain_hit idx h -> -1 <= default (-1) (sh_seq h) <= I64_MAX.
Proof. intros (_ & H & _). destruct (sh_seq h) as [q|]; simpl; [specialize (H q eq_refl); lia|by vm_compute]. Qed.
Lemma ts_hits_plain schema idx segs : Forall (fun p : Segment * list Z => Forall (tidy_doc schema p.1) p.2) segs -> forall ord,
  Forall (plain_hit idx) (ts_hits idx ord segs).
Proof.
  induction 1 as [|[s ds] segs Hs _ IH]; intros ord; [constructor|]. cbn [ts_hits]. apply Forall_app. split; [|by apply IH].
  apply Forall_fmap. eapply Forall_impl; [exact Hs|]. intros d Hd. split; [by eapply doc_ts_range|]. split; [|done].
  intros q. unfold ts_hit. cbn [sh_seq]. pose proof (doc_seq_range _ _ _ Hd) as H. destruct (Z.leb_spec 0 (doc_seq s d)); [|done]. intros [= <-]. cbn [fst] in H. lia.
Qed.

Lemma make_hit_top dir idx h : plain_hit idx h -> make_hit dir idx (hit_top dir h) = h.
Proof.
  intros Hp. pose proof (plain_seq idx h Hp) as Hq. destruct Hp as (Ht & Hs & Hi & Hv). unfold make_hit, hit_top.
  assert (I64_MIN < -1) by by vm_compute.
  destruct dir; cbn [fst snd]; rewrite ?saturating_neg_twice by lia; destruct h as [ts sq i doc vs]; cbn in *; subst;
    (f_equal; destruct sq as [q|]; [|done]; specialize (Hs q eq_refl); cbn [default from_option id]; assert (0 <=? q = true) as -> by (apply Z.leb_le; lia); reflexivity).
Qed.
Lemma hit_top_cmp dir after idx x y : plain_hit idx x -> plain_hit idx y ->
  cmp_top (hit_top dir x) (hit_top dir y) = cmp_merge (ByTimestamp dir after) x y.
Proof.
  intros Hx Hy. pose proof (plain_seq idx x Hx). pose proof (plain_seq idx y Hy). assert (I64_MIN < -1) by by vm_compute.
  destruct Hx as (Hx & _ & Ix & _), Hy as (Hy & _ & Iy & _). unfold cmp_top, cmp_merge, hit_top, cmp_primary, merge_key.
  rewrite Ix, Iy, Z.compare_refl. destruct dir; cbn [fst snd then_cmp]; rewrite ?saturating_neg_compare by lia; by rewrite then_cmp_assoc.
Qed.

Lemma top_keys_hits schema dir after idx segs : (match after with Some c => sent_cursor c | None => True end) ->
  Forall (fun p : Segment * list Z => Forall (tidy_doc schema p.1) p.2) segs -> forall ord,
  top_keys dir (fun s d => match after with Some c => cursor_clause schema c dir s d | None => true end) ord segs =
    hit_top dir <$> filter (fun h => hit_past dir after h = true) (ts_hits idx ord segs).
Proof.
  intros Hc. induction 1 as [|[s ds] segs Hs _ IH]; intros ord; [done|]. cbn [top_keys ts_hits]. rewrite IH, filter_app, fmap_app. f_equal. clear IH.
  cbn [fst snd] in Hs. induction Hs as [|d l Hd _ IH]; [done|]. pose proof (doc_seq_range _ _ _ Hd) as Hq.
  assert ((match after with Some c => cursor_clause schema c dir s d | None => true end) = hit_past dir after (ts_hit idx ord s d)) as E.
  { unfold hit_past. destruct after as [c|]; [|done]. rewrite (cursor_clause_spec schema) by done. cbn. by rewrite some_nonneg by lia. }
  cbn [fmap list_fmap]. rewrite !filter_cons, E. destruct (decide (hit_past dir after _ = true)) as [Hp|Hp]; [|exact IH].
  cbn [fmap list_fmap]. rewrite <- IH. f_equal. unfold hit_top, top_key, ts_hit. cbn. rewrite some_nonneg by lia. by destruct dir.
Qed.

(** A split's page is the first of its candidates in the order of the merge. *)
Lemma page_search_exact plan rd limit idx base : reader_ok plan rd base ->
  page_search rd plan limit idx false base = Ok (top (cmp_merge plan) (Nat.max (Z.to_nat limit) 1) (split_candidates plan rd idx base)).
Proof.
  unfold reader_ok, page_search, split_candidates. set (n := Nat.max _ 1). set (segs := zip _ _). destruct plan as [dir after|p].
  - intros [Hc Hs]. f_equal. rewrite (top_keys_hits (rd_schema rd) dir after idx segs Hc Hs 0).
    set (H := filter _ _). assert (Forall (plain_hit idx) H) as Hp.
    { apply Forall_forall. intros x [_ Hx]%list_elem_of_filter. pose proof (ts_hits_plain _ idx segs Hs 0) as F. rewrite Forall_forall in F. by apply F. }
    rewrite (top_fmap_on (plain_hit idx) (cmp_merge (ByTimestamp dir after))) by (try done; intros; by apply (hit_top_cmp dir after idx)).
    rewrite <- list_fmap_compose. transitivity (id <$> top (cmp_merge (ByTimestamp dir after)) n H); [|apply list_fmap_id].
    apply list_fmap_ext. intros i x Hx. apply make_hit_top. apply list_elem_of_lookup_2, top_subseteq in Hx.
    rewrite Forall_forall in Hp. by apply Hp.
  - intros (Hp & Hs & Hq). rewrite (collect_split_top p (rd_schema rd) (Z.to_nat limit) segs Hp Hs). fold n. f_equal.
    rewrite (top_fmap_on (fun x => -1 <= hit_seq x) (cmp_sorted (orders p))); [done| |].
    + intros x y Hx Hy. unfold cmp_merge, cmp_sorted, cmp_primary, merge_key, field_hit. cbn. rewrite !some_nonneg by done.
      by rewrite Z.compare_refl.
    + apply Forall_forall. intros x [_ Hx]%list_elem_of_filter. rewrite Forall_forall in Hq. by apply Hq.
Qed.

(** ** The tasks and the counter *)

Section tasks.
Context `{T : TimeCrate} `{C : TextCodec} `{X : TextTables} `{I : IndexCrate} (now : Z).

(** The documents of a split the query matches and no tombstone hides. *)
Definition slot_matches (jb : Job) (sl : SplitRecord * SearchResult Reader) : option (Reader * list (list Z)) :=
  match sl.2 with
  | Ok rd => match reader_matches now rd (jb_query jb) with
             | Ok m => Some (rd, excluded_docs (exclusions jb sl.1 rd) m)
             | Err _ => None
             end
  | Err _ => None
  end.
Definition slot_candidates (jb : Job) (idx : nat) (sl : SplitRecord * SearchResult Reader) : list SplitHit :=
  match slot_matches jb sl with Some (rd, base) => split_candidates (jb_plan jb) rd (Z.of_nat idx) base | None => [] end.
Definition slot_count (jb : Job) (sl : SplitRecord * SearchResult Reader) : Z :=
  match slot_matches jb sl with Some (_, base) => count_docs base | None => 0 end.

(** A split whose record bounds its documents' timestamps, whose columns the
    plan reads, and whose size is right where it is used as a count. *)
Record slot_ok (jb : Job) (sl : SplitRecord * SearchResult Reader) : Prop := {
  slot_reader rd base : slot_matches jb sl = Some (rd, base) -> reader_ok (jb_plan jb) rd base;
  slot_bounded rd base s docs d : slot_matches jb sl = Some (rd, base) -> (s, docs) ∈ zip (rd_segments rd) base -> d ∈ docs ->
    ns_time_start (sp_new sl.1) <= doc_ts s d <= ns_time_end (sp_new sl.1);
  slot_covered rd base : slot_matches jb sl = Some (rd, base) -> is_covered (jb_query jb) (jb_bounds jb) sl.1 = true ->
    match exclusions jb sl.1 rd with
    | Some set => Z.max 0 (ns_doc_count (sp_new sl.1) - excl_len set)
    | None => ns_doc_count (sp_new sl.1)
    end = count_docs base;
}.

Lemma ts_hits_elem idx segs : forall ord h, h ∈ ts_hits idx ord segs -> exists s docs d, (s, docs) ∈ segs /\ d ∈ docs /\ sh_ts h = doc_ts s d.
Proof.
  induction segs as [|[s docs] segs IH]; intros ord h; [by intros ?%elem_of_nil|]. cbn [ts_hits].
  intros [(d & -> & Hd)%list_elem_of_fmap|(s' & ds & d & H & Hd & E)%IH]%elem_of_app.
  - exists s, docs, d. split; [by left|done].
  - exists s', ds, d. split; [by right|done].
Qed.

(** A split on the paged side of the cursor has no candidate. *)
Lemma outside_nothing jb idx sl : slot_ok jb sl -> outside_cursor (jb_plan jb) sl.1 = true -> slot_candidates jb idx sl = [].
Proof.
  intros [_ Hb _] Ho. unfold slot_candidates. destruct (slot_matches jb sl) as [[rd base]|] eqn:E; [|done].
  unfold outside_cursor in Ho. unfold split_candidates. destruct (jb_plan jb) as [dir after|p]; [|done].
  apply filter_none, Forall_forall. intros h Hh. apply ts_hits_elem in Hh as (s & docs & d & Hs & Hd & Et).
  specialize (Hb rd base s docs d eq_refl Hs Hd). unfold hit_past. destruct after as [c|]; [|by destruct dir].
  rewrite Et. unfold past_after. intros Hp.
  assert ((if dir then doc_ts s d <? sa_ts c else sa_ts c <? doc_ts s d) = false /\ (doc_ts s d =? sa_ts c) = false) as [E1 E2].
  { destruct dir; apply Z.ltb_lt in Ho; (split; [apply Z.ltb_ge|apply Z.eqb_neq]; lia). }
  rewrite E1, E2 in Hp. by destruct (sa_seq c).
Qed.

Lemma split_candidates_length plan rd idx base : Z.of_nat (length (split_candidates plan rd idx base)) <= count_docs base.
Proof.
  assert (forall segs ord, (length (ts_hits idx ord segs) <= length (concat segs.*2))%nat) as H1.
  { induction segs as [|[s ds] segs IH]; intros ord; [done|]. rewrite fmap_cons. cbn [ts_hits concat snd].
    rewrite !length_app, length_fmap. specialize (IH (ord + 1)). lia. }
  assert (forall p schema segs ord, (length (split_hits p schema ord segs) <= length (concat segs.*2))%nat) as H2.
  { intros p schema. induction segs as [|[s ds] segs IH]; intros ord; [done|]. rewrite fmap_cons. cbn [split_hits concat snd]. unfold segment_hits.
    rewrite !length_app, length_fmap. specialize (IH (ord + 1)). lia. }
  assert (forall segs : list Segment, (length (concat (zip segs base).*2) <= length (concat base))%nat) as H3.
  { clear. induction base as [|b base IH]; intros [|s segs]; try (cbn; lia). change (zip (s :: segs) (b :: base)) with ((s, b) :: zip segs base).
    rewrite fmap_cons. cbn [concat snd]. rewrite !length_app. specialize (IH segs). lia. }
  unfold split_candidates, count_docs. specialize (H3 (rd_segments rd)). destruct plan as [dir after|p].
  - pose proof (length_filter (fun h => hit_past dir after h = true) (ts_hits idx 0 (zip (rd_segments rd) base))). specialize (H1 (zip (rd_segments rd) base) 0). lia.
  - rewrite length_fmap. pose proof (length_filter (fun x => past_cursor p (hit_key x) = true) (split_hits p (rd_schema rd) 0 (zip (rd_segments rd) base))).
    specialize (H2 p (rd_schema rd) (zip (rd_segments rd) base) 0). lia.
Qed.

(** What a task that succeeds contributes, whether it counted or not. *)
Lemma split_task_ok jb idx sl skip o : slot_ok jb sl -> split_task now jb idx sl skip = Ok o ->
  oc_hits o = top (cmp_merge (jb_plan jb)) (Nat.max (Z.to_nat (jb_limit jb)) 1) (slot_candidates jb idx sl) /\
  0 <= count o <= slot_count jb sl /\ (is_lower_bound o = false -> count o = slot_count jb sl) /\ (is_lower_bound o = true -> skip = true).
Proof.
  intros Hok. unfold split_task. set (n := Nat.max _ 1).
  destruct (outside_cursor (jb_plan jb) sl.1 && skip && negb (jb_aggs jb)) eqn:Eo.
  { intros [= <-]. apply andb_true_iff in Eo as [[Eo Es]%andb_true_iff _]. rewrite (outside_nothing jb idx sl Hok Eo). cbn.
    split; [unfold top; symmetry; apply take_nil|]. split; [|by split]. unfold slot_count. destruct (slot_matches jb sl) as [[? ?]|]; [|lia]. unfold count_docs. lia. }
  clear Eo. destruct sl.2 as [rd|] eqn:Erd; [|done]. cbn [mbind result_bind]. unfold search_one_split.
  destruct (reader_matches now rd (jb_query jb)) as [m|] eqn:Em; [|done]. cbn [mbind result_bind].
  set (base := excluded_docs (exclusions jb sl.1 rd) m).
  assert (slot_matches jb sl = Some (rd, base)) as Es by (unfold slot_matches; by rewrite Erd, Em).
  assert (page_search rd (jb_plan jb) (jb_limit jb) (Z.of_nat idx) (outside_cursor (jb_plan jb) sl.1) base
    = Ok (top (cmp_merge (jb_plan jb)) n (slot_candidates jb idx sl))) as ->.
  { destruct (outside_cursor (jb_plan jb) sl.1) eqn:Eo.
    - rewrite (outside_nothing jb idx sl Hok Eo). unfold page_search. f_equal. symmetry. apply take_nil.
    - unfold slot_candidates. rewrite Es. apply page_search_exact. by apply (slot_reader jb sl Hok). }
  cbn [mbind result_bind]. unfold slot_count. rewrite Es.
  assert (0 <= count_docs base) as Hn by (unfold count_docs; lia).
  destruct (is_covered (jb_query jb) (jb_bounds jb) sl.1 && negb (jb_aggs jb)) eqn:Ec.
  { apply andb_true_iff in Ec as [Ec _]. pose proof (slot_covered jb sl Hok rd base Es Ec) as Hc.
    intros [= <-]. cbn. rewrite Hc. split; [done|]. split; [lia|]. by split. }
  destruct (jb_aggs jb); [intros [= <-]; cbn; split; [done|]; split; [lia|]; by split|].
  destruct skip; intros [= <-]; cbn; (split; [done|]); (split; [|by split]).
  - rewrite top_length. unfold slot_candidates. rewrite Es. pose proof (split_candidates_length (jb_plan jb) rd (Z.of_nat idx) base). lia.
  - lia.
Qed.

(** A run in which every split's task starts. *)
Definition all_started (n : nat) (evs : list event) : Prop := forall i, (i < n)%nat -> Load i ∈ evs.

Lemma run_snoc jb splits evs e : run now jb splits (evs ++ [e]) = step now jb splits (run now jb splits evs) e.
Proof. unfold run. by rewrite foldl_snoc. Qed.
(** A split's outcome is that of its last start. *)
Lemma run_outcomes jb splits evs : forall i sl, splits !! i = Some sl -> Load i ∈ evs ->
  exists pre post, evs = pre ++ Load i :: post /\
    outcomes (run now jb splits evs) !! i = Some (split_task now jb i sl (skip_counting (jb_track jb) (counted (run now jb splits pre)))).
Proof.
  induction evs as [|e evs IH] using rev_ind; intros i sl Hi; [by intros ?%elem_of_nil|]. rewrite run_snoc.
  set (r := run now jb splits evs) in *. intros He. destruct (decide (e = Load i)) as [->|Hne].
  - exists evs, []. split; [done|]. cbn [step]. rewrite Hi. cbn [outcomes]. by rewrite lookup_insert_eq.
  - apply elem_of_app in He as [He|He%list_elem_of_singleton]; [|by subst e]. destruct (IH i sl Hi He) as (pre & post & E & Hr).
    exists pre, (post ++ [e]). split; [by rewrite E, <- app_assoc|]. rewrite <- Hr. destruct e as [j|j]; cbn [step].
    + destruct (splits !! j) as [sl'|]; [|done]. cbn [outcomes]. rewrite lookup_insert_ne; [done|congruence].
    + by destruct (outcomes r !! j) as [[o|]|].
Qed.
Lemma run_outcome_of jb splits evs : forall i o, outcomes (run now jb splits evs) !! i = Some (Ok o) ->
  exists sl skip, splits !! i = Some sl /\ split_task now jb i sl skip = Ok o.
Proof.
  induction evs as [|e evs IH] using rev_ind; intros i o; [done|]. rewrite run_snoc. set (r := run now jb splits evs) in *.
  destruct e as [j|j]; cbn [step].
  - destruct (splits !! j) as [sl|] eqn:Ej; [|by apply IH]. cbn [outcomes]. destruct (decide (j = i)) as [->|Hne].
    + rewrite lookup_insert_eq. intros [= E]. by eauto.
    + rewrite lookup_insert_ne by done. by apply IH.
  - destruct (outcomes r !! j) as [[o'|]|]; exact (IH i o).
Qed.

Lemma gather_ok outs os : gather outs = Ok os -> Forall2 (fun o a => o = Some (Ok a)) outs os.
Proof.
  revert os. induction outs as [|o outs IH]; intros os; cbn [gather]; [by intros [= <-]|].
  destruct o as [[a|]|]; [|done..]. cbn [default from_option id mbind result_bind]. destruct (gather outs) as [rest|]; [|done].
  intros [= <-]. constructor; [done|]. by apply IH.
Qed.
Lemma search_splits_ok jb splits evs outs : search_splits now jb splits evs = Ok outs -> all_started (length splits) evs ->
  Forall2 (fun (p : nat * _) o => outcomes (run now jb splits evs) !! p.1 = Some (Ok o) /\ exists skip, split_task now jb p.1 p.2 skip = Ok o) (enumerate splits) outs.
Proof.
  unfold search_splits. intros H%gather_ok Ha. apply Forall2_fmap_l in H. unfold enumerate.
  assert (forall n s, (forall i sl, s !! i = Some sl -> splits !! (n + i)%nat = Some sl) -> forall os,
    Forall2 (fun i o => outcomes (run now jb splits evs) !! i = Some (Ok o)) (seq n (length s)) os ->
    Forall2 (fun (p : nat * (SplitRecord * SearchResult Reader)) o => outcomes (run now jb splits evs) !! p.1 = Some (Ok o) /\ exists skip, split_task now jb p.1 p.2 skip = Ok o) (zip (seq n (length s)) s) os) as G.
  { intros n s. revert n. induction s as [|sl s IH]; intros n Hs os; cbn [length seq zip zip_with]; intros Ho.
    - apply Forall2_nil_inv_l in Ho as ->. constructor.
    - apply Forall2_cons_inv_l in Ho as (o & os' & Eo & Ho & ->). constructor.
      + cbn [fst snd]. split; [done|]. specialize (Hs 0%nat sl eq_refl). rewrite Nat.add_0_r in Hs.
        destruct (run_outcomes jb splits evs n sl Hs) as (pre & post & _ & Er); [apply Ha; by eapply lookup_lt_Some|].
        eexists. rewrite Er in Eo. by injection Eo.
      + apply IH; [|done]. intros i sl' Hi. replace (S n + i)%nat with (n + S i)%nat by lia. by apply Hs. }
  apply (G 0%nat splits); [done|exact H].
Qed.
End tasks.

(** ** The page and the total *)

Definition merge_ok (plan : SortPlan) (h : SplitHit) : Prop :=
  match plan with ByFields p => key_ok (plan_fields p) (merge_key h) | _ => True end.
Lemma cmp_merge_good plan : good_cmp (merge_ok plan) (cmp_merge plan).
Proof.
  unfold cmp_merge. apply good_then.
  - destruct plan as [[] after|p]; cbn [cmp_primary merge_ok].
    + apply good_then; [apply (good_flip_Z _ (fun h => (merge_key h).1.2))|apply (good_flip_Z _ (fun h => (merge_key h).2))].
    + apply good_then; [apply (good_on_Z _ (fun h => (merge_key h).1.2))|apply (good_on_Z _ (fun h => (merge_key h).2))].
    + apply (good_on (key_ok (plan_fields p)) (cmp_hits (orders p)) merge_key), cmp_hits_good.
  - apply good_then; [apply good_on_Z|]. unfold cmp_address. apply good_then; [apply (good_on_Z _ (fun h => (sh_doc h).1))|apply (good_on_Z _ (fun h => (sh_doc h).2))].
Qed.
Lemma cmp_merge_eq plan a b : cmp_merge plan a b = Eq -> split_idx a = split_idx b /\ sh_doc a = sh_doc b.
Proof.
  unfold cmp_merge, then_cmp. destruct (cmp_primary _ _ _); [|done..]. destruct (Z.compare_spec (split_idx a) (split_idx b)); [|done..].
  by intros ?%cmp_address_eq.
Qed.

(** A candidate is determined by its split and its address. *)
Lemma ts_hits_inj idx segs : forall ord x y, x ∈ ts_hits idx ord segs -> y ∈ ts_hits idx ord segs -> sh_doc x = sh_doc y -> x = y.
Proof.
  assert (forall segs ord x, x ∈ ts_hits idx ord segs -> ord <= (sh_doc x).1) as Ho.
  { clear. induction segs as [|[s ds] segs IH]; intros ord x; [by intros ?%elem_of_nil|]. cbn [ts_hits].
    intros [(d & -> & _)%list_elem_of_fmap|Hx%IH]%elem_of_app; simpl; lia. }
  induction segs as [|[s ds] segs IH]; intros ord x y; [by intros ?%elem_of_nil|]. cbn [ts_hits]. rewrite !elem_of_app.
  intros [(d & -> & _)%list_elem_of_fmap|Hx] [(d' & -> & _)%list_elem_of_fmap|Hy] E; simpl in E.
  - by injection E as ->.
  - apply Ho in Hy. rewrite <- E in Hy. simpl in Hy. lia.
  - apply Ho in Hx. rewrite E in Hx. simpl in Hx. lia.
  - by apply (IH (ord + 1)).
Qed.
Lemma split_candidates_idx plan rd idx base h : h ∈ split_candidates plan rd idx base -> split_idx h = idx.
Proof.
  unfold split_candidates. destruct plan as [dir after|p].
  - intros [_ Hh]%list_elem_of_filter. revert Hh. generalize 0. induction (zip (rd_segments rd) base) as [|[s ds] segs IH]; intros ord; [by intros ?%elem_of_nil|].
    cbn [ts_hits]. intros [(d & -> & _)%list_elem_of_fmap|Hh%IH]%elem_of_app; done.
  - by intros (x & -> & _)%list_elem_of_fmap.
Qed.
Lemma split_candidates_inj plan rd idx base x y : x ∈ split_candidates plan rd idx base -> y ∈ split_candidates plan rd idx base ->
  sh_doc x = sh_doc y -> x = y.
Proof.
  unfold split_candidates. destruct plan as [dir after|p].
  - intros [_ Hx]%list_elem_of_filter [_ Hy]%list_elem_of_filter. by apply (ts_hits_inj idx (zip (rd_segments rd) base) 0).
  - intros (a & -> & [_ Ha]%list_elem_of_filter)%list_elem_of_fmap (b & -> & [_ Hb]%list_elem_of_filter)%list_elem_of_fmap E. cbn in E.
    by rewrite (split_hits_inj p _ _ 0 a b Ha Hb E).
Qed.


Lemma enumerate_fst {A} (l : list A) : (enumerate l).*1 = seq 0 (length l).
Proof. unfold enumerate. apply fst_zip. by rewrite length_seq. Qed.
Lemma enumerate_snd {A} (l : list A) : (enumerate l).*2 = l.
Proof. unfold enumerate. apply snd_zip. by rewrite length_seq. Qed.

Section pages.
Context `{T : TimeCrate} `{C : TextCodec} `{X : TextTables} `{I : IndexCrate} (now : Z).

(** All the hits of a search: what its splits have past the cursor. *)
Definition all_candidates (jb : Job) (splits : Splits) : list SplitHit :=
  concat ((fun p => slot_candidates now jb p.1 p.2) <$> enumerate splits).
Definition slots_ok (jb : Job) (splits : Splits) : Prop := Forall (slot_ok now jb) splits.

Lemma all_candidates_elem jb splits h : h ∈ all_candidates jb splits <-> exists i sl, splits !! i = Some sl /\ h ∈ slot_candidates now jb i sl.
Proof.
  unfold all_candidates. rewrite elem_of_concat. split.
  - intros (l & Hh & ([i sl] & -> & Hp)%list_elem_of_fmap). apply enumerate_elem in Hp. by exists i, sl.
  - intros (i & sl & Hi & Hh). eexists. split; [exact Hh|]. apply list_elem_of_fmap. exists (i, sl). split; [done|]. by apply enumerate_elem.
Qed.
Lemma slot_candidates_idx jb i sl h : h ∈ slot_candidates now jb i sl -> split_idx h = Z.of_nat i.
Proof. unfold slot_candidates. destruct (slot_matches now jb sl) as [[rd base]|]; [apply split_candidates_idx|by intros ?%elem_of_nil]. Qed.

Lemma all_candidates_ok jb splits : slots_ok jb splits -> Forall (merge_ok (jb_plan jb)) (all_candidates jb splits).
Proof.
  intros Hs. apply Forall_forall. intros h (i & sl & Hi & Hh)%all_candidates_elem. unfold merge_ok. destruct (jb_plan jb) as [|p] eqn:Ep; [done|].
  unfold slots_ok in Hs. rewrite Forall_forall in Hs. specialize (Hs sl (list_elem_of_lookup_2 _ _ _ Hi)).
  unfold slot_candidates in Hh. destruct (slot_matches now jb sl) as [[rd base]|] eqn:Em; [|by apply elem_of_nil in Hh].
  pose proof (slot_reader now jb sl Hs rd base Em) as Hr. rewrite Ep in Hr, Hh. destruct Hr as (_ & Hr & _).
  apply list_elem_of_fmap in Hh as (x & -> & [_ Hx]%list_elem_of_filter). pose proof (split_hits_ok p _ _ Hr 0) as Ho.
  rewrite Forall_forall in Ho. apply Ho in Hx. exact Hx.
Qed.
Lemma all_candidates_strict jb splits plan : strict (cmp_merge plan) (all_candidates jb splits).
Proof.
  intros x y (i & sl & Hi & Hx)%all_candidates_elem (j & sl' & Hj & Hy)%all_candidates_elem [E1 E2]%cmp_merge_eq.
  pose proof (slot_candidates_idx _ _ _ _ Hx). pose proof (slot_candidates_idx _ _ _ _ Hy). assert (i = j) as -> by lia.
  assert (sl' = sl) as -> by congruence. unfold slot_candidates in Hx, Hy. destruct (slot_matches now jb sl) as [[rd base]|]; [|by apply elem_of_nil in Hx].
  by eapply split_candidates_inj.
Qed.

Lemma Forall2_map_eq {A B D} (f : A -> D) (g : B -> D) (R : A -> B -> Prop) l k : (forall a b, a ∈ l -> R a b -> g b = f a) -> Forall2 R l k -> g <$> k = f <$> l.
Proof.
  intros H F. induction F as [|a b l k Hr _ IH]; [done|]. cbn [fmap list_fmap]. rewrite (H a b) by (done || by left).
  f_equal. apply IH. intros a' b' Ha. apply H. by right.
Qed.
Lemma outcomes_hits jb splits evs outs : slots_ok jb splits -> all_started (length splits) evs -> search_splits now jb splits evs = Ok outs ->
  oc_hits <$> outs = top (cmp_merge (jb_plan jb)) (Nat.max (Z.to_nat (jb_limit jb)) 1) <$> ((fun p => slot_candidates now jb p.1 p.2) <$> enumerate splits).
Proof.
  intros Hs Ha H. apply search_splits_ok in H; [|done]. rewrite <- list_fmap_compose. eapply Forall2_map_eq; [|exact H].
  intros [i sl] o Hp%enumerate_elem [_ [skip Ht]]. cbn [fst snd compose] in *. unfold slots_ok in Hs. rewrite Forall_forall in Hs.
  destruct (split_task_ok now jb i sl skip o (Hs sl (list_elem_of_lookup_2 _ _ _ Hp)) Ht) as [-> _]. done.
Qed.

Lemma top_le {A} (c : A -> A -> comparison) n m l : (n <= m)%nat -> take n (top c m l) = top c n l.
Proof. intros H. unfold top. rewrite take_take. by rewrite Nat.min_l. Qed.

(** The merge of the splits' first hits is the merge of all their hits. *)
Lemma merge_exact jb splits evs outs frm sz : slots_ok jb splits -> all_started (length splits) evs -> search_splits now jb splits evs = Ok outs ->
  0 <= frm -> 0 <= sz -> jb_limit jb = frm + sz ->
  pg_hits (merge (jb_plan jb) frm sz outs) =
    take (Z.to_nat sz) (drop (Z.to_nat frm) (sort_by (cmp_merge (jb_plan jb)) (all_candidates jb splits))).
Proof.
  intros Hs Ha H Hf Hz Hl. unfold merge. cbn [pg_hits]. rewrite (outcomes_hits jb splits evs outs Hs Ha H).
  set (n := Nat.max _ 1). set (ls := _ <$> enumerate splits). set (c := cmp_merge (jb_plan jb)).
  assert (forall l, take (Z.to_nat sz) (drop (Z.to_nat frm) (sort_by c l)) = drop (Z.to_nat frm) (take (Z.to_nat frm + Z.to_nat sz) (top c n l))) as E.
  { intros l. rewrite top_le by lia. unfold top. by rewrite take_drop_commute, Nat.add_comm. }
  rewrite !E. do 2 f_equal. apply (top_concat c (merge_ok (jb_plan jb)) (cmp_merge_good _)).
  - apply all_candidates_ok, Hs.
  - apply all_candidates_strict.
Qed.
End pages.

(** ** The total *)

Definition sum (l : list Z) : Z := foldr Z.add 0 l.
Lemma sum_app l k : sum (l ++ k) = sum l + sum k.
Proof. unfold sum. induction l as [|x l IH]; simpl; lia. Qed.
Lemma sum_perm l k : l ≡ₚ k -> sum l = sum k.
Proof. unfold sum. induction 1; simpl; lia. Qed.
Lemma sum_subset {A} (f : A -> Z) l : NoDup l -> (forall i, 0 <= f i) -> forall m, (forall i, i ∈ l -> f i <> 0 -> i ∈ m) ->
  sum (f <$> l) <= sum (f <$> m).
Proof.
  intros Hd Hf. induction Hd as [|x l Hx _ IH]; intros m Hm.
  - clear Hm. induction m as [|y m IH]; [done|]. rewrite fmap_cons. unfold sum in *. simpl in *. specialize (Hf y). lia.
  - rewrite fmap_cons. destruct (decide (f x = 0)) as [E|E].
    + specialize (IH m (fun i Hi => Hm i (list_elem_of_further _ _ _ Hi))). unfold sum in *. simpl. lia.
    + destruct (proj1 (elem_of_Permutation m x) (Hm x (list_elem_of_here _ _) E)) as [m' Em]. rewrite (sum_perm (f <$> m) (f <$> (x :: m'))) by (by rewrite Em).
      rewrite fmap_cons. assert (sum (f <$> l) <= sum (f <$> m')) as H; [|unfold sum in *; simpl; lia].
      apply IH. intros i Hi Hne. assert (i ∈ m) as Hi' by (apply Hm; [by right|done]). rewrite Em in Hi'.
      apply elem_of_cons in Hi' as [->|]; done.
Qed.

Definition adds (evs : list event) : list nat := omap (fun e => match e with Add i => Some i | Load _ => None end) evs.
Lemma adds_elem evs i : i ∈ adds evs <-> Add i ∈ evs.
Proof.
  unfold adds. rewrite list_elem_of_omap. split; [|by exists (Add i)]. intros ([j|j] & Hj & E); [done|by injection E as ->].
Qed.
Lemma adds_NoDup evs : NoDup evs -> NoDup (adds evs).
Proof.
  induction 1 as [|e evs He _ IH]; [constructor|]. destruct e as [i|i]; [exact IH|]. change (NoDup (i :: adds evs)). constructor; [by rewrite adds_elem|done].
Qed.

(** A run as the tasks make it: each starts and finishes once, in that order. *)
Record orderly (evs : list event) : Prop := {
  once : NoDup evs;
  loads_first i pre post : evs = pre ++ Add i :: post -> Load i ∈ pre;
}.
Lemma orderly_prefix evs e : orderly (evs ++ [e]) -> orderly evs.
Proof.
  intros [H1 H2]. apply NoDup_app in H1 as (H1 & _ & _). split; [done|]. intros i pre post ->. apply (H2 i pre (post ++ [e])). by rewrite <- app_assoc.
Qed.

Section total.
Context `{T : TimeCrate} `{C : TextCodec} `{X : TextTables} `{I : IndexCrate} (now : Z).

Definition outcome_count (r : Run) (i : nat) : Z := match outcomes r !! i with Some (Ok o) => count o | _ => 0 end.

Lemma outcome_count_nonneg jb splits evs i : slots_ok now jb splits -> 0 <= outcome_count (run now jb splits evs) i.
Proof.
  intros Hs. unfold outcome_count. destruct (outcomes _ !! i) as [[o|]|] eqn:E; [|lia..].
  apply run_outcome_of in E as (sl & skip & Hi & Ht). unfold slots_ok in Hs. rewrite Forall_forall in Hs.
  destruct (split_task_ok now jb i sl skip o (Hs sl (list_elem_of_lookup_2 _ _ _ Hi)) Ht) as (_ & H & _). lia.
Qed.
Lemma counted_mono jb splits evs post : slots_ok now jb splits -> counted (run now jb splits evs) <= counted (run now jb splits (evs ++ post)).
Proof.
  intros Hs. induction post as [|e post IH] using rev_ind; [by rewrite app_nil_r|]. rewrite app_assoc, run_snoc.
  pose proof (outcome_count_nonneg jb splits (evs ++ post)) as Hn. unfold outcome_count in Hn. set (r := run now jb splits (evs ++ post)) in *. destruct e as [i|i]; cbn [step].
  - by destruct (splits !! i).
  - specialize (Hn i Hs). destruct (outcomes r !! i) as [[o|]|]; cbn [counted]; lia.
Qed.
(** The counter is the sum of what was added. *)
Lemma counted_sum jb splits evs : orderly evs -> counted (run now jb splits evs) = sum (outcome_count (run now jb splits evs) <$> adds evs).
Proof.
  induction evs as [|e evs IH] using rev_ind; [done|]. intros Ho. specialize (IH (orderly_prefix _ _ Ho)).
  rewrite run_snoc. set (r := run now jb splits evs) in *. destruct e as [j|j].
  - assert (adds (evs ++ [Load j]) = adds evs) as -> by (unfold adds; rewrite omap_app; apply app_nil_r).
    cbn [step]. destruct (splits !! j) as [sl|]; [|done]. cbn [counted]. rewrite IH. f_equal. apply list_fmap_ext.
    intros k i Hk. unfold outcome_count. cbn [outcomes]. rewrite lookup_insert_ne; [done|]. intros <-.
    apply list_elem_of_lookup_2, adds_elem, list_elem_of_split in Hk as (pre & post & E).
    assert (Load j ∈ pre) as Hj by (apply (loads_first _ Ho j pre (post ++ [Load j])); by rewrite E, <- app_assoc).
    pose proof (once _ Ho) as (_ & Hd & _)%NoDup_app. apply (Hd (Load j)); [rewrite E; apply elem_of_app; by left|by left].
  - assert (adds (evs ++ [Add j]) = adds evs ++ [j]) as -> by (unfold adds; by rewrite omap_app).
    rewrite fmap_app, sum_app. assert (forall c, outcomes (step now jb splits r (Add j)) = outcomes r /\ (c = outcome_count r j -> counted (step now jb splits r (Add j)) = counted r + c)) as H.
    { intros c. cbn [step]. unfold outcome_count. destruct (outcomes r !! j) as [[o|]|]; (split; [done|]); intros ->; cbn; lia. }
    destruct (H (outcome_count r j)) as [H1 H2]. rewrite H2, IH by done.
    assert (forall i, outcome_count (step now jb splits r (Add j)) i = outcome_count r i) as Hc by (intros i; unfold outcome_count; by rewrite H1).
    rewrite (list_fmap_ext (outcome_count (step now jb splits r (Add j))) (outcome_count r) (adds evs)) by (intros; apply Hc).
    cbn [fmap list_fmap sum foldr]. rewrite Hc. unfold sum. lia.
Qed.

Lemma Forall2_in_impl {A B} (P Q : A -> B -> Prop) l k : (forall a b, a ∈ l -> b ∈ k -> P a b -> Q a b) -> Forall2 P l k -> Forall2 Q l k.
Proof.
  intros H F. induction F as [|a b l k Hr _ IH]; constructor; [by apply H; [left..|]|]. apply IH. intros a' b' Ha Hb. apply H; by right.
Qed.
Lemma sum_le {A B} (f : A -> Z) (g : B -> Z) l k : Forall2 (fun a b => g b <= f a) l k -> sum (g <$> k) <= sum (f <$> l).
Proof. unfold sum. induction 1 as [|a b l k H _ IH]; [done|]. rewrite !fmap_cons. simpl. lia. Qed.

Lemma job_track ev rq jb splits : search_job now ev rq = Ok (jb, splits) -> jb_track jb = track_total_hits rq /\ jb_limit jb = from rq + size rq.
Proof.
  unfold search_job. destruct (extract_time_bounds now (rq_query rq)) as [b|]; [|done]. cbn [ok_or mbind result_bind].
  destruct (MAX_QUERY_SPLITS <? _); [done|]. destruct (negb _); [done|].
  destruct (if is_document_mode _ then _ else _) as [ts|]; [|done]. cbn [mbind result_bind].
  destruct (make_plan now ev rq) as [pl|]; [|done]. by intros [= <- _].
Qed.

(** A split that did not count was started when the limit was reached. *)
Lemma lower_bound_reached jb splits evs i sl o : slots_ok now jb splits -> orderly evs -> all_started (length splits) evs ->
  splits !! i = Some sl -> outcomes (run now jb splits evs) !! i = Some (Ok o) -> is_lower_bound o = true ->
  exists cap, jb_track jb = Some cap /\ cap <= sum (outcome_count (run now jb splits evs) <$> seq 0 (length splits)).
Proof.
  intros Hs Ho Ha Hi Hr Hl. destruct (run_outcomes now jb splits evs i sl Hi) as (pre & post & Ee & Hr'); [apply Ha; by eapply lookup_lt_Some|].
  rewrite Hr in Hr'. injection Hr' as Ht. symmetry in Ht. unfold slots_ok in Hs. pose proof Hs as Hs'. rewrite Forall_forall in Hs'.
  destruct (split_task_ok now jb i sl _ o (Hs' sl (list_elem_of_lookup_2 _ _ _ Hi)) Ht) as (_ & _ & _ & H). specialize (H Hl).
  unfold skip_counting in H. destruct (jb_track jb) as [cap|]; [|done]. apply Z.leb_le in H. exists cap. split; [done|].
  pose proof (counted_mono jb splits pre (Load i :: post) Hs) as Hm. rewrite <- Ee, (counted_sum jb splits evs Ho) in Hm.
  etrans; [exact H|]. etrans; [exact Hm|]. apply sum_subset.
  - apply adds_NoDup, once, Ho.
  - intros j. by apply outcome_count_nonneg.
  - intros j _ Hj. apply elem_of_seq. split; [lia|]. unfold outcome_count in Hj. destruct (outcomes _ !! j) as [[o'|]|] eqn:Ej; [|done..].
    apply run_outcome_of in Ej as (sl' & _ & Hj' & _). by eapply lookup_lt_Some.
Qed.

Lemma total_reported ev rq plan pg jb splits :
  search now ev rq = Ok (plan, pg) -> search_job now ev rq = Ok (jb, splits) -> slots_ok now jb splits ->
  all_started (length splits) (ev_events ev) -> orderly (ev_events ev) ->
  let exact := sum (slot_count now jb <$> splits) in
  pg_total pg <= exact /\ (pg_lower_bound pg = false -> pg_total pg = exact) /\
  (pg_lower_bound pg = true -> exists cap, track_total_hits rq = Some cap /\ cap <= pg_total pg).
Proof.
  unfold search. intros H Hj Hs Ha Ho. rewrite Hj in H. cbn [mbind result_bind] in H. destruct (job_track ev rq jb splits Hj) as [<- _].
  destruct (search_splits now jb splits (ev_events ev)) as [outs|] eqn:E; [|done]. injection H as <- <-. cbn [pg_total pg_lower_bound merge]. fold (sum (count <$> outs)).
  set (evs := ev_events ev) in *. apply search_splits_ok in E; [|done].
  rewrite <- (enumerate_snd splits) at 1 2. rewrite <- list_fmap_compose.
  assert (Forall2 (fun (p : nat * (SplitRecord * SearchResult Reader)) o => count o <= slot_count now jb p.2 /\ (is_lower_bound o = false -> count o = slot_count now jb p.2)) (enumerate splits) outs) as F.
  { eapply Forall2_in_impl; [|exact E]. intros [i sl] o Hp%enumerate_elem _ [_ [skip Ht]]. cbn [fst snd] in *. unfold slots_ok in Hs. rewrite Forall_forall in Hs.
    destruct (split_task_ok now jb i sl skip o (Hs sl (list_elem_of_lookup_2 _ _ _ Hp)) Ht) as (_ & ? & ? & _). split; [lia|done]. }
  split; [|split].
  - apply sum_le. eapply Forall2_impl; [exact F|]. by intros p o [H _].
  - intros Hl. f_equal. eapply (Forall2_map_eq _ _ (fun p o => count o = slot_count now jb p.2)); [by intros p o _|].
    eapply Forall2_in_impl; [|exact F]. intros p o _ Hin [_ H]. apply H. apply not_true_iff_false. intros Ht. apply not_true_iff_false in Hl. apply Hl.
    apply existsb_exists. exists o. split; [by apply list_elem_of_In|done].
  - intros Hl. apply existsb_exists in Hl as (o & Hin%list_elem_of_In & Hlo).
    apply list_elem_of_lookup in Hin as [k Hk]. destruct (Forall2_lookup_r _ _ _ _ _ E Hk) as ([i sl] & Hp & Hr & _).
    apply list_elem_of_lookup_2, enumerate_elem in Hp.
    destruct (lower_bound_reached jb splits evs i sl o Hs Ho Ha Hp Hr Hlo) as (cap & Ec & Hc). exists cap. split; [done|].
    etrans; [exact Hc|]. rewrite <- (enumerate_fst splits), <- list_fmap_compose. apply Z.eq_le_incl. f_equal. symmetry.
    eapply Forall2_map_eq; [|exact E]. intros [j sl'] o' _ [Hr' _]. unfold outcome_count, compose. cbn [fst] in *. by rewrite Hr'.
Qed.
End total.

(** ** Pages *)

Section page.
Context `{T : TimeCrate} `{C : TextCodec} `{X : TextTables} `{I : IndexCrate} (now : Z).

Lemma search_slice ev rq plan pg jb splits :
  search now ev rq = Ok (plan, pg) -> search_job now ev rq = Ok (jb, splits) -> slots_ok now jb splits ->
  all_started (length splits) (ev_events ev) -> 0 <= from rq -> 0 <= size rq ->
  pg_hits pg = take (Z.to_nat (size rq)) (drop (Z.to_nat (from rq)) (sort_by (cmp_merge plan) (all_candidates now jb splits))).
Proof.
  unfold search. intros H Hj Hs Ha Hf Hz. rewrite Hj in H. cbn [mbind result_bind] in H. destruct (job_track now ev rq jb splits Hj) as [_ Hl].
  destruct (search_splits now jb splits (ev_events ev)) as [outs|] eqn:E; [|done]. injection H as <- <-.
  by apply (merge_exact now jb splits (ev_events ev)).
Qed.
End page.

(** ** Following the cursors *)

Definition with_after (rq : SearchRequest) (a : option SearchAfter) : SearchRequest :=
  mkRequest (rq_query rq) (from rq) (size rq) (rq_sort rq) (rq_aggs rq) (include_source rq) (track_total_hits rq) a None.
Definition with_events (ev : Env) (evs : list event) : Env :=
  mkEnv (ev_stream ev) (ev_schema ev) (ev_db ev) (ev_dynamic ev) (ev_tombstones ev) (ev_open ev) (ev_aggs_ok ev) evs.
Definition with_cursor (jb : Job) (d : bool) (a : option SearchAfter) : Job :=
  mkJob (jb_query jb) (jb_bounds jb) (jb_aggs jb) (jb_limit jb) (ByTimestamp d a) (jb_track jb) (jb_tombstones jb).

(** The cursor a hit's [sort] values stand for. *)
Definition cursor_of (h : SplitHit) : SearchAfter := mkAfter (sh_ts h) (Some (default (-1) (sh_seq h))).
Definition safe_hit (h : SplitHit) : Prop := - MAX_SAFE_MILLIS <= sh_ts h <= MAX_SAFE_MILLIS /\ -1 <= default (-1) (sh_seq h) <= I64_MAX.

#[export] Instance safe_hit_dec h : Decision (safe_hit h).
Proof. unfold safe_hit. apply _. Defined.

Lemma sent_cursor_echo `{C : TextCodec} dir after h : safe_hit h ->
  parse_after (sort_json (ByTimestamp dir after) h (default (-1) (sh_seq h))) = Ok (cursor_of h).
Proof.
  intros [Ht Hq]. assert (is_i64 (sh_ts h) /\ is_i64 (default (-1) (sh_seq h))) as [H1 H2].
  { assert (0 <= MAX_SAFE_MILLIS <= I64_MAX) as Hm by by vm_compute. unfold is_i64, I64_MIN. unfold I64_MAX in *. lia. }
  unfold parse_after, sort_json, after_i64, whole. rewrite !as_i64_json by done. cbn [mbind result_bind ok_or].
  unfold cursor_of. do 2 f_equal. unfold clamp_millis. lia.
Qed.

Section follow.
Context `{T : TimeCrate} `{C : TextCodec} `{X : TextTables} `{I : IndexCrate} (now : Z).

(** A client that sends each page's last [sort] values back, one request per
    entry of [evs], until a page is empty. *)
Fixpoint follow (ev : Env) (rq : SearchRequest) (a : option SearchAfter) (evs : list (list event)) : SearchResult (list (list SplitHit)) :=
  match evs with
  | [] => Ok []
  | e :: evs =>
      '(plan, pg) ← search now (with_events ev e) (with_after rq a);
      match list.last (pg_hits pg) with
      | Some h =>
          c ← parse_after (sort_json plan h (default (-1) (sh_seq h)));
          rest ← follow ev rq (Some c) evs;
          Ok (pg_hits pg :: rest)
      | None => Ok []
      end
  end.

Lemma search_job_after ev rq e d a jb splits : rq_sort rq = Timestamp d -> search_after rq = None -> search_job now ev rq = Ok (jb, splits) ->
  search_job now (with_events ev e) (with_after rq a) = Ok (with_cursor jb d a, splits).
Proof.
  intros Hs _. unfold search_job. cbn [with_after rq_query rq_aggs ev_db ev_stream with_events ev_schema ev_aggs_ok ev_tombstones].
  destruct (extract_time_bounds now (rq_query rq)) as [b|]; [|done]. cbn [ok_or mbind result_bind]. destruct (MAX_QUERY_SPLITS <? _); [done|].
  destruct (negb _); [done|]. destruct (if is_document_mode _ then _ else _) as [ts|]; [|done]. cbn [mbind result_bind].
  unfold make_plan. cbn [with_after rq_sort search_after]. rewrite Hs. cbn [mbind result_bind]. by intros [= <- <-].
Qed.

Lemma slot_ok_cursor jb d a sl : jb_plan jb = ByTimestamp d None -> (match a with Some c => sent_cursor c | None => True end) ->
  slot_ok now jb sl -> slot_ok now (with_cursor jb d a) sl.
Proof.
  intros Hp Ha [H1 H2 H3]. split.
  - intros rd base E. specialize (H1 rd base E). rewrite Hp in H1. destruct H1 as [_ H1]. cbn. done.
  - intros rd base s docs dd E. by apply (H2 rd base).
  - intros rd base E. by apply (H3 rd base).
Qed.
Lemma candidates_cursor jb splits d a : jb_plan jb = ByTimestamp d None ->
  all_candidates now (with_cursor jb d a) splits = filter (fun h => hit_past d a h = true) (all_candidates now jb splits).
Proof.
  intros Hp. unfold all_candidates. induction (enumerate splits) as [|[i sl] l IH]; [done|]. cbn [fmap list_fmap concat fst snd].
  rewrite filter_app, <- IH. f_equal. unfold slot_candidates. change (slot_matches now (with_cursor jb d a) sl) with (slot_matches now jb sl).
  destruct (slot_matches now jb sl) as [[rd base]|]; [|done]. rewrite Hp. unfold split_candidates. cbn [with_cursor jb_plan].
  rewrite list_filter_filter. apply list_filter_iff. intros h. by split; [split|intros []].
Qed.

(** With distinct keys, past a hit's cursor is after the hit in the order. *)
Lemma hit_past_cursor d l x y : NoDup (merge_key <$> l) -> Forall (fun h => sh_values h = None) l -> x ∈ l -> y ∈ l ->
  hit_past d (Some (cursor_of x)) y = true <-> past (cmp_merge (ByTimestamp d None)) x y.
Proof.
  intros Hd Hv Hx Hy. unfold hit_past, past_after, past, cursor_of, cmp_merge, cmp_primary, merge_key. cbn [sa_ts sa_seq fst snd].
  assert (sh_ts x = sh_ts y -> default (-1) (sh_seq x) = default (-1) (sh_seq y) -> x = y) as Heq.
  { intros E1 E2. rewrite Forall_forall in Hv. apply list_elem_of_lookup in Hx as [i Hi], Hy as [j Hj].
    assert ((merge_key <$> l) !! i = (merge_key <$> l) !! j) as E.
    { rewrite !list_lookup_fmap, Hi, Hj. cbn. unfold merge_key. by rewrite E1, E2, !Hv by (by eapply list_elem_of_lookup_2). }
    assert ((merge_key <$> l) !! i = Some (merge_key x)) as Ei by (by rewrite list_lookup_fmap, Hi).
    assert (i = j) as -> by (eapply NoDup_lookup; [exact Hd|exact Ei|by rewrite <- E]). congruence. }
  rewrite orb_true_iff, andb_true_iff, Z.eqb_eq. unfold then_cmp.
  destruct d.
  - rewrite Z.ltb_lt. destruct (Z.compare_spec (sh_ts y) (sh_ts x)) as [E| |]; [|naive_solver lia..].
    rewrite Z.ltb_lt. destruct (Z.compare_spec (default (-1) (sh_seq y)) (default (-1) (sh_seq x))) as [E'| |]; [|naive_solver lia..].
    rewrite (Heq (eq_sym E) (eq_sym E')). rewrite Z.compare_refl. unfold cmp_address, then_cmp. rewrite !Z.compare_refl. naive_solver lia.
  - rewrite Z.ltb_lt. destruct (Z.compare_spec (sh_ts x) (sh_ts y)) as [E| |]; [|naive_solver lia..].
    rewrite Z.ltb_lt. destruct (Z.compare_spec (default (-1) (sh_seq x)) (default (-1) (sh_seq y))) as [E'| |]; [|naive_solver lia..].
    rewrite (Heq E E'). rewrite Z.compare_refl. unfold cmp_address, then_cmp. rewrite !Z.compare_refl. naive_solver lia.
Qed.
End follow.

Lemma filter_ext_in {A} (P Q : A -> Prop) `{!forall x, Decision (P x), !forall x, Decision (Q x)} (l : list A) :
  (forall x, x ∈ l -> P x <-> Q x) -> filter P l = filter Q l.
Proof.
  induction l as [|x l IH]; intros Hl; [done|]. rewrite !filter_cons, IH by (intros; apply Hl; by right).
  pose proof (Hl x (list_elem_of_here _ _)). destruct (decide (P x)), (decide (Q x)); tauto || done.
Qed.

Section tile.
Context `{T : TimeCrate} `{C : TextCodec} `{X : TextTables} `{I : IndexCrate} (now : Z).

Lemma ts_candidates_plain jb splits d a : jb_plan jb = ByTimestamp d a -> Forall (fun h => sh_values h = None) (all_candidates now jb splits).
Proof.
  intros Hp. apply Forall_forall. intros h (i & sl & _ & Hh)%all_candidates_elem. unfold slot_candidates in Hh.
  destruct (slot_matches now jb sl) as [[rd base]|]; [|by apply elem_of_nil in Hh]. rewrite Hp in Hh. apply list_elem_of_filter in Hh as [_ Hh].
  revert Hh. generalize 0. induction (zip (rd_segments rd) base) as [|[s ds] segs IH]; intros ord; [by intros ?%elem_of_nil|].
  cbn [ts_hits]. intros [(dd & -> & _)%list_elem_of_fmap|Hh%IH]%elem_of_app; done.
Qed.

(** A request's pages are the ordered hits cut up. *)
Lemma follow_pages ev rq d jb splits : rq_sort rq = Timestamp d -> from rq = 0 -> 0 < size rq -> search_after rq = None ->
  search_job now ev rq = Ok (jb, splits) -> slots_ok now jb splits ->
  NoDup (merge_key <$> all_candidates now jb splits) -> Forall safe_hit (all_candidates now jb splits) ->
  forall evs x ps, Forall (all_started (length splits)) evs ->
    (match x with Some h => h ∈ all_candidates now jb splits | None => True end) ->
    follow now ev rq (cursor_of <$> x) evs = Ok ps ->
    ps = pages (cmp_merge (ByTimestamp d None)) (length evs) (Z.to_nat (size rq)) x (all_candidates now jb splits).
Proof.
  intros Hso Hfrom Hsize Haft Hj Hs Hd Hsafe. set (l := all_candidates now jb splits) in *.
  assert (jb_plan jb = ByTimestamp d None) as Hp.
  { pose proof (search_job_after now ev rq (ev_events ev) d None jb splits Hso Haft Hj) as Hc. unfold search_job in Hj.
    destruct (extract_time_bounds now (rq_query rq)) as [b|]; [|done]. cbn [ok_or mbind result_bind] in Hj. destruct (MAX_QUERY_SPLITS <? _); [done|].
    destruct (negb _); [done|]. destruct (if is_document_mode _ then _ else _) as [ts|]; [|done]. cbn [mbind result_bind] in Hj.
    unfold make_plan in Hj. rewrite Hso, Haft in Hj. cbn [mbind result_bind] in Hj. by injection Hj as <- _. }
  pose proof (ts_candidates_plain jb splits d None Hp) as Hv. fold l in Hv.
  induction evs as [|e evs IH]; intros x ps Hev Hx; cbn [follow length pages]; [by intros [= <-]|].
  apply Forall_cons in Hev as [He Hev].
  destruct (search now (with_events ev e) (with_after rq (cursor_of <$> x))) as [[plan pg]|] eqn:Es; [|done]. cbn [mbind result_bind].
  assert (plan = ByTimestamp d (cursor_of <$> x) /\ pg_hits pg = top (cmp_merge (ByTimestamp d None)) (Z.to_nat (size rq))
    (match x with Some h => filter (past (cmp_merge (ByTimestamp d None)) h) l | None => l end)) as [-> Epg].
  { pose proof (search_job_after now ev rq e d (cursor_of <$> x) jb splits Hso Haft Hj) as Hj'. pose proof Es as Es'.
    unfold search in Es. rewrite Hj' in Es. cbn [mbind result_bind] in Es. destruct (search_splits _ _ _ _) as [outs|]; [|done]. injection Es as <- _. split; [done|].
    rewrite (search_slice now (with_events ev e) (with_after rq (cursor_of <$> x)) _ pg _ splits Es' Hj'); [| |exact He|cbn; lia|cbn; lia].
    - cbn [with_after from size]. rewrite Hfrom, drop_0, (candidates_cursor now jb splits d (cursor_of <$> x) Hp). fold l. unfold top.
      assert (forall k, sort_by (cmp_merge (jb_plan (with_cursor jb d (cursor_of <$> x)))) k = sort_by (cmp_merge (ByTimestamp d None)) k) as -> by (intros k; by destruct d).
      do 2 f_equal. destruct x as [h|]; [|apply filter_every, Forall_forall; done].
      apply filter_ext_in. intros y Hy. by apply (hit_past_cursor d l).
    - unfold slots_ok in *. eapply Forall_impl; [exact Hs|]. intros sl. apply slot_ok_cursor; [done|]. destruct x as [h|]; [|done].
      unfold sent_cursor. cbn. rewrite Forall_forall in Hsafe. destruct (Hsafe h Hx). lia. }
  rewrite Epg. set (p := top _ _ _). destruct (list.last p) as [h|] eqn:El; [|by intros [= <-]].
  assert (h ∈ l) as Hh.
  { apply last_Some in El as [p' El]. assert (h ∈ p) as Hp' by (rewrite El; apply elem_of_app; right; by left). apply top_subseteq in Hp'.
    destruct x as [x|]; [by apply list_elem_of_filter in Hp' as [_ Hp']|done]. }
  rewrite sent_cursor_echo by (rewrite Forall_forall in Hsafe; by apply Hsafe). cbn [mbind result_bind].
  destruct (follow now ev rq (Some (cursor_of h)) evs) as [rest|] eqn:Er; [|done]. cbn [mbind result_bind]. intros [= <-]. f_equal.
  by apply (IH (Some h) rest Hev Hh).
Qed.

End tile.

(** ** The page's documents, whatever order the splits are read in *)

Lemma fetch_docs_perm stored page groups : concat groups ≡ₚ seq 0 (length page) -> fetch_docs stored page groups = stored <$> page.
Proof.
  intros Hp. unfold fetch_docs. set (f := fun docs pos => match page !! pos with Some h => <[pos := stored h]> docs | None => docs end).
  assert (forall ps docs, length (foldl f docs ps) = length docs) as Hlen.
  { induction ps as [|p ps IH]; intros docs; [done|]. simpl. rewrite IH. unfold f. destruct (page !! p); [apply length_insert|done]. }
  assert (forall ps docs i h, page !! i = Some h -> (i < length docs)%nat -> i ∈ ps -> foldl f docs ps !! i = Some (stored h)) as Hin.
  { induction ps as [|p ps IH] using rev_ind; intros docs i h Hi Hl; [by intros ?%elem_of_nil|]. rewrite foldl_snoc. intros Hps.
    destruct (decide (p = i)) as [->|Hne].
    - unfold f at 1. rewrite Hi. apply list_lookup_insert_eq. by rewrite Hlen.
    - apply elem_of_app in Hps as [Hps|Hps%list_elem_of_singleton]; [|by subst]. unfold f at 1. destruct (page !! p); [rewrite list_lookup_insert_ne by done|]; by apply IH. }
  apply list_eq. intros i. rewrite list_lookup_fmap. destruct (page !! i) as [h|] eqn:Ei.
  - cbn. pose proof (lookup_lt_Some _ _ _ Ei). apply Hin; [done|by rewrite length_replicate|]. rewrite Hp. apply elem_of_seq. lia.
  - cbn. apply lookup_ge_None_2. rewrite Hlen, length_replicate. by apply lookup_ge_None_1.
Qed.

(** The groups of the splits of a page cover its positions once. *)
Lemma group_cover page idxs : NoDup idxs -> (forall h, h ∈ page -> split_idx h ∈ idxs) -> concat (group page <$> idxs) ≡ₚ seq 0 (length page).
Proof.
  intros Hd Hi. rewrite <- (enumerate_fst page). unfold group.
  assert (forall l : list (nat * SplitHit), (forall p, p ∈ l -> split_idx p.2 ∈ idxs) -> concat ((fun idx => (filter (fun ph => split_idx ph.2 = idx) l).*1) <$> idxs) ≡ₚ l.*1) as G.
  { induction l as [|[i h] l IH]; intros Hl.
    - clear. induction idxs as [|x idxs IH]; [done|]. rewrite fmap_cons. exact IH.
    - rewrite fmap_cons, <- (IH (fun p Hp => Hl p (list_elem_of_further _ _ _ Hp))). assert (split_idx h ∈ idxs) as Hh by (apply (Hl (i, h)); by left).
      cbn [fst]. clear IH Hl Hi. induction Hd as [|x idxs Hx _ IH]; [by apply elem_of_nil in Hh|]. rewrite !fmap_cons. cbn [concat]. rewrite filter_cons. cbn [snd].
      destruct (decide (split_idx h = x)) as [<-|Hne].
      + rewrite fmap_cons. cbn [app fst]. erewrite (list_fmap_ext _ _ idxs); [reflexivity|]. intros k y Hy. cbn beta. rewrite filter_cons, decide_False; [done|].
        cbn [snd]. intros E. apply Hx. rewrite E. by eapply list_elem_of_lookup_2.
      + apply elem_of_cons in Hh as [|Hh]; [done|]. rewrite (IH Hh). rewrite Permutation_middle. done. }
  apply G. intros [i h] Hp%enumerate_elem. apply Hi. by eapply list_elem_of_lookup_2.
Qed.

(** ** The splits left out *)

Section pruned.
Context `{T : TimeCrate} `{C : TextCodec} `{X : TextTables} `{I : IndexCrate} (now : Z).
Context {D : Type} (matches : Query -> D -> bool) (timestamp : D -> Z) `{L : !MatchLaws matches timestamp}.

Lemma limit_all {A} n (l : list A) : Z.of_nat (length (limit n l)) < n -> limit n l = l.
Proof. unfold limit. rewrite length_take. intros H. apply take_ge. lia. Qed.
Lemma search_job_splits ev rq jb splits : search_job now ev rq = Ok (jb, splits) ->
  exists b, extract_time_bounds now (rq_query rq) = Some b /\
    forall s, s ∈ splits.*1 <-> sp_stream s = st_id (ev_stream ev) /\ sp_state s = Published /\
      default I64_MIN b.1 <= ns_time_end (sp_new s) /\ ns_time_start (sp_new s) <= default I64_MAX b.2 /\ s ∈ split_rows (ev_db ev).
Proof.
  unfold search_job. destruct (extract_time_bounds now (rq_query rq)) as [b|]; [|done]. cbn [ok_or mbind result_bind].
  destruct (Z.ltb_spec MAX_QUERY_SPLITS (Z.of_nat (length (splits_for_query (ev_db ev) (st_id (ev_stream ev)) b.1 b.2 (MAX_QUERY_SPLITS + 1))))) as [|Hl]; [done|].
  destruct (negb _); [done|]. destruct (if is_document_mode _ then _ else _) as [ts|]; [|done]. cbn [mbind result_bind].
  destruct (make_plan now ev rq) as [pl|]; [|done]. intros [= _ <-]. exists b. split; [done|]. intros s.
  rewrite <- list_fmap_compose. assert (forall l : list SplitRecord, (fst ∘ (fun s => (s, ev_open ev s))) <$> l = l) as -> by (intros l; apply list_fmap_id).
  unfold splits_for_query in *. rewrite limit_all by lia. unfold order_by. rewrite merge_sort_Permutation, list_elem_of_filter. tauto.
Qed.

End pruned.

(** ** Lookups by [_id] *)

Definition id_of (hit : json) : option bytes := v ← get hit (str "_id"); as_str v.
(** The newest of the hits seen for each id. *)
Definition newest (seen : list json) (out : gmap bytes (Z * json)) : Prop := forall id,
  match out !! id with
  | Some (v, src) => (exists hit, hit ∈ seen /\ id_of hit = Some id /\ version_of hit = v /\ default Null (get hit (str "_source")) = src) /\
      forall hit, hit ∈ seen -> id_of hit = Some id -> version_of hit <= v
  | None => forall hit, hit ∈ seen -> id_of hit <> Some id
  end.

Lemma keep_newest_spec seen out hit : newest seen out -> newest (seen ++ [hit]) (keep_newest out hit).
Proof.
  intros Hn id. unfold keep_newest. fold (id_of hit). specialize (Hn id) as Hid.
  assert (forall out' : gmap bytes (Z * json), out' !! id = out !! id -> (id_of hit = Some id -> exists cur, out !! id = Some cur /\ version_of hit <= cur.1) ->
    match out' !! id with Some (v, src) => (exists h, h ∈ seen ++ [hit] /\ id_of h = Some id /\ version_of h = v /\ default Null (get h (str "_source")) = src) /\
      forall h, h ∈ seen ++ [hit] -> id_of h = Some id -> version_of h <= v | None => forall h, h ∈ seen ++ [hit] -> id_of h <> Some id end) as Hkeep.
  { intros out' -> Hh. destruct (out !! id) as [[v src]|].
    - destruct Hid as [(h & H1 & H2) Hid]. split; [exists h; split; [apply elem_of_app; by left|done]|].
      intros h' [Hh'| ->%list_elem_of_singleton]%elem_of_app E; [by apply Hid|]. destruct (Hh E) as (cur & [= <-] & Hc). exact Hc.
    - intros h' [Hh'| ->%list_elem_of_singleton]%elem_of_app E; [by apply (Hid h')|]. by destruct (Hh E) as (cur & [=] & _). }
  destruct (id_of hit) as [i|] eqn:Ei; [|by apply Hkeep].
  destruct (match out !! i with None => true | Some cur => cur.1 <? version_of hit end) eqn:Ec.
  - destruct (decide (i = id)) as [->|Hne]; [|apply Hkeep; [by rewrite lookup_insert_ne|by intros [= ->]]].
    rewrite lookup_insert_eq. split; [exists hit; split; [apply elem_of_app; right; by left|done]|].
    intros h [Hh| ->%list_elem_of_singleton]%elem_of_app E; [|done]. destruct (out !! id) as [[v src]|].
    + destruct Hid as [_ Hid]. specialize (Hid h Hh E). apply Z.ltb_lt in Ec. cbn in Ec. lia.
    + by apply Hid in Hh.
  - apply Hkeep; [done|]. intros [= ->]. destruct (out !! id) as [cur|]; [|done]. exists cur. split; [done|]. by apply Z.ltb_ge in Ec.
Qed.
(** Of the versions of an id a lookup's searches return, the newest is kept. *)
Lemma keep_newest_all seen out hits : newest seen out -> newest (seen ++ hits) (foldl keep_newest out hits).
Proof.
  revert seen out. induction hits as [|h hits IH]; intros seen out H; [by rewrite app_nil_r|]. cbn [foldl].
  replace (seen ++ h :: hits) with ((seen ++ [h]) ++ hits) by (by rewrite <- app_assoc). by apply IH, keep_newest_spec.
Qed.

(** ** What [track_total_hits] means *)

(** The comment on the parameter says that [true] counts exactly; it is
    read as the default limit, so the total stops at ten thousand.  A negative
    or fractional limit is what counts without one. *)
Theorem track_true_is_capped :
  parse_track (Some (Bool true)) = Some DEFAULT_TRACK_TOTAL_HITS /\ parse_track (Some (Bool true)) = parse_track None /\
  parse_track (Some (Number (NegInt (-1)))) = None.
Proof. done. Qed.

(** A parsed request's window is bounded. *)
Lemma parse_request_window `{C : TextCodec} body rq : parse_request body = Ok rq ->
  from rq + size rq <= MAX_RESULT_WINDOW /\ (search_after rq <> None -> from rq = 0).
Proof.
  unfold parse_request. set (frm := u64_or (get body (str "from")) 0). set (sz := u64_or (get body (str "size")) 10).
  destruct ((MAX_RESULT_WINDOW <? sz) || (MAX_RESULT_WINDOW <? frm) || (MAX_RESULT_WINDOW <? frm + sz)) eqn:Ew; [done|].
  apply orb_false_iff in Ew as [_ Ew%Z.ltb_ge].
  destruct (match parse_sort _ with Ok _ => _ | Err _ => _ end) as [sort|]; [|done]. cbn [mbind result_bind].
  destruct (match get body (str "search_after") with Some _ => _ | None => _ end) as [[after values]|]; [|done]. cbn [mbind result_bind].
  destruct ((bool_decide (is_Some after) || bool_decide (is_Some values)) && negb (frm =? 0)) eqn:E; [done|]. intros [= <-]. cbn.
  split; [lia|]. intros Ha. destruct after as [a|]; [|done]. rewrite bool_decide_eq_true_2 in E by done. cbn in E.
  destruct (Z.eqb_spec frm 0); [done|]. by destruct (frm =? 0).
Qed.

(** ** A concrete stream of two splits *)

#[local] Existing Instances gregorian plain_codec plain_tables plain_index.

(** A split's documents by their (timestamp, [_seq]). *)
Definition demo_columns (ds : list (Z * Z)) : Segment :=
  mkSegment (fun _ => Ok None)
    (fun f => Ok (if decide (f = SEQ_FIELD) then Some (fun d => match ds !! Z.to_nat d with Some p => [p.2] | None => [] end) else None))
    (fun _ => Ok None) (fun _ => Ok None)
    (fun f => Ok (if decide (f = TIMESTAMP_FIELD) then Some (fun d => match ds !! Z.to_nat d with Some p => [p.1] | None => [] end) else None))
    (fun _ => Ok None) (fun _ => []).
Definition demo_reader (ds : list (Z * Z)) : Reader :=
  mkReader (build (mkMapping [] [])) [demo_columns ds] (Ok []) (fun _ => Ok [seqZ_to (length ds)]) (mkView true (Some 0) []) (excl_empty []).
Definition demo_split (id : string) (s e n : Z) : SplitRecord :=
  mkSplit 0 Published (mkNewSplit (str id) 1 (str id) n 0 s e 0 None (Some 0) None 0 CURRENT_SCHEMA_VERSION None) 0 None 0 0.

Definition docs_a : list (Z * Z) := [(1000, 1); (3000, 4); (3000, 2)].
Definition docs_b : list (Z * Z) := [(2000, 3); (3000, 5)].
Definition split_a : SplitRecord := demo_split "a" 1000 3000 3.
Definition split_b : SplitRecord := demo_split "b" 2000 3000 2.
Definition demo_stream : StreamRecord := mkStream 1 (str "logs") Null None (str "log") false.
Definition demo_db : Metastore := mkMeta ∅ {[ str "a" := split_a; str "b" := split_b ]} ∅ 2 1 1.
Definition demo_events : list event := [Load 1; Load 0; Add 0; Add 1]%nat.
Definition demo_env : Env :=
  mkEnv demo_stream (build (mkMapping [] [])) demo_db (Ok ∅) (Ok [])
    (fun s => Ok (demo_reader (if decide (sp_split_id s = str "a") then docs_a else docs_b))) (fun _ => true) demo_events.
Definition demo_request (sz : Z) (track : option Z) : SearchRequest :=
  mkRequest (Object [(str "match_all", Object [])]) 0 sz (Timestamp true) None true track None None.
Definition demo_job (sz : Z) (track : option Z) : Job :=
  mkJob (Object [(str "match_all", Object [])]) (None, None) false (0 + sz) (ByTimestamp true None) track None.
Definition demo_splits : Splits := [(split_a, Ok (demo_reader docs_a)); (split_b, Ok (demo_reader docs_b))].

Lemma demo_job_eq sz track : search_job demo_now demo_env (demo_request sz track) = Ok (demo_job sz track, demo_splits).
Proof.
  unfold search_job. assert (extract_time_bounds demo_now (rq_query (demo_request sz track)) = Some (None, None)) as -> by reflexivity.
  cbn [ok_or mbind result_bind fst snd].
  assert (splits_for_query (ev_db demo_env) (st_id (ev_stream demo_env)) None None (MAX_QUERY_SPLITS + 1) = [split_a; split_b]) as -> by (vm_compute; reflexivity).
  reflexivity.
Qed.

Lemma demo_slot_ok sz track s ds : Forall (fun p : Z * Z => I64_MIN < p.1 <= I64_MAX /\ 0 <= p.2 <= I64_MAX /\ ns_time_start (sp_new s) <= p.1 <= ns_time_end (sp_new s)) ds ->
  ns_doc_count (sp_new s) = Z.of_nat (length ds) -> slot_ok demo_now (demo_job sz track) (s, Ok (demo_reader ds)).
Proof.
  intros Hd Hn.
  assert (slot_matches demo_now (demo_job sz track) (s, Ok (demo_reader ds)) = Some (demo_reader ds, [seqZ_to (length ds)])) as Em by reflexivity.
  assert (forall d, d ∈ seqZ_to (length ds) -> exists p, p ∈ ds /\ ts_values (demo_columns ds) d = [p.1] /\ seq_values (demo_columns ds) d = [p.2]) as Hv.
  { intros d Hd'%elem_of_seqZ_to. destruct (ds !! Z.to_nat d) as [p|] eqn:E; [|apply lookup_ge_None in E; lia].
    exists p. split; [by eapply list_elem_of_lookup_2|]. 
    change (ts_values (demo_columns ds) d) with (match ds !! Z.to_nat d with Some p => [p.1] | None => [] end).
    change (seq_values (demo_columns ds) d) with (match ds !! Z.to_nat d with Some p => [p.2] | None => [] end). by rewrite E. }
  rewrite Forall_forall in Hd. split.
  - intros rd base. rewrite Em. intros [= <- <-]. split; [done|]. apply Forall_singleton, Forall_forall. cbn [fst snd]. intros d Hd'.
    destruct (Hv d Hd') as ([t q] & Hp & Et & Eq). destruct (Hd _ Hp) as (H1 & H2 & _). split; [by exists t|by exists q].
  - intros rd base sg docs d. rewrite Em. intros [= <- <-] Hs Hd'. apply list_elem_of_singleton in Hs as [= -> ->].
    destruct (Hv d Hd') as ([t q] & Hp & Et & _). destruct (Hd _ Hp) as (_ & _ & H3). unfold doc_ts. rewrite Et. exact H3.
  - intros rd base. rewrite Em. intros [= <- <-] _. cbn. rewrite Hn. unfold count_docs, seqZ_to. cbn [concat]. by rewrite app_nil_r, length_fmap, length_seq.
Qed.
Lemma demo_slots_ok sz track : slots_ok demo_now (demo_job sz track) demo_splits.
Proof.
  apply Forall_cons. split; [|apply Forall_singleton]; (apply demo_slot_ok; [|reflexivity]); repeat (apply Forall_cons; split; [by vm_compute|]); constructor.
Qed.
Lemma demo_started : all_started 2 demo_events.
Proof. intros [|[|i]] Hi; [right; by left|by left|lia]. Qed.

Definition demo_page (sz : Z) (track : option Z) : Page :=
  match search demo_now demo_env (demo_request sz track) with Ok r => r.2 | Err _ => mkPage 0 false [] end.


Lemma demo_orderly : orderly demo_events.
Proof.
  split; [by apply (bool_decide_eq_true_1 (NoDup demo_events))|].
  intros i pre post E. unfold demo_events in E.
  destruct pre as [|e0 [|e1 [|e2 [|e3 pre]]]]; simplify_eq/=; [right; by left|by left|]. by destruct pre.
Qed.


