(* ===== verification/Bulk.v ===== *)
(** * The [_bulk] wire format (crates/rsearch-ingest/src/bulk.rs) and the
    one-item bodies the document routes write in it
    (crates/rsearch-server/src/doc_api.rs)

    Alternating action and document lines.  JSON text is the serialization
    library's: [from_str] reads it and [json_to_string] writes it; a generated
    id is given by the position of its action. *)

From Stdlib Require Import ZArith Lia.
From Stdlib Require Import Strings.Byte.
From stdpp Require Import base gmap sets list strings sorting.
From S2P Require Import Prelude Json Float64 Common.

Local Open Scope Z_scope.

(** ** Actions *)

Inductive BulkAction := Index | Create | Update | Delete.
#[export] Instance BulkAction_eq_dec : EqDecision BulkAction.
Proof. solve_decision. Defined.
Definition action_str (a : BulkAction) : bytes :=
  str match a with Index => "index" | Create => "create" | Update => "update" | Delete => "delete" end.
Definition has_doc_line (a : BulkAction) : bool := negb (bool_decide (a = Delete)).
Definition action_parse (name : bytes) : option BulkAction :=
  if decide (name = str "index") then Some Index else if decide (name = str "create") then Some Create
  else if decide (name = str "update") then Some Update else if decide (name = str "delete") then Some Delete else None.

Record BulkItem := mkItem {
  it_action : BulkAction;
  it_stream : bytes;
  it_id : bytes;
  explicit_id : bool;
  it_doc : json;
  it_raw : bytes;
}.

(** Why one action is rejected, and why a whole body is. *)
Inductive Reject := NoIndex | RequiresId | MissingDocument | DocumentNotObject | DocumentNotJson.
Inductive BodyError := ActionNotJson (n : nat) | ActionNotObject (n : nat) | ActionEmpty (n : nat) | UnknownAction (name : bytes) (n : nat).

Record BulkParseOutcome := mkOutcome {
  po_items : list (nat * BulkItem);
  po_rejections : list (nat * BulkAction * bytes * Reject);
  po_total : nat;
}.
Definition with_item (position : nat) (it : BulkItem) (o : BulkParseOutcome) : BulkParseOutcome :=
  mkOutcome (po_items o ++ [(position, it)]) (po_rejections o) (po_total o).
Definition with_reject (position : nat) (a : BulkAction) (index : bytes) (why : Reject) (o : BulkParseOutcome) : BulkParseOutcome :=
  mkOutcome (po_items o) (po_rejections o ++ [(position, a, index, why)]) (po_total o).
Definition with_total (n : nat) (o : BulkParseOutcome) : BulkParseOutcome := mkOutcome (po_items o) (po_rejections o) n.

(** [str::trim_end]. *)
Definition trim_end (l : bytes) : bytes := trim_end_fuel (length l) l.
Definition body_lines (body : bytes) : list bytes := filter (fun l => l <> []) (trim_end <$> split_on x0a body).

Section parse.
Context `{C : TextCodec}.
Variables (from_str : bytes -> option json) (new_id : nat -> bytes).

(** An action line: its action, target and id. *)
Record ActionLine := mkAction { al_action : BulkAction; al_index : bytes; al_id : option bytes }.
Definition read_action (default_index : option bytes) (position : nat) (line : bytes) : result BodyError ActionLine :=
  action_json ← ok_or (from_str line) (ActionNotJson (S position));
  obj ← ok_or (as_object action_json) (ActionNotObject (S position));
  match obj with
  | [] => Err (ActionEmpty (S position))
  | (name, meta) :: _ =>
      let index := match (v ← get meta (str "_index"); as_str v) with
                   | Some i => i
                   | None => default [] default_index
                   end in
      let explicit := match get meta (str "_id") with
                      | Some (JString s) => Some s
                      | Some (Number n) => Some (json_to_string (Number n))
                      | _ => None
                      end in
      match action_parse name with
      | Some a => Ok (mkAction a index explicit)
      | None => Err (UnknownAction name (S position))
      end
  end.
Definition item_of (al : ActionLine) (position : nat) (doc : json) (raw : bytes) : BulkItem :=
  mkItem (al_action al) (al_index al) (default (new_id position) (al_id al)) (bool_decide (is_Some (al_id al))) doc raw.

(** What an action with its document line comes to. *)
Definition take_delete (al : ActionLine) (position : nat) (o : BulkParseOutcome) : BulkParseOutcome :=
  if decide (al_index al = []) then with_reject position (al_action al) (al_index al) NoIndex o
  else if decide (al_id al = None) then with_reject position (al_action al) (al_index al) RequiresId o
  else with_item position (item_of al position Null []) o.
Definition take_document (al : ActionLine) (position : nat) (line : bytes) (o : BulkParseOutcome) : BulkParseOutcome :=
  let reject why := with_reject position (al_action al) (al_index al) why o in
  match from_str line with
  | Some (Object doc) =>
      if decide (al_index al = []) then reject NoIndex
      else if decide (al_action al = Update /\ al_id al = None) then reject RequiresId
      else with_item position (item_of al position (Object doc) line) o
  | Some _ => reject DocumentNotObject
  | None => reject DocumentNotJson
  end.

Fixpoint parse_lines (default_index : option bytes) (lines : list bytes) (position : nat) (o : BulkParseOutcome)
    : result BodyError BulkParseOutcome :=
  match lines with
  | [] => Ok (with_total position o)
  | line :: rest =>
      match read_action default_index position line with
      | Err e => Err e
      | Ok al =>
          if negb (has_doc_line (al_action al)) then parse_lines default_index rest (S position) (take_delete al position o)
          else
            match rest with
            | [] => Ok (with_total (S position) (with_reject position (al_action al) (al_index al) MissingDocument o))
            | doc_line :: rest => parse_lines default_index rest (S position) (take_document al position doc_line o)
            end
      end
  end.
Definition parse_bulk_body (body : bytes) (default_index : option bytes) : result BodyError BulkParseOutcome :=
  parse_lines default_index (body_lines body) 0 (mkOutcome [] [] 0).

(** ** The document routes' bodies *)

(** [json!] of the action line. *)
Definition action_json (a : BulkAction) (index : bytes) (id : option bytes) : json :=
  Object [(action_str a, Object match id with
                                | Some id => [(str "_id", JString id); (str "_index", JString index)]
                                | None => [(str "_index", JString index)]
                                end)].
Definition one_item_body (a : BulkAction) (index : bytes) (id : option bytes) (doc : option json) : bytes :=
  json_to_string (action_json a index id) ++ [x0a] ++ match doc with Some d => json_to_string d ++ [x0a] | None => [] end.
End parse.

(** ** Every action is accounted for *)

Definition positions (o : BulkParseOutcome) : list nat := (po_items o).*1 ++ ((fun r => r.1.1.1) <$> po_rejections o).
Lemma positions_item p it o : positions (with_item p it o) ≡ₚ p :: positions o.
Proof. unfold positions. cbn [with_item po_items po_rejections]. rewrite fmap_app. rewrite <- app_assoc. simpl. by rewrite <- Permutation_middle. Qed.
Lemma positions_reject p a i why o : positions (with_reject p a i why o) ≡ₚ p :: positions o.
Proof.
  unfold positions. cbn [with_reject po_items po_rejections]. rewrite fmap_app. simpl.
  by rewrite app_assoc, <- Permutation_cons_append.
Qed.
#[export] Hint Rewrite positions_item positions_reject : bulk.

Section parsed.
Context `{C : TextCodec} (from_str : bytes -> option json) (new_id : nat -> bytes).
Local Notation parse_lines := (parse_lines from_str new_id).

Lemma take_delete_positions al p o : positions (take_delete new_id al p o) ≡ₚ p :: positions o.
Proof. unfold take_delete. repeat case_decide; by autorewrite with bulk. Qed.
Lemma take_document_positions al p line o : positions (take_document from_str new_id al p line o) ≡ₚ p :: positions o.
Proof. unfold take_document. destruct (from_str line) as [[]|]; try by autorewrite with bulk. repeat case_decide; by autorewrite with bulk. Qed.

Lemma parse_lines_positions di n lines p o o' : (length lines <= n)%nat -> positions o ≡ₚ seq 0 p ->
  parse_lines di lines p o = Ok o' -> positions o' ≡ₚ seq 0 (po_total o').
Proof.
  revert lines p o; induction n as [|n IH]; intros [|line rest] p o Hn Hp; cbn [parse_lines length] in *; try lia.
  1,2: intros [= <-]; exact Hp.
  assert (forall o1, positions o1 ≡ₚ p :: positions o -> positions o1 ≡ₚ seq 0 (S p)) as Hs.
  { intros o1 ->. rewrite Hp, seq_S. cbn [Nat.add]. by rewrite <- Permutation_cons_append. }
  destruct (read_action from_str di p line) as [al|e]; [|done]. destruct (has_doc_line (al_action al)); cbn [negb].
  - destruct rest as [|doc_line rest].
    + intros [= <-]. apply Hs, positions_reject.
    + apply IH; [cbn [length] in Hn; lia|]. apply Hs, take_document_positions.
  - apply IH; [lia|]. apply Hs, take_delete_positions.
Qed.

(** Every action of a bulk body that parses is either an item or a
    rejection, exactly once, and the total counts them all. *)
Lemma parse_covers body di o : parse_bulk_body from_str new_id body di = Ok o -> positions o ≡ₚ seq 0 (po_total o).
Proof. by apply (parse_lines_positions di (length (body_lines body)) (body_lines body) 0 (mkOutcome [] [] 0)). Qed.

(** An item's id is its action's, or one generated. *)
Definition id_known (it : BulkItem) : Prop := explicit_id it = true \/ exists p, it_id it = new_id p.
Lemma item_of_known al p d raw : id_known (item_of new_id al p d raw).
Proof. unfold id_known. destruct (al_id al) as [id|] eqn:E; [left|right; exists p]; cbn; by rewrite E. Qed.
Lemma take_delete_known al p o : Forall (fun pi => id_known pi.2) (po_items o) -> Forall (fun pi => id_known pi.2) (po_items (take_delete new_id al p o)).
Proof.
  intros H. unfold take_delete. repeat case_decide; try done. cbn. apply Forall_app. split; [done|]. apply Forall_singleton, item_of_known.
Qed.
Lemma take_document_known al p line o : Forall (fun pi => id_known pi.2) (po_items o) ->
  Forall (fun pi => id_known pi.2) (po_items (take_document from_str new_id al p line o)).
Proof.
  intros H. unfold take_document. destruct (from_str line) as [[]|]; try done. repeat case_decide; try done.
  cbn. apply Forall_app. split; [done|]. apply Forall_singleton, item_of_known.
Qed.
Lemma parse_lines_known di n lines p o o' : (length lines <= n)%nat -> Forall (fun pi => id_known pi.2) (po_items o) ->
  parse_lines di lines p o = Ok o' -> Forall (fun pi => id_known pi.2) (po_items o').
Proof.
  revert lines p o; induction n as [|n IH]; intros [|line rest] p o Hn Hp; cbn [parse_lines length] in *; try lia.
  1,2: intros [= <-]; exact Hp.
  destruct (read_action from_str di p line) as [al|e]; [|done]. destruct (has_doc_line (al_action al)); cbn [negb].
  - destruct rest as [|doc_line rest]; [by intros [= <-]|].
    apply IH; [cbn [length] in Hn; lia|]. by apply take_document_known.
  - apply IH; [lia|]. by apply take_delete_known.
Qed.
Lemma parse_known body di o : parse_bulk_body from_str new_id body di = Ok o -> Forall (fun pi => id_known pi.2) (po_items o).
Proof. by apply (parse_lines_known di (length (body_lines body)) (body_lines body) 0 (mkOutcome [] [] 0)). Qed.

(** ** What the document routes write is read back *)

(** A text the serialization library reads back, on one line of the body. *)
Record one_line (j : json) : Prop := {
  ol_back : from_str (json_to_string j) = Some j;
  ol_line : x0a ∉ json_to_string j;
  ol_trim : trim_end (json_to_string j) = json_to_string j;
  ol_some : json_to_string j <> [];
}.

(** A request of the document routes. *)
Record DocWrite := mkWrite { dw_action : BulkAction; dw_index : bytes; dw_id : option bytes; dw_doc : option (list (bytes * json)) }.
Definition rendered (w : DocWrite) : bytes := one_item_body (dw_action w) (dw_index w) (dw_id w) (Object <$> dw_doc w).
Definition item_written (p : nat) (w : DocWrite) : BulkItem :=
  item_of new_id (mkAction (dw_action w) (dw_index w) (dw_id w)) p (default Null (Object <$> dw_doc w))
    (default [] (json_to_string ∘ Object <$> dw_doc w)).
Record write_ok (w : DocWrite) : Prop := {
  wo_index : dw_index w <> [];
  wo_doc : is_Some (dw_doc w) <-> has_doc_line (dw_action w) = true;
  wo_id : dw_action w = Update \/ dw_action w = Delete -> is_Some (dw_id w);
  wo_meta : one_line (action_json (dw_action w) (dw_index w) (dw_id w));
  wo_text d : dw_doc w = Some d -> one_line (Object d);
}.

Lemma read_action_written di p w : one_line (action_json (dw_action w) (dw_index w) (dw_id w)) ->
  read_action from_str di p (json_to_string (action_json (dw_action w) (dw_index w) (dw_id w))) = Ok (mkAction (dw_action w) (dw_index w) (dw_id w)).
Proof. intros H. unfold read_action. rewrite (ol_back _ H). destruct (dw_id w), (dw_action w); reflexivity. Qed.

Lemma body_lines_app j r : one_line j -> body_lines (json_to_string j ++ x0a :: r) = json_to_string j :: body_lines r.
Proof.
  intros H. unfold body_lines. rewrite split_on_app_free by apply H. cbn [fmap list_fmap]. rewrite (ol_trim _ H).
  by rewrite filter_cons_True by apply H.
Qed.
Lemma body_lines_rendered w r : write_ok w -> body_lines (rendered w ++ r) =
  json_to_string (action_json (dw_action w) (dw_index w) (dw_id w)) :: (json_to_string ∘ Object <$> option_list (dw_doc w)) ++ body_lines r.
Proof.
  intros H. unfold rendered, one_item_body. rewrite <- !app_assoc. cbn [app]. rewrite body_lines_app by apply H.
  destruct (dw_doc w) as [d|] eqn:E; [|done]. cbn [fmap option_fmap option_map option_list list_fmap app compose].
  rewrite <- app_assoc. cbn [app]. by rewrite body_lines_app by (by apply (wo_text _ H)).
Qed.

Lemma parse_lines_written w r di p o : write_ok w ->
  parse_lines di (body_lines (rendered w ++ r)) p o = parse_lines di (body_lines r) (S p) (with_item p (item_written p w) o).
Proof.
  intros H. rewrite body_lines_rendered by done. cbn [parse_lines]. rewrite read_action_written by apply H. cbn [al_action].
  pose proof (wo_doc _ H) as Hd. pose proof (wo_id _ H) as Hi. pose proof (wo_index _ H) as Hn. unfold item_written.
  destruct (dw_doc w) as [d|] eqn:E; cbn [option_list fmap option_fmap option_map list_fmap compose app default from_option].
  - replace (has_doc_line (dw_action w)) with true by (symmetry; apply Hd; by eexists). cbn [negb].
    change (option_list (Some d)) with [d]. cbn [fmap list_fmap app]. unfold take_document, compose. cbn [al_index al_action al_id]. rewrite (ol_back _ (wo_text _ H d E)), decide_False by done.
    rewrite decide_False; [done|]. intros [Hu Hid]. destruct (Hi (or_introl Hu)) as [x Ex]. congruence.
  - destruct (has_doc_line (dw_action w)) eqn:Eh; [by destruct (proj2 Hd eq_refl)|]. cbn [negb].
    unfold take_delete. cbn [al_index al_action al_id]. rewrite decide_False by done. rewrite decide_False; [done|].
    intros Hid. apply negb_false_iff in Eh. apply bool_decide_eq_true in Eh. destruct (Hi (or_intror Eh)) as [x Ex]. congruence.
Qed.

Lemma written_parse di ws : Forall write_ok ws ->
  parse_bulk_body from_str new_id (concat (rendered <$> ws)) di = Ok (mkOutcome (imap (fun p w => (p, item_written p w)) ws) [] (length ws)).
Proof.
  intros H. unfold parse_bulk_body.
  assert (forall p o, parse_lines di (body_lines (concat (rendered <$> ws))) p o =
    Ok (mkOutcome (po_items o ++ imap (fun i w => ((p + i)%nat, item_written (p + i) w)) ws) (po_rejections o) (p + length ws))) as G.
  { induction H as [|w ws Hw Hws IH]; intros p o; cbn [fmap list_fmap concat].
    - cbn. unfold with_total. by rewrite app_nil_r, Nat.add_0_r.
    - rewrite parse_lines_written by done. rewrite IH. cbn [with_item po_items po_rejections imap length]. f_equal. f_equal; [|lia].
      rewrite <- app_assoc. cbn [app]. rewrite Nat.add_0_r. f_equal. f_equal. apply imap_ext. intros i x _. cbn. by rewrite Nat.add_succ_r. }
  rewrite G. done.
Qed.

(** The bodies the document routes write are read back as the actions
    they stand for, in order, whatever the URL's index: a request to one route
    is one item, and a page of deletions as many deletions. *)
Theorem written_bodies_parse di ws : Forall write_ok ws ->
  parse_bulk_body from_str new_id (concat (rendered <$> ws)) di = Ok (mkOutcome (imap (fun p w => (p, item_written p w)) ws) [] (length ws)).
Proof. apply written_parse. Qed.
End parsed.

(** ** Examples *)

(** A serializer of two texts: an action and a document. *)
Definition demo_doc : list (bytes * json) := [(str "a", JString (str "b"))].
Definition demo_action : json := action_json Index (str "docs") (Some (str "x")).
Definition demo_codec : TextCodec :=
  {| json_to_string := fun j => match j with Object [(_, Object _)] => str "i" | Object _ => str "d" | _ => str "?" end; parse_f64 := fun _ => None |}.
Definition demo_from_str (b : bytes) : option json :=
  if decide (b = str "i") then Some demo_action else if decide (b = str "d") then Some (Object demo_doc) else None.
Definition demo_write : DocWrite := mkWrite Index (str "docs") (Some (str "x")) (Some demo_doc).
Definition demo_body : bytes := str "i" ++ [x0a] ++ str "d" ++ [x0a] ++ str "i".

Example demo_body_parses :
  match @parse_bulk_body demo_codec demo_from_str (fun _ => str "new") demo_body None with
  | Ok o => po_total o = 2%nat /\ (po_rejections o).*2 = [MissingDocument]
  | Err _ => False
  end.
Proof. by vm_compute. Qed.
Lemma written_bodies_parse_witness :
  @parse_bulk_body demo_codec demo_from_str (fun _ => str "new") (concat (@rendered demo_codec <$> [demo_write; demo_write])) (Some (str "other")) =
    Ok (mkOutcome (imap (fun p w => (p, @item_written demo_codec (fun _ => str "new") p w)) [demo_write; demo_write]) [] 2).
Proof.
  apply (@written_bodies_parse demo_codec demo_from_str (fun _ => str "new") (Some (str "other")) [demo_write; demo_write]).
  assert (@write_ok demo_codec demo_from_str demo_write) as H.
  { split; [done|done|by eexists| |]; [|intros d [= <-]]; split; try reflexivity; try done;
      intros Hin; vm_compute in Hin; by apply list_elem_of_singleton in Hin. }
  by apply Forall_cons_2, Forall_cons_2, Forall_nil_2.
Defined.
