(* ===== verification/Updates.v ===== *)
(** * Partial updates (crates/rsearch-server/src/bulk_api.rs)

    The deep merge of an [_update] body into the current version of a document,
    and what an update without a current version becomes. *)

From Stdlib Require Import ZArith Lia.
From Stdlib Require Import Strings.Byte.
From stdpp Require Import base gmap sets list strings.
From S2P Require Import Prelude Json Mapping.

Local Open Scope Z_scope.

(** ** Partial updates *)

Fixpoint merge_json (patch target : json) : json :=
  match patch, target with
  | Object p, Object t =>
      Object (foldl (fun t kv => obj_insert kv.1 (kv.2 (assoc kv.1 t)) t) t
        (map (fun kv => (kv.1, fun existing =>
           match existing, kv.2 with
           | Some (Object e), Object _ => merge_json kv.2 (Object e)
           | _, _ => kv.2
           end)) p))
  | _, _ => patch
  end.

Inductive UpdateError := Scripted | NoDoc | DocNotObject | UpsertNotObject.
(** The new document and whether it is an upsert; [None]: nothing to update. *)
Definition apply_update (body : json) (current : option json) : result UpdateError (option (json * bool)) :=
  if decide (is_Some (get body (str "script"))) then Err Scripted
  else
    partial ← ok_or (get body (str "doc")) NoDoc;
    if negb (is_object partial) then Err DocNotObject
    else
      match current with
      | Some current => Ok (Some (merge_json partial current, false))
      | None =>
          if default false (v ← get body (str "doc_as_upsert"); as_bool v) then Ok (Some (partial, true))
          else
            match get body (str "upsert") with
            | Some (Object u) => Ok (Some (Object u, true))
            | Some _ => Err UpsertNotObject
            | None => Ok None
            end
      end.

(** ** What a merged document reads *)

Fixpoint read (path : list bytes) (j : json) : option json :=
  match path with
  | [] => Some j
  | k :: path => v ← get j k; read path v
  end.

(** The patch has a value that is not an object on the way to [path]. *)
Fixpoint blocked (path : list bytes) (patch : json) : bool :=
  match path with
  | [] => false
  | k :: path =>
      match patch with
      | Object o => match assoc k o with Some v => blocked path v | None => false end
      | _ => true
      end
  end.

(** Members are unique, at every level: a [BTreeMap]'s. *)
Inductive unique_keys : json -> Prop :=
| uk_object o : NoDup o.*1 -> Forall (fun kv => unique_keys kv.2) o -> unique_keys (Object o)
| uk_array l : unique_keys (Array l)
| uk_null : unique_keys Null
| uk_bool b : unique_keys (Bool b)
| uk_number n : unique_keys (Number n)
| uk_string s : unique_keys (JString s).

Lemma assoc_not_in k o : k ∉ o.*1 -> assoc k o = None.
Proof. induction o as [|[l v] o IH]; [done|]. cbn. intros H. apply not_elem_of_cons in H as [? ?]. rewrite decide_False by done. auto. Qed.
Lemma assoc_in k o v : assoc k o = Some v -> (k, v) ∈ o.
Proof. induction o as [|[l w] o IH]; [done|]. cbn. case_decide; [intros [= ->]; subst; by left|right; auto]. Qed.

Lemma assoc_fold (f : json -> option json -> json) p t k : NoDup p.*1 ->
  assoc k (foldl (fun t kv => obj_insert kv.1 (kv.2 (assoc kv.1 t)) t) t (map (fun kv => (kv.1, f kv.2)) p)) =
    match assoc k p with Some v => Some (f v (assoc k t)) | None => assoc k t end.
Proof.
  revert t; induction p as [|[l v] p IH]; intros t Hp; [done|]. cbn [map foldl fst snd assoc]. apply NoDup_cons in Hp as [Hl Hp].
  rewrite IH by done. case_decide as E.
  - subst. rewrite assoc_not_in by done. by rewrite assoc_insert.
  - by rewrite assoc_insert_ne.
Qed.

Definition merged_member (v : json) (existing : option json) : json :=
  match existing, v with
  | Some (Object e), Object _ => merge_json v (Object e)
  | _, _ => v
  end.
Lemma merged_member_eq v existing : merged_member v existing = merge_json v (default Null existing).
Proof. destruct existing as [[]|], v; done. Qed.
Lemma merge_json_objects p t : merge_json (Object p) (Object t) =
  Object (foldl (fun t kv => obj_insert kv.1 (kv.2 (assoc kv.1 t)) t) t (map (fun kv => (kv.1, merged_member kv.2)) p)).
Proof. done. Qed.
Lemma get_merge p t k : NoDup p.*1 ->
  get (merge_json (Object p) (Object t)) k = match assoc k p with Some v => Some (merge_json v (default Null (assoc k t))) | None => assoc k t end.
Proof. intros H. rewrite merge_json_objects. cbn [get]. rewrite assoc_fold by done. destruct (assoc k p); [|done]. by rewrite merged_member_eq. Qed.
Lemma merge_json_other p t : is_object t = false -> merge_json p t = p.
Proof. by destruct p, t. Qed.

(** What a partial update makes of a document, path by path: where the
    patch says something its value stands, merged member by member where both
    sides have an object; where it says nothing the document is as it was,
    unless the patch put a plain value on the way. *)
Theorem merge_reads patch target path : unique_keys patch ->
  read path (merge_json patch target) =
    match read path patch with
    | Some v => Some (merge_json v (default Null (read path target)))
    | None => if blocked path patch then None else read path target
    end.
Proof.
  intros Hu. revert patch target Hu; induction path as [|k path IH]; intros patch target Hu; [done|]. cbn [read blocked].
  assert (forall v, read path v = (match read path v with Some x => Some (merge_json x Null) | None => if blocked path v then None else None end)) as Hid.
  { intros v. destruct (read path v) as [x|]; [by destruct x|]. by destruct (blocked path v). }
  destruct patch as [| | | | |p]; [done..|]. inversion_clear Hu as [? Hp Hall| | | | |]. cbn [get].
  destruct (decide (is_object target = true)) as [Ht|Ht].
  - destruct target as [| | | | |t]; [done..|]. rewrite get_merge by done. cbn [get]. destruct (assoc k p) as [v|] eqn:E; [|done].
    cbn [mbind option_bind]. rewrite IH.
    + destruct (assoc k t) as [u|]; cbn [default from_option id mbind option_bind]; [done|].
      by destruct path.
    + apply assoc_in in E. rewrite Forall_forall in Hall. exact (Hall _ E).
  - apply not_true_iff_false in Ht. rewrite merge_json_other by done. cbn [get].
    assert (get target k = None) as -> by (by destruct target). cbn [mbind option_bind default from_option id].
    destruct (assoc k p) as [v|]; [|done]. cbn [mbind option_bind]. apply Hid.
Qed.

(** An update without a script and with an object [doc] is answered on
    every branch: merged over the current version where there is one, else the
    [doc] where [doc_as_upsert] is true, else the [upsert] document, else
    nothing.  What is written is an object. *)
Theorem apply_update_cases body current partial : get body (str "script") = None -> get body (str "doc") = Some (Object partial) ->
  (forall c, current = Some c -> is_object c = true) ->
  match apply_update body current with
  | Ok (Some (doc, upserted)) => is_object doc = true /\
      (upserted = false -> exists c, current = Some c /\ doc = merge_json (Object partial) c) /\
      (upserted = true -> current = None /\ (doc = Object partial \/ get body (str "upsert") = Some doc))
  | Ok None => current = None /\ get body (str "upsert") = None
  | Err e => e = UpsertNotObject /\ current = None /\ exists u, get body (str "upsert") = Some u /\ is_object u = false
  end.
Proof.
  intros Hs Hd Hc. unfold apply_update. rewrite Hs, decide_False by (by intros []). rewrite Hd. cbn [ok_or mbind result_bind is_object negb].
  destruct current as [c|].
  - specialize (Hc c eq_refl). destruct c as [| | | | |t]; try done. split; [done|]. split; [|done]. intros _. by exists (Object t).
  - destruct (default false _); [split; [done|]; split; [done|]; intros _; split; [done|by left]|].
    destruct (get body (str "upsert")) as [u|]; [|done]. destruct u; try (split; [done|]; split; [done|]; by eexists).
    split; [done|]. split; [done|]. intros _. split; [done|by right].
Qed.

(** ** Examples *)

Lemma merge_reads_witness :
  let patch := Object [(str "a", Object [(str "b", Null)])] in let doc := Object [(str "a", Object [(str "c", Bool true)]); (str "d", Null)] in
  read [str "a"; str "c"] (merge_json patch doc) = Some (Bool true) /\ read [str "a"; str "b"] (merge_json patch doc) = Some Null.
Proof.
  intros patch doc. assert (unique_keys patch) as H.
  { constructor; [apply NoDup_singleton|]. apply Forall_cons_2, Forall_nil_2. constructor; [apply NoDup_singleton|]. apply Forall_cons_2, Forall_nil_2. constructor. }
  split; [exact (merge_reads patch doc [str "a"; str "c"] H)|exact (merge_reads patch doc [str "a"; str "b"] H)].
Defined.
Lemma apply_update_cases_witness :
  let body := Object [(str "doc", Object [(str "a", Null)])] in apply_update body None = Ok None /\ get body (str "upsert") = None.
Proof.
  intros body. split; [reflexivity|].
  exact (proj2 (apply_update_cases body None [(str "a", Null)] eq_refl eq_refl ltac:(done))).
Defined.
