(* ===== verification/BulkApi.v ===== *)
(** * Document writes over HTTP (crates/rsearch-server/src/bulk_api.rs,
    bulk_forward.rs, doc_api.rs; [stream_schema] of
    crates/rsearch-ingest/src/pipeline.rs)

    A bulk request end to end on one node: its items resolved against their
    streams, updates made whole writes, delete tombstones, the log, the workers'
    queues, replacement tombstones, and the answer to each item.  The node is
    threaded through a monad that stops at the first failure of the whole
    request.  Messages are values of a type. *)

From Stdlib Require Import ZArith Lia.
From Stdlib Require Import Strings.Byte.
From stdpp Require Import base gmap sets list strings sorting.
From S2P Require Import Prelude Order Json Float64 Common Metastore Wal Ingest Dates Mapping Document Bulk Updates.

Local Open Scope Z_scope.

(** ** Answers *)

(** Why an item is refused, and the status and error type it is told. *)
Inductive Why :=
| BadAction (r : Reject) | NoSuchIndex (auto_create : bool) | LogMode | VersionConflict (current : Z)
| NoLookup | LookupFailed | DocumentMissing | BadUpdate (e : UpdateError) | MalformedDocument (r : Refusal)
| QueueFull | NotEnqueued (e : option IngestError) | UpdateUnresolved.
Definition why_status (w : Why) : Z :=
  match w with
  | NoSuchIndex _ | DocumentMissing => 404
  | VersionConflict _ => 409
  | QueueFull => 429
  | LookupFailed => 503
  | NotEnqueued _ | UpdateUnresolved => 500
  | _ => 400
  end.
Definition why_type (w : Why) : bytes :=
  str match w with
      | NoSuchIndex _ => "index_not_found_exception"
      | DocumentMissing => "document_missing_exception"
      | VersionConflict _ => "version_conflict_engine_exception"
      | QueueFull => "es_rejected_execution_exception"
      | LookupFailed => "unavailable_shards_exception"
      | NotEnqueued _ | UpdateUnresolved => "internal_error"
      | MalformedDocument _ => "mapper_parsing_exception"
      | _ => "illegal_argument_exception"
      end.

Inductive Outcome := Done (version : Z) (res : bytes) (status : Z) | Refused (why : Why).
Record ItemResult := mkResult { ir_pos : nat; ir_action : BulkAction; ir_index : bytes; ir_id : option bytes; ir_out : Outcome }.
Definition status_of (r : ItemResult) : Z := match ir_out r with Done _ _ s => s | Refused w => why_status w end.
(** [errors] of the response. *)
Definition any_error (l : list ItemResult) : bool := existsb (fun r => 300 <=? status_of r) l.

(** Why a whole request fails. *)
Inductive BulkError :=
| Draining | NoIngestRole | BadBody (e : BodyError) | EmptyBody | MetastoreUnavailable | TombstonesFailed | WalAppendFailed (e : WalError)
| Panicked.

(** ** The node *)

Record Node := mkNode {
  nd_pipe : Pipeline;
  nd_schemas : gmap bytes (MappedSchema * Z);    (** the mapping check's schemas *)
  nd_stale : list Z;                             (** tombstone caches invalidated, by stream *)
  nd_retrying : list (list NewTombstone);        (** left to the background retry *)
  nd_flushed : list bytes;                       (** streams a refresh cut *)
}.
Definition with_pipe (p : Pipeline) (n : Node) : Node := mkNode p (nd_schemas n) (nd_stale n) (nd_retrying n) (nd_flushed n).

Definition BulkM (A : Type) : Type := Node -> Node * result BulkError A.
#[export] Instance bulk_ret : MRet BulkM := fun A a n => (n, Ok a).
#[export] Instance bulk_bind : MBind BulkM := fun A B f m n =>
  let '(n, r) := m n in match r with Ok a => f a n | Err e => (n, Err e) end.
Definition fail {A} (e : BulkError) : BulkM A := fun n => (n, Err e).
Definition update (f : Node -> Node) : BulkM unit := fun n => (f n, Ok tt).
Definition gets {A} (f : Node -> A) : BulkM A := fun n => (n, Ok (f n)).
Definition on_pipe {A} (e : BulkError) (f : Pipeline -> Pipeline * result IngestError A) : BulkM A := fun n =>
  let '(p, r) := f (nd_pipe n) in (with_pipe p n, match r with Ok a => Ok a | Err _ => Err e end).

(** A document found by a lookup: its version and source. *)
Notation Found := (gmap bytes (Z * json)).
Inductive LookupAnswer := NoService | Down | Answered (found : Found).

(** What the world does during one request. *)
Record World := mkWorld {
  wd_now : Z;                                           (** clock of the caches *)
  wd_info : nat -> bytes -> bool * bool * bool;         (** the round trips that resolve a stream *)
  wd_bounds : bool;
  wd_lookup : bytes -> list bytes -> LookupAnswer;      (** [get_documents]; a missing stream finds nothing *)
  wd_schema : nat -> bool;
  wd_micros : nat -> Z;                                 (** the wall clock at each stamp *)
  wd_tombstones : bool;
  wd_turn : nat -> Turn;                                (** each routed copy's way to its worker *)
  wd_replace : bool;
}.

Section bulk.
Context `{K : Crc32} `{T : TimeCrate} `{C : TextCodec} `{X : TextTables}.
Variables (max_segment_bytes : Z) (rules : list RoutingRuleRecord) (from_str : bytes -> option json) (new_id : nat -> bytes).
Variable auto_create_index : bytes.
Variable w : World.

(** ** Streams and schemas *)

Notation Infos := (gmap bytes StreamInfo).

Definition resolve_info (pos : nat) (infos : Infos) (stream : bytes) (create : option StreamMode) : BulkM (Infos * option StreamInfo) :=
  match infos !! stream with
  | Some info => mret (infos, Some info)
  | None =>
      let '(up0, up1, up2) := wd_info w pos stream in
      o ← match create with
          | Some mode => on_pipe MetastoreUnavailable (fun p =>
              let '(p, r) := stream_info_creating p (wd_now w) up1 up2 stream mode in (p, Some <$> r))
          | None => on_pipe MetastoreUnavailable (fun p => stream_info_if_exists p (wd_now w) up0 up1 up2 stream)
          end;
      match o with
      | Some info => mret (<[stream := info]> infos, Some info)
      | None => mret (infos, None)
      end
  end.

(** [IngestPipeline::stream_schema]: cached for ten seconds; a stream that does
    not exist declares nothing. *)
Definition cached_schema (n : Node) (stream : bytes) : option MappedSchema :=
  match nd_schemas n !! stream with
  | Some (schema, at_) => if wd_now w - at_ <? STREAM_INFO_TTL then Some schema else None
  | None => None
  end.
Definition stream_schema (up : bool) (stream : bytes) : BulkM MappedSchema := fun n =>
  match cached_schema n stream with
  | Some schema => (n, Ok schema)
  | None =>
      if negb up then (n, Err MetastoreUnavailable)
      else
        match match get_stream (p_meta (nd_pipe n)) stream with
              | Ok record => Ok (existing_mapping (Metastore.mapping record))
              | Err (StreamNotFound _) => Ok default_mapping
              | Err _ => Err MetastoreUnavailable
              end with
        | Ok mapping =>
            let schema := build mapping in
            (mkNode (nd_pipe n) (<[stream := (schema, wd_now w)]> (nd_schemas n)) (nd_stale n) (nd_retrying n) (nd_flushed n), Ok schema)
        | Err e => (n, Err e)
        end
  end.

Definition next_seq (pos : nat) : BulkM Z := fun n =>
  let '(seq, c) := next_stamp (p_clock (nd_pipe n)) (wd_micros w pos) in (with_pipe (with_clock c (nd_pipe n)) n, Ok seq).

(** ** Which items have a stream *)

Definition is_write (a : BulkAction) : bool := bool_decide (a = Index \/ a = Create).
Definition wants_document (items : list (nat * BulkItem)) (stream : bytes) : bool :=
  existsb (fun pi => explicit_id pi.2 && is_write (it_action pi.2) && bool_decide (it_stream pi.2 = stream)) items.
Definition create_mode (items : list (nat * BulkItem)) (it : BulkItem) : option StreamMode :=
  if is_write (it_action it) && auto_create_allows auto_create_index (it_stream it)
  then Some (if wants_document items (it_stream it) then Document else Log) else None.

Definition refuse (pos : nat) (it : BulkItem) (a : BulkAction) (why : Why) : ItemResult :=
  mkResult pos a (it_stream it) (Some (it_id it)) (Refused why).

Notation Items := (list (nat * BulkItem)).
(** The items whose stream exists or was created, with the streams' ids and
    modes, and the answers to the others. *)
Fixpoint keep_items (all items : Items) (infos : Infos) : BulkM (Infos * Items * list ItemResult) :=
  match items with
  | [] => mret (infos, [], [])
  | (pos, it) :: items =>
      r ← resolve_info pos infos (it_stream it) (create_mode all it);
      rest ← keep_items all items r.1;
      let '(infos, kept, results) := rest in
      mret (match r.2 with
            | Some _ => (infos, (pos, it) :: kept, results)
            | None => (infos, kept,
                refuse pos it (it_action it) (NoSuchIndex (auto_create_allows auto_create_index (it_stream it))) :: results)
            end)
  end.

Definition doc_mode (infos : Infos) (stream : bytes) : bool :=
  match infos !! stream with Some i => bool_decide (info_mode i = Document) | None => false end.

(** ** Sequence causality *)

Definition id_pairs (infos : Infos) (items : Items) : list (Z * bytes) :=
  omap (fun pi => if explicit_id pi.2 && doc_mode infos (it_stream pi.2)
                  then (fun i => (info_id i, it_id pi.2)) <$> infos !! it_stream pi.2 else None) items.
Definition observe_bounds (infos : Infos) (items : Items) : BulkM unit :=
  match id_pairs infos items with
  | [] => mret tt
  | pairs =>
      if negb (wd_bounds w) then fail MetastoreUnavailable
      else
        update (fun n => match sql_max ((fun b => Some b.2) <$> tombstone_bounds (p_meta (nd_pipe n)) pairs) with
                         | Some m => with_pipe (with_clock (observe (p_clock (nd_pipe n)) m) (nd_pipe n)) n
                         | None => n
                         end)
  end.

(** ** Read-modify-write *)

Definition needs_lookup (infos : Infos) (it : BulkItem) : bool :=
  match it_action it with
  | Update => doc_mode infos (it_stream it)
  | Create => doc_mode infos (it_stream it) && explicit_id it
  | _ => false
  end.
Definition wanted (infos : Infos) (items : Items) (stream : bytes) : list bytes :=
  omap (fun pi => if needs_lookup infos pi.2 && bool_decide (it_stream pi.2 = stream) then Some (it_id pi.2) else None) items.
Definition current_of (infos : Infos) (items : Items) (stream id : bytes) : result Why (option (Z * json)) :=
  match wanted infos items stream with
  | [] => Ok None
  | ids =>
      match wd_lookup w stream ids with
      | NoService => Err NoLookup
      | Down => Err LookupFailed
      | Answered found => Ok (found !! id)
      end
  end.

(** What an item becomes: an update turns into a whole write.  With it, what a
    success is told. *)
Definition resolve_item (document_mode : bool) (current : result Why (option (Z * json))) (it : BulkItem)
    : result Why (BulkItem * (bytes * Z)) :=
  let created := (str "created", 201) in
  match it_action it with
  | Index =>
      if document_mode && explicit_id it then Ok (it, (str "updated", 200))
      else if explicit_id it then Err LogMode else Ok (it, created)
  | Create =>
      if explicit_id it && negb document_mode then Err LogMode
      else if document_mode && explicit_id it then
        match current with
        | Ok (Some cur) => Err (VersionConflict cur.1)
        | Ok None => Ok (it, created)
        | Err e => Err e
        end
      else Ok (it, created)
  | Update =>
      if negb document_mode then Err LogMode
      else
        cur ← current;
        match apply_update (it_doc it) (snd <$> cur) with
        | Ok (Some (doc, was_upsert)) =>
            Ok (mkItem Index (it_stream it) (it_id it) (explicit_id it) doc (json_to_string doc),
                if was_upsert then created else (str "updated", 200))
        | Ok None => Err DocumentMissing
        | Err e => Err (BadUpdate e)
        end
  | Delete => Ok (it, (str "deleted", 200))
  end.

Record Planned := mkPlanned {
  pl_pos : nat; pl_item : BulkItem; pl_routes : list bytes; pl_seq : Z; pl_outcome : bytes * Z; pl_wire : BulkAction;
}.
Definition check_document (document_mode : bool) (pos : nat) (it : BulkItem) : BulkM (option Why) :=
  if document_mode && is_write (it_action it) then
    schema ← stream_schema (wd_schema w pos) (it_stream it);
    match validate_document schema (it_doc it) with
    | Ok _ => mret None
    | Err Panicking => fail Panicked
    | Err r => mret (Some (MalformedDocument r))
    end
  else mret None.
Definition routes_of (it : BulkItem) : list bytes :=
  if is_write (it_action it) then expand_routes json_to_string rules (it_stream it) (it_doc it) else [it_stream it].
Fixpoint plan_items (infos : Infos) (all items : Items) : BulkM (list Planned * list ItemResult) :=
  match items with
  | [] => mret ([], [])
  | (pos, it) :: items =>
      let document_mode := doc_mode infos (it_stream it) in
      match resolve_item document_mode (current_of infos all (it_stream it) (it_id it)) it with
      | Err why =>
          rest ← plan_items infos all items;
          mret (rest.1, refuse pos it (it_action it) why :: rest.2)
      | Ok (it', outcome) =>
          bad ← check_document document_mode pos it';
          match bad with
          | Some why =>
              rest ← plan_items infos all items;
              mret (rest.1, refuse pos it (it_action it) why :: rest.2)
          | None =>
              seq ← next_seq pos;
              rest ← plan_items infos all items;
              mret (mkPlanned pos it' (routes_of it') seq outcome (it_action it) :: rest.1, rest.2)
          end
      end
  end.
(** Routing may name streams the request does not. *)
Fixpoint resolve_routes (pos : nat) (infos : Infos) (routes : list bytes) : BulkM Infos :=
  match routes with
  | [] => mret infos
  | stream :: routes => r ← resolve_info pos infos stream (Some Log); resolve_routes pos r.1 routes
  end.
Fixpoint resolve_plans (infos : Infos) (plans : list Planned) : BulkM Infos :=
  match plans with
  | [] => mret infos
  | pl :: plans => infos ← resolve_routes (pl_pos pl) infos (pl_routes pl); resolve_plans infos plans
  end.

(** ** Deletes *)

Definition answer (pl : Planned) (out : Outcome) : ItemResult :=
  mkResult (pl_pos pl) (pl_wire pl) (it_stream (pl_item pl)) (Some (it_id (pl_item pl))) out.
Definition done (pl : Planned) : ItemResult := answer pl (Done (pl_seq pl) (pl_outcome pl).1 (pl_outcome pl).2).
Definition tombstone_of (infos : Infos) (pl : Planned) : option NewTombstone :=
  match infos !! it_stream (pl_item pl) with
  | Some info => if decide (info_mode info = Document) then Some (mkNewTombstone (info_id info) (it_id (pl_item pl)) (pl_seq pl)) else None
  | None => None
  end.
(** The tombstones of the deletions, and the answers to all that is not a write. *)
Definition deletions (infos : Infos) (plans : list Planned) : list NewTombstone :=
  omap (fun pl => if decide (it_action (pl_item pl) = Delete) then tombstone_of infos pl else None) plans.
Definition answers (infos : Infos) (plans : list Planned) : list ItemResult :=
  omap (fun pl =>
    match it_action (pl_item pl) with
    | Index | Create => None
    | Delete => Some match tombstone_of infos pl with Some _ => done pl | None => answer pl (Refused LogMode) end
    | Update => Some (answer pl (Refused UpdateUnresolved))
    end) plans.
Definition writes (plans : list Planned) : list Planned := filter (fun pl => is_write (it_action (pl_item pl)) = true) plans.

(** [invalidate_tombstone_caches]: each stream once. *)
Definition invalidate (items : list NewTombstone) (n : Node) : Node :=
  mkNode (nd_pipe n) (nd_schemas n) (nd_stale n ++ remove_dups (nt_stream <$> items)) (nd_retrying n) (nd_flushed n).
Definition write_tombstones (items : list NewTombstone) : BulkM unit :=
  match items with
  | [] => mret tt
  | _ => on_pipe TombstonesFailed (fun p => upsert_pending p (wd_tombstones w) items (wd_now w));; update (invalidate items)
  end.

(** ** The log *)

Definition replaces (infos : Infos) (pl : Planned) (stream : bytes) : bool := explicit_id (pl_item pl) && doc_mode infos stream.
Definition wal_items (infos : Infos) (plans : list Planned) : list WalItem :=
  concat ((fun pl => (fun stream =>
    {| wi_stream := stream; wi_id := it_id (pl_item pl); wi_seq := pl_seq pl; wi_tombstone := replaces infos pl stream;
       wi_doc := it_raw (pl_item pl) |}) <$> pl_routes pl) <$> plans).
Definition append (items : list WalItem) : BulkM (list WalPos) :=
  match items with
  | [] => mret []
  | _ => fun n =>
      let '(wal, r) := append_batch max_segment_bytes items (p_wal (nd_pipe n)) in
      (with_pipe (with_wal wal (nd_pipe n)) n, match r with Ok ps => Ok ps | Err e => Err (WalAppendFailed e) end)
  end.

(** ** The workers *)

(** What the copies handed over leave to do: replacement tombstones and streams
    to cut. *)
Record Owed := mkOwed { ow_tombstones : list NewTombstone; ow_refresh : list bytes }.
Definition owe (infos : Infos) (refresh : bool) (pl : Planned) (stream : bytes) (o : Owed) : Owed :=
  match infos !! stream with
  | Some info =>
      if decide (info_mode info = Document) then
        mkOwed (if replaces infos pl stream
                then ow_tombstones o ++ [mkNewTombstone (info_id info) (it_id (pl_item pl)) (pl_seq pl)] else ow_tombstones o)
               (if refresh && negb (bool_decide (stream ∈ ow_refresh o)) then ow_refresh o ++ [stream] else ow_refresh o)
      else o
  | None => o
  end.

(** How one item's copies fared. *)
Record Tally := mkTally { tl_accepted : nat; tl_saturated : bool; tl_error : option (option IngestError) }.
Definition verdict (pl : Planned) (t : Tally) : ItemResult :=
  match tl_accepted t with
  | S _ => done pl
  | O => answer pl (Refused (if tl_saturated t then QueueFull else NotEnqueued (default None (tl_error t))))
  end.

(** [positions]: the log positions not yet used; [k]: how many copies so far. *)
Fixpoint enqueue_copies (infos : Infos) (refresh : bool) (pl : Planned) (routes : list bytes) (k : nat) (ps : list WalPos) (t : Tally) (o : Owed)
    : BulkM (nat * list WalPos * Tally * Owed) :=
  match routes with
  | [] => mret (k, ps, t, o)
  | stream :: routes =>
      match ps with
      | [] => mret (k, ps, mkTally (tl_accepted t) (tl_saturated t) (Some None), o)
      | pos :: ps => fun n =>
          let '(p, r) := enqueue (nd_pipe n) (wd_turn w k) stream (it_raw (pl_item pl)) (it_id (pl_item pl)) (pl_seq pl) pos in
          match r with
          | Ok _ =>
              enqueue_copies infos refresh pl routes (S k) ps (mkTally (S (tl_accepted t)) (tl_saturated t) (tl_error t))
                (owe infos refresh pl stream o) (with_pipe p n)
          | Err e =>
              let t := match e with
                       | Saturated => mkTally (tl_accepted t) true (tl_error t)
                       | _ => mkTally (tl_accepted t) (tl_saturated t) (Some (Some e))
                       end in
              enqueue_copies infos refresh pl routes (S k) ps t o (with_pipe (confirm_positions [pos] p) n)
          end
      end
  end.
Fixpoint enqueue_plans (infos : Infos) (refresh : bool) (plans : list Planned) (k : nat) (ps : list WalPos) (o : Owed)
    : BulkM (list ItemResult * Owed) :=
  match plans with
  | [] => mret ([], o)
  | pl :: plans =>
      r ← enqueue_copies infos refresh pl (pl_routes pl) k ps (mkTally 0 false None) o;
      let '(k, ps, t, o) := r in
      rest ← enqueue_plans infos refresh plans k ps o;
      mret (verdict pl t :: rest.1, rest.2)
  end.

(** The replacement tombstones of the copies handed over; what fails is retried
    in the background. *)
Definition replace_versions (items : list NewTombstone) : BulkM unit := fun n =>
  match items with
  | [] => (n, Ok tt)
  | _ =>
      match upsert_pending (nd_pipe n) (wd_replace w) items (wd_now w) with
      | (p, Ok _) => (invalidate items (with_pipe p n), Ok tt)
      | (p, Err _) => (mkNode p (nd_schemas n) (nd_stale n) (nd_retrying n ++ [items]) (nd_flushed n), Ok tt)
      end
  end.
Definition cut_streams (streams : list bytes) (n : Node) : Node :=
  mkNode (nd_pipe n) (nd_schemas n) (nd_stale n) (nd_retrying n) (nd_flushed n ++ streams).

(** ** [handle_bulk_local] *)

Definition rejected (r : nat * BulkAction * bytes * Reject) : ItemResult :=
  let '(pos, a, index, why) := r in mkResult pos a index None (Refused (BadAction why)).
Definition by_position (a b : ItemResult) : comparison := Nat.compare (ir_pos a) (ir_pos b).

Definition run_items (items : Items) (refresh : bool) : BulkM (list ItemResult) :=
  kept ← keep_items items items ∅;
  let '(infos, items, missing) := kept in
  observe_bounds infos items;;
  planned ← plan_items infos items items;
  infos ← resolve_plans infos planned.1;
  write_tombstones (deletions infos planned.1);;
  positions ← append (wal_items infos (writes planned.1));
  enqueued ← enqueue_plans infos refresh (writes planned.1) 0 positions (mkOwed [] []);
  replace_versions (ow_tombstones enqueued.2);;
  update (cut_streams (ow_refresh enqueued.2));;
  mret (missing ++ planned.2 ++ answers infos planned.1 ++ enqueued.1).

Definition handle_bulk_local (default_index : option bytes) (body : bytes) (refresh : bool) : BulkM (list ItemResult) :=
  match parse_bulk_body from_str new_id body default_index with
  | Err e => fail (BadBody e)
  | Ok o =>
      if decide (po_total o = 0%nat) then fail EmptyBody
      else
        results ← run_items (po_items o) refresh;
        mret (sort_by by_position ((rejected <$> po_rejections o) ++ results))
  end.
End bulk.

(** ** Every action is answered once, in order *)

(** What a run does to the node and answers, when it answers. *)
Definition runs {A} (m : BulkM A) (n : Node) (n' : Node) (a : A) : Prop := m n = (n', Ok a).
Lemma runs_bind {A B} (m : BulkM A) (f : A -> BulkM B) n n' b :
  runs (m ≫= f) n n' b -> exists n1 a, runs m n n1 a /\ runs (f a) n1 n' b.
Proof. unfold runs. unfold mbind, bulk_bind. destruct (m n) as [n1 [a|e]]; [|done]. intros H. by exists n1, a. Qed.
Lemma runs_ret {A} (a b : A) n n' : runs (mret a) n n' b -> n' = n /\ b = a.
Proof. by intros [= <- <-]. Qed.
Lemma runs_fail {A} e n n' (a : A) : ~ runs (fail e) n n' a.
Proof. done. Qed.
Lemma runs_update f n n' u : runs (update f) n n' u -> n' = f n.
Proof. by intros [= <-]. Qed.
Lemma runs_on_pipe {A} e (f : Pipeline -> Pipeline * result IngestError A) n n' a : runs (on_pipe e f) n n' a ->
  exists p, f (nd_pipe n) = (p, Ok a) /\ n' = with_pipe p n.
Proof. unfold runs, on_pipe. destruct (f (nd_pipe n)) as [p [x|]]; [|done]. intros [= <- <-]. by exists p. Qed.

(** Splits a run into its steps. *)
Ltac step_runs :=
  repeat match goal with
         | H : runs (mbind _ _) _ _ _ |- _ =>
             let n := fresh "n" in let a := fresh "a" in let H1 := fresh "Hr" in let H2 := fresh "Hr" in
             apply runs_bind in H as (n & a & H1 & H2); cbn beta in H2
         | H : runs (mret _) _ _ _ |- _ => apply runs_ret in H as [? ?]; simplify_eq
         | H : runs (fail _) _ _ _ |- _ => by apply runs_fail in H
         | H : runs (update _) _ _ _ |- _ => apply runs_update in H
         end.

Lemma good_nat (P : nat -> Prop) : good_cmp P Nat.compare.
Proof.
  apply (good_ext P (fun x y => Z.compare (Z.of_nat x) (Z.of_nat y))); [intros x y _ _; apply Nat2Z.inj_compare|].
  apply (good_weaken (fun _ => True)); [done|]. apply (good_on (fun _ => True) Z.compare Z.of_nat), good_Z.
Qed.
Lemma sort_by_position l n : ir_pos <$> l ≡ₚ seq 0 n -> ir_pos <$> sort_by by_position l = seq 0 n.
Proof.
  intros H. rewrite <- (sort_by_fmap by_position Nat.compare ir_pos) by done.
  symmetry. apply (sort_by_unique Nat.compare (fun _ => True) (good_nat _)); [by apply Forall_true| |by symmetry|].
  - intros x y _ _. apply Nat.compare_eq.
  - clear H. generalize 0%nat. induction n as [|n IH]; intros k; [constructor|]. constructor; [apply IH|].
    apply Forall_forall. intros x Hx. apply elem_of_seq in Hx. unfold cmp_le. rewrite Nat.compare_gt_iff. lia.
Qed.

Section answered.
Context `{K : Crc32} `{T : TimeCrate} `{C : TextCodec} `{X : TextTables}.
Variables (max_segment_bytes : Z) (rules : list RoutingRuleRecord) (auto_create_index : bytes) (w : World).

Lemma keep_items_positions all items infos n n' infos' kept res :
  runs (keep_items auto_create_index w all items infos) n n' (infos', kept, res) -> kept.*1 ++ (ir_pos <$> res) ≡ₚ items.*1.
Proof.
  revert infos n n' infos' kept res; induction items as [|[pos it] items IH]; intros infos n n' infos' kept res H; cbn [keep_items] in H; step_runs.
  - done.
  - destruct a0 as [[infos1 kept1] res1]. apply IH in Hr1. destruct a as [i1 [o|]]; cbn [snd] in *; step_runs;
      cbn [fmap list_fmap fst]; rewrite <- Hr1; [done|]. cbn [refuse ir_pos]. by rewrite <- Permutation_middle.
Qed.

Lemma plan_items_positions infos all items n n' plans res :
  runs (plan_items rules w infos all items) n n' (plans, res) -> (pl_pos <$> plans) ++ (ir_pos <$> res) ≡ₚ items.*1.
Proof.
  revert n n' plans res; induction items as [|[pos it] items IH]; intros n n' plans res H; cbn [plan_items] in H; step_runs; [done|].
  destruct (resolve_item _ _ it) as [[it' outcome]|why]; step_runs.
  - destruct a as [why|]; step_runs;
      match goal with H : runs (plan_items _ _ _ _ _) _ _ ?a |- _ => destruct a as [plans1 res1]; apply IH in H; cbn in *; rewrite <- H end.
    + by rewrite <- Permutation_middle.
    + done.
  - match goal with H : runs (plan_items _ _ _ _ _) _ _ ?a |- _ => destruct a as [plans1 res1]; apply IH in H; cbn in *; rewrite <- H end.
    by rewrite <- Permutation_middle.
Qed.

(** The deletions and the writes are all that is planned. *)
Lemma answers_positions infos plans : (ir_pos <$> answers infos plans) ++ (pl_pos <$> writes plans) ≡ₚ pl_pos <$> plans.
Proof.
  induction plans as [|pl plans IH]; [done|]. unfold writes, answers in *. cbn [omap list_omap]. rewrite filter_cons. unfold is_write at 1.
  destruct (it_action (pl_item pl)) eqn:E.
  1,2: rewrite decide_True by done; cbn [fmap list_fmap]; rewrite <- Permutation_middle; by rewrite IH.
  all: rewrite decide_False by done; cbn [fmap list_fmap app]; rewrite IH; by destruct (tombstone_of infos pl).
Qed.

Lemma enqueue_plans_positions infos refresh plans k ps o n n' res o' :
  runs (enqueue_plans w infos refresh plans k ps o) n n' (res, o') -> ir_pos <$> res = pl_pos <$> plans.
Proof.
  revert k ps o n n' res o'; induction plans as [|pl plans IH]; intros k ps o n n' res o' H; cbn [enqueue_plans] in H; step_runs; [done|].
  destruct a as [[[k1 ps1] t] o1]. step_runs. destruct a as [res1 o2]. cbn. f_equal; [by unfold verdict; destruct (tl_accepted t)|]. by eapply IH.
Qed.

Lemma run_items_positions items refresh n n' res :
  runs (run_items max_segment_bytes rules auto_create_index w items refresh) n n' res -> ir_pos <$> res ≡ₚ items.*1.
Proof.
  unfold run_items. intros H. step_runs. destruct a as [[infos kept] missing]. step_runs.
  repeat match goal with
         | H : runs (keep_items _ _ _ _ _) _ _ _ |- _ => apply keep_items_positions in H
         | H : runs (plan_items _ _ _ _ _) _ _ ?a |- _ => destruct a as [plans res1]; apply plan_items_positions in H
         | H : runs (enqueue_plans _ _ _ _ _ _ _) _ _ ?a |- _ => destruct a as [res2 owed]; apply enqueue_plans_positions in H
         end.
  cbn [fst snd] in *. rewrite !fmap_app.
  match goal with H1 : _ ≡ₚ items.*1, H2 : _ ≡ₚ kept.*1, H3 : ir_pos <$> res2 = _ |- context [answers ?i plans] =>
    rewrite <- H1, <- H2, H3, <- (answers_positions i plans) end.
  rewrite (Permutation_app_comm (ir_pos <$> missing)). apply Permutation_app; [|done].
  rewrite (Permutation_app_comm (ir_pos <$> res1)). done.
Qed.

Lemma handle_bulk_positions from_str new_id default_index body refresh n n' res :
  runs (handle_bulk_local max_segment_bytes rules from_str new_id auto_create_index w default_index body refresh) n n' res ->
  exists o, parse_bulk_body from_str new_id body default_index = Ok o /\ ir_pos <$> res = seq 0 (po_total o).
Proof.
  unfold handle_bulk_local. destruct (parse_bulk_body _ _ _ _) as [o|e] eqn:E; [|by intros ?%runs_fail].
  case_decide; [by intros ?%runs_fail|]. intros H'. step_runs. exists o. split; [done|].
  match goal with H : runs (run_items _ _ _ _ _ _) _ _ _ |- _ => apply run_items_positions in H as Hp end.
  apply sort_by_position. rewrite fmap_app, Hp. apply parse_covers in E. unfold positions in E. rewrite <- E, Permutation_app_comm.
  apply Permutation_app; [done|]. apply reflexive_eq. rewrite <- list_fmap_compose. apply list_fmap_ext. by intros ? [[[? ?] ?] ?].
Qed.

(** [C13] Every action of a bulk request that is answered is answered exactly
    once, and the answers are in the order of the actions: whichever items
    were rejected while parsing, had no index, failed a lookup or the mapping
    check, were deletions, or were refused by a queue. *)
Theorem bulk_answers_in_order from_str new_id default_index body refresh n n' res :
  runs (handle_bulk_local max_segment_bytes rules from_str new_id auto_create_index w default_index body refresh) n n' res ->
  exists o, parse_bulk_body from_str new_id body default_index = Ok o /\ ir_pos <$> res = seq 0 (po_total o).
Proof. apply handle_bulk_positions. Qed.
End answered.

(** ** What a run does to the log and the trace *)

(** A run that leaves the log and the trace alone. *)
Definition still (n n' : Node) : Prop := quiet (nd_pipe n) (nd_pipe n').
#[export] Instance still_preorder : PreOrder still.
Proof. split; [by intros n|]. intros a b c H1 H2. by eapply quiet_trans. Qed.
Definition stills {A} (m : BulkM A) : Prop := forall n, still n (m n).1.
Lemma stills_ret {A} (a : A) : stills (mret a).
Proof. by intros n. Qed.
Lemma stills_bind {A B} (m : BulkM A) (f : A -> BulkM B) : stills m -> (forall a, stills (f a)) -> stills (m ≫= f).
Proof.
  intros Hm Hf n. unfold mbind, bulk_bind. specialize (Hm n). destruct (m n) as [n1 [a|e]]; [|done]. by etrans; [|apply Hf].
Qed.
Lemma stills_fail {A} e : stills (@fail A e).
Proof. by intros n. Qed.
Lemma stills_pipe {A} e (f : Pipeline -> Pipeline * result IngestError A) : (forall p, quiet p (f p).1) -> stills (on_pipe e f).
Proof. intros Hf n. unfold on_pipe. specialize (Hf (nd_pipe n)). by destruct (f (nd_pipe n)) as [p r]. Qed.
Lemma stills_runs {A} (m : BulkM A) n n' a : stills m -> runs m n n' a -> still n n'.
Proof. intros Hm Hr. specialize (Hm n). unfold runs in Hr. by rewrite Hr in Hm. Qed.
#[export] Hint Resolve stills_ret stills_bind stills_fail stills_pipe : bulk.

Section quietly.
Context `{K : Crc32} `{T : TimeCrate} `{C : TextCodec} `{X : TextTables}.
Variables (max_segment_bytes : Z) (rules : list RoutingRuleRecord) (auto_create_index : bytes) (w : World).

Lemma resolve_info_still pos infos stream create : stills (resolve_info w pos infos stream create).
Proof.
  unfold resolve_info. destruct (infos !! stream); [apply stills_ret|]. destruct (wd_info w pos stream) as [[up0 up1] up2].
  apply stills_bind; [|intros [info|]; apply stills_ret]. destruct create as [mode|]; apply stills_pipe; intros p.
  - pose proof (stream_info_quiet p (wd_now w) up1 up2 stream mode) as H. by destruct (stream_info_creating _ _ _ _ _ _).
  - unfold stream_info_if_exists, stream_info. destruct (cached_info p (wd_now w) stream); [done|]. destruct up0; [|done].
    cbn [negb]. destruct (get_stream (p_meta p) stream) as [r|[]]; try done.
    pose proof (stream_info_quiet p (wd_now w) up1 up2 stream Log) as H. by destruct (stream_info_creating _ _ _ _ _ _).
Qed.
Lemma keep_items_still all items infos : stills (keep_items auto_create_index w all items infos).
Proof.
  revert infos; induction items as [|[pos it] items IH]; intros infos; cbn [keep_items]; [apply stills_ret|].
  apply stills_bind; [apply resolve_info_still|]. intros r. apply stills_bind; [apply IH|]. intros [[i k] res]. apply stills_ret.
Qed.
Lemma observe_bounds_still infos items : stills (observe_bounds w infos items).
Proof.
  unfold observe_bounds. destruct (id_pairs infos items); [apply stills_ret|]. destruct (negb _); [apply stills_fail|].
  intros n. cbn [update fst]. by destruct (sql_max _).
Qed.
Lemma stream_schema_still up stream : stills (stream_schema w up stream).
Proof.
  intros n. unfold stream_schema. destruct (cached_schema w n stream); [done|]. destruct (negb up); [done|].
  by destruct (get_stream _ _) as [|[]].
Qed.
Lemma check_document_still dm pos it : stills (check_document w dm pos it).
Proof.
  unfold check_document. destruct (dm && _); [|apply stills_ret]. apply stills_bind; [apply stream_schema_still|].
  intros s. destruct (validate_document s (it_doc it)) as [|[]]; auto with bulk.
Qed.
Lemma next_seq_still pos : stills (next_seq w pos).
Proof. intros n. unfold next_seq. by destruct (next_stamp _ _). Qed.
Lemma plan_items_still infos all items : stills (plan_items rules w infos all items).
Proof.
  induction items as [|[pos it] items IH]; cbn [plan_items]; [apply stills_ret|]. destruct (resolve_item _ _ it) as [[it' out]|why].
  - apply stills_bind; [apply check_document_still|]. intros [why|]; [auto with bulk|].
    apply stills_bind; [apply next_seq_still|]. auto with bulk.
  - auto with bulk.
Qed.
Lemma resolve_plans_still infos plans : stills (resolve_plans w infos plans).
Proof.
  revert infos; induction plans as [|pl plans IH]; intros infos; cbn [resolve_plans]; [apply stills_ret|].
  apply stills_bind; [|auto]. revert infos. induction (pl_routes pl) as [|s routes IHr]; intros infos; cbn [resolve_routes]; [apply stills_ret|].
  apply stills_bind; [apply resolve_info_still|auto].
Qed.

(** ** Copies on their way to the workers *)

(** The copy of a planned write that [e] hands over. *)
Definition hands_over (pl : Planned) (e : Event) : Prop :=
  exists stream it, e = Sent stream it /\ source it = it_raw (pl_item pl) /\ doc_id it = it_id (pl_item pl) /\ doc_seq it = pl_seq pl.
Definition no_upsert (e : Event) : Prop := match e with Upserted _ => False | _ => True end.
Definition of_plan (pl : Planned) (t : NewTombstone) : Prop := nt_doc t = it_id (pl_item pl) /\ nt_before_seq t = pl_seq pl.

(** The part of the log and trace that some copies account for. *)
Record accounted (n n' : Node) (used : list WalPos) (new : list Event) : Prop := {
  ac_trace : p_trace (nd_pipe n') = p_trace (nd_pipe n) ++ new;
  ac_clean : wal_clean (p_wal (nd_pipe n')) ;
  ac_pending k : pending (p_wal (nd_pipe n')) k = pending (p_wal (nd_pipe n)) k - landed used k + landed (sent_positions new) k;
}.
Lemma accounted_trans n n1 n2 u v a b : accounted n n1 u a -> accounted n1 n2 v b -> accounted n n2 (u ++ v) (a ++ b).
Proof.
  intros [T1 C1 P1] [T2 C2 P2]. split; [by rewrite T2, T1, app_assoc|done|].
  intros k. rewrite P2, P1, sent_positions_app, !landed_app. lia.
Qed.

Lemma accounted_refl n : wal_clean (p_wal (nd_pipe n)) -> accounted n n [] [].
Proof. intros H. split; [by rewrite app_nil_r|done|]. intros k. change (landed (sent_positions []) k) with 0. change (landed [] k) with 0. lia. Qed.
Lemma tally_nil x : x = (x + length (sent_positions []))%nat.
Proof. symmetry. apply Nat.add_0_r. Qed.
Lemma of_nil_sent pl s it : Sent s it ∈ [] -> hands_over pl (Sent s it).
Proof. by intros ?%elem_of_nil. Qed.

Lemma enqueue_copies_spec infos refresh pl routes k ps t o n n' k' ps' t' o' :
  wal_clean (p_wal (nd_pipe n)) -> (forall j, landed ps j <= pending (p_wal (nd_pipe n)) j) ->
  runs (enqueue_copies w infos refresh pl routes k ps t o) n n' (k', ps', t', o') ->
  exists used new ts, ps = used ++ ps' /\ accounted n n' used new /\
    (length routes <= length ps -> length used = length routes)%nat /\
    (tl_accepted t' = tl_accepted t + length (sent_positions new))%nat /\
    Forall no_upsert new /\ (forall s it, Sent s it ∈ new -> hands_over pl (Sent s it)) /\
    ow_tombstones o' = ow_tombstones o ++ ts /\ Forall (of_plan pl) ts /\ (ts <> [] -> sent_positions new <> []).
Proof.
  revert k ps t o n; induction routes as [|stream routes IH]; intros k ps t o n Hc Hp H; cbn [enqueue_copies] in H.
  - step_runs. exists [], [], []. rewrite !app_nil_r. split_and!; first [done|by apply accounted_refl|apply tally_nil|apply of_nil_sent|simpl; lia].
  - destruct ps as [|pos ps].
    { step_runs. exists [], [], []. rewrite !app_nil_r. split_and!; first [done|by apply accounted_refl|apply tally_nil|apply of_nil_sent|simpl; lia]. }
    pose proof (enqueue_spec (nd_pipe n) (wd_turn w k) stream (it_raw (pl_item pl)) (it_id (pl_item pl)) (pl_seq pl) pos) as He.
    unfold runs in H. destruct (enqueue _ _ _ _ _ _ _) as [p r]. destruct r as [u|e].
    + destruct He as (Ew & it & Et & Epos & Hcar). set (n1 := with_pipe p n) in *.
      assert (accounted n n1 [pos] [Sent stream it]) as Ha1.
      { split; change (nd_pipe n1) with p; [done|by rewrite Ew|]. intros j. rewrite Ew.
        change (sent_positions [Sent stream it]) with [Ingest.pos it]. rewrite Epos. lia. }
      assert (forall j, landed ps j <= pending (p_wal (nd_pipe n1)) j) as Hp1.
      { intros j. change (nd_pipe n1) with p. rewrite Ew. specialize (Hp j). rewrite landed_cons in Hp. destruct (decide _); lia. }
      destruct (IH _ _ _ _ n1 (ac_clean _ _ _ _ Ha1) Hp1 H) as (used & new & ts & -> & Hacc & Hlen & Hac & Hno & Hin & Ho & Hts & Hne).
      assert (exists ts1, ow_tombstones (owe infos refresh pl stream o) = ow_tombstones o ++ ts1 /\ Forall (of_plan pl) ts1) as (ts1 & Eo & Hts1).
      { unfold owe. destruct (infos !! stream) as [info|]; [|by exists []; rewrite app_nil_r]. case_decide; [|by exists []; rewrite app_nil_r].
        cbn [ow_tombstones]. destruct (replaces infos pl stream); [by eexists; split; [done|]; repeat constructor|by exists []; rewrite app_nil_r]. }
      exists (pos :: used), (Sent stream it :: new), (ts1 ++ ts). split_and!.
      * done.
      * exact (accounted_trans _ _ _ _ _ _ _ Ha1 Hacc).
      * cbn [length]. intros. f_equal. apply Hlen. lia.
      * rewrite Hac. change (sent_positions (Sent stream it :: new)) with (Ingest.pos it :: sent_positions new). cbn [tl_accepted length]. lia.
      * by constructor.
      * intros s x [[= -> ->]|Hx]%elem_of_cons; [|by apply Hin]. destruct Hcar as (x & Ex & ? & ? & ?). exists stream, x. done.
      * by rewrite Ho, Eo, app_assoc.
      * by apply Forall_app.
      * done.
    + destruct He as [Ew Et]. set (n1 := with_pipe (confirm_positions [pos] p) n) in *.
      assert (p_wal (nd_pipe n1) = confirm [pos] (p_wal (nd_pipe n))) as Ew1 by (by unfold n1; cbn; rewrite Ew).
      assert (forall j, pending (p_wal (nd_pipe n1)) j = pending (p_wal (nd_pipe n)) j - landed [pos] j) as Hpend.
      { intros j. rewrite Ew1, confirm_pending by done. specialize (Hp j). rewrite landed_cons in Hp. rewrite landed_cons.
        pose proof (landed_nonneg ps j). change (landed [] j) with 0. destruct (decide _); lia. }
      assert (accounted n n1 [pos] [Confirmed [pos]]) as Ha1.
      { split; [by unfold n1; cbn; rewrite Et|by rewrite Ew1; apply confirm_clean|]. intros j. rewrite Hpend.
        change (landed (sent_positions [Confirmed [pos]]) j) with 0. lia. }
      assert (forall j, landed ps j <= pending (p_wal (nd_pipe n1)) j) as Hp1.
      { intros j. rewrite Hpend. specialize (Hp j). rewrite landed_cons in *. change (landed [] j) with 0. destruct (decide _); lia. }
      destruct (IH _ _ _ _ n1 (ac_clean _ _ _ _ Ha1) Hp1 H) as (used & new & ts & -> & Hacc & Hlen & Hac & Hno & Hin & Ho & Hts & Hne).
      exists (pos :: used), (Confirmed [pos] :: new), ts. split_and!; try done.
      * exact (accounted_trans _ _ _ _ _ _ _ Ha1 Hacc).
      * cbn [length]. intros. f_equal. apply Hlen. lia.
      * rewrite Hac. change (sent_positions (Confirmed [pos] :: new)) with (sent_positions new). by destruct e.
      * by constructor.
      * intros s x [?|Hx]%elem_of_cons; [done|]. by apply Hin.
Qed.

(** The answers to planned writes, against what was handed over. *)
Definition told (new : list Event) (pl : Planned) (r : ItemResult) : Prop :=
  (r = done pl /\ exists e, e ∈ new /\ hands_over pl e) \/ exists why, r = answer pl (Refused why).
Definition copy_count (plans : list Planned) : nat := foldr (fun pl c => length (pl_routes pl) + c)%nat 0%nat plans.

Lemma verdict_told pl t new : (tl_accepted t = length (sent_positions new))%nat -> (forall s it, Sent s it ∈ new -> hands_over pl (Sent s it)) ->
  told new pl (verdict pl t) /\ (sent_positions new <> [] -> verdict pl t = done pl).
Proof.
  intros Ht Hin. unfold verdict. destruct (tl_accepted t) as [|m].
  - split; [right; by eexists|]. intros H. by destruct (sent_positions new).
  - split; [|done]. left. split; [done|]. destruct (sent_positions new) as [|q ps] eqn:E; [done|].
    assert (q ∈ sent_positions new) as Hq by (rewrite E; by left). apply elem_of_concat in Hq as (l & Hq & (e & -> & He)%list_elem_of_fmap).
    destruct e as [|s it|]; [by apply elem_of_nil in Hq| |by apply elem_of_nil in Hq]. exists (Sent s it). split; [done|]. by apply Hin.
Qed.
Lemma told_mono new new' pl r : new ⊆ new' -> told new pl r -> told new' pl r.
Proof. intros H [[-> (e & He & Hh)]|Hw]; [left|by right]. split; [done|]. exists e. by split; [apply H|]. Qed.

Lemma enqueue_plans_spec infos refresh plans k ps o n n' res o' :
  wal_clean (p_wal (nd_pipe n)) -> (forall j, landed ps j <= pending (p_wal (nd_pipe n)) j) ->
  runs (enqueue_plans w infos refresh plans k ps o) n n' (res, o') ->
  exists used rest new ts, ps = used ++ rest /\ accounted n n' used new /\ (copy_count plans <= length ps -> length used = copy_count plans)%nat /\
    Forall no_upsert new /\ Forall2 (told new) plans res /\
    (forall s it, Sent s it ∈ new -> exists pl, pl ∈ plans /\ hands_over pl (Sent s it) /\ done pl ∈ res) /\
    ow_tombstones o' = ow_tombstones o ++ ts /\
    Forall (fun t => exists pl e, pl ∈ plans /\ of_plan pl t /\ e ∈ new /\ hands_over pl e) ts.
Proof.
  revert k ps o n res; induction plans as [|pl plans IH]; intros k ps o n res Hc Hp H; cbn [enqueue_plans] in H; step_runs.
  - exists [], ps, [], []. rewrite !app_nil_r. split_and!; first [done|by apply accounted_refl|by intros ?? ?%elem_of_nil|by constructor].
  - destruct a as [[[k1 ps1] t] o1]. step_runs. destruct a as [res1 o2].
    match goal with H : runs (enqueue_copies _ _ _ _ _ _ _ _ _) _ _ _ |- _ =>
      apply enqueue_copies_spec in H as (used & new & ts & -> & Hacc & Hlen & Hac & Hno & Hin & Ho & Hts & Hne); [|done..] end.
    assert (forall j, landed ps1 j <= pending (p_wal (nd_pipe n0)) j) as Hp1.
    { intros j. rewrite (ac_pending _ _ _ _ Hacc). specialize (Hp j). rewrite landed_app in Hp. pose proof (landed_nonneg (sent_positions new) j). lia. }
    match goal with H : runs (enqueue_plans _ _ _ _ _ _ _) _ _ _ |- _ =>
      apply (IH _ _ _ _ _ (ac_clean _ _ _ _ Hacc) Hp1) in H as (used2 & rest & new2 & ts2 & -> & Hacc2 & Hlen2 & Hno2 & Hres & Hin2 & Ho2 & Hts2) end.
    destruct (verdict_told pl t new Hac Hin) as [Hv Hd]. cbn [fst snd] in *.
    exists (used ++ used2), rest, (new ++ new2), (ts ++ ts2). split_and!.
    + by rewrite app_assoc.
    + exact (accounted_trans _ _ _ _ _ _ _ Hacc Hacc2).
    + cbn [copy_count foldr]. fold (copy_count plans). rewrite !length_app in *. intros. lia.
    + by apply Forall_app.
    + constructor; [eapply told_mono; [|done]; set_solver|]. eapply Forall2_impl; [exact Hres|]. intros. eapply told_mono; [|done]. set_solver.
    + intros s it [Hs|Hs]%elem_of_app.
      * exists pl. split; [by left|]. split; [by apply Hin|]. rewrite Hd; [by left|]. intros E.
        assert (Ingest.pos it ∈ sent_positions new) as Hx; [|rewrite E in Hx; by apply elem_of_nil in Hx].
        apply elem_of_concat. exists [Ingest.pos it]. split; [by left|]. apply list_elem_of_fmap. by exists (Sent s it).
      * destruct (Hin2 s it Hs) as (pl' & ? & ? & ?). exists pl'. split_and!; [by right|done|by right].
    + by rewrite Ho2, Ho, app_assoc.
    + apply Forall_app. split.
      * destruct ts as [|t0 ts]; [constructor|]. assert (sent_positions new <> []) as Hs by (by apply Hne).
        destruct Hv as [[_ (e & He & Hh)]|[why Hw]]; [|by rewrite Hd in Hw].
        eapply Forall_impl; [exact Hts|]. intros t1 Ht. exists pl, e. split_and!; [by left|done|set_solver|done].
      * eapply Forall_impl; [exact Hts2|]. intros t1 (pl' & e & ? & ? & ? & ?). exists pl', e. split_and!; [by right|done|set_solver|done].
Qed.
End quietly.

(** ** Acknowledgements *)

Section acknowledged.
Context `{K : Crc32} {L : Crc32Laws K} `{T : TimeCrate} `{C : TextCodec} `{X : TextTables}.
Variables (max_segment_bytes : Z) (rules : list RoutingRuleRecord) (auto_create_index : bytes) (w : World).

(** A document has at most one copy more than there are rules. *)
Lemma routes_bound it : (length (routes_of rules it) <= S (length rules))%nat.
Proof.
  unfold routes_of. destruct (is_write _); [|cbn; lia]. unfold expand_routes. rewrite route_fold. cbn [app].
  assert (forall extra routes, (length (foldl push_new routes extra) <= length routes + length extra)%nat) as G.
  { induction extra as [|s extra IH]; intros routes; cbn [foldl length]; [lia|]. specialize (IH (push_new routes s)).
    unfold push_new in *. destruct (bool_decide _); [lia|]. rewrite length_app in IH. cbn in IH. lia. }
  etrans; [apply G|]. rewrite length_fmap. cbn [length]. apply le_n_S. apply length_filter.
Qed.

(** What planning guarantees of each plan. *)
Record plan_ok (pl : Planned) : Prop := {
  pk_routes : pl_routes pl = routes_of rules (pl_item pl);
  pk_delete : it_action (pl_item pl) = Delete <-> pl_wire pl = Delete;
  pk_update : it_action (pl_item pl) <> Update;
}.
Lemma resolve_item_action dm cur it it' out : resolve_item dm cur it = Ok (it', out) ->
  (it_action it' = Delete <-> it_action it = Delete) /\ it_action it' <> Update /\
  it_stream it' = it_stream it /\ it_id it' = it_id it /\ explicit_id it' = explicit_id it.
Proof.
  unfold resolve_item. destruct (it_action it) eqn:E.
  - destruct (dm && explicit_id it); [intros [= <- _]; by rewrite E|]. destruct (explicit_id it) eqn:Ex; [done|]. intros [= <- _]. by rewrite E, Ex.
  - destruct (explicit_id it && negb dm); [done|]. destruct (dm && explicit_id it); [|intros [= <- _]; by rewrite E].
    destruct cur as [[cur|]|]; [done| |done]. intros [= <- _]. by rewrite E.
  - destruct (negb dm); [done|]. destruct cur as [cur|]; [|done]. cbn [mbind result_bind].
    destruct (apply_update _ _) as [[[doc up]|]|]; [|done|done]. intros [= <- _]. done.
  - intros [= <- _]. by rewrite E.
Qed.
Lemma plan_items_ok infos all items n n' plans res :
  runs (plan_items rules w infos all items) n n' (plans, res) -> Forall plan_ok plans /\ Forall (fun r => exists why, ir_out r = Refused why) res.
Proof.
  revert n n' plans res; induction items as [|[pos it] items IH]; intros n n' plans res H; cbn [plan_items] in H; step_runs; [done|].
  destruct (resolve_item _ _ it) as [[it' outcome]|why] eqn:E; step_runs.
  - destruct a as [why|]; step_runs;
      match goal with H : runs (plan_items _ _ _ _ _) _ _ ?a |- _ => destruct a as [plans1 res1]; apply IH in H as [H1 H2]; cbn [fst snd] in * end.
    + split; [done|]. constructor; [by eexists|done].
    + split; [|done]. constructor; [|done]. apply resolve_item_action in E as (? & ? & _). by split.
  - match goal with H : runs (plan_items _ _ _ _ _) _ _ ?a |- _ => destruct a as [plans1 res1]; apply IH in H as [H1 H2]; cbn [fst snd] in * end.
    split; [done|]. constructor; [by eexists|done].
Qed.
Lemma keep_items_refused all items infos n n' infos' kept res :
  runs (keep_items auto_create_index w all items infos) n n' (infos', kept, res) -> Forall (fun r => exists why, ir_out r = Refused why) res.
Proof.
  revert infos n n' infos' kept res; induction items as [|[pos it] items IH]; intros infos n n' infos' kept res H; cbn [keep_items] in H; step_runs; [done|].
  destruct a0 as [[infos1 kept1] res1]. apply IH in Hr1. destruct a as [i1 [o|]]; cbn [snd] in *; step_runs; [done|]. constructor; [by eexists|done].
Qed.

(** Writing tombstones is one event of the trace, or none. *)
Definition upserts (items : list NewTombstone) : list Event := match items with [] => [] | _ => [Upserted items] end.
Lemma write_tombstones_spec items n n' u : runs (write_tombstones w items) n n' u ->
  p_wal (nd_pipe n') = p_wal (nd_pipe n) /\ p_trace (nd_pipe n') = p_trace (nd_pipe n) ++ upserts items.
Proof.
  unfold write_tombstones. intros H. destruct items as [|t items]; step_runs; [by rewrite app_nil_r|].
  match goal with H : runs (on_pipe _ _) _ _ _ |- _ => apply runs_on_pipe in H as (p & E & ->) end. subst n'.
  pose proof (upsert_pending_spec (nd_pipe n) (wd_tombstones w) (t :: items) (wd_now w)) as Hs. by rewrite E in Hs.
Qed.
Lemma replace_versions_spec items n n' u : runs (replace_versions w items) n n' u ->
  p_wal (nd_pipe n') = p_wal (nd_pipe n) /\ exists last, (last = [] \/ last = upserts items) /\ p_trace (nd_pipe n') = p_trace (nd_pipe n) ++ last.
Proof.
  unfold replace_versions, runs. intros H. destruct items as [|t items].
  { injection H as <- <-. split; [done|]. exists []. split; [by left|by rewrite app_nil_r]. }
  pose proof (upsert_pending_spec (nd_pipe n) (wd_replace w) (t :: items) (wd_now w)) as Hs.
  destruct (upsert_pending _ _ _ _) as [p [v|e]]; injection H as <- <-; destruct Hs as [Ew Et]; (split; [done|]).
  - exists (upserts (t :: items)). by split; [right|].
  - exists []. split; [by left|]. by rewrite app_nil_r.
Qed.

(** The log takes every copy, or the request fails. *)
Lemma append_items_fits items olds victims ps st st' r :
  append_items max_segment_bytes items olds victims ps st = (st', Ok r) -> Forall fits items.
Proof.
  revert olds victims ps st; induction items as [|it items IH]; intros olds victims ps st; cbn [append_items]; [by constructor|].
  destruct (append_item max_segment_bytes it st) as [st1 [[[s v] p]|]] eqn:E; [|done]. intros H. constructor; [|by eapply IH].
  unfold append_item in E. destruct (if _ <=? _ then _ else _) as [[st0 ?] ?]. destruct (_ || _) eqn:Eg; [done|]. clear -Eg.
  apply orb_false_iff in Eg as [H1 H2]. apply Z.leb_gt in H1, H2. unfold fits, V2_FLAG, TOMBSTONE_FLAG in *. lia.
Qed.
Lemma append_spec items n n' ps : runs (append max_segment_bytes items) n n' ps -> wal_clean (p_wal (nd_pipe n)) ->
  current_seq (p_wal (nd_pipe n)) + blen items <= U64_MAX ->
  p_trace (nd_pipe n') = p_trace (nd_pipe n) /\ wal_clean (p_wal (nd_pipe n')) /\ length ps = length items /\
  forall k, pending (p_wal (nd_pipe n')) k = pending (p_wal (nd_pipe n)) k + landed ps k.
Proof using L.
  unfold append, runs. intros H Hc Hseq. destruct items as [|i0 items0].
  { injection H as <- <-. split_and!; try done. intros k. change (landed [] k) with 0. lia. }
  set (items := i0 :: items0) in *. destruct (append_batch _ _ _) as [wal r] eqn:E. destruct r as [ps1|]; [|done]. injection H as <- <-.
  assert (Forall fits items) as Hf.
  { unfold append_batch in E. destruct (append_items _ _ _ _ _ _) as [st [[[olds victims] ps2]|]] eqn:E2; [|done]. by eapply append_items_fits. }
  destruct (append_batch_clean max_segment_bytes items _ Hc Hf Hseq) as (st & ps & E' & Hc' & Hlen & _ & Hp & _).
  rewrite E' in E. injection E as -> ->. by split_and!.
Qed.

Lemma wal_items_length infos plans : length (wal_items infos plans) = copy_count plans.
Proof.
  unfold wal_items. induction plans as [|pl plans IH]; [done|]. cbn [fmap list_fmap concat copy_count foldr]. rewrite length_app, length_fmap.
  f_equal. exact IH.
Qed.
Lemma copy_count_bound plans : Forall plan_ok plans -> (copy_count (writes plans) <= length plans * S (length rules))%nat.
Proof.
  unfold writes. induction 1 as [|pl plans Hp _ IH]; [cbn; lia|]. rewrite filter_cons. case_decide; cbn [copy_count foldr length].
  - fold (copy_count (filter (fun pl => is_write (it_action (pl_item pl)) = true) plans)). rewrite (pk_routes _ Hp). pose proof (routes_bound (pl_item pl)). lia.
  - lia.
Qed.

(** What a run of items comes to: the deletions' tombstones, the copies handed
    to workers, the replacements' tombstones, and the answers. *)
Record ran (res : list ItemResult) (dels : list NewTombstone) (new : list Event) (repl : list NewTombstone) : Prop := {
  rn_write r v s st : r ∈ res -> ir_out r = Done v s st -> ir_action r <> Delete ->
    exists stream it, Sent stream it ∈ new /\ ir_id r = Some (doc_id it) /\ doc_seq it = v;
  rn_sent stream it : Sent stream it ∈ new ->
    exists r s st, r ∈ res /\ ir_out r = Done (doc_seq it) s st /\ ir_action r <> Delete /\ ir_id r = Some (doc_id it);
  rn_delete r v s st : r ∈ res -> ir_out r = Done v s st -> ir_action r = Delete ->
    exists t, t ∈ dels /\ ir_id r = Some (nt_doc t) /\ nt_before_seq t = v;
  rn_deleted t : t ∈ dels ->
    exists r s st, r ∈ res /\ ir_out r = Done (nt_before_seq t) s st /\ ir_action r = Delete /\ ir_id r = Some (nt_doc t);
  rn_replaced t : t ∈ repl -> exists stream it, Sent stream it ∈ new /\ doc_id it = nt_doc t /\ doc_seq it = nt_before_seq t;
}.

Lemma elem_of_answers infos plans r : Forall plan_ok plans -> r ∈ answers infos plans -> forall v s st, ir_out r = Done v s st ->
  ir_action r = Delete /\ exists t, t ∈ deletions infos plans /\ ir_id r = Some (nt_doc t) /\ nt_before_seq t = v.
Proof.
  intros Hok Hr v s st Hd. apply list_elem_of_omap in Hr as (pl & Hpl & Hr). rewrite Forall_forall in Hok. specialize (Hok pl Hpl).
  destruct (it_action (pl_item pl)) eqn:E; [done|done|by injection Hr as <-|].
  destruct (tombstone_of infos pl) as [t|] eqn:Et; injection Hr as <-; [|done]. injection Hd as <- _ _.
  split; [by apply (pk_delete _ Hok)|]. exists t. split; [|unfold tombstone_of in Et; destruct (infos !! _); [|done]; case_decide; [|done]; by injection Et as <-].
  apply list_elem_of_omap. exists pl. by rewrite decide_True.
Qed.
Lemma elem_of_deletions infos plans t : Forall plan_ok plans -> t ∈ deletions infos plans ->
  exists r s st, r ∈ answers infos plans /\ ir_out r = Done (nt_before_seq t) s st /\ ir_action r = Delete /\ ir_id r = Some (nt_doc t).
Proof.
  intros Hok Ht. apply list_elem_of_omap in Ht as (pl & Hpl & Ht). rewrite Forall_forall in Hok. specialize (Hok pl Hpl). case_decide as E; [|done].
  assert (of_plan pl t) as [Hd Hb].
  { unfold tombstone_of in Ht. destruct (infos !! _); [|done]. case_decide; [|done]. by injection Ht as <-. }
  exists (done pl), (pl_outcome pl).1, (pl_outcome pl).2. split_and!.
  - apply list_elem_of_omap. exists pl. split; [done|]. by rewrite E, Ht.
  - by rewrite Hb.
  - by apply (pk_delete _ Hok).
  - by rewrite Hd.
Qed.

Lemma ran_intro infos plans refused answered new ts : Forall plan_ok plans -> Forall (fun r => exists why, ir_out r = Refused why) refused ->
  Forall2 (told new) (writes plans) answered ->
  (forall s it, Sent s it ∈ new -> exists pl, pl ∈ writes plans /\ hands_over pl (Sent s it) /\ done pl ∈ answered) ->
  Forall (fun t => exists pl e, pl ∈ writes plans /\ of_plan pl t /\ e ∈ new /\ hands_over pl e) ts ->
  ran (refused ++ answers infos plans ++ answered) (deletions infos plans) new ts.
Proof.
  intros Hok Hrf Htold Hin Hts.
  assert (forall pl, pl ∈ writes plans -> pl_wire pl <> Delete) as Hwire.
  { intros pl (Hw & Hpl)%list_elem_of_filter Hd. rewrite Forall_forall in Hok. apply (pk_delete _ (Hok pl Hpl)) in Hd.
    unfold is_write in Hw. by rewrite Hd in Hw. }
  assert (forall r, r ∈ answered -> exists pl, pl ∈ writes plans /\ told new pl r) as Hans.
  { intros r (i & Hi)%list_elem_of_lookup. destruct (Forall2_lookup_r _ _ _ _ _ Htold Hi) as (pl & Hpl & Ht). exists pl.
    split; [by eapply list_elem_of_lookup_2|done]. }
  rewrite Forall_forall in Hrf. split.
  - intros r v s st Hr Hd Hw. apply elem_of_app in Hr as [Hr|[Hr|Hr]%elem_of_app].
    + destruct (Hrf r Hr) as [why E]. congruence.
    + by destruct (elem_of_answers infos plans r Hok Hr v s st Hd).
    + destruct (Hans r Hr) as (pl & _ & [[-> (e & He & (stream & it & -> & _ & Hid & Hsq))]|[why ->]]); [|done].
      injection Hd as <- _ _. exists stream, it. split; [done|]. cbn. by rewrite Hid, Hsq.
  - intros stream it Hs. destruct (Hin stream it Hs) as (pl & Hpl & (s & x & [= <- <-] & _ & Hid & Hsq) & Hd).
    exists (done pl), (pl_outcome pl).1, (pl_outcome pl).2. split_and!.
    + rewrite !elem_of_app. by right; right.
    + by rewrite Hsq.
    + by apply Hwire.
    + by rewrite Hid.
  - intros r v s st Hr Hd Hw. apply elem_of_app in Hr as [Hr|[Hr|Hr]%elem_of_app].
    + destruct (Hrf r Hr) as [why E]. congruence.
    + by apply (elem_of_answers infos plans r Hok Hr v s st).
    + destruct (Hans r Hr) as (pl & Hpl & [[-> _]|[why ->]]); [|done]. by destruct (Hwire pl Hpl).
  - intros t Ht. destruct (elem_of_deletions infos plans t Hok Ht) as (r & s & st & Hr & ?). exists r, s, st. split; [|done].
    rewrite !elem_of_app. by right; left.
  - intros t Ht. rewrite Forall_forall in Hts. destruct (Hts t Ht) as (pl & e & _ & [Hd Hb] & He & (s & it & -> & _ & Hid & Hsq)).
    exists s, it. split; [done|]. by rewrite Hd, Hb.
Qed.

Lemma run_items_spec items refresh n n' res : wal_clean (p_wal (nd_pipe n)) ->
  current_seq (p_wal (nd_pipe n)) + blen items * (1 + blen rules) <= U64_MAX ->
  runs (run_items max_segment_bytes rules auto_create_index w items refresh) n n' res ->
  exists dels new repl last, p_trace (nd_pipe n') = p_trace (nd_pipe n) ++ upserts dels ++ new ++ last /\ (last = [] \/ last = upserts repl) /\
    wal_clean (p_wal (nd_pipe n')) /\
    (forall k, pending (p_wal (nd_pipe n')) k = pending (p_wal (nd_pipe n)) k + landed (sent_positions new) k) /\
    Forall no_upsert new /\ ran res dels new repl.
Proof using L.
  unfold run_items. intros Hc Hseq H. step_runs. destruct a as [[infos kept] missing]. step_runs.
  match goal with H : runs (plan_items _ _ _ _ _) _ _ ?a |- _ => destruct a as [plans refused] end.
  match goal with H : runs (enqueue_plans _ _ _ _ _ _ _) _ _ ?a |- _ => destruct a as [told_ owed] end.
  cbn [fst snd] in *.
  assert (still n n3) as Hst.
  { repeat match goal with
           | H : runs (keep_items _ _ _ _ _) _ _ _ |- _ => apply stills_runs in H; [|apply keep_items_still]
           | H : runs (observe_bounds _ _ _) _ _ _ |- _ => apply stills_runs in H; [|apply observe_bounds_still]
           | H : runs (plan_items _ _ _ _ _) _ _ _ |- _ => apply stills_runs in H; [|apply plan_items_still]
           | H : runs (resolve_plans _ _ _) _ _ _ |- _ => apply stills_runs in H; [|apply resolve_plans_still]
           end. by do 3 (etrans; [eassumption|]). }
  assert (Forall plan_ok plans /\ Forall (fun r => exists why, ir_out r = Refused why) (missing ++ refused)) as [Hok Hrf].
  { apply plan_items_ok in Hr0 as [H1 H2]. split; [done|]. apply Forall_app. split; [by eapply keep_items_refused|done]. }
  assert (length plans <= length items)%nat as Hlen.
  { apply keep_items_positions, Permutation_length in Hr. apply plan_items_positions, Permutation_length in Hr0.
    rewrite !length_app, !length_fmap in *. lia. }
  apply write_tombstones_spec in Hr3 as [Ew4 Et4]. destruct Hst as [Ew3 Et3].
  assert (wal_clean (p_wal (nd_pipe n4))) as Hc4 by (by rewrite Ew4, Ew3).
  apply append_spec in Hr4 as (Et5 & Hc5 & Hps & Hp5); [|done|].
  2: { rewrite Ew4, Ew3, wal_items_length. pose proof (copy_count_bound plans Hok). nia. }
  rewrite wal_items_length in Hps.
  assert (forall k, 0 <= pending (p_wal (nd_pipe n4)) k) as Hpos.
  { intros k. unfold pending. destruct (segments _ !! k) as [s|] eqn:Es; [|done].
    by apply (inv_keys _ _ (clean_inv _ Hc4)) in Es as (_ & ? & _). }
  assert (forall k, landed a3 k <= pending (p_wal (nd_pipe n5)) k) as Hle.
  { intros k. rewrite Hp5. specialize (Hpos k). lia. }
  destruct (enqueue_plans_spec w _ _ _ _ _ _ _ _ _ _ Hc5 Hle Hr5) as (used & rest & new & ts & -> & Hacc & Hused & Hno & Htold & Hin & Ho & Hts).
  assert (rest = []) as ->.
  { rewrite length_app in *. destruct rest; [done|]. cbn [length] in *. lia. }
  apply replace_versions_spec in Hr6 as (Ew7 & last & Hlast & Et7). cbn [ow_tombstones app] in Ho. subst n8.
  exists (deletions a1 plans), new, ts, last. cbn [cut_streams nd_pipe]. split_and!.
  - by rewrite Et7, (ac_trace _ _ _ _ Hacc), Et5, Et4, Et3, <- !app_assoc.
  - by rewrite Ho in Hlast.
  - rewrite Ew7. apply Hacc.
  - intros k. rewrite Ew7, (ac_pending _ _ _ _ Hacc), Hp5, Ew4, Ew3, app_nil_r. lia.
  - done.
  - rewrite app_assoc. by apply ran_intro.
Qed.
End acknowledged.

(** Where a batch of tombstones can be in a trace. *)
Lemma upserted_after l r before items after : Forall no_upsert l -> l ++ r = before ++ Upserted items :: after ->
  exists b, before = l ++ b /\ r = b ++ Upserted items :: after.
Proof.
  revert before. induction l as [|e l IH]; intros before Hno E; [by exists before|]. apply Forall_cons in Hno as [He Hno].
  destruct before as [|e' before]; cbn in E; injection E as -> E; [done|].
  destruct (IH before Hno E) as (b & -> & ->). by exists b.
Qed.
Lemma upserted_only l before items after : upserts l = before ++ Upserted items :: after -> before = [] /\ items = l.
Proof. destruct l as [|t l]; [by destruct before|]. destruct before as [|? before]; cbn; [by intros [= <-]|]. by destruct before. Qed.
Lemma upserted_where dels new last repl before items after : Forall no_upsert new -> last = [] \/ last = upserts repl ->
  upserts dels ++ new ++ last = before ++ Upserted items :: after ->
  (before = [] /\ items = dels) \/ (exists b, before = upserts dels ++ new ++ b /\ items = repl).
Proof.
  intros Hno Hl E.
  assert (forall before, new ++ last = before ++ Upserted items :: after -> exists b, before = new ++ b /\ items = repl) as Hrest.
  { intros b Eb. apply upserted_after in Eb as (b' & -> & Eb); [|done]. exists b'. split; [done|].
    destruct Hl as [E1|E1]; rewrite E1 in Eb; [by destruct b'|]. by apply upserted_only in Eb as [_ ->]. }
  destruct dels as [|t dels].
  - right. by apply Hrest.
  - destruct before as [|e before]; simplify_eq/=; [by left|].
    right. destruct (Hrest before) as (b & -> & ->); [done|]. by exists b.
Qed.

(** ** The request *)

Section request.
Context `{K : Crc32} {L : Crc32Laws K} `{T : TimeCrate} `{C : TextCodec} `{X : TextTables}.
Variables (max_segment_bytes : Z) (rules : list RoutingRuleRecord) (from_str : bytes -> option json) (new_id : nat -> bytes).
Variables (auto_create_index : bytes) (w : World).
Local Notation bulk := (handle_bulk_local max_segment_bytes rules from_str new_id auto_create_index w).

(** The log has room for every copy of every action. *)
Definition room (body : bytes) (default_index : option bytes) (n : Node) : Prop :=
  forall o, parse_bulk_body from_str new_id body default_index = Ok o ->
    current_seq (p_wal (nd_pipe n)) + Z.of_nat (po_total o) * (1 + blen rules) <= U64_MAX.

Lemma bulk_ran default_index body refresh n n' res : wal_clean (p_wal (nd_pipe n)) -> room body default_index n ->
  runs (bulk default_index body refresh) n n' res ->
  exists dels new repl last, p_trace (nd_pipe n') = p_trace (nd_pipe n) ++ upserts dels ++ new ++ last /\ (last = [] \/ last = upserts repl) /\
    wal_clean (p_wal (nd_pipe n')) /\
    (forall k, pending (p_wal (nd_pipe n')) k = pending (p_wal (nd_pipe n)) k + landed (sent_positions new) k) /\
    Forall no_upsert new /\ ran res dels new repl.
Proof using L.
  intros Hc Hroom H. unfold handle_bulk_local in H. unfold room in Hroom.
  destruct (parse_bulk_body from_str new_id body default_index) as [o|e] eqn:E; [|by apply runs_fail in H].
  case_decide; [by apply runs_fail in H|]. step_runs.
  assert (blen (po_items o) <= Z.of_nat (po_total o)) as Hlen.
  { apply parse_covers, Permutation_length in E. unfold positions in E. rewrite length_app, length_fmap, length_seq in E. lia. }
  match goal with H : runs (run_items _ _ _ _ _ _) _ _ _ |- _ => apply run_items_spec in H as (dels & new & repl & last & Et & Hl & Hc' & Hp & Hno & Hran); [|done|] end.
  2: { specialize (Hroom o eq_refl). pose proof (Zle_0_nat (length rules)). nia. }
  exists dels, new, repl, last. split_and!; try done.
  assert (forall r v s st, r ∈ sort_by by_position ((rejected <$> po_rejections o) ++ a) -> ir_out r = Done v s st -> r ∈ a) as Hin.
  { intros r v s st Hr Hd. rewrite elem_of_sort_by in Hr. apply elem_of_app in Hr as [Hr|Hr]; [|done].
    apply list_elem_of_fmap in Hr as ([[[? ?] ?] ?] & -> & _). done. }
  assert (forall r, r ∈ a -> r ∈ sort_by by_position ((rejected <$> po_rejections o) ++ a)) as Hup.
  { intros r Hr. rewrite elem_of_sort_by, elem_of_app. by right. }
  destruct Hran as [R1 R2 R3 R4 R5]. split.
  - intros r v s st Hr Hd. eapply R1; [by eapply Hin|done].
  - intros stream it Hs. destruct (R2 stream it Hs) as (r & s & st & ? & ?). exists r, s, st. split; [by apply Hup|done].
  - intros r v s st Hr Hd. eapply R3; [by eapply Hin|done].
  - intros t Ht. destruct (R4 t Ht) as (r & s & st & ? & ?). exists r, s, st. split; [by apply Hup|done].
  - exact R5.
Qed.

(** The answer [r] acknowledges version [v]. *)
Definition acknowledges (r : ItemResult) (v : Z) : Prop := exists s st, ir_out r = Done v s st.

(** From [n] to [n'] the answers [res] are kept: a write is acknowledged exactly
    when a copy of it, under its id and the version told, is with a worker, and
    the log owes exactly the copies handed over. *)
Definition kept_word (n n' : Node) (res : list ItemResult) : Prop :=
  exists new, p_trace (nd_pipe n') = p_trace (nd_pipe n) ++ new /\ wal_clean (p_wal (nd_pipe n')) /\
    (forall k, pending (p_wal (nd_pipe n')) k = pending (p_wal (nd_pipe n)) k + landed (sent_positions new) k) /\
    (forall r v, r ∈ res -> acknowledges r v -> ir_action r <> Delete ->
       exists stream it, Sent stream it ∈ new /\ ir_id r = Some (doc_id it) /\ doc_seq it = v) /\
    (forall stream it, Sent stream it ∈ new ->
       exists r, r ∈ res /\ acknowledges r (doc_seq it) /\ ir_action r <> Delete /\ ir_id r = Some (doc_id it)).
Lemma bulk_keeps_word default_index body refresh n n' res : wal_clean (p_wal (nd_pipe n)) -> room body default_index n ->
  runs (bulk default_index body refresh) n n' res -> kept_word n n' res.
Proof using L.
  intros Hc Hroom H. destruct (bulk_ran _ _ _ _ _ _ Hc Hroom H) as (dels & new & repl & last & Et & Hl & Hc' & Hp & Hno & Hran).
  assert (sent_positions last = []) as El by (destruct Hl as [->| ->]; [done|by destruct repl]).
  exists (upserts dels ++ new ++ last). split; [done|]. split; [done|]. split_and!.
  - intros k. rewrite Hp, !sent_positions_app, El, app_nil_r. by destruct dels.
  - intros r v Hr (s & st & Hd) Hw. destruct (rn_write _ _ _ _ Hran r v s st Hr Hd Hw) as (stream & it & Hs & ?).
    exists stream, it. split; [|done]. rewrite !elem_of_app. by right; left.
  - intros stream it Hs. assert (Sent stream it ∈ new) as Hs'.
    { rewrite !elem_of_app in Hs. destruct Hs as [Hs|[Hs|Hs]]; [|done|].
      - destruct dels; [by apply elem_of_nil in Hs|]. by apply list_elem_of_singleton in Hs.
      - destruct Hl as [->| ->]; [by apply elem_of_nil in Hs|]. destruct repl; [by apply elem_of_nil in Hs|]. by apply list_elem_of_singleton in Hs. }
    destruct (rn_sent _ _ _ _ Hran stream it Hs') as (r & s & st & ? & ? & ? & ?). exists r. split_and!; try done. by exists s, st.
Qed.

(** [C9] A write is acknowledged exactly when a copy of it, under its id and
    the version told, is with a worker; and the log then owes exactly the
    copies handed over, so that what was refused is not replayed and what was
    acknowledged is not lost.  Whatever the metastore, the lookups and the
    queues answered. *)
Theorem bulk_ack_exact default_index body refresh n n' res : wal_clean (p_wal (nd_pipe n)) -> room body default_index n ->
  runs (bulk default_index body refresh) n n' res ->
  kept_word n n' res.
Proof using L. apply bulk_keeps_word. Qed.

End request.

(** ** Concrete requests *)

Lemma runs_of {A} (m : BulkM A) n a : (m n).2 = Ok a -> runs m n (m n).1 a.
Proof. unfold runs. destruct (m n) as [n' r]. cbn. by intros ->. Qed.

(** A node with a document-mode stream [docs] (1) and a log-mode stream, where
    a deletion of [x] in stream [i] has the bound 5000. *)
Definition demo_row (i : Z) (name : bytes) (mode : StreamMode) : StreamRecord := mkStream i name (Object []) None (mode_as_str mode) false.
Definition demo_streams : gmap Z StreamRecord :=
  {[1 := demo_row 1 (str "docs") Document; 2 := demo_row 2 (str "other") Document]}.
Definition demo_meta (i : Z) : Metastore := mkMeta demo_streams ∅ {[(i, str "x") := mkTombstone 1 5000 0]} 3 1 2.
Definition demo_node (i : Z) : Node :=
  mkNode (mkPipe (demo_meta i) (clock_new demo_hash (str "n1")) ∅ ∅ opened_empty []) ∅ [] [] [].
Definition demo_world : World := mkWorld 0 (fun _ _ => (true, true, true)) true (fun _ _ => Answered ∅) (fun _ => true) (fun _ => 1) true
  (fun _ => demo_turn Accepted) true.
Definition demo_new (p : nat) : bytes := str "generated".

(** A document written, a deletion, an action without its document. *)
Definition demo_from (b : bytes) : option json :=
  if decide (b = str "i") then Some (action_json Index (str "docs") (Some (str "x")))
  else if decide (b = str "e") then Some (action_json Delete (str "docs") (Some (str "y")))
  else if decide (b = str "d") then Some (Object [(str "a", JString (str "b"))]) else None.
Definition demo_request : bytes := str "i" ++ [x0a] ++ str "d" ++ [x0a] ++ str "e" ++ [x0a] ++ str "i".
Definition demo_run : BulkM (list ItemResult) :=
  handle_bulk_local (K := crc32_ieee) (T := gregorian) (C := demo_codec) 1000 [] demo_from demo_new (str "true") demo_world None demo_request true.
Definition demo_results : list ItemResult :=
  [mkResult 0 Index (str "docs") (Some (str "x")) (Done 5122 (str "updated") 200);
   mkResult 1 Delete (str "docs") (Some (str "y")) (Done 6146 (str "deleted") 200);
   mkResult 2 Index (str "docs") None (Refused (BadAction MissingDocument))].
Lemma demo_answers : (demo_run (demo_node 1)).2 = Ok demo_results.
Proof. vm_compute. reflexivity. Qed.
Lemma demo_room : room [] demo_from demo_new (C := demo_codec) demo_request None (demo_node 1).
Proof. intros o E. vm_compute in E. injection E as <-. vm_compute. done. Qed.

Lemma bulk_answers_in_order_witness : ir_pos <$> demo_results = seq 0 3.
Proof.
  destruct (bulk_answers_in_order (K := crc32_ieee) (T := gregorian) (C := demo_codec) 1000 [] (str "true") demo_world demo_from demo_new None demo_request true
    (demo_node 1) _ demo_results (runs_of _ _ _ demo_answers)) as (o & E & H).
  rewrite H. vm_compute in E. by injection E as <-.
Defined.

(** The copy of [x] and nothing else is with a worker. *)
Lemma bulk_ack_exact_witness :
  exists stream it, Sent stream it ∈ p_trace (nd_pipe (demo_run (demo_node 1)).1) /\ doc_id it = str "x" /\ doc_seq it = 5122.
Proof.
  destruct (bulk_ack_exact (K := crc32_ieee) (T := gregorian) (C := demo_codec) 1000 [] demo_from demo_new (str "true") demo_world None demo_request true
    (demo_node 1) _ demo_results opened_empty_clean demo_room (runs_of _ _ _ demo_answers)) as (new & Et & _ & _ & Hs & _).
  destruct (Hs (mkResult 0 Index (str "docs") (Some (str "x")) (Done 5122 (str "updated") 200)) 5122) as (stream & it & Hin & Hid & Hq);
    [by left|by exists (str "updated"), 200|done|].
  exists stream, it. split; [fold demo_run in Et; rewrite Et; exact Hin|]. split; [by injection Hid|exact Hq].
Defined.
