(* ===== verification/BulkOrder.v ===== *)
(** * Bulk writes order after what deleted their documents
    (crates/rsearch-server/src/bulk_api.rs)

    A tombstone hides the versions of its document below its bound.  The stamps
    of a request are taken after the node's clock has observed the bounds
    recorded for the ids it writes, so that no write is hidden by a deletion
    that came first, whichever node stamped the deletion. *)

From Stdlib Require Import ZArith Lia.
From Stdlib Require Import Strings.Byte.
From stdpp Require Import base gmap sets list strings sorting.
From S2P Require Import Prelude Order Json Float64 Common Metastore Wal Ingest Dates Mapping Document Bulk Updates BulkApi.

Local Open Scope Z_scope.

(** ** Resolving streams keeps what is known *)

(** The stream's row agrees with [i]. *)
Definition valid (d : Metastore) (name : bytes) (i : StreamInfo) : Prop :=
  exists r, find_stream d name = Some r /\ st_id r = info_id i /\ record_mode r = info_mode i.

(** A pipeline whose cache is up to date, with sequence numbers that fit. *)
Record settled (p : Pipeline) : Prop := {
  sd_wf : meta_wf (p_meta p);
  sd_clock : clock_ok (p_clock p);
  sd_seqs s mx : s ∈ split_rows (p_meta p) -> ns_seq_max (sp_new s) = Some mx -> mx <= I64_MAX;
  sd_bounds k t : m_tombstones (p_meta p) !! k = Some t -> t_before_seq t <= I64_MAX;
  sd_cache now name i : cached_info p now name = Some i -> valid (p_meta p) name i;
}.
(** Streams stay, tombstones and splits are untouched, the clock moves on. *)
Record onward (p p' : Pipeline) : Prop := {
  on_streams name r : find_stream (p_meta p) name = Some r -> find_stream (p_meta p') name = Some r;
  on_tombs : m_tombstones (p_meta p') = m_tombstones (p_meta p);
  on_splits : m_splits (p_meta p') = m_splits (p_meta p);
  on_clock : clock_last (p_clock p) <= clock_last (p_clock p');
}.
#[export] Instance onward_preorder : PreOrder onward.
Proof. split; [by intros p|]. intros a b c [] []. split; [auto|congruence|congruence|lia]. Qed.
Lemma valid_onward p p' name i : onward p p' -> valid (p_meta p) name i -> valid (p_meta p') name i.
Proof. intros H (r & ? & ?). exists r. split; [by apply (on_streams _ _ H)|done]. Qed.

Lemma ensure_stream_onward d name mode : meta_wf d ->
  let '(d', row) := ensure_stream_with_mode d name mode in
  meta_wf d' /\ find_stream d' name = Some row /\ m_splits d' = m_splits d /\ m_tombstones d' = m_tombstones d /\
  (forall other r, find_stream d other = Some r -> find_stream d' other = Some r).
Proof.
  intros Hw. pose proof (ensure_stream_row d name mode Hw) as H. destruct (ensure_stream_with_mode d name mode) as [d' row] eqn:E.
  destruct H as (Hw' & F & ? & ?). split_and!; try done. intros other r Hr. unfold ensure_stream_with_mode in E.
  destruct (find_stream d name) as [r0|] eqn:F0; injection E as <- <-; [done|].
  apply find_stream_spec in Hr as [Hr Hn]; [|done]. apply find_stream_spec; [done|]. cbn [m_streams st_id]. split; [|done].
  rewrite lookup_insert_ne; [done|]. apply (wf_stream _ Hw) in Hr as [_ Hlt]. lia.
Qed.

Lemma settled_with_clock p c : settled p -> clock_ok c -> settled (with_clock c p).
Proof. intros [] ?. by split. Qed.
Lemma onward_with_clock p c : clock_last (p_clock p) <= clock_last c -> onward p (with_clock c p).
Proof. intros H. by split. Qed.
Lemma settled_with_info p name now i : settled p -> valid (p_meta p) name i ->
  forall m, m = p_info p \/ m = ∅ -> settled (with_info (<[name := (i, now)]> m) p).
Proof.
  intros [H1 H2 H3 H4 H5] Hi m Hm. split; try done. intros t nm i' E. cbn [with_info p_meta]. unfold cached_info in E. cbn [with_info p_info] in E.
  destruct (decide (nm = name)) as [->|Hne]; [rewrite lookup_insert_eq in E; by destruct (_ <? _); simplify_eq|].
  rewrite lookup_insert_ne in E by done. destruct Hm as [->| ->]; [|by rewrite lookup_empty in E]. by apply (H5 t nm i').
Qed.

Lemma stream_info_settled p now up1 up2 name mode : settled p ->
  let '(p', r) := stream_info_creating p now up1 up2 name mode in
  settled p' /\ onward p p' /\ forall i, r = Ok i -> valid (p_meta p') name i.
Proof.
  intros Hp. unfold stream_info_creating. destruct (cached_info p now name) as [i|] eqn:Ec.
  { split; [done|]. split; [done|]. intros j [= <-]. by apply (sd_cache _ Hp now). }
  destruct up1; [|done]. cbn [negb].
  pose proof (ensure_stream_onward (p_meta p) name mode (sd_wf _ Hp)) as H. destruct (ensure_stream_with_mode (p_meta p) name mode) as [d row].
  destruct H as (Hw & F & Hs & Ht & Hin). cbn [info_mode info_id].
  assert (settled (with_meta d p)) as Hp'.
  { destruct Hp as [H1 H2 H3 H4 H5]. split; cbn [with_meta p_meta p_clock]; [done|done| | |].
    - intros s mx. unfold split_rows. rewrite Hs. apply H3.
    - intros k t. rewrite Ht. apply H4.
    - intros t nm i E. destruct (H5 t nm i E) as (r & ? & ?). exists r. split; [by apply Hin|done]. }
  assert (onward p (with_meta d p)) as Ho by (split; [done|done|done|cbn; lia]).
  assert (valid d name (mkInfo (st_id row) (record_mode row))) as Hv by (by exists row).
  assert (forall q, settled q -> onward p q -> p_meta q = d ->
    let q' := with_info (<[name := (mkInfo (st_id row) (record_mode row), now)]> (if (10000 <? size (p_info q))%nat then ∅ else p_info q)) q in
    settled q' /\ onward p q' /\ forall i, Ok (E := IngestError) (mkInfo (st_id row) (record_mode row)) = Ok i -> valid (p_meta q') name i) as Hkeep.
  { intros q Hq Hoq Em. split; [|split; [by destruct Hoq; split|]].
    - apply settled_with_info; [done|by rewrite Em|]. destruct (_ <? _)%nat; [by right|by left].
    - intros i [= <-]. cbn [with_info p_meta]. by rewrite Em. }
  destruct (record_mode row) eqn:Em; [by apply Hkeep|]. destruct up2; [|done]. cbn [negb].
  destruct (stream_max_seq d (st_id row)) as [mx|] eqn:Emx; [|by apply Hkeep].
  assert (mx <= I64_MAX).
  { revert Emx. apply sql_max_le. intros x Hx. apply list_elem_of_fmap in Hx as (u & Eu & Hu). apply list_elem_of_filter in Hu as [_ Hu].
    eapply (sd_seqs _ Hp'); [exact Hu|by symmetry]. }
  apply Hkeep; [|etrans; [exact Ho|]|done].
  - apply settled_with_clock; [done|]. apply observe_ok; [apply (sd_clock _ Hp')|done].
  - apply onward_with_clock. cbn [observe clock_last with_meta p_clock]. lia.
Qed.

Lemma stream_info_if_exists_settled p now up0 up1 up2 name : settled p ->
  let '(p', r) := stream_info_if_exists p now up0 up1 up2 name in
  settled p' /\ onward p p' /\ forall i, r = Ok (Some i) -> valid (p_meta p') name i.
Proof.
  intros Hp. unfold stream_info_if_exists. destruct (cached_info p now name) as [i|] eqn:Ec.
  { split; [done|]. split; [done|]. intros j [= <-]. by apply (sd_cache _ Hp now). }
  destruct up0; [|done]. cbn [negb]. destruct (get_stream (p_meta p) name) as [r|[]]; try done.
  unfold stream_info. pose proof (stream_info_settled p now up1 up2 name Log Hp) as H. destruct (stream_info_creating _ _ _ _ _ _) as [p' r'].
  destruct H as (H1 & H2 & H3). split; [done|]. split; [done|]. intros i E. destruct r' as [j|]; [|done]. injection E as <-. by apply H3.
Qed.

(** ** The run up to its stamps *)

Section order.
Context `{K : Crc32} `{T : TimeCrate} `{C : TextCodec} `{X : TextTables}.
Variables (max_segment_bytes : Z) (rules : list RoutingRuleRecord) (auto_create_index : bytes) (w : World).

Definition knows (infos : gmap bytes StreamInfo) (d : Metastore) : Prop := forall name i, infos !! name = Some i -> valid d name i.

Lemma knows_onward infos n n' : onward (nd_pipe n) (nd_pipe n') -> knows infos (p_meta (nd_pipe n)) -> knows infos (p_meta (nd_pipe n')).
Proof. intros Ho Hk name i Hi. eapply valid_onward; [exact Ho|]. by apply Hk. Qed.

Lemma resolve_info_knows pos infos stream create n n' infos' o : settled (nd_pipe n) -> knows infos (p_meta (nd_pipe n)) ->
  runs (resolve_info w pos infos stream create) n n' (infos', o) ->
  settled (nd_pipe n') /\ onward (nd_pipe n) (nd_pipe n') /\ knows infos' (p_meta (nd_pipe n')) /\ infos ⊆ infos' /\
  (forall i, o = Some i -> infos' !! stream = Some i).
Proof.
  intros Hs Hk H. unfold resolve_info in H. destruct (infos !! stream) as [i0|] eqn:Ei.
  { step_runs. split_and!; try done. by intros i [= <-]. }
  destruct (wd_info w pos stream) as [[up0 up1] up2].
  assert (forall a (n1 : Node), settled (nd_pipe n1) -> onward (nd_pipe n) (nd_pipe n1) -> (forall i, a = Some i -> valid (p_meta (nd_pipe n1)) stream i) ->
    runs (match a with Some info => mret (<[stream := info]> infos, Some info) | None => mret (infos, None) end) n1 n' (infos', o) ->
    settled (nd_pipe n') /\ onward (nd_pipe n) (nd_pipe n') /\ knows infos' (p_meta (nd_pipe n')) /\ infos ⊆ infos' /\
    (forall i, o = Some i -> infos' !! stream = Some i)) as Hend.
  { intros a n1 Hs1 Ho1 Hv Hr. destruct a as [i|]; step_runs; (split; [done|]; split; [done|]).
    - split_and!.
      + intros name j. destruct (decide (name = stream)) as [->|]; [rewrite lookup_insert_eq; intros [= <-]; by apply Hv|].
        rewrite lookup_insert_ne by done. intros Hj. eapply valid_onward; [exact Ho1|by apply Hk].
      + by apply insert_subseteq.
      + intros j [= <-]. by rewrite lookup_insert_eq.
    - split_and!; [by eapply knows_onward|done|done]. }
  step_runs. destruct create as [mode|]; apply runs_on_pipe in Hr as (p & E & ->); (eapply Hend; [..|exact Hr0]); cbn [with_pipe nd_pipe].
  - pose proof (stream_info_settled (nd_pipe n) (wd_now w) up1 up2 stream mode Hs) as H. destruct (stream_info_creating _ _ _ _ _ _) as [p' r].
    destruct r; [|done]. injection E as -> <-. by destruct H.
  - pose proof (stream_info_settled (nd_pipe n) (wd_now w) up1 up2 stream mode Hs) as H. destruct (stream_info_creating _ _ _ _ _ _) as [p' r].
    destruct r; [|done]. injection E as -> <-. by destruct H as (_ & ? & _).
  - pose proof (stream_info_settled (nd_pipe n) (wd_now w) up1 up2 stream mode Hs) as H. destruct (stream_info_creating _ _ _ _ _ _) as [p' r].
    destruct r; [|done]. injection E as -> <-. intros i [= <-]. by apply H.
  - pose proof (stream_info_if_exists_settled (nd_pipe n) (wd_now w) up0 up1 up2 stream Hs) as H. rewrite E in H. by destruct H.
  - pose proof (stream_info_if_exists_settled (nd_pipe n) (wd_now w) up0 up1 up2 stream Hs) as H. rewrite E in H. by destruct H as (_ & ? & _).
  - pose proof (stream_info_if_exists_settled (nd_pipe n) (wd_now w) up0 up1 up2 stream Hs) as H. rewrite E in H.
    intros i ->. by apply H.
Qed.

Lemma keep_items_knows all items infos n n' infos' kept res : settled (nd_pipe n) -> knows infos (p_meta (nd_pipe n)) ->
  runs (keep_items auto_create_index w all items infos) n n' (infos', kept, res) ->
  settled (nd_pipe n') /\ onward (nd_pipe n) (nd_pipe n') /\ knows infos' (p_meta (nd_pipe n')) /\ infos ⊆ infos' /\
  (forall pi, pi ∈ kept -> pi ∈ items /\ is_Some (infos' !! it_stream pi.2)).
Proof.
  revert infos n n' infos' kept res; induction items as [|[pos it] items IH]; intros infos n n' infos' kept res Hs Hk H; cbn [keep_items] in H; step_runs.
  { split_and!; try done. intros pi Hpi. by apply elem_of_nil in Hpi. }
  destruct a as [i1 o]. apply resolve_info_knows in Hr as (Hs1 & Ho1 & Hk1 & Hsub & Hin); [|done..].
  destruct a0 as [[infos2 kept2] res2]. apply IH in Hr1 as (Hs2 & Ho2 & Hk2 & Hsub2 & Hkept); [|done..]. cbn [snd fst] in *.
  assert (forall pi, pi ∈ kept2 -> pi ∈ (pos, it) :: items /\ is_Some (infos2 !! it_stream pi.2)) as Hin2.
  { intros pi Hpi. destruct (Hkept pi Hpi). split; [by right|done]. }
  destruct o as [info|]; step_runs; (split; [done|]; split; [by etrans|]; split; [done|]; split; [by etrans|]); [|done].
  intros pi [->|Hpi]%elem_of_cons; [|by apply Hin2]. split; [by left|]. exists info. eapply lookup_weaken; [|done]. by apply Hin.
Qed.

Lemma observe_bounds_spec infos items n n' u : settled (nd_pipe n) -> runs (observe_bounds w infos items) n n' u ->
  settled (nd_pipe n') /\ onward (nd_pipe n) (nd_pipe n') /\
  forall pair t, pair ∈ id_pairs infos items -> m_tombstones (p_meta (nd_pipe n)) !! pair = Some t -> t_before_seq t <= clock_last (p_clock (nd_pipe n')).
Proof.
  intros Hs H. unfold observe_bounds in H. destruct (id_pairs infos items) as [|p0 pairs0] eqn:Ep.
  { step_runs. split_and!; [done|done|]. intros pair t Hp. by apply elem_of_nil in Hp. }
  set (pairs := p0 :: pairs0) in *. destruct (negb (wd_bounds w)); [by apply runs_fail in H|]. apply runs_update in H.
  assert (forall pair t, pair ∈ pairs -> m_tombstones (p_meta (nd_pipe n)) !! pair = Some t ->
    exists m, sql_max ((fun b => Some b.2) <$> tombstone_bounds (p_meta (nd_pipe n)) pairs) = Some m /\ t_before_seq t <= m) as Hge.
  { intros pair t Hp Ht. apply sql_max_ge. apply list_elem_of_fmap. exists (pair, t_before_seq t). split; [done|].
    unfold tombstone_bounds. apply list_elem_of_fmap. exists (pair, t). split; [done|]. apply list_elem_of_filter. split; [done|].
    by apply elem_of_map_to_list. }
  assert (forall m, sql_max ((fun b => Some b.2) <$> tombstone_bounds (p_meta (nd_pipe n)) pairs) = Some m -> m <= I64_MAX) as Hle.
  { apply sql_max_le. intros x Hx. apply list_elem_of_fmap in Hx as ([k b] & [= ->] & Hb). unfold tombstone_bounds in Hb.
    apply list_elem_of_fmap in Hb as ([k' t] & [= -> ->] & [_ Ht]%list_elem_of_filter). apply elem_of_map_to_list in Ht.
    by apply (sd_bounds _ Hs k'). }
  destruct (sql_max _) as [m|].
  - subst n'. cbn [with_pipe nd_pipe]. split_and!.
    + apply settled_with_clock; [done|]. apply observe_ok; [apply (sd_clock _ Hs)|by apply Hle].
    + apply onward_with_clock. cbn [observe clock_last]. lia.
    + intros pair t Hp Ht. destruct (Hge pair t Hp Ht) as (m' & [= <-] & ?). cbn [with_clock p_clock observe clock_last]. lia.
  - subst n'. split_and!; [done|done|]. intros pair t Hp Ht. by destruct (Hge pair t Hp Ht) as (m' & ? & _).
Qed.

Lemma stream_schema_steady up stream n n' s : runs (stream_schema w up stream) n n' s -> nd_pipe n' = nd_pipe n.
Proof.
  unfold runs, stream_schema. destruct (cached_schema w n stream); [by intros [= <- _]|]. destruct (negb up); [done|].
  destruct (get_stream _ _) as [r|[]]; intros [= <- _]; done.
Qed.
Lemma check_document_steady dm pos it n n' r : runs (check_document w dm pos it) n n' r -> nd_pipe n' = nd_pipe n.
Proof.
  unfold check_document. intros H. destruct (dm && _); step_runs; [|done].
  match goal with H : runs (stream_schema _ _ _) _ _ _ |- _ => apply stream_schema_steady in H end.
  destruct (validate_document _ _) as [|[]]; step_runs; done.
Qed.

Lemma next_seq_spec pos n n' s : settled (nd_pipe n) -> runs (next_seq w pos) n n' s ->
  settled (nd_pipe n') /\ clock_last (p_clock (nd_pipe n)) <= clock_last (p_clock (nd_pipe n')) /\
  (s = I64_MAX \/ clock_last (p_clock (nd_pipe n)) < s).
Proof.
  unfold runs, next_seq. intros Hs H. pose proof (next_stamp_spec (p_clock (nd_pipe n)) (wd_micros w pos) (sd_clock _ Hs)) as Hn.
  destruct (next_stamp _ _) as [s1 c]. injection H as <- <-. destruct Hn as (Hc & _ & Hlast & Hgt & _).
  split; [by apply settled_with_clock|]. cbn [with_pipe nd_pipe with_clock p_clock]. destruct (sd_clock _ Hs). split; [|done]. lia.
Qed.

(** A plan's item is one of the request's. *)
Definition planned_from (items : list (nat * BulkItem)) (pl : Planned) : Prop :=
  exists it, (pl_pos pl, it) ∈ items /\ it_stream it = it_stream (pl_item pl) /\ it_id it = it_id (pl_item pl) /\
    explicit_id it = explicit_id (pl_item pl) /\ it_action it = pl_wire pl.
Lemma plan_items_stamps infos all items n n' plans res : settled (nd_pipe n) ->
  runs (plan_items rules w infos all items) n n' (plans, res) ->
  Forall (fun pl => planned_from items pl /\ (pl_seq pl = I64_MAX \/ clock_last (p_clock (nd_pipe n)) < pl_seq pl)) plans.
Proof.
  revert n n' plans res; induction items as [|[pos it] items IH]; intros n n' plans res Hs H; cbn [plan_items] in H; step_runs; [done|].
  assert (forall n1 plans1, clock_last (p_clock (nd_pipe n)) <= clock_last (p_clock (nd_pipe n1)) ->
    Forall (fun pl => planned_from items pl /\ (pl_seq pl = I64_MAX \/ clock_last (p_clock (nd_pipe n1)) < pl_seq pl)) plans1 ->
    Forall (fun pl => planned_from ((pos, it) :: items) pl /\ (pl_seq pl = I64_MAX \/ clock_last (p_clock (nd_pipe n)) < pl_seq pl)) plans1) as Hweak.
  { intros n1 plans1 Hle H1. eapply Forall_impl; [exact H1|]. intros pl [(it' & Hin & ?) Hq]. split; [|lia]. exists it'. split; [by right|done]. }
  destruct (resolve_item _ _ it) as [[it' outcome]|why] eqn:E; step_runs.
  - match goal with H : runs (check_document _ _ _ _) _ _ _ |- _ => apply check_document_steady in H as Ep end.
    destruct a as [why|]; step_runs;
      match goal with H : runs (plan_items _ _ _ _ _) _ _ ?a |- _ => destruct a as [plans1 res1]; cbn [fst snd] in *; apply IH in H as Hpl end.
    + eapply Hweak; [|exact Hpl]. by rewrite Ep.
    + by rewrite Ep.
    + match goal with H : runs (next_seq _ _) _ _ _ |- _ => apply next_seq_spec in H as (Hs' & Hle & Hgt); [|by rewrite Ep] end. rewrite Ep in *. constructor.
      * split; [|done]. cbn. exists it. apply resolve_item_action in E as (_ & _ & ? & ? & ?). split; [by left|done].
      * by eapply Hweak; [|exact Hpl].
    + match goal with H : runs (next_seq _ _) _ _ _ |- _ => apply next_seq_spec in H as (Hs' & _); [done|by rewrite Ep] end.
  - match goal with H : runs (plan_items _ _ _ _ _) _ _ ?a |- _ => destruct a as [plans1 res1]; cbn [fst snd] in *; apply IH in H as Hpl end; [|done].
    by eapply Hweak; [|exact Hpl].
Qed.

(** ** Acknowledged items were planned *)

Lemma enqueue_plans_done infos refresh plans k ps o n n' res o' : runs (enqueue_plans w infos refresh plans k ps o) n n' (res, o') ->
  Forall2 (fun pl r => r = done pl \/ exists why, r = answer pl (Refused why)) plans res.
Proof.
  revert k ps o n n' res o'; induction plans as [|pl plans IH]; intros k ps o n n' res o' H; cbn [enqueue_plans] in H; step_runs; [done|].
  destruct a as [[[k1 ps1] t] o1]. step_runs.
  match goal with H : runs (enqueue_plans _ _ _ _ _ _ _) _ _ ?a |- _ => destruct a as [res1 o2]; apply IH in H end. cbn. constructor; [|done].
  unfold verdict. destruct (tl_accepted t); [right; by eexists|by left].
Qed.

Lemma run_items_acks items refresh n n' res r v : settled (nd_pipe n) ->
  runs (run_items max_segment_bytes rules auto_create_index w items refresh) n n' res -> r ∈ res -> acknowledges r v ->
  exists infos kept pl n1, knows infos (p_meta (nd_pipe n1)) /\ onward (nd_pipe n) (nd_pipe n1) /\
    (forall pair t, pair ∈ id_pairs infos kept -> m_tombstones (p_meta (nd_pipe n)) !! pair = Some t -> t_before_seq t <= clock_last (p_clock (nd_pipe n1))) /\
    (forall pi, pi ∈ kept -> pi ∈ items /\ is_Some (infos !! it_stream pi.2)) /\
    planned_from kept pl /\ (pl_seq pl = I64_MAX \/ clock_last (p_clock (nd_pipe n1)) < pl_seq pl) /\ r = done pl.
Proof.
  intros Hs H Hr (s & st & Hd). unfold run_items in H. step_runs. destruct a as [[infos kept] missing]. step_runs.
  match goal with H : runs (keep_items _ _ _ _ _) _ _ _ |- _ => pose proof (keep_items_refused _ _ _ _ _ _ _ _ _ _ H) as Hmiss;
    apply keep_items_knows in H as (Hs1 & Ho1 & Hk1 & _ & Hin); [|done|by intros ???] end.
  match goal with H : runs (observe_bounds _ _ _) _ _ _ |- _ => apply observe_bounds_spec in H as (Hs2 & Ho2 & Hb); [|done] end.
  match goal with H : runs (plan_items _ _ _ _ _) _ _ ?a |- _ => destruct a as [plans refused]; pose proof (plan_items_ok _ _ _ _ _ _ _ _ _ H) as [_ Href];
    apply plan_items_stamps in H; [|done] end.
  match goal with H : runs (enqueue_plans _ _ _ _ _ _ _) _ _ ?a |- _ => destruct a as [told_ owed]; apply enqueue_plans_done in H as Htold end.
  cbn [fst snd] in *. rewrite Forall_forall in Hmiss, Href. rename select (Forall (fun pl => _ /\ _) plans) into Hst. rewrite Forall_forall in Hst.
  assert (exists pl, pl ∈ plans /\ r = done pl) as (pl & Hpl & ->).
  { rewrite !elem_of_app in Hr. destruct Hr as [Hr|[Hr|[Hr|Hr]]].
    - destruct (Hmiss _ Hr) as [why E]. congruence.
    - destruct (Href _ Hr) as [why E]. congruence.
    - apply list_elem_of_omap in Hr as (pl & Hpl & E). exists pl. split; [done|].
      destruct (it_action (pl_item pl)); [done|done|by injection E as <-|]. destruct (tombstone_of _ pl); by injection E as <-.
    - apply list_elem_of_lookup in Hr as [i Hi]. destruct (Forall2_lookup_r _ _ _ _ _ Htold Hi) as (pl & Hpl & [->|[why ->]]); [|done].
      exists pl. split; [|done]. apply list_elem_of_lookup_2 in Hpl. by apply list_elem_of_filter in Hpl as [_ ?]. }
  destruct (Hst pl Hpl) as [Hfrom Hgt]. eexists infos, kept, pl, _. split_and!; [..|exact Hgt|done].
  - by eapply knows_onward.
  - by etrans.
  - intros pair t Hp Ht. eapply Hb; [exact Hp|]. by rewrite (on_tombs _ _ Ho1).
  - done.
  - done.
Qed.

(** ** Answers name their items *)

Definition names (items : list (nat * BulkItem)) (r : ItemResult) : Prop :=
  exists it, (ir_pos r, it) ∈ items /\ ir_action r = it_action it /\ ir_index r = it_stream it /\ ir_id r = Some (it_id it).
Lemma names_cons pi items r : names items r -> names (pi :: items) r.
Proof. intros (it & ? & ?). exists it. split; [by right|done]. Qed.
Lemma keep_items_names all items infos n n' infos' kept res : runs (keep_items auto_create_index w all items infos) n n' (infos', kept, res) ->
  kept ⊆ items /\ Forall (names items) res.
Proof.
  revert infos n n' infos' kept res; induction items as [|[pos it] items IH]; intros infos n n' infos' kept res H; cbn [keep_items] in H; step_runs; [done|].
  destruct a0 as [[infos2 kept2] res2].
  match goal with H : runs (keep_items _ _ _ _ _) _ _ _ |- _ => apply IH in H as [Hsub Hn] end.
  assert (Forall (names ((pos, it) :: items)) res2) as Hn' by (eapply Forall_impl; [exact Hn|]; intros; by apply names_cons).
  destruct a as [i1 [info|]]; cbn [snd] in *; step_runs; (split; [set_solver|]); [done|]. constructor; [|done]. exists it. split; [by left|done].
Qed.
Lemma plan_items_names infos all items n n' plans res : runs (plan_items rules w infos all items) n n' (plans, res) ->
  Forall (planned_from items) plans /\ Forall (names items) res.
Proof.
  revert n n' plans res; induction items as [|[pos it] items IH]; intros n n' plans res H; cbn [plan_items] in H; step_runs; [done|].
  assert (forall plans1 res1, Forall (planned_from items) plans1 /\ Forall (names items) res1 ->
    Forall (planned_from ((pos, it) :: items)) plans1 /\ Forall (names ((pos, it) :: items)) res1) as Hweak.
  { intros plans1 res1 [H1 H2]. split; [eapply Forall_impl; [exact H1|]; intros pl (it' & ? & ?); exists it'; (split; [by right|done])|].
    eapply Forall_impl; [exact H2|]. intros. by apply names_cons. }
  destruct (resolve_item _ _ it) as [[it' outcome]|why] eqn:E; step_runs; [destruct a as [why|]; step_runs|];
    match goal with H : runs (plan_items _ _ _ _ _) _ _ ?a |- _ => destruct a as [plans1 res1]; cbn [fst snd] in *; apply IH in H; destruct (Hweak _ _ H) as [Hp Hr'] end.
  1,3: split; [done|]; constructor; [|done]; exists it; split; [by left|done].
  split; [|done]. constructor; [|done]. exists it. apply resolve_item_action in E as (_ & _ & ? & ? & ?). split; [by left|done].
Qed.
Lemma run_items_names items refresh n n' res : runs (run_items max_segment_bytes rules auto_create_index w items refresh) n n' res ->
  Forall (names items) res.
Proof.
  unfold run_items. intros H. step_runs. destruct a as [[infos kept] missing]. step_runs.
  match goal with H : runs (keep_items _ _ _ _ _) _ _ _ |- _ => apply keep_items_names in H as [Hsub Hmiss] end.
  match goal with H : runs (plan_items _ _ _ _ _) _ _ ?a |- _ => destruct a as [plans refused]; apply plan_items_names in H as [Hpl Href] end.
  match goal with H : runs (enqueue_plans _ _ _ _ _ _ _) _ _ ?a |- _ => destruct a as [told_ owed]; apply enqueue_plans_done in H as Htold end.
  cbn [fst snd] in *. rewrite Forall_forall in Hpl.
  assert (forall r, names kept r -> names items r) as Hk by (intros r (it & Hin & ?); exists it; split; [by apply Hsub|done]).
  assert (forall pl out, pl ∈ plans -> names items (answer pl out)) as Hans.
  { intros pl out Hin. destruct (Hpl pl Hin) as (it & Hi & Es & Ei & _ & Ea). apply Hk. exists it. cbn. by rewrite Ea, Es, Ei. }
  rewrite !Forall_app. split_and!; [done|by eapply Forall_impl|apply Forall_forall; intros r Hr..].
  - apply list_elem_of_omap in Hr as (pl & Hin & E).
    destruct (it_action (pl_item pl)); [done|done|injection E as <-; by apply Hans|]. destruct (tombstone_of _ pl); injection E as <-; by apply Hans.
  - apply list_elem_of_lookup in Hr as [i Hi]. destruct (Forall2_lookup_r _ _ _ _ _ Htold Hi) as (pl & Hin & Hr).
    apply list_elem_of_lookup_2, list_elem_of_filter in Hin as [_ Hin]. destruct Hr as [->|[why ->]]; by apply Hans.
Qed.

(** [C11] No write is hidden by a deletion that came first: an acknowledged
    write or deletion of a document of a document-mode stream, under an id the
    request names, has a version above the bound of every tombstone the
    metastore had for that document when the request came, whichever node
    wrote the tombstone and whatever the local clock says; only at the very
    top of the range can they meet. *)
Theorem bulk_write_above_bounds from_str new_id default_index body refresh n n' res r v row id t :
  settled (nd_pipe n) ->
  runs (handle_bulk_local max_segment_bytes rules from_str new_id auto_create_index w default_index body refresh) n n' res ->
  r ∈ res -> acknowledges r v -> ir_id r = Some id -> (forall p, new_id p <> id) ->
  find_stream (p_meta (nd_pipe n)) (ir_index r) = Some row -> record_mode row = Document ->
  m_tombstones (p_meta (nd_pipe n)) !! (st_id row, id) = Some t ->
  v = I64_MAX \/ t_before_seq t < v.
Proof.
  intros Hs H Hr Hack Hid Hnew Hrow Hmode Ht. unfold handle_bulk_local in H.
  destruct (parse_bulk_body from_str new_id body default_index) as [o|e] eqn:E; [|by apply runs_fail in H].
  case_decide; [by apply runs_fail in H|]. step_runs. apply elem_of_sort_by, elem_of_app in Hr as [Hr|Hr].
  { destruct Hack as (s & st & Hd). apply list_elem_of_fmap in Hr as ([[[? ?] ?] ?] & -> & _). done. }
  match goal with H : runs (run_items _ _ _ _ _ _) _ _ _ |- _ =>
    destruct (run_items_acks _ _ _ _ _ _ _ Hs H Hr Hack) as (infos & kept & pl & n1 & Hk & Ho & Hb & Hin & (it & Hit & Es & Ei & Ex & _) & Hgt & ->) end.
  destruct Hack as (s & st & [= <- <- <-]). cbn in Hid, Hrow. injection Hid as <-.
  destruct (Hin _ Hit) as [Hitems [i Hi]]. cbn [snd] in Hi.
  destruct (Hk _ _ Hi) as (row' & F & Est & Em). apply (on_streams _ _ Ho) in Hrow. rewrite Es, Hrow in F. injection F as <-.
  assert (explicit_id it = true) as He.
  { apply parse_known in E. rewrite Forall_forall in E. destruct (E _ Hitems) as [?|[p Ep]]; [done|]. cbn [snd] in Ep. by destruct (Hnew p); congruence. }
  assert ((st_id row, it_id (pl_item pl)) ∈ id_pairs infos kept) as Hpair.
  { apply list_elem_of_omap. exists (pl_pos pl, it). split; [done|]. cbn [snd]. unfold doc_mode. rewrite He, Hi, <- Em, Hmode. cbn. by rewrite Est, Ei. }
  specialize (Hb _ _ Hpair Ht). destruct Hgt; [by left|right; lia].
Qed.
End order.

(** ** Concrete requests *)

Lemma demo_streams_row i r : demo_streams !! i = Some r -> st_id r = i /\ i < 3 /\ (i = 1 /\ st_name r = str "docs" \/ i = 2 /\ st_name r = str "other").
Proof.
  unfold demo_streams. intros H. apply lookup_insert_Some in H as [[<- <-]|[Hne H]]; [split; [done|]; split; [lia|by left]|].
  apply lookup_singleton_Some in H as [<- <-]. split; [done|]. split; [lia|by right].
Qed.
Lemma demo_settled i : i = 1 \/ i = 2 -> settled (nd_pipe (demo_node i)).
Proof.
  intros Hi. split.
  - split; cbn [demo_node nd_pipe p_meta demo_meta m_streams m_splits m_tombstones m_next_stream m_next_tombstone].
    + intros j r H. by destruct (demo_streams_row j r H) as (? & ? & _).
    + intros j k r s Hj Hk E. destruct (demo_streams_row j r Hj) as (_ & _ & [[-> E1]|[-> E1]]), (demo_streams_row k s Hk) as (_ & _ & [[-> E2]|[-> E2]]);
        try done; rewrite E1, E2 in E; by vm_compute in E.
    + intros k s H. by rewrite lookup_empty in H.
    + intros k t [<- <-]%lookup_singleton_Some. cbn. split; [|lia]. by destruct Hi as [->| ->]; eexists.
    + intros k l t u [<- <-]%lookup_singleton_Some [<- <-]%lookup_singleton_Some. done.
    + done.
  - apply clock_new_ok.
  - intros s mx Hs. by apply elem_of_nil in Hs.
  - intros k t H. cbn in H. apply lookup_singleton_Some in H as [<- <-]. by vm_compute.
  - intros now name i0 H. unfold cached_info in H. cbn [demo_node nd_pipe p_info] in H. by rewrite lookup_empty in H.
Qed.

(** The clock reads one microsecond; the deletion's bound is 5000. *)
Lemma bulk_write_above_bounds_witness : 5000 < 5122.
Proof.
  destruct (bulk_write_above_bounds (K := crc32_ieee) (T := gregorian) (C := demo_codec) 1000 [] (str "true") demo_world demo_from demo_new None demo_request true
    (demo_node 1) _ demo_results (mkResult 0 Index (str "docs") (Some (str "x")) (Done 5122 (str "updated") 200)) 5122 (demo_row 1 (str "docs") Document)
    (str "x") (mkTombstone 1 5000 0) (demo_settled 1 (or_introl eq_refl)) (runs_of _ _ _ demo_answers)) as [E|H].
  - by left.
  - by exists (str "updated"), 200.
  - done.
  - intros p. by vm_compute.
  - reflexivity.
  - reflexivity.
  - reflexivity.
  - by vm_compute in E.
  - exact H.
Defined.

(** The bounds are read for the streams the request names.  A routing rule's
    copy goes to another stream, whose deletions were not looked at: the copy
    is acknowledged with a version the deletion hides. *)
Definition demo_rule : RoutingRuleRecord := mkRule 1 (str "r") (str "a") (str "exists") [] (str "other") true.
Definition demo_routed : BulkM (list ItemResult) :=
  handle_bulk_local (K := crc32_ieee) (T := gregorian) (C := demo_codec) 1000 [demo_rule] demo_from demo_new (str "true") demo_world None demo_request true.
Definition sent_copies (p : Pipeline) : list (bytes * bytes * Z) :=
  omap (fun e => match e with Sent s it => Some (s, doc_id it, doc_seq it) | _ => None end) (p_trace p).
Example routed_copy_hidden :
  sent_copies (nd_pipe (demo_routed (demo_node 2)).1) = [(str "docs", str "x", 1026); (str "other", str "x", 1026)] /\
  m_tombstones (p_meta (nd_pipe (demo_node 2))) !! (2, str "x") = Some (mkTombstone 1 5000 0) /\
  match (demo_routed (demo_node 2)).2 with Ok l => status_of <$> l = [200; 200; 400] | Err _ => False end.
Proof. split_and!; vm_compute; reflexivity. Qed.
