(* ===== verification/BulkForward.v ===== *)
(** * Handing bulk requests to peers (crates/rsearch-server/src/bulk_forward.rs,
    [execute_bulk] and [bulk_internal] of bulk_api.rs)

    A node may hand a whole request to another ingest node, round robin, and
    relays what it answers; when anything goes wrong it runs the request itself.
    Servers share one metastore.  What becomes of a handoff on the network is
    given. *)

From Stdlib Require Import ZArith Lia.
From Stdlib Require Import Strings.Byte.
From stdpp Require Import base gmap sets list strings sorting.
From S2P Require Import Prelude Order Json Float64 Common Metastore Wal Ingest Placement Dates Mapping Document Bulk Updates BulkApi.

Local Open Scope Z_scope.

(** [?refresh=]. *)
Definition parse_refresh (value : option bytes) : bool :=
  bool_decide (value = Some (str "true") \/ value = Some (str "wait_for") \/ value = Some []).

(** ** The forwarder *)

Definition PEER_STALE : Z := 30000.
Definition PEER_LIST_TTL : Z := 5000.

Record Forwarder := mkFwd {
  fw_token : bytes;        (** the client's cluster token *)
  fw_node : bytes;
  fw_digest : bytes;
  fw_balance : bool;
  fw_counter : Z;
  fw_peers : option (list (bytes * bytes) * Z);
  fw_forwarded : Z;
  fw_fallbacks : Z;
  fw_received : Z;
}.
Definition set_peers (peers : list (bytes * bytes)) (now : Z) (f : Forwarder) : Forwarder :=
  mkFwd (fw_token f) (fw_node f) (fw_digest f) (fw_balance f) (fw_counter f) (Some (peers, now)) (fw_forwarded f) (fw_fallbacks f) (fw_received f).
Definition count_up (n : Z) : Z := wrap_u 64 (n + 1).
Definition advance (f : Forwarder) : Forwarder :=
  mkFwd (fw_token f) (fw_node f) (fw_digest f) (fw_balance f) (count_up (fw_counter f)) (fw_peers f) (fw_forwarded f) (fw_fallbacks f) (fw_received f).
Definition count_forwarded (f : Forwarder) : Forwarder :=
  mkFwd (fw_token f) (fw_node f) (fw_digest f) (fw_balance f) (fw_counter f) (fw_peers f) (count_up (fw_forwarded f)) (fw_fallbacks f) (fw_received f).
Definition count_fallback (f : Forwarder) : Forwarder :=
  mkFwd (fw_token f) (fw_node f) (fw_digest f) (fw_balance f) (fw_counter f) (fw_peers f) (fw_forwarded f) (count_up (fw_fallbacks f)) (fw_received f).
Definition count_received (f : Forwarder) : Forwarder :=
  mkFwd (fw_token f) (fw_node f) (fw_digest f) (fw_balance f) (fw_counter f) (fw_peers f) (fw_forwarded f) (fw_fallbacks f) (count_up (fw_received f)).

(** Live ingest nodes that are not draining and have an address, in the
    registry's order. *)
Definition eligible (n : NodeRecord) : bool :=
  (heartbeat_age n <? PEER_STALE) && negb (draining n) && existsb (fun r => bool_decide (r = str "ingest")) (roles n).
Definition eligible_peers (nodes : list NodeRecord) : list (bytes * bytes) :=
  omap (fun n => (fun addr => (Placement.id n, addr)) <$> address n) (filter (fun n => eligible n = true) nodes).

(** [registry]: what listing the nodes answers. *)
Definition candidates (registry : option (list NodeRecord)) (now : Z) (f : Forwarder) : list (bytes * bytes) * Forwarder :=
  match match fw_peers f with Some (peers, at_) => if now - at_ <? PEER_LIST_TTL then Some peers else None | None => None end with
  | Some peers => (peers, f)
  | None =>
      let peers := match registry with Some nodes => eligible_peers nodes | None => [] end in
      (peers, set_peers peers now f)
  end.
Definition pick_target (registry : option (list NodeRecord)) (now : Z) (f : Forwarder) : option (bytes * bytes) * Forwarder :=
  if negb (fw_balance f) then (None, f)
  else
    let '(peers, f) := candidates registry now f in
    if (length peers <? 2)%nat then (None, f)
    else
      let slot := Z.to_nat (fw_counter f mod blen peers) in
      let f := advance f in
      match peers !! slot with
      | Some (id, addr) => if decide (id = fw_node f) then (None, f) else (Some (id, addr), f)
      | None => (None, f)
      end.

(** ** Servers *)

Record Server := mkServer { sv_node : BulkApi.Node; sv_ingest : bool; sv_draining : bool; sv_forward : option Forwarder }.
Definition with_node (n : BulkApi.Node) (s : Server) : Server := mkServer n (sv_ingest s) (sv_draining s) (sv_forward s).
Definition with_forward (f : Forwarder) (s : Server) : Server := mkServer (sv_node s) (sv_ingest s) (sv_draining s) (Some f).
(** The metastore as another server left it. *)
Definition seeing (d : Metastore) (s : Server) : Server := with_node (with_pipe (with_meta d (nd_pipe (sv_node s))) (sv_node s)) s.
Definition meta_of (s : Server) : Metastore := p_meta (nd_pipe (sv_node s)).

(** The servers other than the one asked, by address. *)
Record Cluster := mkCluster { cl_self : Server; cl_peers : gmap bytes Server }.
Definition with_self (s : Server) (cl : Cluster) : Cluster := mkCluster s (cl_peers cl).

(** What is sent back: the items' results or an error status. *)
Inductive Reply := Items (l : list ItemResult) | Status (code : Z) | Dropped.
Definition bulk_status (e : BulkError) : Reply :=
  match e with
  | Draining | MetastoreUnavailable | TombstonesFailed => Status 503
  | NoIngestRole | BadBody _ | EmptyBody => Status 400
  | WalAppendFailed _ => Status 500
  | Panicked => Dropped
  end.
Definition reply_of (r : result BulkError (list ItemResult)) : Reply := match r with Ok l => Items l | Err e => bulk_status e end.

(** The query of [/_rsearch/internal/bulk]. *)
Record InternalBulkQuery := mkIQ { iq_index : option bytes; iq_refresh : option bytes }.
Definition handoff_query (default_index : option bytes) (refresh : bool) : InternalBulkQuery :=
  mkIQ default_index (if refresh then Some (str "wait_for") else None).

(** What the network does to a handoff: it does not get there; it does, and
    what is sent back arrives, or does not. *)
Inductive Handoff := Undelivered | Unanswered | Answering.
Record ExecEnv := mkExec {
  ex_registry : option (list NodeRecord);
  ex_now : Z;
  ex_handoff : Handoff;
  ex_worlds : option bytes -> World;   (** of this server, and of the peer at an address *)
}.

Section forward.
Context `{K : Crc32} `{T : TimeCrate} `{C : TextCodec} (token_digest : bytes -> bytes).
Variables (max_segment_bytes : Z) (rules : list RoutingRuleRecord) (from_str : bytes -> option json) (new_id : option bytes -> nat -> bytes).
Variable auto_create_index : bytes.

Definition run_local (who : option bytes) (w : World) (default_index : option bytes) (body : bytes) (refresh : bool) (s : Server)
    : Server * result BulkError (list ItemResult) :=
  if negb (sv_ingest s) then (s, Err NoIngestRole)
  else
    let '(n, r) := handle_bulk_local max_segment_bytes rules from_str (new_id who) auto_create_index w default_index body refresh (sv_node s) in
    (with_node n s, r).

Definition bulk_internal (who : option bytes) (w : World) (presented : bytes) (query : InternalBulkQuery) (body : bytes) (s : Server) : Server * Reply :=
  match sv_forward s with
  | None => (s, Status 404)
  | Some f =>
      if decide (presented = [] \/ token_digest presented <> fw_digest f) then (s, Status 401)
      else if sv_draining s then (s, Status 503)
      else
        let s := with_forward (count_received f) s in
        let '(s, r) := run_local who w (iq_index query) body (parse_refresh (iq_refresh query)) s in
        (s, reply_of r)
  end.

(** The peer at [addr] takes the request; afterwards both see one metastore. *)
Definition hand_over (env : ExecEnv) (f : Forwarder) (addr : bytes) (default_index : option bytes) (body : bytes) (refresh : bool) (cl : Cluster)
    : Cluster * option Reply :=
  match ex_handoff env, cl_peers cl !! addr with
  | Undelivered, _ | _, None => (cl, None)
  | arrived, Some peer =>
      let '(peer, r) := bulk_internal (Some addr) (ex_worlds env (Some addr)) (fw_token f) (handoff_query default_index refresh) body
                          (seeing (meta_of (cl_self cl)) peer) in
      (mkCluster (seeing (meta_of peer) (cl_self cl)) (<[addr := peer]> (cl_peers cl)),
       match arrived with Answering => Some r | _ => None end)
  end.

Definition execute_bulk (env : ExecEnv) (default_index : option bytes) (body : bytes) (refresh : bool) (cl : Cluster)
    : Cluster * result BulkError (list ItemResult) :=
  let local cl :=
    let '(s, r) := run_local None (ex_worlds env None) default_index body refresh (cl_self cl) in (with_self s cl, r) in
  let self := cl_self cl in
  if sv_draining self then (cl, Err Draining)
  else if negb (sv_ingest self) then (cl, Err NoIngestRole)
  else
    match sv_forward self with
    | None => local cl
    | Some f =>
        match pick_target (ex_registry env) (ex_now env) f with
        | (None, f) => local (with_self (with_forward f self) cl)
        | (Some (_, addr), f) =>
            let '(cl, r) := hand_over env f addr default_index body refresh (with_self (with_forward f self) cl) in
            let done g := with_self (with_forward (g f) (cl_self cl)) cl in
            match r with
            | Some (Items l) => (done count_forwarded, Ok l)
            | _ => local (done count_fallback)
            end
        end
    end.
End forward.

(** ** Targets *)

Lemma eligible_peers_spec nodes id addr : (id, addr) ∈ eligible_peers nodes <->
  exists n, n ∈ nodes /\ Placement.id n = id /\ address n = Some addr /\
    heartbeat_age n < PEER_STALE /\ draining n = false /\ str "ingest" ∈ roles n.
Proof.
  assert (forall n, eligible n = true <-> heartbeat_age n < PEER_STALE /\ draining n = false /\ str "ingest" ∈ roles n) as He.
  { intros n. unfold eligible. rewrite !andb_true_iff, Z.ltb_lt, negb_true_iff, existsb_exists. split.
    - intros [[? ?] (r & Hr & E%bool_decide_eq_true)]. subst. split_and!; [done|done|]. by apply list_elem_of_In.
    - intros (? & ? & Hr). split; [done|]. exists (str "ingest"). split; [by apply list_elem_of_In|]. by apply bool_decide_eq_true. }
  unfold eligible_peers. rewrite list_elem_of_omap. split.
  - intros (n & [Hel Hn]%list_elem_of_filter & E). exists n. apply He in Hel. destruct (address n) as [a|]; [|done]. by simplify_eq/=.
  - intros (n & Hn & <- & Ea & Hel). exists n. rewrite list_elem_of_filter, He, Ea. done.
Qed.

(** A request is only ever handed to another node that the registry listed,
    less than five seconds before, as alive, not draining and running the
    ingest role. *)
Theorem pick_target_eligible registry now f id addr f' : pick_target registry now f = (Some (id, addr), f') ->
  fw_balance f = true /\ id <> fw_node f /\
  exists peers at_, fw_peers f' = Some (peers, at_) /\ now - at_ < PEER_LIST_TTL /\ (id, addr) ∈ peers /\
    (fw_peers f = Some (peers, at_) \/
     exists nodes n, registry = Some nodes /\ n ∈ nodes /\ Placement.id n = id /\ address n = Some addr /\
       heartbeat_age n < PEER_STALE /\ draining n = false /\ str "ingest" ∈ roles n).
Proof.
  unfold pick_target. destruct (fw_balance f); [|done]. cbn [negb].
  assert (forall f1 peers at_, fw_peers f1 = Some (peers, at_) -> fw_node f1 = fw_node f ->
    (if (length peers <? 2)%nat then (None, f1) else
      match peers !! Z.to_nat (fw_counter f1 mod blen peers) with
      | Some (i, a) => if decide (i = fw_node (advance f1)) then (None, advance f1) else (Some (i, a), advance f1)
      | None => (None, advance f1)
      end) = (Some (id, addr), f') -> id <> fw_node f /\ fw_peers f' = Some (peers, at_) /\ (id, addr) ∈ peers) as Hpick.
  { intros f1 peers at_ Ep En. destruct (length peers <? 2)%nat; [done|]. destruct (peers !! _) as [[i a]|] eqn:E; [|done].
    cbn [advance fw_node]. rewrite En. case_decide; [done|]. intros [= <- <- <-]. split; [done|]. split; [exact Ep|]. by eapply list_elem_of_lookup_2. }
  intros E. unfold candidates in E. split; [done|].
  destruct (fw_peers f) as [[peers at_]|] eqn:Ep; [destruct (Z.ltb_spec (now - at_) PEER_LIST_TTL)|].
  { destruct (Hpick f peers at_ Ep eq_refl E) as (? & ? & ?). split; [done|]. exists peers, at_. split_and!; try done. by left. }
  all: destruct (Hpick (set_peers _ now f) _ now eq_refl eq_refl E) as (? & ? & Hin); split; [done|]; eexists _, now; split_and!; [done|unfold PEER_LIST_TTL; lia|exact Hin|right];
    destruct registry as [nodes|]; [|by apply elem_of_nil in Hin]; exists nodes; apply eligible_peers_spec in Hin as (n & ?); by exists n.
Qed.

(** ** The rotation *)

Fixpoint picks (k : nat) (now : Z) (f : Forwarder) : list (option (bytes * bytes)) :=
  match k with
  | O => []
  | S k => let '(t, f) := pick_target None now f in t :: picks k now f
  end.
(** A turn that falls on the node itself indexes locally. *)
Definition turn_of (node : bytes) (p : bytes * bytes) : option (bytes * bytes) := if decide (p.1 = node) then None else Some p.

Lemma picks_rotate k now f peers at_ : fw_balance f = true -> fw_peers f = Some (peers, at_) -> now - at_ < PEER_LIST_TTL -> (2 <= length peers)%nat ->
  0 <= fw_counter f -> fw_counter f + Z.of_nat k <= 2 ^ 64 ->
  picks k now f = (fun i => peers !! Z.to_nat ((fw_counter f + Z.of_nat i) mod blen peers) ≫= turn_of (fw_node f)) <$> seq 0 k.
Proof.
  intros Hb Hp Hat Hn. revert f Hb Hp; induction k as [|k IH]; intros f Hb Hp H0 Hk; [done|]. cbn [picks]. unfold pick_target.
  rewrite Hb. unfold candidates. rewrite Hp, (proj2 (Z.ltb_lt _ _) Hat). cbn [negb].
  rewrite (proj2 (Nat.ltb_ge _ _) Hn). cbn [seq fmap list_fmap]. rewrite Z.add_0_r.
  set (t := peers !! Z.to_nat (fw_counter f mod blen peers)).
  assert ((match t with Some (i, a) => if decide (i = fw_node (advance f)) then (None, advance f) else (Some (i, a), advance f)
    | None => (None, advance f) end) = (t ≫= turn_of (fw_node f), advance f)) as ->.
  { destruct t as [[i a]|]; [|done]. cbn. unfold turn_of. cbn [fst]. by case_decide. }
  f_equal. destruct (decide (k = 0)%nat) as [->|Hk0]; [done|].
  assert (fw_counter (advance f) = fw_counter f + 1) as Ec.
  { cbn [advance fw_counter]. unfold count_up, wrap_u. apply Z.mod_small. lia. }
  rewrite IH; [|done|done|lia|lia]. rewrite <- fmap_S_seq, <- list_fmap_compose. apply list_fmap_ext. intros j i _. cbn [compose].
  rewrite Ec. cbn [advance fw_node]. by replace (fw_counter f + 1 + Z.of_nat i) with (fw_counter f + Z.of_nat (S i)) by lia.
Qed.

(** The rotation is fair: while one peer list is in use, as many requests
    in a row as it has nodes go once to each of them, the node itself
    included, wherever the counter stands. *)
Theorem rotation_fair now f peers at_ : fw_balance f = true -> fw_peers f = Some (peers, at_) -> now - at_ < PEER_LIST_TTL -> (2 <= length peers)%nat ->
  0 <= fw_counter f -> fw_counter f + blen peers <= 2 ^ 64 ->
  picks (length peers) now f ≡ₚ turn_of (fw_node f) <$> peers.
Proof.
  intros Hb Hp Hat Hn H0 Hk. rewrite (picks_rotate _ now f peers at_) by done.
  set (b := Z.to_nat (fw_counter f mod blen peers)).
  assert (blen peers <> 0) as Hne by lia.
  assert ((fun i => peers !! Z.to_nat ((fw_counter f + Z.of_nat i) mod blen peers) ≫= turn_of (fw_node f)) <$> seq 0 (length peers) =
    turn_of (fw_node f) <$> list.rotate b peers) as ->.
  { apply list_eq_same_length with (length peers); [by rewrite length_fmap, length_rotate|by rewrite length_fmap, length_seq|].
    intros i x y Hi Hx Hy. rewrite list_lookup_fmap, lookup_seq_lt in Hx by done. cbn in Hx. injection Hx as <-.
    rewrite list_lookup_fmap, lookup_rotate_r in Hy by done. unfold rotate_nat_add in Hy.
    replace ((Z.of_nat b + Z.of_nat i) mod blen peers) with ((fw_counter f + Z.of_nat i) mod blen peers) in Hy.
    - destruct (peers !! _); by simplify_eq/=.
    - unfold b. rewrite Z2Nat.id by (apply Z.mod_pos_bound; lia). by rewrite Zplus_mod_idemp_l. }
  apply fmap_Permutation. unfold list.rotate. rewrite Permutation_app_comm. by rewrite take_drop.
Qed.

(** ** Who answers *)

Section answered.
Context `{K : Crc32} {L : Crc32Laws K} `{T : TimeCrate} `{C : TextCodec} (token_digest : bytes -> bytes).
Variables (max_segment_bytes : Z) (rules : list RoutingRuleRecord) (from_str : bytes -> option json) (new_id : option bytes -> nat -> bytes).
Variable auto_create_index : bytes.
Variable body : bytes.
Local Notation run_local := (run_local max_segment_bytes rules from_str new_id auto_create_index).
Local Notation bulk_internal := (bulk_internal token_digest max_segment_bytes rules from_str new_id auto_create_index).
Local Notation execute_bulk := (execute_bulk token_digest max_segment_bytes rules from_str new_id auto_create_index).

(** The server runs the request and answers [res]. *)
Definition ran_on (who : option bytes) (w : World) (di : option bytes) (refresh : bool) (s s' : Server) (res : list ItemResult) : Prop :=
  sv_ingest s = true /\
  runs (handle_bulk_local max_segment_bytes rules from_str (new_id who) auto_create_index w di body refresh) (sv_node s) (sv_node s') res.
(** The same log and trace. *)
Definition at_rest (s s' : Server) : Prop := quiet (nd_pipe (sv_node s)) (nd_pipe (sv_node s')).

Lemma run_local_ran who w di refresh s s' res : run_local who w di body refresh s = (s', Ok res) -> ran_on who w di refresh s s' res.
Proof.
  unfold run_local. destruct (sv_ingest s) eqn:Ei; [|done]. cbn [negb].
  destruct (handle_bulk_local _ _ _ _ _ _ _ _ _ _) as [n r] eqn:E. by intros [= <- ->].
Qed.
Lemma bulk_internal_ran who w presented query s s' res : bulk_internal who w presented query body s = (s', Items res) ->
  sv_draining s = false /\ ran_on who w (iq_index query) (parse_refresh (iq_refresh query)) s s' res.
Proof.
  unfold bulk_internal. destruct (sv_forward s) as [f|]; [|done]. case_decide; [done|]. destruct (sv_draining s); [done|].
  destruct (run_local _ _ _ _ _ _) as [s1 [l|e]] eqn:E; [|by destruct e]. intros [= <- <-]. split; [done|].
  by apply run_local_ran in E.
Qed.

(** The servers an answered request leaves, and the one whose run is relayed. *)
Record answered_by (env : ExecEnv) (di : option bytes) (refresh : bool) (cl cl' : Cluster) (res : list ItemResult) : Prop := {
  ab_up : sv_draining (cl_self cl) = false /\ sv_ingest (cl_self cl) = true;
  ab_others : exists addr, forall other, other <> addr -> cl_peers cl' !! other = cl_peers cl !! other;
  ab_ran :
    (exists s, at_rest (cl_self cl) s /\ ran_on None (ex_worlds env None) di refresh s (cl_self cl') res) \/
    exists addr peer peer' d, cl_peers cl !! addr = Some peer /\ cl_peers cl' = <[addr := peer']> (cl_peers cl) /\ sv_draining peer = false /\
      ran_on (Some addr) (ex_worlds env (Some addr)) di refresh (seeing d peer) peer' res /\ at_rest (cl_self cl) (cl_self cl');
}.

Lemma handoff_refresh refresh : parse_refresh (iq_refresh (handoff_query None refresh)) = refresh.
Proof. by destruct refresh. Qed.

Lemma execute_answered env di refresh cl cl' res : execute_bulk env di body refresh cl = (cl', Ok res) -> answered_by env di refresh cl cl' res.
Proof.
  unfold execute_bulk. destruct (sv_draining (cl_self cl)) eqn:Ed; [done|]. destruct (sv_ingest (cl_self cl)) eqn:Ei; [|done]. cbn [negb].
  intros H.
  assert (forall c addr, at_rest (cl_self cl) (cl_self c) -> (forall other, other <> addr -> cl_peers c !! other = cl_peers cl !! other) ->
    (let '(s, r) := run_local None (ex_worlds env None) di body refresh (cl_self c) in (with_self s c, r)) = (cl', Ok res) ->
    answered_by env di refresh cl cl' res) as Hlocal.
  { intros c addr Hc Ho E. destruct (run_local None (ex_worlds env None) di body refresh (cl_self c)) as [s r] eqn:Er. simplify_eq/=.
    split; [done|by exists addr|]. left. exists (cl_self c). split; [done|]. by apply run_local_ran in Er. }
  destruct (sv_forward (cl_self cl)) as [f|]; [|by apply (Hlocal cl [])].
  destruct (pick_target _ _ f) as [[[id addr]|] f']; [|by apply (Hlocal (with_self (with_forward f' (cl_self cl)) cl) [])].
  destruct (hand_over _ _ _ _ _ _ _ _ _ _ _ _ _) as [c r] eqn:Eh. unfold hand_over in Eh. cbn [with_self cl_peers cl_self with_forward sv_node] in Eh.
  destruct (cl_peers cl !! addr) as [peer|] eqn:Ep.
  2:{ assert (c = with_self (with_forward f' (cl_self cl)) cl /\ r = None) as [-> ->] by (by destruct (ex_handoff env); simplify_eq/=).
      by eapply (Hlocal _ []); [| |exact H]. }
  assert (forall peer' other, other <> addr -> <[addr := peer']> (cl_peers cl) !! other = cl_peers cl !! other) as Hother
    by (intros peer' other Ho; by rewrite lookup_insert_ne).
  destruct (ex_handoff env).
  { injection Eh as <- <-. by eapply (Hlocal _ []); [| |exact H]. }
  all: destruct (bulk_internal _ _ _ _ _ _) as [peer' r'] eqn:Eb; injection Eh as <- <-.
  { eapply (Hlocal _ addr); [..|exact H]; [done|apply Hother]. }
  destruct r' as [l|code|]; [|eapply (Hlocal _ addr); [..|exact H]; [done|apply Hother]..].
  injection H as <- <-. split; [done|by exists addr; apply Hother|]. right.
  apply bulk_internal_ran in Eb as (? & Hran). eexists addr, peer, peer', _. split_and!; try done.
  by destruct refresh.
Qed.

(** The server's log is in order and has room for the request. *)
Definition ready (who : option bytes) (s : Server) : Prop :=
  wal_clean (p_wal (nd_pipe (sv_node s))) /\ forall di, room rules from_str (new_id who) body di (sv_node s).
Lemma ran_kept who w di refresh s0 s s' res : ready who s0 -> at_rest s0 s -> ran_on who w di refresh s s' res ->
  kept_word (sv_node s0) (sv_node s') res.
Proof using L.
  intros [Hc Hr] [Ew Et] [_ H]. assert (kept_word (sv_node s) (sv_node s') res) as Hk.
  { eapply bulk_keeps_word; [by rewrite Ew| |exact H]. unfold room in *. rewrite Ew. apply Hr. }
  unfold kept_word in *. by rewrite Ew, Et in Hk.
Qed.

(** [C12] Whoever runs a request, the answers relayed are kept: the server asked,
    or one other that is not draining, has for each write acknowledged a copy
    with a worker under the version told, and owes it in its log; when the
    other answers, the server asked has done nothing; at most one other server
    is touched, and none that the request is handed to hands it on.  A draining
    server and one without the ingest role acknowledge nothing. *)
Theorem execute_keeps_word env di refresh cl cl' res : ready None (cl_self cl) ->
  (forall addr peer, cl_peers cl !! addr = Some peer -> ready (Some addr) peer) ->
  execute_bulk env di body refresh cl = (cl', Ok res) ->
  sv_draining (cl_self cl) = false /\ sv_ingest (cl_self cl) = true /\
  (exists addr, forall other, other <> addr -> cl_peers cl' !! other = cl_peers cl !! other) /\
  (kept_word (sv_node (cl_self cl)) (sv_node (cl_self cl')) res \/
   exists addr peer peer', cl_peers cl !! addr = Some peer /\ cl_peers cl' = <[addr := peer']> (cl_peers cl) /\
     sv_draining peer = false /\ sv_ingest peer = true /\ kept_word (sv_node peer) (sv_node peer') res /\ at_rest (cl_self cl) (cl_self cl')).
Proof using L.
  intros Hself Hpeers [[? ?] ? Hran]%execute_answered. split_and!; [done..|].
  destruct Hran as [(s & Hs & Hran)|(addr & peer & peer' & d & Ep & ? & ? & Hran & ?)]; [left; by eapply ran_kept|right].
  exists addr, peer, peer'. split_and!; try done; [by destruct Hran|]. eapply (ran_kept (Some addr) _ _ _ peer); [by apply Hpeers| |exact Hran]; done.
Qed.
End answered.

(** ** A handoff *)

Definition demo_fwd (balance : bool) (node : bytes) (peers : option (list (bytes * bytes) * Z)) : Forwarder :=
  mkFwd (str "t") node (str "t") balance 1 peers 0 0 0.
Definition demo_list : list (bytes * bytes) := [(str "n1", str "a1"); (str "n2", str "a2"); (str "n3", str "a3")].
Definition demo_registry : list NodeRecord :=
  [mkRec (str "n1") [str "ingest"] (Some (str "a1")) 0 false None; mkRec (str "n2") [str "ingest"] (Some (str "a2")) 29999 false None;
   mkRec (str "n4") [str "ingest"] (Some (str "a4")) 30000 false None; mkRec (str "n5") [str "search"] (Some (str "a5")) 0 false None].

Lemma pick_target_eligible_witness : exists n, n ∈ demo_registry /\ address n = Some (str "a2") /\ draining n = false.
Proof.
  destruct (pick_target_eligible (Some demo_registry) 0 (demo_fwd true (str "n1") None) (str "n2") (str "a2")
    (pick_target (Some demo_registry) 0 (demo_fwd true (str "n1") None)).2) as (_ & _ & peers & at_ & _ & _ & _ & [H|(nodes & n & H)]);
    [vm_compute; reflexivity|done|].
  destruct H as (E & Hn & _ & Ha & _ & Hd & _). injection E as <-. exists n. split; [exact Hn|]. split; [exact Ha|exact Hd].
Defined.
Lemma rotation_fair_witness : picks 3 0 (demo_fwd true (str "n2") (Some (demo_list, 0))) ≡ₚ [Some (str "n1", str "a1"); None; Some (str "n3", str "a3")].
Proof.
  exact (rotation_fair 0 (demo_fwd true (str "n2") (Some (demo_list, 0))) demo_list 0 eq_refl eq_refl eq_refl ltac:(vm_compute; lia) ltac:(done) ltac:(done)).
Defined.

Definition demo_server (f : Forwarder) : Server := mkServer (demo_node 1) true false (Some f).
Definition demo_cluster : Cluster :=
  mkCluster (demo_server (demo_fwd true (str "n1") (Some (demo_list, 0)))) {[str "a2" := demo_server (demo_fwd false (str "n2") None)]}.
Definition demo_exec (h : Handoff) : ExecEnv := mkExec None 0 h (fun _ => demo_world).
Definition demo_execute (h : Handoff) : Cluster * result BulkError (list ItemResult) :=
  execute_bulk (K := crc32_ieee) (T := gregorian) (C := demo_codec) (fun t => t) 1000 [] demo_from (fun _ => demo_new) (str "true") (demo_exec h) None demo_request true
    demo_cluster.
(** What each server has sent to its workers. *)
Definition sent_by (s : Server) : list (bytes * Z) :=
  omap (fun e => match e with Sent _ it => Some (doc_id it, doc_seq it) | _ => None end) (p_trace (nd_pipe (sv_node s))).
(** The peer's answer is relayed; when it is lost both have the document, this
    server's copy the newer. *)
Example demo_relayed :
  (demo_execute Answering).2 = Ok demo_results /\ sent_by (cl_self (demo_execute Answering).1) = [] /\
  sent_by <$> cl_peers (demo_execute Answering).1 !! str "a2" = Some [(str "x", 5122)].
Proof. split_and!; vm_compute; reflexivity. Qed.
Example demo_lost :
  sent_by (cl_self (demo_execute Unanswered).1) = [(str "x", 7170)] /\
  sent_by <$> cl_peers (demo_execute Unanswered).1 !! str "a2" = Some [(str "x", 5122)].
Proof. split_and!; vm_compute; reflexivity. Qed.

Lemma demo_ready who f : ready (C := demo_codec) [] demo_from (fun _ => demo_new) demo_request who (demo_server f).
Proof. split; [exact opened_empty_clean|]. intros di o E. vm_compute in E. injection E as <-. vm_compute. done. Qed.
Lemma execute_keeps_word_witness : exists cl', demo_execute Answering = (cl', Ok demo_results) /\
  (kept_word (demo_node 1) (sv_node (cl_self cl')) demo_results \/
   exists peer', cl_peers cl' !! str "a2" = Some peer' /\ kept_word (demo_node 1) (sv_node peer') demo_results).
Proof.
  exists (demo_execute Answering).1.
  assert (demo_execute Answering = ((demo_execute Answering).1, Ok demo_results)) as E.
  { destruct demo_relayed as (H & _). destruct (demo_execute Answering) as [c r]. cbn in *. by rewrite H. }
  split; [exact E|].
  destruct (execute_keeps_word (K := crc32_ieee) (T := gregorian) (C := demo_codec) (fun t => t) 1000 [] demo_from (fun _ => demo_new) (str "true") demo_request
    (demo_exec Answering) None true demo_cluster (demo_execute Answering).1 demo_results) as (_ & _ & _ & H).
  - apply demo_ready.
  - intros addr peer H. cbn [demo_cluster cl_peers] in H. apply lookup_singleton_Some in H as [<- <-]. apply demo_ready.
  - exact E.
  - destruct H as [H|(addr & peer & peer' & Hp & Hc & _ & _ & Hk & _)]; [left; exact H|right].
    cbn [demo_cluster cl_peers] in Hp. apply lookup_singleton_Some in Hp as [<- <-]. exists peer'. split; [rewrite Hc; apply lookup_insert_eq|exact Hk].
Defined.
