(* ===== verification/DocApi.v ===== *)
(** * The document routes (crates/rsearch-server/src/doc_api.rs)

    A write of one document is a bulk request of one item; a delete by query
    searches a page of ids and deletes it, round after round.  The searches'
    answers are given. *)

From Stdlib Require Import ZArith Lia.
From Stdlib Require Import Strings.Byte.
From stdpp Require Import base gmap sets list strings sorting.
From S2P Require Import Prelude Order Json Float64 Common Metastore Wal Ingest Placement Dates Mapping Document QueryDsl Sort Search Bulk Updates BulkApi BulkOrder BulkForward.

Local Open Scope Z_scope.

(** ** Requests *)

(** What a route answers. *)
Inductive DocReply :=
| Item (status : Z) (r : ItemResult)          (** the item's body under its status *)
| Found (version : Z) (source : json)
| Source (source : json)
| Missing                                     (** 404, [found: false] *)
| Refusal (status : Z)
| Deleted (total batches : Z)
| Hangup.
Definition request_error (e : BulkError) : DocReply := match bulk_status e with Status s => Refusal s | _ => Hangup end.

Inductive OpType := OpIndex | OpCreate.
Definition parse_op_type (op : option bytes) : result DocReply OpType :=
  match op with
  | None => Ok OpIndex
  | Some o => if decide (o = str "create") then Ok OpCreate else if decide (o = str "index") then Ok OpIndex else Err (Refusal 400)
  end.

(** [trim] of [str]. *)
Definition blank (body : bytes) : bool := bool_decide (trim body = []).

Definition DELETE_BY_QUERY_PAGE : nat := Z.to_nat 10000.
Definition DELETE_BY_QUERY_MAX_ROUNDS : nat := Z.to_nat 10000.

(** What a search by the lookup service answers. *)
Inductive Searched := Hits (hits : list json) | NoSuchStream | Failing (e : Search.SearchError).
Inductive Lookup := Got (version : Z) (source : json) | Absent | NoStream | Failed (e : Search.SearchError).
Definition search_error (e : Search.SearchError) : DocReply := match e with BadRequest _ => Refusal 400 | _ => Refusal 500 end.

Section routes.
Context `{K : Crc32} `{T : TimeCrate} `{C : TextCodec} (token_digest : bytes -> bytes).
Variables (max_segment_bytes : Z) (rules : list RoutingRuleRecord) (from_str : bytes -> option json) (new_id : option bytes -> nat -> bytes).
Variable auto_create_index : bytes.
Local Notation execute_bulk := (execute_bulk token_digest max_segment_bytes rules from_str new_id auto_create_index).

Definition run_one (env : ExecEnv) (body : bytes) (refresh : bool) (cl : Cluster) : Cluster * DocReply :=
  let '(cl, r) := execute_bulk env None body refresh cl in
  (cl, match r with
       | Ok [] => Refusal 500
       | Ok (item :: _) => Item (status_of item) item
       | Err e => request_error e
       end).

Definition parse_doc (body : bytes) : result DocReply json :=
  match from_str body with
  | Some (Object o) => Ok (Object o)
  | _ => Err (Refusal 400)
  end.

(** The write a request stands for, or why there is none. *)
Definition put_request (index id body : bytes) (op : option bytes) : result DocReply (BulkAction * option json) :=
  doc ← parse_doc body;
  a ← parse_op_type op;
  Ok (match a with OpCreate => Create | OpIndex => Index end, Some doc).
Definition doc_write (r : result DocReply (BulkAction * option json)) (index : bytes) (id : option bytes)
    (env : ExecEnv) (refresh : option bytes) (cl : Cluster) : Cluster * DocReply :=
  match r with
  | Err e => (cl, e)
  | Ok (a, doc) => run_one env (one_item_body a index id doc) (parse_refresh refresh) cl
  end.
Definition put_doc (index id body : bytes) (op refresh : option bytes) (env : ExecEnv) (cl : Cluster) : Cluster * DocReply :=
  doc_write (put_request index id body op) index (Some id) env refresh cl.
Definition post_doc (index body : bytes) (refresh : option bytes) (env : ExecEnv) (cl : Cluster) : Cluster * DocReply :=
  doc_write (doc ← parse_doc body; Ok (Index, Some doc)) index None env refresh cl.
Definition create_doc (index id body : bytes) (refresh : option bytes) (env : ExecEnv) (cl : Cluster) : Cluster * DocReply :=
  doc_write (doc ← parse_doc body; Ok (Create, Some doc)) index (Some id) env refresh cl.
Definition update_doc (index id body : bytes) (refresh : option bytes) (env : ExecEnv) (cl : Cluster) : Cluster * DocReply :=
  doc_write (doc ← parse_doc body; Ok (Update, Some doc)) index (Some id) env refresh cl.
Definition delete_doc (index id : bytes) (refresh : option bytes) (env : ExecEnv) (cl : Cluster) : Cluster * DocReply :=
  doc_write (Ok (Delete, None)) index (Some id) env refresh cl.

(** ** Reads *)

Definition lookup_reply (lookup : option (bytes -> bytes -> Lookup)) (index id : bytes) (found : Z -> json -> DocReply) : DocReply :=
  match lookup with
  | None => Refusal 400
  | Some get =>
      match get index id with
      | Got v s => found v s
      | Absent => Missing
      | NoStream => Refusal 404
      | Failed e => search_error e
      end
  end.
Definition get_doc (lookup : option (bytes -> bytes -> Lookup)) (index id : bytes) : DocReply := lookup_reply lookup index id Found.
Definition get_source (lookup : option (bytes -> bytes -> Lookup)) (index id : bytes) : DocReply := lookup_reply lookup index id (fun _ s => Source s).
(** A status only. *)
Definition head_doc (lookup : option (bytes -> bytes -> Lookup)) (index id : bytes) : Z :=
  match lookup with
  | None => 400
  | Some get => match get index id with Got _ _ => 200 | Absent | NoStream => 404 | Failed _ => 500 end
  end.

(** ** Delete by query *)

Definition page_request (query : json) : SearchRequest :=
  mkRequest query 0 (Z.of_nat DELETE_BY_QUERY_PAGE) (Timestamp true) None false (Some 0) None None.
Definition delete_query (body : bytes) : result DocReply json :=
  if blank body then Ok (Object [(str "match_all", Object [])])
  else match from_str body with
       | Some b => Ok (default (Object [(str "match_all", Object [])]) (get b (str "query")))
       | None => Err (Refusal 400)
       end.
Definition deleted_ok (r : ItemResult) : bool := bool_decide (ir_action r = Delete) && (status_of r <? 300).

(** One round's world: its search, and its request. *)
Record RoundEnv := mkRound { rd_search : Cluster -> SearchRequest -> Searched; rd_exec : ExecEnv }.

(** [n]: the rounds left; [rounds]: those begun; [previous]: the last page's ids. *)
Fixpoint delete_rounds (n : nat) (index : bytes) (query : json) (env : nat -> RoundEnv) (rounds : nat) (deleted : Z) (previous : list bytes) (cl : Cluster)
    : Cluster * DocReply :=
  let rounds := S rounds in
  match n with
  | O => (cl, Deleted deleted (Z.of_nat rounds))
  | S n =>
      match rd_search (env rounds) cl (page_request query) with
      | NoSuchStream => (cl, Refusal 404)
      | Failing e => (cl, search_error e)
      | Hits hits =>
          let ids := omap id_of hits in
          if decide (ids = []) then (cl, Deleted deleted (Z.of_nat rounds))
          else if forallb (fun id => bool_decide (id ∈ previous)) ids then (cl, Refusal 409)
          else
            let body := concat ((fun id => one_item_body Delete index (Some id) None) <$> ids) in
            let '(cl, r) := execute_bulk (rd_exec (env rounds)) None body false cl in
            match r with
            | Err e => (cl, request_error e)
            | Ok items =>
                let deleted := deleted + blen (filter (fun r => deleted_ok r = true) items) in
                if forallb deleted_ok items then
                  if (length ids <? DELETE_BY_QUERY_PAGE)%nat then (cl, Deleted deleted (Z.of_nat rounds))
                  else delete_rounds n index query env rounds deleted ids cl
                else (cl, Refusal 400)
            end
      end
  end.
Definition delete_by_query (has_lookup : bool) (index body : bytes) (env : nat -> RoundEnv) (cl : Cluster) : Cluster * DocReply :=
  if negb has_lookup then (cl, Refusal 400)
  else
    match delete_query body with
    | Err e => (cl, e)
    | Ok query => delete_rounds DELETE_BY_QUERY_MAX_ROUNDS index query env 0 0 [] cl
    end.
End routes.

(** ** What a written body is answered *)

Lemma acknowledged_below r : status_of r < 300 -> exists v, acknowledges r v.
Proof. unfold status_of, acknowledges. destruct (ir_out r) as [v s st|why]; [by eexists _, _, _|]. by destruct why. Qed.

Section answers.
Context `{K : Crc32} `{T : TimeCrate} `{C : TextCodec} (token_digest : bytes -> bytes).
Variables (max_segment_bytes : Z) (rules : list RoutingRuleRecord) (from_str : bytes -> option json) (new_id : option bytes -> nat -> bytes).
Variable auto_create_index : bytes.
Local Notation execute_bulk := (execute_bulk token_digest max_segment_bytes rules from_str new_id auto_create_index).
Local Notation doc_write := (doc_write token_digest max_segment_bytes rules from_str new_id auto_create_index).
Local Notation delete_rounds := (delete_rounds token_digest max_segment_bytes rules from_str new_id auto_create_index).
Local Notation delete_by_query := (delete_by_query token_digest max_segment_bytes rules from_str new_id auto_create_index).

(** The answer [r] is for the write [w], under the id it names or one the server
    that ran it generated. *)
Definition answers_write (w : DocWrite) (r : ItemResult) : Prop :=
  ir_action r = dw_action w /\ ir_index r = dw_index w /\
  exists who p, ir_id r = Some (default (new_id who p) (dw_id w)).

Lemma execute_written env refresh ws cl cl' res : Forall (write_ok from_str) ws ->
  execute_bulk env None (concat (rendered <$> ws)) refresh cl = (cl', Ok res) ->
  ir_pos <$> res = seq 0 (length ws) /\ Forall2 answers_write ws res.
Proof.
  intros Hws H. apply execute_answered in H as [_ _ Hran].
  assert (exists who w n n', runs (handle_bulk_local max_segment_bytes rules from_str (new_id who) auto_create_index w None (concat (rendered <$> ws)) refresh) n n' res)
    as (who & w & n & n' & Hr).
  { destruct Hran as [(s & _ & _ & Hr)|(addr & peer & peer' & d & _ & _ & _ & [_ Hr] & _)]; by eexists _, _, _, _. }
  pose proof (handle_bulk_positions _ _ _ _ _ _ _ _ _ _ _ _ Hr) as (o & E & Hpos).
  pose proof (written_parse from_str (new_id who) None ws Hws) as Ew. rewrite Ew in E. injection E as <-. cbn [po_total] in Hpos. split; [done|].
  unfold handle_bulk_local in Hr. rewrite Ew in Hr. cbn [po_total po_items po_rejections] in Hr. case_decide; [by apply runs_fail in Hr|].
  step_runs. match goal with H : runs (run_items _ _ _ _ _ _) _ _ _ |- _ => apply run_items_names in H as Hn end.
  change ((rejected <$> []) ++ a) with a in *.
  assert (Forall (names (imap (fun p w => (p, item_written (new_id who) p w)) ws)) (sort_by by_position a)) as Hn'.
  { apply Forall_forall. intros r Hin%elem_of_sort_by. rewrite Forall_forall in Hn. by apply Hn. }
  apply Forall2_same_length_lookup_2; [by rewrite <- (length_fmap ir_pos), Hpos, length_seq|].
  intros i wr r Hi Hr'. rewrite Forall_forall in Hn'. destruct (Hn' r) as (it & Hin & Ha & Hx & Hid); [by eapply list_elem_of_lookup_2|].
  assert (ir_pos r = i) as Ep.
  { assert ((ir_pos <$> sort_by by_position a) !! i = Some (ir_pos r)) as El by (by rewrite list_lookup_fmap, Hr').
    rewrite Hpos in El. apply lookup_seq in El as [-> _]. done. }
  rewrite Ep in Hin. apply list_elem_of_lookup in Hin as [j Hj]. rewrite list_lookup_imap in Hj.
  destruct (ws !! j) as [w'|] eqn:Ej; [|done]. cbn in Hj. injection Hj as -> <-. rewrite Ej in Hi. injection Hi as ->.
  split; [done|]. split; [done|]. exists who, i. exact Hid.
Qed.

(** A write of one document is answered by its own item: the action, the
    index and the id of the request, under the item's status; otherwise by the
    error of the whole request.  No route answers that the request returned no
    item. *)
Theorem doc_route_answers w env refresh cl cl' rep : write_ok from_str w ->
  doc_write (Ok (dw_action w, Object <$> dw_doc w)) (dw_index w) (dw_id w) env refresh cl = (cl', rep) ->
  match rep with
  | Item status r => status = status_of r /\ ir_pos r = 0%nat /\ answers_write w r
  | Refusal status => exists e, (execute_bulk env None (rendered w) (parse_refresh refresh) cl).2 = Err e /\ bulk_status e = Status status
  | Hangup => (execute_bulk env None (rendered w) (parse_refresh refresh) cl).2 = Err Panicked
  | _ => False
  end.
Proof.
  intros Hw. unfold doc_write, run_one. fold (rendered w). destruct (execute_bulk env None (rendered w) (parse_refresh refresh) cl) as [c r] eqn:E. cbn [snd].
  destruct r as [res|e].
  - destruct (execute_written env (parse_refresh refresh) [w] cl c res) as [Hp Ha]; [by constructor|cbn; by rewrite app_nil_r|].
    destruct res as [|r [|]]; try done. injection Hp as Hp. apply Forall2_cons in Ha as [Ha _]. by intros [= <- <-].
  - intros [= <- <-]. unfold request_error. destruct e; cbn; try done; by eexists.
Qed.

(** ** Delete by query *)

(** A page of ids and the answers to its deletion. *)
Definition page_done (p : list bytes * list ItemResult) : Prop :=
  p.1 <> [] /\ Forall2 (fun id r => ir_action r = Delete /\ ir_id r = Some id /\ exists v, acknowledges r v) p.1 p.2.
Definition delete_body (index : bytes) (ids : list bytes) : bytes := concat ((fun id => one_item_body Delete index (Some id) None) <$> ids).
(** The pages deleted one after another, each with an id the one before it had not. *)
Fixpoint deletes (index : bytes) (previous : list bytes) (cl : Cluster) (pages : list (list bytes * list ItemResult)) (cl' : Cluster) : Prop :=
  match pages with
  | [] => cl' = cl
  | p :: pages => (exists id, id ∈ p.1 /\ id ∉ previous) /\
      exists env mid, execute_bulk env None (delete_body index p.1) false cl = (mid, Ok p.2) /\ deletes index p.1 mid pages cl'
  end.

Lemma delete_page index ids env cl cl' res : index <> [] -> (forall id, id ∈ ids -> one_line from_str (action_json Delete index (Some id))) ->
  ids <> [] -> execute_bulk env None (delete_body index ids) false cl = (cl', Ok res) -> forallb deleted_ok res = true ->
  page_done (ids, res) /\ blen (filter (fun r => deleted_ok r = true) res) = blen ids.
Proof.
  intros Hi Hl Hne E Hok. set (wr := fun id => mkWrite Delete index (Some id) None).
  destruct (execute_written env false (wr <$> ids) cl cl' res) as [Hp Ha].
  { apply Forall_forall. intros w (id & -> & Hin)%list_elem_of_fmap. split; try done; [|by apply Hl]. split; [by intros []|done]. }
  { unfold delete_body in E. rewrite <- list_fmap_compose. exact E. }
  rewrite forallb_forall in Hok. rewrite Forall2_fmap_l in Ha.
  assert (filter (fun r => deleted_ok r = true) res = res) as ->.
  { clear -Hok. induction res as [|r res IH]; [done|]. rewrite filter_cons_True by (apply Hok; by left). f_equal. apply IH. intros. apply Hok. by right. }
  split; [|by rewrite (Forall2_length _ _ _ Ha)]. split; [done|]. cbn [fst snd].
  apply Forall2_same_length_lookup. split; [by eapply Forall2_length|]. intros i id r Hid Hr.
  destruct (Forall2_lookup_lr _ _ _ _ _ _ Ha Hid Hr) as (E1 & _ & who & p & E3). split; [done|]. split; [done|].
  assert (deleted_ok r = true) as [_ H%Z.ltb_lt]%andb_true_iff by (by apply Hok, list_elem_of_In, list_elem_of_lookup_2 with i).
  by apply acknowledged_below.
Qed.

(** The deletions of the ids found are written on one line each. *)
Definition ids_written (index : bytes) (env : nat -> RoundEnv) : Prop := forall k cl rq hits id,
  rd_search (env k) cl rq = Hits hits -> id ∈ omap id_of hits -> one_line from_str (action_json Delete index (Some id)).

Lemma delete_rounds_spec n index query env k d previous cl cl' total b : index <> [] -> ids_written index env ->
  delete_rounds n index query env k d previous cl = (cl', Deleted total b) ->
  exists pages, deletes index previous cl pages cl' /\ Forall page_done pages /\ total = d + blen (concat pages.*1) /\ (length pages <= n)%nat /\
    (b = Z.of_nat (k + S (length pages)) /\ (exists hits, rd_search (env (k + S (length pages))%nat) cl' (page_request query) = Hits hits /\ omap id_of hits = []) \/
     b = Z.of_nat (k + length pages) /\ (exists page, list.last pages.*1 = Some page /\ (length page < DELETE_BY_QUERY_PAGE)%nat) \/
     b = Z.of_nat (k + S n) /\ length pages = n).
Proof.
  intros Hi Hl. revert k d previous cl; induction n as [|n IH]; intros k d previous cl; cbn [DocApi.delete_rounds].
  { intros [= <- <- <-]. exists []. split_and!; try done; [cbn; lia|]. right; right. split; [f_equal; lia|done]. }
  destruct (rd_search (env (S k)) cl (page_request query)) as [hits| |e] eqn:Es; [|done|by destruct e].
  case_decide as Hids.
  { intros [= <- <- <-]. exists []. split_and!; try done; [cbn; lia|cbn; lia|]. left. cbn [length]. rewrite Nat.add_1_r. split; [done|]. by exists hits. }
  destruct (forallb _ _) eqn:Ef; [done|].
  assert (exists id, id ∈ omap id_of hits /\ id ∉ previous) as Hnew.
  { apply not_true_iff_false in Ef. rewrite forallb_forall in Ef. destruct (decide (Exists (fun id => id ∉ previous) (omap id_of hits))) as [Hex|Hno].
    - apply Exists_exists in Hex as (id & ? & ?). by exists id.
    - exfalso. apply Ef. intros id Hin%list_elem_of_In. apply bool_decide_eq_true. destruct (decide (id ∈ previous)); [done|].
      exfalso. apply Hno, Exists_exists. by exists id. }
  destruct (execute_bulk (rd_exec (env (S k))) None _ false cl) as [c [items|e]] eqn:E; [|by unfold request_error; destruct e].
  destruct (forallb deleted_ok items) eqn:Eok; [|done].
  destruct (delete_page _ _ _ _ _ _ Hi (fun id Hin => Hl _ _ _ _ id Es Hin) Hids E Eok) as [Hpage Hlen]. cbn [length] in Hlen. rewrite Hlen.
  destruct (length (omap id_of hits) <? DELETE_BY_QUERY_PAGE)%nat eqn:El.
  - intros [= <- <- <-]. exists [(omap id_of hits, items)]. split_and!.
    + split; [done|]. by exists (rd_exec (env (S k))), c.
    + by constructor.
    + cbn. by rewrite app_nil_r.
    + cbn. lia.
    + right; left. cbn. split; [f_equal; lia|]. exists (omap id_of hits). split; [done|]. by apply Nat.ltb_lt.
  - intros H. apply IH in H as (pages & Hd & Hp & -> & Hle & Hend). exists ((omap id_of hits, items) :: pages). split_and!.
    + split; [done|]. by exists (rd_exec (env (S k))), c.
    + by constructor.
    + cbn [fmap list_fmap fst concat]. rewrite length_app. lia.
    + cbn. lia.
    + cbn [length]. replace (k + S (S (length pages)))%nat with (S k + S (length pages))%nat by lia.
      destruct Hend as [Hend|[(-> & page & Hlast & ?)|(-> & Hn)]]; [by left|right; left|right; right].
      * split; [f_equal; lia|]. exists page. split; [|done]. cbn [fmap list_fmap fst]. destruct (pages.*1) as [|x l] eqn:Ex; [done|].
        by rewrite last_cons_cons.
      * split; f_equal; lia.
Qed.

(** [C14] What a delete by query says was deleted was: page after page, every
    document of it acknowledged as a deletion of that id, each page with an id
    the page before it had not, and the total counts them.  It answers so only
    when a search came back dry or a page was not full, or after ten thousand
    full pages. *)
Theorem delete_by_query_exact index body env cl cl' total batches : index <> [] -> ids_written index env ->
  delete_by_query true index body env cl = (cl', Deleted total batches) ->
  exists query pages, delete_query from_str body = Ok query /\ deletes index [] cl pages cl' /\ Forall page_done pages /\ total = blen (concat pages.*1) /\
    ((exists hits, rd_search (env (S (length pages))) cl' (page_request query) = Hits hits /\ omap id_of hits = []) \/
     (exists page, list.last pages.*1 = Some page /\ (length page < DELETE_BY_QUERY_PAGE)%nat) \/
     length pages = DELETE_BY_QUERY_MAX_ROUNDS).
Proof.
  intros Hi Hl. unfold delete_by_query. cbn [negb]. destruct (delete_query from_str body) as [query|e] eqn:Eq.
  - intros H. apply delete_rounds_spec in H as (pages & Hd & Hp & -> & _ & Hend); [|done..]. exists query, pages. split_and!; try done.
    destruct Hend as [[_ ?]|[[_ ?]|[_ ?]]]; [by left|by right; left|by right; right].
  - unfold delete_query in Eq. destruct (blank body); [done|]. destruct (from_str body); [done|]. by injection Eq as <-.
Qed.
End answers.

(** ** Concrete requests *)

Definition demo_read (b : bytes) : option json :=
  if decide (b = str "i") then Some (action_json Delete (str "docs") (Some (str "x"))) else None.
Lemma demo_one_line : one_line (C := demo_codec) demo_read (action_json Delete (str "docs") (Some (str "x"))).
Proof. split; try reflexivity; try done. intros H. vm_compute in H. by apply list_elem_of_singleton in H. Qed.
Definition demo_removal : DocWrite := mkWrite Delete (str "docs") (Some (str "x")) None.
Definition demo_remove : Cluster * DocReply :=
  doc_write (K := crc32_ieee) (T := gregorian) (C := demo_codec) (fun t => t) 1000 [] demo_read (fun _ => demo_new) (str "true")
    (Ok (Delete, Object <$> None)) (str "docs") (Some (str "x")) (demo_exec Answering) None demo_cluster.
Lemma doc_route_answers_witness : exists r, demo_remove.2 = Item 200 r /\ ir_id r = Some (str "x").
Proof.
  assert (match demo_remove.2 with Item s r => s = 200 | _ => False end) as Hs by (vm_compute; reflexivity).
  assert (write_ok (C := demo_codec) demo_read demo_removal) as Hw
    by (split; [done|by split; [intros []|]|intros _; by eexists|exact demo_one_line|by intros d]).
  assert (forall c rep, demo_remove = (c, rep) -> match rep with Item s r => answers_write (fun _ => demo_new) demo_removal r | _ => True end) as H.
  { intros c rep E. pose proof (doc_route_answers (K := crc32_ieee) (T := gregorian) (C := demo_codec) (fun t => t) 1000 [] demo_read (fun _ => demo_new)
      (str "true") demo_removal (demo_exec Answering) None demo_cluster c rep Hw E) as H. clear -H. destruct rep; try done. by destruct H as (_ & _ & ?). }
  destruct demo_remove as [c rep]. specialize (H c rep eq_refl). cbn [snd] in *.
  destruct rep as [s r| | | | | |]; try done. subst s. exists r. split; [done|]. destruct H as (_ & _ & who & p & E). exact E.
Defined.

(** One document matches, then none. *)
Definition demo_rounds (k : nat) : RoundEnv := mkRound (fun _ _ => Hits [Object [(str "_id", JString (str "x"))]]) (demo_exec Answering).
Definition demo_dbq : Cluster * DocReply :=
  delete_by_query (K := crc32_ieee) (T := gregorian) (C := demo_codec) (fun t => t) 1000 [] demo_read (fun _ => demo_new) (str "true")
    true (str "docs") [] demo_rounds demo_cluster.
Lemma delete_by_query_exact_witness : exists total batches (pages : list (list bytes)), demo_dbq.2 = Deleted total batches /\ total = 1 /\ total = blen (concat pages).
Proof.
  assert (match demo_dbq.2 with Deleted 1 1 => True | _ => False end) as Hs by (vm_compute; exact Logic.I).
  assert (ids_written (C := demo_codec) demo_read (str "docs") demo_rounds) as Hw.
  { intros k cl rq hits id E Hin. injection E as <-. apply list_elem_of_singleton in Hin as ->. exact demo_one_line. }
  assert (forall c total batches, demo_dbq = (c, Deleted total batches) -> exists pages : list (list bytes), total = blen (concat pages)) as H.
  { intros c total batches E.
    destruct (delete_by_query_exact (K := crc32_ieee) (T := gregorian) (C := demo_codec) (fun t => t) 1000 [] demo_read (fun _ => demo_new) (str "true")
      (str "docs") [] demo_rounds demo_cluster c total batches ltac:(discriminate) Hw E) as (query & pages & _ & _ & _ & Et & _). by exists pages.*1. }
  destruct demo_dbq as [c r]. cbn [fst snd] in *.
  destruct r as [| | | | |total batches|]; try done. destruct (H c total batches eq_refl) as [pages Et]. exists total, batches, pages.
  split; [done|]. split; [by destruct total as [|[]|], batches as [|[]|]|exact Et].
Defined.
