(* ===== verification/LogQl.v ===== *)
(** * LogQL (crates/rsearch-search/src/logql.rs)

    The parser of the Loki routes' queries: stream selectors, line filters and
    the metric wrappers.  A parser takes the text left and returns what it read
    with the text left after it; an error notes how much was left.  Repetition
    has fuel, the length of the text and one more. *)

From Stdlib Require Import ZArith Lia.
From Stdlib Require Import Strings.Byte.
From stdpp Require Import base list strings.
From S2P Require Import Prelude Utf8 Dates.

Local Open Scope Z_scope.

(** ** Queries *)

Inductive MatchOp := MEq | MNeq | MRe | MNotRe.
#[export] Instance MatchOp_eq_dec : EqDecision MatchOp.
Proof. solve_decision. Defined.
Record LabelMatcher := mkMatcher { lm_label : bytes; lm_op : MatchOp; lm_value : bytes }.
Inductive FilterOp := Contains | NotContains | Regex | NotRegex.
Record LineFilter := mkFilter { lf_op : FilterOp; lf_text : bytes }.
Record LogSelector := mkSelector { matchers : list LabelMatcher; filters : list LineFilter }.
Inductive MetricOp := CountOverTime | Rate.
Record MetricQuery := mkMetric {
  mq_selector : LogSelector; range_millis : Z; mq_op : MetricOp; group_by : list bytes; summed : bool;
}.
Inductive LogQlQuery := Log (s : LogSelector) | Metric (m : MetricQuery).

Definition eq_value (s : LogSelector) (label : bytes) : option bytes :=
  lm_value <$> head (filter (fun m => lm_label m = label /\ lm_op m = MEq) (matchers s)).

(** ** Parsers *)

(** What was expected, and why a text is refused. *)
Inductive Want := WToken (t : bytes) | WIdent | WString | WUnit | WDuration | WLabelOp | WMetric.
Inductive Reason :=
| Expected (w : Want) (left : nat)
| UnterminatedString | UnterminatedEscape | UnterminatedRaw
| InvalidUtf8 | TruncatedHex | InvalidHex | NotScalar | NumberTooLarge
| OutOfFuel.

Definition Parser (A : Type) : Type := bytes -> result Reason (A * bytes).
#[export] Instance parser_ret : MRet Parser := fun A a l => Ok (a, l).
#[export] Instance parser_bind : MBind Parser := fun A B f p l =>
  match p l with Ok (a, r) => f a r | Err e => Err e end.
Definition refuse {A} (e : Reason) : Parser A := fun _ => Err e.
Definition expected {A} (w : Want) : Parser A := fun l => Err (Expected w (length l)).
Definition peek : Parser (option byte) := fun l => Ok (head l, l).
Definition left_over : Parser nat := fun l => Ok (length l, l).

(** [u8::is_ascii_whitespace]. *)
Definition is_ws (b : byte) : bool := existsb (Byte.eqb b) [x20; x09; x0a; x0c; x0d].
Fixpoint drop_ws (l : bytes) : bytes :=
  match l with b :: r => if is_ws b then drop_ws r else l | [] => [] end.
Definition skip_ws : Parser unit := fun l => Ok (tt, drop_ws l).
Definition eat (token : bytes) : Parser bool := fun l =>
  let l := drop_ws l in
  match strip_prefix token l with Some r => Ok (true, r) | None => Ok (false, l) end.
Definition expect (token : bytes) : Parser unit := b ← eat token; if (b : bool) then mret tt else expected (WToken token).

Fixpoint span (p : byte -> bool) (l : bytes) : bytes * bytes :=
  match l with
  | b :: r => if p b then let '(x, y) := span p r in (b :: x, y) else ([], l)
  | [] => ([], [])
  end.
Definition is_alnum (b : byte) : bool :=
  in_rng (bz b) 0x30 0x39 || in_rng (bz b) 0x41 0x5A || in_rng (bz b) 0x61 0x7A.
Definition is_digit (b : byte) : bool := in_rng (bz b) 0x30 0x39.
Definition is_ident (b : byte) : bool := is_alnum b || Byte.eqb b x5f.
Definition ident : Parser bytes := fun l =>
  match span is_ident (drop_ws l) with
  | ([], r) => Err (Expected WIdent (length r))
  | (x, r) => Ok (utf8_lossy x, r)
  end.

(** ** Strings *)

Definition hex_digit (b : byte) : option Z :=
  if in_rng (bz b) 0x30 0x39 then Some (bz b - 0x30)
  else if in_rng (bz b) 0x41 0x46 then Some (bz b - 0x37)
  else if in_rng (bz b) 0x61 0x66 then Some (bz b - 0x57) else None.
Fixpoint hex_value (l : bytes) (acc : Z) : option Z :=
  match l with
  | [] => Some acc
  | b :: l => d ← hex_digit b; hex_value l (16 * acc + d)
  end.
(** [u32::from_str_radix] in base 16: one optional [+]. *)
Definition from_hex (l : bytes) : option Z :=
  let l := match l with x2b :: (_ :: _) as r => tail l | _ => l end in
  match l with [] => None | _ => z ← hex_value l 0; if z <=? U32_MAX then Some z else None end.
(** [char::from_u32], and the bytes of a [char]. *)
Definition is_scalar_value (z : Z) : bool := in_rng z 0 0xD7FF || in_rng z 0xE000 0x10FFFF.
Definition utf8_encode (z : Z) : bytes :=
  b8 <$> (if z <? 0x80 then [z]
          else if z <? 0x800 then [0xC0 + z / 64; 0x80 + z mod 64]
          else if z <? 0x10000 then [0xE0 + z / 4096; 0x80 + z / 64 mod 64; 0x80 + z mod 64]
          else [0xF0 + z / 262144; 0x80 + z / 4096 mod 64; 0x80 + z / 64 mod 64; 0x80 + z mod 64]).
Definition hex_escape (digits : nat) : Parser bytes := fun l =>
  if (length l <? digits)%nat then Err TruncatedHex
  else
    let text := take digits l in
    if negb (utf8_valid text) then Err InvalidHex
    else
      match from_hex text with
      | None => Err InvalidHex
      | Some code => if is_scalar_value code then Ok (utf8_encode code, drop digits l) else Err NotScalar
      end.
(** One [char], of a text that is checked whole. *)
Definition next_char : Parser bytes := fun l =>
  if utf8_valid l then Ok (take (utf8_head l).1 l, drop (utf8_head l).1 l) else Err InvalidUtf8.

(** What follows a backslash. *)
Definition escape : Parser bytes := fun l =>
  match l with
  | [] => Err UnterminatedEscape
  | x6e :: r => Ok ([x0a], r)
  | x74 :: r => Ok ([x09], r)
  | x72 :: r => Ok ([x0d], r)
  | x78 :: r => hex_escape 2 r
  | x75 :: r => hex_escape 4 r
  | x55 :: r => hex_escape 8 r
  | _ => next_char l
  end.
Fixpoint string_body (fuel : nat) (out : bytes) : Parser bytes := fun l =>
  match fuel with
  | O => Err OutOfFuel
  | S fuel =>
      match l with
      | [] => Err UnterminatedString
      | x22 :: r => Ok (out, r)
      | x5c :: r => (c ← escape; string_body fuel (out ++ c)) r
      | _ => (c ← next_char; string_body fuel (out ++ c)) l
      end
  end.
Definition string_lit : Parser bytes := fun l =>
  match drop_ws l with
  | x22 :: r => string_body (S (length r)) [] r
  | x60 :: r =>
      match span (fun b => negb (Byte.eqb b x60)) r with
      | (_, []) => Err UnterminatedRaw
      | (x, _ :: r) => Ok (utf8_lossy x, r)
      end
  | l => Err (Expected WString (length l))
  end.

(** ** Durations *)

Definition units : list (string * Z) :=
  [("ms", 1); ("s", 1000); ("m", 60000); ("h", 3600000); ("d", 86400000); ("w", 604800000)]%string.
Fixpoint unit_millis (us : list (string * Z)) : Parser Z :=
  match us with
  | [] => expected WUnit
  | (u, ms) :: us => b ← eat (str u); if (b : bool) then mret ms else unit_millis us
  end.
Fixpoint components (fuel : nat) (total : Z) (any : bool) : Parser (Z * bool) := fun l =>
  match fuel with
  | O => Err OutOfFuel
  | S fuel =>
      match span is_digit l with
      | ([], _) => Ok ((total, any), l)
      | (ds, r) =>
          match parse_i64 ds with
          | None => Err NumberTooLarge
          | Some n => (ms ← unit_millis units; components fuel (sat_i64 (total + sat_i64 (n * ms))) true) r
          end
      end
  end.
Definition duration_millis : Parser Z := fun l =>
  let l := drop_ws l in
  (t ← components (S (length l)) 0 false; if (t : Z * bool).2 then mret t.1 else expected WDuration) l.

(** ** Selectors and queries *)

(** One of some tokens, in order. *)
Fixpoint one_of {A} (ts : list (string * A)) : Parser (option A) :=
  match ts with
  | [] => mret None
  | (t, a) :: ts => b ← eat (str t); if (b : bool) then mret (Some a) else one_of ts
  end.
Definition label_ops : list (string * MatchOp) := [("=~", MRe); ("!~", MNotRe); ("!=", MNeq); ("=", MEq)]%string.
Definition filter_ops : list (string * FilterOp) :=
  [("|=", Contains); ("!=", NotContains); ("|~", Regex); ("!~", NotRegex)]%string.

Definition matcher : Parser LabelMatcher :=
  label ← ident;
  skip_ws;;
  op ← one_of label_ops;
  match op with
  | Some op => value ← string_lit; mret (mkMatcher label op value)
  | None => expected WLabelOp
  end.
(** Items separated by commas, at least one. *)
Fixpoint comma_separated {A} (fuel : nat) (item : Parser A) : Parser (list A) :=
  match fuel with
  | O => refuse OutOfFuel
  | S fuel =>
      x ← item;
      more ← eat (str ",");
      if (more : bool) then xs ← comma_separated fuel item; mret (x :: xs) else mret [x]
  end.
Fixpoint line_filters (fuel : nat) : Parser (list LineFilter) :=
  match fuel with
  | O => refuse OutOfFuel
  | S fuel =>
      skip_ws;;
      op ← one_of filter_ops;
      match op with
      | Some op => text ← string_lit; fs ← line_filters fuel; mret (mkFilter op text :: fs)
      | None => mret []
      end
  end.
Definition selector_with_filters : Parser LogSelector :=
  expect (str "{");;
  skip_ws;;
  next ← peek;
  n ← left_over;
  ms ← (if decide (next = Some x7d) then mret [] else comma_separated (S n) matcher);
  expect (str "}");;
  n ← left_over;
  fs ← line_filters (S n);
  mret (mkSelector ms fs).

Definition range_fn : Parser MetricQuery :=
  skip_ws;;
  op ← one_of [("count_over_time", CountOverTime); ("rate", Rate)]%string;
  match op with
  | None => expected WMetric
  | Some op =>
      expect (str "(");;
      selector ← selector_with_filters;
      expect (str "[");;
      range ← duration_millis;
      expect (str "]");;
      expect (str ")");;
      mret (mkMetric selector range op [] false)
  end.
Definition looking_at_range_fn : Parser bool := fun l =>
  Ok (starts_with l (str "count_over_time") || starts_with l (str "rate"), l).

Definition query : Parser LogQlQuery :=
  skip_ws;;
  is_sum ← eat (str "sum");
  if (is_sum : bool) then
    by_ ← eat (str "by");
    labels ← (if (by_ : bool) then
                expect (str "(");;
                n ← left_over;
                ls ← comma_separated (S n) ident;
                expect (str ")");;
                mret ls
              else mret []);
    expect (str "(");;
    m ← range_fn;
    expect (str ")");;
    mret (Metric (mkMetric (mq_selector m) (range_millis m) (mq_op m) labels true))
  else
    ranged ← looking_at_range_fn;
    if (ranged : bool) then m ← range_fn; mret (Metric m)
    else s ← selector_with_filters; mret (Log s).

(** The message about trailing input slices the text there. *)
Inductive Parsed := Query (q : LogQlQuery) | Refused (e : Reason) | Trailing (at_ : nat) | Panics.
Definition parse (input : bytes) : Parsed :=
  match query input with
  | Err e => Refused e
  | Ok (q, r) =>
      let r := drop_ws r in
      let pos := (length input - length r)%nat in
      if decide (r = []) then Query q
      else if is_char_boundary input pos then Trailing pos else Panics
  end.

(** ** Parsing ends, on a character boundary *)

(** On texts shorter than [n]: what is left is an end of the text, cut between
    characters, and the fuel is enough. *)
Definition good {A} (n : nat) (p : Parser A) : Prop := forall l, (length l < n)%nat ->
  match p l with
  | Ok (_, r) => (exists x, l = x ++ r) /\ (text l -> text r)
  | Err e => e <> OutOfFuel
  end.
Lemma bind_ok {A B} (p : Parser A) (f : A -> Parser B) l a r : p l = Ok (a, r) -> (p ≫= f) l = f a r.
Proof. intros E. unfold mbind, parser_bind. by rewrite E. Qed.
Lemma good_ret {A} n (a : A) : good n (mret a).
Proof. intros l _. split; [by exists []|done]. Qed.
Lemma good_refuse {A} n e : e <> OutOfFuel -> good n (@refuse A e).
Proof. by intros ? l _. Qed.
Lemma good_expected {A} n w : good n (@expected A w).
Proof. by intros l _. Qed.
Lemma good_bind {A B} n (p : Parser A) (f : A -> Parser B) : good n p -> (forall a, good n (f a)) -> good n (p ≫= f).
Proof.
  intros Hp Hf l Hl. specialize (Hp l Hl). unfold mbind, parser_bind. destruct (p l) as [[a r]|e]; [|done].
  destruct Hp as [[x ->] Hx]. rewrite length_app in Hl. specialize (Hf a r ltac:(lia)). destruct (f a r) as [[b r']|e]; [|done].
  destruct Hf as [[y ->] Hy]. split; [exists (x ++ y); by rewrite <- app_assoc|auto].
Qed.
Lemma good_left_over {B} n (f : nat -> Parser B) : (forall m, good (S m) (f m)) -> good n (left_over ≫= f).
Proof. intros Hf l _. unfold mbind, parser_bind, left_over. apply (Hf (length l) l). lia. Qed.
Lemma good_peek n : good n peek.
Proof. intros l _. split; [by exists []|done]. Qed.

Lemma ws_ascii b : is_ws b = true -> ascii_byte b.
Proof.
  unfold is_ws. intros (c & Hc & Hb)%existsb_exists. apply Byte.byte_dec_bl in Hb as <-. unfold ascii_byte. cbn in Hc.
  repeat destruct Hc as [<-|Hc]; try (vm_compute; discriminate). done.
Qed.
Lemma good_skip_ws n : good n skip_ws.
Proof.
  intros l _. cbn. induction l as [|b l IH]; [split; [by exists []|done]|]. cbn [drop_ws]. destruct (is_ws b) eqn:E; [|split; [by exists []|done]].
  destruct IH as [[x Hx] Ht]. split; [exists (b :: x); by rewrite Hx at 1|]. intros H. apply Ht. eapply text_ascii_tail; [by apply ws_ascii|exact H].
Qed.
Lemma drop_ws_end l : (exists x, l = x ++ drop_ws l) /\ (text l -> text (drop_ws l)).
Proof. exact (good_skip_ws (S (length l)) l ltac:(lia)). Qed.

Definition ascii_text (t : bytes) : Prop := Forall ascii_byte t.
Lemma text_after t r : ascii_text t -> text (t ++ r) -> text r.
Proof. induction 1 as [|b t Hb Ht IH]; [done|]. intros H. apply IH. eapply text_ascii_tail; [exact Hb|exact H]. Qed.
Lemma eat_end t l b r : ascii_text t -> eat t l = Ok (b, r) ->
  (exists x, l = x ++ r /\ ((b : bool) = true -> length t <= length x)%nat) /\ (text l -> text r).
Proof.
  intros Ht. unfold eat. destruct (drop_ws_end l) as [[x Hx] Hl]. destruct (strip_prefix t (drop_ws l)) as [r'|] eqn:E; intros [= <- <-].
  - apply strip_prefix_Some in E. rewrite E in Hx, Hl. split.
    + exists (x ++ t). split; [by rewrite <- app_assoc|]. intros _. rewrite length_app. lia.
    + intros H. eapply text_after; [exact Ht|auto].
  - split; [by exists x|done].
Qed.
Lemma good_eat n t : ascii_text t -> good n (eat t).
Proof.
  intros Ht l _. destruct (eat t l) as [[b r]|e] eqn:E; [|unfold eat in E; by destruct (strip_prefix _ _)].
  destruct (eat_end t l b r Ht E) as [(x & Hx & _) H]. split; [by exists x|done].
Qed.
(** Tokens are written in ASCII. *)
Ltac ascii := repeat constructor; vm_compute; discriminate.
Lemma good_expect n t : ascii_text t -> good n (expect t).
Proof. intros Ht. apply good_bind; [by apply good_eat|]. intros []; [apply good_ret|apply good_expected]. Qed.
#[export] Hint Resolve good_ret good_expected good_skip_ws good_peek good_eat good_expect : logql.

Lemma span_app p l : (span p l).1 ++ (span p l).2 = l /\ Forall (fun b => p b = true) (span p l).1 /\
  (forall b r, (span p l).2 = b :: r -> p b = false).
Proof.
  induction l as [|b l (IH1 & IH2 & IH3)]; [by split_and!|]. cbn [span]. destruct (p b) eqn:E.
  - destruct (span p l) as [x y]. cbn in *. split_and!; [by rewrite IH1|by constructor|done].
  - split_and!; [done|constructor|by intros ? ? [= <- _]].
Qed.
Lemma rng_ascii z lo hi : in_rng z lo hi = true -> hi <= 0x7F -> z <= 0x7F.
Proof. unfold in_rng. intros [? ?%Z.leb_le]%andb_true_iff ?. lia. Qed.
Lemma ident_ascii b : is_ident b = true -> ascii_byte b.
Proof.
  unfold is_ident, is_alnum. intros [[[H|H]%orb_true_iff|H]%orb_true_iff|H]%orb_true_iff; try (by eapply rng_ascii; [exact H|]).
  apply Byte.byte_dec_bl in H as ->. done.
Qed.
Lemma good_ident n : good n ident.
Proof.
  intros l _. unfold ident. destruct (drop_ws_end l) as [[x Hx] Hl]. destruct (span_app is_ident (drop_ws l)) as (E & Hs & _).
  destruct (span is_ident (drop_ws l)) as [[|b y] r]; [done|]. cbn [fst snd] in *. rewrite <- E in Hx, Hl. split.
  - exists (x ++ b :: y). by rewrite <- app_assoc.
  - intros H. eapply text_after; [|by apply Hl]. eapply Forall_impl; [exact Hs|]. apply ident_ascii.
Qed.

Lemma good_next_char n : good n next_char.
Proof.
  intros l _. unfold next_char. destruct (utf8_valid l) eqn:E; [|done]. split; [eexists; symmetry; apply take_drop|]. intros H.
  inversion H as [|c l' Hc Hl' Ec]; [by constructor|]. rewrite utf8_head_app by done. cbn [fst]. by rewrite drop_app_length.
Qed.
(** The digits of an escape are ASCII. *)
Lemma hex_digit_ascii b d : hex_digit b = Some d -> ascii_byte b.
Proof. unfold hex_digit. intros H. repeat (case_match; [by eapply rng_ascii|]). done. Qed.
Lemma hex_value_ascii l acc z : hex_value l acc = Some z -> ascii_text l.
Proof.
  revert acc; induction l as [|b l IH]; intros acc; [by constructor|]. cbn. destruct (hex_digit b) as [d|] eqn:E; [|done]. cbn.
  intros H. constructor; [by eapply hex_digit_ascii|by eapply IH].
Qed.
Lemma from_hex_ascii l z : from_hex l = Some z -> ascii_text l.
Proof.
  unfold from_hex. assert (forall m, (match m with [] => None | _ => z ← hex_value m 0; if z <=? U32_MAX then Some z else None end) = Some z -> ascii_text m) as H.
  { intros [|b m]; [done|]. destruct (hex_value (b :: m) 0) as [v|] eqn:E; [|done]. intros _. by eapply hex_value_ascii. }
  destruct l as [|b [|c l]]; [done|intros E; apply (H [b]); by destruct b|]. intros E.
  destruct (decide (b = x2b)) as [->|Hb]; [constructor; [done|by apply H]|]. apply H. by destruct b.
Qed.
Lemma good_hex n d : good n (hex_escape d).
Proof.
  intros l _. unfold hex_escape. destruct (_ <? _)%nat; [done|]. destruct (negb _); [done|]. destruct (from_hex (take d l)) as [c|] eqn:E; [|done].
  destruct (is_scalar_value c); [|done]. split; [eexists; symmetry; apply take_drop|]. intros H. apply (text_after (take d l)); [by eapply from_hex_ascii|].
  by rewrite take_drop.
Qed.
Lemma good_cons {A} n (p : Parser A) b l : good n p -> ascii_byte b -> (length (b :: l) < n)%nat ->
  match p l with Ok (_, r) => (exists x, b :: l = x ++ r) /\ (text (b :: l) -> text r) | Err e => e <> OutOfFuel end.
Proof.
  intros Hp Hb Hl. cbn in Hl. specialize (Hp l ltac:(lia)). destruct (p l) as [[a r]|e]; [|done]. destruct Hp as [[x ->] Ht].
  split; [by exists (b :: x)|]. intros H. apply Ht. by eapply text_ascii_tail.
Qed.
Lemma good_escape n : good n escape.
Proof.
  intros [|b l] Hl; [done|]. pose proof (good_next_char n (b :: l) Hl) as Hc.
  destruct b; try exact Hc; cbn [escape];
    first [by apply (good_cons n (hex_escape _) _ l (good_hex n _))|
           match goal with |- (exists x, ?b :: ?l = x ++ ?l) /\ _ => split; [by exists [b]|by apply text_ascii_tail] end].
Qed.
Lemma next_char_app c r : scalar c -> text r -> next_char (c ++ r) = Ok (c, r).
Proof.
  intros Hc Hr. unfold next_char. rewrite (proj2 (utf8_text _)) by by constructor. rewrite utf8_head_app by done. cbn [fst].
  by rewrite take_app_length, drop_app_length.
Qed.
Lemma next_char_shorter b l c r : next_char (b :: l) = Ok (c, r) -> (length r < length (b :: l))%nat.
Proof.
  intros H. assert (text (b :: l)) as Ht by (apply utf8_text; unfold next_char in H; by destruct (utf8_valid _)).
  inversion Ht as [|c' l' Hc Hl' Ec]. rewrite <- Ec, next_char_app in H by done. injection H as -> ->. rewrite length_app.
  destruct c; [by destruct Hc|]. cbn. lia.
Qed.
(** A step that reads something, then one that has less to read. *)
Lemma good_shorter {A B} n (p : Parser A) (f : A -> Parser B) l :
  good n p -> (forall a, good (pred n) (f a)) -> (length l < n)%nat -> (forall a r, p l = Ok (a, r) -> (length r < length l)%nat) ->
  match (p ≫= f) l with Ok (_, r) => (exists x, l = x ++ r) /\ (text l -> text r) | Err e => e <> OutOfFuel end.
Proof.
  intros Hp Hf Hl Hs. specialize (Hp l Hl). unfold mbind, parser_bind. destruct (p l) as [[a r]|e]; [|done].
  specialize (Hs a r eq_refl). destruct Hp as [[x ->] Hx]. specialize (Hf a r ltac:(lia)). destruct (f a r) as [[b r']|e]; [|done].
  destruct Hf as [[y ->] Hy]. split; [exists (x ++ y); by rewrite <- app_assoc|auto].
Qed.
Lemma good_less {A} n m (p : Parser A) : good n p -> (m <= n)%nat -> good m p.
Proof. intros Hp Hm l Hl. apply Hp. lia. Qed.
Lemma good_string_body f n out : (n <= f)%nat -> good n (string_body f out).
Proof.
  revert n out; induction f as [|f IH]; intros n out Hn l Hl; [lia|]. destruct l as [|b l]; [done|].
  assert (forall c, good (pred n) (string_body f (out ++ c))) as Hf by (intros c; apply IH; lia).
  assert (good (pred n) (c ← escape; string_body f (out ++ c))) as He.
  { apply good_bind; [apply good_escape|exact Hf]. }
  pose proof (good_shorter n next_char _ (b :: l) (good_next_char n) Hf Hl (next_char_shorter b l)) as Hc.
  destruct b; try exact Hc; cbn [string_body].
  - split; [by exists [x22]|by apply text_ascii_tail].
  - cbn in Hl. specialize (He l ltac:(lia)). destruct ((c ← escape; string_body f (out ++ c)) l) as [[a r]|e]; [|done].
    destruct He as [[x ->] Ht]. split; [by exists (x5c :: x)|]. intros H. apply Ht. by apply (text_ascii_tail x5c).
Qed.
Lemma text_before_ascii x b r : ascii_byte b -> text (x ++ b :: r) -> text x /\ text r.
Proof.
  intros Hb H. remember (x ++ b :: r) as l eqn:E. revert x E. induction H as [|c l Hc Hl IH]; intros x E; [by destruct x|].
  destruct (scalar_wide c Hc) as [(a & -> & Ha)|Hw].
  - destruct x as [|a' x]; simplify_eq/=; [by split; [constructor|]|]. destruct (IH x eq_refl) as [Hx Hr].
    split; [by apply (text_cons [a'])|done].
  - assert (exists x', x = c ++ x') as [x' ->].
    { apply app_eq_inv in E as [(k & -> & E)|(k & E & E')]; [|by exists k]. destruct k as [|k0 k]; [exists []; by rewrite !app_nil_r|].
      exfalso. injection E as -> _. apply Forall_app in Hw as [_ Hw]. inversion Hw. unfold ascii_byte in Hb. lia. }
    rewrite <- app_assoc in E. apply app_inv_head in E. destruct (IH x' E) as [Hx Hr]. split; [by constructor|done].
Qed.
Lemma good_string n : good n string_lit.
Proof.
  intros l _. unfold string_lit. destruct (drop_ws_end l) as [[x Hx] Hl]. set (d := drop_ws l) in *. destruct d as [|b r]; [done|].
  pose proof (good_string_body (S (length r)) (S (length r)) [] ltac:(lia) r ltac:(lia)) as Hs.
  pose proof (span_app (fun b => negb (Byte.eqb b x60)) r) as Hsp.
  destruct b; try done.
  - destruct (string_body _ _ r) as [[a r']|e]; [|done]. destruct Hs as [[y ->] Ht]. split.
    + exists (x ++ x22 :: y). rewrite Hx at 1. by rewrite <- app_assoc.
    + intros H. apply Ht. by apply (text_ascii_tail x22); [|apply Hl].
  - destruct (span _ r) as [y [|c r']]; [done|]. destruct Hsp as (E & _ & Hstop). cbn [fst snd] in *.
    specialize (Hstop c r' eq_refl). apply negb_false_iff, Byte.byte_dec_bl in Hstop as ->. split.
    + exists (x ++ x60 :: y ++ [x60]). rewrite Hx at 1. rewrite <- E. by rewrite <- !app_assoc; cbn; rewrite <- app_assoc.
    + intros H. assert (text r) as Hr by (apply (text_ascii_tail x60); [done|by apply Hl]). rewrite <- E in Hr.
      by apply (text_before_ascii y x60 r').
Qed.
#[export] Hint Resolve good_ident good_string : logql.

(** Reading a token leaves less. *)
Lemma good_eat_bind {B} n t (f : bool -> Parser B) : ascii_text t -> t <> [] ->
  good n (f false) -> good (pred n) (f true) -> good n (b ← eat t; f b).
Proof.
  intros Ht Hne Hf Ht' l Hl. unfold mbind, parser_bind. destruct (eat t l) as [[b r]|e] eqn:E; [|unfold eat in E; by destruct (strip_prefix _ _)].
  destruct (eat_end t l b r Ht E) as [(x & -> & Hx) H]. rewrite length_app in Hl.
  assert (match f b r with Ok (_, r') => (exists y, r = y ++ r') /\ (text r -> text r') | Err e => e <> OutOfFuel end) as Hb.
  { destruct b; [apply Ht'|apply Hf; lia]. specialize (Hx eq_refl). destruct t; [done|]. cbn in Hx. lia. }
  destruct (f b r) as [[a r']|e]; [|done]. destruct Hb as [[y ->] Hy]. split; [exists (x ++ y); by rewrite <- app_assoc|auto].
Qed.
Lemma bind_assoc {A B C} (p : Parser A) (f : A -> Parser B) (g : B -> Parser C) l :
  ((a ← p; f a) ≫= g) l = (a ← p; f a ≫= g) l.
Proof. unfold mbind, parser_bind. by destruct (p l) as [[a r]|e]. Qed.
Definition tokens_ok {A} (ts : list (string * A)) : Prop := Forall (fun t => ascii_text (str t.1) /\ str t.1 <> []) ts.
Lemma good_one_of {A B} n (ts : list (string * A)) (f : option A -> Parser B) : tokens_ok ts ->
  good n (f None) -> (forall a, good (pred n) (f (Some a))) -> good n (o ← one_of ts; f o).
Proof.
  intros H Hn Hs. induction H as [|[t a] ts [Ht Hne] H IH]; [exact Hn|]. cbn [one_of].
  pose proof (good_eat_bind n (str t) (fun b : bool => (if b then mret (Some a) else one_of ts) ≫= f) Ht Hne IH (Hs a)) as Hg.
  intros l Hl. rewrite bind_assoc. apply (Hg l Hl).
Qed.
Ltac tokens := repeat constructor; vm_compute; discriminate.
Lemma filter_ops_ok : tokens_ok filter_ops. Proof. tokens. Qed.
Lemma label_ops_ok : tokens_ok label_ops. Proof. tokens. Qed.

Lemma good_matcher n : good n matcher.
Proof.
  apply good_bind; [auto with logql|]. intros label. apply good_bind; [auto with logql|]. intros _.
  apply good_one_of; [apply label_ops_ok|auto with logql|]. intros op. apply good_bind; auto with logql.
Qed.
Lemma good_comma {A} n f (item : Parser A) : (forall m, good m item) -> (n <= f)%nat -> good n (comma_separated f item).
Proof.
  intros Hi. revert n; induction f as [|f IH]; intros n Hn; [intros l Hl; lia|]. cbn [comma_separated].
  apply good_bind; [apply Hi|]. intros x. apply good_eat_bind; [ascii|done|apply good_ret|].
  apply good_bind; [apply IH; lia|]. intros xs. apply good_ret.
Qed.
Lemma good_filters n f : (n <= f)%nat -> good n (line_filters f).
Proof.
  revert n; induction f as [|f IH]; intros n Hn; [intros l Hl; lia|]. cbn [line_filters].
  apply good_bind; [auto with logql|]. intros _. apply good_one_of; [apply filter_ops_ok|apply good_ret|]. intros op.
  apply good_bind; [auto with logql|]. intros t. apply good_bind; [apply IH; lia|]. intros fs. apply good_ret.
Qed.
#[export] Hint Resolve good_matcher : logql.
Lemma good_units n us : Forall (fun u => ascii_text (str u.1)) us -> good n (unit_millis us).
Proof.
  induction 1 as [|[u ms] us Hu _ IH]; [apply good_expected|]. cbn [unit_millis].
  apply good_bind; [by apply good_eat|]. intros []; [apply good_ret|exact IH].
Qed.
Lemma good_components n f total any : (n <= f)%nat -> good n (components f total any).
Proof.
  revert n total any; induction f as [|f IH]; intros n total any Hn l Hl; [lia|]. cbn [components].
  destruct (span_app is_digit l) as (E & Hd & _). destruct (span is_digit l) as [[|d ds] r]; [by split; [exists []|]|].
  destruct (parse_i64 (d :: ds)) as [z|]; [|done]. cbn [fst snd] in *. subst l. cbn in Hl. rewrite length_app in Hl.
  assert (good (pred n) (ms ← unit_millis units; components f (sat_i64 (total + sat_i64 (z * ms))) true)) as Hg.
  { apply good_bind; [apply good_units; tokens|]. intros ms. apply IH. lia. }
  specialize (Hg r ltac:(lia)). set (p := (ms ← _; _) : Parser _) in *. destruct (p r) as [[a r']|e]; [|done]. destruct Hg as [[x ->] Ht]. split.
  - exists ((d :: ds) ++ x). by rewrite <- app_assoc.
  - intros H. apply Ht. eapply (text_after (d :: ds)); [|exact H]. eapply Forall_impl; [exact Hd|]. intros b Hb. by eapply rng_ascii; [exact Hb|].
Qed.
Lemma good_duration n : good n duration_millis.
Proof.
  intros l _. unfold duration_millis. destruct (drop_ws_end l) as [[x Hx] Hl].
  assert (good (S (length (drop_ws l))) (t ← components (S (length (drop_ws l))) 0 false; if (t : Z * bool).2 then mret t.1 else expected WDuration)) as Hg.
  { apply good_bind; [by apply good_components|]. intros [t []]; [apply good_ret|apply good_expected]. }
  specialize (Hg (drop_ws l) ltac:(lia)). set (p := (t ← _; _) : Parser _) in *. destruct (p (drop_ws l)) as [[a r']|e]; [|done].
  destruct Hg as [[y Hy] Ht]. rewrite Hy in Hx. split; [exists (x ++ y); by rewrite <- app_assoc|auto].
Qed.
#[export] Hint Resolve good_duration : logql.
Lemma good_selector n : good n selector_with_filters.
Proof.
  apply good_bind; [apply good_expect; ascii|]. intros _. apply good_bind; [auto with logql|]. intros _.
  apply good_bind; [auto with logql|]. intros next. apply good_left_over. intros m. apply good_bind.
  { case_decide; [apply good_ret|apply good_comma; [auto with logql|done]]. }
  intros ms. apply good_bind; [apply good_expect; ascii|]. intros _. apply good_left_over. intros k.
  apply good_bind; [by apply good_filters|]. intros fs. apply good_ret.
Qed.
#[export] Hint Resolve good_selector : logql.
Lemma good_range_fn n : good n range_fn.
Proof.
  apply good_bind; [auto with logql|]. intros _. apply good_one_of; [tokens|apply good_expected|]. intros op.
  repeat (apply good_bind; [solve [auto with logql|apply good_expect; ascii]|intros ?]). apply good_ret.
Qed.
#[export] Hint Resolve good_range_fn : logql.
Lemma good_query n : good n query.
Proof.
  apply good_bind; [auto with logql|]. intros _. apply good_bind; [apply good_eat; ascii|]. intros [].
  - apply good_bind; [apply good_eat; ascii|]. intros by_. apply good_bind.
    { destruct by_; [|apply good_ret]. apply good_bind; [apply good_expect; ascii|]. intros _. apply good_left_over. intros m.
      apply good_bind; [apply good_comma; [auto with logql|done]|]. intros ls. apply good_bind; [apply good_expect; ascii|]. intros _. apply good_ret. }
    intros labels. repeat (apply good_bind; [solve [auto with logql|apply good_expect; ascii]|intros ?]). apply good_ret.
  - apply good_bind; [by intros l _; split; [exists []|]|]. intros []; (apply good_bind; [auto with logql|]); intros ?; apply good_ret.
Qed.

(** ** Printing, and reading back *)

Lemma drop_ws_all w r : Forall (fun b => is_ws b = true) w -> drop_ws (w ++ r) = drop_ws r.
Proof. induction 1 as [|b l Hb Hl IH]; [done|]. cbn [drop_ws app]. by rewrite Hb. Qed.

(** A query as it is written, with [w] before every token. *)
Section print.
Context (w : bytes) (Hw : Forall (fun b => is_ws b = true) w).

Definition quote_byte (b : byte) : bytes := if decide (b = x22 \/ b = x5c) then [x5c; b] else [b].
Definition quote (s : bytes) : bytes := w ++ [x22] ++ (s ≫= quote_byte) ++ [x22].
Definition op_text {A} `{EqDecision A} (ts : list (string * A)) (op : A) : bytes :=
  w ++ from_option (fun t : string * A => str t.1) [] (head (filter (fun t => t.2 = op) ts)).
Definition tok (t : string) : bytes := w ++ str t.
Definition print_label (l : bytes) : bytes := w ++ l.
Definition print_matcher (m : LabelMatcher) : bytes :=
  print_label (lm_label m) ++ op_text label_ops (lm_op m) ++ quote (lm_value m).
#[local] Instance FilterOp_eq_dec : EqDecision FilterOp.
Proof. solve_decision. Defined.
Definition print_filter (f : LineFilter) : bytes := op_text filter_ops (lf_op f) ++ quote (lf_text f).
Fixpoint print_list {A} (pr : A -> bytes) (xs : list A) : bytes :=
  match xs with [] => [] | [x] => pr x | x :: xs => pr x ++ tok "," ++ print_list pr xs end.
Definition print_selector (s : LogSelector) : bytes :=
  tok "{" ++ print_list print_matcher (matchers s) ++ tok "}" ++ (filters s ≫= print_filter).
Definition op_name (op : MetricOp) : string := match op with CountOverTime => "count_over_time" | Rate => "rate" end.
Definition print_range_fn (m : MetricQuery) : bytes :=
  tok (op_name (mq_op m)) ++ tok "(" ++ print_selector (mq_selector m) ++ tok "[" ++ (w ++ dec (range_millis m) ++ tok "ms")
  ++ tok "]" ++ tok ")".
Definition print_by (ls : list bytes) : bytes :=
  match ls with [] => [] | _ => tok "by" ++ tok "(" ++ print_list print_label ls ++ tok ")" end.
Definition print (q : LogQlQuery) : bytes :=
  match q with
  | Log s => print_selector s
  | Metric m => if summed m then tok "sum" ++ print_by (group_by m) ++ tok "(" ++ print_range_fn m ++ tok ")" else print_range_fn m
  end ++ w.

(** The queries there are: names that are labels, texts that are texts, a range of an [i64]. *)
Definition label_ok (l : bytes) : Prop := l <> [] /\ Forall (fun b => is_ident b = true) l.
Definition selector_ok (s : LogSelector) : Prop :=
  Forall (fun m => label_ok (lm_label m) /\ text (lm_value m)) (matchers s) /\ Forall (fun f => text (lf_text f)) (filters s).
Definition query_ok (q : LogQlQuery) : Prop :=
  match q with
  | Log s => selector_ok s
  | Metric m => selector_ok (mq_selector m) /\ 0 <= range_millis m <= I64_MAX /\ Forall label_ok (group_by m) /\ (summed m = false -> group_by m = [])
  end.

Lemma drop_ws_app r : drop_ws (w ++ r) = drop_ws r.
Proof. by apply drop_ws_all. Qed.
Lemma ws_text : ascii_text w.
Proof. eapply Forall_impl; [exact Hw|]. intros b. apply ws_ascii. Qed.
Definition begins (t : bytes) : Prop := exists b r, t = b :: r /\ is_ws b = false.
Lemma drop_ws_begins t r : begins t -> drop_ws (w ++ t ++ r) = t ++ r.
Proof. rewrite drop_ws_app. intros (b & x & -> & Hb). cbn [drop_ws app]. by rewrite Hb. Qed.
Lemma eat_tok t r : begins (str t) -> eat (str t) (tok t ++ r) = Ok (true, r).
Proof. intros Ht. unfold eat, tok. rewrite <- app_assoc, drop_ws_begins by done. by rewrite strip_prefix_app. Qed.
Lemma eat_other t u r : begins u -> strip_prefix t (u ++ r) = None -> eat t (w ++ u ++ r) = Ok (false, u ++ r).
Proof. intros Hu E. unfold eat. rewrite drop_ws_begins by done. by rewrite E. Qed.
Lemma expect_tok t r : begins (str t) -> expect (str t) (tok t ++ r) = Ok (tt, r).
Proof. intros Ht. unfold expect, mbind, parser_bind. by rewrite eat_tok. Qed.

Definition stops (r : bytes) : Prop := match r with b :: _ => is_ident b = false | [] => True end.
Lemma ws_stops r : stops r -> stops (w ++ r).
Proof.
  clear -Hw. destruct Hw as [|b l Hb Hl]; [done|]. intros _. cbn. unfold is_ws in Hb. apply existsb_exists in Hb as (c & Hc & Hb).
  apply Byte.byte_dec_bl in Hb as ->. cbn in Hc. by repeat destruct Hc as [<-|Hc].
Qed.
Lemma span_all p x r : Forall (fun b => p b = true) x -> match r with b :: _ => p b = false | [] => True end -> span p (x ++ r) = (x, r).
Proof.
  induction 1 as [|b x Hb _ IH]; intros Hr; [destruct r as [|b r]; [done|cbn; by rewrite Hr]|]. cbn. by rewrite Hb, IH.
Qed.
Lemma label_begins l : label_ok l -> begins l.
Proof.
  intros [Hne H]. destruct H as [|b l Hb _]; [done|]. exists b, l. split; [done|]. destruct (is_ws b) eqn:E; [|done]. exfalso.
  unfold is_ws in E. apply existsb_exists in E as (c & Hc & E). apply Byte.byte_dec_bl in E as ->. cbn in Hc. by repeat destruct Hc as [<-|Hc].
Qed.
Lemma label_text l : label_ok l -> ascii_text l.
Proof. intros [_ H]. eapply Forall_impl; [exact H|]. apply ident_ascii. Qed.
Lemma ident_print l r : label_ok l -> stops r -> ident (print_label l ++ r) = Ok (l, r).
Proof.
  intros Hl Hr. unfold ident, print_label. rewrite <- app_assoc, drop_ws_begins by by apply label_begins.
  destruct (Hl) as [Hne Hi]. rewrite span_all by done. destruct l as [|b l]; [done|].
  by rewrite utf8_lossy_valid by (apply utf8_text, text_ascii, label_text; done).
Qed.

Lemma quote_wide c : Forall (fun b => 0x7F < bz b) c -> c ≫= quote_byte = c.
Proof.
  induction 1 as [|b c Hb _ IH]; [done|]. rewrite bind_cons, IH. unfold quote_byte. rewrite decide_False; [done|]. by intros [->| ->].
Qed.
Lemma quote_plain b : b <> x22 -> b <> x5c -> quote_byte b = [b].
Proof. intros H1 H2. unfold quote_byte. rewrite decide_False; [done|]. by intros [?|?]. Qed.
Lemma string_body_plain b l f out : b <> x22 -> b <> x5c ->
  string_body (S f) out (b :: l) = (c ← next_char; string_body f (out ++ c)) (b :: l).
Proof. intros H1 H2. destruct b; done. Qed.
Lemma escape_quoted b l : b = x22 \/ b = x5c -> escape (b :: l) = next_char (b :: l).
Proof. by intros [->| ->]. Qed.
Lemma string_body_char c r f out : scalar c -> text r -> string_body (S f) out ((c ≫= quote_byte) ++ r) = string_body f (out ++ c) r.
Proof.
  intros Hc Hr. pose proof (next_char_app c r Hc Hr) as Hn.
  assert (forall b l, c = b :: l -> b <> x22 -> b <> x5c -> c ≫= quote_byte = c -> string_body (S f) out ((c ≫= quote_byte) ++ r) = string_body f (out ++ c) r) as Hplain.
  { intros b l E H1 H2 ->. rewrite E in *. cbn [app] in *. rewrite string_body_plain by done. unfold mbind, parser_bind. by rewrite Hn. }
  destruct (scalar_wide c Hc) as [(b & E & Hb)|Hwide].
  - destruct (decide (b = x22 \/ b = x5c)) as [Hq|Hq].
    + rewrite E in *. cbn [mbind list_bind]. unfold quote_byte. rewrite decide_True by done. cbn [app string_body].
      unfold mbind, parser_bind. rewrite escape_quoted by done. cbn [app] in Hn. by rewrite Hn.
    + apply (Hplain b []); [done|by intros ->; apply Hq; left|by intros ->; apply Hq; right|].
      rewrite E. cbn [mbind list_bind]. rewrite quote_plain, app_nil_r; [done|by intros ->; apply Hq; left|by intros ->; apply Hq; right].
  - destruct c as [|b l]; [by destruct Hc|]. pose proof (quote_wide _ Hwide) as Eq. apply Forall_cons in Hwide as [Hb _].
    by apply (Hplain b l); [|intros ->|intros ->|].
Qed.
Lemma quote_text s : text s -> text (s ≫= quote_byte).
Proof.
  induction 1 as [|c l Hc Hl IH]; [constructor|]. rewrite bind_app. apply text_app; [|done].
  destruct (scalar_wide c Hc) as [(b & -> & Hb)|Hwide].
  - cbn [mbind list_bind]. rewrite app_nil_r. unfold quote_byte. apply text_ascii. case_decide; repeat constructor; done.
  - rewrite quote_wide by done. rewrite <- (app_nil_r c). by constructor; [|constructor].
Qed.
Lemma string_body_quote s r f out : text s -> text r -> (length s < f)%nat ->
  string_body f out ((s ≫= quote_byte) ++ x22 :: r) = Ok (out ++ s, r).
Proof.
  intros Hs Hr. revert f out; induction Hs as [|c l Hc Hl IH]; intros f out Hf.
  - destruct f; [lia|]. cbn. by rewrite app_nil_r.
  - destruct f as [|f]; [lia|]. rewrite bind_app, <- app_assoc, string_body_char, IH, <- app_assoc; [done| |done|].
    + rewrite length_app in Hf. destruct c; [by destruct Hc|]. cbn in Hf. lia.
    + apply text_app; [by apply quote_text|]. by apply (text_cons [x22]); [apply scalar_ascii|].
Qed.
Lemma quote_length s : (length s <= length (s ≫= quote_byte))%nat.
Proof. induction s as [|b s IH]; [done|]. rewrite bind_cons, length_app. unfold quote_byte at 1. case_decide; cbn; lia. Qed.
Lemma string_print s r : text s -> text r -> string_lit (quote s ++ r) = Ok (s, r).
Proof.
  intros Hs Hr. unfold quote, string_lit. rewrite <- !app_assoc. rewrite (drop_ws_begins [x22]) by by exists x22, []. cbn [app].
  rewrite string_body_quote; [done..|]. rewrite length_app. pose proof (quote_length s). lia.
Qed.

(** The operators. *)
Lemma one_of_ws {A} (t : string * A) ts u q : begins u -> one_of (t :: ts) (w ++ u ++ q) = one_of (t :: ts) (u ++ q).
Proof.
  intros Hu. destruct t as [t a]. cbn [one_of]. unfold mbind, parser_bind, eat. rewrite drop_ws_begins by done.
  assert (drop_ws (u ++ q) = u ++ q) as ->; [|done]. destruct Hu as (b & x & -> & Hb). cbn [drop_ws app]. by rewrite Hb.
Qed.
Lemma label_op_print op q : strip_prefix [x7e] q = None -> one_of label_ops (op_text label_ops op ++ q) = Ok (Some op, q).
Proof.
  intros Hq. unfold op_text. rewrite <- app_assoc. unfold label_ops at 1. rewrite one_of_ws by (destruct op; by repeat econstructor).
  assert (eat (str "=~") (str "=" ++ q) = Ok (false, str "=" ++ q)) as E.
  { unfold eat. change (drop_ws (str "=" ++ q)) with (str "=" ++ q).
    change (strip_prefix (str "=~") (str "=" ++ q)) with (strip_prefix [x7e] q). by rewrite Hq. }
  destruct op; try done. unfold op_text. change (from_option _ _ _) with (str "="). cbn [one_of]. unfold mbind, parser_bind. by rewrite E.
Qed.
Lemma filter_op_print op q : one_of filter_ops (op_text filter_ops op ++ q) = Ok (Some op, q).
Proof.
  unfold op_text. rewrite <- app_assoc. unfold filter_ops at 1. rewrite one_of_ws by (destruct op; by repeat econstructor). by destruct op.
Qed.
Lemma drop_ws_twice l : drop_ws (drop_ws l) = drop_ws l.
Proof. induction l as [|b l IH]; [done|]. cbn [drop_ws]. destruct (is_ws b) eqn:E; [exact IH|]. cbn [drop_ws]. by rewrite E. Qed.
Lemma one_of_drop {A} (t : string * A) ts l : one_of (t :: ts) (drop_ws l) = one_of (t :: ts) l.
Proof.
  destruct t as [t a]. cbn [one_of]. unfold mbind, parser_bind, eat. by rewrite drop_ws_twice.
Qed.
Lemma no_tilde b l : b <> x7e -> strip_prefix [x7e] (b :: l) = None.
Proof. intros Hb. apply eq_None_not_Some. intros [r E]. apply strip_prefix_Some in E. by injection E. Qed.
Lemma quote_no_tilde s r : strip_prefix [x7e] (quote s ++ r) = None.
Proof.
  unfold quote. clear -Hw. destruct Hw as [|b l Hb Hl]; apply no_tilde; [done|]. by intros ->.
Qed.
Definition matcher_ok (m : LabelMatcher) : Prop := label_ok (lm_label m) /\ text (lm_value m).
Lemma op_stops q op : stops (op_text label_ops op ++ q).
Proof. unfold op_text. rewrite <- app_assoc. apply ws_stops. by destruct op. Qed.
(** One parser after another. *)
Ltac read tac := erewrite bind_ok by tac; cbv beta iota.
Lemma matcher_print m r : matcher_ok m -> text r -> matcher (print_matcher m ++ r) = Ok (m, r).
Proof.
  intros [Hl Hv] Hr. unfold print_matcher. rewrite <- !app_assoc. unfold matcher.
  read ltac:(apply ident_print; [done|apply op_stops]). read ltac:(done).
  read ltac:(unfold label_ops at 1; rewrite one_of_drop; apply label_op_print, quote_no_tilde).
  read ltac:(by apply string_print). by destruct m.
Qed.

Lemma tok_text t : ascii_text (str t) -> text (tok t).
Proof. intros Ht. apply text_ascii, Forall_app. split; [apply ws_text|done]. Qed.
Lemma op_text_label op : text (op_text label_ops op).
Proof. apply text_ascii, Forall_app. split; [apply ws_text|]. destruct op; ascii. Qed.
Lemma op_text_filter op : text (op_text filter_ops op).
Proof. apply text_ascii, Forall_app. split; [apply ws_text|]. destruct op; ascii. Qed.
Lemma quoted_text s : text s -> text (quote s).
Proof.
  intros Hs. unfold quote. apply text_app; [apply text_ascii, ws_text|]. apply (text_cons [x22]); [by apply scalar_ascii|].
  apply text_app; [by apply quote_text|]. apply text_ascii. by repeat constructor.
Qed.
Lemma print_label_text l : label_ok l -> text (print_label l).
Proof. intros Hl. apply text_ascii, Forall_app. split; [apply ws_text|by apply label_text]. Qed.
Lemma print_matcher_text m : matcher_ok m -> text (print_matcher m).
Proof. intros [Hl Hv]. apply text_app; [by apply print_label_text|]. apply text_app; [apply op_text_label|by apply quoted_text]. Qed.
Lemma print_filters_text fs : Forall (fun f => text (lf_text f)) fs -> text (fs ≫= print_filter).
Proof.
  induction 1 as [|f fs Hf _ IH]; [constructor|]. rewrite bind_cons. apply text_app; [|done].
  apply text_app; [apply op_text_filter|by apply quoted_text].
Qed.
Lemma print_list_text {A} (pr : A -> bytes) (ok : A -> Prop) xs : (forall x, ok x -> text (pr x)) -> Forall ok xs -> text (print_list pr xs).
Proof.
  intros Hpr. induction 1 as [|x xs Hx Hxs IH]; [constructor|]. destruct xs as [|y xs]; [by apply Hpr|].
  apply text_app; [by apply Hpr|]. apply text_app; [apply tok_text; ascii|done].
Qed.

Lemma eat_drop t l : eat t (drop_ws l) = eat t l.
Proof. unfold eat. by rewrite drop_ws_twice. Qed.
Lemma expect_drop t l : expect t (drop_ws l) = expect t l.
Proof. unfold expect, mbind, parser_bind. by rewrite eat_drop. Qed.
Lemma filters_print fs r f : Forall (fun f => text (lf_text f)) fs -> text r -> (length fs < f)%nat ->
  one_of filter_ops r = Ok (None, drop_ws r) -> line_filters f ((fs ≫= print_filter) ++ r) = Ok (fs, drop_ws r).
Proof.
  intros H Hr. revert f; induction H as [|x fs Hx H IH]; intros f Hf Hend; (destruct f as [|f]; [cbn in Hf; lia|]); cbn [line_filters].
  - read ltac:(done). read ltac:(unfold filter_ops at 1; rewrite one_of_drop; exact Hend). done.
  - rewrite bind_cons, <- app_assoc. unfold print_filter at 1. rewrite <- app_assoc. read ltac:(done).
    read ltac:(unfold filter_ops at 1; rewrite one_of_drop; apply filter_op_print).
    assert (text ((fs ≫= print_filter) ++ r)) as Ht by (apply text_app; [by apply print_filters_text|done]).
    read ltac:(by apply string_print). read ltac:(apply IH; [cbn in Hf; lia|done]). by destruct x.
Qed.
(** Lists: every item is read back before what follows it. *)
Section lists.
Context {A : Type} (pr : A -> bytes) (item : Parser A) (ok : A -> Prop).
Context (Hread : forall x q, ok x -> text q -> stops q -> item (pr x ++ q) = Ok (x, q)).
Context (Htext : forall x, ok x -> text (pr x)) (Hdrop : forall l, item (drop_ws l) = item l).
Context (Hpr : forall x, ok x -> exists u, pr x = w ++ u /\ begins u).
Lemma comma_print xs r f : Forall ok xs -> xs <> [] -> text r -> stops r -> eat (str ",") r = Ok (false, drop_ws r) ->
  (length xs <= f)%nat -> comma_separated f item (print_list pr xs ++ r) = Ok (xs, drop_ws r).
Proof.
  intros H. revert f; induction H as [|x xs Hx H IH]; intros f Hne Hr Hs Hend Hf; [done|]. destruct f as [|f]; [cbn in Hf; lia|].
  cbn [comma_separated]. destruct xs as [|y xs].
  - cbn [print_list]. read ltac:(by apply Hread). by read ltac:(exact Hend).
  - cbn [print_list]. rewrite <- !app_assoc. assert (text (print_list pr (y :: xs) ++ r)) as Ht.
    { apply text_app; [|done]. by apply (print_list_text pr ok). }
    read ltac:(apply Hread; [done|apply text_app; [apply tok_text; ascii|exact Ht]|unfold tok; rewrite <- app_assoc; by apply ws_stops]).
    read ltac:(apply eat_tok; by repeat econstructor). read ltac:(apply IH; [done..|cbn in *; lia]). done.
Qed.
Lemma print_list_length xs : (length xs <= S (length (print_list pr xs)))%nat.
Proof.
  induction xs as [|x xs IH]; [cbn; lia|]. destruct xs as [|y xs]; [cbn; lia|].
  change (print_list pr (x :: y :: xs)) with (pr x ++ tok "," ++ print_list pr (y :: xs)). rewrite !length_app.
  assert (1 <= length (tok ","))%nat by (unfold tok; rewrite length_app; cbn; lia). cbn [length] in *. lia.
Qed.
Lemma comma_drop f l : comma_separated (S f) item (drop_ws l) = comma_separated (S f) item l.
Proof. cbn [comma_separated]. unfold mbind, parser_bind. by rewrite Hdrop. Qed.
(** The list as [comma_separated] is called: white space is skipped already. *)
Lemma list_print xs r : Forall ok xs -> xs <> [] -> text r -> stops r -> eat (str ",") r = Ok (false, drop_ws r) ->
  let l := drop_ws (print_list pr xs ++ r) in comma_separated (S (length l)) item l = Ok (xs, drop_ws r).
Proof.
  intros H Hne Hr Hs Hend l. unfold l at 2. rewrite comma_drop.
  apply comma_print; try done. subst l. destruct H as [|x xs Hx H]; [done|]. destruct xs as [|y xs]; [cbn; lia|]. destruct (Hpr x Hx) as (u & E & Hu).
  change (print_list pr (x :: y :: xs)) with (pr x ++ tok "," ++ print_list pr (y :: xs)).
  rewrite E, <- !app_assoc, drop_ws_begins by done. destruct Hu as (b & u' & -> & _). pose proof (print_list_length (y :: xs)) as Hl.
  rewrite !length_app. cbn [length app] in *. lia.
Qed.
End lists.

Lemma ident_drop l : ident (drop_ws l) = ident l.
Proof. unfold ident. by rewrite drop_ws_twice. Qed.
Lemma matcher_drop l : matcher (drop_ws l) = matcher l.
Proof. unfold matcher. unfold mbind, parser_bind. by rewrite ident_drop. Qed.
Lemma label_print_begins l : label_ok l -> exists u, print_label l = w ++ u /\ begins u.
Proof. intros Hl. exists l. split; [done|by apply label_begins]. Qed.
Lemma matcher_print_begins m : matcher_ok m -> exists u, print_matcher m = w ++ u /\ begins u.
Proof.
  intros [Hl _]. eexists. unfold print_matcher, print_label. rewrite <- !app_assoc. split; [done|].
  destruct (label_begins _ Hl) as (b & x & -> & Hb). by exists b, (x ++ op_text label_ops (lm_op m) ++ quote (lm_value m)).
Qed.
Lemma tok_stops t r : stops (str t ++ r) -> stops (tok t ++ r).
Proof. intros H. unfold tok. rewrite <- app_assoc. by apply ws_stops. Qed.
Lemma eat_no t u r : begins (str u) -> strip_prefix t (str u ++ r) = None -> eat t (tok u ++ r) = Ok (false, drop_ws (tok u ++ r)).
Proof. intros Hu E. unfold tok. rewrite <- app_assoc, eat_other, drop_ws_begins by done. done. Qed.

Lemma selector_text s : selector_ok s -> text (print_selector s).
Proof.
  intros [Hm Hf]. unfold print_selector. apply text_app; [apply tok_text; ascii|]. apply text_app.
  { apply (print_list_text _ matcher_ok); [apply print_matcher_text|done]. }
  apply text_app; [apply tok_text; ascii|by apply print_filters_text].
Qed.
Lemma filters_length fs : (length fs <= length (fs ≫= print_filter))%nat.
Proof.
  induction fs as [|f fs IH]; [done|]. rewrite bind_cons, length_app. unfold print_filter at 1, quote at 1. rewrite !length_app. cbn [length]. lia.
Qed.
Lemma matchers_head m ms q : label_ok (lm_label m) -> head (drop_ws (print_list print_matcher (m :: ms) ++ q)) <> Some x7d.
Proof.
  intros Hl. assert (exists u, print_list print_matcher (m :: ms) ++ q = w ++ lm_label m ++ u) as [u ->].
  { destruct ms; unfold print_list, print_matcher, print_label; rewrite <- !app_assoc; by eexists. }
  rewrite drop_ws_begins by by apply label_begins. destruct Hl as [Hne H]. destruct H as [|b l Hb _]; [done|]. cbn. by intros [= ->].
Qed.
Lemma selector_print s r : selector_ok s -> text r -> one_of filter_ops r = Ok (None, drop_ws r) ->
  selector_with_filters (print_selector s ++ r) = Ok (s, drop_ws r).
Proof.
  intros Hs Hr Hend. destruct s as [ms fs]. pose proof Hs as [Hm Hf]. cbn [matchers filters] in *. unfold print_selector, selector_with_filters.
  cbn [matchers filters]. rewrite <- !app_assoc. set (rest := (fs ≫= print_filter) ++ r).
  assert (text rest) as Hrest by (apply text_app; [by apply print_filters_text|done]).
  assert (text (tok "}" ++ rest)) as Hclose by (apply text_app; [apply tok_text; ascii|done]).
  read ltac:(apply expect_tok; by repeat econstructor). read ltac:(done). read ltac:(done). read ltac:(done).
  assert (length fs < S (length rest))%nat by (unfold rest; rewrite length_app; pose proof (filters_length fs); lia).
  rewrite (bind_ok _ _ _ ms (drop_ws (tok "}" ++ rest))); cbv beta.
  - read ltac:(rewrite expect_drop; apply expect_tok; by repeat econstructor). read ltac:(done). by read ltac:(by apply filters_print).
  - destruct ms as [|m ms].
    + cbn [print_list app]. unfold tok. rewrite <- app_assoc, drop_ws_begins by by repeat econstructor. done.
    + rewrite decide_False.
      * apply (list_print print_matcher matcher matcher_ok); try done; auto using matcher_print, print_matcher_text, matcher_drop, matcher_print_begins.
        { by apply tok_stops. } { by apply eat_no; [repeat econstructor|]. }
      * apply Forall_cons in Hm as [[Hl _] _]. by apply matchers_head.
Qed.

Lemma dec_digits n : Forall (fun b => is_digit b = true) (dec n).
Proof. apply Forall_forall. intros b Hb%list_elem_of_In. pose proof (dec_pad_digits 0 n) as H. rewrite forallb_forall in H. by apply H. Qed.
Lemma parse_i64_dec n : 0 <= n <= I64_MAX -> parse_i64 (dec n) = Some n.
Proof.
  intros Hn. assert (digits_value (dec n) = Some n) as E.
  { unfold digits_value, dec. pose proof (dec_nonnil n) as Hd. unfold dec in Hd. destruct (uint_bytes _) eqn:E; [done|]. rewrite <- E, bytes_uint_bytes.
    cbn. by rewrite DecimalN.Unsigned.of_to, Z2N.id by lia. }
  pose proof (dec_digits n) as Hd. unfold parse_i64. destruct (dec n) as [|b l] eqn:El; [done|]. apply Forall_cons in Hd as [Hb _].
  destruct b; try (vm_compute in Hb; done); rewrite E; cbn; unfold checked_i64; rewrite bool_decide_true; try done; unfold I64_MIN; lia.
Qed.
(** A number of milliseconds, before a bracket. *)
Lemma components_end f t a q : span is_digit q = ([], q) -> components (S f) t a q = Ok ((t, a), q).
Proof. intros E. cbn [components]. by rewrite E. Qed.
Lemma components_ms f n q : 0 <= n <= I64_MAX -> span is_digit (tok "ms" ++ q) = ([], tok "ms" ++ q) -> span is_digit q = ([], q) ->
  components (S (S f)) 0 false (dec n ++ tok "ms" ++ q) = Ok ((n, true), q).
Proof.
  intros Hn Hms Hq. pose proof (dec_digits n) as Hd. pose proof (dec_nonnil n) as Hne.
  assert (span is_digit (dec n ++ tok "ms" ++ q) = (dec n, tok "ms" ++ q)) as E.
  { apply span_all; [done|]. destruct (tok "ms" ++ q) as [|b r]; [done|]. cbn in Hms. destruct (is_digit b); [|done].
    destruct (span is_digit r) as [x y]. by injection Hms. }
  remember (S f) as g. cbn [components]. rewrite E. destruct (dec n) as [|b l] eqn:Ed; [done|]. rewrite <- Ed, parse_i64_dec by done.
  erewrite bind_ok; [|cbn [units unit_millis]; erewrite bind_ok by (apply eat_tok; by repeat econstructor); done].
  cbv beta. subst g. rewrite components_end by done. do 3 f_equal. unfold sat_i64, I64_MIN. lia.
Qed.
Lemma digits_stop t r : is_digit <$> head (str t) = Some false -> span is_digit (tok t ++ r) = ([], tok t ++ r).
Proof.
  intros Ht. apply (span_all is_digit []); [constructor|]. unfold tok. rewrite <- app_assoc. destruct (str t) as [|c t']; [done|]. injection Ht as Ht.
  clear -Hw Ht. destruct Hw as [|b l Hb Hl]; [done|]. cbn. by destruct b.
Qed.
Lemma duration_print n r : 0 <= n <= I64_MAX -> duration_millis (w ++ dec n ++ tok "ms" ++ tok "]" ++ r) = Ok (n, tok "]" ++ r).
Proof.
  intros Hn. unfold duration_millis. set (q := tok "]" ++ r) in *. pose proof (dec_digits n) as Hd. pose proof (dec_nonnil n) as Hne.
  assert (begins (dec n)) as Hb.
  { destruct Hd as [|b l Hb _]; [done|]. exists b, l. split; [done|]. by destruct b. }
  rewrite drop_ws_begins by done. assert (exists k, length (dec n ++ tok "ms" ++ q) = S k) as [k ->].
  { rewrite length_app. destruct (dec n); [done|]. cbn. by eexists. }
  by erewrite bind_ok by (apply components_ms; [done|by apply digits_stop..]).
Qed.

Lemma range_fn_print m r : selector_ok (mq_selector m) -> 0 <= range_millis m <= I64_MAX -> text r ->
  range_fn (print_range_fn m ++ r) = Ok (mkMetric (mq_selector m) (range_millis m) (mq_op m) [] false, r).
Proof.
  intros Hs Hn Hr. unfold print_range_fn, range_fn. rewrite <- !app_assoc. read ltac:(done).
  assert (forall x, one_of [("count_over_time", CountOverTime); ("rate", Rate)]%string (drop_ws (tok (op_name (mq_op m)) ++ x)) = Ok (Some (mq_op m), x)) as Hop.
  { intros x. rewrite one_of_drop. unfold tok. rewrite <- app_assoc, one_of_ws by (destruct (mq_op m); by repeat econstructor). by destruct (mq_op m). }
  read ltac:(apply Hop). read ltac:(apply expect_tok; by repeat econstructor).
  set (rest := tok "[" ++ _). assert (text rest) as Ht.
  { unfold rest. apply text_app; [apply tok_text; ascii|]. apply text_app; [apply text_ascii, ws_text|].
    apply text_app; [|do 3 (apply text_app; [apply tok_text; ascii|]); done].
    apply text_ascii. eapply Forall_impl; [apply dec_digits|]. intros b Hb. by eapply rng_ascii; [exact Hb|]. }
  assert (one_of filter_ops rest = Ok (None, drop_ws rest)) as Hend.
  { unfold rest, filter_ops. rewrite <- one_of_drop. generalize (w ++ dec (range_millis m) ++ tok "ms" ++ tok "]" ++ tok ")" ++ r). intros q.
    unfold tok. rewrite <- app_assoc, drop_ws_begins by by repeat econstructor. done. }
  read ltac:(by apply selector_print). unfold rest. read ltac:(rewrite expect_drop; apply expect_tok; by repeat econstructor).
  read ltac:(by apply duration_print). read ltac:(apply expect_tok; by repeat econstructor). by read ltac:(apply expect_tok; by repeat econstructor).
Qed.
Lemma range_fn_text m : selector_ok (mq_selector m) -> text (print_range_fn m).
Proof.
  intros Hs. unfold print_range_fn. apply text_app; [apply tok_text; destruct (mq_op m); ascii|]. apply text_app; [apply tok_text; ascii|].
  apply text_app; [by apply selector_text|]. apply text_app; [apply tok_text; ascii|].
  apply text_app; [|apply text_app; apply tok_text; ascii]. apply text_app; [apply text_ascii, ws_text|]. apply text_app; [|apply tok_text; ascii].
  apply text_ascii. eapply Forall_impl; [apply dec_digits|]. intros b Hb. by eapply rng_ascii; [exact Hb|].
Qed.

Lemma labels_print ls r : Forall label_ok ls -> ls <> [] -> text r ->
  comma_separated (S (length (print_list print_label ls ++ tok ")" ++ r))) ident (print_list print_label ls ++ tok ")" ++ r) =
  Ok (ls, drop_ws (tok ")" ++ r)).
Proof.
  intros Hl Hne Hr. apply (comma_print print_label ident label_ok); try done; auto using ident_print, print_label_text.
  - apply text_app; [apply tok_text; ascii|done].
  - by apply tok_stops.
  - by apply eat_no; [repeat econstructor|].
  - rewrite length_app. pose proof (print_list_length print_label ls). lia.
Qed.
Lemma labels_text ls : Forall label_ok ls -> text (print_by ls).
Proof.
  intros H. unfold print_by. destruct ls as [|l ls]; [constructor|]. do 2 (apply text_app; [apply tok_text; ascii|]).
  apply text_app; [|apply tok_text; ascii]. by apply (print_list_text _ label_ok); [apply print_label_text|].
Qed.
Lemma skip_bind {A} (p : Parser A) l : (forall x, p (drop_ws x) = p x) -> (skip_ws;; p) l = p l.
Proof. intros H. unfold mbind, parser_bind. cbn. apply H. Qed.
Lemma selector_drop l : selector_with_filters (drop_ws l) = selector_with_filters l.
Proof. unfold selector_with_filters. unfold mbind, parser_bind. by rewrite expect_drop. Qed.
Lemma range_fn_drop l : range_fn (drop_ws l) = range_fn l.
Proof. unfold range_fn. unfold mbind, parser_bind. cbn. by rewrite drop_ws_twice. Qed.
Lemma drop_ws_tok t q : begins (str t) -> drop_ws (tok t ++ q) = str t ++ q.
Proof. intros Ht. unfold tok. by rewrite <- app_assoc, drop_ws_begins. Qed.
Lemma selector_print_head s : exists u, print_selector s = tok "{" ++ u.
Proof. by eexists. Qed.
Lemma range_fn_print_head m : exists u, print_range_fn m = tok (op_name (mq_op m)) ++ u.
Proof. by eexists. Qed.
Lemma sum_no t q : begins (str t) -> strip_prefix (str "sum") (str t ++ q) = None -> eat (str "sum") (drop_ws (tok t ++ q)) = Ok (false, drop_ws (tok t ++ q)).
Proof. intros Hb E. rewrite eat_drop. by apply eat_no. Qed.
Lemma looking_brace q : looking_at_range_fn (drop_ws (tok "{" ++ q)) = Ok (false, drop_ws (tok "{" ++ q)).
Proof. rewrite drop_ws_tok by by repeat econstructor. done. Qed.
Lemma looking_op op q : looking_at_range_fn (drop_ws (tok (op_name op) ++ q)) = Ok (true, drop_ws (tok (op_name op) ++ q)).
Proof. rewrite drop_ws_tok by (destruct op; by repeat econstructor). by destruct op. Qed.
Lemma query_print q r : query_ok q -> text r -> one_of filter_ops r = Ok (None, drop_ws r) ->
  exists r', drop_ws r' = drop_ws r /\
  query (match q with
         | Log s => print_selector s
         | Metric m => if summed m then tok "sum" ++ print_by (group_by m) ++ tok "(" ++ print_range_fn m ++ tok ")" else print_range_fn m
         end ++ r) = Ok (q, r').
Proof.
  intros Hq Hr Hend. unfold query. destruct q as [s|m].
  - exists (drop_ws r). split; [apply drop_ws_twice|]. read ltac:(done). destruct (selector_print_head s) as [u Eu].
    rewrite Eu, <- app_assoc. read ltac:(by apply sum_no; [repeat econstructor|]).
    read ltac:(apply looking_brace). rewrite app_assoc, <- Eu.
    by read ltac:(rewrite selector_drop; by apply selector_print).
  - destruct Hq as (Hs & Hn & Hl & Hsum). destruct (summed m) eqn:Es.
    + exists r. split; [done|]. rewrite <- !app_assoc. read ltac:(done). read ltac:(rewrite eat_drop; apply eat_tok; by repeat econstructor).
      set (rest := tok "(" ++ print_range_fn m ++ tok ")" ++ r).
      assert (text (tok ")" ++ r)) as Ht0 by (apply text_app; [apply tok_text; ascii|done]).
      assert (text (print_range_fn m ++ tok ")" ++ r)) as Ht1 by (apply text_app; [by apply range_fn_text|done]).
      assert (text rest) as Ht by (apply text_app; [apply tok_text; ascii|done]).
      assert (expect (str "(") rest = Ok (tt, print_range_fn m ++ tok ")" ++ r)) as Hopen by (apply expect_tok; by repeat econstructor).
      assert (forall l, expect (str "(") l = Ok (tt, print_range_fn m ++ tok ")" ++ r) ->
        (expect (str "(");; m' ← range_fn; expect (str ")");; mret (Metric (mkMetric (mq_selector m') (range_millis m') (mq_op m') (group_by m) true))) l = Ok (Metric m, r)) as Htail.
      { intros l E. read ltac:(exact E). read ltac:(by apply range_fn_print).
        read ltac:(apply expect_tok; by repeat econstructor). destruct m; cbn in *. by subst. }
      destruct (group_by m) as [|l ls] eqn:El.
      * cbn [print_by app]. read ltac:(unfold rest; by apply eat_no; [repeat econstructor|]). read ltac:(done).
        apply Htail. by rewrite expect_drop.
      * unfold print_by. rewrite <- !app_assoc. read ltac:(apply eat_tok; by repeat econstructor).
        erewrite bind_ok; [|read ltac:(apply expect_tok; by repeat econstructor); read ltac:(done);
          read ltac:(by apply labels_print); read ltac:(rewrite expect_drop; apply expect_tok; by repeat econstructor); done].
        by apply Htail.
    + exists r. split; [done|]. read ltac:(done). destruct (range_fn_print_head m) as [u Eu]. rewrite Eu, <- app_assoc.
      read ltac:(by apply sum_no; [destruct (mq_op m); repeat econstructor|destruct (mq_op m)]).
      read ltac:(apply looking_op). rewrite app_assoc, <- Eu. read ltac:(rewrite range_fn_drop; by apply range_fn_print).
      destruct m; cbn in *. subst. by rewrite Hsum.
Qed.
End print.

(** ** What a parsed query holds *)

(** Whatever a parser returns has a property. *)
Definition yields {A} (Q : A -> Prop) (p : Parser A) : Prop := forall l a r, p l = Ok (a, r) -> Q a.
Lemma yields_bind {A B} (Q : A -> Prop) (R : B -> Prop) (p : Parser A) (f : A -> Parser B) :
  yields Q p -> (forall a, Q a -> yields R (f a)) -> yields R (p ≫= f).
Proof.
  intros Hp Hf l b r. unfold mbind, parser_bind. destruct (p l) as [[a r']|e] eqn:E; [|done]. apply Hf. by eapply Hp.
Qed.
Lemma yields_any {A} (p : Parser A) : yields (fun _ => True) p.
Proof. done. Qed.
Lemma yields_then {A B} (R : B -> Prop) (p : Parser A) (f : A -> Parser B) : (forall a, yields R (f a)) -> yields R (p ≫= f).
Proof. intros Hf. apply (yields_bind (fun _ => True)); [apply yields_any|auto]. Qed.
Lemma yields_ret {A} (Q : A -> Prop) a : Q a -> yields Q (mret a).
Proof. by intros H l ? r [= <- _]. Qed.
Lemma yields_expected {A} (Q : A -> Prop) w : yields Q (expected w).
Proof. by intros l a r. Qed.

Definition range_ok (z : Z) : Prop := 0 <= z <= I64_MAX.
Lemma digits_nonneg ds z : Forall (fun b => is_digit b = true) ds -> ds <> [] -> parse_i64 ds = Some z -> 0 <= z.
Proof.
  intros Hd Hne E. destruct Hd as [|b l Hb Hl]; [done|].
  assert (forall x, digits_value x ≫= checked_i64 = Some z -> 0 <= z) as H.
  { intros x. unfold digits_value, checked_i64. destruct x; [done|]. destruct (bytes_uint _); [|done]. cbn. case_bool_decide; [intros [= <-]; lia|done]. }
  unfold parse_i64 in E. destruct b; try (vm_compute in Hb; done); by apply H in E.
Qed.
Lemma units_positive us : Forall (fun u : string * Z => 0 <= u.2) us -> yields (fun ms => 0 <= ms) (unit_millis us).
Proof.
  induction 1 as [|[u ms] us Hu _ IH]; [apply yields_expected|]. cbn [unit_millis]. apply yields_then. intros []; [by apply yields_ret|exact IH].
Qed.
Lemma components_range fuel total any : range_ok total -> yields (fun t : Z * bool => range_ok t.1) (components fuel total any).
Proof.
  revert total any; induction fuel as [|fuel IH]; intros total any Ht l t r; [done|]. cbn [components].
  destruct (span_app is_digit l) as (_ & Hd & _). destruct (span is_digit l) as [[|d ds] r']; [by intros [= <- _]|].
  destruct (parse_i64 (d :: ds)) as [n|] eqn:En; [|done]. apply digits_nonneg in En; [|exact Hd|done]. revert l t r Hd. intros _ t r _.
  assert (yields (fun t : Z * bool => range_ok t.1) (ms ← unit_millis units; components fuel (sat_i64 (total + sat_i64 (n * ms))) true)) as Hy.
  { apply (yields_bind (fun ms => 0 <= ms)); [apply units_positive; repeat constructor; cbn; lia|]. intros ms Hms. apply IH.
    assert (0 <= n * ms) by nia. unfold range_ok, sat_i64, I64_MIN, I64_MAX in *. lia. }
  apply Hy.
Qed.
Lemma duration_range : yields range_ok duration_millis.
Proof.
  intros l z r. unfold duration_millis. set (p := (t ← components _ 0 false; _) : Parser Z). assert (yields range_ok p) as Hp; [|apply Hp].
  apply (yields_bind (fun t : Z * bool => range_ok t.1)); [apply components_range; unfold range_ok, I64_MAX; lia|].
  intros [z' b] Hz. cbn [fst snd] in *. destruct b; [by apply yields_ret|apply yields_expected].
Qed.
Lemma range_fn_range : yields (fun m => range_ok (range_millis m)) range_fn.
Proof.
  do 2 (apply yields_then; intros ?). match goal with |- yields _ (match ?o with _ => _ end) => destruct o; [|apply yields_expected] end.
  do 3 (apply yields_then; intros ?). apply (yields_bind range_ok); [apply duration_range|]. intros z Hz.
  do 2 (apply yields_then; intros ?). by apply yields_ret.
Qed.
Lemma parse_range input m : parse input = Query (Metric m) -> range_ok (range_millis m).
Proof.
  unfold parse. destruct (query input) as [[q r]|e] eqn:E; [|done]. cbv zeta. case_decide; [|by destruct (is_char_boundary _ _)].
  intros [= ->]. assert (yields (fun q => forall m, q = Metric m -> range_ok (range_millis m)) query) as Hq; [|by eapply Hq].
  do 2 (apply yields_then; intros ?). match goal with |- yields _ (if ?b then _ else _) => destruct b end.
  - do 3 (apply yields_then; intros ?). apply (yields_bind (fun m => range_ok (range_millis m))); [apply range_fn_range|]. intros m' Hm.
    apply yields_then; intros ?. apply yields_ret. by intros ? [= <-].
  - apply yields_then; intros ranged. destruct ranged; [|apply yields_then; intros ?; apply yields_ret; done].
    apply (yields_bind (fun m => range_ok (range_millis m))); [apply range_fn_range|]. intros m' Hm. apply yields_ret. by intros ? [= <-].
Qed.

(** [C28] A query in text, with any white space between its tokens and any
    values in its strings, is read back as that query. *)
Theorem parse_print (w : bytes) (q : LogQlQuery) :
  Forall (fun b => is_ws b = true) w -> query_ok q -> parse (print w q) = Query q.
Proof.
  intros Hw Hq. assert (drop_ws w = []) as Ew by (rewrite <- (app_nil_r w); by apply drop_ws_all).
  assert (one_of filter_ops w = Ok (None, drop_ws w)) as Hend by (unfold filter_ops; rewrite <- one_of_drop, Ew; done).
  assert (text w) as Ht by (by apply text_ascii, ws_text).
  destruct (query_print w Hw q w Hq Ht Hend) as (r' & Er & E). unfold parse, print. rewrite E. cbv zeta.
  by rewrite Er, Ew, decide_True.
Qed.
Lemma parse_print_witness : let m := mkMetric (mkSelector [mkMatcher (str "app") MNotRe (str "a\b") ] [mkFilter NotContains [xc3; xa9; x22]]) 90000 Rate [str "level"; str "host_1"] true in
  parse (print [x20; x0a] (Metric m)) = Query (Metric m).
Proof.
  intros m. apply (parse_print [x20; x0a] (Metric m)); [by repeat constructor|]. unfold query_ok, selector_ok, label_ok, I64_MAX.
  assert (text [xc3; xa9; x22]) by (by apply utf8_text). assert (text (str "a\b")) by (by apply utf8_text).
  split_and!; repeat constructor; done.
Defined.

Lemma parse_answered_text (input : bytes) : utf8_valid input = true ->
  match parse input with Query _ | Trailing _ => True | Refused e => e <> OutOfFuel | Panics => False end.
Proof.
  intros Hu%utf8_text. unfold parse. pose proof (good_query (S (length input)) input ltac:(lia)) as H.
  destruct (query input) as [[q r]|e]; [|done]. destruct H as [[x Hx] Ht]. cbv zeta. specialize (Ht Hu).
  destruct (drop_ws_end r) as [[y Hy] Htr]. specialize (Htr Ht). case_decide as E; [done|].
  assert (input = (x ++ y) ++ drop_ws r) as Ei by (rewrite <- app_assoc, <- Hy; done).
  destruct (drop_ws r) as [|b d]; [done|]. rewrite Ei. rewrite length_app. replace (_ - _)%nat with (length (x ++ y)) by lia.
  unfold is_char_boundary. rewrite list_lookup_middle by done. rewrite (text_head b d Htr). by rewrite orb_true_r.
Qed.
(** Parsing any text ends with a query or a refusal: the loops finish, and
    the rest of the input in a message starts on a character. *)
Theorem parse_answers (input : bytes) : utf8_valid input = true ->
  match parse input with Query _ | Trailing _ => True | Refused e => e <> OutOfFuel | Panics => False end.
Proof. apply parse_answered_text. Qed.
Lemma parse_answers_witness : let input := str "{} " ++ [xc3; xa9] in
  match parse input with Query _ | Trailing _ => True | Refused e => e <> OutOfFuel | Panics => False end.
Proof. intros input. by apply parse_answers. Defined.
