(* ===== verification/Loki.v ===== *)
(** * The Loki routes: parameters, times, selectors and log queries
    (crates/rsearch-server/src/loki_api.rs)

    A handler reads its parameters, parses a LogQL query, finds the streams its
    [service_name] matchers allow, searches each of them and merges the lines.
    The search service and the caches of stream names and label fields are the
    fields of [LokiEnv]; the answers of the streams arrive in an order that is
    given too. *)

From Stdlib Require Import ZArith Lia.
From Stdlib Require Import Strings.Byte.
From stdpp Require Import base gmap sets list strings sorting.
From S2P Require Import Prelude Utf8 Order Json Float64 Mapping LogQl.

Local Open Scope Z_scope.

Definition LABEL_VALUES_LIMIT : nat := 1000.
Definition DEFAULT_LIMIT : nat := 100.
Definition MAX_LIMIT : nat := 5000.
Definition SCAN_LIMIT : nat := 5000.
Definition MAX_METRIC_BUCKETS : Z := 20000.

(** What is not under [src/]: the [regex] crate, the form decoding of [url],
    [time]'s RFC 3339 instants in nanoseconds, and the printing of floats and
    of maps by the standard library. *)
Class LokiCrates := {
  regex_new : bytes -> option (bytes -> bool);
  form_decode : bytes -> list (bytes * bytes);
  rfc3339_nanos : bytes -> option Z;
  f64_display : Z -> bytes;
  debug_labels : list (bytes * bytes) -> bytes;
}.

(** ** Errors and replies *)

Inductive Why :=
| InvalidRegex | EmptyCompatible | TooManyValues (label : bytes) | TooManyBuckets | ManyGroups
| NoSearchRole | ListingFailed | SearchFailed (m : bytes) | AllFailed
| MissingQuery | InvalidTime (key : bytes) | BadQuery (e : Parsed) | NotALogSelector | TooManySessions.
#[export] Instance Want_eq_dec : EqDecision Want.
Proof. solve_decision. Defined.
Inductive QueryError := User (w : Why) | Backend (w : Why).
Definition error_status (e : QueryError) : Z := match e with User _ => 400 | Backend _ => 503 end.
(** What a search answers when it does not answer hits. *)
Inductive SearchFailure := SBadRequest (m : bytes) | SStreamNotFound | SOther (m : bytes).
Definition from_search (e : SearchFailure) : QueryError :=
  match e with SBadRequest m => User (SearchFailed m) | SStreamNotFound => Backend (SearchFailed []) | SOther m => Backend (SearchFailed m) end.
Inductive Warning :=
| Saturated (stream : bytes) | StreamFailed (stream : bytes) (e : QueryError) | OneGrouping (label : bytes) (ignored : list bytes).
Definition QueryR := result QueryError.

Record LokiEnv := mkEnv {
  lk_names : option (list bytes);                                   (** [cached_stream_names] *)
  lk_fields : bytes -> list bytes;                                  (** [cached_label_fields] *)
  lk_search : option (bytes -> json -> result SearchFailure json);  (** parse and run a search body *)
  lk_arrive : list bytes -> list bytes;                             (** the order streams answer in *)
  lk_now : Z;
}.

(** ** Parameters and times *)

Section params.
Context `{LokiCrates} `{TextCodec}.

Definition Params := gmap bytes (list bytes).
Definition push_param (p : Params) (kv : bytes * bytes) : Params := <[kv.1 := default [] (p !! kv.1) ++ [kv.2]]> p.
Definition params (query body : bytes) : Params := foldl push_param ∅ (form_decode query ++ form_decode body).
Definition first (p : Params) (key : bytes) : option bytes := vs ← p !! key; head vs.

(** [str::parse::<i128>]. *)
Definition I128_MIN : Z := - 2 ^ 127.
Definition parse_i128 (l : bytes) : option Z :=
  z ← match l with
      | x2d :: r => z ← digits_value r; Some (- z)
      | x2b :: r => digits_value r
      | _ => digits_value l
      end;
  if (I128_MIN <=? z) && (z <? 2 ^ 127) then Some z else None.
Definition abs_i128 (z : Z) : Z := wrap_s 128 (Z.abs z).
Definition to_i64 (z : Z) : option Z := checked_i64 z.
Definition parse_time_ms (s : bytes) : option Z :=
  match parse_i128 s with
  | Some n =>
      to_i64 (if 100000000000000000 <=? abs_i128 n then Z.quot n 1000000
              else if 100000000000000 <=? abs_i128 n then Z.quot n 1000
              else if 100000000000 <=? abs_i128 n then n
              else wrap_s 128 (n * 1000))
  | None =>
      match parse_f64 s with
      | Some secs => Some (f64_as_i64 (f64_mul_pos secs 1000))
      | None => (fun n => wrap_s 64 (Z.quot n 1000000)) <$> rfc3339_nanos s
      end
  end.
Definition time_param (p : Params) (key : bytes) (default : Z) : QueryR Z :=
  match first p key with
  | None => Ok default
  | Some raw => match parse_time_ms raw with Some t => Ok t | None => Err (User (InvalidTime key)) end
  end.

(** A duration's units, by their letters. *)
Definition step_scale (unit : bytes) : option Z :=
  snd <$> head (filter (fun u : bytes * Z => u.1 = unit)
    [(str "ms", 1); (str "s", 1000); (str "m", 60000); (str "h", 3600000); (str "d", 86400000)]).
Definition is_alpha (b : byte) : bool := in_rng (bz b) 0x41 0x5A || in_rng (bz b) 0x61 0x7A.
(** [num]: the number before its unit; a byte outside ASCII starts no unit. *)
Fixpoint step_units (fuel : nat) (s num : bytes) (total : Z) : option Z :=
  match fuel, s with
  | _, [] => Some total
  | O, _ => None
  | S fuel, c :: s =>
      if is_digit c || Byte.eqb c x2e then step_units fuel s (num ++ [c]) total
      else
        let '(unit, s) := match s with b :: r => if is_alpha b then ([c; b], r) else ([c], s) | [] => ([c], s) end in
        scale ← step_scale unit;
        n ← parse_f64 num;
        step_units fuel s [] (wrap_s 64 (total + f64_as_i64 (f64_mul_pos n scale)))
  end.
(** [max(1.0)] takes 1 for a NaN, as the conversion then does. *)
Definition parse_step_ms (s : bytes) : option Z :=
  match parse_f64 s with
  | Some secs => Some (Z.max 1 (f64_as_i64 (f64_mul_pos secs 1000)))
  | None => total ← step_units (length s) s [] 0; if 0 <? total then Some total else None
  end.
Definition limit_param (p : Params) : nat :=
  Z.to_nat (Z.min (default (Z.of_nat DEFAULT_LIMIT) (l ← first p (str "limit"); parse_u64 l)) (Z.of_nat MAX_LIMIT)).
End params.

(** [j["k"]] and [j[0]]. *)
Definition idx (j : json) (k : bytes) : json := default Null (get j k).
Definition at0 (j : json) : json := default Null (l ← as_array j; head l).
Definition service_name : bytes := str "service_name".
Definition TIMESTAMP : bytes := str "@timestamp".
(** A JSON literal. *)
Definition obj (kvs : list (string * json)) : json := obj_collect ((fun kv => (str kv.1, kv.2)) <$> kvs).
Definition obj1 (k : bytes) (v : json) : json := Object [(k, v)].
Definition nat_json (n : nat) : json := Number (PosInt (Z.of_nat n)).

(** ** Selectors *)

Section selectors.
Context `{LokiCrates}.

(** Label regexes are anchored at both ends. *)
Definition anchored (pattern : bytes) : QueryR (bytes -> bool) :=
  match regex_new (str "^(?:" ++ pattern ++ str ")$") with Some re => Ok re | None => Err (User InvalidRegex) end.
Definition rejects_empty (m : LabelMatcher) : bool :=
  match lm_op m with
  | MEq => negb (bool_decide (lm_value m = []))
  | MRe => match anchored (lm_value m) with Ok re => negb (re []) | Err _ => false end
  | MNeq | MNotRe => false
  end.
Definition validate_selector (s : LogSelector) : QueryR unit :=
  if existsb rejects_empty (matchers s) then Ok tt else Err (User EmptyCompatible).

(** The streams the [service_name] matchers allow, matcher by matcher. *)
Definition retain_names (m : LabelMatcher) (names : list bytes) : QueryR (list bytes) :=
  match lm_op m with
  | MEq => mret (filter (fun n => n = lm_value m) names)
  | MNeq => mret (filter (fun n => n <> lm_value m) names)
  | MRe | MNotRe => re ← anchored (lm_value m); mret (filter (fun n => re n = bool_decide (lm_op m = MRe)) names)
  end.
Fixpoint retain_all (ms : list LabelMatcher) (names : list bytes) : QueryR (list bytes) :=
  match ms with
  | [] => mret names
  | m :: ms => names ← (if decide (lm_label m = service_name) then retain_names m names else mret names); retain_all ms names
  end.
Definition resolve_streams (env : LokiEnv) (s : LogSelector) : QueryR (list bytes) :=
  match lk_names env with
  | None => Err (Backend ListingFailed)
  | Some all => retain_all (matchers s) all
  end.

(** The distinct values of a field, and whether there may be more. *)
Definition time_bounds (start_ms end_ms : option Z) : list json :=
  match start_ms, end_ms with
  | None, None => []
  | _, _ =>
      [obj1 (str "range") (obj1 TIMESTAMP (Object
        ((match start_ms with Some s => [(str "gte", json_i64 s)] | None => [] end) ++
         (match end_ms with Some e => [(str "lte", json_i64 e)] | None => [] end))))]
  end.
Definition field_values_body (field : bytes) (start_ms end_ms : option Z) : json :=
  obj [("size", nat_json 0); ("track_total_hits", Bool false);
       ("query", obj [("bool", obj [("filter", Array (time_bounds start_ms end_ms))])]);
       ("aggs", obj [("v", obj [("terms", obj [("field", JString field); ("size", nat_json LABEL_VALUES_LIMIT)])])])]%string.
Definition bucket_keys (result : json) : list bytes :=
  omap (fun b => as_str (idx b (str "key"))) (default [] (as_array (idx (idx (idx result (str "aggregations")) (str "v")) (str "buckets")))).
Definition field_values (env : LokiEnv) (stream field : bytes) (start_ms end_ms : option Z) : QueryR (list bytes * bool) :=
  match lk_search env with
  | None => Err (Backend NoSearchRole)
  | Some search =>
      match search stream (field_values_body field start_ms end_ms) with
      | Err e => Err (from_search e)
      | Ok result => let values := bucket_keys result in Ok (values, (LABEL_VALUES_LIMIT <=? length values)%nat)
      end
  end.

(** The clauses of a selector for one stream: [filter] and [must_not]; [None]
    when a matcher cannot match there. *)
Definition term (label : bytes) (v : bytes) : json := obj1 (str "term") (obj1 label (JString v)).
Definition terms (label : bytes) (vs : list bytes) : json := obj1 (str "terms") (obj1 label (Array (JString <$> vs))).
Fixpoint selector_clauses (env : LokiEnv) (stream : bytes) (start_ms end_ms : Z) (ms : list LabelMatcher) (filt must_not : list json)
    : QueryR (option (list json * list json)) :=
  match ms with
  | [] => mret (Some (filt, must_not))
  | m :: ms =>
      let next := selector_clauses env stream start_ms end_ms ms in
      let label := lm_label m in
      if decide (label = service_name) then next filt must_not
      else
        match lm_op m with
        | MEq => next (filt ++ [term label (lm_value m)]) must_not
        | MNeq => next filt (must_not ++ [term label (lm_value m)])
        | MRe | MNotRe =>
            re ← anchored (lm_value m);
            vs ← field_values env stream label (Some start_ms) (Some end_ms);
            if (vs : list bytes * bool).2 then Err (User (TooManyValues label))
            else
              let values := List.filter re vs.1 in
              if decide (lm_op m = MRe) then
                if decide (values = []) then mret None else next (filt ++ [terms label values]) must_not
              else next filt (if decide (values = []) then must_not else must_not ++ [terms label values])
        end
  end.
Definition time_range (start_ms end_ms : Z) : json :=
  obj1 (str "range") (obj1 TIMESTAMP (obj [("gte", json_i64 start_ms); ("lte", json_i64 end_ms)]%string)).
Definition selector_query (env : LokiEnv) (stream : bytes) (s : LogSelector) (start_ms end_ms : Z) : QueryR (option json) :=
  clauses ← selector_clauses env stream start_ms end_ms (matchers s) [time_range start_ms end_ms] [];
  mret ((fun c : list json * list json => obj [("bool", obj [("filter", Array c.1); ("must_not", Array c.2)])]%string) <$> clauses).

(** ** Line filters *)

Inductive CompiledFilter := CContains (t : bytes) | CNotContains (t : bytes) | CRegex (re : bytes -> bool) | CNotRegex (re : bytes -> bool).
Definition compile_filter (f : LineFilter) : QueryR CompiledFilter :=
  let re k := match regex_new (lf_text f) with Some re => Ok (k re) | None => Err (User InvalidRegex) end in
  match lf_op f with
  | Contains => Ok (CContains (lf_text f))
  | NotContains => Ok (CNotContains (lf_text f))
  | Regex => re CRegex
  | NotRegex => re CNotRegex
  end.
Fixpoint compile_filters (fs : list LineFilter) : QueryR (list CompiledFilter) :=
  match fs with [] => mret [] | f :: fs => c ← compile_filter f; cs ← compile_filters fs; mret (c :: cs) end.
Definition filter_ok (line : bytes) (f : CompiledFilter) : bool :=
  match f with
  | CContains t => Prelude.contains line t
  | CNotContains t => negb (Prelude.contains line t)
  | CRegex re => re line
  | CNotRegex re => negb (re line)
  end.
Definition line_matches (line : bytes) (fs : list CompiledFilter) : bool := forallb (filter_ok line) fs.
End selectors.

(** ** Log queries *)

Record LogHit := mkHit { ts_ms : Z; labels : list (bytes * bytes); line : bytes }.
Record LogQueryOutcome := mkOutcome { hits : list LogHit; warnings : list Warning }.

Section logs.
Context `{LokiCrates} `{TextCodec}.

Definition label_text (v : json) : option bytes :=
  match v with
  | JString s => Some s
  | Number n => Some (json_to_string (Number n))
  | Bool b => Some (if b then str "true" else str "false")
  | _ => None
  end.
Definition label_insert (source : json) (ls : list (bytes * bytes)) (field : bytes) : list (bytes * bytes) :=
  match v ← get source field; label_text v with Some t => bt_insert field t ls | None => ls end.
Definition hit_labels (stream : bytes) (fields : list bytes) (source : json) : list (bytes * bytes) :=
  foldl (label_insert source) (bt_insert service_name stream []) fields.
Definition hit_line (source : json) : bytes := default (json_to_string source) (m ← get source (str "message"); as_str m).
Definition log_hit (stream : bytes) (fields : list bytes) (filters : list CompiledFilter) (hit : json) : option LogHit :=
  ts ← as_i64 (at0 (idx hit (str "sort")));
  let source := idx hit (str "_source") in
  if line_matches (hit_line source) filters then Some (mkHit ts (hit_labels stream fields source) (hit_line source)) else None.

Definition log_body (fetch : nat) (forward : bool) (query : json) : json :=
  obj [("size", nat_json fetch); ("track_total_hits", Bool false);
       ("sort", Array [obj1 TIMESTAMP (obj [("order", JString (str (if forward then "asc" else "desc")))])]);
       ("query", query)]%string.
Definition raw_hits (result : json) : list json := default [] (as_array (idx (idx result (str "hits")) (str "hits"))).
(** One stream: its lines, and whether the scan was cut. *)
Definition run_stream (env : LokiEnv) (search : bytes -> json -> result SearchFailure json) (s : LogSelector)
    (start_ms end_ms : Z) (fetch : nat) (forward : bool) (filters : list CompiledFilter) (stream : bytes) : QueryR (list LogHit * bool) :=
  query ← selector_query env stream s start_ms end_ms;
  match query with
  | None => mret ([], false)
  | Some query =>
      let fields := lk_fields env stream in
      match search stream (log_body fetch forward query) with
      | Err SStreamNotFound => mret ([], false)
      | Err e => Err (from_search e)
      | Ok result =>
          let raw := raw_hits result in
          mret (omap (log_hit stream fields filters) raw, negb (bool_decide (filters = [])) && (fetch <=? length raw)%nat)
      end
  end.

(** The streams' answers, in the order they arrived. *)
Definition stream_warnings {A} (sat : A -> bool) (r : bytes * QueryR A) : list Warning :=
  match r.2 with Ok a => if sat a then [Saturated r.1] else [] | Err e => [StreamFailed r.1 e] end.
Definition failed {A} (r : bytes * QueryR A) : option QueryError := match r.2 with Err e => Some e | Ok _ => None end.
Definition answered {A} (r : bytes * QueryR A) : option A := match r.2 with Ok a => Some a | Err _ => None end.
Definition by_time (forward : bool) (a b : LogHit) : comparison :=
  if forward then Z.compare (ts_ms a) (ts_ms b) else Z.compare (ts_ms b) (ts_ms a).
Definition merge_streams (limit : nat) (forward : bool) (per_stream : list (bytes * QueryR (list LogHit * bool))) : QueryR LogQueryOutcome :=
  let failures := omap failed per_stream in
  match failures with
  | e :: _ => if decide (length failures = length per_stream) then Err e else mret tt
  | [] => mret tt
  end;;
  let all := concat (fst <$> omap answered per_stream) in
  mret (mkOutcome (take limit (sort_by (by_time forward) all)) (concat (stream_warnings snd <$> per_stream))).
(** [limit] is [None] for [usize::MAX]: no limit. *)
Definition run_log_query (env : LokiEnv) (s : LogSelector) (start_ms end_ms : Z) (limit : option nat) (forward : bool) : QueryR LogQueryOutcome :=
  match lk_search env with
  | None => Err (Backend NoSearchRole)
  | Some search =>
      streams ← resolve_streams env s;
      filters ← compile_filters (filters s);
      let fetch := if decide (filters = []) then (from_option (fun l => l `min` MAX_LIMIT) MAX_LIMIT limit)%nat else SCAN_LIMIT in
      let run := run_stream env search s start_ms end_ms fetch forward filters in
      let per_stream := (fun n => (n, run n)) <$> lk_arrive env streams in
      let limit := default (length (concat (fst <$> omap answered per_stream))) limit in
      merge_streams limit forward per_stream
  end.

(** Lines grouped by their labels. *)
Definition Streams := list (bytes * (list (bytes * bytes) * list (Z * bytes))).
Definition push_line (m : Streams) (h : LogHit) : Streams :=
  let key := debug_labels (labels h) in
  let entry := default (labels h, []) (bt_get key m) in
  bt_insert key (entry.1, entry.2 ++ [(ts_ms h, line h)]) m.
Definition labels_json (ls : list (bytes * bytes)) : json := Object ((fun kv => (kv.1, JString kv.2)) <$> ls).
Definition stream_entry (e : list (bytes * bytes) * list (Z * bytes)) : json :=
  obj [("stream", labels_json e.1); ("values", Array ((fun v => Array [JString (dec_i (v.1 * 1000000)); JString v.2]) <$> e.2))]%string.
Definition to_streams_result (hs : list LogHit) : json :=
  obj [("resultType", JString (str "streams")); ("result", Array (stream_entry <$> (foldl push_line [] hs).*2)); ("stats", Object [])]%string.
End logs.

(** ** The first lines of many lists *)

Lemma by_time_good forward : good_cmp (fun _ => True) (by_time forward).
Proof.
  apply (good_ext _ (fun a b => reverse_if (negb forward) (Z.compare (ts_ms a) (ts_ms b)))).
  - intros a b _ _. unfold by_time, reverse_if. destruct forward; [done|]. symmetry. apply Z.compare_antisym.
  - apply (good_reverse_if _ (fun a b => Z.compare (ts_ms a) (ts_ms b))), (good_on (fun _ => True) Z.compare ts_ms), good_Z.
Qed.
(** [hs] are the first [n] of [all]. *)
Definition first_of (c : LogHit -> LogHit -> comparison) (n : nat) (hs all : list LogHit) : Prop :=
  exists rest, hs ++ rest ≡ₚ all /\ StronglySorted (cmp_le c) hs /\ (forall x y, x ∈ hs -> y ∈ rest -> cmp_le c x y) /\
    length hs = (n `min` length all)%nat.

#[export] Instance first_of_proper c n hs : Proper ((≡ₚ) ==> iff) (first_of c n hs).
Proof.
  assert (forall l l', l ≡ₚ l' -> first_of c n hs l -> first_of c n hs l') as H.
  { intros l l' Hl (rest & Hp & Hs & Hle & Hn). exists rest. split_and!; [by rewrite Hp|done|done|by rewrite <- Hl]. }
  intros l l' Hl. split; by apply H.
Qed.

Section parts.
Context (c : LogHit -> LogHit -> comparison) (G : good_cmp (fun _ => True) c).
Implicit Types ks ds : list LogHit.

(** A part in order, cut: what is kept, what is not, and enough kept where
    something is not. *)
Definition cut (n : nat) (p : list LogHit * list LogHit) : Prop :=
  StronglySorted (cmp_le c) (p.1 ++ p.2) /\ (p.2 = [] \/ (n <= length p.1)%nat).
Lemma cmp_le_total x y : cmp_le c x y \/ cmp_le c y x.
Proof. unfold cmp_le. rewrite (cmp_sym G x y) by done. destruct (c x y); [left|left|right]; done. Qed.
Lemma sorted_before l x n k : StronglySorted (cmp_le c) l -> x ∈ take n l -> (forall y, y ∈ k -> ~ cmp_le c x y) -> k ⊆+ l -> (length k < n)%nat.
Proof.
  intros S Hx Hk Hsub. apply list_elem_of_lookup in Hx as [i Hx]. apply lookup_take_Some in Hx as [Hx Hi].
  assert (k ⊆+ take i l) as Hs.
  { assert (k ≡ₚ filter (fun y => ~ cmp_le c x y) k) as ->.
    { assert (filter (fun y => ~ cmp_le c x y) k = k) as ->; [|done]. clear -Hk. induction k as [|y k IH]; [done|].
      rewrite filter_cons, decide_True by (apply Hk; left). f_equal. apply IH. intros z Hz. apply Hk. by right. }
    assert (filter (fun y => ~ cmp_le c x y) l = filter (fun y => ~ cmp_le c x y) (take i l)) as E.
    { rewrite <- (take_drop i l) at 1. rewrite filter_app. assert (filter (fun y => ~ cmp_le c x y) (drop i l) = []) as ->; [|by rewrite app_nil_r].
      assert (Forall (cmp_le c x) (drop i l)) as Hd.
      { rewrite (drop_S l x i Hx). constructor; [unfold cmp_le; by rewrite (good_refl _ _ _ G)|].
        rewrite <- (take_drop i l) in S. rewrite (drop_S l x i Hx) in S. apply StronglySorted_app_1_r in S. by inversion S. }
      clear -Hd. induction Hd as [|y d Hy _ IH]; [done|]. rewrite filter_cons, decide_False by tauto. done. }
    etrans; [|apply (sublist_submseteq _ _ (sublist_filter (fun y => ~ cmp_le c x y) (take i l)))]. rewrite <- E.
    apply submseteq_Permutation in Hsub as [r Hr]. rewrite Hr, filter_app. by apply submseteq_inserts_r. }
  apply submseteq_length in Hs. rewrite length_take in Hs. lia.
Qed.
Lemma first_of_parts n (ps : list (list LogHit * list LogHit)) : Forall (cut n) ps ->
  first_of c n (take n (sort_by c (concat ps.*1))) (concat ((fun p => p.1 ++ p.2) <$> ps)).
Proof.
  intros Hps. set (M := sort_by c (concat ps.*1)). exists (drop n M ++ concat ps.*2).
  assert (M ≡ₚ concat ps.*1) as HM by apply sort_by_perm.
  assert (StronglySorted (cmp_le c) M) as SM by (apply (sort_by_sorted c (fun _ => True) G), Forall_true; done).
  assert (concat ps.*1 ++ concat ps.*2 ≡ₚ concat ((fun p => p.1 ++ p.2) <$> ps)) as Hall.
  { clear. induction ps as [|[k d] ps IH]; [done|]. cbn. rewrite <- IH. by solve_Permutation. }
  split_and!.
  - rewrite app_assoc, take_drop, HM. exact Hall.
  - rewrite <- (take_drop n M) in SM. by eapply StronglySorted_app_1_l.
  - intros x y Hx Hy. apply elem_of_app in Hy as [Hy|Hy].
    { rewrite <- (take_drop n M) in SM. by eapply sorted_app_le. }
    apply elem_of_concat in Hy as (d & Hy & (p & -> & Hp)%list_elem_of_fmap). rewrite Forall_forall in Hps.
    destruct (Hps p Hp) as [Sp [E|Hn]]; [rewrite E in Hy; by apply not_elem_of_nil in Hy|].
    destruct (decide (cmp_le c x y)) as [|Hno]; [done|]. exfalso.
    assert (length p.1 < n)%nat; [|lia]. apply (sorted_before M x n); [done|done| |].
    + intros z Hz Hxz. apply Hno. eapply (cmp_trans G x z y); [done..|]. by eapply sorted_app_le.
    + rewrite HM. apply list_elem_of_split in Hp as (p1 & p2 & ->). rewrite fmap_app, concat_app. cbn.
      apply submseteq_inserts_l, submseteq_inserts_r. done.
  - rewrite length_take. apply Permutation_length in Hall, HM. rewrite length_app in Hall. destruct (decide (concat ps.*2 = [])) as [E|Hne].
    + rewrite E in Hall. cbn in Hall. lia.
    + assert (n <= length M)%nat; [|lia]. destruct (concat ps.*2) as [|y r] eqn:E; [done|].
      assert (y ∈ concat ps.*2) as Hy by (rewrite E; left). apply elem_of_concat in Hy as (d & Hy & (p & -> & Hp)%list_elem_of_fmap).
      rewrite Forall_forall in Hps. destruct (Hps p Hp) as [_ [E'|Hn]]; [rewrite E' in Hy; by apply not_elem_of_nil in Hy|].
      rewrite HM. apply list_elem_of_split in Hp as (p1 & p2 & ->). rewrite fmap_app, concat_app, !length_app. cbn. rewrite length_app. lia.
Qed.
End parts.

(** ** A log query, against the documents of the streams *)

(** What the search service promises to these routes: a page of a time sort
    holds the first documents that match, each with its instant and source. *)
Definition doc_by_time (forward : bool) (a b : Z * json) : Prop := if forward then a.1 <= b.1 else b.1 <= a.1.
Definition reads (hit : json) (d : Z * json) : Prop :=
  as_i64 (at0 (idx hit (str "sort"))) = Some d.1 /\ idx hit (str "_source") = d.2.
Class LogStore (search : bytes -> json -> result SearchFailure json) (docs : bytes -> json -> list (Z * json)) : Prop := {
  store_answers stream fetch forward q r : search stream (log_body fetch forward q) = Ok r ->
    exists l, l ≡ₚ docs stream q /\ StronglySorted (doc_by_time forward) l /\ Forall2 reads (raw_hits r) (take fetch l);
  store_gone stream fetch forward q : search stream (log_body fetch forward q) = Err SStreamNotFound -> docs stream q = [];
}.

Section exact.
Context `{LokiCrates} `{TextCodec} (env : LokiEnv) (docs : bytes -> json -> list (Z * json)).

Definition line_of (stream : bytes) (filters : list CompiledFilter) (d : Z * json) : option LogHit :=
  if line_matches (hit_line d.2) filters then Some (mkHit d.1 (hit_labels stream (lk_fields env stream) d.2) (hit_line d.2)) else None.
(** The lines of a stream that a selector and its line filters match. *)
Definition matching (s : LogSelector) (filters : list CompiledFilter) (start_ms end_ms : Z) (stream : bytes) : list LogHit :=
  match selector_query env stream s start_ms end_ms with
  | Ok (Some q) => omap (line_of stream filters) (docs stream q)
  | _ => []
  end.

Lemma log_hit_line stream filters hit d : reads hit d -> log_hit stream (lk_fields env stream) filters hit = line_of stream filters d.
Proof. intros [E1 E2]. unfold log_hit, line_of. rewrite E1. cbn [mbind option_bind]. by rewrite E2. Qed.
Lemma line_of_ts stream filters d h : line_of stream filters d = Some h -> ts_ms h = d.1.
Proof. unfold line_of. case_match; [|done]. by intros [= <-]. Qed.
Lemma lines_sorted stream filters forward l : StronglySorted (doc_by_time forward) l ->
  StronglySorted (cmp_le (by_time forward)) (omap (line_of stream filters) l).
Proof.
  induction 1 as [|d l Hl IH Hd]; [constructor|]. cbn. destruct (line_of stream filters d) as [h|] eqn:E; [|exact IH]. constructor; [exact IH|].
  apply Forall_forall. intros h' (d' & Hd' & E')%list_elem_of_omap. rewrite Forall_forall in Hd. specialize (Hd d' Hd').
  apply line_of_ts in E, E'. unfold cmp_le, by_time, doc_by_time in *. rewrite E, E'. destruct forward; exact Hd.
Qed.
Lemma lines_unfiltered stream l : length (omap (line_of stream []) l) = length l.
Proof. induction l as [|d l IH]; [done|]. cbn. by f_equal. Qed.
Lemma omap_app {A B} (f : A -> option B) l k : omap f (l ++ k) = omap f l ++ omap f k.
Proof. induction l as [|x l IH]; [done|]. cbn. destruct (f x); [|done]. cbn. by f_equal. Qed.

Lemma run_stream_cut search s start_ms end_ms fetch forward filters limit stream kept : LogStore search docs ->
  run_stream env search s start_ms end_ms fetch forward filters stream = Ok (kept, false) -> (filters = [] -> limit <= fetch)%nat ->
  exists dropped, kept ++ dropped ≡ₚ matching s filters start_ms end_ms stream /\ cut (by_time forward) limit (kept, dropped).
Proof.
  intros [Hans Hgone] E Hf. unfold run_stream in E. unfold matching. destruct (selector_query env stream s start_ms end_ms) as [[q|]|e]; [..|done].
  2: { injection E as <-. exists []. by split; [|split; [constructor|left]]. }
  cbn [mbind result_bind] in E. destruct (search stream (log_body fetch forward q)) as [r|[m| |m]] eqn:Er; [|done| |done].
  2: { injection E as <-. rewrite (Hgone _ _ _ _ Er). exists []. by split; [|split; [constructor|left]]. }
  destruct (Hans _ _ _ _ _ Er) as (l & Hl & Hs & Hr). injection E as <- Hsat.
  assert (omap (log_hit stream (lk_fields env stream) filters) (raw_hits r) = omap (line_of stream filters) (take fetch l)) as ->.
  { clear -Hr. induction Hr as [|h d hs ds Hd _ IH]; [done|]. cbn. by rewrite (log_hit_line _ _ _ _ Hd), IH. }
  exists (omap (line_of stream filters) (drop fetch l)). split; [rewrite <- omap_app, take_drop; by rewrite Hl|]. split; cbn [fst snd].
  - rewrite <- omap_app, take_drop. by apply lines_sorted.
  - apply Forall2_length in Hr. rewrite Hr in Hsat. rewrite length_take in Hsat. destruct (decide (filters = [])) as [->|Hne].
    + rewrite lines_unfiltered, length_take. destruct (decide (length l <= fetch)%nat); [left; by rewrite drop_ge by lia|right].
      specialize (Hf eq_refl). lia.
    + rewrite bool_decide_eq_false_2 in Hsat by done. cbn [negb andb] in Hsat. apply Nat.leb_gt in Hsat. left. rewrite drop_ge by lia. done.
Qed.

Lemma no_warnings per_stream : concat (stream_warnings (snd : list LogHit * bool -> bool) <$> per_stream) = [] ->
  Forall (fun r => exists kept, r.2 = Ok (kept, false)) per_stream.
Proof.
  induction per_stream as [|[n r] l IH]; [constructor|]. cbn. intros [E1 E2]%app_eq_nil. constructor; [|by apply IH].
  unfold stream_warnings in E1. cbn in *. destruct r as [[kept [|]]|e]; [done|by exists kept|done].
Qed.

Definition resolved_lines (s : LogSelector) (filters : list CompiledFilter) (start_ms end_ms : Z) (names : list bytes) : list LogHit :=
  concat (matching s filters start_ms end_ms <$> names).
Lemma merge_streams_exact (run : bytes -> QueryR (list LogHit * bool)) limit forward names o (ms : bytes -> list LogHit) :
  (forall n kept, run n = Ok (kept, false) -> exists dropped, kept ++ dropped ≡ₚ ms n /\ cut (by_time forward) limit (kept, dropped)) ->
  merge_streams limit forward ((fun n => (n, run n)) <$> names) = Ok o -> warnings o = [] ->
  first_of (by_time forward) limit (hits o) (concat (ms <$> names)).
Proof.
  intros Hrun E Hw. set (per_stream := (fun n => (n, run n)) <$> names) in *.
  assert (o = mkOutcome (take limit (sort_by (by_time forward) (concat (fst <$> omap answered per_stream)))) (concat (stream_warnings snd <$> per_stream))) as ->.
  { unfold merge_streams in E. destruct (omap failed per_stream); [by injection E as <-|]. case_decide; [done|by injection E as <-]. }
  apply no_warnings in Hw. cbn [hits].
  assert (exists ps, Forall (cut (by_time forward) limit) ps /\ fst <$> omap answered per_stream = ps.*1 /\
    concat ((fun p => p.1 ++ p.2) <$> ps) ≡ₚ concat (ms <$> names)) as (ps & Hps & -> & <-).
  { unfold per_stream in *. clear E. induction names as [|n names IH]; [by exists []|]. cbn in Hw. apply Forall_cons in Hw as [[kept Hn] Hw].
    cbn [snd] in Hn. destruct (IH Hw) as (ps & H1 & H2 & H3). destruct (Hrun n kept Hn) as (dropped & Hp & Hc).
    exists ((kept, dropped) :: ps). split_and!; [by constructor|cbn; unfold answered at 1; cbn; rewrite Hn; cbn; by f_equal|]. cbn. by rewrite Hp, H3. }
  apply first_of_parts; [apply by_time_good|done].
Qed.
End exact.

(** [C21] A log query that answers without a warning returns exactly the first
    [limit] lines, in its direction, of all the lines its selector and line
    filters match in every stream. *)
Theorem log_query_exact `{LokiCrates} `{TextCodec} env docs search s start_ms end_ms limit forward o :
  lk_search env = Some search -> LogStore search docs -> (forall l, lk_arrive env l ≡ₚ l) -> (limit <= MAX_LIMIT)%nat ->
  run_log_query env s start_ms end_ms (Some limit) forward = Ok o -> warnings o = [] ->
  exists names filters, resolve_streams env s = Ok names /\ compile_filters (LogQl.filters s) = Ok filters /\
    first_of (by_time forward) limit (hits o) (concat (matching env docs s filters start_ms end_ms <$> names)).
Proof.
  intros Hs Hstore Harr Hlim E Hw. unfold run_log_query in E. rewrite Hs in E.
  destruct (resolve_streams env s) as [names|e]; [|done]. cbn [mbind result_bind] in E.
  destruct (compile_filters (LogQl.filters s)) as [filters|e] eqn:Ef; [|done]. cbn [mbind result_bind default from_option] in E.
  exists names, filters. split_and!; [done..|]. rewrite <- (Harr names). eapply merge_streams_exact; [|exact E|exact Hw].
  intros n kept En. eapply run_stream_cut; [exact Hstore|exact En|]. intros ->. rewrite decide_True by done. cbn [from_option]. lia.
Qed.

(** ** What a selector allows *)

Section allows.
Context `{LokiCrates}.

(** A matcher, of the values a label has: [!=] and [!~] want none of them. *)
Definition regex_of (m : LabelMatcher) : bytes -> bool := match anchored (lm_value m) with Ok re => re | Err _ => fun _ => false end.
Definition allows (m : LabelMatcher) (v : bytes) : bool :=
  match lm_op m with
  | MEq => bool_decide (v = lm_value m)
  | MNeq => negb (bool_decide (v = lm_value m))
  | MRe => regex_of m v
  | MNotRe => negb (regex_of m v)
  end.
Definition on_service (m : LabelMatcher) : Prop := lm_label m = service_name.
#[export] Instance on_service_dec m : Decision (on_service m).
Proof. unfold on_service. apply _. Defined.
Definition name_allowed (s : LogSelector) (n : bytes) : Prop := Forall (fun m => on_service m -> allows m n = true) (matchers s).
#[export] Instance name_allowed_dec s n : Decision (name_allowed s n).
Proof. unfold name_allowed. apply _. Defined.

Lemma retain_names_allows m names l : retain_names m names = Ok l -> l = filter (fun n => allows m n = true) names.
Proof.
  unfold retain_names, allows, regex_of. intros E. destruct (lm_op m); [..|destruct (anchored (lm_value m)) as [re|e]; [|done]|destruct (anchored (lm_value m)) as [re|e]; [|done]];
    injection E as <-; apply list_filter_iff; intros n.
  - by rewrite bool_decide_eq_true.
  - rewrite negb_true_iff. by rewrite bool_decide_eq_false.
  - done.
  - by rewrite negb_true_iff.
Qed.
Lemma retain_all_allows ms names l : retain_all ms names = Ok l ->
  l = filter (fun n => Forall (fun m => on_service m -> allows m n = true) ms) names.
Proof.
  revert names; induction ms as [|m ms IH]; intros names E.
  - injection E as <-. symmetry. clear. induction names as [|n names IH]; [done|]. rewrite filter_cons, decide_True by constructor. by f_equal.
  - cbn [retain_all] in E. destruct (decide (lm_label m = service_name)) as [Hm|Hm].
    + destruct (retain_names m names) as [ns|e] eqn:En; [|done]. apply retain_names_allows in En as ->. apply IH in E as ->.
      rewrite list_filter_filter. apply list_filter_iff. intros n. rewrite Forall_cons. unfold on_service. naive_solver.
    + apply IH in E as ->. apply list_filter_iff. intros n. rewrite Forall_cons. unfold on_service. naive_solver.
Qed.
Lemma resolve_allowed env s all names : lk_names env = Some all -> resolve_streams env s = Ok names -> names = filter (name_allowed s) all.
Proof. unfold resolve_streams. intros ->. apply retain_all_allows. Qed.
End allows.

(** What the clauses of these routes mean for a document, given the values a
    keyword field of it has. *)
#[local] Opaque LABEL_VALUES_LIMIT.
Section clauses.
Context `{LokiCrates} (has : json -> bytes -> bytes -> bool) (all : bytes -> list (Z * json)).

Definition int_of (j : json) : Z := match j with Number (PosInt n) | Number (NegInt n) => n | _ => 0 end.
Definition holds (d : Z * json) (clause : json) : bool :=
  match clause with
  | Object [(kind, Object [(label, v)])] =>
      if decide (kind = str "term") then match v with JString x => has d.2 label x | _ => false end
      else if decide (kind = str "terms") then match v with Array l => existsb (fun x => match x with JString x => has d.2 label x | _ => false end) l | _ => false end
      else (int_of (idx v (str "gte")) <=? d.1) && (d.1 <=? int_of (idx v (str "lte")))
  | _ => false
  end.
Definition bool_of (f m : list json) : json := obj [("bool", obj [("filter", Array f); ("must_not", Array m)])]%string.
Definition conds (f m : list json) (d : Z * json) : Prop := Forall (fun c => holds d c = true) f /\ Forall (fun c => holds d c = false) m.
(** A [bool] finds the documents that meet it; an aggregation that is not full
    lists every value in the range. *)
Class KeywordStore (search : bytes -> json -> result SearchFailure json) (docs : bytes -> json -> list (Z * json)) : Prop := {
  ks_bool stream f m d : d ∈ docs stream (bool_of f m) <-> d ∈ all stream /\ conds f m d;
  ks_values stream field a b r d v : search stream (field_values_body field (Some a) (Some b)) = Ok r ->
    (length (bucket_keys r) < LABEL_VALUES_LIMIT)%nat -> d ∈ all stream -> a <= d.1 <= b -> has d.2 field v = true -> v ∈ bucket_keys r;
}.

(** The documents a selector means: in the range, with the labels it asks for. *)
Definition label_allowed (d : Z * json) (m : LabelMatcher) : Prop :=
  match lm_op m with
  | MEq => has d.2 (lm_label m) (lm_value m) = true
  | MNeq => has d.2 (lm_label m) (lm_value m) = false
  | MRe => exists v, has d.2 (lm_label m) v = true /\ regex_of m v = true
  | MNotRe => ~ exists v, has d.2 (lm_label m) v = true /\ regex_of m v = true
  end.
Definition allowed (s : LogSelector) (start_ms end_ms : Z) (d : Z * json) : Prop :=
  start_ms <= d.1 <= end_ms /\ Forall (fun m => ~ on_service m -> label_allowed d m) (matchers s).

Lemma holds_term d label v : holds d (term label v) = has d.2 label v.
Proof. done. Qed.
Lemma holds_terms d label vs : holds d (terms label vs) = existsb (has d.2 label) vs.
Proof.
  transitivity (existsb (fun x => match x with JString x => has d.2 label x | _ => false end) (JString <$> vs)); [done|].
  induction vs as [|v vs IH]; [done|]. change (has d.2 label v || existsb (fun x => match x with JString x => has d.2 label x | _ => false end) (JString <$> vs) =
    has d.2 label v || existsb (has d.2 label) vs). by rewrite IH.
Qed.
Lemma holds_range d a b : holds d (time_range a b) = (a <=? d.1) && (d.1 <=? b).
Proof. unfold holds, time_range, obj1, json_i64. cbn. by destruct (a <? 0), (b <? 0). Qed.
Lemma conds_filter f m c d : conds (f ++ [c]) m d <-> conds f m d /\ holds d c = true.
Proof. unfold conds. rewrite Forall_app, Forall_singleton. tauto. Qed.
Lemma conds_not f m c d : conds f (m ++ [c]) d <-> conds f m d /\ holds d c = false.
Proof. unfold conds. rewrite Forall_app, Forall_singleton. tauto. Qed.

Context (env : LokiEnv) (search : bytes -> json -> result SearchFailure json) (docs : bytes -> json -> list (Z * json)).
Context (Hsearch : lk_search env = Some search) (K : KeywordStore search docs).
Lemma values_exact stream m start_ms end_ms vs d : field_values env stream (lm_label m) (Some start_ms) (Some end_ms) = Ok (vs, false) ->
  d ∈ all stream -> start_ms <= d.1 <= end_ms ->
  existsb (has d.2 (lm_label m)) (List.filter (regex_of m) vs) = true <-> exists v, has d.2 (lm_label m) v = true /\ regex_of m v = true.
Proof.
  unfold field_values. rewrite Hsearch. intros E Hd Ht. destruct (search stream _) as [r|e] eqn:Er; [|done]. injection E as <- Hlen%Nat.leb_gt.
  rewrite existsb_exists. split.
  - intros (v & Hv & Hh). apply filter_In in Hv as [_ Hv]. by exists v.
  - intros (v & Hh & Hv). exists v. split; [|done]. apply filter_In. split; [|done]. apply list_elem_of_In.
    by eapply (ks_values _ _ _ _ _ d v Er).
Qed.
Lemma clauses_exact stream start_ms end_ms ms f m r d : selector_clauses env stream start_ms end_ms ms f m = Ok r ->
  d ∈ all stream -> start_ms <= d.1 <= end_ms ->
  match r with Some (f', m') => conds f' m' d | None => False end <-> conds f m d /\ Forall (fun m => ~ on_service m -> label_allowed d m) ms.
Proof.
  intros E Hd Ht. revert f m E; induction ms as [|x ms IH]; intros f m E; cbn [selector_clauses] in E.
  { injection E as <-. split; [by intros ?|by intros [? _]]. }
  rewrite Forall_cons. destruct (decide (lm_label x = service_name)) as [Hs|Hs].
  { apply IH in E as ->. assert ((~ on_service x -> label_allowed d x) <-> True) as -> by (unfold on_service; tauto). tauto. }
  assert ((~ on_service x -> label_allowed d x) <-> label_allowed d x) as -> by (unfold on_service; tauto).
  unfold label_allowed at 1. destruct (lm_op x).
  - apply IH in E as ->. rewrite conds_filter, holds_term. tauto.
  - apply IH in E as ->. rewrite conds_not, holds_term. tauto.
  - destruct (anchored (lm_value x)) as [re|e] eqn:Ea; [|done]. cbn [mbind result_bind] in E.
    destruct (field_values _ _ _ _ _) as [[vs sat]|e] eqn:Ev; [|done]. cbn [mbind result_bind fst snd] in E. destruct sat; [done|].
    assert (re = regex_of x) as -> by (unfold regex_of; by rewrite Ea). rewrite <- (values_exact _ _ _ _ _ _ Ev Hd Ht).
    rewrite decide_True in E by done. case_decide as Hvs.
    + injection E as <-. rewrite Hvs. cbn. split; [done|naive_solver].
    + apply IH in E as ->. rewrite conds_filter, holds_terms. tauto.
  - destruct (anchored (lm_value x)) as [re|e] eqn:Ea; [|done]. cbn [mbind result_bind] in E.
    destruct (field_values _ _ _ _ _) as [[vs sat]|e] eqn:Ev; [|done]. cbn [mbind result_bind fst snd] in E. destruct sat; [done|].
    assert (re = regex_of x) as -> by (unfold regex_of; by rewrite Ea). rewrite <- (values_exact _ _ _ _ _ _ Ev Hd Ht).
    rewrite decide_False in E by done. apply IH in E as ->. case_decide as Hvs; [rewrite Hvs; cbn; naive_solver|].
    rewrite conds_not, holds_terms, not_true_iff_false. tauto.
Qed.
Lemma clauses_keep stream start_ms end_ms ms f m f' m' d : selector_clauses env stream start_ms end_ms ms f m = Ok (Some (f', m')) ->
  conds f' m' d -> conds f m d.
Proof.
  revert f m; induction ms as [|x ms IH]; intros f m E; cbn [selector_clauses] in E; [by injection E as <- <-|].
  destruct (decide (lm_label x = service_name)); [by apply IH|].
  destruct (lm_op x); [by intros [? _]%(IH _ _ E)%conds_filter|by intros [? _]%(IH _ _ E)%conds_not|..];
    (destruct (anchored (lm_value x)) as [re|e]; [|done]); cbn [mbind result_bind] in E;
    (destruct (field_values _ _ _ _ _) as [[vs [|]]|e]; [done| |done]); cbn [mbind result_bind fst snd] in E.
  - rewrite decide_True in E by done. case_decide; [done|]. by intros [? _]%(IH _ _ E)%conds_filter.
  - rewrite decide_False in E by done. case_decide; [by apply IH|]. by intros [? _]%(IH _ _ E)%conds_not.
Qed.
End clauses.

(** [C23] The query a selector becomes for a stream finds exactly the documents
    in the time range whose labels every matcher allows, and a stream is left
    out only when it has none. *)
Theorem selector_query_exact `{LokiCrates} has all env search docs (s : LogSelector) stream start_ms end_ms r d :
  lk_search env = Some search -> KeywordStore has all search docs -> selector_query env stream s start_ms end_ms = Ok r ->
  match r with Some q => d ∈ docs stream q | None => False end <-> d ∈ all stream /\ allowed has s start_ms end_ms d.
Proof.
  intros Hs K E. unfold selector_query in E. destruct (selector_clauses _ _ _ _ _ _ _) as [c|e] eqn:Ec; [|done]. injection E as <-.
  assert (conds has [time_range start_ms end_ms] [] d <-> start_ms <= d.1 <= end_ms) as Hr.
  { unfold conds. rewrite Forall_singleton, holds_range, andb_true_iff, !Z.leb_le. split; [tauto|]. intros ?. split; [tauto|constructor]. }
  assert (d ∈ all stream -> start_ms <= d.1 <= end_ms -> _) as Hex by exact (clauses_exact has all env search docs Hs K stream start_ms end_ms _ _ _ _ d Ec).
  unfold allowed. rewrite Hr in Hex. destruct c as [[f m]|]; cbn [fmap option_fmap option_map fst snd].
  - fold (bool_of f m). rewrite (ks_bool _ _ (KeywordStore := K)). split.
    + intros [Hd Hc]. assert (start_ms <= d.1 <= end_ms) as Ht by (apply Hr; by eapply clauses_keep). tauto.
    + intros (Hd & Ht & Ha). tauto.
  - split; [done|]. intros (Hd & Ht & Ha). tauto.
Qed.

(** ** Times and steps *)

Lemma digits_value_dec n : 0 <= n -> digits_value (dec n) = Some n.
Proof.
  intros Hn. unfold digits_value, dec. pose proof (dec_nonnil n) as Hd. unfold dec in Hd. destruct (uint_bytes _) eqn:E; [done|].
  rewrite <- E, bytes_uint_bytes. cbn. by rewrite DecimalN.Unsigned.of_to, Z2N.id.
Qed.
Lemma parse_i128_dec n : 0 <= n < 2 ^ 127 -> parse_i128 (dec n) = Some n.
Proof.
  intros Hn. pose proof (digits_value_dec n ltac:(lia)) as E. pose proof (dec_digits n) as Hd. unfold parse_i128.
  assert ((match dec n with x2d :: r => z ← digits_value r; Some (- z) | x2b :: r => digits_value r | _ => digits_value (dec n) end) = Some n) as ->.
  { destruct (dec n) as [|b l]; [done|]. apply Forall_cons in Hd as [Hb _]. destruct b; try (vm_compute in Hb; done); exact E. }
  cbn [mbind option_bind]. rewrite (proj2 (Z.leb_le I128_MIN n)) by (unfold I128_MIN; lia). by rewrite (proj2 (Z.ltb_lt n (2 ^ 127))) by lia.
Qed.
Lemma parse_time_dec `{LokiCrates} `{TextCodec} n : 0 <= n < 10 ^ 21 ->
  parse_time_ms (dec n) = to_i64 (if 100000000000000000 <=? n then n / 1000000 else if 100000000000000 <=? n then n / 1000 else if 100000000000 <=? n then n else n * 1000).
Proof.
  intros Hn. unfold parse_time_ms. rewrite parse_i128_dec by lia. assert (abs_i128 n = n) as ->.
  { unfold abs_i128, wrap_s. rewrite Z.abs_eq, Z.mod_small by lia. change (2 ^ (128 - 1)) with (2 ^ 127). by rewrite (proj2 (Z.ltb_lt n (2 ^ 127))) by lia. }
  repeat split_test; try (rewrite Z.quot_div_nonneg by lia; done); [done|]. unfold wrap_s. rewrite Z.mod_small by lia.
  change (2 ^ (128 - 1)) with (2 ^ 127). by rewrite (proj2 (Z.ltb_lt (n * 1000) (2 ^ 127))) by lia.
Qed.
(** From March 1973 to November 5138 an instant reads the same in
    seconds, milliseconds, microseconds and nanoseconds. *)
Theorem time_forms_agree `{LokiCrates} `{TextCodec} t : 100000000000 <= t < 100000000000000 ->
  parse_time_ms (dec t) = Some t /\ parse_time_ms (dec (t * 1000)) = Some t /\ parse_time_ms (dec (t * 1000000)) = Some t /\
  (t mod 1000 = 0 -> parse_time_ms (dec (t / 1000)) = Some t).
Proof.
  intros Ht. assert (to_i64 t = Some t) as E by (unfold to_i64, checked_i64; rewrite bool_decide_true; [done|unfold I64_MIN, I64_MAX; lia]).
  assert (t mod 1000 = 0 -> t / 1000 * 1000 = t) as Hd by (intros H1; pose proof (Z.div_mod t 1000); lia).
  assert (100000000 <= t / 1000 < 100000000000) as Hr by (split; [apply Z.div_le_lower_bound|apply Z.div_lt_upper_bound]; lia).
  split_and!; [| | |intros H1]; rewrite parse_time_dec by lia; repeat split_test; try lia; rewrite ?Z.div_mul by lia; try done. by rewrite Hd.
Qed.
(** A step is at least a millisecond. *)
Lemma step_positive `{LokiCrates} `{TextCodec} s step : parse_step_ms s = Some step -> 1 <= step.
Proof.
  unfold parse_step_ms. destruct (parse_f64 s); [intros [= <-]; lia|]. destruct (step_units _ _ _ _); [|done]. cbn [mbind option_bind].
  split_test; [intros [= <-]; lia|done].
Qed.

Lemma failed_length {A} (l : list (bytes * QueryR A)) : (length (omap failed l) <= length l)%nat.
Proof. induction l as [|[n [a|e]] l IH]; cbn; [done|lia..]. Qed.
Lemma failed_all {A} (l : list (bytes * QueryR A)) p : length (omap failed l) = length l -> p ∈ l -> exists e, p.2 = Err e.
Proof.
  induction l as [|[n [a|e]] l IH]; cbn; [by intros _ ?%not_elem_of_nil|pose proof (failed_length l); lia|].
  intros E [->|Hp]%elem_of_cons; [by exists e|apply IH; [lia|done]].
Qed.
Lemma not_all_failed {A} (l : list (bytes * QueryR A)) : length (omap failed l) <> length l -> exists p, p ∈ l /\ is_ok p.2 = true.
Proof.
  induction l as [|[n [a|e]] l IH]; cbn; [done|intros _; eexists; split; [left|done]|].
  intros Hne. destruct IH as (p & Hp & Ho); [lia|]. exists p. split; [by right|done].
Qed.
Definition run_answer (ws : list Warning) (n : bytes) (r : QueryR (list LogHit * bool)) : Prop :=
  match r with Err e => StreamFailed n e ∈ ws | Ok a => a.2 = true -> Saturated n ∈ ws end.
Lemma warned n r (ps : list (bytes * QueryR (list LogHit * bool))) : (n, r) ∈ ps -> run_answer (concat (stream_warnings snd <$> ps)) n r.
Proof.
  intros Hin. assert (forall w, w ∈ stream_warnings snd (n, r) -> w ∈ concat (stream_warnings snd <$> ps)) as Hw.
  { intros w Hw. apply elem_of_concat. exists (stream_warnings snd (n, r)). split; [done|]. apply list_elem_of_fmap. by exists (n, r). }
  unfold run_answer, stream_warnings in *. cbn in Hw. destruct r as [[k sat]|e]; [cbn; intros ->|]; apply Hw; left.
Qed.

(** A log query fails only when every stream does; otherwise it answers
    and warns of each stream that failed or whose scan was cut. *)
Theorem log_query_degrades `{LokiCrates} `{TextCodec} env search s start_ms end_ms limit forward names filters :
  lk_search env = Some search -> resolve_streams env s = Ok names -> compile_filters (LogQl.filters s) = Ok filters -> (forall l, lk_arrive env l ≡ₚ l) ->
  exists fetch, let run := run_stream env search s start_ms end_ms fetch forward filters in
  match run_log_query env s start_ms end_ms limit forward with
  | Err e => names <> [] /\ forall n, n ∈ names -> exists e', run n = Err e'
  | Ok o => (names = [] \/ exists n, n ∈ names /\ is_ok (run n) = true) /\ forall n, n ∈ names -> run_answer (warnings o) n (run n)
  end.
Proof.
  intros Hs Hn Hf Harr. unfold run_log_query. rewrite Hs, Hn, Hf. cbn [mbind result_bind].
  exists (if decide (filters = []) then (from_option (fun l => l `min` MAX_LIMIT) MAX_LIMIT limit)%nat else SCAN_LIMIT).
  set (run := run_stream env search s start_ms end_ms _ forward filters). set (ps := (fun n => (n, run n)) <$> lk_arrive env names).
  assert (forall n, n ∈ names -> (n, run n) ∈ ps) as Hps.
  { intros n Hin. apply list_elem_of_fmap. exists n. by rewrite Harr. }
  assert (forall p, p ∈ ps -> exists n, n ∈ names /\ p = (n, run n)) as Hsp.
  { intros p (n & -> & Hin)%list_elem_of_fmap. exists n. by rewrite Harr in Hin. }
  unfold merge_streams. destruct (omap failed ps) as [|e es] eqn:Ef; cbn [mbind result_bind].
  - split; [|intros n Hin; cbn [warnings]; by apply warned, Hps]. destruct names as [|n names']; [by left|right].
    destruct (not_all_failed ps) as (p & Hp & Ho).
    { rewrite Ef. intros E. symmetry in E. apply nil_length_inv in E. specialize (Hps n ltac:(left)). rewrite E in Hps. by apply not_elem_of_nil in Hps. }
    destruct (Hsp p Hp) as (m & Hm & ->). by exists m.
  - case_decide as El; cbn [mbind result_bind]; rewrite <- Ef in El.
    + split; [intros ->; unfold ps in Ef; assert (lk_arrive env [] = []) as E0 by (apply Permutation_nil_r, Harr); by rewrite E0 in Ef|].
      intros n Hin. destruct (failed_all ps (n, run n) El (Hps n Hin)) as [e' He]. by exists e'.
    + split; [|intros n Hin; cbn [warnings]; by apply warned, Hps]. right. destruct (not_all_failed ps El) as (p & Hp & Ho).
      destruct (Hsp p Hp) as (m & Hm & ->). by exists m.
Qed.

(** ** A small store *)

(** A regex that wants a character, and labels printed byte by byte. *)
Definition spell (s : bytes) : bytes := (s ≫= fun b => [x01; b]) ++ [x00].
Definition spell_labels (ls : list (bytes * bytes)) : bytes := concat ((fun kv => spell kv.1 ++ spell kv.2) <$> ls).
Lemma spell_prefix a b r s : spell a ++ r = spell b ++ s -> a = b /\ r = s.
Proof.
  unfold spell. revert b; induction a as [|x a IH]; intros [|y b]; cbn; try done; [by intros [= ->]|].
  intros [= -> E]. by apply IH in E as [-> ->].
Qed.
#[export] Instance spell_labels_inj : Inj (=) (=) spell_labels.
Proof.
  intros a. induction a as [|[k v] a IH]; intros [|[l u] b]; cbn; [done| | |].
  - unfold spell. by destruct l.
  - unfold spell. by destruct k.
  - fold (spell_labels a) (spell_labels b). rewrite <- (app_assoc (spell k)), <- (app_assoc (spell l)). intros [-> [-> E]%spell_prefix]%spell_prefix. by rewrite (IH b).
Qed.
#[export] Instance demo_crates : LokiCrates := {
  regex_new := fun _ => Some (fun s => negb (bool_decide (s = [])));
  form_decode := fun _ => [];
  rfc3339_nanos := fun _ => None;
  f64_display := dec_i;
  debug_labels := spell_labels;
}.
#[export] Instance demo_codec : TextCodec := { json_to_string := fun _ => str "?"; parse_f64 := fun s => f64_of_Z <$> parse_i64 s }.

Definition demo_source (level message : string) : json := Object [(str "level", JString (str level)); (str "message", JString (str message))].
Definition demo_all (stream : bytes) : list (Z * json) :=
  if decide (stream = str "api") then [(100000, demo_source "info" "hello"); (103000, demo_source "warn" "help"); (104500, demo_source "info" "bye")]
  else if decide (stream = str "web") then [(101000, demo_source "warn" "held")] else [].
Definition demo_has (source : json) (label v : bytes) : bool := match get source label with Some (JString x) => bool_decide (x = v) | _ => false end.
Definition demo_docs (stream : bytes) (q : json) : list (Z * json) :=
  let clauses k := default [] (as_array (idx (idx q (str "bool")) (str k))) in
  List.filter (fun d => forallb (holds demo_has d) (clauses "filter") && forallb (fun c => negb (holds demo_has d c)) (clauses "must_not")) (demo_all stream).
Definition demo_hit (d : Z * json) : json := obj [("sort", Array [json_i64 d.1]); ("_source", d.2)]%string.
Definition demo_values (stream field : bytes) : list bytes := omap (fun d : Z * json => v ← get d.2 field; as_str v) (demo_all stream).
Definition demo_search (stream : bytes) (body : json) : result SearchFailure json :=
  match get body (str "aggs") with
  | Some aggs =>
      match as_str (idx (idx (idx aggs (str "v")) (str "terms")) (str "field")) with
      | Some field => Ok (obj [("aggregations", obj [("v", obj [("buckets", Array ((fun v => obj [("key", JString v)]%string) <$> demo_values stream field))])])]%string)
      | None => Ok Null
      end
  | None =>
      let ds := demo_docs stream (idx body (str "query")) in
      let forward := json_eqb (idx (idx (at0 (idx body (str "sort"))) TIMESTAMP) (str "order")) (JString (str "asc")) in
      let n := Z.to_nat (default 0 (as_u64 (idx body (str "size")))) in
      Ok (obj [("hits", obj [("hits", Array (demo_hit <$> take n (if forward then ds else reverse ds)))])]%string)
  end.
Definition demo_env : LokiEnv :=
  mkEnv (Some [str "api"; str "web"; str "other"]) (fun _ => [str "level"]) (Some demo_search) reverse 105000.

Lemma demo_sorted stream q : StronglySorted (doc_by_time true) (demo_docs stream q).
Proof.
  unfold demo_docs. assert (StronglySorted (doc_by_time true) (demo_all stream)) as H.
  { unfold demo_all. repeat case_decide; repeat constructor; unfold doc_by_time; cbn; lia. }
  set (keep := fun _ => _ && _). clearbody keep. induction H as [|d l Hl IH Hd]; [constructor|]. cbn [List.filter]. destruct (keep d); [|done].
  constructor; [done|]. rewrite Forall_forall in Hd |- *. intros x Hx%list_elem_of_In%filter_In. apply Hd. apply list_elem_of_In. tauto.
Qed.
Lemma sorted_reverse l : StronglySorted (doc_by_time true) l -> StronglySorted (doc_by_time false) (reverse l).
Proof.
  induction 1 as [|d l Hl IH Hd]; [constructor|]. rewrite reverse_cons. apply StronglySorted_app_2; [|done|repeat constructor].
  intros x y Hx ->%list_elem_of_singleton. rewrite elem_of_reverse in Hx. rewrite Forall_forall in Hd. exact (Hd x Hx).
Qed.
Lemma demo_in_all stream q d : d ∈ demo_docs stream q -> d ∈ demo_all stream.
Proof. unfold demo_docs. intros Hd%list_elem_of_In%filter_In. apply list_elem_of_In. tauto. Qed.
Lemma demo_reads stream d : d ∈ demo_all stream -> reads (demo_hit d) d.
Proof.
  intros Hd. split; [|done]. assert (0 <= d.1 <= I64_MAX) as Hb.
  { assert (Forall (fun d => 0 <= d.1 <= I64_MAX) (demo_all stream)) as H; [|rewrite Forall_forall in H; by apply H].
    unfold demo_all, I64_MAX. repeat case_decide; repeat constructor; cbn; lia. }
  change (as_i64 (json_i64 d.1) = Some d.1). unfold json_i64, as_i64. rewrite (proj2 (Z.ltb_ge _ _)) by lia. by rewrite (proj2 (Z.leb_le _ _)) by lia.
Qed.
#[export] Instance demo_store : LogStore demo_search demo_docs.
Proof.
  assert (forall stream fetch forward q, demo_search stream (log_body fetch forward q) =
    Ok (obj [("hits", obj [("hits", Array (demo_hit <$> take fetch (if forward then demo_docs stream q else reverse (demo_docs stream q))))])]%string)) as E.
  { intros stream fetch forward q. transitivity (Ok (E := SearchFailure) (obj [("hits", obj [("hits", Array (demo_hit <$>
      take (Z.to_nat (Z.of_nat fetch)) (if forward then demo_docs stream q else reverse (demo_docs stream q))))])]%string)); [destruct forward; reflexivity|by rewrite Nat2Z.id]. }
  split; intros stream fetch forward q; rewrite E; [|done]. intros r [= <-].
  exists (if forward then demo_docs stream q else reverse (demo_docs stream q)). split_and!.
  - destruct forward; [done|apply reverse_Permutation].
  - destruct forward; [apply demo_sorted|apply sorted_reverse, demo_sorted].
  - change (Forall2 reads (demo_hit <$> take fetch (if forward then demo_docs stream q else reverse (demo_docs stream q)))
      (take fetch (if forward then demo_docs stream q else reverse (demo_docs stream q)))).
    apply Forall2_fmap_l, Forall_Forall2_diag, Forall_forall. intros d Hd%elem_of_take. apply (demo_reads stream), (demo_in_all _ q).
    destruct Hd as (i & Hd & _). apply list_elem_of_lookup_2 in Hd. destruct forward; [done|by apply elem_of_reverse].
Qed.
#[export] Instance demo_keywords : KeywordStore demo_has demo_all demo_search demo_docs.
Proof.
  split.
  - intros stream f m d. unfold conds. change (demo_docs stream (bool_of f m)) with
      (List.filter (fun d => forallb (holds demo_has d) f && forallb (fun c => negb (holds demo_has d c)) m) (demo_all stream)).
    rewrite list_elem_of_In, filter_In, <- list_elem_of_In, andb_true_iff, !forallb_forall, !Forall_forall.
    setoid_rewrite list_elem_of_In. setoid_rewrite negb_true_iff. tauto.
  - intros stream field a b r d v E _ Hd _ Hv. assert (r = obj [("aggregations", obj [("v", obj [("buckets", Array ((fun v => obj [("key", JString v)]%string) <$> demo_values stream field))])])]%string) as -> by (by injection E).
    clear E. change (bucket_keys _) with (omap (fun b => as_str (idx b (str "key"))) ((fun v => obj [("key", JString v)]%string) <$> demo_values stream field)).
    apply list_elem_of_omap. exists (obj [("key", JString v)]%string). split; [|done]. apply list_elem_of_fmap. exists v. split; [done|].
    apply list_elem_of_omap. exists d. split; [done|]. unfold demo_has in Hv. destruct (get d.2 field) as [[| | |x| |]|]; try done. apply bool_decide_eq_true in Hv as ->. done.
Qed.

(** [{service_name=~"…", level!="warn"}] and [{service_name=~"…"} |= "he"]. *)
Definition demo_selector : LogSelector :=
  mkSelector [mkMatcher service_name MRe (str ".+"); mkMatcher (str "level") MNeq (str "warn")] [].
Definition demo_filtered : LogSelector := mkSelector [mkMatcher service_name MRe (str ".+")] [mkFilter Contains (str "he")].
Definition demo_lines : LogQueryOutcome :=
  match run_log_query demo_env demo_filtered 98000 105000 (Some 2%nat) false with Ok o => o | Err _ => mkOutcome [] [] end.
Lemma demo_runs : run_log_query demo_env demo_filtered 98000 105000 (Some 2%nat) false = Ok demo_lines /\ warnings demo_lines = [] /\
  ts_ms <$> hits demo_lines = [103000; 101000].
Proof. split_and!; vm_compute; reflexivity. Qed.
Lemma demo_arrive l : lk_arrive demo_env l ≡ₚ l.
Proof. apply reverse_Permutation. Qed.

Lemma log_query_exact_witness : exists names filters,
  resolve_streams demo_env demo_filtered = Ok names /\ compile_filters (LogQl.filters demo_filtered) = Ok filters /\
  first_of (by_time false) 2 (hits demo_lines) (concat (matching demo_env demo_docs demo_filtered filters 98000 105000 <$> names)).
Proof.
  destruct demo_runs as (E & Hw & _). apply (log_query_exact demo_env demo_docs demo_search demo_filtered 98000 105000 2 false demo_lines); try done.
  - apply demo_store.
  - apply demo_arrive.
  - unfold MAX_LIMIT. lia.
Defined.

Lemma selector_query_exact_witness : exists q, selector_query demo_env (str "api") demo_selector 100000 105000 = Ok (Some q) /\
  ((104500, demo_source "info" "bye") ∈ demo_docs (str "api") q <->
   (104500, demo_source "info" "bye") ∈ demo_all (str "api") /\ allowed demo_has demo_selector 100000 105000 (104500, demo_source "info" "bye")).
Proof.
  eexists. assert (selector_query demo_env (str "api") demo_selector 100000 105000 = Ok (Some (bool_of
    [time_range 100000 105000] [term (str "level") (str "warn")]))) as E by reflexivity. split; [exact E|].
  apply (selector_query_exact demo_has demo_all demo_env demo_search demo_docs demo_selector (str "api") 100000 105000 _ _ eq_refl demo_keywords E).
Defined.
