(* ===== verification/LokiMetric.v ===== *)
(** * The Loki routes: metric queries (crates/rsearch-server/src/loki_api.rs)

    Counts are collected in buckets of the greatest common divisor of the step
    and the range, and each step point sums the buckets of its trailing window.
    Times are [i64] and wrap; a loop that does not end within the number of
    steps a query may have is [Running]. *)

From Stdlib Require Import ZArith Lia.
From Stdlib Require Import Strings.Byte.
From stdpp Require Import base gmap sets list strings sorting.
From S2P Require Import Prelude Utf8 Order Json Float64 Mapping LogQl Loki.

Local Open Scope Z_scope.

(** [i64] arithmetic in release: it wraps. *)
Definition w64 (z : Z) : Z := wrap_s 64 z.

(** Euclid's loop; 64-bit arguments take fewer than [GCD_FUEL] rounds. *)
Fixpoint gcd_loop (fuel : nat) (a b : Z) : Z :=
  match fuel with O => a | S fuel => if b =? 0 then a else gcd_loop fuel b (Z.rem a b) end.
Definition GCD_FUEL : nat := 130.
Definition gcd (a b : Z) : Z := gcd_loop GCD_FUEL (Z.max a 1) (Z.max b 1).

(** ** Series *)

Definition Labels := list (bytes * bytes).
(** A [BTreeMap<i64, f64>], sorted by bucket. *)
Definition Buckets := list (Z * Z).
Definition SeriesMap := list (bytes * (Labels * Buckets)).
Record MetricOutcome := mkMetricOutcome { mo_series : SeriesMap; bucket_ms : Z; mo_warnings : list Warning }.

(** [*entry(k).or_insert(0.0) += count]. *)
Fixpoint bump (k count : Z) (m : Buckets) : Buckets :=
  match m with
  | [] => [(k, f64_add 0 count)]
  | (k', v) :: m' =>
      if k =? k' then (k, f64_add v count) :: m'
      else if k <? k' then (k, f64_add 0 count) :: m else (k', v) :: bump k count m'
  end.

Section metric.
Context `{LokiCrates} `{TextCodec}.

(** A sample: the labels it counts for, its bucket and its count. *)
Definition push_sample (m : SeriesMap) (x : Labels * Z * Z) : SeriesMap :=
  let key := debug_labels x.1.1 in
  let entry := default (x.1.1, []) (bt_get key m) in
  bt_insert key (entry.1, bump x.1.2 x.2 entry.2) m.

Definition ONE : Z := f64_of_Z 1.
Definition series_labels (m : MetricQuery) (group_label : option bytes) (ls : Labels) : option Labels :=
  match group_label with
  | Some label => (fun v => [(label, v)]) <$> bt_get label ls
  | None => if summed m then Some [] else Some [(service_name, default [] (bt_get service_name ls))]
  end.
Definition floor_to (b t : Z) : Z := w64 (t / b * b).
Definition hit_sample (m : MetricQuery) (group_label : option bytes) (bucket : Z) (h : LogHit) : option (Labels * Z * Z) :=
  ls ← series_labels m group_label (labels h); Some (ls, floor_to bucket (ts_ms h), ONE).

(** The histogram of one stream. *)
Definition histogram_aggs (bucket : Z) (group_label : option bytes) : json :=
  let histogram := ("date_histogram", obj [("field", JString TIMESTAMP); ("fixed_interval", JString (dec_i bucket ++ str "ms"))])%string in
  match group_label with
  | Some label =>
      if decide (label = service_name) then obj [("ts", obj [histogram])]%string
      else obj [("ts", obj [histogram; ("aggs", obj [("by", obj [("terms", obj [("field", JString label); ("size", nat_json LABEL_VALUES_LIMIT)])])])])]%string
  | None => obj [("ts", obj [histogram])]%string
  end.
Definition histogram_body (query : json) (bucket : Z) (group_label : option bytes) : json :=
  obj [("size", nat_json 0); ("track_total_hits", Bool false); ("query", query); ("aggs", histogram_aggs bucket group_label)]%string.
Definition bucket_ts (b : json) : Z := match as_f64 (idx b (str "key")) with Some k => f64_as_i64 k | None => 0 end.
Definition doc_count (b : json) : Z := default 0 (as_f64 (idx b (str "doc_count"))).
Definition key_text (k : json) : bytes := match k with JString s => s | other => json_to_string other end.
Definition array_of (j : json) : list json := default [] (as_array j).
Definition bucket_samples (group_label : option bytes) (b : json) : list (Z * option bytes * Z) :=
  let whole := [(bucket_ts b, None, doc_count b)] in
  match group_label with
  | Some label =>
      if decide (label = service_name) then whole
      else (fun sub => (bucket_ts b, Some (key_text (idx sub (str "key"))), doc_count sub)) <$> array_of (idx (idx b (str "by")) (str "buckets"))
  | None => whole
  end.
Definition run_histogram (env : LokiEnv) (search : bytes -> json -> result SearchFailure json) (m : MetricQuery)
    (fetch_start_ms end_ms bucket : Z) (group_label : option bytes) (stream : bytes) : QueryR (list (Z * option bytes * Z)) :=
  query ← selector_query env stream (mq_selector m) fetch_start_ms end_ms;
  match query with
  | None => mret []
  | Some query =>
      match search stream (histogram_body query bucket group_label) with
      | Err SStreamNotFound => mret []
      | Err e => Err (from_search e)
      | Ok result => mret (concat (bucket_samples group_label <$> array_of (idx (idx (idx result (str "aggregations")) (str "ts")) (str "buckets"))))
      end
  end.
Definition sample_labels (m : MetricQuery) (group_label : option bytes) (stream : bytes) (value : option bytes) : Labels :=
  match group_label, value with
  | Some label, Some v => [(label, v)]
  | None, _ => if summed m then [] else [(service_name, stream)]
  | Some _, None => [(service_name, stream)]
  end.
Definition stream_samples (m : MetricQuery) (group_label : option bytes) (r : bytes * QueryR (list (Z * option bytes * Z))) : list (Labels * Z * Z) :=
  match r.2 with
  | Ok samples => (fun x => (sample_labels m group_label r.1 x.1.2, x.1.1, x.2)) <$> samples
  | Err _ => []
  end.

Definition run_metric_query (env : LokiEnv) (m : MetricQuery) (start_ms end_ms step_ms : Z) : QueryR MetricOutcome :=
  if (1 <? length (group_by m))%nat then Err (User ManyGroups)
  else
    let group_label := head (group_by m) in
    let bucket := gcd step_ms (range_millis m) in
    if MAX_METRIC_BUCKETS <? Z.quot (w64 (w64 (end_ms - start_ms) + range_millis m)) bucket then Err (User TooManyBuckets)
    else
      let fetch_start_ms := w64 (start_ms - range_millis m) in
      if decide (LogQl.filters (mq_selector m) <> []) then
        outcome ← run_log_query env (mq_selector m) fetch_start_ms end_ms None false;
        mret (mkMetricOutcome (foldl push_sample [] (omap (hit_sample m group_label bucket) (hits outcome))) bucket (warnings outcome))
      else
        match lk_search env with
        | None => Err (Backend NoSearchRole)
        | Some search =>
            streams ← resolve_streams env (mq_selector m);
            let per_stream := (fun n => (n, run_histogram env search m fetch_start_ms end_ms bucket group_label n)) <$> lk_arrive env streams in
            let ws := concat (stream_warnings (fun _ => false) <$> per_stream) in
            if decide (length (omap failed per_stream) = length per_stream /\ per_stream <> []) then Err (Backend AllFailed)
            else mret (mkMetricOutcome (foldl push_sample [] (concat (stream_samples m group_label <$> per_stream))) bucket ws)
        end.

(** ** Step points *)

Inductive Stepped (A : Type) := Points (a : A) | Running | RangePanics.
Arguments Points {A} _.
Arguments Running {A}.
Arguments RangePanics {A}.
#[export] Instance stepped_ret : MRet Stepped := @Points.
#[export] Instance stepped_bind : MBind Stepped := fun A B f s => match s with Points a => f a | Running => Running | RangePanics => RangePanics end.

(** [sum::<f64>()] of the counts in a window. *)
Definition f64_sum (l : list Z) : Z := foldl f64_add 0 l.
Definition in_window (lo hi t : Z) : bool := (lo <=? t) && (t <? hi).
Definition window (lo hi : Z) (b : Buckets) : Buckets := List.filter (fun kv => in_window lo hi kv.1) b.
Definition divisor (m : MetricQuery) : Z :=
  match mq_op m with Rate => f64_div_pos (f64_of_Z (Z.max (range_millis m) 1)) (f64_of_Z 1000) | CountOverTime => ONE end.
Definition point (m : MetricQuery) (t sum : Z) : list (Z * Z) := if f64_pos sum then [(t, f64_div_pos sum (divisor m))] else [].
(** More steps than the check on buckets lets a query have. *)
Definition STEP_FUEL : nat := 20002.
(** [BTreeMap::range] panics when its ends are out of order. *)
Fixpoint step_loop (fuel : nat) (m : MetricQuery) (bucket end_ms step_ms : Z) (b : Buckets) (t : Z) : Stepped (list (Z * Z)) :=
  if t <=? end_ms then
    match fuel with
    | O => Running
    | S fuel =>
        let hi := floor_to bucket t in
        let lo := w64 (hi - range_millis m) in
        if hi <? lo then RangePanics
        else
          rest ← step_loop fuel m bucket end_ms step_ms b (w64 (t + step_ms));
          mret (point m t (f64_sum (window lo hi b).*2) ++ rest)
    end
  else mret [].
Definition series_points (m : MetricQuery) (bucket start_ms end_ms step_ms : Z) (b : Buckets) : Stepped (list (Z * Z)) :=
  if start_ms =? end_ms then mret (point m start_ms (f64_sum b.*2))
  else step_loop STEP_FUEL m bucket end_ms step_ms b start_ms.
Fixpoint to_step_points (m : MetricQuery) (bucket start_ms end_ms step_ms : Z) (series : list (Labels * Buckets))
    : Stepped (list (Labels * list (Z * Z))) :=
  match series with
  | [] => mret []
  | (ls, b) :: series =>
      points ← series_points m bucket start_ms end_ms step_ms b;
      rest ← to_step_points m bucket start_ms end_ms step_ms series;
      mret (if decide (points = []) then rest else (ls, points) :: rest)
  end.

Definition time_json (ts : Z) : json := json_f64 (f64_div_pos (f64_of_Z ts) (f64_of_Z 1000)).
Definition to_matrix_result (series : list (Labels * list (Z * Z))) : json :=
  obj [("resultType", JString (str "matrix"));
       ("result", Array ((fun s => obj [("metric", labels_json s.1);
          ("values", Array ((fun p => Array [time_json p.1; JString (f64_display p.2)]) <$> s.2))]%string) <$> series));
       ("stats", Object [])]%string.
End metric.
Arguments Points {A} _.
Arguments Running {A}.
Arguments RangePanics {A}.

(** ** Euclid's loop *)

Lemma gcd_loop_zero fuel a : gcd_loop fuel a 0 = a.
Proof. by destruct fuel. Qed.
Lemma gcd_loop_down fuel a b : 0 < b <= a -> Z.log2 a + Z.log2 b < Z.of_nat fuel -> gcd_loop fuel a b = Z.gcd a b.
Proof.
  revert a b; induction fuel as [|fuel IH]; intros a b Hb Hf; [pose proof (Z.log2_nonneg a); pose proof (Z.log2_nonneg b); lia|].
  cbn [gcd_loop]. rewrite (proj2 (Z.eqb_neq b 0)), Z.rem_mod_nonneg by lia. pose proof (Z.mod_pos_bound a b ltac:(lia)) as Hr.
  assert (Z.gcd a b = Z.gcd b (a mod b)) as -> by (rewrite Z.gcd_comm, <- Z.gcd_mod, Z.gcd_comm by lia; done).
  destruct (decide (a mod b = 0)) as [->|Hne]; [by rewrite gcd_loop_zero, Z.gcd_0_r, Z.abs_eq by lia|].
  apply IH; [lia|]. assert (2 * (a mod b) <= a) as Ha.
  { pose proof (Z.div_mod a b ltac:(lia)). assert (1 <= a / b) by (apply Z.div_le_lower_bound; lia). nia. }
  assert (Z.log2 (a mod b) < Z.log2 a); [|lia]. apply Z.log2_le_mono in Ha. rewrite Z.log2_double in Ha by lia. lia.
Qed.
Lemma gcd_loop_swap fuel a b : 0 <= a < b -> gcd_loop (S fuel) a b = gcd_loop fuel b a.
Proof. intros Hb. cbn [gcd_loop]. by rewrite (proj2 (Z.eqb_neq b 0)), Z.rem_small by lia. Qed.
Lemma gcd_exact a b : a <= I64_MAX -> b <= I64_MAX -> gcd a b = Z.gcd (Z.max a 1) (Z.max b 1).
Proof.
  intros Ha Hb. unfold gcd. set (x := Z.max a 1). set (y := Z.max b 1). assert (1 <= x <= I64_MAX) as Hx by (unfold I64_MAX in *; lia).
  assert (1 <= y <= I64_MAX) as Hy by (unfold I64_MAX in *; lia). clearbody x y.
  assert (forall z, 1 <= z <= I64_MAX -> Z.log2 z <= 62) as Hl by (intros z Hz; change 62 with (Z.log2 I64_MAX); apply Z.log2_le_mono; lia).
  pose proof (Hl x Hx). pose proof (Hl y Hy). destruct (decide (y <= x)); [apply gcd_loop_down; unfold GCD_FUEL; lia|].
  change GCD_FUEL with (S 129). rewrite gcd_loop_swap by lia.
  rewrite Z.gcd_comm. apply gcd_loop_down; lia.
Qed.
Lemma gcd_positive a b : a <= I64_MAX -> b <= I64_MAX -> 1 <= gcd a b /\ (1 <= a -> gcd a b <= a /\ (gcd a b | a)) /\ (1 <= b -> (gcd a b | b)).
Proof.
  intros Ha Hb. rewrite gcd_exact by done. set (x := Z.max a 1). set (y := Z.max b 1).
  pose proof (Z.gcd_divide_l x y) as D1. pose proof (Z.gcd_divide_r x y) as D2. pose proof (Z.gcd_nonneg x y) as H0.
  assert (Z.gcd x y <> 0) by (intros E%Z.gcd_eq_0_l; unfold x in E; lia).
  assert (1 <= a -> x = a) as Ex by lia. assert (1 <= b -> y = b) as Ey by lia. clearbody x y. generalize dependent (Z.gcd x y). intros g D1 D2 H0 Hg.
  split_and!; [lia|intros H1; rewrite (Ex H1) in D1; split; [by apply Z.divide_pos_le; [lia|]|done]|intros H1; by rewrite (Ey H1) in D2].
Qed.

(** ** Counts are sums *)

Lemma f64_add_0 n : 0 <= n <= 2 ^ 53 -> f64_add 0 (f64_of_Z n) = f64_of_Z n.
Proof.
  intros Hn. pose proof (f64_add_exact 0 n ltac:(lia) ltac:(lia) ltac:(lia)) as E. rewrite Z.add_0_l in E. rewrite <- E at 2. reflexivity.
Qed.
Lemma f64_sum_exact ns acc : 0 <= acc -> Forall (fun n => 0 <= n) ns -> acc + foldr Z.add 0 ns <= 2 ^ 53 ->
  foldl f64_add (f64_of_Z acc) (f64_of_Z <$> ns) = f64_of_Z (acc + foldr Z.add 0 ns).
Proof.
  intros Ha Hns. revert acc Ha; induction Hns as [|n ns Hn Hns IH]; intros acc Ha Hs; [by rewrite Z.add_0_r|]. cbn [foldr] in *.
  assert (0 <= foldr Z.add 0 ns) by (clear -Hns; induction Hns; cbn; lia).
  cbn [fmap list_fmap foldl]. rewrite f64_add_exact by lia. change (list_fmap Z Z f64_of_Z ns) with (f64_of_Z <$> ns). rewrite IH by lia. f_equal. lia.
Qed.
(** The buckets with their counts as integers, and what a window of them holds. *)
Fixpoint bumpZ (k n : Z) (m : list (Z * Z)) : list (Z * Z) :=
  match m with
  | [] => [(k, n)]
  | (k', v) :: m' => if k =? k' then (k, v + n) :: m' else if k <? k' then (k, n) :: m else (k', v) :: bumpZ k n m'
  end.
Definition total (P : Z -> bool) (m : list (Z * Z)) : Z := foldr Z.add 0 (List.filter (fun kv => P kv.1) m).*2.
Definition as_f64s (m : list (Z * Z)) : Buckets := prod_map id f64_of_Z <$> m.
Lemma as_f64s_cons k v m : as_f64s ((k, v) :: m) = (k, f64_of_Z v) :: as_f64s m.
Proof. done. Qed.
Definition counts (m : list (Z * Z)) : Prop := Forall (fun kv => 0 <= kv.2) m.
Lemma total_cons P kv m : total P (kv :: m) = (if P kv.1 then kv.2 else 0) + total P m.
Proof. unfold total. cbn. by destruct (P kv.1). Qed.
Lemma total_bumpZ P k n m : total P (bumpZ k n m) = total P m + if P k then n else 0.
Proof.
  induction m as [|[k' v] m IH]; [cbn [bumpZ]; rewrite total_cons; cbn; lia|]. cbn [bumpZ]. destruct (Z.eqb_spec k k') as [->|].
  - rewrite !total_cons. cbn. destruct (P k'); lia.
  - destruct (k <? k'); rewrite !total_cons; cbn [fst snd]; [|rewrite IH]; lia.
Qed.
Lemma total_bounds P m : counts m -> 0 <= total P m <= total (fun _ => true) m.
Proof.
  induction 1 as [|[k v] m Hv Hm IH]; [by vm_compute|]. rewrite !total_cons. cbn in *. destruct (P k); lia.
Qed.
Lemma counts_bumpZ k n m : 0 <= n -> counts m -> counts (bumpZ k n m).
Proof.
  intros Hn. induction 1 as [|[k' v] m Hv Hm IH]; [by repeat constructor|]. cbn [bumpZ]. cbn in Hv.
  destruct (k =? k'); [constructor; [cbn; lia|done]|]. destruct (k <? k'); by repeat constructor.
Qed.
Lemma bump_as_f64s k n m : 0 <= n -> counts m -> total (fun _ => true) m + n <= 2 ^ 53 ->
  bump k (f64_of_Z n) (as_f64s m) = as_f64s (bumpZ k n m).
Proof.
  intros Hn Hm. assert (n <= 2 ^ 53 -> f64_add 0 (f64_of_Z n) = f64_of_Z n) as H0 by (intros; apply f64_add_0; lia).
  induction Hm as [|[k' v] m Hv Hm IH]; intros Hs; [cbn in *; rewrite H0 by lia; done|]. rewrite total_cons in Hs. cbn [fst snd] in *.
  pose proof (total_bounds (fun _ => true) m Hm) as Hb. rewrite as_f64s_cons. cbn [bump bumpZ].
  destruct (k =? k'); [rewrite f64_add_exact by lia; done|]. destruct (k <? k'); [rewrite H0 by lia; done|].
  by rewrite as_f64s_cons, IH by lia.
Qed.
Lemma window_sum m (P : Z -> bool) : counts m -> total (fun _ => true) m <= 2 ^ 53 ->
  f64_sum (List.filter (fun kv => P kv.1) (as_f64s m)).*2 = f64_of_Z (total P m).
Proof.
  intros Hm Hs. pose proof (total_bounds P m Hm) as Hb. unfold f64_sum.
  assert ((List.filter (fun kv => P kv.1) (as_f64s m)).*2 = f64_of_Z <$> (List.filter (fun kv => P kv.1) m).*2) as ->.
  { clear. induction m as [|[k v] m IH]; [done|]. cbn. destruct (P k); cbn; [by f_equal|done]. }
  pose proof (f64_sum_exact (List.filter (fun kv => P kv.1) m).*2 0) as E. fold (total P m) in E. rewrite Z.add_0_l in E.
  etrans; [|apply E]; [reflexivity|lia| |lia].
  clear -Hm. induction Hm as [|[k v] m Hv _ IH]; [constructor|]. cbn. destruct (P k); [by constructor|done].
Qed.

(** ** What a series holds *)

Section series.
Context `{LokiCrates} `{TextCodec} (Hdebug : Inj (=) (=) debug_labels).
Notation Samples := (list (Labels * Z * Z)).

Definition samples_for (ls : Labels) (xs : Samples) : list (Z * Z) :=
  omap (fun x => if decide (x.1.1 = ls) then Some (x.1.2, x.2) else None) xs.
Definition series_of (xs : Samples) : SeriesMap := foldl push_sample [] ((fun x : Labels * Z * Z => (x.1, f64_of_Z x.2)) <$> xs).
Definition holds_samples (b : Buckets) (l : list (Z * Z)) : Prop :=
  exists m, b = as_f64s m /\ counts m /\ forall P, total P m = total P l.
Definition sample_count (xs : Samples) : Z := foldr Z.add 0 xs.*2.
Definition series_ok (s : SeriesMap) (xs : Samples) : Prop :=
  keys_sorted s /\ (forall key e, bt_get key s = Some e -> key = debug_labels e.1) /\
  forall ls, match bt_get (debug_labels ls) s with
             | Some e => e.1 = ls /\ holds_samples e.2 (samples_for ls xs) /\ samples_for ls xs <> []
             | None => samples_for ls xs = []
             end.

Lemma total_app P l k : total P (l ++ k) = total P l + total P k.
Proof. induction l as [|x l IH]; [by rewrite Z.add_0_l|]. cbn [app]. rewrite !total_cons, IH. lia. Qed.
Lemma samples_snoc ls xs x : samples_for ls (xs ++ [x]) = samples_for ls xs ++ if decide (x.1.1 = ls) then [(x.1.2, x.2)] else [].
Proof. unfold samples_for. rewrite omap_app. cbn. by case_decide. Qed.
Lemma samples_cons ls x xs : samples_for ls (x :: xs) = (if decide (x.1.1 = ls) then [(x.1.2, x.2)] else []) ++ samples_for ls xs.
Proof. unfold samples_for. cbn. by case_decide. Qed.
Lemma samples_total ls xs : Forall (fun x => 0 <= x.2) xs -> total (fun _ => true) (samples_for ls xs) <= sample_count xs /\ 0 <= sample_count xs.
Proof.
  induction 1 as [|x xs Hx _ IH]; [by vm_compute|]. rewrite samples_cons. change (sample_count (x :: xs)) with (x.2 + sample_count xs).
  case_decide; cbn [app]; [rewrite total_cons; cbn [fst snd]|]; lia.
Qed.
Lemma sample_count_snoc xs x : sample_count (xs ++ [x]) = sample_count xs + x.2.
Proof. unfold sample_count. rewrite fmap_app, foldr_app. cbn. induction xs as [|y xs IH]; cbn; [lia|]. lia. Qed.
Lemma series_of_snoc xs x : series_of (xs ++ [x]) = push_sample (series_of xs) (x.1, f64_of_Z x.2).
Proof. unfold series_of. by rewrite fmap_app, foldl_app. Qed.

Lemma holds_bump b l t n : holds_samples b l -> 0 <= n -> total (fun _ => true) l + n <= 2 ^ 53 -> holds_samples (bump t (f64_of_Z n) b) (l ++ [(t, n)]).
Proof.
  intros (m & -> & Hc & Ht) Hn Hs. exists (bumpZ t n m). split_and!; [apply bump_as_f64s; [done..|by rewrite Ht]|by apply counts_bumpZ|].
  intros P. rewrite total_bumpZ, total_app, total_cons, Ht. cbn. lia.
Qed.
Lemma series_exact xs : Forall (fun x => 0 <= x.2) xs -> sample_count xs <= 2 ^ 53 -> series_ok (series_of xs) xs.
Proof.
  induction xs as [|[[ls0 t] n] xs IH] using rev_ind; intros Hx Hs.
  { split_and!; [constructor|done|done]. }
  rewrite Forall_app, Forall_singleton in Hx. destruct Hx as [Hxs Hx]. cbn in Hx. rewrite sample_count_snoc in Hs. cbn [fst snd] in Hs.
  destruct (IH Hxs ltac:(lia)) as (Hsort & Hkey & Hent). destruct (samples_total ls0 xs Hxs) as [Hle _].
  rewrite series_of_snoc. unfold push_sample. cbn [fst snd]. set (s := series_of xs) in *. set (e0 := default (ls0, []) (bt_get (debug_labels ls0) s)).
  assert (e0.1 = ls0 /\ holds_samples e0.2 (samples_for ls0 xs)) as [E1 Hh].
  { unfold e0. specialize (Hent ls0). destruct (bt_get (debug_labels ls0) s) as [e|]; [tauto|]. cbn. rewrite Hent. split; [done|]. exists []. split_and!; [done|constructor|done]. }
  split_and!; [by apply bt_insert_sorted| |].
  - intros key e. rewrite bt_get_insert. case_decide as Ek; [intros [= <-]; cbn; by rewrite E1|apply Hkey].
  - intros ls. rewrite bt_get_insert, samples_snoc. cbn [fst snd]. case_decide as Ek.
    + apply (inj debug_labels) in Ek as ->. rewrite decide_True by done. cbn [fst snd]. split_and!; [done|apply holds_bump; [done..|lia]|by intros [_ ?]%app_eq_nil].
    + rewrite decide_False by (intros ->; done). rewrite app_nil_r. apply Hent.
Qed.
End series.

(** ** Steps and windows *)

Lemma w64_id z : I64_MIN <= z <= I64_MAX -> w64 z = z.
Proof.
  unfold w64, wrap_s, I64_MIN, I64_MAX. change (2 ^ (64 - 1)) with (2 ^ 63). intros Hz. cbv zeta. destruct (Z.ltb_spec z 0).
  - replace (z mod 2 ^ 64) with (z + 2 ^ 64) by (apply Z.mod_unique with (-1); lia). split_test; lia.
  - rewrite Z.mod_small by lia. split_test; lia.
Qed.
(** Snapping to a grid of [b] does not cross a point of the grid. *)
Lemma floor_window b x lo hi : 0 < b -> (b | lo) -> (b | hi) -> in_window lo hi (x / b * b) = in_window lo hi x.
Proof.
  intros Hb [p ->] [q ->]. unfold in_window. pose proof (Z.div_mod x b ltac:(lia)) as E. pose proof (Z.mod_pos_bound x b Hb).
  set (d := x / b) in *. assert (forall k, k * b <= d * b <-> k * b <= x) as Hk.
  { intros k. destruct (Z.le_gt_cases k d) as [Hkd|Hkd].
    - assert (k * b <= d * b) by (apply Z.mul_le_mono_nonneg_r; lia). lia.
    - assert ((d + 1) * b <= k * b) by (apply Z.mul_le_mono_nonneg_r; lia). lia. }
  pose proof (Hk p). pose proof (Hk q). f_equal; apply eq_true_iff_eq; rewrite ?Z.leb_le, ?Z.ltb_lt; lia.
Qed.

(** The step points of a query: from its start, by its step. *)
Definition step_grid (start_ms end_ms step_ms : Z) : list Z := (fun i => start_ms + i * step_ms) <$> seqZ 0 ((end_ms - start_ms) / step_ms + 1).
Lemma grid_cons t end_ms step : 1 <= step -> t <= end_ms -> step_grid t end_ms step = t :: step_grid (t + step) end_ms step.
Proof.
  intros Hs Ht. unfold step_grid. assert (0 <= (end_ms - t) / step) by (apply Z.div_pos; lia).
  replace ((end_ms - (t + step)) / step + 1) with ((end_ms - t) / step).
  2: { replace (end_ms - (t + step)) with ((end_ms - t) + (-1) * step) by lia. rewrite Z.div_add by lia. lia. }
  rewrite seqZ_cons, fmap_cons, Z.mul_0_l, Z.add_0_r by lia. f_equal. replace (Z.succ 0) with (1 + 0) by lia.
  rewrite <- (fmap_add_seqZ 1 0), <- list_fmap_compose. replace (Z.pred ((end_ms - t) / step + 1)) with ((end_ms - t) / step) by lia.
  apply list_fmap_ext. intros _ i _. cbn. lia.
Qed.
Lemma grid_nil t end_ms step : 1 <= step -> end_ms < t -> step_grid t end_ms step = [].
Proof.
  intros Hs Ht. unfold step_grid. rewrite seqZ_nil; [done|]. assert ((end_ms - t) / step < 0) by (apply Z.div_lt_upper_bound; lia). lia.
Qed.
Lemma elem_of_grid t start_ms end_ms step : 1 <= step -> t ∈ step_grid start_ms end_ms step -> start_ms <= t <= end_ms.
Proof.
  intros Hs (i & -> & Hi%elem_of_seqZ)%list_elem_of_fmap. pose proof (Z.mul_div_le (end_ms - start_ms) step ltac:(lia)). nia.
Qed.

Section steps.
Context `{LokiCrates} `{TextCodec} (m : MetricQuery) (bucket start_ms end_ms step_ms : Z).
(** Times far enough from the ends of [i64]. *)
Record sane : Prop := {
  sane_bucket : 1 <= bucket;
  sane_range : 0 <= range_millis m;
  sane_step : 1 <= step_ms;
  sane_low : I64_MIN <= start_ms - range_millis m - bucket;
  sane_high : end_ms + step_ms <= I64_MAX;
}.
Context (S : sane).
Definition aligned (t : Z) : Z := t / bucket * bucket.
Definition step_point (b : Buckets) (t : Z) : list (Z * Z) :=
  point m t (f64_sum (window (aligned t - range_millis m) (aligned t) b).*2).
Lemma aligned_bounds t : t - bucket < aligned t <= t.
Proof. unfold aligned. destruct S. pose proof (Z.div_mod t bucket ltac:(lia)). pose proof (Z.mod_pos_bound t bucket ltac:(lia)). lia. Qed.
Lemma step_loop_points b t fuel : start_ms <= t <= end_ms + step_ms -> (end_ms - t) / step_ms + 1 <= Z.of_nat fuel ->
  step_loop fuel m bucket end_ms step_ms b t = Points (concat (step_point b <$> step_grid t end_ms step_ms)).
Proof.
  destruct S as [Hb Hr Hs Hlow Hhigh]. revert t; induction fuel as [|fuel IH]; intros t Ht Hf; cbn [step_loop]; destruct (Z.leb_spec t end_ms) as [Hle|Hgt];
    try (by rewrite grid_nil by lia).
  { exfalso. assert (0 <= (end_ms - t) / step_ms) by (apply Z.div_pos; lia). lia. }
  pose proof (aligned_bounds t) as Ha. assert (floor_to bucket t = aligned t) as -> by (apply w64_id; fold (aligned t); lia).
  rewrite (w64_id (aligned t - range_millis m)) by lia. rewrite (proj2 (Z.ltb_ge _ _)) by lia. rewrite w64_id by lia.
  rewrite IH; [|lia|].
  - cbn [mbind stepped_bind]. rewrite (grid_cons t) by lia. done.
  - replace (end_ms - (t + step_ms)) with ((end_ms - t) + (-1) * step_ms) by lia. rewrite Z.div_add by lia. lia.
Qed.
Definition points_of (b : Buckets) : list (Z * Z) :=
  if start_ms =? end_ms then point m start_ms (f64_sum b.*2) else concat (step_point b <$> step_grid start_ms end_ms step_ms).
(** The check on the number of buckets leaves fewer steps than the loop may take. *)
Lemma steps_enough : bucket <= step_ms -> I64_MIN <= end_ms - start_ms -> end_ms - start_ms + range_millis m <= I64_MAX ->
  Z.quot (w64 (w64 (end_ms - start_ms) + range_millis m)) bucket <= MAX_METRIC_BUCKETS ->
  (end_ms - start_ms) / step_ms + 1 <= Z.of_nat STEP_FUEL.
Proof.
  destruct S as [Hb Hr Hs Hlow Hhigh]. intros Hbs Hl Hh Hq. unfold MAX_METRIC_BUCKETS in Hq. rewrite (w64_id (end_ms - start_ms)) in Hq by lia. rewrite w64_id in Hq by lia.
  assert (Z.of_nat STEP_FUEL = 20002) as Hfuel by reflexivity. destruct (decide (end_ms < start_ms)); [assert ((end_ms - start_ms) / step_ms < 0) by (apply Z.div_lt_upper_bound; lia); lia|].
  rewrite Z.quot_div_nonneg in Hq by lia. assert ((end_ms - start_ms) / step_ms <= (end_ms - start_ms + range_millis m) / bucket).
  { transitivity ((end_ms - start_ms + range_millis m) / step_ms); [by apply Z.div_le_mono; lia|]. apply Z.div_le_compat_l; lia. }
  lia.
Qed.
Lemma to_step_points_of series : (end_ms - start_ms) / step_ms + 1 <= Z.of_nat STEP_FUEL -> start_ms <= end_ms + step_ms ->
  to_step_points m bucket start_ms end_ms step_ms series =
  Points (omap (fun e : Labels * Buckets => if decide (points_of e.2 = []) then None else Some (e.1, points_of e.2)) series).
Proof.
  intros Hf Ht. induction series as [|[ls b] series IH]; [done|]. cbn [to_step_points]. rewrite IH.
  assert (series_points m bucket start_ms end_ms step_ms b = Points (points_of b)) as ->.
  { unfold series_points, points_of. destruct (start_ms =? end_ms); [done|]. apply step_loop_points; [lia|done]. }
  cbn [mbind stepped_bind omap list_omap fst snd]. by case_decide.
Qed.
End steps.

(** ** The points of a metric query over lines *)

(** The lines a series counts, and its points by that count. *)
Definition label_count (m : MetricQuery) (ls : Labels) (P : Z -> bool) (hs : list LogHit) : Z :=
  Z.of_nat (length (filter (fun h => series_labels m (head (group_by m)) (labels h) = Some ls /\ P (ts_ms h) = true) hs)).
Definition count_point (m : MetricQuery) (t n : Z) : list (Z * Z) :=
  if 0 <? n then [(t, f64_div_pos (f64_of_Z n) (divisor m))] else [].
Definition counted_points (m : MetricQuery) (bucket start_ms end_ms step_ms : Z) (ls : Labels) (hs : list LogHit) : list (Z * Z) :=
  if start_ms =? end_ms then count_point m start_ms (label_count m ls (fun _ => true) hs)
  else concat ((fun t => count_point m t (label_count m ls (in_window (aligned bucket t - range_millis m) (aligned bucket t)) hs)) <$>
         step_grid start_ms end_ms step_ms).

Section lines.
Context `{LokiCrates} `{TextCodec} (Hdebug : Inj (=) (=) debug_labels) (m : MetricQuery) (bucket : Z).
Definition line_samples (hs : list LogHit) : list (Labels * Z * Z) :=
  omap (fun h => (fun ls => (ls, floor_to bucket (ts_ms h), 1)) <$> series_labels m (head (group_by m)) (labels h)) hs.
Lemma hit_samples_of hs : omap (hit_sample m (head (group_by m)) bucket) hs = (fun x : Labels * Z * Z => (x.1, f64_of_Z x.2)) <$> line_samples hs.
Proof.
  unfold line_samples. induction hs as [|h hs IH]; [done|]. cbn [omap list_omap]. rewrite IH. unfold hit_sample at 1.
  by destruct (series_labels m (head (group_by m)) (labels h)).
Qed.
Lemma line_samples_ones hs : Forall (fun x : Labels * Z * Z => 0 <= x.2) (line_samples hs) /\ sample_count (line_samples hs) <= Z.of_nat (length hs).
Proof.
  unfold line_samples. induction hs as [|h hs [IH1 IH2]]; [by split; [constructor|]|]. cbn [omap list_omap].
  destruct (series_labels m (head (group_by m)) (labels h)); cbn [fmap option_fmap option_map length]; [|split; [done|lia]].
  split; [by constructor|]. unfold sample_count in *. cbn in *. lia.
Qed.
Lemma line_samples_count hs ls (P Q : Z -> bool) : (forall h, h ∈ hs -> P (floor_to bucket (ts_ms h)) = Q (ts_ms h)) ->
  total P (samples_for ls (line_samples hs)) = label_count m ls Q hs.
Proof.
  intros Hpq. induction hs as [|h hs IH]; [done|]. assert (label_count m ls Q (h :: hs) =
    (if decide (series_labels m (head (group_by m)) (labels h) = Some ls /\ Q (ts_ms h) = true) then 1 else 0) + label_count m ls Q hs) as ->.
  { unfold label_count. rewrite filter_cons. case_decide; cbn [length]; lia. }
  rewrite <- IH by (intros x Hx; apply Hpq; by right). specialize (Hpq h ltac:(left)). unfold line_samples. cbn [omap list_omap].
  destruct (series_labels m (head (group_by m)) (labels h)) as [l|]; cbn [fmap option_fmap option_map];
    [|rewrite decide_False by (by intros [? _]); done].
  rewrite samples_cons, total_app. cbn [fst snd]. case_decide as El; [|rewrite decide_False by (intros [[= ->] _]; done); done].
  rewrite total_cons. cbn [fst snd]. rewrite Hpq. change (total P []) with 0. subst l.
  destruct (Q (ts_ms h)); [rewrite decide_True by done|rewrite decide_False by (by intros [_ ?])]; lia.
Qed.
End lines.

Lemma point_count `{LokiCrates} `{TextCodec} m t n : 0 <= n <= 2 ^ 53 -> point m t (f64_of_Z n) = count_point m t n.
Proof. intros Hn. destruct (f64_of_Z_bits n Hn) as (_ & _ & _ & E). unfold point, count_point. by rewrite E. Qed.
Lemma label_count_bounds m ls P hs : 0 <= label_count m ls P hs <= Z.of_nat (length hs).
Proof.
  unfold label_count. set (l := filter _ hs). assert (length l <= length hs)%nat by (apply sublist_length, sublist_filter). lia.
Qed.
Lemma filter_all {A} (l : list A) : List.filter (fun _ => true) l = l.
Proof. induction l as [|x l IH]; [done|]. cbn. by rewrite IH. Qed.

Section points.
Context `{LokiCrates} `{TextCodec} (Hdebug : Inj (=) (=) debug_labels) (m : MetricQuery) (bucket start_ms end_ms step_ms : Z).
Context (S : sane m bucket start_ms end_ms step_ms) (Hdiv : (bucket | range_millis m)) (hs : list LogHit).
Context (Hts : Forall (fun h => I64_MIN + bucket <= ts_ms h <= I64_MAX) hs) (Hlen : Z.of_nat (length hs) <= 2 ^ 53).
Let xs := line_samples m bucket hs.

Lemma floor_line h : h ∈ hs -> floor_to bucket (ts_ms h) = ts_ms h / bucket * bucket.
Proof.
  intros Hh. rewrite Forall_forall in Hts. specialize (Hts h Hh). destruct S. apply w64_id.
  pose proof (Z.div_mod (ts_ms h) bucket ltac:(lia)). pose proof (Z.mod_pos_bound (ts_ms h) bucket ltac:(lia)). lia.
Qed.
Lemma window_lines ls t : total (in_window (aligned bucket t - range_millis m) (aligned bucket t)) (samples_for ls xs) =
  label_count m ls (in_window (aligned bucket t - range_millis m) (aligned bucket t)) hs.
Proof.
  apply line_samples_count. intros h Hh. rewrite floor_line by done. apply floor_window; [destruct S; lia|..].
  - apply Z.divide_sub_r; [apply Z.divide_factor_r|done].
  - apply Z.divide_factor_r.
Qed.
Lemma points_counted ls b : holds_samples b (samples_for ls xs) ->
  points_of m bucket start_ms end_ms step_ms b = counted_points m bucket start_ms end_ms step_ms ls hs.
Proof.
  intros (mm & -> & Hc & Ht). destruct (line_samples_ones m bucket hs) as [Hones Hcount]. fold xs in Hones, Hcount.
  destruct (samples_total ls xs Hones) as [Hle _]. assert (total (fun _ => true) mm <= 2 ^ 53) as Hsum by (rewrite Ht; lia).
  unfold points_of, counted_points. destruct (start_ms =? end_ms).
  - pose proof (window_sum mm (fun _ => true) Hc Hsum) as E. rewrite filter_all in E. rewrite E, Ht. unfold xs.
    rewrite (line_samples_count m bucket hs ls (fun _ => true) (fun _ => true)) by done. apply point_count. pose proof (label_count_bounds m ls (fun _ => true) hs). lia.
  - f_equal. apply list_fmap_ext. intros _ t _. unfold step_point, window.
    rewrite (window_sum mm (in_window (aligned bucket t - range_millis m) (aligned bucket t)) Hc Hsum), Ht, window_lines.
    apply point_count. pose proof (label_count_bounds m ls (in_window (aligned bucket t - range_millis m) (aligned bucket t)) hs). lia.
Qed.
Definition series_out (s : SeriesMap) : list (Labels * list (Z * Z)) :=
  omap (fun e : Labels * Buckets => if decide (points_of m bucket start_ms end_ms step_ms e.2 = []) then None
                                    else Some (e.1, points_of m bucket start_ms end_ms step_ms e.2)) s.*2.
Lemma series_out_elem s ls pts : (ls, pts) ∈ series_out s <-> pts <> [] /\ exists b, (ls, b) ∈ s.*2 /\ pts = points_of m bucket start_ms end_ms step_ms b.
Proof.
  unfold series_out. rewrite list_elem_of_omap. split.
  - intros ([ls' b] & Hin & E). cbn [fst snd] in E. case_decide; [done|]. injection E as <- <-. split; [done|]. by exists b.
  - intros (Hne & b & Hin & ->). exists (ls, b). split; [done|]. cbn [fst snd]. by rewrite decide_False.
Qed.
Lemma series_out_labels s : (series_out s).*1 `sublist_of` s.*2.*1.
Proof.
  unfold series_out. induction s as [|[key [ls b]] s IH]; [constructor|]. cbn [fmap list_fmap omap list_omap fst snd]. case_decide; cbn [fmap list_fmap fst].
  - by apply sublist_cons.
  - by apply sublist_skip.
Qed.
Lemma series_keys (s : SeriesMap) : (forall key e, (key, e) ∈ s -> key = debug_labels e.1) -> s.*1 = debug_labels <$> s.*2.*1.
Proof.
  induction s as [|[key e] s IH]; [done|]. intros Hs. cbn. f_equal; [apply Hs; left|]. apply IH. intros k e' Hin. apply Hs. by right.
Qed.
Lemma counted_none ls : samples_for ls xs = [] -> counted_points m bucket start_ms end_ms step_ms ls hs = [].
Proof.
  intros E. rewrite <- (points_counted ls []); [|exists []; rewrite E; split_and!; [done|constructor|done]].
  unfold points_of. destruct (start_ms =? end_ms); [done|]. unfold step_point, window. cbn [List.filter fmap list_fmap].
  induction (step_grid start_ms end_ms step_ms) as [|t l IH]; [done|]. cbn [fmap list_fmap concat]. exact IH.
Qed.
Lemma series_points_exact : let out := series_out (series_of xs) in
  NoDup out.*1 /\ forall ls pts, (ls, pts) ∈ out <-> pts <> [] /\ pts = counted_points m bucket start_ms end_ms step_ms ls hs.
Proof.
  intros out. destruct (line_samples_ones m bucket hs) as [Hones Hcount]. fold xs in Hones, Hcount.
  destruct (series_exact Hdebug xs Hones ltac:(lia)) as (Hsort & Hkey & Hent). set (s := series_of xs) in *.
  assert (forall ls b, (ls, b) ∈ s.*2 <-> bt_get (debug_labels ls) s = Some (ls, b)) as Hget.
  { intros ls b. rewrite list_elem_of_fmap. split.
    - intros ([key e] & E & Hin). cbn [snd] in E. subst e. apply (sorted_get s key _ Hsort) in Hin. by pose proof (Hkey _ _ Hin) as ->.
    - intros E. exists (debug_labels ls, (ls, b)). split; [done|]. by apply bt_get_elem. }
  split.
  - eapply sublist_NoDup; [|apply series_out_labels]. apply sorted_NoDup in Hsort.
    assert (s.*1 = debug_labels <$> s.*2.*1) as E.
    { apply series_keys. intros key e Hin. apply Hkey. apply sorted_get; [|done]. by destruct (series_exact Hdebug xs Hones ltac:(lia)). }
    rewrite E in Hsort. by apply NoDup_fmap_1 in Hsort.
  - intros ls pts. unfold out. rewrite series_out_elem. split.
    + intros (Hne & b & Hin & ->). split; [done|]. apply Hget in Hin. specialize (Hent ls). rewrite Hin in Hent. destruct Hent as (_ & Hh & _).
      by apply points_counted.
    + intros (Hne & ->). split; [done|]. specialize (Hent ls). destruct (bt_get (debug_labels ls) s) as [[l b]|] eqn:Eg.
      * destruct Hent as (El & Hh & _). cbn in El, Hh. subst l. exists b. split; [by apply Hget|]. symmetry. by apply points_counted.
      * by rewrite counted_none in Hne.
Qed.
End points.

(** The times of a metric query: far enough from the ends of [i64]. *)
Record times_ok (m : MetricQuery) (start_ms end_ms step_ms : Z) : Prop := {
  ok_range : 0 <= range_millis m <= I64_MAX;
  ok_step : 1 <= step_ms <= I64_MAX;
  ok_low : I64_MIN <= start_ms - range_millis m - step_ms;
  ok_high : end_ms + step_ms <= I64_MAX;
  ok_order : start_ms <= end_ms;
  ok_span : end_ms - start_ms + range_millis m <= I64_MAX;
}.
Lemma times_sane m start_ms end_ms step_ms : times_ok m start_ms end_ms step_ms ->
  sane m (gcd step_ms (range_millis m)) start_ms end_ms step_ms /\ (gcd step_ms (range_millis m) | range_millis m) /\ gcd step_ms (range_millis m) <= step_ms.
Proof.
  intros [Hr Hs Hlow Hhigh Ho Hsp]. destruct (gcd_positive step_ms (range_millis m)) as (H1 & H2 & H3); [lia..|].
  destruct (H2 ltac:(lia)) as [Hle _]. split_and!; [constructor; lia| |done].
  destruct (decide (range_millis m = 0)) as [->|]; [apply Z.divide_0_r|apply H3; lia].
Qed.
Lemma steps_checked m start_ms end_ms step_ms : times_ok m start_ms end_ms step_ms ->
  (MAX_METRIC_BUCKETS <? Z.quot (w64 (w64 (end_ms - start_ms) + range_millis m)) (gcd step_ms (range_millis m))) = false ->
  (end_ms - start_ms) / step_ms + 1 <= Z.of_nat STEP_FUEL.
Proof.
  intros Ht Hq%Z.ltb_ge. destruct (times_sane m start_ms end_ms step_ms Ht) as (S & _ & Hle). destruct Ht.
  eapply steps_enough; [exact S|done|unfold I64_MIN; lia|lia|exact Hq].
Qed.
(** What an accepted query collects. *)
Lemma metric_accepted `{LokiCrates} `{TextCodec} env m start_ms end_ms step_ms o : run_metric_query env m start_ms end_ms step_ms = Ok o ->
  bucket_ms o = gcd step_ms (range_millis m) /\
  (MAX_METRIC_BUCKETS <? Z.quot (w64 (w64 (end_ms - start_ms) + range_millis m)) (gcd step_ms (range_millis m))) = false.
Proof.
  unfold run_metric_query. destruct (1 <? _)%nat; [done|]. destruct (MAX_METRIC_BUCKETS <? _) eqn:Eq; [done|]. intros E. split; [|done].
  case_decide; [destruct (run_log_query _ _ _ _ _ _); [by injection E as <-|done]|]. destruct (lk_search env); [|done].
  destruct (resolve_streams _ _); [|done]. cbn [mbind result_bind] in E. case_decide; [done|by injection E as <-].
Qed.

(** The step points of an accepted metric query are computed within the
    steps its bucket check allows, whatever was collected. *)
Theorem step_points_end `{LokiCrates} `{TextCodec} env m start_ms end_ms step_ms o series :
  times_ok m start_ms end_ms step_ms -> run_metric_query env m start_ms end_ms step_ms = Ok o ->
  exists out, to_step_points m (bucket_ms o) start_ms end_ms step_ms series = Points out.
Proof.
  intros Ht E. destruct (metric_accepted _ _ _ _ _ _ E) as [-> Hq]. destruct (times_sane _ _ _ _ Ht) as (S & _ & _).
  rewrite (to_step_points_of m _ _ _ _ S); [by eexists|by eapply steps_checked|destruct Ht; lia].
Qed.


(** A step of infinite length passes the check on buckets, and its sum with the
    time wraps: the points go back and forth instead of ending. *)
Example step_inf_runs_on `{LokiCrates} `{TextCodec} :
  let m := mkMetric (mkSelector [] []) 7000 CountOverTime [] false in
  let start_ms := 1700000000000 in let end_ms := start_ms + 60000 in
  gcd I64_MAX 7000 = 7 /\
  Z.quot (w64 (w64 (end_ms - start_ms) + 7000)) 7 <= MAX_METRIC_BUCKETS /\
  series_points m 7 start_ms end_ms I64_MAX [] = Running.
Proof. intros m start_ms end_ms. split_and!; vm_compute; [done|discriminate|done]. Qed.

Definition demo_metric : MetricQuery := mkMetric demo_filtered 4000 CountOverTime [] true.
Definition demo_metric_lines : LogQueryOutcome :=
  match run_log_query demo_env demo_filtered 98000 106000 None false with Ok o => o | Err _ => mkOutcome [] [] end.
Definition demo_outcome : MetricOutcome :=
  match run_metric_query demo_env demo_metric 102000 106000 2000 with Ok o => o | Err _ => mkMetricOutcome [] 0 [] end.
Lemma demo_metric_runs : run_log_query demo_env demo_filtered 98000 106000 None false = Ok demo_metric_lines /\
  run_metric_query demo_env demo_metric 102000 106000 2000 = Ok demo_outcome /\
  ts_ms <$> hits demo_metric_lines = [103000; 101000; 100000] /\
  counted_points demo_metric 2000 102000 106000 2000 [] (hits demo_metric_lines) = [(102000, f64_of_Z 2); (104000, f64_of_Z 3); (106000, f64_of_Z 1)].
Proof. split_and!; vm_compute; reflexivity. Qed.
Lemma demo_times : times_ok demo_metric 102000 106000 2000.
Proof. constructor; cbn; unfold I64_MIN, I64_MAX; lia. Qed.
Lemma step_points_end_witness : exists out, to_step_points demo_metric (bucket_ms demo_outcome) 102000 106000 2000 (mo_series demo_outcome).*2 = Points out.
Proof. destruct demo_metric_runs as (_ & E & _). apply (step_points_end demo_env demo_metric 102000 106000 2000 demo_outcome _ demo_times E). Defined.
