(* ===== verification/LokiApi.v ===== *)
(** * The Loki routes: handlers (crates/rsearch-server/src/loki_api.rs)

    Range and instant queries, labels, series and volumes, from their
    parameters to their replies, and the live tail: its sessions and the ticks
    of one.  A panic of the handler is [Unwound]; one that does not end within
    the steps a query may have is [StillRunning]. *)

From Stdlib Require Import ZArith Lia.
From Stdlib Require Import Strings.Byte.
From stdpp Require Import base gmap sets list strings sorting.
From S2P Require Import Prelude Utf8 Order Json Float64 Mapping LogQl Loki LokiMetric.

Local Open Scope Z_scope.

Definition MAX_TAIL_SESSIONS : nat := 16.
Definition TAIL_RESCAN_MS : Z := 60000.
Definition TAIL_SEEN_CAP : nat := 100000.

Inductive Reply :=
| Success (data : json) (ws : list Warning)
| Failed (e : QueryError)
| Unwound
| StillRunning.
Definition reply (r : QueryR Reply) : Reply := match r with Ok r => r | Err e => Failed e end.
Definition reply_status (r : Reply) : option Z :=
  match r with Success _ _ => Some 200 | Failed e => Some (error_status e) | Unwound => Some 500 | StillRunning => None end.

Section handlers.
Context `{LokiCrates} `{TextCodec}.

Definition user {A} (w : Why) : QueryR A := Err (User w).
Definition query_param (p : Params) : QueryR bytes := match first p (str "query") with Some q => Ok q | None => user MissingQuery end.
Definition window_params (env : LokiEnv) (p : Params) : QueryR (Z * Z) :=
  end_ms ← time_param p (str "end") (lk_now env);
  start_ms ← time_param p (str "start") (w64 (end_ms - 3600000));
  mret (start_ms, end_ms).
Definition step_param (p : Params) (parts start_ms end_ms : Z) : Z :=
  default (Z.max (Z.quot (w64 (end_ms - start_ms)) parts) 1000) (s ← first p (str "step"); parse_step_ms s).

(** The points of a metric, as a reply. *)
Definition with_points (m : MetricQuery) (o : MetricOutcome) (start_ms end_ms step_ms : Z) (k : list (Labels * list (Z * Z)) -> Reply) : Reply :=
  match to_step_points m (bucket_ms o) start_ms end_ms step_ms (mo_series o).*2 with
  | Points series => k series
  | Running => StillRunning
  | RangePanics => Unwound
  end.
Definition log_reply (env : LokiEnv) (s : LogSelector) (start_ms end_ms : Z) (limit : nat) (forward : bool) : QueryR Reply :=
  o ← run_log_query env s start_ms end_ms (Some limit) forward;
  mret (Success (to_streams_result (hits o)) (warnings o)).

(** GET/POST /loki/api/v1/query_range *)
Definition range_metric (env : LokiEnv) (p : Params) (m : MetricQuery) (start_ms end_ms : Z) : QueryR Reply :=
  let step_ms := step_param p 250 start_ms end_ms in
  o ← run_metric_query env m start_ms end_ms step_ms;
  mret (with_points m o start_ms end_ms step_ms (fun series => Success (to_matrix_result series) (mo_warnings o))).
Definition query_range (env : LokiEnv) (p : Params) : Reply := reply (
  query ← query_param p;
  w ← window_params env p;
  let limit := limit_param p in
  let forward := bool_decide (first p (str "direction") = Some (str "forward")) in
  match parse query with
  | Query (Log s) => validate_selector s;; log_reply env s w.1 w.2 limit forward
  | Query (Metric m) => validate_selector (mq_selector m);; range_metric env p m w.1 w.2
  | Panics => mret Unwound
  | e => user (BadQuery e)
  end).

(** GET/POST /loki/api/v1/query *)
Definition last_value (points : list (Z * Z)) : Z := from_option snd 0 (last points).
Definition vector_entry (time_ms : Z) (s : Labels * list (Z * Z)) : json :=
  obj [("metric", labels_json s.1); ("value", Array [time_json time_ms; JString (f64_display (last_value s.2))])]%string.
Definition vector_result (entries : list json) : json :=
  obj [("resultType", JString (str "vector")); ("result", Array entries); ("stats", Object [])]%string.
Definition instant_metric (env : LokiEnv) (m : MetricQuery) (time_ms : Z) : QueryR Reply :=
  let step_ms := Z.max (range_millis m) 1 in
  o ← run_metric_query env m time_ms time_ms step_ms;
  mret (with_points m o time_ms time_ms step_ms (fun series => Success (vector_result (vector_entry time_ms <$> series)) (mo_warnings o))).
Definition query_instant (env : LokiEnv) (p : Params) : Reply := reply (
  query ← query_param p;
  time_ms ← time_param p (str "time") (lk_now env);
  let limit := limit_param p in
  match parse query with
  | Query (Log s) => validate_selector s;; log_reply env s (w64 (time_ms - 3600000)) time_ms limit false
  | Query (Metric m) => validate_selector (mq_selector m);; instant_metric env m time_ms
  | Panics => mret Unwound
  | e => user (BadQuery e)
  end).

(** GET /loki/api/v1/labels *)
Definition push_new (l : list bytes) (x : bytes) : list bytes := if decide (x ∈ l) then l else l ++ [x].
Definition sort_bytes (l : list bytes) : list bytes := sort_by bytes_compare l.
Definition names_or_fail (env : LokiEnv) : QueryR (list bytes) :=
  match lk_names env with Some names => Ok names | None => Err (Backend ListingFailed) end.
Definition strings (l : list bytes) : json := Array (JString <$> l).
Definition label_names (env : LokiEnv) (names : list bytes) : list bytes :=
  sort_bytes (foldl (foldl push_new) [service_name] (lk_fields env <$> lk_arrive env names)).
Definition labels_handler (env : LokiEnv) : Reply := reply (
  names ← names_or_fail env;
  mret (Success (strings (label_names env names)) [])).

(** GET /loki/api/v1/label/{name}/values *)
Definition opt_time (p : Params) (key : bytes) : QueryR (option Z) :=
  match first p key with
  | None => Ok None
  | Some raw => match parse_time_ms raw with Some t => Ok (Some t) | None => user (InvalidTime key) end
  end.
Definition stream_values (env : LokiEnv) (name : bytes) (start_ms end_ms : option Z) (stream : bytes) : list bytes :=
  if decide (name ∈ lk_fields env stream) then
    match field_values env stream name start_ms end_ms with Ok vs => vs.1 | Err _ => [] end
  else [].
Definition label_values (env : LokiEnv) (name : bytes) (p : Params) : Reply := reply (
  start_ms ← opt_time p (str "start");
  end_ms ← opt_time p (str "end");
  names ← names_or_fail env;
  if decide (name = service_name) then mret (Success (strings (sort_bytes names)) [])
  else
    let values := foldl (foldl push_new) [] (stream_values env name start_ms end_ms <$> lk_arrive env names) in
    mret (Success (strings (take LABEL_VALUES_LIMIT (sort_bytes values))) [])).

(** GET/POST /loki/api/v1/series *)
Definition all_params (p : Params) (key : bytes) : list bytes := default [] (p !! key).
Definition probe (s : LogSelector) (stream : bytes) : LogSelector :=
  mkSelector (filter (fun m => lm_label m <> service_name) (matchers s) ++ [mkMatcher service_name MEq stream]) [].
Definition has_match (env : LokiEnv) (s : LogSelector) (start_ms end_ms : Z) (stream : bytes) : bool :=
  match run_log_query env (probe s stream) start_ms end_ms (Some 1%nat) false with
  | Ok o => negb (bool_decide (length (hits o) = 0%nat))
  | Err _ => false
  end.
Definition matched_streams (env : LokiEnv) (s : LogSelector) (start_ms end_ms : Z) : QueryR (list bytes) :=
  streams ← resolve_streams env s;
  mret (if existsb (fun m => bool_decide (lm_label m <> service_name)) (matchers s)
        then List.filter (has_match env s start_ms end_ms) (lk_arrive env streams) else streams).
Fixpoint series_sets (env : LokiEnv) (start_ms end_ms : Z) (raws seen : list bytes) : QueryR (list bytes) :=
  match raws with
  | [] => mret seen
  | raw :: raws =>
      match parse raw with
      | Query (Log s) => matched ← matched_streams env s start_ms end_ms; series_sets env start_ms end_ms raws (foldl push_new seen matched)
      | Query (Metric _) => user NotALogSelector
      | e => user (BadQuery e)
      end
  end.
Definition series (env : LokiEnv) (p : Params) : Reply := reply (
  w ← window_params env p;
  seen ← series_sets env w.1 w.2 (all_params p (str "match[]") ++ all_params p (str "match")) [];
  mret (Success (Array ((fun stream => obj1 service_name (JString stream)) <$> seen)) [])).

(** GET/POST /loki/api/v1/index/volume and volume_range *)
Definition requested_labels (p : Params) : list bytes :=
  match first p (str "targetLabels") with
  | Some l => filter (fun l => l <> [] /\ l <> str "none") (trim <$> split_on x2c l)
  | None =>
      match first p (str "aggregateBy") with
      | Some l => filter (fun l => l <> [] /\ l <> str "none") (trim <$> split_on x2c l)
      | None => []
      end
  end.
Definition positive_op (op : MatchOp) : bool := match op with MEq | MRe => true | _ => false end.
Definition volume_grouping (p : Params) (s : LogSelector) : bytes * list Warning :=
  match requested_labels p with
  | l :: rest => (l, match rest with [] => [] | _ => [OneGrouping l rest] end)
  | [] => (default service_name (lm_label <$> head (filter (fun m => positive_op (lm_op m) = true) (matchers s))), [])
  end.
Definition volume_selector (query : bytes) : QueryR (option LogSelector) :=
  match parse query with
  | Query (Log s) => Ok (Some s)
  | Query (Metric m) => Ok (Some (mq_selector m))
  | Panics => Ok None
  | e => user (BadQuery e)
  end.
Definition volume_metric (s : LogSelector) (range : Z) (label : bytes) : MetricQuery := mkMetric s range CountOverTime [label] true.
(** [partial_cmp] of two volumes as they are printed and read back. *)
Definition printed (v : Z) : Z := default 0 (parse_f64 (f64_display v)).
Definition by_volume (a b : Labels * list (Z * Z)) : comparison :=
  let x := printed (last_value a.2) in let y := printed (last_value b.2) in
  if is_nan x || is_nan y then Eq else Z.compare (total_key y) (total_key x).
Definition volume (env : LokiEnv) (p : Params) : Reply := reply (
  query ← query_param p;
  w ← window_params env p;
  s ← volume_selector query;
  match s with
  | None => mret Unwound
  | Some s =>
      validate_selector s;;
      let g := volume_grouping p s in
      let range := Z.max (w64 (w.2 - w.1)) 1 in
      let m := volume_metric s range g.1 in
      o ← run_metric_query env m w.2 w.2 range;
      mret (with_points m o w.2 w.2 range (fun series =>
        let result := sort_by by_volume series in
        let result := match l ← first p (str "limit"); parse_u64 l with Some n => take (Z.to_nat n) result | None => result end in
        Success (vector_result (vector_entry w.2 <$> result)) (g.2 ++ mo_warnings o)))
  end).
Definition volume_range (env : LokiEnv) (p : Params) : Reply := reply (
  query ← query_param p;
  w ← window_params env p;
  let step_ms := step_param p 100 w.1 w.2 in
  s ← volume_selector query;
  match s with
  | None => mret Unwound
  | Some s =>
      validate_selector s;;
      let g := volume_grouping p s in
      let m := volume_metric s step_ms g.1 in
      o ← run_metric_query env m w.1 w.2 step_ms;
      mret (with_points m o w.1 w.2 step_ms (fun series => Success (to_matrix_result series) (g.2 ++ mo_warnings o)))
  end).
End handlers.

(** ** The live tail: sessions *)

(** A handler that wants a slot, and one that has it. *)
Inductive Slot := Idle | Trying (current : nat) | Held.
#[export] Instance Slot_eq_dec : EqDecision Slot.
Proof. solve_decision. Defined.
Record Tails := mkTails { tail_sessions : nat; slots : list Slot }.
(** [TailSlot::acquire], a load or compare-and-exchange at a time, and the drop
    of a slot, of any handler. *)
Inductive tail_step : Tails -> Tails -> Prop :=
| tail_load n l i : l !! i = Some Idle -> tail_step (mkTails n l) (mkTails n (<[i := Trying n]> l))
| tail_refuse n l i current : l !! i = Some (Trying current) -> (MAX_TAIL_SESSIONS <= current)%nat ->
    tail_step (mkTails n l) (mkTails n (<[i := Idle]> l))
| tail_exchange n l i current : l !! i = Some (Trying current) -> (current < MAX_TAIL_SESSIONS)%nat -> current = n ->
    tail_step (mkTails n l) (mkTails (S current) (<[i := Held]> l))
| tail_retry n l i current : l !! i = Some (Trying current) -> (current < MAX_TAIL_SESSIONS)%nat -> current <> n ->
    tail_step (mkTails n l) (mkTails n (<[i := Trying n]> l))
| tail_drop n l i : l !! i = Some Held -> tail_step (mkTails n l) (mkTails (pred n) (<[i := Idle]> l)).
Definition held (l : list Slot) : nat := length (filter (fun s => s = Held) l).

(** ** The live tail: ticks *)

Section tail.
Context `{LokiCrates} `{TextCodec} (hash : LogHit -> Z).
Record Tail := mkTail { watermark_ms : Z; seen : gset Z }.
(** [seen.insert], of each line in turn. *)
Fixpoint take_fresh (s : gset Z) (hs : list LogHit) : gset Z * list LogHit :=
  match hs with
  | [] => (s, [])
  | h :: hs => if decide (hash h ∈ s) then take_fresh s hs else let '(s', fresh) := take_fresh ({[hash h]} ∪ s) hs in (s', h :: fresh)
  end.
Definition tail_tick (env : LokiEnv) (s : LogSelector) (end_ms : Z) (t : Tail) : Tail * list LogHit :=
  if end_ms <=? watermark_ms t then (t, [])
  else
    match run_log_query env s (watermark_ms t) end_ms (Some SCAN_LIMIT) false with
    | Err _ => (t, [])
    | Ok o =>
        let '(seen', fresh) := take_fresh (seen t) (hits o) in
        let watermark := Z.max (watermark_ms t) (w64 (end_ms - TAIL_RESCAN_MS)) in
        (if (TAIL_SEEN_CAP <? size seen')%nat then mkTail end_ms ∅ else mkTail watermark seen', sort_by (by_time true) fresh)
    end.
(** The ticks of a session, each at its time and on what is searchable then. *)
Fixpoint tail_run (s : LogSelector) (ticks : list (LokiEnv * Z)) (t : Tail) : Tail * list LogHit :=
  match ticks with
  | [] => (t, [])
  | (env, now) :: ticks =>
      let '(t, out) := tail_tick env s now t in
      let '(t, outs) := tail_run s ticks t in (t, out ++ outs)
  end.
End tail.

Lemma held_insert l i s s' : l !! i = Some s ->
  (held (<[i := s']> l) + (if decide (s = Held) then 1 else 0) = held l + (if decide (s' = Held) then 1 else 0))%nat.
Proof.
  intros E. assert (i < length l)%nat as Hi by (by apply lookup_lt_Some in E). rewrite insert_take_drop by done.
  rewrite <- (take_drop_middle l i s E) at 3. unfold held. rewrite !filter_app, !filter_cons. repeat case_decide; rewrite !length_app; cbn [length]; lia.
Qed.
(** However handlers interleave, the counter is the number of sessions, of
    which there are never more than the limit. *)
Theorem tail_sessions_bounded t t' : tail_sessions t = held (slots t) -> (held (slots t) <= MAX_TAIL_SESSIONS)%nat -> rtc tail_step t t' ->
  tail_sessions t' = held (slots t') /\ (held (slots t') <= MAX_TAIL_SESSIONS)%nat.
Proof.
  intros H1 H2 H. induction H as [t|t t1 t2 Hs _ IH]; [done|]. apply IH; clear IH; destruct Hs as [n l i E|n l i c E Hc|n l i c E Hc ->|n l i c E Hc Hn|n l i E]; cbn [tail_sessions slots] in *;
    match type of E with _ = Some ?x => pose proof (held_insert l i x Idle E) as Ha; pose proof (held_insert l i x Held E) as Hb; pose proof (held_insert l i x (Trying n) E) as Hc' end;
    repeat case_decide; try done; lia.
Qed.

Section emitted.
Context `{LokiCrates} `{TextCodec} (hash : LogHit -> Z).
Lemma take_fresh_spec hs s : let '(s', fresh) := take_fresh hash s hs in
  NoDup (hash <$> fresh) /\ (forall h, h ∈ fresh -> h ∈ hs /\ hash h ∉ s) /\
  (forall x, x ∈ s' <-> x ∈ s \/ x ∈ hash <$> fresh) /\ (forall h, h ∈ hs -> hash h ∈ s').
Proof.
  revert s; induction hs as [|h hs IH]; intros s; cbn [take_fresh].
  { split_and!; [constructor|by intros ? ?%not_elem_of_nil|intros x; rewrite elem_of_nil; tauto|by intros ? ?%not_elem_of_nil]. }
  destruct (decide (hash h ∈ s)) as [Hin|Hin].
  - specialize (IH s). destruct (take_fresh hash s hs) as [s' fresh]. destruct IH as (Hn & Hf & Hs & Hall). split_and!; [done| |done|].
    + intros x [Hx Hnx]%Hf. split; [by right|done].
    + intros x [->|Hx]%elem_of_cons; [apply Hs; by left|by apply Hall].
  - specialize (IH ({[hash h]} ∪ s)). destruct (take_fresh hash ({[hash h]} ∪ s) hs) as [s' fresh]. destruct IH as (Hn & Hf & Hs & Hall). split_and!.
    + rewrite fmap_cons. constructor; [|done]. intros (x & E & Hx)%list_elem_of_fmap. apply Hf in Hx as [_ Hx]. rewrite <- E in Hx. set_solver.
    + intros x [->|Hx]%elem_of_cons; [split; [left|done]|]. apply Hf in Hx as [Hx Hnx]. split; [by right|set_solver].
    + intros x. rewrite Hs, fmap_cons, elem_of_cons. set_solver.
    + intros x [->|Hx]%elem_of_cons; [apply Hs; left; set_solver|by apply Hall].
Qed.
(** What a tick read and what it emitted, while [seen] is under its cap. *)
Definition tick_lines (env : LokiEnv) (s : LogSelector) (now : Z) (t : Tail) : list LogHit :=
  if now <=? watermark_ms t then []
  else match run_log_query env s (watermark_ms t) now (Some SCAN_LIMIT) false with Ok o => hits o | Err _ => [] end.
Definition tick_cap (env : LokiEnv) (s : LogSelector) (now : Z) (t : Tail) : Prop :=
  (size (take_fresh hash (seen t) (tick_lines env s now t)).1 <= TAIL_SEEN_CAP)%nat.
Lemma tail_tick_spec env s now t t' out : tail_tick hash env s now t = (t', out) -> tick_cap env s now t ->
  NoDup (hash <$> out) /\ (forall h, h ∈ out -> h ∈ tick_lines env s now t /\ hash h ∉ seen t) /\
  (forall x, x ∈ seen t' <-> x ∈ seen t \/ x ∈ hash <$> out) /\ (forall h, h ∈ tick_lines env s now t -> hash h ∈ seen t').
Proof.
  unfold tail_tick, tick_cap, tick_lines.
  assert (NoDup (hash <$> []) /\ (forall h, h ∈ [] -> h ∈ [] /\ hash h ∉ seen t) /\ (forall x, x ∈ seen t <-> x ∈ seen t \/ x ∈ hash <$> []) /\
    (forall h, h ∈ [] -> hash h ∈ seen t)) as Hnone.
  { split_and!; [constructor|by intros ? ?%not_elem_of_nil|intros x; rewrite elem_of_nil; tauto|by intros ? ?%not_elem_of_nil]. }
  destruct (now <=? watermark_ms t); [by intros [= <- <-]|]. destruct (run_log_query _ _ _ _ _ _) as [o|e]; [|by intros [= <- <-]].
  pose proof (take_fresh_spec (hits o) (seen t)) as Hf. destruct (take_fresh hash (seen t) (hits o)) as [s' fresh]. destruct Hf as (Hn & Hf & Hs & Hall).
  cbn [fst]. intros E Hcap. rewrite (proj2 (Nat.ltb_ge _ _)) in E by done. injection E as <- <-.
  assert (hash <$> sort_by (by_time true) fresh ≡ₚ hash <$> fresh) as Hp by (f_equiv; apply sort_by_perm).
  split_and!; [by rewrite Hp|intros h Hh%elem_of_sort_by; by apply Hf| |done]. intros x. rewrite Hp. apply Hs.
Qed.
(** No tick of the session finds [seen] over its cap. *)
Fixpoint under_cap (s : LogSelector) (ticks : list (LokiEnv * Z)) (t : Tail) : Prop :=
  match ticks with
  | [] => True
  | (env, now) :: ticks => tick_cap env s now t /\ under_cap s ticks (tail_tick hash env s now t).1
  end.
Fixpoint session_lines (s : LogSelector) (ticks : list (LokiEnv * Z)) (t : Tail) : list LogHit :=
  match ticks with
  | [] => []
  | (env, now) :: ticks => tick_lines env s now t ++ session_lines s ticks (tail_tick hash env s now t).1
  end.
Lemma tail_run_spec s ticks t t' out : tail_run hash s ticks t = (t', out) -> under_cap s ticks t ->
  NoDup (hash <$> out) /\ (forall h, h ∈ out -> h ∈ session_lines s ticks t /\ hash h ∉ seen t) /\
  (forall h, h ∈ session_lines s ticks t -> hash h ∈ seen t \/ hash h ∈ hash <$> out).
Proof.
  revert t t' out; induction ticks as [|[env now] ticks IH]; intros t t' out; cbn [tail_run under_cap session_lines].
  { intros [= <- <-] _. split_and!; [constructor|by intros ? ?%not_elem_of_nil..]. }
  destruct (tail_tick hash env s now t) as [t1 out1] eqn:E1. cbn [fst]. destruct (tail_run hash s ticks t1) as [t2 outs] eqn:E2.
  intros [= <- <-] [Hcap Hcaps]. destruct (tail_tick_spec _ _ _ _ _ _ E1 Hcap) as (Hn1 & Hf1 & Hs1 & Ha1).
  destruct (IH _ _ _ E2 Hcaps) as (Hn2 & Hf2 & Ha2). rewrite fmap_app. split_and!.
  - apply NoDup_app. split_and!; [done| |done]. intros x Hx (h & -> & Hh)%list_elem_of_fmap. apply Hf2 in Hh as [_ Hh]. apply Hh, Hs1. by right.
  - intros h [Hh|Hh]%elem_of_app.
    + apply Hf1 in Hh as [Hh Hn]. split; [apply elem_of_app; by left|done].
    + apply Hf2 in Hh as [Hh Hn]. split; [apply elem_of_app; by right|]. intros Hin. apply Hn, Hs1. by left.
  - intros h [Hh|Hh]%elem_of_app; rewrite elem_of_app.
    + apply Ha1, Hs1 in Hh as [Hh|Hh]; tauto.
    + apply Ha2 in Hh as [Hh|Hh]; [|tauto]. apply Hs1 in Hh. tauto.
Qed.
End emitted.

(** [C40] A tail session emits every line its ticks read exactly once, told
    apart by hash, while it has seen no more than its cap. *)
Theorem tail_emits_once `{LokiCrates} `{TextCodec} hash s ticks t' out w :
  tail_run hash s ticks (mkTail w ∅) = (t', out) -> under_cap hash s ticks (mkTail w ∅) ->
  NoDup (hash <$> out) /\ forall x, x ∈ hash <$> out <-> x ∈ hash <$> session_lines hash s ticks (mkTail w ∅).
Proof.
  intros E Hc. destruct (tail_run_spec hash s ticks _ _ _ E Hc) as (Hn & Hf & Ha). split; [done|]. intros x. rewrite !list_elem_of_fmap. split.
  - intros (h & -> & Hh). exists h. split; [done|]. by apply Hf.
  - intros (h & -> & Hh). destruct (Ha h Hh) as [Hin|Hin]; [by apply elem_of_empty in Hin|]. by apply list_elem_of_fmap in Hin.
Qed.

(** ** Every query is answered *)

(** The times of a request, with the range and step it asks for, do not come
    near the ends of [i64]. *)
Record in_reach (range start_ms end_ms step_ms : Z) : Prop := {
  reach_low : I64_MIN <= start_ms - range - step_ms;
  reach_high : end_ms + step_ms <= I64_MAX;
  reach_order : 0 <= start_ms <= end_ms;
  reach_span : end_ms - start_ms + range <= I64_MAX;
}.
Definition answered_reply (r : Reply) : Prop := match r with Success _ _ | Failed _ => True | Unwound | StillRunning => False end.

Section answers.
Context `{LokiCrates} `{TextCodec}.
Lemma reply_bind {A} (x : QueryR A) (f : A -> QueryR Reply) :
  (forall a, x = Ok a -> answered_reply (reply (f a))) -> answered_reply (reply (x ≫= f)).
Proof. intros Hf. destruct x as [a|e]; [by apply Hf|done]. Qed.
Lemma step_param_positive p parts start_ms end_ms : 1 <= step_param p parts start_ms end_ms.
Proof.
  unfold step_param. destruct (first p (str "step")) as [s|]; cbn [mbind option_bind]; [|cbn; lia].
  destruct (parse_step_ms s) as [z|] eqn:E; [by apply step_positive in E|cbn; lia].
Qed.
Lemma times_of m start_ms end_ms step_ms : range_ok (range_millis m) -> 1 <= step_ms -> in_reach (range_millis m) start_ms end_ms step_ms ->
  times_ok m start_ms end_ms step_ms.
Proof. intros [H1 H2] Hs [Hl Hh Ho Hsp]. constructor; unfold I64_MAX in *; lia. Qed.
Lemma with_points_answers m env o start_ms end_ms step_ms k : times_ok m start_ms end_ms step_ms ->
  run_metric_query env m start_ms end_ms step_ms = Ok o -> (forall series, answered_reply (k series)) ->
  answered_reply (with_points m o start_ms end_ms step_ms k).
Proof.
  intros Ht E Hk. unfold with_points. destruct (metric_accepted _ _ _ _ _ _ E) as [-> Hq]. destruct (times_sane _ _ _ _ Ht) as (S & _ & _).
  rewrite (to_step_points_of m _ _ _ _ S) by (first [by eapply steps_checked|destruct Ht; lia]). apply Hk.
Qed.
Lemma metric_answers m env start_ms end_ms step_ms (k : MetricOutcome -> list (Labels * list (Z * Z)) -> Reply) : times_ok m start_ms end_ms step_ms ->
  (forall o series, answered_reply (k o series)) ->
  answered_reply (reply (o ← run_metric_query env m start_ms end_ms step_ms; mret (with_points m o start_ms end_ms step_ms (k o)))).
Proof. intros Ht Hk. apply reply_bind. intros o E. eapply with_points_answers; [done|exact E|apply Hk]. Qed.
Lemma log_answers env s start_ms end_ms limit forward : answered_reply (reply (log_reply env s start_ms end_ms limit forward)).
Proof. by apply reply_bind. Qed.
Lemma parse_answered q (f : Parsed -> QueryR Reply) : utf8_valid q = true ->
  (forall x, parse q = Query x -> answered_reply (reply (f (Query x)))) -> (forall e, answered_reply (reply (f (Refused e)))) ->
  (forall n, answered_reply (reply (f (Trailing n)))) -> answered_reply (reply (f (parse q))).
Proof.
  intros Hu H1 H2 H3. pose proof (parse_answered_text q Hu) as Ha. destruct (parse q) as [x|e|n|] eqn:E; [by apply H1|apply H2|apply H3|done].
Qed.
End answers.

(** [C24] A range query whose times are in reach gets an answer: its text is
    read without a panic and its steps come to an end, whatever the streams,
    their documents and their failures. *)
Theorem query_range_answers `{LokiCrates} `{TextCodec} env p query start_ms end_ms :
  first p (str "query") = Some query -> utf8_valid query = true -> window_params env p = Ok (start_ms, end_ms) ->
  (forall m, parse query = Query (Metric m) -> in_reach (range_millis m) start_ms end_ms (step_param p 250 start_ms end_ms)) ->
  answered_reply (query_range env p).
Proof.
  intros Hq Hu Hw Hr. unfold query_range, query_param. rewrite Hq, Hw. cbn [mbind result_bind fst snd]. apply (parse_answered query (fun e => match e with
    | Query (Log s) => _ | Query (Metric m) => _ | Panics => _ | _ => _ end)); [done| |done|done]. intros [s|m] E.
  - apply reply_bind. intros _ _. apply log_answers.
  - apply reply_bind. intros _ _. unfold range_metric. apply metric_answers; [|done].
    apply times_of; [by eapply parse_range|apply step_param_positive|by apply Hr].
Qed.

Lemma single_point_ends `{LokiCrates} `{TextCodec} m bucket t step_ms series : exists out, to_step_points m bucket t t step_ms series = Points out.
Proof.
  induction series as [|[ls b] series [out IH]]; [by exists []|]. cbn [to_step_points]. unfold series_points. rewrite Z.eqb_refl, IH.
  cbn [mbind stepped_bind]. by eexists.
Qed.
Lemma single_point_answers `{LokiCrates} `{TextCodec} env m t step_ms (k : MetricOutcome -> list (Labels * list (Z * Z)) -> Reply) :
  (forall o series, answered_reply (k o series)) ->
  answered_reply (reply (o ← run_metric_query env m t t step_ms; mret (with_points m o t t step_ms (k o)))).
Proof.
  intros Hk. apply reply_bind. intros o _. unfold with_points. cbn [mret result_ret reply].
  destruct (single_point_ends m (bucket_ms o) t step_ms (mo_series o).*2) as [out ->]. apply Hk.
Qed.
(** An instant query and a volume are answered whatever their times. *)
Theorem single_point_queries_answer `{LokiCrates} `{TextCodec} env p :
  (forall query, first p (str "query") = Some query -> utf8_valid query = true) ->
  answered_reply (query_instant env p) /\ answered_reply (volume env p).
Proof.
  intros Hu. unfold query_instant, volume, query_param. destruct (first p (str "query")) as [query|]; [|done]. specialize (Hu query eq_refl). split.
  - apply reply_bind. intros ? [= <-]. apply reply_bind. intros t _. apply (parse_answered query (fun e => match e with
      | Query (Log s) => _ | Query (Metric m) => _ | Panics => _ | _ => _ end)); [done| |done|done].
    intros [s|m] E; (apply reply_bind; intros _ _); [apply log_answers|by apply single_point_answers].
  - apply reply_bind. intros ? [= <-]. apply reply_bind. intros w _. apply reply_bind. intros [s|] Es.
    + apply reply_bind. intros _ _. by apply single_point_answers.
    + exfalso. unfold volume_selector in Es. pose proof (parse_answered_text query Hu) as Ha. destruct (parse query) as [[s|m]|e|n|]; done.
Qed.

(** ** Witnesses *)

Definition demo_params : Params :=
  list_to_map [(str "query", [str "sum(count_over_time({service_name=~`.+`} |= `he` [4s]))"]); (str "start", [dec 102]); (str "end", [dec 106]); (str "step", [str "2s"])].
Definition demo_range_query : MetricQuery := mkMetric demo_filtered 4000 CountOverTime [] true.
Lemma demo_parsed : first demo_params (str "query") = Some (str "sum(count_over_time({service_name=~`.+`} |= `he` [4s]))") /\
  parse (str "sum(count_over_time({service_name=~`.+`} |= `he` [4s]))") = Query (Metric demo_range_query) /\
  window_params demo_env demo_params = Ok (102000, 106000) /\ step_param demo_params 250 102000 106000 = 2000.
Proof. split_and!; vm_compute; reflexivity. Qed.
Lemma query_range_answers_witness : answered_reply (query_range demo_env demo_params).
Proof.
  destruct demo_parsed as (Eq & Ep & Ew & Es).
  apply (query_range_answers demo_env demo_params _ 102000 106000 Eq); [by vm_compute|exact Ew|].
  rewrite Ep, Es. intros m [= <-]. constructor; cbn; unfold I64_MIN, I64_MAX; lia.
Defined.
Lemma single_point_queries_answer_witness : answered_reply (query_instant demo_env demo_params) /\ answered_reply (volume demo_env demo_params).
Proof.
  apply single_point_queries_answer. destruct demo_parsed as (-> & _). intros q [= <-]. by vm_compute.
Defined.
Definition demo_ticks : list (LokiEnv * Z) := [(demo_env, 105000); (demo_env, 106000)].
Definition demo_tail : Tail * list LogHit := tail_run ts_ms demo_filtered demo_ticks (mkTail 99000 ∅).
Lemma tail_emits_once_witness : ts_ms <$> demo_tail.2 = [100000; 101000; 103000] /\ NoDup (ts_ms <$> demo_tail.2) /\
  forall x, x ∈ ts_ms <$> demo_tail.2 <-> x ∈ ts_ms <$> session_lines ts_ms demo_filtered demo_ticks (mkTail 99000 ∅).
Proof.
  split; [by vm_compute|]. apply (tail_emits_once ts_ms demo_filtered demo_ticks demo_tail.1 demo_tail.2 99000); [apply surjective_pairing|].
  split; [|split; [|done]]; apply Nat.leb_le; by vm_compute.
Defined.
Lemma tail_sessions_bounded_witness : let t' := mkTails 1 [Held; Idle] in tail_sessions t' = held (slots t') /\ (held (slots t') <= MAX_TAIL_SESSIONS)%nat.
Proof.
  apply (tail_sessions_bounded (mkTails 0 [Idle; Idle])); [done|by apply Nat.leb_le|].
  eapply rtc_l; [by apply (tail_load 0 [Idle; Idle] 0)|]. cbn. eapply rtc_l; [|apply rtc_refl].
  apply (tail_exchange 0 [Trying 0; Idle] 0 0); [done|unfold MAX_TAIL_SESSIONS; lia|done].
Defined.
