(* ===== verification/Inputs.v ===== *)
(** * Network inputs (crates/rsearch-ingest: gelf.rs, syslog.rs, inputs.rs)

    GELF and syslog messages as documents, the framing of a connection, and
    the batches handed to the pipeline.  JSON parsing is an argument; reading
    a socket is the list of chunks it gave. *)

From Stdlib Require Import ZArith Lia Bool.
From Stdlib Require Import Strings.Byte.
From stdpp Require Import base gmap sets list strings.
From S2P Require Import Prelude Utf8 Json Mapping Dates.

Local Open Scope Z_scope.

(** ** [gelf.rs] *)

(** The field a member of the message becomes, if it is kept. *)
Definition gelf_name (key : bytes) : option bytes :=
  if decide (key = str "version") then None
  else if decide (key = str "short_message") then Some (str "message")
  else if decide (key = str "full_message") then Some (str "full_message")
  else if decide (key = str "timestamp") then Some (str "@timestamp")
  else if decide (key = str "level") then Some (str "severity")
  else Some (default key (strip_prefix (str "_") key)).
Definition gelf_insert (doc : list (bytes * json)) (kv : bytes * json) : list (bytes * json) :=
  match gelf_name kv.1 with None => doc | Some name => obj_insert name kv.2 doc end.
Definition parse_gelf (from_slice : bytes -> option json) (payload : bytes) : option json :=
  gelf ← from_slice payload;
  o ← as_object gelf;
  Some (Object (obj_insert (str "source") (JString (str "gelf")) (foldl gelf_insert [] o))).

(** ** [syslog.rs] *)

Definition nil_to_null (s : bytes) : json := if decide (s = str "-") then Null else JString s.

(** From after an open bracket, where its closing bracket is: [None] when the
    scan passes the end. *)
Fixpoint close_bracket (l : bytes) : option nat :=
  match l with
  | [] => None
  | x5c :: l => match l with [] => None | _ :: l => (fun i => S (S i)) <$> close_bracket l end
  | x5d :: _ => Some O
  | _ :: l => S <$> close_bracket l
  end.
Fixpoint skip_elements (fuel : nat) (rest : bytes) : parsed bytes :=
  match fuel with
  | O => Got rest
  | S fuel =>
      match rest with
      | x5b :: l =>
          match close_bracket l with
          | None => Got []
          | Some i => '(_, rest) ← split_at (S (S i)) rest; skip_elements fuel (trim_start rest)
          end
      | _ => Got rest
      end
  end.
Definition strip_structured_data (tail : bytes) : parsed bytes :=
  let tail := trim_start tail in
  match strip_prefix (str "-") tail with
  | Some rest => Got (trim_start rest)
  | None => skip_elements (length tail) tail
  end.

(** The byte offset of the [n]th [char]: [char_indices().nth(n)]. *)
Fixpoint nth_char (n : nat) (l : bytes) : option nat :=
  match l with
  | [] => None
  | _ => match n with
         | O => Some O
         | S n => let w := (utf8_head l).1 in Nat.add w <$> nth_char n (drop w l)
         end
  end.
(** [splitn(6, ' ')]: the first five pieces and what is left. *)
Fixpoint splitn (n : nat) (l : bytes) : list bytes :=
  match n with
  | O => []
  | S O => [l]
  | S n => match split_once x20 l with None => [l] | Some (x, r) => x :: splitn n r end
  end.
Definition is_tag_end (b : byte) : bool := Byte.eqb b x5b || is_ascii_digit b || Byte.eqb b x5d.
Fixpoint drop_while (p : byte -> bool) (l : bytes) : bytes :=
  match l with [] => [] | b :: r => if p b then drop_while p r else l end.
Definition trim_end_matches (p : byte -> bool) (l : bytes) : bytes := reverse (drop_while p (reverse l)).

Definition fields (kvs : list (string * json)) : json := obj_collect ((fun kv => (str kv.1, kv.2)) <$> kvs).
Definition parse_5424 (facility severity : json) (rest : bytes) : parsed json :=
  match splitn 6 rest with
  | timestamp :: host :: app :: procid :: msgid :: tail =>
      message ← strip_structured_data (default [] (head tail));
      let doc := [("host", nil_to_null host); ("app", nil_to_null app); ("procid", nil_to_null procid); ("msgid", nil_to_null msgid);
                  ("facility", facility); ("severity", severity); ("message", JString message); ("source", JString (str "syslog"))]%string in
      mret (fields (if decide (timestamp = str "-") then doc else doc ++ [("@timestamp"%string, JString timestamp)]))
  | _ => Refused
  end.
Definition parse_3164 (facility severity : json) (rest : bytes) : parsed json :=
  let rest := trim_start rest in
  let split := default (length rest) (nth_char 15 rest) in
  if (split <? 15)%nat then Refused
  else
    '(_, after) ← split_at split rest;
    let after_ts := trim_start after in
    let '(host, msg) := default (after_ts, []) (split_once x20 after_ts) in
    let '(app, message) :=
      match split_once x3a msg with
      | Some (tag, m) => (trim_end_matches is_tag_end tag, trim_start m)
      | None => ([], msg)
      end in
    mret (fields [("host", JString host); ("app", JString app); ("facility", facility); ("severity", severity);
                  ("message", JString message); ("source", JString (str "syslog"))]%string).
Definition try_parse (line : bytes) : parsed json :=
  rest ← opt (strip_prefix (str "<") line);
  '(pri, rest) ← opt (split_once x3e rest);
  pri ← opt (parse_u U32_MAX pri);
  let facility := Number (PosInt (pri / 8)) in
  let severity := Number (PosInt (pri mod 8)) in
  match strip_prefix (str "1 ") rest with
  | Some rest => parse_5424 facility severity rest
  | None => parse_3164 facility severity rest
  end.
Definition raw_document (line : bytes) : json :=
  fields [("message", JString line); ("source", JString (str "syslog")); ("parse_error", Bool true)]%string.
Definition parse_syslog (line : bytes) : parsed json :=
  let line := trim line in
  match try_parse line with
  | Refused => Got (raw_document line)
  | r => r
  end.

Example syslog_5424 :
  parse_syslog (str "<165>1 2026-07-24T05:00:00.123Z web01 nginx 1234 ID47 [exampleSDID@32473 iut=3] upstream timed out") =
  Got (fields [("host", JString (str "web01")); ("app", JString (str "nginx")); ("procid", JString (str "1234")); ("msgid", JString (str "ID47"));
    ("facility", Number (PosInt 20)); ("severity", Number (PosInt 5)); ("message", JString (str "upstream timed out"));
    ("source", JString (str "syslog")); ("@timestamp", JString (str "2026-07-24T05:00:00.123Z"))]%string).
Proof. by vm_compute. Qed.
Example syslog_3164 :
  parse_syslog (str "<34>Jul 24 05:00:00 web01 sshd[123]: Failed password for root") =
  Got (fields [("host", JString (str "web01")); ("app", JString (str "sshd")); ("facility", Number (PosInt 4)); ("severity", Number (PosInt 2));
    ("message", JString (str "Failed password for root")); ("source", JString (str "syslog"))]%string).
Proof. by vm_compute. Qed.
(** A message in brackets after the structured data goes with it. *)
Example bracketed_message_lost :
  parse_syslog (str "<34>1 - h su - - [a b] [error] disk full") = parse_syslog (str "<34>1 - h su - - [a b] disk full").
Proof. by vm_compute. Qed.
(** The digits that end a tag go with its process id. *)
Example tag_digits_lost : parse_syslog (str "<34>Jul 24 05:00:00 web01 php7: boom") = parse_syslog (str "<34>Jul 24 05:00:00 web01 php[7]: boom").
Proof. by vm_compute. Qed.

(** ** [inputs.rs]: framing *)

Definition MAX_PENDING : nat := Z.to_nat (2 ^ 20).

(** The frames of a buffer and the start of the next one. *)
Fixpoint take_frames (fuel : nat) (sep : byte) (pending : bytes) : list bytes * bytes :=
  match fuel with
  | O => ([], pending)
  | S fuel =>
      match split_once sep pending with
      | None => ([], pending)
      | Some (f, r) => let '(fs, rest) := take_frames fuel sep r in (f :: fs, rest)
      end
  end.
Definition read_chunk (sep : byte) (pending chunk : bytes) : list bytes * bytes :=
  let buf := pending ++ chunk in
  let '(fs, rest) := take_frames (length buf) sep buf in
  (fs, if decide (MAX_PENDING < length rest)%nat then [] else rest).
Fixpoint read_chunks (sep : byte) (pending : bytes) (chunks : list bytes) : list bytes * bytes :=
  match chunks with
  | [] => ([], pending)
  | c :: chunks =>
      let '(fs, pending) := read_chunk sep pending c in
      let '(fs', pending) := read_chunks sep pending chunks in (fs ++ fs', pending)
  end.

(** What a frame is sent as. *)
Definition syslog_frame (frame : bytes) : list (parsed json) :=
  let line := utf8_lossy frame in if decide (trim line = []) then [] else [parse_syslog line].
Definition gelf_frame (from_slice : bytes -> option json) (frame : bytes) : list json := option_list (parse_gelf from_slice frame).

(** A connection: its chunks until the end of the stream. *)
Definition read_lines (chunks : list bytes) : list (parsed json) :=
  let '(fs, pending) := read_chunks x0a [] chunks in
  concat (syslog_frame <$> fs) ++ (if decide (pending = []) then [] else syslog_frame pending).
Definition read_gelf (from_slice : bytes -> option json) (chunks : list bytes) : list json :=
  let '(fs, pending) := read_chunks x00 [] chunks in
  concat (gelf_frame from_slice <$> fs) ++ (if decide (pending = []) then [] else gelf_frame from_slice pending).
(** A datagram: lines of its lossy text. *)
Definition read_datagram (buf : bytes) : list (parsed json) :=
  parse_syslog <$> filter (fun l => trim l <> []) (split_on x0a (utf8_lossy buf)).

(** ** [inputs.rs]: the batcher *)

Definition BATCH_MAX : nat := 500.
Inductive Input := Received (doc : json) | Ticked | Disconnected.
(** The buffer and the batch handed to the pipeline; a batch the pipeline
    refuses is warned of and gone. *)
Definition flush (buffer : list json) : list (list json) := match buffer with [] => [] | _ => [buffer] end.
Definition batcher_step (buffer : list json) (i : Input) : list json * list (list json) :=
  match i with
  | Received doc => let buffer := buffer ++ [doc] in if decide (BATCH_MAX <= length buffer)%nat then ([], [buffer]) else (buffer, [])
  | Ticked | Disconnected => ([], flush buffer)
  end.
Fixpoint run_batcher (buffer : list json) (ins : list Input) : list (list json) :=
  match ins with
  | [] => []
  | i :: ins =>
      let '(buffer, out) := batcher_step buffer i in
      out ++ match i with Disconnected => [] | _ => run_batcher buffer ins end
  end.

(** ** GELF: the fields of the document *)

(** The last member that becomes a field gives its value. *)
Definition field_of (name : bytes) (o : list (bytes * json)) : option json :=
  snd <$> last (filter (fun kv => gelf_name kv.1 = Some name) o).
Lemma gelf_fold_assoc name o doc : assoc name (foldl gelf_insert doc o) = match field_of name o with Some v => Some v | None => assoc name doc end.
Proof.
  revert doc. induction o as [|kv o IH] using rev_ind; intros doc; [done|]. rewrite foldl_app. cbn [foldl]. unfold field_of in *.
  rewrite filter_app. unfold gelf_insert at 1. rewrite filter_cons, filter_nil.
  destruct (gelf_name kv.1) as [n|] eqn:En.
  - destruct (decide (n = name)) as [->|Hn].
    + rewrite decide_True by done. rewrite last_snoc. cbn. by rewrite assoc_insert.
    + rewrite decide_False by congruence. by rewrite app_nil_r, assoc_insert_ne.
  - rewrite decide_False by done. by rewrite app_nil_r.
Qed.
(** A GELF object becomes a document whose field [name] is the last member, in
    key order, that is renamed to it; [source] says where it came from. *)
Theorem parse_gelf_fields from_slice payload o name : from_slice payload = Some (Object o) ->
  exists doc, parse_gelf from_slice payload = Some (Object doc) /\
    assoc name doc = if decide (name = str "source") then Some (JString (str "gelf")) else field_of name o.
Proof.
  intros E. unfold parse_gelf. rewrite E. cbn. eexists. split; [done|]. case_decide as Hn.
  - subst. by rewrite assoc_insert.
  - rewrite assoc_insert_ne, gelf_fold_assoc by done. by destruct (field_of name o).
Qed.

(** ** Framing is independent of the chunks *)

Lemma split_once_None c l : split_once c l = None -> split_on c l = [l].
Proof.
  induction l as [|b l IH]; [done|]. cbn. destruct (Byte.eqb b c); [done|]. destruct (split_once c l) as [[]|]; [done|]. intros _. by rewrite IH.
Qed.
Lemma split_on_frame c l a r : split_once c l = Some (a, r) -> split_on c l = a :: split_on c r.
Proof.
  revert a. induction l as [|b l IH]; [done|]. intros a. cbn. destruct (Byte.eqb b c); [by intros [= <- <-]|].
  destruct (split_once c l) as [[x y]|]; [|done]. cbn. intros [= <- <-]. by rewrite (IH x).
Qed.
Lemma take_frames_split fuel c l fs r : (length l <= fuel)%nat -> take_frames fuel c l = (fs, r) -> split_on c l = fs ++ [r] /\ split_once c r = None.
Proof.
  revert l fs. induction fuel as [|fuel IH]; intros l fs Hl; cbn [take_frames].
  { destruct l; [|cbn in Hl; lia]. by intros [= <- <-]. }
  destruct (split_once c l) as [[x y]|] eqn:E.
  - apply split_once_parts in E as El. assert (length y <= fuel)%nat as Hy by (rewrite El, length_app in Hl; cbn in Hl; lia).
    destruct (take_frames fuel c y) as [fs' r'] eqn:E2. intros [= <- <-]. destruct (IH y fs' Hy E2) as [H1 H2].
    split; [|done]. by rewrite (split_on_frame _ _ _ _ E), H1.
  - intros [= <- <-]. split; [by apply split_once_None|done].
Qed.
(** What is left of a buffer only grows into the next piece. *)
Lemma split_on_app c l r fs x : split_on c l = fs ++ [x] -> split_on c (l ++ r) = fs ++ split_on c (x ++ r).
Proof.
  revert fs x. induction l as [|b l IH]; intros fs x; cbn.
  { intros E. destruct fs as [|f fs]; [by injection E as <-|]. destruct fs; done. }
  destruct (Byte.eqb b c) eqn:Eb.
  - destruct fs as [|f fs]; cbn; intros [= H1 H2]; [by destruct l; cbn in H2; repeat case_match|]. subst f. by rewrite (IH fs x H2).
  - destruct (split_on c l) as [|w ws] eqn:E; [by destruct l; cbn in E; repeat case_match|]. destruct fs as [|f fs]; cbn; intros [= H1 H2].
    + subst. rewrite (IH [] w eq_refl). cbn. rewrite Eb. by destruct (split_on c (w ++ r)).
    + subst. by rewrite (IH (w :: fs) x eq_refl).
Qed.
Lemma split_on_open c x m : split_once c x = None -> exists w ws, split_on c (x ++ m) = (x ++ w) :: ws.
Proof.
  intros H. apply split_once_None in H. assert (exists w ws, split_on c m = w :: ws) as (w & ws & E).
  { destruct m as [|b m]; cbn; [by eexists _, _|]. repeat case_match; by eexists _, _. }
  exists w, ws. clear -H E. induction x as [|b x IH]; [done|]. cbn in H |- *. destruct (Byte.eqb b c).
  - by destruct x; cbn in H; repeat case_match.
  - destruct (split_on c x) as [|y ys] eqn:Ex; [by destruct x; cbn in Ex; repeat case_match|]. injection H as -> ->. by rewrite (IH eq_refl).
Qed.
Definition short (f : bytes) : Prop := (length f <= MAX_PENDING)%nat.
Lemma read_chunks_split c chunks pending : split_once c pending = None -> Forall short (split_on c (pending ++ concat chunks)) ->
  exists fs r, read_chunks c pending chunks = (fs, r) /\ split_on c (pending ++ concat chunks) = fs ++ [r].
Proof.
  revert pending. induction chunks as [|ch chunks IH]; intros pending Hp Hs; cbn [read_chunks concat] in *.
  { rewrite app_nil_r in *. exists [], pending. split; [done|]. by apply split_once_None. }
  unfold read_chunk. destruct (take_frames (length (pending ++ ch)) c (pending ++ ch)) as [fs x] eqn:E.
  apply take_frames_split in E as [E Hx]; [|done]. rewrite app_assoc, (split_on_app _ _ _ _ _ E) in *.
  apply Forall_app in Hs as [_ Hs]. destruct (split_on_open c x (concat chunks) Hx) as (w & ws & Ew).
  assert (length x <= MAX_PENDING)%nat as Hle.
  { rewrite Ew in Hs. apply Forall_cons in Hs as [Hw _]. unfold short in Hw. rewrite length_app in Hw. lia. }
  rewrite decide_False by lia. destruct (IH x Hx Hs) as (fs' & r & -> & ->). exists (fs ++ fs'), r. by rewrite app_assoc.
Qed.
Lemma syslog_frame_nil : syslog_frame [] = [].
Proof. done. Qed.

(** The same for GELF frames; what follows the last separator is a frame if it
    is not empty. *)
Theorem read_gelf_exact from_slice chunks : Forall short (split_on x00 (concat chunks)) ->
  exists fs r, split_on x00 (concat chunks) = fs ++ [r] /\
    read_gelf from_slice chunks = omap (parse_gelf from_slice) (fs ++ (if decide (r = []) then [] else [r])).
Proof.
  intros Hs. destruct (read_chunks_split x00 chunks [] eq_refl Hs) as (fs & r & E & Es). cbn [app] in Es. exists fs, r. split; [done|].
  unfold read_gelf. rewrite E, omap_app. f_equal.
  - clear. induction fs as [|f fs IH]; [done|]. cbn [fmap list_fmap concat]. rewrite IH. unfold gelf_frame. cbn [omap list_omap]. by destruct (parse_gelf from_slice f).
  - case_decide; [done|]. unfold gelf_frame. cbn [omap list_omap]. by destruct (parse_gelf from_slice r).
Qed.
(** The buffer between reads stays under its cap whatever is sent. *)
Theorem pending_bounded c pending chunk : short pending -> short (read_chunk c pending chunk).2.
Proof. intros H. unfold read_chunk. destruct (take_frames _ _ _) as [fs rest]. cbn [snd]. unfold short in *. case_decide; cbn; [|lia]. cbn. lia. Qed.

(** ** Batches *)

Definition received (ins : list Input) : list json := omap (fun i => match i with Received d => Some d | _ => None end) ins.
Definition open_inputs (ins : list Input) : Prop := Forall (fun i => i <> Disconnected) ins.
Definition full_batch (b : list json) : Prop := b <> [] /\ (length b <= BATCH_MAX)%nat.

Lemma run_batcher_spec ins buffer : open_inputs ins -> (length buffer < BATCH_MAX)%nat ->
  concat (run_batcher buffer (ins ++ [Disconnected])) = buffer ++ received ins /\ Forall full_batch (run_batcher buffer (ins ++ [Disconnected])).
Proof.
  intros Ho. revert buffer. induction Ho as [|i ins Hi _ IH]; intros buffer Hb.
  { cbn. destruct buffer as [|d buffer]; cbn; [by split|]. rewrite !app_nil_r. split; [done|]. repeat apply Forall_cons_2; [split; [done|cbn in *; lia]|apply Forall_nil_2]. }
  assert (0 < BATCH_MAX)%nat as Hpos by (unfold BATCH_MAX; lia).
  destruct i as [d| |]; [| |done]; cbn [app run_batcher batcher_step].
  - change (received (Received d :: ins)) with (d :: received ins). destruct (decide (BATCH_MAX <= length (buffer ++ [d]))%nat) as [Hd|Hd].
    + destruct (IH [] Hpos) as [H1 H2]. cbn [app concat]. rewrite H1. split; [by rewrite <- app_assoc|]. constructor; [|done].
      split; [by destruct buffer|]. rewrite length_app in *. cbn in *. lia.
    + destruct (IH (buffer ++ [d]) ltac:(lia)) as [H1 H2]. cbn [app concat]. split; [by rewrite H1, <- app_assoc|done].
  - change (received (Ticked :: ins)) with (received ins). destruct (IH [] Hpos) as [H1 H2]. rewrite concat_app, H1.
    unfold flush. destruct buffer as [|d buffer]; [done|]. split; [cbn; by rewrite app_nil_r|]. constructor; [|done]. split; [done|]. cbn in *. lia.
Qed.
(** Until its senders are gone the batcher hands every document to the pipeline
    once, in order, in batches of one to [BATCH_MAX]. *)
Theorem batcher_hands_all ins : open_inputs ins ->
  concat (run_batcher [] (ins ++ [Disconnected])) = received ins /\ Forall full_batch (run_batcher [] (ins ++ [Disconnected])).
Proof. intros H. apply run_batcher_spec; [done|]. unfold BATCH_MAX. cbn. lia. Qed.

(** ** A message never stops the listener *)

Lemma split_at_text a b : text b -> split_at (length a) (a ++ b) = Got (a, b).
Proof.
  intros Hb. unfold split_at. assert (is_char_boundary (a ++ b) (length a) = true) as ->; [|by rewrite take_app_length, drop_app_length].
  unfold is_char_boundary. destruct b as [|x r]; [by rewrite app_nil_r, Nat.eqb_refl, orb_true_r|].
  rewrite list_lookup_middle by done. apply text_head in Hb as ->. by rewrite orb_true_r.
Qed.
Lemma close_bracket_at l k : close_bracket l = Some k -> exists a r, l = a ++ x5d :: r /\ length a = k.
Proof.
  revert k. induction l as [l IH] using (induction_ltof1 _ (@length byte)). unfold ltof in IH. intros k. destruct l as [|b l]; [done|]. cbn [close_bracket].
  destruct (decide (b = x5c)) as [->|Hb].
  - destruct l as [|c l]; [done|]. intros (i & Hi & ->)%fmap_Some. destruct (IH l ltac:(cbn; lia) i Hi) as (a & r & -> & <-). by exists (x5c :: c :: a), r.
  - destruct (decide (b = x5d)) as [->|Hd]; [intros [= <-]; by exists [], l|]. intros H.
    assert (S <$> close_bracket l = Some k) as (i & Hi & ->)%fmap_Some by (by destruct b).
    destruct (IH l ltac:(cbn; lia) i Hi) as (a & r & -> & <-). by exists (b :: a), r.
Qed.
Lemma skip_elements_total fuel rest : text rest -> exists m, skip_elements fuel rest = Got m.
Proof.
  revert rest. induction fuel as [|fuel IH]; intros rest H; [by eexists|]. cbn [skip_elements].
  destruct rest as [|b l]; [by eexists|]. destruct (decide (b = x5b)) as [->|Hb]; [|destruct b; first [done|by eexists]].
  destruct (close_bracket l) as [i|] eqn:E; [|by eexists]. apply close_bracket_at in E as (a & r & -> & <-).
  apply text_ascii_tail in H; [|by unfold ascii_byte; cbn]. apply text_cut_ascii in H as [_ Hr]; [|by unfold ascii_byte; cbn].
  assert (x5b :: a ++ x5d :: r = (x5b :: a ++ [x5d]) ++ r) as -> by (cbn; by rewrite <- app_assoc).
  replace (S (S (length a))) with (length (x5b :: a ++ [x5d])) by (cbn; rewrite length_app; cbn; lia).
  rewrite split_at_text by done. cbn [mbind parsed_bind]. by apply IH, text_trim_start.
Qed.
Lemma strip_structured_total tail : text tail -> exists m, strip_structured_data tail = Got m.
Proof. intros H. unfold strip_structured_data. destruct (strip_prefix _ _); [by eexists|]. by apply skip_elements_total, text_trim_start. Qed.
Lemma nth_char_cut n l i : text l -> nth_char n l = Some i -> exists a b, l = a ++ b /\ length a = i /\ text b.
Proof.
  revert l i. induction n as [|n IH]; intros l i H; destruct H as [|c l [Hne Hc] Hl]; try done.
  - destruct c; [done|]. intros [= <-]. exists [], (b :: c ++ l). split_and!; [done..|]. by apply (text_cons (b :: c)).
  - assert (c ++ l <> []) as Hcl by (by destruct c). destruct (c ++ l) as [|x y] eqn:E; [done|]. cbn [nth_char]. rewrite <- E, (utf8_head_app c l) by done. cbn [fst].
    rewrite drop_app_length. intros (j & Hj & ->)%fmap_Some. destruct (IH l j Hl Hj) as (a & b & -> & <- & Hb). exists (c ++ a), b.
    by rewrite <- app_assoc, length_app.
Qed.
Lemma splitn_text n l : text l -> Forall text (splitn n l).
Proof.
  revert l. induction n as [|[|n] IH]; intros l H; cbn [splitn]; [constructor|by repeat constructor|].
  destruct (split_once x20 l) as [[x r]|] eqn:E; [|by repeat constructor]. apply split_once_parts in E as ->.
  apply text_cut_ascii in H as [Hx Hr]; [|by unfold ascii_byte; cbn]. constructor; [done|by apply IH].
Qed.
Definition calm {A} (r : parsed A) : Prop := match r with Panics => False | _ => True end.
Lemma parse_5424_calm f s rest : text rest -> calm (parse_5424 f s rest).
Proof.
  intros H. apply (splitn_text 6) in H. unfold parse_5424. destruct (splitn 6 rest) as [|t [|h [|a [|p [|m tail]]]]]; try done.
  do 5 apply Forall_cons in H as [_ H]. assert (text (default [] (head tail))) as Ht by (destruct H; [constructor|done]).
  destruct (strip_structured_total _ Ht) as [msg ->]. done.
Qed.
Lemma parse_3164_calm f s rest : text rest -> calm (parse_3164 f s rest).
Proof.
  intros H. apply text_trim_start in H. unfold parse_3164. revert H. generalize (trim_start rest) as l. intros l H.
  case_match; [done|]. assert (exists a b, l = a ++ b /\ length a = default (length l) (nth_char 15 l) /\ text b) as (a & b & -> & <- & Hb).
  { destruct (nth_char 15 l) as [i|] eqn:E; [by apply nth_char_cut in E|]. exists l, []. rewrite app_nil_r. split_and!; [done..|constructor]. }
  rewrite split_at_text by done. cbn [mbind parsed_bind]. destruct (default (trim_start b, []) (split_once x20 (trim_start b))) as [host msg]. by destruct (match split_once x3a msg with Some _ => _ | None => _ end).
Qed.
(** [C27] Whatever text arrives, a syslog message becomes a document: no slice
    falls inside a character. *)
Theorem parse_syslog_total line : utf8_valid line = true -> exists doc, parse_syslog line = Got doc.
Proof.
  intros H%utf8_text%text_trim. unfold parse_syslog. assert (calm (try_parse (trim line))) as Hc; [|destruct (try_parse (trim line)); [by eexists..|done]].
  revert H. generalize (trim line) as l. intros l H. unfold try_parse. destruct (strip_prefix (str "<") l) as [rest|] eqn:E; [|done].
  apply strip_prefix_Some in E as ->. cbn [opt mbind parsed_bind]. destruct (split_once x3e rest) as [[pri r]|] eqn:E; [|done].
  apply split_once_parts in E as ->. change (str "<" ++ pri ++ x3e :: r) with (x3c :: pri ++ x3e :: r) in H.
  apply text_ascii_tail in H; [|by unfold ascii_byte; cbn]. apply text_cut_ascii in H as [_ H]; [|by unfold ascii_byte; cbn]. cbn [opt mbind parsed_bind].
  destruct (parse_u _ pri); [|done]. cbn [opt mbind parsed_bind]. destruct (strip_prefix (str "1 ") r) as [r'|] eqn:E; [|by apply parse_3164_calm].
  apply strip_prefix_Some in E as ->. apply parse_5424_calm. by apply (text_cut (str "1 ") r') in H as [_ ?]; [|apply text_starts; by apply text_ascii_tail, text_ascii_tail in H].
Qed.

(** ** RFC 5424: a message is read back from its text *)

(** What stands between an element's brackets: a bracket is escaped. *)
Inductive element_body : bytes -> Prop :=
| body_nil : element_body []
| body_plain b l : b <> x5c -> b <> x5d -> element_body l -> element_body (b :: l)
| body_escaped b l : element_body l -> element_body (x5c :: b :: l).
Record Message := mkMessage { m_pri : Z; m_time : bytes; m_host : bytes; m_app : bytes; m_proc : bytes; m_id : bytes; m_elements : list bytes; m_text : bytes }.
Definition print_elements (es : list bytes) : bytes := match es with [] => str "-" | _ => concat ((fun e => x5b :: e ++ [x5d]) <$> es) end.
Definition print_text (t : bytes) : bytes := match t with [] => [] | _ => x20 :: t end.
Definition print_message (m : Message) : bytes :=
  str "<" ++ dec (m_pri m) ++ x3e :: str "1 " ++ m_time m ++ x20 :: m_host m ++ x20 :: m_app m ++ x20 :: m_proc m ++ x20 :: m_id m ++ x20 ::
  print_elements (m_elements m) ++ print_text (m_text m).
Definition message_doc (m : Message) : json :=
  let doc := [("host", nil_to_null (m_host m)); ("app", nil_to_null (m_app m)); ("procid", nil_to_null (m_proc m)); ("msgid", nil_to_null (m_id m));
    ("facility", Number (PosInt (m_pri m / 8))); ("severity", Number (PosInt (m_pri m mod 8))); ("message", JString (m_text m)); ("source", JString (str "syslog"))]%string in
  fields (if decide (m_time m = str "-") then doc else doc ++ [("@timestamp"%string, JString (m_time m))]).
(** A message as the RFC has it: no space in a header field, no white space
    around the line or the text; a text after elements has no bracket first. *)
Record message_ok (m : Message) : Prop := {
  mo_pri : 0 <= m_pri m <= U32_MAX;
  mo_header : Forall (fun f => x20 ∉ f) [m_time m; m_host m; m_app m; m_proc m; m_id m];
  mo_elements : Forall element_body (m_elements m);
  mo_text : trim_start (m_text m) = m_text m;
  mo_bracket : m_elements m = [] \/ head (m_text m) <> Some x5b;
  mo_line : trim (print_message m) = print_message m;
}.

Lemma trim_start_bracket l : trim_start (x5b :: l) = x5b :: l.
Proof. unfold trim_start. cbn [length trim_start_fuel]. assert (ws_width (x5b :: l) = 0%nat) as ->; [|done]. by destruct l as [|? [|]]. Qed.
Lemma trim_start_space l : trim_start (x20 :: l) = trim_start l.
Proof. done. Qed.
Lemma close_body e r : element_body e -> close_bracket (e ++ x5d :: r) = Some (length e).
Proof.
  induction 1 as [|b l H1 H2 _ IH|b l _ IH]; [done| |]; cbn [app close_bracket length].
  - rewrite IH. by destruct b.
  - by rewrite IH.
Qed.
Lemma skip_elements_text es t fuel : Forall element_body es -> trim_start t = t -> head t <> Some x5b -> (length es < fuel)%nat ->
  skip_elements fuel (concat ((fun e => x5b :: e ++ [x5d]) <$> es) ++ print_text t) = Got (if decide (es = []) then print_text t else t).
Proof.
  intros He Ht Hb. revert fuel. induction He as [|e es He _ IH]; intros [|fuel] Hf; cbn [length] in Hf; try lia.
  { cbn. destruct t; done. }
  cbn [fmap list_fmap concat skip_elements app].
  rewrite <- !app_assoc. cbn [app]. rewrite close_body by done.
  assert (forall r, x5b :: e ++ x5d :: r = (x5b :: e ++ [x5d]) ++ r) as Ha by (intros; cbn; by rewrite <- app_assoc).
  rewrite Ha. replace (S (S (length e))) with (length (x5b :: e ++ [x5d])) by (cbn; rewrite length_app; cbn; lia).
  unfold split_at. assert (forall r, starts_char r -> is_char_boundary ((x5b :: e ++ [x5d]) ++ r) (length (x5b :: e ++ [x5d])) = true) as Hc.
  { intros r Hr. unfold is_char_boundary. destruct r as [|x r]; [by rewrite app_nil_r, Nat.eqb_refl, orb_true_r|].
    rewrite list_lookup_middle by done. cbn in Hr. by rewrite Hr, orb_true_r. }
  rewrite Hc.
  2: { destruct es; [by destruct t|done]. }
  rewrite take_app_length, drop_app_length. cbn [mbind parsed_bind]. rewrite (decide_False (P := _ :: _ = [])) by done.
  destruct es as [|e' es]; cbn [fmap list_fmap concat app].
  - unfold print_text. destruct t as [|x t]; [cbn; by destruct fuel|]. rewrite trim_start_space, Ht.
    destruct fuel; [done|]. cbn [skip_elements]. destruct (decide (x = x5b)) as [->|]; [done|]. by destruct x.
  - rewrite trim_start_bracket. cbn [fmap list_fmap concat app] in IH. by rewrite (IH fuel ltac:(cbn [length] in *; lia)).
Qed.
Lemma splitn_header fs tail : Forall (fun f => x20 ∉ f) fs -> splitn (S (length fs)) (foldr (fun f r => f ++ x20 :: r) tail fs) = fs ++ [tail].
Proof.
  induction 1 as [|f fs Hf Hfs IH]; [done|]. cbn [length foldr].
  assert (forall n l, splitn (S (S n)) l = match split_once x20 l with None => [l] | Some (x, r) => x :: splitn (S n) r end) as -> by done.
  by rewrite split_once_at, IH by done.
Qed.
Lemma parse_u32_dec z : 0 <= z <= U32_MAX -> parse_u U32_MAX (dec z) = Some z.
Proof.
  intros H. assert (parse_u U64_MAX (dec z) = Some z) as E.
  { apply (parse_dec_pad 0). unfold U32_MAX, U64_MAX in *. lia. }
  unfold parse_u in *. destruct (digits_value _) as [v|]; [|done]. cbn in *. destruct (v <=? U64_MAX); [|done]. injection E as ->.
  by rewrite (proj2 (Z.leb_le _ _)) by lia.
Qed.
Lemma strip_structured_print es t : Forall element_body es -> trim_start t = t -> es = [] \/ head t <> Some x5b ->
  strip_structured_data (print_elements es ++ print_text t) = Got t.
Proof.
  intros He Ht Hb. destruct es as [|e es]; cbn [print_elements].
  { unfold strip_structured_data. change (str "-" ++ print_text t) with (x2d :: print_text t). destruct t as [|x t]; [done|].
    assert (forall l, trim_start (x2d :: x20 :: l) = x2d :: x20 :: l) as E.
    { intros l. unfold trim_start. cbn [length trim_start_fuel]. assert (ws_width (x2d :: x20 :: l) = 0%nat) as ->; [|done]. by destruct l. }
    unfold print_text. rewrite E. assert (forall l, strip_prefix (str "-") (x2d :: l) = Some l) as -> by done. cbn [opt]. by rewrite trim_start_space, Ht. }
  destruct Hb as [|Hb]; [done|]. set (l := concat _ ++ _). assert (exists r, l = x5b :: r) as [r El] by (by eexists).
  unfold strip_structured_data. rewrite El, trim_start_bracket. assert (strip_prefix (str "-") (x5b :: r) = None) as -> by done. rewrite <- El.
  unfold l. rewrite skip_elements_text; [by rewrite decide_False|done..|]. rewrite length_app. clear. cbn [fmap list_fmap concat length app].
  rewrite !length_app. cbn [length]. assert (length es <= length (concat ((fun e => x5b :: e ++ [x5d]) <$> es)))%nat; [|unfold fmap in *; lia].
  induction es as [|f fs IH]; cbn; [lia|]. rewrite !length_app. cbn in *. lia.
Qed.

Lemma dec_avoids b z : is_ascii_digit b = false -> b ∉ dec z.
Proof.
  intros Hb H. pose proof (dec_pad_digits 0 z) as Hd. change (dec_pad 0 z) with (dec z) in Hd. rewrite forallb_forall in Hd.
  apply list_elem_of_In in H. by rewrite (Hd b H) in Hb.
Qed.
(** A well-formed RFC 5424 message becomes the document of its fields. *)
Theorem parse_syslog_print m : message_ok m -> parse_syslog (print_message m) = Got (message_doc m).
Proof.
  intros [Hp Hh He Ht Hb Hl]. unfold parse_syslog. rewrite Hl. clear Hl. unfold try_parse, print_message. rewrite strip_prefix_app. cbn [opt mbind parsed_bind].
  rewrite split_once_at by by apply dec_avoids. cbn [opt mbind parsed_bind]. rewrite parse_u32_dec by done. cbn [opt mbind parsed_bind]. rewrite strip_prefix_app.
  unfold parse_5424. pose proof (splitn_header _ (print_elements (m_elements m) ++ print_text (m_text m)) Hh) as E. cbn [length foldr app] in E. rewrite E.
  cbn [head default from_option id].
  rewrite strip_structured_print by done. cbn [mbind parsed_bind]. done.
Qed.

(** ** RFC 3164 *)

Record BsdMessage := mkBsd { s_pri : Z; s_time : bytes; s_host : bytes; s_tag : bytes; s_text : bytes }.
Definition print_bsd (m : BsdMessage) : bytes :=
  str "<" ++ dec (s_pri m) ++ x3e :: s_time m ++ x20 :: s_host m ++ x20 :: s_tag m ++ x3a :: print_text (s_text m).
Definition bsd_doc (m : BsdMessage) : json :=
  fields [("host", JString (s_host m)); ("app", JString (trim_end_matches is_tag_end (s_tag m))); ("facility", Number (PosInt (s_pri m / 8)));
    ("severity", Number (PosInt (s_pri m mod 8))); ("message", JString (s_text m)); ("source", JString (str "syslog"))]%string.
(** A time of fifteen ASCII characters that starts with its month, a host of
    graphic characters, no colon in the tag. *)
Record bsd_ok (m : BsdMessage) : Prop := {
  bo_pri : 0 <= s_pri m <= U32_MAX;
  bo_time : length (s_time m) = 15%nat /\ Forall ascii_byte (s_time m) /\ exists b r, s_time m = b :: r /\ 65 <= bz b <= 90;
  bo_host : s_host m <> [] /\ Forall graphic (s_host m);
  bo_tag : x3a ∉ s_tag m;
  bo_text : trim_start (s_text m) = s_text m;
  bo_line : trim (print_bsd m) = print_bsd m;
}.

Lemma nth_char_ascii a b : Forall ascii_byte a -> b <> [] -> nth_char (length a) (a ++ b) = Some (length a).
Proof.
  intros H Hb. induction H as [|x a Hx Ha IH]; cbn [length app nth_char]; [by destruct b|].
  assert (utf8_head (x :: a ++ b) = (1%nat, true)) as -> by (apply (utf8_head_app [x]), scalar_ascii, Hx). cbv zeta. cbn [fst]. change (drop 1 (x :: a ++ b)) with (a ++ b). by rewrite IH.
Qed.
Lemma space_avoids l : Forall graphic l -> x20 ∉ l.
Proof. intros H Hin. rewrite Forall_forall in H. specialize (H _ Hin). unfold graphic in H. cbn in H. lia. Qed.
(** A BSD message becomes the document of its host, its tag without the process
    id, and its text. *)
Theorem parse_syslog_bsd m : bsd_ok m -> parse_syslog (print_bsd m) = Got (bsd_doc m).
Proof.
  intros [Hp (Hl & Ha & b & r & Eb & Hb) [Hh Hg] Ht Hx Hline]. unfold parse_syslog. rewrite Hline. clear Hline. unfold try_parse, print_bsd.
  rewrite strip_prefix_app. cbn [opt mbind parsed_bind]. rewrite split_once_at by by apply dec_avoids. cbn [opt mbind parsed_bind].
  rewrite parse_u32_dec by done. cbn [opt mbind parsed_bind]. set (rest := x20 :: s_host m ++ _).
  assert (strip_prefix (str "1 ") (s_time m ++ rest) = None) as ->.
  { rewrite Eb. assert (x31 <> b) as Hne by (intros <-; cbn in Hb; lia). unfold str, String.list_byte_of_string. cbn [app strip_prefix String.list_ascii_of_string map].
    destruct (Byte.eqb x31 b) eqn:E; [|by destruct b]. by apply Byte.byte_dec_bl in E. }
  assert (trim_start (s_time m ++ rest) = s_time m ++ rest) as Etrim by (rewrite Eb; apply trim_start_graphic; unfold graphic; lia).
  unfold parse_3164. rewrite Etrim. assert (nth_char 15 (s_time m ++ rest) = Some 15%nat) as -> by (rewrite <- Hl at 1 2; by apply nth_char_ascii).
  cbn [default from_option id]. change (15 <? 15)%nat with false. cbn iota. rewrite <- Hl at 1. unfold split_at.
  assert (is_char_boundary (s_time m ++ rest) (length (s_time m)) = true) as ->.
  { unfold is_char_boundary, rest. rewrite list_lookup_middle by done. by rewrite orb_true_r. }
  rewrite drop_app_length. cbn [mbind parsed_bind]. unfold rest. rewrite trim_start_space.
  assert (exists h hs, s_host m = h :: hs) as (h & hs & Eh) by (destruct (s_host m); [done|by eexists _, _]).
  rewrite Eh in *. pose proof Hg as Hg'. apply Forall_cons in Hg' as [Hh1 _]. change ((h :: hs) ++ ?x) with (h :: hs ++ x). rewrite trim_start_graphic by done.
  change (h :: hs ++ x20 :: ?x) with ((h :: hs) ++ x20 :: x). rewrite split_once_at by by apply space_avoids. cbn [default from_option id].
  rewrite split_once_at by done. cbn [mret parsed_ret]. unfold bsd_doc. rewrite Eh. do 2 f_equal.
  assert (trim_start (print_text (s_text m)) = s_text m) as ->; [|done]. unfold print_text. by destruct (s_text m).
Qed.

(** ** Witnesses *)

Lemma short_le l : (length l <= 100)%nat -> short l.
Proof. unfold short. intros H. assert (100 <= MAX_PENDING)%nat; [|lia]. unfold MAX_PENDING. rewrite <- (Nat2Z.id 100). apply Z2Nat.inj_le; lia. Qed.
Definition demo_chunks : list bytes := [str "<34>Jul 24 05:00:00 web01 su"; str "[7]: failed" ++ [x0a; x0a] ++ str "<3"; str "4>1 - web01 su - - - again"].
Definition demo_message : Message :=
  mkMessage 165 (str "2026-07-24T05:00:00Z") (str "web01") (str "nginx") (str "-") (str "ID47") [str "a@1 k=v"; str "b"] (str "timed out").
Lemma parse_syslog_print_witness : parse_syslog (print_message demo_message) = Got (message_doc demo_message).
Proof.
  apply (parse_syslog_print demo_message). split; [unfold U32_MAX; cbn; lia|..|reflexivity|right; done|reflexivity].
  - repeat constructor; cbn; intros H; repeat (apply elem_of_cons in H as [?|H]; [done|]); by apply elem_of_nil in H.
  - repeat (constructor; try done).
Defined.
Lemma parse_syslog_total_witness : exists doc, parse_syslog (str "<13>" ++ concat (replicate 8 [xc3; xa9]) ++ str "rest") = Got doc.
Proof. apply (parse_syslog_total (str "<13>" ++ concat (replicate 8 [xc3; xa9]) ++ str "rest")). reflexivity. Defined.
Definition demo_bsd : BsdMessage := mkBsd 34 (str "Jul 24 05:00:00") (str "web01") (str "sshd[123]") (str "Failed: root").
Lemma parse_syslog_bsd_witness : parse_syslog (print_bsd demo_bsd) = Got (bsd_doc demo_bsd).
Proof.
  apply (parse_syslog_bsd demo_bsd). split; [unfold U32_MAX; cbn; lia|split_and!; [done| |eexists _, _; split; [done|cbn; lia]]|split; [done|]| |reflexivity..].
  - repeat (constructor; [unfold ascii_byte; cbn; lia|]). constructor.
  - repeat (constructor; [unfold graphic; cbn; lia|]). constructor.
  - cbn. intros H. repeat (apply elem_of_cons in H as [?|H]; [done|]). by apply elem_of_nil in H.
Defined.
Definition demo_gelf : list (bytes * json) :=
  [(str "_service", JString (str "billing")); (str "_severity", Null); (str "level", Number (PosInt 3)); (str "short_message", JString (str "job failed"));
   (str "version", JString (str "1.1"))].
Lemma parse_gelf_fields_witness : exists doc, parse_gelf (fun _ => Some (Object demo_gelf)) [] = Some (Object doc) /\
  assoc (str "severity") doc = Some (Number (PosInt 3)).
Proof. apply (parse_gelf_fields (fun _ => Some (Object demo_gelf)) [] demo_gelf (str "severity") eq_refl). Defined.
Lemma batcher_hands_all_witness : concat (run_batcher [] ([Received Null; Ticked; Received (Bool true)] ++ [Disconnected])) = [Null; Bool true].
Proof. apply (batcher_hands_all [Received Null; Ticked; Received (Bool true)]). repeat constructor; done. Defined.
