(* ===== verification/SearchApi.v ===== *)
(** * The search routes (crates/rsearch-server/src/search_api.rs, first half)

    [_search], scrolls over the rows of rsearch-metastore/src/scroll.rs,
    [_msearch] and [_count].  The search service is an argument: what it
    answers a parsed request. *)

From Stdlib Require Import ZArith Lia Bool.
From Stdlib Require Import Strings.Byte.
From stdpp Require Import base gmap sets list strings sorting.
From S2P Require Import Prelude Utf8 Json Order Float64 Common Metastore Auth Dates Mapping Document QueryDsl Sort Search.

Local Open Scope Z_scope.

(** ** Replies *)

Inductive Why :=
| NoSearchRole | NotJson | BadKeepAlive | KeepAliveTooLarge | FromInScroll | AfterInScroll
| BadScrollId | MissingScrollId | ScrollMissing (id : bytes) | NotPermitted (stream : bytes)
| HeaderWithoutBody | CountNotObject | CountMember (key : bytes)
| Refused (r : Refusal) | NoSuchIndex (name : bytes) | Failed.
(** A response, an error body under its status, or a panic: a response that is
    written into and is no object. *)
Inductive Reply := Answer (j : json) | EsError (status : Z) (why : Why) | Unwound.

(** What a search that does not answer says. *)
Inductive Failure := SearchFailed (e : SearchError) | NoStream (name : bytes).
Definition map_search_error (e : Failure) : Reply :=
  match e with
  | SearchFailed (BadRequest r) => EsError 400 (Refused r)
  | NoStream name => EsError 404 (NoSuchIndex name)
  | SearchFailed _ => EsError 500 Failed
  end.
Definition Service : Type := bytes -> SearchRequest -> result Failure json.
(** [SearchRequest::parse], then the service. *)
Definition search_body `{TextCodec} (serve : Service) (index : bytes) (body : json) : result Failure json :=
  match parse_request body with Err e => Err (SearchFailed e) | Ok rq => serve index rq end.
Definition or_reply {A} (r : result Failure A) : result Reply A := match r with Ok a => Ok a | Err e => Err (map_search_error e) end.

(** [j["k"]], and [j["k"] = v]: an object's member, or a [null] made one. *)
Definition at_key (j : json) (k : bytes) : json := default Null (get j k).
Definition set_key (k : bytes) (v j : json) : option json :=
  match j with Object o => Some (Object (obj_insert k v o)) | Null => Some (Object [(k, v)]) | _ => None end.
Definition answer (j : option json) : Reply := match j with Some j => Answer j | None => Unwound end.

(** ** [parse_keep_alive] *)

Definition MAX_KEEP_ALIVE_SECS : Z := f64_of_Z (24 * 3600).
Fixpoint split_number (l : bytes) : bytes * bytes :=
  match l with
  | b :: r => if is_ascii_digit b || Byte.eqb b x2e then let '(n, u) := split_number r in (b :: n, u) else ([], l)
  | [] => ([], [])
  end.
Definition below_zero (b : Z) : bool := f64_negative b && negb (f64_abs b =? 0) && negb (is_nan b).
(** Seconds, as a float. *)
Definition unit_secs (unit : bytes) (amount : Z) : Z :=
  if decide (unit = str "ms") then f64_div_pos amount (f64_of_Z 1000)
  else if decide (unit = str "s") then amount
  else if decide (unit = str "m") then f64_mul_pos amount 60
  else if decide (unit = str "h") then f64_mul_pos amount 3600
  else if decide (unit = str "d") then f64_mul_pos amount 86400
  else NAN_BITS.
Definition parse_keep_alive `{TextCodec} (value : bytes) : result Reply Z :=
  let '(number, unit) := split_number (trim value) in
  let secs := unit_secs unit (default NAN_BITS (parse_f64 number)) in
  if bool_decide (number = []) || negb (is_finite secs) || below_zero secs then Err (EsError 400 BadKeepAlive)
  else if MAX_KEEP_ALIVE_SECS <? secs then Err (EsError 400 KeepAliveTooLarge)
  else Ok secs.

(** ** Scroll contexts (scroll.rs), one function per statement *)

Record ScrollRecord := mkScroll { sc_stream : bytes; sc_request : json; sc_cursor : option json; sc_total : json; sc_expires : Z }.
Definition Scrolls : Type := gmap bytes ScrollRecord.
Section statements.
(** [make_interval(secs => $1)], in microseconds. *)
Variable make_interval : Z -> Z.

(** [None]: the id is taken. *)
Definition create_scroll (now : Z) (id stream : bytes) (request : json) (cursor : option json) (total : json) (keep_alive : Z) (d : Scrolls) : option Scrolls :=
  match d !! id with
  | Some _ => None
  | None => Some (<[id := mkScroll stream request cursor total (now + make_interval keep_alive)]> d)
  end.
Definition live_scroll (now : Z) (s : ScrollRecord) : bool := now <? sc_expires s.
Definition get_scroll (now : Z) (id : bytes) (d : Scrolls) : option ScrollRecord :=
  s ← d !! id; if live_scroll now s then Some s else None.
Definition coalesce (a b : option json) : option json := match a with Some a => Some a | None => b end.
Definition advance_scroll (now : Z) (id : bytes) (cursor : option json) (keep_alive : Z) (d : Scrolls) : Scrolls :=
  alter (fun s => mkScroll (sc_stream s) (sc_request s) (coalesce cursor (sc_cursor s)) (sc_total s) (now + make_interval keep_alive)) id d.
Definition advance_scroll_cursor (id : bytes) (cursor : option json) (d : Scrolls) : Scrolls :=
  alter (fun s => mkScroll (sc_stream s) (sc_request s) (coalesce cursor (sc_cursor s)) (sc_total s) (sc_expires s)) id d.
Definition list_scrolls (now : Z) (d : Scrolls) : list (bytes * bytes) :=
  prod_map id sc_stream <$> filter (fun p : bytes * ScrollRecord => live_scroll now p.2 = true) (map_to_list d).
Definition delete_scrolls (ids : list bytes) (d : Scrolls) : Scrolls * Z :=
  let d' := filter (fun p : bytes * ScrollRecord => p.1 ∉ ids) d in (d', Z.of_nat (base.size d) - Z.of_nat (base.size d')).
Definition delete_all_scrolls (d : Scrolls) : Scrolls * Z := (∅, Z.of_nat (base.size d)).
Definition purge_expired_scrolls (now : Z) (d : Scrolls) : Scrolls * Z :=
  let d' := filter (fun p : bytes * ScrollRecord => live_scroll now p.2 = true) d in (d', Z.of_nat (base.size d) - Z.of_nat (base.size d')).

(** ** [_search] *)

(** What one request runs in: the clock, the search service if the node has
    one, and whether the metastore answers a read and a write. *)
Record World := mkWorld { w_now : Z; w_serve : option Service; w_reads : bool; w_writes : bool }.
Context `{C : TextCodec} (from_str : bytes -> option json).
Notation ReplyR := (result Reply).

Definition parse_body (body : bytes) : ReplyR json :=
  if decide (trim body = []) then Ok (Object []) else ok_or (from_str body) (EsError 400 NotJson).
Definition service (w : World) : ReplyR Service := ok_or (w_serve w) (EsError 400 NoSearchRole).
Definition non_null (o : option json) : bool := match o with Some Null | None => false | Some _ => true end.
Definition scroll_body (j : json) : ReplyR json :=
  if negb (u64_or (get j (str "from")) 0 =? 0) then Err (EsError 400 FromInScroll)
  else if non_null (get j (str "search_after")) then Err (EsError 400 AfterInScroll)
  else Ok (match j with Object _ => j | _ => Object [] end).
(** The request of later pages: aggregations are the first page's. *)
Definition without_aggs (j : json) : json :=
  match j with Object o => Object (filter (fun kv : bytes * json => kv.1 <> str "aggs" /\ kv.1 <> str "aggregations") o) | _ => j end.
Definition last_hit_sort (response : json) : option json :=
  hits ← as_array (at_key (at_key response (str "hits")) (str "hits"));
  hit ← list.last hits;
  s ← get hit (str "sort");
  match s with Array _ => Some s | _ => None end.
Definition hits_total (response : json) : json := at_key (at_key response (str "hits")) (str "total").

(** A search, before its scroll is stored: the keep-alive, the body and the
    response. *)
Definition run_search (w : World) (index : bytes) (params : gmap bytes bytes) (body : bytes) : ReplyR (option Z * json * json) :=
  serve ← service w;
  j ← parse_body body;
  keep ← match params !! str "scroll" with None => Ok None | Some s => secs ← parse_keep_alive s; Ok (Some secs) end;
  j ← (match keep with Some _ => scroll_body j | None => Ok j end : ReplyR json);
  response ← or_reply (search_body serve index j);
  Ok (keep, j, response).
Definition search (w : World) (index : bytes) (params : gmap bytes bytes) (body : bytes) (new_id : bytes) (d : Scrolls) : Scrolls * Reply :=
  match run_search w index params body with
  | Err r => (d, r)
  | Ok (None, _, response) => (d, Answer response)
  | Ok (Some keep, j, response) =>
      match (if w_writes w then create_scroll (w_now w) new_id index (without_aggs j) (last_hit_sort response) (hits_total response) keep d else None) with
      | None => (d, EsError 500 Failed)
      | Some d => (d, answer (set_key (str "_scroll_id") (JString new_id) response))
      end
  end.

(** ** [_search/scroll] *)

Definition is_hex (b : byte) : bool := is_ascii_digit b || in_rng (bz b) 0x41 0x46 || in_rng (bz b) 0x61 0x66.
Definition valid_scroll_id (id : bytes) : bool := (length id =? 32)%nat && forallb is_hex id.
Definition comma_ids (l : bytes) : list bytes := filter (fun s : bytes => s <> []) (trim <$> split_on x2c l).
Definition body_ids (j : json) : list bytes :=
  match get j (str "scroll_id") with
  | Some (JString s) => [s]
  | Some (Array l) => omap as_str l
  | _ => []
  end.
Definition scroll_params (params : gmap bytes bytes) (body : bytes) (path_id : option bytes) : ReplyR (list bytes * option (ReplyR Z)) :=
  j ← parse_body body;
  let ids := from_option comma_ids [] path_id ++ body_ids j ++ from_option comma_ids [] (params !! str "scroll_id") in
  let keep := match (v ← get j (str "scroll"); as_str v) with Some s => Some s | None => params !! str "scroll" end in
  Ok (ids, parse_keep_alive <$> keep).
Definition may_read (identity : option Identity) (stream : bytes) : bool :=
  match identity with Some i => is_admin i || allows_stream i stream | None => true end.
(** The page a request reads past its cursor. *)
Definition page_body (request cursor : json) : option json :=
  j ← set_key (str "search_after") cursor request; set_key (str "track_total_hits") (Bool false) j.
Definition empty_scroll_page (total : json) : json :=
  Object [(str "_shards", Object [(str "failed", Number (PosInt 0)); (str "skipped", Number (PosInt 0)); (str "successful", Number (PosInt 0)); (str "total", Number (PosInt 0))]);
          (str "hits", Object [(str "hits", Array []); (str "max_score", Null); (str "total", total)]);
          (str "timed_out", Bool false); (str "took", Number (PosInt 0))].
(** [response["hits"]["total"] = total]. *)
Definition with_total (total response : json) : option json :=
  hits ← set_key (str "total") total (at_key response (str "hits")); set_key (str "hits") hits response.
Definition next_page (serve : Service) (s : ScrollRecord) : ReplyR json :=
  match sc_cursor s with
  | None => Ok (empty_scroll_page (sc_total s))
  | Some cursor =>
      j ← ok_or (page_body (sc_request s) cursor) Unwound;
      or_reply (search_body serve (sc_stream s) j)
  end.
(** The context, the keep-alive asked for and the page. *)
Definition read_page (w : World) (params : gmap bytes bytes) (identity : option Identity) (body : bytes) (path_id : option bytes) (d : Scrolls)
    : ReplyR (bytes * option Z * json) :=
  serve ← service w;
  '(ids, keep) ← scroll_params params body path_id;
  id ← ok_or (head ids) (EsError 400 MissingScrollId);
  if negb (valid_scroll_id id) then Err (EsError 400 BadScrollId)
  else
    keep ← match keep with Some r => secs ← r; Ok (Some secs) | None => Ok None end;
    s ← if w_reads w then ok_or (get_scroll (w_now w) id d) (EsError 404 (ScrollMissing id)) else Err (EsError 500 Failed);
    if negb (may_read identity (sc_stream s)) then Err (EsError 403 (NotPermitted (sc_stream s)))
    else
      page ← next_page serve s;
      page ← ok_or (with_total (sc_total s) page) Unwound;
      Ok (id, keep, page).
Definition scroll_page (w : World) (params : gmap bytes bytes) (identity : option Identity) (body : bytes) (path_id : option bytes) (d : Scrolls) : Scrolls * Reply :=
  match read_page w params identity body path_id d with
  | Err r => (d, r)
  | Ok (id, keep, page) =>
      if w_writes w then
        let cursor := last_hit_sort page in
        (match keep with Some secs => advance_scroll (w_now w) id cursor secs d | None => advance_scroll_cursor id cursor d end,
         answer (set_key (str "_scroll_id") (JString id) page))
      else (d, EsError 500 Failed)
  end.

(** ** [DELETE _search/scroll] *)

Definition scoped (identity : option Identity) : option Identity :=
  i ← identity; if is_admin i || existsb (fun s => bool_decide (s = str "*")) (streams i) then None else Some i.
(** What a caller of a scope may free, and the first stream outside it. *)
Definition free_scoped (now : Z) (i : Identity) (all : bool) (ids : list bytes) (d : Scrolls) : ReplyR (Scrolls * Z) :=
  let live := list_scrolls now d in
  let wanted (id : bytes) := all || bool_decide (id ∈ ids) in
  let mine := (filter (fun p : bytes * bytes => allows_stream i p.2 && wanted p.1 = true) live).*1 in
  match (if all then None else head (filter (fun p : bytes * bytes => wanted p.1 && negb (allows_stream i p.2) = true) live)) with
  | Some (_, stream) => Err (EsError 403 (NotPermitted stream))
  | None => Ok (delete_scrolls mine d)
  end.
Definition clear_scrolls (w : World) (params : gmap bytes bytes) (identity : option Identity) (body : bytes) (path_id : option bytes) (d : Scrolls) : Scrolls * Reply :=
  let freed : ReplyR (Scrolls * Z) :=
    '(ids, _) ← scroll_params params body path_id;
    let all := bool_decide (str "_all" ∈ ids) in
    if negb all && bool_decide (ids = []) then Err (EsError 400 MissingScrollId)
    else if negb all && negb (forallb valid_scroll_id ids) then Err (EsError 400 BadScrollId)
    else
      match scoped identity with
      | None => if w_writes w then Ok (if all then delete_all_scrolls d else delete_scrolls ids d) else Err (EsError 500 Failed)
      | Some i =>
          if negb (w_reads w) then Err (EsError 500 Failed)
          else r ← free_scoped (w_now w) i all ids d; if w_writes w then Ok r else Err (EsError 500 Failed)
      end in
  match freed with
  | Err r => (d, r)
  | Ok (d, n) => (d, Answer (Object [(str "num_freed", Number (PosInt n)); (str "succeeded", Bool true)]))
  end.

(** ** [_msearch] *)

(** Why a pair is not answered. *)
Inductive PairError := NoIndex | NamesFailed | NoMatch (pattern : bytes) | ManyMatch (pattern : bytes) (n : nat) | PairFailed (e : Failure).
Definition resolve_stream (names : option (list bytes)) (pattern : bytes) : result PairError bytes :=
  let pattern := trim pattern in
  if decide (pattern = []) then Err NoIndex
  else if negb (contains pattern (str "*")) then Ok pattern
  else
    names ← ok_or names NamesFailed;
    match filter (fun n => stream_glob_matches pattern n = true) names with
    | [] => Err (NoMatch pattern)
    | [n] => Ok n
    | l => Err (ManyMatch pattern (length l))
    end.
Fixpoint join (sep : bytes) (l : list bytes) : bytes :=
  match l with [] => [] | [x] => x | x :: l => x ++ sep ++ join sep l end.
Definition index_pattern (header : json) : bytes :=
  match get header (str "index") with
  | None => []
  | Some (Array l) => join (str ",") (omap as_str l)
  | Some (JString s) => s
  | Some other => json_to_string other
  end.
Fixpoint read_pairs (lines : list bytes) : ReplyR (list (json * json)) :=
  match lines with
  | [] => Ok []
  | [_] => Err (EsError 400 HeaderWithoutBody)
  | h :: b :: lines =>
      header ← ok_or (from_str h) (EsError 400 NotJson);
      search_body ← ok_or (from_str b) (EsError 400 NotJson);
      rest ← read_pairs lines;
      Ok ((header, search_body) :: rest)
  end.
Definition run_pair (names : option (list bytes)) (serve : Service) (pair : json * json) : result PairError json :=
  stream ← resolve_stream names (index_pattern pair.1);
  match search_body serve stream pair.2 with Ok r => Ok r | Err e => Err (PairFailed e) end.
(** What a pair's place in the response holds. *)
Inductive PairReply := PairAnswer (j : json) | PairError400 (e : PairError) | PairUnwound.
Definition pair_reply (r : result PairError json) : PairReply :=
  match r with
  | Ok j => match set_key (str "status") (Number (PosInt 200)) j with Some j => PairAnswer j | None => PairUnwound end
  | Err e => PairError400 e
  end.
Definition msearch (w : World) (names : option (list bytes)) (body : bytes) : ReplyR (list PairReply) :=
  serve ← service w;
  pairs ← read_pairs (filter (fun l : bytes => l <> []) (trim <$> split_on x0a body));
  Ok ((fun p => pair_reply (run_pair names serve p)) <$> (pairs : list (json * json))).

(** ** [_count] *)

(** The request's total is counted to the end. *)
Definition exact (rq : SearchRequest) : SearchRequest :=
  mkRequest (rq_query rq) (from rq) (size rq) (rq_sort rq) (rq_aggs rq) (include_source rq) None (search_after rq) (search_after_values rq).
Definition count_body (o : list (bytes * json)) (q : option bytes) : json :=
  let base := [(str "size", Number (PosInt 0)); (str "track_total_hits", Bool true)] in
  match assoc (str "query") o with
  | Some query => Object (obj_insert (str "query") query base)
  | None => match q with
            | Some q => Object (obj_insert (str "query") (Object [(str "query_string", Object [(str "query", JString q)])]) base)
            | None => Object base
            end
  end.
Definition count (w : World) (index : bytes) (params : gmap bytes bytes) (body : bytes) : Reply :=
  let counted : ReplyR json :=
    serve ← service w;
    j ← parse_body body;
    o ← ok_or (as_object j) (EsError 400 CountNotObject);
    match head (filter (fun k : bytes => k <> str "query") o.*1) with
    | Some key => Err (EsError 400 (CountMember key))
    | None =>
        response ← or_reply (search_body (fun index rq => serve index (exact rq)) index (count_body o (params !! str "q")));
        Ok (Object [(str "_shards", at_key response (str "_shards"));
                    (str "count", at_key (hits_total response) (str "value"))])
    end in
  match counted with Ok j => Answer j | Err r => r end.
End statements.

(** ** A scroll reads what its search lists *)

Section reading.
Context `{C : TextCodec} (make_interval : Z -> Z) (from_str : bytes -> option json).
Local Notation search := (search make_interval from_str).
Local Notation scroll_page := (scroll_page make_interval from_str).

Definition hits_are (response : json) (l : list json) : Prop :=
  exists o, response = Object o /\ at_key (at_key response (str "hits")) (str "hits") = Array l.
(** What the routes rely on of a search service: with [body] it lists [L],
    [n] hits to a page, and past the [sort] values of a hit the hits after it. *)
Record lists (serve : Service) (index : bytes) (body : json) (n : nat) (L : list json) : Prop := {
  ls_first : exists r, search_body serve index body = Ok r /\ hits_are r (take n L);
  ls_next k h : L !! k = Some h -> exists c j r, get h (str "sort") = Some (Array c) /\
    page_body (without_aggs body) (Array c) = Some j /\ search_body serve index j = Ok r /\ hits_are r (take n (drop (S k) L));
}.

(** A client that asks for page after page by the id in the path. *)
Fixpoint scroll_run (ws : list World) (params : gmap bytes bytes) (identity : option Identity) (id : bytes) (d : Scrolls) : Scrolls * list Reply :=
  match ws with
  | [] => (d, [])
  | w :: ws =>
      let '(d, r) := scroll_page w params identity [] (Some id) d in
      let '(d, rs) := scroll_run ws params identity id d in (d, r :: rs)
  end.
(** Each request comes before the context expires. *)
Fixpoint in_time (now : Z) (keep : Z) (ws : list World) : Prop :=
  match ws with [] => True | w :: ws => w_now w < now + make_interval keep /\ in_time (w_now w) keep ws end.

(** The context after [m] hits were read of [L]. *)
Record reads (index : bytes) (request : json) (L : list json) (m : nat) (s : ScrollRecord) : Prop := {
  rd_stream : sc_stream s = index;
  rd_request : sc_request s = request;
  rd_within : (m <= length L)%nat;
  rd_cursor : match m with O => L = [] /\ sc_cursor s = None | S k => exists h, L !! k = Some h /\ sc_cursor s = get h (str "sort") end;
}.

Lemma at_key_insert k v o : at_key (Object (obj_insert k v o)) k = v.
Proof. unfold at_key. cbn. by rewrite assoc_insert. Qed.
Lemma at_key_insert_ne k l v o : k <> l -> at_key (Object (obj_insert l v o)) k = at_key (Object o) k.
Proof. intros H. unfold at_key. cbn. by rewrite assoc_insert_ne. Qed.
Lemma hits_are_total r total l : hits_are r l -> exists r', with_total total r = Some r' /\ hits_are r' l.
Proof.
  intros (o & -> & H). unfold with_total. destruct (at_key (Object o) (str "hits")) as [| | | | |h] eqn:E; cbn in H; try done. cbn [set_key mbind option_bind].
  eexists. split; [done|]. eexists. split; [done|]. rewrite at_key_insert. rewrite at_key_insert_ne by done. exact H.
Qed.
Lemma hits_are_id r id l : hits_are r l -> exists r', set_key (str "_scroll_id") id r = Some r' /\ hits_are r' l.
Proof. intros (o & -> & H). eexists. split; [done|]. eexists. split; [done|]. by rewrite at_key_insert_ne. Qed.
Lemma last_hit_sort_are r l : hits_are r l ->
  last_hit_sort r = (h ← list.last l; s ← get h (str "sort"); match s with Array _ => Some s | _ => None end).
Proof. intros (o & -> & H). unfold last_hit_sort. by rewrite H. Qed.

Lemma alter_known {A} (f : A -> A) (k : bytes) (m : gmap bytes A) x : m !! k = Some x -> alter f k m = <[k := f x]> m.
Proof.
  intros H. apply map_eq. intros j. destruct (decide (j = k)) as [->|Hn]; [by rewrite lookup_alter_eq, lookup_insert_eq, H|].
  by rewrite lookup_alter_ne, lookup_insert_ne.
Qed.
(** One request moves the context past the page it answers. *)
Lemma scroll_step w params identity id d s serve index body n L m keep :
  w_serve w = Some serve -> w_reads w = true -> w_writes w = true -> lists serve index body n L ->
  valid_scroll_id id = true -> comma_ids id = [id] -> params !! str "scroll_id" = None ->
  (r ← params !! str "scroll"; result_ok (parse_keep_alive r)) = Some keep ->
  d !! id = Some s -> live_scroll (w_now w) s = true -> may_read identity index = true -> reads index (without_aggs body) L m s ->
  exists r s', scroll_page w params identity [] (Some id) d = (<[id := s']> d, Answer r) /\ hits_are r (take n (drop m L)) /\
    reads index (without_aggs body) L (m + length (take n (drop m L))) s' /\ sc_expires s' = w_now w + make_interval keep.
Proof.
  intros Hs Hr Hw [_ Hnext] Hv Hc Hp Hk Hd Hl Hm [R1 R2 R3 R4].
  assert (exists page, next_page serve s = Ok page /\ hits_are page (take n (drop m L))) as (page & Epage & Hpage).
  { unfold next_page. destruct m as [|k].
    - destruct R4 as [-> ->]. eexists. split; [done|]. rewrite drop_nil, take_nil. by eexists.
    - destruct R4 as (h & Hh & ->). destruct (Hnext k h Hh) as (c & j & r & Ec & Ej & Er & Hh').
      exists r. rewrite Ec, R2, R1. cbn [ok_or mbind result_bind]. rewrite Ej. cbn [ok_or mbind result_bind]. unfold or_reply. by rewrite Er. }
  destruct (hits_are_total page (sc_total s) _ Hpage) as (page' & Et & Hpage').
  destruct (hits_are_id page' (JString id) _ Hpage') as (r & Er & Hr').
  unfold scroll_page, read_page, service. rewrite Hs. cbn [ok_or mbind result_bind]. unfold scroll_params, parse_body. cbn [trim]. rewrite decide_True by done.
  cbn [mbind result_bind from_option]. rewrite Hc, Hp. cbn [from_option]. change (body_ids (Object [])) with (@nil bytes). cbn [app head ok_or mbind result_bind].
  rewrite Hv. cbn [negb]. change (v ← get (Object []) (str "scroll"); as_str v) with (@None bytes). cbn iota.
  destruct (params !! str "scroll") as [raw|] eqn:Eraw; [|done]. cbn [mbind option_bind] in Hk. cbn [fmap option_fmap option_map].
  destruct (parse_keep_alive raw) as [secs|] eqn:Esecs; [|done]. injection Hk as <-. cbn [mbind result_bind]. rewrite Hr. unfold get_scroll. rewrite Hd. cbn [mbind option_bind].
  rewrite Hl. cbn [ok_or mbind result_bind]. rewrite R1, Hm. cbn [negb]. rewrite Epage. cbn [mbind result_bind]. rewrite Et. cbn [ok_or mbind result_bind].
  rewrite Hw, Er. set (cur := last_hit_sort page').
  exists r. eexists. split_and!; [|exact Hr'| |].
  { f_equal. unfold advance_scroll. by apply alter_known. }
  2: done.
  split; cbn [sc_stream sc_request sc_cursor]; [done|done| |].
  { rewrite length_take, length_drop. lia. }
  unfold cur. rewrite (last_hit_sort_are _ _ Hpage'). destruct (take n (drop m L)) as [|h0 l0] eqn:El; [cbn; by rewrite Nat.add_0_r|].
  rewrite <- El. set (p := length (take n (drop m L))). assert (0 < p)%nat as Hp0 by (unfold p; rewrite El; cbn; lia).
  assert (list.last (take n (drop m L)) = L !! (m + (p - 1))%nat) as ->.
  { rewrite last_lookup. fold p. rewrite lookup_take_lt by (unfold p in *; rewrite length_take in *; lia). rewrite lookup_drop. f_equal. lia. }
  replace (m + p)%nat with (S (m + (p - 1))) by lia.
  destruct (lookup_lt_is_Some_2 L (m + (p - 1))%nat) as [h Hh]; [unfold p in *; rewrite length_take, length_drop in *; lia|].
  exists h. split; [done|]. rewrite Hh. cbn [mbind option_bind]. destruct (Hnext _ h Hh) as (c & _ & _ & Ec & _). by rewrite Ec.
Qed.

(** An id of the right shape is read as itself. *)
Lemma hex_graphic b : is_hex b = true -> graphic b /\ b <> x2c.
Proof.
  unfold is_hex, is_ascii_digit, in_rng, graphic. intros H. split; [|by intros ->].
  rewrite !orb_true_iff, !andb_true_iff, !Z.leb_le in H. lia.
Qed.
Lemma split_on_none c l : c ∉ l -> split_on c l = [l].
Proof.
  induction l as [|b l IH]; [done|]. intros H. cbn. destruct (Byte.eqb b c) eqn:E; [apply Byte.byte_dec_bl in E as ->; exfalso; apply H; by left|].
  rewrite IH; [done|]. intros Hl. apply H. by right.
Qed.
Lemma valid_id_alone id : valid_scroll_id id = true -> comma_ids id = [id].
Proof.
  intros [Hl%Nat.eqb_eq Hh]%andb_true_iff. rewrite forallb_forall in Hh. unfold comma_ids.
  assert (Forall graphic id) as Hg by (apply Forall_forall; intros b Hb%list_elem_of_In; by apply hex_graphic, Hh).
  rewrite split_on_none.
  - cbn [fmap list_fmap]. rewrite trim_graphic by done. rewrite filter_cons, decide_True; [done|]. by destruct id.
  - intros Hc%list_elem_of_In%Hh%hex_graphic. by destruct Hc.
Qed.

Lemma take_rest {A} n k m (L : list A) : take n (drop m L) ++ take k (drop (m + length (take n (drop m L))) L) = take (n + k) (drop m L).
Proof.
  rewrite length_take, length_drop. destruct (Nat.le_ge_cases n (length L - m)) as [H|H].
  - rewrite Nat.min_l by lia. rewrite <- drop_drop. apply take_take_drop.
  - rewrite Nat.min_r by lia. rewrite (drop_ge L (m + _)%nat), take_nil, app_nil_r by lia. by rewrite !take_ge by (rewrite length_drop; lia).
Qed.

(** What every request of a scroll finds: the service, the metastore. *)
Definition scroll_world (index : bytes) (body : json) (n : nat) (L : list json) (w : World) : Prop :=
  w_reads w = true /\ w_writes w = true /\ exists serve, w_serve w = Some serve /\ lists serve index body n L.
Lemma scroll_run_reads ws params identity id index body n L keep :
  valid_scroll_id id = true -> params !! str "scroll_id" = None ->
  (r ← params !! str "scroll"; result_ok (parse_keep_alive r)) = Some keep -> may_read identity index = true ->
  Forall (scroll_world index body n L) ws -> forall d s m t0, d !! id = Some s -> reads index (without_aggs body) L m s ->
  sc_expires s = t0 + make_interval keep -> in_time t0 keep ws ->
  exists d' rs pages, scroll_run ws params identity id d = (d', Answer <$> rs) /\ Forall2 hits_are rs pages /\
    concat pages = take (length ws * n) (drop m L).
Proof.
  intros Hv Hp Hk Hm. induction 1 as [|w ws (Hr & Hw & serve & Hs & Hl) _ IH]; intros d s m t0 Hd HR He Ht.
  { exists d, [], []. by split_and!. }
  destruct Ht as [Ht Hts]. assert (live_scroll (w_now w) s = true) as Hlive by (unfold live_scroll; apply Z.ltb_lt; lia).
  destruct (scroll_step w params identity id d s serve index body n L m keep Hs Hr Hw Hl Hv (valid_id_alone id Hv) Hp Hk Hd Hlive Hm HR) as (r & s' & E & Hh & HR' & He').
  match type of E with _ = (?x, _) => set (d2 := x) in E end. assert (d2 !! id = Some s') as Hd2 by apply lookup_insert_eq.
  destruct (IH d2 s' _ (w_now w) Hd2 HR' He' Hts) as (d' & rs & pages & E' & F & Ec).
  exists d', (r :: rs), (take n (drop m L) :: pages). cbn [scroll_run]. rewrite E; cbv beta iota; rewrite E'. split; [done|]. split; [by constructor|].
  cbn [concat length]. rewrite Ec. apply take_rest.
Qed.

(** A client that opens a scroll and asks for pages within its keep-alive gets
    the listing of its search, every hit once and in order. *)
Lemma scroll_reads_listing w0 ws index params identity raw body o id d n L keep :
  (0 < n)%nat -> scroll_world index (Object o) n L w0 -> Forall (scroll_world index (Object o) n L) ws ->
  parse_body from_str body = Ok (Object o) -> scroll_body (Object o) = Ok (Object o) ->
  params !! str "scroll" = Some raw -> parse_keep_alive raw = Ok keep -> params !! str "scroll_id" = None ->
  valid_scroll_id id = true -> d !! id = None -> may_read identity index = true -> in_time (w_now w0) keep ws ->
  exists d1 r0 d2 rs pages, search w0 index params body id d = (d1, Answer r0) /\
    scroll_run ws params identity id d1 = (d2, Answer <$> rs) /\ Forall2 hits_are (r0 :: rs) pages /\
    concat pages = take (S (length ws) * n) L.
Proof.
  intros Hn (_ & Hw & serve & Hs & Hl) Hws Hb Hsb Hraw Hk Hp Hv Hd Hm Ht. pose proof Hl as [(r & Er & Hr) Hnext].
  destruct (hits_are_id r (JString id) _ Hr) as (r0 & Er0 & Hr0).
  set (row := mkScroll index (without_aggs (Object o)) (last_hit_sort r) (hits_total r) (w_now w0 + make_interval keep)).
  assert (reads index (without_aggs (Object o)) L (length (take n L)) row) as HR.
  { split; [done..| |]; cbn [sc_cursor row]; rewrite ?(last_hit_sort_are _ _ Hr).
    - rewrite length_take. lia.
    - destruct (take n L) as [|h0 l0] eqn:El.
      + split; [|done]. destruct L; [done|]. destruct n; [lia|done].
      + rewrite <- El. destruct (length (take n L)) as [|k] eqn:Ep; [by rewrite El in Ep|]. rewrite last_lookup, Ep. cbn [Nat.pred].
        rewrite length_take in Ep. destruct (lookup_lt_is_Some_2 L k) as [h Hh]; [lia|].
        exists h. split; [done|]. rewrite lookup_take_lt by lia.
        rewrite Hh. cbn [mbind option_bind]. destruct (Hnext _ h Hh) as (c & _ & _ & Ec & _). by rewrite Ec. }
  assert ((r' ← params !! str "scroll"; result_ok (parse_keep_alive r')) = Some keep) as Hk' by (rewrite Hraw; cbn; by rewrite Hk).
  destruct (scroll_run_reads ws params identity id index (Object o) n L keep Hv Hp Hk' Hm Hws (<[id := row]> d) row _ (w_now w0) (lookup_insert_eq _ _ _) HR eq_refl Ht)
    as (d2 & rs & pages & E & F & Ec).
  exists (<[id := row]> d), r0, d2, rs, (take n L :: pages). split_and!; [|done|by constructor|].
  - unfold search, run_search, service. rewrite Hs. cbn [ok_or mbind result_bind]. rewrite Hb. cbn [mbind result_bind]. rewrite Hraw, Hk. cbn [mbind result_bind].
    rewrite Hsb. cbn [mbind result_bind]. unfold or_reply. rewrite Er. cbn [mbind result_bind]. rewrite Hw. unfold create_scroll. rewrite Hd. by rewrite Er0.
  - cbn [concat]. rewrite Ec. pose proof (take_rest n (length ws * n) 0 L) as E0. by rewrite drop_0 in E0.
Qed.
End reading.

(** ** The listing of a search (executor.rs) *)

Section listing.
Context `{T : TimeCrate} `{C : TextCodec} `{X : TextTables} `{I : IndexCrate} (now : Z).

(** The response of a search: its time, its shards, what the library made of
    its aggregations. *)
Definition search_response (took shards : Z) (aggs : option json) (hits : list json) (pg : Page) : json :=
  let n z := Number (PosInt z) in
  let base :=
    [(str "_shards", Object [(str "failed", n 0); (str "skipped", n 0); (str "successful", n shards); (str "total", n shards)]);
     (str "hits", Object [(str "hits", Array hits); (str "max_score", Null);
                          (str "total", Object [(str "relation", JString (str (if pg_lower_bound pg then "gte" else "eq"))); (str "value", n (pg_total pg))])]);
     (str "timed_out", Bool false); (str "took", n took)] in
  Object (match aggs with Some a => obj_insert (str "aggregations") a base | None => base end).

Variables (from_str : bytes -> option json) (split_id : Z -> bytes) (stored : SplitHit -> option bytes * option Z * option bytes).
(** The service over one stream: [took], [shards] and [aggs] are reported only. *)
Definition stream_service (ev : Env) (e : list event) (took shards : Z) (aggs : option json) : Service := fun index rq =>
  match Search.search now (with_events ev e) rq with
  | Err e => Err (SearchFailed e)
  | Ok r => Ok (search_response took shards aggs (response_hits from_str split_id stored index (include_source rq) r) r.2)
  end.

(** Every split opens and takes the query. *)
Definition readable (jb : Job) (sl : SplitRecord * SearchResult Reader) : Prop :=
  exists rd m, sl.2 = Ok rd /\ reader_matches now rd (jb_query jb) = Ok m.
Lemma task_answers jb d a i sl skip : jb_plan jb = ByTimestamp d a -> readable jb sl -> exists o, split_task now jb i sl skip = Ok o.
Proof.
  intros Hp (rd & m & Erd & Em). unfold split_task. destruct (_ && _ && _); [by eexists|]. rewrite Erd. cbn [mbind result_bind].
  unfold search_one_split. rewrite Em. cbn [mbind result_bind]. rewrite Hp. unfold page_search.
  destruct (outside_cursor _ _); cbn [mbind result_bind]; repeat case_match; by eexists.
Qed.
Lemma splits_answer jb d a splits evs : jb_plan jb = ByTimestamp d a -> Forall (readable jb) splits -> all_started (length splits) evs ->
  exists outs, search_splits now jb splits evs = Ok outs.
Proof.
  intros Hp Hr Ha. unfold search_splits.
  assert (forall l, Forall (fun i => (i < length splits)%nat) l -> exists os, gather ((fun i => outcomes (run now jb splits evs) !! i) <$> l) = Ok os) as G.
  { induction 1 as [|i l Hi _ [os IH]]; [by eexists|]. rewrite fmap_cons. cbn [gather]. destruct (lookup_lt_is_Some_2 splits i Hi) as [sl Hsl].
    destruct (run_outcomes now jb splits evs i sl Hsl (Ha i Hi)) as (pre & post & _ & Eo). rewrite Forall_forall in Hr.
    destruct (task_answers jb d a i sl (skip_counting (jb_track jb) (counted (run now jb splits pre))) Hp) as [o Eo'].
    { apply Hr. by eapply list_elem_of_lookup_2. }
    rewrite Eo, Eo'. cbn [default from_option id mbind result_bind]. rewrite IH. by eexists. }
  apply G. apply Forall_forall. intros i [_ Hi]%elem_of_seq. lia.
Qed.

Lemma page_hits_response took shards aggs hits pg : hits_are (search_response took shards aggs hits pg) hits.
Proof. unfold search_response. destruct aggs; by eexists. Qed.

(** The request of a page past a hit. *)
Definition page_request (rq : SearchRequest) (h : SplitHit) : SearchRequest :=
  mkRequest (rq_query rq) (from rq) (Search.size rq) (rq_sort rq) None (include_source rq) (Some 0) (Some (cursor_of h)) None.
Lemma assoc_without_aggs k o : k <> str "aggs" -> k <> str "aggregations" ->
  get (without_aggs (Object o)) k = assoc k o.
Proof.
  intros H1 H2. cbn. induction o as [|[k' v] o IH]; [done|]. rewrite filter_cons. case_decide as Hd; cbn; [by rewrite IH|].
  rewrite decide_False; [done|]. intros <-. by apply Hd.
Qed.
Lemma assoc_no_aggs k o : k = str "aggs" \/ k = str "aggregations" -> get (without_aggs (Object o)) k = None.
Proof.
  intros Hk. cbn. induction o as [|[k' v] o IH]; [done|]. rewrite filter_cons. case_decide as Hd; cbn; [|done].
  rewrite decide_False; [done|]. intros <-. by destruct Hd, Hk.
Qed.

(** A page's body parses to the request past the hit. *)
Lemma page_parses o rq d h : safe_hit h -> parse_request (Object o) = Ok rq -> rq_sort rq = Timestamp d -> from rq = 0 ->
  exists j, page_body (without_aggs (Object o)) (Array (sort_json (ByTimestamp d None) h (default (-1) (sh_seq h)))) = Some j /\
    parse_request j = Ok (page_request rq h).
Proof.
  intros Hh Hrq Hs Hf. set (c := sort_json _ h _). unfold page_body. cbn [without_aggs set_key mbind option_bind].
  set (o' := filter (fun kv : bytes * json => kv.1 <> str "aggs" /\ kv.1 <> str "aggregations") o). eexists. split; [done|].
  set (j := Object _). assert (forall k, k <> str "search_after" -> k <> str "track_total_hits" -> get j k = get (without_aggs (Object o)) k) as Hg.
  { intros k H1 H2. unfold j. cbn [get]. rewrite !assoc_insert_ne by done. done. }
  assert (get j (str "search_after") = Some (Array c)) as E1 by (unfold j; cbn [get]; rewrite assoc_insert_ne, assoc_insert; done).
  assert (get j (str "track_total_hits") = Some (Bool false)) as E2 by (unfold j; cbn [get]; by rewrite assoc_insert).
  unfold parse_request in *. rewrite E1, E2. rewrite !Hg by done. rewrite (assoc_no_aggs (str "aggs") o), (assoc_no_aggs (str "aggregations") o) by auto. rewrite !assoc_without_aggs by done.
  change (get (Object o) ?k) with (assoc k o) in Hrq. change (get (Object o)) with (fun k => assoc k o) in Hrq. cbv beta in Hrq.
  destruct (_ || _ || _); [done|]. destruct (parse_sort (assoc (str "sort") o)) as [s|]; [|done]. cbn [mbind result_bind] in Hrq |- *.
  match type of Hrq with (_ ← ?m; _) = _ => destruct m as [[after values]|] eqn:Ea; [|done] end. cbn [mbind result_bind] in Hrq.
  destruct ((_ || _) && _); [done|]. injection Hrq as <-. cbn [rq_sort from] in *. subst s. rewrite Hf.
  change (1 <=? length c)%nat with true. change (length c <=? 2)%nat with true. cbn [andb]. unfold c. rewrite sent_cursor_echo by done. cbn [mbind result_bind].
  cbn [Z.eqb negb]. rewrite andb_false_r. done.
Qed.

(** The job of a page is the first one's past the hit, aggregations and count
    left out. *)
Lemma page_job ev e rq d h jb splits : rq_sort rq = Timestamp d -> search_job now ev rq = Ok (jb, splits) ->
  search_job now (with_events ev e) (page_request rq h) =
    Ok (mkJob (jb_query jb) (jb_bounds jb) false (jb_limit jb) (ByTimestamp d (Some (cursor_of h))) (Some 0) (jb_tombstones jb), splits).
Proof.
  intros Hs. unfold search_job. cbn [page_request rq_query rq_aggs ev_db ev_stream with_events ev_schema ev_aggs_ok ev_tombstones ev_open].
  destruct (extract_time_bounds now (rq_query rq)) as [b|]; [|done]. cbn [ok_or mbind result_bind]. destruct (MAX_QUERY_SPLITS <? _); [done|].
  destruct (negb _); [done|]. cbn [fmap option_fmap option_map opt_all negb]. destruct (if is_document_mode _ then _ else _) as [ts|]; [|done]. cbn [mbind result_bind].
  unfold make_plan. cbn [page_request rq_sort search_after]. rewrite Hs. cbn [mbind result_bind]. by intros [= <- <-].
Qed.

(** The hits of a response, and of all of them in order. *)
Definition envelope (index : bytes) (d src : bool) (h : SplitHit) : json :=
  hit_envelope from_str (split_id (split_idx h)) index (ByTimestamp d None) src h (stored h).
Definition listing (index : bytes) (d src : bool) (jb : Job) (splits : Splits) : list json :=
  envelope index d src <$> sort_by (cmp_merge (ByTimestamp d None)) (all_candidates now jb splits).
Lemma service_page ev e took shards aggs index rq d a jb splits :
  search_job now (with_events ev e) rq = Ok (jb, splits) -> jb_plan jb = ByTimestamp d a -> slots_ok now jb splits ->
  Forall (readable jb) splits -> all_started (length splits) e -> from rq = 0 -> 0 <= Search.size rq ->
  exists r, stream_service ev e took shards aggs index rq = Ok r /\
    hits_are r (take (Z.to_nat (Search.size rq)) (listing index d (include_source rq) jb splits)).
Proof.
  intros Hj Hp Hs Hr He Hf Hz. destruct (splits_answer jb d a splits e Hp Hr He) as [outs Eo].
  assert (exists pg, Search.search now (with_events ev e) rq = Ok (ByTimestamp d a, pg)) as [pg Es].
  { unfold Search.search. rewrite Hj. cbn [mbind result_bind]. change (ev_events (with_events ev e)) with e. rewrite Eo. cbn [mbind result_bind]. rewrite Hp. by eexists. }
  unfold stream_service. rewrite Es. eexists. split; [done|]. assert (pg_hits pg = take (Z.to_nat (Search.size rq)) (sort_by (cmp_merge (ByTimestamp d None)) (all_candidates now jb splits))) as E.
  { pose proof (search_slice now (with_events ev e) rq _ pg jb splits Es Hj Hs He ltac:(lia) Hz) as E. rewrite Hf, drop_0 in E. rewrite E.
    assert (forall k, sort_by (cmp_merge (ByTimestamp d a)) k = sort_by (cmp_merge (ByTimestamp d None)) k) as -> by (intros k; by destruct d). done. }
  unfold listing. rewrite <- fmap_take, <- E. unfold response_hits. cbn [fst snd]. apply page_hits_response.
Qed.

(** What a stream lists, page by page, with no two hits of one timestamp and
    [_seq] and each stored document's [_seq] its column's. *)
Lemma stream_lists ev e took shards aggs index o rq d jb splits :
  parse_request (Object o) = Ok rq -> rq_sort rq = Timestamp d -> from rq = 0 -> 0 < Search.size rq -> search_after rq = None ->
  search_job now ev rq = Ok (jb, splits) -> slots_ok now jb splits -> Forall (readable jb) splits -> all_started (length splits) e ->
  NoDup (merge_key <$> all_candidates now jb splits) -> Forall safe_hit (all_candidates now jb splits) ->
  Forall (fun h => (stored h).1.2 = sh_seq h) (all_candidates now jb splits) ->
  lists (stream_service ev e took shards aggs) index (Object o) (Z.to_nat (Search.size rq)) (listing index d (include_source rq) jb splits).
Proof.
  intros Hrq Hso Hf Hz Ha Hj Hs Hr He Hd Hsafe Hst.
  assert (jb_plan jb = ByTimestamp d None) as Hp.
  { unfold search_job in Hj. destruct (extract_time_bounds now (rq_query rq)) as [b|]; [|done]. cbn [ok_or mbind result_bind] in Hj. destruct (MAX_QUERY_SPLITS <? _); [done|].
    destruct (negb _); [done|]. destruct (if is_document_mode _ then _ else _) as [ts|]; [|done]. cbn [mbind result_bind] in Hj.
    unfold make_plan in Hj. rewrite Hso, Ha in Hj. cbn [mbind result_bind] in Hj. by injection Hj as <- _. }
  split.
  - unfold search_body. rewrite Hrq. by apply (service_page ev e took shards aggs index rq d None jb splits); [|done..|lia].
  - intros k x (h & -> & Hk)%list_lookup_fmap_Some. set (l := all_candidates now jb splits) in *. set (c := cmp_merge (ByTimestamp d None)) in *.
    assert (h ∈ l) as Hh by (apply (elem_of_sort_by c); by eapply list_elem_of_lookup_2).
    rewrite Forall_forall in Hsafe, Hst. destruct (page_parses o rq d h (Hsafe h Hh) Hrq Hso Hf) as (j & Ej & Erq).
    set (jb' := mkJob (jb_query jb) (jb_bounds jb) false (jb_limit jb) (ByTimestamp d (Some (cursor_of h))) (Some 0) (jb_tombstones jb)).
    assert (slots_ok now jb' splits) as Hs'.
    { unfold slots_ok in *. eapply Forall_impl; [exact Hs|]. intros sl Hsl.
      apply (slot_ok_cursor now jb d (Some (cursor_of h)) sl Hp) in Hsl; [|destruct (Hsafe h Hh); unfold sent_cursor; cbn; lia].
      destruct Hsl as [H1 H2 H3]. by split. }
    destruct (service_page ev e took shards aggs index (page_request rq h) d (Some (cursor_of h)) jb' splits) as (r & Er & Hits); [by apply page_job|done..|cbn; lia|].
    exists (sort_json (ByTimestamp d None) h (default (-1) (sh_seq h))), j, r. split_and!; [|exact Ej|unfold search_body; by rewrite Erq|].
    + unfold envelope, hit_envelope. rewrite <- (Hst h Hh). destruct (stored h) as [[id seq] source]. cbn [fst snd].
      destruct (include_source rq), seq; cbn [get]; rewrite ?assoc_insert_ne by done; done.
    + assert (listing index d (include_source (page_request rq h)) jb' splits = drop (S k) (listing index d (include_source rq) jb splits)) as E; [|by rewrite E in Hits].
      unfold listing. rewrite <- fmap_drop. cbn [include_source page_request]. f_equal.
      change (all_candidates now jb' splits) with (all_candidates now (with_cursor jb d (Some (cursor_of h))) splits).
      rewrite (candidates_cursor now jb splits d (Some (cursor_of h)) Hp). fold l c.
      assert (sort_by c l = take k (sort_by c l) ++ h :: drop (S k) (sort_by c l)) as El by (by rewrite take_drop_middle).
      rewrite (filter_ext_in _ (past c h)).
      * apply (past_drop c (merge_ok (ByTimestamp d None)) (cmp_merge_good _) l (take k (sort_by c l)) h); [by apply Forall_forall|apply all_candidates_strict|by eapply NoDup_fmap_1|exact El].
      * intros y Hy. apply (hit_past_cursor d l); [done|by apply (ts_candidates_plain now jb splits d None)|done..].
Qed.

(** ** Routes over a stream *)

(** What a request to a node finds: its metastore up, its service that of the
    stream, with the tasks interleaved in some order. *)
Definition stream_world (ev : Env) (splits : Splits) (w : World) : Prop :=
  w_reads w = true /\ w_writes w = true /\
  exists e took shards aggs, w_serve w = Some (stream_service ev e took shards aggs) /\ all_started (length splits) e.


(** [_count] answers the number of live documents that match. *)
Theorem count_exact json_parse ev w e took shards aggs index params body o rq jb splits :
  w_serve w = Some (stream_service ev e took shards aggs) -> parse_body json_parse body = Ok (Object o) -> Forall (fun kv => kv.1 = str "query") o ->
  parse_request (count_body o (params !! str "q")) = Ok rq -> search_job now (with_events ev e) (exact rq) = Ok (jb, splits) ->
  slots_ok now jb splits -> Forall (readable jb) splits -> all_started (length splits) e -> orderly e -> jb_plan jb = ByTimestamp true None ->
  exists sh, count json_parse w index params body =
    Answer (Object [(str "_shards", sh); (str "count", Number (PosInt (sum (slot_count now jb <$> splits))))]).
Proof.
  intros Hw Hb Ho Hrq Hj Hs Hr He Hord Hp. unfold count, service. rewrite Hw. cbn [ok_or mbind result_bind]. rewrite Hb. cbn [mbind result_bind as_object ok_or].
  assert (filter (fun k : bytes => k <> str "query") o.*1 = []) as ->.
  { clear -Ho. induction Ho as [|kv o Hkv _ IH]; [done|]. rewrite fmap_cons, filter_cons, decide_False; [exact IH|by intros H]. }
  cbn [head]. unfold or_reply, search_body. rewrite Hrq. unfold stream_service.
  destruct (splits_answer jb true None splits e Hp Hr He) as [outs Eo].
  destruct (Search.search now (with_events ev e) (exact rq)) as [[plan pg]|] eqn:Es.
  2: { exfalso. unfold Search.search in Es. rewrite Hj in Es. cbn [mbind result_bind] in Es. change (ev_events (with_events ev e)) with e in Es. by rewrite Eo in Es. }
  destruct (total_reported now (with_events ev e) (exact rq) plan pg jb splits Es Hj Hs He Hord) as (_ & Heq & Hgt).
  assert (pg_lower_bound pg = false) as Hl.
  { apply not_true_iff_false. intros Hl. destruct (Hgt Hl) as (cap & Hc & _). done. }
  cbn [mbind result_bind snd]. rewrite <- (Heq Hl). unfold search_response. rewrite Hl. destruct aggs; by eexists.
Qed.
End listing.

(** ** Scopes *)

Section scope.
Context `{C : TextCodec} (make_interval : Z -> Z) (from_str : bytes -> option json).

Lemma delete_scrolls_lookup ids d id : (delete_scrolls ids d).1 !! id = if decide (id ∈ ids) then None else d !! id.
Proof.
  unfold delete_scrolls. cbn [fst]. case_decide as Hi.
  - apply map_lookup_filter_None. right. intros s _ H. by apply H.
  - destruct (d !! id) as [s|] eqn:E; [by apply map_lookup_filter_Some|]. apply map_lookup_filter_None. by left.
Qed.
Lemma list_scrolls_elem now d id stream : (id, stream) ∈ list_scrolls now d <-> exists s, d !! id = Some s /\ live_scroll now s = true /\ stream = sc_stream s.
Proof.
  unfold list_scrolls. rewrite list_elem_of_fmap. split.
  - intros ([id' s] & [= -> ->] & [Hl H%elem_of_map_to_list]%list_elem_of_filter). by exists s.
  - intros (s & Hs & Hl & ->). exists (id, s). split; [done|]. apply list_elem_of_filter. split; [done|by apply elem_of_map_to_list].
Qed.
(** [C25] A caller of a scope frees contexts inside it and no other, whatever ids
    it names; an id outside it is refused and nothing is freed. *)
Theorem clear_scrolls_scoped w params i body path_id d d' r :
  scoped (Some i) = Some i -> clear_scrolls from_str w params (Some i) body path_id d = (d', r) ->
  (forall id, d' !! id = d !! id \/ (d' !! id = None /\ exists s, d !! id = Some s /\ allows_stream i (sc_stream s) = true)) /\
  (forall ids keep id s, scroll_params from_str params body path_id = Ok (ids, keep) -> d !! id = Some s -> live_scroll (w_now w) s = true ->
    id ∈ ids -> allows_stream i (sc_stream s) = false -> str "_all" ∈ ids \/ d' = d).
Proof.
  intros Hi. unfold clear_scrolls. destruct (scroll_params from_str params body path_id) as [[ids keep]|e] eqn:Ep; cbn [mbind result_bind].
  2: { intros [= <- <-]. split; [by left|done]. }
  destruct (negb (bool_decide (str "_all" ∈ ids)) && bool_decide (ids = [])); [intros [= <- <-]; split; [by left|by right]|].
  destruct (negb (bool_decide (str "_all" ∈ ids)) && negb (forallb valid_scroll_id ids)); [intros [= <- <-]; split; [by left|by right]|].
  rewrite Hi. destruct (w_reads w); cbn [negb]; [|intros [= <- <-]; split; [by left|by right]].
  unfold free_scoped. set (live := list_scrolls (w_now w) d). set (all := bool_decide (str "_all" ∈ ids)).
  match goal with |- context [match ?m with Some _ => _ | None => _ end] => destruct m as [[x stream]|] eqn:Ef end; cbn [mbind result_bind].
  { intros [= <- <-]. split; [by left|by right]. }
  destruct (w_writes w); [|intros [= <- <-]; split; [by left|by right]].
  set (mine := _.*1). pose proof (delete_scrolls_lookup mine d) as Hdel. destruct (delete_scrolls mine d) as [d2 n2]. cbn [fst] in Hdel.
  intros [= <- <-]. split.
  - intros id. rewrite Hdel. case_decide as Hin; [right|by left]. split; [done|].
    apply list_elem_of_fmap in Hin as ([id' st] & -> & [[Ha _]%andb_true_iff Hl]%list_elem_of_filter). cbn [fst snd] in *.
    apply list_scrolls_elem in Hl as (s & Hs & _ & ->). by exists s.
  - intros ids' keep' id s [= <- <-] Hs Hl Hin Ha. left. destruct (bool_decide (str "_all" ∈ ids)) eqn:Eall; [by apply bool_decide_eq_true in Eall|].
    exfalso. unfold all in Ef. rewrite head_None in Ef. assert ((id, sc_stream s) ∈ @nil (bytes * bytes)) as H; [|by apply elem_of_nil in H].
    rewrite <- Ef. apply list_elem_of_filter. cbn [fst snd]. split; [|apply list_scrolls_elem; by exists s].
    rewrite (bool_decide_true (id ∈ ids)), Ha by done. done.
Qed.
(** A page is read only for a caller whose scope has the context's stream. *)
Theorem scroll_page_scoped w params i body path_id d id keep page :
  is_admin i = false -> read_page from_str w params (Some i) body path_id d = Ok (id, keep, page) ->
  exists s, get_scroll (w_now w) id d = Some s /\ allows_stream i (sc_stream s) = true.
Proof.
  intros Hi. unfold read_page. destruct (service w); [|done]. cbn [mbind result_bind]. destruct (scroll_params _ _ _ _) as [[ids kp]|]; [|done]. cbn [mbind result_bind].
  destruct (head ids) as [x|]; [|done]. cbn [ok_or mbind result_bind]. destruct (negb (valid_scroll_id x)); [done|].
  match goal with |- context [mbind ?f ?m] => destruct m as [kk|] end; [|done]. cbn [mbind result_bind].
  destruct (w_reads w); [|done]. destruct (get_scroll (w_now w) x d) as [s|] eqn:Es; [|done]. cbn [ok_or mbind result_bind].
  unfold may_read. rewrite Hi. cbn [orb]. destruct (allows_stream i (sc_stream s)) eqn:Ea; [|done]. cbn [negb].
  destruct (next_page _ s); [|done]. cbn [mbind result_bind]. destruct (with_total _ _); [|done]. cbn [ok_or mbind result_bind].
  intros [= <- _ _]. by exists s.
Qed.
End scope.

(** ** Witnesses *)

#[local] Existing Instances gregorian plain_codec plain_tables plain_index.

Definition demo_id : bytes := concat (replicate 16 (str "a7")).
Definition demo_body : list (bytes * json) := [(str "query", Object [(str "match_all", Object [])]); (str "size", Number (PosInt 2))].
Definition demo_params : gmap bytes bytes := {[ str "scroll" := str "1m" ]}.
Definition demo_stored (h : SplitHit) : option bytes * option Z * option bytes := (None, sh_seq h, None).
Definition demo_service (i : Z) : Service :=
  stream_service demo_now (fun _ => None) (fun _ => str "s") demo_stored demo_env demo_events i 2 None.
Definition demo_world (t : Z) : World := mkWorld t (Some (demo_service t)) true true.
Definition demo_interval (secs : Z) : Z := f64_as_i64 secs * 1000000.
Definition demo_keep : Z := match parse_keep_alive (str "1m") with Ok k => k | Err _ => 0 end.
Lemma demo_worlds ts : Forall (stream_world demo_now (fun _ => None) (fun _ => str "s") demo_stored demo_env demo_splits) (demo_world <$> ts).
Proof.
  induction ts as [|t ts IH]; constructor; [|exact IH]. split_and!; [done..|]. exists demo_events, t, 2, None. split; [done|exact demo_started].
Qed.
Lemma demo_readable sz track : Forall (readable demo_now (demo_job sz track)) demo_splits.
Proof. repeat (apply Forall_cons; split; [by eexists _, _|]). constructor. Qed.

Lemma count_exact_witness : exists sh, count (fun _ => None) (demo_world 0) (str "logs") ∅ [] =
  Answer (Object [(str "_shards", sh); (str "count", Number (PosInt 5))]).
Proof.
  destruct (count_exact demo_now (fun _ => None) (fun _ => str "s") demo_stored (fun _ => None) demo_env (demo_world 0) demo_events 0 2 None (str "logs") ∅ [] []
    (demo_request 0 (Some 10000)) (demo_job 0 None) demo_splits) as [sh E]; [reflexivity|reflexivity|constructor|vm_compute; reflexivity|apply demo_job_eq|apply demo_slots_ok|
    apply demo_readable|exact demo_started|exact demo_orderly|reflexivity|].
  exists sh. rewrite E. vm_compute. reflexivity.
Defined.
Definition demo_row (stream : string) : ScrollRecord := mkScroll (str stream) Null None Null 10.
Definition demo_other : bytes := concat (replicate 16 (str "b8")).
Definition demo_rows : Scrolls := {[ demo_id := demo_row "logs"; demo_other := demo_row "other" ]}.
Definition demo_tenant : Identity := Auth.mkIdentity (str "t") false ∅ [str "logs"].
Lemma clear_scrolls_scoped_witness :
  let d' := (clear_scrolls (fun _ => None) (demo_world 0) ∅ (Some demo_tenant) [] (Some (str "_all")) demo_rows).1 in
  d' !! demo_id = None /\ d' !! demo_other = Some (demo_row "other").
Proof.
  intros d'. split; [vm_compute; reflexivity|].
  set (r := clear_scrolls (fun _ => None) (demo_world 0) ∅ (Some demo_tenant) [] (Some (str "_all")) demo_rows).
  destruct (clear_scrolls_scoped (fun _ => None) (demo_world 0) ∅ demo_tenant [] (Some (str "_all")) demo_rows r.1 r.2) as [H _]; [vm_compute; reflexivity|apply surjective_pairing|].
  destruct (H demo_other) as [E|[_ (s & Es & Ea)]]; [exact E|]. exfalso. vm_compute in Es. injection Es as <-. by vm_compute in Ea.
Defined.
